(* ===== verification/_CoqProject ===== *)
-Q . S2P
Prelude.v
GoUtf8.v
GoStrconv.v
GoStrings.v
Swar.v
Scan.v
Memchr.v
GoQuote.v
TomlBase.v
Datetime.v
TomlString.v
TomlStringSpec.v
TomlNumber.v
GoFloat.v
TomlKey.v
Decoder.v
DecoderSpec.v
TomlTree.v
TomlSkip.v
TomlDocument.v
TomlDocSpec.v
TomlMarshal.v
TomlRead.v
TomlParse.v
TomlParseDoc.v
TomlText.v
TomlMarshalSpec.v
TomlMarshalEq.v
TomlEdit.v
TomlEditPaths.v
TomlEditSpans.v
TomlEditParse.v
TomlEditEntries.v
TomlEditLayout.v
TomlEditSpec.v
LlmUtil.v
NotifyQueue.v
CodexRing.v
CodexRouter.v
CodexScan.v
CodexScanSpec.v
CodexErrors.v
CodexClient.v
CodexClientSpec.v
CodexRun.v
Tmux.v
TmuxSpec.v
TmuxClient.v
OpencodeSse.v
OpencodeBus.v
OpencodeBusSpec.v
ClaudeSession.v
ClaudeControl.v
ClaudeControlSpec.v
ClaudePermissions.v
ClaudeCallbacks.v
