(* ===== verification/Prelude.v ===== *)
(** * A verification of the core of zchee/pandaemonium

    The repository is a Go toolkit: a TOML library ([pkg/toml], with the byte
    kernels of [pkg/toml/internal/scan]), byte searches ([internal/memchr]), clients
    that drive coding agents ([pkg/llm] and its codex, claude and opencode
    packages) and a client of the control mode of tmux ([pkg/tmux]).  This library
    is a shallow embedding of the parts with logic of their own: Go functions are
    Rocq functions, errors are values of a sum type, mutated objects are explicit
    states or stores of shared objects, goroutines are step relations.  Machine
    words are [Z] with the wrap-around written out; bytes, offsets and strings are
    described below.

    ** Files and sources

    - Prelude, GoUtf8, GoStrconv, GoStrings, GoQuote, GoFloat: bytes, lists and
      results; what the sources use of Go's unicode/utf8, strconv and strings, with
      quoting and the shortest text of a float.
    - Swar, Scan: scan_swar.go and strict.go.  The class [ScanKernels] is the
      dispatch table of api.go with what the decoder relies on; [swar_kernels]
      discharges it, and everything above is proved against the class.
    - Memchr: memchr_swar_impl.go.
    - TomlBase: token.go, errors.go and the positions of decoder.go.
    - Datetime: datetime.go, datetime_parse.go.
    - TomlString, TomlNumber, TomlKey: the literals and keys of value.go and
      decoder.go, the last two next to the grammar they are proved against;
      TomlStringSpec: the string literals of TOML.
    - Decoder: the token stream of decoder.go, every scanning function of
      [ReadToken], options and limits.  DecoderSpec: its invariant.
    - TomlTree: the maps of a document (value.go), shared by reference in a store,
      with table headers, array-table headers and dotted assignment.  TomlSkip: the
      two value skippers of value.go.  TomlDocument: [parseDocument] in a monad over
      the decoder and the store.  TomlDocSpec: its invariants.
    - TomlMarshal: marshal.go, encoder.go and reflectcache.go; Go values as
      reflection sees them, the writers of values and documents as functions to the
      bytes written and the error that stopped them.
    - TomlRead, TomlParse, TomlParseDoc: forward lemmas of the decoder, token by
      token, then for values and for documents.  TomlText: the text of each scalar.
      TomlMarshalSpec, TomlMarshalEq: the encoder against the decoder, and encodings
      that agree.
    - TomlEdit: document.go, the format-preserving document: [ParseDocument], its
      entries with the spans of their values and lines, the recorded edits, [Bytes].
      TomlEditPaths: its path keys; TomlEditSpans, TomlEditParse, TomlEditEntries:
      where lines end in the token stream, and what parsing records; TomlEditLayout:
      the sorted splices, and the text they have to give, entry by entry;
      TomlEditSpec: the abstract document it implements.
    - LlmUtil: stderr.go, linebuffer.go, retry.go of pkg/llm.
    - NotifyQueue: notifyqueue.go of pkg/llm.
    - CodexRing, CodexRouter: notification_ring.go, notification_queue.go, router.go
      of pkg/llm/codex; queues are shared objects of a store.
    - CodexScan: notification_scan.go, the JSON scanner that finds the identifier
      the router dispatches on.  CodexScanSpec: its grammar, and the composition of
      scanner and router.
    - CodexErrors: errors.go and retry.go; CodexClient: jsonrpc_helpers.go and the
      parts of client.go that drive it, callers of [RequestRaw], the read loop and
      [Close] as threads of a step relation that contains the router of CodexRouter;
      CodexClientSpec: what holds in every interleaving.  CodexRun: run.go, the loops
      that wait for a turn, and the time limits of [Close].
    - Tmux: output.go, commandline.go, flow.go, protocol.go, notification.go of
      pkg/tmux.  TmuxSpec: what they guarantee.  TmuxClient: client.go and
      options.go, the callers of [ExecRaw], the read loop and [Close] as threads of
      a step relation.
    - OpencodeSse: events.go of pkg/llm/opencode, the framing of server-sent events.
      OpencodeBus: event_routing.go, the event bus with its reader, dials,
      subscribers and closers as threads of a step relation that also records a
      history of what was read, subscribed and closed; OpencodeBusSpec: what the
      history means for a consumer, and what holds in every interleaving.
    - ClaudeSession: session_store.go of pkg/llm/claude; the sessions, the arrays of
      their messages and the bytes of their [Raw] live in a heap that the store shares
      with its callers, who may write to what they hold between calls.
    - ClaudeControl: control_protocol.go and the parts of client.go that drive it;
      callers of [sendControlRequest], the read loop, a handler per request of the
      CLI and [Close] are threads of a step relation.  ClaudeControlSpec: what holds
      in every interleaving.
    - ClaudePermissions: permission_update.go, hooks.go and the tool-permission
      request; ClaudeCallbacks: hook callbacks, the in-process MCP servers of mcp.go,
      time limits and the environment of client_env.go.  Callbacks of the user are
      functions on a world of any type, so that which of them ran can be observed.

    ** What is shown

    - Kernels: every word-at-a-time routine returns what its byte-at-a-time
      definition returns ([swar_kernels_exact], [swar_searches_correct]), by one
      lemma on stop masks proved for any number of lanes; the validator returns the
      length of the longest prefix in UTF-8.
    - Literals: [parseDottedKey] accepts exactly its grammar, and [parseStringValue]
      exactly the string literals of TOML among those cut at their first closing
      delimiter, as the decoder cuts them; validation agrees with parsing; integers
      are exact at 64 bits; date-times round-trip.
    - Token stream: tokens are the slices of the source in order, with the positions
      counted from its start; errors are sticky; [ReadToken] and [parseDocument]
      return.  The last two need each carriage return to be followed by a line feed:
      a lone one where a line has to end makes the real loop spin, which
      DecoderSpec proves as well.
    - Documents: maps form a finite tree; an accepted key statement binds its path to
      its value and no later statement changes that binding.
    - Encoding: what [Marshal] writes for a [map[string]any] decodes to the data the
      map holds ([marshal_roundtrip]); maps with the same data give the same bytes;
      the type switch agrees with reflection, the ASCII path with [strconv.Quote] and
      the cached field order with sorting the fields of each value.  The premises of
      the round trip say which data have a text that reads back: UTF-8 strings
      without BEL and VT, 64-bit integers, the NaNs the decoder makes, real dates,
      offsets of whole minutes, names without NUL.
    - Editing: a document answers as a map from paths to values does
      ([document_refines]), and its text is the source with deleted lines gone, set
      values rewritten, inserted lines behind the entries of their anchors or at the
      end, and every other byte kept ([Document_Bytes_layout], [single_edit]); the
      spans behind this hold for every
      source ([ParseDocument_spans]).  Lines are disjoint when no container is left
      open, [closed_document]; TomlEditSpec shows what stray braces do otherwise, and
      which edits do not read back.
    - Queues and routing: ring and queue refine lists, the router refines an abstract
      router of bounded mailboxes; nothing is lost without being reported while a
      scope is kept, closing makes every later call return the error and wakes those
      that wait, late registration cannot be observed, no wakeup is lost.  The scanner
      accepts exactly a stated set of JSON documents, always returns, and agrees with
      decoding on documents without duplicate names.
    - codex client: every request owns one token, in the response table, with a
      thread about to send, or in its channel, and steps only move tokens; so no send
      blocks ([sends_never_block]), answers reach their request ([answers_match]) and
      the end of the connection releases every registered request
      ([disconnect_releases]).  Consumers get what the abstract router answers to the
      notifications in the order they are read ([notifications_delivered]).  Error
      bodies are classified exactly, and a turn yields its items, usage and final
      answer ([rpc_errors_classified], [run_result]).
    - tmux: the line parser accepts exactly the transcripts of blocks and
      notifications; rendered commands read back as their arguments by every reader
      with the quoting rules of tmux(1); output values decode exactly; in every
      interleaving a response goes to the command that caused it, when each line sent
      is one command; for a sequence of commands it does not
      ([sequence_misattributed]).
    - opencode: frames are exactly those of the records of the stream; every consumer
      gets what the history of the bus holds for its session, in order, with losses
      reported; dials do not tear an established bus down, and after closing every
      consumer gets what is left and then the error.
    - claude: the session store answers as a map of session values whatever callers
      do to the sessions and slices they hold ([store_refines]); only the bytes behind
      [Raw] are shared ([raw_is_shared]).  A control request returns the response
      to its own identifier or the error of a lost connection ([response_matches]);
      a lost connection and [Close] leave no registered request waiting
      ([fail_fast]); requests of the CLI are answered at most once, and none starts
      after [Close] has begun ([replies_at_most_once], [close_handlers]).  A denial
      is final, permission updates survive the wire, hook identifiers find their
      hooks and the environment of the subprocess is the documented one.

    ** Fuel

    Loops that are not structural take fuel.  Token and document loops take one more
    than the length of the source, and every iteration consumes a byte; the nesting
    of the JSON skipper and of parsed values is bounded by the same length, since
    every level consumes its opening bracket; rune, field and word loops consume at
    least a byte a step.  Running out of fuel is a result of its own wherever the Go
    code could loop, and the termination theorems show that it is not reached.  The
    retry loop is structural on the attempts left.  The search for the shortest digits
    of a float tries up to seventeen, which tell any two floats apart; that it
    succeeds for a float is a premise ([float_ok]) checked by computation.

    ** Parameters

    The table of [strconv.IsPrint] beyond Latin-1 (GoQuote), [strings.ToLower] (the
    decode filter, CodexErrors) and [strings.EqualFold] (CodexErrors);
    [json.Unmarshal] (the [unmarshal] arguments of CodexScan and CodexErrors, the
    class [Codec] of ClaudeControl, the decoders of CodexClient, CodexRun,
    ClaudePermissions and ClaudeCallbacks); [filepath.Match], the growth of a slice by
    [append] and random bytes (claude); the operation, cancellation and jitter of the
    retry loop (LlmUtil); the scan kernels of a build (the class [ScanKernels]); and
    tmux itself: an environment that answers the written lines in order, with a number
    of blocks each and after failed writes that are parameters of TmuxClient, and a
    reader of command lines that satisfies the class [TmuxReader] of TmuxSpec.

    ** Not modelled

    - Vector kernels and build-tag dispatch: assembly and intrinsics; the
      byte-at-a-time definitions are what they have to meet.
    - unmarshal_direct.go, the binding part of unmarshal.go and the construction of
      the decode filter: assignment to Go variables by reflection.  Of marshal.go the
      size hints, which only reserve capacity, and the pool of key slices; of
      document.go the two capacity hints.
    - protocol_gen.go and the typed methods around it: generated types.
    - The transports, command lines and server processes of the codex and claude
      clients and their message types, and the HTTP calls of opencode: the operating
      system, and data that an external JSON package decodes.
    - Subprocesses, pipes and sockets; examples, benchmarks and generators. *)
From Stdlib Require Export ZArith Lia ZifyBool ZifyNat Ascii String.
From stdpp Require Export base numbers strings gmap list.

#[global] Set Default Goal Selector "!".

(** ** Data shared by every component *)

(** Bytes are integers in [0, 256); a Go [[]byte] and a Go [string] are both
    sequences of bytes, so both are [bytes].  Offsets and lengths are [nat]. *)
Abbreviation bytes := (list Z).

Definition is_byte (b : Z) : Prop := (0 ≤ b < 256)%Z.

#[export] Instance is_byte_dec b : Decision (is_byte b).
Proof. unfold is_byte. apply _. Defined.

(** A value of [E]-failing Go code: the non-error results or the error. *)
Inductive result (E A : Type) : Type :=
| Ok (a : A)
| Err (e : E).
Arguments Ok {E A} a.
Arguments Err {E A} e.

Definition rbind {E A B} (c : result E A) (k : A → result E B) : result E B :=
  match c with
  | Ok a => k a
  | Err e => Err e
  end.

Definition rmap {E A B} (f : A → B) (c : result E A) : result E B :=
  rbind c (λ a, Ok (f a)).

Definition is_ok {E A} (c : result E A) : bool :=
  match c with Ok _ => true | Err _ => false end.

Declare Scope go_scope.
Delimit Scope go_scope with go.
Open Scope go_scope.

(** [v, err := c; if err != nil { return err }; k]. *)
Notation "'let!' x ':=' c 'in' k" := (rbind c (λ x, k))
  (at level 10, x pattern, c at level 100, k at level 200,
   format "'[v' 'let!'  x  ':='  c  'in' '/' k ']'") : go_scope.

#[global] Arguments Z.eqb : simpl never.
#[global] Arguments Z.ltb : simpl never.
#[global] Arguments Z.leb : simpl never.

(** Byte comparisons, at the level of the comparisons of [Z_scope]. *)
Notation "x =b y" := (Z.eqb x y) (at level 70, no associativity) : go_scope.
Notation "x <b y" := (Z.ltb x y) (at level 70, no associativity) : go_scope.
Notation "x ≤b y" := (Z.leb x y) (at level 70, no associativity) : go_scope.
Notation "x ≠b y" := (negb (Z.eqb x y)) (at level 70, no associativity) : go_scope.

(** ASCII constants of the sources, written as the numbers they are so that
    [lia] and the kernel see literals. *)
Abbreviation BS := 8%Z.
Abbreviation TAB := 9%Z.
Abbreviation LF := 10%Z.
Abbreviation FF := 12%Z.
Abbreviation CR := 13%Z.
Abbreviation ESC := 27%Z.
Abbreviation SP := 32%Z.
Abbreviation DQUOTE := 34%Z.
Abbreviation HASH := 35%Z.
Abbreviation DOLLAR := 36%Z.
Abbreviation PERCENT := 37%Z.
Abbreviation SQUOTE := 39%Z.
Abbreviation PLUS := 43%Z.
Abbreviation COMMA := 44%Z.
Abbreviation MINUS := 45%Z.
Abbreviation DOT := 46%Z.
Abbreviation SLASH := 47%Z.
Abbreviation c0 := 48%Z.
Abbreviation c1 := 49%Z.
Abbreviation c7 := 55%Z.
Abbreviation c9 := 57%Z.
Abbreviation COLON := 58%Z.
Abbreviation EQUALS := 61%Z.
Abbreviation AT := 64%Z.
Abbreviation cA := 65%Z.
Abbreviation cB := 66%Z.
Abbreviation cE := 69%Z.
Abbreviation cF := 70%Z.
Abbreviation cO := 79%Z.
Abbreviation cT := 84%Z.
Abbreviation cU := 85%Z.
Abbreviation cX := 88%Z.
Abbreviation cZ := 90%Z.
Abbreviation LBRACK := 91%Z.
Abbreviation BSLASH := 92%Z.
Abbreviation RBRACK := 93%Z.
Abbreviation UNDERSCORE := 95%Z.
Abbreviation ca := 97%Z.
Abbreviation cb := 98%Z.
Abbreviation ce := 101%Z.
Abbreviation cf := 102%Z.
Abbreviation ci := 105%Z.
Abbreviation cn := 110%Z.
Abbreviation co := 111%Z.
Abbreviation cr := 114%Z.
Abbreviation ct := 116%Z.
Abbreviation cu := 117%Z.
Abbreviation cx := 120%Z.
Abbreviation cz := 122%Z.
Abbreviation LBRACE := 123%Z.
Abbreviation RBRACE := 125%Z.
Abbreviation DEL := 127%Z.

(** The bytes of an ASCII literal of the sources. *)
Definition str (s : string) : bytes :=
  map (λ a, Z.of_N (N_of_ascii a)) (list_ascii_of_string s).
Arguments str s%_string.

(** ** The part of Go's [bytes] and [strings] packages the sources call *)

(** [s[i:j]]. *)
Definition slice (s : bytes) (i j : nat) : bytes := take (j - i) (drop i s).

(** The first index whose element satisfies [p], or the length: the shape of
    every [for i, b := range s { if p(b) { return i } }; return len(s)]. *)
Fixpoint find_stop {A} (p : A → bool) (s : list A) : nat :=
  match s with
  | [] => 0
  | b :: s' => if p b then 0 else S (find_stop p s')
  end.

(** The same with the absence made explicit, as [bytes.IndexByte] does with -1. *)
Fixpoint find_index {A} (p : A → bool) (s : list A) : option nat :=
  match s with
  | [] => None
  | b :: s' => if p b then Some 0 else S <$> find_index p s'
  end.

Definition IndexByte (s : bytes) (c : Z) : option nat := find_index (Z.eqb c) s.

Fixpoint find_last {A} (p : A → bool) (s : list A) : option nat :=
  match s with
  | [] => None
  | b :: s' =>
      match find_last p s' with
      | Some i => Some (S i)
      | None => if p b then Some 0 else None
      end
  end.

Definition LastIndexByte (s : bytes) (c : Z) : option nat := find_last (Z.eqb c) s.

Fixpoint count {A} (p : A → bool) (s : list A) : nat :=
  match s with
  | [] => 0
  | b :: s' => (if p b then 1 else 0) + count p s'
  end.

Definition bytes_eqb (s t : bytes) : bool := bool_decide (s = t).

Fixpoint has_prefix (s p : bytes) {struct p} : bool :=
  match p, s with
  | [], _ => true
  | _ :: _, [] => false
  | c :: p', b :: s' => (b =b c) && has_prefix s' p'
  end.

(** [bytes.ContainsAny] / [strings.ContainsAny] for an ASCII cutset. *)
Definition contains_any (s cutset : bytes) : bool :=
  existsb (λ b, existsb (Z.eqb b) cutset) s.

(** [bytes.TrimLeft] for an ASCII cutset. *)
Fixpoint trim_left (cutset s : bytes) : bytes :=
  match s with
  | [] => []
  | b :: s' => if existsb (Z.eqb b) cutset then trim_left cutset s' else s
  end.

(** [strings.Join]. *)
Fixpoint join (sep : bytes) (parts : list bytes) : bytes :=
  match parts with
  | [] => []
  | [p] => p
  | p :: rest => p ++ sep ++ join sep rest
  end.

Definition isDigit (b : Z) : bool := (c0 ≤b b) && (b ≤b c9).

(** ** Automation *)

Create HintDb go.

(** Split conjunctions, existentials and equations of the context. *)
Ltac go_simpl :=
  repeat match goal with
  | H : _ ∧ _ |- _ => destruct H
  | H : ∃ _, _ |- _ => destruct H
  | H : Ok _ = Ok _ |- _ => injection H as H; try subst
  | H : Err _ = Err _ |- _ => injection H as H; try subst
  | H : Ok _ = Err _ |- _ => discriminate H
  | H : Err _ = Ok _ |- _ => discriminate H
  | H : (_, _) = (_, _) |- _ => injection H as H; try subst
  | H : Some _ = Some _ |- _ => injection H as H; try subst
  | H : Some _ = None |- _ => discriminate H
  | H : None = Some _ |- _ => discriminate H
  end.

(** Case analysis on the innermost [match] or [if] of a hypothesis. *)
Ltac case_hyp H :=
  match type of H with
  | context [match ?x with _ => _ end] =>
      lazymatch x with
      | context [match _ with _ => _ end] => fail
      | _ => let E := fresh "E" in destruct x eqn:E
      end
  end.

(** Reflect the boolean tests of the sources into arithmetic facts. *)
Ltac bool_lia :=
  repeat match goal with
  | H : _ && _ = true |- _ => apply andb_prop in H; destruct H
  | H : _ || _ = false |- _ => apply orb_false_elim in H; destruct H
  | H : negb _ = true |- _ => apply negb_true_iff in H
  | H : negb _ = false |- _ => apply negb_false_iff in H
  | H : (_ <? _) = true |- _ => apply Nat.ltb_lt in H
  | H : (_ <? _) = false |- _ => apply Nat.ltb_ge in H
  | H : (_ <=? _) = true |- _ => apply Nat.leb_le in H
  | H : (_ <=? _) = false |- _ => apply Nat.leb_gt in H
  | H : (_ =? _) = true |- _ => apply Nat.eqb_eq in H
  | H : (_ =? _) = false |- _ => apply Nat.eqb_neq in H
  end; lia.

(** ** Generic lemmas *)

Section find_stop.
Context {A : Type}.
Implicit Types (p q : A → bool) (s : list A).

Lemma find_stop_le p s : find_stop p s ≤ length s.
Proof. induction s as [|b s IH]; simpl; [lia|]. destruct (p b); lia. Qed.

Lemma find_stop_app p s t :
  find_stop p (s ++ t) =
    if decide (find_stop p s = length s) then length s + find_stop p t
    else find_stop p s.
Proof.
  induction s as [|b s IH]; simpl; [done|].
  destruct (p b); [done|]. rewrite IH.
  repeat case_decide; lia.
Qed.

Lemma find_stop_lookup p s b :
  s !! find_stop p s = Some b → p b = true.
Proof.
  induction s as [|c s IH]; simpl; [done|].
  destruct (p c) eqn:E; simpl; [by intros [= ->]|done].
Qed.

Lemma find_stop_take p s :
  Forall (λ b, p b = false) (take (find_stop p s) s).
Proof.
  induction s as [|c s IH]; simpl; [constructor|].
  destruct (p c) eqn:E; simpl; by constructor.
Qed.

Lemma find_stop_all p s :
  find_stop p s = length s ↔ Forall (λ b, p b = false) s.
Proof.
  induction s as [|c s IH]; simpl; [done|].
  destruct (p c) eqn:E; rewrite Forall_cons.
  - split; [lia|]. intros [Hc _]. simpl in Hc. congruence.
  - rewrite <-IH. split; [intros; split; [done|lia]|intros [_ ?]; lia].
Qed.

Lemma find_stop_ext p q s :
  (∀ b, b ∈ s → p b = q b) → find_stop p s = find_stop q s.
Proof.
  induction s as [|c s IH]; intros H; simpl; [done|].
  rewrite (H c) by set_solver. destruct (q c); [done|].
  f_equal. apply IH. set_solver.
Qed.

Lemma find_stop_lt p s i b :
  s !! i = Some b → i < find_stop p s → p b = false.
Proof.
  revert i. induction s as [|c s IH]; intros [|i] Hi Hlt; simplify_eq/=.
  - destruct (p b); [lia|done].
  - destruct (p c); [lia|]. apply (IH i); [done|lia].
Qed.

(** [find_stop] is characterised by its stop and the elements before it. *)
Lemma find_stop_unique p s n :
  n ≤ length s → (∀ b, s !! n = Some b → p b = true) →
  (∀ i b, i < n → s !! i = Some b → p b = false) →
  find_stop p s = n.
Proof.
  revert n. induction s as [|c s IH]; simpl; intros n Hn Hat Hbef; [lia|].
  destruct n as [|n]; simpl in *.
  - by rewrite (Hat c).
  - rewrite (Hbef 0 c) by (done || lia).
    f_equal. apply IH; [lia|done|].
    intros i b Hi. apply (Hbef (S i)). lia.
Qed.
End find_stop.

#[export] Hint Resolve find_stop_le : go.

Lemma find_index_stop {A} (p : A → bool) s :
  find_index p s = if decide (find_stop p s = length s) then None else Some (find_stop p s).
Proof.
  induction s as [|b s IH]; simpl; [done|].
  destruct (p b); [done|]. rewrite IH. repeat case_decide; simpl; (done || lia).
Qed.

Lemma length_slice s i j : i ≤ j → j ≤ length s → length (slice s i j) = j - i.
Proof. intros. unfold slice. rewrite length_take, length_drop. lia. Qed.

Lemma slice_app s i j k :
  i ≤ j → j ≤ k → slice s i j ++ slice s j k = slice s i k.
Proof.
  intros. unfold slice.
  replace (drop j s) with (drop (j - i) (drop i s)) by (rewrite drop_drop; f_equal; lia).
  replace (k - i) with ((j - i) + (k - j)) by lia.
  by rewrite take_take_drop.
Qed.

Lemma slice_full s : slice s 0 (length s) = s.
Proof. unfold slice. rewrite Nat.sub_0_r, drop_0. by apply firstn_all. Qed.

Lemma slice_nil s i : slice s i i = [].
Proof. unfold slice. by rewrite Nat.sub_diag. Qed.

Lemma lookup_slice s i j k :
  i + k < j → slice s i j !! k = s !! (i + k).
Proof. intros. unfold slice. rewrite lookup_take_lt by lia. apply lookup_drop. Qed.

Lemma slice_one s i c : s !! i = Some c → slice s i (i + 1) = [c].
Proof.
  intros H. unfold slice. replace (i + 1 - i) with 1 by lia. by rewrite (drop_S _ _ _ H).
Qed.

Lemma slice_one_at s i j c : j = i + 1 → s !! i = Some c → slice s i j = [c].
Proof. intros ->. apply slice_one. Qed.

Lemma slice_take s n : slice s 0 n = take n s.
Proof. unfold slice. by rewrite Nat.sub_0_r, drop_0. Qed.

Lemma slice_drop s i : slice s i (length s) = drop i s.
Proof. unfold slice. apply take_ge. by rewrite length_drop. Qed.

Lemma lookup_total_lt (s : bytes) i : i < length s → s !! i = Some (s !!! i).
Proof. intros. by apply list_lookup_lookup_total_lt. Qed.

Lemma count_app {A} (p : A → bool) s t : count p (s ++ t) = count p s + count p t.
Proof. induction s; simpl; lia. Qed.

Lemma rbind_ok {E A B} (c : result E A) (k : A → result E B) b :
  rbind c k = Ok b ↔ ∃ a, c = Ok a ∧ k a = Ok b.
Proof.
  destruct c; simpl; split; [eauto| |done|]; intros (? & ? & ?); by simplify_eq.
Qed.

Lemma bytes_eqb_eq s t : bytes_eqb s t = true ↔ s = t.
Proof. apply bool_decide_eq_true. Qed.

Lemma has_prefix_spec s p : has_prefix s p = true ↔ ∃ t, s = p ++ t.
Proof.
  revert s. induction p as [|c p IH]; intros s; simpl; [by split; eauto|].
  destruct s as [|b s]; [split; [done|by intros [? ?]]|].
  rewrite andb_true_iff, Z.eqb_eq, IH. split.
  - intros [-> [t ->]]. by exists t.
  - intros [t [= -> ->]]. eauto.
Qed.

Lemma forallb_Forall {A} (p : A → bool) s : forallb p s = true ↔ Forall (λ b, p b = true) s.
Proof.
  induction s as [|b s IH]; simpl; [done|]. rewrite Forall_cons, andb_true_iff, IH. done.
Qed.
