(* ===== verification/GoUtf8.v ===== *)
(** Go's [unicode/utf8] as the sources use it: decoding, encoding and the
    notion of a valid UTF-8 byte sequence.

    [DecodeRune] follows the acceptance table of the Go implementation (the
    second byte's range depends on the first byte); [EncodeRune] writes the
    same bit fields as div/mod by 64.  The lemmas at the end make the two
    inverse on Unicode scalar values, so that the validator of the scan
    package can be specified by "a concatenation of encoded scalar values". *)
From S2P Require Import Prelude.
Local Open Scope Z_scope.

Definition RuneError : Z := 0xFFFD.
Definition MaxRune : Z := 0x10FFFF.

(** [utf8.ValidRune]. *)
Definition ValidRune (r : Z) : bool :=
  ((0 ≤b r) && (r <b 0xD800)) || ((0xDFFF <b r) && (r ≤b MaxRune)).

(** Size and accepted range of the second byte, by first byte: the tables
    [first] and [acceptRanges].  [None] is an invalid first byte. *)
Definition first_info (b : Z) : option (nat * (Z * Z)) :=
  if (b <b 0x80) then Some (1%nat, (0, 0))
  else if (b <b 0xC2) then None
  else if (b <b 0xE0) then Some (2%nat, (0x80, 0xBF))
  else if (b =b 0xE0) then Some (3%nat, (0xA0, 0xBF))
  else if (b =b 0xED) then Some (3%nat, (0x80, 0x9F))
  else if (b <b 0xF0) then Some (3%nat, (0x80, 0xBF))
  else if (b =b 0xF0) then Some (4%nat, (0x90, 0xBF))
  else if (b <b 0xF4) then Some (4%nat, (0x80, 0xBF))
  else if (b =b 0xF4) then Some (4%nat, (0x80, 0x8F))
  else None.

Definition in_range (lo b hi : Z) : bool := (lo ≤b b) && (b ≤b hi).

(** [utf8.DecodeRune]: the rune and its width, [(RuneError, 1)] on an invalid
    or short sequence and [(RuneError, 0)] on empty input. *)
Definition DecodeRune (s : bytes) : Z * nat :=
  match s with
  | [] => (RuneError, 0%nat)
  | b0 :: t =>
      match first_info b0 with
      | None => (RuneError, 1%nat)
      | Some (1%nat, _) => (b0, 1%nat)
      | Some (2%nat, (lo, hi)) =>
          match t with
          | b1 :: _ =>
              if in_range lo b1 hi then ((b0 - 0xC0) * 64 + (b1 - 0x80), 2%nat)
              else (RuneError, 1%nat)
          | _ => (RuneError, 1%nat)
          end
      | Some (3%nat, (lo, hi)) =>
          match t with
          | b1 :: b2 :: _ =>
              if in_range lo b1 hi && in_range 0x80 b2 0xBF
              then ((b0 - 0xE0) * 4096 + (b1 - 0x80) * 64 + (b2 - 0x80), 3%nat)
              else (RuneError, 1%nat)
          | _ => (RuneError, 1%nat)
          end
      | Some (_, (lo, hi)) =>
          match t with
          | b1 :: b2 :: b3 :: _ =>
              if in_range lo b1 hi && in_range 0x80 b2 0xBF && in_range 0x80 b3 0xBF
              then ((b0 - 0xF0) * 262144 + (b1 - 0x80) * 4096 + (b2 - 0x80) * 64 + (b3 - 0x80), 4%nat)
              else (RuneError, 1%nat)
          | _ => (RuneError, 1%nat)
          end
      end
  end.

(** [utf8.AppendRune(nil, r)] / [strings.Builder.WriteRune]. *)
Definition EncodeRune (r : Z) : bytes :=
  if in_range 0 r 0x7F then [r]
  else if in_range 0 r 0x7FF then [0xC0 + r / 64; 0x80 + r mod 64]
  else if negb (ValidRune r) then [0xEF; 0xBF; 0xBD]
  else if (r ≤b 0xFFFF) then [0xE0 + r / 4096; 0x80 + r / 64 mod 64; 0x80 + r mod 64]
  else [0xF0 + r / 262144; 0x80 + r / 4096 mod 64; 0x80 + r / 64 mod 64; 0x80 + r mod 64].

(** [utf8.Valid] as a specification: some scalar values encode to [s]. *)
Definition encoded (rs : list Z) : bytes := concat (EncodeRune <$> rs).

Definition valid_utf8 (s : bytes) : Prop :=
  ∃ rs, Forall (λ r, ValidRune r = true) rs ∧ s = encoded rs.

(** ** Lemmas *)

Ltac div_mod_lia := Z.div_mod_to_equations; lia.

Lemma first_info_range b n lo hi :
  first_info b = Some (n, (lo, hi)) → (n = 1 ∨ n = 2 ∨ n = 3 ∨ n = 4)%nat.
Proof. unfold first_info. repeat case_match; intros [= <- <- <-]; lia. Qed.

(** The lane of [DecodeRune] a first byte selects, as arithmetic facts. *)
Lemma first_info_2 b : 0xC2 ≤ b < 0xE0 → first_info b = Some (2%nat, (0x80, 0xBF)).
Proof.
  intros. unfold first_info.
  by rewrite (proj2 (Z.ltb_ge _ _)), (proj2 (Z.ltb_ge _ _)), (proj2 (Z.ltb_lt _ _)) by lia.
Qed.

Ltac solve_first_info :=
  unfold first_info;
  repeat match goal with
  | |- context [(?a <? ?b)%Z] =>
      first [ rewrite (proj2 (Z.ltb_lt a b)) by lia
            | rewrite (proj2 (Z.ltb_ge a b)) by lia ]
  | |- context [(?a =? ?b)%Z] =>
      first [ rewrite (proj2 (Z.eqb_eq a b)) by lia
            | rewrite (proj2 (Z.eqb_neq a b)) by lia ]
  end; reflexivity.

Lemma first_info_3 b :
  0xE0 ≤ b < 0xF0 →
  first_info b = Some (3%nat, (if (b =b 0xE0) then 0xA0 else 0x80, if (b =b 0xED) then 0x9F else 0xBF)).
Proof.
  intros. destruct (Z.eq_dec b 0xE0) as [->|]; [done|].
  destruct (Z.eq_dec b 0xED) as [->|]; [done|]. solve_first_info.
Qed.

Lemma first_info_4 b :
  0xF0 ≤ b < 0xF5 →
  first_info b = Some (4%nat, (if (b =b 0xF0) then 0x90 else 0x80, if (b =b 0xF4) then 0x8F else 0xBF)).
Proof.
  intros. destruct (Z.eq_dec b 0xF0) as [->|]; [done|].
  destruct (Z.eq_dec b 0xF4) as [->|]; [done|]. solve_first_info.
Qed.

Lemma in_range_true lo b hi : lo ≤ b ≤ hi → in_range lo b hi = true.
Proof. intros. unfold in_range. apply andb_true_iff. lia. Qed.

Lemma in_range_false lo b hi : b < lo ∨ hi < b → in_range lo b hi = false.
Proof. intros. unfold in_range. apply andb_false_iff. lia. Qed.

(** Decoding what was encoded gives the rune and its width back. *)
Lemma DecodeRune_EncodeRune r t :
  ValidRune r = true → DecodeRune (EncodeRune r ++ t) = (r, length (EncodeRune r)).
Proof.
  intros HV. unfold EncodeRune. rewrite HV. simpl negb.
  assert (0 ≤ r ≤ MaxRune ∧ ¬ (0xD800 ≤ r ≤ 0xDFFF)) as [Hr Hs].
  { unfold ValidRune, MaxRune in *. lia. }
  unfold MaxRune in Hr.
  destruct (in_range 0 r 127) eqn:E1; [|destruct (in_range 0 r 2047) eqn:E2;
    [|destruct (r ≤b 0xFFFF) eqn:E3]]; unfold in_range in *; simpl app; cbn [DecodeRune length].
  - assert (first_info r = Some (1%nat, (0, 0))) as -> by solve_first_info. done.
  - rewrite first_info_2 by div_mod_lia. rewrite in_range_true by div_mod_lia.
    f_equal. div_mod_lia.
  - rewrite first_info_3 by div_mod_lia.
    rewrite !in_range_true; [simpl; f_equal; div_mod_lia|div_mod_lia|].
    repeat case_match; div_mod_lia.
  - rewrite first_info_4 by div_mod_lia.
    rewrite !in_range_true; [simpl; f_equal; div_mod_lia|div_mod_lia|div_mod_lia|].
    repeat case_match; div_mod_lia.
Qed.

Lemma first_info_inv b n lo hi :
  0 ≤ b → first_info b = Some (n, (lo, hi)) →
  (n = 1%nat ∧ b < 0x80) ∨
  (n = 2%nat ∧ 0xC2 ≤ b < 0xE0 ∧ lo = 0x80 ∧ hi = 0xBF) ∨
  (n = 3%nat ∧ 0xE0 ≤ b < 0xF0 ∧ 0x80 ≤ lo ∧ hi ≤ 0xBF ∧
     (b = 0xE0 → lo = 0xA0) ∧ (b = 0xED → hi = 0x9F)) ∨
  (n = 4%nat ∧ 0xF0 ≤ b < 0xF5 ∧ 0x80 ≤ lo ∧ hi ≤ 0xBF ∧
     (b = 0xF0 → lo = 0x90) ∧ (b = 0xF4 → hi = 0x8F)).
Proof.
  intros Hb. unfold first_info.
  repeat case_match; intros [= <- <- <-]; lia.
Qed.

Lemma in_range_inv lo b hi : in_range lo b hi = true → lo ≤ b ≤ hi.
Proof. unfold in_range. intros. bool_lia. Qed.

(** The canonical encoding of a rune with the given low fields. *)
Lemma EncodeRune_2 x y :
  2 ≤ x < 32 → 0 ≤ y < 64 → EncodeRune (x * 64 + y) = [0xC0 + x; 0x80 + y].
Proof.
  intros. unfold EncodeRune.
  rewrite in_range_false by lia.
  rewrite in_range_true by lia.
  f_equal; [div_mod_lia|f_equal; div_mod_lia].
Qed.

Lemma EncodeRune_3 x y z :
  0 ≤ x < 16 → 0 ≤ y < 64 → 0 ≤ z < 64 → 0x7FF < x * 4096 + y * 64 + z →
  ¬ (0xD800 ≤ x * 4096 + y * 64 + z ≤ 0xDFFF) →
  EncodeRune (x * 4096 + y * 64 + z) = [0xE0 + x; 0x80 + y; 0x80 + z].
Proof.
  intros. unfold EncodeRune.
  rewrite in_range_false by lia.
  rewrite in_range_false by lia.
  assert (ValidRune (x * 4096 + y * 64 + z) = true) as -> by (unfold ValidRune, MaxRune; lia).
  rewrite (proj2 (Z.leb_le _ _)) by lia. simpl.
  repeat f_equal; div_mod_lia.
Qed.

Lemma EncodeRune_4 x y z w :
  0 ≤ x < 5 → 0 ≤ y < 64 → 0 ≤ z < 64 → 0 ≤ w < 64 →
  0xFFFF < x * 262144 + y * 4096 + z * 64 + w ≤ MaxRune →
  EncodeRune (x * 262144 + y * 4096 + z * 64 + w) = [0xF0 + x; 0x80 + y; 0x80 + z; 0x80 + w].
Proof.
  unfold MaxRune. intros. unfold EncodeRune.
  rewrite in_range_false by lia.
  rewrite in_range_false by lia.
  assert (ValidRune (x * 262144 + y * 4096 + z * 64 + w) = true) as ->
    by (unfold ValidRune, MaxRune; lia).
  rewrite (proj2 (Z.leb_gt _ _)) by lia. simpl.
  repeat f_equal; div_mod_lia.
Qed.

(** Whatever [DecodeRune] accepts is the canonical encoding of a scalar value. *)
Lemma DecodeRune_inv s r n :
  Forall is_byte s → DecodeRune s = (r, n) → s ≠ [] → ¬ (r = RuneError ∧ n = 1%nat) →
  ValidRune r = true ∧ s = EncodeRune r ++ drop n s ∧ n = length (EncodeRune r).
Proof.
  intros Hs HD Hne Herr. destruct s as [|b0 t]; [done|].
  inversion Hs as [|? ? Hb0 Ht]; subst. unfold is_byte in Hb0. clear Hs Hne.
  simpl in HD. destruct (first_info b0) as [[k [lo hi]]|] eqn:EF; [|by simplify_eq; tauto].
  apply first_info_inv in EF as [[-> ?]|[(-> & ? & -> & ->)|[(-> & ? & ? & ? & ? & ?)|(-> & ? & ? & ? & ? & ?)]]];
    [..|lia].
  - simplify_eq. unfold EncodeRune. rewrite in_range_true by lia.
    split; [unfold ValidRune; lia|done].
  - destruct t as [|b1 t]; [simplify_eq; tauto|].
    destruct (in_range _ b1 _) eqn:E1; [|by simplify_eq; tauto].
    apply in_range_inv in E1. simplify_eq.
    rewrite EncodeRune_2 by lia. split; [unfold ValidRune; lia|]. split; [|done].
    simpl. repeat (f_equal; try lia).
  - destruct t as [|b1 [|b2 t]]; [simplify_eq; tauto..|].
    destruct (in_range lo b1 _ && _) eqn:E1; [|by simplify_eq; tauto].
    apply andb_prop in E1 as [E1 E2]. apply in_range_inv in E1, E2. simplify_eq.
    assert (b0 = 0xE0 ∨ b0 = 0xED ∨ (b0 ≠ 0xE0 ∧ b0 ≠ 0xED)) as Hc by lia.
    rewrite EncodeRune_3 by lia. split; [unfold ValidRune, MaxRune; lia|]. split; [|done].
    simpl. repeat (f_equal; try lia).
  - destruct t as [|b1 [|b2 [|b3 t]]]; [simplify_eq; tauto..|].
    destruct (in_range lo b1 _ && _ && _) eqn:E1; [|by simplify_eq; tauto].
    apply andb_prop in E1 as [E1 E3]. apply andb_prop in E1 as [E1 E2].
    apply in_range_inv in E1, E2, E3. simplify_eq.
    assert (b0 = 0xF0 ∨ b0 = 0xF4 ∨ (b0 ≠ 0xF0 ∧ b0 ≠ 0xF4)) as Hc by lia.
    rewrite EncodeRune_4 by (unfold MaxRune; lia).
    split; [unfold ValidRune, MaxRune; lia|]. split; [|done].
    simpl. repeat (f_equal; try lia).
Qed.

Lemma EncodeRune_length r : (1 ≤ length (EncodeRune r) ≤ 4)%nat.
Proof. unfold EncodeRune. repeat case_match; simpl; lia. Qed.

Lemma EncodeRune_bytes r : Forall is_byte (EncodeRune r).
Proof.
  unfold EncodeRune. unfold in_range, ValidRune, MaxRune.
  repeat case_match; repeat constructor; unfold is_byte; try bool_lia; div_mod_lia.
Qed.

Lemma encoded_app rs ts : encoded (rs ++ ts) = encoded rs ++ encoded ts.
Proof. unfold encoded. by rewrite fmap_app, concat_app. Qed.

Lemma valid_utf8_app s t : valid_utf8 s → valid_utf8 t → valid_utf8 (s ++ t).
Proof.
  intros (rs & ? & ->) (ts & ? & ->). exists (rs ++ ts).
  split; [by apply Forall_app|by rewrite encoded_app].
Qed.

(** ASCII is its own encoding. *)
Lemma valid_utf8_ascii b : 0 ≤ b < 0x80 → valid_utf8 [b].
Proof.
  intros. exists [b]. split.
  - repeat constructor. unfold ValidRune. lia.
  - unfold encoded. simpl. unfold EncodeRune. by rewrite in_range_true by lia.
Qed.

(** Unique decodability: what follows encoded runes in an encoding is one. *)
Lemma encoded_suffix rs ts t :
  Forall (λ r, ValidRune r = true) rs → Forall (λ r, ValidRune r = true) ts →
  encoded rs = encoded ts ++ t → ∃ us, Forall (λ r, ValidRune r = true) us ∧ t = encoded us.
Proof.
  intros Hrs Hts. revert rs Hrs. induction Hts as [|x ts Hx Hts IH]; intros rs Hrs Heq.
  { by exists rs. }
  destruct Hrs as [|y rs Hy Hrs].
  { exfalso. apply (f_equal length) in Heq. pose proof (EncodeRune_length x).
    cbn [encoded fmap list_fmap concat] in Heq. rewrite !length_app in Heq. simpl in Heq. lia. }
  cbn [encoded fmap list_fmap concat] in Heq. fold (encoded rs) (encoded ts) in Heq.
  rewrite <-app_assoc in Heq.
  pose proof (DecodeRune_EncodeRune y (encoded rs) Hy) as HDy.
  rewrite Heq, DecodeRune_EncodeRune in HDy by done.
  assert (x = y) as -> by congruence. apply app_inv_head in Heq. by apply (IH rs).
Qed.

Lemma DecodeRune_valid t r n :
  valid_utf8 t → t ≠ [] → DecodeRune t = (r, n) → ¬ (r = RuneError ∧ n = 1%nat).
Proof.
  intros (rs & Hrs & ->) Hne HD [-> ->]. destruct Hrs as [|y rs Hy Hrs]; [done|].
  cbn [encoded fmap list_fmap concat] in HD. rewrite DecodeRune_EncodeRune in HD by done.
  simplify_eq.
Qed.

(** A byte below 0x80 inside an encoding is the whole encoding. *)
Lemma EncodeRune_ascii_elem r c : c ∈ EncodeRune r → 0 ≤ c < 0x80 → EncodeRune r = [c].
Proof.
  unfold EncodeRune, in_range, ValidRune, MaxRune. intros Hin Hc.
  repeat case_match; simpl in Hin; rewrite ?elem_of_cons, ?elem_of_nil in Hin;
    destruct_or?; try done; subst; try done; exfalso; try bool_lia; bool_lia || div_mod_lia.
Qed.

(** Valid UTF-8 can be cut at an ASCII byte. *)
Lemma valid_utf8_split p c t :
  valid_utf8 (p ++ c :: t) → 0 ≤ c < 0x80 → valid_utf8 p ∧ valid_utf8 t.
Proof.
  intros (rs & Hrs & Heq) Hc. revert p Heq.
  induction Hrs as [|r rs Hr Hrs IH]; intros p Heq.
  { by destruct p. }
  cbn [encoded fmap list_fmap concat] in Heq. fold (encoded rs) in Heq.
  destruct (decide (length (EncodeRune r) ≤ length p)%nat) as [Hle|Hgt].
  - assert (∃ q, p = EncodeRune r ++ q) as [q ->].
    { exists (drop (length (EncodeRune r)) p).
      apply (f_equal (take (length (EncodeRune r)))) in Heq.
      rewrite take_app_le, take_app_length in Heq by done. rewrite <-Heq at 1. by rewrite take_drop. }
    rewrite <-app_assoc in Heq. apply app_inv_head in Heq.
    destruct (IH q (eq_sym (eq_sym Heq))) as [Hq Ht]. split; [|done].
    apply valid_utf8_app; [|done]. exists [r]. split; [by repeat constructor|].
    unfold encoded. simpl. by rewrite app_nil_r.
  - assert (c ∈ EncodeRune r) as Hin.
    { apply (f_equal (lookup (length p))) in Heq.
      rewrite list_lookup_middle in Heq by done.
      rewrite lookup_app_l in Heq by lia. symmetry in Heq.
      apply list_elem_of_lookup; by eexists. }
    rewrite (EncodeRune_ascii_elem _ _ Hin Hc) in Heq, Hgt. simpl in Hgt.
    destruct p; [|simpl in Hgt; lia]. simplify_eq/=. split.
    + exists []. done.
    + exists rs. done.
Qed.
