(* ===== verification/GoStrconv.v ===== *)
(** Decimal text of integers: Go's [strconv.Itoa], [fmt]'s [%0wd] and the
    digit loops of the sources, with the round trips between them. *)
From S2P Require Import Prelude.
Local Open Scope Z_scope.

(** [n] in exactly [w] decimal digits, most significant first. *)
Fixpoint digits (w : nat) (n : Z) : bytes :=
  match w with
  | O => []
  | S w' => digits w' (n / 10) ++ [c0 + n mod 10]
  end.

(** The number of decimal digits of a positive [n] is at most its bit length. *)
Fixpoint itoa_aux (fuel : nat) (n : Z) : bytes :=
  match fuel with
  | O => []
  | S fuel' =>
      if (n <b 10) then [c0 + n]
      else itoa_aux fuel' (n / 10) ++ [c0 + n mod 10]
  end.

Definition utoa (n : Z) : bytes := itoa_aux (S (Z.to_nat (Z.log2 n))) n.

(** [strconv.Itoa] / [strconv.FormatInt(n, 10)]. *)
Definition Itoa (n : Z) : bytes :=
  if (n <b 0) then MINUS :: utoa (- n) else utoa n.

(** [fmt.Appendf(nil, "%0<width>d", n)]. *)
Definition zero_padded (width : nat) (n : Z) : bytes :=
  if (n <b 0) then
    let t := utoa (- n) in MINUS :: replicate (width - 1 - length t) c0 ++ t
  else
    let t := utoa n in replicate (width - length t) c0 ++ t.

(** Digits without the zeros at their end. *)
Definition trimZeros (ds : bytes) : bytes := reverse (drop (find_stop (λ c, c ≠b c0) (reverse ds)) (reverse ds)).

(** ** Lemmas *)

Lemma digits_length w n : length (digits w n) = w.
Proof. revert n. induction w as [|w IH]; intros n; simpl; [done|]. rewrite length_app, IH. simpl. lia. Qed.

Lemma digits_isDigit w n : Forall (λ b, isDigit b = true) (digits w n).
Proof.
  revert n. induction w as [|w IH]; intros n; simpl; [constructor|].
  apply Forall_app. split; [done|]. repeat constructor.
  unfold isDigit. apply andb_true_iff. Z.div_mod_to_equations. lia.
Qed.

Lemma utoa_digits n w :
  10 ^ Z.of_nat w ≤ n < 10 ^ Z.of_nat (S w) → utoa n = digits (S w) n.
Proof.
  intros Hn. unfold utoa.
  assert (w ≤ Z.to_nat (Z.log2 n))%nat as Hf.
  { apply Nat2Z.inj_le. rewrite Z2Nat.id by apply Z.log2_nonneg.
    apply Z.log2_le_pow2; [pose proof (Z.pow_pos_nonneg 10 (Z.of_nat w)); lia|].
    etrans; [apply Z.pow_le_mono_l with (b := 10); lia|lia]. }
  revert Hf. generalize (Z.to_nat (Z.log2 n)) as fuel.
  revert n Hn. induction w as [|w IH]; intros n Hn fuel Hf.
  - rewrite Z.pow_1_r in Hn. simpl in Hn. cbn [itoa_aux digits].
    rewrite (proj2 (Z.ltb_lt _ _)) by lia. simpl. by rewrite Z.mod_small by lia.
  - rewrite !Nat2Z.inj_succ, !Z.pow_succ_r in Hn by lia.
    assert (0 < 10 ^ Z.of_nat w) by (apply Z.pow_pos_nonneg; lia).
    cbn [itoa_aux]. rewrite (proj2 (Z.ltb_ge _ _)) by lia.
    destruct fuel as [|fuel]; [lia|].
    rewrite (IH (n / 10)).
    + done.
    + rewrite Nat2Z.inj_succ, Z.pow_succ_r by lia. Z.div_mod_to_equations. lia.
    + lia.
Qed.

Lemma digits_lead w n : 0 ≤ n < 10 ^ Z.of_nat w → digits (S w) n = c0 :: digits w n.
Proof.
  revert n. induction w as [|w IH]; intros n Hn.
  - simpl in *. by assert (n = 0) as -> by lia.
  - rewrite Nat2Z.inj_succ, Z.pow_succ_r in Hn by lia.
    change (digits (S (S w)) n) with (digits (S w) (n / 10) ++ [c0 + n mod 10]).
    rewrite IH by (Z.div_mod_to_equations; lia). done.
Qed.

Lemma digits_pad w k n :
  0 ≤ n < 10 ^ Z.of_nat w → digits (k + w) n = replicate k c0 ++ digits w n.
Proof.
  induction k as [|k IH]; intros Hn; [done|].
  cbn [Nat.add replicate app]. rewrite digits_lead; [by rewrite IH|].
  split; [lia|]. eapply Z.lt_le_trans; [apply Hn|].
  apply Z.pow_le_mono_r; lia.
Qed.

(** A number below [10^w] has at most [w] digits. *)
Lemma utoa_exists n w :
  0 ≤ n < 10 ^ Z.of_nat (S w) → ∃ k, (k ≤ w)%nat ∧ utoa n = digits (S k) n ∧ n < 10 ^ Z.of_nat (S k).
Proof.
  induction w as [|w IH]; intros Hn.
  - exists 0%nat. split; [lia|]. split; [|lia].
    change (10 ^ Z.of_nat 1) with 10 in Hn.
    unfold utoa. cbn [itoa_aux digits app].
    rewrite (proj2 (Z.ltb_lt _ _)), Z.mod_small by lia. done.
  - destruct (Z.lt_ge_cases n (10 ^ Z.of_nat (S w))) as [Hlt|Hge].
    + destruct IH as (k & ? & ? & ?); [lia|]. exists k. split; [lia|done].
    + exists (S w). split; [lia|]. split; [apply utoa_digits; lia|lia].
Qed.

(** Zero padding gives fixed-width digits. *)
Lemma zero_padded_digits w n :
  0 ≤ n < 10 ^ Z.of_nat (S w) → zero_padded (S w) n = digits (S w) n.
Proof.
  intros Hn. unfold zero_padded. rewrite (proj2 (Z.ltb_ge _ _)) by lia.
  destruct (utoa_exists n w Hn) as (k & Hk & -> & Hlt).
  rewrite digits_length. rewrite <-(digits_pad (S k) (S w - S k)) by lia.
  f_equal. lia.
Qed.

(** ** Reading digits *)

(** [parseFixedDigits] of datetime_parse.go and the accumulation loops:
    [v = v*10 + int(ch-'0')], failing on a non-digit. *)
Fixpoint digits_value (v : Z) (s : bytes) : option Z :=
  match s with
  | [] => Some v
  | ch :: s' => if isDigit ch then digits_value (v * 10 + (ch - c0)) s' else None
  end.

Lemma digits_value_app v s t :
  digits_value v (s ++ t) = digits_value v s ≫= λ u, digits_value u t.
Proof. revert v. induction s as [|b s IH]; intros v; simpl; [done|]. by destruct (isDigit b). Qed.

Lemma digits_value_digits v w n :
  0 ≤ n < 10 ^ Z.of_nat w → digits_value v (digits w n) = Some (v * 10 ^ Z.of_nat w + n).
Proof.
  revert n. induction w as [|w IH]; intros n Hn.
  - simpl in *. f_equal. lia.
  - rewrite Nat2Z.inj_succ, Z.pow_succ_r in Hn by lia. cbn [digits].
    rewrite digits_value_app, IH by (Z.div_mod_to_equations; lia). simpl.
    assert (isDigit (c0 + n mod 10) = true) as ->.
    { unfold isDigit. apply andb_true_iff. Z.div_mod_to_equations. lia. }
    f_equal. rewrite Nat2Z.inj_succ, Z.pow_succ_r by lia. Z.div_mod_to_equations. lia.
Qed.

Lemma digits_value_inv v s u :
  digits_value v s = Some u →
  ∃ n, 0 ≤ n < 10 ^ Z.of_nat (length s) ∧ s = digits (length s) n ∧ u = v * 10 ^ Z.of_nat (length s) + n.
Proof.
  revert v u. induction s as [|b s IH] using rev_ind; intros v u H.
  - simpl in *. exists 0. simplify_eq. split; [lia|]. split; [done|lia].
  - rewrite digits_value_app in H. destruct (digits_value v s) as [m|] eqn:E; [|done]. simpl in H.
    destruct (isDigit b) eqn:Eb; [|done]. simplify_eq.
    destruct (IH v m E) as (n & Hn & Hs & ->).
    unfold isDigit in Eb. apply andb_prop in Eb as [Hb0 Hb9]. apply Z.leb_le in Hb0, Hb9.
    exists (n * 10 + (b - c0)). rewrite length_app. cbn [length]. rewrite Nat.add_1_r.
    rewrite Nat2Z.inj_succ, Z.pow_succ_r by lia. split; [lia|]. split; [|lia].
    cbn [digits]. rewrite Z.div_add_l, Z.div_small, Z.add_0_r by lia. rewrite <-Hs.
    f_equal. f_equal. replace (n * 10 + (b - c0)) with ((b - c0) + n * 10) by lia.
    rewrite Z.mod_add, Z.mod_small by lia. lia.
Qed.

Lemma digits_take w k n :
  (k ≤ w)%nat → take k (digits w n) = digits k (n / 10 ^ Z.of_nat (w - k)).
Proof.
  revert n. induction w as [|w IH]; intros n Hk.
  - assert (k = 0)%nat as -> by lia. done.
  - destruct (decide (k = S w)) as [->|].
    + rewrite Nat.sub_diag, Z.pow_0_r, Z.div_1_r. apply take_ge. by rewrite digits_length.
    + cbn [digits]. rewrite take_app_le by (rewrite digits_length; lia).
      rewrite IH by lia. f_equal.
      rewrite Zdiv.Zdiv_Zdiv by (try apply Z.pow_nonneg; lia). f_equal.
      replace (Z.of_nat (S w - k)) with (Z.succ (Z.of_nat (w - k))) by lia.
      by rewrite Z.pow_succ_r by lia.
Qed.

Lemma digits_first w n : digits (S w) n = (c0 + n / 10 ^ Z.of_nat w mod 10) :: digits w n.
Proof.
  revert n. induction w as [|w IH]; intros n.
  - cbn [digits app]. by rewrite Z.pow_0_r, Z.div_1_r.
  - change (digits (S (S w)) n) with (digits (S w) (n / 10) ++ [c0 + n mod 10]).
    rewrite IH. cbn [app digits]. f_equal. f_equal. f_equal.
    rewrite Zdiv.Zdiv_Zdiv by (try apply Z.pow_nonneg; lia). f_equal.
    by rewrite Nat2Z.inj_succ, Z.pow_succ_r by lia.
Qed.

Lemma digits_add w n q : digits w (n + q * 10 ^ Z.of_nat w) = digits w n.
Proof.
  revert n q. induction w as [|w IH]; intros n q; [done|].
  cbn [digits]. rewrite Nat2Z.inj_succ, Z.pow_succ_r by lia.
  replace (n + q * (10 * 10 ^ Z.of_nat w)) with (n + (q * 10 ^ Z.of_nat w) * 10) by lia.
  by rewrite Z.div_add, Z.mod_add, IH by lia.
Qed.

Lemma trimZeros_snoc s c : trimZeros (s ++ [c]) = if c =b c0 then trimZeros s else s ++ [c].
Proof.
  unfold trimZeros. rewrite reverse_snoc. cbn [find_stop]. destruct (c =b c0); cbn [negb drop]; [done|].
  by rewrite reverse_cons, reverse_involutive.
Qed.

(** What is trimmed are zeros. *)
Lemma trimZeros_spec s : ∃ k, s = trimZeros s ++ replicate k c0.
Proof.
  induction s as [|c s [k IH]] using rev_ind; [by exists 0%nat|]. rewrite trimZeros_snoc. destruct (Z.eqb_spec c c0) as [->|].
  - exists (S k). rewrite IH at 1. by rewrite replicate_S_end, app_assoc.
  - exists 0%nat. by rewrite app_nil_r.
Qed.

(** The decimal text of a number: one digit, or a first digit that is not zero. *)
Lemma utoa_shape n : (0 ≤ n) → ∃ k, utoa n = digits (S k) n ∧ (n < 10 ^ Z.of_nat (S k)) ∧ (k = 0%nat ∨ (10 ^ Z.of_nat k ≤ n)).
Proof.
  intros Hn. assert (∃ w, n < 10 ^ Z.of_nat (S w)) as [w Hw].
  { exists (Z.to_nat n). rewrite Nat2Z.inj_succ, Z2Nat.id by done. etrans; [|apply Z.pow_gt_lin_r; lia]. lia. }
  induction w as [|w IH].
  - destruct (utoa_exists n 0) as (k & Hk & E & Hlt); [lia|]. exists k. split; [done|]. split; [done|]. left. lia.
  - destruct (Z.lt_ge_cases n (10 ^ Z.of_nat (S w))) as [Hlt|Hge]; [by apply IH|].
    exists (S w). split; [apply utoa_digits; lia|]. split; [done|by right].
Qed.

Lemma digits_inj w n n' : (0 ≤ n < 10 ^ Z.of_nat w)%Z → (0 ≤ n' < 10 ^ Z.of_nat w)%Z → digits w n = digits w n' → n = n'.
Proof.
  revert n n'. induction w as [|w IH]; intros n n' Hn Hn'; [cbn in Hn, Hn'; lia|]. cbn [digits].
  rewrite Nat2Z.inj_succ, Z.pow_succ_r in Hn, Hn' by lia. intros [E [= E']]%app_inj_2; [|done].
  apply IH in E; Z.div_mod_to_equations; lia.
Qed.

Lemma utoa_inj n n' : (0 ≤ n)%Z → (0 ≤ n')%Z → utoa n = utoa n' → n = n'.
Proof.
  intros Hn Hn'. destruct (utoa_shape n Hn) as (k & -> & Hk & _). destruct (utoa_shape n' Hn') as (k' & -> & Hk' & _). intros E.
  pose proof (f_equal length E) as El. rewrite !digits_length in El. injection El as ->. by eapply digits_inj.
Qed.
