(* ===== verification/GoStrings.v ===== *)
(** The parts of Go's [strings], [unicode/utf8] and [strconv] that the clients of
    pkg/tmux call: iteration over runes, trimming, fields, cutting, integers. *)
From stdpp Require Import sorting.
From S2P Require Import Prelude GoUtf8 GoStrconv.

Local Open Scope Z_scope.

(** ** Runes *)

(** [for _, r := range s]; every step consumes at least a byte. *)
Fixpoint runesN (fuel : nat) (s : bytes) : list Z :=
  match fuel, s with
  | S fuel, _ :: _ => let '(r, n) := DecodeRune s in r :: runesN fuel (drop n s)
  | _, _ => []
  end.

Definition runes (s : bytes) : list Z := runesN (length s) s.

(** [utf8.Valid] / [utf8.ValidString]. *)
Fixpoint validN (fuel : nat) (s : bytes) : bool :=
  match fuel, s with
  | _, [] => true
  | S fuel, _ :: _ =>
      let '(r, n) := DecodeRune s in
      if (r =b RuneError) && (n =? 1)%nat then false else validN fuel (drop n s)
  | O, _ :: _ => false
  end.

Definition ValidString (s : bytes) : bool := validN (length s) s.

(** [unicode.IsSpace]. *)
Definition IsSpace (r : Z) : bool :=
  in_range 9 r 13 || (r =b SP) || (r =b 0x85) || (r =b 0xA0) || (r =b 0x1680) || in_range 0x2000 r 0x200A
  || (r =b 0x2028) || (r =b 0x2029) || (r =b 0x202F) || (r =b 0x205F) || (r =b 0x3000).

(** [strings.TrimLeftFunc(s, unicode.IsSpace)]. *)
Fixpoint trimLeftSpaceN (fuel : nat) (s : bytes) : bytes :=
  match fuel, s with
  | S fuel, _ :: _ => let '(r, n) := DecodeRune s in if IsSpace r then trimLeftSpaceN fuel (drop n s) else s
  | _, _ => s
  end.

Definition RuneStart (b : Z) : bool := negb (in_range 0x80 b 0xBF).

(** [utf8.DecodeLastRuneInString]: the start is the nearest rune start among the
    last four bytes, tried from the end. *)
Definition lastStart (s : bytes) : nat :=
  let n := length s in
  let back k := match s !! (n - k)%nat with Some b => (k <=? n)%nat && RuneStart b | None => false end in
  if back 2%nat then (n - 2)%nat else if back 3%nat then (n - 3)%nat else (n - 4)%nat.

Definition DecodeLastRune (s : bytes) : Z * nat :=
  match s !! (length s - 1)%nat with
  | None => (RuneError, 0%nat)
  | Some b =>
      if (b <b 0x80) then (b, 1%nat)
      else
        let start := lastStart s in
        let '(r, n) := DecodeRune (drop start s) in
        if (start + n =? length s)%nat then (r, n) else (RuneError, 1%nat)
  end.

Fixpoint trimRightSpaceN (fuel : nat) (s : bytes) : bytes :=
  match fuel, s with
  | S fuel, _ :: _ =>
      let '(r, n) := DecodeLastRune s in if IsSpace r then trimRightSpaceN fuel (take (length s - n) s) else s
  | _, _ => s
  end.

(** [strings.TrimSpace]. *)
Definition TrimSpace (s : bytes) : bytes :=
  let s := trimLeftSpaceN (length s) s in trimRightSpaceN (length s) s.

(** [strings.Fields]: the maximal runs of bytes between runes that are spaces. *)
Definition flush (field : bytes) : list bytes := match field with [] => [] | _ => [field] end.

Fixpoint fieldsN (fuel : nat) (field s : bytes) : list bytes :=
  match fuel, s with
  | S fuel, _ :: _ =>
      let '(r, n) := DecodeRune s in
      if IsSpace r then flush field ++ fieldsN fuel [] (drop n s)
      else fieldsN fuel (field ++ take n s) (drop n s)
  | _, _ => flush field
  end.

Definition Fields (s : bytes) : list bytes := fieldsN (length s) [] s.

(** [strings.ToValidUTF8]: a run of invalid bytes becomes one replacement. *)
Fixpoint toValidN (replacement : bytes) (fuel : nat) (invalid : bool) (s : bytes) : bytes :=
  match fuel, s with
  | S fuel, _ :: _ =>
      let '(r, n) := DecodeRune s in
      if (r =b RuneError) && (n =? 1)%nat then
        (if invalid then [] else replacement) ++ toValidN replacement fuel true (drop n s)
      else take n s ++ toValidN replacement fuel false (drop n s)
  | _, _ => []
  end.

Definition ToValidUTF8 (s replacement : bytes) : bytes := toValidN replacement (length s) false s.

(** ** Cutting *)

(** [strings.Cut(s, sep)] for a one-byte separator. *)
Definition Cut (s : bytes) (c : Z) : bytes * bytes * bool :=
  match IndexByte s c with
  | Some i => (take i s, drop (S i) s, true)
  | None => (s, [], false)
  end.

(** [strings.CutPrefix] and [strings.TrimLeft] for one byte. *)
Definition CutPrefix (s prefix : bytes) : option bytes :=
  if has_prefix s prefix then Some (drop (length prefix) s) else None.

Fixpoint TrimLeftByte (c : Z) (s : bytes) : bytes :=
  match s with
  | [] => []
  | b :: s' => if b =b c then TrimLeftByte c s' else s
  end.

Definition contains_byte (s : bytes) (c : Z) : bool := existsb (Z.eqb c) s.

(** ** Integers *)

Definition MaxInt64 : Z := 0x7FFFFFFFFFFFFFFF.

Inductive NumError := ErrSyntax | ErrRange.

(** [strconv.ParseInt(s, 10, 64)], and [strconv.Atoi] where [int] has 64 bits. *)
Definition ParseInt (s : bytes) : result NumError Z :=
  let '(neg, ds) :=
    match s with
    | c :: s' => if c =b MINUS then (true, s') else if c =b PLUS then (false, s') else (false, s)
    | [] => (false, [])
    end in
  match ds, digits_value 0 ds with
  | [], _ | _, None => Err ErrSyntax
  | _, Some n =>
      if neg then if (MaxInt64 + 1 <b n) then Err ErrRange else Ok (- n)
      else if (MaxInt64 <b n) then Err ErrRange else Ok n
  end.

(** ** Lemmas *)

Abbreviation scalars rs := (Forall (λ r, ValidRune r = true) rs).

Lemma EncodeRune_cons r t : ∃ b u, EncodeRune r ++ t = b :: u.
Proof. pose proof (EncodeRune_length r). destruct (EncodeRune r); simpl in *; [lia|eauto]. Qed.

(** One step of any of the loops above over a valid text. *)
Lemma encoded_step r rs :
  ValidRune r = true →
  DecodeRune (encoded (r :: rs)) = (r, length (EncodeRune r)) ∧
  drop (length (EncodeRune r)) (encoded (r :: rs)) = encoded rs ∧
  take (length (EncodeRune r)) (encoded (r :: rs)) = EncodeRune r.
Proof.
  intros Hr. cbn [encoded fmap list_fmap concat]. fold (encoded rs).
  split; [by apply DecodeRune_EncodeRune|]. by rewrite drop_app_length, take_app_length.
Qed.

Lemma encoded_cons r rs : encoded (r :: rs) = EncodeRune r ++ encoded rs.
Proof. done. Qed.

Lemma encoded_length rs : (length rs ≤ length (encoded rs))%nat.
Proof.
  induction rs as [|r rs IH]; [done|]. rewrite encoded_cons, length_app. pose proof (EncodeRune_length r). simpl. lia.
Qed.

Lemma runesN_encoded fuel rs : scalars rs → (length rs ≤ fuel)%nat → runesN fuel (encoded rs) = rs.
Proof.
  intros Hrs. revert fuel. induction Hrs as [|r rs Hr _ IH]; intros fuel Hf; [by destruct fuel|].
  destruct fuel as [|fuel]; [simpl in Hf; lia|]. destruct (encoded_step r rs Hr) as (HD & Hd & _).
  destruct (EncodeRune_cons r (encoded rs)) as (b & u & Hbu). rewrite <-encoded_cons in Hbu.
  cbn [runesN]. rewrite Hbu. rewrite <-Hbu, HD, Hd. f_equal. apply IH. simpl in Hf. lia.
Qed.

Lemma runes_encoded rs : scalars rs → runes (encoded rs) = rs.
Proof. intros. apply runesN_encoded; [done|]. apply encoded_length. Qed.

Lemma DecodeRune_width s r n : DecodeRune s = (r, n) → s ≠ [] → (1 ≤ n)%nat.
Proof.
  intros H Hs. destruct s as [|b s]; [done|]. unfold DecodeRune in H.
  repeat case_match; simplify_eq; lia.
Qed.

Lemma validN_sound fuel s : Forall is_byte s → validN fuel s = true → valid_utf8 s.
Proof.
  revert s. induction fuel as [|fuel IH]; intros s Hb H.
  - destruct s; [by exists []|done].
  - destruct s as [|b s]; [by exists []|]. cbn [validN] in H.
    destruct (DecodeRune (b :: s)) as [r n] eqn:HD. destruct (_ && _) eqn:He; [done|].
    destruct (DecodeRune_inv _ _ _ Hb HD) as (Hr & Hs & Hn); [done|intros [-> ->]; simpl in He; lia|].
    rewrite Hs. apply valid_utf8_app; [|apply IH; [by apply Forall_drop|done]].
    exists [r]. split; [by repeat constructor|]. by rewrite encoded_cons, app_nil_r.
Qed.

Lemma validN_complete fuel rs : scalars rs → (length rs ≤ fuel)%nat → validN fuel (encoded rs) = true.
Proof.
  intros Hrs. revert fuel. induction Hrs as [|r rs Hr Hrs IH]; intros fuel Hf; [by destruct fuel|].
  destruct fuel as [|fuel]; [simpl in Hf; lia|]. destruct (encoded_step r rs Hr) as (HD & Hd & _).
  destruct (EncodeRune_cons r (encoded rs)) as (b & u & Hbu). rewrite <-encoded_cons in Hbu.
  cbn [validN]. rewrite Hbu. rewrite <-Hbu, HD, Hd.
  destruct (_ && _) eqn:He; [|apply IH; simpl in Hf; lia].
  apply andb_prop in He as [He1%Z.eqb_eq He2%Nat.eqb_eq].
  exfalso. apply (DecodeRune_valid (encoded (r :: rs)) r (length (EncodeRune r))); [|by rewrite Hbu|done|done].
  exists (r :: rs). split; [by constructor|done].
Qed.

Lemma ValidString_iff s : Forall is_byte s → ValidString s = true ↔ valid_utf8 s.
Proof.
  intros Hb. split; [by apply validN_sound|]. intros (rs & Hrs & ->).
  apply validN_complete; [done|]. apply encoded_length.
Qed.

Lemma scalar_bytes rs : Forall is_byte (encoded rs).
Proof.
  induction rs as [|r rs IH]; [constructor|]. rewrite encoded_cons. apply Forall_app_2; [apply EncodeRune_bytes|done].
Qed.

Lemma contains_byte_elem s c : contains_byte s c = true ↔ c ∈ s.
Proof.
  unfold contains_byte. rewrite existsb_exists. split.
  - intros (x & Hx & ->%Z.eqb_eq). by apply list_elem_of_In.
  - intros H. exists c. split; [by apply list_elem_of_In|apply Z.eqb_refl].
Qed.

Lemma contains_any_elem s cutset : contains_any s cutset = true ↔ ∃ c, c ∈ s ∧ c ∈ cutset.
Proof.
  unfold contains_any. rewrite existsb_exists. split.
  - intros (x & Hx & (y & Hy & ->%Z.eqb_eq)%existsb_exists). exists y. by rewrite <-!list_elem_of_In in *.
  - intros (c & Hc & Hc'). exists c. split; [by apply list_elem_of_In|].
    apply existsb_exists. exists c. split; [by apply list_elem_of_In|apply Z.eqb_refl].
Qed.

Lemma contains_any_false s cutset : contains_any s cutset = false ↔ ∀ c, c ∈ s → c ∉ cutset.
Proof.
  rewrite <-not_true_iff_false, contains_any_elem. naive_solver.
Qed.

(** A text whose left trim is empty consists of spaces. *)
Lemma trimLeftSpaceN_blank fuel rs t :
  scalars rs → (length rs ≤ fuel)%nat → trimLeftSpaceN fuel (encoded rs ++ t) = [] →
  Forall (λ r, IsSpace r = true) rs.
Proof.
  intros Hrs. revert fuel. induction Hrs as [|r rs Hr Hrs IH]; intros fuel Hf H; [constructor|].
  destruct fuel as [|fuel]; [simpl in Hf; lia|]. rewrite encoded_cons, <-app_assoc in H.
  destruct (EncodeRune_cons r (encoded rs ++ t)) as (b & u & Hbu).
  cbn [trimLeftSpaceN] in H. rewrite Hbu in H. rewrite <-Hbu, DecodeRune_EncodeRune in H by done.
  destruct (IsSpace r) eqn:Es; [|by rewrite Hbu in H]. constructor; [done|].
  rewrite drop_app_length in H. apply (IH fuel); [simpl in Hf; lia|done].
Qed.

Lemma trimLeftSpaceN_all fuel rs :
  scalars rs → (length rs ≤ fuel)%nat → Forall (λ r, IsSpace r = true) rs → trimLeftSpaceN fuel (encoded rs) = [].
Proof.
  intros Hrs. revert fuel. induction Hrs as [|r rs Hr Hrs IH]; intros fuel Hf Hs; [by destruct fuel|].
  apply Forall_cons in Hs as [Hs Hss]. destruct fuel as [|fuel]; [simpl in Hf; lia|].
  destruct (encoded_step r rs Hr) as (HD & Hd & _).
  destruct (EncodeRune_cons r (encoded rs)) as (b & u & Hbu). rewrite <-encoded_cons in Hbu.
  cbn [trimLeftSpaceN]. rewrite Hbu. rewrite <-Hbu, HD, Hs, Hd. apply IH; [simpl in Hf; lia|done].
Qed.

(** The encodings by length: a start byte and continuation bytes. *)
Lemma EncodeRune_shape r :
  ValidRune r = true →
  (∃ a, EncodeRune r = [a] ∧ a < 0x80) ∨
  ∃ a bs, EncodeRune r = a :: bs ∧ 0x80 ≤ a ∧ RuneStart a = true ∧ (1 ≤ length bs ≤ 3)%nat ∧
    Forall (λ b, 0x80 ≤ b ∧ RuneStart b = false) bs.
Proof.
  unfold EncodeRune, RuneStart, ValidRune, MaxRune, in_range. intros Hr.
  repeat case_match; try bool_lia; [left; eexists; split; [done|bool_lia]|right..]; eexists _, _;
    (split_and!; [reflexivity|try div_mod_lia..|]); try (simpl; lia).
  all: repeat constructor; div_mod_lia.
Qed.

Lemma lookup_app_back {A} (p q : list A) k :
  (k ≤ length q)%nat → (p ++ q) !! (length (p ++ q) - k)%nat = q !! (length q - k)%nat.
Proof.
  intros Hk. rewrite length_app, lookup_app_r by lia. f_equal. lia.
Qed.

Lemma DecodeLastRune_encoded rs r :
  scalars rs → ValidRune r = true → DecodeLastRune (encoded rs ++ EncodeRune r) = (r, length (EncodeRune r)).
Proof.
  intros Hrs Hr. pose proof (DecodeRune_EncodeRune r [] Hr) as HD. rewrite app_nil_r in HD.
  destruct (EncodeRune_shape r Hr) as [(a & Ha & Hlt)|(a & bs & He & Ha & Hst & Hl & Hbs)].
  - unfold DecodeLastRune. rewrite Ha in *. rewrite lookup_app_back by done. cbn [length Nat.sub lookup list_lookup].
    rewrite (proj2 (Z.ltb_lt _ _) Hlt). simpl in HD. by destruct (first_info a) as [[[|[|[|[|]]]] [? ?]]|]; simplify_eq.
  - rewrite He in *.
    assert (lastStart (encoded rs ++ a :: bs) = length (encoded rs)) as Hs.
    { unfold lastStart. destruct bs as [|b [|c [|d [|]]]]; simpl in Hl; try lia;
        rewrite ?Forall_cons in Hbs; destruct_and!;
        rewrite !lookup_app_back by (simpl; lia); cbn [length Nat.sub lookup list_lookup];
        rewrite ?length_app; cbn [length];
        repeat match goal with H : RuneStart _ = _ |- _ => rewrite ?H; clear H end;
        rewrite ?(proj2 (Nat.leb_le 2 _)), ?(proj2 (Nat.leb_le 3 _)) by lia; cbn [andb]; lia. }
    unfold DecodeLastRune. rewrite lookup_app_back by (simpl; lia).
    destruct (lookup_lt_is_Some_2 (a :: bs) (length (a :: bs) - 1)%nat) as [x Hx]; [simpl; lia|]. rewrite Hx.
    assert (0x80 ≤ x) as Hx80.
    { assert (Forall (λ b, 0x80 ≤ b) (a :: bs)) as Hall.
      { constructor; [done|]. eapply Forall_impl; [exact Hbs|]. by intros ? [? ?]. }
      by eapply Forall_lookup_1 in Hall. }
    rewrite (proj2 (Z.ltb_ge _ _)) by done. rewrite Hs, drop_app_length, HD, length_app.
    by rewrite Nat.eqb_refl.
Qed.

(** Trimming a valid text leaves something exactly when some rune is no space. *)
Lemma trimRightSpaceN_some fuel rs :
  scalars rs → (length rs ≤ fuel)%nat → ¬ Forall (λ r, IsSpace r = true) rs → trimRightSpaceN fuel (encoded rs) ≠ [].
Proof.
  revert fuel. induction rs as [|r rs IH] using rev_ind; intros fuel Hrs Hf Hn; [by destruct Hn|].
  apply Forall_app in Hrs as [Hrs [Hr _]%Forall_cons]. rewrite length_app in Hf. simpl in Hf.
  destruct fuel as [|fuel]; [lia|]. rewrite encoded_app.
  assert (encoded [r] = EncodeRune r) as Hone by (unfold encoded; simpl; apply app_nil_r). rewrite Hone.
  assert (∃ b u, encoded rs ++ EncodeRune r = b :: u) as (b & u & Hbu).
  { pose proof (EncodeRune_length r). destruct (encoded rs ++ EncodeRune r) eqn:E; [|eauto].
    apply (f_equal length) in E. rewrite length_app in E. simpl in E. lia. }
  cbn [trimRightSpaceN]. rewrite Hbu. rewrite <-Hbu, (DecodeLastRune_encoded rs r Hrs Hr).
  destruct (IsSpace r) eqn:Es; [|by rewrite Hbu].
  rewrite length_app, Nat.add_sub, take_app_length. apply IH; [done|lia|].
  intros Hall. apply Hn. apply Forall_app. by split; [|apply Forall_singleton].
Qed.

(** Whether a text is blank: [strings.TrimSpace(s) == ""]. *)
Definition blank (s : bytes) : bool := bytes_eqb (TrimSpace s) [].

Lemma trimLeft_suffix fuel rs :
  scalars rs → ∃ us, trimLeftSpaceN fuel (encoded rs) = encoded us ∧ us `suffix_of` rs ∧
    (Forall (λ r, IsSpace r = true) us → (length rs ≤ fuel)%nat → Forall (λ r, IsSpace r = true) rs).
Proof.
  intros Hrs. revert fuel. induction Hrs as [|r rs Hr Hrs IH]; intros fuel.
  { exists []. by destruct fuel. }
  destruct fuel as [|fuel]; [exists (r :: rs); split_and!; [by destruct (encoded (r :: rs))|done|done]|].
  destruct (encoded_step r rs Hr) as (HD & Hd & _).
  destruct (EncodeRune_cons r (encoded rs)) as (b & u & Hbu). rewrite <-encoded_cons in Hbu.
  cbn [trimLeftSpaceN]. rewrite Hbu. rewrite <-Hbu, HD, Hd. destruct (IsSpace r) eqn:Es.
  - destruct (IH fuel) as (us & -> & Hsuf & Hall). exists us. split_and!; [done|by apply suffix_cons_r|].
    intros Hu Hf. constructor; [done|]. apply Hall; [done|simpl in Hf; lia].
  - exists (r :: rs). done.
Qed.

Lemma blank_encoded rs : scalars rs → blank (encoded rs) = true ↔ Forall (λ r, IsSpace r = true) rs.
Proof.
  intros Hrs. unfold blank, TrimSpace. rewrite bytes_eqb_eq. split.
  - intros H. destruct (trimLeft_suffix (length (encoded rs)) rs Hrs) as (us & Hus & Hsuf & Hall).
    rewrite Hus in H. apply Hall; [|apply encoded_length].
    destruct (decide (Forall (λ r, IsSpace r = true) us)) as [|Hn]; [done|exfalso].
    eapply trimRightSpaceN_some in Hn; [done| |apply encoded_length].
    destruct Hsuf as [k ->]. by apply Forall_app in Hrs as [_ ?].
  - intros H. by rewrite trimLeftSpaceN_all by (done || apply encoded_length).
Qed.

(** ** The order of strings *)

(** [a <= b] on strings: byte by byte, a prefix first. *)
Fixpoint bytes_leb (a b : bytes) : bool :=
  match a, b with
  | [], _ => true
  | _ :: _, [] => false
  | x :: a, y :: b => (x <b y) || ((x =b y) && bytes_leb a b)
  end.

Lemma bytes_leb_total a : ∀ b, bytes_leb a b = true ∨ bytes_leb b a = true.
Proof.
  induction a as [|x a IH]; intros [|y b]; auto. cbn [bytes_leb]. destruct (Z.lt_trichotomy x y) as [H|[->|H]].
  - left. by replace (x <b y) with true by lia.
  - rewrite Z.ltb_irrefl, Z.eqb_refl. cbn. apply IH.
  - right. by replace (y <b x) with true by lia.
Qed.

Lemma bytes_leb_trans a : ∀ b c, bytes_leb a b = true → bytes_leb b c = true → bytes_leb a c = true.
Proof.
  induction a as [|x a IH]; intros [|y b] [|z c]; try done. cbn [bytes_leb].
  rewrite !orb_true_iff, !andb_true_iff, !Z.ltb_lt, !Z.eqb_eq. intros [H1|[-> H1]] [H2|[-> H2]]; try (left; lia). right. split; [done|]. by eapply IH.
Qed.

Lemma bytes_leb_antisym a : ∀ b, bytes_leb a b = true → bytes_leb b a = true → a = b.
Proof.
  induction a as [|x a IH]; intros [|y b]; try done. cbn [bytes_leb].
  rewrite !orb_true_iff, !andb_true_iff, !Z.ltb_lt, !Z.eqb_eq. intros [H1|[-> H1]] [H2|[H2' H2]]; try lia. f_equal. by apply IH.
Qed.

Definition bytesLe (a b : bytes) : Prop := bytes_leb a b = true.

#[export] Instance bytesLe_dec a b : Decision (bytesLe a b).
Proof. unfold bytesLe. apply _. Defined.

#[export] Instance bytesLe_total : Total bytesLe.
Proof. intros a b. apply bytes_leb_total. Qed.

#[export] Instance bytesLe_trans : Transitive bytesLe.
Proof. intros a b c. apply bytes_leb_trans. Qed.

#[export] Instance bytesLe_antisym : AntiSymm (=) bytesLe.
Proof. intros a b. apply bytes_leb_antisym. Qed.

(** [sort.Strings]. *)
Definition sortStrings (l : list bytes) : list bytes := merge_sort bytesLe l.

(** Sorting forgets the order its argument came in: the way over the keys of a
    map leaves no trace. *)
Lemma sortStrings_perm l k : l ≡ₚ k → sortStrings l = sortStrings k.
Proof.
  intros Hp. apply (Sorted_unique bytesLe).
  - apply Sorted_merge_sort, _.
  - apply Sorted_merge_sort, _.
  - unfold sortStrings. by rewrite !merge_sort_Permutation.
Qed.

Lemma sortStrings_sorted l : StronglySorted bytesLe (sortStrings l) ∧ sortStrings l ≡ₚ l.
Proof. split; [apply (StronglySorted_merge_sort bytesLe)|apply (merge_sort_Permutation bytesLe)]. Qed.
