(* ===== verification/Swar.v ===== *)
(** 64-bit SWAR words: the arithmetic under [pkg/toml/internal/scan] and
    [internal/memchr].

    A word is the little-endian value of eight bytes.  Both packages detect a
    byte class in a word with the borrow trick
    [(w - n*0x0101..) & ^w & 0x8080..]; borrows may set lanes above the first
    true hit, never below it.  [stop_mask] states exactly that, is proved for
    any number of lanes by induction on the bytes, and is closed under the
    [|] the callers combine masks with. *)
From S2P Require Import Prelude.
Local Open Scope Z_scope.

(** Reduction of a uint64 result. *)
Definition w64 (x : Z) : Z := x mod 2 ^ 64.

(** The word an 8-byte load reads on a little-endian machine. *)
Fixpoint le_word (c : bytes) : Z :=
  match c with
  | [] => 0
  | b :: c' => b + 256 * le_word c'
  end.

(** [bits.TrailingZeros64]. *)
Fixpoint pos_trailing_zeros (p : positive) : nat :=
  match p with
  | xO p' => S (pos_trailing_zeros p')
  | _ => 0%nat
  end.

Definition TrailingZeros64 (m : Z) : nat :=
  match m with
  | Zpos p => pos_trailing_zeros p
  | _ => 64%nat
  end.

(** ** Lanes *)

(** [k] lanes of 0x01 and of 0x80: [swarOnes] and [swarHighs] at [k = 8]. *)
Fixpoint ones (k : nat) : Z := match k with O => 0 | S k' => 1 + 256 * ones k' end.
Fixpoint highs (k : nat) : Z := match k with O => 0 | S k' => 128 + 256 * highs k' end.

(** [(w - n*ones) & ^w & highs] on [k] lanes. *)
Definition less_mask (k : nat) (n w : Z) : Z :=
  Z.land (Z.land ((w - n * ones k) mod 256 ^ Z.of_nat k) (Z.lnot w mod 256 ^ Z.of_nat k)) (highs k).

(** [m] marks the first byte of [c] satisfying [p]: it is zero when there is
    none, and otherwise its lowest set bit is bit 7 of that byte's lane. *)
Definition stop_mask (p : Z → bool) (c : bytes) (m : Z) : Prop :=
  0 ≤ m ∧
  (find_stop p c = length c → m = 0) ∧
  ((find_stop p c < length c)%nat →
     Z.testbit m (8 * Z.of_nat (find_stop p c) + 7) = true ∧
     ∀ j, 0 ≤ j < 8 * Z.of_nat (find_stop p c) + 7 → Z.testbit m j = false).

(** ** Lemmas on bytes and words *)

Lemma le_word_range c : Forall is_byte c → 0 ≤ le_word c < 256 ^ Z.of_nat (length c).
Proof.
  induction 1 as [|b c Hb Hc IH]; [done|]. unfold is_byte in Hb.
  cbn [le_word length]. rewrite Nat2Z.inj_succ, Z.pow_succ_r by lia. lia.
Qed.

Lemma land_mod_256 x y : Z.land x y mod 256 = Z.land (x mod 256) (y mod 256).
Proof.
  change 256 with (2 ^ 8). rewrite <-!Z.land_ones by lia.
  apply Z.bits_inj'. intros i _. rewrite !Z.land_spec.
  destruct (Z.testbit x i), (Z.testbit y i), (Z.testbit (Z.ones 8) i); done.
Qed.

Lemma land_div_256 x y : Z.land x y / 256 = Z.land (x / 256) (y / 256).
Proof.
  change 256 with (2 ^ 8). rewrite <-!Z.shiftr_div_pow2 by lia. apply Z.shiftr_land.
Qed.

(** The high bit of a byte. *)
Lemma land_128 x : 0 ≤ x < 256 → Z.land x 128 = if (128 ≤b x) then 128 else 0.
Proof.
  intros Hx.
  assert (Z.testbit x 7 = (128 ≤b x)) as H7.
  { rewrite Z.testbit_odd, Z.shiftr_div_pow2 by lia. change (2 ^ 7) with 128.
    destruct (Z.leb_spec 128 x).
    - by replace (x / 128) with 1 by (Z.div_mod_to_equations; lia).
    - by rewrite Z.div_small by lia. }
  apply Z.bits_inj'. intros i Hi.
  rewrite Z.land_spec. change 128 with (2 ^ 7) at 1 3. rewrite Z.pow2_bits_eqb by lia.
  destruct (Z.eqb_spec 7 i) as [<-|].
  - rewrite H7. destruct (128 ≤b x); [done|]. by rewrite Z.bits_0.
  - rewrite andb_false_r. destruct (128 ≤b x); [|by rewrite Z.bits_0].
    symmetry. rewrite Z.pow2_bits_eqb by lia. by apply Z.eqb_neq.
Qed.

Lemma land3_128 x y :
  0 ≤ x < 256 → 0 ≤ y < 256 →
  Z.land (Z.land x y) 128 = if (128 ≤b x) && (128 ≤b y) then 128 else 0.
Proof.
  intros. rewrite <-Z.land_assoc, land_128 by done.
  destruct (128 ≤b y); [rewrite land_128 by done|rewrite Z.land_0_r];
    by destruct (128 ≤b x).
Qed.

Lemma highs_S k : highs (S k) = 128 + 256 * highs k.
Proof. done. Qed.

Lemma ones_S k : ones (S k) = 1 + 256 * ones k.
Proof. done. Qed.

(** ** The mask of "some byte is below n" *)

Section less_mask.
Context (n : Z) (Hn : 1 ≤ n ≤ 128).

Lemma less_mask_low k b w :
  0 ≤ b < 256 →
  less_mask (S k) n (b + 256 * w) mod 256 = if (b <b n) then 128 else 0.
Proof.
  intros Hb. unfold less_mask.
  rewrite !land_mod_256, highs_S, ones_S.
  replace (256 ^ Z.of_nat (S k)) with (256 * 256 ^ Z.of_nat k)
    by (rewrite Nat2Z.inj_succ, Z.pow_succ_r by lia; lia).
  assert (0 < 256 ^ Z.of_nat k) by (apply Z.pow_pos_nonneg; lia).
  rewrite !Z.rem_mul_r, !(Z.mul_comm 256 (_ mod _)), !Z.mod_add, !Z.mod_mod by lia.
  replace (b + 256 * w - n * (1 + 256 * ones k)) with ((b - n) + (w - n * ones k) * 256) by lia.
  replace (Z.lnot (b + 256 * w)) with ((255 - b) + (- w - 1) * 256) by (unfold Z.lnot; lia).
  replace (128 + 256 * highs k) with (128 + highs k * 256) by lia.
  rewrite !Z.mod_add by lia. rewrite (Z.mod_small (255 - b)), (Z.mod_small 128) by lia.
  rewrite land3_128 by (try apply Z.mod_pos_bound; lia).
  destruct (Z.ltb_spec b n).
  - replace ((b - n) mod 256) with (b - n + 256) by (symmetry; Z.div_mod_to_equations; lia).
    rewrite (proj2 (Z.leb_le _ _)), (proj2 (Z.leb_le _ _)) by lia. done.
  - rewrite Z.mod_small by lia.
    destruct (Z.leb_spec 128 (b - n)); simpl; [|done].
    by rewrite (proj2 (Z.leb_gt _ _)) by lia.
Qed.

Lemma less_mask_high k b w :
  n ≤ b < 256 →
  less_mask (S k) n (b + 256 * w) / 256 = less_mask k n w.
Proof.
  intros Hb. unfold less_mask.
  rewrite !land_div_256, highs_S, ones_S.
  replace (256 ^ Z.of_nat (S k)) with (256 * 256 ^ Z.of_nat k)
    by (rewrite Nat2Z.inj_succ, Z.pow_succ_r by lia; lia).
  assert (0 < 256 ^ Z.of_nat k) by (apply Z.pow_pos_nonneg; lia).
  rewrite !Z.rem_mul_r by lia.
  replace (b + 256 * w - n * (1 + 256 * ones k)) with ((b - n) + (w - n * ones k) * 256) by lia.
  replace (Z.lnot (b + 256 * w)) with ((255 - b) + Z.lnot w * 256) by (unfold Z.lnot; lia).
  replace (128 + 256 * highs k) with (128 + highs k * 256) by lia.
  rewrite !(Z.mul_comm 256 (_ mod _)), !Z.div_add, !Z.mod_add by lia.
  rewrite !(Z.div_small (_ mod 256)) by (apply Z.mod_pos_bound; lia).
  rewrite (Z.div_small (b - n)), (Z.div_small (255 - b)), (Z.div_small 128) by lia.
  by rewrite !Z.add_0_l.
Qed.

Lemma less_mask_nonneg k w : 0 ≤ less_mask k n w.
Proof.
  unfold less_mask. apply Z.land_nonneg. right.
  induction k as [|k IH]; [done|]. rewrite highs_S. lia.
Qed.

Lemma less_mask_spec c :
  Forall is_byte c →
  stop_mask (λ b, b <b n) c (less_mask (length c) n (le_word c)).
Proof.
  induction 1 as [|b c Hb Hc (_ & IH0 & IH1)]; [|].
  { split; [apply less_mask_nonneg|]. split; [intros _; apply Z.land_0_r|simpl; lia]. }
  unfold is_byte in Hb. split; [apply less_mask_nonneg|].
  cbn [le_word length find_stop].
  pose proof (less_mask_low (length c) b (le_word c) Hb) as Hlow.
  set (m := less_mask (S (length c)) n (b + 256 * le_word c)) in *. revert Hlow.
  destruct (Z.ltb_spec b n) as [Hlt|Hge]; intros Hlow.
  - split; [done|]. intros _. change (8 * Z.of_nat 0 + 7) with 7.
    assert (∀ j, 0 ≤ j < 8 → Z.testbit m j = Z.testbit 128 j) as Hbits.
    { intros j Hj. rewrite <-Hlow. change 256 with (2 ^ 8).
      by rewrite Z.mod_pow2_bits_low by lia. }
    split; [by rewrite Hbits by lia|].
    intros j Hj. rewrite Hbits by lia. change 128 with (2 ^ 7).
    rewrite Z.pow2_bits_eqb by lia. apply Z.eqb_neq. lia.
  - pose proof (less_mask_high (length c) b (le_word c) ltac:(lia)) as Hhigh. fold m in Hhigh.
    assert (m = less_mask (length c) n (le_word c) * 2 ^ 8) as Hm.
    { change (2 ^ 8) with 256. rewrite <-Hhigh. Z.div_mod_to_equations. lia. }
    split; [intros Heq; rewrite Hm, IH0 by lia; done|]. intros Hlt.
    destruct IH1 as [Hb7 Hb0]; [lia|]. split.
    + rewrite Hm, Z.mul_pow2_bits by lia. rewrite <-Hb7. f_equal. lia.
    + intros j Hj. rewrite Hm, Z.mul_pow2_bits by lia.
      destruct (Z.ltb_spec j 8); [by rewrite Z.testbit_neg_r by lia|].
      apply Hb0. lia.
Qed.
End less_mask.

(** ** Zero bytes, equal bytes and combined masks *)

Lemma stop_mask_ext p q c m :
  (∀ b, b ∈ c → p b = q b) → stop_mask p c m → stop_mask q c m.
Proof. intros H. unfold stop_mask. by rewrite (find_stop_ext p q c H). Qed.

Lemma find_stop_orb (p q : Z → bool) c :
  find_stop (λ b, p b || q b) c = Nat.min (find_stop p c) (find_stop q c).
Proof.
  induction c as [|b c IH]; simpl; [done|].
  destruct (p b), (q b); simpl; rewrite ?IH; lia.
Qed.

Lemma stop_mask_lor p q c m m' :
  stop_mask p c m → stop_mask q c m' → stop_mask (λ b, p b || q b) c (Z.lor m m').
Proof.
  intros (Hm & Hp0 & Hp1) (Hm' & Hq0 & Hq1).
  pose proof (find_stop_le p c). pose proof (find_stop_le q c).
  split; [by apply Z.lor_nonneg|]. rewrite find_stop_orb. split.
  { intros E. by rewrite Hp0, Hq0 by lia. }
  intros E.
  (* one of the two finds a byte; the other is zero or marks no lower bit *)
  assert (∀ r mr, (find_stop r c = length c → mr = 0) →
    ((find_stop r c < length c)%nat →
      Z.testbit mr (8 * Z.of_nat (find_stop r c) + 7) = true ∧
      ∀ j, 0 ≤ j < 8 * Z.of_nat (find_stop r c) + 7 → Z.testbit mr j = false) →
    (find_stop r c ≤ length c)%nat →
    ∀ j, 0 ≤ j < 8 * Z.of_nat (find_stop r c) + 7 → Z.testbit mr j = false) as Hlow.
  { intros r mr Hz Hnz Hle j Hj. destruct (decide (find_stop r c = length c)).
    - rewrite Hz by done. apply Z.bits_0.
    - apply Hnz; [lia|done]. }
  split.
  - rewrite Z.lor_spec. destruct (decide (find_stop p c ≤ find_stop q c)%nat).
    + rewrite Nat.min_l by done. by rewrite (proj1 (Hp1 ltac:(lia))).
    + rewrite Nat.min_r by lia. rewrite (proj1 (Hq1 ltac:(lia))). apply orb_true_r.
  - intros j Hj. rewrite Z.lor_spec.
    rewrite (Hlow p m), (Hlow q m') by (done || lia). done.
Qed.

(** Broadcasting: xor with [c * ones] xors every byte. *)
Lemma lxor_byte_range x y : 0 ≤ x < 256 → 0 ≤ y < 256 → 0 ≤ Z.lxor x y < 256.
Proof.
  intros. split; [apply Z.lxor_nonneg; lia|].
  destruct (Z.eq_dec (Z.lxor x y) 0) as [->|]; [lia|].
  assert (0 ≤ Z.lxor x y) by (apply Z.lxor_nonneg; lia).
  change 256 with (2 ^ 8). apply Z.log2_lt_pow2; [lia|].
  pose proof (Z.log2_lxor x y ltac:(lia) ltac:(lia)).
  assert (∀ z, 0 ≤ z < 256 → Z.log2 z < 8) as Hlog.
  { intros z Hz. destruct (Z.eq_dec z 0) as [->|]; [done|]. apply Z.log2_lt_pow2; lia. }
  pose proof (Hlog x). pose proof (Hlog y). lia.
Qed.

Lemma lxor_lanes x y u v :
  0 ≤ x < 256 → 0 ≤ y < 256 →
  Z.lxor (x + 256 * u) (y + 256 * v) = Z.lxor x y + 256 * Z.lxor u v.
Proof.
  intros. pose proof (lxor_byte_range x y ltac:(lia) ltac:(lia)).
  assert (∀ a b, 0 ≤ a < 256 → a + 256 * b = Z.lor a (Z.shiftl b 8)) as Hlor.
  { intros a b Ha.
    assert (Z.land a (Z.shiftl b 8) = 0) as Hd.
    { apply Z.bits_inj'. intros i Hi. rewrite Z.land_spec, Z.bits_0, Z.shiftl_spec by lia.
      destruct (Z.ltb_spec i 8); [by rewrite (Z.testbit_neg_r b), andb_false_r by lia|].
      rewrite <-(Z.mod_small a (2 ^ 8)) by lia. by rewrite Z.mod_pow2_bits_high by lia. }
    rewrite <-Z.lxor_lor, <-Z.add_nocarry_lxor by done.
    rewrite Z.shiftl_mul_pow2 by lia. lia. }
  rewrite !Hlor by done. apply Z.bits_inj'. intros i Hi.
  rewrite !Z.lor_spec, !Z.lxor_spec, !Z.lor_spec, !Z.shiftl_spec, Z.lxor_spec by lia.
  destruct (Z.ltb_spec i 8).
  - rewrite !(Z.testbit_neg_r _ (i - 8)) by lia. by rewrite !orb_false_r.
  - assert (∀ a, 0 ≤ a < 256 → Z.testbit a i = false) as Hhi.
    { intros a Ha. rewrite <-(Z.mod_small a (2 ^ 8)) by lia. by apply Z.mod_pow2_bits_high. }
    by rewrite !Hhi by lia.
Qed.

Lemma le_word_lxor n c :
  0 ≤ n < 256 → Forall is_byte c →
  Z.lxor (le_word c) (n * ones (length c)) = le_word (map (λ b, Z.lxor b n) c).
Proof.
  intros Hn. induction 1 as [|b c Hb Hc IH]; [by rewrite Z.mul_0_r|].
  cbn [le_word length map]. rewrite ones_S, <-IH.
  replace (n * (1 + 256 * ones (length c))) with (n + 256 * (n * ones (length c))) by lia.
  by apply lxor_lanes.
Qed.

Lemma find_stop_map {A B} (f : A → B) (p : B → bool) s :
  find_stop p (map f s) = find_stop (λ a, p (f a)) s.
Proof. induction s as [|a s IH]; simpl; [done|]. by rewrite IH. Qed.

Lemma stop_mask_map f p c m : stop_mask p (map f c) m → stop_mask (λ b, p (f b)) c m.
Proof. unfold stop_mask. by rewrite find_stop_map, length_map. Qed.

(** The lowest set bit of a mask gives the first stop. *)
Lemma pos_trailing_zeros_spec p :
  Z.testbit (Zpos p) (Z.of_nat (pos_trailing_zeros p)) = true ∧
  ∀ j, 0 ≤ j < Z.of_nat (pos_trailing_zeros p) → Z.testbit (Zpos p) j = false.
Proof.
  induction p as [p IH|p IH|]; cbn [pos_trailing_zeros]; [by split; [|lia]| |by split; [|lia]].
  destruct IH as [IH1 IH2]. rewrite Pos2Z.inj_xO, Nat2Z.inj_succ. split.
  - by rewrite Z.double_bits_succ.
  - intros j Hj. destruct (Z.eq_dec j 0) as [->|]; [apply Z.testbit_even_0|].
    replace j with (Z.succ (j - 1)) by lia. rewrite Z.double_bits_succ.
    apply IH2. lia.
Qed.

Lemma stop_mask_TrailingZeros64 p c m :
  stop_mask p c m →
  m ≠ 0 → (find_stop p c < length c)%nat ∧ (TrailingZeros64 m / 8)%nat = find_stop p c.
Proof.
  intros (Hm & H0 & H1) Hnz. pose proof (find_stop_le p c).
  assert (find_stop p c < length c)%nat as Hlt.
  { destruct (decide (find_stop p c = length c)); [|lia]. by destruct Hnz; apply H0. }
  split; [done|]. destruct (H1 Hlt) as [Ht Hb].
  destruct m as [|q|q]; [done| |lia]. cbn [TrailingZeros64].
  destruct (pos_trailing_zeros_spec q) as [Hz1 Hz2].
  assert (Z.of_nat (pos_trailing_zeros q) = 8 * Z.of_nat (find_stop p c) + 7) as Heq.
  { destruct (Z.lt_trichotomy (Z.of_nat (pos_trailing_zeros q)) (8 * Z.of_nat (find_stop p c) + 7))
      as [Hlt'|[?|Hgt]]; [|done|].
    - rewrite Hb in Hz1 by lia. done.
    - rewrite Hz2 in Ht by lia. done. }
  replace (pos_trailing_zeros q) with (7 + find_stop p c * 8)%nat by lia.
  by rewrite Nat.div_add by lia.
Qed.

Lemma stop_mask_zero p c m : stop_mask p c m → m = 0 → find_stop p c = length c.
Proof.
  intros (Hm & H0 & H1) ->. pose proof (find_stop_le p c).
  destruct (decide (find_stop p c = length c)); [done|].
  destruct H1 as [H1 _]; [lia|]. by rewrite Z.bits_0 in H1.
Qed.

(** The mask of "some byte equals n": xor with the broadcast, then zero bytes. *)
Lemma eq_mask_spec c n :
  length c = 8%nat → Forall is_byte c → is_byte n →
  stop_mask (λ b, b =b n) c (less_mask 8 1 (Z.lxor (le_word c) (w64 (n * ones 8)))).
Proof.
  intros Hlen Hc Hn. unfold is_byte in Hn.
  assert (w64 (n * ones 8) = n * ones (length c)) as ->.
  { rewrite Hlen. unfold w64. rewrite Z.mod_small; [done|].
    change (ones 8) with 0x0101010101010101. lia. }
  rewrite le_word_lxor by done.
  assert (Forall is_byte (map (λ b, Z.lxor b n) c)) as Hx.
  { apply Forall_map. eapply Forall_impl; [exact Hc|].
    intros b Hb. by apply lxor_byte_range. }
  pose proof (less_mask_spec 1 ltac:(lia) _ Hx) as H. rewrite length_map, Hlen in H.
  apply (stop_mask_map (λ b, Z.lxor b n)) in H.
  eapply stop_mask_ext; [|exact H]. intros b Hb. simpl.
  rewrite Forall_forall in Hc. specialize (Hc b Hb).
  destruct (Z.eqb_spec b n) as [->|Hbn]; [by rewrite Z.lxor_nilpotent|].
  apply Z.ltb_ge. pose proof (lxor_byte_range b n Hc Hn).
  destruct (Z.eq_dec (Z.lxor b n) 0) as [E|]; [|lia].
  by apply Z.lxor_eq in E.
Qed.
