(* ===== verification/Scan.v ===== *)
(** The scan kernels of [pkg/toml/internal/scan].

    [Module Swar] translates scan_swar.go and strict.go: word-at-a-time loops
    with a scalar tail.  The package binds one implementation per build to its
    dispatch variables (api.go); [ScanKernels] is that interface with what the
    decoder relies on, each kernel against the naive loop that is its
    documented oracle, and [swar_kernels] discharges it for the SWAR backend.

    Fuel: the word loops advance by 8 and the byte loops by at least 1, so
    [length s] iterations always suffice; where the fuel runs out earlier the
    loops fall through to their scalar tail, as the lemmas show. *)
From S2P Require Import Prelude GoUtf8 Swar.
Local Open Scope Z_scope.

(** ** Byte classes (strict.go, scan_swar.go) *)

Definition bareKeyClass (b : Z) : bool :=
  ((cA ≤b b) && (b ≤b cZ)) || ((ca ≤b b) && (b ≤b cz)) ||
  ((c0 ≤b b) && (b ≤b c9)) || (b =b UNDERSCORE) || (b =b MINUS).

Definition basicStringStrictStop (b : Z) : bool :=
  (b =b DQUOTE) || (b =b BSLASH) || (b =b 0x7f) || ((b <b 0x20) && (b ≠b TAB)).

Definition commentBodyStop (b : Z) : bool :=
  (b =b 0x7f) || ((b <b 0x20) && (b ≠b TAB)).

Definition bareValueDelimiter (b : Z) : bool :=
  (b =b SP) || (b =b TAB) || (b =b CR) || (b =b LF) || (b =b COMMA) ||
  (b =b RBRACK) || (b =b RBRACE) || (b =b HASH) || (b =b EQUALS).

Definition basicStringStop (b : Z) : bool := (b =b DQUOTE) || (b =b BSLASH).

Definition scanBasicStringStrictScalar (s : bytes) : nat := find_stop basicStringStrictStop s.
Definition scanCommentBodyScalar (s : bytes) : nat := find_stop commentBodyStop s.
Definition scanBareValueEndScalar (s : bytes) : nat := find_stop bareValueDelimiter s.
Definition countLinesScalar (s : bytes) : nat := count (Z.eqb LF) s.

Module Swar.

Definition swarOnes : Z := 0x0101010101010101.
Definition swarHighs : Z := 0x8080808080808080.

Definition hasZero (w : Z) : Z :=
  Z.land (Z.land (w64 (w - swarOnes)) (w64 (Z.lnot w))) swarHighs.

Definition hasByteEq (w c : Z) : Z := hasZero (Z.lxor w (w64 (c * swarOnes))).

Definition hasByteLessThan (w n : Z) : Z :=
  Z.land (Z.land (w64 (w - w64 (n * swarOnes))) (w64 (Z.lnot w))) swarHighs.

(** The caller guarantees [i+8 <= len(b)]. *)
Definition loadu64 (b : bytes) (i : nat) : Z := le_word (slice b i (i + 8)).

(** [for i+8 <= len(s) { w := loadu64(s, i); ...; i += 8 }], where [hit i w] is
    the index the loop body returns, if it does, and [tail] is the code after
    the loop. *)
Fixpoint word_loop {R} (fuel : nat) (hit : nat → Z → option R) (tail : nat → R)
    (s : bytes) (i : nat) : R :=
  match fuel with
  | O => tail i
  | S fuel' =>
      if (i + 8 <=? length s)%nat then
        match hit i (loadu64 s i) with
        | Some r => r
        | None => word_loop fuel' hit tail s (i + 8)
        end
      else tail i
  end.

(** [m := mask(w); if m != 0 { return i + bits.TrailingZeros64(m)/8 }]. *)
Definition mask_hit (mask : Z → Z) (i : nat) (w : Z) : option nat :=
  let m := mask w in
  if (m ≠b 0) then Some (i + TrailingZeros64 m / 8)%nat else None.

(** [m := mask(w); if m != 0 { if n := scalar(s[i:i+8]); n < 8 { return i+n } }]. *)
Definition rescan_hit (mask : Z → Z) (scalar : bytes → nat) (s : bytes) (i : nat) (w : Z) : option nat :=
  let m := mask w in
  if (m ≠b 0) then
    let n := scalar (slice s i (i + 8)) in
    if (n <? 8)%nat then Some (i + n)%nat else None
  else None.

Definition scanBareKeySWAR (s : bytes) : nat := find_stop (λ b, negb (bareKeyClass b)) s.

Definition basicStringMask (w : Z) : Z := Z.lor (hasByteEq w DQUOTE) (hasByteEq w BSLASH).

Definition scanBasicStringSWAR (s : bytes) : nat :=
  word_loop (length s) (mask_hit basicStringMask)
    (λ i, i + find_stop basicStringStop (drop i s))%nat s 0.

Definition basicStringStrictMask (w : Z) : Z :=
  Z.lor (Z.lor (Z.lor (hasByteEq w DQUOTE) (hasByteEq w BSLASH)) (hasByteEq w 0x7f))
    (hasByteLessThan w 0x20).

Definition scanBasicStringStrictSWAR (s : bytes) : nat :=
  word_loop (length s) (rescan_hit basicStringStrictMask scanBasicStringStrictScalar s)
    (λ i, i + scanBasicStringStrictScalar (drop i s))%nat s 0.

Definition commentBodyMask (w : Z) : Z := Z.lor (hasByteEq w 0x7f) (hasByteLessThan w 0x20).

Definition scanCommentBodySWAR (s : bytes) : nat :=
  word_loop (length s) (rescan_hit commentBodyMask scanCommentBodyScalar s)
    (λ i, i + scanCommentBodyScalar (drop i s))%nat s 0.

Definition bareValueMask (w : Z) : Z :=
  Z.lor (Z.lor (Z.lor (Z.lor (Z.lor (Z.lor (Z.lor (Z.lor
    (hasByteEq w SP) (hasByteEq w TAB)) (hasByteEq w CR)) (hasByteEq w LF))
    (hasByteEq w COMMA)) (hasByteEq w RBRACK)) (hasByteEq w RBRACE)) (hasByteEq w HASH))
    (hasByteEq w EQUALS).

Definition scanBareValueEndSWAR (s : bytes) : nat :=
  word_loop (length s) (mask_hit bareValueMask)
    (λ i, i + scanBareValueEndScalar (drop i s))%nat s 0.

Definition countLinesSWAR (s : bytes) : nat := countLinesScalar s.

Definition scanLiteralStringSWAR (s : bytes) : nat :=
  word_loop (length s) (mask_hit (λ w, hasByteEq w SQUOTE))
    (λ i, i + find_stop (Z.eqb SQUOTE) (drop i s))%nat s 0.

Definition skipWhitespaceSWAR (s : bytes) : nat :=
  find_stop (λ b, (b ≠b SP) && (b ≠b TAB)) s.

(** Go returns an int that is -1 when there is no newline. *)
Definition locateNewlineSWAR (s : bytes) : Z :=
  word_loop (length s) (λ i w, Z.of_nat <$> mask_hit (λ w, hasByteEq w LF) i w)
    (λ i, match find_index (Z.eqb LF) (drop i s) with
          | Some k => Z.of_nat (i + k)
          | None => -1
          end) s 0.

(** The ASCII fast path: the first word with a high bit set. *)
Fixpoint asciiWords (fuel : nat) (s : bytes) (i : nat) : nat :=
  match fuel with
  | O => i
  | S fuel' =>
      if (i + 8 <=? length s)%nat then
        if (Z.land (loadu64 s i) swarHighs =b 0) then asciiWords fuel' s (i + 8) else i
      else i
  end.

(** The per-rune loop from [i]. *)
Fixpoint utf8Runes (fuel : nat) (s : bytes) (i : nat) : nat :=
  match fuel with
  | O => i
  | S fuel' =>
      match s !! i with
      | None => length s
      | Some b =>
          if (b <b 0x80) then utf8Runes fuel' s (i + 1)
          else
            let '(r, size) := DecodeRune (drop i s) in
            if (r =b RuneError) && (size =? 1)%nat then i
            else utf8Runes fuel' s (i + size)
      end
  end.

Definition validateUTF8SWAR (s : bytes) : nat :=
  utf8Runes (S (length s)) s (asciiWords (length s) s 0).

End Swar.

(** ** The interface the decoder is written against (api.go) *)

Class ScanKernels := {
  ScanBareKey : bytes → nat;
  ScanBasicString : bytes → nat;
  ScanBasicStringStrict : bytes → nat;
  ScanCommentBody : bytes → nat;
  ScanBareValueEnd : bytes → nat;
  CountLines : bytes → nat;
  ScanLiteralString : bytes → nat;
  SkipWhitespace : bytes → nat;
  LocateNewline : bytes → Z;
  ValidateUTF8 : bytes → nat;

  ScanBareKey_ok s : Forall is_byte s →
    ScanBareKey s = find_stop (λ b, negb (bareKeyClass b)) s;
  ScanBasicString_ok s : Forall is_byte s →
    ScanBasicString s = find_stop basicStringStop s;
  ScanBasicStringStrict_ok s : Forall is_byte s →
    ScanBasicStringStrict s = find_stop basicStringStrictStop s;
  ScanCommentBody_ok s : Forall is_byte s →
    ScanCommentBody s = find_stop commentBodyStop s;
  ScanBareValueEnd_ok s : Forall is_byte s →
    ScanBareValueEnd s = find_stop bareValueDelimiter s;
  CountLines_ok s : Forall is_byte s → CountLines s = count (Z.eqb LF) s;
  ScanLiteralString_ok s : Forall is_byte s →
    ScanLiteralString s = find_stop (Z.eqb SQUOTE) s;
  SkipWhitespace_ok s : Forall is_byte s →
    SkipWhitespace s = find_stop (λ b, (b ≠b SP) && (b ≠b TAB)) s;
  LocateNewline_ok s : Forall is_byte s →
    LocateNewline s = match find_index (Z.eqb LF) s with Some i => Z.of_nat i | None => -1 end;
  (** The longest prefix made of whole encoded scalar values. *)
  ValidateUTF8_ok s : Forall is_byte s →
    (ValidateUTF8 s ≤ length s)%nat ∧
    valid_utf8 (take (ValidateUTF8 s) s) ∧
    (ValidateUTF8 s ≠ length s → DecodeRune (drop (ValidateUTF8 s) s) = (RuneError, 1%nat))
}.

(** ** The SWAR backend implements the interface *)

Section swar_masks.
Import Swar.
Context (c : bytes) (Hlen : length c = 8%nat) (Hc : Forall is_byte c).

Lemma hasByteLessThan_mask n :
  1 ≤ n ≤ 128 → stop_mask (λ b, b <b n) c (hasByteLessThan (le_word c) n).
Proof.
  intros Hn. pose proof (less_mask_spec n Hn c Hc) as H.
  rewrite Hlen in H. unfold less_mask in H. unfold hasByteLessThan, w64.
  rewrite Zminus_mod_idemp_r. exact H.
Qed.
End swar_masks.

Lemma hasByteEq_mask c n :
  length c = 8%nat → Forall is_byte c → is_byte n →
  stop_mask (λ b, b =b n) c (Swar.hasByteEq (le_word c) n).
Proof. apply eq_mask_spec. Qed.

Section word_loop.
Import Swar.
Context (s : bytes) (Hs : Forall is_byte s).

Lemma slice_bytes i j : Forall is_byte (slice s i j).
Proof. by apply Forall_take, Forall_drop. Qed.

Lemma drop_slice_8 i :
  (i + 8 ≤ length s)%nat → drop i s = slice s i (i + 8) ++ drop (i + 8) s.
Proof.
  intros. unfold slice. rewrite <-(take_drop 8 (drop i s)) at 1.
  rewrite drop_drop. f_equal. f_equal. lia.
Qed.

(** A loop whose body stops exactly at the first stop of each word, followed
    by the scalar tail, is the scalar scan. *)
Lemma word_loop_find (p : Z → bool) hit fuel i :
  (∀ j, (j + 8 ≤ length s)%nat →
     hit j (le_word (slice s j (j + 8))) =
       if (find_stop p (slice s j (j + 8)) <? 8)%nat
       then Some (j + find_stop p (slice s j (j + 8)))%nat else None) →
  word_loop fuel hit (λ i, i + find_stop p (drop i s))%nat s i
    = (i + find_stop p (drop i s))%nat.
Proof.
  intros Hhit. revert i. induction fuel as [|fuel IH]; intros i; [done|].
  cbn [word_loop]. destruct (Nat.leb_spec (i + 8) (length s)) as [Hle|]; [|done].
  unfold loadu64. rewrite Hhit, IH by done. rewrite (drop_slice_8 i Hle), find_stop_app.
  rewrite length_slice by lia.
  replace (i + 8 - i)%nat with 8%nat by lia.
  pose proof (find_stop_le p (slice s i (i + 8))) as Hl. rewrite length_slice in Hl by lia.
  destruct (Nat.ltb_spec (find_stop p (slice s i (i + 8))) 8); case_decide; lia.
Qed.

Lemma mask_hit_find (p : Z → bool) mask j :
  (∀ c, length c = 8%nat → Forall is_byte c → stop_mask p c (mask (le_word c))) →
  (j + 8 ≤ length s)%nat →
  mask_hit mask j (le_word (slice s j (j + 8))) =
    if (find_stop p (slice s j (j + 8)) <? 8)%nat
    then Some (j + find_stop p (slice s j (j + 8)))%nat else None.
Proof.
  intros Hmask Hj. assert (length (slice s j (j + 8)) = 8%nat) as Hl
    by (rewrite length_slice by lia; lia).
  specialize (Hmask _ Hl (slice_bytes j (j + 8))). unfold mask_hit.
  destruct (Z.eqb_spec (mask (le_word (slice s j (j + 8)))) 0) as [E|E]; cbn [negb].
  - by rewrite (stop_mask_zero _ _ _ Hmask E), Hl.
  - destruct (stop_mask_TrailingZeros64 _ _ _ Hmask E) as [? ->].
    by rewrite (proj2 (Nat.ltb_lt _ _)) by lia.
Qed.

(** A rescan is right as soon as the mask covers the scalar's stops. *)
Lemma rescan_hit_find (p q : Z → bool) mask j :
  (∀ c, length c = 8%nat → Forall is_byte c → stop_mask q c (mask (le_word c))) →
  (∀ b, p b = true → q b = true) →
  (j + 8 ≤ length s)%nat →
  rescan_hit mask (find_stop p) s j (le_word (slice s j (j + 8))) =
    if (find_stop p (slice s j (j + 8)) <? 8)%nat
    then Some (j + find_stop p (slice s j (j + 8)))%nat else None.
Proof.
  intros Hmask Hpq Hj. assert (length (slice s j (j + 8)) = 8%nat) as Hl
    by (rewrite length_slice by lia; lia).
  specialize (Hmask _ Hl (slice_bytes j (j + 8))). unfold rescan_hit.
  destruct (Z.eqb_spec (mask (le_word (slice s j (j + 8)))) 0) as [E|E]; cbn [negb]; [|done].
  pose proof (stop_mask_zero _ _ _ Hmask E) as Hq.
  assert (find_stop p (slice s j (j + 8)) = length (slice s j (j + 8))) as ->; [|by rewrite Hl].
  apply find_stop_all in Hq. apply find_stop_all.
  eapply Forall_impl; [exact Hq|]. intros b Hb. cbv beta in Hb |- *.
  destruct (p b) eqn:Ep; [|done]. by rewrite Hpq in Hb.
Qed.

Lemma mask_loop_ok (p : Z → bool) mask :
  (∀ c, length c = 8%nat → Forall is_byte c → stop_mask p c (mask (le_word c))) →
  word_loop (length s) (mask_hit mask) (λ i, i + find_stop p (drop i s))%nat s 0 = find_stop p s.
Proof.
  intros Hmask. rewrite word_loop_find; [done|].
  intros j Hj. by apply mask_hit_find.
Qed.

Lemma rescan_loop_ok (p q : Z → bool) mask :
  (∀ c, length c = 8%nat → Forall is_byte c → stop_mask q c (mask (le_word c))) →
  (∀ b, p b = true → q b = true) →
  word_loop (length s) (rescan_hit mask (find_stop p) s) (λ i, i + find_stop p (drop i s))%nat s 0
    = find_stop p s.
Proof.
  intros Hmask Hpq. rewrite word_loop_find; [done|].
  intros j Hj. by apply rescan_hit_find with (q := q).
Qed.
End word_loop.

(** Masks of the kernels, built from the equality and below-n masks. *)
Ltac solve_mask :=
  intros; repeat first
    [ apply stop_mask_lor
    | apply hasByteEq_mask; [done|done|by compute]
    | apply hasByteLessThan_mask; [done|done|lia] ].

Lemma scanBasicStringSWAR_ok s :
  Forall is_byte s → Swar.scanBasicStringSWAR s = find_stop basicStringStop s.
Proof. intros. apply mask_loop_ok; [done|]. solve_mask. Qed.

Lemma scanLiteralStringSWAR_ok s :
  Forall is_byte s → Swar.scanLiteralStringSWAR s = find_stop (Z.eqb SQUOTE) s.
Proof.
  intros. apply mask_loop_ok; [done|]. intros.
  apply stop_mask_ext with (λ b, b =b SQUOTE); [intros; apply Z.eqb_sym|]. solve_mask.
Qed.

Lemma scanBareValueEndSWAR_ok s :
  Forall is_byte s → Swar.scanBareValueEndSWAR s = find_stop bareValueDelimiter s.
Proof. intros. apply mask_loop_ok; [done|]. solve_mask. Qed.

Lemma scanBasicStringStrictSWAR_ok s :
  Forall is_byte s → Swar.scanBasicStringStrictSWAR s = find_stop basicStringStrictStop s.
Proof.
  intros. eapply rescan_loop_ok; [done|solve_mask|].
  unfold basicStringStrictStop. intros b. destruct (b <b 32); simpl; [by rewrite orb_true_r|].
  by rewrite !orb_false_r.
Qed.

Lemma scanCommentBodySWAR_ok s :
  Forall is_byte s → Swar.scanCommentBodySWAR s = find_stop commentBodyStop s.
Proof.
  intros. eapply rescan_loop_ok; [done|solve_mask|].
  unfold commentBodyStop. intros b. destruct (b <b 32); simpl; [by rewrite orb_true_r|].
  by rewrite !orb_false_r.
Qed.

Lemma locateNewlineSWAR_ok s :
  Forall is_byte s →
  Swar.locateNewlineSWAR s =
    match find_index (Z.eqb LF) s with Some i => Z.of_nat i | None => -1 end.
Proof.
  intros Hs. unfold Swar.locateNewlineSWAR.
  assert (∀ c, length c = 8%nat → Forall is_byte c →
            stop_mask (Z.eqb LF) c (Swar.hasByteEq (le_word c) LF)) as Hmask.
  { intros. apply stop_mask_ext with (λ b, b =b LF); [intros; apply Z.eqb_sym|]. solve_mask. }
  cut (∀ fuel i, Swar.word_loop fuel (λ i w, Z.of_nat <$> Swar.mask_hit (λ w, Swar.hasByteEq w LF) i w)
      (λ i, match find_index (Z.eqb LF) (drop i s) with Some k => Z.of_nat (i + k) | None => -1 end) s i =
      match find_index (Z.eqb LF) (drop i s) with Some k => Z.of_nat (i + k) | None => -1 end).
  { intros ->. done. }
  intros fuel. induction fuel as [|fuel IH]; intros i; [done|].
  cbn [Swar.word_loop]. destruct (Nat.leb_spec (i + 8) (length s)) as [Hle|]; [|done].
  unfold Swar.loadu64. rewrite (mask_hit_find s Hs (Z.eqb LF)), IH by done.
  rewrite (drop_slice_8 s i Hle), !find_index_stop, find_stop_app, length_app, !length_slice, length_drop by lia.
  pose proof (find_stop_le (Z.eqb LF) (slice s i (i + 8))) as Hl. rewrite length_slice in Hl by lia.
  pose proof (find_stop_le (Z.eqb LF) (drop (i + 8) s)) as Hd. rewrite length_drop in Hd.
  destruct (Nat.ltb_spec (find_stop (Z.eqb LF) (slice s i (i + 8))) 8); simpl;
    repeat case_decide; lia.
Qed.

(** A word without high bits is eight ASCII bytes. *)
Lemma land_highs_ascii c :
  Forall is_byte c → Z.land (le_word c) (highs (length c)) = 0 → Forall (λ b, 0 ≤ b < 0x80) c.
Proof.
  induction 1 as [|b c Hb Hc IH]; [by constructor|].
  cbn [le_word length]. rewrite highs_S. unfold is_byte in Hb. intros H0.
  pose proof (f_equal (λ x, x mod 256) H0) as Hlow. pose proof (f_equal (λ x, x / 256) H0) as Hhigh.
  cbv beta in Hlow, Hhigh. rewrite land_mod_256 in Hlow. rewrite land_div_256 in Hhigh.
  rewrite (Z.mul_comm 256 (le_word c)), (Z.mul_comm 256 (highs _)) in Hlow, Hhigh.
  rewrite !Z.mod_add, (Z.mod_small b), (Z.mod_small 128), land_128 in Hlow by lia.
  rewrite !Z.div_add, (Z.div_small b), (Z.div_small 128), !Z.add_0_l in Hhigh by lia.
  constructor; [|by apply IH].
  destruct (Z.leb_spec 128 b); [done|lia].
Qed.

Lemma ascii_valid_utf8 s : Forall (λ b, 0 ≤ b < 0x80) s → valid_utf8 s.
Proof.
  induction 1 as [|b s Hb Hs IH]; [by exists []|].
  apply (valid_utf8_app [b] s); [by apply valid_utf8_ascii|done].
Qed.

Lemma asciiWords_spec s fuel i :
  Forall is_byte s → (i ≤ length s)%nat →
  (i ≤ Swar.asciiWords fuel s i ≤ length s)%nat ∧ valid_utf8 (slice s i (Swar.asciiWords fuel s i)).
Proof.
  intros Hs. revert i. induction fuel as [|fuel IH]; intros i Hi; cbn [Swar.asciiWords].
  { split; [lia|]. rewrite slice_nil. by exists []. }
  destruct (Nat.leb_spec (i + 8) (length s)); [|split; [lia|]; rewrite slice_nil; by exists []].
  destruct (Z.eqb_spec (Z.land (Swar.loadu64 s i) Swar.swarHighs) 0) as [E|];
    [|split; [lia|]; rewrite slice_nil; by exists []].
  destruct (IH (i + 8)%nat) as [Hb Hv]; [lia|]. split; [lia|].
  rewrite <-(slice_app s i (i + 8)) by lia. apply valid_utf8_app; [|done].
  apply ascii_valid_utf8, land_highs_ascii; [by apply slice_bytes|].
  rewrite length_slice by lia. by replace (i + 8 - i)%nat with 8%nat by lia.
Qed.

Lemma utf8Runes_spec s fuel i :
  Forall is_byte s → (i ≤ length s)%nat → (length s - i < fuel)%nat →
  let n := Swar.utf8Runes fuel s i in
  (i ≤ n ≤ length s)%nat ∧ valid_utf8 (slice s i n) ∧
  (n ≠ length s → DecodeRune (drop n s) = (RuneError, 1%nat)).
Proof.
  intros Hs. cbv zeta. revert i. induction fuel as [|fuel IH]; intros i Hi Hf; [lia|].
  cbn [Swar.utf8Runes]. destruct (s !! i) as [b|] eqn:Eb.
  2:{ apply lookup_ge_None in Eb. assert (i = length s) as -> by lia.
      split; [lia|]. rewrite slice_nil. split; [by exists []|done]. }
  pose proof (lookup_lt_Some _ _ _ Eb).
  pose proof (proj1 (Forall_lookup _ _) Hs i b Eb) as Hb. unfold is_byte in Hb.
  assert (drop i s = b :: drop (S i) s) as Hd by (by apply drop_S).
  destruct (Z.ltb_spec b 128).
  { destruct (IH (i + 1)%nat) as (? & Hv & Hn); [lia..|].
    split; [lia|]. split; [|done]. rewrite <-(slice_app s i (i + 1)) by lia.
    apply valid_utf8_app; [|done]. unfold slice. replace (i + 1 - i)%nat with 1%nat by lia.
    rewrite Hd. apply valid_utf8_ascii. lia. }
  destruct (DecodeRune (drop i s)) as [r size] eqn:ED.
  destruct ((r =b RuneError) && (size =? 1)%nat) eqn:EE.
  { apply andb_prop in EE as [Er Es]. apply Z.eqb_eq in Er as ->. apply Nat.eqb_eq in Es as ->.
    split; [lia|]. rewrite slice_nil. split; [by exists []|done]. }
  destruct (DecodeRune_inv (drop i s) r size) as (Hr & Heq & Hsz);
    [by apply Forall_drop|done|by rewrite Hd| |].
  { intros [-> ->]. done. }
  pose proof (EncodeRune_length r).
  assert (size ≤ length s - i)%nat.
  { pose proof (f_equal length Heq) as Hl. rewrite length_app, !length_drop in Hl. lia. }
  destruct (IH (i + size)%nat) as (? & Hv & Hn); [lia..|].
  split; [lia|]. split; [|done]. rewrite <-(slice_app s i (i + size)) by lia.
  apply valid_utf8_app; [|done]. unfold slice. replace (i + size - i)%nat with size by lia.
  rewrite Heq, Hsz, take_app_length. exists [r].
  split; [by repeat constructor|]. unfold encoded. simpl. by rewrite app_nil_r.
Qed.

Lemma validateUTF8SWAR_ok s :
  Forall is_byte s →
  let n := Swar.validateUTF8SWAR s in
  (n ≤ length s)%nat ∧ valid_utf8 (take n s) ∧
  (n ≠ length s → DecodeRune (drop n s) = (RuneError, 1%nat)).
Proof.
  intros Hs. cbv zeta. unfold Swar.validateUTF8SWAR.
  destruct (asciiWords_spec s (length s) 0 Hs) as [Hi Hv]; [lia|].
  destruct (utf8Runes_spec s (S (length s)) (Swar.asciiWords (length s) s 0) Hs) as (Hn & Hv' & He);
    [lia..|].
  split; [lia|]. split; [|done].
  pose proof (valid_utf8_app _ _ Hv Hv') as H. rewrite slice_app in H by lia.
  unfold slice in H. by rewrite Nat.sub_0_r, drop_0 in H.
Qed.

#[export] Instance swar_kernels : ScanKernels := {
  ScanBareKey := Swar.scanBareKeySWAR;
  ScanBasicString := Swar.scanBasicStringSWAR;
  ScanBasicStringStrict := Swar.scanBasicStringStrictSWAR;
  ScanCommentBody := Swar.scanCommentBodySWAR;
  ScanBareValueEnd := Swar.scanBareValueEndSWAR;
  CountLines := Swar.countLinesSWAR;
  ScanLiteralString := Swar.scanLiteralStringSWAR;
  SkipWhitespace := Swar.skipWhitespaceSWAR;
  LocateNewline := Swar.locateNewlineSWAR;
  ValidateUTF8 := Swar.validateUTF8SWAR;
  ScanBareKey_ok _ _ := eq_refl;
  ScanBasicString_ok := scanBasicStringSWAR_ok;
  ScanBasicStringStrict_ok := scanBasicStringStrictSWAR_ok;
  ScanCommentBody_ok := scanCommentBodySWAR_ok;
  ScanBareValueEnd_ok := scanBareValueEndSWAR_ok;
  CountLines_ok _ _ := eq_refl;
  ScanLiteralString_ok := scanLiteralStringSWAR_ok;
  SkipWhitespace_ok _ _ := eq_refl;
  LocateNewline_ok := locateNewlineSWAR_ok;
  ValidateUTF8_ok := validateUTF8SWAR_ok;
}.

(** ** Properties *)

Lemma validate_unique s n m :
  Forall is_byte s →
  (n ≤ length s)%nat → valid_utf8 (take n s) →
  (n ≠ length s → DecodeRune (drop n s) = (RuneError, 1%nat)) →
  (m ≤ length s)%nat → valid_utf8 (take m s) → (m ≤ n)%nat.
Proof.
  intros Hs Hn (ts & Hts & Et) He Hm (rs & Hrs & Er).
  destruct (decide (m ≤ n)%nat); [done|exfalso].
  rewrite <-(take_drop n (take m s)), take_take, Nat.min_l, Et in Er by lia.
  symmetry in Er. destruct (encoded_suffix rs ts _ Hrs Hts Er) as (us & Hus & Eu).
  assert (encoded us ≠ []) as Hne.
  { rewrite <-Eu. intros E%(f_equal length). rewrite length_drop, length_take in E. simpl in E. lia. }
  destruct Hus as [|u us Hu Hus]; [done|].
  assert (drop n s = EncodeRune u ++ encoded us ++ drop (m - n) (drop n s)) as Hd.
  { rewrite app_assoc. change (EncodeRune u ++ encoded us) with (encoded (u :: us)).
    rewrite <-Eu. rewrite <-(take_drop (m - n) (drop n s)) at 1. f_equal.
    by rewrite skipn_firstn_comm. }
  rewrite Hd, DecodeRune_EncodeRune in He by done.
  specialize (He ltac:(lia)). simplify_eq.
Qed.

(** The validator returns the length of the longest prefix that is valid UTF-8. *)
Lemma validateUTF8SWAR_longest s :
  Forall is_byte s →
  (Swar.validateUTF8SWAR s ≤ length s)%nat ∧ valid_utf8 (take (Swar.validateUTF8SWAR s) s) ∧
  ∀ m, (m ≤ length s)%nat → valid_utf8 (take m s) → (m ≤ Swar.validateUTF8SWAR s)%nat.
Proof.
  intros Hs. destruct (validateUTF8SWAR_ok s Hs) as (Hn & Hv & He). split_and!; [done..|].
  intros m Hm Hmv. by apply (validate_unique s).
Qed.

(** C39: the kernels that read eight bytes at a time return exactly what reading
    byte by byte gives on every byte string, whatever the borrows inside a word do: the
    six that search stop at the first byte of their class, [locateNewlineSWAR] returns
    -1 without a newline, and [validateUTF8SWAR] returns the length of the longest
    prefix that is the UTF-8 encoding of Unicode scalar values. *)
Theorem swar_kernels_exact s :
  Forall is_byte s →
  Swar.scanBasicStringSWAR s = find_stop basicStringStop s ∧
  Swar.scanBasicStringStrictSWAR s = find_stop basicStringStrictStop s ∧
  Swar.scanCommentBodySWAR s = find_stop commentBodyStop s ∧
  Swar.scanBareValueEndSWAR s = find_stop bareValueDelimiter s ∧
  Swar.scanLiteralStringSWAR s = find_stop (Z.eqb SQUOTE) s ∧
  Swar.locateNewlineSWAR s =
    match find_index (Z.eqb LF) s with Some i => Z.of_nat i | None => -1 end ∧
  (Swar.validateUTF8SWAR s ≤ length s)%nat ∧ valid_utf8 (take (Swar.validateUTF8SWAR s) s) ∧
  (∀ m, (m ≤ length s)%nat → valid_utf8 (take m s) → (m ≤ Swar.validateUTF8SWAR s)%nat).
Proof.
  intros Hs. split_and!; auto using scanBasicStringSWAR_ok, scanBasicStringStrictSWAR_ok, scanCommentBodySWAR_ok,
    scanBareValueEndSWAR_ok, scanLiteralStringSWAR_ok, locateNewlineSWAR_ok; by apply validateUTF8SWAR_longest.
Qed.

Lemma swar_kernels_exact_witness :
  Swar.scanBasicStringSWAR (str "0123456789 \ tail") = 11%nat.
Proof. rewrite (proj1 (swar_kernels_exact (str "0123456789 \ tail") ltac:(by repeat constructor))). reflexivity. Defined.

(** A byte string passes the validator exactly when it is the UTF-8 encoding of
    a sequence of Unicode scalar values. *)
Theorem validateUTF8SWAR_iff s :
  Forall is_byte s → Swar.validateUTF8SWAR s = length s ↔ valid_utf8 s.
Proof.
  intros Hs. destruct (validateUTF8SWAR_longest s Hs) as (Hn & Hv & He). split.
  - intros E. by rewrite E, firstn_all in Hv.
  - intros Hv'. apply Nat.le_antisymm; [done|]. apply He; [done|]. by rewrite firstn_all.
Qed.

Lemma validateUTF8SWAR_iff_witness : ¬ valid_utf8 [0x68; 0xED; 0xA0; 0x80].
Proof.
  rewrite <-(validateUTF8SWAR_iff [0x68; 0xED; 0xA0; 0x80]) by (by repeat constructor).
  by vm_compute.
Defined.

(** Any two backends satisfying the interface are indistinguishable. *)
Theorem backends_agree (K1 K2 : ScanKernels) s :
  Forall is_byte s →
  @ScanBareKey K1 s = @ScanBareKey K2 s ∧ @ScanBasicString K1 s = @ScanBasicString K2 s ∧
  @ScanBasicStringStrict K1 s = @ScanBasicStringStrict K2 s ∧
  @ScanCommentBody K1 s = @ScanCommentBody K2 s ∧ @ScanBareValueEnd K1 s = @ScanBareValueEnd K2 s ∧
  @CountLines K1 s = @CountLines K2 s ∧ @ScanLiteralString K1 s = @ScanLiteralString K2 s ∧
  @SkipWhitespace K1 s = @SkipWhitespace K2 s ∧ @LocateNewline K1 s = @LocateNewline K2 s ∧
  @ValidateUTF8 K1 s = @ValidateUTF8 K2 s.
Proof.
  intros Hs. rewrite !ScanBareKey_ok, !ScanBasicString_ok, !ScanBasicStringStrict_ok,
    !ScanCommentBody_ok, !ScanBareValueEnd_ok, !CountLines_ok, !ScanLiteralString_ok,
    !SkipWhitespace_ok, !LocateNewline_ok by done.
  destruct (@ValidateUTF8_ok K1 s Hs) as (?&?&?), (@ValidateUTF8_ok K2 s Hs) as (?&?&?).
  repeat split. apply Nat.le_antisymm; by apply (validate_unique s).
Qed.
