(* ===== verification/Memchr.v ===== *)
(** The byte searches of [internal/memchr], SWAR backend.

    Every routine has three phases around an 8-aligned address: bytes up to the
    first aligned one, aligned words with a byte rescan of a flagged word, and
    the remaining bytes.  The haystack's address is a parameter, since the
    phases depend on it and the result must not.  The six routines of
    memchr_swar_impl.go are the same loop at three needle counts and two
    directions; here the loop is written once, over the test "is one of the
    needles" and the word mask, and each routine instantiates it.

    Go's -1 is [idx None]. *)
From S2P Require Import Prelude Swar.
Local Open Scope Z_scope.

Module Memchr.

Definition swarLoBits : Z := 0x0101010101010101.
Definition swarHiBits : Z := 0x8080808080808080.

(** [(x - swarLoBits) &^ x & swarHiBits]. *)
Definition hasZeroByte (x : Z) : Z :=
  Z.land (Z.land (w64 (x - swarLoBits)) (w64 (Z.lnot x))) swarHiBits.

Definition bcast (needle : Z) : Z := w64 (needle * swarLoBits).

Definition loadWord (haystack : bytes) (i : nat) : Z := le_word (slice haystack i (i + 8)).

Definition idx (o : option nat) : Z :=
  match o with Some i => Z.of_nat i | None => -1 end.

(** [(uintptr(base)+uintptr(i))&7 != 0]. *)
Definition unaligned (base : Z) (i : nat) : bool :=
  Z.land (w64 (base + Z.of_nat i)) 7 ≠b 0.

Section scan.
Context (hit : Z → bool) (mask : Z → Z) (base : Z) (haystack : bytes).

(** Byte-at-a-time until [base+i] is aligned: the match, or where to go on. *)
Fixpoint headLoop (fuel i : nat) : nat + nat :=
  match fuel with
  | O => inr i
  | S fuel' =>
      match haystack !! i with
      | Some c => if unaligned base i then (if hit c then inl i else headLoop fuel' (i + 1)) else inr i
      | None => inr i
      end
  end.

(** Aligned words: a flagged word is rescanned low-index-first. *)
Fixpoint wordLoop (fuel i : nat) : nat + nat :=
  match fuel with
  | O => inr i
  | S fuel' =>
      if (i + 8 <=? length haystack)%nat then
        match (if (mask (loadWord haystack i) ≠b 0) then find_index hit (slice haystack i (i + 8)) else None) with
        | Some j => inl (i + j)%nat
        | None => wordLoop fuel' (i + 8)
        end
      else inr i
  end.

Definition forward : Z :=
  if (length haystack =? 0)%nat then -1
  else
    match headLoop (length haystack) 0 with
    | inl i => Z.of_nat i
    | inr i =>
        match wordLoop (length haystack) i with
        | inl i => Z.of_nat i
        | inr i =>
            match find_index hit (drop i haystack) with
            | Some k => Z.of_nat (i + k)
            | None => -1
            end
        end
    end.

(** Byte-at-a-time from the end, [i] exclusive, until [base+i] is aligned. *)
Fixpoint tailLoop (i : nat) : nat + nat :=
  match i with
  | O => inr 0%nat
  | S i' =>
      if unaligned base i then
        match haystack !! i' with
        | Some c => if hit c then inl i' else tailLoop i'
        | None => inr i
        end
      else inr i
  end.

(** Aligned words downward: a flagged word is rescanned high-index-first. *)
Fixpoint wordLoopRev (fuel i : nat) : nat + nat :=
  match fuel with
  | O => inr i
  | S fuel' =>
      if (8 <=? i)%nat then
        let i := (i - 8)%nat in
        match (if (mask (loadWord haystack i) ≠b 0) then find_last hit (slice haystack i (i + 8)) else None) with
        | Some j => inl (i + j)%nat
        | None => wordLoopRev fuel' i
        end
      else inr i
  end.

Definition backward : Z :=
  if (length haystack =? 0)%nat then -1
  else
    match tailLoop (length haystack) with
    | inl i => Z.of_nat i
    | inr i =>
        match wordLoopRev (length haystack) i with
        | inl i => Z.of_nat i
        | inr i => idx (find_last hit (take i haystack))
        end
    end.
End scan.

Definition mask1 (needle w : Z) : Z := hasZeroByte (Z.lxor w (bcast needle)).
Definition mask2 (n1 n2 w : Z) : Z := Z.lor (mask1 n1 w) (mask1 n2 w).
Definition mask3 (n1 n2 n3 w : Z) : Z := Z.lor (Z.lor (mask1 n1 w) (mask1 n2 w)) (mask1 n3 w).

Definition is1 (needle c : Z) : bool := c =b needle.
Definition is2 (n1 n2 c : Z) : bool := (c =b n1) || (c =b n2).
Definition is3 (n1 n2 n3 c : Z) : bool := (c =b n1) || (c =b n2) || (c =b n3).

Definition swarMemchr (base needle : Z) : bytes → Z := forward (is1 needle) (mask1 needle) base.
Definition swarMemchr2 (base n1 n2 : Z) : bytes → Z := forward (is2 n1 n2) (mask2 n1 n2) base.
Definition swarMemchr3 (base n1 n2 n3 : Z) : bytes → Z := forward (is3 n1 n2 n3) (mask3 n1 n2 n3) base.
Definition swarMemrchr (base needle : Z) : bytes → Z := backward (is1 needle) (mask1 needle) base.
Definition swarMemrchr2 (base n1 n2 : Z) : bytes → Z := backward (is2 n1 n2) (mask2 n1 n2) base.
Definition swarMemrchr3 (base n1 n2 n3 : Z) : bytes → Z := backward (is3 n1 n2 n3) (mask3 n1 n2 n3) base.

(** ** Correctness of the two loops *)

Lemma find_index_app {A} (p : A → bool) s t :
  find_index p (s ++ t) =
    match find_index p s with Some i => Some i | None => (λ j, length s + j)%nat <$> find_index p t end.
Proof.
  induction s as [|b s IH]; simpl; [by destruct (find_index p t)|].
  destruct (p b); [done|]. rewrite IH. destruct (find_index p s); [done|].
  by destruct (find_index p t).
Qed.

Lemma find_last_app {A} (p : A → bool) s t :
  find_last p (s ++ t) =
    match find_last p t with Some j => Some (length s + j)%nat | None => find_last p s end.
Proof.
  induction s as [|b s IH]; simpl; [by destruct (find_last p t)|].
  rewrite IH. by destruct (find_last p t).
Qed.

Lemma find_last_stop {A} (p : A → bool) s :
  find_stop p s = length s → find_last p s = None.
Proof.
  induction s as [|b s IH]; simpl; [done|].
  destruct (p b) eqn:E; [lia|]. intros. by rewrite IH by lia.
Qed.

(** The mask is zero only on words without a hit. *)
Definition mask_covers (hit : Z → bool) (mask : Z → Z) : Prop :=
  ∀ c, length c = 8%nat → Forall is_byte c → mask (le_word c) = 0 → find_stop hit c = length c.

Section scan_ok.
Context (hit : Z → bool) (mask : Z → Z) (base : Z) (h : bytes).
Context (Hmask : mask_covers hit mask) (Hh : Forall is_byte h).

Lemma take_S_lookup i c : h !! i = Some c → take (i + 1) h = take i h ++ [c].
Proof. intros. replace (i + 1)%nat with (S i) by lia. by apply take_S_r. Qed.

(** "Nothing below [i]" is carried through the forward phases. *)
Lemma headLoop_ok fuel i :
  (i ≤ length h)%nat → find_index hit (take i h) = None →
  match headLoop hit base h fuel i with
  | inl k => find_index hit h = Some k
  | inr k => (k ≤ length h)%nat ∧ find_index hit (take k h) = None
  end.
Proof.
  revert i. induction fuel as [|fuel IH]; intros i Hi Hn; cbn [headLoop]; [done|].
  destruct (h !! i) as [c|] eqn:Ec; [|done].
  destruct (unaligned base i); [|done].
  pose proof (lookup_lt_Some _ _ _ Ec).
  destruct (hit c) eqn:Eh.
  - rewrite <-(take_drop i h), find_index_app, Hn, (drop_S _ _ _ Ec). simpl.
    rewrite Eh. simpl. rewrite length_take. f_equal. lia.
  - apply IH; [lia|]. rewrite (take_S_lookup i c Ec), find_index_app, Hn. simpl. by rewrite Eh.
Qed.

Lemma loadWord_rescan (f : bytes → option nat) i :
  (i + 8 ≤ length h)%nat → (∀ s, find_stop hit s = length s → f s = None) →
  (if (mask (loadWord h i) ≠b 0) then f (slice h i (i + 8)) else None) = f (slice h i (i + 8)).
Proof.
  intros Hi Hf. destruct (Z.eqb_spec (mask (loadWord h i)) 0) as [E|]; [|done].
  symmetry. apply Hf, Hmask; [rewrite length_slice by lia; lia|by apply Forall_take, Forall_drop|done].
Qed.

Lemma wordLoop_ok fuel i :
  (i ≤ length h)%nat → find_index hit (take i h) = None →
  match wordLoop hit mask h fuel i with
  | inl k => find_index hit h = Some k
  | inr k => (k ≤ length h)%nat ∧ find_index hit (take k h) = None
  end.
Proof.
  revert i. induction fuel as [|fuel IH]; intros i Hi Hn; cbn [wordLoop]; [done|].
  destruct (Nat.leb_spec (i + 8) (length h)); [|done].
  rewrite loadWord_rescan by (lia || (intros s Hs; rewrite find_index_stop; by case_decide)).
  assert (take (i + 8) h = take i h ++ slice h i (i + 8)) as Ht.
  { unfold slice. replace (i + 8 - i)%nat with 8%nat by lia. by rewrite take_take_drop. }
  destruct (find_index hit (slice h i (i + 8))) as [j|] eqn:Ej.
  - rewrite <-(take_drop (i + 8) h), find_index_app, Ht, find_index_app, Hn, Ej. simpl.
    rewrite length_take. f_equal. lia.
  - apply IH; [lia|]. by rewrite Ht, find_index_app, Hn, Ej.
Qed.

Lemma forward_ok : forward hit mask base h = idx (find_index hit h).
Proof.
  unfold forward. destruct (Nat.eqb_spec (length h) 0) as [E|].
  { by apply nil_length_inv in E as ->. }
  pose proof (headLoop_ok (length h) 0 ltac:(lia) eq_refl) as H1.
  destruct (headLoop hit base h (length h) 0) as [k|i]; [by rewrite H1|].
  destruct H1 as [Hi Hn]. pose proof (wordLoop_ok (length h) i Hi Hn) as H2.
  destruct (wordLoop hit mask h (length h) i) as [k|k]; [by rewrite H2|].
  destruct H2 as [Hk Hkn]. rewrite <-(take_drop k h) at 2.
  rewrite find_index_app, Hkn, length_take, Nat.min_l by done.
  by destruct (find_index hit (drop k h)).
Qed.

(** "Nothing at or above [i]" is carried through the backward phases. *)
Lemma tailLoop_ok i :
  (i ≤ length h)%nat → find_last hit (drop i h) = None →
  match tailLoop hit base h i with
  | inl k => find_last hit h = Some k
  | inr k => (k ≤ length h)%nat ∧ find_last hit (drop k h) = None
  end.
Proof.
  induction i as [|i IH]; intros Hi Hn; cbn [tailLoop]; [done|].
  destruct (unaligned base (S i)); [|done].
  destruct (h !! i) as [c|] eqn:Ec; [|done].
  destruct (hit c) eqn:Eh.
  - rewrite <-(take_drop i h), find_last_app, (drop_S _ _ _ Ec). simpl.
    rewrite Hn, Eh, length_take. f_equal. lia.
  - apply IH; [lia|]. rewrite (drop_S _ _ _ Ec). simpl. by rewrite Hn, Eh.
Qed.

Lemma wordLoopRev_ok fuel i :
  (i ≤ length h)%nat → find_last hit (drop i h) = None →
  match wordLoopRev hit mask h fuel i with
  | inl k => find_last hit h = Some k
  | inr k => (k ≤ length h)%nat ∧ find_last hit (drop k h) = None
  end.
Proof.
  revert i. induction fuel as [|fuel IH]; intros i Hi Hn; cbn [wordLoopRev]; [done|].
  destruct (Nat.leb_spec 8 i); [|done].
  rewrite loadWord_rescan by (lia || apply find_last_stop).
  assert (drop (i - 8) h = slice h (i - 8) (i - 8 + 8) ++ drop i h) as Hd.
  { unfold slice. replace (i - 8 + 8 - (i - 8))%nat with 8%nat by lia.
    rewrite <-(take_drop 8 (drop (i - 8) h)) at 1. rewrite drop_drop.
    f_equal. f_equal. lia. }
  destruct (find_last hit (slice h (i - 8) (i - 8 + 8))) as [j|] eqn:Ej.
  - rewrite <-(take_drop (i - 8) h), find_last_app, Hd, find_last_app, Hn, Ej.
    rewrite length_take. f_equal. lia.
  - apply IH; [lia|]. by rewrite Hd, find_last_app, Hn, Ej.
Qed.

Lemma backward_ok : backward hit mask base h = idx (find_last hit h).
Proof.
  unfold backward. destruct (Nat.eqb_spec (length h) 0) as [E|].
  { by apply nil_length_inv in E as ->. }
  pose proof (tailLoop_ok (length h) ltac:(lia) ltac:(by rewrite drop_all)) as H1.
  destruct (tailLoop hit base h (length h)) as [k|i]; [by rewrite H1|].
  destruct H1 as [Hi Hn]. pose proof (wordLoopRev_ok (length h) i Hi Hn) as H2.
  destruct (wordLoopRev hit mask h (length h) i) as [k|k]; [by rewrite H2|].
  destruct H2 as [Hk Hkn]. rewrite <-(take_drop k h) at 2.
  by rewrite find_last_app, Hkn.
Qed.
End scan_ok.

(** ** Masks of the needles *)

Lemma mask1_stop needle c :
  length c = 8%nat → Forall is_byte c → is_byte needle →
  stop_mask (is1 needle) c (mask1 needle (le_word c)).
Proof. apply eq_mask_spec. Qed.

Lemma mask_covers_stop hit mask :
  (∀ c, length c = 8%nat → Forall is_byte c → stop_mask hit c (mask (le_word c))) →
  mask_covers hit mask.
Proof. intros H c Hl Hc E. exact (stop_mask_zero _ _ _ (H c Hl Hc) E). Qed.

Ltac solve_needles :=
  apply mask_covers_stop; intros;
  repeat apply stop_mask_lor; by apply mask1_stop.

(** C40: The forward searches return the first matching offset and the backward
    ones the last, -1 when there is none, at every address of the haystack. *)
Theorem swar_searches_correct base n1 n2 n3 h :
  Forall is_byte h → is_byte n1 → is_byte n2 → is_byte n3 →
  swarMemchr base n1 h = idx (find_index (is1 n1) h) ∧
  swarMemchr2 base n1 n2 h = idx (find_index (is2 n1 n2) h) ∧
  swarMemchr3 base n1 n2 n3 h = idx (find_index (is3 n1 n2 n3) h) ∧
  swarMemrchr base n1 h = idx (find_last (is1 n1) h) ∧
  swarMemrchr2 base n1 n2 h = idx (find_last (is2 n1 n2) h) ∧
  swarMemrchr3 base n1 n2 n3 h = idx (find_last (is3 n1 n2 n3) h).
Proof.
  intros. repeat split; (apply forward_ok || apply backward_ok); (done || solve_needles).
Qed.

Lemma swar_searches_correct_witness :
  swarMemrchr2 5 LF TAB (str "a1b2c3d4e5f6g7h8") = -1.
Proof.
  destruct (swar_searches_correct 5 LF TAB LF (str "a1b2c3d4e5f6g7h8"))
    as (_ & _ & _ & _ & H & _); [by repeat constructor|done|done|done|].
  rewrite H. reflexivity.
Defined.

(** The result does not depend on where the haystack lies in memory. *)
Theorem swar_searches_address_independent base base' n1 n2 n3 h :
  Forall is_byte h → is_byte n1 → is_byte n2 → is_byte n3 →
  swarMemchr3 base n1 n2 n3 h = swarMemchr3 base' n1 n2 n3 h ∧
  swarMemrchr3 base n1 n2 n3 h = swarMemrchr3 base' n1 n2 n3 h.
Proof.
  intros. unfold swarMemchr3, swarMemrchr3.
  rewrite !forward_ok, !backward_ok by (done || solve_needles). done.
Qed.

Lemma swar_searches_address_independent_witness :
  swarMemchr3 0 c0 c1 c7 (str "abcdefghij17") = swarMemchr3 3 c0 c1 c7 (str "abcdefghij17").
Proof.
  destruct (swar_searches_address_independent 0 3 c0 c1 c7 (str "abcdefghij17"))
    as [H _]; [by repeat constructor|done..|]. exact H.
Defined.

End Memchr.
