(* ===== verification/GoQuote.v ===== *)
(** [strconv.Quote] of Go's standard library, as the encoder of [pkg/toml] uses
    it for keys and for strings with a byte outside printable ASCII. *)
From S2P Require Import Prelude GoUtf8.
Local Open Scope Z_scope.

Definition lowerhex (n : Z) : Z := if n <b 10 then c0 + n else ca + (n - 10).

(** The [n] lowest hexadecimal digits of [r], the highest first. *)
Fixpoint hexDigits (n : nat) (r : Z) : bytes :=
  match n with
  | O => []
  | S n => lowerhex (Z.land (Z.shiftr r (4 * Z.of_nat n)) 0xF) :: hexDigits n r
  end.

Section quote.
(** [strconv.IsPrint] beyond Latin-1 is a table of the Unicode version. *)
Context (isPrintTable : Z → bool).

Definition IsPrint (r : Z) : bool :=
  if r ≤b 0xFF then
    if (0x20 ≤b r) && (r <b 0x7F) then true
    else (0xA1 ≤b r) && (r ≠b 0xAD)
  else isPrintTable r.

Definition appendEscapedRune (r : Z) : bytes :=
  if (r =b DQUOTE) || (r =b BSLASH) then [BSLASH; r]
  else if IsPrint r then EncodeRune r
  else if r =b 7 then [BSLASH; ca]
  else if r =b BS then [BSLASH; cb]
  else if r =b FF then [BSLASH; cf]
  else if r =b LF then [BSLASH; cn]
  else if r =b CR then [BSLASH; cr]
  else if r =b TAB then [BSLASH; ct]
  else if r =b 11 then [BSLASH; 118]
  else if (r <b SP) || (r =b DEL) then [BSLASH; cx] ++ hexDigits 2 r
  else
    let r := if ValidRune r then r else RuneError in
    if r <b 0x10000 then [BSLASH; cu] ++ hexDigits 4 r else [BSLASH; cU] ++ hexDigits 8 r.

(** The loop over the runes of [s]; a byte that is not part of one is written
    as an escape of two digits. *)
Fixpoint appendQuotedN (fuel : nat) (s : bytes) : bytes :=
  match fuel, s with
  | S fuel, b :: _ =>
      let '(r, width) := if b <b 0x80 then (b, 1%nat) else DecodeRune s in
      (if (width =? 1)%nat && (r =b RuneError) then [BSLASH; cx] ++ hexDigits 2 b
       else appendEscapedRune r) ++ appendQuotedN fuel (drop width s)
  | _, _ => []
  end.

Definition Quote (s : bytes) : bytes := [DQUOTE] ++ appendQuotedN (length s) s ++ [DQUOTE].
End quote.

Example Quote_examples :
  Quote (λ _, true) [ca; LF; DQUOTE; 0xC3; 0xA9; 0xFF; 0; 0xC2; 0x80] =
    str "" ++ [DQUOTE; ca; BSLASH; cn; BSLASH; DQUOTE; 0xC3; 0xA9] ++ [BSLASH] ++ str "xff" ++ [BSLASH] ++ str "x00" ++
    [BSLASH] ++ str "u0080" ++ [DQUOTE].
Proof. vm_compute. reflexivity. Qed.
