(* ===== verification/TomlBase.v ===== *)
(** Tokens, errors and source positions of [pkg/toml] (token.go, errors.go and
    the position helpers of decoder.go). *)
From S2P Require Import Prelude Scan.

(** ** token.go *)

Inductive TokenKind :=
| TokenKindInvalid
| TokenKindTableHeader
| TokenKindArrayTableHeader
| TokenKindKey
| TokenKindValueString
| TokenKindValueInteger
| TokenKindValueFloat
| TokenKindValueBool
| TokenKindValueDatetime
| TokenKindArrayStart
| TokenKindArrayEnd
| TokenKindInlineTableStart
| TokenKindInlineTableEnd
| TokenKindComment.

#[export] Instance TokenKind_eq_dec : EqDecision TokenKind.
Proof. solve_decision. Defined.

Definition TokenKind_String (k : TokenKind) : string :=
  match k with
  | TokenKindInvalid => "Invalid"
  | TokenKindTableHeader => "TableHeader"
  | TokenKindArrayTableHeader => "ArrayTableHeader"
  | TokenKindKey => "Key"
  | TokenKindValueString => "ValueString"
  | TokenKindValueInteger => "ValueInteger"
  | TokenKindValueFloat => "ValueFloat"
  | TokenKindValueBool => "ValueBool"
  | TokenKindValueDatetime => "ValueDatetime"
  | TokenKindArrayStart => "ArrayStart"
  | TokenKindArrayEnd => "ArrayEnd"
  | TokenKindInlineTableStart => "InlineTableStart"
  | TokenKindInlineTableEnd => "InlineTableEnd"
  | TokenKindComment => "Comment"
  end.

Inductive tokenScalarKind := tokenScalarNone | tokenScalarInteger | tokenScalarFloat.

#[export] Instance tokenScalarKind_eq_dec : EqDecision tokenScalarKind.
Proof. solve_decision. Defined.

(** [bits] is a uint64. *)
Record tokenScalar := TokenScalar { scalar_bits : Z; scalar_kind : tokenScalarKind }.

#[export] Instance tokenScalar_eq_dec : EqDecision tokenScalar.
Proof. solve_decision. Defined.

(** [tokenScalar{}]. *)
Definition noScalar : tokenScalar := TokenScalar 0 tokenScalarNone.

Record rawToken := RawToken { rt_Kind : TokenKind; rt_Bytes : bytes; rt_Offset : nat }.

#[export] Instance rawToken_eq_dec : EqDecision rawToken.
Proof. solve_decision. Defined.

Record Token := MkToken {
  tok_Kind : TokenKind;
  tok_Bytes : bytes;
  tok_Offset : nat;
  tok_Line : nat;
  tok_Col : nat;
  tok_scalar : tokenScalar;
}.

Definition publicToken (tok : rawToken) : Token :=
  MkToken (rt_Kind tok) (rt_Bytes tok) (rt_Offset tok) 0 0 noScalar.

Definition rawTokenFromToken (tok : Token) : rawToken :=
  RawToken (tok_Kind tok) (tok_Bytes tok) (tok_Offset tok).

(** ** errors.go *)

(** The error values the package returns.  [Errorf] stands for [fmt.Errorf]
    with the format string and the bytes interpolated into it; [Panic] is an
    out-of-range index, which the theorems exclude, and [OutOfFuel] is a loop
    that has not returned within the fuel its definition gives it. *)
Inductive error :=
| SyntaxError (Line Col : nat) (Msg : string) (Span : nat * nat)
| LimitError (Limit : string) (Value : Z) (Span : nat * nat)
| DecoderStateError (Offset : nat)
| LocalTimeIntoTimeError (Kind : TokenKind) (Source : bytes) (Span : nat * nat)
| TypeMismatchError (Path Want Got : string)
| EOF
| ErrUnexpectedEOF
| ErrSyntax
| ErrRange
| NumError (Func : string) (Num : bytes) (Err : error)
| Errorf (format : string) (arg : bytes)
| Panic
| OutOfFuel.

#[export] Instance error_eq_dec : EqDecision error.
Proof. solve_decision. Defined.

Abbreviation res A := (result error A).

Definition spanForToken (offset length : nat) : nat * nat :=
  let end_ := offset + length in
  if end_ <=? offset then (offset, offset + 1) else (offset, end_).

Definition tokenSpan (tok : Token) : nat * nat :=
  spanForToken (tok_Offset tok) (length (tok_Bytes tok)).

Definition rawTokenSpan (tok : rawToken) : nat * nat :=
  spanForToken (rt_Offset tok) (length (rt_Bytes tok)).

(** ** Positions (decoder.go) *)

Section positions.
Context {K : ScanKernels}.

(** The displayed columns of a line: carriage returns take none. *)
Definition displayColumnDelta (raw : bytes) : nat :=
  match IndexByte raw CR with
  | None => length raw
  | Some _ => count (λ b, b ≠b CR) raw
  end.

(** [prefix[lineStart:]]: what follows the last line feed. *)
Definition lastLine (prefix : bytes) : bytes :=
  match LastIndexByte prefix LF with
  | Some lastLF => drop (lastLF + 1) prefix
  | None => prefix
  end.

(** [off < 0] cannot happen on [nat]; [off > len(data)] is clamped by [take]. *)
Definition lineColForOffset (data : bytes) (off : nat) : nat * nat :=
  let prefix := take off data in
  let line := 1 + CountLines prefix in
  let col := 1 + count (λ b, b ≠b CR) (lastLine prefix) in
  (line, col).

Definition syntaxErrorAtOffset (data : bytes) (off : nat) (msg : string) (span : nat * nat) : error :=
  let '(line, col) := lineColForOffset data off in
  if (length data =? 0) && (0 <? off) then SyntaxError 1 (off + 1) msg span
  else SyntaxError line col msg span.

Definition syntaxErrorForRawToken (data : bytes) (tok : rawToken) (msg : string) : error :=
  syntaxErrorAtOffset data (rt_Offset tok) msg (rawTokenSpan tok).

(** ** Lemmas on positions *)

Lemma displayColumnDelta_count raw : displayColumnDelta raw = count (λ b, b ≠b CR) raw.
Proof.
  unfold displayColumnDelta, IndexByte. rewrite find_index_stop. case_decide as E; [|done].
  apply find_stop_all in E. induction E as [|b s Hb Hs IH]; simpl; [done|].
  rewrite Z.eqb_sym in Hb. rewrite Hb. simpl. lia.
Qed.

Lemma find_last_None {A} (p : A → bool) s : find_last p s = None ↔ Forall (λ b, p b = false) s.
Proof.
  induction s as [|b s IH]; simpl; [done|]. rewrite Forall_cons, <-IH.
  destruct (find_last p s); [by split; [done|intros [_ ?]]|].
  destruct (p b) eqn:E; split; [done|intros [? _]; congruence|done|done].
Qed.

(** Only what follows the last line feed matters for the column. *)
Lemma lastLine_app_None s t :
  LastIndexByte t LF = None → lastLine (s ++ t) = lastLine s ++ t.
Proof.
  unfold lastLine, LastIndexByte. intros Ht.
  induction s as [|b s IH]; cbn [app find_last drop]; [by rewrite Ht|].
  destruct (find_last (Z.eqb LF) (s ++ t)) as [i|] eqn:E1;
    destruct (find_last (Z.eqb LF) s) as [j|] eqn:E2.
  - exact IH.
  - exfalso. apply find_last_None in E2, Ht.
    assert (find_last (Z.eqb LF) (s ++ t) = None) by (apply find_last_None, Forall_app; done).
    congruence.
  - exfalso. apply find_last_None in E1. apply Forall_app in E1 as [E1 _].
    apply find_last_None in E1. congruence.
  - destruct (Z.eqb LF b); simpl; by rewrite ?drop_0.
Qed.

Lemma lastLine_app_Some s t i :
  LastIndexByte t LF = Some i → lastLine (s ++ t) = drop (i + 1) t.
Proof.
  unfold lastLine, LastIndexByte. intros Ht. induction s as [|b s IH]; simpl; [by rewrite Ht|].
  destruct (find_last (Z.eqb LF) (s ++ t)) as [j|] eqn:E1; simpl; [done|].
  apply find_last_None, Forall_app in E1 as [_ E1]. apply find_last_None in E1. congruence.
Qed.

End positions.
