(* ===== verification/Datetime.v ===== *)
(** TOML date-times (datetime.go, datetime_parse.go and the shape tests of
    decoder.go).

    Go's [int] fields are [Z].  A [time.Time] is kept as the civil fields and
    the location handed to [time.Date], which normalises nothing here because
    every caller has validated the fields first (that is part of the theorems).
    The process-wide cache of fixed-offset zones is explicit state of
    [parseZoneCached]; the parsers use the uncached [parseZone], and the two
    agree on every coherent cache. *)
From S2P Require Import Prelude GoStrconv Scan TomlBase.
Local Open Scope Z_scope.

Inductive dateTimeKind :=
| dateTimeKindInvalid
| dateTimeKindOffset
| dateTimeKindLocalDateTime
| dateTimeKindLocalDate
| dateTimeKindLocalTime.

#[export] Instance dateTimeKind_eq_dec : EqDecision dateTimeKind.
Proof. solve_decision. Defined.

Record LocalDate := MkLocalDate { ld_Year : Z; ld_Month : Z; ld_Day : Z }.

Record LocalTime := MkLocalTime {
  lt_Hour : Z; lt_Minute : Z; lt_Second : Z; lt_Nanosecond : Z;
  lt_hasSecond : bool; lt_nanoDigits : Z;
}.

Record LocalDateTime := MkLocalDateTime {
  ldt_Year : Z; ldt_Month : Z; ldt_Day : Z;
  ldt_Hour : Z; ldt_Minute : Z; ldt_Second : Z; ldt_Nanosecond : Z;
  ldt_hasSecond : bool; ldt_nanoDigits : Z;
}.

(** [*time.Location]: UTC or [time.FixedZone(name, offset)]. *)
Inductive Location := UTC | FixedZone (name : bytes) (offset : Z).

(** [time.Date(year, month, day, hour, min, sec, nsec, loc)]. *)
Record Time := time_Date {
  t_Year : Z; t_Month : Z; t_Day : Z;
  t_Hour : Z; t_Minute : Z; t_Second : Z; t_Nanosecond : Z;
  t_Location : Location;
}.

#[export] Instance LocalDate_eq_dec : EqDecision LocalDate. Proof. solve_decision. Defined.
#[export] Instance LocalTime_eq_dec : EqDecision LocalTime. Proof. solve_decision. Defined.
#[export] Instance LocalDateTime_eq_dec : EqDecision LocalDateTime. Proof. solve_decision. Defined.
#[export] Instance Location_eq_dec : EqDecision Location. Proof. solve_decision. Defined.
#[export] Instance Time_eq_dec : EqDecision Time. Proof. solve_decision. Defined.

(** What [parseDateTimeValue] returns as [any]. *)
Inductive datetime :=
| DTime (t : Time)
| DLocalDateTime (dt : LocalDateTime)
| DLocalDate (d : LocalDate)
| DLocalTime (lt : LocalTime).

#[export] Instance datetime_eq_dec : EqDecision datetime. Proof. solve_decision. Defined.

(** ** Calendar and ranges *)

(** Go's [%] truncates. *)
Definition isLeapYear (year : Z) : bool :=
  (Z.rem year 4 =b 0) && ((Z.rem year 100 ≠b 0) || (Z.rem year 400 =b 0)).

Definition daysInMonth (year month : Z) : Z :=
  match month with
  | 1 | 3 | 5 | 7 | 8 | 10 | 12 => 31
  | 4 | 6 | 9 | 11 => 30
  | 2 => if isLeapYear year then 29 else 28
  | _ => 0
  end.

Definition validateDate (year month day : Z) : res unit :=
  if (year <b 0) || (9999 <b year) then Err (Errorf "toml: year out of range" [])
  else if (month <b 1) || (12 <b month) then Err (Errorf "toml: month out of range" [])
  else if (day <b 1) || (daysInMonth year month <b day) then Err (Errorf "toml: day out of range" [])
  else Ok tt.

(** [int(time.Second)] nanoseconds. *)
Definition time_Second : Z := 1000000000.

Definition validateLocalClock (hour minute second nanos nanoDigits : Z) : res unit :=
  if (hour <b 0) || (23 <b hour) then Err (Errorf "toml: hour out of range" [])
  else if (minute <b 0) || (59 <b minute) then Err (Errorf "toml: minute out of range" [])
  else if (second <b 0) || (59 <b second) then Err (Errorf "toml: second out of range" [])
  else if (nanos <b 0) || (time_Second ≤b nanos) then Err (Errorf "toml: nanosecond out of range" [])
  else if (nanoDigits <b 0) || (9 <b nanoDigits) then Err (Errorf "toml: fractional precision out of range" [])
  else if (nanoDigits =b 0) && (nanos ≠b 0) then Err (Errorf "toml: nanosecond requires fractional precision" [])
  else Ok tt.

Definition isDateTimeSeparator (ch : Z) : bool := (ch =b cT) || (ch =b ct) || (ch =b SP).

(** ** Shapes (decoder.go, datetime_parse.go) *)

(** The indices are in range once the length test has passed. *)
Definition hasDateShape (raw : bytes) : bool :=
  if (length raw <? 10)%nat then false
  else
    isDigit (raw !!! 0%nat) && isDigit (raw !!! 1%nat) && isDigit (raw !!! 2%nat) &&
    isDigit (raw !!! 3%nat) && (raw !!! 4%nat =b MINUS) && isDigit (raw !!! 5%nat) &&
    isDigit (raw !!! 6%nat) && (raw !!! 7%nat =b MINUS) && isDigit (raw !!! 8%nat) &&
    isDigit (raw !!! 9%nat).

Definition hasTimeShape (raw : bytes) : bool :=
  if (length raw <? 5)%nat then false
  else
    isDigit (raw !!! 0%nat) && isDigit (raw !!! 1%nat) && (raw !!! 2%nat =b COLON) &&
    isDigit (raw !!! 3%nat) && isDigit (raw !!! 4%nat).

Definition hasDateTimeShape (raw : bytes) : bool := hasDateShape raw || hasTimeShape raw.

Definition hasDateTimeOffsetSuffix (raw : bytes) : bool :=
  existsb (λ b, (b =b cZ) || (b =b cz) || (b =b PLUS) || (b =b MINUS)) (drop 5 raw).

Definition dateShape (raw : bytes) : dateTimeKind :=
  if (length raw =? 10)%nat then dateTimeKindLocalDate
  else if (10 <? length raw)%nat && isDateTimeSeparator (raw !!! 10%nat) then
    if hasDateTimeOffsetSuffix (drop 11 raw) then dateTimeKindOffset
    else dateTimeKindLocalDateTime
  else dateTimeKindInvalid.

Definition dateTimeShape (raw : bytes) : dateTimeKind :=
  if hasDateShape raw then dateShape raw
  else if hasTimeShape raw then dateTimeKindLocalTime
  else dateTimeKindInvalid.

(** ** Parsing *)

Definition parseFixedDigits (raw : bytes) : option Z := digits_value 0 raw.

(** [v, ok := o; if !ok { return err }]. *)
Definition or_else {A} (o : option A) (e : error) : res A :=
  match o with Some a => Ok a | None => Err e end.

Definition parseDatePrefix (raw : bytes) : res (LocalDate * nat) :=
  if (length raw <? 10)%nat then Err (Errorf "toml: short date" [])
  else if (raw !!! 4%nat ≠b MINUS) || (raw !!! 7%nat ≠b MINUS) then
    Err (Errorf "toml: malformed date separators" [])
  else
    let! year := or_else (parseFixedDigits (slice raw 0 4)) (Errorf "toml: malformed year" []) in
    let! month := or_else (parseFixedDigits (slice raw 5 7)) (Errorf "toml: malformed month" []) in
    let! day := or_else (parseFixedDigits (slice raw 8 10)) (Errorf "toml: malformed day" []) in
    let! _ := validateDate year month day in
    Ok (MkLocalDate year month day, 10%nat).

(** [nanos *= 10], [k] times. *)
Fixpoint scale10 (k : nat) (nanos : Z) : Z :=
  match k with O => nanos | S k' => scale10 k' (nanos * 10) end.

(** The optional [:SS[.fraction]] from [off]: seconds, nanoseconds, fraction
    digits and the index past it. *)
Definition parseClockSubseconds (raw : bytes) (off : nat) : res (Z * Z * Z * nat) :=
  if negb (bool_decide (raw !! off = Some COLON)) then Ok (0, 0, 0, off)
  else
    let next := (off + 1)%nat in
    if (length raw - next <? 2)%nat then Err (Errorf "toml: short time" [])
    else
      let! second := or_else (parseFixedDigits (slice raw next (next + 2))) (Errorf "toml: malformed second" []) in
      let next := (next + 2)%nat in
      if negb (bool_decide (raw !! next = Some DOT)) then Ok (second, 0, 0, next)
      else
        let fracStart := (next + 1)%nat in
        let fracLen := find_stop (λ b, negb (isDigit b)) (drop fracStart raw) in
        let next := (fracStart + fracLen)%nat in
        if (fracLen =? 0)%nat then Err (Errorf "toml: empty fractional second" [])
        else if (9 <? fracLen)%nat then Err (Errorf "toml: fractional second precision exceeds nanoseconds" [])
        else
          let! nanos := or_else (digits_value 0 (slice raw fracStart next)) Panic in
          Ok (second, scale10 (9 - fracLen) nanos, Z.of_nat fracLen, next).

Definition parseTimePrefix (raw : bytes) : res (LocalTime * nat) :=
  if (length raw <? 5)%nat then Err (Errorf "toml: short time" [])
  else if (raw !!! 2%nat ≠b COLON) then Err (Errorf "toml: malformed time separators" [])
  else
    let! hour := or_else (parseFixedDigits (slice raw 0 2)) (Errorf "toml: malformed hour" []) in
    let! minute := or_else (parseFixedDigits (slice raw 3 5)) (Errorf "toml: malformed minute" []) in
    let! (second, nanos, nanoDigits, next) := parseClockSubseconds raw 5 in
    let! _ := validateLocalClock hour minute second nanos nanoDigits in
    Ok (MkLocalTime hour minute second nanos (5 <? next)%nat nanoDigits, next).

(** [parseZone] up to the construction of the location: [None] is UTC,
    otherwise the signed offset with its hour and minute. *)
Definition parseZoneFields (raw : bytes) : res (option (Z * Z * Z)) :=
  if (length raw =? 1)%nat && ((raw !!! 0%nat =b cZ) || (raw !!! 0%nat =b cz)) then Ok None
  else if negb (length raw =? 6)%nat || ((raw !!! 0%nat ≠b PLUS) && (raw !!! 0%nat ≠b MINUS))
          || (raw !!! 3%nat ≠b COLON) then
    Err (Errorf "toml: malformed datetime offset" [])
  else
    let! hour := or_else (parseFixedDigits (slice raw 1 3)) (Errorf "toml: malformed offset hour" []) in
    let! minute := or_else (parseFixedDigits (slice raw 4 6)) (Errorf "toml: malformed offset minute" []) in
    if (23 <b hour) || (59 <b minute) then Err (Errorf "toml: offset out of range" [])
    else
      let seconds := hour * 3600 + minute * 60 in
      let seconds := if (raw !!! 0%nat =b MINUS) then - seconds else seconds in
      Ok (Some (seconds, hour, minute)).

Definition parseZone (raw : bytes) : res Location :=
  let! fields := parseZoneFields raw in
  match fields with
  | None => Ok UTC
  | Some (seconds, _, _) => Ok (FixedZone raw seconds)
  end.

Definition parseOffsetDateTime (raw : bytes) : res Time :=
  let! (date, timeStart) := parseDatePrefix raw in
  if negb (match raw !! timeStart with Some ch => isDateTimeSeparator ch | None => false end) then
    Err (Errorf "toml: missing datetime separator" [])
  else
    let! (clock, next) := parseTimePrefix (drop (timeStart + 1) raw) in
    let off := (timeStart + 1 + next)%nat in
    if (length raw <=? off)%nat then Err (Errorf "toml: missing datetime offset" [])
    else
      let! loc := parseZone (drop off raw) in
      Ok (time_Date (ld_Year date) (ld_Month date) (ld_Day date)
            (lt_Hour clock) (lt_Minute clock) (lt_Second clock) (lt_Nanosecond clock) loc).

Definition parseLocalDateTime (raw : bytes) : res LocalDateTime :=
  let! (date, timeStart) := parseDatePrefix raw in
  if negb (match raw !! timeStart with Some ch => isDateTimeSeparator ch | None => false end) then
    Err (Errorf "toml: missing datetime separator" [])
  else
    let! (clock, next) := parseTimePrefix (drop (timeStart + 1) raw) in
    if negb (timeStart + 1 + next =? length raw)%nat then
      Err (Errorf "toml: unexpected trailing datetime data" [])
    else
      Ok (MkLocalDateTime (ld_Year date) (ld_Month date) (ld_Day date)
            (lt_Hour clock) (lt_Minute clock) (lt_Second clock) (lt_Nanosecond clock)
            (lt_hasSecond clock) (lt_nanoDigits clock)).

Definition parseLocalDate (raw : bytes) : res LocalDate :=
  let! (date, next) := parseDatePrefix raw in
  if negb (next =? length raw)%nat then Err (Errorf "toml: unexpected trailing date data" [])
  else Ok date.

Definition parseLocalTime (raw : bytes) : res LocalTime :=
  let! (clock, next) := parseTimePrefix raw in
  if negb (next =? length raw)%nat then Err (Errorf "toml: unexpected trailing time data" [])
  else Ok clock.

Definition invalidDateTimeError (raw : bytes) : error := Errorf "toml: invalid datetime %q" raw.

Definition parseDateTimeValue (raw : bytes) : res (datetime * dateTimeKind) :=
  match dateTimeShape raw with
  | dateTimeKindOffset =>
      match parseOffsetDateTime raw with
      | Ok t => Ok (DTime t, dateTimeKindOffset)
      | Err _ => Err (invalidDateTimeError raw)
      end
  | dateTimeKindLocalDateTime =>
      match parseLocalDateTime raw with
      | Ok dt => Ok (DLocalDateTime dt, dateTimeKindLocalDateTime)
      | Err _ => Err (invalidDateTimeError raw)
      end
  | dateTimeKindLocalDate =>
      match parseLocalDate raw with
      | Ok d => Ok (DLocalDate d, dateTimeKindLocalDate)
      | Err _ => Err (invalidDateTimeError raw)
      end
  | dateTimeKindLocalTime =>
      match parseLocalTime raw with
      | Ok lt => Ok (DLocalTime lt, dateTimeKindLocalTime)
      | Err _ => Err (invalidDateTimeError raw)
      end
  | dateTimeKindInvalid => Err (invalidDateTimeError raw)
  end.

(** The options reduce to whether [WithLocalAsUTC] is among them. *)
Definition parseDateTimeAsTime (raw : bytes) (span : nat * nat) (localAsUTC : bool) : res Time :=
  let! (v, kind) := parseDateTimeValue raw in
  if bool_decide (kind = dateTimeKindOffset) then
    match v with DTime t => Ok t | _ => Err Panic end
  else if negb localAsUTC then Err (LocalTimeIntoTimeError TokenKindValueDatetime raw span)
  else
    match v with
    | DLocalDateTime x =>
        Ok (time_Date (ldt_Year x) (ldt_Month x) (ldt_Day x)
              (ldt_Hour x) (ldt_Minute x) (ldt_Second x) (ldt_Nanosecond x) UTC)
    | DLocalDate x => Ok (time_Date (ld_Year x) (ld_Month x) (ld_Day x) 0 0 0 0 UTC)
    | DLocalTime x => Ok (time_Date 0 1 1 (lt_Hour x) (lt_Minute x) (lt_Second x) (lt_Nanosecond x) UTC)
    | DTime _ => Err (Errorf "toml: unsupported datetime value %T" [])
    end.

Definition looksLikeDatetime (raw : bytes) : bool :=
  if negb (hasDateTimeShape raw) then false else is_ok (parseDateTimeValue raw).

(** ** The zone cache *)

(** Slots by sign, hour and minute; [None] is the nil pointer. *)
Abbreviation zoneCache := (gmap (bool * Z * Z) Location).

Definition fixedOffsetZone (cache : zoneCache) (raw : bytes) (seconds hour minute : Z) : Location * zoneCache :=
  let sign := raw !!! 0%nat =b MINUS in
  match cache !! (sign, hour, minute) with
  | Some loc => (loc, cache)
  | None =>
      let loc := FixedZone raw seconds in
      (loc, <[(sign, hour, minute) := loc]> cache)
  end.

Definition parseZoneCached (cache : zoneCache) (raw : bytes) : res Location * zoneCache :=
  match parseZoneFields raw with
  | Err e => (Err e, cache)
  | Ok None => (Ok UTC, cache)
  | Ok (Some (seconds, hour, minute)) =>
      let '(loc, cache) := fixedOffsetZone cache raw seconds hour minute in
      (Ok loc, cache)
  end.

(** ** Printing (datetime.go) *)

Definition appendPaddedInt (buf : bytes) (n : Z) (width : nat) : bytes :=
  if (width =? 4)%nat then buf ++ zero_padded 4 n else buf ++ zero_padded 2 n.

Definition appendDate (buf : bytes) (year month day : Z) : bytes :=
  let buf := appendPaddedInt buf year 4 in
  let buf := buf ++ [MINUS] in
  let buf := appendPaddedInt buf month 2 in
  let buf := buf ++ [MINUS] in
  appendPaddedInt buf day 2.

Definition appendTime (buf : bytes) (hour minute second nanos nanoDigits : Z) (hasSecond : bool) : bytes :=
  let buf := appendPaddedInt buf hour 2 in
  let buf := buf ++ [COLON] in
  let buf := appendPaddedInt buf minute 2 in
  let buf := if hasSecond then appendPaddedInt (buf ++ [COLON]) second 2 else buf in
  if hasSecond && (0 <b nanoDigits) then
    let frac := Itoa (nanos + 1000000000) in
    buf ++ [DOT] ++ slice frac 1 (1 + Z.to_nat nanoDigits)
  else buf.

Definition LocalDate_MarshalText (d : LocalDate) : res bytes :=
  let! _ := validateDate (ld_Year d) (ld_Month d) (ld_Day d) in
  Ok (appendDate [] (ld_Year d) (ld_Month d) (ld_Day d)).

Definition LocalTime_MarshalText (lt : LocalTime) : res bytes :=
  let! _ := validateLocalClock (lt_Hour lt) (lt_Minute lt) (lt_Second lt) (lt_Nanosecond lt) (lt_nanoDigits lt) in
  Ok (appendTime [] (lt_Hour lt) (lt_Minute lt) (lt_Second lt) (lt_Nanosecond lt) (lt_nanoDigits lt) (lt_hasSecond lt)).

Definition LocalDateTime_MarshalText (dt : LocalDateTime) : res bytes :=
  let! _ := validateDate (ldt_Year dt) (ldt_Month dt) (ldt_Day dt) in
  let! _ := validateLocalClock (ldt_Hour dt) (ldt_Minute dt) (ldt_Second dt) (ldt_Nanosecond dt) (ldt_nanoDigits dt) in
  let buf := appendDate [] (ldt_Year dt) (ldt_Month dt) (ldt_Day dt) in
  let buf := buf ++ [cT] in
  Ok (appendTime buf (ldt_Hour dt) (ldt_Minute dt) (ldt_Second dt) (ldt_Nanosecond dt) (ldt_nanoDigits dt) (ldt_hasSecond dt)).

(** [String] of the three types: the marshalled text, empty on error. *)
Definition text_or_empty (r : res bytes) : bytes := match r with Ok t => t | Err _ => [] end.

(** [UnmarshalText] assigns the parsed value and leaves the receiver alone on error. *)
Definition UnmarshalText {A} (parse : bytes → res A) (old : A) (text : bytes) : res unit * A :=
  match parse text with
  | Ok v => (Ok tt, v)
  | Err e => (Err e, old)
  end.

Definition ParseDateTime (text : bytes) : res datetime := rmap fst (parseDateTimeValue text).

Definition ParseDateTimeAsTime (text : bytes) (localAsUTC : bool) : res Time :=
  parseDateTimeAsTime text (0%nat, length text) localAsUTC.

(** ** What the parsers accept *)

Definition valid_date (d : LocalDate) : Prop :=
  0 ≤ ld_Year d ≤ 9999 ∧ 1 ≤ ld_Month d ≤ 12 ∧ 1 ≤ ld_Day d ≤ daysInMonth (ld_Year d) (ld_Month d).

(** A clock the textual form can represent: a fraction only with seconds, and
    no digits beyond the recorded precision. *)
Definition valid_clock (lt : LocalTime) : Prop :=
  0 ≤ lt_Hour lt ≤ 23 ∧ 0 ≤ lt_Minute lt ≤ 59 ∧ 0 ≤ lt_Second lt ≤ 59 ∧
  0 ≤ lt_Nanosecond lt < time_Second ∧ 0 ≤ lt_nanoDigits lt ≤ 9 ∧
  lt_Nanosecond lt mod 10 ^ (9 - lt_nanoDigits lt) = 0 ∧
  (lt_hasSecond lt = false → lt_Second lt = 0 ∧ lt_nanoDigits lt = 0).

Definition date_text (d : LocalDate) : bytes :=
  digits 4 (ld_Year d) ++ [MINUS] ++ digits 2 (ld_Month d) ++ [MINUS] ++ digits 2 (ld_Day d).

Definition clock_text (lt : LocalTime) : bytes :=
  digits 2 (lt_Hour lt) ++ [COLON] ++ digits 2 (lt_Minute lt) ++
  (if lt_hasSecond lt then
     [COLON] ++ digits 2 (lt_Second lt) ++
     (if (0 <b lt_nanoDigits lt) then
        [DOT] ++ digits (Z.to_nat (lt_nanoDigits lt)) (lt_Nanosecond lt / 10 ^ (9 - lt_nanoDigits lt))
      else [])
   else []).

Lemma validateDate_ok y m d :
  validateDate y m d = Ok tt ↔ valid_date (MkLocalDate y m d).
Proof.
  unfold validateDate, valid_date. simpl. split.
  - intros H. repeat case_hyp H; try discriminate H.
    lia.
  - intros (? & ? & ?). by rewrite !(proj2 (Z.ltb_ge _ _)) by lia.
Qed.

Lemma validateLocalClock_ok h m s n k :
  validateLocalClock h m s n k = Ok tt ↔
  0 ≤ h ≤ 23 ∧ 0 ≤ m ≤ 59 ∧ 0 ≤ s ≤ 59 ∧ 0 ≤ n < time_Second ∧ 0 ≤ k ≤ 9 ∧ (k = 0 → n = 0).
Proof.
  unfold validateLocalClock. split.
  - intros H. repeat case_hyp H; try discriminate H.
    unfold time_Second in *. lia.
  - intros (? & ? & ? & ? & ? & Hn).
    rewrite !(proj2 (Z.ltb_ge _ _)), (proj2 (Z.leb_gt _ _)) by lia. simpl.
    destruct (Z.eqb_spec k 0); [|done]. by rewrite Hn by done.
Qed.

(** [time_text] below is what each accepted prefix reads as. *)

Lemma parseFixedDigits_inv s v :
  parseFixedDigits s = Some v → s = digits (length s) v ∧ 0 ≤ v < 10 ^ Z.of_nat (length s).
Proof.
  intros H. apply digits_value_inv in H as (n & ? & ? & ->). rewrite Z.mul_0_l, Z.add_0_l. done.
Qed.

Lemma parseFixedDigits_digits w v :
  0 ≤ v < 10 ^ Z.of_nat w → parseFixedDigits (digits w v) = Some v.
Proof. intros. unfold parseFixedDigits. by rewrite digits_value_digits by done. Qed.

Lemma or_else_ok {A} (o : option A) e a : or_else o e = Ok a ↔ o = Some a.
Proof. destruct o; simpl; split; by intros [= ->]. Qed.

Lemma parseDatePrefix_inv raw d n :
  parseDatePrefix raw = Ok (d, n) → n = 10%nat ∧ (10 ≤ length raw)%nat ∧ valid_date d ∧ take 10 raw = date_text d.
Proof.
  unfold parseDatePrefix. intros H.
  destruct (Nat.ltb_spec (length raw) 10); [done|].
  destruct (Z.eqb_spec (raw !!! 4%nat) MINUS) as [H4|]; [|done].
  destruct (Z.eqb_spec (raw !!! 7%nat) MINUS) as [H7|]; [|done]. simpl negb in H. cbv iota in H.
  apply rbind_ok in H as (y & Hy%or_else_ok & H). apply rbind_ok in H as (m & Hm%or_else_ok & H).
  apply rbind_ok in H as (dd & Hd%or_else_ok & H). apply rbind_ok in H as ([] & Hv%validateDate_ok & H).
  injection H as <- <-. split; [done|]. split; [lia|]. split; [done|].
  apply parseFixedDigits_inv in Hy as [Hy _], Hm as [Hm _], Hd as [Hd _].
  rewrite length_slice in Hy, Hm, Hd by lia. unfold date_text. simpl ld_Year. simpl ld_Month. simpl ld_Day.
  simpl Nat.sub in Hy, Hm, Hd. rewrite <-Hy, <-Hm, <-Hd.
  rewrite <-slice_take, <-(slice_app raw 0 4), <-(slice_app raw 4 5), <-(slice_app raw 5 7),
    <-(slice_app raw 7 8) by lia.
  rewrite (slice_one_at raw 4 5 MINUS) by (done || rewrite <-H4; apply lookup_total_lt; lia).
  by rewrite (slice_one_at raw 7 8 MINUS) by (done || rewrite <-H7; apply lookup_total_lt; lia).
Qed.

Lemma scale10_pow k n : scale10 k n = n * 10 ^ Z.of_nat k.
Proof.
  revert n. induction k as [|k IH]; intros n; cbn [scale10]; [simpl; lia|].
  rewrite IH, Nat2Z.inj_succ, Z.pow_succ_r by lia. lia.
Qed.

(** The three shapes of the seconds suffix. *)
Lemma parseClockSubseconds_inv raw off s n k next :
  parseClockSubseconds raw off = Ok (s, n, k, next) →
  (s = 0 ∧ n = 0 ∧ k = 0 ∧ next = off) ∨
  (n = 0 ∧ k = 0 ∧ next = (off + 3)%nat ∧ (next ≤ length raw)%nat ∧
     slice raw off next = [COLON] ++ digits 2 s) ∨
  (1 ≤ k ≤ 9 ∧ next = (off + 4 + Z.to_nat k)%nat ∧ (next ≤ length raw)%nat ∧
     ∃ x, 0 ≤ x < 10 ^ k ∧ n = x * 10 ^ (9 - k) ∧
     slice raw off next = [COLON] ++ digits 2 s ++ [DOT] ++ digits (Z.to_nat k) x).
Proof.
  unfold parseClockSubseconds. intros H.
  case_bool_decide as Hc; simpl negb in H; cbv iota in H; [|left; by go_simpl].
  destruct (Nat.ltb_spec (length raw - (off + 1)) 2); [done|].
  pose proof (lookup_lt_Some _ _ _ Hc).
  apply rbind_ok in H as (sec & Hs%or_else_ok & H).
  apply parseFixedDigits_inv in Hs as [Hs Hsr]. rewrite length_slice in Hs, Hsr by lia.
  replace (off + 1 + 2 - (off + 1))%nat with 2%nat in Hs by lia. right.
  assert (slice raw off (off + 3) = [COLON] ++ digits 2 sec) as Hsec.
  { rewrite <-Hs, <-(slice_one raw off COLON Hc), slice_app by lia. f_equal; lia. }
  case_bool_decide as Hd; simpl negb in H; cbv iota in H.
  2:{ left. go_simpl. repeat split; try lia; try done. by replace (off + 1 + 2)%nat with (off + 3)%nat by lia. }
  right. replace (off + 1 + 2)%nat with (off + 3)%nat in * by lia.
  set (fl := find_stop _ (drop (off + 3 + 1) raw)) in H.
  assert (fl ≤ length raw - (off + 4))%nat as Hfl.
  { subst fl. etrans; [apply find_stop_le|]. rewrite length_drop. lia. }
  destruct (Nat.eqb_spec fl 0); [done|]. destruct (Nat.ltb_spec 9 fl); [done|].
  apply rbind_ok in H as (x & Hx%or_else_ok & H).
  apply parseFixedDigits_inv in Hx as [Hx Hxr]. pose proof (lookup_lt_Some _ _ _ Hd).
  rewrite length_slice in Hx, Hxr by lia.
  replace (off + 3 + 1 + fl - (off + 3 + 1))%nat with fl in Hx, Hxr by lia.
  go_simpl. split; [lia|]. rewrite Nat2Z.id. split; [lia|]. split; [lia|]. exists x. split; [done|]. split.
  - rewrite scale10_pow. f_equal. f_equal. lia.
  - rewrite <-Hx, <-(slice_one raw (off + 3) DOT Hd), slice_app, app_assoc, <-Hsec, slice_app by lia.
    f_equal; lia.
Qed.

Lemma parseTimePrefix_inv raw lt n :
  parseTimePrefix raw = Ok (lt, n) → (n ≤ length raw)%nat ∧ valid_clock lt ∧ take n raw = clock_text lt.
Proof.
  unfold parseTimePrefix. intros H.
  destruct (Nat.ltb_spec (length raw) 5); [done|].
  destruct (Z.eqb_spec (raw !!! 2%nat) COLON) as [H2|]; [|done]. simpl negb in H. cbv iota in H.
  apply rbind_ok in H as (h & Hh%or_else_ok & H). apply rbind_ok in H as (m & Hm%or_else_ok & H).
  apply rbind_ok in H as ([[[s ns] k] next] & Hc & H). apply rbind_ok in H as ([] & Hv%validateLocalClock_ok & H).
  injection H as <- <-.
  apply parseFixedDigits_inv in Hh as [Hh _], Hm as [Hm _].
  rewrite length_slice in Hh, Hm by lia. simpl Nat.sub in Hh, Hm.
  assert (take 5 raw = digits 2 h ++ [COLON] ++ digits 2 m) as Hhm.
  { rewrite <-slice_take, <-(slice_app raw 0 2), <-(slice_app raw 2 3), <-Hh, <-Hm by lia.
    by rewrite (slice_one_at raw 2 3 COLON) by (done || rewrite <-H2; apply lookup_total_lt; lia). }
  unfold valid_clock, clock_text. cbn [lt_Hour lt_Minute lt_Second lt_Nanosecond lt_nanoDigits lt_hasSecond].
  apply parseClockSubseconds_inv in Hc as [(-> & -> & -> & ->)|[(-> & -> & -> & Hl & Hs)|(Hk & -> & Hl & x & Hx & -> & Hs)]].
  - split; [lia|]. split; [split_and!; [lia..|done|done]|]. by rewrite Hhm.
  - split; [lia|]. split; [split_and!; [lia..|done|done]|].
    rewrite <-slice_take, <-(slice_app raw 0 5) by lia. rewrite slice_take, Hhm, Hs. simpl. done.
  - rewrite (proj2 (Nat.ltb_lt _ _)), (proj2 (Z.ltb_lt _ _)) by lia.
    assert (0 < 10 ^ (9 - k)) by (apply Z.pow_pos_nonneg; lia).
    rewrite Z.mod_mul, Z.div_mul by lia.
    split; [lia|]. split; [split_and!; [lia..|done|done]|].
    rewrite <-slice_take, <-(slice_app raw 0 5) by lia. rewrite slice_take, Hhm, Hs.
    by rewrite <-!app_assoc.
Qed.

(** ** What the printers write *)

Lemma appendDate_text buf y m d :
  valid_date (MkLocalDate y m d) → appendDate buf y m d = buf ++ date_text (MkLocalDate y m d).
Proof.
  intros (? & ? & Hd). simpl in *.
  assert (daysInMonth y m ≤ 31) by (unfold daysInMonth; repeat case_match; lia).
  unfold appendDate, appendPaddedInt, date_text. cbn [Nat.eqb].
  rewrite !(zero_padded_digits 1), (zero_padded_digits 3) by (simpl; lia).
  by rewrite <-!app_assoc.
Qed.

Lemma Itoa_frac nanos k :
  0 ≤ nanos < time_Second → (k ≤ 9)%nat →
  slice (Itoa (nanos + 1000000000)) 1 (1 + k) = digits k (nanos / 10 ^ Z.of_nat (9 - k)).
Proof.
  unfold time_Second. intros Hn Hk. unfold Itoa. rewrite (proj2 (Z.ltb_ge _ _)) by lia.
  rewrite (utoa_digits _ 9) by (simpl; lia).
  assert (digits 10 (nanos + 1000000000) = c1 :: digits 9 nanos) as ->.
  { rewrite digits_first. change (10 ^ Z.of_nat 9) with 1000000000.
    rewrite <-(digits_add 9 nanos 1). f_equal.
    rewrite <-(Z.mul_1_l 1000000000) at 1. rewrite Z.div_add, Z.div_small by lia. done. }
  unfold slice. cbn [drop]. replace (1 + k - 1)%nat with k by lia. by apply digits_take.
Qed.

(** The clock fields a marshaller has validated. *)
Definition clock_in_range (lt : LocalTime) : Prop :=
  0 ≤ lt_Hour lt ≤ 23 ∧ 0 ≤ lt_Minute lt ≤ 59 ∧ 0 ≤ lt_Second lt ≤ 59 ∧
  0 ≤ lt_Nanosecond lt < time_Second ∧ 0 ≤ lt_nanoDigits lt ≤ 9.

Lemma valid_clock_range lt : valid_clock lt → clock_in_range lt.
Proof. unfold valid_clock, clock_in_range. tauto. Qed.

Lemma valid_clock_validate lt :
  valid_clock lt →
  validateLocalClock (lt_Hour lt) (lt_Minute lt) (lt_Second lt) (lt_Nanosecond lt) (lt_nanoDigits lt) = Ok tt.
Proof.
  intros (? & ? & ? & ? & ? & Hm & ?). apply validateLocalClock_ok. split_and!; try lia.
  intros E. rewrite E in Hm. change (10 ^ (9 - 0)) with time_Second in Hm.
  by rewrite Z.mod_small in Hm by done.
Qed.

Lemma appendTime_text buf lt :
  clock_in_range lt →
  appendTime buf (lt_Hour lt) (lt_Minute lt) (lt_Second lt) (lt_Nanosecond lt) (lt_nanoDigits lt) (lt_hasSecond lt)
  = buf ++ clock_text lt.
Proof.
  destruct lt as [h m s n hs k]. unfold clock_in_range. simpl. intros (? & ? & ? & ? & ?).
  unfold appendTime, appendPaddedInt, clock_text. cbn [Nat.eqb lt_Hour lt_Minute lt_Second lt_Nanosecond lt_nanoDigits lt_hasSecond].
  rewrite !(zero_padded_digits 1) by (simpl; lia).
  destruct hs; cbn [andb]; [|by rewrite <-!app_assoc, app_nil_r].
  destruct (Z.ltb_spec 0 k); [|by rewrite <-!app_assoc, app_nil_r].
  rewrite Itoa_frac by lia. rewrite <-!app_assoc.
  by replace (Z.of_nat (9 - Z.to_nat k)) with (9 - k) by lia.
Qed.

(** Reading printed text back: the fixed-width fields sit where the parser
    slices them, by computation. *)
Lemma parseDatePrefix_text d rest :
  valid_date d → parseDatePrefix (date_text d ++ rest) = Ok (d, 10%nat).
Proof.
  destruct d as [y m dd]. intros Hv. pose proof Hv as (? & ? & ?). cbn [ld_Year ld_Month ld_Day] in *.
  assert (daysInMonth y m ≤ 31) by (unfold daysInMonth; repeat case_match; lia).
  unfold parseDatePrefix.
  change (length _ <? 10)%nat with false. cbv iota.
  change (_ || _) with false. cbv iota.
  change (slice _ 0 4) with (digits 4 y). change (slice _ 5 7) with (digits 2 m).
  change (slice _ 8 10) with (digits 2 dd).
  rewrite !parseFixedDigits_digits by (simpl; lia). cbn [or_else rbind].
  by rewrite (proj2 (validateDate_ok _ _ _) Hv).
Qed.

(** The seconds suffix of [clock_text]. *)
Definition seconds_text (lt : LocalTime) : bytes :=
  if lt_hasSecond lt then
    [COLON] ++ digits 2 (lt_Second lt) ++
    (if (0 <b lt_nanoDigits lt) then
       [DOT] ++ digits (Z.to_nat (lt_nanoDigits lt)) (lt_Nanosecond lt / 10 ^ (9 - lt_nanoDigits lt))
     else [])
  else [].

(** What may follow a clock: not a digit, a colon or a point. *)
Definition clock_end (rest : bytes) : Prop :=
  match rest with c :: _ => isDigit c = false ∧ c ≠ COLON ∧ c ≠ DOT | [] => True end.

Lemma find_stop_digits w n rest : clock_end rest → find_stop (λ b, negb (isDigit b)) (digits w n ++ rest) = w.
Proof.
  intros Hr. pose proof (digits_isDigit w n) as Hd. rewrite <-(digits_length w n) at 2.
  induction Hd as [|c s Hc _ IH]; cbn [app length].
  - destruct rest as [|c rest]; [done|]. destruct Hr as [Hc _]. cbn [find_stop]. by rewrite Hc.
  - cbn [find_stop]. rewrite Hc. cbn [negb]. by rewrite IH.
Qed.

Lemma parseClockSubseconds_text (p : bytes) lt rest :
  valid_clock lt → length p = 5%nat → clock_end rest →
  parseClockSubseconds (p ++ seconds_text lt ++ rest) 5 =
    Ok (lt_Second lt, lt_Nanosecond lt, lt_nanoDigits lt, length (p ++ seconds_text lt)).
Proof.
  destruct lt as [h m s n hs k]. unfold valid_clock, seconds_text. cbn [lt_Hour lt_Minute lt_Second lt_Nanosecond lt_nanoDigits lt_hasSecond].
  intros (Hh & Hm & Hs & Hn & Hk & Hmod & Hhs) Hp Hr.
  destruct p as [|p0 [|p1 [|p2 [|p3 [|p4 [|]]]]]]; try done. clear Hp.
  assert (head rest ≠ Some COLON ∧ head rest ≠ Some DOT) as [Hr1 Hr2].
  { destruct rest as [|c rest]; [done|]. destruct Hr as (_ & ? & ?). split; intros [= ->]; done. }
  assert (n = 0 → k = 0 → Ok (s, 0, 0, 8%nat) = Ok (s, n, k, 8%nat) :> res _) as Hzero by (by intros -> ->).
  assert (k = 0 → n = 0) as Hk0.
  { intros ->. change (10 ^ (9 - 0)) with time_Second in Hmod. by rewrite Z.mod_small in Hmod by done. }
  unfold parseClockSubseconds. destruct hs.
  2:{ destruct Hhs as [-> ->]; [done|]. rewrite (Hk0 eq_refl). rewrite bool_decide_eq_false_2; [done|]. by destruct rest. }
  clear Hhs. rewrite <-!app_assoc. rewrite bool_decide_eq_true_2 by done. cbn [negb]. cbv iota.
  rewrite (proj2 (Nat.ltb_ge _ 2)) by (rewrite !length_app, digits_length; simpl; lia).
  change (slice _ (5 + 1) (5 + 1 + 2)) with (digits 2 s).
  rewrite parseFixedDigits_digits by (simpl; lia). cbn [or_else rbind].
  destruct (Z.ltb_spec 0 k) as [Hkp|].
  2:{ assert (k = 0) as -> by lia. rewrite (Hk0 eq_refl). rewrite bool_decide_eq_false_2; [done|]. by destruct rest. }
  rewrite <-!app_assoc. rewrite bool_decide_eq_true_2 by done. cbn [negb]. cbv iota zeta.
  set (x := n / 10 ^ (9 - k)).
  change (drop (5 + 1 + 2 + 1) _) with (digits (Z.to_nat k) x ++ rest).
  rewrite find_stop_digits by done.
  rewrite (proj2 (Nat.eqb_neq _ 0)), (proj2 (Nat.ltb_ge 9 _)) by lia.
  assert (0 < 10 ^ (9 - k)) by (apply Z.pow_pos_nonneg; lia).
  assert (n = x * 10 ^ (9 - k)) as Hnx by (subst x; Z.div_mod_to_equations; lia).
  assert (0 ≤ x < 10 ^ Z.of_nat (Z.to_nat k)) as Hx.
  { rewrite Z2Nat.id by lia. split; [subst x; apply Z.div_pos; lia|].
    apply Z.div_lt_upper_bound; [done|]. rewrite <-Z.pow_add_r by lia.
    replace (9 - k + k) with 9 by lia. exact (proj2 Hn). }
  assert (slice ([p0; p1; p2; p3; p4] ++ [COLON] ++ digits 2 s ++ [DOT] ++ digits (Z.to_nat k) x ++ rest)
            (5 + 1 + 2 + 1) (5 + 1 + 2 + 1 + Z.to_nat k) = digits (Z.to_nat k) x) as ->.
  { unfold slice. change (drop (5 + 1 + 2 + 1) _) with (digits (Z.to_nat k) x ++ rest).
    replace (5 + 1 + 2 + 1 + Z.to_nat k - (5 + 1 + 2 + 1))%nat with (Z.to_nat k) by lia.
    apply take_app_length'. by rewrite digits_length. }
  rewrite digits_value_digits by done. cbn [or_else rbind].
  rewrite scale10_pow, Z2Nat.id by lia. f_equal. f_equal.
  - f_equal. f_equal. rewrite Hnx, Z.mul_0_l, Z.add_0_l. f_equal. f_equal. lia.
  - rewrite !length_app, !digits_length. cbn [length]. lia.
Qed.

Lemma parseTimePrefix_text lt rest :
  valid_clock lt → clock_end rest → parseTimePrefix (clock_text lt ++ rest) = Ok (lt, length (clock_text lt)).
Proof.
  intros Hv Hr. pose proof Hv as (? & ? & ? & ? & ? & ? & Hhs).
  set (p := digits 2 (lt_Hour lt) ++ [COLON] ++ digits 2 (lt_Minute lt)).
  change (clock_text lt) with (p ++ seconds_text lt). rewrite <-app_assoc.
  unfold parseTimePrefix. change (length _ <? 5)%nat with false. cbv iota.
  change (negb _) with false. cbv iota.
  change (slice _ 0 2) with (digits 2 (lt_Hour lt)). change (slice _ 3 5) with (digits 2 (lt_Minute lt)).
  rewrite !parseFixedDigits_digits by (simpl; lia). cbn [or_else rbind].
  rewrite parseClockSubseconds_text by done. cbn [rbind].
  rewrite valid_clock_validate by done. cbn [rbind].
  destruct lt as [h m s n hs k]. cbn [lt_Hour lt_Minute lt_Second lt_Nanosecond lt_nanoDigits lt_hasSecond] in *.
  unfold seconds_text. cbn [lt_hasSecond]. by destruct hs.
Qed.

Lemma parseTimePrefix_clock lt : valid_clock lt → parseTimePrefix (clock_text lt) = Ok (lt, length (clock_text lt)).
Proof. intros Hv. rewrite <-(app_nil_r (clock_text lt)) at 1. by apply parseTimePrefix_text. Qed.

(** ** Properties *)

Definition date_of (dt : LocalDateTime) : LocalDate := MkLocalDate (ldt_Year dt) (ldt_Month dt) (ldt_Day dt).
Definition clock_of (dt : LocalDateTime) : LocalTime :=
  MkLocalTime (ldt_Hour dt) (ldt_Minute dt) (ldt_Second dt) (ldt_Nanosecond dt) (ldt_hasSecond dt) (ldt_nanoDigits dt).

Lemma LocalDateTime_MarshalText_ok dt :
  valid_date (date_of dt) → valid_clock (clock_of dt) →
  LocalDateTime_MarshalText dt = Ok (date_text (date_of dt) ++ [cT] ++ clock_text (clock_of dt)).
Proof.
  intros Hd Hc. unfold LocalDateTime_MarshalText.
  rewrite (proj2 (validateDate_ok _ _ _) Hd). cbn [rbind].
  pose proof (valid_clock_validate _ Hc) as Hval. cbn in Hval. rewrite Hval. cbn [rbind]. f_equal.
  rewrite (appendTime_text _ (clock_of dt) (valid_clock_range _ Hc)).
  by rewrite appendDate_text, <-app_assoc by done.
Qed.

(** Every accepted local date-time is a real calendar date and clock time, and
    printing it gives the source text back with the separator normalised to T. *)
Theorem parseLocalDateTime_print raw dt :
  parseLocalDateTime raw = Ok dt →
  valid_date (date_of dt) ∧ valid_clock (clock_of dt) ∧
  LocalDateTime_MarshalText dt = Ok (take 10 raw ++ [cT] ++ drop 11 raw).
Proof.
  unfold parseLocalDateTime. intros H.
  apply rbind_ok in H as ([d ts] & Hd & H). apply parseDatePrefix_inv in Hd as (-> & ? & Hd & Htd).
  destruct (raw !! 10%nat) as [ch|] eqn:E10; [|done]. destruct (isDateTimeSeparator ch); [|done].
  cbn [negb] in H. apply rbind_ok in H as ([lt n] & Hc & H).
  apply parseTimePrefix_inv in Hc as (Hn & Hc & Htc).
  rewrite length_drop in Hn. pose proof (lookup_lt_Some _ _ _ E10).
  destruct (Nat.eqb_spec (10 + 1 + n) (length raw)) as [El|]; [|done]. cbn [negb] in H. injection H as <-.
  destruct d, lt. split; [done|]. split; [done|].
  rewrite LocalDateTime_MarshalText_ok by done. rewrite Htd. do 3 f_equal.
  rewrite take_ge in Htc by (rewrite length_drop; lia). symmetry. exact Htc.
Qed.

Lemma parseLocalDateTime_print_witness :
  LocalDateTime_MarshalText (MkLocalDateTime 1979 5 27 7 32 0 500000000 true 1) = Ok (str "1979-05-27T07:32:00.5").
Proof.
  exact (proj2 (proj2 (parseLocalDateTime_print (str "1979-05-27 07:32:00.5") _ eq_refl))).
Defined.

(** Printing a representable local date-time and parsing it back is the identity. *)
Theorem printLocalDateTime_parse dt :
  valid_date (date_of dt) → valid_clock (clock_of dt) →
  ∃ text, LocalDateTime_MarshalText dt = Ok text ∧ parseLocalDateTime text = Ok dt.
Proof.
  intros Hd Hc. eexists. split; [by apply LocalDateTime_MarshalText_ok|].
  unfold parseLocalDateTime. rewrite parseDatePrefix_text by done. cbn [rbind].
  change ((date_text (date_of dt) ++ [cT] ++ clock_text (clock_of dt)) !! 10%nat) with (Some cT).
  cbn [negb isDateTimeSeparator orb]. change (negb (isDateTimeSeparator cT)) with false. cbv iota.
  change (drop (10 + 1) _) with (clock_text (clock_of dt)).
  rewrite parseTimePrefix_clock by done. cbn [rbind].
  rewrite !length_app. change (length (date_text _)) with 10%nat. cbn [length].
  rewrite Nat.add_assoc, Nat.eqb_refl. cbn [negb]. by destruct dt.
Qed.

Lemma printLocalDateTime_parse_witness :
  ∃ text, LocalDateTime_MarshalText (MkLocalDateTime 2024 2 29 23 59 59 120000000 true 2) = Ok text ∧
          parseLocalDateTime text = Ok (MkLocalDateTime 2024 2 29 23 59 59 120000000 true 2).
Proof.
  apply (printLocalDateTime_parse (MkLocalDateTime 2024 2 29 23 59 59 120000000 true 2)).
  - unfold valid_date, daysInMonth. simpl. repeat split; try lia; done.
  - unfold valid_clock, time_Second. simpl. repeat split; try lia; done.
Defined.

(** The same for a local date and a local time on their own. *)
Theorem LocalDate_LocalTime_roundtrip raw :
  (∀ d, parseLocalDate raw = Ok d → LocalDate_MarshalText d = Ok raw) ∧
  (∀ lt, parseLocalTime raw = Ok lt → LocalTime_MarshalText lt = Ok raw) ∧
  (∀ d, valid_date d → parseLocalDate (date_text d) = Ok d ∧ LocalDate_MarshalText d = Ok (date_text d)) ∧
  (∀ lt, valid_clock lt → parseLocalTime (clock_text lt) = Ok lt ∧ LocalTime_MarshalText lt = Ok (clock_text lt)).
Proof.
  assert (∀ d, valid_date d → LocalDate_MarshalText d = Ok (date_text d)) as Hmd.
  { intros [y m dd] Hd. unfold LocalDate_MarshalText. cbn [ld_Year ld_Month ld_Day].
    rewrite (proj2 (validateDate_ok _ _ _) Hd). cbn [rbind]. by rewrite appendDate_text. }
  assert (∀ lt, valid_clock lt → LocalTime_MarshalText lt = Ok (clock_text lt)) as Hmt.
  { intros lt Hc. unfold LocalTime_MarshalText. rewrite valid_clock_validate by done. cbn [rbind].
    by rewrite (appendTime_text [] lt (valid_clock_range _ Hc)). }
  split_and!.
  - intros d H. unfold parseLocalDate in H. apply rbind_ok in H as ([d' n] & Hd & H).
    apply parseDatePrefix_inv in Hd as (-> & ? & Hd & Ht).
    destruct (Nat.eqb_spec 10 (length raw)); [|done]. cbn [negb] in H. injection H as <-.
    rewrite Hmd, <-Ht, take_ge by (done || lia). done.
  - intros lt H. unfold parseLocalTime in H. apply rbind_ok in H as ([lt' n] & Hc & H).
    apply parseTimePrefix_inv in Hc as (? & Hc & Ht).
    destruct (Nat.eqb_spec n (length raw)); [|done]. cbn [negb] in H. injection H as <-.
    rewrite Hmt, <-Ht, take_ge by (done || lia). done.
  - intros d Hd. split; [|by apply Hmd]. unfold parseLocalDate.
    rewrite <-(app_nil_r (date_text d)), parseDatePrefix_text by done. by rewrite app_nil_r.
  - intros lt Hc. split; [|by apply Hmt]. unfold parseLocalTime.
    rewrite parseTimePrefix_clock by done. cbn [rbind]. by rewrite Nat.eqb_refl.
Qed.

(** A [LocalTime] built by a caller, who can set [Second] but not the unexported
    [hasSecond], prints without its seconds: the text parses to another time. *)
Theorem LocalTime_MarshalText_drops_seconds :
  LocalTime_MarshalText (MkLocalTime 12 30 45 0 false 0) = Ok (str "12:30") ∧
  parseLocalTime (str "12:30") = Ok (MkLocalTime 12 30 0 0 false 0).
Proof. split; reflexivity. Qed.

(** ** Dispatch on the shape, and the zone cache *)

(** Offset date-times: validated calendar fields and an offset below a day. *)
Definition valid_time (t : Time) : Prop :=
  valid_date (MkLocalDate (t_Year t) (t_Month t) (t_Day t)) ∧
  0 ≤ t_Hour t ≤ 23 ∧ 0 ≤ t_Minute t ≤ 59 ∧ 0 ≤ t_Second t ≤ 59 ∧ 0 ≤ t_Nanosecond t < time_Second ∧
  match t_Location t with UTC => True | FixedZone _ off => -86400 < off < 86400 end.

Definition valid_datetime (v : datetime) : Prop :=
  match v with
  | DTime t => valid_time t
  | DLocalDateTime dt => valid_date (date_of dt) ∧ valid_clock (clock_of dt)
  | DLocalDate d => valid_date d
  | DLocalTime lt => valid_clock lt
  end.

Lemma parseZone_range raw loc :
  parseZone raw = Ok loc → match loc with UTC => True | FixedZone _ off => -86400 < off < 86400 end.
Proof.
  unfold parseZone, parseZoneFields. intros H.
  apply rbind_ok in H as (f & Hf & H). destruct f as [[[s h] m]|]; [|by injection H as <-].
  injection H as <-.
  match type of Hf with (if ?c then _ else _) = _ => destruct c; [discriminate Hf|] end.
  match type of Hf with (if ?c then _ else _) = _ => destruct c; [discriminate Hf|] end.
  apply rbind_ok in Hf as (h' & Hh%or_else_ok & Hf). apply rbind_ok in Hf as (m' & Hm%or_else_ok & Hf).
  apply parseFixedDigits_inv in Hh as [_ Hh], Hm as [_ Hm].
  repeat case_hyp Hf; try discriminate Hf; simplify_eq; bool_lia.
Qed.

Lemma parseOffsetDateTime_valid raw t : parseOffsetDateTime raw = Ok t → valid_time t.
Proof.
  unfold parseOffsetDateTime. intros H.
  apply rbind_ok in H as ([d ts] & Hd & H). apply parseDatePrefix_inv in Hd as (-> & ? & Hd & _).
  match type of H with (if ?c then _ else _) = _ => destruct c; [discriminate H|] end.
  apply rbind_ok in H as ([lt n] & Hc & H). apply parseTimePrefix_inv in Hc as (_ & Hc & _).
  match type of H with (if ?c then _ else _) = _ => destruct c; [discriminate H|] end.
  apply rbind_ok in H as (loc & Hz%parseZone_range & H). injection H as <-.
  destruct d, lt, Hc as (? & ? & ? & ? & _). unfold valid_time. cbn in *. tauto.
Qed.

(** Whatever [parseDateTimeValue] accepts is a valid value of the kind it
    reports, and the kind is the one the text's shape announces. *)
Theorem parseDateTimeValue_sound raw v kind :
  parseDateTimeValue raw = Ok (v, kind) →
  valid_datetime v ∧ kind = dateTimeShape raw ∧
  kind = match v with
         | DTime _ => dateTimeKindOffset
         | DLocalDateTime _ => dateTimeKindLocalDateTime
         | DLocalDate _ => dateTimeKindLocalDate
         | DLocalTime _ => dateTimeKindLocalTime
         end.
Proof.
  unfold parseDateTimeValue. intros H. destruct (dateTimeShape raw); [done| | | |].
  - destruct (parseOffsetDateTime raw) eqn:E; [|done]. simplify_eq.
    split; [by eapply parseOffsetDateTime_valid|done].
  - destruct (parseLocalDateTime raw) eqn:E; [|done]. simplify_eq.
    unfold parseLocalDateTime in E. apply rbind_ok in E as ([d ts] & Hd & E).
    apply parseDatePrefix_inv in Hd as (-> & ? & Hd & _).
    match type of E with (if ?c then _ else _) = _ => destruct c; [discriminate E|] end.
    apply rbind_ok in E as ([lt n] & Hc & E). apply parseTimePrefix_inv in Hc as (_ & Hc & _).
    match type of E with (if ?c then _ else _) = _ => destruct c; [discriminate E|] end.
    injection E as <-. by destruct d, lt.
  - destruct (parseLocalDate raw) eqn:E; [|done]. simplify_eq.
    unfold parseLocalDate in E. apply rbind_ok in E as ([d n] & Hd & E).
    apply parseDatePrefix_inv in Hd as (-> & ? & Hd & _).
    match type of E with (if ?c then _ else _) = _ => destruct c; [discriminate E|] end. by simplify_eq.
  - destruct (parseLocalTime raw) eqn:E; [|done]. simplify_eq.
    unfold parseLocalTime in E. apply rbind_ok in E as ([lt n] & Hc & E).
    apply parseTimePrefix_inv in Hc as (_ & Hc & _).
    match type of E with (if ?c then _ else _) = _ => destruct c; [discriminate E|] end. by simplify_eq.
Qed.

Lemma parseDateTimeValue_sound_witness :
  valid_datetime (DTime (time_Date 1979 5 27 0 32 0 999000000 (FixedZone (str "-07:00") (-25200)))).
Proof.
  exact (proj1 (parseDateTimeValue_sound (str "1979-05-27T00:32:00.999-07:00") _ dateTimeKindOffset eq_refl)).
Defined.

(** A cache slot holds the zone its key denotes. *)
Definition zone_text (sign : bool) (hour minute : Z) : bytes :=
  (if sign then MINUS else PLUS) :: digits 2 hour ++ [COLON] ++ digits 2 minute.

Definition cache_coherent (cache : zoneCache) : Prop :=
  ∀ sign hour minute loc, cache !! (sign, hour, minute) = Some loc →
    loc = FixedZone (zone_text sign hour minute)
            (let s := hour * 3600 + minute * 60 in if sign : bool then - s else s).

Lemma parseZoneFields_text raw s h m :
  parseZoneFields raw = Ok (Some (s, h, m)) →
  let sign := raw !!! 0%nat =b MINUS in
  raw = zone_text sign h m ∧ s = (let s := h * 3600 + m * 60 in if sign : bool then - s else s).
Proof.
  unfold parseZoneFields. intros H.
  match type of H with (if ?c then _ else _) = _ => destruct c; [discriminate H|] end.
  destruct (Nat.eqb_spec (length raw) 6) as [Hl|]; [|done]. cbn [negb orb] in H.
  match type of H with (if ?c then _ else _) = _ => destruct c eqn:E; [discriminate H|] end.
  apply rbind_ok in H as (h' & Hh%or_else_ok & H). apply rbind_ok in H as (m' & Hm%or_else_ok & H).
  match type of H with (if ?c then _ else _) = _ => destruct c; [discriminate H|] end. simplify_eq.
  apply parseFixedDigits_inv in Hh as [Hh _], Hm as [Hm _].
  destruct raw as [|a [|b [|c [|d [|e [|f [|]]]]]]]; try done.
  cbn -[digits] in E, Hh, Hm |- *. split; [|done]. unfold zone_text. rewrite <-Hh, <-Hm. cbn.
  apply orb_false_elim in E as [E1 E2]. apply negb_false_iff, Z.eqb_eq in E2. subst d.
  destruct (Z.eqb_spec a MINUS) as [->|]; [done|].
  rewrite andb_true_r in E1. apply negb_false_iff, Z.eqb_eq in E1. by subst a.
Qed.

(** On a coherent cache the cached parser returns what the uncached one does,
    and leaves the cache coherent. *)
Theorem zone_cache_transparent cache raw :
  cache_coherent cache →
  fst (parseZoneCached cache raw) = parseZone raw ∧ cache_coherent (snd (parseZoneCached cache raw)).
Proof.
  intros Hc. unfold parseZoneCached, parseZone.
  destruct (parseZoneFields raw) as [[[[s h] m]|]|e] eqn:E; cbn [rbind]; [|done..].
  apply parseZoneFields_text in E as [Hraw Hs]. unfold fixedOffsetZone.
  set (sign := raw !!! 0%nat =b MINUS) in *.
  destruct (cache !! (sign, h, m)) as [loc|] eqn:El; cbn [fst snd].
  - rewrite (Hc _ _ _ _ El), <-Hraw, <-Hs. done.
  - split; [done|]. intros sign' h' m' loc. rewrite lookup_insert. case_decide as Hk; [|by apply Hc].
    intros [= <-]. injection Hk as -> -> ->. by rewrite <-Hraw, <-Hs.
Qed.

Lemma zone_cache_transparent_witness :
  fst (parseZoneCached ∅ (str "+09:00")) = Ok (FixedZone (str "+09:00") 32400).
Proof. rewrite (proj1 (zone_cache_transparent ∅ (str "+09:00") ltac:(intros ????; by rewrite lookup_empty))). reflexivity. Defined.
