(* ===== verification/TomlString.v ===== *)
(** String literals of [pkg/toml] (value.go): the four TOML string forms, their
    escapes and the controls they refuse, with a declarative account of the literals the
    code accepts. *)
From S2P Require Import Prelude GoUtf8 Scan TomlBase.

Inductive stringValueKind :=
| stringValueMalformed
| stringValueLiteral
| stringValueMultilineLiteral
| stringValueBasic
| stringValueMultilineBasic.

(** ** Delimiters *)

Definition hasTripleDelimiter (raw : bytes) (q : Z) : bool :=
  let n := length raw in
  (6 <=? n) &&
  (raw !!! 0 =b q) && (raw !!! 1 =b q) && (raw !!! 2 =b q) &&
  (raw !!! (n - 1) =b q) && (raw !!! (n - 2) =b q) && (raw !!! (n - 3) =b q).

Definition hasPairDelimiter (raw : bytes) (q : Z) : bool :=
  let n := length raw in
  (2 <=? n) && (raw !!! 0 =b q) && (raw !!! (n - 1) =b q).

Definition malformedStringError (raw : bytes) : error :=
  SyntaxError 1 1 "malformed string" (0, length raw).

Definition trimInitialMultilineStringNewline (raw : bytes) : bytes :=
  if (2 <=? length raw) && (raw !!! 0 =b CR) && (raw !!! 1 =b LF) then drop 2 raw
  else if (1 <=? length raw) && (raw !!! 0 =b LF) then drop 1 raw
  else raw.

Definition stringValueBody (raw : bytes) : res (bytes * stringValueKind) :=
  let n := length raw in
  if hasTripleDelimiter raw SQUOTE then
    Ok (trimInitialMultilineStringNewline (slice raw 3 (n - 3)), stringValueMultilineLiteral)
  else if hasTripleDelimiter raw DQUOTE then
    Ok (trimInitialMultilineStringNewline (slice raw 3 (n - 3)), stringValueMultilineBasic)
  else if hasPairDelimiter raw SQUOTE then Ok (slice raw 1 (n - 1), stringValueLiteral)
  else if hasPairDelimiter raw DQUOTE then Ok (slice raw 1 (n - 1), stringValueBasic)
  else Err (malformedStringError raw).

(** ** Controls *)

Definition prohibitedStringControl (c : Z) (multiline : bool) : bool :=
  if c =b TAB then false
  else if multiline && (c =b LF) then false
  else (c <b 0x20) || (c =b 0x7f).

(** [raw[i] == '\r' && i+1 < len(raw) && raw[i+1] == '\n']. *)
Definition crlf_at (raw : bytes) (i : nat) : bool :=
  (raw !!! i =b CR) && (i + 1 <? length raw) && (raw !!! (i + 1) =b LF).

(** The loop visits [i] upwards, and two positions at once on a CRLF pair:
    [skip] is set on the second byte of such a pair. *)
Fixpoint prohibitedStringControlIndex_loop (raw : bytes) (multiline : bool)
    (i : nat) (s : bytes) (skip : bool) : option nat :=
  match s with
  | [] => None
  | c :: s' =>
      if skip then prohibitedStringControlIndex_loop raw multiline (i + 1) s' false
      else if multiline && crlf_at raw i then
        prohibitedStringControlIndex_loop raw multiline (i + 1) s' true
      else if prohibitedStringControl c multiline then Some i
      else prohibitedStringControlIndex_loop raw multiline (i + 1) s' false
  end.

(** [-1] is [None]. *)
Definition prohibitedStringControlIndex (raw : bytes) (multiline : bool) : option nat :=
  prohibitedStringControlIndex_loop raw multiline 0 raw false.

Definition hex_digit (d : Z) : string :=
  String (ascii_of_N (Z.to_N (if d <b 10 then 48 + d else 87 + d))%Z) EmptyString.

(** [fmt.Sprintf("%02x", b)] of a byte. *)
Definition hex2 (b : Z) : string := (hex_digit (b / 16) +:+ hex_digit (b mod 16))%Z.

Definition stringControlError (raw : bytes) (idx : nat) : error :=
  SyntaxError 1 (idx + 1)
    ("unescaped control character 0x" +:+ hex2 (raw !!! idx) +:+ " in string")
    (idx, idx + 1).

Definition validateStringControls (raw : bytes) (multiline : bool) : res unit :=
  match prohibitedStringControlIndex raw multiline with
  | Some idx => Err (stringControlError raw idx)
  | None => Ok tt
  end.

Definition validateLiteralStringBody (raw : bytes) (multiline : bool) : res unit :=
  validateStringControls raw multiline.

(** ** Escapes *)

Definition hexDigitValue (c : Z) : option Z :=
  if (c0 ≤b c) && (c ≤b c9) then Some (c - c0)%Z
  else if (cA ≤b c) && (c ≤b cF) then Some (c - cA + 10)%Z
  else if (ca ≤b c) && (c ≤b cf) then Some (c - ca + 10)%Z
  else None.

(** [v = v<<4 | int64(n)] over the digits; at most 32 bits, so [int64] is exact. *)
Fixpoint hexDigitsValue (v : Z) (s : bytes) : option Z :=
  match s with
  | [] => Some v
  | c :: s' =>
      match hexDigitValue c with
      | Some n => hexDigitsValue (Z.lor (Z.shiftl v 4) n) s'
      | None => None
      end
  end.

Definition maxParseInt32 : Z := 2 ^ 31 - 1.

Definition parseUnicodeEscape (raw : bytes) (start digits : nat) : res Z :=
  let end_ := start + digits in
  if length raw <? end_ then
    Err (SyntaxError 1 (start + 1) "short unicode escape" (start - 2, length raw))
  else
    match hexDigitsValue 0 (slice raw start end_) with
    | None => Err (SyntaxError 1 (start + 1) "invalid unicode escape" (start - 2, end_))
    | Some v =>
        if maxParseInt32 <b v then Err (NumError "ParseInt" (slice raw start end_) ErrRange)
        else if ValidRune v then Ok v
        else Err (SyntaxError 1 (start + 1) "invalid unicode scalar" (start - 2, end_))
    end.

Definition isBlank (c : Z) : bool := (c =b SP) || (c =b TAB).

(** The second loop of [skipEscapedMultilineStringWhitespace], from [j] with
    [s = raw[j:]]; [skip] is set on the line feed of a CRLF pair. *)
Fixpoint skipTrimmed (j : nat) (s : bytes) (skip : bool) : nat :=
  match s with
  | [] => j
  | c :: s' =>
      if skip then skipTrimmed (j + 1) s' false
      else if isBlank c || (c =b LF) then skipTrimmed (j + 1) s' false
      else if (c =b CR) && (match s' with c' :: _ => c' =b LF | [] => false end)
      then skipTrimmed (j + 1) s' true
      else j
  end.

(** [(i, false)] is [None]. *)
Definition skipEscapedMultilineStringWhitespace (raw : bytes) (i : nat) : option nat :=
  let j := i + find_stop (λ c, negb (isBlank c)) (drop i raw) in
  if (j <? length raw) && (raw !!! j =b LF) then
    Some (skipTrimmed (j + 1) (drop (j + 1) raw) false)
  else if (j + 1 <? length raw) && (raw !!! j =b CR) && (raw !!! (j + 1) =b LF) then
    Some (skipTrimmed (j + 2) (drop (j + 2) raw) false)
  else None.

(** The byte of a two-byte escape. *)
Definition simpleEscape (next : Z) : option Z :=
  if next =b cb then Some BS
  else if next =b ct then Some TAB
  else if next =b cn then Some LF
  else if next =b cf then Some FF
  else if next =b cr then Some CR
  else if next =b ce then Some ESC
  else if next =b DQUOTE then Some DQUOTE
  else if next =b BSLASH then Some BSLASH
  else None.

Definition unicodeEscapeDigits (next : Z) : option nat :=
  if next =b cx then Some 2
  else if next =b cu then Some 4
  else if next =b cU then Some 8
  else None.

(** ** The body of a basic string *)

(** [if b != nil { b.Write(s) }]. *)
Definition builder_write (b : option bytes) (s : bytes) : option bytes :=
  (λ acc, acc ++ s) <$> b.

(** The escape [raw[i:]], a backslash: the new index and builder. *)
Definition scanEscape (raw : bytes) (i : nat) (b : option bytes) : res (nat * option bytes) :=
  if length raw <=? i + 1 then
    Err (SyntaxError 1 (i + 1) "unterminated string escape" (i, length raw))
  else
    let next := raw !!! (i + 1) in
    match simpleEscape next, unicodeEscapeDigits next with
    | Some c, _ => Ok (i + 2, builder_write b [c])
    | None, Some digits =>
        let! r := parseUnicodeEscape raw (i + 2) digits in
        Ok (i + 2 + digits, builder_write b (EncodeRune r))
    | None, None =>
        Err (SyntaxError 1 (i + 1) "invalid string escape" (i, Nat.min (i + 2) (length raw)))
    end.

Section strings.
Context {K : ScanKernels}.

(** One iteration of the loop at [i < len(raw)]: the new index and builder. *)
Definition scanBasicStringStep (raw : bytes) (multiline : bool) (i : nat) (b : option bytes)
    : res (nat * option bytes) :=
  if negb multiline then
    let n := ScanBasicStringStrict (drop i raw) in
    let b := if 0 <? n then builder_write b (slice raw i (i + n)) else b in
    let i := i + n in
    if (0 <? n) && (length raw <=? i) then Ok (i, b)
    else
      let c := raw !!! i in
      if c ≠b BSLASH then
        if prohibitedStringControl c false then Err (stringControlError raw i)
        else Ok (i + 1, builder_write b [c])
      else scanEscape raw i b
  else
    let c := raw !!! i in
    if c ≠b BSLASH then
      if crlf_at raw i then Ok (i + 2, builder_write b [CR; LF])
      else if prohibitedStringControl c true then Err (stringControlError raw i)
      else Ok (i + 1, builder_write b [c])
    else
      match skipEscapedMultilineStringWhitespace raw (i + 1) with
      | Some next => Ok (next, b)
      | None => scanEscape raw i b
      end.

Fixpoint scanBasicStringLoop (fuel : nat) (raw : bytes) (multiline : bool)
    (i : nat) (b : option bytes) : res (option bytes) :=
  match fuel with
  | 0 => Err OutOfFuel
  | S fuel =>
      if i <? length raw then
        let! (i, b) := scanBasicStringStep raw multiline i b in
        scanBasicStringLoop fuel raw multiline i b
      else Ok b
  end.

(** Every iteration consumes a byte, so [S (length raw)] iterations suffice. *)
Definition scanBasicStringBody (raw : bytes) (multiline : bool) (b : option bytes)
    : res (option bytes) :=
  scanBasicStringLoop (S (length raw)) raw multiline 0 b.

Definition validateBasicStringBody (raw : bytes) (multiline : bool) : res unit :=
  let! _ := scanBasicStringBody raw multiline None in Ok tt.

Definition parseBasicStringBody (raw : bytes) (multiline : bool) : res bytes :=
  if negb multiline && (ScanBasicStringStrict raw =? length raw) then Ok raw
  else if multiline && bool_decide (IndexByte raw BSLASH = None) then
    let! _ := validateStringControls raw true in Ok raw
  else
    let! b := scanBasicStringBody raw multiline (Some []) in
    Ok (default [] b).

(** ** String values *)

Definition parseStringValue (raw : bytes) : res bytes :=
  let! (body, kind) := stringValueBody raw in
  match kind with
  | stringValueLiteral => let! _ := validateLiteralStringBody body false in Ok body
  | stringValueMultilineLiteral => let! _ := validateLiteralStringBody body true in Ok body
  | stringValueBasic => parseBasicStringBody body false
  | stringValueMultilineBasic => parseBasicStringBody body true
  | stringValueMalformed => Err (malformedStringError raw)
  end.

Definition validateStringValue (raw : bytes) : res unit :=
  let! (body, kind) := stringValueBody raw in
  match kind with
  | stringValueLiteral => validateLiteralStringBody body false
  | stringValueMultilineLiteral => validateLiteralStringBody body true
  | stringValueBasic => validateBasicStringBody body false
  | stringValueMultilineBasic => validateBasicStringBody body true
  | stringValueMalformed => Err (malformedStringError raw)
  end.
End strings.

(** ** What the code accepts, declaratively (TomlStringSpec has the grammar of TOML)

    [basic_body multiline raw s]: the characters between the delimiters of a
    basic string spell [s].  [literal_body] is the same without escapes. *)

(** A byte that stands for itself. *)
Definition plain (multiline : bool) (c : Z) : Prop :=
  prohibitedStringControl c multiline = false.

Definition newline (s : bytes) : Prop := s = [LF] ∨ s = [CR; LF].

(** Blanks and newlines, as a line-ending backslash removes them. *)
Inductive trimmed : bytes → Prop :=
| trimmed_nil : trimmed []
| trimmed_blank c s : isBlank c = true → trimmed s → trimmed (c :: s)
| trimmed_newline nl s : newline nl → trimmed s → trimmed (nl ++ s).

(** Nothing more to trim. *)
Definition trim_stop (s : bytes) : Prop :=
  match s with
  | [] => True
  | c :: s' => isBlank c = false ∧ c ≠ LF ∧ ¬ (c = CR ∧ head s' = Some LF)
  end.

(** [e digits] is the escape of the scalar value [r]. *)
Definition unicode_escape (e : Z) (digits : bytes) (r : Z) : Prop :=
  unicodeEscapeDigits e = Some (length digits) ∧
  Forall (λ c, is_Some (hexDigitValue c)) digits ∧
  r = foldl (λ v c, v * 16 + default 0 (hexDigitValue c))%Z 0%Z digits ∧
  ValidRune r = true.

Inductive basic_body (multiline : bool) : bytes → bytes → Prop :=
| basic_nil : basic_body multiline [] []
| basic_plain c raw s :
    c ≠ BSLASH → plain multiline c →
    basic_body multiline raw s → basic_body multiline (c :: raw) (c :: s)
| basic_crlf raw s :
    multiline = true →
    basic_body multiline raw s → basic_body multiline (CR :: LF :: raw) (CR :: LF :: s)
| basic_escape e c raw s :
    simpleEscape e = Some c →
    basic_body multiline raw s → basic_body multiline (BSLASH :: e :: raw) (c :: s)
| basic_unicode e digits r raw s :
    unicode_escape e digits r →
    basic_body multiline raw s →
    basic_body multiline (BSLASH :: e :: digits ++ raw) (EncodeRune r ++ s)
| basic_continuation blanks nl ws raw s :
    multiline = true → Forall (λ c, isBlank c = true) blanks → newline nl →
    trimmed ws → trim_stop raw →
    basic_body multiline raw s →
    basic_body multiline (BSLASH :: blanks ++ nl ++ ws ++ raw) s.

Inductive literal_body (multiline : bool) : bytes → Prop :=
| literal_nil : literal_body multiline []
| literal_plain c raw : plain multiline c → literal_body multiline raw → literal_body multiline (c :: raw)
| literal_crlf raw :
    multiline = true → literal_body multiline raw → literal_body multiline (CR :: LF :: raw).

(** The string forms, with the newline after an opening tripled delimiter dropped. *)
Definition multiline_open (body trimmed : bytes) : Prop :=
  (∃ nl, newline nl ∧ body = nl ++ trimmed) ∨
  (body = trimmed ∧ ∀ nl t, newline nl → body ≠ nl ++ t).

Definition tripled (q : Z) (body : bytes) : bytes := [q; q; q] ++ body ++ [q; q; q].
Definition paired (q : Z) (body : bytes) : bytes := [q] ++ body ++ [q].

(** A literal that is not also a triple-delimited one. *)
Inductive string_value : bytes → bytes → Prop :=
| sv_mliteral body s :
    multiline_open body s → literal_body true s → string_value (tripled SQUOTE body) s
| sv_mbasic body t s :
    multiline_open body t → basic_body true t s → string_value (tripled DQUOTE body) s
| sv_literal body :
    (∀ b, paired SQUOTE body ≠ tripled SQUOTE b) → literal_body false body →
    string_value (paired SQUOTE body) body
| sv_basic body s :
    (∀ b, paired DQUOTE body ≠ tripled DQUOTE b) → basic_body false body s →
    string_value (paired DQUOTE body) s.

(** ** Lemmas *)

Lemma lookup_drop_cons (raw t : bytes) i c :
  drop i raw = c :: t → i < length raw ∧ raw !!! i = c ∧ drop (i + 1) raw = t.
Proof.
  intros H. assert (raw !! i = Some c) as Hi by (by rewrite <-(Nat.add_0_r i), <-lookup_drop, H).
  repeat split.
  - by apply lookup_lt_Some in Hi.
  - by apply list_lookup_total_correct.
  - rewrite <-drop_drop, H. done.
Qed.

Lemma drop_lookup_total (raw : bytes) i :
  i < length raw → drop i raw = raw !!! i :: drop (i + 1) raw.
Proof. intros. rewrite Nat.add_1_r. apply drop_S. by apply lookup_total_lt. Qed.

Lemma builder_write_nil b : builder_write b [] = b.
Proof. destruct b; simpl; by rewrite ?app_nil_r. Qed.

Lemma builder_write_app b s t :
  builder_write (builder_write b s) t = builder_write b (s ++ t).
Proof. destruct b; simpl; by rewrite ?app_assoc. Qed.

Lemma skipTrimmed_ge j s skip : j ≤ skipTrimmed j s skip.
Proof.
  revert j skip. induction s as [|c s IH]; intros j skip; simpl; [lia|].
  repeat case_match; try lia; (etrans; [|apply IH]); lia.
Qed.

Lemma skipTrimmed_le j s skip : skipTrimmed j s skip ≤ j + length s.
Proof.
  revert j skip. induction s as [|c s IH]; intros j skip; simpl; [lia|].
  repeat case_match; try lia; (etrans; [apply IH|]); lia.
Qed.

Lemma skipEscaped_bounds raw i next :
  skipEscapedMultilineStringWhitespace raw i = Some next → i < next ≤ length raw.
Proof.
  unfold skipEscapedMultilineStringWhitespace. intros H. repeat case_hyp H; simplify_eq.
  - match goal with |- context [skipTrimmed ?j ?s ?b] =>
      pose proof (skipTrimmed_ge j s b); pose proof (skipTrimmed_le j s b) end.
    rewrite length_drop in *. bool_lia.
  - match goal with |- context [skipTrimmed ?j ?s ?b] =>
      pose proof (skipTrimmed_ge j s b); pose proof (skipTrimmed_le j s b) end.
    rewrite length_drop in *. bool_lia.
Qed.

Lemma scanEscape_progress raw i b i' b' :
  scanEscape raw i b = Ok (i', b') → i < i'.
Proof.
  unfold scanEscape. intros H. repeat case_hyp H; simplify_eq; try lia.
  apply rbind_ok in H as (r & _ & [= <- <-]). lia.
Qed.

Section loop.
Context {K : ScanKernels} (raw : bytes) (ml : bool) (Hraw : Forall is_byte raw).
Implicit Types (i : nat) (b : option bytes).

Lemma strict_drop i : ScanBasicStringStrict (drop i raw) = find_stop basicStringStrictStop (drop i raw).
Proof using Hraw. apply ScanBasicStringStrict_ok. by apply Forall_drop. Qed.

(** What follows the run of ordinary bytes, at the new index. *)
Definition single_tail i b : res (nat * option bytes) :=
  if length raw <=? i then Ok (i, b)
  else if raw !!! i ≠b BSLASH then
    if prohibitedStringControl (raw !!! i) false then Err (stringControlError raw i)
    else Ok (i + 1, builder_write b [raw !!! i])
  else scanEscape raw i b.

Lemma step_single i b :
  i < length raw →
  scanBasicStringStep raw false i b =
    let n := find_stop basicStringStrictStop (drop i raw) in
    single_tail (i + n) (builder_write b (slice raw i (i + n))).
Proof using Hraw.
  intros Hi. unfold scanBasicStringStep, single_tail. simpl negb. cbv iota zeta.
  rewrite strict_drop. set (n := find_stop _ _).
  destruct (0 <? n) eqn:En; simpl.
  - done.
  - assert (n = 0) as -> by lia. rewrite Nat.add_0_r, slice_nil, builder_write_nil.
    by destruct (length raw <=? i) eqn:?; [lia|].
Qed.

Lemma step_progress i b i' b' :
  i < length raw → scanBasicStringStep raw ml i b = Ok (i', b') → i < i'.
Proof using Hraw.
  intros Hi. destruct ml.
  - unfold scanBasicStringStep. simpl. intros H. repeat case_hyp H; simplify_eq; try lia.
    + apply skipEscaped_bounds in E0. lia.
    + by eapply scanEscape_progress.
  - rewrite step_single by done. cbv zeta. set (n := find_stop _ _). intros H.
    unfold single_tail in H. repeat case_hyp H; simplify_eq; try lia.
    apply scanEscape_progress in H. lia.
Qed.

Lemma loop_fuel f1 f2 i b :
  length raw - i < f1 → length raw - i < f2 →
  scanBasicStringLoop f1 raw ml i b = scanBasicStringLoop f2 raw ml i b.
Proof using Hraw.
  revert f2 i b. induction f1 as [|f1 IH]; intros [|f2] i b H1 H2; try lia; simpl.
  destruct (i <? length raw) eqn:Hi; [|done].
  destruct (scanBasicStringStep raw ml i b) as [[i' b']|e] eqn:E; simpl; [|done].
  apply step_progress in E; [|lia]. apply IH; lia.
Qed.

(** The loop with fuel to spare. *)
Definition run i b : res (option bytes) :=
  scanBasicStringLoop (S (length raw - i)) raw ml i b.

Lemma run_end i b : length raw ≤ i → run i b = Ok b.
Proof using Type. intros. unfold run. simpl. by destruct (i <? length raw) eqn:?; [lia|]. Qed.

Lemma run_unfold i b :
  i < length raw →
  run i b = let! (i', b') := scanBasicStringStep raw ml i b in run i' b'.
Proof using Hraw.
  intros Hi. unfold run at 1. cbn [scanBasicStringLoop].
  destruct (i <? length raw) eqn:?; [|lia].
  destruct (scanBasicStringStep raw ml i b) as [[i' b']|e] eqn:E; simpl; [|done].
  apply step_progress in E; [|lia]. apply loop_fuel; lia.
Qed.

Lemma scanBasicStringBody_run b : scanBasicStringBody raw ml b = run 0 b.
Proof using Type. unfold scanBasicStringBody, run. by rewrite Nat.sub_0_r. Qed.

(** The cases of an iteration, one byte at a time. *)
Lemma run_char i b :
  i < length raw → raw !!! i ≠ BSLASH → ml && crlf_at raw i = false →
  prohibitedStringControl (raw !!! i) ml = false →
  run i b = run (i + 1) (builder_write b [raw !!! i]).
Proof using Hraw.
  intros Hi Hc Hcr Hp. apply Z.eqb_neq in Hc. destruct ml eqn:Eml.
  { rewrite run_unfold by done. rewrite Eml. unfold scanBasicStringStep. simpl in Hcr |- *.
    by rewrite Hc, Hcr, Hp. }
  rewrite run_unfold by done. rewrite Eml, step_single by done. cbv zeta.
  pose proof (drop_lookup_total raw i Hi) as Hd. rewrite Hd. cbn [find_stop].
  destruct (basicStringStrictStop (raw !!! i)) eqn:Estop.
  - rewrite Nat.add_0_r, slice_nil, builder_write_nil. unfold single_tail.
    destruct (length raw <=? i) eqn:?; [lia|]. by rewrite Hc, Hp.
  - set (m := find_stop _ (drop (i + 1) raw)).
    assert (m ≤ length raw - (i + 1)) as Hm
      by (subst m; rewrite <-length_drop; apply find_stop_le).
    replace (i + S m) with (i + 1 + m) by lia.
    rewrite <-(slice_app raw i (i + 1)), slice_one with (c := raw !!! i)
      by (lia || by apply lookup_total_lt).
    rewrite <-builder_write_app.
    destruct (decide (i + 1 < length raw)) as [Hlt|Hge].
    + rewrite (run_unfold (i + 1)) by done. rewrite Eml, step_single by done. done.
    + rewrite (run_end (i + 1)) by lia. assert (m = 0) as -> by lia.
      rewrite Nat.add_0_r, slice_nil, builder_write_nil. unfold single_tail.
      destruct (length raw <=? i + 1) eqn:?; [|lia]. simpl. by rewrite run_end by lia.
Qed.

(** A byte at which the run of ordinary bytes is empty. *)
Lemma step_single_stop i b :
  i < length raw → basicStringStrictStop (raw !!! i) = true →
  scanBasicStringStep raw false i b = single_tail i b.
Proof using Hraw.
  intros Hi Hs. rewrite step_single by done. rewrite drop_lookup_total by done. simpl.
  by rewrite Hs, Nat.add_0_r, slice_nil, builder_write_nil.
Qed.

Lemma run_control i b :
  i < length raw → raw !!! i ≠ BSLASH → ml && crlf_at raw i = false →
  prohibitedStringControl (raw !!! i) ml = true →
  run i b = Err (stringControlError raw i).
Proof using Hraw.
  intros Hi Hc Hcr Hp. apply Z.eqb_neq in Hc. rewrite run_unfold by done. destruct ml.
  - unfold scanBasicStringStep. simpl in Hcr |- *. by rewrite Hc, Hcr, Hp.
  - rewrite step_single_stop; [|done|].
    + unfold single_tail. destruct (length raw <=? i) eqn:?; [lia|]. by rewrite Hc, Hp.
    + unfold prohibitedStringControl in Hp. unfold basicStringStrictStop.
      destruct (raw !!! i =b TAB) eqn:Et; [done|]. simpl in Hp. lia.
Qed.

Lemma run_crlf i b :
  i < length raw → ml = true → crlf_at raw i = true →
  run i b = run (i + 2) (builder_write b [CR; LF]).
Proof using Hraw.
  intros Hi Hml Hcr. rewrite run_unfold by done. rewrite Hml. unfold scanBasicStringStep.
  simpl. rewrite Hcr. unfold crlf_at in Hcr.
  destruct (raw !!! i =b BSLASH) eqn:?; [bool_lia|done].
Qed.

Lemma run_continuation i b next :
  i < length raw → raw !!! i = BSLASH → ml = true →
  skipEscapedMultilineStringWhitespace raw (i + 1) = Some next →
  run i b = run next b.
Proof using Hraw.
  intros Hi Hc Hml Hskip. rewrite run_unfold by done. rewrite Hml. unfold scanBasicStringStep.
  simpl. by rewrite Hc, Hskip.
Qed.

Lemma run_escape i b :
  i < length raw → raw !!! i = BSLASH →
  (ml = true → skipEscapedMultilineStringWhitespace raw (i + 1) = None) →
  run i b = let! (i', b') := scanEscape raw i b in run i' b'.
Proof using Hraw.
  intros Hi Hc Hskip. rewrite run_unfold by done. destruct ml.
  - unfold scanBasicStringStep. simpl. by rewrite Hc, Hskip.
  - rewrite step_single_stop by (done || by rewrite Hc). unfold single_tail. rewrite Hc.
    by destruct (length raw <=? i) eqn:?; [lia|].
Qed.

(** The loop returns within its fuel. *)
Lemma scanEscape_no_fuel i b : scanEscape raw i b ≠ Err OutOfFuel.
Proof using Type.
  unfold scanEscape, parseUnicodeEscape. cbv zeta.
  repeat case_match; simpl; try done; by repeat case_match.
Qed.
End loop.

(** *** Line-ending backslashes *)

Lemma skipTrimmed_sound n : ∀ s j, length s ≤ n →
  ∃ ws rest, s = ws ++ rest ∧ trimmed ws ∧ trim_stop rest ∧
    skipTrimmed j s false = j + length ws.
Proof.
  induction n as [|n IH]; intros [|c s] j Hn; simpl in Hn; try lia;
    try (exists [], []; split_and!; [done|constructor|done|simpl; lia]).
  simpl. destruct (isBlank c || (c =b LF)) eqn:E1.
  - destruct (IH s (j + 1)) as (ws & rest & -> & Hws & Hrest & ->); [lia|].
    exists (c :: ws), rest. split_and!; [done| |done|simpl; lia].
    apply orb_true_iff in E1 as [E1| ->%Z.eqb_eq]; [by constructor|].
    apply (trimmed_newline [LF]); [by left|done].
  - apply orb_false_elim in E1 as [E1 E2]. apply Z.eqb_neq in E2.
    destruct s as [|d s]; rewrite ?andb_false_r.
    { exists [], [c]. split_and!; [done|constructor| |simpl; lia].
      simpl. split_and!; [done|done|]. by intros [_ ?]. }
    destruct ((c =b CR) && (d =b LF)) eqn:E3.
    + apply andb_prop in E3 as [->%Z.eqb_eq ->%Z.eqb_eq]. simpl.
      destruct (IH s (j + 1 + 1)) as (ws & rest & -> & Hws & Hrest & ->); [simpl in Hn; lia|].
      exists (CR :: LF :: ws), rest. split_and!; [done| |done|simpl; lia].
      apply (trimmed_newline [CR; LF]); [by right|done].
    + exists [], (c :: d :: s). split_and!; [done|constructor| |simpl; lia].
      simpl. split_and!; [done|done|]. intros [-> [= ->]]. done.
Qed.

Lemma skipTrimmed_complete ws rest j :
  trimmed ws → trim_stop rest → skipTrimmed j (ws ++ rest) false = j + length ws.
Proof.
  intros Hws Hrest. revert j. induction Hws as [|c ws Hc Hws IH|nl ws [->| ->] Hws IH]; intros j.
  - simpl. rewrite Nat.add_0_r. destruct rest as [|c s]; [done|]. simpl in *.
    destruct Hrest as (-> & Hc & Hcr). apply Z.eqb_neq in Hc. rewrite Hc. simpl.
    destruct s as [|d s]; rewrite ?andb_false_r; [done|].
    destruct (Z.eqb_spec c CR), (Z.eqb_spec d LF); simpl; try done. exfalso. naive_solver.
  - simpl. rewrite Hc. simpl. rewrite IH. lia.
  - simpl. rewrite IH. lia.
  - simpl. rewrite IH. lia.
Qed.

Lemma find_stop_blanks blanks t :
  Forall (λ c, isBlank c = true) blanks → head t ≠ Some SP → head t ≠ Some TAB →
  find_stop (λ c, negb (isBlank c)) (blanks ++ t) = length blanks.
Proof.
  intros Hb Hs Ht. induction Hb as [|c s Hc Hb IH]; simpl.
  - destruct t as [|c t]; [done|]. simpl in *. unfold isBlank.
    destruct (Z.eqb_spec c SP), (Z.eqb_spec c TAB); simpl; naive_solver.
  - by rewrite Hc, IH.
Qed.

Lemma skipEscaped_complete raw i blanks nl ws rest :
  drop i raw = blanks ++ nl ++ ws ++ rest →
  Forall (λ c, isBlank c = true) blanks → newline nl → trimmed ws → trim_stop rest →
  skipEscapedMultilineStringWhitespace raw i =
    Some (i + length blanks + length nl + length ws).
Proof.
  intros Hd Hb Hnl Hws Hrest. unfold skipEscapedMultilineStringWhitespace.
  rewrite Hd, find_stop_blanks by (done || by destruct Hnl as [-> | ->]).
  assert (drop (i + length blanks) raw = nl ++ ws ++ rest) as Hd2
    by (by rewrite <-drop_drop, Hd, drop_app_length).
  set (j := i + length blanks) in *.
  destruct Hnl as [-> | ->]; simpl in Hd2; apply lookup_drop_cons in Hd2 as (Hlt & Hj & Hd2).
  - rewrite Hj, Hd2, skipTrimmed_complete by done.
    destruct (j <? length raw) eqn:?; [|lia]. done.
  - apply lookup_drop_cons in Hd2 as (Hlt2 & Hj2 & Hd2). rewrite Hj, Hj2.
    replace (j + 2) with (j + 1 + 1) by lia. rewrite Hd2, skipTrimmed_complete by done.
    destruct (j + 1 <? length raw) eqn:?; [|lia]. simpl. rewrite andb_false_r. f_equal. lia.
Qed.

Lemma skipEscaped_sound raw i next :
  skipEscapedMultilineStringWhitespace raw i = Some next →
  ∃ blanks nl ws rest,
    drop i raw = blanks ++ nl ++ ws ++ rest ∧ Forall (λ c, isBlank c = true) blanks ∧
    newline nl ∧ trimmed ws ∧ trim_stop rest ∧ drop next raw = rest.
Proof.
  unfold skipEscapedMultilineStringWhitespace. set (n := find_stop _ _). intros H.
  assert (drop i raw = take n (drop i raw) ++ drop (i + n) raw) as Hd
    by (by rewrite <-drop_drop, take_drop).
  assert (Forall (λ c, isBlank c = true) (take n (drop i raw))) as Hb.
  { eapply Forall_impl; [apply find_stop_take|]. simpl. intros c. apply negb_false_iff. }
  repeat case_hyp H; simplify_eq.
  - apply andb_prop in E as [Hlt%Nat.ltb_lt Hc%Z.eqb_eq].
    rewrite (drop_lookup_total raw (i + n)), Hc in Hd by done.
    destruct (skipTrimmed_sound _ (drop (i + n + 1) raw) (i + n + 1) (le_n _))
      as (ws & rest & Heq & Hws & Hrest & ->).
    exists (take n (drop i raw)), [LF], ws, rest. rewrite Heq in Hd.
    split_and!; [done|done|by left|done|done|].
    rewrite <-drop_drop, Heq. by rewrite drop_app_length.
  - apply andb_prop in E0 as [[Hlt%Nat.ltb_lt Hc%Z.eqb_eq]%andb_prop Hc2%Z.eqb_eq].
    rewrite (drop_lookup_total raw (i + n)), Hc in Hd by lia.
    rewrite (drop_lookup_total raw (i + n + 1)), Hc2 in Hd by lia.
    replace (i + n + 1 + 1) with (i + n + 2) in Hd by lia.
    destruct (skipTrimmed_sound _ (drop (i + n + 2) raw) (i + n + 2) (le_n _))
      as (ws & rest & Heq & Hws & Hrest & ->).
    exists (take n (drop i raw)), [CR; LF], ws, rest. rewrite Heq in Hd.
    split_and!; [done|done|by right|done|done|].
    rewrite <-drop_drop, Heq. by rewrite drop_app_length.
Qed.

(** An escape character is neither blank nor a newline. *)
Lemma skipEscaped_None raw i e t :
  drop i raw = e :: t → isBlank e = false → e ≠ LF → e ≠ CR →
  skipEscapedMultilineStringWhitespace raw i = None.
Proof.
  intros Hd Hb HLF HCR. unfold skipEscapedMultilineStringWhitespace. rewrite Hd. simpl.
  rewrite Hb. simpl. rewrite Nat.add_0_r. apply lookup_drop_cons in Hd as (Hlt & -> & _).
  apply Z.eqb_neq in HLF, HCR. rewrite HLF, HCR. by rewrite !andb_false_r.
Qed.

(** *** Escapes *)

Lemma lor_shiftl_4 v n : (0 ≤ n < 16)%Z → Z.lor (Z.shiftl v 4) n = (v * 16 + n)%Z.
Proof.
  intros Hn. rewrite <-Z.add_nocarry_lor; [by rewrite Z.shiftl_mul_pow2 by lia|].
  apply Z.bits_inj'. intros k Hk. rewrite Z.land_spec, Z.bits_0.
  destruct (decide (k < 4)%Z).
  - by rewrite Z.shiftl_spec_low.
  - rewrite <-(Z.mod_small n (2 ^ 4)), Z.mod_pow2_bits_high by lia. apply andb_false_r.
Qed.

Lemma hexDigitValue_range c n : hexDigitValue c = Some n → (0 ≤ n < 16)%Z.
Proof. unfold hexDigitValue. intros H. repeat case_hyp H; simplify_eq; bool_lia. Qed.

Lemma hexDigitsValue_spec v s r :
  hexDigitsValue v s = Some r ↔
  Forall (λ c, is_Some (hexDigitValue c)) s ∧
  r = foldl (λ v c, v * 16 + default 0 (hexDigitValue c))%Z v s.
Proof.
  revert v. induction s as [|c s IH]; intros v; simpl.
  { split; [intros [= ->]; by split|by intros [_ ->]]. }
  rewrite Forall_cons. destruct (hexDigitValue c) as [n|] eqn:E; simpl.
  - rewrite IH, lor_shiftl_4 by (by eapply hexDigitValue_range). naive_solver.
  - split; [done|]. by intros [[[? ?] _] _].
Qed.

Lemma ValidRune_range r : ValidRune r = true → (0 ≤ r ≤ 0x10FFFF)%Z.
Proof. unfold ValidRune, MaxRune. lia. Qed.

Lemma parseUnicodeEscape_ok raw start digits r :
  parseUnicodeEscape raw start digits = Ok r ↔
  ∃ ds t, drop start raw = ds ++ t ∧ length ds = digits ∧ start + digits ≤ length raw ∧
    Forall (λ c, is_Some (hexDigitValue c)) ds ∧
    r = foldl (λ v c, v * 16 + default 0 (hexDigitValue c))%Z 0%Z ds ∧ ValidRune r = true.
Proof.
  unfold parseUnicodeEscape. destruct (length raw <? start + digits) eqn:Hlen.
  { split; [done|]. intros (ds & t & _ & _ & ? & _). lia. }
  assert (length (slice raw start (start + digits)) = digits) as Hsl
    by (rewrite length_slice; lia).
  split.
  - destruct (hexDigitsValue 0 _) as [v|] eqn:Hv; [|done].
    destruct (maxParseInt32 <b v); [done|]. destruct (ValidRune v) eqn:HV; [|done].
    intros [= ->]. apply hexDigitsValue_spec in Hv as [Hv1 Hv2].
    exists (slice raw start (start + digits)), (drop (start + digits) raw).
    split_and!; try done; try lia. unfold slice.
    replace (start + digits - start) with digits by lia. by rewrite <-drop_drop, take_drop.
  - intros (ds & t & Hd & Hl & _ & Hds & Hr & HV).
    assert (slice raw start (start + digits) = ds) as ->.
    { unfold slice. rewrite Hd. replace (start + digits - start) with (length ds) by lia.
      apply take_app_length. }
    rewrite (proj2 (hexDigitsValue_spec 0 ds r)) by done. pose proof (ValidRune_range _ HV).
    destruct (maxParseInt32 <b r) eqn:E; [unfold maxParseInt32 in E; lia|]. by rewrite HV.
Qed.

Lemma simpleEscape_not_unicode e c : simpleEscape e = Some c → unicodeEscapeDigits e = None.
Proof.
  unfold simpleEscape, unicodeEscapeDigits. intros H.
  destruct (Z.eqb_spec e cx) as [->|]; [done|]. destruct (Z.eqb_spec e cu) as [->|]; [done|].
  by destruct (Z.eqb_spec e cU) as [->|].
Qed.

Lemma unicodeEscape_not_simple e n : unicodeEscapeDigits e = Some n → simpleEscape e = None.
Proof.
  intros H. destruct (simpleEscape e) eqn:E; [|done].
  apply simpleEscape_not_unicode in E. congruence.
Qed.

Lemma escape_not_space e :
  is_Some (simpleEscape e) ∨ is_Some (unicodeEscapeDigits e) →
  isBlank e = false ∧ e ≠ LF ∧ e ≠ CR.
Proof.
  intros H. destruct (decide (e = SP ∨ e = TAB ∨ e = LF ∨ e = CR)) as [He|He].
  - exfalso. by destruct He as [-> |[-> |[-> | ->]]]; destruct H as [[? ?]|[? ?]].
  - unfold isBlank. lia.
Qed.

(** *** Soundness and completeness of the loop *)

Section grammar.
Context {K : ScanKernels} (raw : bytes) (ml : bool) (Hraw : Forall is_byte raw).

Lemma scanEscape_sound i acc i' b' :
  i < length raw → raw !!! i = BSLASH → scanEscape raw i (Some acc) = Ok (i', b') →
  ∃ w, b' = Some (acc ++ w) ∧
    ∀ s, basic_body ml (drop i' raw) s → basic_body ml (drop i raw) (w ++ s).
Proof using Type.
  intros Hi Hc. unfold scanEscape. destruct (length raw <=? i + 1) eqn:Hi1; [done|].
  rewrite (drop_lookup_total raw i), Hc, (drop_lookup_total raw (i + 1)) by lia.
  replace (i + 1 + 1) with (i + 2) by lia.
  destruct (simpleEscape (raw !!! (i + 1))) as [c|] eqn:Es.
  { intros [= <- <-]. exists [c]. split; [done|]. intros s Hs. by apply basic_escape. }
  destruct (unicodeEscapeDigits (raw !!! (i + 1))) as [n|] eqn:Eu; [|done].
  intros H. apply rbind_ok in H as (r & Hr & [= <- <-]). exists (EncodeRune r). split; [done|].
  apply parseUnicodeEscape_ok in Hr as (ds & t & Hd & Hl & _ & Hds & Hr & HV).
  assert (drop (i + 2 + n) raw = t) as ->
    by (by rewrite <-drop_drop, Hd, <-Hl, drop_app_length).
  intros s Hs. rewrite Hd. apply basic_unicode; [|done]. split_and!; try done. by rewrite Hl.
Qed.

Lemma run_sound n : ∀ i acc out,
  length raw - i ≤ n → run raw ml i (Some acc) = Ok out →
  ∃ s, basic_body ml (drop i raw) s ∧ out = Some (acc ++ s).
Proof using Hraw.
  induction n as [|n IH]; intros i acc out Hn Hrun.
  { rewrite run_end in Hrun by lia. injection Hrun as <-. exists [].
    rewrite drop_ge, app_nil_r by lia. split; [constructor|done]. }
  destruct (decide (i < length raw)) as [Hi|]; [|apply IH; [lia|done]].
  pose proof (drop_lookup_total raw i Hi) as Hd.
  destruct (decide (raw !!! i = BSLASH)) as [Hc|Hc].
  - destruct (if ml then skipEscapedMultilineStringWhitespace raw (i + 1) else None)
      as [next|] eqn:Hsk.
    + destruct ml eqn:Hml; [|done]. pose proof (skipEscaped_bounds _ _ _ Hsk).
      rewrite (run_continuation _ _ Hraw i _ next) in Hrun by done.
      apply IH in Hrun as (s & Hs & ->); [|lia]. exists s. split; [|done].
      apply skipEscaped_sound in Hsk as (bl & nl & ws & rest & Heq & ? & ? & ? & ? & Hnext).
      rewrite Hd, Hc, Heq. apply basic_continuation; try done. by rewrite <-Hnext.
    + rewrite run_escape in Hrun; [|done..|by intros Hml; rewrite Hml in Hsk].
      apply rbind_ok in Hrun as ([i' b'] & Hesc & Hrun).
      pose proof (scanEscape_progress _ _ _ _ _ Hesc).
      apply scanEscape_sound in Hesc as (w & -> & Hw); [|done..].
      apply IH in Hrun as (s & Hs & ->); [|lia]. exists (w ++ s).
      split; [by apply Hw|by rewrite app_assoc].
  - destruct (ml && crlf_at raw i) eqn:Hcr.
    + apply andb_prop in Hcr as [Hml Hcr]. rewrite run_crlf in Hrun by done.
      apply IH in Hrun as (s & Hs & ->); [|lia]. exists (CR :: LF :: s).
      split; [|by rewrite <-app_assoc].
      apply andb_prop in Hcr as [[H1%Z.eqb_eq H2%Nat.ltb_lt]%andb_prop H3%Z.eqb_eq].
      rewrite Hd, H1, (drop_lookup_total raw (i + 1)), H3 by done.
      apply basic_crlf; [done|]. by replace (i + 1 + 1) with (i + 2) by lia.
    + destruct (prohibitedStringControl (raw !!! i) ml) eqn:Hp.
      { by rewrite run_control in Hrun. }
      rewrite run_char in Hrun by done. apply IH in Hrun as (s & Hs & ->); [|lia].
      exists (raw !!! i :: s). split; [|by rewrite <-app_assoc].
      rewrite Hd. by apply basic_plain.
Qed.

Lemma run_complete t s : basic_body ml t s → ∀ i acc,
  drop i raw = t → run raw ml i (Some acc) = Ok (Some (acc ++ s)).
Proof using Hraw.
  induction 1 as [|c t s Hc Hp _ IH|t s Hml _ IH|e c t s He _ IH|e ds r t s He _ IH
                  |bl nl ws t s Hml Hbl Hnl Hws Ht _ IH]; intros i acc Hd.
  - apply (f_equal length) in Hd. rewrite length_drop in Hd. simpl in Hd.
    by rewrite run_end, app_nil_r by lia.
  - apply lookup_drop_cons in Hd as (Hi & Hci & Hd).
    rewrite run_char; [|done..|by rewrite Hci| |by rewrite Hci].
    + rewrite Hci. simpl. rewrite IH by done. by rewrite <-app_assoc.
    + unfold crlf_at, plain, prohibitedStringControl in *. rewrite Hci.
      destruct (Z.eqb_spec c CR) as [->|]; [|by rewrite andb_false_r]. by destruct ml.
  - apply lookup_drop_cons in Hd as (Hi & Hci & Hd). apply lookup_drop_cons in Hd as (Hi2 & Hci2 & Hd).
    rewrite run_crlf; [|done..|].
    + simpl. rewrite IH by (rewrite <-Hd; f_equal; lia). by rewrite <-app_assoc.
    + unfold crlf_at. rewrite Hci, Hci2. lia.
  - pose proof Hd as Hd0. apply lookup_drop_cons in Hd as (Hi & Hci & Hd).
    rewrite run_escape; [|done..|].
    + unfold scanEscape. pose proof Hd as Hd1. apply lookup_drop_cons in Hd1 as (Hi1 & -> & Hd1).
      destruct (length raw <=? i + 1) eqn:?; [lia|]. rewrite He. simpl.
      rewrite IH by (rewrite <-Hd1; f_equal; lia). by rewrite <-app_assoc.
    + intros _. destruct (escape_not_space e) as (? & ? & ?); [eauto|].
      by eapply skipEscaped_None.
  - apply lookup_drop_cons in Hd as (Hi & Hci & Hd). destruct He as (He & Hds & Hr & HV).
    rewrite run_escape; [|done..|].
    + unfold scanEscape. pose proof Hd as Hd1. apply lookup_drop_cons in Hd1 as (Hi1 & -> & Hd1).
      destruct (length raw <=? i + 1) eqn:?; [lia|]. rewrite (unicodeEscape_not_simple e _ He), He.
      replace (i + 1 + 1) with (i + 2) in Hd1 by lia.
      rewrite (proj2 (parseUnicodeEscape_ok raw (i + 2) (length ds) r)).
      * simpl. rewrite IH by (by rewrite <-drop_drop, Hd1, drop_app_length).
        by rewrite <-app_assoc.
      * exists ds, t. split_and!; try done.
        apply (f_equal length) in Hd1. rewrite length_drop, length_app in Hd1. lia.
    + intros _. destruct (escape_not_space e) as (? & ? & ?); [eauto|].
      by eapply skipEscaped_None.
  - apply lookup_drop_cons in Hd as (Hi & Hci & Hd).
    rewrite (run_continuation _ _ Hraw i _ (i + 1 + length bl + length nl + length ws));
      [|done..|by eapply skipEscaped_complete].
    apply IH. do 3 rewrite <-drop_drop. by rewrite Hd, !drop_app_length.
Qed.
End grammar.

(** *** Control characters *)

Section controls.
Context (raw : bytes) (ml : bool).

Abbreviation control_from i := (prohibitedStringControlIndex_loop raw ml i (drop i raw) false).

Lemma control_end i : length raw ≤ i → control_from i = None.
Proof using Type. intros. by rewrite drop_ge. Qed.

Lemma control_crlf i :
  i < length raw → ml && crlf_at raw i = true → control_from i = control_from (i + 2).
Proof using Type.
  intros Hi Hcr. rewrite drop_lookup_total by done. simpl. rewrite Hcr.
  unfold crlf_at in Hcr. rewrite (drop_lookup_total raw (i + 1)) by bool_lia. simpl.
  by replace (i + 1 + 1) with (i + 2) by lia.
Qed.

Lemma control_char i :
  i < length raw → ml && crlf_at raw i = false →
  control_from i =
    if prohibitedStringControl (raw !!! i) ml then Some i else control_from (i + 1).
Proof using Type. intros Hi Hcr. rewrite drop_lookup_total at 1 by done. simpl. by rewrite Hcr. Qed.

Lemma crlf_at_spec i :
  i < length raw → crlf_at raw i = true ↔ drop i raw = CR :: LF :: drop (i + 2) raw.
Proof using Type.
  intros Hi. split.
  - intros [[H1%Z.eqb_eq H2%Nat.ltb_lt]%andb_prop H3%Z.eqb_eq]%andb_prop.
    rewrite drop_lookup_total, H1, (drop_lookup_total raw (i + 1)), H3 by lia.
    by replace (i + 1 + 1) with (i + 2) by lia.
  - intros Hd. apply lookup_drop_cons in Hd as (_ & Hc & Hd).
    apply lookup_drop_cons in Hd as (? & Hc2 & _). unfold crlf_at. rewrite Hc, Hc2. lia.
Qed.

Lemma literal_body_control n : ∀ i, length raw - i ≤ n →
  control_from i = None ↔ literal_body ml (drop i raw).
Proof using Type.
  induction n as [|n IH]; intros i Hn.
  { rewrite control_end, drop_ge by lia. split; [constructor|done]. }
  destruct (decide (i < length raw)) as [Hi|]; [|apply IH; lia].
  destruct (ml && crlf_at raw i) eqn:Hcr.
  - rewrite control_crlf, IH by (done || lia). apply andb_prop in Hcr as [Hml Hcr].
    pose proof (proj1 (crlf_at_spec i Hi) Hcr) as Hd. rewrite Hd. split; [by constructor|].
    assert (¬ plain ml CR) as Hnp by (by rewrite Hml).
    intros HL. by inversion HL.
  - rewrite control_char by done. rewrite (drop_lookup_total raw i) by done. split.
    + destruct (prohibitedStringControl _ ml) eqn:Hp; [done|]. rewrite IH by lia. by constructor.
    + intros HL. inversion HL as [|c t Hp HL'|t Hml HL' [Hcrlf HLF]].
      * unfold plain in Hp. rewrite Hp. by apply IH; [lia|].
      * assert (crlf_at raw i = true) as Hcr2.
        { symmetry in HLF. apply lookup_drop_cons in HLF as (? & HLF & _).
          unfold crlf_at. rewrite <-Hcrlf, HLF. lia. }
        by rewrite Hcr2, Hml in Hcr.
Qed.
End controls.

(** *** The fast paths and the string forms *)

Section values.
Context {K : ScanKernels}.

(** Without a backslash the loop is the search for a prohibited control. *)
Lemma run_no_escape raw ml (Hraw : Forall is_byte raw) :
  Forall (λ c, c ≠ BSLASH) raw → ∀ n i b, length raw - i ≤ n →
  run raw ml i b =
    match prohibitedStringControlIndex_loop raw ml i (drop i raw) false with
    | Some idx => Err (stringControlError raw idx)
    | None => Ok (builder_write b (drop i raw))
    end.
Proof using Type.
  intros Hesc. induction n as [|n IH]; intros i b Hn.
  { by rewrite run_end, control_end, drop_ge, builder_write_nil by lia. }
  destruct (decide (i < length raw)) as [Hi|]; [|apply IH; lia].
  assert (raw !!! i ≠ BSLASH) as Hc
    by (apply (Forall_lookup_1 _ _ i _ Hesc); by apply lookup_total_lt).
  destruct (ml && crlf_at raw i) eqn:Hcr.
  - rewrite control_crlf by done. apply andb_prop in Hcr as [Hml Hcr].
    rewrite run_crlf, IH by (done || lia). rewrite (proj1 (crlf_at_spec raw i Hi) Hcr).
    by rewrite builder_write_app.
  - rewrite control_char by done. destruct (prohibitedStringControl _ _) eqn:Hp.
    + by rewrite run_control.
    + rewrite run_char, IH by (done || lia). rewrite (drop_lookup_total raw i Hi).
      by rewrite builder_write_app.
Qed.

Lemma strict_all_plain raw :
  find_stop basicStringStrictStop raw = length raw →
  Forall (λ c, c ≠ BSLASH) raw ∧ literal_body false raw.
Proof using Type.
  intros H%find_stop_all. split.
  - eapply Forall_impl; [exact H|]. unfold basicStringStrictStop. simpl. lia.
  - induction H as [|c s Hc Hs IH]; constructor; [|done].
    unfold plain, prohibitedStringControl. unfold basicStringStrictStop in Hc.
    destruct (c =b TAB) eqn:?; [done|]. simpl. lia.
Qed.

(** The fast paths of [parseBasicStringBody] agree with the escape loop, on
    errors as well. *)
Lemma parseBasicStringBody_scan raw ml :
  Forall is_byte raw →
  parseBasicStringBody raw ml =
    let! b := scanBasicStringBody raw ml (Some []) in Ok (default [] b).
Proof using Type.
  intros Hraw. unfold parseBasicStringBody. rewrite ScanBasicStringStrict_ok by done.
  destruct (negb ml && _) eqn:E1.
  { apply andb_prop in E1 as [Hml%negb_true_iff E1%Nat.eqb_eq]. subst ml.
    apply strict_all_plain in E1 as [Hesc Hlit].
    rewrite scanBasicStringBody_run, run_no_escape with (n := length raw) by (done || lia).
    rewrite (proj2 (literal_body_control raw false (length raw) 0 ltac:(lia))) by done.
    done. }
  destruct (ml && bool_decide (IndexByte raw BSLASH = None)) eqn:E2; [|done].
  apply andb_prop in E2 as [-> E2%bool_decide_eq_true].
  unfold IndexByte in E2. rewrite find_index_stop in E2. case_decide as Hstop; [|done].
  apply find_stop_all in Hstop.
  rewrite scanBasicStringBody_run, run_no_escape with (n := length raw); [|done| |lia].
  - unfold validateStringControls, prohibitedStringControlIndex. rewrite drop_0.
    by destruct (prohibitedStringControlIndex_loop _ _ _ _ _).
  - eapply Forall_impl; [exact Hstop|]. simpl. lia.
Qed.

Lemma parseBasicStringBody_iff raw ml s :
  Forall is_byte raw → parseBasicStringBody raw ml = Ok s ↔ basic_body ml raw s.
Proof using Type.
  intros Hraw. rewrite parseBasicStringBody_scan, scanBasicStringBody_run by done. split.
  - intros (b & Hb & [= <-])%rbind_ok.
    apply (run_sound _ _ Hraw (length raw)) in Hb as (t & Ht & ->); [done|lia].
  - intros Hs. by rewrite (run_complete _ _ Hraw raw s Hs 0 []).
Qed.

(** The loop writes the same whatever it is given to write to. *)
Lemma step_erase raw ml i b :
  scanBasicStringStep raw ml i None =
    let! (i', _) := scanBasicStringStep raw ml i (Some b) in Ok (i', None).
Proof using Type.
  unfold scanBasicStringStep, scanEscape. cbv zeta.
  repeat (case_match; try done); simpl; try done.
  all: by destruct (parseUnicodeEscape _ _ _).
Qed.

Lemma step_builder raw ml i b i' b' :
  scanBasicStringStep raw ml i (Some b) = Ok (i', b') → is_Some b'.
Proof using Type.
  unfold scanBasicStringStep, scanEscape. cbv zeta. simpl builder_write.
  intros H. repeat case_hyp H; simplify_eq/=; try done; eauto.
  all: by apply rbind_ok in H as (? & _ & [= _ <-]).
Qed.

Lemma loop_erase fuel raw ml : ∀ i b,
  scanBasicStringLoop fuel raw ml i None =
    let! _ := scanBasicStringLoop fuel raw ml i (Some b) in Ok None.
Proof using Type.
  induction fuel as [|fuel IH]; intros i b; simpl; [done|].
  destruct (i <? length raw); [|done]. rewrite (step_erase _ _ _ b).
  destruct (scanBasicStringStep raw ml i (Some b)) as [[i' b']|e] eqn:E; simpl; [|done].
  destruct (step_builder _ _ _ _ _ _ E) as [c ->]. apply IH.
Qed.

Lemma stringValueBody_bytes raw body kind :
  Forall is_byte raw → stringValueBody raw = Ok (body, kind) → Forall is_byte body.
Proof using Type.
  intros Hraw. unfold stringValueBody, trimInitialMultilineStringNewline, slice.
  intros H. repeat case_hyp H; simplify_eq; eauto using Forall_take, Forall_drop.
Qed.

(** *** Delimiters *)

Lemma lookup_total_at (s p t : bytes) c i : s = p ++ c :: t → i = length p → s !!! i = c.
Proof using Type. intros -> ->. by apply list_lookup_total_middle. Qed.

Lemma length_paired q body : length (paired q body) = length body + 2.
Proof using Type. unfold paired. rewrite !length_app. simpl. lia. Qed.

Lemma length_tripled q body : length (tripled q body) = length body + 6.
Proof using Type. unfold tripled. rewrite !length_app. simpl. lia. Qed.

Lemma hasPairDelimiter_paired q body : hasPairDelimiter (paired q body) q = true.
Proof using Type.
  unfold hasPairDelimiter. rewrite length_paired, !andb_true_iff, !Z.eqb_eq. split_and!; [lia|done|].
  apply (lookup_total_at _ ([q] ++ body) []); [unfold paired; by rewrite <-app_assoc|simpl; lia].
Qed.

Lemma hasTripleDelimiter_tripled q body : hasTripleDelimiter (tripled q body) q = true.
Proof using Type.
  unfold hasTripleDelimiter. rewrite length_tripled, !andb_true_iff, !Z.eqb_eq.
  split_and!; [lia|done..| | |].
  - apply (lookup_total_at _ ([q; q; q] ++ body ++ [q; q]) []);
      [unfold tripled; by rewrite <-!app_assoc|rewrite !length_app; simpl; lia].
  - apply (lookup_total_at _ ([q; q; q] ++ body ++ [q]) [q]);
      [unfold tripled; by rewrite <-!app_assoc|rewrite !length_app; simpl; lia].
  - apply (lookup_total_at _ ([q; q; q] ++ body) [q; q]);
      [unfold tripled; by rewrite <-!app_assoc|rewrite !length_app; simpl; lia].
Qed.

Lemma hasPairDelimiter_inv raw q :
  hasPairDelimiter raw q = true → raw = paired q (slice raw 1 (length raw - 1)).
Proof using Type.
  intros [[H2%Nat.leb_le H0%Z.eqb_eq]%andb_prop H1%Z.eqb_eq]%andb_prop.
  rewrite <-(slice_full raw) at 1.
  rewrite <-(slice_app raw 0 1), <-(slice_app raw 1 (length raw - 1)) by lia.
  rewrite (slice_one_at raw 0 1 q), (slice_one_at raw (length raw - 1) (length raw) q);
    try lia; [done|..]; rewrite lookup_total_lt by lia; by f_equal.
Qed.

Lemma slice_three (s : bytes) i q :
  i + 3 ≤ length s → s !!! i = q → s !!! (i + 1) = q → s !!! (i + 2) = q →
  slice s i (i + 3) = [q; q; q].
Proof using Type.
  intros Hi H0 H1 H2.
  rewrite <-(slice_app s i (i + 1)), <-(slice_app s (i + 1) (i + 2)) by lia.
  rewrite (slice_one_at s i (i + 1) q), (slice_one_at s (i + 1) (i + 2) q),
    (slice_one_at s (i + 2) (i + 3) q); try lia; [done|..]; rewrite lookup_total_lt by lia; by f_equal.
Qed.

Lemma hasTripleDelimiter_inv raw q :
  hasTripleDelimiter raw q = true → raw = tripled q (slice raw 3 (length raw - 3)).
Proof using Type.
  unfold hasTripleDelimiter. intros H. rewrite !andb_true_iff, !Z.eqb_eq in H.
  destruct H as ((((((Hn & H0) & H1) & H2) & H3) & H4) & H5).
  rewrite <-(slice_full raw) at 1.
  rewrite <-(slice_app raw 0 3), <-(slice_app raw 3 (length raw - 3)) by lia.
  change (slice raw 0 3) with (slice raw 0 (0 + 3)). rewrite (slice_three raw 0 q) by (done || lia).
  replace (slice raw (length raw - 3) (length raw)) with [q; q; q]; [done|].
  rewrite <-(slice_three raw (length raw - 3) q); [f_equal; lia|lia|done|..].
  - by replace (length raw - 3 + 1) with (length raw - 2) by lia.
  - by replace (length raw - 3 + 2) with (length raw - 1) by lia.
Qed.

Lemma slice_paired q body : slice (paired q body) 1 (length (paired q body) - 1) = body.
Proof using Type.
  unfold slice, paired. rewrite !length_app. simpl. rewrite drop_0.
  replace (length body + 1 - 0 - 1) with (length body) by lia. apply take_app_length.
Qed.

Lemma slice_tripled q body : slice (tripled q body) 3 (length (tripled q body) - 3) = body.
Proof using Type.
  unfold slice, tripled. rewrite !length_app. simpl. rewrite drop_0.
  replace (length body + 3 - 0 - 3) with (length body) by lia. apply take_app_length.
Qed.

Lemma multiline_open_trim body t :
  multiline_open body t ↔ t = trimInitialMultilineStringNewline body.
Proof using Type.
  unfold trimInitialMultilineStringNewline. split.
  - intros [(nl & [-> | ->] & ->)|[<- Hno]].
    + simpl. by destruct t.
    + simpl. by rewrite drop_0.
    + destruct body as [|c [|d s]]; [done|..]; cbn.
      * destruct (Z.eqb_spec c LF) as [->|]; [|done]. destruct (Hno [LF] []); [by left|done].
      * destruct (Z.eqb_spec c CR) as [->|]; [destruct (Z.eqb_spec d LF) as [->|]|]; cbn.
        -- destruct (Hno [CR; LF] s); [by right|done].
        -- done.
        -- destruct (Z.eqb_spec c LF) as [->|]; [|done]. destruct (Hno [LF] (d :: s)); [by left|done].
  - intros ->. case_match eqn:E1; [|case_match eqn:E2].
    + left. exists [CR; LF]. split; [by right|]. destruct body as [|c [|d s]]; [done..|].
      cbn in E1. rewrite andb_true_iff, !Z.eqb_eq in E1. destruct E1 as [-> ->].
      simpl. by rewrite drop_0.
    + left. exists [LF]. split; [by left|]. destruct body as [|c s]; [done|].
      cbn in E2. apply Z.eqb_eq in E2 as ->. simpl. by rewrite drop_0.
    + right. split; [done|]. intros nl t [-> | ->] ->; done.
Qed.

(** Which form a literal has. *)
Inductive string_form (raw : bytes) : bytes → stringValueKind → Prop :=
| form_mliteral b : raw = tripled SQUOTE b →
    string_form raw (trimInitialMultilineStringNewline b) stringValueMultilineLiteral
| form_mbasic b : raw = tripled DQUOTE b →
    string_form raw (trimInitialMultilineStringNewline b) stringValueMultilineBasic
| form_literal b : raw = paired SQUOTE b → (∀ t, raw ≠ tripled SQUOTE t) →
    string_form raw b stringValueLiteral
| form_basic b : raw = paired DQUOTE b → (∀ t, raw ≠ tripled DQUOTE t) →
    string_form raw b stringValueBasic.

Lemma hasTripleDelimiter_false raw q :
  (∀ t, raw ≠ tripled q t) → hasTripleDelimiter raw q = false.
Proof using Type.
  intros H. destruct (hasTripleDelimiter raw q) eqn:E; [|done].
  by destruct (H _ (hasTripleDelimiter_inv _ _ E)).
Qed.

Lemma stringValueBody_ok raw body kind :
  stringValueBody raw = Ok (body, kind) ↔ string_form raw body kind.
Proof using Type.
  unfold stringValueBody. split.
  - destruct (hasTripleDelimiter raw SQUOTE) eqn:E1; [|destruct (hasTripleDelimiter raw DQUOTE) eqn:E2;
      [|destruct (hasPairDelimiter raw SQUOTE) eqn:E3; [|destruct (hasPairDelimiter raw DQUOTE) eqn:E4;
      [|done]]]]; intros [= <- <-]; constructor.
    + by apply hasTripleDelimiter_inv.
    + by apply hasTripleDelimiter_inv.
    + by apply hasPairDelimiter_inv.
    + intros t ->. by rewrite hasTripleDelimiter_tripled in E1.
    + by apply hasPairDelimiter_inv.
    + intros t ->. by rewrite hasTripleDelimiter_tripled in E2.
  - intros [b ->|b ->|b -> Hno|b -> Hno].
    + by rewrite hasTripleDelimiter_tripled, slice_tripled.
    + by rewrite (hasTripleDelimiter_false _ SQUOTE), hasTripleDelimiter_tripled, slice_tripled.
    + by rewrite !hasTripleDelimiter_false, hasPairDelimiter_paired, slice_paired.
    + rewrite !hasTripleDelimiter_false by done.
      replace (hasPairDelimiter (paired DQUOTE b) SQUOTE) with false.
      * by rewrite hasPairDelimiter_paired, slice_paired.
      * unfold hasPairDelimiter. simpl. lia.
Qed.

Lemma validateStringControls_ok raw ml :
  validateStringControls raw ml = Ok tt ↔ literal_body ml raw.
Proof using Type.
  unfold validateStringControls, prohibitedStringControlIndex.
  rewrite <-(drop_0 raw) at 3. rewrite <-(literal_body_control raw ml (length raw)) by lia.
  rewrite drop_0. by destruct (prohibitedStringControlIndex_loop _ _ _ _ _).
Qed.

Lemma parseStringValue_sound raw s :
  Forall is_byte raw → parseStringValue raw = Ok s → string_value raw s.
Proof using Type.
  intros Hraw ([body kind] & Hb & H)%rbind_ok. pose proof (stringValueBody_bytes _ _ _ Hraw Hb).
  apply stringValueBody_ok in Hb. destruct Hb as [b Hr|b Hr|b Hr Hno|b Hr Hno]; rewrite Hr.
  - apply rbind_ok in H as ([] & Hv%validateStringControls_ok & [= <-]).
    apply sv_mliteral; [by apply multiline_open_trim|done].
  - apply parseBasicStringBody_iff in H; [|done].
    eapply sv_mbasic; [by apply multiline_open_trim|done].
  - apply rbind_ok in H as ([] & Hv%validateStringControls_ok & [= <-]).
    apply sv_literal; [by rewrite <-Hr|done].
  - apply parseBasicStringBody_iff in H; [|done]. apply sv_basic; [by rewrite <-Hr|done].
Qed.

(** A literal of the grammar, seen as the body and kind the code computes. *)
Lemma string_value_form raw s :
  string_value raw s → ∃ body kind, string_form raw body kind ∧
    match kind with
    | stringValueLiteral => literal_body false body ∧ s = body
    | stringValueMultilineLiteral => literal_body true body ∧ s = body
    | stringValueBasic => basic_body false body s
    | stringValueMultilineBasic => basic_body true body s
    | stringValueMalformed => False
    end.
Proof using Type.
  intros [b t Ho%multiline_open_trim Hl|b t u Ho%multiline_open_trim Hb|b Hno Hl|b u Hno Hb]; subst.
  - eexists _, _. split; [by apply form_mliteral|done].
  - eexists _, _. split; [by apply form_mbasic|done].
  - eexists _, _. split; [by apply form_literal|done].
  - eexists _, _. split; [by apply form_basic|done].
Qed.

Lemma parseStringValue_complete raw s :
  Forall is_byte raw → string_value raw s → parseStringValue raw = Ok s.
Proof using Type.
  intros Hraw (body & kind & Hb%stringValueBody_ok & Hk)%string_value_form.
  pose proof (stringValueBody_bytes _ _ _ Hraw Hb) as Hbody.
  unfold parseStringValue, validateLiteralStringBody. rewrite Hb. simpl. destruct kind; simpl in Hk.
  - done.
  - destruct Hk as [Hk%validateStringControls_ok ->]. by rewrite Hk.
  - destruct Hk as [Hk%validateStringControls_ok ->]. by rewrite Hk.
  - by apply parseBasicStringBody_iff.
  - by apply parseBasicStringBody_iff.
Qed.

Lemma step_no_fuel raw ml i b : scanBasicStringStep raw ml i b ≠ Err OutOfFuel.
Proof using Type.
  unfold scanBasicStringStep. cbv zeta.
  repeat case_match; try done; apply scanEscape_no_fuel.
Qed.

Lemma run_no_fuel raw ml (Hraw : Forall is_byte raw) n : ∀ i b,
  length raw - i ≤ n → run raw ml i b ≠ Err OutOfFuel.
Proof using Type.
  induction n as [|n IH]; intros i b Hn; [by rewrite run_end by lia|].
  destruct (decide (i < length raw)) as [Hi|]; [|by rewrite run_end by lia].
  rewrite run_unfold by done. pose proof (step_no_fuel raw ml i b) as Hs.
  destruct (scanBasicStringStep raw ml i b) as [[i' b']|e] eqn:E; simpl; [|congruence].
  apply step_progress in E; [|done..]. apply IH. lia.
Qed.

Lemma parseStringValue_no_fuel raw :
  Forall is_byte raw → parseStringValue raw ≠ Err OutOfFuel.
Proof using Type.
  intros Hraw. unfold parseStringValue, validateLiteralStringBody, validateStringControls.
  destruct (stringValueBody raw) as [[body kind]|e] eqn:Hb; simpl.
  - pose proof (stringValueBody_bytes _ _ _ Hraw Hb) as Hbody.
    destruct kind; try (by destruct (prohibitedStringControlIndex _ _)); [done|..];
      rewrite parseBasicStringBody_scan, scanBasicStringBody_run by done;
      match goal with |- context [run ?r ?m ?i ?b] =>
        pose proof (run_no_fuel r m Hbody (length r) i b ltac:(lia));
        destruct (run r m i b); simpl; congruence
      end.
  - unfold stringValueBody in Hb. by repeat case_hyp Hb; simplify_eq.
Qed.

Lemma validateStringValue_parse_value raw :
  Forall is_byte raw → validateStringValue raw = let! _ := parseStringValue raw in Ok tt.
Proof using Type.
  intros Hraw. unfold validateStringValue, parseStringValue.
  destruct (stringValueBody raw) as [[body kind]|e] eqn:Hb; [|done]. cbn [rbind].
  pose proof (stringValueBody_bytes _ _ _ Hraw Hb) as Hbody.
  unfold validateLiteralStringBody, validateBasicStringBody, scanBasicStringBody.
  destruct kind; [done|..];
    try (by destruct (validateStringControls body _) as [[]|]);
    rewrite parseBasicStringBody_scan by done; unfold scanBasicStringBody;
    rewrite (loop_erase _ _ _ 0 []); by destruct (scanBasicStringLoop _ _ _ _ _).
Qed.

(** Validating a string literal without building its value accepts and
    rejects exactly as parsing it does, with the same error. *)
Theorem validateStringValue_parse raw :
  Forall is_byte raw → validateStringValue raw = let! _ := parseStringValue raw in Ok tt.
Proof using Type. apply validateStringValue_parse_value. Qed.

Abbreviation ascii c := (0 ≤ c < 0x80)%Z.

Lemma valid_utf8_ascii_prefix p t :
  Forall (λ c, ascii c) p → valid_utf8 (p ++ t) → valid_utf8 t.
Proof using Type.
  induction 1 as [|c p Hc _ IH]; [done|]. intros Hv. apply IH.
  by apply (valid_utf8_split [] c (p ++ t)).
Qed.

Lemma simpleEscape_ascii e c : simpleEscape e = Some c → ascii e ∧ ascii c.
Proof using Type. unfold simpleEscape. intros H. repeat case_hyp H; simplify_eq; lia. Qed.

Lemma unicode_escape_ascii e ds r : unicode_escape e ds r → Forall (λ c, ascii c) (e :: ds).
Proof using Type.
  intros (He & Hds & _). constructor.
  - unfold unicodeEscapeDigits in He. repeat case_hyp He; simplify_eq; lia.
  - eapply Forall_impl; [exact Hds|]. intros c [n Hn]. unfold hexDigitValue in Hn.
    repeat case_hyp Hn; simplify_eq; bool_lia.
Qed.

Lemma newline_ascii nl : newline nl → Forall (λ c, ascii c) nl.
Proof using Type. intros [-> | ->]; repeat constructor; lia. Qed.

Lemma blanks_ascii bl : Forall (λ c, isBlank c = true) bl → Forall (λ c, ascii c) bl.
Proof using Type. intros H. eapply Forall_impl; [exact H|]. unfold isBlank. simpl. lia. Qed.

Lemma trimmed_ascii ws : trimmed ws → Forall (λ c, ascii c) ws.
Proof using Type.
  induction 1 as [|c s Hc _ IH|nl s Hnl _ IH]; [constructor| |].
  - constructor; [|done]. unfold isBlank in Hc. lia.
  - apply Forall_app. split; [by apply newline_ascii|done].
Qed.

Lemma valid_utf8_rune r : ValidRune r = true → valid_utf8 (EncodeRune r).
Proof using Type.
  intros. exists [r]. split; [by repeat constructor|]. unfold encoded. simpl. by rewrite app_nil_r.
Qed.

(** Bytes pending from a partly read character are completed by the body. *)
Lemma basic_body_utf8 ml raw s :
  basic_body ml raw s → ∀ pre, valid_utf8 (pre ++ raw) → valid_utf8 (pre ++ s).
Proof using Type.
  assert (∀ pre p t, Forall (λ c, ascii c) p → valid_utf8 (pre ++ BSLASH :: p ++ t) →
    valid_utf8 pre ∧ valid_utf8 ([] ++ t)) as Hcut.
  { intros pre p t Hp Hv. apply valid_utf8_split in Hv as [Hpre Hv]; [|lia].
    split; [done|]. by eapply valid_utf8_ascii_prefix. }
  induction 1 as [|c t s Hc Hp _ IH|t s Hml _ IH|e c t s He _ IH|e ds r t s He _ IH
                  |bl nl ws t s Hml Hbl Hnl Hws Ht _ IH]; intros pre Hv.
  - done.
  - rewrite cons_middle, app_assoc in Hv |- *. by apply IH.
  - change (CR :: LF :: t) with ([CR; LF] ++ t) in Hv.
    change (CR :: LF :: s) with ([CR; LF] ++ s). rewrite app_assoc in Hv |- *. by apply IH.
  - apply simpleEscape_ascii in He as [He Hc].
    apply (Hcut pre [e] t) in Hv as [Hpre Hv]; [|by apply Forall_singleton].
    apply valid_utf8_app; [done|].
    apply (valid_utf8_app [c]); [by apply valid_utf8_ascii|by apply (IH [])].
  - apply (Hcut pre (e :: ds) t) in Hv as [Hpre Hv]; [|by eapply unicode_escape_ascii].
    destruct He as (_ & _ & _ & HV). apply valid_utf8_app; [done|].
    apply valid_utf8_app; [by apply valid_utf8_rune|by apply (IH [])].
  - rewrite (app_assoc nl), (app_assoc bl) in Hv.
    apply Hcut in Hv as [Hpre Hv]; [|rewrite !Forall_app; split_and!;
      [by apply blanks_ascii|by apply newline_ascii|by apply trimmed_ascii]].
    apply valid_utf8_app; [done|by apply (IH [])].
Qed.

(** the value of a string literal taken from valid UTF-8 source is valid
    UTF-8, whatever escapes it uses. *)
Theorem parseStringValue_utf8 raw s :
  Forall is_byte raw → valid_utf8 raw → parseStringValue raw = Ok s → valid_utf8 s.
Proof using Type.
  intros Hraw Hv Hs. apply parseStringValue_sound in Hs; [|done].
  assert (∀ q b, ascii q → valid_utf8 (paired q b) → valid_utf8 b) as Hpair.
  { intros q b Hq H. apply (valid_utf8_split [] q) in H as [_ H]; [|done].
    by apply valid_utf8_split in H as [H _]. }
  assert (∀ q b, ascii q → valid_utf8 (tripled q b) → valid_utf8 b) as Htriple.
  { intros q b Hq H. apply (valid_utf8_ascii_prefix [q; q; q]) in H; [|by rewrite !Forall_cons].
    by apply valid_utf8_split in H as [H _]. }
  assert (∀ b t, multiline_open b t → valid_utf8 b → valid_utf8 t) as Hopen.
  { intros b t [(nl & Hnl & ->)|[-> _]] H; [|done].
    apply newline_ascii in Hnl. by eapply valid_utf8_ascii_prefix. }
  destruct Hs as [b t Ho _|b t u Ho Hb|b _ _|b t _ Hb].
  - by eapply Hopen, (Htriple SQUOTE).
  - apply (basic_body_utf8 _ _ _ Hb []). by eapply Hopen, (Htriple DQUOTE).
  - by apply (Hpair SQUOTE).
  - apply (basic_body_utf8 _ _ _ Hb []). by apply (Hpair DQUOTE).
Qed.
End values.

(** The literal [["A", BS, "u0042 "]] used by the witnesses. *)
Definition sample_literal : bytes :=
  Eval vm_compute in [DQUOTE] ++ str "AB 	" ++ [DQUOTE].

Lemma sample_literal_bytes : Forall is_byte sample_literal.
Proof. by apply (bool_decide_unpack _). Defined.

Lemma validateStringValue_parse_witness :
  validateStringValue (K := swar_kernels) sample_literal = Ok tt.
Proof.
  rewrite (validateStringValue_parse (K := swar_kernels) sample_literal sample_literal_bytes).
  by vm_compute.
Defined.

Lemma parseStringValue_utf8_witness : valid_utf8 (str "AB " ++ [TAB]).
Proof.
  apply (parseStringValue_utf8 (K := swar_kernels) sample_literal).
  - exact sample_literal_bytes.
  - exists sample_literal. split; [by apply (bool_decide_unpack _)|by vm_compute].
  - by vm_compute.
Defined.
