(* ===== verification/TomlStringSpec.v ===== *)
(** The string literals of TOML, written from the ABNF of the language (toml.abnf of
    TOML 1.1, byte by byte) and apart from the code, and what [parseStringValue] of
    pkg/toml (value.go) makes of them. *)
From S2P Require Import Prelude GoUtf8 Scan TomlBase TomlString.

(** ** The grammar *)

Definition wschar (c : Z) : Prop := (c = 0x09 ∨ c = 0x20)%Z.

(** [basic-unescaped] and [literal-char]; bytes from 0x80 on belong to [non-ascii]. *)
Definition basic_unescaped (c : Z) : Prop :=
  wschar c ∨ (c = 0x21 ∨ 0x23 ≤ c ≤ 0x5B ∨ 0x5D ≤ c ≤ 0x7E ∨ 0x80 ≤ c)%Z.
Definition literal_char (c : Z) : Prop := (c = 0x09 ∨ 0x20 ≤ c ≤ 0x26 ∨ 0x28 ≤ c ≤ 0x7E ∨ 0x80 ≤ c)%Z.

(** [escape-seq-char]: the letter and the character it stands for, and the number of
    hexadecimal digits of a code point. *)
Definition escapes : list (Z * Z) :=
  [(0x22, 0x22); (0x5C, 0x5C); (0x62, 0x08); (0x65, 0x1B); (0x66, 0x0C); (0x6E, 0x0A); (0x72, 0x0D); (0x74, 0x09)]%Z.
Definition code_points : list (Z * nat) := [(0x78%Z, 2); (0x75%Z, 4); (0x55%Z, 8)].

Definition hex_value (c v : Z) : Prop :=
  (0x30 ≤ c ≤ 0x39 ∧ v = c - 0x30 ∨ 0x41 ≤ c ≤ 0x46 ∧ v = c - 0x37 ∨ 0x61 ≤ c ≤ 0x66 ∧ v = c - 0x57)%Z.
Definition scalar_value (r : Z) : Prop := (0 ≤ r ≤ 0xD7FF ∨ 0xE000 ≤ r ≤ 0x10FFFF)%Z.

(** White space and newlines, which a backslash at the end of a line takes away up to the
    next other character. *)
Inductive ws_newlines : bytes → Prop :=
| wn_nil : ws_newlines []
| wn_ws c s : wschar c → ws_newlines s → ws_newlines (c :: s)
| wn_newline nl s : newline nl → ws_newlines s → ws_newlines (nl ++ s).

Definition starts_with_ws (s : bytes) : Prop :=
  (∃ c t, wschar c ∧ s = c :: t) ∨ (∃ nl t, newline nl ∧ s = nl ++ t).

(** [toml_basic ml k raw s]: behind [k] unescaped quotation marks, [raw] is the rest of
    the body of a basic string and spells [s].  A one-line string ([ml = false]) has no
    unescaped quotation mark, a multi-line one at most two in a row. *)
Inductive toml_basic (ml : bool) : nat → bytes → bytes → Prop :=
| tb_nil k : toml_basic ml k [] []
| tb_quote k raw s : ml = true → k < 2 → toml_basic ml (S k) raw s → toml_basic ml k (0x22%Z :: raw) (0x22%Z :: s)
| tb_char k c raw s : basic_unescaped c → toml_basic ml 0 raw s → toml_basic ml k (c :: raw) (c :: s)
| tb_newline k nl raw s : ml = true → newline nl → toml_basic ml 0 raw s → toml_basic ml k (nl ++ raw) (nl ++ s)
| tb_escape k e c raw s : (e, c) ∈ escapes → toml_basic ml 0 raw s → toml_basic ml k (0x5C%Z :: e :: raw) (c :: s)
| tb_code_point k e digits vs r raw s :
    (e, length digits) ∈ code_points → Forall2 hex_value digits vs → r = foldl (λ a v, a * 16 + v)%Z 0%Z vs → scalar_value r →
    toml_basic ml 0 raw s → toml_basic ml k (0x5C%Z :: e :: digits ++ raw) (EncodeRune r ++ s)
| tb_escaped_newline k blanks nl ws raw s :
    ml = true → Forall wschar blanks → newline nl → ws_newlines ws → ¬ starts_with_ws raw →
    toml_basic ml 0 raw s → toml_basic ml k (0x5C%Z :: blanks ++ nl ++ ws ++ raw) s.

Inductive toml_literal (ml : bool) : nat → bytes → Prop :=
| tl_nil k : toml_literal ml k []
| tl_quote k raw : ml = true → k < 2 → toml_literal ml (S k) raw → toml_literal ml k (0x27%Z :: raw)
| tl_char k c raw : literal_char c → toml_literal ml 0 raw → toml_literal ml k (c :: raw)
| tl_newline k nl raw : ml = true → newline nl → toml_literal ml 0 raw → toml_literal ml k (nl ++ raw).

(** The newline right behind an opening delimiter is not part of the string. *)
Definition opened (body t : bytes) : Prop :=
  (∃ nl, newline nl ∧ body = nl ++ t) ∨ (t = body ∧ ¬ ∃ nl t', newline nl ∧ body = nl ++ t').

Inductive toml_string : bytes → bytes → Prop :=
| ts_basic body s : toml_basic false 0 body s → toml_string ([0x22%Z] ++ body ++ [0x22%Z]) s
| ts_literal body : toml_literal false 0 body → toml_string ([0x27%Z] ++ body ++ [0x27%Z]) body
| ts_ml_basic body t s :
    opened body t → toml_basic true 0 t s →
    toml_string ([0x22; 0x22; 0x22]%Z ++ body ++ [0x22; 0x22; 0x22]%Z) s
| ts_ml_literal body t :
    opened body t → toml_literal true 0 t →
    toml_string ([0x27; 0x27; 0x27]%Z ++ body ++ [0x27; 0x27; 0x27]%Z) t.

(** ** Where a literal ends

    A literal is closed by the first unescaped delimiter: there are at most [limit]
    unescaped marks [q] in a row before it, [run] of them just behind us. *)
Fixpoint marks_within (escaping : bool) (q : Z) (limit run : nat) (s : bytes) : bool :=
  match s with
  | [] => true
  | c :: s =>
      if (c =b q) then (run <? limit) && marks_within escaping q limit (S run) s
      else if escaping && (c =b 0x5C) then
        match s with _ :: s => marks_within escaping q limit 0 s | [] => true end
      else marks_within escaping q limit 0 s
  end.

Definition closed_at_end (raw : bytes) : Prop :=
  ∃ q body, (q = DQUOTE ∨ q = SQUOTE) ∧
    (raw = paired q body ∧ marks_within (q =b DQUOTE) q 0 0 body = true ∨
     raw = tripled q body ∧ marks_within (q =b DQUOTE) q 2 0 body = true).

(** ** The grammar against the tables of the code *)

Lemma wschar_blank c : wschar c ↔ isBlank c = true.
Proof. unfold wschar, isBlank. lia. Qed.

Lemma basic_plain_iff ml c :
  is_byte c → (c ≠ BSLASH ∧ plain ml c) ↔ (c = DQUOTE ∨ basic_unescaped c ∨ ml = true ∧ c = LF).
Proof. unfold is_byte, plain, prohibitedStringControl, basic_unescaped, wschar. destruct ml; cbn [andb]; intros; repeat case_match; lia. Qed.

Lemma literal_plain_iff ml c :
  is_byte c → plain ml c ↔ (c = SQUOTE ∨ literal_char c ∨ ml = true ∧ c = LF).
Proof. unfold is_byte, plain, prohibitedStringControl, literal_char. destruct ml; cbn [andb]; intros; repeat case_match; lia. Qed.

Lemma escapes_iff e c : (e, c) ∈ escapes ↔ simpleEscape e = Some c.
Proof.
  unfold escapes, simpleEscape. rewrite !elem_of_cons, elem_of_nil. split.
  - intros H. repeat (destruct H as [H|H]; [injection H as -> ->; reflexivity|]). done.
  - intros H. repeat case_hyp H; simplify_eq; repeat match goal with E : (_ =b _) = true |- _ => apply Z.eqb_eq in E end; subst; tauto.
Qed.

Lemma code_points_iff e n : (e, n) ∈ code_points ↔ unicodeEscapeDigits e = Some n.
Proof.
  unfold code_points, unicodeEscapeDigits. rewrite !elem_of_cons, elem_of_nil. split.
  - intros H. repeat (destruct H as [H|H]; [injection H as -> ->; reflexivity|]). done.
  - intros H. repeat case_hyp H; simplify_eq; repeat match goal with E : (_ =b _) = true |- _ => apply Z.eqb_eq in E end; subst; tauto.
Qed.

Lemma hex_value_iff c v : hex_value c v ↔ hexDigitValue c = Some v.
Proof.
  unfold hex_value, hexDigitValue. split.
  - intros H. repeat case_match; first [f_equal; lia|exfalso; lia].
  - intros H. repeat case_hyp H; simplify_eq; lia.
Qed.

Lemma scalar_value_iff r : scalar_value r ↔ ValidRune r = true.
Proof. unfold scalar_value, ValidRune, MaxRune. lia. Qed.

Lemma code_point_iff e digits r :
  unicode_escape e digits r ↔
  (e, length digits) ∈ code_points ∧ (∃ vs, Forall2 hex_value digits vs ∧ r = foldl (λ a v, a * 16 + v)%Z 0%Z vs) ∧ scalar_value r.
Proof.
  unfold unicode_escape. rewrite code_points_iff, scalar_value_iff.
  enough (∀ a, (Forall (λ c, is_Some (hexDigitValue c)) digits ∧ r = foldl (λ v c, v * 16 + default 0 (hexDigitValue c))%Z a digits) ↔
    ∃ vs, Forall2 hex_value digits vs ∧ r = foldl (λ a v, a * 16 + v)%Z a vs) as Hd by (rewrite <-(Hd 0%Z); tauto).
  induction digits as [|c digits IH]; intros a.
  - split; [intros [_ ->]; by exists []|]. intros (vs & ->%Forall2_nil_inv_l & ->). by split; [constructor|].
  - rewrite Forall_cons. cbn [foldl]. split.
    + intros [[[v Hv] Hds] Hr]. rewrite Hv in Hr. destruct (proj1 (IH (a * 16 + v)%Z) (conj Hds Hr)) as (vs & Hvs & ->).
      exists (v :: vs). split; [constructor; [by apply hex_value_iff|done]|done].
    + intros (vs & Hvs & ->). apply Forall2_cons_inv_l in Hvs as (v & vs' & Hv%hex_value_iff & Hvs & ->).
      destruct (proj2 (IH (a * 16 + v)%Z) (ex_intro _ vs' (conj Hvs eq_refl))) as [Hds Hr].
      split; [split; [by rewrite Hv|done]|]. rewrite Hv. exact Hr.
Qed.

Lemma ws_newlines_iff ws : ws_newlines ws ↔ trimmed ws.
Proof.
  split; induction 1; try constructor; try done; by apply wschar_blank.
Qed.

Lemma starts_with_ws_iff s : ¬ starts_with_ws s ↔ trim_stop s.
Proof.
  unfold starts_with_ws, trim_stop. destruct s as [|c s].
  - split; [done|]. intros _ [(c & t & _ & [=])|(nl & t & [-> | ->] & [=])].
  - split.
    + intros Hn. split_and!.
      * destruct (isBlank c) eqn:E; [|done]. exfalso. apply Hn. left. exists c, s. split; [by apply wschar_blank|done].
      * intros ->. apply Hn. right. exists [LF], s. split; [by left|done].
      * intros [-> Hh]. destruct s as [|d s]; [done|]. injection Hh as ->. apply Hn. right. exists [CR; LF], s. split; [by right|done].
    + intros (Hb & Hlf & Hcr) [(d & t & Hd%wschar_blank & [= -> ->])|(nl & t & [-> | ->] & [= -> ->])]; [congruence|done|by apply Hcr].
Qed.

(** ** Bodies *)

Lemma toml_basic_body ml k raw s : toml_basic ml k raw s → Forall is_byte raw → basic_body ml raw s.
Proof.
  induction 1 as [k|k raw s Hml Hk _ IH|k c raw s Hc _ IH|k nl raw s Hml Hnl _ IH|k e c raw s He _ IH
    |k e ds vs r raw s He Hd Hr Hv _ IH|k bl nl ws raw s Hml Hbl Hnl Hws Hst _ IH]; intros Hb.
  - constructor.
  - apply Forall_cons in Hb as [Hb1 Hb]. assert (DQUOTE ≠ BSLASH ∧ plain ml DQUOTE) as [? ?] by (apply basic_plain_iff; [done|by left]).
    apply basic_plain; auto.
  - apply Forall_cons in Hb as [Hb1 Hb]. assert (c ≠ BSLASH ∧ plain ml c) as [? ?] by (apply basic_plain_iff; [done|by right; left]).
    apply basic_plain; auto.
  - apply Forall_app in Hb as [_ Hb]. destruct Hnl as [-> | ->]; cbn [app].
    + subst ml. apply basic_plain; [done|done|auto].
    + apply basic_crlf; auto.
  - apply Forall_cons in Hb as [_ [_ Hb]%Forall_cons]. apply basic_escape; [by apply escapes_iff|auto].
  - apply Forall_cons in Hb as [_ [_ [_ Hb]%Forall_app]%Forall_cons]. apply basic_unicode; [|auto].
    apply code_point_iff. split_and!; [done|by exists vs|done].
  - apply Forall_cons in Hb as [_ [_ [_ [_ Hb]%Forall_app]%Forall_app]%Forall_app]. apply basic_continuation; auto.
    + eapply Forall_impl; [exact Hbl|]. intros c. apply wschar_blank.
    + by apply ws_newlines_iff.
    + by apply starts_with_ws_iff.
Qed.

Lemma toml_literal_body ml k raw : toml_literal ml k raw → Forall is_byte raw → literal_body ml raw.
Proof.
  induction 1 as [k|k raw Hml Hk _ IH|k c raw Hc _ IH|k nl raw Hml Hnl _ IH]; intros Hb.
  - constructor.
  - apply Forall_cons in Hb as [Hb1 Hb]. apply literal_plain; [|auto]. apply literal_plain_iff; [done|by left].
  - apply Forall_cons in Hb as [Hb1 Hb]. apply literal_plain; [|auto]. apply literal_plain_iff; [done|by right; left].
  - apply Forall_app in Hb as [_ Hb]. destruct Hnl as [-> | ->]; cbn [app].
    + subst ml. apply literal_plain; [done|auto].
    + apply literal_crlf; auto.
Qed.

Definition limit (ml : bool) : nat := if ml then 2 else 0.

(** Bytes that are neither the mark nor a backslash. *)
Lemma marks_skip escaping q n run p s :
  p ≠ [] → Forall (λ c, c ≠ q ∧ (escaping = true → c ≠ 0x5C%Z)) p →
  marks_within escaping q n run (p ++ s) = marks_within escaping q n 0 s.
Proof.
  intros Hne Hp. revert run. induction Hp as [|c p [Hc He] Hp IH]; intros run; [done|].
  cbn [app marks_within]. rewrite (proj2 (Z.eqb_neq c q) Hc).
  assert (escaping && (c =b 0x5C) = false) as ->.
  { destruct escaping; [|done]. cbn. apply Z.eqb_neq. auto. }
  destruct p; [done|]. by apply IH.
Qed.

Lemma marks_one escaping q n run c s :
  c ≠ q → (escaping = true → c ≠ 0x5C%Z) → marks_within escaping q n run (c :: s) = marks_within escaping q n 0 s.
Proof. intros. apply (marks_skip escaping q n run [c]); [done|by repeat constructor]. Qed.

Lemma newline_marks escaping q nl : newline nl → q = DQUOTE ∨ q = SQUOTE → nl ≠ [] ∧ Forall (λ c, c ≠ q ∧ (escaping = true → c ≠ 0x5C%Z)) nl.
Proof. intros [-> | ->] [-> | ->]; (split; [done|]); repeat constructor; done. Qed.

Lemma marks_escape q n run e s : q ≠ 0x5C%Z → marks_within true q n run (0x5C%Z :: e :: s) = marks_within true q n 0 s.
Proof. intros Hq. cbn [marks_within]. by rewrite (proj2 (Z.eqb_neq 0x5C q)) by congruence. Qed.

Lemma wschar_marks q l : Forall wschar l → q = DQUOTE ∨ q = SQUOTE → Forall (λ c, c ≠ q ∧ (true = true → c ≠ 0x5C%Z)) l.
Proof. intros Hl Hq. eapply Forall_impl; [exact Hl|]. unfold wschar. cbn. lia. Qed.

Lemma ws_newlines_marks q l : ws_newlines l → q = DQUOTE ∨ q = SQUOTE → Forall (λ c, c ≠ q ∧ (true = true → c ≠ 0x5C%Z)) l.
Proof.
  intros Hl Hq. induction Hl as [|c s Hc _ IH|nl s Hnl _ IH]; [done| |].
  - constructor; [unfold wschar in Hc; lia|done].
  - apply Forall_app. split; [by apply newline_marks|done].
Qed.

Lemma hex_marks digits vs : Forall2 hex_value digits vs → Forall (λ c, c ≠ DQUOTE ∧ (true = true → c ≠ 0x5C%Z)) digits.
Proof. induction 1 as [|c v ds vs Hc _ IH]; constructor; [unfold hex_value in Hc; lia|done]. Qed.

(** What follows a backslash before white space and a newline. *)
Lemma marks_continuation n run bl nl ws raw :
  Forall wschar bl → newline nl → ws_newlines ws →
  marks_within true DQUOTE n run (0x5C%Z :: bl ++ nl ++ ws ++ raw) = marks_within true DQUOTE n 0 raw.
Proof.
  intros Hbl Hnl Hws.
  assert (∃ e t, bl ++ nl ++ ws = e :: t ∧ Forall (λ c, c ≠ DQUOTE ∧ (true = true → c ≠ 0x5C%Z)) t) as (e & t & Ht & Hf).
  { assert (Forall (λ c, c ≠ DQUOTE ∧ (true = true → c ≠ 0x5C%Z)) (bl ++ nl ++ ws)) as Hf.
    { rewrite !Forall_app. split_and!; [apply wschar_marks; auto|apply newline_marks; auto|apply ws_newlines_marks; auto]. }
    destruct (bl ++ nl ++ ws) as [|e t] eqn:E; [destruct bl, Hnl as [-> | ->]; done|]. apply Forall_cons in Hf as [_ Hf]. by exists e, t. }
  replace (bl ++ nl ++ ws ++ raw) with (e :: t ++ raw) by (change (e :: t ++ raw) with ((e :: t) ++ raw); by rewrite <-Ht, <-!app_assoc).
  rewrite marks_escape by done. destruct t as [|c t]; [done|]. by apply marks_skip.
Qed.

(** The bodies of the grammar have their marks within the limit ... *)
Lemma toml_basic_marks ml k raw s : toml_basic ml k raw s → marks_within true DQUOTE (limit ml) k raw = true.
Proof.
  induction 1 as [k|k raw s Hml Hk _ IH|k c raw s Hc _ IH|k nl raw s Hml Hnl _ IH|k e c raw s He _ IH
    |k e ds vs r raw s He Hd Hr Hv _ IH|k bl nl ws raw s Hml Hbl Hnl Hws Hst _ IH].
  - done.
  - cbn [marks_within]. rewrite Z.eqb_refl, IH, andb_true_r. subst ml. by apply Nat.ltb_lt.
  - unfold basic_unescaped, wschar in Hc. rewrite marks_one; [done|lia|lia].
  - rewrite marks_skip; [done|apply (newline_marks true DQUOTE); auto..].
  - by rewrite marks_escape.
  - rewrite marks_escape by done. destruct ds as [|d ds]; [done|]. rewrite marks_skip; [done|done|]. by eapply hex_marks.
  - by rewrite marks_continuation.
Qed.

Lemma toml_literal_marks ml k raw : toml_literal ml k raw → marks_within false SQUOTE (limit ml) k raw = true.
Proof.
  induction 1 as [k|k raw Hml Hk _ IH|k c raw Hc _ IH|k nl raw Hml Hnl _ IH].
  - done.
  - cbn [marks_within]. rewrite Z.eqb_refl, IH, andb_true_r. subst ml. by apply Nat.ltb_lt.
  - unfold literal_char in Hc. rewrite marks_one; [done|lia|done].
  - rewrite marks_skip; [done|apply (newline_marks false SQUOTE); auto..].
Qed.

(** ... and what the code accepts, with its marks within the limit, is in the grammar. *)
Lemma basic_body_toml ml raw s :
  basic_body ml raw s → ∀ k, Forall is_byte raw → marks_within true DQUOTE (limit ml) k raw = true → toml_basic ml k raw s.
Proof.
  induction 1 as [|c raw s Hc Hp _ IH|raw s Hml _ IH|e c raw s He _ IH|e ds r raw s He _ IH
    |bl nl ws raw s Hml Hbl Hnl Hws Hst _ IH]; intros k Hb Hm.
  - constructor.
  - apply Forall_cons in Hb as [Hb1 Hb]. destruct (proj1 (basic_plain_iff ml c Hb1) (conj Hc Hp)) as [->|[Hu|[Hml ->]]].
    + cbn [marks_within] in Hm. rewrite Z.eqb_refl in Hm. apply andb_true_iff in Hm as [Hk%Nat.ltb_lt Hm].
      destruct ml; cbn [limit] in Hk; [|lia]. apply tb_quote; [done|done|auto].
    + apply tb_char; [done|]. apply IH; [done|]. unfold basic_unescaped, wschar in Hu. rewrite marks_one in Hm; [done|lia|lia].
    + apply (tb_newline ml k [LF]); [done|by left|]. apply IH; [done|].
      by rewrite marks_one in Hm.
  - apply Forall_cons in Hb as [_ [_ Hb]%Forall_cons]. apply (tb_newline ml k [CR; LF]); [done|by right|]. apply IH; [done|].
    by rewrite !marks_one in Hm.
  - apply Forall_cons in Hb as [_ [_ Hb]%Forall_cons]. apply tb_escape; [by apply escapes_iff|]. apply IH; [done|].
    by rewrite marks_escape in Hm.
  - apply Forall_cons in Hb as [_ [_ [_ Hb]%Forall_app]%Forall_cons]. apply code_point_iff in He as (He & (vs & Hvs & ->) & Hv).
    eapply tb_code_point; [done|done|done|done|]. apply IH; [done|]. rewrite marks_escape in Hm by done.
    destruct ds as [|d ds]; [done|]. rewrite marks_skip in Hm; [done|done|]. by eapply hex_marks.
  - apply Forall_cons in Hb as [_ [_ [_ [_ Hb]%Forall_app]%Forall_app]%Forall_app].
    assert (Forall wschar bl) as Hbl' by (eapply Forall_impl; [exact Hbl|]; intros c; apply wschar_blank).
    apply ws_newlines_iff in Hws. rewrite marks_continuation in Hm by done.
    apply tb_escaped_newline; [done..|by apply starts_with_ws_iff|auto].
Qed.

Lemma literal_body_toml ml raw :
  literal_body ml raw → ∀ k, Forall is_byte raw → marks_within false SQUOTE (limit ml) k raw = true → toml_literal ml k raw.
Proof.
  induction 1 as [|c raw Hp _ IH|raw Hml _ IH]; intros k Hb Hm.
  - constructor.
  - apply Forall_cons in Hb as [Hb1 Hb]. destruct (proj1 (literal_plain_iff ml c Hb1) Hp) as [->|[Hu|[Hml ->]]].
    + cbn [marks_within] in Hm. rewrite Z.eqb_refl in Hm. apply andb_true_iff in Hm as [Hk%Nat.ltb_lt Hm].
      destruct ml; cbn [limit] in Hk; [|lia]. apply tl_quote; [done|done|auto].
    + apply tl_char; [done|]. apply IH; [done|]. unfold literal_char in Hu. rewrite marks_one in Hm; [done|lia|done].
    + apply (tl_newline ml k [LF]); [done|by left|]. apply IH; [done|].
      by rewrite marks_one in Hm.
  - apply Forall_cons in Hb as [_ [_ Hb]%Forall_cons]. apply (tl_newline ml k [CR; LF]); [done|by right|]. apply IH; [done|].
    by rewrite !marks_one in Hm.
Qed.

Lemma opened_iff body t : opened body t ↔ multiline_open body t.
Proof. unfold opened, multiline_open. naive_solver. Qed.

Lemma opened_marks body t escaping q n :
  opened body t → q = DQUOTE ∨ q = SQUOTE → marks_within escaping q n 0 body = marks_within escaping q n 0 t.
Proof.
  intros [(nl & Hnl & ->)|[-> _]] Hq; [|done].
  destruct (newline_marks escaping q nl Hnl Hq). by apply marks_skip.
Qed.

(** ** Literals *)

Lemma paired_bytes q body : Forall is_byte (paired q body) → Forall is_byte body.
Proof. unfold paired. rewrite !Forall_app. tauto. Qed.

Lemma tripled_bytes q body : Forall is_byte (tripled q body) → Forall is_byte body.
Proof. unfold tripled. rewrite !Forall_app. tauto. Qed.

Lemma opened_bytes body t : opened body t → Forall is_byte body → Forall is_byte t.
Proof. intros [(nl & _ & ->)|[-> _]]; [rewrite Forall_app; tauto|done]. Qed.

Lemma paired_inj q q' b b' : paired q b = paired q' b' → q = q' ∧ b = b'.
Proof. unfold paired. cbn. intros [= -> H]. apply app_inj_tail in H. naive_solver. Qed.

Lemma tripled_inj q q' b b' : tripled q b = tripled q' b' → q = q' ∧ b = b'.
Proof.
  intros H. assert (q = q') as -> by (unfold tripled in H; cbn in H; congruence). split; [done|].
  unfold tripled in H. by apply app_inv_head, app_inv_tail in H.
Qed.

(** A tripled literal, read as a paired one, has an unescaped mark first. *)
Lemma tripled_not_paired q q' b b' escaping :
  paired q b = tripled q' b' → marks_within escaping q 0 0 b = true → False.
Proof.
  unfold paired, tripled. cbn. intros [= -> H] Hm.
  destruct b as [|c b]; cbn in H; [by destruct b'|]. injection H as -> _. cbn [marks_within] in Hm. by rewrite Z.eqb_refl in Hm.
Qed.

Lemma toml_string_sound raw s : Forall is_byte raw → toml_string raw s → string_value raw s ∧ closed_at_end raw.
Proof.
  intros Hb H. destruct H as [body s H|body H|body t s Ho H|body t Ho H].
  - assert (marks_within true DQUOTE 0 0 body = true) as Hm by apply (toml_basic_marks _ _ _ _ H). split.
    + apply sv_basic; [|apply (toml_basic_body _ _ _ _ H), (paired_bytes DQUOTE), Hb].
      intros b Heq. by eapply tripled_not_paired.
    + exists DQUOTE, body. split; [by left|]. by left.
  - assert (marks_within false SQUOTE 0 0 body = true) as Hm by apply (toml_literal_marks _ _ _ H). split.
    + apply sv_literal; [|apply (toml_literal_body _ _ _ H), (paired_bytes SQUOTE), Hb].
      intros b Heq. by eapply tripled_not_paired.
    + exists SQUOTE, body. split; [by right|]. by left.
  - pose proof (tripled_bytes DQUOTE _ Hb) as Hb'. split.
    + eapply sv_mbasic; [by apply opened_iff|]. eapply toml_basic_body; [done|]. by eapply opened_bytes.
    + exists DQUOTE, body. split; [by left|]. right. split; [done|]. rewrite (opened_marks body t) by (done || by left).
      apply (toml_basic_marks _ _ _ _ H).
  - pose proof (tripled_bytes SQUOTE _ Hb) as Hb'. split.
    + eapply sv_mliteral; [by apply opened_iff|]. eapply toml_literal_body; [done|]. by eapply opened_bytes.
    + exists SQUOTE, body. split; [by right|]. right. split; [done|]. rewrite (opened_marks body t) by (done || by right).
      apply (toml_literal_marks _ _ _ H).
Qed.

Lemma toml_string_complete raw s : Forall is_byte raw → string_value raw s → closed_at_end raw → toml_string raw s.
Proof.
  intros Hb Hs (q & b & Hq & Hc). destruct Hs as [body s Ho H|body t s Ho H|body Hno H|body s Hno H].
  - destruct Hc as [[Heq Hm]|[[<- <-]%tripled_inj Hm]]; [symmetry in Heq; exfalso; by eapply tripled_not_paired|].
    apply opened_iff in Ho. apply (ts_ml_literal body s Ho). apply literal_body_toml; [done|eapply opened_bytes; [done|by eapply tripled_bytes]|].
    by rewrite <-(opened_marks body s).
  - destruct Hc as [[Heq Hm]|[[<- <-]%tripled_inj Hm]]; [symmetry in Heq; exfalso; by eapply tripled_not_paired|].
    apply opened_iff in Ho. apply (ts_ml_basic body t s Ho). apply basic_body_toml; [done|eapply opened_bytes; [done|by eapply tripled_bytes]|].
    by rewrite <-(opened_marks body t).
  - destruct Hc as [[[<- <-]%paired_inj Hm]|[Heq _]].
    + apply (ts_literal body). apply literal_body_toml; [done|by eapply paired_bytes|done].
    + exfalso. assert (q = SQUOTE) as -> by (unfold paired, tripled in Heq; cbn in Heq; congruence). by eapply Hno.
  - destruct Hc as [[[<- <-]%paired_inj Hm]|[Heq _]].
    + apply (ts_basic body). apply basic_body_toml; [done|by eapply paired_bytes|done].
    + exfalso. assert (q = DQUOTE) as -> by (unfold paired, tripled in Heq; cbn in Heq; congruence). by eapply Hno.
Qed.

Section values.
Context {K : ScanKernels}.

(** C25: [parseStringValue] accepts every string literal of the TOML grammar and returns
    the string it spells, and it accepts no other literal that ends where its first
    unescaped closing delimiter does; it always returns. *)
Theorem parseStringValue_iff raw :
  Forall is_byte raw →
  (∀ s, toml_string raw s ↔ parseStringValue raw = Ok s ∧ closed_at_end raw) ∧ parseStringValue raw ≠ Err OutOfFuel.
Proof using Type.
  intros Hraw. split; [|by apply parseStringValue_no_fuel]. intros s. split.
  - intros [Hs Hc]%toml_string_sound; [|done]. split; [by apply parseStringValue_complete|done].
  - intros [Hs%parseStringValue_sound Hc]; [|done]. by apply toml_string_complete.
Qed.
End values.

Lemma parseStringValue_iff_witness :
  parseStringValue (K := swar_kernels) sample_literal = Ok (str "AB " ++ [TAB]) ∧
  toml_string sample_literal (str "AB " ++ [TAB]).
Proof.
  split; [by vm_compute|].
  apply (proj1 (parseStringValue_iff (K := swar_kernels) sample_literal sample_literal_bytes)).
  split; [by vm_compute|]. exists DQUOTE, (slice sample_literal 1 (length sample_literal - 1)).
  split; [by left|]. left. by vm_compute.
Defined.

(** An unescaped mark inside a literal is not refused here: the scanner of the decoder
    has cut the literal at its first one. *)
Example inner_mark_accepted :
  parseStringValue (K := swar_kernels) (paired DQUOTE (str "a" ++ [DQUOTE] ++ str "b")) = Ok (str "a" ++ [DQUOTE] ++ str "b").
Proof. by vm_compute. Qed.
