(* ===== verification/TomlNumber.v ===== *)
(** Number literals of [pkg/toml] (value.go, decoder.go): classification of bare
    values, integers at 64 bits and floats, against the TOML grammar of
    integers. *)
From Stdlib Require Import Floats.SpecFloat.
From S2P Require Import Prelude GoStrconv Swar Scan TomlBase Datetime.

(** ** Byte helpers *)

Definition lowerASCII (b : Z) : Z := if (cA ≤b b) && (b ≤b cZ) then (b + (ca - cA))%Z else b.

Definition trimSignBytes (raw : bytes) : bytes :=
  match raw with
  | c :: n => if (c =b PLUS) || (c =b MINUS) then n else raw
  | [] => raw
  end.

Definition numericDigitValue (c : Z) : option Z :=
  if (c0 ≤b c) && (c ≤b c9) then Some (c - c0)%Z
  else if (ca ≤b c) && (c ≤b cf) then Some (c - ca + 10)%Z
  else if (cA ≤b c) && (c ≤b cF) then Some (c - cA + 10)%Z
  else None.

(** ** Classification of integers *)

Definition validPrefixedDigit (c prefix : Z) : bool :=
  if prefix =b cb then (c =b c0) || (c =b c1)
  else if prefix =b co then (c0 ≤b c) && (c ≤b c7)
  else if prefix =b cx then
    ((c0 ≤b c) && (c ≤b c9)) || ((ca ≤b c) && (c ≤b cf)) || ((cA ≤b c) && (c ≤b cF))
  else false.

Definition edge_underscore (raw : bytes) : bool :=
  (length raw =? 0) || (raw !!! 0 =b UNDERSCORE) || (raw !!! (length raw - 1) =b UNDERSCORE).

(** The loop at index [i], with [s = raw[i:]]. *)
Fixpoint prefixedDigits_loop (raw : bytes) (prefix : Z) (i : nat) (s : bytes) (prevUnderscore : bool) : bool :=
  match s with
  | [] => true
  | c :: s' =>
      if c =b UNDERSCORE then
        if prevUnderscore || (i =? 0) || (length raw <=? i + 1) ||
           negb (validPrefixedDigit (raw !!! (i - 1)) prefix) ||
           negb (validPrefixedDigit (raw !!! (i + 1)) prefix)
        then false
        else prefixedDigits_loop raw prefix (i + 1) s' true
      else if negb (validPrefixedDigit c prefix) then false
      else prefixedDigits_loop raw prefix (i + 1) s' false
  end.

Definition prefixedDigitsValidBytes (raw : bytes) (prefix : Z) : bool :=
  if edge_underscore raw then false else prefixedDigits_loop raw prefix 0 raw false.

Fixpoint numberUnderscores_loop (raw : bytes) (i : nat) (s : bytes) (prevUnderscore : bool) : bool :=
  match s with
  | [] => true
  | c :: s' =>
      if c ≠b UNDERSCORE then numberUnderscores_loop raw (i + 1) s' false
      else if prevUnderscore || (i =? 0) || (length raw <=? i + 1) then false
      else
        let prev := raw !!! (i - 1) in
        let next := raw !!! (i + 1) in
        if (prev <b c0) || (c9 <b prev) then false
        else if (next <b c0) || (c9 <b next) then false
        else numberUnderscores_loop raw (i + 1) s' true
  end.

Definition hasValidNumberUnderscoresBytes (raw : bytes) : bool :=
  if edge_underscore raw then false else numberUnderscores_loop raw 0 raw false.

Definition isIntCandidateBytes (raw : bytes) : bool :=
  if length raw =? 0 then false
  else
    let n := trimSignBytes raw in
    if length n =? 0 then false
    else if (2 <=? length n) && (n !!! 0 =b c0) && (n !!! 1 =b UNDERSCORE) then false
    else
      let p := lowerASCII (n !!! 1) in
      if (2 <? length n) && (n !!! 0 =b c0) && ((p =b cb) || (p =b co) || (p =b cx)) then
        if (raw !!! 0 =b PLUS) || (raw !!! 0 =b MINUS) then false
        else prefixedDigitsValidBytes (drop 2 n) p
      else if (1 <? length n) && (n !!! 0 =b c0) && (c0 ≤b n !!! 1) && (n !!! 1 ≤b c9) then false
      else if forallb (λ b, isDigit b || (b =b UNDERSCORE)) n then hasValidNumberUnderscoresBytes n
      else false.

Definition hasCapitalNumericPrefixBytes (raw : bytes) : bool :=
  let n := trimSignBytes raw in
  (1 <? length n) && (n !!! 0 =b c0) &&
  ((n !!! 1 =b cB) || (n !!! 1 =b cO) || (n !!! 1 =b cX)).

(** ** Integers *)

(** [int64(u)] of a uint64. *)
Definition int64 (u : Z) : Z := if u <b 2 ^ 63 then u else (u - 2 ^ 64)%Z.

(** The loop of [parseUintLiteralDigits]; [u] and [limit] are uint64. *)
Fixpoint parseUint_loop (s : bytes) (base limit u : Z) (sawDigit : bool) : res Z :=
  match s with
  | [] => if sawDigit then Ok u else Err ErrSyntax
  | c :: s' =>
      if c =b UNDERSCORE then parseUint_loop s' base limit u sawDigit
      else
        match numericDigitValue c with
        | None => Err ErrSyntax
        | Some d =>
            if base ≤b d then Err ErrSyntax
            else if (w64 (limit - d) / base)%Z <b u then Err ErrRange
            else parseUint_loop s' base limit (w64 (u * base + d)) true
        end
  end.

Definition parseUintLiteralDigits (raw : bytes) (base limit : Z) : res Z :=
  if length raw =? 0 then Err ErrSyntax else parseUint_loop raw base limit 0 false.

Definition splitSign (raw : bytes) : Z * bytes :=
  match raw with
  | c :: text =>
      if c =b PLUS then (1%Z, text) else if c =b MINUS then ((-1)%Z, text) else (1%Z, raw)
  | [] => (1%Z, raw)
  end.

Definition splitBase (text : bytes) : Z * bytes :=
  if (2 <? length text) && (text !!! 0 =b c0) then
    let p := text !!! 1 in
    if (p =b cb) || (p =b cB) then (2%Z, drop 2 text)
    else if (p =b co) || (p =b cO) then (8%Z, drop 2 text)
    else if (p =b cx) || (p =b cX) then (16%Z, drop 2 text)
    else (10%Z, text)
  else (10%Z, text).

Definition parseIntegerLiteral (raw : bytes) : res Z :=
  let '(sign, text) := splitSign raw in
  let '(base, text) := splitBase text in
  let limit := (if sign <b 0 then 2 ^ 63 else 2 ^ 63 - 1)%Z in
  let! u := parseUintLiteralDigits text base limit in
  if sign <b 0 then
    if u =b 2 ^ 63 then Ok (- 2 ^ 63)%Z else Ok (- int64 u)%Z
  else Ok (int64 u).

(** ** Floats *)

Definition infLiteral := str "inf".
Definition posInfLiteral := str "+inf".
Definition negInfLiteral := str "-inf".
Definition nanLiteral := str "nan".
Definition posNanLiteral := str "+nan".
Definition negNanLiteral := str "-nan".

Definition isSpecialFloatBytes (raw : bytes) : bool :=
  bytes_eqb raw infLiteral || bytes_eqb raw posInfLiteral || bytes_eqb raw negInfLiteral ||
  bytes_eqb raw nanLiteral || bytes_eqb raw posNanLiteral || bytes_eqb raw negNanLiteral.

(** A float64 by its bits, as [math.Float64bits] gives them. *)
Definition bitsNaN : Z := 0x7FF8000000000001.
Definition bitsInf : Z := 0x7FF0000000000000.
Definition signBit : Z := 2 ^ 63.

Definition parseSpecialFloatLiteral (raw : bytes) : option Z :=
  if bytes_eqb raw nanLiteral || bytes_eqb raw posNanLiteral then Some bitsNaN
  else if bytes_eqb raw negNanLiteral then Some (Z.lor bitsNaN signBit)
  else if bytes_eqb raw infLiteral || bytes_eqb raw posInfLiteral then Some bitsInf
  else if bytes_eqb raw negInfLiteral then Some (Z.lor bitsInf signBit)
  else None.

Definition isSpecialFloatFolded (raw : bytes) : bool :=
  let n := trimSignBytes raw in
  if negb (length n =? 3) then false
  else bytes_eqb (lowerASCII <$> n) (str "inf") || bytes_eqb (lowerASCII <$> n) (str "nan").

(** [strconv.ParseFloat(s, 64)] on the bytes a float candidate is made of:
    [readFloat] gives the sign, the digits without the point, the position of
    the point and the exponent, which stops growing at 10000. *)
Definition spanDigits (s : bytes) : bytes * bytes :=
  let n := find_stop (λ c, negb (isDigit c)) s in (take n s, drop n s).

Definition readExponent (ds : bytes) : Z :=
  foldl (λ e c, if e <b 10000 then e * 10 + (c - c0) else e)%Z 0%Z ds.

(** [Some (negative, digits, exp10)] for the value [±digits · 10^exp10]. *)
Definition readFloat (s : bytes) : option (bool * bytes * Z) :=
  let '(sign, s) := splitSign s in
  let '(ip, s) := spanDigits s in
  let '(fp, s) := match s with
                  | c :: t => if c =b DOT then spanDigits t else ([], s)
                  | [] => ([], s)
                  end in
  if length (ip ++ fp) =? 0 then None
  else
    let exp0 := (- Z.of_nat (length fp))%Z in
    match s with
    | [] => Some (sign <b 0, ip ++ fp, exp0)
    | c :: t =>
        if lowerASCII c =b ce then
          let '(esign, t) := splitSign t in
          let '(ds, rest) := spanDigits t in
          if (length ds =? 0) || negb (length rest =? 0) then None
          else Some (sign <b 0, ip ++ fp, exp0 + esign * readExponent ds)%Z
        else None
    end.

Definition digitsZ (ds : bytes) : Z := foldl (λ v c, v * 10 + (c - c0))%Z 0%Z ds.

(** The binary float nearest to [±m · 10^e], ties to even. *)
Definition roundDecimalTo (prec emax : Z) (neg : bool) (m e : Z) : spec_float :=
  match m with
  | Zpos p =>
      if 0 ≤b e then
        match (m * 10 ^ e)%Z with
        | Zpos q => binary_round prec emax neg q 0
        | _ => S754_zero neg
        end
      else
        match (10 ^ (- e))%Z with
        | Zpos q =>
            let '(mz, ez, lz) := SFdiv_core_binary prec emax (Zpos p) 0 (Zpos q) 0 in
            binary_round_aux prec emax neg mz ez lz
        | _ => S754_nan
        end
  | _ => S754_zero neg
  end.

Definition roundDecimal : bool → Z → Z → spec_float := roundDecimalTo 53 1024.

(** [math.Float64bits]. *)
Definition Float64bits (f : spec_float) : Z :=
  match f with
  | S754_zero s => if s then signBit else 0
  | S754_infinity s => Z.lor bitsInf (if s then signBit else 0)
  | S754_nan => bitsNaN
  | S754_finite s m e =>
      Z.lor (if s then signBit else 0)
        (if Zpos m <b 2 ^ 52 then Zpos m
         else (e + 1075) * 2 ^ 52 + (Zpos m - 2 ^ 52))
  end%Z.

Definition ParseFloat (s : bytes) : res Z :=
  match readFloat s with
  | None => Err (NumError "ParseFloat" s ErrSyntax)
  | Some (neg, ds, e) =>
      match roundDecimal neg (digitsZ ds) e with
      | S754_infinity _ => Err (NumError "ParseFloat" s ErrRange)
      | f => Ok (Float64bits f)
      end
  end.

Definition needs_normalizing (lower : bool) (b : Z) : bool :=
  (b =b UNDERSCORE) || (lower && (cA ≤b b) && (b ≤b cZ)).

Fixpoint appendNormalized_loop (dst raw : bytes) (lower : bool) : bytes :=
  match raw with
  | [] => dst
  | b :: raw' =>
      if b =b UNDERSCORE then appendNormalized_loop dst raw' lower
      else
        let b := if lower && (cA ≤b b) && (b ≤b cZ) then (b + (ca - cA))%Z else b in
        appendNormalized_loop (dst ++ [b]) raw' lower
  end.

Definition appendNormalizedNumeric (dst raw : bytes) (lower : bool) : bytes * bool :=
  if existsb (needs_normalizing lower) raw then (appendNormalized_loop dst raw lower, true)
  else (raw, false).

Definition parseFloatLiteral (raw : bytes) : res Z :=
  let '(textBytes, copied) := appendNormalizedNumeric [] raw true in
  if negb copied then ParseFloat raw else ParseFloat textBytes.

(** The loop at index [i], with [s = n[i:]]: [None] is [return false]. *)
Fixpoint floatCandidate_loop (n : bytes) (i : nat) (s : bytes) (hasExp hasDecimalPoint : bool)
    : option (bool * bool) :=
  match s with
  | [] => Some (hasExp, hasDecimalPoint)
  | c :: s' =>
      if c =b DOT then
        if (i =? 0) || hasDecimalPoint || (length n <=? i + 1) ||
           (n !!! (i + 1) <b c0) || (c9 <b n !!! (i + 1))
        then None
        else floatCandidate_loop n (i + 1) s' hasExp true
      else if (c =b ce) || (c =b cE) then
        if hasExp then None else floatCandidate_loop n (i + 1) s' true hasDecimalPoint
      else if (c =b PLUS) || (c =b MINUS) then
        if (i =? 0) || ((n !!! (i - 1) ≠b ce) && (n !!! (i - 1) ≠b cE)) then None
        else floatCandidate_loop n (i + 1) s' hasExp hasDecimalPoint
      else if (c =b UNDERSCORE) || isDigit c then
        floatCandidate_loop n (i + 1) s' hasExp hasDecimalPoint
      else None
  end.

Definition isFloatCandidateBytes (raw : bytes) : bool :=
  if length raw =? 0 then false
  else
    let n := trimSignBytes raw in
    if length n =? 0 then false
    else if (1 <? length n) && (n !!! 0 =b c0) && (isDigit (n !!! 1) || (n !!! 1 =b UNDERSCORE))
    then false
    else
      match floatCandidate_loop n 0 n false false with
      | None => false
      | Some (hasExp, hasDecimalPoint) =>
          if negb hasDecimalPoint && negb hasExp then false
          else hasValidNumberUnderscoresBytes n
      end.

Definition containsMalformedBareValueByte (raw : bytes) : bool :=
  existsb (λ b, negb (isDigit b || (b =b PLUS) || (b =b MINUS) || (b =b DOT) ||
    (b =b UNDERSCORE) || (b =b COLON) || (b =b ce) || (b =b cE))) raw.

Definition scalarIntegerValue (scalar : tokenScalar) (raw : bytes) : res Z :=
  if bool_decide (scalar_kind scalar = tokenScalarInteger) then Ok (int64 (scalar_bits scalar))
  else parseIntegerLiteral raw.

(** The float64 by its bits; [malformedSpecial] builds the error. *)
Definition scalarFloatValue (scalar : tokenScalar) (raw : bytes) (malformedSpecial : error) : res Z :=
  if bool_decide (scalar_kind scalar = tokenScalarFloat) then Ok (scalar_bits scalar)
  else
    match parseSpecialFloatLiteral raw with
    | Some f => Ok f
    | None => if isSpecialFloatFolded raw then Err malformedSpecial else parseFloatLiteral raw
    end.

Example ParseFloat_examples :
  map (λ s, ParseFloat (str s)) ["1.5"; "-0.1"; "1e400"; "5e-324"; "2.2250738585072011e-308"; "1e23"; "1e"]%string =
  [Ok 0x3FF8000000000000; Ok 0xBFB999999999999A; Err (NumError "ParseFloat" (str "1e400") ErrRange);
   Ok 1; Ok 0xFFFFFFFFFFFFF; Ok 0x44B52D02C7E14AF6; Err (NumError "ParseFloat" (str "1e") ErrSyntax)]%Z.
Proof. vm_compute. reflexivity. Qed.

(** ** Bare values (decoder.go) *)

Definition trueLiteral := str "true".
Definition falseLiteral := str "false".

(** The kind, the scalar decoded on the way and the message, empty on success. *)
Definition classifyBareValue (raw : bytes) : TokenKind * tokenScalar * string :=
  if looksLikeDatetime raw then (TokenKindValueDatetime, noScalar, ""%string)
  else if contains_any raw (str "= ") then (TokenKindInvalid, noScalar, "unexpected = in value"%string)
  else if bytes_eqb raw trueLiteral || bytes_eqb raw falseLiteral then
    (TokenKindValueBool, noScalar, ""%string)
  else if isSpecialFloatBytes raw then
    let f := default 0%Z (parseSpecialFloatLiteral raw) in
    (TokenKindValueFloat, TokenScalar f tokenScalarFloat, ""%string)
  else if isIntCandidateBytes raw then
    if hasCapitalNumericPrefixBytes raw then (TokenKindInvalid, noScalar, "malformed value"%string)
    else
      match parseIntegerLiteral raw with
      | Err _ => (TokenKindInvalid, noScalar, "malformed value"%string)
      | Ok i => (TokenKindValueInteger, TokenScalar (w64 i) tokenScalarInteger, ""%string)
      end
  else if isFloatCandidateBytes raw then
    match parseFloatLiteral raw with
    | Err _ => (TokenKindInvalid, noScalar, "malformed float"%string)
    | Ok f => (TokenKindValueFloat, TokenScalar f tokenScalarFloat, ""%string)
    end
  else if containsMalformedBareValueByte raw then
    (TokenKindInvalid, noScalar, "malformed value"%string)
  else (TokenKindInvalid, noScalar, "malformed value"%string).

(** The value ends at a delimiter, but a date may be followed by one space and
    a time. *)
Definition scanBareValueEnd {K : ScanKernels} (raw : bytes) : nat :=
  let end_ := ScanBareValueEnd raw in
  if negb (end_ =? 10) || (length raw <=? end_) || (raw !!! end_ ≠b SP) then end_
  else
    let tailEnd := end_ + 1 + ScanBareValueEnd (drop (end_ + 1) raw) in
    if is_ok (parseDateTimeValue (slice raw 0 tailEnd)) then tailEnd else end_.

Lemma scanBareValueEnd_le {K : ScanKernels} raw :
  Forall is_byte raw → scanBareValueEnd raw ≤ length raw.
Proof.
  intros Hraw. unfold scanBareValueEnd. rewrite !ScanBareValueEnd_ok by (done || by apply Forall_drop).
  pose proof (find_stop_le bareValueDelimiter raw). cbv zeta.
  destruct (_ || _) eqn:E; [done|]. case_match; [|done].
  pose proof (find_stop_le bareValueDelimiter (drop (find_stop bareValueDelimiter raw + 1) raw)).
  rewrite length_drop in *. lia.
Qed.

(** ** The grammar of integers *)

(** Digits with single underscores between them. *)
Inductive udigits (P : Z → bool) : bytes → Prop :=
| ud_one d : P d = true → udigits P [d]
| ud_digit d s : P d = true → udigits P s → udigits P (d :: s)
| ud_underscore d s : P d = true → udigits P s → udigits P (d :: UNDERSCORE :: s).

Definition literal_value (base : Z) (s : bytes) : Z :=
  foldl (λ v c, if c =b UNDERSCORE then v else v * base + default 0 (numericDigitValue c))%Z 0%Z s.

Definition toml_sign (sign : bytes) (z : Z) : Prop :=
  (sign = [] ∧ z = 1%Z) ∨ (sign = [PLUS] ∧ z = 1%Z) ∨ (sign = [MINUS] ∧ z = (-1)%Z).

Definition toml_base (p base : Z) : Prop :=
  (p = cb ∧ base = 2%Z) ∨ (p = co ∧ base = 8%Z) ∨ (p = cx ∧ base = 16%Z).

Inductive toml_integer : bytes → Z → Prop :=
| int_decimal sign z n :
    toml_sign sign z → udigits isDigit n → (head n = Some c0 → n = [c0]) →
    toml_integer (sign ++ n) (z * literal_value 10 n)
| int_prefixed p base ds :
    toml_base p base → udigits (λ c, validPrefixedDigit c p) ds →
    toml_integer (c0 :: p :: ds) (literal_value base ds).

(** ** Lemmas: digits and underscores *)

(** What may follow a digit. *)
Fixpoint ud_tail (P : Z → bool) (s : bytes) : bool :=
  match s with
  | [] => true
  | c :: s' =>
      if c =b UNDERSCORE then match s' with c2 :: s'' => P c2 && ud_tail P s'' | [] => false end
      else P c && ud_tail P s'
  end.

Lemma ud_tail_sound P n : ∀ d s, length s ≤ n →
  P d = true → ud_tail P s = true → udigits P (d :: s).
Proof.
  induction n as [|n IH]; intros d [|c s] Hn Hd Hs; simpl in *; try lia; try by constructor.
  destruct (Z.eqb_spec c UNDERSCORE) as [->|].
  - destruct s as [|c2 s]; [done|]. apply andb_prop in Hs as [Hc Hs]. simpl in Hn.
    apply ud_underscore; [done|]. apply IH; [lia|done..].
  - apply andb_prop in Hs as [Hc Hs]. apply ud_digit; [done|]. apply IH; [lia|done..].
Qed.

Lemma udigits_tail P d s :
  P UNDERSCORE = false → udigits P (d :: s) ↔ P d = true ∧ ud_tail P s = true.
Proof.
  intros HU. split; [|intros [? ?]; by eapply ud_tail_sound].
  intros H. remember (d :: s) as t eqn:Et. revert d s Et.
  induction H as [e He|e t He Ht IH|e t He Ht IH]; intros d s [= <- <-].
  - done.
  - split; [done|]. destruct t as [|c t]; [by inversion Ht|].
    destruct (IH c t eq_refl) as [Hc IHt]. simpl. rewrite Hc, IHt.
    destruct (Z.eqb_spec c UNDERSCORE) as [->|]; [congruence|done].
  - split; [done|]. destruct t as [|c t]; [by inversion Ht|].
    destruct (IH c t eq_refl) as [Hc IHt]. simpl. by rewrite Hc, IHt.
Qed.

Lemma validPrefixedDigit_underscore p : validPrefixedDigit UNDERSCORE p = false.
Proof. unfold validPrefixedDigit. by repeat case_match. Qed.

Lemma lookup_total_app_last (pre s : bytes) d : (pre ++ d :: s) !!! length pre = d.
Proof. by apply list_lookup_total_middle. Qed.

(** The neighbours an underscore after the digit [d] is checked against. *)
Lemma underscore_neighbours (pre : bytes) d u (s : bytes) :
  let raw := pre ++ d :: u :: s in
  let i := length pre + 1 in
  raw !!! (i - 1) = d ∧ (i =? 0) = false ∧
  match s with
  | [] => (length raw <=? i + 1) = true
  | c2 :: _ => (length raw <=? i + 1) = false ∧ raw !!! (i + 1) = c2
  end.
Proof.
  cbv zeta. split_and!.
  - apply list_lookup_total_middle. lia.
  - lia.
  - destruct s as [|c2 s]; [rewrite length_app; simpl; lia|]. split.
    + rewrite length_app. simpl. lia.
    + replace (pre ++ d :: u :: c2 :: s) with ((pre ++ [d; u]) ++ c2 :: s) by (by rewrite <-app_assoc).
      apply list_lookup_total_middle. rewrite !length_app. simpl. lia.
Qed.

(** Both loops, once past a digit, check what may follow it. *)
Lemma prefixedDigits_tail prefix n : ∀ pre d s, length s ≤ n →
  validPrefixedDigit d prefix = true →
  prefixedDigits_loop (pre ++ d :: s) prefix (length pre + 1) s false =
    ud_tail (λ c, validPrefixedDigit c prefix) s.
Proof.
  induction n as [|n IH]; intros pre d [|c s] Hn Hd; cbn [length] in Hn; try lia; try done.
  cbn [prefixedDigits_loop ud_tail].
  destruct (underscore_neighbours pre d c s) as (H1 & H2 & H3).
  destruct (Z.eqb_spec c UNDERSCORE) as [->|Hc].
  - rewrite H1, H2, Hd. destruct s as [|c2 s].
    { by rewrite H3. }
    destruct H3 as [-> ->]. cbn [orb negb]. destruct (validPrefixedDigit c2 prefix) eqn:Hc2; [|done].
    cbn [negb prefixedDigits_loop andb]. rewrite Hc2.
    destruct (Z.eqb_spec c2 UNDERSCORE) as [->|];
      [by rewrite validPrefixedDigit_underscore in Hc2|].
    rewrite <-(IH ((pre ++ [d]) ++ [UNDERSCORE]) c2 s) by (done || simpl in Hn; lia).
    rewrite !length_app, <-!app_assoc. simpl. by f_equal; lia.
  - destruct (validPrefixedDigit c prefix) eqn:Hc2; [|done]. cbn [negb andb].
    rewrite <-(IH (pre ++ [d]) c s); [|lia|done]. by rewrite length_app, <-app_assoc.
Qed.

Lemma isDigit_bounds c : (c <b c0) || (c9 <b c) = negb (isDigit c).
Proof. unfold isDigit. lia. Qed.

Lemma numberUnderscores_tail n : ∀ pre d s, length s ≤ n → isDigit d = true →
  forallb (λ b, isDigit b || (b =b UNDERSCORE)) s && numberUnderscores_loop (pre ++ d :: s) (length pre + 1) s false =
    ud_tail isDigit s.
Proof.
  induction n as [|n IH]; intros pre d [|c s] Hn Hd; cbn [length] in Hn; try lia; try done.
  cbn [numberUnderscores_loop ud_tail forallb].
  destruct (underscore_neighbours pre d c s) as (H1 & H2 & H3).
  destruct (Z.eqb_spec c UNDERSCORE) as [->|Hc].
  - cbn [negb]. rewrite H1, H2, isDigit_bounds, Hd. destruct s as [|c2 s].
    { by rewrite H3. }
    destruct H3 as [-> ->]. cbn [orb negb]. rewrite isDigit_bounds.
    cbn [forallb]. destruct (isDigit c2) eqn:Hc2; [|by rewrite !andb_false_r].
    cbn [negb numberUnderscores_loop andb orb].
    destruct (Z.eqb_spec c2 UNDERSCORE) as [->|]; [done|]. cbn [negb].
    rewrite <-(IH ((pre ++ [d]) ++ [UNDERSCORE]) c2 s); [|simpl in Hn; lia|done].
    rewrite !length_app, <-!app_assoc. simpl. by do 2 f_equal; lia.
  - destruct (isDigit c) eqn:Hc2; [|done]. cbn [negb andb orb].
    rewrite <-(IH (pre ++ [d]) c s); [|lia|done]. by rewrite length_app, <-app_assoc.
Qed.

Lemma udigits_edge P s : P UNDERSCORE = false → udigits P s → edge_underscore s = false.
Proof.
  intros HU H. assert (s ≠ [] ∧ s !!! 0 ≠ UNDERSCORE ∧ s !!! (length s - 1) ≠ UNDERSCORE) as (Hne & Hf & Hl).
  { induction H as [d Hd|d s Hd Hs (Hne & _ & IH)|d s Hd Hs (Hne & _ & IH)].
    - split_and!; [done|..]; simpl; by intros ->; rewrite HU in Hd.
    - split_and!; [done|simpl; by intros ->; rewrite HU in Hd|]. destruct s as [|c s]; [done|].
      simpl in *. by rewrite Nat.sub_0_r in *.
    - split_and!; [done|simpl; by intros ->; rewrite HU in Hd|]. destruct s as [|c s]; [done|].
      simpl in *. by rewrite Nat.sub_0_r in *. }
  unfold edge_underscore. apply Z.eqb_neq in Hf, Hl. rewrite Hf, Hl. by destruct s.
Qed.

(** The integer digits the two checks accept. *)
Lemma prefixedDigitsValidBytes_iff s p :
  prefixedDigitsValidBytes s p = true ↔ udigits (λ c, validPrefixedDigit c p) s.
Proof.
  pose proof (validPrefixedDigit_underscore p) as HU. unfold prefixedDigitsValidBytes. split.
  - destruct (edge_underscore s) eqn:He; [done|]. destruct s as [|c s]; [done|].
    cbn [prefixedDigits_loop]. destruct (c =b UNDERSCORE); [done|].
    destruct (validPrefixedDigit c p) eqn:Hc; [|done]. cbn [negb]. intros H.
    apply udigits_tail; [done|]. split; [done|].
    by rewrite <-(prefixedDigits_tail p (length s) [] c s).
  - intros H. rewrite (udigits_edge _ _ HU H). destruct s as [|c s]; [done|].
    apply udigits_tail in H as [Hc Hs]; [|done]. cbn [prefixedDigits_loop]. rewrite Hc.
    destruct (Z.eqb_spec c UNDERSCORE) as [->|]; [by rewrite HU in Hc|]. cbn [negb].
    by rewrite <-(prefixedDigits_tail p (length s) [] c s) in Hs.
Qed.

Lemma hasValidNumberUnderscoresBytes_iff s :
  forallb (λ b, isDigit b || (b =b UNDERSCORE)) s && hasValidNumberUnderscoresBytes s = true ↔
  udigits isDigit s.
Proof.
  unfold hasValidNumberUnderscoresBytes. split.
  - destruct (edge_underscore s) eqn:He; [by rewrite andb_false_r|]. destruct s as [|c s]; [done|].
    unfold edge_underscore in He. cbn [length lookup_total list_lookup_total] in He.
    cbn [forallb numberUnderscores_loop]. destruct (c =b UNDERSCORE); [done|].
    destruct (isDigit c) eqn:Hc; [|done]. cbn [negb orb andb]. intros H.
    apply udigits_tail; [done|]. split; [done|].
    by rewrite <-(numberUnderscores_tail (length s) [] c s).
  - intros H. rewrite (udigits_edge _ _ (eq_refl : isDigit UNDERSCORE = false) H).
    destruct s as [|c s]; [by inversion H|].
    apply udigits_tail in H as [Hc Hs]; [|done]. cbn [forallb numberUnderscores_loop]. rewrite Hc.
    destruct (Z.eqb_spec c UNDERSCORE) as [->|]; [done|]. cbn [negb orb andb].
    by rewrite <-(numberUnderscores_tail (length s) [] c s) in Hs.
Qed.

(** ** Lemmas: values *)

Definition literal_step (base v c : Z) : Z :=
  if c =b UNDERSCORE then v else (v * base + default 0 (numericDigitValue c))%Z.

Definition base_digit (base c : Z) : Prop :=
  c = UNDERSCORE ∨ ∃ d, numericDigitValue c = Some d ∧ (0 ≤ d < base)%Z.

Lemma literal_step_mono base s v :
  (1 ≤ base)%Z → (0 ≤ v)%Z → Forall (base_digit base) s → (v ≤ foldl (literal_step base) v s)%Z.
Proof.
  intros Hb Hv Hs. revert v Hv. induction Hs as [|c s Hc Hs IH]; intros v Hv; simpl; [done|].
  assert (v ≤ literal_step base v c)%Z as Hle.
  { unfold literal_step. case_match; [done|]. destruct Hc as [->|(d & -> & Hd)]; [done|]. simpl. nia. }
  etrans; [exact Hle|]. apply IH. lia.
Qed.

(** The guard [u > (limit-d)/base] is exactly the overflow of [u*base + d]. *)
Lemma parseUint_loop_value base limit s : ∀ u saw,
  (2 ≤ base ≤ 16)%Z → (16 ≤ limit < 2 ^ 64)%Z → (0 ≤ u ≤ limit)%Z → Forall (base_digit base) s →
  saw = true ∨ Exists (λ c, c ≠ UNDERSCORE) s →
  parseUint_loop s base limit u saw =
    if foldl (literal_step base) u s ≤b limit then Ok (foldl (literal_step base) u s) else Err ErrRange.
Proof.
  induction s as [|c s IH]; intros u saw Hb Hl Hu Hs Hsaw; simpl.
  { destruct Hsaw as [-> |H]; [|by inversion H]. destruct (u ≤b limit) eqn:?; [done|lia]. }
  apply Forall_cons in Hs as [Hc Hs]. unfold literal_step at 2 4.
  destruct (Z.eqb_spec c UNDERSCORE) as [->|Hne].
  - apply IH; try done. destruct Hsaw as [?|H]; [by left|right]. by inversion H.
  - destruct Hc as [|(d & Hd & Hdb)]; [done|]. rewrite Hd. simpl.
    destruct (base ≤b d) eqn:?; [lia|]. unfold w64. rewrite (Z.mod_small (limit - d)) by lia.
    destruct ((limit - d) / base <b u)%Z eqn:Hov.
    + assert (limit < u * base + d)%Z as Hgt.
      { apply Z.ltb_lt in Hov. pose proof (Z.div_mod (limit - d) base ltac:(lia)).
        pose proof (Z.mod_pos_bound (limit - d) base ltac:(lia)). nia. }
      pose proof (literal_step_mono base s (u * base + d) ltac:(lia) ltac:(nia) Hs).
      destruct (_ ≤b limit) eqn:?; [lia|done].
    + assert (u * base + d ≤ limit)%Z.
      { pose proof (Z.mul_div_le (limit - d) base ltac:(lia)). nia. }
      rewrite Z.mod_small by nia. apply IH; try done; [nia|by left].
Qed.

Lemma literal_value_step base s : literal_value base s = foldl (literal_step base) 0%Z s.
Proof. done. Qed.

Lemma udigits_base_digits P base s :
  (∀ c, P c = true → ∃ d, numericDigitValue c = Some d ∧ (0 ≤ d < base)%Z) →
  udigits P s →
  s ≠ [] ∧ Forall (base_digit base) s ∧ Exists (λ c, c ≠ UNDERSCORE) s.
Proof.
  intros HP. assert (∀ c, P c = true → c ≠ UNDERSCORE) as HU.
  { intros c Hc ->. by destruct (HP _ Hc) as (? & ? & _). }
  induction 1 as [d Hd|d s Hd _ (_ & IH & _)|d s Hd _ (_ & IH & _)]; split_and!; try done;
    try (apply Exists_cons; left; by apply HU);
    rewrite ?Forall_cons; split_and?; try done; unfold base_digit; auto.
Qed.

Lemma isDigit_base c : isDigit c = true → ∃ d, numericDigitValue c = Some d ∧ (0 ≤ d < 10)%Z.
Proof.
  unfold isDigit, numericDigitValue. intros H. rewrite H. eexists. split; [done|]. lia.
Qed.

Lemma toml_base_digit p base c :
  toml_base p base → validPrefixedDigit c p = true →
  ∃ d, numericDigitValue c = Some d ∧ (0 ≤ d < base)%Z.
Proof.
  unfold validPrefixedDigit, numericDigitValue.
  intros [[-> ->]|[[-> ->]|[-> ->]]] H; cbn in H; repeat case_match; try lia;
    eexists; (split; [done|lia]).
Qed.

Lemma trimSignBytes_spec raw :
  ∃ sign z, toml_sign sign z ∧ raw = sign ++ trimSignBytes raw ∧
    splitSign raw = (z, trimSignBytes raw) ∧ (raw !!! 0 ≠ PLUS ∧ raw !!! 0 ≠ MINUS ↔ sign = []).
Proof.
  unfold toml_sign, trimSignBytes, splitSign. destruct raw as [|c raw].
  { exists [], 1%Z. split_and!; auto. split; [done|]. intros _. by split. }
  cbn [lookup_total list_lookup_total].
  destruct (Z.eqb_spec c PLUS) as [->|H1]; [|destruct (Z.eqb_spec c MINUS) as [->|H2]]; cbn [orb].
  - exists [PLUS], 1%Z. split_and!; auto. split; [by intros [? _]|done].
  - exists [MINUS], (-1)%Z. split_and!; auto. split; [by intros [_ ?]|done].
  - exists [], 1%Z. split_and!; auto. by split.
Qed.

(** What the classifier accepts as an integer. *)
Lemma isIntCandidate_sound raw :
  isIntCandidateBytes raw = true → hasCapitalNumericPrefixBytes raw = false →
  ∃ v, toml_integer raw v.
Proof.
  unfold isIntCandidateBytes, hasCapitalNumericPrefixBytes. cbv zeta.
  destruct (trimSignBytes_spec raw) as (sign & z & Hsign & Hraw & _ & Hno).
  set (n := trimSignBytes raw) in *. clearbody n. intros H Hcap.
  destruct (length raw =? 0); [done|]. destruct (length n =? 0) eqn:Hn; [done|].
  case_match eqn:E1; [done|]. case_match eqn:E2.
  - case_match eqn:E3; [done|]. assert (sign = []) as -> by (apply Hno; lia). simpl in Hraw. subst raw.
    destruct n as [|a [|b ds]]; [done..|]. cbn in E2, Hcap, H. rewrite drop_0 in H.
    assert (∃ base, toml_base b base ∧ lowerASCII b = b) as (base & Hbase & Hlow).
    { unfold toml_base, lowerASCII in *. repeat case_match; try bool_lia.
      all: destruct (Z.eq_dec b cb); [exists 2%Z; lia|].
      all: destruct (Z.eq_dec b co); [exists 8%Z; lia|]; exists 16%Z; lia. }
    rewrite Hlow in H. apply prefixedDigitsValidBytes_iff in H.
    exists (literal_value base ds). replace a with c0 by bool_lia. by apply int_prefixed.
  - case_match eqn:E3; [done|]. case_match eqn:E4; [|done].
    exists (z * literal_value 10 n)%Z. rewrite Hraw. apply int_decimal; [done|..].
    + apply hasValidNumberUnderscoresBytes_iff. by rewrite E4, H.
    + destruct n as [|a [|b s]]; [done| |]; intros [= ->]; [done|].
      cbn in E1, E3, E4. unfold isDigit in E4. exfalso.
      rewrite !andb_true_iff, !orb_true_iff in E4. lia.
Qed.

Lemma digit_alnum c : isDigit c = true → bareKeyClass c = true.
Proof. unfold isDigit, bareKeyClass. lia. Qed.

Lemma udigits_Forall P (Q : Z → Prop) s :
  (∀ c, P c = true → Q c) → Q UNDERSCORE → udigits P s → Forall Q s.
Proof. intros HP HU. induction 1; eauto. Qed.

(** An optional sign, a digit, then letters, digits and underscores. *)
Lemma toml_integer_shape raw v :
  toml_integer raw v → ∃ sign z d n,
    toml_sign sign z ∧ raw = sign ++ d :: n ∧ isDigit d = true ∧
    Forall (λ c, bareKeyClass c = true ∧ c ≠ MINUS) n.
Proof.
  intros [sign z n Hs Hn _|p base ds Hb Hd].
  - destruct n as [|d n]; [by inversion Hn|]. exists sign, z, d, n.
    assert (Forall (λ c, bareKeyClass c = true ∧ c ≠ MINUS) (d :: n)) as Hall.
    { eapply udigits_Forall; [|done|exact Hn]. intros c Hc.
      split; [by apply digit_alnum|]. by intros ->. }
    apply Forall_cons in Hall as [_ Hall]. apply udigits_tail in Hn as [Hd _]; [|done].
    by split_and!.
  - exists [], 1%Z, c0, (p :: ds). split_and!; [by left|done|done|]. constructor.
    + by destruct Hb as [[-> _]|[[-> _]|[-> _]]].
    + eapply udigits_Forall; [|done|exact Hd]. simpl. intros c Hc.
      unfold validPrefixedDigit in Hc. unfold bareKeyClass.
      destruct Hb as [[-> _]|[[-> _]|[-> _]]]; repeat case_hyp Hc; lia.
Qed.

Lemma toml_integer_not_datetime raw v : toml_integer raw v → looksLikeDatetime raw = false.
Proof.
  intros (sign & z & d & n & Hs & -> & Hd & Hn)%toml_integer_shape.
  unfold looksLikeDatetime. replace (hasDateTimeShape (sign ++ d :: n)) with false; [done|].
  symmetry. unfold hasDateTimeShape, hasDateShape, hasTimeShape.
  destruct Hs as [[-> _]|[[-> _]|[-> _]]].
  - cbn [app]. assert (∀ i c, 5 ≤ length (d :: n) → 0 < i < 5 → c = MINUS ∨ c = COLON → (d :: n) !!! i ≠ c) as Hi.
    { intros [|i] c Hl Hi Hc; [lia|]. cbn [lookup_total list_lookup_total length] in *. intros E.
      assert (n !! i = Some c) as Hlk by (rewrite <-E; apply lookup_total_lt; lia).
      apply (Forall_lookup_1 _ _ _ _ Hn) in Hlk as [H1 H2]. by destruct Hc as [-> | ->]. }
    apply orb_false_iff. split; case_match eqn:El; try done.
    + assert (((d :: n) !!! 4 =b MINUS) = false) as ->.
      { apply Z.eqb_neq, Hi; [|lia|auto]. lia. }
      by rewrite !andb_false_r.
    + assert (((d :: n) !!! 2 =b COLON) = false) as ->.
      { apply Z.eqb_neq, Hi; [|lia|auto]. lia. }
      by rewrite !andb_false_r.
  - cbn. by repeat case_match.
  - cbn. by repeat case_match.
Qed.

Lemma toml_integer_not_other raw v :
  toml_integer raw v →
  contains_any raw (str "= ") = false ∧
  bytes_eqb raw trueLiteral || bytes_eqb raw falseLiteral = false ∧ isSpecialFloatBytes raw = false.
Proof.
  intros (sign & z & d & n & Hs & -> & Hd & Hn)%toml_integer_shape.
  assert (∀ i s t, s !! i ≠ t !! i → bytes_eqb s t = false) as Hne.
  { intros i s t Ht. apply bool_decide_eq_false. by intros <-. }
  unfold isDigit in Hd. split_and!.
  - apply not_true_iff_false. unfold contains_any. rewrite existsb_exists. intros (c & Hin & Hc).
    cbn in Hc. apply list_elem_of_In, elem_of_app in Hin as [Hin|Hin].
    + destruct Hs as [[-> _]|[[-> _]|[-> _]]]; [by apply not_elem_of_nil in Hin|..];
        apply list_elem_of_singleton in Hin as ->; lia.
    + apply elem_of_cons in Hin as [->|Hin]; [lia|].
      rewrite Forall_forall in Hn. apply Hn in Hin as [Hk _]. unfold bareKeyClass in Hk. lia.
  - destruct Hs as [[-> _]|[[-> _]|[-> _]]]; cbn [app];
      by rewrite !(Hne 0) by (cbn; congruence || (intros [= ?]; lia)).
  - unfold isSpecialFloatBytes. destruct Hs as [[-> _]|[[-> _]|[-> _]]]; cbn [app];
      rewrite ?(Hne 0 _ infLiteral), ?(Hne 0 _ nanLiteral) by (cbn; congruence || (intros [= ?]; lia));
      try rewrite !(Hne 0) by (cbn; congruence || (intros [= ?]; lia));
      by rewrite ?(Hne 1) by (cbn; congruence || (intros [= ?]; lia)).
Qed.

Lemma toml_sign_head sign z d n :
  toml_sign sign z → isDigit d = true →
  trimSignBytes (sign ++ d :: n) = d :: n ∧ splitSign (sign ++ d :: n) = (z, d :: n) ∧
  (sign ≠ [] → sign = [PLUS] ∨ sign = [MINUS]).
Proof.
  unfold isDigit. intros [[-> ->]|[[-> ->]|[-> ->]]] Hd; cbn; split_and!; auto; try done.
  - destruct (Z.eqb_spec d PLUS), (Z.eqb_spec d MINUS); try done; lia.
  - destruct (Z.eqb_spec d PLUS), (Z.eqb_spec d MINUS); try done; lia.
Qed.

Lemma toml_base_lower p base :
  toml_base p base →
  lowerASCII p = p ∧ (p =b cb) || (p =b co) || (p =b cx) = true ∧
  (p =b UNDERSCORE) = false ∧ (p =b cB) || (p =b cO) || (p =b cX) = false ∧ (2 ≤ base ≤ 16)%Z.
Proof. by intros [[-> ->]|[[-> ->]|[-> ->]]]. Qed.

Lemma isIntCandidate_complete raw v :
  toml_integer raw v →
  isIntCandidateBytes raw = true ∧ hasCapitalNumericPrefixBytes raw = false.
Proof.
  unfold isIntCandidateBytes, hasCapitalNumericPrefixBytes. intros [sign z n Hs Hn H0|p base ds Hb Hd].
  - destruct n as [|d n]; [by inversion Hn|].
    pose proof Hn as [Hd Htl]%udigits_tail; [|done].
    destruct (toml_sign_head sign z d n Hs Hd) as (-> & _ & _). cbn [length].
    apply hasValidNumberUnderscoresBytes_iff, andb_prop in Hn as [Hfa Hu]. rewrite Hfa, Hu.
    rewrite length_app. cbn [length]. destruct (length sign + S (length n) =? 0) eqn:?; [lia|].
    destruct n as [|e n]; [done|]. cbn [length lookup_total list_lookup_total head] in *.
    destruct (Z.eqb_spec d c0) as [->|]; [by discriminate (H0 eq_refl)|].
    by rewrite !andb_false_r.
  - destruct (toml_base_lower p base Hb) as (Hl & H1 & H2 & H3 & _).
    assert (prefixedDigitsValidBytes ds p = true) as Hv by (by apply prefixedDigitsValidBytes_iff).
    destruct ds as [|e ds]; [by inversion Hd|].
    change (trimSignBytes (c0 :: p :: e :: ds)) with (c0 :: p :: e :: ds).
    cbn [length drop lookup_total list_lookup_total]. rewrite Hl, H1, H2, H3. by rewrite Hv.
Qed.

Definition in_int64 (v : Z) : bool := (- 2 ^ 63 ≤b v)%Z && (v <b 2 ^ 63)%Z.

Lemma literal_value_nonneg base s :
  (1 ≤ base)%Z → Forall (base_digit base) s → (0 ≤ literal_value base s)%Z.
Proof. intros. rewrite literal_value_step. by apply literal_step_mono. Qed.

Lemma splitBase_decimal n :
  udigits isDigit n → (head n = Some c0 → n = [c0]) → splitBase n = (10%Z, n).
Proof.
  intros Hn H0. unfold splitBase. destruct n as [|d [|e n]]; [done..|].
  cbn [head] in H0. destruct (Z.eqb_spec d c0) as [->|].
  - by discriminate (H0 eq_refl).
  - cbn [lookup_total list_lookup_total]. destruct (Z.eqb_spec d c0); [done|]. by rewrite andb_false_r.
Qed.

Lemma splitBase_prefixed p base ds :
  toml_base p base → ds ≠ [] → splitBase (c0 :: p :: ds) = (base, ds).
Proof. intros [[-> ->]|[[-> ->]|[-> ->]]] Hne; by destruct ds. Qed.

(** The literal's value, or a range error when it does not fit 64 bits. *)
Lemma parseIntegerLiteral_value raw v :
  toml_integer raw v → parseIntegerLiteral raw = if in_int64 v then Ok v else Err ErrRange.
Proof.
  assert (∀ base limit s, (2 ≤ base ≤ 16)%Z → (16 ≤ limit < 2 ^ 64)%Z →
    s ≠ [] → Forall (base_digit base) s → Exists (λ c, c ≠ UNDERSCORE) s →
    parseUintLiteralDigits s base limit =
      if literal_value base s ≤b limit then Ok (literal_value base s) else Err ErrRange) as Huint.
  { intros base limit s Hb Hl Hne Hs Hex. unfold parseUintLiteralDigits.
    destruct (length s =? 0) eqn:E; [by destruct s|].
    rewrite literal_value_step. apply parseUint_loop_value; [done..|lia|done|by right]. }
  unfold parseIntegerLiteral, in_int64, int64. intros [sign z n Hs Hn H0|p base ds Hb Hd].
  - destruct n as [|d n]; [by inversion Hn|]. pose proof Hn as [Hd _]%udigits_tail; [|done].
    destruct (toml_sign_head sign z d n Hs Hd) as (_ & -> & _).
    rewrite splitBase_decimal by done.
    destruct (udigits_base_digits _ 10 _ isDigit_base Hn) as (Hne & Hall & Hex).
    pose proof (literal_value_nonneg 10 _ ltac:(lia) Hall).
    rewrite Huint by (done || destruct (z <b 0)%Z; lia).
    set (u := literal_value 10 (d :: n)) in *. clearbody u.
    destruct Hs as [[_ ->]|[[_ ->]|[_ ->]]]; cbn; repeat case_match; simpl in *;
      repeat case_match; try done; try (f_equal; lia); exfalso; bool_lia.
  - destruct (toml_base_lower p base Hb) as (_ & _ & _ & _ & Hbase).
    destruct (udigits_base_digits _ base _ (λ c, toml_base_digit p base c Hb) Hd) as (Hne & Hall & Hex).
    pose proof (literal_value_nonneg base _ ltac:(lia) Hall).
    cbn [splitSign]. change (c0 =b PLUS) with false. change (c0 =b MINUS) with false. cbv iota.
    rewrite splitBase_prefixed with (base := base), Huint by (done || cbn; lia).
    set (u := literal_value base ds) in *. clearbody u.
    cbn. repeat case_match; simpl in *; repeat case_match; try done; try (f_equal; lia); exfalso; bool_lia.
Qed.

Lemma int64_w64 v : in_int64 v = true → int64 (w64 v) = v.
Proof.
  unfold in_int64, int64, w64. intros H. destruct (decide (0 ≤ v)%Z).
  - rewrite Z.mod_small by lia. case_match; lia.
  - replace (v mod 2 ^ 64)%Z with (v + 2 ^ 64)%Z.
    + case_match; lia.
    + apply (Z.mod_unique v (2 ^ 64) (-1)); lia.
Qed.

Lemma classifyBareValue_value raw v :
  toml_integer raw v →
  classifyBareValue raw =
    if in_int64 v then (TokenKindValueInteger, TokenScalar (w64 v) tokenScalarInteger, ""%string)
    else (TokenKindInvalid, noScalar, "malformed value"%string).
Proof.
  intros H. unfold classifyBareValue. rewrite (toml_integer_not_datetime _ _ H).
  destruct (toml_integer_not_other _ _ H) as (-> & -> & ->).
  destruct (isIntCandidate_complete _ _ H) as [-> ->].
  rewrite (parseIntegerLiteral_value _ _ H). by destruct (in_int64 v).
Qed.

(** C27: a bare value is read as an integer exactly when it is a TOML integer
    literal (decimal without leading zeros, or 0b/0o/0x, single underscores
    between digits) whose value fits an int64; the token then carries that
    value, and a literal that does not fit is rejected, never wrapped. *)
Theorem classifyBareValue_integer raw :
  ((classifyBareValue raw).1.1 = TokenKindValueInteger ↔
     ∃ v, toml_integer raw v ∧ in_int64 v = true) ∧
  (∀ v, toml_integer raw v →
     classifyBareValue raw =
       if in_int64 v then (TokenKindValueInteger, TokenScalar (w64 v) tokenScalarInteger, ""%string)
       else (TokenKindInvalid, noScalar, "malformed value"%string)) ∧
  (∀ v, toml_integer raw v → in_int64 v = true →
     scalarIntegerValue (classifyBareValue raw).1.2 raw = Ok v).
Proof.
  split_and!.
  - split.
    + unfold classifyBareValue. repeat (case_match; try done). intros _.
      destruct (isIntCandidate_sound raw) as [v Hv]; [done..|]. exists v. split; [done|].
      rewrite (parseIntegerLiteral_value _ _ Hv) in *. by destruct (in_int64 v).
    + intros (v & Hv & Hr). by rewrite (classifyBareValue_value _ _ Hv), Hr.
  - apply classifyBareValue_value.
  - intros v Hv Hr. rewrite (classifyBareValue_value _ _ Hv), Hr. unfold scalarIntegerValue. simpl.
    by rewrite int64_w64.
Qed.

Lemma classifyBareValue_integer_witness :
  toml_integer (str "-9_223_372_036_854_775_808") (- 2 ^ 63)%Z ∧
  (classifyBareValue (str "-9_223_372_036_854_775_808")).1.1 = TokenKindValueInteger ∧
  classifyBareValue (str "9223372036854775808") = (TokenKindInvalid, noScalar, "malformed value"%string).
Proof.
  split_and!.
  - destruct (proj1 (proj1 (classifyBareValue_integer (str "-9_223_372_036_854_775_808"))) eq_refl)
      as (v & Hv & _).
    replace (- 2 ^ 63)%Z with v; [exact Hv|].
    assert (parseIntegerLiteral (str "-9_223_372_036_854_775_808") = Ok (- 2 ^ 63)%Z) as Hc
      by reflexivity.
    rewrite (parseIntegerLiteral_value _ _ Hv) in Hc. destruct (in_int64 v); congruence.
  - reflexivity.
  - reflexivity.
Defined.
