(* ===== verification/GoFloat.v ===== *)
(** [strconv.FormatFloat(f, 'g', -1, bitSize)]: the shortest decimal that reads
    back as the float, laid out as %e or %f, and that [strconv.ParseFloat] reads
    it back. *)
From Stdlib Require Import Floats.SpecFloat.
From S2P Require Import Prelude GoStrconv TomlNumber.
Local Open Scope Z_scope.

(** ** The float by its bits *)

Definition isNegative (bits : Z) : bool := signBit ≤b bits.

(** The value is [m · 2^e] for finite bits. *)
Definition mantissaExponent (bits : Z) : Z * Z :=
  let exp := Z.land (Z.shiftr bits 52) 0x7FF in
  let frac := Z.land bits (2 ^ 52 - 1) in
  if exp =b 0 then (frac, -1074) else (frac + 2 ^ 52, exp - 1075).

(** ** The shortest digits *)

(** [decimalSlice]: the digits [d] and the position of the point. *)
Record decimal := Decimal { dec_d : bytes; dec_dp : Z }.

Definition decimalOf (c q : Z) : decimal :=
  let t := utoa c in Decimal (trimZeros t) (q + Z.of_nat (length t)).

(** Whether the digits read back as the float; a float32 is kept as its float64. *)
Definition sameValue (m1 e1 m2 e2 : Z) : bool :=
  let e := Z.min e1 e2 in m1 * 2 ^ (e1 - e) =b m2 * 2 ^ (e2 - e).

Definition readsBack (bits bitSize : Z) (d : decimal) : bool :=
  let m := digitsZ (dec_d d) in let q := dec_dp d - Z.of_nat (length (dec_d d)) in
  if bitSize =b 32 then
    match roundDecimalTo 24 128 (isNegative bits) m q with
    | S754_finite _ m1 e1 => let '(m2, e2) := mantissaExponent bits in sameValue (Zpos m1) e1 m2 e2
    | _ => false
    end
  else Float64bits (roundDecimal (isNegative bits) m q) =b bits.

(** The nearest decimals of [n] digits below and above [a / b], the nearer one
    first; a tie goes to the even digit. *)
Definition candidates (a b dp n : Z) : decimal * decimal :=
  let s := n - dp in
  let num := a * 10 ^ Z.max s 0 in let den := b * 10 ^ Z.max (- s) 0 in
  let c := num / den in let r := num mod den in
  let lo := decimalOf c (- s) in let hi := decimalOf (c + 1) (- s) in
  if (2 * r <b den) || ((2 * r =b den) && Z.even c) then (lo, hi) else (hi, lo).

Fixpoint shortest_loop (fuel : nat) (bits bitSize a b dp n : Z) : option decimal :=
  match fuel with
  | O => None
  | S fuel =>
      let '(near, far) := candidates a b dp n in
      if readsBack bits bitSize near then Some near
      else if readsBack bits bitSize far then Some far
      else shortest_loop fuel bits bitSize a b dp (n + 1)
  end.

(** [a / b] is the value and [10^(dp-1) ≤ a/b < 10^dp]; seventeen digits tell
    any two floats apart. *)
Definition shortest (bits bitSize : Z) : option decimal :=
  let '(m, e) := mantissaExponent bits in
  if m =b 0 then Some (Decimal [] 0)
  else
    let a := m * 2 ^ Z.max e 0 in let b := 2 ^ Z.max (- e) 0 in
    let dp := if b ≤b a then Z.of_nat (length (utoa (a / b))) else 1 - Z.of_nat (length (utoa ((b - 1) / a))) in
    shortest_loop 17 bits bitSize a b dp 1.

(** ** Layout *)

(** [%e] with all the digits; the exponent has two digits at least. *)
Definition fmtE (d : decimal) : bytes :=
  let exp := if (length (dec_d d) =? 0)%nat then 0 else dec_dp d - 1 in
  [default c0 (head (dec_d d))] ++ (if (1 <? length (dec_d d))%nat then DOT :: drop 1 (dec_d d) else []) ++
  [ce; if exp <b 0 then MINUS else PLUS] ++ zero_padded 2 (Z.abs exp).

(** [%f] with [max (nd - dp) 0] digits after the point. *)
Definition fmtF (d : decimal) : bytes :=
  let nd := length (dec_d d) in let dp := Z.to_nat (dec_dp d) in
  let prec := Z.to_nat (Z.of_nat nd - dec_dp d) in
  (if 0 <b dec_dp d then take dp (dec_d d) ++ replicate (dp - nd) c0 else [c0]) ++
  (if (0 <? prec)%nat then DOT :: replicate (Z.to_nat (- dec_dp d)) c0 ++ drop dp (dec_d d) else []).

(** [%e] is used when the exponent is less than -4 or at least 6. *)
Definition formatDigits (d : decimal) : bytes :=
  let exp := dec_dp d - 1 in
  if (exp <b -4) || (6 ≤b exp) then fmtE d else fmtF d.

Definition FormatFloat (bits bitSize : Z) : bytes :=
  (if isNegative bits then [MINUS] else []) ++ formatDigits (default (Decimal [] 0) (shortest bits bitSize)).

Example FormatFloat_examples :
  map (λ b, FormatFloat b 64) [0; signBit; 0x3FF8000000000000; 0xBFB999999999999A; 0x40F86A0000000000; 0x412E848000000000; 0x3EE4F8B588E368F1] =
  map str ["0"; "-0"; "1.5"; "-0.1"; "100000"; "1e+06"; "1e-05"]%string ∧ FormatFloat 0x3FB99999A0000000 32 = str "0.1".
Proof. vm_compute. repeat split. Qed.

(** ** Rounding does not see a zero added after the point *)

Lemma digits2_log2 p : Zpos (digits2_pos p) = Z.log2 (Zpos p) + 1.
Proof.
  induction p as [p IH|p IH|]; [| |done]; cbn [digits2_pos]; rewrite Pos2Z.inj_succ, IH.
  - change (Zpos (xI p)) with (2 * Zpos p + 1). rewrite Z.log2_succ_double by lia. lia.
  - change (Zpos (xO p)) with (2 * Zpos p). rewrite Z.log2_double by lia. lia.
Qed.

Lemma Zdigits2_log2 m : 0 < m → Zdigits2 m = Z.log2 m + 1.
Proof. intros H. destruct m as [|p|p]; [lia|apply digits2_log2|lia]. Qed.

Lemma iter_xO m d : Zpos (Pos.iter xO m d) = Zpos m * 2 ^ Zpos d.
Proof.
  induction d as [|d IH] using Pos.peano_ind; [cbn; lia|].
  rewrite Pos.iter_succ, Pos2Z.inj_succ, Z.pow_succ_r by lia. change (Zpos (xO (Pos.iter xO m d))) with (2 * Zpos (Pos.iter xO m d)). lia.
Qed.

Lemma iter_pos_iter {A} (f : A → A) n : ∀ x, SpecFloat.iter_pos f n x = Pos.iter f x n.
Proof.
  induction n as [n IH|n IH|]; intros x; cbn [SpecFloat.iter_pos Pos.iter]; [| |done]; rewrite !IH; [|done].
  by rewrite <-!Pos.iter_swap.
Qed.

Lemma iter_pos_succ {A} (f : A → A) n x : SpecFloat.iter_pos f (Pos.succ n) x = SpecFloat.iter_pos f n (f x).
Proof. rewrite !iter_pos_iter, Pos.iter_succ. by rewrite Pos.iter_swap. Qed.

Section rounding.
Context (prec emax : Z).

(** One more bit of an exact value is shifted out again. *)
Lemma binary_round_aux_double neg m e :
  0 < m → e ≤ fexp prec emax (Zdigits2 m + e) →
  binary_round_aux prec emax neg (2 * m) (e - 1) loc_Exact = binary_round_aux prec emax neg m e loc_Exact.
Proof using Type.
  intros Hm He. unfold binary_round_aux.
  assert (shr_fexp prec emax (2 * m) (e - 1) loc_Exact = shr_fexp prec emax m e loc_Exact) as ->; [|done].
  unfold shr_fexp. rewrite !Zdigits2_log2 in * by lia. rewrite Z.log2_double by lia.
  replace (Z.succ (Z.log2 m) + 1 + (e - 1)) with (Z.log2 m + 1 + e) by lia.
  set (x := fexp prec emax (Z.log2 m + 1 + e)) in *. cbn [shr_record_of_loc].
  destruct m as [|p|p]; [lia| |lia]. change (2 * Zpos p) with (Zpos (xO p)).
  destruct (x - e) as [|n|n] eqn:En; [| |lia].
  - replace (x - (e - 1)) with 1 by lia. cbn. f_equal. lia.
  - replace (x - (e - 1)) with (Zpos (Pos.succ n)) by lia. unfold shr. rewrite iter_pos_succ. cbn [shr_1 orb]. f_equal. lia.
Qed.
End rounding.

(** The integer [m] at the scale the rounding of [binary_round] starts from. *)
Lemma binary_round_scaled neg p :
  binary_round 53 1024 neg p 0 =
  (let e := Z.min 0 (Z.log2 (Zpos p) - 52) in binary_round_aux 53 1024 neg (Zpos p * 2 ^ (- e)) e loc_Exact).
Proof.
  unfold binary_round, shl_align. rewrite digits2_log2, Z.add_0_r, Z.sub_0_r.
  pose proof (Z.log2_nonneg (Zpos p)). assert (fexp 53 1024 (Z.log2 (Zpos p) + 1) = Z.log2 (Zpos p) - 52) as ->.
  { unfold fexp, emin. lia. }
  cbv zeta. destruct (Z.log2 (Zpos p) - 52) as [|d|d] eqn:E.
  - by rewrite Z.mul_1_r.
  - rewrite Z.min_l by lia. by rewrite Z.mul_1_r.
  - rewrite Z.min_r by lia. rewrite iter_xO. done.
Qed.

(** [m · 10 · 10^-1] is rounded as [m]. *)
Lemma roundDecimal_point neg m : 0 ≤ m → roundDecimal neg (m * 10) (-1) = roundDecimal neg m 0.
Proof.
  intros Hm. unfold roundDecimal, roundDecimalTo. destruct m as [|p|p]; [done| |lia].
  change (Zpos p * 10) with (Zpos (p * 10)). change (0 ≤b -1) with false. change (0 ≤b 0) with true. cbv iota.
  change (10 ^ (- (-1))) with 10. change (10 ^ 0) with 1. rewrite Z.mul_1_r. rewrite binary_round_scaled. cbv zeta.
  unfold SFdiv_core_binary. rewrite !Zdigits2_log2 by lia. change (Z.log2 10 + 1) with 4. rewrite !Z.add_0_r, !Z.sub_0_r.
  change (Zpos (p * 10)) with (Zpos p * 10). set (m := Zpos p) in *. set (l := Z.log2 m).
  assert (l + 3 ≤ Z.log2 (m * 10) ≤ l + 4) as Hl.
  { unfold l. split.
    - replace (Z.log2 m + 3) with (Z.log2 (m * 2 ^ 3)) by (rewrite Z.log2_mul_pow2; lia). apply Z.log2_le_mono. lia.
    - replace (Z.log2 m + 4) with (Z.log2 (m * 2 ^ 4)) by (rewrite Z.log2_mul_pow2; lia). apply Z.log2_le_mono. lia. }
  pose proof (Z.log2_nonneg m). fold l in H.
  assert (fexp 53 1024 (Z.log2 (m * 10) + 1 - 4) = Z.log2 (m * 10) - 56) as -> by (unfold fexp, emin; lia).
  set (e := Z.min (Z.log2 (m * 10) - 56) 0). rewrite Z.sub_0_l.
  assert ((match - e with Z0 => m * 10 | Zpos _ => Z.shiftl (m * 10) (- e) | Zneg _ => 0 end) = m * 2 ^ (- e) * 10) as ->.
  { destruct (- e) as [|k|k] eqn:Ek; [lia| |lia]. rewrite Z.shiftl_mul_pow2 by lia. lia. }
  assert (Z.div_eucl (m * 2 ^ (- e) * 10) 10 = (m * 2 ^ (- e), 0)) as ->.
  { pose proof (Z.div_mul (m * 2 ^ (- e)) 10 ltac:(lia)) as H1. pose proof (Z.mod_mul (m * 2 ^ (- e)) 10 ltac:(lia)) as H2.
    unfold Z.div, Z.modulo in H1, H2. destruct (Z.div_eucl _ 10). congruence. }
  change (new_location 10 0) with loc_Exact.
  destruct (decide (e = Z.min 0 (l - 52))) as [E|E]; [by rewrite E|].
  set (e' := Z.min 0 (l - 52)) in *. assert (e = e' - 1) as -> by lia. clear E.
  replace (m * 2 ^ (- (e' - 1))) with (2 * (m * 2 ^ (- e'))).
  2:{ replace (- (e' - 1)) with (Z.succ (- e')) by lia. rewrite Z.pow_succ_r by lia. lia. }
  assert (0 < m * 2 ^ (- e')) as Hpos by (apply Z.mul_pos_pos; [lia|apply Z.pow_pos_nonneg; lia]).
  apply binary_round_aux_double; [done|]. rewrite Zdigits2_log2 by done. rewrite Z.log2_mul_pow2 by lia. fold l.
  unfold fexp, emin. lia.
Qed.

(** ** Reading the layouts *)

Abbreviation all_digits ds := (Forall (λ c, isDigit c = true) ds).

Lemma foldl_digitsZ ds : ∀ v, foldl (λ v c, v * 10 + (c - c0)) v ds = v * 10 ^ Z.of_nat (length ds) + digitsZ ds.
Proof.
  unfold digitsZ. induction ds as [|c ds IH]; intros v; cbn [foldl length]; [cbn; lia|].
  rewrite IH, (IH (0 * 10 + (c - c0))), Nat2Z.inj_succ, Z.pow_succ_r by lia. lia.
Qed.

Lemma digitsZ_app a b : digitsZ (a ++ b) = digitsZ a * 10 ^ Z.of_nat (length b) + digitsZ b.
Proof. unfold digitsZ at 1. rewrite foldl_app. apply foldl_digitsZ. Qed.

Lemma digitsZ_zeros n : digitsZ (replicate n c0) = 0.
Proof. induction n as [|n IH]; [done|]. cbn [replicate]. change (c0 :: replicate n c0) with ([c0] ++ replicate n c0). rewrite digitsZ_app, IH. cbn. lia. Qed.

Lemma digitsZ_value ds : all_digits ds → ∀ v, digits_value v ds = Some (foldl (λ v c, v * 10 + (c - c0)) v ds).
Proof. induction 1 as [|c ds Hc _ IH]; intros v; [done|]. cbn [digits_value foldl]. by rewrite Hc, IH. Qed.

Lemma digitsZ_digits w n : 0 ≤ n < 10 ^ Z.of_nat w → digitsZ (digits w n) = n.
Proof.
  intros Hn. pose proof (digitsZ_value (digits w n) (digits_isDigit w n) 0) as H. rewrite digits_value_digits in H by done.
  apply (inj Some) in H. unfold digitsZ. lia.
Qed.

Lemma digitsZ_snoc ds c : digitsZ (ds ++ [c]) = digitsZ ds * 10 + (c - c0).
Proof. unfold digitsZ. by rewrite foldl_app. Qed.

Lemma digitsZ_nonneg ds : all_digits ds → 0 ≤ digitsZ ds.
Proof.
  induction ds as [|c ds IH] using rev_ind; [done|]. intros [Hd Hc]%Forall_app. rewrite digitsZ_snoc. apply Forall_cons in Hc as [Hc _].
  specialize (IH Hd). unfold isDigit in Hc. lia.
Qed.

Lemma readExponent_digitsZ ds : all_digits ds → digitsZ ds < 10000 → readExponent ds = digitsZ ds.
Proof.
  induction ds as [|c ds IH] using rev_ind; [done|]. intros [Hd Hc]%Forall_app Hlt. apply Forall_cons in Hc as [Hc _].
  pose proof (digitsZ_nonneg ds Hd). rewrite digitsZ_snoc in *. unfold isDigit in Hc.
  unfold readExponent in *. rewrite foldl_app. cbn [foldl]. rewrite IH by (done || lia). case_match; lia.
Qed.

(** An optional point with digits after it, and an optional exponent. *)
Definition pointed (fp : bytes) : bytes := match fp with [] => [] | _ => DOT :: fp end.
Definition exponent (o : option (bool * bytes)) : bytes :=
  match o with None => [] | Some (s, ds) => ce :: (if s : bool then MINUS else PLUS) :: ds end.
Definition layout (neg : bool) (ip fp : bytes) (o : option (bool * bytes)) : bytes :=
  (if neg then [MINUS] else []) ++ ip ++ pointed fp ++ exponent o.

(** A number without superfluous zeros in front, and digits wherever they must be. *)
Definition layout_ok (ip fp : bytes) (o : option (bool * bytes)) : Prop :=
  ip ≠ [] ∧ all_digits ip ∧ (head ip = Some c0 → ip = [c0]) ∧ all_digits fp ∧
  match o with Some (_, ds) => ds ≠ [] ∧ all_digits ds | None => True end.

Definition exponentZ (o : option (bool * bytes)) : Z :=
  match o with None => 0 | Some (s, ds) => (if s : bool then -1 else 1) * readExponent ds end.

Definition digit_stop (rest : bytes) : Prop := match rest with c :: _ => isDigit c = false | [] => True end.

Lemma spanDigits_app ds rest : all_digits ds → digit_stop rest → spanDigits (ds ++ rest) = (ds, rest).
Proof.
  intros Hd Hr. unfold spanDigits. assert (find_stop (λ c, negb (isDigit c)) (ds ++ rest) = length ds) as ->.
  { induction Hd as [|c ds Hc _ IH]; cbn [app length find_stop]; [|by rewrite Hc, IH].
    destruct rest as [|c rest]; [done|]. cbn in Hr. cbn [find_stop]. by rewrite Hr. }
  by rewrite take_app_length, drop_app_length.
Qed.

Lemma splitSign_digits s ds : head ds ≠ Some PLUS → head ds ≠ Some MINUS → 
  splitSign ((if s : bool then [MINUS] else []) ++ ds) = ((if s then -1 else 1), ds).
Proof.
  intros H1 H2. destruct s; [done|]. cbn [app]. destruct ds as [|c ds]; [done|]. unfold splitSign.
  destruct (Z.eqb_spec c PLUS) as [->|]; [done|]. destruct (Z.eqb_spec c MINUS) as [->|]; done.
Qed.

Lemma digits_head ds rest : ds ≠ [] → all_digits ds → head (ds ++ rest) ≠ Some PLUS ∧ head (ds ++ rest) ≠ Some MINUS.
Proof.
  intros Hne Hd. destruct ds as [|c ds]; [done|]. apply Forall_cons in Hd as [Hc _]. unfold isDigit in Hc. cbn [app head].
  split; intros [= ->]; done.
Qed.

(** What [strconv.ParseFloat] sees in a number laid out like this. *)
Lemma readFloat_layout neg ip fp o : layout_ok ip fp o →
  readFloat (layout neg ip fp o) = Some (neg, ip ++ fp, - Z.of_nat (length fp) + exponentZ o).
Proof.
  intros (Hne & Hip & _ & Hfp & Ho). unfold readFloat, layout.
  destruct (digits_head ip (pointed fp ++ exponent o) Hne Hip) as [Hh1 Hh2].
  rewrite splitSign_digits by done. rewrite spanDigits_app; [|done|by destruct fp, o as [[]|]].
  assert (match pointed fp ++ exponent o with
    | [] => ([], pointed fp ++ exponent o) | c :: t => if c =b DOT then spanDigits t else ([], pointed fp ++ exponent o) end = (fp, exponent o)) as ->.
  { destruct fp as [|c fp]; cbn [pointed app]; [by destruct o as [[[] ?]|]|]. change (DOT =b DOT) with true. cbv iota.
    apply (spanDigits_app (c :: fp)); [done|by destruct o as [[]|]]. }
  rewrite (proj2 (Nat.eqb_neq _ _)) by (rewrite length_app; destruct ip; [done|simpl; lia]).
  assert (((if neg then -1 else 1) <b 0) = neg) as -> by (by destruct neg).
  destruct o as [[s ds]|]; cbn [exponent exponentZ]; [|by rewrite Z.add_0_r].
  change (lowerASCII ce =b ce) with true. cbv iota. destruct Ho as [Hdne Hd].
  destruct (digits_head ds [] Hdne Hd) as [Hd1 Hd2]. rewrite app_nil_r in Hd1, Hd2.
  assert (splitSign ((if s then MINUS else PLUS) :: ds) = ((if s then -1 else 1), ds)) as -> by (by destruct s).
  rewrite <-(app_nil_r ds) at 1. rewrite spanDigits_app by done. cbn [length Nat.eqb negb orb]. rewrite orb_false_r.
  rewrite (proj2 (Nat.eqb_neq _ _)) by (by destruct ds). done.
Qed.

(** ** The layout of the shortest digits *)

Lemma utoa_facts n : 0 ≤ n → all_digits (utoa n) ∧ utoa n ≠ [] ∧ (n ≠ 0 → head (utoa n) ≠ Some c0).
Proof.
  intros Hn. destruct (utoa_shape n Hn) as (k & -> & Hlt & Hk).
  split; [apply digits_isDigit|]. rewrite digits_first. split; [done|]. intros Hn0 [= E].
  assert (1 ≤ n / 10 ^ Z.of_nat k < 10); [|rewrite Z.mod_small in E; lia].
  rewrite Nat2Z.inj_succ, Z.pow_succ_r in Hlt by lia. destruct Hk as [->|Hk].
  - rewrite Z.pow_0_r, Z.div_1_r in *. lia.
  - split; [apply Z.div_le_lower_bound; lia|apply Z.div_lt_upper_bound; lia].
Qed.

(** Digits as the formatter gets them: none for zero, otherwise the first is not
    zero. *)
Definition decimal_ok (d : decimal) : Prop :=
  (dec_d d = [] ∧ dec_dp d = 0) ∨ (dec_d d ≠ [] ∧ all_digits (dec_d d) ∧ head (dec_d d) ≠ Some c0).

Lemma decimalOf_ok c q : 0 < c → decimal_ok (decimalOf c q).
Proof.
  intros Hc. destruct (utoa_facts c ltac:(lia)) as (Hd & Hne & Hh). specialize (Hh ltac:(lia)). right. cbn [decimalOf dec_d].
  destruct (trimZeros_spec (utoa c)) as [k Hk]. destruct (trimZeros (utoa c)) as [|x t] eqn:E.
  - exfalso. rewrite Hk in Hne, Hh. by destruct k.
  - split; [done|]. rewrite Hk in Hd, Hh. apply Forall_app in Hd as [Hd _]. done.
Qed.

(** The digits the search returns: those of zero, or some that read back. *)
Lemma shortest_spec bits d : 0 ≤ bits < 2 ^ 64 → shortest bits 64 = Some d →
  decimal_ok d ∧ Float64bits (roundDecimal (isNegative bits) (digitsZ (dec_d d)) (dec_dp d - Z.of_nat (length (dec_d d)))) = bits.
Proof.
  unfold shortest. intros Hb. destruct (mantissaExponent bits) as [m e] eqn:Em.
  assert (0 ≤ m ∧ (m = 0 ↔ bits = 0 ∨ bits = signBit)) as [Hm0 Hm].
  { unfold mantissaExponent in Em. change (2 ^ 52 - 1) with (Z.ones 52) in Em. change 0x7FF with (Z.ones 11) in Em.
    rewrite !Z.land_ones, Z.shiftr_div_pow2 in Em by lia. unfold signBit.
    change (2 ^ 52) with 4503599627370496 in *. change (2 ^ 11) with 2048 in *. change (2 ^ 63) with 9223372036854775808. change (2 ^ 64) with 18446744073709551616 in *.
    case_match; injection Em as <- _; Z.div_mod_to_equations; lia. }
  destruct (Z.eqb_spec m 0) as [->|Hne].
  { intros [= <-]. split; [by left|]. cbn [dec_d dec_dp length]. destruct Hm as [[->| ->] _]; [done|done|done]. }
  assert (∀ d, decimal_ok d ∨ dec_d d = [] → readsBack bits 64 d = true → decimal_ok d ∧
    Float64bits (roundDecimal (isNegative bits) (digitsZ (dec_d d)) (dec_dp d - Z.of_nat (length (dec_d d)))) = bits) as Hread.
  { intros d' Hd'. unfold readsBack. change (64 =b 32) with false. cbv iota. intros H%Z.eqb_eq. split; [|done].
    destruct Hd' as [|E]; [done|]. exfalso. apply Hne, Hm. rewrite E in H. cbn in H. revert H. destruct (isNegative bits); auto. }
  assert (∀ c q, 0 ≤ c → decimal_ok (decimalOf c q) ∨ dec_d (decimalOf c q) = []) as Hof.
  { intros c q Hc. destruct (decide (c = 0)) as [->|]; [by right|]. left. apply decimalOf_ok. lia. }
  set (a := m * 2 ^ Z.max e 0). set (b := 2 ^ Z.max (- e) 0).
  assert (0 ≤ a ∧ 0 < b) as [Ha Hb'].
  { unfold a, b. split; [apply Z.mul_nonneg_nonneg; [done|apply Z.pow_nonneg; lia]|apply Z.pow_pos_nonneg; lia]. }
  generalize (if b ≤b a then Z.of_nat (length (utoa (a / b))) else 1 - Z.of_nat (length (utoa ((b - 1) / a)))) as dp. intros dp.
  generalize 17%nat as fuel. generalize 1 as n. intros n fuel. revert n. induction fuel as [|fuel IH]; intros n; cbn [shortest_loop]; [done|].
  assert (∀ x y, candidates a b dp n = (x, y) → (decimal_ok x ∨ dec_d x = []) ∧ (decimal_ok y ∨ dec_d y = [])) as Hcand.
  { intros x y. unfold candidates.
    assert (0 ≤ a * 10 ^ Z.max (n - dp) 0 / (b * 10 ^ Z.max (- (n - dp)) 0)).
    { apply Z.div_pos; [apply Z.mul_nonneg_nonneg; [done|apply Z.pow_nonneg; lia]|apply Z.mul_pos_pos; [done|apply Z.pow_pos_nonneg; lia]]. }
    case_match; intros [= <- <-]; split; apply Hof; lia. }
  destruct (candidates a b dp n) as [near far]. destruct (Hcand near far eq_refl) as [Hn Hf].
  destruct (readsBack bits 64 near) eqn:E1; [intros [= <-]; by apply Hread|].
  destruct (readsBack bits 64 far) eqn:E2; [intros [= <-]; by apply Hread|]. apply IH.
Qed.

Lemma readExponent_padded x : 0 ≤ x < 1000 → readExponent (zero_padded 2 x) = x ∧ all_digits (zero_padded 2 x) ∧ zero_padded 2 x ≠ [].
Proof.
  intros Hx. assert (∃ w, zero_padded 2 x = digits (S w) x ∧ x < 10 ^ Z.of_nat (S w)) as (w & -> & Hw).
  { destruct (decide (x < 100)); [exists 1%nat; split; [apply zero_padded_digits; simpl; lia|done]|].
    exists 2%nat. split; [|simpl; lia]. unfold zero_padded. replace (x <b 0) with false by lia. rewrite (utoa_digits x 2) by (simpl; lia). done. }
  split; [|split; [apply digits_isDigit|]].
  - rewrite readExponent_digitsZ; [apply digitsZ_digits; lia|apply digits_isDigit|]. rewrite digitsZ_digits by lia. lia.
  - intros E. apply (f_equal length) in E. by rewrite digits_length in E.
Qed.

(** Each layout denotes the digits at their point. *)
Lemma formatDigits_layout d : decimal_ok d → -1000 < dec_dp d - 1 < 1000 → ∃ ip fp o,
  formatDigits d = layout false ip fp o ∧ layout_ok ip fp o ∧
  ∀ neg, roundDecimal neg (digitsZ (ip ++ fp)) (- Z.of_nat (length fp) + exponentZ o) =
         roundDecimal neg (digitsZ (dec_d d)) (dec_dp d - Z.of_nat (length (dec_d d))).
Proof.
  destruct d as [ds dp]. cbn [dec_d dec_dp]. intros [[E1 E2]|(Hne & Hds & Hh)] Hdp; cbn [dec_d dec_dp] in *.
  { subst. exists [c0], [], None. split; [done|]. split; [|done]. repeat split; try done. repeat constructor. }
  unfold formatDigits. cbn [dec_d dec_dp]. destruct ((dp - 1 <b -4) || (6 ≤b dp - 1)) eqn:Hexp.
  { unfold fmtE. cbn [dec_d dec_dp]. rewrite (proj2 (Nat.eqb_neq _ _)) by (by destruct ds). destruct ds as [|c ds]; [done|].
    apply Forall_cons in Hds as [Hc Hds]. cbn [head default length drop].
    destruct (readExponent_padded (Z.abs (dp - 1)) ltac:(lia)) as (He & Hed & Hene).
    exists [c], ds, (Some (dp - 1 <b 0, zero_padded 2 (Z.abs (dp - 1)))). split; [|split].
    - unfold layout. cbn [app exponent]. f_equal. destruct ds as [|c' ds]; done.
    - unfold layout_ok. split; [done|]. split; [by repeat constructor|]. split; [cbn; congruence|]. done.
    - intros neg. cbn [app exponentZ]. rewrite He. f_equal. cbn [length]. destruct (dp - 1 <b 0) eqn:?; lia. }
  unfold fmtF. cbn [dec_d dec_dp]. destruct (0 <b dp) eqn:Hpos.
  2:{ exists [c0], (replicate (Z.to_nat (- dp)) c0 ++ ds), None.
      replace (Z.to_nat dp) with 0%nat by lia. rewrite drop_0.
      assert (0 < Z.to_nat (Z.of_nat (length ds) - dp))%nat as Hp by (destruct ds; [done|simpl length; lia]).
      rewrite (proj2 (Nat.ltb_lt _ _) Hp). split; [|split].
      - unfold layout, pointed. cbn [exponent]. rewrite app_nil_r. destruct (replicate _ _ ++ ds) eqn:E; [|done].
        apply app_nil in E as [_ E]. done.
      - unfold layout_ok. split; [done|]. split; [by repeat constructor|]. split; [done|]. split; [|done].
        apply Forall_app. split; [|done]. by apply Forall_replicate.
      - intros neg. cbn [exponentZ app]. change (c0 :: replicate (Z.to_nat (- dp)) c0 ++ ds) with ((replicate (S (Z.to_nat (- dp))) c0) ++ ds).
        rewrite digitsZ_app, digitsZ_zeros, length_app, length_replicate. f_equal; lia. }
  destruct (decide (Z.of_nat (length ds) ≤ dp)) as [Hle|Hgt].
  - exists (ds ++ replicate (Z.to_nat dp - length ds) c0), [], None.
    replace (Z.to_nat (Z.of_nat (length ds) - dp)) with 0%nat by lia. rewrite take_ge by lia. cbn [Nat.ltb Nat.leb].
    split; [|split].
    + unfold layout. cbn. done.
    + unfold layout_ok. split; [by destruct ds|]. split; [apply Forall_app; split; [done|by apply Forall_replicate]|].
      split; [destruct ds as [|c ds]; [done|]; cbn [app head]; intros [= ->]; done|done].
    + intros neg. cbn [length exponentZ]. rewrite app_nil_r, digitsZ_app, digitsZ_zeros, length_replicate. rewrite Z.add_0_r.
      unfold roundDecimal, roundDecimalTo. replace (Z.of_nat (Z.to_nat dp - length ds)) with (dp - Z.of_nat (length ds)) by lia.
      replace (0 ≤b - Z.of_nat 0) with true by done. replace (0 ≤b dp - Z.of_nat (length ds)) with true by lia. cbn [Z.of_nat Z.opp].
      rewrite Z.add_0_r. change (10 ^ 0) with 1. rewrite Z.mul_1_r.
      assert (0 < 10 ^ (dp - Z.of_nat (length ds))) as Hpow by (apply Z.pow_pos_nonneg; lia).
      destruct (digitsZ ds) as [|q|q]; [done| |].
      * by destruct (Zpos q * 10 ^ (dp - Z.of_nat (length ds))) eqn:Ez.
      * destruct (Zneg q * 10 ^ (dp - Z.of_nat (length ds))) eqn:Ez; [done|lia|done].
  - exists (take (Z.to_nat dp) ds), (drop (Z.to_nat dp) ds), None.
    replace (Z.to_nat dp - length ds)%nat with 0%nat by lia. rewrite (proj2 (Nat.ltb_lt _ _)) by lia. replace (Z.to_nat (- dp)) with 0%nat by lia.
    cbn [replicate app]. rewrite app_nil_r. split; [|split].
    + unfold layout. cbn [exponent app]. rewrite app_nil_r. f_equal. unfold pointed. destruct (drop (Z.to_nat dp) ds) eqn:E; [|done].
      apply (f_equal length) in E. rewrite length_drop in E. cbn in E. lia.
    + unfold layout_ok. destruct (Z.to_nat dp) as [|k] eqn:Ek; [lia|]. destruct ds as [|c ds]; [done|]. split; [done|].
      split; [by apply Forall_take|]. split; [intros E; by destruct (Hh E)|]. split; [by apply Forall_drop|done].
    + intros neg. rewrite take_drop, length_drop. cbn [exponentZ]. f_equal. lia.
Qed.

(** With a point and a zero added to an integer the text is a float that reads
    back. *)
Definition floatText (bits bitSize : Z) : bytes :=
  let text := FormatFloat bits bitSize in
  if contains_any text (str ".eE") then text else text ++ str ".0".

Lemma layout_neg neg ip fp o : layout neg ip fp o = (if neg then [MINUS] else []) ++ layout false ip fp o.
Proof. done. Qed.

Lemma existsb_digits ds cs : all_digits ds → forallb (λ c, negb (isDigit c)) cs = true → contains_any ds cs = false.
Proof.
  intros Hd Hcs. unfold contains_any. induction Hd as [|c ds Hc _ IH]; [done|]. cbn [existsb]. rewrite IH, orb_false_r.
  apply not_true_iff_false. rewrite existsb_exists. intros (x & Hx & Ex). rewrite forallb_forall in Hcs. specialize (Hcs x Hx).
  apply Z.eqb_eq in Ex as ->. by rewrite Hc in Hcs.
Qed.

Lemma contains_any_app a b cs : contains_any (a ++ b) cs = contains_any a cs || contains_any b cs.
Proof. unfold contains_any. apply existsb_app. Qed.

Lemma layout_contains neg ip fp o : layout_ok ip fp o →
  contains_any (layout neg ip fp o) (str ".eE") = match fp, o with [], None => false | _, _ => true end.
Proof.
  intros (_ & Hip & _). unfold layout. rewrite !contains_any_app, (existsb_digits ip) by done.
  replace (contains_any (if neg then [MINUS] else []) (str ".eE")) with false by (by destruct neg). cbn [orb].
  destruct fp as [|c fp]; cbn [pointed]; [|by unfold contains_any].
  destruct o as [[s ds]|]; [|done]. unfold contains_any. cbn [existsb exponent]. done.
Qed.

Lemma floatText_layout bits d :
  0 ≤ bits < 2 ^ 64 → bits ≠ bitsInf → bits ≠ Z.lor bitsInf signBit → shortest bits 64 = Some d → -1000 < dec_dp d - 1 < 1000 →
  ∃ ip fp o, floatText bits 64 = layout (isNegative bits) ip fp o ∧ layout_ok ip fp o ∧ (fp ≠ [] ∨ o ≠ None) ∧
    ParseFloat (floatText bits 64) = Ok bits.
Proof.
  intros Hb Hi1 Hi2 Hs Hdp. destruct (shortest_spec bits d Hb Hs) as [Hd Hr].
  destruct (formatDigits_layout d Hd Hdp) as (ip & fp & o & Hf & Hok & Hv).
  assert (FormatFloat bits 64 = layout (isNegative bits) ip fp o) as Ht.
  { unfold FormatFloat. rewrite Hs. change (default (Decimal [] 0) (Some d)) with d. by rewrite Hf, <-layout_neg. }
  assert (∀ fp', layout_ok ip fp' o → 
    (∀ neg, roundDecimal neg (digitsZ (ip ++ fp')) (- Z.of_nat (length fp') + exponentZ o) =
            roundDecimal neg (digitsZ (ip ++ fp)) (- Z.of_nat (length fp) + exponentZ o)) →
    ParseFloat (layout (isNegative bits) ip fp' o) = Ok bits) as Hparse.
  { intros fp' Hok' Hv'. unfold ParseFloat. rewrite readFloat_layout by done. rewrite Hv', Hv.
    destruct (roundDecimal _ _ _) as [s|s| |s m e] eqn:E; try (by rewrite Hr). exfalso.
    cbn in Hr. destruct s; [by apply Hi2|]. rewrite Z.lor_0_r in Hr. by apply Hi1. }
  unfold floatText. rewrite Ht, layout_contains by done.
  destruct (decide (fp = [] ∧ o = None)) as [[-> ->]|Hno].
  - exists ip, [c0], None. assert (layout_ok ip [c0] None) as Hok'.
    { destruct Hok as (? & ? & ? & _). repeat split; try done. repeat constructor. }
    assert (layout (isNegative bits) ip [] None ++ str ".0" = layout (isNegative bits) ip [c0] None) as Etext.
    { unfold layout. cbn [pointed exponent]. by rewrite !app_nil_r, <-app_assoc. }
    rewrite Etext. split; [done|]. split; [done|]. split; [by left|]. apply Hparse; [done|]. intros neg. rewrite app_nil_r, digitsZ_app.
    cbn [length exponentZ]. change (digitsZ [c0]) with 0. rewrite !Z.add_0_r. apply (roundDecimal_point neg (digitsZ ip)).
    apply digitsZ_nonneg, Hok.
  - exists ip, fp, o. assert (match fp, o with [], None => false | _, _ => true end = true) as ->.
    { destruct fp; [|done]. destruct o; [done|]. by destruct Hno. }
    split; [done|]. split; [done|]. split; [|by apply Hparse]. destruct fp; [|by left]. destruct o; [by right|]. by destruct Hno.
Qed.
