(* ===== verification/TomlKey.v ===== *)
(** Keys of [pkg/toml] (value.go, decoder.go): bare, quoted and dotted keys and
    table headers, against the TOML grammar of keys. *)
From S2P Require Import Prelude Scan TomlBase TomlString.

Definition isSimpleBareKey (raw : bytes) : bool :=
  if length raw =? 0 then false else forallb bareKeyClass raw.

(** [bytesTrimSpace] drops blanks and newlines, [bytesTrimRightSpaces] blanks. *)
Definition isSpace (c : Z) : bool := (c =b SP) || (c =b TAB) || (c =b LF) || (c =b CR).

Fixpoint trim_left_while (p : Z → bool) (s : bytes) : bytes :=
  match s with
  | [] => []
  | c :: s' => if p c then trim_left_while p s' else s
  end.

Definition trim_right_while (p : Z → bool) (s : bytes) : bytes :=
  rev (trim_left_while p (rev s)).

Definition bytesTrimSpace (raw : bytes) : bytes :=
  trim_right_while isSpace (trim_left_while isSpace raw).

Definition bytesTrimRightSpaces (raw : bytes) : bytes := trim_right_while isBlank raw.

(** [bytes.TrimLeft(raw, " \t")]. *)
Definition trimBlanks (raw : bytes) : bytes := trim_left [SP; TAB] raw.

Definition trimHeaderKey (raw : bytes) (array : bool) : bytes :=
  let raw := bytesTrimSpace raw in
  let n := length raw in
  if array then
    if 4 <=? n then bytesTrimSpace (slice raw 2 (n - 2)) else []
  else if 2 <=? n then bytesTrimSpace (slice raw 1 (n - 1)) else [].

(** The loop that looks for the closing quote from [end_], with [s = raw[end_:]];
    [skip] is set on the byte after a backslash. *)
Fixpoint quotedKeyEnd (q : Z) (end_ : nat) (s : bytes) (skip : bool) : nat :=
  match s with
  | [] => end_
  | c :: s' =>
      if skip then quotedKeyEnd q (end_ + 1) s' false
      else if (c =b BSLASH) && (q =b DQUOTE) then quotedKeyEnd q (end_ + 1) s' true
      else if c =b q then end_
      else quotedKeyEnd q (end_ + 1) s' false
  end.

Definition dottedKeyError (origLen : nat) (msg : string) : error :=
  SyntaxError 1 1 msg (0, origLen).

Section keys.
Context {K : ScanKernels}.

(** One key segment at the head of [raw]: its value and what follows. *)
Definition parseKeySegment (origLen : nat) (raw : bytes) : res (bytes * bytes) :=
  if (raw !!! 0 =b SQUOTE) || (raw !!! 0 =b DQUOTE) then
    let end_ := quotedKeyEnd (raw !!! 0) 1 (drop 1 raw) false in
    if length raw <=? end_ then Err (dottedKeyError origLen "unterminated quoted key")
    else
      let! v := parseStringValue (slice raw 0 (end_ + 1)) in
      Ok (v, drop (end_ + 1) raw)
  else
    let end_ := find_stop (λ c, (c =b DOT) || (c =b SP) || (c =b TAB)) raw in
    let part := take end_ raw in
    if length part =? 0 then Err (dottedKeyError origLen "empty key segment")
    else if negb (isSimpleBareKey part) then
      Err (dottedKeyError origLen "unexpected token in dotted key")
    else Ok (part, drop end_ raw).

Fixpoint parseDottedKey_loop (fuel origLen : nat) (raw : bytes) (parts : list bytes)
    : res (list bytes) :=
  match fuel with
  | 0 => Err OutOfFuel
  | S fuel =>
      if length raw =? 0 then Ok parts
      else
        let raw := trimBlanks raw in
        if length raw =? 0 then Ok parts
        else
          let! (part, raw) := parseKeySegment origLen raw in
          let parts := parts ++ [part] in
          let raw := trimBlanks raw in
          if length raw =? 0 then Ok parts
          else if raw !!! 0 ≠b DOT then
            Err (dottedKeyError origLen "unexpected token in dotted key")
          else
            let raw := drop 1 raw in
            if length (trimBlanks raw) =? 0 then Err (dottedKeyError origLen "empty key segment")
            else parseDottedKey_loop fuel origLen raw parts
  end.

(** Every iteration consumes a segment and a dot. *)
Definition parseDottedKey (raw : bytes) : res (list bytes) :=
  let origLen := length raw in
  let raw := bytesTrimSpace raw in
  let! parts := parseDottedKey_loop (S (length raw)) origLen raw [] in
  if length parts =? 0 then Err (dottedKeyError origLen "empty key") else Ok parts.

Definition parseHeaderKey (raw : bytes) (array : bool) : res (list bytes) :=
  parseDottedKey (trimHeaderKey raw array).

Definition keyPath (raw : bytes) : res (list bytes) :=
  if isSimpleBareKey raw then Ok [raw] else parseDottedKey raw.
End keys.

(** The path as a map key: the segments separated by a NUL byte. *)
Definition encodedKeyPath (path : list bytes) : bytes :=
  match path with
  | [] => []
  | [p] => p
  | _ => join [0%Z] path
  end.

(** ** The grammar of keys *)

(** The body of a basic string up to its closing quote. *)
Inductive quoted_body : bytes → Prop :=
| qb_nil : quoted_body []
| qb_char c s : c ≠ DQUOTE → c ≠ BSLASH → quoted_body s → quoted_body (c :: s)
| qb_escape c s : quoted_body s → quoted_body (BSLASH :: c :: s).

Inductive key_segment : bytes → bytes → Prop :=
| seg_bare s : s ≠ [] → Forall (λ c, bareKeyClass c = true) s → key_segment s s
| seg_literal body :
    Forall (λ c, c ≠ SQUOTE) body → literal_body false body →
    key_segment (paired SQUOTE body) body
| seg_basic body s :
    quoted_body body → basic_body false body s → key_segment (paired DQUOTE body) s.

Abbreviation blanks s := (Forall (λ c, isBlank c = true) s).

Inductive dotted_key : bytes → list bytes → Prop :=
| dotted_one b1 seg b2 p :
    blanks b1 → key_segment seg p → blanks b2 → dotted_key (b1 ++ seg ++ b2) [p]
| dotted_cons b1 seg b2 p rest ps :
    blanks b1 → key_segment seg p → blanks b2 → dotted_key rest ps →
    dotted_key (b1 ++ seg ++ b2 ++ DOT :: rest) (p :: ps).

(** ** Lemmas *)

Definition blank_free (s : bytes) : Prop :=
  match s with [] => True | c :: _ => isBlank c = false end.

Lemma trimBlanks_cons c s :
  trimBlanks (c :: s) = if isBlank c then trimBlanks s else c :: s.
Proof. unfold trimBlanks, isBlank. cbn. by rewrite orb_false_r. Qed.

Lemma trimBlanks_spec s :
  ∃ b, blanks b ∧ s = b ++ trimBlanks s ∧ blank_free (trimBlanks s).
Proof.
  induction s as [|c s (b & Hb & Hs & Hf)]; [by exists []|]. rewrite trimBlanks_cons.
  destruct (isBlank c) eqn:E.
  - exists (c :: b). split_and!; [by constructor| |done]. simpl. by f_equal.
  - by exists [].
Qed.

Lemma trimBlanks_app b t : blanks b → trimBlanks (b ++ t) = trimBlanks t.
Proof.
  induction 1 as [|c b Hc _ IH]; [done|]. cbn [app]. by rewrite trimBlanks_cons, Hc.
Qed.

Lemma trimBlanks_free t : blank_free t → trimBlanks t = t.
Proof. destruct t as [|c t]; [done|]. simpl. intros Hc. by rewrite trimBlanks_cons, Hc. Qed.

Lemma length_trimBlanks s : length (trimBlanks s) ≤ length s.
Proof. destruct (trimBlanks_spec s) as (b & _ & Hs & _). rewrite Hs at 2. rewrite length_app. lia. Qed.

(** *** Closing quotes *)

Lemma quotedKeyEnd_literal e s :
  quotedKeyEnd SQUOTE e s false = e + find_stop (λ c, c =b SQUOTE) s.
Proof.
  revert e. induction s as [|c s IH]; intros e; simpl; [lia|].
  rewrite andb_false_r. destruct (c =b SQUOTE); [lia|]. rewrite IH. lia.
Qed.

Lemma quotedKeyEnd_basic_sound n : ∀ e s, length s ≤ n →
  quotedKeyEnd DQUOTE e s false < e + length s →
  ∃ body rest, s = body ++ DQUOTE :: rest ∧ quoted_body body ∧
    quotedKeyEnd DQUOTE e s false = e + length body.
Proof.
  induction n as [|n IH]; intros e [|c s] Hn; cbn [length quotedKeyEnd] in *; try lia.
  rewrite andb_true_r. destruct (Z.eqb_spec c BSLASH) as [->|Hb].
  - destruct s as [|d s]; cbn [quotedKeyEnd length] in *; [lia|]. intros Hlt.
    destruct (IH (e + 1 + 1) s) as (body & rest & -> & Hq & Heq); [lia..|].
    exists (BSLASH :: d :: body), rest. split_and!; [done|by constructor|]. rewrite Heq. simpl. lia.
  - destruct (Z.eqb_spec c DQUOTE) as [->|Hq].
    + intros _. exists [], s. split_and!; [done|constructor|simpl; lia].
    + intros Hlt. destruct (IH (e + 1) s) as (body & rest & -> & Hbody & Heq); [lia..|].
      exists (c :: body), rest. split_and!; [done|by constructor|]. rewrite Heq. simpl. lia.
Qed.

Lemma quotedKeyEnd_basic_complete body rest :
  quoted_body body → ∀ e,
  quotedKeyEnd DQUOTE e (body ++ DQUOTE :: rest) false = e + length body.
Proof.
  induction 1 as [|c s Hq Hb _ IH|c s _ IH]; intros e; cbn [app quotedKeyEnd length].
  - simpl. lia.
  - apply Z.eqb_neq in Hq, Hb. rewrite Hq, Hb. cbn [andb]. rewrite IH. lia.
  - cbn [app quotedKeyEnd]. change ((BSLASH =b BSLASH) && (DQUOTE =b DQUOTE)) with true. cbv iota.
    rewrite IH. lia.
Qed.

Lemma quoted_body_head body : quoted_body body → head body ≠ Some DQUOTE.
Proof. intros [|c s Hq _ _|c s _]; simpl; congruence. Qed.

(** A quoted segment is never a triple-delimited literal. *)
Lemma literal_segment_not_tripled body t :
  Forall (λ c, c ≠ SQUOTE) body → paired SQUOTE body ≠ tripled SQUOTE t.
Proof.
  intros Hb. unfold paired, tripled. intros [= E]. destruct body as [|c body]; [by destruct t|].
  injection E as -> _. by apply Forall_cons in Hb as [? _].
Qed.

Lemma basic_segment_not_tripled body t :
  quoted_body body → paired DQUOTE body ≠ tripled DQUOTE t.
Proof.
  intros Hb%quoted_body_head. unfold paired, tripled. intros [= E].
  destruct body as [|c body]; [by destruct t|]. injection E as -> _. done.
Qed.

Section segments.
Context {K : ScanKernels}.

Lemma take_app_cons (body rest : bytes) q c :
  slice (c :: body ++ q :: rest) 0 (1 + length body + 1) = c :: body ++ [q] ∧
  drop (1 + length body + 1) (c :: body ++ q :: rest) = rest.
Proof using Type.
  rewrite slice_take. replace (1 + length body + 1) with (length (c :: body ++ [q]))
    by (simpl; rewrite length_app; simpl; lia).
  replace (c :: body ++ q :: rest) with ((c :: body ++ [q]) ++ rest)
    by (simpl; by rewrite <-app_assoc).
  split; [by rewrite take_app_length|by rewrite drop_app_length].
Qed.

Lemma parseKeySegment_sound origLen raw p rest :
  Forall is_byte raw → raw ≠ [] → parseKeySegment origLen raw = Ok (p, rest) →
  ∃ seg, raw = seg ++ rest ∧ key_segment seg p ∧ seg ≠ [].
Proof using Type.
  intros Hraw Hne. unfold parseKeySegment. destruct raw as [|c raw]; [done|].
  cbn [lookup_total list_lookup_total drop]. rewrite drop_0.
  destruct ((c =b SQUOTE) || (c =b DQUOTE)) eqn:Eq.
  - case_match eqn:El; [done|]. intros (v & Hv & [= -> <-])%rbind_ok.
    assert (∃ body t, raw = body ++ c :: t ∧ quotedKeyEnd c 1 raw false = 1 + length body ∧
      (c = SQUOTE ∧ Forall (λ c, c ≠ SQUOTE) body ∨ c = DQUOTE ∧ quoted_body body))
      as (body & t & -> & Hend & Hc).
    { apply orb_true_iff in Eq as [->%Z.eqb_eq| ->%Z.eqb_eq].
      - rewrite quotedKeyEnd_literal in El |- *. set (n := find_stop _ _) in *.
        assert (n < length raw) as Hn by (cbn [length] in El; lia).
        exists (take n raw), (drop (S n) raw). split_and!.
        + rewrite <-(take_drop n raw) at 1. f_equal.
          rewrite (drop_S raw (raw !!! n)) by (by apply lookup_total_lt). f_equal.
          apply Z.eqb_eq. apply (find_stop_lookup (λ c, c =b SQUOTE) raw). by apply lookup_total_lt.
        + rewrite length_take. lia.
        + left. split; [done|]. eapply Forall_impl; [apply find_stop_take|]. simpl. lia.
      - destruct (quotedKeyEnd_basic_sound (length raw) 1 raw) as (body & t & -> & Hq & He);
          [done|cbn [length] in El; lia|]. exists body, t. split_and!; [done|done|by right]. }
    rewrite Hend in *. destruct (take_app_cons body t c c) as [Hs Hd]. rewrite Hs in Hv. rewrite Hd.
    exists (paired c body). split_and!; [unfold paired; simpl; by rewrite <-app_assoc| |done].
    apply parseStringValue_sound in Hv.
    2:{ rewrite <-Hs. rewrite slice_take. by apply Forall_take. }
    change (c :: body ++ [c]) with (paired c body) in Hv.
    destruct Hc as [[-> Hb]|[-> Hb]].
    + inversion Hv as [b s _ _ E|b u s _ _ E|b _ Hl E|b s _ _ E].
      * destruct (literal_segment_not_tripled body b Hb). unfold paired, tripled. simpl. by rewrite <-E.
      * apply app_inj_tail in E as [-> _]. subst. by apply seg_literal.
    + inversion Hv as [b s _ _ E|b u s _ _ E|b _ _ E|b s _ Hl E].
      * destruct (basic_segment_not_tripled body b Hb). unfold paired, tripled. simpl. by rewrite <-E.
      * apply app_inj_tail in E as [-> _]. subst. by apply seg_basic.
  - set (n := find_stop _ _). case_match eqn:El; [done|]. case_match eqn:Es; [done|].
    intros [= <- <-]. exists (take n (c :: raw)). rewrite take_drop.
    apply negb_false_iff in Es. unfold isSimpleBareKey in Es. rewrite El in Es.

    split_and!; [done| |].
    + apply seg_bare; [by intros E; rewrite E in El|].
      by apply forallb_Forall.
    + by intros E; rewrite E in El.
Qed.

(** What follows a segment: nothing, a blank or a dot. *)
Definition segment_end (rest : bytes) : Prop :=
  match rest with [] => True | c :: _ => isBlank c = true ∨ c = DOT end.

Lemma parseKeySegment_quoted origLen q body rest v :
  q = SQUOTE ∨ q = DQUOTE → quotedKeyEnd q 1 (body ++ q :: rest) false = 1 + length body →
  parseStringValue (paired q body) = Ok v →
  parseKeySegment origLen (paired q body ++ rest) = Ok (v, rest).
Proof using Type.
  intros Hq Hend Hv. unfold parseKeySegment.
  assert (paired q body ++ rest = q :: body ++ q :: rest) as ->
    by (unfold paired; simpl; by rewrite <-app_assoc).
  cbn [lookup_total list_lookup_total drop]. rewrite drop_0, Hend.
  replace ((q =b SQUOTE) || (q =b DQUOTE)) with true by lia.
  destruct (take_app_cons body rest q q) as [-> ->].
  cbn [length]. rewrite length_app. cbn [length].
  destruct (S (length body + S (length rest)) <=? 1 + length body) eqn:El; [lia|].
  change (q :: body ++ [q]) with (paired q body). by rewrite Hv.
Qed.

Lemma parseKeySegment_bare origLen s rest :
  s ≠ [] → Forall (λ c, bareKeyClass c = true) s → segment_end rest →
  parseKeySegment origLen (s ++ rest) = Ok (s, rest).
Proof using Type.
  intros Hne Hs Hrest. unfold parseKeySegment.
  destruct s as [|c s]; [done|]. pose proof Hs as [Hc _]%Forall_cons.
  assert (((((c :: s) ++ rest) !!! 0 =b SQUOTE) || (((c :: s) ++ rest) !!! 0 =b DQUOTE)) = false) as ->.
  { cbn [app lookup_total list_lookup_total]. unfold bareKeyClass in Hc. lia. }
  assert (find_stop (λ c, (c =b DOT) || (c =b SP) || (c =b TAB)) ((c :: s) ++ rest) = length (c :: s)) as ->.
  { apply find_stop_unique.
    - rewrite length_app. lia.
    - intros d Hd. rewrite lookup_app_r, Nat.sub_diag in Hd by lia.
      destruct rest as [|e rest]; [done|]. injection Hd as ->. unfold segment_end, isBlank in Hrest. lia.
    - intros i d Hi Hd. rewrite lookup_app_l in Hd by done.
      apply (Forall_lookup_1 _ _ _ _ Hs) in Hd. unfold bareKeyClass in Hd. lia. }
  rewrite take_app_length, drop_app_length. unfold isSimpleBareKey.
  by rewrite (proj2 (forallb_Forall bareKeyClass (c :: s)) Hs).
Qed.

Lemma parseKeySegment_complete origLen seg p rest :
  Forall is_byte (seg ++ rest) → key_segment seg p → segment_end rest →
  parseKeySegment origLen (seg ++ rest) = Ok (p, rest).
Proof using Type.
  intros [Hbytes _]%Forall_app Hseg Hrest.
  destruct Hseg as [s Hne Hs|body Hb Hl|body s Hb Hl].
  - by apply parseKeySegment_bare.
  - apply parseKeySegment_quoted; [by left| |].
    + rewrite quotedKeyEnd_literal. f_equal. apply find_stop_unique.
      * rewrite length_app. lia.
      * intros d Hd. rewrite list_lookup_middle in Hd by done. by injection Hd as <-.
      * intros i d Hi Hd. rewrite lookup_app_l in Hd by done.
        apply (Forall_lookup_1 _ _ _ _ Hb) in Hd. lia.
    + apply parseStringValue_complete; [done|]. apply sv_literal; [|done].
      intros t. by apply literal_segment_not_tripled.
  - apply parseKeySegment_quoted; [by right|by apply quotedKeyEnd_basic_complete|].
    apply parseStringValue_complete; [done|]. apply sv_basic; [|done].
    intros t. by apply basic_segment_not_tripled.
Qed.

Lemma key_segment_free seg p rest : key_segment seg p → blank_free (seg ++ rest) ∧ seg ≠ [].
Proof using Type.
  intros [s Hne Hs|body Hb Hl|body s Hb Hl]; [|by split..].
  destruct s as [|c s]; [done|]. split; [|done]. simpl.
  apply Forall_cons in Hs as [Hc _]. unfold isBlank, bareKeyClass in *. lia.
Qed.

(** *** The loop *)

Lemma parseDottedKey_loop_sound fuel origLen : ∀ raw parts out,
  Forall is_byte raw → trimBlanks raw ≠ [] →
  parseDottedKey_loop fuel origLen raw parts = Ok out →
  ∃ ps, dotted_key raw ps ∧ out = parts ++ ps.
Proof using Type.
  induction fuel as [|fuel IH]; intros raw parts out Hraw Hne H; [done|].
  cbn [parseDottedKey_loop] in H. destruct (trimBlanks_spec raw) as (b1 & Hb1 & Hr & _).
  assert (Forall is_byte (trimBlanks raw)) as Hraw1 by (rewrite Hr in Hraw; by apply Forall_app in Hraw as [_ ?]).
  destruct (length raw =? 0) eqn:E0; [by destruct raw|].
  destruct (length (trimBlanks raw) =? 0) eqn:E1; [by destruct (trimBlanks raw)|].
  apply rbind_ok in H as ([p rest] & Hseg & H).
  apply parseKeySegment_sound in Hseg as (seg & Hr1 & Hseg & _); [|done..].
  assert (Forall is_byte rest) as Hrest by (rewrite Hr1 in Hraw1; by apply Forall_app in Hraw1 as [_ ?]).
  destruct (trimBlanks_spec rest) as (b2 & Hb2 & Hr2 & _).
  destruct (length (trimBlanks rest) =? 0) eqn:E2.
  { injection H as <-. exists [p]. split; [|done]. rewrite Hr, Hr1, Hr2.
    destruct (trimBlanks rest); [|done]. rewrite app_nil_r. by apply dotted_one. }
  destruct (trimBlanks rest) as [|c rest'] eqn:Et; [done|].
  cbn [lookup_total list_lookup_total drop] in H. rewrite drop_0 in H.
  destruct (Z.eqb_spec c DOT) as [->|]; [|done]. cbn [negb] in H.
  destruct (length (trimBlanks rest') =? 0) eqn:E3; [done|].
  apply IH in H as (ps & Hps & ->).
  - exists (p :: ps). split; [|by rewrite <-app_assoc].
    rewrite Hr, Hr1, Hr2. by apply dotted_cons.
  - rewrite Hr2 in Hrest. apply Forall_app in Hrest as [_ Hrest]. by apply Forall_cons in Hrest as [_ ?].
  - by destruct (trimBlanks rest').
Qed.

Lemma dotted_key_ne raw ps : dotted_key raw ps → trimBlanks raw ≠ [] ∧ ps ≠ [].
Proof using Type.
  intros [b1 seg b2 p Hb1 Hseg Hb2|b1 seg b2 p rest qs Hb1 Hseg Hb2 _]; (split; [|done]).
  - destruct (key_segment_free seg p b2 Hseg) as [Hf Hn].
    rewrite trimBlanks_app, trimBlanks_free by done. by destruct seg.
  - destruct (key_segment_free seg p (b2 ++ DOT :: rest) Hseg) as [Hf Hn].
    rewrite trimBlanks_app, trimBlanks_free by done. by destruct seg.
Qed.

Lemma blanks_segment_end b rest : blanks b → segment_end rest → segment_end (b ++ rest).
Proof using Type. intros [|c s Hc Hs] Hrest; [done|]. by left. Qed.

Lemma parseDottedKey_loop_complete raw ps :
  dotted_key raw ps → ∀ fuel origLen parts,
  Forall is_byte raw → length raw < fuel →
  parseDottedKey_loop fuel origLen raw parts = Ok (parts ++ ps).
Proof using Type.
  induction 1 as [b1 seg b2 p Hb1 Hseg Hb2|b1 seg b2 p rest qs Hb1 Hseg Hb2 Hrest IH];
    intros [|fuel] origLen parts Hraw Hfuel; try lia; cbn [parseDottedKey_loop].
  - destruct (key_segment_free seg p b2 Hseg) as [Hf Hn].
    rewrite trimBlanks_app, trimBlanks_free by done.
    apply Forall_app in Hraw as [_ Hraw].
    destruct seg as [|c seg]; [done|]. rewrite !length_app.
    destruct (length b1 + (length (c :: seg) + length b2) =? 0) eqn:E0; [simpl in E0; lia|].
    destruct (length (c :: seg) + length b2 =? 0) eqn:E1; [simpl in E1; lia|].
    rewrite (parseKeySegment_complete _ _ p) by
      (done || rewrite <-(app_nil_r b2); by apply blanks_segment_end).
    cbn [rbind]. rewrite <-(app_nil_r b2), trimBlanks_app by done. done.
  - destruct (key_segment_free seg p (b2 ++ DOT :: rest) Hseg) as [Hf Hn].
    rewrite trimBlanks_app, trimBlanks_free by done.
    apply Forall_app in Hraw as [_ Hraw].
    destruct seg as [|c seg]; [done|]. rewrite !length_app in Hfuel |- *. cbn [length] in Hfuel |- *.
    destruct (length b1 + _ =? 0) eqn:E0; [lia|].
    destruct (S (length seg) + _ =? 0) eqn:E1; [lia|].
    rewrite (parseKeySegment_complete _ _ p); [|done|done|apply blanks_segment_end; [done|by right]].
    cbn [rbind]. rewrite trimBlanks_app, trimBlanks_free by done.
    cbn [length lookup_total list_lookup_total drop]. rewrite drop_0. cbn.
    destruct (dotted_key_ne _ _ Hrest) as [Hne _].
    destruct (length (trimBlanks rest) =? 0) eqn:E2; [by destruct (trimBlanks rest)|].
    rewrite IH; [by rewrite <-app_assoc| |lia].
    rewrite !Forall_app, !Forall_cons in Hraw. by destruct Hraw as (_ & _ & _ & ?).
Qed.

Lemma parseKeySegment_no_fuel origLen raw :
  Forall is_byte raw → parseKeySegment origLen raw ≠ Err OutOfFuel.
Proof using Type.
  intros Hraw. unfold parseKeySegment. cbv zeta. repeat (case_match; try done).
  match goal with |- context [parseStringValue ?s] =>
    pose proof (parseStringValue_no_fuel s) as Hn; destruct (parseStringValue s); simpl; [done|] end.
  intros [= ->]. apply Hn; [|done]. rewrite slice_take. by apply Forall_take.
Qed.

Lemma parseDottedKey_loop_no_fuel fuel origLen : ∀ raw parts,
  Forall is_byte raw → length raw < fuel →
  parseDottedKey_loop fuel origLen raw parts ≠ Err OutOfFuel.
Proof using Type.
  induction fuel as [|fuel IH]; intros raw parts Hraw Hfuel; [lia|]. cbn [parseDottedKey_loop].
  destruct (length raw =? 0) eqn:E0; [done|].
  destruct (trimBlanks_spec raw) as (b1 & Hb1 & Hr & _). rewrite Hr in Hraw, Hfuel.
  apply Forall_app in Hraw as [_ Hraw]. rewrite length_app in Hfuel.
  destruct (length (trimBlanks raw) =? 0) eqn:E1; [done|].
  pose proof (parseKeySegment_no_fuel origLen (trimBlanks raw) Hraw) as Hn.
  destruct (parseKeySegment origLen (trimBlanks raw)) as [[p rest]|e] eqn:Es; simpl; [|congruence].
  apply parseKeySegment_sound in Es as (seg & Hr1 & _ & _); [|done|by destruct (trimBlanks raw)].
  rewrite Hr1 in Hraw, Hfuel. apply Forall_app in Hraw as [_ Hraw]. rewrite length_app in Hfuel.
  destruct (trimBlanks_spec rest) as (b2 & _ & Hr2 & _). rewrite Hr2 in Hraw, Hfuel.
  apply Forall_app in Hraw as [_ Hraw]. rewrite length_app in Hfuel.
  repeat (case_match; try done).
  destruct (trimBlanks rest) as [|c t]; [done|]. cbn [drop length] in *.
  apply Forall_cons in Hraw as [_ Hraw]. apply IH; rewrite drop_0; [done|lia].
Qed.

Lemma trim_left_while_spec (p : Z → bool) s :
  ∃ a, s = a ++ trim_left_while p s ∧ match trim_left_while p s with [] => True | c :: _ => p c = false end.
Proof using Type.
  induction s as [|c s (a & Hs & Hh)]; [by exists []|]. simpl. destruct (p c) eqn:E.
  - exists (c :: a). split; [simpl; by f_equal|done].
  - by exists [].
Qed.

Lemma bytesTrimRightSpaces_spec s : ∃ b, s = bytesTrimRightSpaces s ++ b ∧ blanks b.
Proof using Type.
  unfold bytesTrimRightSpaces, trim_right_while.
  assert (∀ t, ∃ a, t = a ++ trim_left_while isBlank t ∧ blanks a) as Hl.
  { induction t as [|c t (a & Ht & Ha)]; [by exists []|]. simpl. destruct (isBlank c) eqn:E.
    - exists (c :: a). split; [simpl; by f_equal|by constructor].
    - by exists []. }
  destruct (Hl (rev s)) as (a & Hs & Ha). exists (rev a). split.
  - rewrite <-rev_app_distr, <-Hs. by rewrite rev_involutive.
  - by apply List.Forall_rev.
Qed.

Lemma bytesTrimSpace_bytes raw : Forall is_byte raw → Forall is_byte (bytesTrimSpace raw).
Proof using Type.
  intros H. unfold bytesTrimSpace, trim_right_while.
  destruct (trim_left_while_spec isSpace raw) as (a & Hr & _). rewrite Hr in H.
  apply Forall_app in H as [_ H]. set (t := trim_left_while isSpace raw) in *. clearbody t.
  destruct (trim_left_while_spec isSpace (rev t)) as (b & Ht & _).
  apply List.Forall_rev in H. rewrite Ht in H. apply Forall_app in H as [_ H]. by apply List.Forall_rev.
Qed.

Lemma trimHeaderKey_bytes raw array : Forall is_byte raw → Forall is_byte (trimHeaderKey raw array).
Proof using Type.
  intros Hb. unfold trimHeaderKey. repeat case_match; try done; apply bytesTrimSpace_bytes;
    unfold slice; by apply Forall_take, Forall_drop, bytesTrimSpace_bytes.
Qed.

Lemma bytesTrimSpace_bare raw :
  Forall (λ c, bareKeyClass c = true) raw → bytesTrimSpace raw = raw.
Proof using Type.
  assert (∀ s, Forall (λ c, bareKeyClass c = true) s → trim_left_while isSpace s = s) as Hleft.
  { intros [|c s] Hs; [done|]. apply Forall_cons in Hs as [Hc _]. simpl.
    replace (isSpace c) with false; [done|]. unfold isSpace, bareKeyClass in *. lia. }
  intros H. unfold bytesTrimSpace, trim_right_while. rewrite (Hleft raw) by done.
  rewrite Hleft by (by apply List.Forall_rev). by rewrite rev_involutive.
Qed.

Lemma parseDottedKey_ok raw ps :
  Forall is_byte raw → parseDottedKey raw = Ok ps ↔ dotted_key (bytesTrimSpace raw) ps.
Proof using Type.
  intros Hraw%bytesTrimSpace_bytes. unfold parseDottedKey. set (t := bytesTrimSpace raw) in *. split.
  - intros (out & Hout & H)%rbind_ok. destruct (length out =? 0) eqn:E; [done|]. injection H as ->.
    apply parseDottedKey_loop_sound in Hout as (qs & Hqs & ->); [done|done|].
    intros Ht. cbn [parseDottedKey_loop] in Hout. rewrite Ht in Hout.
    destruct (length t =? 0); simpl in Hout; by injection Hout as <-.
  - intros H. rewrite (parseDottedKey_loop_complete _ _ H) by (done || lia). simpl.
    destruct (dotted_key_ne _ _ H) as [_ Hne]. by destruct ps.
Qed.

Lemma parseDottedKey_no_fuel raw : Forall is_byte raw → parseDottedKey raw ≠ Err OutOfFuel.
Proof using Type.
  intros Hraw. unfold parseDottedKey.
  pose proof (parseDottedKey_loop_no_fuel (S (length (bytesTrimSpace raw))) (length raw)
    (bytesTrimSpace raw) [] (bytesTrimSpace_bytes raw Hraw) ltac:(lia)) as Hn.
  destruct (parseDottedKey_loop _ _ _ _); simpl; [by case_match|congruence].
Qed.

Lemma keyPath_parseDottedKey raw : Forall is_byte raw → keyPath raw = parseDottedKey raw.
Proof using Type.
  intros Hraw. unfold keyPath. destruct (isSimpleBareKey raw) eqn:Es; [|done]. symmetry.
  apply parseDottedKey_ok; [done|]. unfold isSimpleBareKey in Es.
  destruct (length raw =? 0) eqn:E0; [done|]. apply forallb_Forall in Es.
  rewrite bytesTrimSpace_bare by done. rewrite <-(app_nil_l raw), <-(app_nil_r raw), app_assoc at 1.
  apply (dotted_one []); [done|apply seg_bare; [by destruct raw|done]|done].
Qed.

(** C26: [parseDottedKey] accepts exactly the keys of the TOML grammar (bare and
    quoted segments, blanks around the dots, nothing empty) and returns their
    segments; it always returns; and the bare-key shortcut of [keyPath] gives
    the same answer, errors included. *)
Theorem parseDottedKey_iff raw :
  Forall is_byte raw →
  (∀ ps, parseDottedKey raw = Ok ps ↔ dotted_key (bytesTrimSpace raw) ps) ∧
  parseDottedKey raw ≠ Err OutOfFuel ∧ keyPath raw = parseDottedKey raw.
Proof using Type.
  intros Hraw. split_and!.
  - intros ps. by apply parseDottedKey_ok.
  - by apply parseDottedKey_no_fuel.
  - by apply keyPath_parseDottedKey.
Qed.
End segments.

Lemma parseDottedKey_iff_witness :
  parseDottedKey (K := swar_kernels) (str "a . 'b.c'.d-1 ") = Ok [str "a"; str "b.c"; str "d-1"] ∧
  dotted_key (bytesTrimSpace (str "a . 'b.c'.d-1 ")) [str "a"; str "b.c"; str "d-1"].
Proof.
  split; [by vm_compute|].
  apply (parseDottedKey_iff (K := swar_kernels) (str "a . 'b.c'.d-1 ")); [|by vm_compute].
  by apply (bool_decide_unpack _).
Defined.
