(* ===== verification/Decoder.v ===== *)
(** The token-stream decoder of [pkg/toml] (decoder.go): its state, construction
    and the scanners behind [ReadToken]. *)
From S2P Require Import Prelude GoUtf8 Scan TomlBase Datetime TomlString TomlNumber TomlKey.

(** ** State *)

Record Limits := MkLimits {
  MaxNestedDepth : Z;
  MaxKeyLength : Z;
  MaxStringLength : Z;
  MaxDocumentSize : Z;
}.

Definition defaultLimits : Limits := MkLimits 1024 (64 * 1024) (16 * 2 ^ 20) (16 * 2 ^ 20).

(** [containerStack] has the innermost container first.  [stringArena], which
    only caches the copies of decoded strings, is left out. *)
Record Decoder := MkDecoder {
  buf : bytes;
  off : nat;
  decodeStart : nat;
  line : nat;
  col : nat;
  err : option error;
  decoded : bool;
  expectingValue : bool;
  valueNoNewline : bool;
  needSeparator : bool;
  needLineEnd : bool;
  atLineStart : bool;
  limits : Limits;
  arrayDepth : nat;
  inlineDepth : nat;
  containerStack : list Z;
  localAsUTC : bool;
  copyStrings : bool;
  tokenLine : nat;
  tokenCol : nat;
  tokScalar : tokenScalar;
  trackTokenPositions : bool;
}.

Definition set_buf (v : bytes) (d : Decoder) : Decoder :=
  MkDecoder v (off d) (decodeStart d) (line d) (col d) (err d) (decoded d)
    (expectingValue d) (valueNoNewline d) (needSeparator d) (needLineEnd d)
    (atLineStart d) (limits d) (arrayDepth d) (inlineDepth d) (containerStack d)
    (localAsUTC d) (copyStrings d) (tokenLine d) (tokenCol d) (tokScalar d)
    (trackTokenPositions d).

Definition set_off (v : nat) (d : Decoder) : Decoder :=
  MkDecoder (buf d) v (decodeStart d) (line d) (col d) (err d) (decoded d)
    (expectingValue d) (valueNoNewline d) (needSeparator d) (needLineEnd d)
    (atLineStart d) (limits d) (arrayDepth d) (inlineDepth d) (containerStack d)
    (localAsUTC d) (copyStrings d) (tokenLine d) (tokenCol d) (tokScalar d)
    (trackTokenPositions d).

Definition set_decodeStart (v : nat) (d : Decoder) : Decoder :=
  MkDecoder (buf d) (off d) v (line d) (col d) (err d) (decoded d) (expectingValue d)
    (valueNoNewline d) (needSeparator d) (needLineEnd d) (atLineStart d) (limits d)
    (arrayDepth d) (inlineDepth d) (containerStack d) (localAsUTC d)
    (copyStrings d) (tokenLine d) (tokenCol d) (tokScalar d)
    (trackTokenPositions d).

Definition set_line (v : nat) (d : Decoder) : Decoder :=
  MkDecoder (buf d) (off d) (decodeStart d) v (col d) (err d) (decoded d)
    (expectingValue d) (valueNoNewline d) (needSeparator d) (needLineEnd d)
    (atLineStart d) (limits d) (arrayDepth d) (inlineDepth d) (containerStack d)
    (localAsUTC d) (copyStrings d) (tokenLine d) (tokenCol d) (tokScalar d)
    (trackTokenPositions d).

Definition set_col (v : nat) (d : Decoder) : Decoder :=
  MkDecoder (buf d) (off d) (decodeStart d) (line d) v (err d) (decoded d)
    (expectingValue d) (valueNoNewline d) (needSeparator d) (needLineEnd d)
    (atLineStart d) (limits d) (arrayDepth d) (inlineDepth d) (containerStack d)
    (localAsUTC d) (copyStrings d) (tokenLine d) (tokenCol d) (tokScalar d)
    (trackTokenPositions d).

Definition set_err (v : option error) (d : Decoder) : Decoder :=
  MkDecoder (buf d) (off d) (decodeStart d) (line d) (col d) v (decoded d)
    (expectingValue d) (valueNoNewline d) (needSeparator d) (needLineEnd d)
    (atLineStart d) (limits d) (arrayDepth d) (inlineDepth d) (containerStack d)
    (localAsUTC d) (copyStrings d) (tokenLine d) (tokenCol d) (tokScalar d)
    (trackTokenPositions d).

Definition set_decoded (v : bool) (d : Decoder) : Decoder :=
  MkDecoder (buf d) (off d) (decodeStart d) (line d) (col d) (err d) v (expectingValue d)
    (valueNoNewline d) (needSeparator d) (needLineEnd d) (atLineStart d) (limits d)
    (arrayDepth d) (inlineDepth d) (containerStack d) (localAsUTC d)
    (copyStrings d) (tokenLine d) (tokenCol d) (tokScalar d)
    (trackTokenPositions d).

Definition set_expectingValue (v : bool) (d : Decoder) : Decoder :=
  MkDecoder (buf d) (off d) (decodeStart d) (line d) (col d) (err d) (decoded d) v
    (valueNoNewline d) (needSeparator d) (needLineEnd d) (atLineStart d) (limits d)
    (arrayDepth d) (inlineDepth d) (containerStack d) (localAsUTC d)
    (copyStrings d) (tokenLine d) (tokenCol d) (tokScalar d)
    (trackTokenPositions d).

Definition set_valueNoNewline (v : bool) (d : Decoder) : Decoder :=
  MkDecoder (buf d) (off d) (decodeStart d) (line d) (col d) (err d) (decoded d)
    (expectingValue d) v (needSeparator d) (needLineEnd d) (atLineStart d)
    (limits d) (arrayDepth d) (inlineDepth d) (containerStack d) (localAsUTC d)
    (copyStrings d) (tokenLine d) (tokenCol d) (tokScalar d)
    (trackTokenPositions d).

Definition set_needSeparator (v : bool) (d : Decoder) : Decoder :=
  MkDecoder (buf d) (off d) (decodeStart d) (line d) (col d) (err d) (decoded d)
    (expectingValue d) (valueNoNewline d) v (needLineEnd d) (atLineStart d)
    (limits d) (arrayDepth d) (inlineDepth d) (containerStack d) (localAsUTC d)
    (copyStrings d) (tokenLine d) (tokenCol d) (tokScalar d)
    (trackTokenPositions d).

Definition set_needLineEnd (v : bool) (d : Decoder) : Decoder :=
  MkDecoder (buf d) (off d) (decodeStart d) (line d) (col d) (err d) (decoded d)
    (expectingValue d) (valueNoNewline d) (needSeparator d) v (atLineStart d)
    (limits d) (arrayDepth d) (inlineDepth d) (containerStack d) (localAsUTC d)
    (copyStrings d) (tokenLine d) (tokenCol d) (tokScalar d)
    (trackTokenPositions d).

Definition set_atLineStart (v : bool) (d : Decoder) : Decoder :=
  MkDecoder (buf d) (off d) (decodeStart d) (line d) (col d) (err d) (decoded d)
    (expectingValue d) (valueNoNewline d) (needSeparator d) (needLineEnd d) v
    (limits d) (arrayDepth d) (inlineDepth d) (containerStack d) (localAsUTC d)
    (copyStrings d) (tokenLine d) (tokenCol d) (tokScalar d)
    (trackTokenPositions d).

Definition set_limits (v : Limits) (d : Decoder) : Decoder :=
  MkDecoder (buf d) (off d) (decodeStart d) (line d) (col d) (err d) (decoded d)
    (expectingValue d) (valueNoNewline d) (needSeparator d) (needLineEnd d)
    (atLineStart d) v (arrayDepth d) (inlineDepth d) (containerStack d)
    (localAsUTC d) (copyStrings d) (tokenLine d) (tokenCol d) (tokScalar d)
    (trackTokenPositions d).

Definition set_arrayDepth (v : nat) (d : Decoder) : Decoder :=
  MkDecoder (buf d) (off d) (decodeStart d) (line d) (col d) (err d) (decoded d)
    (expectingValue d) (valueNoNewline d) (needSeparator d) (needLineEnd d)
    (atLineStart d) (limits d) v (inlineDepth d) (containerStack d) (localAsUTC d)
    (copyStrings d) (tokenLine d) (tokenCol d) (tokScalar d)
    (trackTokenPositions d).

Definition set_inlineDepth (v : nat) (d : Decoder) : Decoder :=
  MkDecoder (buf d) (off d) (decodeStart d) (line d) (col d) (err d) (decoded d)
    (expectingValue d) (valueNoNewline d) (needSeparator d) (needLineEnd d)
    (atLineStart d) (limits d) (arrayDepth d) v (containerStack d) (localAsUTC d)
    (copyStrings d) (tokenLine d) (tokenCol d) (tokScalar d)
    (trackTokenPositions d).

Definition set_containerStack (v : list Z) (d : Decoder) : Decoder :=
  MkDecoder (buf d) (off d) (decodeStart d) (line d) (col d) (err d) (decoded d)
    (expectingValue d) (valueNoNewline d) (needSeparator d) (needLineEnd d)
    (atLineStart d) (limits d) (arrayDepth d) (inlineDepth d) v (localAsUTC d)
    (copyStrings d) (tokenLine d) (tokenCol d) (tokScalar d)
    (trackTokenPositions d).

Definition set_localAsUTC (v : bool) (d : Decoder) : Decoder :=
  MkDecoder (buf d) (off d) (decodeStart d) (line d) (col d) (err d) (decoded d)
    (expectingValue d) (valueNoNewline d) (needSeparator d) (needLineEnd d)
    (atLineStart d) (limits d) (arrayDepth d) (inlineDepth d) (containerStack d) v
    (copyStrings d) (tokenLine d) (tokenCol d) (tokScalar d)
    (trackTokenPositions d).

Definition set_copyStrings (v : bool) (d : Decoder) : Decoder :=
  MkDecoder (buf d) (off d) (decodeStart d) (line d) (col d) (err d) (decoded d)
    (expectingValue d) (valueNoNewline d) (needSeparator d) (needLineEnd d)
    (atLineStart d) (limits d) (arrayDepth d) (inlineDepth d) (containerStack d)
    (localAsUTC d) v (tokenLine d) (tokenCol d) (tokScalar d)
    (trackTokenPositions d).

Definition set_tokenLine (v : nat) (d : Decoder) : Decoder :=
  MkDecoder (buf d) (off d) (decodeStart d) (line d) (col d) (err d) (decoded d)
    (expectingValue d) (valueNoNewline d) (needSeparator d) (needLineEnd d)
    (atLineStart d) (limits d) (arrayDepth d) (inlineDepth d) (containerStack d)
    (localAsUTC d) (copyStrings d) v (tokenCol d) (tokScalar d)
    (trackTokenPositions d).

Definition set_tokenCol (v : nat) (d : Decoder) : Decoder :=
  MkDecoder (buf d) (off d) (decodeStart d) (line d) (col d) (err d) (decoded d)
    (expectingValue d) (valueNoNewline d) (needSeparator d) (needLineEnd d)
    (atLineStart d) (limits d) (arrayDepth d) (inlineDepth d) (containerStack d)
    (localAsUTC d) (copyStrings d) (tokenLine d) v (tokScalar d)
    (trackTokenPositions d).

Definition set_tokScalar (v : tokenScalar) (d : Decoder) : Decoder :=
  MkDecoder (buf d) (off d) (decodeStart d) (line d) (col d) (err d) (decoded d)
    (expectingValue d) (valueNoNewline d) (needSeparator d) (needLineEnd d)
    (atLineStart d) (limits d) (arrayDepth d) (inlineDepth d) (containerStack d)
    (localAsUTC d) (copyStrings d) (tokenLine d) (tokenCol d) v
    (trackTokenPositions d).

Definition set_trackTokenPositions (v : bool) (d : Decoder) : Decoder :=
  MkDecoder (buf d) (off d) (decodeStart d) (line d) (col d) (err d) (decoded d)
    (expectingValue d) (valueNoNewline d) (needSeparator d) (needLineEnd d)
    (atLineStart d) (limits d) (arrayDepth d) (inlineDepth d) (containerStack d)
    (localAsUTC d) (copyStrings d) (tokenLine d) (tokenCol d) (tokScalar d) v.

Definition containerArray : Z := 97.
Definition containerInline : Z := 105.

Definition innermostIsArray (d : Decoder) : bool :=
  match containerStack d with
  | [] => false
  | c :: _ => c =b containerArray
  end.

(** ** The effect of the methods: state and error *)

Definition M (A : Type) : Type := Decoder → res A * Decoder.

#[export] Instance M_ret : MRet M := λ A a d, (Ok a, d).
#[export] Instance M_bind : MBind M := λ A B f c d,
  match c d with
  | (Ok a, d') => f a d'
  | (Err e, d') => (Err e, d')
  end.

Definition get : M Decoder := λ d, (Ok d, d).
Definition modify (f : Decoder → Decoder) : M unit := λ d, (Ok tt, f d).
Definition fail {A} (e : error) : M A := λ d, (Err e, d).
Definition lift {A} (r : res A) : M A := λ d, (r, d).

(** [d.setErr(err); return err]. *)
Definition fail_sticky {A} (e : error) : M A := λ d, (Err e, set_err (Some e) d).

(** ** Options and construction *)

Inductive Option :=
| WithLimits (l : Limits)
| WithLocalAsUTC
| WithCopiedStrings
| withoutTokenPositions.

Definition positive_or (v old : Z) : Z := if 0 <b v then v else old.

Definition apply_option (opt : Option) (d : Decoder) : Decoder :=
  match opt with
  | WithLimits l =>
      let o := limits d in
      set_limits (MkLimits (positive_or (MaxNestedDepth l) (MaxNestedDepth o))
                    (positive_or (MaxKeyLength l) (MaxKeyLength o))
                    (positive_or (MaxStringLength l) (MaxStringLength o))
                    (positive_or (MaxDocumentSize l) (MaxDocumentSize o))) d
  | WithLocalAsUTC => set_localAsUTC true d
  | WithCopiedStrings => set_copyStrings true d
  | withoutTokenPositions => set_trackTokenPositions false d
  end.

Definition apply_options (opts : list Option) (d : Decoder) : Decoder :=
  foldl (λ d opt, apply_option opt d) d opts.

Definition decoderOptionsWithoutTokenPositions (opts : list Option) : list Option :=
  if length opts =? 0 then [withoutTokenPositions] else opts ++ [withoutTokenPositions].

Definition decodeOptions (d : Decoder) : list Option :=
  [WithLimits (limits d)] ++
  (if localAsUTC d then [WithLocalAsUTC] else []) ++
  (if copyStrings d then [WithCopiedStrings] else []).

Section decoder.
Context {K : ScanKernels}.

(** ** Positions *)

Definition advancePosition (raw : bytes) (d : Decoder) : Decoder :=
  match raw with
  | [c] =>
      if c =b LF then set_col 1 (set_line (line d + 1) d)
      else if c =b CR then d
      else set_col (col d + 1) d
  | _ =>
      match LastIndexByte raw LF with
      | None => set_col (col d + displayColumnDelta raw) d
      | Some lastLF =>
          set_col (1 + displayColumnDelta (drop (lastLF + 1) raw)) (set_line (line d + CountLines raw) d)
      end
  end.

Definition advanceBytes (raw : bytes) (d : Decoder) : Decoder :=
  if length raw =? 0 then d
  else
    let d := if trackTokenPositions d then advancePosition raw d else d in
    set_atLineStart false (set_off (off d + length raw) d).

Definition advanceOne (d : Decoder) : Decoder := advanceBytes (slice (buf d) (off d) (off d + 1)) d.

Definition computeLineCol (d : Decoder) (o : nat) : nat * nat :=
  if trackTokenPositions d && (o =? off d) then (line d, col d) else lineColForOffset (buf d) o.

(** [d.syntaxError(msg, off)], which every caller returns. *)
Definition syntaxError {A} (msg : string) (o : nat) : M A := λ d,
  let '(l, c) := computeLineCol d o in
  let e := SyntaxError l c msg (o, o + 1) in
  (Err e, set_err (Some e) d).

Definition makeToken (kind : TokenKind) (raw : bytes) (offset : nat) (scalar : tokenScalar) : M rawToken := λ d,
  let d := set_tokScalar scalar d in
  let d := if trackTokenPositions d then
             let '(l, c) := computeLineCol d offset in set_tokenCol c (set_tokenLine l d)
           else d in
  (Ok (RawToken kind raw offset), d).

Definition matchPrefix (d : Decoder) (p : bytes) : bool :=
  if length p =? 0 then false
  else if length (buf d) <? off d + length p then false
  else has_prefix (drop (off d) (buf d)) p.

Definition skipBOM (d : Decoder) : Decoder :=
  if (3 <=? length (buf d) - off d) && has_prefix (drop (off d) (buf d)) [0xEF; 0xBB; 0xBF]%Z
  then advanceBytes (slice (buf d) (off d) (off d + 3)) d
  else d.

Definition emptyDecoder (data : bytes) : Decoder :=
  MkDecoder data 0 0 1 1 None false false false false false true defaultLimits 0 0 [] false false
    0 0 noScalar true.

(** The checks both constructors end with. *)
Definition openDocument (d : Decoder) : Decoder :=
  if (0 <b MaxDocumentSize (limits d)) && (MaxDocumentSize (limits d) <b Z.of_nat (length (buf d))) then
    let max := MaxDocumentSize (limits d) in
    set_err (Some (LimitError "MaxDocumentSize" max (0, Z.to_nat max))) d
  else
    let bad := ValidateUTF8 (buf d) in
    if negb (bad =? length (buf d)) then
      set_err (Some (SyntaxError 1 (bad + 1) "invalid utf-8" (bad, bad + 1))) d
    else
      let d := skipBOM d in set_decodeStart (off d) d.

Definition NewDecoderBytes (data : bytes) (opts : list Option) : Decoder :=
  openDocument (apply_options opts (emptyDecoder data)).

(** [io.ReadAll] has returned [b] and [rerr]. *)
Definition NewDecoder (b : bytes) (rerr : option error) (opts : list Option) : Decoder :=
  let d := apply_options opts (emptyDecoder []) in
  match err d with
  | Some _ => d
  | None =>
      let d := set_buf b d in
      match rerr with
      | Some e => set_err (Some e) d
      | None => openDocument d
      end
  end.

(** ** Whitespace and comments *)

(** The loop of [skipSpaces]; every iteration that goes on consumes a byte. *)
Fixpoint skipSpaces_loop (fuel : nat) (d : Decoder) : Decoder :=
  match fuel with
  | 0 => d
  | S fuel =>
      if off d <? length (buf d) then
        let rem := drop (off d) (buf d) in
        let n := SkipWhitespace rem in
        if 0 <? n then
          let wasAtLineStart := atLineStart d in
          let d := advanceBytes (take n rem) d in
          skipSpaces_loop fuel (if wasAtLineStart then set_atLineStart true d else d)
        else if has_prefix rem [CR; LF] then
          if valueNoNewline d then d
          else skipSpaces_loop fuel
                 (set_needLineEnd false (set_atLineStart true (advanceBytes (take 2 rem) d)))
        else if has_prefix rem [LF] then
          if valueNoNewline d then d
          else skipSpaces_loop fuel
                 (set_needLineEnd false (set_atLineStart true (advanceBytes (take 1 rem) d)))
        else d
      else d
  end.

Definition skipSpaces (d : Decoder) : Decoder :=
  skipSpaces_loop (S (length (buf d) - off d)) d.

Definition scanCommentEnd (start : nat) : M nat := λ d,
  let bodyStart := start + 1 in
  if length (buf d) <? bodyStart then (Ok (length (buf d)), d)
  else
    let end_ := bodyStart + ScanCommentBody (drop bodyStart (buf d)) in
    if length (buf d) <=? end_ then (Ok end_, d)
    else if buf d !!! end_ =b LF then (Ok end_, d)
    else if (buf d !!! end_ =b CR) && (end_ + 1 <? length (buf d)) && (buf d !!! (end_ + 1) =b LF)
    then (Ok end_, d)
    else syntaxError "control character in comment" end_ d.

Definition scanComment : M rawToken :=
  d ← get;
  let start := off d in
  end_ ← scanCommentEnd start;
  tok ← makeToken TokenKindComment (slice (buf d) start end_) start noScalar;
  _ ← modify (advanceBytes (slice (buf d) start end_));
  mret tok.

(** ** Quoted keys and strings *)

Definition hasNewlineBefore (raw : bytes) (end_ : nat) : bool :=
  existsb (λ ch, (ch =b LF) || (ch =b CR)) (take end_ raw).

Definition countByteRun (raw : bytes) (b : Z) : nat := find_stop (λ c, c ≠b b) raw.

Definition hasBytePrefix (raw want : bytes) : bool := has_prefix raw want.

(** The loop of [scanQuoted] from [i]; every iteration consumes a byte. *)
Fixpoint scanQuoted_loop (fuel : nat) (quote : Z) (o i : nat) : M nat := λ d,
  match fuel with
  | 0 => (Err OutOfFuel, d)
  | S fuel =>
      if i <? length (buf d) then
        let rem := drop i (buf d) in
        let idx := if quote =b SQUOTE then ScanLiteralString rem else ScanBasicString rem in
        if hasNewlineBefore rem idx then syntaxError "unterminated quoted key" o d
        else if length rem <=? idx then syntaxError "unterminated quoted key" o d
        else if (quote =b DQUOTE) && (buf d !!! (i + idx) =b BSLASH) then
          if length (buf d) <=? i + idx + 1 then syntaxError "unterminated quoted key" o d
          else scanQuoted_loop fuel quote o (i + idx + 2) d
        else if buf d !!! (i + idx) =b quote then
          let end_ := i + idx + 1 in
          (let! _ := validateStringValue (slice (buf d) o end_) in Ok end_, d)
        else scanQuoted_loop fuel quote o i d
      else syntaxError "unterminated quoted key" o d
  end.

Definition scanQuoted (quote : Z) (o : nat) : M nat := λ d,
  if (o + 2 <? length (buf d)) && (buf d !!! (o + 1) =b quote) && (buf d !!! (o + 2) =b quote)
  then syntaxError "multiline quoted keys are not supported" o d
  else scanQuoted_loop (S (length (buf d) - o)) quote o (o + 1) d.

(** The four loops of [scanString], by the form of the literal at [o]. *)
Fixpoint scanMultilineBasic (fuel o end_ : nat) : M nat := λ d,
  match fuel with
  | 0 => (Err OutOfFuel, d)
  | S fuel =>
      if end_ <? length (buf d) then
        let end_ := end_ + ScanBasicString (drop end_ (buf d)) in
        if length (buf d) <=? end_ then syntaxError "unterminated multiline string" o d
        else
          let c := buf d !!! end_ in
          if c =b BSLASH then
            if length (buf d) <=? end_ + 1 then syntaxError "unterminated string escape" end_ d
            else scanMultilineBasic fuel o (end_ + 2) d
          else if c =b DQUOTE then
            let run := countByteRun (drop end_ (buf d)) DQUOTE in
            if 3 <=? run then
              let tokenEnd := end_ + Nat.min run 5 in
              (let! _ := validateStringValue (slice (buf d) o tokenEnd) in Ok tokenEnd, d)
            else scanMultilineBasic fuel o (end_ + run) d
          else scanMultilineBasic fuel o (end_ + 1) d
      else syntaxError "unterminated multiline string" o d
  end.

Fixpoint scanMultilineLiteral (fuel o end_ : nat) : M nat := λ d,
  match fuel with
  | 0 => (Err OutOfFuel, d)
  | S fuel =>
      if end_ <? length (buf d) then
        let end_ := end_ + ScanLiteralString (drop end_ (buf d)) in
        if length (buf d) <=? end_ then syntaxError "unterminated multiline string" o d
        else
          let run := countByteRun (drop end_ (buf d)) SQUOTE in
          if 3 <=? run then
            let tokenEnd := end_ + Nat.min run 5 in
            (let! _ := validateStringValue (slice (buf d) o tokenEnd) in Ok tokenEnd, d)
          else scanMultilineLiteral fuel o (end_ + run) d
      else syntaxError "unterminated multiline string" o d
  end.

Fixpoint scanBasic (fuel o i : nat) : M nat := λ d,
  match fuel with
  | 0 => (Err OutOfFuel, d)
  | S fuel =>
      if i <? length (buf d) then
        let i := i + ScanBasicStringStrict (drop i (buf d)) in
        if length (buf d) <=? i then syntaxError "unterminated string" o d
        else
          let c := buf d !!! i in
          if (c =b LF) || (c =b CR) then syntaxError "unterminated string" o d
          else if c =b BSLASH then
            if length (buf d) <=? i + 1 then syntaxError "unterminated string" o d
            else scanBasic fuel o (i + 2) d
          else if c =b DQUOTE then
            (let! _ := validateStringValue (slice (buf d) o (i + 1)) in Ok (i + 1), d)
          else (Err (stringControlError (drop (o + 1) (buf d)) (i - o - 1)), d)
      else syntaxError "unterminated string" o d
  end.

Definition scanLiteral (o : nat) : M nat := λ d,
  let rem := drop (o + 1) (buf d) in
  let n := ScanLiteralString rem in
  if hasNewlineBefore rem n then syntaxError "unterminated string" o d
  else
    let i := o + 1 + n in
    if i <? length (buf d) then
      (let! _ := validateStringValue (slice (buf d) o (i + 1)) in Ok (i + 1), d)
    else syntaxError "unterminated string" o d.

(** The end of the literal at [o]; its kind is always [TokenKindValueString]. *)
Definition scanString (o : nat) : M (nat * TokenKind) :=
  d ← get;
  let rest := drop o (buf d) in
  let fuel := S (length (buf d) - o) in
  end_ ← (if hasBytePrefix rest [DQUOTE; DQUOTE; DQUOTE] then scanMultilineBasic fuel o (o + 3)
          else if hasBytePrefix rest [SQUOTE; SQUOTE; SQUOTE] then scanMultilineLiteral fuel o (o + 3)
          else if buf d !!! o =b DQUOTE then scanBasic fuel o (o + 1)
          else scanLiteral o);
  mret (end_, TokenKindValueString).

(** ** Keys *)

(** The loop of [scanKeyToken]: the offset of the first [=], [#] or newline
    outside a quoted segment. *)
Fixpoint scanKeyEnd (fuel i : nat) : M nat := λ d,
  match fuel with
  | 0 => (Err OutOfFuel, d)
  | S fuel =>
      if i <? length (buf d) then
        let ch := buf d !!! i in
        if ch =b EQUALS then (Ok i, d)
        else if (ch =b HASH) || (ch =b LF) || (ch =b CR) then (Ok i, d)
        else if (ch =b DQUOTE) || (ch =b SQUOTE) then
          match scanQuoted ch i d with
          | (Ok j, d) => scanKeyEnd fuel j d
          | (Err e, d) => (Err e, d)
          end
        else scanKeyEnd fuel (i + 1) d
      else (Ok i, d)
  end.

Definition keyLengthError (d : Decoder) (span : nat * nat) : error :=
  LimitError "MaxKeyLength" (MaxKeyLength (limits d)) span.

Definition scanKeyToken : M rawToken :=
  d ← get;
  let start := off d in
  i ← scanKeyEnd (S (length (buf d) - start)) start;
  if i =? start then syntaxError "empty key" i
  else
    let key := bytesTrimRightSpaces (slice (buf d) start i) in
    _ ← (if negb (isSimpleBareKey key) then
           match parseDottedKey key with
           | Ok _ => mret tt
           | Err e => fail_sticky e
           end
         else mret tt);
    if MaxKeyLength (limits d) <b Z.of_nat (length key) then
      fail_sticky (keyLengthError d (start, i))
    else
      let eq := i + find_stop (λ c, negb (isBlank c)) (drop i (buf d)) in
      if (length (buf d) <=? eq) || (buf d !!! eq ≠b EQUALS) then syntaxError "expected equals" eq
      else
        tok ← makeToken TokenKindKey key start noScalar;
        _ ← modify (advanceBytes (slice (buf d) start (eq + 1)));
        _ ← modify (λ d, set_needLineEnd false (set_valueNoNewline true (set_expectingValue true d)));
        mret tok.

(** ** Containers *)

(** What a value, or the end of a container, leaves behind. *)
Definition afterValue (d : Decoder) : Decoder :=
  let d := set_expectingValue false d in
  let d := set_valueNoNewline false d in
  let d := if innermostIsArray d then set_expectingValue true d else d in
  let d := set_needSeparator (0 <? length (containerStack d)) d in
  set_needLineEnd (length (containerStack d) =? 0) d.

Definition enforceNestedDepth (o depth : nat) (d : Decoder) : Decoder :=
  let max := MaxNestedDepth (limits d) in
  if (0 <b max) && (max <b Z.of_nat depth) then
    set_err (Some (LimitError "MaxNestedDepth" max (o, o + 1))) d
  else d.

Definition scanArrayStart : M rawToken :=
  d ← get;
  let start := off d in
  tok ← makeToken TokenKindArrayStart (slice (buf d) start (start + 1)) start noScalar;
  _ ← modify advanceOne;
  _ ← modify (λ d, set_arrayDepth (arrayDepth d + 1) d);
  _ ← modify (λ d, enforceNestedDepth start (arrayDepth d) d);
  _ ← modify (λ d, set_containerStack (containerArray :: containerStack d) d);
  _ ← modify (λ d, set_needSeparator false (set_valueNoNewline false (set_expectingValue true d)));
  mret tok.

Definition scanInlineTableStart : M rawToken :=
  d ← get;
  let start := off d in
  tok ← makeToken TokenKindInlineTableStart (slice (buf d) start (start + 1)) start noScalar;
  _ ← modify advanceOne;
  _ ← modify (λ d, set_inlineDepth (inlineDepth d + 1) d);
  _ ← modify (λ d, set_containerStack (containerInline :: containerStack d) d);
  _ ← modify (λ d, set_needSeparator false (set_valueNoNewline false (set_expectingValue false d)));
  mret tok.

Definition popContainer (kind : Z) (d : Decoder) : Decoder :=
  match containerStack d with
  | c :: rest => if c =b kind then set_containerStack rest d else d
  | [] => d
  end.

Definition afterContainer (d : Decoder) : Decoder :=
  let d := set_expectingValue (innermostIsArray d) d in
  let d := set_valueNoNewline false d in
  let d := set_needSeparator (0 <? length (containerStack d)) d in
  set_needLineEnd (length (containerStack d) =? 0) d.

Definition scanArrayEnd : M rawToken :=
  d ← get;
  let start := off d in
  tok ← makeToken TokenKindArrayEnd (slice (buf d) start (start + 1)) start noScalar;
  _ ← modify advanceOne;
  _ ← modify (λ d, set_arrayDepth (arrayDepth d - 1) d);
  _ ← modify (popContainer containerArray);
  _ ← modify afterContainer;
  mret tok.

Definition scanInlineTableEnd : M rawToken :=
  d ← get;
  let start := off d in
  tok ← makeToken TokenKindInlineTableEnd (slice (buf d) start (start + 1)) start noScalar;
  _ ← modify advanceOne;
  _ ← modify (λ d, set_inlineDepth (inlineDepth d - 1) d);
  _ ← modify (popContainer containerInline);
  _ ← modify afterContainer;
  mret tok.

(** ** Values *)

Definition scanValueToken : M rawToken :=
  d ← get;
  let start := off d in
  let ch := buf d !!! start in
  if (ch =b DQUOTE) || (ch =b SQUOTE) then
    '(end_, kind) ← scanString start;
    let chunk := slice (buf d) start end_ in
    if MaxStringLength (limits d) <b Z.of_nat (length chunk) then
      fail_sticky (LimitError "MaxStringLength" (MaxStringLength (limits d)) (start, end_))
    else
      tok ← makeToken kind chunk start noScalar;
      _ ← modify (advanceBytes chunk);
      _ ← modify afterValue;
      mret tok
  else if ch =b LBRACK then scanArrayStart
  else if ch =b LBRACE then scanInlineTableStart
  else if ch =b RBRACK then scanArrayEnd
  else if ch =b RBRACE then scanInlineTableEnd
  else if ch =b HASH then scanComment
  else
    let end_ := scanBareValueEnd (drop start (buf d)) in
    if end_ =? 0 then syntaxError "invalid value" start
    else
      let chunk := slice (buf d) start (end_ + start) in
      if length chunk =? 0 then syntaxError "expected value" start
      else
        let '(kind, scalar, msg) := classifyBareValue chunk in
        if negb (String.eqb msg "") then syntaxError msg start
        else
          tok ← makeToken kind chunk start scalar;
          _ ← modify (advanceBytes chunk);
          _ ← modify afterValue;
          mret tok.

(** ** Table headers *)

Definition unterminatedHeader (array : bool) : string :=
  if array then "unterminated array-of-tables header" else "unterminated table header".

Fixpoint scanHeaderEnd (fuel i : nat) (array : bool) : M nat := λ d,
  match fuel with
  | 0 => (Err OutOfFuel, d)
  | S fuel =>
      if i <? length (buf d) then
        let ch := buf d !!! i in
        if (ch =b LF) || (ch =b CR) then syntaxError (unterminatedHeader array) i d
        else if (ch =b DQUOTE) || (ch =b SQUOTE) then
          match scanQuoted ch i d with
          | (Ok j, d) => scanHeaderEnd fuel j array d
          | (Err e, d) => (Err e, d)
          end
        else if (ch =b RBRACK) && (negb array || ((i + 1 <? length (buf d)) && (buf d !!! (i + 1) =b RBRACK)))
        then (Ok i, d)
        else scanHeaderEnd fuel (i + 1) array d
      else syntaxError (unterminatedHeader array) (length (buf d)) d
  end.

Fixpoint validateHeaderKey (fuel i end_ : nat) (needSegment : bool) : M unit := λ d,
  match fuel with
  | 0 => (Err OutOfFuel, d)
  | S fuel =>
      let i := i + find_stop (λ c, negb (isBlank c)) (slice (buf d) i end_) in
      if end_ <=? i then
        if needSegment then syntaxError "empty table key" end_ d else (Ok tt, d)
      else if negb needSegment then
        if buf d !!! i ≠b DOT then syntaxError "unexpected token in table key" i d
        else validateHeaderKey fuel (i + 1) end_ true d
      else if (buf d !!! i =b DQUOTE) || (buf d !!! i =b SQUOTE) then
        match scanQuoted (buf d !!! i) i d with
        | (Ok j, d) =>
            if end_ <? j then syntaxError "unterminated quoted table key" i d
            else validateHeaderKey fuel j end_ false d
        | (Err e, d) => (Err e, d)
        end
      else
        let n := ScanBareKey (slice (buf d) i end_) in
        if n =? 0 then syntaxError "unexpected token in table key" i d
        else validateHeaderKey fuel (i + n) end_ false d
  end.

(** [scanTableHeader] and [scanArrayTableHeader] differ in the number [k] of
    brackets around the key. *)
Definition scanHeader (kind : TokenKind) (array : bool) (k : nat) : M rawToken :=
  d ← get;
  let start := off d in
  let fuel := S (length (buf d) - start) in
  i ← scanHeaderEnd fuel (start + k) array;
  _ ← validateHeaderKey fuel (start + k) i true;
  let tokenEnd := i + k in
  let head := slice (buf d) start tokenEnd in
  tok ← makeToken kind head start noScalar;
  _ ← modify (advanceBytes head);
  let keyLen := tokenEnd - start - 2 * k in
  if MaxKeyLength (limits d) <b Z.of_nat keyLen then
    fail_sticky (keyLengthError d (start + k, i))
  else
    _ ← modify (λ d, set_needLineEnd true (set_atLineStart false (set_expectingValue false d)));
    mret tok.

Definition scanTableHeader : M rawToken := scanHeader TokenKindTableHeader false 1.
Definition scanArrayTableHeader : M rawToken := scanHeader TokenKindArrayTableHeader true 2.

(** ** The token stream *)

(** One iteration of the loop of [readToken]: [None] is [continue]. *)
Definition endOfInput : M (option rawToken) :=
  d ← get;
  if expectingValue d then syntaxError "expected value" (off d) else fail EOF.

Definition some_token (m : M rawToken) : M (option rawToken) := tok ← m; mret (Some tok).

Definition dispatch : M (option rawToken) :=
  d ← get;
  let ch := buf d !!! off d in
  if ch =b LBRACK then
    if innermostIsArray d && negb (expectingValue d) then syntaxError "expected comma" (off d)
    else some_token scanArrayStart
  else if ch =b LBRACE then
    if innermostIsArray d && negb (expectingValue d) then syntaxError "expected comma" (off d)
    else some_token scanInlineTableStart
  else if ch =b RBRACK then some_token scanArrayEnd
  else if ch =b RBRACE then some_token scanInlineTableEnd
  else if ch =b HASH then some_token scanComment
  else if ch =b EQUALS then syntaxError "unexpected equals" (off d)
  else if ch =b COMMA then
    if negb (needSeparator d) then syntaxError "unexpected comma" (off d)
    else
      _ ← modify advanceOne;
      _ ← modify (set_needSeparator false);
      _ ← modify (λ d, set_expectingValue (innermostIsArray d) d);
      mret None
  else if expectingValue d then
    if needSeparator d && innermostIsArray d then syntaxError "expected array separator" (off d)
    else some_token scanValueToken
  else if needSeparator d && (0 <? length (containerStack d)) then
    syntaxError "expected inline table separator" (off d)
  else some_token scanKeyToken.

(** What follows [skipSpaces]. *)
Definition readTokenAt : M (option rawToken) :=
  d ← get;
  if length (buf d) <=? off d then endOfInput
  else if needLineEnd d then
    let ch := buf d !!! off d in
    if ch =b HASH then some_token scanComment
    else if (ch =b LF) || (ch =b CR) then mret None
    else syntaxError "expected newline" (off d)
  else if atLineStart d && negb (expectingValue d) && matchPrefix d [LBRACK; LBRACK] then
    some_token scanArrayTableHeader
  else if atLineStart d && negb (expectingValue d) && (buf d !!! off d =b LBRACK) then
    some_token scanTableHeader
  else dispatch.

Definition readTokenStep : M (option rawToken) :=
  d ← get;
  if length (buf d) <=? off d then endOfInput
  else
    _ ← modify skipSpaces;
    readTokenAt.

Fixpoint readToken_loop (fuel : nat) : M rawToken := λ d,
  match fuel with
  | 0 => (Err OutOfFuel, d)
  | S fuel =>
      match readTokenStep d with
      | (Ok (Some tok), d) => (Ok tok, d)
      | (Ok None, d) => readToken_loop fuel d
      | (Err e, d) => (Err e, d)
      end
  end.

(** An iteration that goes on has consumed a comma, except on a carriage return
    that is not followed by a line feed where a line end is required: there the
    loop of the source does not make progress either. *)
Definition readToken : M rawToken := λ d,
  match err d with
  | Some e => (Err e, d)
  | None => readToken_loop (S (S (length (buf d) - off d))) d
  end.

Definition ReadToken : M Token :=
  tok ← readToken;
  d ← get;
  let pub := publicToken tok in
  let pub := MkToken (tok_Kind pub) (tok_Bytes pub) (tok_Offset pub) (tok_Line pub) (tok_Col pub) (tokScalar d) in
  mret (if trackTokenPositions d then
          MkToken (tok_Kind pub) (tok_Bytes pub) (tok_Offset pub) (tokenLine d) (tokenCol d) (tok_scalar pub)
        else pub).

(** [Decode] up to the call of [unmarshal], which is given the source and the
    options and returns its error. *)
Definition Decode (unmarshal : bytes → list Option → option error) : M unit := λ d,
  match err d with
  | Some e => (Err e, d)
  | None =>
      if decoded d || negb (off d =? decodeStart d) || expectingValue d ||
         negb (arrayDepth d =? 0) || negb (inlineDepth d =? 0) || negb (length (containerStack d) =? 0)
      then (Err (DecoderStateError (off d)), d)
      else
        match unmarshal (buf d) (decodeOptions d) with
        | Some e => (Err e, d)
        | None => (Ok tt, set_off (length (buf d)) (set_decoded true d))
        end
  end.
(** ** Construction from a reader *)

Lemma apply_options_err opts d : err (apply_options opts d) = err d.
Proof using Type.
  unfold apply_options. revert d. induction opts as [|o opts IH]; intros d; [done|]. simpl.
  rewrite IH. by destruct o.
Qed.

Lemma apply_options_set_buf opts b d :
  apply_options opts (set_buf b d) = set_buf b (apply_options opts d).
Proof using Type.
  unfold apply_options. revert d. induction opts as [|o opts IH]; intros d; [done|]. simpl.
  rewrite <-IH. by destruct o.
Qed.

(** A decoder over a reader that delivers [b] is the decoder over [b], and
    one whose reader failed returns the failure from every call. *)
Theorem NewDecoder_reader b rerr opts :
  match rerr with
  | None => NewDecoder b None opts = NewDecoderBytes b opts
  | Some e => ReadToken (NewDecoder b (Some e) opts) = (Err e, NewDecoder b (Some e) opts)
  end.
Proof using Type.
  unfold NewDecoder. rewrite apply_options_err. simpl.
  destruct rerr as [e|]; [done|]. unfold NewDecoderBytes. by rewrite <-apply_options_set_buf.
Qed.
End decoder.

Fixpoint tokens {K : ScanKernels} (fuel : nat) (d : Decoder) : list Token * option error :=
  match fuel with
  | 0 => ([], None)
  | S fuel =>
      match ReadToken d with
      | (Ok t, d) => let '(ts, e) := tokens fuel d in (t :: ts, e)
      | (Err e, _) => ([], Some e)
      end
  end.
