(* ===== verification/DecoderSpec.v ===== *)
(** What the decoder promises: source positions, tokens that are slices of the
    source, progress, sticky errors and termination. *)
From S2P Require Import Prelude GoUtf8 Scan TomlBase Datetime TomlString TomlNumber TomlKey Decoder.

(** ** The invariant *)

(** What no operation of the token stream changes. *)
Definition config (d : Decoder) :=
  (buf d, limits d, trackTokenPositions d, decodeStart d, decoded d, localAsUTC d, copyStrings d).

Definition pos (d : Decoder) := (off d, line d, col d).

Definition flags (d : Decoder) :=
  (expectingValue d, valueNoNewline d, needSeparator d, needLineEnd d, containerStack d, err d).

(** A separator is only required inside a container; after a key and until its
    value, a value is expected and neither a separator nor a line end is. *)
Record flags_ok (d : Decoder) : Prop := {
  fl_separator : needSeparator d = true → containerStack d ≠ [];
  fl_value : valueNoNewline d = true →
    expectingValue d = true ∧ needSeparator d = false ∧ needLineEnd d = false;
  fl_err : err d ≠ Some OutOfFuel;
}.

Lemma flags_ok_ext d d' : flags d' = flags d → flags_ok d → flags_ok d'.
Proof. intros [= E1 E2 E3 E4 E5 E6] [H1 H2 H3]. split; rewrite ?E1, ?E2, ?E3, ?E4, ?E5, ?E6; auto. Qed.

Section spec.
Context {K : ScanKernels}.

Record wf (d : Decoder) : Prop := {
  wf_bytes : Forall is_byte (buf d);
  wf_off : off d ≤ length (buf d);
  wf_pos : trackTokenPositions d = true → (line d, col d) = lineColForOffset (buf d) (off d);
}.

Lemma config_buf d d' : config d' = config d → buf d' = buf d.
Proof using Type. by intros [= -> _ _ _ _ _ _]. Qed.

Lemma config_track d d' : config d' = config d → trackTokenPositions d' = trackTokenPositions d.
Proof using Type. by intros [= _ _ -> _ _ _ _]. Qed.

Lemma wf_ext d d' : config d' = config d → pos d' = pos d → wf d → wf d'.
Proof using Type.
  intros Hc Hp [H1 H2 H3]. pose proof (config_buf _ _ Hc) as Hb. pose proof (config_track _ _ Hc) as Ht.
  injection Hp as Ho Hl Hcol. split; rewrite ?Hb, ?Ht, ?Ho, ?Hl, ?Hcol; auto.
Qed.

(** ** Positions *)

(** Reading on from a known position gives the position of the new offset. *)
Lemma advancePosition_spec d n :
  wf d → off d + n ≤ length (buf d) → 0 < n → trackTokenPositions d = true →
  let d' := advancePosition (slice (buf d) (off d) (off d + n)) d in
  (line d', col d') = lineColForOffset (buf d) (off d + n) ∧ config d' = config d ∧ off d' = off d.
Proof using Type.
  intros [Hb _ Hp] Hn H0 Ht. specialize (Hp Ht). cbv zeta.
  set (raw := slice (buf d) (off d) (off d + n)).
  assert (Forall is_byte raw) as Hraw by (by apply Forall_take, Forall_drop).
  assert (take (off d + n) (buf d) = take (off d) (buf d) ++ raw) as Htake.
  { rewrite <-!slice_take. subst raw. by rewrite slice_app by lia. }
  assert (length raw = n) as Hlen by (subst raw; rewrite length_slice; lia).
  unfold lineColForOffset in *. rewrite Htake. injection Hp as Hl Hc.
  assert (Forall is_byte (take (off d) (buf d))) as Hpre by (by apply Forall_take).
  rewrite CountLines_ok in Hl |- * by (done || by apply Forall_app).
  rewrite count_app.
  assert (LastIndexByte raw LF = None → count (Z.eqb LF) raw = 0) as Hcount.
  { intros Hno%find_last_None. clear -Hno. induction Hno as [|c s Hc Hs IH]; simpl; [done|].
    by rewrite Hc. }
  destruct (LastIndexByte raw LF) as [i|] eqn:Ei.
  - rewrite (lastLine_app_Some _ _ i Ei).
    assert (advancePosition raw d =
      set_col (1 + displayColumnDelta (drop (i + 1) raw)) (set_line (line d + CountLines raw) d)) as ->.
    { unfold advancePosition. destruct raw as [|c [|c' raw]]; [done| |by rewrite Ei].
      unfold LastIndexByte in Ei. simpl in Ei. rewrite Z.eqb_sym in Ei.
      destruct (Z.eqb_spec c LF) as [->|]; [|done]. injection Ei as <-.
      rewrite CountLines_ok by done. done. }
    rewrite displayColumnDelta_count, CountLines_ok by done. simpl. split; [f_equal; lia|done].
  - rewrite (lastLine_app_None _ _ Ei), count_app, Hcount by done.
    assert (advancePosition raw d = set_col (col d + displayColumnDelta raw) d ∨
      (advancePosition raw d = d ∧ displayColumnDelta raw = 0)) as [-> |[-> Hz]].
    { unfold advancePosition. destruct raw as [|c [|c' raw]]; [by left; rewrite Ei| |by left; rewrite Ei].
      unfold LastIndexByte in Ei. simpl in Ei. rewrite Z.eqb_sym in Ei.
      destruct (c =b LF) eqn:EL; [done|]. rewrite displayColumnDelta_count. simpl.
      destruct (c =b CR); [by right|by left]. }
    + simpl. rewrite displayColumnDelta_count. split; [f_equal; lia|done].
    + rewrite displayColumnDelta_count in Hz. rewrite Hz. split; [f_equal; lia|done].
Qed.

Lemma advanceBytes_spec d e :
  wf d → off d ≤ e ≤ length (buf d) →
  let d' := advanceBytes (slice (buf d) (off d) e) d in
  wf d' ∧ config d' = config d ∧ off d' = e.
Proof using Type.
  intros Hwf He. cbv zeta. unfold advanceBytes.
  assert (length (slice (buf d) (off d) e) = e - off d) as Hl by (rewrite length_slice; lia). rewrite Hl.
  destruct (e - off d =? 0) eqn:E0; [split_and!; [done|done|lia]|].
  assert (off d + (e - off d) = e) as Hoe by lia.
  destruct (trackTokenPositions d) eqn:Et.
  - destruct (advancePosition_spec d (e - off d) Hwf) as (Hlc & Hcf & Hof); [lia|lia|done|].
    rewrite Hoe in Hlc, Hcf, Hof. set (d1 := advancePosition _ d) in *. clearbody d1.
    pose proof (config_buf _ _ Hcf) as Hb. split_and!.
    + split; simpl; rewrite ?Hb, ?Hof, ?Hoe; [apply Hwf|lia|done].
    + by rewrite <-Hcf.
    + simpl. lia.
  - split_and!; [|done|simpl; lia].
    split; simpl; [apply Hwf|lia|by rewrite Et].
Qed.

(** ** Scanners that only look *)

(** The outcome of a scanner that does not move: a result satisfying [P] and the
    state as it was, or an error that is either recorded or leaves the state as
    it was, and is never the model's own running out of fuel. *)
Definition scans {A} (d : Decoder) (P : A → Prop) (r : res A * Decoder) : Prop :=
  match r with
  | (Ok a, d') => d' = d ∧ P a
  | (Err e, d') => (d' = d ∨ d' = set_err (Some e) d) ∧ e ≠ OutOfFuel
  end.

Lemma scans_impl {A} d (P Q : A → Prop) r : (∀ a, P a → Q a) → scans d P r → scans d Q r.
Proof using Type. intros H. destruct r as [[a|e] d']; [|done]. intros [? ?]. split; auto. Qed.

Lemma scans_syntaxError {A} d (P : A → Prop) msg o : scans d P (syntaxError msg o d).
Proof using Type. unfold syntaxError. destruct (computeLineCol d o). simpl. split; [by right|done]. Qed.

Lemma scans_validate d (P : nat → Prop) s e :
  Forall is_byte s → P e → scans d P (let! _ := validateStringValue s in Ok e, d).
Proof using Type.
  intros Hs HP. rewrite validateStringValue_parse_value by done.
  pose proof (parseStringValue_no_fuel s Hs) as Hn.
  destruct (parseStringValue s) as [v|err]; simpl; [done|]. split; [by left|congruence].
Qed.

Lemma scans_bind {A B} d (P : A → Prop) (Q : B → Prop) (m : M A) (f : A → M B) :
  scans d P (m d) → (∀ a, P a → scans d Q (f a d)) → scans d Q ((m ≫= f) d).
Proof using Type.
  unfold mbind, M_bind. destruct (m d) as [[a|e] d']; simpl; [|done]. intros [-> HP] Hf. by apply Hf.
Qed.

Section look.
Context (d : Decoder) (Hb : Forall is_byte (buf d)).
Abbreviation len := (length (buf d)).

Lemma source_slice_bytes i j : Forall is_byte (slice (buf d) i j).
Proof using Hb. by apply Forall_take, Forall_drop. Qed.

Lemma source_drop_bytes i : Forall is_byte (drop i (buf d)).
Proof using Hb. by apply Forall_drop. Qed.

(** The byte a kernel stops at, inside the buffer. *)
Lemma find_stop_at (p : Z → bool) i :
  i + find_stop p (drop i (buf d)) < len →
  p (buf d !!! (i + find_stop p (drop i (buf d)))) = true.
Proof using Type.
  intros H. apply (find_stop_lookup p (drop i (buf d))). rewrite lookup_drop. by apply lookup_total_lt.
Qed.

Lemma find_stop_drop_le (p : Z → bool) i : i ≤ len → i + find_stop p (drop i (buf d)) ≤ len.
Proof using Type. intros. pose proof (find_stop_le p (drop i (buf d))). rewrite length_drop in *. lia. Qed.

Lemma scanQuoted_loop_spec fuel quote o : ∀ i,
  quote = SQUOTE ∨ quote = DQUOTE → o < i → len - i < fuel →
  scans d (λ e, o < e ≤ len) (scanQuoted_loop fuel quote o i d).
Proof using Hb.
  induction fuel as [|fuel IH]; intros i Hq Hoi Hfuel; [lia|]. cbn [scanQuoted_loop].
  destruct (i <? len) eqn:Hi; [|apply scans_syntaxError].
  set (idx := if quote =b SQUOTE then _ else _).
  assert (idx = find_stop (λ c, (c =b quote) || ((quote =b DQUOTE) && (c =b BSLASH))) (drop i (buf d))) as Hidx.
  { subst idx. destruct Hq as [-> | ->]; cbn.
    - rewrite ScanLiteralString_ok by apply source_drop_bytes. apply find_stop_ext. intros. rewrite Z.eqb_sym. lia.
    - rewrite ScanBasicString_ok by apply source_drop_bytes. apply find_stop_ext. intros. done. }
  clearbody idx. destruct (hasNewlineBefore _ _); [apply scans_syntaxError|].
  destruct (length (drop i (buf d)) <=? idx) eqn:Hl; [apply scans_syntaxError|]. rewrite length_drop in Hl.
  pose proof (find_stop_at (λ c, (c =b quote) || ((quote =b DQUOTE) && (c =b BSLASH))) i) as Hat.
  rewrite <-Hidx in Hat. specialize (Hat ltac:(lia)). simpl in Hat.
  destruct ((quote =b DQUOTE) && (buf d !!! (i + idx) =b BSLASH)) eqn:Hesc.
  { destruct (len <=? i + idx + 1) eqn:?; [apply scans_syntaxError|]. apply IH; [done|lia|lia]. }
  destruct (buf d !!! (i + idx) =b quote) eqn:Hend; [|lia].
  apply scans_validate; [apply source_slice_bytes|lia].
Qed.

Lemma scanQuoted_spec quote o :
  quote = SQUOTE ∨ quote = DQUOTE → o < len →
  scans d (λ e, o < e ≤ len) (scanQuoted quote o d).
Proof using Hb.
  intros Hq Ho. unfold scanQuoted. case_match; [apply scans_syntaxError|].
  apply scanQuoted_loop_spec; [done|lia|lia].
Qed.

Lemma scanMultilineBasic_spec fuel o : ∀ e,
  o < e → len - e < fuel → scans d (λ e, o < e ≤ len) (scanMultilineBasic fuel o e d).
Proof using Hb.
  induction fuel as [|fuel IH]; intros e Hoe Hfuel; [lia|]. cbn [scanMultilineBasic].
  destruct (e <? len) eqn:He; [|apply scans_syntaxError].
  set (e' := e + ScanBasicString _). assert (e ≤ e') by (subst e'; lia). clearbody e'.
  destruct (len <=? e') eqn:Hl; [apply scans_syntaxError|].
  destruct (buf d !!! e' =b BSLASH).
  { destruct (len <=? e' + 1) eqn:?; [apply scans_syntaxError|]. apply IH; lia. }
  destruct (Z.eqb_spec (buf d !!! e') DQUOTE) as [Hq|]; [|apply IH; lia].
  set (run := countByteRun _ _). assert (1 ≤ run ∧ e' + run ≤ len) as [Hr1 Hr2].
  { subst run. unfold countByteRun. split; [|apply find_stop_drop_le; lia].
    rewrite drop_lookup_total by lia. simpl. rewrite Hq. simpl. lia. }
  destruct (3 <=? run) eqn:E3; [|apply IH; lia].
  apply scans_validate; [apply source_slice_bytes|lia].
Qed.

Lemma scanMultilineLiteral_spec fuel o : ∀ e,
  o < e → len - e < fuel → scans d (λ e, o < e ≤ len) (scanMultilineLiteral fuel o e d).
Proof using Hb.
  induction fuel as [|fuel IH]; intros e Hoe Hfuel; [lia|]. cbn [scanMultilineLiteral].
  destruct (e <? len) eqn:He; [|apply scans_syntaxError].
  rewrite ScanLiteralString_ok by apply source_drop_bytes.
  pose proof (find_stop_at (Z.eqb SQUOTE) e) as Hat.
  set (e' := e + find_stop _ _) in *. assert (e ≤ e') by (subst e'; lia). clearbody e'.
  destruct (len <=? e') eqn:Hl; [apply scans_syntaxError|]. specialize (Hat ltac:(lia)).
  set (run := countByteRun _ _). assert (1 ≤ run ∧ e' + run ≤ len) as [Hr1 Hr2].
  { subst run. unfold countByteRun. split; [|apply find_stop_drop_le; lia].
    rewrite drop_lookup_total by lia. simpl. rewrite Z.eqb_sym, Hat. simpl. lia. }
  destruct (3 <=? run) eqn:E3; [|apply IH; lia].
  apply scans_validate; [apply source_slice_bytes|lia].
Qed.

Lemma scanBasic_spec fuel o : ∀ i,
  o < i → len - i < fuel → scans d (λ e, o < e ≤ len) (scanBasic fuel o i d).
Proof using Hb.
  induction fuel as [|fuel IH]; intros i Hoi Hfuel; [lia|]. cbn [scanBasic].
  destruct (i <? len) eqn:He; [|apply scans_syntaxError].
  set (i' := i + ScanBasicStringStrict _). assert (i ≤ i') by (subst i'; lia). clearbody i'.
  destruct (len <=? i') eqn:Hl; [apply scans_syntaxError|].
  destruct (_ || _); [apply scans_syntaxError|].
  destruct (buf d !!! i' =b BSLASH).
  { destruct (len <=? i' + 1) eqn:?; [apply scans_syntaxError|]. apply IH; lia. }
  destruct (buf d !!! i' =b DQUOTE).
  - apply scans_validate; [apply source_slice_bytes|lia].
  - split; [by left|done].
Qed.

Lemma scanLiteral_spec o : scans d (λ e, o < e ≤ len) (scanLiteral o d).
Proof using Hb.
  unfold scanLiteral. set (n := ScanLiteralString _). clearbody n.
  destruct (hasNewlineBefore _ _); [apply scans_syntaxError|].
  destruct (o + 1 + n <? len) eqn:?; [|apply scans_syntaxError].
  apply scans_validate; [apply source_slice_bytes|lia].
Qed.

Lemma scanString_spec o :
  o < len → scans d (λ p, o < p.1 ≤ len ∧ p.2 = TokenKindValueString) (scanString o d).
Proof using Hb.
  intros Ho. unfold scanString. apply (scans_bind d (λ a, a = d)); [done|]. intros ? ->.
  apply (scans_bind d (λ e, o < e ≤ len)); [|by intros e He].
  case_match; [apply scanMultilineBasic_spec; lia|].
  case_match; [apply scanMultilineLiteral_spec; lia|].
  case_match; [apply scanBasic_spec; lia|]. apply scanLiteral_spec.
Qed.

Lemma scanCommentEnd_spec o :
  o < len → scans d (λ e, o < e ≤ len) (scanCommentEnd o d).
Proof using Hb.
  intros Ho. unfold scanCommentEnd. destruct (len <? o + 1) eqn:?; [lia|].
  rewrite ScanCommentBody_ok by apply source_drop_bytes.
  pose proof (find_stop_drop_le commentBodyStop (o + 1) ltac:(lia)) as Hle.
  set (e := o + 1 + find_stop _ _) in *. assert (o < e) by (subst e; lia). clearbody e.
  destruct (len <=? e) eqn:?; [split; [done|lia]|].
  destruct (buf d !!! e =b LF); [split; [done|lia]|].
  destruct (_ && _); [split; [done|lia]|]. apply scans_syntaxError.
Qed.

Definition brackets (array : bool) : nat := if array then 2 else 1.

Lemma quote_byte c : (c =b DQUOTE) || (c =b SQUOTE) = true → c = SQUOTE ∨ c = DQUOTE.
Proof using Type. lia. Qed.

Lemma scanKeyEnd_spec fuel : ∀ i,
  i ≤ len → len - i < fuel → scans d (λ e, i ≤ e ≤ len) (scanKeyEnd fuel i d).
Proof using Hb.
  induction fuel as [|fuel IH]; intros i Hi Hfuel; [lia|]. cbn [scanKeyEnd].
  destruct (i <? len) eqn:Hlt; [|split; [done|lia]].
  case_match; [split; [done|lia]|]. case_match; [split; [done|lia]|]. case_match eqn:Hq.
  - pose proof (scanQuoted_spec _ i (quote_byte _ Hq) ltac:(lia)) as Hs.
    destruct (scanQuoted _ i d) as [[j|e] d']; [|done]. destruct Hs as [-> Hj].
    eapply scans_impl; [|apply IH; lia]. simpl. lia.
  - eapply scans_impl; [|apply IH; lia]. simpl. lia.
Qed.

Lemma scanHeaderEnd_spec fuel (array : bool) : ∀ i,
  i ≤ len → len - i < fuel →
  scans d (λ e, i ≤ e ∧ e + brackets array ≤ len) (scanHeaderEnd fuel i array d).
Proof using Hb.
  induction fuel as [|fuel IH]; intros i Hi Hfuel; [lia|]. cbn [scanHeaderEnd].
  destruct (i <? len) eqn:Hlt; [|apply scans_syntaxError].
  case_match; [apply scans_syntaxError|]. case_match eqn:Hq.
  - pose proof (scanQuoted_spec _ i (quote_byte _ Hq) ltac:(lia)) as Hs.
    destruct (scanQuoted _ i d) as [[j|e] d']; [|done]. destruct Hs as [-> Hj].
    eapply scans_impl; [|apply IH; lia]. simpl. lia.
  - case_match eqn:Hend.
    + split; [done|]. unfold brackets. destruct array; cbn [negb orb] in Hend; lia.
    + eapply scans_impl; [|apply IH; lia]. simpl. lia.
Qed.

Lemma validateHeaderKey_spec fuel end_ : ∀ i need,
  end_ ≤ len → end_ - i < fuel →
  scans d (λ _ : unit, True) (validateHeaderKey fuel i end_ need d).
Proof using Hb.
  induction fuel as [|fuel IH]; intros i need Hend Hfuel; [lia|]. cbn [validateHeaderKey].
  set (i' := i + find_stop _ _). assert (i ≤ i') by (subst i'; lia). clearbody i'.
  destruct (end_ <=? i') eqn:Hi; [destruct need; [apply scans_syntaxError|done]|].
  destruct need; cbn [negb].
  2:{ case_match; [apply scans_syntaxError|]. apply IH; lia. }
  case_match eqn:Hq.
  - pose proof (scanQuoted_spec _ i' (quote_byte _ Hq) ltac:(lia)) as Hs.
    destruct (scanQuoted _ i' d) as [[j|e] d']; [|done]. destruct Hs as [-> Hj].
    case_match; [apply scans_syntaxError|]. apply IH; lia.
  - destruct (ScanBareKey _ =? 0) eqn:Hn; [apply scans_syntaxError|]. apply IH; lia.
Qed.
End look.

(** ** Scanners that produce a token *)

(** [tok] starts at the offset of [d], is a non-empty slice of the source, and
    [d'] has moved past it; only a key token leaves more behind, the blanks and
    the equals sign that follow it. *)
Record token_at (d : Decoder) (tok : rawToken) (d' : Decoder) : Prop := {
  at_offset : rt_Offset tok = off d;
  at_bytes : rt_Bytes tok = slice (buf d) (off d) (off d + length (rt_Bytes tok));
  at_nonempty : rt_Bytes tok ≠ [];
  at_past : off d + length (rt_Bytes tok) ≤ off d';
  at_gap : Forall (λ c, isBlank c = true ∨ c = EQUALS ∧ rt_Kind tok = TokenKindKey)
             (slice (buf d) (off d + length (rt_Bytes tok)) (off d'));
  at_line : trackTokenPositions d = true →
    (tokenLine d', tokenCol d') = lineColForOffset (buf d) (off d);
}.

(** A scanner keeps the source and the invariant, and an error is either
    recorded or leaves the state as it was. *)
Definition token_spec (d : Decoder) (r : res rawToken * Decoder) : Prop :=
  config r.2 = config d ∧ wf r.2 ∧
  match r.1 with
  | Ok tok => token_at d tok r.2 ∧ flags_ok r.2
  | Err e => (err r.2 = Some e ∨ r.2 = d) ∧ e ≠ OutOfFuel
  end.

Lemma wf_set_err d e : wf d → wf (set_err e d).
Proof using Type. by apply wf_ext. Qed.

Lemma token_spec_scans {A} d (P : A → Prop) (m : M A) (f : A → M rawToken) :
  wf d → scans d P (m d) → (∀ a, P a → token_spec d (f a d)) → token_spec d ((m ≫= f) d).
Proof using Type.
  intros Hwf Hs Hf. unfold mbind, M_bind. destruct (m d) as [[a|e] d']; simpl in Hs.
  - destruct Hs as [-> HP]. by apply Hf.
  - destruct Hs as [[-> | ->] Hne]; split_and!; simpl; try done; auto using wf_set_err.
Qed.

Lemma token_spec_syntaxError d msg o : wf d → token_spec d (syntaxError msg o d).
Proof using Type.
  intros Hwf. unfold syntaxError. destruct (computeLineCol d o).
  split_and!; simpl; auto using wf_set_err.
Qed.

Lemma computeLineCol_spec d o :
  wf d → computeLineCol d o = lineColForOffset (buf d) o.
Proof using Type.
  intros [_ _ Hp]. unfold computeLineCol.
  destruct (trackTokenPositions d); [|done]. destruct (Nat.eqb_spec o (off d)) as [->|]; [|done].
  by apply Hp.
Qed.

(** [makeToken], then [g], which moves past the token and sets flags. *)
Lemma token_spec_emit d kind e past scalar (g f : Decoder → Decoder) :
  wf d → off d < e → e ≤ past → past ≤ length (buf d) →
  (∀ d2, buf d2 = buf d → off d2 = off d → g d2 = f (advanceBytes (slice (buf d) (off d) past) d2)) →
  (∀ d, config (f d) = config d ∧ pos (f d) = pos d ∧
        tokenLine (f d) = tokenLine d ∧ tokenCol (f d) = tokenCol d) →
  (∀ d2, flags d2 = flags d → flags_ok (f d2)) →
  Forall (λ c, isBlank c = true ∨ c = EQUALS ∧ kind = TokenKindKey) (slice (buf d) e past) →
  token_spec d ((tok ← makeToken kind (slice (buf d) (off d) e) (off d) scalar;
                 _ ← modify g; mret tok) d).
Proof using Type.
  intros Hwf He Hp Hlen Hg Hf Hfl Hgap. unfold mbind, M_bind, makeToken, modify, mret, M_ret.
  set (d1 := set_tokScalar scalar d).
  set (d2 := if trackTokenPositions d1 then _ else d1).
  assert (config d2 = config d ∧ pos d2 = pos d ∧
    (trackTokenPositions d = true → (tokenLine d2, tokenCol d2) = lineColForOffset (buf d) (off d)) ∧
    flags d2 = flags d)
    as (Hc2 & Hp2 & Hl2 & Hfl2).
  { subst d2 d1. simpl. destruct (trackTokenPositions d) eqn:Et; [|done].
    rewrite computeLineCol_spec by (by apply (wf_ext d)). simpl.
    by split_and!. }
  clearbody d2. pose proof (config_buf _ _ Hc2) as Hb2.
  assert (off d2 = off d) as Ho2 by (by injection Hp2).
  assert (wf d2) as Hwf2 by (by apply (wf_ext d)).
  destruct (advanceBytes_spec d2 past Hwf2) as (Hwf3 & Hc3 & Ho3); [rewrite Hb2; lia|].
  rewrite Hb2, Ho2 in Hwf3, Hc3, Ho3. cbv zeta. rewrite (Hg d2) by done.
  set (d3 := advanceBytes _ d2) in *.
  assert (tokenLine d3 = tokenLine d2 ∧ tokenCol d3 = tokenCol d2 ∧ flags d3 = flags d2) as (Hl3 & Hcl3 & Hfl3).
  { subst d3. unfold advanceBytes, advancePosition. repeat case_match; done. }
  clearbody d3. destruct (Hf d3) as (Hcf & Hpf & Hlf & Hclf).
  assert (off (f d3) = past) as Hof by (injection Hpf; congruence).
  assert (length (slice (buf d) (off d) e) = e - off d) as Hls by (rewrite length_slice; lia).
  split_and!; simpl.
  - congruence.
  - by apply (wf_ext d3).
  - split; [|apply Hfl; congruence]. split; simpl; rewrite ?Hls, ?Hof; try done.
    + f_equal. lia.
    + intros E. rewrite E in Hls. simpl in Hls. lia.
    + lia.
    + by replace (off d + (e - off d)) with e by lia.
    + rewrite Hlf, Hclf, Hl3, Hcl3. done.
Qed.

Lemma slice_gap_nil d e (P : Z → Prop) : Forall P (slice (buf d) e e).
Proof using Type. rewrite slice_nil. constructor. Qed.

Lemma scanComment_spec d :
  wf d → flags_ok d → off d < length (buf d) → token_spec d (scanComment d).
Proof using Type.
  intros Hwf Hfl Ho. unfold scanComment. apply (token_spec_scans d (λ a, a = d)); [done|done|].
  intros ? ->. cbv zeta.
  eapply token_spec_scans; [done|by apply scanCommentEnd_spec; [apply Hwf|]|]. intros e [He1 He2].
  apply (token_spec_emit d _ e e _ (advanceBytes (slice (buf d) (off d) e)) id);
    [done|lia|lia|lia|done|done|intros d2 Hd2; by apply (flags_ok_ext d)|apply slice_gap_nil].
Qed.

Lemma popContainer_frame kind d :
  config (popContainer kind d) = config d ∧ pos (popContainer kind d) = pos d ∧
  tokenLine (popContainer kind d) = tokenLine d ∧ tokenCol (popContainer kind d) = tokenCol d.
Proof using Type. unfold popContainer. by repeat case_match. Qed.

Lemma enforceNestedDepth_frame o n d :
  config (enforceNestedDepth o n d) = config d ∧ pos (enforceNestedDepth o n d) = pos d ∧
  tokenLine (enforceNestedDepth o n d) = tokenLine d ∧ tokenCol (enforceNestedDepth o n d) = tokenCol d.
Proof using Type. unfold enforceNestedDepth. by case_match. Qed.

Lemma stack_ne (st : list Z) : (0 <? length st) = true → st ≠ [].
Proof using Type. by destruct st. Qed.

Lemma afterContainer_flags d : err d ≠ Some OutOfFuel → flags_ok (afterContainer d).
Proof using Type. intros. split; simpl; [apply stack_ne|done|done]. Qed.

Lemma afterValue_flags d : err d ≠ Some OutOfFuel → flags_ok (afterValue d).
Proof using Type. intros. unfold afterValue. case_match; split; simpl; (apply stack_ne || done). Qed.

Lemma afterValue_frame d :
  config (afterValue d) = config d ∧ pos (afterValue d) = pos d ∧
  tokenLine (afterValue d) = tokenLine d ∧ tokenCol (afterValue d) = tokenCol d.
Proof using Type. unfold afterValue. by case_match. Qed.

(** A one-byte token followed by changes of flags. *)
Lemma token_spec_one d kind (f : Decoder → Decoder) :
  wf d → off d < length (buf d) →
  (∀ d, config (f d) = config d ∧ pos (f d) = pos d ∧
        tokenLine (f d) = tokenLine d ∧ tokenCol (f d) = tokenCol d) →
  (∀ d2, flags d2 = flags d → flags_ok (f d2)) →
  token_spec d ((tok ← makeToken kind (slice (buf d) (off d) (off d + 1)) (off d) noScalar;
                 _ ← modify (λ d, f (advanceOne d)); mret tok) d).
Proof using Type.
  intros Hwf Ho Hf Hfl. apply (token_spec_emit d kind (off d + 1) (off d + 1) _ _ f);
    [done|lia|lia|lia| |done|done|apply slice_gap_nil].
  intros d2 Hb2 Ho2. unfold advanceOne. by rewrite Hb2, Ho2.
Qed.

Lemma scanArrayStart_spec d :
  wf d → flags_ok d → off d < length (buf d) → token_spec d (scanArrayStart d).
Proof using Type.
  intros Hwf Hfl Ho.
  apply (token_spec_one d TokenKindArrayStart (λ d1,
    let d2 := set_arrayDepth (arrayDepth d1 + 1) d1 in
    let d3 := enforceNestedDepth (off d) (arrayDepth d2) d2 in
    let d4 := set_containerStack (containerArray :: containerStack d3) d3 in
    set_needSeparator false (set_valueNoNewline false (set_expectingValue true d4)))); [done..| |].
  - intros d1. apply (enforceNestedDepth_frame (off d) (arrayDepth d1 + 1) (set_arrayDepth (arrayDepth d1 + 1) d1)).
  - intros d1 [= _ _ _ _ _ He]. split; [done|done|]. simpl. unfold enforceNestedDepth.
    case_match; simpl; [done|]. rewrite He. apply Hfl.
Qed.

Lemma scanInlineTableStart_spec d :
  wf d → flags_ok d → off d < length (buf d) → token_spec d (scanInlineTableStart d).
Proof using Type.
  intros Hwf Hfl Ho.
  apply (token_spec_one d TokenKindInlineTableStart (λ d1,
    let d2 := set_inlineDepth (inlineDepth d1 + 1) d1 in
    let d4 := set_containerStack (containerInline :: containerStack d2) d2 in
    set_needSeparator false (set_valueNoNewline false (set_expectingValue false d4)))); [done..| |].
  - by intros d1.
  - intros d1 [= _ _ _ _ _ He]. split; [done|done|]. simpl. rewrite He. apply Hfl.
Qed.

Lemma scanArrayEnd_spec d :
  wf d → flags_ok d → off d < length (buf d) → token_spec d (scanArrayEnd d).
Proof using Type.
  intros Hwf Hfl Ho.
  apply (token_spec_one d TokenKindArrayEnd (λ d1,
    afterContainer (popContainer containerArray (set_arrayDepth (arrayDepth d1 - 1) d1)))); [done..| |].
  - intros d1. apply (popContainer_frame containerArray (set_arrayDepth (arrayDepth d1 - 1) d1)).
  - intros d1 [= _ _ _ _ _ He]. apply afterContainer_flags. unfold popContainer.
    by repeat case_match; simpl; rewrite He; apply Hfl.
Qed.

Lemma scanInlineTableEnd_spec d :
  wf d → flags_ok d → off d < length (buf d) → token_spec d (scanInlineTableEnd d).
Proof using Type.
  intros Hwf Hfl Ho.
  apply (token_spec_one d TokenKindInlineTableEnd (λ d1,
    afterContainer (popContainer containerInline (set_inlineDepth (inlineDepth d1 - 1) d1)))); [done..| |].
  - intros d1. apply (popContainer_frame containerInline (set_inlineDepth (inlineDepth d1 - 1) d1)).
  - intros d1 [= _ _ _ _ _ He]. apply afterContainer_flags. unfold popContainer.
    by repeat case_match; simpl; rewrite He; apply Hfl.
Qed.

Lemma token_spec_fail d e : wf d → e ≠ OutOfFuel → token_spec d (fail_sticky e d).
Proof using Type. intros Hwf He. split_and!; simpl; auto using wf_set_err. Qed.

Lemma scanValueToken_spec d :
  wf d → flags_ok d → off d < length (buf d) → token_spec d (scanValueToken d).
Proof using Type.
  intros Hwf Hfl Ho. unfold scanValueToken.
  apply (token_spec_scans d (λ a, a = d)); [done|done|]. intros ? ->. cbv zeta.
  case_match.
  { eapply token_spec_scans; [done|by apply scanString_spec; [apply Hwf|]|].
    intros [e kind] [[He1 He2] _]. simpl in He1, He2 |- *.
    destruct (_ <b _); [by apply token_spec_fail|].
    apply (token_spec_emit d _ e e _ (λ d2, afterValue (advanceBytes (slice (buf d) (off d) e) d2)) afterValue);
      [done|lia|lia|lia|done|apply afterValue_frame|intros d2 [= _ _ _ _ _ He]; apply afterValue_flags; rewrite He; apply Hfl|apply slice_gap_nil]. }
  case_match; [by apply scanArrayStart_spec|]. case_match; [by apply scanInlineTableStart_spec|].
  case_match; [by apply scanArrayEnd_spec|]. case_match; [by apply scanInlineTableEnd_spec|].
  case_match; [by apply scanComment_spec|].
  pose proof (scanBareValueEnd_le (drop (off d) (buf d)) ltac:(apply Forall_drop, Hwf)) as Hle.
  rewrite length_drop in Hle. set (e := scanBareValueEnd _) in *. clearbody e.
  destruct (e =? 0) eqn:E0; [by apply token_spec_syntaxError|].
  destruct (length _ =? 0); [by apply token_spec_syntaxError|].
  destruct (classifyBareValue _) as [[kind scalar] msg].
  destruct (negb _); [by apply token_spec_syntaxError|].
  apply (token_spec_emit d _ (e + off d) (e + off d) _
    (λ d2, afterValue (advanceBytes (slice (buf d) (off d) (e + off d)) d2)) afterValue);
    [done|lia|lia|lia|done|apply afterValue_frame|intros d2 [= _ _ _ _ _ He]; apply afterValue_flags; rewrite He; apply Hfl|apply slice_gap_nil].
Qed.

(** A key, the blanks after it and the equals sign. *)
Lemma key_slice d i key :
  off d ≤ i ≤ length (buf d) → key = bytesTrimRightSpaces (slice (buf d) (off d) i) →
  key = slice (buf d) (off d) (off d + length key) ∧ off d + length key ≤ i ∧
  blanks (slice (buf d) (off d + length key) i).
Proof using Type.
  intros Hi ->. destruct (bytesTrimRightSpaces_spec (slice (buf d) (off d) i)) as (b & Hs & Hb).
  set (key := bytesTrimRightSpaces _) in *. clearbody key.
  assert (length key + length b = i - off d) as Hl.
  { apply (f_equal length) in Hs. rewrite length_app, length_slice in Hs by lia. lia. }
  assert (slice (buf d) (off d) (off d + length key) ++ slice (buf d) (off d + length key) i = key ++ b) as Hs2.
  { rewrite slice_app by lia. done. }
  apply app_inj_1 in Hs2 as [Hk Hb2].
  - split_and!; [done|lia|]. by rewrite Hb2.
  - rewrite length_slice; lia.
Qed.

Lemma scanKeyToken_spec d :
  wf d → flags_ok d → needSeparator d = false → off d < length (buf d) → token_spec d (scanKeyToken d).
Proof using Type.
  intros Hwf Hfl Hsep Ho. unfold scanKeyToken.
  apply (token_spec_scans d (λ a, a = d)); [done|done|]. intros ? ->. cbv zeta.
  eapply token_spec_scans; [done|apply scanKeyEnd_spec; [apply Hwf|lia|lia]|]. intros i [Hi1 Hi2].
  destruct (i =? off d) eqn:Ei; [by apply token_spec_syntaxError|].
  set (key := bytesTrimRightSpaces _). destruct (key_slice d i key ltac:(lia) eq_refl) as (Hk & Hkl & Hkb).
  assert (Forall is_byte key) as Hkey by (rewrite Hk; apply source_slice_bytes, Hwf). clearbody key.
  apply (token_spec_scans d (λ _, key ≠ [])); [done| |].
  { destruct (isSimpleBareKey key) eqn:Es; simpl; [split; [done|by intros ->]|].
    pose proof (parseDottedKey_no_fuel key Hkey) as Hn.
    destruct (parseDottedKey key) as [ps|e] eqn:Ep; simpl.
    - split; [done|]. by intros ->.
    - split; [by right|congruence]. }
  intros _ Hne. destruct (_ <b _); [by apply token_spec_fail|].
  set (n := find_stop _ _). destruct (_ || _) eqn:Eeq; [by apply token_spec_syntaxError|].
  assert (0 < length key) by (destruct key; simpl; [done|lia]).
  rewrite Hk at 1.
  apply (token_spec_emit d TokenKindKey (off d + length key) (i + n + 1) noScalar
    (λ d2, set_needLineEnd false (set_valueNoNewline true (set_expectingValue true
             (advanceBytes (slice (buf d) (off d) (i + n + 1)) d2))))
    (λ d2, set_needLineEnd false (set_valueNoNewline true (set_expectingValue true d2))));
    [done|lia|lia|bool_lia|done|done|intros d2 [= _ _ Hs _ _ He]; split; simpl; rewrite ?Hs, ?Hsep, ?He; (done || apply Hfl)|].
  rewrite <-(slice_app _ _ i), <-(slice_app _ i (i + n)) by lia. rewrite !Forall_app. split_and!.
  - eapply Forall_impl; [exact Hkb|]. simpl. auto.
  - unfold slice. replace (i + n - i) with n by lia. eapply Forall_impl; [apply find_stop_take|].
    simpl. intros c. rewrite negb_false_iff. auto.
  - rewrite (slice_one_at _ (i + n) (i + n + 1) EQUALS); [|done|].
    + constructor; [by right|constructor].
    + rewrite lookup_total_lt by bool_lia. f_equal. bool_lia.
Qed.

Lemma scanHeader_spec d kind array k :
  wf d → flags_ok d → expectingValue d = false → off d + k ≤ length (buf d) → k = brackets array →
  token_spec d (scanHeader kind array k d).
Proof using Type.
  intros Hwf Hfl Hev Ho Hk. unfold scanHeader.
  assert (0 < k) by (subst k; destruct array; simpl; lia).
  apply (token_spec_scans d (λ a, a = d)); [done|done|]. intros ? ->. cbv zeta.
  eapply token_spec_scans; [done|apply scanHeaderEnd_spec; [apply Hwf|lia|lia]|]. intros i [Hi1 Hi2].
  eapply token_spec_scans; [done|apply validateHeaderKey_spec; [apply Hwf|lia|lia]|]. intros _ _.
  rewrite <-Hk in Hi2.
  set (adv := advanceBytes (slice (buf d) (off d) (i + k))).
  destruct (_ <b _) eqn:Elim.
  - pose proof (token_spec_emit d kind (i + k) (i + k) noScalar adv id Hwf ltac:(lia) ltac:(lia)
      ltac:(lia) ltac:(done) ltac:(done) (λ d2 Hd2, flags_ok_ext d d2 Hd2 Hfl) (slice_gap_nil _ _ _)) as (Hc & Hw & _).
    split_and!; simpl in *; [done|by apply wf_set_err|]. split; [by left|done].
  - apply (token_spec_emit d kind (i + k) (i + k) noScalar
      (λ d2, set_needLineEnd true (set_atLineStart false (set_expectingValue false (adv d2))))
      (λ d2, set_needLineEnd true (set_atLineStart false (set_expectingValue false d2))));
      [done|lia|lia|lia|done|done| |apply slice_gap_nil].
    intros d2 [= E1 E2 E3 E4 E5 E6]. destruct Hfl as [Hf1 Hf2 Hf3].
    split; simpl; rewrite ?E2, ?E3, ?E5, ?E6; [done| |done]. intros Hv. destruct (Hf2 Hv). congruence.
Qed.

(** ** Whitespace *)

(** Where [skipSpaces] stops. *)
Definition spaces_done (d : Decoder) : Prop :=
  off d < length (buf d) →
  isBlank (buf d !!! off d) = false ∧
  (valueNoNewline d = false →
   has_prefix (drop (off d) (buf d)) [LF] = false ∧ has_prefix (drop (off d) (buf d)) [CR; LF] = false).

(** What [skipSpaces] may change: the position and the line flags. *)
Record skipped (d d' : Decoder) : Prop := {
  sk_config : config d' = config d;
  sk_wf : wf d';
  sk_off : off d ≤ off d';
  sk_space : Forall (λ c, isSpace c = true) (slice (buf d) (off d) (off d'));
  sk_err : err d' = err d;
  sk_flags : expectingValue d' = expectingValue d ∧ valueNoNewline d' = valueNoNewline d ∧
    needSeparator d' = needSeparator d ∧ containerStack d' = containerStack d ∧
    (needLineEnd d' = true → needLineEnd d = true);
}.

Lemma skipped_refl d : wf d → skipped d d.
Proof using Type. intros. split; try done. rewrite slice_nil. constructor. Qed.

Lemma skipped_trans d1 d2 d3 : skipped d1 d2 → skipped d2 d3 → skipped d1 d3.
Proof using Type.
  intros [C1 W1 O1 S1 E1 (F1 & F2 & F3 & F4 & F5)] [C2 W2 O2 S2 E2 (G1 & G2 & G3 & G4 & G5)].
  pose proof (config_buf _ _ C1) as Hb. rewrite Hb in S2.
  split.
  { exact (eq_trans C2 C1). }
  { exact W2. }
  { exact (Nat.le_trans _ _ _ O1 O2). }
  2:{ exact (eq_trans E2 E1). }
  2:{ split_and!; [exact (eq_trans G1 F1)|exact (eq_trans G2 F2)|exact (eq_trans G3 F3)|exact (eq_trans G4 F4)|auto]. }
  rewrite <-(slice_app _ _ (off d2)) by done. by apply Forall_app.
Qed.

Lemma skipped_flags_ok d d' : skipped d d' → flags_ok d → flags_ok d'.
Proof using Type.
  intros [_ _ _ _ He (F1 & F2 & F3 & F4 & F5)] [H1 H2 H3]. split; [..|by rewrite He].
  - by rewrite F3, F4.
  - rewrite F1, F2, F3. intros Hv. destruct (H2 Hv) as (? & ? & Hn). split_and!; [done|done|].
    destruct (needLineEnd d'); [|done]. rewrite F5 in Hn; done.
Qed.

(** One iteration: past [n] bytes of white space. *)
Lemma skipped_step d n (f : Decoder → Decoder) :
  wf d → off d + n ≤ length (buf d) → Forall (λ c, isSpace c = true) (take n (drop (off d) (buf d))) →
  (∀ d, config (f d) = config d ∧ pos (f d) = pos d ∧ err (f d) = err d ∧
     expectingValue (f d) = expectingValue d ∧ valueNoNewline (f d) = valueNoNewline d ∧
     needSeparator (f d) = needSeparator d ∧ containerStack (f d) = containerStack d ∧
     (needLineEnd (f d) = true → needLineEnd d = true)) →
  skipped d (f (advanceBytes (take n (drop (off d) (buf d))) d)) ∧
  off (f (advanceBytes (take n (drop (off d) (buf d))) d)) = off d + n.
Proof using Type.
  intros Hwf Hn Hsp Hf.
  assert (take n (drop (off d) (buf d)) = slice (buf d) (off d) (off d + n)) as Heq
    by (unfold slice; f_equal; lia).
  rewrite Heq in *. destruct (advanceBytes_spec d (off d + n) Hwf ltac:(lia)) as (Hw & Hc & Ho).
  set (d1 := advanceBytes _ d) in *.
  assert (flags d1 = flags d ∧ err d1 = err d) as [Hfl He].
  { subst d1. unfold advanceBytes, advancePosition. by repeat case_match. }
  injection Hfl as E1 E2 E3 E4 E5 _. clearbody d1.
  destruct (Hf d1) as (Fc & Fp & Fe & F1 & F2 & F3 & F4 & F5).
  assert (off (f d1) = off d + n) as Hof by (injection Fp; congruence).
  split; [|done]. split.
  - exact (eq_trans Fc Hc).
  - exact (wf_ext _ _ Fc Fp Hw).
  - rewrite Hof. apply Nat.le_add_r.
  - by rewrite Hof.
  - exact (eq_trans Fe He).
  - split_and!; [exact (eq_trans F1 E1)|exact (eq_trans F2 E2)|exact (eq_trans F3 E3)|exact (eq_trans F4 E5)|].
    rewrite <-E4. exact F5.
Qed.

Lemma blank_space_stop c : isBlank c = negb ((c ≠b SP) && (c ≠b TAB)).
Proof using Type. unfold isBlank. lia. Qed.

Lemma skipSpaces_loop_spec fuel : ∀ d,
  wf d → length (buf d) - off d < fuel →
  skipped d (skipSpaces_loop fuel d) ∧ spaces_done (skipSpaces_loop fuel d).
Proof using Type.
  induction fuel as [|fuel IH]; intros d Hwf Hfuel; [lia|]. cbn [skipSpaces_loop].
  destruct (off d <? length (buf d)) eqn:Hlt.
  2:{ split; [by apply skipped_refl|]. intros ?. lia. }
  rewrite SkipWhitespace_ok by apply Forall_drop, Hwf.
  set (n := find_stop _ _).
  pose proof (find_stop_take (λ b, (b ≠b SP) && (b ≠b TAB)) (drop (off d) (buf d))) as Hsp.
  pose proof (find_stop_le (λ b, (b ≠b SP) && (b ≠b TAB)) (drop (off d) (buf d))) as Hle.
  fold n in Hsp, Hle. rewrite length_drop in Hle.
  assert (∀ d1, skipped d d1 → off d < off d1 →
    skipped d (skipSpaces_loop fuel d1) ∧ spaces_done (skipSpaces_loop fuel d1)) as Hgo.
  { intros d1 H1 Ho1. pose proof (config_buf _ _ (sk_config _ _ H1)) as Hb1.
    destruct (IH d1 (sk_wf _ _ H1)) as [H2 H3]; [rewrite Hb1; lia|].
    split; [by eapply skipped_trans|done]. }
  assert (∀ p m, has_prefix (drop (off d) (buf d)) p = true → m = length p →
    Forall (λ c, isSpace c = true) p →
    off d + m ≤ length (buf d) ∧ Forall (λ c, isSpace c = true) (take m (drop (off d) (buf d)))) as Hpre.
  { intros p m [t Ht]%has_prefix_spec -> Hp. split.
    - apply (f_equal length) in Ht. rewrite length_drop, length_app in Ht. lia.
    - rewrite Ht, take_app_length. done. }
  destruct (0 <? n) eqn:Hn.
  { destruct (skipped_step d n (if atLineStart d then set_atLineStart true else id) Hwf ltac:(lia)) as [H1 Ho1].
    - eapply Forall_impl; [exact Hsp|]. intros c. unfold isSpace. simpl. lia.
    - intros d1. by destruct (atLineStart d).
    - unfold id in *. destruct (atLineStart d); (apply Hgo; [exact H1|rewrite Ho1; lia]). }
  assert (isBlank (buf d !!! off d) = false) as Hnb.
  { assert (n = 0) as Hn0 by lia. subst n. rewrite drop_lookup_total in Hn0 by lia. simpl in Hn0.
    rewrite blank_space_stop. destruct (_ && _); [done|lia]. }
  destruct (has_prefix (drop (off d) (buf d)) [CR; LF]) eqn:Hcr.
  { destruct (valueNoNewline d) eqn:Hv.
    { split; [by apply skipped_refl|]. intros _. split; [done|congruence]. }
    destruct (Hpre _ 2 Hcr eq_refl) as [Hl Hs]; [by repeat constructor|].
    destruct (skipped_step d 2 (λ d, set_needLineEnd false (set_atLineStart true d)) Hwf Hl Hs) as [H1 Ho1]; [done|].
    apply Hgo; [done|lia]. }
  destruct (has_prefix (drop (off d) (buf d)) [LF]) eqn:Hlf.
  { destruct (valueNoNewline d) eqn:Hv.
    { split; [by apply skipped_refl|]. intros _. split; [done|congruence]. }
    destruct (Hpre _ 1 Hlf eq_refl) as [Hl Hs]; [by repeat constructor|].
    destruct (skipped_step d 1 (λ d, set_needLineEnd false (set_atLineStart true d)) Hwf Hl Hs) as [H1 Ho1]; [done|].
    apply Hgo; [done|lia]. }
  split; [by apply skipped_refl|]. intros _. by split_and!.
Qed.

Lemma skipSpaces_spec d : wf d → skipped d (skipSpaces d) ∧ spaces_done (skipSpaces d).
Proof using Type. intros Hwf. apply skipSpaces_loop_spec; [done|lia]. Qed.

Lemma skipSpaces_done d : wf d → spaces_done d → skipSpaces d = d.
Proof using Type.
  intros Hwf Hd. unfold skipSpaces. cbn [skipSpaces_loop].
  destruct (off d <? length (buf d)) eqn:Hlt; [|done]. destruct (Hd ltac:(lia)) as [Hb Hnl].
  rewrite SkipWhitespace_ok by apply Forall_drop, Hwf.
  rewrite drop_lookup_total at 1 by lia. cbn [find_stop]. rewrite blank_space_stop in Hb.
  apply negb_false_iff in Hb. rewrite Hb. change (0 <? 0) with false. cbv iota.
  destruct (valueNoNewline d); [by repeat case_match|].
  destruct (Hnl eq_refl) as [Hlf Hcr]. by rewrite Hlf, Hcr.
Qed.

(** ** One iteration of [readToken] *)

(** A carriage return without a line feed where the line has to end. *)
Definition stuck (d : Decoder) : Prop :=
  off d < length (buf d) ∧ needLineEnd d = true ∧ spaces_done d ∧ wf d ∧
  buf d !!! off d = CR ∧ has_prefix (drop (off d) (buf d)) [CR; LF] = false.

(** The comma of an array or an inline table. *)
Record comma_at (d d' : Decoder) : Prop := {
  cm_off : off d < length (buf d) ∧ off d' = off d + 1;
  cm_byte : buf d !!! off d = COMMA;
  cm_config : config d' = config d;
  cm_wf : wf d';
  cm_flags : flags_ok d';
  cm_err : err d' = err d;
}.

Definition iteration_spec (d : Decoder) (r : res (option rawToken) * Decoder) : Prop :=
  match r with
  | (Ok (Some tok), d') => config d' = config d ∧ wf d' ∧ token_at d tok d' ∧ flags_ok d'
  | (Ok None, d') => comma_at d d' ∨ d' = d ∧ stuck d
  | (Err e, d') => config d' = config d ∧ wf d' ∧ (err d' = Some e ∨ d' = d) ∧ e ≠ OutOfFuel
  end.

Lemma some_token_spec d m : token_spec d (m d) → iteration_spec d (some_token m d).
Proof using Type.
  unfold token_spec, some_token, mbind, M_bind, mret, M_ret.
  destruct (m d) as [[tok|e] d']; simpl; [by intros (? & ? & ? & ?)|by intros (? & ? & ? & ?)].
Qed.

Lemma iteration_error {A} (f : A → M (option rawToken)) d msg o :
  wf d → iteration_spec d ((syntaxError msg o ≫= f) d) ∧ iteration_spec d (syntaxError msg o d).
Proof using Type.
  intros Hwf. unfold mbind, M_bind, syntaxError. destruct (computeLineCol d o). simpl.
  split; (split_and!; [done|by apply wf_set_err|by left|done]).
Qed.

Lemma iteration_syntaxError d msg o : wf d → iteration_spec d (syntaxError msg o d).
Proof using Type. intros Hwf. by apply (iteration_error (λ _ : unit, mret None)). Qed.

Lemma endOfInput_spec d : wf d → iteration_spec d (endOfInput d).
Proof using Type.
  intros Hwf. unfold endOfInput, mbind, M_bind, get.
  destruct (expectingValue d); [by apply iteration_syntaxError|].
  split_and!; [done|done|by right|done].
Qed.

Lemma comma_spec d :
  wf d → flags_ok d → off d < length (buf d) → buf d !!! off d = COMMA → needSeparator d = true →
  comma_at d (set_expectingValue (innermostIsArray (set_needSeparator false (advanceOne d)))
    (set_needSeparator false (advanceOne d))).
Proof using Type.
  intros Hwf Hfl Ho Hc Hs. unfold advanceOne.
  destruct (advanceBytes_spec d (off d + 1) Hwf ltac:(lia)) as (Hw & Hcf & Hof).
  set (d1 := advanceBytes _ d) in *.
  assert (flags d1 = flags d ∧ err d1 = err d) as [Hfl1 He].
  { subst d1. unfold advanceBytes, advancePosition. by repeat case_match. }
  clearbody d1. injection Hfl1 as E1 E2 E3 E4 E5 _. split; [done|done|done| | |done].
  - by apply (wf_ext d1).
  - split; simpl; [done| |rewrite He; apply Hfl]. intros Hv. rewrite E2 in Hv. destruct (fl_value _ Hfl Hv) as (_ & ? & _). congruence.
Qed.

Lemma dispatch_spec d :
  wf d → flags_ok d → off d < length (buf d) → iteration_spec d (dispatch d).
Proof using Type.
  intros Hwf Hfl Ho. unfold dispatch. unfold mbind at 1, M_bind at 1, get. cbv zeta.
  destruct (buf d !!! off d =b LBRACK).
  { destruct (_ && _); [by apply iteration_syntaxError|by apply some_token_spec, scanArrayStart_spec]. }
  destruct (buf d !!! off d =b LBRACE).
  { destruct (_ && _); [by apply iteration_syntaxError|by apply some_token_spec, scanInlineTableStart_spec]. }
  destruct (buf d !!! off d =b RBRACK); [by apply some_token_spec, scanArrayEnd_spec|].
  destruct (buf d !!! off d =b RBRACE); [by apply some_token_spec, scanInlineTableEnd_spec|].
  destruct (buf d !!! off d =b HASH); [by apply some_token_spec, scanComment_spec|].
  destruct (buf d !!! off d =b EQUALS); [by apply iteration_syntaxError|].
  destruct (Z.eqb_spec (buf d !!! off d) COMMA) as [Hc|_].
  { destruct (needSeparator d) eqn:Hs; [|by apply iteration_syntaxError]. left. by apply comma_spec. }
  destruct (expectingValue d).
  { destruct (_ && _); [by apply iteration_syntaxError|by apply some_token_spec, scanValueToken_spec]. }
  destruct (needSeparator d && (0 <? length (containerStack d))) eqn:Hs; [by apply iteration_syntaxError|].
  apply some_token_spec, scanKeyToken_spec; [done|done| |done].
  destruct (needSeparator d) eqn:Hn; [|done]. pose proof (fl_separator _ Hfl Hn). by destruct (containerStack d).
Qed.

Lemma readTokenAt_spec d :
  wf d → flags_ok d → spaces_done d → iteration_spec d (readTokenAt d).
Proof using Type.
  intros Hwf Hfl Hsp. unfold readTokenAt. unfold mbind at 1, M_bind at 1, get. cbv zeta.
  destruct (length (buf d) <=? off d) eqn:Ho; [by apply endOfInput_spec|]. apply Nat.leb_gt in Ho.
  destruct (needLineEnd d) eqn:Hn.
  { destruct (buf d !!! off d =b HASH); [by apply some_token_spec, scanComment_spec|].
    destruct ((buf d !!! off d =b LF) || (buf d !!! off d =b CR)) eqn:Hc; [|by apply iteration_syntaxError].
    right. split; [done|]. destruct (Hsp Ho) as [_ Hnl].
    destruct (valueNoNewline d) eqn:Hv; [destruct (fl_value _ Hfl Hv) as (_ & _ & ?); congruence|].
    destruct (Hnl eq_refl) as [Hlf Hcr]. split_and!; try done.
    apply orb_true_iff in Hc as [Hc%Z.eqb_eq|Hc%Z.eqb_eq]; [|done].
    rewrite drop_lookup_total, Hc in Hlf by done. discriminate Hlf. }
  destruct (atLineStart d && negb (expectingValue d)) eqn:Hls; cbn [andb].
  2:{ by apply dispatch_spec. }
  apply andb_prop in Hls as [_ Hev%negb_true_iff].
  destruct (matchPrefix d [LBRACK; LBRACK]) eqn:Hm.
  { apply some_token_spec, scanHeader_spec; try done.
    unfold matchPrefix in Hm. simpl in Hm. destruct (length (buf d) <? off d + 2) eqn:?; [done|lia]. }
  destruct (_ =b _); [|by apply dispatch_spec].
  apply some_token_spec, scanHeader_spec; try done. lia.
Qed.

Lemma readTokenStep_at d :
  wf d → readTokenStep d = readTokenAt (skipSpaces d).
Proof using Type.
  intros Hwf. unfold readTokenStep, mbind, M_bind, get, modify.
  destruct (length (buf d) <=? off d) eqn:Ho; [|done]. apply Nat.leb_le in Ho.
  rewrite skipSpaces_done; [|done|intros ?; lia].
  unfold readTokenAt, mbind, M_bind, get. by rewrite (proj2 (Nat.leb_le _ _) Ho).
Qed.

(** ** The loop of [readToken] *)

Lemma stuck_step d : stuck d → readTokenStep d = (Ok None, d).
Proof using Type.
  intros (Ho & Hn & Hsp & Hwf & Hc & _). rewrite readTokenStep_at, skipSpaces_done by done.
  unfold readTokenAt, mbind, M_bind, get. rewrite (proj2 (Nat.leb_gt _ _) Ho), Hn, Hc. done.
Qed.

Lemma stuck_loop d fuel : stuck d → readToken_loop fuel d = (Err OutOfFuel, d).
Proof using Type.
  intros Hs. induction fuel as [|fuel IH]; cbn [readToken_loop]; [done|]. by rewrite stuck_step.
Qed.

(** Bytes between two tokens. *)
Definition between_tokens (c : Z) : Prop := isSpace c = true ∨ c = COMMA.

(** A token, after nothing but white space and commas. *)
Definition next_token (d : Decoder) (tok : rawToken) (d' : Decoder) : Prop :=
  ∃ d1, config d1 = config d ∧ off d ≤ off d1 ∧
    Forall between_tokens (slice (buf d) (off d) (off d1)) ∧ token_at d1 tok d'.

(** An error that every later call returns again. *)
Definition persistent (e : error) (d : Decoder) : Prop :=
  err d = Some e ∨ flags_ok d ∧ err d = None ∧ readTokenStep d = (Err e, d).

Definition loop_spec (d : Decoder) (r : res rawToken * Decoder) : Prop :=
  config r.2 = config d ∧ wf r.2 ∧
  match r.1 with
  | Ok tok => flags_ok r.2 ∧ next_token d tok r.2
  | Err e => e ≠ OutOfFuel ∧ persistent e r.2 ∨ e = OutOfFuel ∧ stuck r.2 ∧ flags_ok r.2 ∧ err r.2 = None
  end.

Lemma loop_spec_skip d d1 r :
  config d1 = config d → off d ≤ off d1 → Forall between_tokens (slice (buf d) (off d) (off d1)) →
  loop_spec d1 r → loop_spec d r.
Proof using Type.
  intros Hc Ho Hb (Hc1 & Hw & Hr). split; [exact (eq_trans Hc1 Hc)|]. split; [done|].
  destruct r as [[tok|e] d']; simpl in *; [|done]. destruct Hr as [Hfl (d2 & Hc2 & Ho2 & Hb2 & Hat)].
  split; [done|]. exists d2. rewrite (config_buf _ _ Hc) in Hb2. split_and!.
  - exact (eq_trans Hc2 Hc).
  - exact (Nat.le_trans _ _ _ Ho Ho2).
  - rewrite <-(slice_app _ _ (off d1)) by done. by apply Forall_app.
  - done.
Qed.

Lemma readToken_loop_spec fuel : ∀ d,
  wf d → flags_ok d → err d = None → length (buf d) - off d + 1 < fuel →
  loop_spec d (readToken_loop fuel d).
Proof using Type.
  induction fuel as [|fuel IH]; intros d Hwf Hfl Herr Hfuel; [lia|]. cbn [readToken_loop].
  rewrite readTokenStep_at by done. destruct (skipSpaces_spec d Hwf) as [Hsk Hdone].
  set (d1 := skipSpaces d) in *. clearbody d1.
  pose proof (sk_wf _ _ Hsk) as Hwf1. pose proof (skipped_flags_ok _ _ Hsk Hfl) as Hfl1.
  pose proof (sk_config _ _ Hsk) as Hc1. pose proof (config_buf _ _ Hc1) as Hb1.
  pose proof (sk_off _ _ Hsk) as Ho1.
  apply (loop_spec_skip d d1); [done|done| |].
  { eapply Forall_impl; [apply (sk_space _ _ Hsk)|]. by left. }
  pose proof (eq_trans (sk_err _ _ Hsk) Herr) as He1.
  pose proof (readTokenAt_spec d1 Hwf1 Hfl1 Hdone) as Hit.
  pose proof (readTokenStep_at d1 Hwf1) as Hst. rewrite skipSpaces_done in Hst by done.
  destruct (readTokenAt d1) as [[[tok|]|e] d'] eqn:Er; simpl in Hit.
  - destruct Hit as (Hc & Hw & Hat & Hf). split; [done|split; [done|split; [done|]]].
    exists d1. rewrite slice_nil. by split_and!.
  - destruct Hit as [[[Hlt Ho2] Hcm Hc Hw Hf He]|[-> Hstuck]].
    + pose proof (config_buf _ _ Hc) as Hb2. apply (loop_spec_skip d1 d'); [done|lia| |].
      * rewrite Ho2, (slice_one_at _ (off d1) (off d1 + 1) COMMA); [|done|].
        -- constructor; [by right|constructor].
        -- by rewrite lookup_total_lt, Hcm by done.
      * apply IH; [done|done|by rewrite He|]. rewrite Hb2, Ho2. rewrite Hb1 in *.
        clear -Hfuel Ho1 Hlt. lia.
    + rewrite stuck_loop by done. split; [done|split; [done|]]. right. by split_and!.
  - destruct Hit as (Hc & Hw & Hpers & Hne). split; [done|split; [done|]]. left. split; [done|].
    destruct Hpers as [?| ->]; [by left|right]. split_and!; done.
Qed.

Lemma readToken_spec d :
  wf d → (err d = None → flags_ok d) →
  match err d with
  | Some e => readToken d = (Err e, d)
  | None => loop_spec d (readToken d)
  end.
Proof using Type.
  intros Hwf Hfl. unfold readToken. destruct (err d) eqn:He; [done|].
  apply readToken_loop_spec; auto. lia.
Qed.

(** An error of the token stream is returned by every later call. *)
Lemma persistent_readToken e d : persistent e d → readToken d = (Err e, d).
Proof using Type.
  unfold readToken. intros [-> |(_ & -> & Hst)]; [done|]. cbn [readToken_loop]. by rewrite Hst.
Qed.

(** ** Decoders in use *)

(** The states a decoder over [data] goes through. *)
Inductive reachable (data : bytes) (opts : list Option) : Decoder → Prop :=
| reachable_new : reachable data opts (NewDecoderBytes data opts)
| reachable_read d r d' : reachable data opts d → ReadToken d = (r, d') → reachable data opts d'.

Definition inv (data : bytes) (d : Decoder) : Prop :=
  buf d = data ∧ wf d ∧ (err d = None → flags_ok d) ∧ err d ≠ Some OutOfFuel.

Lemma apply_options_frame opts d :
  let d' := apply_options opts d in
  buf d' = buf d ∧ pos d' = pos d ∧ err d' = err d ∧ flags d' = flags d.
Proof using Type.
  unfold apply_options. revert d. induction opts as [|o opts IH]; intros d; [done|]. simpl.
  destruct (IH (apply_option o d)) as (-> & -> & -> & ->). by destruct o.
Qed.

Lemma NewDecoderBytes_inv data opts : Forall is_byte data → inv data (NewDecoderBytes data opts).
Proof using Type.
  intros Hd. unfold NewDecoderBytes.
  destruct (apply_options_frame opts (emptyDecoder data)) as (Hb & Hp & He & Hf).
  set (d := apply_options opts (emptyDecoder data)) in *. clearbody d. simpl in Hb, He.
  injection Hp as Ho Hl Hc. injection Hf as E1 E2 E3 E4 E5 _.
  assert (wf d) as Hwf.
  { split; rewrite Hb; [done|lia|]. intros _. rewrite Ho, Hl, Hc. unfold lineColForOffset. simpl.
    by rewrite CountLines_ok. }
  assert (flags_ok d) as Hfl by (split; rewrite ?E2, ?E3, ?He; done).
  unfold openDocument.
  do 2 (case_match; [split_and!; [done|by apply wf_set_err|done|done]|]).
  assert (∀ d1, config d1 = config d → wf d1 → flags d1 = flags d →
    inv data (set_decodeStart (off d1) d1)) as Hfin.
  { intros d1 Hc1 Hw1 Hf1. pose proof (flags_ok_ext _ _ Hf1 Hfl) as Hfl1. split_and!.
    - simpl. by rewrite (config_buf _ _ Hc1).
    - destruct Hw1. by split.
    - intros _. by apply (flags_ok_ext d1).
    - apply Hfl1. }
  unfold skipBOM. case_match eqn:Hbom; [|by apply Hfin].
  destruct (advanceBytes_spec d (off d + 3) Hwf) as (Hw & Hcf & Hof); [lia|].
  apply Hfin; [done|done|]. unfold advanceBytes, advancePosition. by repeat case_match.
Qed.

Lemma ReadToken_eq d :
  ReadToken d =
    match readToken d with
    | (Ok tok, d') =>
        (Ok (MkToken (rt_Kind tok) (rt_Bytes tok) (rt_Offset tok)
               (if trackTokenPositions d' then tokenLine d' else 0)
               (if trackTokenPositions d' then tokenCol d' else 0) (tokScalar d')), d')
    | (Err e, d') => (Err e, d')
    end.
Proof using Type.
  unfold ReadToken, mbind, M_bind, mret, M_ret, get.
  destruct (readToken d) as [[tok|e] d']; [|done]. simpl. by destruct (trackTokenPositions d').
Qed.

Lemma inv_readToken data d r d' :
  inv data d → readToken d = (r, d') →
  inv data d' ∧
  match r with
  | Ok tok => err d = None ∧ config d' = config d ∧ next_token d tok d'
  | Err e => e = OutOfFuel ∧ stuck d' ∨ e ≠ OutOfFuel ∧ persistent e d' ∨ err d = Some e ∧ d' = d
  end.
Proof using Type.
  intros (Hb & Hwf & Hfl & Hfu) Hr. pose proof (readToken_spec d Hwf Hfl) as Hs. rewrite Hr in Hs.
  destruct (err d) as [e0|] eqn:He.
  - injection Hs as -> ->. split; [|by right; right]. split_and!; [done|done|by rewrite He|by rewrite He].
  - destruct Hs as (Hc & Hw & Hres). simpl in Hc, Hw, Hres.
    assert (buf d' = data) as Hb' by (by rewrite (config_buf _ _ Hc)).
    destruct r as [tok|e].
    + destruct Hres as [Hf Hn]. split; [|by split]. split_and!; [done|done|done|apply Hf].
    + destruct Hres as [[Hne Hp]|(-> & Hst & Hf & He')].
      * split; [|by right; left]. split_and!; [done|done| |].
        -- intros Hno. destruct Hp as [?|(? & _)]; [congruence|done].
        -- destruct Hp as [->|(_ & -> & _)]; [congruence|done].
      * split; [|by left]. split_and!; [done|done|done|apply Hf].
Qed.

Lemma inv_ReadToken data d r d' : inv data d → ReadToken d = (r, d') → inv data d'.
Proof using Type.
  intros Hi. rewrite ReadToken_eq. destruct (readToken d) as [[tok|e] d1] eqn:Hr; intros [= <- <-];
    by destruct (inv_readToken _ _ _ _ Hi Hr).
Qed.

Lemma reachable_inv data opts d : Forall is_byte data → reachable data opts d → inv data d.
Proof using Type.
  intros Hd. induction 1 as [|d r d' _ IH Hr]; [by apply NewDecoderBytes_inv|]. by eapply inv_ReadToken.
Qed.

Lemma inv_ReadToken_slices data d tok d' :
  inv data d → ReadToken d = (Ok tok, d') →
  let o := tok_Offset tok in
  let e := o + length (tok_Bytes tok) in
  tok_Bytes tok = slice data o e ∧ tok_Bytes tok ≠ [] ∧
  off d ≤ o ∧ e ≤ off d' ≤ length data ∧ off d < off d' ∧
  Forall between_tokens (slice data (off d) o) ∧
  Forall (λ c, isBlank c = true ∨ c = EQUALS ∧ tok_Kind tok = TokenKindKey) (slice data e (off d')).
Proof using Type.
  intros Hreach Hr. rewrite ReadToken_eq in Hr.
  destruct (readToken d) as [[rt|e] d1] eqn:Hrt; [|done]. injection Hr as <- <-.
  destruct (inv_readToken _ _ _ _ Hreach Hrt) as ((_ & Hwf1 & _ & _) & _ & Hc1 & d2 & Hc2 & Ho2 & Hbt & Hat).
  destruct Hreach as (Hb & _ & _ & _). destruct Hat as [Hof Hby Hne Hpast Hgap _]. simpl.
  pose proof (config_buf _ _ Hc2) as Hb2. rewrite Hb in Hb2, Hbt. rewrite Hb2 in Hby, Hgap.
  pose proof (wf_off _ Hwf1) as Hw. rewrite (config_buf _ _ Hc1), Hb in Hw. rewrite Hof.
  assert (0 < length (rt_Bytes rt)) by (destruct (rt_Bytes rt); simpl; [done|lia]).
  split_and!; try done; lia.
Qed.

(** C22: every token of the stream is a non-empty slice of the source at its
    reported offset; between the offset reached before and the token there is
    only white space and commas, behind it only the blanks and the equals sign
    of a key; reading always advances, so a document has no more tokens than
    bytes. *)
Theorem ReadToken_slices data opts d tok d' :
  Forall is_byte data → reachable data opts d → ReadToken d = (Ok tok, d') →
  let o := tok_Offset tok in
  let e := o + length (tok_Bytes tok) in
  tok_Bytes tok = slice data o e ∧ tok_Bytes tok ≠ [] ∧
  off d ≤ o ∧ e ≤ off d' ≤ length data ∧ off d < off d' ∧
  Forall between_tokens (slice data (off d) o) ∧
  Forall (λ c, isBlank c = true ∨ c = EQUALS ∧ tok_Kind tok = TokenKindKey) (slice data e (off d')).
Proof using Type. intros Hd Hreach%reachable_inv; [|done]. by apply inv_ReadToken_slices. Qed.

(** C23: the line and column a token is reported at are those of its offset,
    counted from the start of the source by [lineColForOffset], although the
    decoder keeps them incrementally. *)
Theorem ReadToken_positions data opts d tok d' :
  Forall is_byte data → reachable data opts d → ReadToken d = (Ok tok, d') →
  trackTokenPositions d = true →
  (tok_Line tok, tok_Col tok) = lineColForOffset data (tok_Offset tok).
Proof using Type.
  intros Hd Hreach%reachable_inv Hr Ht; [|done]. rewrite ReadToken_eq in Hr.
  destruct (readToken d) as [[rt|e] d1] eqn:Hrt; [|done]. injection Hr as <- <-.
  destruct (inv_readToken _ _ _ _ Hreach Hrt) as (_ & _ & Hc1 & d2 & Hc2 & _ & _ & Hat).
  destruct Hreach as (Hb & _ & _ & _). pose proof (config_buf _ _ Hc2) as Hb2.
  rewrite (config_track _ _ Hc1), Ht. simpl. rewrite (at_offset _ _ _ Hat), (at_line _ _ _ Hat).
  - by rewrite Hb2, Hb.
  - by rewrite (config_track _ _ Hc2).
Qed.

(** C24: an error of the token stream (a syntax error, an exceeded limit or the
    end of the input) is returned by every later call, whether or not the
    decoder recorded it. *)
Theorem ReadToken_sticky data opts d e d' :
  Forall is_byte data → reachable data opts d → ReadToken d = (Err e, d') → e ≠ OutOfFuel →
  ReadToken d' = (Err e, d').
Proof using Type.
  intros Hd Hreach%reachable_inv Hr Hne; [|done]. rewrite ReadToken_eq in Hr |- *.
  destruct (readToken d) as [[rt|e1] d1] eqn:Hrt; [done|]. injection Hr as -> ->.
  destruct (inv_readToken _ _ _ _ Hreach Hrt) as (_ & [[? _]|[[_ Hp]|[He ->]]]); [done| |].
  - by rewrite (persistent_readToken _ _ Hp).
  - unfold readToken. by rewrite He.
Qed.

(** Every carriage return is followed by a line feed. *)
Definition no_lone_CR (data : bytes) : Prop :=
  ∀ i, data !! i = Some CR → data !! (i + 1) = Some LF.

Lemma inv_ReadToken_returns data d :
  inv data d → no_lone_CR data →
  (ReadToken d).1 ≠ Err OutOfFuel.
Proof using Type.
  intros Hreach Hcr. rewrite ReadToken_eq.
  destruct (readToken d) as [[rt|e] d1] eqn:Hrt; [done|]. simpl. intros [= ->].
  destruct (inv_readToken _ _ _ _ Hreach Hrt) as ((Hb1 & _ & _ & Hno) & [[_ Hst]|[[? _]|[He ->]]]); [|done|done].
  destruct Hst as (Ho & _ & _ & _ & Hc & Hcrlf). rewrite Hb1 in *.
  assert (data !! off d1 = Some CR) as Hlk by (rewrite <-Hc; by apply lookup_total_lt).
  apply Hcr in Hlk as Hlf. pose proof (lookup_lt_Some _ _ _ Hlf).
  rewrite (drop_lookup_total data), Hc, (drop_lookup_total data) in Hcrlf by lia.
  apply list_lookup_total_correct in Hlf. rewrite Hlf in Hcrlf. done.
Qed.

(** On a source in which every carriage return belongs to a CRLF pair,
    reading a token always returns. *)
Theorem ReadToken_returns data opts d :
  Forall is_byte data → no_lone_CR data → reachable data opts d →
  (ReadToken d).1 ≠ Err OutOfFuel.
Proof using Type. intros Hd Hcr Hreach%reachable_inv; [|done]. by apply (inv_ReadToken_returns data). Qed.

(** [readToken] does not return on a carriage return without a line feed
    where a line has to end: the loop makes no progress, for any number of
    iterations. *)
Theorem lone_CR_never_returns d :
  stuck d → readTokenStep d = (Ok None, d) ∧ ∀ fuel, readToken_loop fuel d = (Err OutOfFuel, d).
Proof using Type. intros Hs. split; [by apply stuck_step|]. intros fuel. by apply stuck_loop. Qed.

End spec.

(** ** Witnesses *)

Definition sample_doc : bytes := Eval vm_compute in str "a = [1, 'x']".
Definition sample_decoder : Decoder := NewDecoderBytes (K := swar_kernels) sample_doc [].

Lemma sample_doc_bytes : Forall is_byte sample_doc.
Proof. by apply (bool_decide_unpack _). Defined.

Definition sample_key : Token := MkToken TokenKindKey [ca] 0 1 1 noScalar.

Lemma sample_read :
  ReadToken (K := swar_kernels) sample_decoder =
    (Ok sample_key, (ReadToken (K := swar_kernels) sample_decoder).2).
Proof. vm_compute. reflexivity. Defined.

Lemma ReadToken_slices_witness :
  tok_Bytes sample_key = slice sample_doc 0 1.
Proof.
  exact (proj1 (ReadToken_slices (K := swar_kernels) sample_doc [] sample_decoder sample_key _
    sample_doc_bytes (reachable_new _ _) sample_read)).
Defined.

Lemma ReadToken_positions_witness :
  (tok_Line sample_key, tok_Col sample_key) = lineColForOffset (K := swar_kernels) sample_doc 0.
Proof.
  exact (ReadToken_positions (K := swar_kernels) sample_doc [] sample_decoder sample_key _
    sample_doc_bytes (reachable_new _ _) sample_read eq_refl).
Defined.

Definition bad_doc : bytes := Eval vm_compute in str "= 1".
Definition bad_decoder : Decoder := NewDecoderBytes (K := swar_kernels) bad_doc [].
Definition bad_error : error := SyntaxError 1 1 "unexpected equals" (0, 1).

Lemma ReadToken_sticky_witness :
  ReadToken (K := swar_kernels) (ReadToken (K := swar_kernels) bad_decoder).2 =
    (Err bad_error, (ReadToken (K := swar_kernels) bad_decoder).2).
Proof.
  apply (ReadToken_sticky (K := swar_kernels) bad_doc [] bad_decoder bad_error).
  - by apply (bool_decide_unpack _).
  - apply reachable_new.
  - vm_compute. reflexivity.
  - done.
Defined.

Lemma ReadToken_returns_witness : (ReadToken (K := swar_kernels) sample_decoder).1 ≠ Err OutOfFuel.
Proof.
  apply (ReadToken_returns (K := swar_kernels) sample_doc []).
  - exact sample_doc_bytes.
  - intros i Hi. apply list_elem_of_lookup_2, (bool_decide_pack _) in Hi. vm_compute in Hi. done.
  - apply reachable_new.
Defined.

(** The value of [a = 1] followed by a carriage return and the end of input. *)
Definition lone_CR_doc : bytes := Eval vm_compute in str "a = 1" ++ [CR].
Definition lone_CR_decoder : Decoder :=
  (ReadToken (K := swar_kernels) (ReadToken (K := swar_kernels)
    (NewDecoderBytes (K := swar_kernels) lone_CR_doc [])).2).2.

Lemma lone_CR_decoder_reachable : reachable (K := swar_kernels) lone_CR_doc [] lone_CR_decoder.
Proof.
  eapply reachable_read; [eapply reachable_read; [apply reachable_new|]|]; apply surjective_pairing.
Defined.

Lemma lone_CR_never_returns_witness :
  readToken_loop (K := swar_kernels) 1000 lone_CR_decoder = (Err OutOfFuel, lone_CR_decoder).
Proof.
  apply (lone_CR_never_returns (K := swar_kernels) lone_CR_decoder).
  split; [by vm_compute; lia|]. split; [by vm_compute|]. split; [|split; [|split; by vm_compute]].
  - intros _. split; [by vm_compute|]. intros _. split; by vm_compute.
  - apply (reachable_inv (K := swar_kernels) lone_CR_doc []);
      [by apply (bool_decide_unpack _)|apply lone_CR_decoder_reachable].
Defined.
