(* ===== verification/TomlTree.v ===== *)
(** The document of [pkg/toml] (value.go): maps shared by reference, built by
    table headers, array-table headers and dotted assignments, with the
    declaration bookkeeping of [parseDocument]. *)
From S2P Require Import Prelude GoStrconv Scan TomlBase Datetime TomlKey.

(** ** Documents *)

(** A value of type [any]: a float64 is its bits, a [documentMap] a reference. *)
Inductive val :=
| VString (s : bytes)
| VInt (z : Z)
| VFloat (bits : Z)
| VBool (b : bool)
| VDatetime (dt : datetime)
| VArray (l : list val)
| VTable (id : nat).

(** The maps allocated so far, by reference. *)
Abbreviation store := (list (gmap bytes val)).

Definition table (st : store) (id : nat) : gmap bytes val := default ∅ (st !! id).

(** [m[k] = v]. *)
Definition set_entry (id : nat) (k : bytes) (v : val) (st : store) : store := alter (<[k := v]>) id st.

(** A map from the pool, cleared. *)
Definition newDocumentMap (st : store) : nat * store := (length st, st ++ [∅]).

(** ** Bookkeeping *)

Definition declarationContext (path : list bytes) (arrayTableEpochs : gmap bytes nat) : bytes :=
  (fix go (i : nat) : bytes :=
     match i with
     | 0 => []
     | S i' =>
         let prefix := encodedKeyPath (take i path) in
         let epoch := default 0 (arrayTableEpochs !! prefix) in
         if 0 <? epoch then prefix ++ str "#" ++ Itoa (Z.of_nat epoch) else go i'
     end) (length path).

(** [existingContext, ok := m[k]; ok && existingContext == context]. *)
Definition has_context (m : gmap bytes bytes) (k context : bytes) : bool :=
  match m !! k with Some c => bytes_eqb c context | None => false end.

Definition closedInlinePrefix (path : list bytes) (closed : gmap bytes bytes) (arrayTableEpochs : gmap bytes nat) : bool :=
  existsb (λ i, let prefix := take i path in
                has_context closed (encodedKeyPath prefix) (declarationContext prefix arrayTableEpochs))
    (seq 1 (length path)).

Fixpoint markClosedValuePaths (fuel : nat) (st : store) (arrayTableEpochs : gmap bytes nat)
    (closed : gmap bytes bytes) (path : list bytes) (value : val) : gmap bytes bytes :=
  match fuel with
  | 0 => closed
  | S fuel =>
      let marked := <[encodedKeyPath path := declarationContext path arrayTableEpochs]> closed in
      let children id closed :=
        foldl (λ closed '(childKey, child),
                 markClosedValuePaths fuel st arrayTableEpochs closed (path ++ [childKey]) child)
          closed (map_to_list (table st id)) in
      match value with
      | VTable id => children id marked
      | VArray l =>
          foldl (λ closed child, match child with VTable id => children id closed | _ => closed end) marked l
      | _ => closed
      end
  end.

Definition markDottedKeyTables (dotted : gmap bytes bytes) (fullPath : list bytes) (currentPathLen : nat)
    (arrayTableEpochs : gmap bytes nat) : gmap bytes bytes :=
  foldl (λ dotted i, let prefix := take i fullPath in
           <[encodedKeyPath prefix := declarationContext prefix arrayTableEpochs]> dotted)
    dotted (seq (currentPathLen + 1) (length fullPath - (currentPathLen + 1))).

(** ** Building the document *)

Section build.
Context {K : ScanKernels} (data : bytes) (tok : rawToken).

Definition semanticSyntaxErrorRaw (msg : string) : error := syntaxErrorForRawToken data tok msg.

Fixpoint ensureTableRaw (path : list bytes) (cur : nat) (st : store) : res nat * store :=
  match path with
  | [] => (Ok cur, st)
  | p :: path =>
      match table st cur !! p with
      | Some (VTable next) => ensureTableRaw path next st
      | Some (VArray arr) =>
          match last arr with
          | Some (VTable next) => ensureTableRaw path next st
          | _ => (Err (semanticSyntaxErrorRaw "cannot redefine value as table"), st)
          end
      | Some _ => (Err (semanticSyntaxErrorRaw "cannot redefine value as table"), st)
      | None =>
          let '(next, st) := newDocumentMap st in
          ensureTableRaw path next (set_entry cur p (VTable next) st)
      end
  end.

(** [append(arr, table)] to the array under [name], which must be one. *)
Definition appendArrayTableKeyRaw (root : nat) (name : bytes) (st : store) : res nat * store :=
  let '(table_, st) := newDocumentMap st in
  match table st root !! name with
  | Some (VArray arr) => (Ok table_, set_entry root name (VArray (arr ++ [VTable table_])) st)
  | Some _ => (Err (semanticSyntaxErrorRaw "cannot redefine value as array table"), st)
  | None => (Ok table_, set_entry root name (VArray [VTable table_]) st)
  end.

Definition appendArrayTableRaw (root : nat) (path : list bytes) (st : store) : res nat * store :=
  match path with
  | [] => (Ok root, st)
  | _ =>
      match ensureTableRaw (take (length path - 1) path) root st with
      | (Err e, st) => (Err e, st)
      | (Ok parent, st) => appendArrayTableKeyRaw parent (default [] (last path)) st
      end
  end.

Fixpoint assignUniqueRaw (cur : nat) (path : list bytes) (value : val) (st : store) : res unit * store :=
  match path with
  | [] => (Err Panic, st)
  | [key] =>
      match table st cur !! key with
      | Some _ => (Err (semanticSyntaxErrorRaw "duplicate key"), st)
      | None => (Ok tt, set_entry cur key value st)
      end
  | p :: path =>
      match table st cur !! p with
      | Some (VTable next) => assignUniqueRaw next path value st
      | Some _ => (Err (semanticSyntaxErrorRaw "cannot redefine value as table"), st)
      | None =>
          let '(next, st) := newDocumentMap st in
          assignUniqueRaw next path value (set_entry cur p (VTable next) st)
      end
  end.
End build.

(** ** The document only grows *)

(** What may happen to a stored value: nothing, or elements appended to an array. *)
Definition grows (v v' : val) : Prop :=
  v' = v ∨ ∃ l l', v = VArray l ∧ v' = VArray (l ++ l').

#[export] Instance grows_preorder : PreOrder grows.
Proof.
  split; [by left|]. intros v1 v2 v3 [->|(l & l' & -> & ->)]; [done|].
  intros [->|(m & m' & Hm & ->)]; [right; by exists l, l'|].
  injection Hm as <-. right. exists l, (l' ++ m'). by rewrite app_assoc.
Qed.

(** No map is lost and every entry stays, its value changed at most as [R] allows. *)
Definition evolves (R : relation val) (st st' : store) : Prop :=
  length st ≤ length st' ∧
  ∀ id k v, table st id !! k = Some v → ∃ v', table st' id !! k = Some v' ∧ R v v'.

Abbreviation adds := (evolves eq).
Abbreviation extends := (evolves grows).

#[export] Instance evolves_preorder R `{!PreOrder R} : PreOrder (evolves R).
Proof.
  split.
  - intros st. split; [done|]. intros id k v Hv. by exists v.
  - intros s1 s2 s3 [L1 H1] [L2 H2]. split; [lia|]. intros id k v Hv.
    destruct (H1 _ _ _ Hv) as (v' & Hv' & G1). destruct (H2 _ _ _ Hv') as (v'' & Hv'' & G2).
    exists v''. split; [done|by etrans].
Qed.

Lemma adds_extends st st' : adds st st' → extends st st'.
Proof. intros [L H]. split; [done|]. intros id k v Hv. destruct (H _ _ _ Hv) as (v' & ? & <-). by exists v. Qed.

Lemma table_ge st id : length st ≤ id → table st id = ∅.
Proof. intros H. unfold table. by rewrite lookup_ge_None_2. Qed.

Lemma table_new st id : table (newDocumentMap st).2 id = table st id.
Proof.
  unfold table. simpl. destruct (decide (id < length st)) as [H|H].
  - by rewrite lookup_app_l.
  - rewrite lookup_app_r, (lookup_ge_None_2 st) by lia.
    destruct (id - length st) as [|n]; [done|]. by destruct n.
Qed.

Lemma length_set_entry id k v st : length (set_entry id k v st) = length st.
Proof. apply length_alter. Qed.

Lemma table_set_entry id k v st id' :
  id < length st → table (set_entry id k v st) id' = if decide (id = id') then <[k := v]> (table st id) else table st id'.
Proof.
  intros H. unfold table, set_entry. case_decide as E; [subst id'|by rewrite list_lookup_alter_ne].
  rewrite list_lookup_alter_eq. by destruct (lookup_lt_is_Some_2 _ _ H) as [m ->].
Qed.

Lemma lookup_set_entry id k v st : id < length st → table (set_entry id k v st) id !! k = Some v.
Proof. intros H. rewrite table_set_entry by done. by rewrite decide_True, lookup_insert_eq. Qed.

Lemma adds_new st : adds st (newDocumentMap st).2.
Proof. split; [simpl; rewrite length_app; lia|]. intros id k v. rewrite table_new. intros Hv. by exists v. Qed.

(** Writing a new entry, or changing one as [R] allows. *)
Lemma evolves_set_entry R `{!PreOrder R} id k v st :
  id < length st → (∀ v0, table st id !! k = Some v0 → R v0 v) → evolves R st (set_entry id k v st).
Proof.
  intros Hid Hg. split; [by rewrite length_set_entry|]. intros id' k' v' Hv'. rewrite table_set_entry by done.
  case_decide as E; [subst id'|by exists v'].
  destruct (decide (k = k')) as [<-|Hne].
  - exists v. rewrite lookup_insert_eq. auto.
  - exists v'. by rewrite lookup_insert_ne.
Qed.

(** ** References are allocated *)

Definition val_refs (v : val) : list nat :=
  (fix go v := match v with VTable id => [id] | VArray l => concat (map go l) | _ => [] end) v.

(** Every reference in the store is to an allocated map. *)
Definition allocated (st : store) : Prop :=
  ∀ id k v, table st id !! k = Some v → Forall (λ r, r < length st) (val_refs v).

Lemma allocated_new st : allocated st → allocated (newDocumentMap st).2.
Proof.
  intros Ha id k v. rewrite table_new. intros Hv. eapply Forall_impl; [by eapply Ha|]. simpl. rewrite length_app.
  intros r Hr. simpl. lia.
Qed.

Lemma allocated_set_entry id k v st :
  id < length st → allocated st → Forall (λ r, r < length st) (val_refs v) → allocated (set_entry id k v st).
Proof.
  intros Hid Ha Hv id' k' v'. rewrite length_set_entry, table_set_entry by done. case_decide as E; [|apply Ha].
  rewrite lookup_insert. case_decide; [intros [= <-]; done|apply Ha].
Qed.

Lemma val_refs_last l id r : last l = Some (VTable id) → Forall (λ r', r' < r) (val_refs (VArray l)) → id < r.
Proof.
  intros Hl. apply last_Some in Hl as [l' ->]. simpl. rewrite map_app, concat_app. simpl.
  rewrite Forall_app. by intros [_ [? _]%Forall_cons].
Qed.

(** ** No map contains itself *)

Definition ranked (r : nat → nat) (st : store) : Prop :=
  ∀ id k v c, table st id !! k = Some v → c ∈ val_refs v → r c < r id.

Definition acyclic (st : store) : Prop := ∃ r, ranked r st.

Lemma ranked_new r st : ranked r st → ranked r (newDocumentMap st).2.
Proof. intros Hr id k v c. rewrite table_new. apply Hr. Qed.

(** A value may be stored in a map outside a part [S] of the store that holds
    the value and all it refers to. *)
Lemma acyclic_set_entry (S : nat → bool) id k v st :
  id < length st → S id = false →
  (∀ i k v c, table st i !! k = Some v → c ∈ val_refs v → S i = true → S c = true) →
  (∀ c, c ∈ val_refs v → S c = true) →
  acyclic st → acyclic (set_entry id k v st).
Proof.
  intros Hid Hs Hclosed Hv [r Hr].
  set (M := 1 + max_list (r <$> val_refs v)).
  exists (λ i, if S i then r i else r i + M). intros i k' v' c. rewrite table_set_entry by done.
  assert (∀ i k v c, table st i !! k = Some v → c ∈ val_refs v →
    (if S c then r c else r c + M) < (if S i then r i else r i + M)) as Hold.
  { intros i0 k0 v0 c0 H0 Hc. specialize (Hr _ _ _ _ H0 Hc). specialize (Hclosed _ _ _ _ H0 Hc).
    destruct (S i0), (S c0); (lia || by discriminate Hclosed). }
  case_decide as E; [subst i|apply Hold]. rewrite lookup_insert. case_decide; [|apply Hold].
  intros [= <-] Hc. rewrite (Hv c Hc), Hs. assert (r c ≤ max_list (r <$> val_refs v)); [|lia].
  apply max_list_elem_of_le, list_elem_of_fmap. by exists c.
Qed.

(** An empty map that nothing refers to may be referred to from anywhere. *)
Lemma acyclic_fresh id k v st n :
  id < length st → table st n = ∅ → id ≠ n → (∀ c, c ∈ val_refs v → c = n ∨ ∃ v0, table st id !! k = Some v0 ∧ c ∈ val_refs v0) →
  acyclic st → acyclic (set_entry id k v st).
Proof.
  intros Hid He Hne Hv [r Hr]. exists (λ i, if decide (i = n) then 0 else r i + 1). intros i k' v' c.
  assert (∀ i k v c, table st i !! k = Some v → c ∈ val_refs v →
    (if decide (c = n) then 0 else r c + 1) < (if decide (i = n) then 0 else r i + 1)) as Hold.
  { intros i0 k0 v0 c0 H0 Hc. specialize (Hr _ _ _ _ H0 Hc). case_decide; case_decide; subst; try lia.
    all: by rewrite He, lookup_empty in H0. }
  rewrite table_set_entry by done. case_decide as E; [subst i|apply Hold]. rewrite lookup_insert.
  case_decide; [subst k'|apply Hold]. intros [= <-] Hc. destruct (Hv c Hc) as [->|(v0 & H0 & Hc0)]; [|by eapply Hold].
  rewrite decide_True, decide_False by done. lia.
Qed.

(** *** Marking ends *)

Lemma foldl_ext_in {A B} (f g : A → B → A) l : ∀ a,
  (∀ a x, x ∈ l → f a x = g a x) → foldl f a l = foldl g a l.
Proof.
  induction l as [|x l IH]; intros a H; [done|]. simpl. rewrite H by (by left). apply IH. intros. apply H. by right.
Qed.


Section marking.
Context (st : store) (arrayTableEpochs : gmap bytes nat) (r : nat → nat) (Hr : ranked r st) (Ha : allocated st).

(** The maps of lower rank. *)
Definition below (n : nat) : nat := length (base.filter (λ j, r j < n) (seq 0 (length st))).

Lemma below_le n m : n ≤ m → below n ≤ below m.
Proof using Type.
  intros Hnm. unfold below. induction (seq 0 (length st)) as [|j l IH]; [done|].
  rewrite !filter_cons. repeat case_decide; simpl; lia.
Qed.

Lemma below_lt c n : c < length st → r c < n → below (r c) < below n.
Proof using Type.
  intros Hc Hn. unfold below. assert (c ∈ seq 0 (length st)) as Hin by (apply elem_of_seq; lia).
  clear Hc. revert Hin. generalize (seq 0 (length st)) as l. induction l as [|j l IH]; intros Hin; [by apply not_elem_of_nil in Hin|].
  assert (length (base.filter (λ j, r j < r c) l) ≤ length (base.filter (λ j, r j < n) l)) as Hle.
  { clear IH Hin. induction l as [|i l IH]; [done|]. rewrite !filter_cons. repeat case_decide; simpl; lia. }
  rewrite !filter_cons. apply elem_of_cons in Hin as [<-|Hin].
  - rewrite decide_False, decide_True by lia. simpl. lia.
  - specialize (IH Hin). repeat case_decide; simpl; lia.
Qed.

Lemma mark_fuel_irrelevant fuel : ∀ fuel' closed path v,
  0 < fuel → 0 < fuel' → (∀ c, c ∈ val_refs v → c < length st) →
  (∀ c, c ∈ val_refs v → below (r c) + 1 < fuel ∧ below (r c) + 1 < fuel') →
  markClosedValuePaths fuel st arrayTableEpochs closed path v =
  markClosedValuePaths fuel' st arrayTableEpochs closed path v.
Proof using Hr Ha.
  induction fuel as [|fuel IH]; intros [|fuel'] closed path v H0 H0' Hal Hb; try lia. cbn [markClosedValuePaths].
  assert (∀ id closed, id ∈ val_refs v →
    foldl (λ closed '(k, child), markClosedValuePaths fuel st arrayTableEpochs closed (path ++ [k]) child) closed
      (map_to_list (table st id)) =
    foldl (λ closed '(k, child), markClosedValuePaths fuel' st arrayTableEpochs closed (path ++ [k]) child) closed
      (map_to_list (table st id))) as Hch.
  { intros id c Hid. destruct (Hb id Hid) as [B1 B2].
    apply foldl_ext_in. intros a [k w] Hw%elem_of_map_to_list. pose proof (Ha _ _ _ Hw) as Hall.
    rewrite Forall_forall in Hall. apply IH; [lia|lia| |]; intros c' Hc'; [by apply Hall|].
    assert (below (r c') < below (r id)); [|lia]. apply below_lt; [by apply Hall|by eapply Hr]. }
  destruct v; try done; [|apply Hch; by left].
  apply foldl_ext_in. intros a w Hw. destruct w; try done. apply Hch.
  simpl. apply list_elem_of_In, in_concat. exists [id]. split; [|by left].
  apply list_elem_of_In in Hw. by apply (in_map val_refs _ (VTable id)).
Qed.

(** The fuel [parseDocument] gives is enough: more changes nothing. *)
Lemma mark_enough fuel closed path v :
  (∀ c, c ∈ val_refs v → c < length st) → length st + 2 ≤ fuel →
  markClosedValuePaths fuel st arrayTableEpochs closed path v =
  markClosedValuePaths (length st + 2) st arrayTableEpochs closed path v.
Proof using Hr Ha.
  intros Hal Hf. apply mark_fuel_irrelevant; [lia|lia|done|]. intros c Hc.
  assert (below (r c) ≤ length st); [|lia]. unfold below. etrans; [apply length_filter|]. by rewrite length_seq.
Qed.
End marking.

(** ** Tables by path *)

(** The table a header goes through: the value itself or the last element of an
    array of tables. *)
Definition enter (v : val) : option nat :=
  match v with
  | VTable id => Some id
  | VArray l => match last l with Some (VTable id) => Some id | _ => None end
  | _ => None
  end.

Fixpoint walk (st : store) (cur : nat) (path : list bytes) : option nat :=
  match path with
  | [] => Some cur
  | p :: path => v ← table st cur !! p; next ← enter v; walk st next path
  end.

(** The header runs into a value that is not a table. *)
Fixpoint blocked (st : store) (cur : nat) (path : list bytes) : bool :=
  match path with
  | [] => false
  | p :: path =>
      match table st cur !! p with
      | None => false
      | Some v => match enter v with Some next => blocked st next path | None => true end
      end
  end.

(** The value at a dotted path, through tables only. *)
Fixpoint find (st : store) (cur : nat) (path : list bytes) : option val :=
  match path with
  | [] => None
  | [key] => table st cur !! key
  | p :: path => match table st cur !! p with Some (VTable next) => find st next path | _ => None end
  end.

(** A dotted key may be assigned: what exists of its path are tables, and its
    last segment is new. *)
Fixpoint free (st : store) (cur : nat) (path : list bytes) : bool :=
  match path with
  | [] => false
  | [key] => match table st cur !! key with Some _ => false | None => true end
  | p :: path =>
      match table st cur !! p with
      | Some (VTable next) => free st next path
      | Some _ => false
      | None => true
      end
  end.

Lemma enter_allocated st id k v n : allocated st → table st id !! k = Some v → enter v = Some n → n < length st.
Proof.
  intros Ha Hv He. specialize (Ha _ _ _ Hv). destruct v; simpl in *; try done.
  - destruct (last l) as [[]|] eqn:El; simplify_eq. by eapply val_refs_last.
  - simplify_eq. by apply Forall_cons in Ha as [? _].
Qed.

Lemma enter_refs v n : enter v = Some n → n ∈ val_refs v.
Proof.
  destruct v; simpl; try done; [|intros [= <-]; by left]. destruct (last l) as [[]|] eqn:El; try done. intros [= <-].
  apply last_Some in El as [l' ->]. rewrite map_app, concat_app, elem_of_app. right. simpl. by left.
Qed.

Lemma walk_mono st st' cur path n : adds st st' → walk st cur path = Some n → walk st' cur path = Some n.
Proof.
  intros [_ H]. revert cur. induction path as [|p path IH]; intros cur; simpl; [done|].
  destruct (table st cur !! p) as [v|] eqn:Hv; [|done]. simpl. destruct (H _ _ _ Hv) as (v' & -> & <-). simpl.
  destruct (enter v); simpl; [apply IH|done].
Qed.

(** Bindings survive additions, and appended array tables too. *)
Lemma find_mono st st' cur path v :
  extends st st' → find st cur path = Some v → ∃ v', find st' cur path = Some v' ∧ grows v v'.
Proof.
  intros [_ H]. revert cur. induction path as [|p [|q path] IH]; intros cur; [done|apply H|]. cbn [find].
  destruct (table st cur !! p) as [[]|] eqn:Hv; try done. destruct (H _ _ _ Hv) as (v' & -> & [->|(?&?&?&?)]); [apply IH|done].
Qed.

Section build_lemmas.
Context {K : ScanKernels} (data : bytes) (tok : rawToken).

(** A fresh table under a key that has none. *)
Lemma fresh_child cur p st :
  allocated st → cur < length st → table st cur !! p = None →
  let '(next, st1) := newDocumentMap st in
  let st2 := set_entry cur p (VTable next) st1 in
  next < length st2 ∧ allocated st2 ∧ adds st st2 ∧ table st2 cur !! p = Some (VTable next) ∧ table st2 next = ∅ ∧
  (acyclic st → acyclic st2).
Proof using Type.
  intros Ha Hc Hp. simpl. assert (length (st ++ [∅]) = length st + 1) as Hl by (rewrite length_app; done).
  assert (cur < length (st ++ [∅])) as Hc' by lia. rewrite length_set_entry. split_and!; [lia| | | | |].
  - apply allocated_set_entry; [done|by apply allocated_new|]. simpl. constructor; [lia|done].
  - etrans; [apply adds_new|]. apply evolves_set_entry; [apply _|done|]. intros v0.
    pose proof (table_new st cur) as Hn. simpl in Hn. rewrite Hn. congruence.
  - by apply lookup_set_entry.
  - rewrite table_set_entry by done. rewrite decide_False by lia.
    pose proof (table_new st (length st)) as Hn. simpl in Hn. rewrite Hn. by apply table_ge.
  - intros [r Hr]. apply (acyclic_fresh _ _ _ _ (length st)); [done| |lia| |].
    + pose proof (table_new st (length st)) as Hn. simpl in Hn. rewrite Hn. by apply table_ge.
    + simpl. intros c ->%list_elem_of_singleton. by left.
    + exists r. by apply (ranked_new r st).
Qed.

Lemma ensureTableRaw_spec path : ∀ cur st,
  allocated st → cur < length st →
  let '(r, st') := ensureTableRaw data tok path cur st in
  allocated st' ∧ adds st st' ∧
  match r with
  | Ok id => id < length st' ∧ walk st' cur path = Some id ∧ blocked st cur path = false
  | Err e => e = semanticSyntaxErrorRaw data tok "cannot redefine value as table" ∧ blocked st cur path = true ∧ st' = st
  end.
Proof using Type.
  induction path as [|p path IH]; intros cur st Ha Hc; [by split_and!|]. cbn [ensureTableRaw].
  destruct (table st cur !! p) as [v|] eqn:Hv.
  - assert (∀ next, enter v = Some next →
      let '(r, st') := ensureTableRaw data tok path next st in
      allocated st' ∧ adds st st' ∧
      match r with
      | Ok id => id < length st' ∧ walk st' cur (p :: path) = Some id ∧ blocked st cur (p :: path) = false
      | Err e => e = semanticSyntaxErrorRaw data tok "cannot redefine value as table" ∧
                 blocked st cur (p :: path) = true ∧ st' = st
      end) as Hgo.
    { intros next He. specialize (IH next st Ha (enter_allocated _ _ _ _ _ Ha Hv He)).
      destruct (ensureTableRaw _ _ path next st) as [r st']. destruct IH as (Ha' & Hx & Hr). split_and!; [done|done|].
      cbn [walk blocked]. rewrite Hv, He. destruct (proj2 Hx _ _ _ Hv) as (v' & -> & <-). simpl. by rewrite He. }
    assert (enter v = None → allocated st ∧ adds st st ∧
      semanticSyntaxErrorRaw data tok "cannot redefine value as table" =
      semanticSyntaxErrorRaw data tok "cannot redefine value as table" ∧ blocked st cur (p :: path) = true ∧ st = st) as Hno.
    { intros He. cbn [blocked]. by rewrite Hv, He. }
    destruct v; simpl in Hgo, Hno; try by apply Hno.
    + destruct (last l) as [[]|]; try (by apply Hno). by apply Hgo.
    + by apply Hgo.
  - destruct (fresh_child cur p st Ha Hc Hv) as (Hn & Ha2 & Hx2 & Ht & He & _). simpl in *.
    specialize (IH _ _ Ha2 Hn). destruct (ensureTableRaw _ _ path _ _) as [r st'].
    destruct IH as (Ha' & Hx & Hr). split_and!; [done|by etrans|]. rewrite Hv.
    destruct r as [id|e].
    + destruct (proj2 Hx _ _ _ Ht) as (v' & -> & <-). by destruct Hr as (? & ? & _).
    + exfalso. destruct Hr as (_ & Hb & _). destruct path as [|q path]; [done|]. simpl in Hb. by rewrite He, lookup_empty in Hb.
Qed.

(** A table that exists is entered as it is. *)
Lemma ensureTableRaw_existing path : ∀ cur st id,
  walk st cur path = Some id → ensureTableRaw data tok path cur st = (Ok id, st).
Proof using Type.
  induction path as [|p path IH]; intros cur st id; simpl; [by intros [= <-]|].
  destruct (table st cur !! p) as [v|]; [simpl|done]. destruct (enter v) as [next|] eqn:He; [simpl|done].
  intros Hw. destruct v; simpl in He; simplify_eq; [|by apply IH].
  destruct (last l) as [[]|]; simplify_eq. by apply IH.
Qed.

Lemma find_cons st cur p q path :
  find st cur (p :: q :: path) = match table st cur !! p with Some (VTable next) => find st next (q :: path) | _ => None end.
Proof using Type. done. Qed.

Lemma free_cons st cur p q path :
  free st cur (p :: q :: path) =
    match table st cur !! p with
    | Some (VTable next) => free st next (q :: path)
    | Some _ => false
    | None => true
    end.
Proof using Type. done. Qed.

Lemma assign_cons cur p q path v st :
  assignUniqueRaw data tok cur (p :: q :: path) v st =
    match table st cur !! p with
    | Some (VTable next) => assignUniqueRaw data tok next (q :: path) v st
    | Some _ => (Err (semanticSyntaxErrorRaw data tok "cannot redefine value as table"), st)
    | None => assignUniqueRaw data tok (length st) (q :: path) v (set_entry cur p (VTable (length st)) (st ++ [∅]))
    end.
Proof using Type. done. Qed.

Definition assignment_ok (cur : nat) (path : list bytes) (v : val) (st : store) (r : res unit * store) : Prop :=
  adds st r.2 ∧ allocated r.2 ∧
  match r.1 with
  | Ok _ => free st cur path = true ∧ find r.2 cur path = Some v
  | Err e =>
      free st cur path = false ∧ r.2 = st ∧
      e = semanticSyntaxErrorRaw data tok
            (if find st cur path is Some _ then "duplicate key" else "cannot redefine value as table")
  end.

Lemma assignUniqueRaw_ok path v : ∀ cur st,
  path ≠ [] → allocated st → cur < length st → Forall (λ r, r < length st) (val_refs v) →
  assignment_ok cur path v st (assignUniqueRaw data tok cur path v st).
Proof using Type.
  induction path as [|p [|q path] IH]; intros cur st Hne Ha Hc Hv; [done| |].
  - cbn [assignUniqueRaw]. unfold assignment_ok. cbn [free find].
    destruct (table st cur !! p) as [w|] eqn:Hp; cbn [fst snd]; [by split_and!|].
    split_and!; [|by apply allocated_set_entry|done|by apply lookup_set_entry].
    apply evolves_set_entry; [apply _|done|]. congruence.
  - rewrite assign_cons. unfold assignment_ok. rewrite free_cons, !find_cons.
    destruct (table st cur !! p) as [w|] eqn:Hp.
    + destruct w as [ | | | | | |next]; try done.
      assert (next < length st) as Hn by (by eapply enter_allocated).
      destruct (IH next st ltac:(done) Ha Hn Hv) as (Hx & Ha' & Hr).
      destruct (proj2 Hx _ _ _ Hp) as (w' & -> & <-). by split_and!.
    + destruct (fresh_child cur p st Ha Hc Hp) as (Hn & Ha2 & Hx2 & Ht & He & _). simpl newDocumentMap in *. cbv zeta in *.
      destruct (IH _ _ ltac:(done) Ha2 Hn) as (Hx & Ha' & Hr).
      { eapply Forall_impl; [done|]. simpl. intros r Hr. pose proof (proj1 Hx2). lia. }
      destruct (proj2 Hx _ _ _ Ht) as (w' & -> & <-). split_and!; [by etrans|done|].
      destruct (assignUniqueRaw _ _ _ _ _ _) as [[]  st']; simpl in *; [by destruct Hr|].
      destruct Hr as [Hf _]. exfalso. destruct path; simpl in Hf; by rewrite He, lookup_empty in Hf.
Qed.

Lemma appendArrayTableKeyRaw_spec root name st :
  allocated st → root < length st →
  let '(r, st') := appendArrayTableKeyRaw data tok root name st in
  allocated st' ∧ extends st st' ∧
  match r with
  | Ok id =>
      length st ≤ id < length st' ∧ table st' id = ∅ ∧
      ∃ arr, table st' root !! name = Some (VArray (arr ++ [VTable id])) ∧
             (table st root !! name = Some (VArray arr) ∨ table st root !! name = None ∧ arr = [])
  | Err e =>
      e = semanticSyntaxErrorRaw data tok "cannot redefine value as array table" ∧
      ∃ v, table st root !! name = Some v ∧ ∀ l, v ≠ VArray l
  end.
Proof using Type.
  intros Ha Hr. unfold appendArrayTableKeyRaw. simpl newDocumentMap. cbv iota beta zeta.
  pose proof (table_new st root) as Ht. cbn [newDocumentMap snd] in *. rewrite Ht.
  assert (length (st ++ [∅]) = length st + 1) as Hl by (rewrite length_app; done).
  pose proof (allocated_new st Ha) as Ha'. pose proof (adds_extends _ _ (adds_new st)) as Hx. simpl in Ha', Hx.
  assert (∀ arr, (table st root !! name = Some (VArray arr) ∨ table st root !! name = None ∧ arr = []) →
    let st' := set_entry root name (VArray (arr ++ [VTable (length st)])) (st ++ [∅]) in
    allocated st' ∧ extends st st' ∧ length st ≤ length st < length st' ∧ table st' (length st) = ∅ ∧
    table st' root !! name = Some (VArray (arr ++ [VTable (length st)]))) as Hgo.
  { intros arr Harr. cbv zeta. rewrite length_set_entry. split_and!; [| |lia|lia| |apply lookup_set_entry; lia].
    - apply allocated_set_entry; [lia|done|]. simpl. rewrite map_app, concat_app, Forall_app. simpl.
      split; [|constructor; [lia|done]]. destruct Harr as [Hv|[_ ->]]; [|done].
      eapply Forall_impl; [by apply (Ha _ _ _ Hv)|]. simpl. lia.
    - etrans; [done|]. apply evolves_set_entry; [apply _|lia|]. intros v0. rewrite Ht. intros Hv0.
      destruct Harr as [Hv|[Hv _]]; rewrite Hv in Hv0; simplify_eq. right. by eexists _, _.
    - rewrite table_set_entry by lia. rewrite decide_False by lia.
      pose proof (table_new st (length st)) as Hn. simpl in Hn. rewrite Hn. by apply table_ge. }
  destruct (table st root !! name) as [v|] eqn:Hv.
  - destruct v; try (split_and!; [done|done|done|]; eexists; split; [done|discriminate]).
    destruct (Hgo l ltac:(by left)) as (? & ? & ? & ? & ?). split_and!; try done; try lia. exists l. auto.
  - destruct (Hgo [] ltac:(by right)) as (? & ? & ? & ? & ?). cbn [app] in *. split_and!; try done; try lia. exists []. auto.
Qed.

Lemma walk_app st cur p q : walk st cur (p ++ q) = n ← walk st cur p; walk st n q.
Proof using Type.
  revert cur. induction p as [|x p IH]; intros cur; simpl; [done|].
  destruct (table st cur !! x) as [v|]; [simpl|done]. destruct (enter v); [simpl; apply IH|done].
Qed.

Lemma path_split (path : list bytes) : path ≠ [] → path = take (length path - 1) path ++ [default [] (last path)].
Proof using Type.
  intros Hne. destruct path as [|x path _] using rev_ind; [done|]. rewrite length_app, last_snoc. simpl.
  replace (length path + 1 - 1) with (length path) by lia. by rewrite take_app_length.
Qed.

Lemma ensureTableRaw_acyclic path : ∀ cur st,
  allocated st → cur < length st → acyclic st → acyclic (ensureTableRaw data tok path cur st).2.
Proof using Type.
  induction path as [|p path IH]; intros cur st Ha Hc Hy; [done|]. cbn [ensureTableRaw].
  destruct (table st cur !! p) as [v|] eqn:Hv.
  - pose proof (λ n, enter_allocated st cur p v n Ha Hv) as He. destruct v; try done; simpl in He.
    + destruct (last l) as [[]|]; try done. by apply IH; [|apply He|].
    + by apply IH; [|apply He|].
  - destruct (fresh_child cur p st Ha Hc Hv) as (Hn & Ha2 & _ & _ & _ & Hy2). simpl in *. by apply IH; [| |apply Hy2].
Qed.

Lemma appendArrayTableKeyRaw_acyclic root name st :
  root < length st → acyclic st → acyclic (appendArrayTableKeyRaw data tok root name st).2.
Proof using Type.
  intros Hr [r Hy]. unfold appendArrayTableKeyRaw. simpl newDocumentMap. cbv iota beta zeta.
  pose proof (table_new st root) as Ht. pose proof (table_new st (length st)) as Hn.
  cbn [newDocumentMap snd] in *. rewrite Ht.
  rewrite (table_ge st (length st)) in Hn by done.
  assert (acyclic (st ++ [∅])) as Hy' by (exists r; by apply (ranked_new r st)).
  assert (root < length (st ++ [∅])) as Hr' by (rewrite length_app; simpl; lia).
  destruct (table st root !! name) as [v|] eqn:Hv; [destruct v; try done|]; simpl.
  - apply (acyclic_fresh _ _ _ _ (length st)); [done|done|lia| |done]. rewrite Ht.
    intros c. simpl. rewrite map_app, concat_app, elem_of_app. simpl. rewrite list_elem_of_singleton.
    intros [Hc| ->]; [right; by eexists|by left].
  - apply (acyclic_fresh _ _ _ _ (length st)); [done|done|lia| |done]. simpl. intros c ->%list_elem_of_singleton. by left.
Qed.

Lemma assignUniqueRaw_acyclic (S : nat → bool) path v : ∀ cur st,
  allocated st → cur < length st → Forall (λ r, r < length st) (val_refs v) →
  S cur = false → (∀ i, length st ≤ i → S i = false) →
  (∀ i k w c, table st i !! k = Some w → c ∈ val_refs w → S i = S c) →
  (∀ c, c ∈ val_refs v → S c = true) →
  acyclic st → acyclic (assignUniqueRaw data tok cur path v st).2.
Proof using Type.
  induction path as [|p [|q path] IH]; intros cur st Ha Hc Hr Hcur Hge Hcl Hv Hy; [done| |].
  - cbn [assignUniqueRaw]. destruct (table st cur !! p); [done|]. simpl.
    apply (acyclic_set_entry S); try done. intros i k w c Hw Hc' Hi. by rewrite <-(Hcl i k w c).
  - rewrite assign_cons. destruct (table st cur !! p) as [w|] eqn:Hp.
    + destruct w as [ | | | | | |next]; try done. apply IH; try done; [by eapply enter_allocated|].
      rewrite <-Hcur. symmetry. apply (Hcl cur p (VTable next)); [done|by left].
    + destruct (fresh_child cur p st Ha Hc Hp) as (Hn & Ha2 & Hx2 & _ & _ & Hy2). simpl newDocumentMap in *. cbv zeta in *.
      pose proof (proj1 Hx2) as Hlen. apply IH; try done; [| |intros; apply Hge; lia| |by apply Hy2].
      * eapply Forall_impl; [done|]. simpl. lia.
      * by apply Hge.
      * intros i k w c. rewrite table_set_entry by (rewrite length_app; simpl; lia).
        pose proof (table_new st) as Ht. simpl in Ht. rewrite !Ht. case_decide; [subst i|apply Hcl].
        rewrite lookup_insert. case_decide; [|apply Hcl]. intros [= <-]. simpl. intros ->%list_elem_of_singleton.
        by rewrite Hcur, Hge.
Qed.

(** A walk ends below where it starts, so it never uses an entry of its last table. *)
Lemma walk_rank r st path : ∀ cur n, ranked r st → walk st cur path = Some n → path = [] ∨ r n < r cur.
Proof using Type.
  induction path as [|p path IH]; intros cur n Hr Hw; [by left|]. right. simpl in Hw.
  destruct (table st cur !! p) as [v|] eqn:Hv; [simpl in Hw|done]. destruct (enter v) as [m|] eqn:He; [simpl in Hw|done].
  assert (r m < r cur) as Hm by (eapply Hr; [done|by apply enter_refs]).
  destruct (IH m n Hr Hw) as [->|]; [by injection Hw as <-|lia].
Qed.

Lemma walk_set_entry st cur path n k v :
  acyclic st → n < length st → walk st cur path = Some n → walk (set_entry n k v st) cur path = Some n.
Proof using Type.
  intros [r Hr] Hn. revert cur. induction path as [|p path IH]; intros cur; [done|].
  intros Hw. pose proof (walk_rank r st (p :: path) cur n Hr Hw) as [|Hlt]; [done|]. simpl in *.
  rewrite table_set_entry, decide_False by (done || (intros ->; lia)).
  destruct (table st cur !! p) as [w|]; [simpl in *|done]. destruct (enter w); [by apply IH|done].
Qed.

Lemma appendArrayTableKeyRaw_walk root parent name path st :
  acyclic st → parent < length st → walk st root path = Some parent →
  walk (appendArrayTableKeyRaw data tok parent name st).2 root path = Some parent.
Proof using Type.
  intros [r Hr] Hp Hw. unfold appendArrayTableKeyRaw, newDocumentMap.
  assert (acyclic (st ++ [∅])) as Hy by (exists r; by apply (ranked_new r st)).
  assert (parent < length (st ++ [∅])) as Hp' by (rewrite length_app; simpl; lia).
  pose proof (walk_mono _ _ _ _ _ (adds_new st) Hw) as Hw'. simpl in Hw'.
  destruct (table (st ++ [∅]) parent !! name) as [v|]; [destruct v; try done|]; by apply walk_set_entry.
Qed.

Lemma appendArrayTableRaw_spec root path st :
  path ≠ [] → allocated st → acyclic st → root < length st →
  let '(r, st') := appendArrayTableRaw data tok root path st in
  allocated st' ∧ acyclic st' ∧ extends st st' ∧
  match r with
  | Ok id => length st ≤ id < length st' ∧ table st' id = ∅ ∧ walk st' root path = Some id
  | Err e =>
      e = semanticSyntaxErrorRaw data tok "cannot redefine value as table" ∨
      e = semanticSyntaxErrorRaw data tok "cannot redefine value as array table"
  end.
Proof using Type.
  intros Hne Ha Hy Hr. unfold appendArrayTableRaw. destruct path as [|x path]; [done|]. set (full := x :: path) in *.
  pose proof (ensureTableRaw_spec (take (length full - 1) full) root st Ha Hr) as He.
  pose proof (ensureTableRaw_acyclic (take (length full - 1) full) root st Ha Hr Hy) as Hy1.
  destruct (ensureTableRaw data tok _ root st) as [[parent|e] st1]; simpl in Hy1.
  2: { destruct He as (Ha1 & Hx1 & -> & _). split_and!; [done|done|by apply adds_extends|by left]. }
  destruct He as (Ha1 & Hx1 & Hp & Hw & _). set (name := default [] (last full)).
  pose proof (appendArrayTableKeyRaw_spec parent name st1 Ha1 Hp) as Hk.
  pose proof (appendArrayTableKeyRaw_acyclic parent name st1 Hp Hy1) as Hy2.
  pose proof (appendArrayTableKeyRaw_walk root parent name (take (length full - 1) full) st1 Hy1 Hp Hw) as Hw2.
  destruct (appendArrayTableKeyRaw data tok parent name st1) as [[id|e] st2]; destruct Hk as (Ha2 & Hx2 & Hk); cbn [fst snd] in Hy2, Hw2.
  - destruct Hk as (Hid & Ht & arr & Harr & Hold). pose proof (proj1 Hx1).
    split_and!; [done|done|by etrans; [apply adds_extends|]|lia|lia|done|].
    rewrite (path_split full), walk_app by done. rewrite Hw2. simpl. fold name. rewrite Harr. simpl.
    by rewrite last_snoc.
  - split_and!; [done|done|by etrans; [apply adds_extends|]|]. right. by destruct Hk.
Qed.

(** *** The part of the store an operation works in *)

(** Maps from [n] on refer only to maps from [n] on. *)
Definition above (n : nat) (st : store) : Prop :=
  ∀ id k v c, n ≤ id → table st id !! k = Some v → c ∈ val_refs v → n ≤ c.

Lemma above_new n st : above n st → above n (newDocumentMap st).2.
Proof using Type. intros Ha id k v c Hid. rewrite table_new. by apply Ha. Qed.

Lemma above_set_entry n id k v st :
  id < length st → above n st → (∀ c, c ∈ val_refs v → n ≤ c) → above n (set_entry id k v st).
Proof using Type.
  intros Hid Ha Hv id' k' v' c Hn. rewrite table_set_entry by done. case_decide as E; [subst id'|by apply Ha].
  rewrite lookup_insert. case_decide; [intros [= <-]; apply Hv|by apply Ha].
Qed.

(** An assignment below a map of the part stays in the part. *)
Lemma assignUniqueRaw_frame n path v : ∀ cur st,
  allocated st → n ≤ cur < length st → above n st → (∀ c, c ∈ val_refs v → n ≤ c) →
  let st' := (assignUniqueRaw data tok cur path v st).2 in
  above n st' ∧ ∀ id, id < n → table st' id = table st id.
Proof using Type.
  induction path as [|p [|q path] IH]; intros cur st Ha Hc Hab Hv; [done| |].
  - cbn [assignUniqueRaw]. destruct (table st cur !! p); [done|]. simpl. split; [apply above_set_entry; (done || lia)|].
    intros id Hid. rewrite table_set_entry by lia. by rewrite decide_False by lia.
  - rewrite assign_cons. destruct (table st cur !! p) as [w|] eqn:Hp.
    + destruct w as [ | | | | | |next]; try done. apply IH; try done. split; [|by eapply enter_allocated].
      apply (Hab cur p (VTable next)); [lia|done|by left].
    + destruct (fresh_child cur p st Ha ltac:(lia) Hp) as (Hn & Ha2 & Hx2 & _). simpl newDocumentMap in *. cbv zeta in *.
      assert (cur < length (st ++ [∅])) as Hc' by (rewrite length_app; simpl; lia).
      assert (above n (set_entry cur p (VTable (length st)) (st ++ [∅]))) as Hab2.
      { apply above_set_entry; [done|by apply (above_new n st)|]. simpl. intros c ->%list_elem_of_singleton. lia. }
      destruct (IH (length st) _ Ha2 ltac:(lia) Hab2 Hv) as [H1 H2]. split; [done|].
      intros id Hid. rewrite (H2 id Hid), table_set_entry by done. rewrite decide_False by lia.
      apply (table_new st id).
Qed.

(** An assignment [a.b.c = v] succeeds exactly when what exists of the path
    are tables and its last segment is new; it then binds the path to the value
    and changes no entry of any map; otherwise it reports whether the key is a
    duplicate or goes through a value, and the document is as before. *)
Theorem assignUniqueRaw_spec path v cur st :
  path ≠ [] → allocated st → cur < length st → Forall (λ r, r < length st) (val_refs v) →
  let '(r, st') := assignUniqueRaw data tok cur path v st in
  (∀ id k w, table st id !! k = Some w → table st' id !! k = Some w) ∧
  match r with
  | Ok _ => free st cur path = true ∧ find st' cur path = Some v
  | Err e =>
      free st cur path = false ∧ st' = st ∧
      e = semanticSyntaxErrorRaw data tok
            (if find st cur path is Some _ then "duplicate key" else "cannot redefine value as table")
  end.
Proof using Type.
  intros Hp Ha Hc Hv. destruct (assignUniqueRaw_ok path v cur st Hp Ha Hc Hv) as ((_ & Hx) & _ & Hr).
  destruct (assignUniqueRaw data tok cur path v st) as [r st']. split; [|done].
  intros id k w Hw. by destruct (Hx _ _ _ Hw) as (w' & ? & <-).
Qed.

(** A table header [a.b.c] is refused exactly when it runs into a value that
    is neither a table nor an array whose last element is one, and then changes
    nothing; otherwise it gives the table at that path, which is the existing one
    when there is one, and changes no entry. *)
Theorem tableHeader_spec path cur st :
  allocated st → cur < length st →
  let '(r, st') := ensureTableRaw data tok path cur st in
  (∀ id k w, table st id !! k = Some w → table st' id !! k = Some w) ∧
  (∀ id, walk st cur path = Some id → r = Ok id ∧ st' = st) ∧
  match r with
  | Ok id => blocked st cur path = false ∧ walk st' cur path = Some id
  | Err e => blocked st cur path = true ∧ st' = st ∧ e = semanticSyntaxErrorRaw data tok "cannot redefine value as table"
  end.
Proof using Type.
  intros Ha Hc. pose proof (ensureTableRaw_spec path cur st Ha Hc) as H.
  pose proof (λ id, ensureTableRaw_existing path cur st id) as Hex.
  destruct (ensureTableRaw data tok path cur st) as [r st']. destruct H as (_ & (_ & Hx) & Hr). split_and!.
  - intros id k w Hw. by destruct (Hx _ _ _ Hw) as (w' & ? & <-).
  - intros id Hw. by injection (Hex id Hw) as -> ->.
  - destruct r; [by destruct Hr as (? & ? & ?)|by destruct Hr as (? & ? & ?)].
Qed.

(** An array-of-tables header [[a.b]] gives a new empty table, which is then
    the one its path leads to; existing entries stay, arrays of tables being
    extended at their end. *)
Theorem arrayTableHeader_spec root path st :
  path ≠ [] → allocated st → acyclic st → root < length st →
  let '(r, st') := appendArrayTableRaw data tok root path st in
  extends st st' ∧
  match r with
  | Ok id => length st ≤ id < length st' ∧ table st' id = ∅ ∧ walk st' root path = Some id
  | Err e =>
      e = semanticSyntaxErrorRaw data tok "cannot redefine value as table" ∨
      e = semanticSyntaxErrorRaw data tok "cannot redefine value as array table"
  end.
Proof using Type.
  intros Hp Ha Hy Hr. pose proof (appendArrayTableRaw_spec root path st Hp Ha Hy Hr) as H.
  destruct (appendArrayTableRaw data tok root path st) as [r st']. by destruct H as (_ & _ & ? & ?).
Qed.
End build_lemmas.

(** ** Witnesses *)

(** [x = 1] and [[[t]]] with an empty table. *)
Definition sample_store : store :=
  [ {[ str "x" := VInt 1; str "t" := VArray [VTable 1] ]}; ∅ ].

Definition sample_tok : rawToken := RawToken TokenKindKey (str "x") 0.

Lemma sample_allocated : allocated sample_store.
Proof.
  intros [|[|id]] k v; unfold table; simpl; rewrite ?lookup_empty; try done.
  rewrite lookup_insert_Some, lookup_singleton_Some. intros [[_ <-]|[_ [_ <-]]]; repeat constructor.
Qed.

Lemma sample_acyclic : acyclic sample_store.
Proof.
  exists (λ id, if id =? 0 then 1 else 0). intros [|[|id]] k v c; unfold table; simpl; rewrite ?lookup_empty; try done.
  rewrite lookup_insert_Some, lookup_singleton_Some. intros [[_ <-]|[_ [_ <-]]]; simpl.
  - by rewrite elem_of_nil.
  - rewrite list_elem_of_singleton. intros ->. simpl. lia.
Qed.

Lemma assignUniqueRaw_spec_witness :
  find (assignUniqueRaw (K := swar_kernels) [] sample_tok 0 [str "a"; str "b"] (VBool true) sample_store).2 0
    [str "a"; str "b"] = Some (VBool true).
Proof.
  pose proof (assignUniqueRaw_spec (K := swar_kernels) [] sample_tok [str "a"; str "b"] (VBool true) 0 sample_store
    ltac:(done) sample_allocated ltac:(simpl; lia) ltac:(constructor)) as H.
  assert ((assignUniqueRaw (K := swar_kernels) [] sample_tok 0 [str "a"; str "b"] (VBool true) sample_store).1 = Ok tt) as E
    by (vm_compute; reflexivity).
  destruct (assignUniqueRaw _ _ _ _ _ _) as [r st']. cbn [fst snd] in *. subst r. by destruct H as (_ & _ & ?).
Defined.

Lemma tableHeader_spec_witness :
  walk (ensureTableRaw (K := swar_kernels) [] sample_tok [str "t"; str "u"] 0 sample_store).2 0 [str "t"; str "u"] = Some 2.
Proof.
  pose proof (tableHeader_spec (K := swar_kernels) [] sample_tok [str "t"; str "u"] 0 sample_store
    sample_allocated ltac:(simpl; lia)) as H.
  assert ((ensureTableRaw (K := swar_kernels) [] sample_tok [str "t"; str "u"] 0 sample_store).1 = Ok 2) as E
    by (vm_compute; reflexivity).
  destruct (ensureTableRaw _ _ _ _ _) as [r st']. cbn [fst snd] in *. subst r. by destruct H as (_ & _ & _ & H).
Defined.

Lemma arrayTableHeader_spec_witness :
  walk (appendArrayTableRaw (K := swar_kernels) [] sample_tok 0 [str "t"] sample_store).2 0 [str "t"] = Some 2.
Proof.
  pose proof (arrayTableHeader_spec (K := swar_kernels) [] sample_tok 0 [str "t"] sample_store
    ltac:(done) sample_allocated sample_acyclic ltac:(simpl; lia)) as H.
  assert ((appendArrayTableRaw (K := swar_kernels) [] sample_tok 0 [str "t"] sample_store).1 = Ok 2) as E
    by (vm_compute; reflexivity).
  destruct (appendArrayTableRaw _ _ _ _ _) as [r st']. cbn [fst snd] in *. subst r. by destruct H as (_ & _ & _ & H).
Defined.
