(* ===== verification/TomlSkip.v ===== *)
(** Skipping a value without building it (value.go): the container-skip state
    machine of [skipStructuralValueFast] and the token-wise [skipNextValue]. *)
From S2P Require Import Prelude GoUtf8 Scan TomlBase Datetime TomlString TomlNumber TomlKey Decoder DecoderSpec.

Inductive skippedContainerState :=
| skippedArrayValue
| skippedArraySeparator
| skippedInlineKey
| skippedInlineValue
| skippedInlineSeparator.

Record skippedContainerFrame := Frame { kind : Z; frame_state : skippedContainerState }.

(** The local variables the closures [push] and [pop] share; the innermost frame first. *)
Record skipper := Skipper {
  frames : list skippedContainerFrame;
  sk_arrayDepth : nat;
  sk_inlineDepth : nat;
}.

Section skip.
Context {K : ScanKernels}.

Definition depthError (d : Decoder) (o : nat) : error :=
  LimitError "MaxNestedDepth" (MaxNestedDepth (limits d)) (o, o + 1).

Definition push (kind : Z) (o : nat) (s : skipper) : M skipper := λ d,
  let max := MaxNestedDepth (limits d) in
  if kind =b containerInline then
    let depth := sk_inlineDepth s + 1 in
    if (0 <b max) && (max <b Z.of_nat depth) then fail_sticky (depthError d o) d
    else (Ok (Skipper (Frame kind skippedInlineKey :: frames s) (sk_arrayDepth s) depth), d)
  else
    let depth := sk_arrayDepth s + 1 in
    if (0 <b max) && (max <b Z.of_nat depth) then fail_sticky (depthError d o) d
    else (Ok (Skipper (Frame kind skippedArrayValue :: frames s) depth (sk_inlineDepth s)), d).

Definition pop (kind : Z) (s : skipper) : skipper :=
  if kind =b containerInline then Skipper (drop 1 (frames s)) (sk_arrayDepth s) (sk_inlineDepth s - 1)
  else Skipper (drop 1 (frames s)) (sk_arrayDepth s - 1) (sk_inlineDepth s).

(** [frames[top].state = state]. *)
Definition set_state (state : skippedContainerState) (s : skipper) : skipper :=
  match frames s with
  | [] => s
  | f :: fs => Skipper (Frame (kind f) state :: fs) (sk_arrayDepth s) (sk_inlineDepth s)
  end.

Definition scanSkippedComment (start : nat) : M nat := scanCommentEnd start.

Fixpoint skipSkippedStructuralSpace (fuel i : nat) : M nat := λ d,
  match fuel with
  | 0 => (Err OutOfFuel, d)
  | S fuel =>
      if i <? length (buf d) then
        let c := buf d !!! i in
        if (c =b SP) || (c =b TAB) || (c =b LF) then skipSkippedStructuralSpace fuel (i + 1) d
        else if c =b CR then
          if (i + 1 <? length (buf d)) && (buf d !!! (i + 1) =b LF) then skipSkippedStructuralSpace fuel (i + 2) d
          else syntaxError "control character in value" i d
        else if c =b HASH then
          match scanSkippedComment i d with
          | (Ok e, d) => skipSkippedStructuralSpace fuel e d
          | (Err e, d) => (Err e, d)
          end
        else (Ok i, d)
      else (Ok i, d)
  end.

Definition skipSkippedInlineAssignmentSpace (raw : bytes) (i : nat) : nat :=
  i + find_stop (λ c, negb ((c =b SP) || (c =b TAB))) (drop i raw).

(** The value at [start]: the offset behind it, or behind the bracket that opens it. *)
Definition scanSkippedValue (start : nat) (s : skipper) : M (nat * skipper) :=
  d ← get;
  let c := buf d !!! start in
  if c =b LBRACK then s ← push containerArray start s; mret (start + 1, s)
  else if c =b LBRACE then s ← push containerInline start s; mret (start + 1, s)
  else if (c =b DQUOTE) || (c =b SQUOTE) then
    '(end_, _) ← scanString start;
    if MaxStringLength (limits d) <b Z.of_nat (length (slice (buf d) start end_)) then
      fail_sticky (LimitError "MaxStringLength" (MaxStringLength (limits d)) (start, end_))
    else mret (end_, s)
  else
    let end_ := scanBareValueEnd (drop start (buf d)) in
    if end_ =? 0 then syntaxError "invalid value" start
    else
      let '(_, _, msg) := classifyBareValue (slice (buf d) start (start + end_)) in
      if negb (String.eqb msg "") then syntaxError msg start
      else mret (start + end_, s).

Fixpoint scanSkippedInlineKey (fuel start i : nat) : M nat := λ d,
  match fuel with
  | 0 => (Err OutOfFuel, d)
  | S fuel =>
      if i <? length (buf d) then
        let c := buf d !!! i in
        if c =b EQUALS then
          let key := bytesTrimRightSpaces (slice (buf d) start i) in
          if length key =? 0 then syntaxError "empty key" start d
          else
            match (if isSimpleBareKey key then Ok [] else parseDottedKey key) with
            | Err e => fail_sticky e d
            | Ok _ =>
                if MaxKeyLength (limits d) <b Z.of_nat (length key) then fail_sticky (keyLengthError d (start, i)) d
                else (Ok (i + 1), d)
            end
        else if (c =b DQUOTE) || (c =b SQUOTE) then
          match scanQuoted c i d with
          | (Ok next, d) => scanSkippedInlineKey fuel start next d
          | (Err e, d) => (Err e, d)
          end
        else if (c =b COMMA) || (c =b RBRACE) || (c =b LF) || (c =b CR) || (c =b HASH) then
          syntaxError "expected equals" i d
        else scanSkippedInlineKey fuel start (i + 1) d
      else syntaxError "expected equals" i d
  end.

(** One turn of the loop of [scanSkippedStructuralValue], after the white space:
    the byte at [i] in the state of the innermost frame. *)
Definition skipStep (i : nat) (s : skipper) : M (nat * skipper) :=
  d ← get;
  let c := buf d !!! i in
  match frames s with
  | [] => mret (i, s)
  | top :: _ =>
      match frame_state top with
      | skippedArrayValue =>
          if c =b RBRACK then mret (i + 1, pop containerArray s)
          else scanSkippedValue i (set_state skippedArraySeparator s)
      | skippedArraySeparator =>
          if c =b COMMA then mret (i + 1, set_state skippedArrayValue s)
          else if c =b RBRACK then mret (i + 1, pop containerArray s)
          else syntaxError "expected array separator" i
      | skippedInlineKey =>
          if c =b RBRACE then mret (i + 1, pop containerInline s)
          else
            next ← scanSkippedInlineKey (S (length (buf d) - i)) i i;
            mret (next, set_state skippedInlineValue s)
      | skippedInlineValue => scanSkippedValue i (set_state skippedInlineSeparator s)
      | skippedInlineSeparator =>
          if c =b COMMA then mret (i + 1, set_state skippedInlineKey s)
          else if c =b RBRACE then mret (i + 1, pop containerInline s)
          else syntaxError "expected inline table separator" i
      end
  end.

Fixpoint skipLoop (fuel i : nat) (s : skipper) : M nat := λ d,
  match fuel with
  | 0 => (Err OutOfFuel, d)
  | S fuel =>
      match frames s with
      | [] => (Ok i, d)
      | top :: _ =>
          let space :=
            match frame_state top with
            | skippedInlineValue => (Ok (skipSkippedInlineAssignmentSpace (buf d) i), d)
            | _ => skipSkippedStructuralSpace (S (length (buf d) - i)) i d
            end in
          match space with
          | (Err e, d) => (Err e, d)
          | (Ok i, d) =>
              if length (buf d) <=? i then syntaxError "unterminated value" (length (buf d)) d
              else
                match skipStep i s d with
                | (Ok (i, s), d) => skipLoop fuel i s d
                | (Err e, d) => (Err e, d)
                end
          end
      end
  end.

Definition scanSkippedStructuralValue (start : nat) : M nat :=
  d ← get;
  let s := Skipper [] (arrayDepth d) (inlineDepth d) in
  let c := buf d !!! start in
  s ← (if c =b LBRACK then push containerArray start s
       else if c =b LBRACE then push containerInline start s
       else syntaxError "expected value" start);
  skipLoop (S (length (buf d) - start)) (start + 1) s.

Definition skipStructuralValueFast : M bool := λ d,
  let d := skipSpaces d in
  match err d with
  | Some e => (Err e, d)
  | None =>
      if length (buf d) <=? off d then (Ok false, d)
      else if (buf d !!! off d =b LBRACK) || (buf d !!! off d =b LBRACE) then
        let start := off d in
        match scanSkippedStructuralValue start d with
        | (Err e, d) => (Err e, d)
        | (Ok end_, d) => (Ok true, afterValue (advanceBytes (slice (buf d) start end_) d))
        end
      else (Ok false, d)
  end.

Definition decoderSyntaxErrorForRawToken (d : Decoder) (tok : rawToken) (msg : string) : error :=
  syntaxErrorForRawToken (buf d) tok msg.

Fixpoint skipTokens (fuel depth : nat) : M unit := λ d,
  match depth with
  | 0 => (Ok tt, d)
  | S depth' =>
      match fuel with
      | 0 => (Err OutOfFuel, d)
      | S fuel =>
          match readToken d with
          | (Err e, d) => (Err e, d)
          | (Ok next, d) =>
              match rt_Kind next with
              | TokenKindArrayStart | TokenKindInlineTableStart => skipTokens fuel (S depth) d
              | TokenKindArrayEnd | TokenKindInlineTableEnd => skipTokens fuel depth' d
              | _ => skipTokens fuel depth d
              end
          end
      end
  end.

Definition skipRawValueToken (tok : rawToken) : M unit := λ d,
  match rt_Kind tok with
  | TokenKindArrayStart | TokenKindInlineTableStart => skipTokens (S (length (buf d) - off d)) 1 d
  | TokenKindValueString | TokenKindValueInteger | TokenKindValueFloat | TokenKindValueBool
  | TokenKindValueDatetime => (Ok tt, d)
  | _ => (Err (decoderSyntaxErrorForRawToken d tok "expected value"), d)
  end.

(** [for { tok, err := dec.readToken(); ... if tok.Kind == TokenKindComment { continue } ... }]. *)
Fixpoint readNonComment (fuel : nat) : M rawToken := λ d,
  match fuel with
  | 0 => (Err OutOfFuel, d)
  | S fuel =>
      match readToken d with
      | (Ok tok, d) =>
          if bool_decide (rt_Kind tok = TokenKindComment) then readNonComment fuel d else (Ok tok, d)
      | (Err e, d) => (Err e, d)
      end
  end.

Definition skipNextValue : M unit := λ d,
  match skipStructuralValueFast d with
  | (Err e, d) => (Err e, d)
  | (Ok true, d) => (Ok tt, d)
  | (Ok false, d) =>
      match readNonComment (S (length (buf d) - off d)) d with
      | (Ok tok, d) => skipRawValueToken tok d
      | (Err e, d) => (Err e, d)
      end
  end.

(** ** Skipping looks ahead: it moves the decoder only at the end *)

Section look.
Context (d : Decoder) (Hb : Forall is_byte (buf d)).
Abbreviation len := (length (buf d)).

Lemma skipSpace_spec fuel : ∀ i,
  i ≤ len → len - i < fuel → scans d (λ e, i ≤ e ≤ len) (skipSkippedStructuralSpace fuel i d).
Proof using Hb.
  induction fuel as [|fuel IH]; intros i Hi Hf; [lia|]. cbn [skipSkippedStructuralSpace].
  destruct (i <? len) eqn:Hlt; [|split; [done|lia]].
  case_match; [eapply scans_impl; [|apply IH; lia]; simpl; lia|]. case_match.
  { case_match eqn:Hcr; [|apply scans_syntaxError].
    assert (i + 1 < len) by (apply andb_true_iff in Hcr as [? _]; lia).
    eapply scans_impl; [|apply IH; lia]; simpl; lia. }
  case_match; [|split; [done|lia]].
  pose proof (scanCommentEnd_spec d Hb i ltac:(lia)) as Hs. unfold scanSkippedComment.
  destruct (scanCommentEnd i d) as [[e|e] d1]; simpl in Hs; [|done]. destruct Hs as [-> He].
  eapply scans_impl; [|apply IH; lia]; simpl; lia.
Qed.

Lemma skipAssignmentSpace_spec i : i ≤ len → i ≤ skipSkippedInlineAssignmentSpace (buf d) i ≤ len.
Proof using Type.
  intros Hi. unfold skipSkippedInlineAssignmentSpace. split; [lia|]. by apply find_stop_drop_le.
Qed.

Lemma scanSkippedValue_spec i s :
  i < len → scans d (λ p, i < p.1 ≤ len) (scanSkippedValue i s d).
Proof using Hb.
  intros Hi. unfold scanSkippedValue. apply (scans_bind d (λ a, a = d)); [done|]. intros ? ->. cbv zeta.
  assert (∀ kind, scans d (λ p, i < p.1 ≤ len) ((s ← push kind i s; mret (i + 1, s)) d)) as Hpush.
  { intros k. apply (scans_bind d (λ _, True)); [|intros; split; [done|simpl; lia]].
    unfold push. repeat case_match; simpl; auto. }
  do 2 (case_match; [apply Hpush|]). case_match.
  { eapply scans_bind; [by apply scanString_spec|]. intros [e k] [He _]. case_match; simpl; auto. }
  pose proof (scanBareValueEnd_le (drop i (buf d)) ltac:(by apply Forall_drop)) as Hle. rewrite length_drop in Hle.
  set (e := scanBareValueEnd _) in *. clearbody e. destruct (e =? 0) eqn:He; [apply scans_syntaxError|].
  destruct (classifyBareValue _) as [[k sc] msg]. case_match; [apply scans_syntaxError|].
  split; [done|]. simpl. lia.
Qed.

Lemma scanSkippedInlineKey_spec fuel start : ∀ i,
  i ≤ len → len - i < fuel → scans d (λ e, i < e ≤ len) (scanSkippedInlineKey fuel start i d).
Proof using Hb.
  induction fuel as [|fuel IH]; intros i Hi Hf; [lia|]. cbn [scanSkippedInlineKey].
  destruct (i <? len) eqn:Hlt; [|apply scans_syntaxError]. case_match.
  { set (key := bytesTrimRightSpaces _). case_match; [apply scans_syntaxError|].
    assert (Forall is_byte key) as Hkey.
    { destruct (bytesTrimRightSpaces_spec (slice (buf d) start i)) as (b & Hs & _). fold key in Hs.
      assert (Forall is_byte (slice (buf d) start i)) as Hsl by (by apply source_slice_bytes).
      rewrite Hs in Hsl. by apply Forall_app in Hsl as [? _]. }
    pose proof (parseDottedKey_no_fuel key Hkey) as Hn. destruct (isSimpleBareKey key).
    - case_match; simpl; [auto|]. split; [done|lia].
    - destruct (parseDottedKey key); [|split; [by right|congruence]]. case_match; simpl; [auto|]. split; [done|lia]. }
  case_match eqn:Hq.
  { pose proof (scanQuoted_spec d Hb _ i (quote_byte _ Hq) ltac:(lia)) as Hs.
    destruct (scanQuoted _ i d) as [[j|e] d1]; simpl in Hs; [|done]. destruct Hs as [-> Hj].
    eapply scans_impl; [|apply IH; lia]; simpl; lia. }
  case_match; [apply scans_syntaxError|]. eapply scans_impl; [|apply IH; lia]; simpl; lia.
Qed.

Lemma skipStep_spec i s : i < len → frames s ≠ [] → scans d (λ p, i < p.1 ≤ len) (skipStep i s d).
Proof using Hb.
  intros Hi Hs. unfold skipStep. apply (scans_bind d (λ a, a = d)); [done|]. intros ? ->. cbv zeta.
  destruct (frames s) as [|top fs]; [done|].
  destruct (frame_state top); repeat case_match;
    try (apply scans_syntaxError || (apply scanSkippedValue_spec; lia) || (split; [done|simpl; lia])).
  apply (scans_bind d (λ e, i < e ≤ len)); [|intros e He; split; [done|simpl; lia]].
  apply scanSkippedInlineKey_spec; lia.
Qed.

Lemma skipLoop_spec fuel : ∀ i s,
  i ≤ len → len - i < fuel → scans d (λ e, i ≤ e ≤ len) (skipLoop fuel i s d).
Proof using Hb.
  induction fuel as [|fuel IH]; intros i s Hi Hf; [lia|]. cbn [skipLoop].
  destruct (frames s) as [|top fs] eqn:Hfr; [split; [done|lia]|].
  set (space := match frame_state top with skippedInlineValue => _ | _ => _ end).
  assert (scans d (λ e, i ≤ e ≤ len) space) as Hsp.
  { subst space. pose proof (skipSpace_spec (S (len - i)) i Hi ltac:(lia)).
    destruct (frame_state top); try done. split; [done|]. by apply skipAssignmentSpace_spec. }
  destruct space as [[j|e] d1]; simpl in Hsp; [|done]. destruct Hsp as [-> Hj].
  destruct (len <=? j) eqn:Hl; [apply scans_syntaxError|].
  pose proof (skipStep_spec j s ltac:(lia) ltac:(by rewrite Hfr)) as Hst.
  destruct (skipStep j s d) as [[[i' s']|e] d1]; simpl in Hst; [|done]. destruct Hst as [-> Hi'].
  eapply scans_impl; [|apply IH; lia]; simpl; lia.
Qed.

Lemma scanSkippedStructuralValue_spec start :
  start < len → scans d (λ e, start < e ≤ len) (scanSkippedStructuralValue start d).
Proof using Hb.
  intros Hs. unfold scanSkippedStructuralValue. apply (scans_bind d (λ a, a = d)); [done|]. intros ? ->. cbv zeta.
  apply (scans_bind d (λ _, True)).
  - repeat case_match; try apply scans_syntaxError; unfold push; repeat case_match; simpl; auto.
  - intros s _. eapply scans_impl; [|apply skipLoop_spec; lia]. simpl. lia.
Qed.
End look.

(** ** The decoder stays well formed *)

Lemma inv_scans {A} data d (P : A → Prop) r d' :
  inv data d → scans d P (r, d') → inv data d' ∧ r ≠ Err OutOfFuel ∧ ∀ a, r = Ok a → d' = d ∧ P a.
Proof using Type.
  intros (Hb & Hwf & Hfl & He) Hs. destruct r as [a|e]; simpl in Hs.
  - destruct Hs as [-> HP]. split; [done|]. split; [done|]. by intros a' [= <-].
  - destruct Hs as [[-> | ->] Hne]; (split; [|split; [congruence|done]]); [done|].
    split_and!; simpl; [done|by apply wf_set_err|done|congruence].
Qed.

Lemma inv_skipSpaces data d : inv data d → inv data (skipSpaces d) ∧ off d ≤ off (skipSpaces d) ∧ err (skipSpaces d) = err d.
Proof using Type.
  intros (Hb & Hwf & Hfl & He). destruct (skipSpaces_spec d Hwf) as [Hsk _]. pose proof (sk_err _ _ Hsk) as Herr.
  split; [|split; [apply Hsk|done]]. split_and!.
  - by rewrite (config_buf _ _ (sk_config _ _ Hsk)).
  - apply Hsk.
  - rewrite Herr. intros Hn. eapply skipped_flags_ok; [done|auto].
  - by rewrite Herr.
Qed.

(** What a step of the parser guarantees: the decoder is well formed and, when
    the step succeeds, not before where it was; it fails to return only where the
    token stream does. *)
Definition steps {A} (data : bytes) (d : Decoder) (n : nat) (r : res A * Decoder) : Prop :=
  inv data r.2 ∧
  match r.1 with
  | Ok _ => off d + n ≤ off r.2
  | Err e => e = OutOfFuel → stuck r.2
  end.

Lemma readToken_steps data d : inv data d → steps data d 1 (readToken d).
Proof using Type.
  intros Hi. destruct (readToken d) as [r d'] eqn:Hr. destruct (inv_readToken _ _ _ _ Hi Hr) as [Hi' Hres].
  split; [done|]. destruct r as [tok|e]; simpl.
  - destruct Hres as (_ & _ & d1 & _ & Ho & _ & Hat). destruct Hat as [_ _ Hne Hpast _ _].
    assert (0 < length (rt_Bytes tok)) by (destruct (rt_Bytes tok); simpl; [done|lia]). lia.
  - intros ->. destruct Hres as [[_ ?]|[[? _]|[He ->]]]; [done|done|]. by destruct Hi as (_ & _ & _ & ?).
Qed.

Lemma skipFast_steps data d : inv data d → steps data d 0 (skipStructuralValueFast d).
Proof using Type.
  intros Hi. unfold skipStructuralValueFast. destruct (inv_skipSpaces data d Hi) as (Hi1 & Ho & He).
  set (d1 := skipSpaces d) in *. clearbody d1. pose proof Hi1 as (Hb1 & Hwf1 & Hfl1 & Hne1).
  destruct (err d1) as [e|] eqn:Ee; [split; [done|]; simpl; congruence|].
  destruct (length (buf d1) <=? off d1) eqn:Hl; [split; [done|simpl; lia]|].
  case_match; [|split; [done|simpl; lia]].
  pose proof (scanSkippedStructuralValue_spec d1 (wf_bytes _ Hwf1) (off d1) ltac:(lia)) as Hs.
  destruct (scanSkippedStructuralValue (off d1) d1) as [r d2].
  destruct (inv_scans data d1 _ _ _ Hi1 Hs) as (Hi2 & Hne & Hok).
  destruct r as [e|e]; [|split; [done|simpl; congruence]]. destruct (Hok e eq_refl) as [-> He'].
  destruct (advanceBytes_spec d1 e Hwf1 ltac:(lia)) as (Hw & Hcf & Hof). split.
  - destruct (afterValue_frame (advanceBytes (slice (buf d1) (off d1) e) d1)) as (Hc & Hp & _).
    assert (err (advanceBytes (slice (buf d1) (off d1) e) d1) = None) as He2.
    { rewrite <-Ee. unfold advanceBytes, advancePosition. by repeat case_match. }
    pose proof (afterValue_flags (advanceBytes (slice (buf d1) (off d1) e) d1) ltac:(by rewrite He2)) as Hfl.
    split_and!; cbn [fst snd].
    + rewrite (config_buf _ _ Hc), (config_buf _ _ Hcf). done.
    + by eapply wf_ext.
    + done.
    + apply Hfl.
  - cbn [fst snd]. destruct (afterValue_frame (advanceBytes (slice (buf d1) (off d1) e) d1)) as (_ & Hp & _).
    apply (f_equal (λ p, p.1.1)) in Hp. cbn [pos fst] in Hp. rewrite Hp, Hof. lia.
Qed.

Lemma skipTokens_steps data fuel : ∀ depth d,
  inv data d → length data - off d < fuel → steps data d 0 (skipTokens fuel depth d).
Proof using Type.
  induction fuel as [|fuel IH]; intros depth d Hi Hf; [lia|].
  destruct depth as [|depth]; [split; [done|simpl; lia]|]. cbn [skipTokens].
  pose proof (readToken_steps data d Hi) as [Hi' Hr]. destruct (readToken d) as [[tok|e] d1]; simpl in *; [|by split].
  assert (∀ n, steps data d 0 (skipTokens fuel n d1)) as Hgo.
  { intros n. pose proof Hi' as (Hb & Hwf & _). pose proof (wf_off _ Hwf) as Hw. rewrite Hb in Hw.
    destruct (IH n d1 Hi' ltac:(lia)) as [Hi2 Hr2]. split; [done|].
    destruct (skipTokens fuel n d1) as [[|] d2]; simpl in *; [lia|done]. }
  case_match; apply Hgo.
Qed.

Lemma readNonComment_steps data fuel : ∀ d,
  inv data d → length data - off d < fuel → steps data d 1 (readNonComment fuel d).
Proof using Type.
  induction fuel as [|fuel IH]; intros d Hi Hf; [lia|]. cbn [readNonComment].
  pose proof (readToken_steps data d Hi) as [Hi' Hr]. destruct (readToken d) as [[tok|e] d1]; simpl in *; [|by split].
  case_match; [|by split]. pose proof Hi' as (Hb & Hwf & _). pose proof (wf_off _ Hwf) as Hw. rewrite Hb in Hw.
  destruct (IH d1 Hi' ltac:(lia)) as [Hi2 Hr2]. split; [done|].
  destruct (readNonComment fuel d1) as [[|] d2]; simpl in *; [lia|done].
Qed.

Lemma syntaxErrorForRawToken_fuel data tok msg : syntaxErrorForRawToken data tok msg ≠ OutOfFuel.
Proof using Type. unfold syntaxErrorForRawToken, syntaxErrorAtOffset. destruct (lineColForOffset _ _). by case_match. Qed.

Lemma skipNextValue_steps data d : inv data d → steps data d 0 (skipNextValue d).
Proof using Type.
  intros Hi. unfold skipNextValue. destruct (skipFast_steps data d Hi) as [Hi1 Hr1].
  destruct (skipStructuralValueFast d) as [[[]|e] d1]; cbn [fst snd] in *; [by split| |by split].
  pose proof Hi1 as (Hb1 & _). destruct (readNonComment_steps data (S (length (buf d1) - off d1)) d1 Hi1) as [Hi2 Hr2]; [rewrite Hb1; lia|].
  destruct (readNonComment _ d1) as [[tok|e] d2]; cbn [fst snd] in *; [|by split]. unfold skipRawValueToken.
  assert (∀ n, steps data d 0 (skipTokens (S (length (buf d2) - off d2)) n d2)) as Hgo.
  { intros n. pose proof Hi2 as (Hb2 & _).
    destruct (skipTokens_steps data (S (length (buf d2) - off d2)) n d2 Hi2) as [Hi3 Hr3]; [rewrite Hb2; lia|].
    split; [done|]. destruct (skipTokens _ n d2) as [[|] d3]; simpl in *; [lia|done]. }
  destruct (rt_Kind tok); try apply Hgo; (split; [done|]); simpl; try lia.
  all: intros H; by apply syntaxErrorForRawToken_fuel in H.
Qed.
End skip.
