(* ===== verification/TomlDocument.v ===== *)
(** Parsing a document (value.go, and the decode filter of unmarshal.go): the
    values of the token stream, and [parseDocument], which dispatches over table
    headers, array-table headers and keys. *)
From S2P Require Import Prelude GoUtf8 Scan TomlBase Datetime TomlString TomlNumber TomlKey Decoder DecoderSpec TomlTree TomlSkip.

(** ** Effects: the decoder and the store of maps *)

Definition D (A : Type) : Type := Decoder → store → res A * Decoder * store.

#[export] Instance D_ret : MRet D := λ A a d st, (Ok a, d, st).
#[export] Instance D_bind : MBind D := λ A B f c d st,
  match c d st with
  | (Ok a, d, st) => f a d st
  | (Err e, d, st) => (Err e, d, st)
  end.

(** A step of the decoder, a step of the store, a result. *)
Definition reading {A} (m : M A) : D A := λ d st, let '(r, d) := m d in (r, d, st).
Definition building {A} (f : store → res A * store) : D A := λ d st, let '(r, st) := f st in (r, d, st).
Definition raising {A} (f : Decoder → error) : D A := λ d st, (Err (f d), d, st).
Definition checked {A} (r : res A) : D A := λ d st, (r, d, st).

(** ** The decode filter (unmarshal.go) *)

(** A nil pointer is [None]. *)
Inductive decodeFilter := Filter (children : gmap bytes (option decodeFilter)).

Definition children (f : decodeFilter) : gmap bytes (option decodeFilter) := let 'Filter c := f in c.

Section document.
Context {K : ScanKernels} (ToLower : bytes → bytes).

Fixpoint lookupPath_loop (cur : decodeFilter) (path : list bytes) : option (option decodeFilter) :=
  match path with
  | [] => Some (Some cur)
  | part :: path =>
      match (match children cur !! part with Some next => Some next | None => children cur !! ToLower part end) with
      | None => None
      | Some None => Some None
      | Some (Some next) => lookupPath_loop next path
      end
  end.

(** The filter below the path and [true] are [Some]; [false] is [None]. *)
Definition lookupPath (f : option decodeFilter) (path : list bytes) : option (option decodeFilter) :=
  match f with
  | None => Some None
  | Some f => lookupPath_loop f path
  end.

Definition lookup (f : option decodeFilter) (raw : bytes) : option (option decodeFilter) :=
  match f with
  | None => Some None
  | Some f' =>
      if bool_decide (children f' = ∅) then None
      else if isSimpleBareKey raw then children f' !! raw
      else match parseDottedKey raw with
           | Err _ => Some None
           | Ok path => lookupPath f path
           end
  end.

(** ** Values *)

Definition rawTokenIntegerValue (d : Decoder) (tok : rawToken) : res Z :=
  scalarIntegerValue (tokScalar d) (rt_Bytes tok).

Definition rawTokenFloatValue (d : Decoder) (tok : rawToken) : res Z :=
  scalarFloatValue (tokScalar d) (rt_Bytes tok) (decoderSyntaxErrorForRawToken d tok "malformed special float").

Definition parseScalarToken (tok : rawToken) : D val := λ d st,
  (match rt_Kind tok with
   | TokenKindValueString => rmap VString (parseStringValue (rt_Bytes tok))
   | TokenKindValueInteger => rmap VInt (rawTokenIntegerValue d tok)
   | TokenKindValueFloat => rmap VFloat (rawTokenFloatValue d tok)
   | TokenKindValueBool =>
       if bytes_eqb (rt_Bytes tok) trueLiteral then Ok (VBool true)
       else if bytes_eqb (rt_Bytes tok) falseLiteral then Ok (VBool false)
       else Err (decoderSyntaxErrorForRawToken d tok "malformed boolean")
   | TokenKindValueDatetime => rmap (λ p, VDatetime p.1) (parseDateTimeValue (rt_Bytes tok))
   | _ => Err (decoderSyntaxErrorForRawToken d tok "expected value")
   end, d, st).

(** The marks of a value, with fuel for every map there is. *)
Definition markClosedPaths (closed : gmap bytes bytes) (path : list bytes) (v : val) (epochs : gmap bytes nat) : D (gmap bytes bytes) :=
  λ d st, (Ok (markClosedValuePaths (length st + 2) st epochs closed path v), d, st).

Definition isComment (tok : rawToken) : bool := bool_decide (rt_Kind tok = TokenKindComment).

(** The functions call each other and loop; every call and iteration uses fuel,
    and each reads a token before it calls another. *)
Fixpoint parseRawValueToken (fuel : nat) (tok : rawToken) : D val :=
  match fuel with
  | 0 => checked (Err OutOfFuel)
  | S fuel =>
      match rt_Kind tok with
      | TokenKindArrayStart => values ← parseArrayValue fuel []; mret (VArray values)
      | TokenKindInlineTableStart =>
          m ← building (λ st, let '(m, st) := newDocumentMap st in (Ok m, st));
          _ ← parseInlineTableValue fuel m ∅;
          mret (VTable m)
      | _ => parseScalarToken tok
      end
  end
with parseArrayValue (fuel : nat) (values : list val) : D (list val) :=
  match fuel with
  | 0 => checked (Err OutOfFuel)
  | S fuel =>
      tok ← reading readToken;
      if isComment tok then parseArrayValue fuel values
      else if bool_decide (rt_Kind tok = TokenKindArrayEnd) then mret values
      else
        v ← parseRawValueToken fuel tok;
        parseArrayValue fuel (values ++ [v])
  end
with parseInlineTableValue (fuel : nat) (m : nat) (closedInlineTables : gmap bytes bytes) : D unit :=
  match fuel with
  | 0 => checked (Err OutOfFuel)
  | S fuel =>
      tok ← reading readToken;
      if isComment tok then parseInlineTableValue fuel m closedInlineTables
      else
        match rt_Kind tok with
        | TokenKindInlineTableEnd => mret tt
        | TokenKindKey =>
            key ← checked (parseDottedKey (rt_Bytes tok));
            if closedInlinePrefix key closedInlineTables ∅ then
              raising (λ d, semanticSyntaxErrorRaw (buf d) tok "cannot extend inline table")
            else
              v ← parseNextValue fuel;
              d ← reading get;
              _ ← building (assignUniqueRaw (buf d) tok m key v);
              closedInlineTables ← markClosedPaths closedInlineTables key v ∅;
              parseInlineTableValue fuel m closedInlineTables
        | _ => raising (λ d, decoderSyntaxErrorForRawToken d tok "expected inline table key")
        end
  end
with parseNextValue (fuel : nat) : D val :=
  match fuel with
  | 0 => checked (Err OutOfFuel)
  | S fuel =>
      tok ← reading readToken;
      if isComment tok then parseNextValue fuel else parseRawValueToken fuel tok
  end.

(** Two calls per token that is left. *)
Definition valueFuel (d : Decoder) : nat := 2 * (length (buf d) - off d) + 2.

(** ** Documents *)

(** The first result of a loop that returns from its body. *)
Fixpoint first_some {A B} (f : A → option B) (l : list A) : option B :=
  match l with
  | [] => None
  | x :: l => match f x with Some b => Some b | None => first_some f l end
  end.

(** The local variables of [parseDocument]; the root is map 0, [current] is nil
    in a table the filter leaves out. *)
Record parser := Parser {
  current : option nat;
  currentPath : list bytes;
  currentFilter : option decodeFilter;
  inTable : bool;
  declaredTables : gmap bytes bytes;
  dottedKeyTables : gmap bytes bytes;
  arrayTables : gset bytes;
  arrayTableEpochs : gmap bytes nat;
  closedInlineTables : gmap bytes bytes;
}.

Definition newParser (filter : option decodeFilter) : parser :=
  Parser (Some 0) [] filter false ∅ ∅ ∅ ∅ ∅.

(** Entering a table: [None] is a table that is filtered out. *)
Definition enter_table (t : option (nat * list bytes * option decodeFilter)) (p : parser) : parser :=
  match t with
  | Some (id, path, f) =>
      Parser (Some id) path f true (declaredTables p) (dottedKeyTables p) (arrayTables p) (arrayTableEpochs p) (closedInlineTables p)
  | None =>
      Parser None [] None true (declaredTables p) (dottedKeyTables p) (arrayTables p) (arrayTableEpochs p) (closedInlineTables p)
  end.

Definition declare (k context : bytes) (p : parser) : parser :=
  Parser (current p) (currentPath p) (currentFilter p) (inTable p) (<[k := context]> (declaredTables p))
    (dottedKeyTables p) (arrayTables p) (arrayTableEpochs p) (closedInlineTables p).

Definition declare_array (k : bytes) (p : parser) : parser :=
  Parser (current p) (currentPath p) (currentFilter p) (inTable p) (declaredTables p) (dottedKeyTables p)
    ({[k]} ∪ arrayTables p) (<[k := default 0 (arrayTableEpochs p !! k) + 1]> (arrayTableEpochs p)) (closedInlineTables p).

Definition set_marks (dotted closed : gmap bytes bytes) (p : parser) : parser :=
  Parser (current p) (currentPath p) (currentFilter p) (inTable p) (declaredTables p) dotted (arrayTables p)
    (arrayTableEpochs p) closed.

Section parse.
Context (data : bytes) (filter : option decodeFilter).

Definition parseTableHeader (tok : rawToken) (p : parser) : D parser :=
  let fail msg := checked (Err (semanticSyntaxErrorRaw data tok msg)) in
  path ← checked (keyPath (trimHeaderKey (rt_Bytes tok) false));
  let encodedPathKey := encodedKeyPath path in
  let declContext := declarationContext path (arrayTableEpochs p) in
  if bool_decide (encodedPathKey ∈ arrayTables p) then fail "cannot redefine array table as table"
  else if has_context (dottedKeyTables p) encodedPathKey declContext then fail "cannot redefine dotted key table"
  else if closedInlinePrefix path (closedInlineTables p) (arrayTableEpochs p) then fail "cannot extend inline table"
  else if has_context (declaredTables p) encodedPathKey declContext then fail "duplicate table"
  else
    match lookupPath filter path with
    | Some nextFilter =>
        next ← building (ensureTableRaw data tok path 0);
        mret (declare encodedPathKey declContext (enter_table (Some (next, path, nextFilter)) p))
    | None => mret (enter_table None p)
    end.

Definition parseArrayTableHeader (tok : rawToken) (p : parser) : D parser :=
  let fail msg := checked (Err (semanticSyntaxErrorRaw data tok msg)) in
  path ← checked (keyPath (trimHeaderKey (rt_Bytes tok) true));
  let encodedPathKey := encodedKeyPath path in
  if declaredTables p !! encodedPathKey is Some _ then fail "cannot redefine table as array table"
  else
    let declContext := declarationContext path (arrayTableEpochs p) in
    if has_context (dottedKeyTables p) encodedPathKey declContext then fail "cannot redefine dotted key table"
    else if closedInlinePrefix path (closedInlineTables p) (arrayTableEpochs p) then fail "cannot extend inline table"
    else
      let p := declare_array encodedPathKey p in
      match lookupPath filter path with
      | Some nextFilter =>
          next ← building (if length path =? 1 then appendArrayTableKeyRaw data tok 0 (path !!! 0)
                           else appendArrayTableRaw data tok 0 path);
          mret (enter_table (Some (next, path, nextFilter)) p)
      | None => mret (enter_table None p)
      end.

(** The checks of a dotted key on the prefixes between the current table and its
    last segment: the error, if any. *)
Definition dottedKeyConflict (p : parser) (fullPath : list bytes) : option string :=
  let n := length (currentPath p) + 1 in
  first_some (λ i,
    let prefix := take i fullPath in
    if declaredTables p !! encodedKeyPath prefix is Some _ then Some "cannot extend explicit table with dotted key"%string
    else if has_context (closedInlineTables p) (encodedKeyPath prefix) (declarationContext prefix (arrayTableEpochs p))
    then Some "cannot extend inline table"%string
    else None) (seq n (length fullPath - n)).

Definition parseKey (tok : rawToken) (p : parser) : D parser :=
  match current p with
  | None => _ ← reading skipNextValue; mret p
  | Some cur =>
      if lookup (currentFilter p) (rt_Bytes tok) is Some _ then
        key ← checked (keyPath (rt_Bytes tok));
        let fullPath := currentPath p ++ key in
        match (if 1 <? length key then dottedKeyConflict p fullPath else None) with
        | Some msg => checked (Err (semanticSyntaxErrorRaw data tok msg))
        | None =>
            d ← reading get;
            value ← parseNextValue (valueFuel d);
            _ ← building (assignUniqueRaw data tok cur key value);
            let dotted := markDottedKeyTables (dottedKeyTables p) fullPath (length (currentPath p)) (arrayTableEpochs p) in
            closed ← markClosedPaths (closedInlineTables p) fullPath value (arrayTableEpochs p);
            mret (set_marks dotted closed p)
        end
      else _ ← reading skipNextValue; mret p
  end.

(** One statement.  [bindErrorPath] leaves the syntax errors of the tree
    operations as they are. *)
Definition parseStatement (tok : rawToken) (p : parser) : D parser :=
  match rt_Kind tok with
  | TokenKindComment => mret p
  | TokenKindTableHeader => parseTableHeader tok p
  | TokenKindArrayTableHeader => parseArrayTableHeader tok p
  | TokenKindKey => parseKey tok p
  | _ => if inTable p then mret p else checked (Err (syntaxErrorForRawToken data tok "unexpected token"))
  end.

Fixpoint parseStatements (fuel : nat) (p : parser) : D unit := λ d st,
  match fuel with
  | 0 => (Err OutOfFuel, d, st)
  | S fuel =>
      match readToken d with
      | (Err e, d) => if bool_decide (e = EOF) then (Ok tt, d, st) else (Err e, d, st)
      | (Ok tok, d) => (p ← parseStatement tok p; parseStatements fuel p) d st
      end
  end.
End parse.

(** The root map and the maps it refers to. *)
Definition parseDocument (data : bytes) (opts : list Option) (filter : option decodeFilter) : res (nat * store) :=
  let dec := NewDecoderBytes data (decoderOptionsWithoutTokenPositions opts) in
  let '(root, st) := newDocumentMap [] in
  match parseStatements data filter (S (length data)) (newParser filter) dec st with
  | (Ok _, _, st) => Ok (root, st)
  | (Err e, _, _) => Err e
  end.
End document.

