(* ===== verification/TomlDocSpec.v ===== *)
(** The invariants of document parsing: the decoder and the maps stay well
    formed, parsing ends, nothing that was bound is changed later. *)
From S2P Require Import Prelude GoUtf8 Scan TomlBase Datetime TomlString TomlNumber TomlKey Decoder DecoderSpec TomlTree TomlSkip TomlDocument.

Section spec.
Context {K : ScanKernels}.

(** References are allocated and no map contains itself. *)
Record good (st : store) : Prop := { good_allocated : allocated st; good_acyclic : acyclic st }.

(** What a computation that parses a value guarantees, when the maps from [n] on
    are its own: it changes no other map, its result refers to its own maps only,
    it advances by [k] bytes at least, and it fails to return only where the token
    stream does. *)
Definition value_spec {A} (refs : A → list nat) (data : bytes) (n : nat) (d : Decoder) (st : store) (k : nat)
    (r : res A * Decoder * store) : Prop :=
  let '(x, d', st') := r in
  inv data d' ∧ good st' ∧ above n st' ∧ length st ≤ length st' ∧ (∀ id, id < n → table st' id = table st id) ∧
  match x with
  | Ok a => off d + k ≤ off d' ∧ Forall (λ c, n ≤ c < length st') (refs a)
  | Err e => e = OutOfFuel → stuck d'
  end.

Definition no_refs {A} (_ : A) : list nat := [].

Lemma bind_checked {A B} (r : res A) (f : A → D B) d st :
  (checked r ≫= f) d st = match r with Ok a => f a d st | Err e => (Err e, d, st) end.
Proof using Type. by destruct r. Qed.

Section value.
Context (data : bytes).

Lemma spec_bind {A B} refsA refsB n d st k1 k2 (c : D A) (f : A → D B) :
  n ≤ length st → value_spec refsA data n d st k1 (c d st) →
  (∀ a d1 st1, inv data d1 → good st1 → above n st1 → n ≤ length st1 → length st ≤ length st1 →
     (∀ id, id < n → table st1 id = table st id) →
     off d + k1 ≤ off d1 → Forall (λ c, n ≤ c < length st1) (refsA a) →
     value_spec refsB data n d1 st1 k2 (f a d1 st1)) →
  value_spec refsB data n d st (k1 + k2) ((c ≫= f) d st).
Proof using Type.
  intros Hn Hc Hf. unfold mbind, D_bind. destruct (c d st) as [[[a|e] d1] st1]; simpl in Hc; [|done].
  destruct Hc as (Hi & Hg & Hab & Hl & Ht & Ho & Hr).
  specialize (Hf a d1 st1 Hi Hg Hab ltac:(lia) Hl Ht Ho Hr). destruct (f a d1 st1) as [[x d2] st2].
  destruct Hf as (Hi2 & Hg2 & Hab2 & Hl2 & Ht2 & Hr2). split_and!; [done|done|done|lia| |].
  - intros id Hid. by rewrite Ht2, Ht.
  - destruct x; [|done]. destruct Hr2. split; [lia|done].
Qed.

Lemma spec_ret {A} refs n d st (a : A) :
  inv data d → good st → above n st → Forall (λ c, n ≤ c < length st) (refs a) →
  value_spec refs data n d st 0 (Ok a, d, st).
Proof using Type. intros. split_and!; try done. simpl. lia. Qed.

Lemma spec_fail {A} (refs : A → list nat) n d st k e :
  inv data d → good st → above n st → (e = OutOfFuel → stuck d) → value_spec refs data n d st k (Err e, d, st).
Proof using Type. intros. by split_and!. Qed.

Lemma spec_reading {A} n d st k (m : M A) :
  good st → above n st → steps data d k (m d) → value_spec no_refs data n d st k (reading m d st).
Proof using Type.
  intros Hg Ha [Hi Hr]. unfold reading. destruct (m d) as [[a|e] d']; simpl in *; split_and!; try done.
Qed.

Lemma spec_checked {A} n d st (r : res A) :
  inv data d → good st → above n st → r ≠ Err OutOfFuel → value_spec no_refs data n d st 0 (checked r d st).
Proof using Type.
  intros Hi Hg Ha Hr. unfold checked. destruct r as [a|e]; [by apply spec_ret|apply spec_fail; try done]. congruence.
Qed.

Lemma spec_weaken {A} (refs : A → list nat) n d st k k' r : k' ≤ k → value_spec refs data n d st k r → value_spec refs data n d st k' r.
Proof using Type.
  intros Hk. destruct r as [[[a|e] d'] st']; [|done]. intros (? & ? & ? & ? & ? & ? & ?). split_and!; try done. lia.
Qed.

(** The bytes of a token are bytes of the source. *)
Lemma token_bytes d tok d' : inv data d → readToken d = (Ok tok, d') → Forall is_byte (rt_Bytes tok).
Proof using Type.
  intros Hi Hr. pose proof Hi as (Hb & Hwf & _). destruct (inv_readToken _ _ _ _ Hi Hr) as (_ & _ & _ & d1 & Hc & _ & _ & Hat).
  rewrite (at_bytes _ _ _ Hat), (config_buf _ _ Hc). apply source_slice_bytes, Hwf.
Qed.

Lemma rmap_fuel {A B} (f : A → B) (r : res A) : r ≠ Err OutOfFuel → rmap f r ≠ Err OutOfFuel.
Proof using Type. destruct r; [done|]. simpl. congruence. Qed.

Lemma parseUint_loop_fuel raw base limit : ∀ u saw, parseUint_loop raw base limit u saw ≠ Err OutOfFuel.
Proof using Type. induction raw as [|c raw IH]; intros u saw; simpl; repeat case_match; try done; apply IH. Qed.

Lemma parseIntegerLiteral_fuel raw : parseIntegerLiteral raw ≠ Err OutOfFuel.
Proof using Type.
  unfold parseIntegerLiteral, parseUintLiteralDigits. destruct (splitSign raw) as [sign text], (splitBase text) as [base t].
  pose proof (parseUint_loop_fuel t base (if sign <b 0 then 2 ^ 63 else 2 ^ 63 - 1)%Z 0 false) as H.
  destruct (length t =? 0); [done|]. destruct (parseUint_loop _ _ _ _ _); simpl; [by repeat case_match|congruence].
Qed.

Lemma scalarFloatValue_fuel sc raw e : e ≠ OutOfFuel → scalarFloatValue sc raw e ≠ Err OutOfFuel.
Proof using Type.
  intros He. unfold scalarFloatValue, parseFloatLiteral, ParseFloat. repeat case_match; try done; congruence.
Qed.

Lemma semantic_fuel src tok msg : semanticSyntaxErrorRaw src tok msg ≠ OutOfFuel.
Proof using Type. apply syntaxErrorForRawToken_fuel. Qed.

Lemma parseScalarToken_spec n tok d st :
  inv data d → good st → above n st → Forall is_byte (rt_Bytes tok) →
  value_spec val_refs data n d st 0 (parseScalarToken tok d st).
Proof using Type.
  intros Hi Hg Ha Hb. unfold parseScalarToken.
  set (r := match rt_Kind tok with TokenKindInvalid => _ | _ => _ end).
  assert (r ≠ Err OutOfFuel ∧ ∀ v, r = Ok v → val_refs v = []) as [Hr Hv].
  { pose proof (parseStringValue_no_fuel _ Hb) as Hs.
    pose proof (syntaxErrorForRawToken_fuel (buf d) tok) as He.
    subst r. unfold rawTokenIntegerValue, rawTokenFloatValue, scalarIntegerValue, decoderSyntaxErrorForRawToken.
    destruct (rt_Kind tok); try (split; [intros [= H]; by apply He in H|done]).
    - split; [by apply rmap_fuel|]. intros v. destruct (parseStringValue _); [|done]. by intros [= <-].
    - case_match; [split; [done|]; by intros v [= <-]|]. split; [apply rmap_fuel, parseIntegerLiteral_fuel|].
      intros v. destruct (parseIntegerLiteral _); [|done]. by intros [= <-].
    - split; [apply rmap_fuel, scalarFloatValue_fuel, He|]. intros v. destruct (scalarFloatValue _ _ _); [|done]. by intros [= <-].
    - repeat case_match; (split; [|try done; by intros v [= <-]]); try done. intros [= Hx]. by apply He in Hx.
    - split; [|intros v; destruct (parseDateTimeValue _); [|done]; by intros [= <-]]. apply rmap_fuel.
      unfold parseDateTimeValue, invalidDateTimeError. repeat case_match; done. }
  destruct r as [v|e]; [|apply spec_fail; try done; congruence]. apply spec_ret; try done. by rewrite (Hv v eq_refl).
Qed.

(** What the functions that parse values need of the state. *)
Definition ready (n : nat) (d : Decoder) (st : store) : Prop :=
  inv data d ∧ good st ∧ above n st ∧ n ≤ length st.

Abbreviation rem d := (length data - off d).

Lemma inv_off d : inv data d → off d ≤ length data.
Proof using Type. intros (Hb & Hwf & _). pose proof (wf_off _ Hwf) as H. by rewrite Hb in H. Qed.

(** Reading a token: the rest of the computation starts further on. *)
Lemma spec_token {B} refsB n d st k (f : rawToken → D B) :
  ready n d st →
  (∀ tok d1, ready n d1 st → Forall is_byte (rt_Bytes tok) → off d + 1 ≤ off d1 → rem d1 + 1 ≤ rem d →
     value_spec refsB data n d1 st k (f tok d1 st)) →
  value_spec refsB data n d st (1 + k) ((tok ← reading readToken; f tok) d st).
Proof using Type.
  intros (Hi & Hg & Ha & Hn) Hf. pose proof (readToken_steps data d Hi) as Hs.
  pose proof (λ tok d1, token_bytes d tok d1 Hi) as Htb.
  unfold mbind, D_bind, reading. destruct (readToken d) as [[tok|e] d1]; destruct Hs as [Hi1 Hr]; cbn [fst snd] in *.
  - pose proof (inv_off _ Hi1). specialize (Hf tok d1 ltac:(by split_and!) (Htb _ _ eq_refl) Hr ltac:(lia)).
    destruct (f tok d1 st) as [[[b|e] d2] st2]; [|done]. destruct Hf as (? & ? & ? & ? & ? & ? & ?). split_and!; try done. lia.
  - by split_and!.
Qed.

(** Allocating the map of an inline table. *)
Lemma spec_new n d st :
  ready n d st →
  value_spec (λ m, [m]) data n d st 0 (building (λ st, let '(m, st) := newDocumentMap st in (Ok m, st)) d st).
Proof using Type.
  intros (Hi & [Hal [r Hr]] & Ha & Hn). unfold building. simpl. split_and!; [done| |by apply (above_new n st)| | |lia|].
  - split; [by apply (allocated_new st)|]. exists r. by apply (ranked_new r st).
  - rewrite length_app. lia.
  - intros id Hid. apply (table_new st id).
  - constructor; [|done]. rewrite length_app. simpl. lia.
Qed.

(** Storing a value that was parsed after the map [cur] was allocated. *)
Lemma assign_good src tok cur key v n st st1 :
  good st → good st1 → length st ≤ length st1 → (∀ id, id < length st → table st1 id = table st id) →
  above (length st) st1 → Forall (λ c, length st ≤ c < length st1) (val_refs v) →
  cur < length st → n ≤ cur → above n st1 → key ≠ [] →
  let '(r, st2) := assignUniqueRaw src tok cur key v st1 in
  good st2 ∧ above n st2 ∧ length st1 ≤ length st2 ∧ (∀ id, id < n → table st2 id = table st1 id) ∧ r ≠ Err OutOfFuel.
Proof using Type.
  intros Hg Hg1 Hl Ht Hab Hv Hc Hn Hab1 Hk.
  assert (Forall (λ c, c < length st1) (val_refs v)) as Hv1 by (eapply Forall_impl; [done|]; simpl; lia).
  destruct (assignUniqueRaw_ok src tok key v cur st1 Hk (good_allocated _ Hg1) ltac:(lia) Hv1) as (Hx & Hal & Hr).
  assert (∀ c, c ∈ val_refs v → length st ≤ c < length st1) as Hvc by (by apply Forall_forall).
  destruct (assignUniqueRaw_frame src tok n key v cur st1 (good_allocated _ Hg1) ltac:(lia) Hab1) as [Hab2 Hfr].
  { intros c Hcv. specialize (Hvc c Hcv). lia. }
  pose proof (assignUniqueRaw_acyclic src tok (λ i, (length st <=? i) && (i <? length st1)) key v cur st1
    (good_allocated _ Hg1) ltac:(lia) Hv1) as Hy.
  destruct (assignUniqueRaw src tok cur key v st1) as [r st2]. cbn [fst snd] in *.
  split_and!; [|done|apply Hx|done|].
  - split; [done|]. apply Hy; [|intros i Hi; apply andb_false_iff; right; apply Nat.ltb_ge; lia| | |apply Hg1].
    + apply andb_false_iff. left. apply Nat.leb_gt. lia.
    + intros i k w c Hw Hcw. destruct (decide (i < length st)) as [Hi|Hi].
      * rewrite Ht in Hw by done. pose proof (good_allocated _ Hg _ _ _ Hw) as Hall. rewrite Forall_forall in Hall.
        specialize (Hall c Hcw). simpl in Hall. rewrite (proj2 (Nat.leb_gt _ _)), (proj2 (Nat.leb_gt (length st) c)) by lia. done.
      * assert (i < length st1) as Hi1.
        { destruct (decide (i < length st1)); [done|]. rewrite table_ge in Hw by lia. by rewrite lookup_empty in Hw. }
        pose proof (good_allocated _ Hg1 _ _ _ Hw) as Hall. rewrite Forall_forall in Hall. specialize (Hall c Hcw). simpl in Hall.
        pose proof (Hab i k w c ltac:(lia) Hw Hcw).
        rewrite !(proj2 (Nat.leb_le _ _)), !(proj2 (Nat.ltb_lt _ _)) by lia. done.
    + intros c Hcv. specialize (Hvc c Hcv). rewrite (proj2 (Nat.leb_le _ _)), (proj2 (Nat.ltb_lt _ _)) by lia. done.
  - destruct r; [done|]. destruct Hr as (_ & _ & ->). intros [= He]. by apply semantic_fuel in He.
Qed.

Lemma parseDottedKey_ne raw key : parseDottedKey raw = Ok key → key ≠ [].
Proof using Type.
  unfold parseDottedKey. destruct (parseDottedKey_loop _ _ _ _) as [parts|]; [|done]. simpl.
  destruct (length parts =? 0) eqn:E; [done|]. intros [= <-] ->. done.
Qed.

Lemma keyPath_ne raw key : keyPath raw = Ok key → key ≠ [].
Proof using Type. unfold keyPath. case_match; [by intros [= <-]|apply parseDottedKey_ne]. Qed.

Lemma above_length st : above (length st) st.
Proof using Type. intros id k v c Hid. rewrite table_ge by done. by rewrite lookup_empty. Qed.

(** The parts combine: maps below the inner part keep what they had. *)
Lemma above_combine n st st1 :
  n ≤ length st → above n st → above (length st) st1 → (∀ id, id < length st → table st1 id = table st id) → above n st1.
Proof using Type.
  intros Hn Ha Ha1 Ht id k v c Hid Hv Hc. destruct (decide (id < length st)) as [Hlt|Hlt].
  - rewrite Ht in Hv by done. by eapply Ha.
  - pose proof (Ha1 id k v c ltac:(lia) Hv Hc). lia.
Qed.

Lemma markClosed_spec n closed path v epochs d st :
  ready n d st → value_spec no_refs data n d st 0 (markClosedPaths closed path v epochs d st).
Proof using Type. intros (? & ? & ? & ?). by apply spec_ret. Qed.

(** Parse a value in a part of its own and store it below a map of the part [n]. *)
Lemma spec_binding {B} refsB n d st tok (cur : nat) key k1 k2 (c : D val) (src : Decoder → bytes) (f : val → D B) :
  ready n d st → n ≤ cur < length st → key ≠ [] →
  value_spec val_refs data (length st) d st k1 (c d st) →
  (∀ v d1 st1, ready n d1 st1 → length st ≤ length st1 → off d + k1 ≤ off d1 → rem d1 + k1 ≤ rem d →
     value_spec refsB data n d1 st1 k2 (f v d1 st1)) →
  value_spec refsB data n d st (k1 + k2)
    ((v ← c; d' ← reading get; _ ← building (assignUniqueRaw (src d') tok cur key v); f v) d st).
Proof using Type.
  intros (Hi & Hg & Ha & Hn) Hcur Hkey Hc Hf. unfold mbind, D_bind, reading, building, get.
  destruct (c d st) as [[[v|e] d1] st1]; destruct Hc as (Hi1 & Hg1 & Hab1 & Hl1 & Ht1 & Hr1).
  2: { split_and!; try done; [by eapply above_combine|]. intros id Hid. apply Ht1. lia. }
  destruct Hr1 as [Ho Hv]. pose proof (above_combine n st st1 Hn Ha Hab1 Ht1) as Hab.
  pose proof (assign_good (src d1) tok cur key v n st st1 Hg Hg1 Hl1 Ht1 Hab1 Hv ltac:(lia) ltac:(lia) Hab Hkey) as Has.
  destruct (assignUniqueRaw (src d1) tok cur key v st1) as [[u|e] st2]; destruct Has as (Hg2 & Hab2 & Hl2 & Ht2 & Hne).
  - pose proof (inv_off _ Hi1). specialize (Hf v d1 st2 ltac:(split_and!; (done || lia)) ltac:(lia) ltac:(lia) ltac:(lia)).
    destruct (f v d1 st2) as [[x d3] st3]. destruct Hf as (? & ? & ? & ? & Ht3 & Hr3). split_and!; try done; [lia| |].
    + intros id Hid. rewrite Ht3, Ht2 by done. apply Ht1. lia.
    + destruct x; [|done]. destruct Hr3. split; [lia|done].
  - split_and!; try done; [lia| |congruence]. intros id Hid. rewrite Ht2 by done. apply Ht1. lia.
Qed.

Definition raw_ok (fuel : nat) : Prop := ∀ tok n d st,
  ready n d st → Forall is_byte (rt_Bytes tok) → 2 * rem d + 2 ≤ fuel →
  value_spec val_refs data n d st 0 (parseRawValueToken fuel tok d st).

Definition array_ok (fuel : nat) : Prop := ∀ values n d st,
  ready n d st → Forall (λ c, n ≤ c < length st) (val_refs (VArray values)) → 2 * rem d + 1 ≤ fuel →
  value_spec (λ l, val_refs (VArray l)) data n d st 0 (parseArrayValue fuel values d st).

Definition inline_ok (fuel : nat) : Prop := ∀ m closed n d st,
  ready n d st → n ≤ m < length st → 2 * rem d + 1 ≤ fuel →
  value_spec no_refs data n d st 0 (parseInlineTableValue fuel m closed d st).

Definition next_ok (fuel : nat) : Prop := ∀ n d st,
  ready n d st → 2 * rem d + 1 ≤ fuel → value_spec val_refs data n d st 0 (parseNextValue fuel d st).

Lemma array_step fuel : raw_ok fuel → array_ok fuel → array_ok (S fuel).
Proof using Type.
  intros Hraw Harr values n d st Hrdy Hv Hf. cbn [parseArrayValue]. apply (spec_weaken _ _ _ _ (1 + 0)); [lia|].
  apply spec_token; [done|]. intros tok d1 Hrdy1 Hb Ho Hrem. pose proof Hrdy1 as (Hi1 & Hg & Ha & Hn).
  case_match; [apply Harr; (done || lia)|]. case_match; [by apply spec_ret|].
  apply (spec_bind val_refs _ n d1 st 0 0); [done|apply Hraw; (done || lia)|].
  intros v d2 st2 Hi2 Hg2 Ha2 Hn2 Hl2 Ht2 Ho2 Hrv. pose proof (inv_off _ Hi2).
  apply Harr; [by split_and!| |lia]. cbn [val_refs] in *. rewrite map_app, concat_app, Forall_app. split.
  - eapply Forall_impl; [done|]. simpl. lia.
  - simpl. by rewrite app_nil_r.
Qed.

Lemma next_step fuel : raw_ok fuel → next_ok fuel → next_ok (S fuel).
Proof using Type.
  intros Hraw Hnext n d st Hrdy Hf. cbn [parseNextValue]. apply (spec_weaken _ _ _ _ (1 + 0)); [lia|].
  apply spec_token; [done|]. intros tok d1 Hrdy1 Hb Ho Hrem.
  case_match; [apply Hnext; (done || lia)|apply Hraw; (done || lia)].
Qed.

Lemma inline_step fuel : next_ok fuel → inline_ok fuel → inline_ok (S fuel).
Proof using Type.
  intros Hnext Hin m closed n d st Hrdy Hm Hf. cbn [parseInlineTableValue]. apply (spec_weaken _ _ _ _ (1 + 0)); [lia|].
  apply spec_token; [done|]. intros tok d1 Hrdy1 Hb Ho Hrem. pose proof Hrdy1 as (Hi1 & Hg & Ha & Hn).
  case_match; [apply Hin; (done || lia)|].
  assert (∀ e, e ≠ OutOfFuel → value_spec (no_refs (A := ())) data n d1 st 0 (Err e, d1, st)) as Hfail
    by (intros e He; by apply spec_fail).
  destruct (rt_Kind tok); try (apply Hfail, syntaxErrorForRawToken_fuel); [|by apply spec_ret].
  pose proof (parseDottedKey_no_fuel _ Hb) as Hnf. rewrite bind_checked.
  destruct (parseDottedKey (rt_Bytes tok)) as [key|e] eqn:Hkey; [|apply Hfail; congruence].
  case_match; [apply Hfail, semantic_fuel|].
  apply (spec_binding no_refs n d1 st tok m key 0 0 (parseNextValue fuel) buf); [done|lia|by eapply parseDottedKey_ne| |].
  { apply Hnext; [|lia]. split_and!; try done. apply above_length. }
  intros v d2 st2 Hrdy2 Hl2 Ho2 Hrem2. pose proof Hrdy2 as (? & ? & ? & ?).
  apply (spec_bind no_refs _ n d2 st2 0 0); [done|by apply markClosed_spec|].
  intros closed' d3 st3 Hi3 Hg3 Ha3 Hn3 Hl3 Ht3 Ho3 _. pose proof (inv_off _ Hi3).
  apply Hin; [by split_and!|lia|lia].
Qed.

Lemma raw_step fuel : array_ok fuel → inline_ok fuel → raw_ok (S fuel).
Proof using Type.
  intros Harr Hin tok n d st Hrdy Hb Hf. pose proof Hrdy as (Hi & Hg & Ha & Hn). cbn [parseRawValueToken].
  destruct (rt_Kind tok) eqn:Hk; try by apply parseScalarToken_spec.
  - apply (spec_bind (λ l, val_refs (VArray l)) _ n d st 0 0); [done|apply Harr; (done || lia)|].
    intros l d1 st1 ? ? ? ? ? ? ? ?. by apply spec_ret.
  - apply (spec_bind (λ m, [m]) _ n d st 0 0); [done|by apply spec_new|].
    intros m d1 st1 Hi1 Hg1 Ha1 Hn1 Hl1 Ht1 Ho1 [Hm _]%Forall_cons. pose proof (inv_off _ Hi1).
    apply (spec_bind no_refs _ n d1 st1 0 0); [done|apply Hin; [by split_and!|lia|lia]|].
    intros u d2 st2 Hi2 Hg2 Ha2 Hn2 Hl2 Ht2 Ho2 _. apply spec_ret; try done. constructor; [lia|done].
Qed.

Lemma parse_value_ok fuel : raw_ok fuel ∧ array_ok fuel ∧ inline_ok fuel ∧ next_ok fuel.
Proof using Type.
  induction fuel as [|fuel (IH1 & IH2 & IH3 & IH4)].
  - split_and!; intros ?; intros; lia.
  - split_and!; [by apply raw_step|by apply array_step|by apply inline_step|by apply next_step].
Qed.

(** ** Documents *)

Definition parser_ok (p : parser) (st : store) : Prop := ∀ id, current p = Some id → id < length st.

(** What a statement guarantees. *)
Definition statement_spec (d : Decoder) (st : store) (r : res parser * Decoder * store) : Prop :=
  let '(x, d', st') := r in
  inv data d' ∧ good st' ∧ extends st st' ∧
  match x with
  | Ok p' => off d ≤ off d' ∧ parser_ok p' st'
  | Err e => e = OutOfFuel → stuck d'
  end.

Lemma parser_ok_mono p st st' : parser_ok p st → length st ≤ length st' → parser_ok p st'.
Proof using Type. intros Hp Hl id Hid. specialize (Hp id Hid). lia. Qed.

Lemma keyPath_fuel raw : Forall is_byte raw → keyPath raw ≠ Err OutOfFuel.
Proof using Type. intros Hb. unfold keyPath. case_match; [done|by apply parseDottedKey_no_fuel]. Qed.

Lemma statement_fail d st e : inv data d → good st → e ≠ OutOfFuel → statement_spec d st (Err e, d, st).
Proof using Type. intros. by split_and!. Qed.

Lemma statement_ret d st p : inv data d → good st → parser_ok p st → statement_spec d st (Ok p, d, st).
Proof using Type. intros. split_and!; done. Qed.

Lemma skip_statement p d st :
  inv data d → good st → parser_ok p st → statement_spec d st ((_ ← reading skipNextValue; mret p) d st).
Proof using Type.
  intros Hi Hg Hp. unfold mbind, D_bind, reading. destruct (skipNextValue_steps data d Hi) as [Hi' Hr].
  destruct (skipNextValue d) as [[u|e] d']; cbn [fst snd] in *; split_and!; try done. lia.
Qed.

(** Parsing a value leaves every entry that was there. *)
Lemma value_adds {A} (refs : A → list nat) d st k x d' st' :
  value_spec refs data (length st) d st k (x, d', st') → adds st st'.
Proof using Type.
  intros (_ & _ & _ & Hl & Ht & _). split; [done|]. intros id k' v Hv. exists v. split; [|done].
  rewrite Ht; [done|]. destruct (decide (id < length st)); [done|]. rewrite table_ge in Hv by lia. by rewrite lookup_empty in Hv.
Qed.

Context (ToLower : bytes → bytes) (src : bytes) (filter : option decodeFilter).

(** A step of the store that enters a table. *)
Lemma statement_building (d : Decoder) (st : store) (f : store → res nat * store) (g : nat → parser) :
  inv data d → good st →
  (let '(r, st') := f st in
   good st' ∧ extends st st' ∧ match r with Ok id => id < length st' | Err e => e ≠ OutOfFuel end) →
  (∀ id, current (g id) = Some id) →
  statement_spec d st ((next ← building f; mret (g next)) d st).
Proof using Type.
  intros Hi Hg Hf Hc. unfold mbind, D_bind, building. destruct (f st) as [[id|e] st']; destruct Hf as (Hg' & Hx & Hr).
  - split_and!; try done. intros id'. rewrite Hc. by intros [= <-].
  - by split_and!.
Qed.

Lemma parseTableHeader_spec tok p d st :
  inv data d → good st → 0 < length st → parser_ok p st → Forall is_byte (rt_Bytes tok) →
  statement_spec d st (parseTableHeader ToLower src filter tok p d st).
Proof using Type.
  intros Hi Hg H0 Hp Hb. unfold parseTableHeader.
  pose proof (keyPath_fuel _ (trimHeaderKey_bytes _ false Hb)) as Hk. rewrite bind_checked.
  destruct (keyPath _) as [path|e]; [|apply statement_fail; try done; congruence]. cbv zeta.
  do 4 (case_match; [apply statement_fail; try done; apply semantic_fuel|]).
  destruct (lookupPath ToLower filter path) as [f|]; [|by apply statement_ret].
  apply (statement_building d st _ (λ next, declare _ _ (enter_table (Some (next, path, f)) p))); try done.
  pose proof (ensureTableRaw_spec src tok path 0 st (good_allocated _ Hg) H0) as He.
  pose proof (ensureTableRaw_acyclic src tok path 0 st (good_allocated _ Hg) H0 (good_acyclic _ Hg)) as Hy.
  destruct (ensureTableRaw src tok path 0 st) as [r st']. destruct He as (Ha & Hx & Hr).
  split_and!; [by split|by apply adds_extends|]. destruct r; [by destruct Hr|]. destruct Hr as [-> _]. apply semantic_fuel.
Qed.

Lemma parseArrayTableHeader_spec tok p d st :
  inv data d → good st → 0 < length st → parser_ok p st → Forall is_byte (rt_Bytes tok) →
  statement_spec d st (parseArrayTableHeader ToLower src filter tok p d st).
Proof using Type.
  intros Hi Hg H0 Hp Hb. unfold parseArrayTableHeader.
  pose proof (keyPath_fuel _ (trimHeaderKey_bytes _ true Hb)) as Hk. rewrite bind_checked.
  destruct (keyPath _) as [path|e] eqn:Hkp; [|apply statement_fail; try done; congruence]. cbv zeta.
  do 3 (case_match; [apply statement_fail; try done; apply semantic_fuel|]).
  destruct (lookupPath ToLower filter path) as [f|]; [|by apply statement_ret].
  apply (statement_building d st _ (λ next, enter_table (Some (next, path, f)) _)); try done.
  destruct Hg as [Ha Hy]. destruct (length path =? 1).
  - pose proof (appendArrayTableKeyRaw_spec src tok 0 (path !!! 0) st Ha H0) as He.
    pose proof (appendArrayTableKeyRaw_acyclic src tok 0 (path !!! 0) st H0 Hy) as Hy'.
    destruct (appendArrayTableKeyRaw src tok 0 (path !!! 0) st) as [r st']. destruct He as (Ha' & Hx & Hr).
    split_and!; [by split|done|]. destruct r; [lia|]. destruct Hr as [-> _]. apply semantic_fuel.
  - pose proof (appendArrayTableRaw_spec src tok 0 path st (keyPath_ne _ _ Hkp) Ha Hy H0) as He.
    destruct (appendArrayTableRaw src tok 0 path st) as [r st']. destruct He as (Ha' & Hy' & Hx & Hr).
    split_and!; [by split|done|]. destruct r; [lia|]. destruct Hr as [-> | ->]; apply semantic_fuel.
Qed.


(** What a successful key statement does: its path, its value and where it is. *)
Record binds (tok : rawToken) (cur : nat) (d : Decoder) (st : store) (key : list bytes) (v : val) (st' : store) : Prop := {
  binds_key : keyPath (rt_Bytes tok) = Ok key;
  binds_value : ∃ d1 st1, parseNextValue (valueFuel d) d st = (Ok v, d1, st1);
  binds_find : find st' cur key = Some v;
}.

Lemma parseKey_spec tok p d st :
  inv data d → good st → parser_ok p st → Forall is_byte (rt_Bytes tok) →
  statement_spec d st (parseKey ToLower src tok p d st) ∧
  ∀ p' d' st' cur f, parseKey ToLower src tok p d st = (Ok p', d', st') →
    current p = Some cur → lookup ToLower (currentFilter p) (rt_Bytes tok) = Some f →
    ∃ key v, binds tok cur d st key v st'.
Proof.
  intros Hi Hg Hp Hb. unfold parseKey.
  destruct (current p) as [cur|] eqn:Hcur; [|split; [by apply skip_statement|done]].
  destruct (lookup ToLower (currentFilter p) (rt_Bytes tok)) as [f|]; [|split; [by apply skip_statement|done]].
  pose proof (keyPath_fuel _ Hb) as Hk. rewrite bind_checked.
  destruct (keyPath (rt_Bytes tok)) as [key|e] eqn:Hkey; [|split; [apply statement_fail; try done; congruence|done]].
  cbv zeta. set (conflict := if 1 <? length key then _ else None).
  destruct conflict as [msg|]; [split; [apply statement_fail; try done; apply semantic_fuel|done]|].
  destruct (parse_value_ok (valueFuel d)) as (_ & _ & _ & Hnext).
  assert (ready (length st) d st) as Hrdy by (split_and!; try done; apply above_length).
  specialize (Hnext (length st) d st Hrdy). pose proof Hi as (Hbuf & _).
  specialize (Hnext ltac:(unfold valueFuel; rewrite Hbuf; lia)).
  unfold mbind, D_bind, reading, building, get, markClosedPaths, mret, D_ret.
  destruct (parseNextValue (valueFuel d) d st) as [[[v|e] d1] st1] eqn:Hpv.
  2: { pose proof (value_adds _ _ _ _ _ _ _ Hnext) as Hx. destruct Hnext as (Hi1 & Hg1 & _ & _ & _ & Hr).
       split; [|done]. split_and!; try done. by apply adds_extends. }
  pose proof (value_adds _ _ _ _ _ _ _ Hnext) as Hx. destruct Hnext as (Hi1 & Hg1 & Hab1 & Hl1 & Ht1 & Ho & Hv).
  pose proof (Hp cur Hcur) as Hc.
  assert (above 0 st1) as Hab0 by (intros ?; lia).
  pose proof (assign_good src tok cur key v 0 st st1 Hg Hg1 Hl1 Ht1 Hab1 Hv Hc ltac:(lia) Hab0 (keyPath_ne _ _ Hkey)) as Has.
  assert (Forall (λ c, c < length st1) (val_refs v)) as Hv1 by (eapply Forall_impl; [done|]; simpl; lia).
  destruct (assignUniqueRaw_ok src tok key v cur st1 (keyPath_ne _ _ Hkey) (good_allocated _ Hg1) ltac:(lia) Hv1) as (Hx2 & _ & Hr).
  destruct (assignUniqueRaw src tok cur key v st1) as [[u|e] st2]; destruct Has as (Hg2 & _ & Hl2 & _ & Hne); cbn [fst snd] in *.
  - split.
    + split_and!; try done; [etrans; by apply adds_extends|lia|]. simpl. apply (parser_ok_mono p st); [done|lia].
    + intros p' d' st' cur' f' [= <- <- <-] [= <-] _. exists key, v. destruct Hr as [_ Hf]. split; [done|by eexists _, _|done].
  - split; [|done]. split_and!; try done; [etrans; by apply adds_extends|congruence].
Qed.

Lemma parseStatement_spec tok p d st :
  inv data d → good st → 0 < length st → parser_ok p st → Forall is_byte (rt_Bytes tok) →
  statement_spec d st (parseStatement ToLower src filter tok p d st).
Proof.
  intros Hi Hg H0 Hp Hb. unfold parseStatement.
  destruct (rt_Kind tok); try (case_match; [by apply statement_ret|]; apply statement_fail; try done; apply syntaxErrorForRawToken_fuel).
  - by apply parseTableHeader_spec.
  - by apply parseArrayTableHeader_spec.
  - by apply parseKey_spec.
  - by apply statement_ret.
Qed.

Lemma parseStatements_spec fuel : ∀ p d st,
  inv data d → good st → 0 < length st → parser_ok p st → rem d < fuel →
  let '(r, d', st') := parseStatements ToLower src filter fuel p d st in
  inv data d' ∧ good st' ∧ extends st st' ∧ (r = Err OutOfFuel → stuck d').
Proof.
  induction fuel as [|fuel IH]; intros p d st Hi Hg H0 Hp Hf; [lia|]. cbn [parseStatements].
  pose proof (readToken_steps data d Hi) as Hs. pose proof (λ tok d1, token_bytes d tok d1 Hi) as Htb.
  destruct (readToken d) as [[tok|e] d1]; destruct Hs as [Hi1 Hr]; cbn [fst snd] in *.
  - pose proof (parseStatement_spec tok p d1 st Hi1 Hg H0 Hp (Htb _ _ eq_refl)) as Hst.
    unfold mbind, D_bind. destruct (parseStatement ToLower src filter tok p d1 st) as [[[p'|e] d2] st2];
      destruct Hst as (Hi2 & Hg2 & Hx2 & Hr2).
    + destruct Hr2 as [Ho2 Hp2]. pose proof (inv_off _ Hi1). pose proof (proj1 Hx2).
      specialize (IH p' d2 st2 Hi2 Hg2 ltac:(lia) Hp2 ltac:(lia)).
      destruct (parseStatements ToLower src filter fuel p' d2 st2) as [[r d3] st3]. destruct IH as (? & ? & ? & ?).
      split_and!; try done. by etrans.
    + split_and!; try done. intros [= ->]. auto.
  - destruct (bool_decide (e = EOF)); split_and!; try done. intros [= ->]. auto.
Qed.
End value.

(** A lone carriage return is where the token stream does not return. *)
Lemma stuck_lone_CR data d : inv data d → stuck d → ¬ no_lone_CR data.
Proof using Type.
  intros (Hb1 & _) (Ho & _ & _ & _ & Hc & Hcrlf) Hcr. rewrite Hb1 in *.
  assert (data !! off d = Some CR) as Hlk by (rewrite <-Hc; by apply lookup_total_lt).
  apply Hcr in Hlk as Hlf. pose proof (lookup_lt_Some _ _ _ Hlf).
  rewrite (drop_lookup_total data), Hc, (drop_lookup_total data) in Hcrlf by lia.
  apply list_lookup_total_correct in Hlf. rewrite Hlf in Hcrlf. done.
Qed.

Context (ToLower : bytes → bytes).

Lemma good_new : good (newDocumentMap []).2.
Proof using Type.
  assert (∀ i, table (newDocumentMap []).2 i = ∅) as He by (intros [|[|i]]; done).
  split; [intros i k v; by rewrite He, lookup_empty|].
  exists id. intros i k v c. by rewrite He, lookup_empty.
Qed.

Lemma parseDocument_run data opts filter :
  Forall is_byte data →
  let '(r, d', st') := parseStatements ToLower data filter (S (length data)) (newParser filter)
    (NewDecoderBytes data (decoderOptionsWithoutTokenPositions opts)) (newDocumentMap []).2 in
  inv data d' ∧ good st' ∧ extends (newDocumentMap []).2 st' ∧ (r = Err OutOfFuel → stuck d').
Proof using Type.
  intros Hd. apply parseStatements_spec; [by apply NewDecoderBytes_inv|apply good_new|simpl; lia| |lia].
  intros id [= <-]. simpl. lia.
Qed.

(** C1: parsing a document returns, for every filter and every option, when each
    carriage return of the source belongs to a CRLF pair. *)
Theorem parseDocument_returns data opts filter :
  Forall is_byte data → no_lone_CR data → parseDocument ToLower data opts filter ≠ Err OutOfFuel.
Proof using Type.
  intros Hd Hcr. unfold parseDocument. pose proof (parseDocument_run data opts filter Hd) as H. cbn [newDocumentMap snd app length] in *.
  destruct (parseStatements _ _ _ _ _ _ _) as [[[u|e] d'] st']; destruct H as (Hi & _ & _ & Hst); [done|].
  intros [= ->]. by eapply stuck_lone_CR; [|by apply Hst|].
Qed.

(** C34: the maps of a parsed document form a finite tree under the root: every
    reference is to an allocated map and no map contains itself. *)
Theorem parseDocument_tree data opts filter root st :
  Forall is_byte data → parseDocument ToLower data opts filter = Ok (root, st) →
  root < length st ∧ allocated st ∧ acyclic st.
Proof using Type.
  intros Hd. unfold parseDocument. pose proof (parseDocument_run data opts filter Hd) as H. cbn [newDocumentMap snd app length] in *.
  destruct (parseStatements _ _ _ _ _ _ _) as [[[u|e] d'] st']; destruct H as (_ & [Ha Hy] & [Hl _] & _); [|done].
  intros [= <- <-]. simpl in Hl. split_and!; [lia|done|done].
Qed.

(** C2: nothing is overwritten.  A key statement that the parser accepts in the
    current table binds its path to its value, and in the document that results
    the path is still bound to it, an array at most extended by array-table
    headers. *)
Theorem parseKey_persists data filter fuel tok p d st d1 cur f dF stF :
  inv data d → good st → 0 < length st → parser_ok p st → length data - off d < S fuel →
  readToken d = (Ok tok, d1) → rt_Kind tok = TokenKindKey → current p = Some cur →
  lookup ToLower (currentFilter p) (rt_Bytes tok) = Some f →
  parseStatements ToLower data filter (S fuel) p d st = (Ok tt, dF, stF) →
  ∃ key v v', keyPath (rt_Bytes tok) = Ok key ∧
    (∃ d2 st2, parseNextValue (valueFuel d1) d1 st = (Ok v, d2, st2)) ∧
    find stF cur key = Some v' ∧ grows v v'.
Proof using Type.
  intros Hi Hg H0 Hp Hf Hr Hk Hc Hl. cbn [parseStatements]. rewrite Hr. unfold mbind, D_bind, parseStatement. rewrite Hk.
  pose proof (readToken_steps data d Hi) as Hs. rewrite Hr in Hs. destruct Hs as [Hi1 Ho1]. cbn [fst snd] in *.
  pose proof (inv_off data _ Hi1).
  destruct (parseKey_spec data ToLower data tok p d1 st Hi1 Hg Hp (token_bytes data d tok d1 Hi Hr)) as [Hst Hbind].
  destruct (parseKey ToLower data tok p d1 st) as [[[p'|e] d2] st2]; [|done]. destruct Hst as (Hi2 & Hg2 & Hx2 & Ho2 & Hp2).
  destruct (Hbind p' d2 st2 cur f eq_refl Hc Hl) as (key & v & [Hkey Hval Hfind]). intros Hrun.
  pose proof (proj1 Hx2).
  pose proof (parseStatements_spec data ToLower data filter fuel p' d2 st2 Hi2 Hg2 ltac:(lia) Hp2 ltac:(lia)) as Hrest.
  rewrite Hrun in Hrest. destruct Hrest as (_ & _ & Hx & _).
  destruct (find_mono _ _ _ _ _ Hx Hfind) as (v' & Hv' & Hgr). by exists key, v, v'.
Qed.
End spec.

(** ** Witnesses *)

Definition lines (l : list string) : bytes := concat ((λ s, str s ++ [LF]) <$> l).

Definition sample_text : bytes := Eval vm_compute in
  lines ["a.b = 1"; "[t]"; "x = [1, {y = true}]"; "[[u.v]]"; "k = 'z'"]%string.

Lemma sample_text_bytes : Forall is_byte sample_text.
Proof. by apply (bool_decide_unpack _). Qed.

Lemma parseDocument_returns_witness :
  parseDocument (K := swar_kernels) id sample_text [] None ≠ Err OutOfFuel.
Proof.
  apply (parseDocument_returns (K := swar_kernels) id); [exact sample_text_bytes|].
  intros i Hi. apply list_elem_of_lookup_2, (bool_decide_pack _) in Hi. vm_compute in Hi. done.
Defined.

Definition sample_parsed : nat * store := Eval vm_compute in
  match parseDocument (K := swar_kernels) id sample_text [] None with Ok p => p | Err _ => (0, []) end.

Lemma parseDocument_tree_witness :
  sample_parsed.1 < length sample_parsed.2 ∧ allocated sample_parsed.2 ∧ acyclic sample_parsed.2.
Proof.
  apply (parseDocument_tree (K := swar_kernels) id sample_text [] None); [exact sample_text_bytes|].
  vm_compute. reflexivity.
Defined.

(** The first statement of the sample. *)
Definition sample_dec : Decoder := NewDecoderBytes (K := swar_kernels) sample_text (decoderOptionsWithoutTokenPositions []).

Lemma parseKey_persists_witness :
  ∃ key v v', keyPath (K := swar_kernels) (str "a.b") = Ok key ∧
    (∃ d2 st2, parseNextValue (K := swar_kernels) (valueFuel (readToken (K := swar_kernels) sample_dec).2)
       (readToken (K := swar_kernels) sample_dec).2 [∅] = (Ok v, d2, st2)) ∧
    find sample_parsed.2 0 key = Some v' ∧ grows v v'.
Proof.
  eapply (parseKey_persists (K := swar_kernels) id sample_text None (length sample_text)
    (RawToken TokenKindKey (str "a.b") 0) (newParser None) sample_dec [∅]).
  - apply NewDecoderBytes_inv. exact sample_text_bytes.
  - exact good_new.
  - simpl. lia.
  - intros id [= <-]. simpl. lia.
  - unfold sample_dec. simpl off. lia.
  - vm_compute. reflexivity.
  - reflexivity.
  - reflexivity.
  - reflexivity.
  - vm_compute. reflexivity.
Defined.

(** ** Documents the bookkeeping rejects although TOML allows them *)

(** The records of declared tables and array tables are not cleared when a new
    element of an enclosing array of tables starts. *)
Theorem new_array_element_keeps_declarations :
  let text l := parseDocument (K := swar_kernels) id (lines l) [] None in
  text ["[[a]]"; "[a.b]"; "[[a]]"; "[[a.b]]"]%string = Err (SyntaxError 4 1 "cannot redefine table as array table" (18, 25)) ∧
  text ["[[a]]"; "[[a.b]]"; "[[a]]"; "[a.b]"]%string = Err (SyntaxError 4 1 "cannot redefine array table as table" (20, 25)) ∧
  text ["[[a]]"; "[a.b]"; "[[a]]"; "b.c = 1"]%string =
    Err (SyntaxError 4 1 "cannot extend explicit table with dotted key" (18, 21)).
Proof. vm_compute. done. Qed.

(** A key with a NUL character is confused with a dotted path. *)
Theorem NUL_in_key_collides :
  parseDocument (K := swar_kernels) id
    ([LBRACK; DQUOTE] ++ str "a\u0000b" ++ [DQUOTE; RBRACK; LF] ++ str "[a.b]") [] None =
  Err (SyntaxError 2 1 "duplicate table" (13, 18)).
Proof. vm_compute. done. Qed.
