(* ===== verification/TomlMarshal.v ===== *)
(** Encoding of Go values as TOML documents (marshal.go, encoder.go and the field
    metadata of internal/reflectcache): values as reflection sees them, the two
    writers of values (type switch and reflection) and of documents. *)
From stdpp Require Import sorting.
From S2P Require Import Prelude GoUtf8 GoStrconv GoStrings GoQuote Datetime TomlNumber GoFloat.

(** ** Go values *)

(** What the encoder asks of a type: its [String()], whether [PkgPath()] is not
    empty, and what [MarshalText] returns on the value when it is implemented. *)
Record meta := Meta {
  tString : bytes;
  named : bool;
  text : option (result bytes bytes);
}.

(** A field of a struct type: [exported] is an empty [PkgPath], [tag] the text
    under the key toml. *)
Record StructField := MkStructField {
  sf_Name : bytes;
  exported : bool;
  Anonymous : bool;
  tag : option bytes;
}.

(** Integers of every width are their value and a float is the bits of its
    float64.  A slot of interface type is [GInterface]; the values of the type
    [any] the encoder passes around are such slots or what they hold.  A map is
    the list of its entries in the order of an iteration. *)
Inductive gval :=
| GString (m : meta) (s : bytes)
| GBool (m : meta) (b : bool)
| GInt (m : meta) (z : Z)
| GUint (m : meta) (z : Z)
| GFloat (m : meta) (bitSize bits : Z)
| GTime (t : Time)
| GLocalDateTime (dt : LocalDateTime)
| GLocalDate (d : LocalDate)
| GLocalTime (lt : LocalTime)
| GSlice (m : meta) (isNil : bool) (items : list gval)
| GArray (m : meta) (items : list gval)
| GMap (m : meta) (stringKeys isNil : bool) (entries : list (bytes * gval))
| GStruct (m : meta) (fields : list (StructField * gval))
| GPointer (m : meta) (target : option gval)
| GInterface (m : meta) (value : option gval)
| GOther (m : meta) (nilable isZero : bool).

Definition predeclared (name : string) : meta := Meta (str name) false None.

Definition metaOf (v : gval) : meta :=
  match v with
  | GString m _ | GBool m _ | GInt m _ | GUint m _ | GFloat m _ _ | GSlice m _ _ | GArray m _
  | GMap m _ _ _ | GStruct m _ | GPointer m _ | GInterface m _ | GOther m _ _ => m
  | GTime _ => Meta (str "time.Time") true None
  | GLocalDateTime _ => Meta (str "toml.LocalDateTime") true None
  | GLocalDate _ => Meta (str "toml.LocalDate") true None
  | GLocalTime _ => Meta (str "toml.LocalTime") true None
  end.

(** [case []any] and [case map[string]any] of a type switch. *)
Definition isAnySlice (m : meta) : bool := negb (named m) && bytes_eqb (tString m) (str "[]interface {}").
Definition isAnyMap (m : meta) : bool := negb (named m) && bytes_eqb (tString m) (str "map[string]interface {}").

(** ** Writing: the bytes written and the error that stopped it *)

Inductive marshalError :=
| UnsupportedTypeError (Type_ : bytes)
| TagOptionError (Struct Field Option_ : bytes)
| TextError (e : bytes)
| WriteError (e : bytes).

Definition W : Type := bytes * option marshalError.

Definition emit (b : bytes) : W := (b, None).
Definition failed (e : marshalError) : W := ([], Some e).

(** [if err := a; err != nil { return err }; b]. *)
Definition wseq (a b : W) : W := match a.2 with None => (a.1 ++ b.1, b.2) | Some _ => a end.
Infix ";;;" := wseq (at level 63, right associativity) : go_scope.

Definition wconcat (l : list W) : W := foldr wseq (emit []) l.

(** The elements with a separator between two of them. *)
Fixpoint wjoin (sep : bytes) (l : list W) : W :=
  match l with
  | [] => emit []
  | [w] => w
  | w :: l => w ;;; emit sep ;;; wjoin sep l
  end.

(** ** Fields of a struct (internal/reflectcache) *)

Record Field := MkField { Name : bytes; Index : nat; OmitZero : bool }.

Record TypeInfo := MkTypeInfo { Fields : list Field; MarshalFields : list Field; HasDuplicateNames : bool }.

(** The entries in the order of their names. *)
Definition keyLe {A} (x y : bytes * A) : Prop := bytes_leb x.1 y.1 = true.
#[export] Instance keyLe_dec {A} (x y : bytes * A) : Decision (keyLe x y).
Proof. unfold keyLe. apply _. Defined.
Definition sortByKey {A} (l : list (bytes * A)) : list (bytes * A) := merge_sort keyLe l.

(** [strings.Split(tag, ",")]. *)
Fixpoint splitComma (cur s : bytes) : list bytes :=
  match s with
  | [] => [cur]
  | c :: s => if c =b COMMA then cur :: splitComma [] s else splitComma (cur ++ [c]) s
  end.

(** The options after the name: [omitzero], or the first one that is refused. *)
Fixpoint parseOptions (opts : list bytes) (omitZero : bool) : result bytes bool :=
  match opts with
  | [] => Ok omitZero
  | opt :: opts =>
      if bytes_eqb opt [] then parseOptions opts omitZero
      else if bytes_eqb opt (str "omitzero") then parseOptions opts true
      else Err opt
  end.

(** The name, [omitZero] and [skip]. *)
Definition parseTag (structName : bytes) (sf : StructField) : result marshalError (bytes * bool * bool) :=
  match tag sf with
  | None => Ok ([], false, false)
  | Some t =>
      if bytes_eqb t (str "-") then Ok ([], false, true)
      else
        let parts := splitComma [] t in
        match parseOptions (drop 1 parts) false with
        | Ok omitZero => Ok (default [] (head parts), omitZero, false)
        | Err opt => Err (TagOptionError structName (sf_Name sf) opt)
        end
  end.

(** The loop of [build] over the fields from index [i]. *)
Fixpoint buildFields (structName : bytes) (i : nat) (sfs : list StructField) : result marshalError (list Field) :=
  match sfs with
  | [] => Ok []
  | sf :: sfs =>
      if negb (exported sf) && negb (Anonymous sf) then buildFields structName (S i) sfs
      else
        let! (name, omit, skip) := parseTag structName sf in
        let! rest := buildFields structName (S i) sfs in
        if skip then Ok rest
        else Ok (MkField (if bytes_eqb name [] then sf_Name sf else name) i omit :: rest)
  end.

(** A name that occurs again. *)
Fixpoint duplicated (names : list bytes) : bool :=
  match names with
  | [] => false
  | n :: names => existsb (bytes_eqb n) names || duplicated names
  end.

(** [Lookup]: the metadata is computed once and cached; the index by name, which
    only decoding uses, is left out. *)
Definition build (structName : bytes) (sfs : list StructField) : result marshalError TypeInfo :=
  let! fields := buildFields structName 0 sfs in
  Ok (MkTypeInfo fields (snd <$> sortByKey ((λ f, (Name f, f)) <$> fields)) (duplicated (Name <$> fields))).

(** [reflect.Value.IsZero]. *)
Definition zeroTime : Time := time_Date 1 1 1 0 0 0 0 UTC.
Definition isZeroFloat (bits : Z) : bool := bits =b 0.

Fixpoint IsZero (v : gval) : bool :=
  match v with
  | GString _ s => bytes_eqb s []
  | GBool _ b => negb b
  | GInt _ z | GUint _ z => z =b 0
  | GFloat _ _ bits => isZeroFloat bits
  | GTime t => bool_decide (t = zeroTime)
  | GLocalDateTime dt => bool_decide (dt = MkLocalDateTime 0 0 0 0 0 0 0 false 0)
  | GLocalDate d => bool_decide (d = MkLocalDate 0 0 0)
  | GLocalTime lt => bool_decide (lt = MkLocalTime 0 0 0 0 false 0)
  | GSlice _ isNil _ | GMap _ _ isNil _ => isNil
  | GOther _ _ isZero => isZero
  | GArray _ items => forallb IsZero items
  | GStruct _ fields => forallb (λ f, IsZero f.2) fields
  | GPointer _ o | GInterface _ o => match o with None => true | Some _ => false end
  end.

Definition isNilValue (v : gval) : bool :=
  match v with
  | GSlice _ isNil _ | GMap _ _ isNil _ => isNil
  | GOther _ nilable isZero => nilable && isZero
  | GPointer _ o | GInterface _ o => match o with None => true | Some _ => false end
  | _ => false
  end.

(** Each field of a struct value with its metadata; [None] is left out. *)
Definition marshalFieldValue {A} (fields : list (StructField * (gval * A))) (f : Field) : option (bytes * (gval * A)) :=
  match fields !! Index f with
  | None => None
  | Some (sf, (fv, a)) =>
      if OmitZero f && IsZero fv then None
      else if negb (exported sf) then None
      else if isNilValue fv then None
      else Some (Name f, (fv, a))
  end.

Fixpoint findMarshalEntry {A} (entries : list (bytes * A)) (name : bytes) : option nat :=
  match entries with
  | [] => None
  | e :: entries => if bytes_eqb e.1 name then Some 0 else S <$> findMarshalEntry entries name
  end.

(** A later field of the same name replaces the earlier one where it stands. *)
Definition addMarshalEntry {A} (entries : list (bytes * A)) (entry : bytes * A) : list (bytes * A) :=
  match findMarshalEntry entries entry.1 with
  | Some i => <[i := entry]> entries
  | None => entries ++ [entry]
  end.

Definition structMarshalEntries {A} (info : TypeInfo) (fields : list (StructField * (gval * A))) : list (bytes * (gval * A)) :=
  sortByKey (foldl addMarshalEntry [] (omap (marshalFieldValue fields) (Fields info))).

(** What a struct writes, in order: the names of [MarshalFields] when they are
    distinct, the merged entries otherwise. *)
Definition structEntries {A} (info : TypeInfo) (fields : list (StructField * (gval * A))) : list (bytes * (gval * A)) :=
  if HasDuplicateNames info then structMarshalEntries info fields
  else omap (marshalFieldValue fields) (MarshalFields info).

(** ** What is written as a table *)

(** [None] is the invalid value. *)
Fixpoint indirectValue (v : gval) : option gval :=
  match v with
  | GPointer _ o | GInterface _ o => match o with None => None | Some x => indirectValue x end
  | _ => Some v
  end.

Definition isScalarSpecial (v : gval) : bool :=
  match v with
  | GTime _ | GLocalDateTime _ | GLocalDate _ | GLocalTime _ => true
  | _ => named (metaOf v) && match text (metaOf v) with Some _ => true | None => false end
  end.

Definition isStructOrMap (v : gval) : bool :=
  match v with GStruct _ _ | GMap _ _ _ _ => true | _ => false end.

Definition itemsOf (v : gval) : list gval :=
  match v with GSlice _ _ items | GArray _ items => items | _ => [] end.

Definition isArrayOfTables (v : gval) : bool :=
  match indirectValue v with
  | None => false
  | Some v =>
      match head (itemsOf v) with
      | None => false
      | Some item =>
          match indirectValue item with
          | None => false
          | Some e => negb (isScalarSpecial e) && isStructOrMap e
          end
      end
  end.

Definition isTableLike (v : gval) : bool :=
  match indirectValue v with
  | None => false
  | Some v => if isScalarSpecial v then false else if isArrayOfTables v then true else isStructOrMap v
  end.

(** What a slot of type [any] holds. *)
Definition dynamic (v : gval) : option gval :=
  match v with GInterface _ o => o | _ => Some v end.

Fixpoint hasNonEmptyTableLikeDescendantAny (v : gval) : bool :=
  match v with
  | GInterface _ (Some x) => hasNonEmptyTableLikeDescendantAny x
  | GMap m _ _ entries =>
      if isAnyMap m then
        if length entries =? 0 then false else existsb (λ e, hasNonEmptyTableLikeDescendantAny e.2) entries
      else false
  | GSlice m _ items => if isAnySlice m then existsb hasNonEmptyTableLikeDescendantAny items else false
  | _ => false
  end.

Definition containsNonEmptyTableLikeValueAny (entries : list (bytes * gval)) : bool :=
  existsb (λ e, hasNonEmptyTableLikeDescendantAny e.2) entries.

(** The entries of a [map[string]any]. *)
Definition anyMapEntries (v : gval) : option (list (bytes * gval)) :=
  match dynamic v with
  | Some (GMap m _ _ entries) => if isAnyMap m then Some entries else None
  | _ => None
  end.

(** The loop over the items with its flags; [None] is the early return. *)
Fixpoint arrayOfTables_loop (items : list gval) (allEmpty hasNestedTable : bool) : bool :=
  match items with
  | [] => allEmpty || hasNestedTable
  | item :: items =>
      match anyMapEntries item with
      | Some entries =>
          if length entries =? 0 then arrayOfTables_loop items allEmpty hasNestedTable
          else arrayOfTables_loop items false (containsNonEmptyTableLikeValueAny entries || hasNestedTable)
      | None => false
      end
  end.

(** The items of a [[]any]. *)
Definition anySliceItems (v : gval) : option (list gval) :=
  match dynamic v with
  | Some (GSlice m _ items) => if isAnySlice m then Some items else None
  | _ => None
  end.

Definition isArrayOfTablesAny (v : gval) : bool :=
  match anySliceItems v with
  | Some items => if length items =? 0 then false else arrayOfTables_loop items true false
  | None => false
  end.

Definition isTextMarshaler (v : gval) : bool :=
  match v with
  | GTime _ | GLocalDateTime _ | GLocalDate _ | GLocalTime _ => true
  | _ => match text (metaOf v) with Some _ => true | None => false end
  end.

Definition isTableLikeAny (v : gval) : bool :=
  match dynamic v with
  | None => false
  | Some x =>
      if isTextMarshaler x then false
      else if anyMapEntries x is Some _ then true
      else if anySliceItems x is Some _ then isArrayOfTablesAny x
      else isTableLike x
  end.

(** ** Strings and numbers *)

Section marshal.
(** [strconv.IsPrint] beyond Latin-1. *)
Context (isPrintTable : Z → bool).

Abbreviation Quote := (Quote isPrintTable).

(** [-1], [quoteFallback] and an index. *)
Inductive quoteIndex := noEscape | quoteFallback | escapeAt (first : nat).

(** The loop from index [i]. *)
Fixpoint asciiQuoteEscape_loop (i : nat) (s : bytes) (first : quoteIndex) : quoteIndex :=
  match s with
  | [] => first
  | c :: s =>
      if (c <b 0x20) || (0x7f ≤b c) then quoteFallback
      else if (c =b DQUOTE) || (c =b BSLASH) then
        asciiQuoteEscape_loop (S i) s (match first with noEscape => escapeAt i | _ => first end)
      else asciiQuoteEscape_loop (S i) s first
  end.

Definition asciiQuoteEscapeIndex (s : bytes) : quoteIndex := asciiQuoteEscape_loop 0 s noEscape.

(** The loop of [writeQuotedASCIIString] at index [i], with what follows the
    last escape starting at [start]. *)
Fixpoint quotedASCII_loop (fuel : nat) (s : bytes) (start i : nat) : bytes :=
  match fuel with
  | 0 => drop start s
  | S fuel =>
      if i <? length s then
        let c := s !!! i in
        if (c =b DQUOTE) || (c =b BSLASH) then
          slice s start i ++ [BSLASH; c] ++ quotedASCII_loop fuel s (i + 1) (i + 1)
        else quotedASCII_loop fuel s start (i + 1)
      else drop start s
  end.

Definition writeQuotedASCIIString (s : bytes) (first : nat) : bytes :=
  [DQUOTE] ++ quotedASCII_loop (length s - first) s 0 first ++ [DQUOTE].

Definition writeQuotedString (s : bytes) : bytes :=
  match asciiQuoteEscapeIndex s with
  | noEscape => [DQUOTE] ++ s ++ [DQUOTE]
  | quoteFallback => Quote s
  | escapeAt first => writeQuotedASCIIString s first
  end.

(** [math.IsInf(f, ±1)], [math.IsNaN] and [math.Signbit] on the bits. *)
Definition isNaNBits (bits : Z) : bool := bitsInf <b Z.land bits (signBit - 1).
Definition signbit (bits : Z) : bool := signBit ≤b bits.

Definition writeFloat (bits bitSize : Z) : bytes :=
  if bits =b bitsInf then str "inf"
  else if bits =b Z.lor bitsInf signBit then str "-inf"
  else if isNaNBits bits then if signbit bits then str "-nan" else str "nan"
  else
    let text := FormatFloat bits bitSize in
    if contains_any text (str ".eE") then text else text ++ str ".0".

(** [r >= 'A' && r <= 'Z' || ...]. *)
Definition isBareKeyRune (r : Z) : bool :=
  ((cA ≤b r) && (r ≤b cZ)) || ((ca ≤b r) && (r ≤b cz)) || isDigit r || (r =b UNDERSCORE) || (r =b MINUS).

Definition formatKey (key : bytes) : bytes :=
  if bytes_eqb key [] then Quote key
  else if forallb isBareKeyRune (runes key) then key
  else Quote key.

(** [time.Time.Format(time.RFC3339Nano)]. *)
Definition zoneOffset (l : Location) : Z := match l with UTC => 0 | FixedZone _ offset => offset end.

Definition formatNano (nanos : Z) : bytes :=
  match trimZeros (digits 9 nanos) with [] => [] | ds => [DOT] ++ ds end.

Definition formatZone (offset : Z) : bytes :=
  if offset =b 0 then [cZ]
  else
    let zone := Z.quot offset 60 in
    let '(sign, zone) := if zone <b 0 then (MINUS, - zone)%Z else (PLUS, zone) in
    [sign] ++ zero_padded 2 (zone / 60) ++ [COLON] ++ zero_padded 2 (zone mod 60).

Definition formatRFC3339Nano (t : Time) : bytes :=
  zero_padded 4 (t_Year t) ++ [MINUS] ++ zero_padded 2 (t_Month t) ++ [MINUS] ++ zero_padded 2 (t_Day t) ++ [cT] ++
  zero_padded 2 (t_Hour t) ++ [COLON] ++ zero_padded 2 (t_Minute t) ++ [COLON] ++ zero_padded 2 (t_Second t) ++
  formatNano (t_Nanosecond t) ++ formatZone (zoneOffset (t_Location t)).

(** ** Values *)

Definition writeText (r : result bytes bytes) : W :=
  match r with
  | Ok t => emit (writeQuotedString t)
  | Err e => failed (TextError e)
  end.

Definition FormatBool (b : bool) : bytes := if b then str "true" else str "false".

Definition nilError : W := failed (UnsupportedTypeError (str "nil")).
Definition unsupported (v : gval) : W := failed (UnsupportedTypeError (tString (metaOf v))).

(** [Some] is what it wrote when it handled the value. *)
Definition writeSpecialValue (v : gval) : option W :=
  match v with
  | GTime t => Some (emit (formatRFC3339Nano t))
  | GLocalDateTime dt => Some (emit (text_or_empty (LocalDateTime_MarshalText dt)))
  | GLocalDate d => Some (emit (text_or_empty (LocalDate_MarshalText d)))
  | GLocalTime lt => Some (emit (text_or_empty (LocalTime_MarshalText lt)))
  | _ => if named (metaOf v) then writeText <$> text (metaOf v) else None
  end.

(** One entry of an inline table. *)
Definition writeEntry (key : bytes) (value : W) : W := emit (formatKey key) ;;; emit (str " = ") ;;; value.

Definition inlineTable (entries : list (bytes * W)) : W :=
  emit (str "{ ") ;;; wjoin (str ", ") ((λ e, writeEntry e.1 e.2) <$> entries) ;;; emit (str " }").

(** An opening brace stays behind when the table cannot be written. *)
Definition inlineError (e : marshalError) : W := emit (str "{ ") ;;; failed e.

(** [indirectValue] is the recursion on pointers and interfaces; what is written
    for the entries of a table is computed for each and put in order. *)
Fixpoint writeValue (v : gval) : W :=
  match v with
  | GPointer _ o | GInterface _ o => match o with None => nilError | Some x => writeValue x end
  | _ =>
      match writeSpecialValue v with
      | Some w => w
      | None =>
          match v with
          | GString _ s => emit (writeQuotedString s)
          | GBool _ b => emit (FormatBool b)
          | GInt _ z | GUint _ z => emit (Itoa z)
          | GFloat _ bitSize bits => emit (writeFloat bits bitSize)
          | GSlice _ _ items | GArray _ items =>
              emit (str "[") ;;; wjoin (str ", ") (writeValue <$> items) ;;; emit (str "]")
          | GMap m stringKeys _ entries =>
              if stringKeys then inlineTable (sortByKey ((λ e, (e.1, writeValue e.2)) <$> entries))
              else inlineError (UnsupportedTypeError (tString m))
          | GStruct m fields =>
              let fields := (λ f, (f.1, (f.2, writeValue f.2))) <$> fields in
              match build (tString m) (fst <$> fields) with
              | Err e => inlineError e
              | Ok info => inlineTable ((λ e, (e.1, e.2.2)) <$> structEntries info fields)
              end
          | _ => unsupported v
          end
      end
  end.

(** The type switch on a value of type [any]. *)
Fixpoint writeAnyValue (v : gval) : W :=
  let default v := match text (metaOf v) with Some r => writeText r | None => writeValue v end in
  match v with
  | GInterface _ o => match o with None => nilError | Some x => writeAnyValue x end
  | GString m s => if named m then default v else emit (writeQuotedString s)
  | GBool m b => if named m then default v else emit (FormatBool b)
  | GInt m z | GUint m z => if named m then default v else emit (Itoa z)
  | GFloat m bitSize bits => if named m then default v else emit (writeFloat bits bitSize)
  | GTime t => emit (formatRFC3339Nano t)
  | GLocalDateTime dt => emit (text_or_empty (LocalDateTime_MarshalText dt))
  | GLocalDate d => emit (text_or_empty (LocalDate_MarshalText d))
  | GLocalTime lt => emit (text_or_empty (LocalTime_MarshalText lt))
  | GSlice m _ items =>
      if isAnySlice m then emit (str "[") ;;; wjoin (str ", ") (writeAnyValue <$> items) ;;; emit (str "]")
      else default v
  | GMap m _ _ entries =>
      if isAnyMap m then inlineTable (sortByKey ((λ e, (e.1, writeAnyValue e.2)) <$> entries))
      else default v
  | _ => default v
  end.

(** ** Documents *)

Definition writeKeyValue (key : bytes) (v : gval) : W :=
  emit (formatKey key) ;;; emit (str " = ") ;;; writeValue v ;;; emit [LF].

Definition writeKeyValueAny (key : bytes) (v : gval) : W :=
  emit (formatKey key) ;;; emit (str " = ") ;;; writeAnyValue v ;;; emit [LF].

Definition writeHeader (path : list bytes) (array : bool) : bytes :=
  (if array then str "[[" else str "[") ++ join [DOT] (formatKey <$> path) ++
  (if array then str "]]" else str "]") ++ [LF].

Definition appendPath (path : list bytes) (key : bytes) : list bytes := path ++ [key].

(** The two passes over the entries, each a name, whether it is written as a
    table, its line and its table. *)
Definition documentOf (entries : list (bytes * (bool * W * W))) : W :=
  wconcat ((λ e : bytes * (bool * W * W), let '(isTable, line, _) := e.2 in if isTable then emit [] else line) <$> entries) ;;;
  wconcat ((λ e : bytes * (bool * W * W), let '(isTable, _, table) := e.2 in if isTable then table else emit []) <$> entries).

Definition tableHeader (path : list bytes) (array : bool) : W := emit [LF] ;;; emit (writeHeader path array).

(** [encodeMapDocument] and [encodeStructDocument] are the two cases;
    [encodeItems] is the loop over an array of tables. *)
Fixpoint encodeDocument (v : gval) (path : list bytes) {struct v} : W :=
  let entry key x :=
    let nextPath := appendPath path key in
    (isTableLike x, writeKeyValue key x,
     if isArrayOfTables x then encodeItems x nextPath
     else tableHeader nextPath false ;;; encodeDocument x nextPath) in
  match v with
  | GPointer _ o | GInterface _ o => match o with None => nilError | Some x => encodeDocument x path end
  | GMap m stringKeys _ entries =>
      if stringKeys then documentOf (sortByKey ((λ e, (e.1, entry e.1 e.2)) <$> entries))
      else failed (UnsupportedTypeError (tString m))
  | GStruct m fields =>
      let fields := (λ f, (f.1, (f.2, λ key, entry key f.2))) <$> fields in
      match build (tString m) (fst <$> fields) with
      | Err e => failed e
      | Ok info => documentOf ((λ e, (e.1, e.2.2 e.1)) <$> structEntries info fields)
      end
  | _ => unsupported v
  end
with encodeItems (v : gval) (nextPath : list bytes) {struct v} : W :=
  match v with
  | GPointer _ o | GInterface _ o => match o with None => emit [] | Some x => encodeItems x nextPath end
  | GSlice _ _ items | GArray _ items =>
      wconcat ((λ item, tableHeader nextPath true ;;; encodeDocument item nextPath) <$> items)
  | _ => emit []
  end.

Fixpoint encodeAnyDocument (v : gval) (path : list bytes) {struct v} : W :=
  match v with
  | GInterface _ (Some x) => encodeAnyDocument x path
  | GMap m _ _ entries =>
      if isAnyMap m then
        documentOf (sortByKey ((λ e,
          let key := e.1 in let x := e.2 in let nextPath := appendPath path key in
          (key, (isTableLikeAny x, writeKeyValueAny key x,
                 if isArrayOfTablesAny x then encodeAnyItems x nextPath
                 else tableHeader nextPath false ;;; encodeAnyDocument x nextPath))) <$> entries))
      else encodeDocument v path
  | _ => encodeDocument v path
  end
with encodeAnyItems (v : gval) (nextPath : list bytes) {struct v} : W :=
  match v with
  | GInterface _ (Some x) => encodeAnyItems x nextPath
  | GSlice _ _ items => wconcat ((λ item, tableHeader nextPath true ;;; encodeAnyDocument item nextPath) <$> items)
  | _ => emit []
  end.

(** [encodeAnyMapDocument] on the entries of a [map[string]any]. *)
Definition encodeAnyMapDocument (m : meta) (entries : list (bytes * gval)) (path : list bytes) : W :=
  encodeAnyDocument (GMap m true false entries) path.

(** What is appended to the buffer; [marshalTOMLTo] is what the method of that
    name writes when the value has one. *)
Definition marshalToBuffer (marshalTOMLTo : option W) (v : gval) : W :=
  match marshalTOMLTo with
  | Some w => w
  | None => if anyMapEntries v is Some _ then encodeAnyDocument v [] else encodeDocument v []
  end.

Definition marshalWithOptions (marshalTOMLTo : option W) (v : gval) : result marshalError bytes :=
  let w := marshalToBuffer marshalTOMLTo v in
  match w.2 with
  | Some e => Err e
  | None => Ok w.1
  end.

Definition Marshal (v : gval) : result marshalError bytes := marshalWithOptions None v.

(** The writer of an encoder: nil, a [bytes.Buffer], or one whose [Write] takes
    some of the bytes and may fail. *)
Inductive writer := NilWriter | BufferWriter | OtherWriter (write : bytes → W).

Definition Encode (w : writer) (marshalTOMLTo : option W) (v : gval) : W :=
  match w with
  | NilWriter => failed (UnsupportedTypeError (str "<nil writer>"))
  | _ =>
      match marshalTOMLTo with
      | Some out => out
      | None =>
          match w with
          | OtherWriter write =>
              match marshalWithOptions None v with
              | Err e => failed e
              | Ok b => write b
              end
          | _ => marshalToBuffer None v
          end
      end
  end.
End marshal.
