(* ===== verification/TomlRead.v ===== *)
(** Reading forward: what [readToken] returns on a source that spells a token.
    The decoder is one that does not track positions, as [parseDocument] makes it,
    so its state is an offset, the flags, the open containers and the last scalar. *)
From S2P Require Import Prelude GoUtf8 Scan TomlBase Datetime TomlString TomlNumber TomlKey Decoder.

(** ** Configurations *)

Record mode := Mode {
  m_expecting : bool;
  m_noNewline : bool;
  m_separator : bool;
  m_lineEnd : bool;
  m_lineStart : bool;
}.

(** [expectingValue] after a value or a container, by what encloses it. *)
Definition inArray (cs : list Z) : bool := match cs with c :: _ => c =b containerArray | [] => false end.

(** A value is expected, after a key ([vn]) or in an array. *)
Definition wantValue (vn : bool) : mode := Mode true vn false false false.
(** A key of an inline table is expected. *)
Definition wantKey : mode := Mode false false false false false.
(** A value or a header has been read. *)
Definition after (cs : list Z) : mode :=
  Mode (inArray cs) false (0 <? length cs) (length cs =? 0) false.
(** At the start of a line outside a value. *)
Definition lineStart : mode := Mode false false false false true.

(** ** Basic strings on one line *)

(** A body the scanners read through: characters that do not stop them, and a
    backslash with what it escapes. *)
Inductive scan_body : bytes → Prop :=
| sb_nil : scan_body []
| sb_char c s : basicStringStrictStop c = false → scan_body s → scan_body (c :: s)
| sb_escape e s : scan_body s → scan_body (BSLASH :: e :: s).

Lemma scan_body_quoted body : scan_body body → quoted_body body.
Proof.
  induction 1 as [|c s Hc _ IH|e s _ IH]; [constructor| |by constructor].
  unfold basicStringStrictStop in Hc. constructor; [lia|lia|done].
Qed.

Lemma paired_not_tripled body b : scan_body body → paired DQUOTE body ≠ tripled DQUOTE b.
Proof.
  intros Hb. unfold paired, tripled. cbn [app]. intros [= E].
  destruct Hb as [|c s Hc Hb|e s Hb]; cbn [app] in E; injection E as ?; [|subst c; done|done].
  by apply (f_equal length) in H.
Qed.

(** The literal [w] of the string [s]. *)
Definition basic_text (w s : bytes) : Prop :=
  ∃ body, w = paired DQUOTE body ∧ scan_body body ∧ basic_body false body s.

Lemma basic_text_value w s : basic_text w s → string_value w s.
Proof. intros (body & -> & Hb & Hs). apply sv_basic; [|done]. intros b. by apply paired_not_tripled. Qed.

(** ** Bare values *)

(** The text of a number, a boolean or a date. *)
Definition bare_text (w : bytes) : Prop :=
  Forall (λ c, bareValueDelimiter c = false) w ∧
  match w with [] => False | c :: _ => c ≠ DQUOTE ∧ c ≠ SQUOTE ∧ c ≠ LBRACK ∧ c ≠ LBRACE end.

(** What follows a value where the encoder writes one: a comma, a closing
    bracket, a line feed, or the blank before a closing brace. *)
Definition value_end (rest : bytes) : Prop :=
  match rest with
  | c :: t => c = COMMA ∨ c = RBRACK ∨ c = LF ∨ (c = SP ∧ head t = Some RBRACE)
  | [] => False
  end.

(** ** Keys of one segment *)

Definition key_text (w k : bytes) : Prop :=
  (w = k ∧ k ≠ [] ∧ Forall (λ c, bareKeyClass c = true) k) ∨ basic_text w k.

Lemma key_text_segment w k : key_text w k → key_segment w k.
Proof.
  intros [(-> & Hne & Hk)|(body & -> & Hb & Hs)]; [by apply seg_bare|].
  apply seg_basic; [by apply scan_body_quoted|done].
Qed.

(** The first and the last byte are part of the name or a quote. *)
Definition key_byte (c : Z) : Prop := bareKeyClass c = true ∨ c = DQUOTE.

Lemma key_text_ends w k : key_text w k → ∃ c t, w = c :: t ∧ key_byte c ∧ ∃ t' c', w = t' ++ [c'] ∧ key_byte c'.
Proof.
  intros [(-> & Hne & Hk)|(body & -> & Hb & Hs)].
  - destruct k as [|c t]; [done|]. exists c, t. split; [done|]. split; [left; by apply Forall_cons in Hk as [? _]|].
    destruct (exists_last (l := c :: t) ltac:(done)) as (t' & c' & E). exists t', c'. split; [done|]. left.
    rewrite E in Hk. by apply Forall_app in Hk as [_ [? _]%Forall_cons].
  - exists DQUOTE, (body ++ [DQUOTE]). split; [done|]. split; [by right|]. exists (DQUOTE :: body), DQUOTE.
    split; [done|by right].
Qed.

Lemma trim_right_while_snoc p s c : trim_right_while p (s ++ [c]) = if p c then trim_right_while p s else s ++ [c].
Proof.
  unfold trim_right_while. rewrite rev_app_distr. cbn [rev app trim_left_while].
  destruct (p c); [done|]. cbn [rev]. by rewrite rev_involutive.
Qed.

Lemma key_byte_space c : key_byte c → isSpace c = false ∧ isBlank c = false.
Proof. unfold key_byte, bareKeyClass, isSpace, isBlank. intros [H| ->]; [lia|done]. Qed.

Lemma key_text_trim w k : key_text w k → bytesTrimSpace w = w.
Proof.
  intros (c & t & -> & [Hc _]%key_byte_space & t' & c' & E & [Hc' _]%key_byte_space)%key_text_ends.
  unfold bytesTrimSpace. cbn [trim_left_while]. rewrite Hc, E, trim_right_while_snoc. by rewrite Hc'.
Qed.

Lemma key_text_trimRight w k : key_text w k → bytesTrimRightSpaces (w ++ [SP]) = w.
Proof.
  intros (_ & _ & _ & _ & t' & c' & -> & [_ Hc']%key_byte_space)%key_text_ends.
  unfold bytesTrimRightSpaces. rewrite trim_right_while_snoc. change (isBlank SP) with true. cbv iota.
  rewrite trim_right_while_snoc. by rewrite Hc'.
Qed.

(** ** Paths *)

(** The keys of a header, separated by dots. *)
Abbreviation path_text ws := (join [DOT] ws).

Lemma path_text_cons w w' ws : path_text (w :: w' :: ws) = w ++ DOT :: path_text (w' :: ws).
Proof. done. Qed.

Lemma path_text_dotted ws ks : ws ≠ [] → Forall2 key_text ws ks → dotted_key (path_text ws) ks.
Proof.
  intros Hne H. induction H as [|w k ws ks Hk H IH]; [done|]. apply key_text_segment in Hk. destruct H as [|w' k' ws ks Hk' H].
  - pose proof (dotted_one [] w [] k ltac:(done) Hk ltac:(done)) as Hd. cbn [app] in Hd. by rewrite app_nil_r in Hd.
  - rewrite path_text_cons. exact (dotted_cons [] w [] k _ _ ltac:(done) Hk ltac:(done) (IH ltac:(done))).
Qed.

Lemma path_text_ends ws ks : ws ≠ [] → Forall2 key_text ws ks →
  ∃ c t, path_text ws = c :: t ∧ key_byte c ∧ ∃ t' c', path_text ws = t' ++ [c'] ∧ key_byte c'.
Proof.
  intros Hne H. induction H as [|w k ws ks Hk H IH]; [done|].
  destruct (key_text_ends w k Hk) as (c & t & E & Hc & t' & c' & E' & Hc'). destruct H as [|w2 k2 ws ks Hk2 H].
  - exists c, t. split; [done|]. split; [done|]. by exists t', c'.
  - rewrite path_text_cons. destruct (IH ltac:(done)) as (_ & _ & _ & _ & u & c2 & E2 & Hc2).
    exists c, (t ++ DOT :: path_text (w2 :: ws)). split; [by rewrite E|]. split; [done|].
    exists (w ++ DOT :: u), c2. split; [|done]. by rewrite E2, <-app_assoc.
Qed.

Lemma path_text_trim ws ks : ws ≠ [] → Forall2 key_text ws ks → bytesTrimSpace (path_text ws) = path_text ws.
Proof.
  intros Hne H. destruct (path_text_ends ws ks Hne H) as (c & t & -> & [Hc _]%key_byte_space & t' & c' & E & [Hc' _]%key_byte_space).
  unfold bytesTrimSpace. cbn [trim_left_while]. rewrite Hc, E, trim_right_while_snoc. by rewrite Hc'.
Qed.

Lemma path_text_length ws ks : Forall2 key_text ws ks → 2 * length ws ≤ length (path_text ws) + 1.
Proof.
  induction 1 as [|w k ws ks Hk H IH]; [simpl; lia|]. destruct (key_text_ends w k Hk) as (c & t & -> & _).
  destruct ws as [|w2 ws]; [simpl; lia|]. rewrite path_text_cons, length_app. cbn [length] in *. lia.
Qed.

(** The brackets of a header. *)
Definition opening (array : bool) : bytes := if array then [LBRACK; LBRACK] else [LBRACK].
Definition closing (array : bool) : bytes := if array then [RBRACK; RBRACK] else [RBRACK].
Definition header_text (array : bool) (ws : list bytes) : bytes := opening array ++ path_text ws ++ closing array.
Definition headerKind (array : bool) : TokenKind := if array then TokenKindArrayTableHeader else TokenKindTableHeader.

Lemma trimHeaderKey_text array ws ks : ws ≠ [] → Forall2 key_text ws ks → trimHeaderKey (header_text array ws) array = path_text ws.
Proof.
  intros Hne H. pose proof (path_text_trim ws ks Hne H) as Ht. unfold trimHeaderKey.
  assert (bytesTrimSpace (header_text array ws) = header_text array ws) as ->.
  { unfold bytesTrimSpace, header_text. destruct array; cbn [opening closing app trim_left_while];
      change (isSpace LBRACK) with false; cbv iota.
    - rewrite !app_comm_cons. change [RBRACK; RBRACK] with ([RBRACK] ++ [RBRACK]). rewrite app_assoc, trim_right_while_snoc. done.
    - by rewrite !app_comm_cons, trim_right_while_snoc. }
  assert (∀ k u v (s : bytes), length u = k → length v = k → slice (u ++ s ++ v) k (length (u ++ s ++ v) - k) = s) as Hs.
  { intros k u v s <- Hv. unfold slice. rewrite !length_app, Hv, drop_app_length.
    replace (length u + (length s + length u) - length u - length u) with (length s) by lia. apply take_app_length. }
  cbv zeta. unfold header_text. destruct array; cbn [opening closing].
  - rewrite Hs by done. rewrite Ht. rewrite !length_app. cbn [length]. by destruct (Nat.leb_spec 4 (2 + (length (path_text ws) + 2))); [|lia].
  - rewrite Hs by done. rewrite Ht. rewrite !length_app. cbn [length]. by destruct (Nat.leb_spec 2 (1 + (length (path_text ws) + 1))); [|lia].
Qed.

(** Unfold the sequencing of the decoder's effects. *)
Ltac run_m := unfold mbind, M_bind, get, modify, mret, M_ret; cbv beta iota zeta.

(** Evaluate the tests between byte constants. *)
Ltac eval_eqb :=
  repeat match goal with
  | |- context [Z.eqb ?a ?b] =>
      let v := eval vm_compute in (Z.eqb a b) in
      match v with true => idtac | false => idtac end; change (Z.eqb a b) with v
  end; cbn [negb andb orb]; cbv iota.

Section read.
Context {K : ScanKernels} (d0 : Decoder) (Hbuf : Forall is_byte (buf d0)).

(** [d0] gives the source, the limits and what reading does not change. *)
Definition conf (o : nat) (m : mode) (cs : list Z) (sc : tokenScalar) : Decoder :=
  MkDecoder (buf d0) o (decodeStart d0) (line d0) (col d0) None (decoded d0)
    (m_expecting m) (m_noNewline m) (m_separator m) (m_lineEnd m) (m_lineStart m) (limits d0)
    (count (Z.eqb containerArray) cs) (count (Z.eqb containerInline) cs) cs
    (localAsUTC d0) (copyStrings d0) (tokenLine d0) (tokenCol d0) sc false.

Arguments conf : simpl never.

(** What is left of the source at an offset. *)
Definition at_ (o : nat) (w : bytes) : Prop := drop o (buf d0) = w ∧ o ≤ length (buf d0).

Lemma at_app o u w : at_ o (u ++ w) → at_ (o + length u) w ∧ slice (buf d0) o (o + length u) = u.
Proof using Type.
  intros [H Ho]. split.
  - split; [by rewrite <-drop_drop, H, drop_app_length|].
    apply (f_equal length) in H. rewrite length_drop, length_app in H. lia.
  - unfold slice. rewrite H. replace (o + length u - o) with (length u) by lia. apply take_app_length.
Qed.

Lemma at_cons o c w : at_ o (c :: w) →
  o < length (buf d0) ∧ buf d0 !!! o = c ∧ at_ (o + 1) w ∧ slice (buf d0) o (o + 1) = [c].
Proof using Type.
  intros Ha. destruct (at_app o [c] w Ha) as [H1 H2]. destruct Ha as [H Ho].
  destruct (lookup_drop_cons _ _ _ _ H) as (Hl & Hc & _). done.
Qed.

Lemma at_length o w : at_ o w → length (buf d0) = o + length w.
Proof using Type. intros [<- Ho]. rewrite length_drop. lia. Qed.

Lemma at_bytes o w : at_ o w → Forall is_byte w.
Proof using Hbuf. intros [<- _]. by apply Forall_drop. Qed.

Lemma advance_conf u o m cs sc :
  u ≠ [] →
  advanceBytes u (conf o m cs sc) =
    conf (o + length u) (Mode (m_expecting m) (m_noNewline m) (m_separator m) (m_lineEnd m) false) cs sc.
Proof using Type. intros Hu. unfold advanceBytes. by destruct u. Qed.

(** ** White space *)

(** Not the start of white space. *)
Definition solid (w : bytes) : Prop :=
  match w with [] => True | c :: _ => c ≠ SP ∧ c ≠ TAB ∧ c ≠ LF ∧ c ≠ CR end.

Lemma skip_solid fuel o m cs sc w : at_ o w → solid w → skipSpaces_loop fuel (conf o m cs sc) = conf o m cs sc.
Proof using Hbuf.
  intros Ha Hs. destruct fuel as [|fuel]; [done|]. cbn [skipSpaces_loop]. change (off (conf o m cs sc)) with o.
  change (buf (conf o m cs sc)) with (buf d0). destruct (Nat.ltb_spec o (length (buf d0))); [|done].
  pose proof (at_bytes _ _ Ha) as Hb. destruct Ha as [-> _].
  rewrite SkipWhitespace_ok by done. destruct w as [|c w]; [done|]. destruct Hs as (H1 & H2 & H3 & H4). cbn [find_stop].
  replace ((c ≠b SP) && (c ≠b TAB)) with true by lia. cbn [has_prefix].
  replace (c =b CR) with false by lia. replace (c =b LF) with false by lia. done.
Qed.

Lemma skip_blanks o m cs sc b w :
  Forall (λ c, isBlank c = true) b → at_ o (b ++ w) → solid w →
  skipSpaces (conf o m cs sc) = conf (o + length b) m cs sc.
Proof using Hbuf.
  intros Hbl Ha Hs. unfold skipSpaces. destruct (decide (b = [])) as [->|Hne].
  { rewrite Nat.add_0_r. by eapply skip_solid. }
  destruct (at_app _ _ _ Ha) as [Ha' _]. pose proof (at_length _ _ Ha) as Hlen. rewrite length_app in Hlen.
  cbn [skipSpaces_loop]. change (off (conf o m cs sc)) with o. change (buf (conf o m cs sc)) with (buf d0).
  assert (0 < length b) by (destruct b; simpl; [done|lia]).
  destruct (Nat.ltb_spec o (length (buf d0))); [|lia].
  pose proof (at_bytes _ _ Ha) as Hb. destruct Ha as [-> _].
  rewrite SkipWhitespace_ok by done.
  assert (find_stop (λ c, (c ≠b SP) && (c ≠b TAB)) (b ++ w) = length b) as ->.
  { rewrite find_stop_app, (proj2 (find_stop_all _ b)).
    - rewrite decide_True by done. destruct w as [|c w]; [simpl; lia|]. destruct Hs as (H1 & H2 & _). cbn [find_stop].
      replace ((c ≠b SP) && (c ≠b TAB)) with true by lia. lia.
    - eapply Forall_impl; [exact Hbl|]. intros c Hc. cbv beta in *. unfold isBlank in Hc. lia. }
  destruct (Nat.ltb_spec 0 (length b)); [|lia]. rewrite take_app_length, advance_conf by done.
  cbn [atLineStart conf]. destruct m as [e vn ns nl als]. cbn [m_lineStart m_expecting m_noNewline m_separator m_lineEnd].
  destruct als; [exact (skip_solid _ _ (Mode e vn ns nl true) _ _ _ Ha' Hs)|by eapply skip_solid].
Qed.

(** Line feeds end the line and start a new one. *)
Lemma skip_lines n : ∀ fuel o m cs sc w,
  n < fuel → m_noNewline m = false → at_ o (repeat LF n ++ w) → solid w →
  skipSpaces_loop fuel (conf o m cs sc) =
    conf (o + n) (if n =? 0 then m else Mode (m_expecting m) false (m_separator m) false true) cs sc.
Proof using Hbuf.
  induction n as [|n IH]; intros fuel o m cs sc w Hf Hm Ha Hs.
  { rewrite Nat.add_0_r. by eapply skip_solid. }
  destruct fuel as [|fuel]; [lia|]. cbn [skipSpaces_loop]. change (off (conf o m cs sc)) with o.
  change (buf (conf o m cs sc)) with (buf d0). cbn [repeat app] in Ha.
  destruct (at_cons _ _ _ Ha) as (Ho & _ & Ha' & _). destruct (Nat.ltb_spec o (length (buf d0))); [|lia].
  pose proof (at_bytes _ _ Ha) as Hb. destruct Ha as [-> _].
  rewrite SkipWhitespace_ok by done. cbn [find_stop has_prefix].
  replace ((LF ≠b SP) && (LF ≠b TAB)) with true by done. cbn [Nat.ltb Nat.leb andb].
  change (LF =b CR) with false. change (LF =b LF) with true. cbn [andb].
  change (valueNoNewline (conf o m cs sc)) with (m_noNewline m). rewrite Hm. cbn [take]. rewrite take_0.
  rewrite advance_conf by done. change (length [LF]) with 1.
  change (set_needLineEnd false (set_atLineStart true (conf (o + 1) ?m' cs sc))) with
    (conf (o + 1) (Mode (m_expecting m') (m_noNewline m') (m_separator m') false true) cs sc).
  cbn [m_expecting m_noNewline m_separator].
  rewrite (IH fuel _ _ _ _ w) by (done || lia). cbn [m_expecting m_separator].
  replace (o + 1 + n) with (o + S n) by lia. rewrite Hm. by destruct n.
Qed.

(** ** One call of [readToken] *)

Lemma M_bind_ok {A B} (c : M A) (f : A → M B) d a d' : c d = (Ok a, d') → M_bind A B f c d = f a d'.
Proof using Type. intros H. unfold M_bind. by rewrite H. Qed.

Lemma readToken_loop_S fuel d :
  readToken_loop (S fuel) d =
    match readTokenStep d with
    | (Ok (Some tok), d) => (Ok tok, d)
    | (Ok None, d) => readToken_loop fuel d
    | (Err e, d) => (Err e, d)
    end.
Proof using Type. done. Qed.

Lemma readToken_step o m cs sc o' m' :
  o < length (buf d0) → skipSpaces (conf o m cs sc) = conf o' m' cs sc →
  readToken (conf o m cs sc) =
    match readTokenAt (conf o' m' cs sc) with
    | (Ok (Some tok), d) => (Ok tok, d)
    | (Ok None, d) => readToken_loop (S (length (buf d0) - o)) d
    | (Err e, d) => (Err e, d)
    end.
Proof using Type.
  intros Ho Hs. unfold readToken. change (err (conf o m cs sc)) with (@None error). cbv iota.
  change (buf (conf o m cs sc)) with (buf d0). change (off (conf o m cs sc)) with o.
  rewrite readToken_loop_S. unfold readTokenStep. run_m.
  change (buf (conf o m cs sc)) with (buf d0). change (off (conf o m cs sc)) with o.
  destruct (Nat.leb_spec (length (buf d0)) o); [lia|]. by rewrite Hs.
Qed.

(** Where no line has to end, and but for a header at the start of one, a token
    is chosen by its first byte. *)
Lemma readTokenAt_dispatch o m cs sc c w :
  at_ o (c :: w) → m_lineEnd m = false → (m_lineStart m = true → c ≠ LBRACK) →
  readTokenAt (conf o m cs sc) = dispatch (conf o m cs sc).
Proof using Type.
  intros Ha He Hs. destruct (at_cons _ _ _ Ha) as (Ho & Hc & _). unfold readTokenAt. run_m.
  change (buf (conf o m cs sc)) with (buf d0). change (off (conf o m cs sc)) with o.
  destruct (Nat.leb_spec (length (buf d0)) o); [lia|].
  change (needLineEnd (conf o m cs sc)) with (m_lineEnd m). change (atLineStart (conf o m cs sc)) with (m_lineStart m).
  rewrite He. destruct (m_lineStart m); [|done]. specialize (Hs eq_refl). rewrite Hc. cbn [andb].
  replace (c =b LBRACK) with false by lia. rewrite andb_false_r.
  assert (matchPrefix (conf o m cs sc) [LBRACK; LBRACK] = false) as ->; [|by rewrite andb_false_r].
  unfold matchPrefix. change (buf (conf o m cs sc)) with (buf d0). change (off (conf o m cs sc)) with o.
  destruct Ha as [-> _]. cbn [length Nat.eqb has_prefix]. replace (c =b LBRACK) with false by lia. cbn [andb]. by case_match.
Qed.

(** The token that starts after some blanks. *)
Lemma readToken_blanks b o m cs sc c w tok d :
  Forall (λ c, isBlank c = true) b → at_ o (b ++ c :: w) → solid (c :: w) → m_lineEnd m = false → (m_lineStart m = true → c ≠ LBRACK) →
  dispatch (conf (o + length b) m cs sc) = (Ok (Some tok), d) →
  readToken (conf o m cs sc) = (Ok tok, d).
Proof using Hbuf.
  intros Hb Ha Hs He Hls Hd. pose proof (at_length _ _ Ha) as Hl. rewrite length_app in Hl. cbn [length] in Hl.
  assert (o < length (buf d0)) as Ho by lia. rewrite (readToken_step _ _ _ _ _ _ Ho (skip_blanks _ _ _ _ _ _ Hb Ha Hs)).
  destruct (at_app _ _ _ Ha) as [Ha' _]. by rewrite (readTokenAt_dispatch _ _ _ _ _ _ Ha' He Hls), Hd.
Qed.

(** A comma where a separator is due is passed over. *)
Lemma readToken_comma o m cs sc w :
  at_ o (COMMA :: w) → m_separator m = true → m_lineEnd m = false → m_lineStart m = false →
  readToken (conf o m cs sc) =
  readToken (conf (o + 1) (Mode (inArray cs) (m_noNewline m) false false false) cs sc).
Proof using Hbuf.
  intros Ha Hsep He Hls. destruct (at_cons _ _ _ Ha) as (Ho & Hc & Ha' & Hsl).
  assert (skipSpaces (conf o m cs sc) = conf o m cs sc) as Hskip.
  { unfold skipSpaces. eapply skip_solid; [exact Ha|done]. }
  rewrite (readToken_step _ _ _ _ _ _ Ho Hskip), (readTokenAt_dispatch _ _ _ _ _ _ Ha He ltac:(congruence)).
  unfold dispatch. unfold get, mbind, M_bind at 1. cbv beta iota zeta.
  change (buf (conf o m cs sc)) with (buf d0). change (off (conf o m cs sc)) with o. rewrite Hc. eval_eqb. change (needSeparator (conf o m cs sc)) with (m_separator m). rewrite Hsep. cbn [negb]. run_m.
  change (advanceOne (conf o m cs sc)) with (advanceBytes (slice (buf d0) o (o + 1)) (conf o m cs sc)).
  rewrite Hsl, advance_conf by done. change (length [COMMA]) with 1. unfold readToken. cbn [err conf].
  change (buf (conf (o + 1) ?m' cs sc)) with (buf d0). change (off (conf (o + 1) ?m' cs sc)) with (o + 1).
  replace (S (S (length (buf d0) - (o + 1)))) with (S (length (buf d0) - o)) by lia.
  f_equal. unfold conf. cbn. by rewrite He.
Qed.

(** ** Brackets *)

Lemma one_token (kind : TokenKind) (o : nat) (m m' : mode) (cs cs' : list Z) sc c w (f : Decoder → Decoder) :
  at_ o (c :: w) →
  f (conf (o + 1) (Mode (m_expecting m) (m_noNewline m) (m_separator m) (m_lineEnd m) false) cs noScalar) = conf (o + 1) m' cs' noScalar →
  (tok ← makeToken kind (slice (buf d0) o (o + 1)) o noScalar; _ ← modify advanceOne; _ ← modify f; mret tok) (conf o m cs sc) =
    (Ok (RawToken kind [c] o), conf (o + 1) m' cs' noScalar).
Proof using Type.
  intros Ha Hf. destruct (at_cons _ _ _ Ha) as (_ & _ & _ & Hsl). rewrite Hsl. unfold makeToken. run_m.
  change (set_tokScalar noScalar (conf o m cs sc)) with (conf o m cs noScalar).
  change (trackTokenPositions (conf o m cs noScalar)) with false. cbv iota.
  change (advanceOne (conf o m cs noScalar)) with (advanceBytes (slice (buf d0) o (o + 1)) (conf o m cs noScalar)).
  rewrite Hsl, advance_conf by done. change (length [c]) with 1. by rewrite Hf.
Qed.

Lemma dispatch_first (c : Z) o m cs sc w :
  at_ o (c :: w) → dispatch (conf o m cs sc) =
    (if c =b LBRACK then
       if inArray cs && negb (m_expecting m) then syntaxError "expected comma" o else some_token scanArrayStart
     else if c =b LBRACE then
       if inArray cs && negb (m_expecting m) then syntaxError "expected comma" o else some_token scanInlineTableStart
     else if c =b RBRACK then some_token scanArrayEnd
     else if c =b RBRACE then some_token scanInlineTableEnd
     else if c =b HASH then some_token scanComment
     else if c =b EQUALS then syntaxError "unexpected equals" o
     else if c =b COMMA then
       if negb (m_separator m) then syntaxError "unexpected comma" o
       else _ ← modify advanceOne; _ ← modify (set_needSeparator false);
            _ ← modify (λ d, set_expectingValue (innermostIsArray d) d); mret None
     else if m_expecting m then
       if m_separator m && inArray cs then syntaxError "expected array separator" o else some_token scanValueToken
     else if m_separator m && (0 <? length cs) then syntaxError "expected inline table separator" o
     else some_token scanKeyToken) (conf o m cs sc).
Proof using Type.
  intros Ha. destruct (at_cons _ _ _ Ha) as (_ & Hc & _). unfold dispatch. unfold get, mbind, M_bind at 1.
  cbv beta iota zeta. change (buf (conf o m cs sc)) with (buf d0). change (off (conf o m cs sc)) with o. by rewrite Hc.
Qed.

Lemma array_start o vn cs sc w :
  at_ o (LBRACK :: w) → (Z.of_nat (S (count (Z.eqb containerArray) cs)) ≤ MaxNestedDepth (limits d0))%Z →
  dispatch (conf o (wantValue vn) cs sc) =
    (Ok (Some (RawToken TokenKindArrayStart [LBRACK] o)), conf (o + 1) (wantValue false) (containerArray :: cs) noScalar).
Proof using Type.
  intros Ha Hd. rewrite (dispatch_first _ _ _ _ _ _ Ha). eval_eqb. cbn [m_expecting wantValue negb]. rewrite andb_false_r.
  unfold some_token, mbind, M_bind at 1. unfold scanArrayStart. unfold get, mbind, M_bind at 1. cbv beta iota zeta.
  change (off (conf ?o' ?m' cs sc)) with o'. change (buf (conf ?o' ?m' cs sc)) with (buf d0).
  erewrite (one_token _ o (wantValue vn) (wantValue false) cs (containerArray :: cs) sc LBRACK w
    (λ d, (λ d, set_needSeparator false (set_valueNoNewline false (set_expectingValue true d)))
       ((λ d, set_containerStack (containerArray :: containerStack d) d) ((λ d, enforceNestedDepth o (arrayDepth d) d)
         ((λ d, set_arrayDepth (arrayDepth d + 1) d) d)))) Ha); [done|].
  cbv beta. change (set_arrayDepth ?n (conf (o + 1) ?m' cs noScalar)) with (set_arrayDepth n (conf (o + 1) m' cs noScalar)).
  unfold enforceNestedDepth. cbn [arrayDepth limits set_arrayDepth conf].
  change (limits (conf (o + 1) ?m' cs noScalar)) with (limits d0).
  change (arrayDepth (conf (o + 1) ?m' cs noScalar)) with (count (Z.eqb containerArray) cs).
  replace (MaxNestedDepth (limits d0) <b Z.of_nat (count (Z.eqb containerArray) cs + 1)) with false by lia.
  rewrite andb_false_r, (Nat.add_comm _ 1). done.
Qed.

Lemma inline_start o vn cs sc w :
  at_ o (LBRACE :: w) →
  dispatch (conf o (wantValue vn) cs sc) =
    (Ok (Some (RawToken TokenKindInlineTableStart [LBRACE] o)), conf (o + 1) wantKey (containerInline :: cs) noScalar).
Proof using Type.
  intros Ha. rewrite (dispatch_first _ _ _ _ _ _ Ha). eval_eqb. cbn [m_expecting wantValue negb]. rewrite andb_false_r.
  unfold some_token, mbind, M_bind at 1. unfold scanInlineTableStart. unfold get, mbind, M_bind at 1. cbv beta iota zeta.
  change (off (conf ?o' ?m' cs sc)) with o'. change (buf (conf ?o' ?m' cs sc)) with (buf d0).
  erewrite (one_token _ o (wantValue vn) wantKey cs (containerInline :: cs) sc LBRACE w
    (λ d, (λ d, set_needSeparator false (set_valueNoNewline false (set_expectingValue false d)))
       ((λ d, set_containerStack (containerInline :: containerStack d) d)
         ((λ d, set_inlineDepth (inlineDepth d + 1) d) d))) Ha); [done|].
  change (inlineDepth (conf (o + 1) ?m' cs noScalar)) with (count (Z.eqb containerInline) cs). rewrite (Nat.add_comm _ 1). done.
Qed.

Lemma array_end o m cs sc w :
  at_ o (RBRACK :: w) → m_lineEnd m = false →
  dispatch (conf o m (containerArray :: cs) sc) =
    (Ok (Some (RawToken TokenKindArrayEnd [RBRACK] o)), conf (o + 1) (after cs) cs noScalar).
Proof using Type.
  intros Ha He. rewrite (dispatch_first _ _ _ _ _ _ Ha). eval_eqb.
  unfold some_token, mbind, M_bind at 1. unfold scanArrayEnd. unfold get, mbind, M_bind at 1. cbv beta iota zeta.
  change (off (conf o m ?cs' sc)) with o. change (buf (conf o m ?cs' sc)) with (buf d0).
  erewrite (one_token _ o m (after cs) (containerArray :: cs) cs sc RBRACK w
    (λ d, afterContainer (popContainer containerArray ((λ d, set_arrayDepth (arrayDepth d - 1) d) d))) Ha); [done|].
  unfold popContainer, conf. cbn. eval_eqb. cbn. rewrite Nat.sub_0_r. done.
Qed.

Lemma inline_end o m cs sc w :
  at_ o (RBRACE :: w) → m_lineEnd m = false →
  dispatch (conf o m (containerInline :: cs) sc) =
    (Ok (Some (RawToken TokenKindInlineTableEnd [RBRACE] o)), conf (o + 1) (after cs) cs noScalar).
Proof using Type.
  intros Ha He. rewrite (dispatch_first _ _ _ _ _ _ Ha). eval_eqb.
  unfold some_token, mbind, M_bind at 1. unfold scanInlineTableEnd. unfold get, mbind, M_bind at 1. cbv beta iota zeta.
  change (off (conf o m ?cs' sc)) with o. change (buf (conf o m ?cs' sc)) with (buf d0).
  erewrite (one_token _ o m (after cs) (containerInline :: cs) cs sc RBRACE w
    (λ d, afterContainer (popContainer containerInline ((λ d, set_inlineDepth (inlineDepth d - 1) d) d))) Ha); [done|].
  unfold popContainer, conf. cbn. eval_eqb. cbn. rewrite Nat.sub_0_r. done.
Qed.

(** ** Scalar values *)

Lemma value_token kind chunk o vn cs sc scalar :
  chunk ≠ [] →
  (tok ← makeToken kind chunk o scalar; _ ← modify (advanceBytes chunk); _ ← modify afterValue; mret tok)
    (conf o (wantValue vn) cs sc) =
  (Ok (RawToken kind chunk o), conf (o + length chunk) (after cs) cs scalar).
Proof using Type.
  intros Hne. unfold makeToken. run_m. change (set_tokScalar scalar (conf o ?m cs sc)) with (conf o m cs scalar).
  change (trackTokenPositions (conf o ?m cs scalar)) with false. cbv iota. rewrite advance_conf by done.
  f_equal. unfold afterValue. change (innermostIsArray (set_valueNoNewline false (set_expectingValue false (conf ?o' ?m cs scalar)))) with (inArray cs).
  unfold after. destruct (inArray cs); done.
Qed.

Lemma validate_text w s : Forall is_byte w → basic_text w s → validateStringValue w = Ok tt.
Proof using Type.
  intros Hb Ht. rewrite validateStringValue_parse_value by done.
  by rewrite (parseStringValue_complete w s) by (done || by apply basic_text_value).
Qed.

(** The loop of [scanString] over the body. *)
Lemma scanBasic_body body : scan_body body → ∀ fuel o i d rest,
  buf d = buf d0 → at_ i (body ++ DQUOTE :: rest) → length body < fuel →
  scanBasic fuel o i d = (let! _ := validateStringValue (slice (buf d) o (i + length body + 1)) in Ok (i + length body + 1), d).
Proof using Hbuf.
  induction 1 as [|c s Hc Hs IH|e s Hs IH]; intros fuel o i d rest Hd Ha Hf;
    (destruct fuel as [|fuel]; [simpl in Hf; lia|]); destruct (at_cons _ _ _ Ha) as (Hi & Hci & Ha' & _);
    pose proof (at_bytes _ _ Ha) as Hby.
  - cbn [scanBasic]. rewrite Hd. destruct (Nat.ltb_spec i (length (buf d0))); [|lia]. destruct Ha as [-> _].
    rewrite ScanBasicStringStrict_ok by done. cbn [app find_stop]. change (basicStringStrictStop DQUOTE) with true. cbv iota.
    rewrite Nat.add_0_r. destruct (Nat.leb_spec (length (buf d0)) i); [lia|]. rewrite Hci. eval_eqb.
    by replace (i + length [] + 1) with (i + 1) by (simpl; lia).
  - change (at_ (i + 1) (s ++ DQUOTE :: rest)) in Ha'. specialize (IH (S fuel) o (i + 1) d rest Hd Ha' ltac:(simpl in Hf; lia)).
    replace (i + length (c :: s) + 1) with (i + 1 + length s + 1) by (simpl; lia). rewrite <-IH. clear IH.
    cbn [scanBasic]. rewrite Hd. pose proof (at_length _ _ Ha') as Hl. rewrite length_app in Hl. cbn [length] in Hl.
    destruct (Nat.ltb_spec i (length (buf d0))); [|lia]. destruct (Nat.ltb_spec (i + 1) (length (buf d0))); [|lia].
    pose proof (at_bytes _ _ Ha') as Hby'. destruct Ha as [-> _]. destruct Ha' as [-> _].
    rewrite !ScanBasicStringStrict_ok by done. cbn [app find_stop]. rewrite Hc.
    by replace (i + S (find_stop basicStringStrictStop (s ++ DQUOTE :: rest)))
      with (i + 1 + find_stop basicStringStrictStop (s ++ DQUOTE :: rest)) by lia.
  - destruct (at_cons _ _ _ Ha') as (Hi' & _ & Ha'' & _).
    specialize (IH fuel o (i + 1 + 1) d rest Hd Ha'' ltac:(simpl in Hf; lia)).
    replace (i + length (BSLASH :: e :: s) + 1) with (i + 1 + 1 + length s + 1) by (simpl; lia). rewrite <-IH. clear IH.
    cbn [scanBasic]. rewrite Hd. destruct (Nat.ltb_spec i (length (buf d0))); [|lia]. destruct Ha as [-> _].
    rewrite ScanBasicStringStrict_ok by done. cbn [app find_stop]. change (basicStringStrictStop BSLASH) with true. cbv iota.
    rewrite Nat.add_0_r. destruct (Nat.leb_spec (length (buf d0)) i); [lia|]. rewrite Hci. eval_eqb.
    destruct (Nat.leb_spec (length (buf d0)) (i + 1)); [lia|]. by replace (i + 1 + 1) with (i + 2) by lia.
Qed.

Lemma string_token w s o vn cs sc rest :
  basic_text w s → at_ o (w ++ rest) → head rest ≠ Some DQUOTE →
  (Z.of_nat (length w) ≤ MaxStringLength (limits d0))%Z →
  dispatch (conf o (wantValue vn) cs sc) =
    (Ok (Some (RawToken TokenKindValueString w o)), conf (o + length w) (after cs) cs noScalar).
Proof using Hbuf.
  intros Ht Ha Hr Hmax. pose proof Ht as (body & -> & Hb & Hs).
  assert (Forall is_byte (paired DQUOTE body)) as Hby.
  { apply at_bytes in Ha. by apply Forall_app in Ha as [? _]. }
  destruct (at_app _ _ _ Ha) as [_ Hsl].
  assert (at_ o (DQUOTE :: body ++ DQUOTE :: rest)) as Ha1
    by (unfold paired in Ha; cbn [app] in Ha; by rewrite <-app_assoc in Ha).
  destruct (at_cons _ _ _ Ha1) as (Ho & Hc & Ha2 & _).
  rewrite (dispatch_first _ _ _ _ _ _ Ha1). eval_eqb. cbn [m_expecting m_separator wantValue andb].
  unfold some_token, mbind, M_bind at 1. unfold scanValueToken. unfold get, mbind, M_bind at 1. cbv beta iota zeta.
  change (off (conf ?o' ?m' cs sc)) with o'. change (buf (conf ?o' ?m' cs sc)) with (buf d0). rewrite Hc. eval_eqb.
  assert (scanString o (conf o (wantValue vn) cs sc) = (Ok (o + length (paired DQUOTE body), TokenKindValueString), conf o (wantValue vn) cs sc)) as Hscan.
  { unfold scanString. unfold get, mbind, M_bind. cbv beta iota zeta. change (buf (conf o ?m' cs sc)) with (buf d0).
    pose proof (at_length _ _ Ha1) as Hlen. cbn [length] in Hlen. rewrite length_app in Hlen. cbn [length] in Hlen.
    assert (hasBytePrefix (drop o (buf d0)) [DQUOTE; DQUOTE; DQUOTE] = false) as ->.
    { destruct Ha1 as [-> _]. unfold hasBytePrefix. apply not_true_iff_false. rewrite has_prefix_spec. intros [t E].
      cbn [app] in E. injection E as E. destruct Hb as [|c b Hc' Hb|e b Hb]; cbn [app] in E; injection E as E.
      - subst rest. done.
      - by subst c.
      - done. }
    assert (hasBytePrefix (drop o (buf d0)) [SQUOTE; SQUOTE; SQUOTE] = false) as ->.
    { destruct Ha1 as [-> _]. unfold hasBytePrefix. apply not_true_iff_false. rewrite has_prefix_spec. by intros [t [=]]. }
    rewrite Hc. eval_eqb.
    rewrite (scanBasic_body body Hb _ _ _ (conf o (wantValue vn) cs sc) rest eq_refl Ha2) by lia. change (buf (conf o ?m' cs sc)) with (buf d0).
    replace (o + 1 + length body + 1) with (o + length (paired DQUOTE body)) by (rewrite length_paired; lia).
    rewrite Hsl, (validate_text _ s) by done. done. }
  rewrite (M_bind_ok _ _ _ _ _ Hscan). cbv beta iota. rewrite Hsl. change (limits (conf o ?m' cs sc)) with (limits d0).
  replace (MaxStringLength (limits d0) <b Z.of_nat (length (paired DQUOTE body))) with false by lia.
  pose proof (value_token TokenKindValueString (paired DQUOTE body) o vn cs sc noScalar ltac:(done)) as Hv.
  unfold mbind in Hv. by rewrite Hv.
Qed.

(** A date is not continued by the blank that follows it. *)
Lemma bare_end w rest :
  bare_text w → Forall is_byte (w ++ rest) → value_end rest →
  is_ok (parseDateTimeValue (w ++ [SP])) = false →
  scanBareValueEnd (w ++ rest) = length w.
Proof using Type.
  intros [Hw Hne] Hb Hr Hd.
  assert (∃ c t, rest = c :: t ∧ bareValueDelimiter c = true ∧ (c = SP → head t = Some RBRACE)) as (c & t & -> & Hc & Hsp).
  { destruct rest as [|c t]; [done|]. exists c, t. split; [done|]. cbn in Hr. unfold bareValueDelimiter.
    destruct Hr as [->|[->|[->|[-> ?]]]]; done. }
  assert (ScanBareValueEnd (w ++ c :: t) = length w) as He.
  { rewrite ScanBareValueEnd_ok by done. rewrite find_stop_app, (proj2 (find_stop_all _ w) Hw), decide_True by done.
    cbn [find_stop]. rewrite Hc. lia. }
  unfold scanBareValueEnd. rewrite He. destruct (length w =? 10) eqn:E10; [|done]. cbn [negb orb].
  apply Nat.eqb_eq in E10. rewrite length_app. cbn [length]. destruct (Nat.leb_spec (length w + S (length t)) (length w)); [lia|].
  rewrite (lookup_total_at (w ++ c :: t) w t c (length w)) by done. cbn [orb].
  destruct (c =b SP) eqn:Ec; [|done]. cbn [negb]. assert (c = SP) as -> by lia.
  replace (drop (length w + 1) (w ++ SP :: t)) with t
    by (rewrite <-drop_drop, drop_app_length; done).
  apply Forall_app in Hb as [_ [_ Hb]%Forall_cons].
  rewrite ScanBareValueEnd_ok by done. destruct t as [|c' t]; [by specialize (Hsp eq_refl)|].
  specialize (Hsp eq_refl). cbn in Hsp. injection Hsp as ->. cbn [find_stop]. change (bareValueDelimiter RBRACE) with true.
  cbv iota. rewrite Nat.add_0_r, slice_take.
  replace (take (length w + 1) (w ++ SP :: RBRACE :: t)) with (w ++ [SP]); [by rewrite Hd|].
  by rewrite take_app_add.
Qed.

Lemma bare_token w kind scalar o vn cs sc rest :
  bare_text w → at_ o (w ++ rest) → scanBareValueEnd (w ++ rest) = length w →
  classifyBareValue w = (kind, scalar, ""%string) →
  dispatch (conf o (wantValue vn) cs sc) =
    (Ok (Some (RawToken kind w o)), conf (o + length w) (after cs) cs scalar).
Proof using Type.
  intros [Hw Hne] Ha He Hc. destruct (at_app _ _ _ Ha) as [_ Hsl].
  destruct w as [|c w]; [done|]. apply Forall_cons in Hw as [Hd _]. destruct Hne as (N1 & N2 & N3 & N4).
  cbn [app] in Ha. destruct (at_cons _ _ _ Ha) as (Ho & Hch & _). unfold bareValueDelimiter in Hd.
  rewrite (dispatch_first _ _ _ _ _ _ Ha).
  replace (c =b LBRACK) with false by lia. replace (c =b LBRACE) with false by lia. replace (c =b RBRACK) with false by lia.
  replace (c =b RBRACE) with false by lia. replace (c =b HASH) with false by lia. replace (c =b EQUALS) with false by lia.
  replace (c =b COMMA) with false by lia. cbn [m_expecting m_separator wantValue andb].
  unfold some_token, mbind, M_bind at 1. unfold scanValueToken. unfold get, mbind, M_bind at 1. cbv beta iota zeta.
  change (off (conf ?o' ?m' cs sc)) with o'. change (buf (conf ?o' ?m' cs sc)) with (buf d0). rewrite Hch.
  replace (c =b DQUOTE) with false by lia. replace (c =b SQUOTE) with false by lia. cbn [orb].
  replace (c =b LBRACK) with false by lia. replace (c =b LBRACE) with false by lia. replace (c =b RBRACK) with false by lia.
  replace (c =b RBRACE) with false by lia. replace (c =b HASH) with false by lia.
  destruct Ha as [-> _]. cbn [app] in He. rewrite He. cbn [length Nat.eqb].
  replace (S (length w) + o) with (o + length (c :: w)) by (simpl; lia). rewrite Hsl. cbn [length Nat.eqb]. rewrite Hc.
  cbn [String.eqb negb]. pose proof (value_token kind (c :: w) o vn cs sc scalar ltac:(done)) as Hv.
  unfold mbind in Hv. by rewrite Hv.
Qed.

(** ** Keys *)

Lemma key_text_parse w k : Forall is_byte w → key_text w k → parseDottedKey w = Ok [k].
Proof using Type.
  intros Hb Hk. apply parseDottedKey_ok; [done|]. rewrite (key_text_trim w k) by done.
  pose proof (dotted_one [] w [] k) as Hd. cbn [app] in Hd. rewrite app_nil_r in Hd.
  apply Hd; [done|by apply key_text_segment|done].
Qed.

Lemma strict_not_newline c : basicStringStrictStop c = false → (c =b LF) || (c =b CR) = false ∧ basicStringStop c = false.
Proof using Type. unfold basicStringStrictStop, basicStringStop. lia. Qed.

Lemma find_stop_quote (s rest : bytes) :
  let t := s ++ DQUOTE :: rest in
  find_stop basicStringStop t < length t ∧ basicStringStop (t !!! find_stop basicStringStop t) = true.
Proof using Type.
  cbv zeta. assert (find_stop basicStringStop (s ++ DQUOTE :: rest) < length (s ++ DQUOTE :: rest)) as Hlt.
  { rewrite find_stop_app, length_app. cbn [length find_stop]. change (basicStringStop DQUOTE) with true. cbv iota.
    pose proof (find_stop_le basicStringStop s). case_decide; lia. }
  split; [done|]. eapply find_stop_lookup. by apply lookup_total_lt.
Qed.

Lemma scanQuoted_body body : scan_body body → ∀ fuel o i d rest,
  buf d = buf d0 → at_ i (body ++ DQUOTE :: rest) → length body < fuel →
  scanQuoted_loop fuel DQUOTE o i d =
    (let! _ := validateStringValue (slice (buf d) o (i + length body + 1)) in Ok (i + length body + 1), d).
Proof using Hbuf.
  induction 1 as [|c s Hc Hs IH|e s Hs IH]; intros fuel o i d rest Hd Ha Hf;
    (destruct fuel as [|fuel]; [simpl in Hf; lia|]); destruct (at_cons _ _ _ Ha) as (Hi & Hci & Ha' & _);
    pose proof (at_bytes _ _ Ha) as Hby; pose proof (at_length _ _ Ha) as Hl.
  - cbn [scanQuoted_loop]. rewrite Hd. destruct (Nat.ltb_spec i (length (buf d0))); [|lia]. eval_eqb.
    destruct Ha as [-> _]. rewrite ScanBasicString_ok by done. cbn [app find_stop]. change (basicStringStop DQUOTE) with true.
    cbv iota. unfold hasNewlineBefore. cbn [take existsb length Nat.leb]. rewrite Nat.add_0_r, Hci. eval_eqb.
    by replace (i + 0 + 1) with (i + 1) by lia.
  - change (at_ (i + 1) (s ++ DQUOTE :: rest)) in Ha'. specialize (IH (S fuel) o (i + 1) d rest Hd Ha' ltac:(simpl in Hf; lia)).
    replace (i + length (c :: s) + 1) with (i + 1 + length s + 1) by (simpl; lia). rewrite <-IH. clear IH.
    cbn [scanQuoted_loop]. rewrite Hd. pose proof (at_length _ _ Ha') as Hl'. rewrite length_app in Hl'. cbn [length] in Hl'.
    destruct (Nat.ltb_spec i (length (buf d0))); [|lia]. destruct (Nat.ltb_spec (i + 1) (length (buf d0))); [|lia].
    pose proof (at_bytes _ _ Ha') as Hby'. destruct Ha as [-> _]. pose proof (proj1 Ha') as Hdrop. rewrite Hdrop. eval_eqb.
    apply strict_not_newline in Hc as [Hn Hc]. rewrite !ScanBasicString_ok by done.
    change ((c :: s) ++ DQUOTE :: rest) with (c :: s ++ DQUOTE :: rest). cbn [find_stop]. rewrite Hc.
    unfold hasNewlineBefore. cbn [take existsb length Nat.leb]. rewrite Hn. cbn [orb].
    set (n := find_stop basicStringStop (s ++ DQUOTE :: rest)). replace (i + S n) with (i + 1 + n) by lia.
    assert (buf d0 !!! (i + 1 + n) = BSLASH ∨ buf d0 !!! (i + 1 + n) = DQUOTE) as [->| ->]; [|done..].
    pose proof (find_stop_quote s rest) as [Hn1 Hn2]. fold n in Hn1, Hn2.
    assert (buf d0 !! (i + 1 + n) = Some ((s ++ DQUOTE :: rest) !!! n)) as Hx.
    { rewrite <-Hdrop, <-lookup_drop. apply lookup_total_lt. by rewrite Hdrop. }
    rewrite (list_lookup_total_correct _ _ _ Hx). unfold basicStringStop in Hn2. lia.
  - destruct (at_cons _ _ _ Ha') as (Hi' & _ & Ha'' & _).
    specialize (IH fuel o (i + 1 + 1) d rest Hd Ha'' ltac:(simpl in Hf; lia)).
    replace (i + length (BSLASH :: e :: s) + 1) with (i + 1 + 1 + length s + 1) by (simpl; lia). rewrite <-IH. clear IH.
    cbn [scanQuoted_loop]. rewrite Hd. destruct (Nat.ltb_spec i (length (buf d0))); [|lia]. eval_eqb. destruct Ha as [-> _].
    rewrite ScanBasicString_ok by done. cbn [app find_stop]. change (basicStringStop BSLASH) with true. cbv iota.
    unfold hasNewlineBefore. cbn [take existsb length Nat.leb]. rewrite Nat.add_0_r, Hci. eval_eqb.
    destruct (Nat.leb_spec (length (buf d0)) (i + 1)); [lia|]. by replace (i + 1 + 1) with (i + 2) by lia.
Qed.

Lemma scanQuoted_text w s o d rest :
  basic_text w s → buf d = buf d0 → at_ o (w ++ rest) → head rest ≠ Some DQUOTE →
  scanQuoted DQUOTE o d = (Ok (o + length w), d).
Proof using Hbuf.
  intros Ht Hd Ha Hr. pose proof Ht as (body & -> & Hb & Hs). destruct (at_app _ _ _ Ha) as [_ Hsl].
  assert (Forall is_byte (paired DQUOTE body)) as Hby by (apply at_bytes in Ha; by apply Forall_app in Ha as [? _]).
  assert (at_ o (DQUOTE :: body ++ DQUOTE :: rest)) as Ha1
    by (unfold paired in Ha; cbn [app] in Ha; by rewrite <-app_assoc in Ha).
  destruct (at_cons _ _ _ Ha1) as (Ho & _ & Ha2 & _). unfold scanQuoted. rewrite Hd.
  assert ((o + 2 <? length (buf d0)) && (buf d0 !!! (o + 1) =b DQUOTE) && (buf d0 !!! (o + 2) =b DQUOTE) = false) as ->.
  { destruct (Nat.ltb_spec (o + 2) (length (buf d0))) as [Hlt|]; [|done]. cbn [andb].
    destruct Hb as [|c b Hc Hb|e b Hb]; cbn [app] in Ha2.
    - destruct (at_cons _ _ _ Ha2) as (_ & -> & Ha3 & _). replace (o + 1 + 1) with (o + 2) in Ha3 by lia.
      destruct rest as [|c rest]; [apply at_length in Ha3; simpl in Ha3; lia|].
      destruct (at_cons _ _ _ Ha3) as (_ & -> & _). cbn in Hr. replace (c =b DQUOTE) with false; [done|].
      symmetry. apply Z.eqb_neq. congruence.
    - destruct (at_cons _ _ _ Ha2) as (_ & -> & _). unfold basicStringStrictStop in Hc.
      by replace (c =b DQUOTE) with false by lia.
    - by destruct (at_cons _ _ _ Ha2) as (_ & -> & _). }
  pose proof (at_length _ _ Ha1) as Hlen. cbn [length] in Hlen. rewrite length_app in Hlen. cbn [length] in Hlen.
  rewrite (scanQuoted_body body Hb _ _ _ _ rest Hd Ha2) by lia. rewrite Hd.
  replace (o + 1 + length body + 1) with (o + length (paired DQUOTE body)) by (rewrite length_paired; lia).
  by rewrite Hsl, (validate_text _ s) by done.
Qed.

(** The bytes of a key that the scanners of keys pass one by one. *)
Lemma bareKeyClass_plain c : bareKeyClass c = true →
  (c =b EQUALS) = false ∧ (c =b HASH) || (c =b LF) || (c =b CR) = false ∧ (c =b DQUOTE) || (c =b SQUOTE) = false ∧
  (c =b RBRACK) = false ∧ (c =b LF) || (c =b CR) = false.
Proof using Type. unfold bareKeyClass. lia. Qed.

Lemma scanKeyEnd_bare k : Forall (λ c, bareKeyClass c = true) k → ∀ fuel i d rest,
  buf d = buf d0 → at_ i (k ++ rest) → length k ≤ fuel →
  scanKeyEnd fuel i d = scanKeyEnd (fuel - length k) (i + length k) d.
Proof using Type.
  induction 1 as [|c k Hc Hk IH]; intros fuel i d rest Hd Ha Hf; [by rewrite Nat.sub_0_r, Nat.add_0_r|].
  destruct fuel as [|fuel]; [simpl in Hf; lia|]. destruct (at_cons _ _ _ Ha) as (Hi & Hci & Ha' & _).
  change (at_ (i + 1) (k ++ rest)) in Ha'. cbn [scanKeyEnd]. rewrite Hd, Hci.
  destruct (Nat.ltb_spec i (length (buf d0))); [|lia]. apply bareKeyClass_plain in Hc as (-> & -> & -> & _).
  rewrite (IH fuel _ d rest Hd Ha') by (simpl in Hf; lia). cbn [length]. f_equal. lia.
Qed.

(** The key and the blank before the equals sign. *)
Lemma scanKeyEnd_text w k fuel i d rest :
  key_text w k → buf d = buf d0 → at_ i (w ++ SP :: EQUALS :: rest) → length w + 2 ≤ fuel →
  scanKeyEnd fuel i d = (Ok (i + length w + 1), d).
Proof using Hbuf.
  intros Hk Hd Ha Hf. destruct (at_app _ _ _ Ha) as [Ha1 _].
  assert (∀ fuel, 2 ≤ fuel → scanKeyEnd fuel (i + length w) d = (Ok (i + length w + 1), d)) as Hend.
  { intros [|[|f]] Hf'; [lia|lia|]. destruct (at_cons _ _ _ Ha1) as (Hi & Hci & Ha2 & _).
    destruct (at_cons _ _ _ Ha2) as (Hi2 & Hci2 & _). cbn [scanKeyEnd]. rewrite Hd, Hci.
    destruct (Nat.ltb_spec (i + length w) (length (buf d0))); [|lia]. eval_eqb. rewrite Hci2.
    destruct (Nat.ltb_spec (i + length w + 1) (length (buf d0))); [|lia]. by eval_eqb. }
  destruct Hk as [(-> & Hne & Hk)|Ht].
  - rewrite (scanKeyEnd_bare k Hk _ _ _ _ Hd Ha) by lia. apply Hend. lia.
  - pose proof Ht as (body & E & _). destruct fuel as [|fuel]; [lia|].
    assert (at_ i (DQUOTE :: body ++ [DQUOTE] ++ SP :: EQUALS :: rest)) as Ha'
      by (rewrite E in Ha; unfold paired in Ha; cbn [app] in Ha; by rewrite <-app_assoc in Ha).
    destruct (at_cons _ _ _ Ha') as (Hi & Hci & _). cbn [scanKeyEnd]. rewrite Hd, Hci.
    destruct (Nat.ltb_spec i (length (buf d0))); [|lia]. eval_eqb.
    rewrite (scanQuoted_text w k i d _ Ht Hd Ha) by done. apply Hend.
    assert (0 < length w) by (rewrite E, length_paired; lia). lia.
Qed.

Lemma key_first w k : key_text w k → ∃ c t, w = c :: t ∧ solid (c :: t) ∧
  (c =b LBRACK) = false ∧ (c =b LBRACE) = false ∧ (c =b RBRACK) = false ∧ (c =b RBRACE) = false ∧
  (c =b HASH) = false ∧ (c =b EQUALS) = false ∧ (c =b COMMA) = false.
Proof using Type.
  intros (c & t & -> & Hc & _)%key_text_ends. exists c, t. split; [done|].
  unfold key_byte, bareKeyClass in Hc. unfold solid. lia.
Qed.

(** A key with its equals sign, in an inline table or at the start of a line. *)
Lemma key_token w k o m cs sc rest :
  key_text w k → at_ o (w ++ SP :: EQUALS :: rest) → (Z.of_nat (length w) ≤ MaxKeyLength (limits d0))%Z →
  m_expecting m = false → m_separator m = false →
  dispatch (conf o m cs sc) =
    (Ok (Some (RawToken TokenKindKey w o)), conf (o + length w + 2) (wantValue true) cs noScalar).
Proof using Hbuf.
  intros Hk Ha Hmax Hm1 Hm2. destruct (key_first w k Hk) as (c & t & Ew & _ & N1 & N2 & N3 & N4 & N5 & N6 & N7).
  assert (at_ o (c :: t ++ SP :: EQUALS :: rest)) as Hc by (by rewrite Ew in Ha).
  assert (Forall is_byte w) as Hby by (apply at_bytes in Ha; by apply Forall_app in Ha as [? _]).
  rewrite (dispatch_first _ _ _ _ _ _ Hc), N1, N2, N3, N4, N5, N6, N7, Hm1, Hm2. cbn [andb].
  pose proof (at_length _ _ Ha) as Hlen. rewrite length_app in Hlen. cbn [length] in Hlen.
  unfold some_token, mbind, M_bind at 1. unfold scanKeyToken. unfold get, mbind, M_bind at 1. cbv beta iota zeta.
  change (off (conf o m cs sc)) with o. change (buf (conf o m cs sc)) with (buf d0). change (limits (conf o m cs sc)) with (limits d0).
  rewrite (M_bind_ok _ _ _ _ _ (scanKeyEnd_text w k (S (length (buf d0) - o)) o (conf o m cs sc) rest Hk eq_refl Ha ltac:(lia))).
  destruct (Nat.eqb_spec (o + length w + 1) o); [lia|].
  assert (at_ o ((w ++ [SP]) ++ EQUALS :: rest)) as Ha1 by (by rewrite <-app_assoc).
  assert (at_ o ((w ++ [SP; EQUALS]) ++ rest)) as Ha1' by (by rewrite <-app_assoc).
  destruct (at_app _ _ _ Ha1) as [Ha2 Hsl]. rewrite length_app in Ha2, Hsl. cbn [length] in Ha2, Hsl.
  destruct (at_app _ _ _ Ha1') as [_ Hsl2]. rewrite length_app in Hsl2. cbn [length] in Hsl2.
  replace (o + (length w + 1)) with (o + length w + 1) in Ha2, Hsl by lia.
  replace (o + (length w + 2)) with (o + length w + 1 + 1) in Hsl2 by lia. rewrite Hsl.
  rewrite (key_text_trimRight w k Hk). rewrite (M_bind_ok _ _ _ tt (conf o m cs sc)).
  2: { destruct (isSimpleBareKey w); [done|]. cbn [negb]. by rewrite (key_text_parse w k Hby Hk). }
  replace (MaxKeyLength (limits d0) <b Z.of_nat (length w)) with false by lia.
  destruct (at_cons _ _ _ Ha2) as (Hlt & Hce & _). destruct Ha2 as [Hdr _]. rewrite Hdr. cbn [find_stop].
  change (negb (isBlank EQUALS)) with true. cbv iota. rewrite Nat.add_0_r, Hce.
  destruct (Nat.leb_spec (length (buf d0)) (o + length w + 1)); [lia|]. eval_eqb. rewrite Hsl2.
  unfold M_bind, makeToken, modify, mret, M_ret. cbv beta iota zeta.
  change (set_tokScalar noScalar (conf o m cs sc)) with (conf o m cs noScalar).
  change (trackTokenPositions (conf o m cs noScalar)) with false. cbv iota. rewrite advance_conf by (by destruct w).
  rewrite length_app. cbn [length]. replace (o + (length w + 2)) with (o + length w + 2) by lia.
  unfold conf, wantValue. cbn. by rewrite Hm2.
Qed.

(** ** Headers *)

Lemma path_text_parse ws ks : ws ≠ [] → Forall2 key_text ws ks → Forall is_byte (path_text ws) → keyPath (path_text ws) = Ok ks.
Proof using Type.
  intros Hne H Hb. rewrite keyPath_parseDottedKey by done. apply parseDottedKey_ok; [done|].
  rewrite (path_text_trim ws ks) by done. by apply path_text_dotted.
Qed.

Lemma scanHeaderEnd_bare k : Forall (λ c, bareKeyClass c = true) k → ∀ fuel i array d rest,
  buf d = buf d0 → at_ i (k ++ rest) → length k ≤ fuel →
  scanHeaderEnd fuel i array d = scanHeaderEnd (fuel - length k) (i + length k) array d.
Proof using Type.
  induction 1 as [|c k Hc Hk IH]; intros fuel i array d rest Hd Ha Hf; [by rewrite Nat.sub_0_r, Nat.add_0_r|].
  destruct fuel as [|fuel]; [simpl in Hf; lia|]. destruct (at_cons _ _ _ Ha) as (Hi & Hci & Ha' & _).
  change (at_ (i + 1) (k ++ rest)) in Ha'. cbn [scanHeaderEnd]. rewrite Hd, Hci.
  destruct (Nat.ltb_spec i (length (buf d0))); [|lia]. apply bareKeyClass_plain in Hc as (_ & _ & -> & -> & ->).
  cbn [andb]. rewrite (IH fuel _ array d rest Hd Ha') by (simpl in Hf; lia). cbn [length]. f_equal. lia.
Qed.

Lemma scanHeaderEnd_key w k fuel i array d rest :
  key_text w k → buf d = buf d0 → at_ i (w ++ rest) → head rest ≠ Some DQUOTE → length w < fuel →
  ∃ fuel', fuel - length w ≤ fuel' ∧ scanHeaderEnd fuel i array d = scanHeaderEnd fuel' (i + length w) array d.
Proof using Hbuf.
  intros [(-> & Hne & Hk)|Ht] Hd Ha Hr Hf.
  - exists (fuel - length k). split; [done|]. apply (scanHeaderEnd_bare k Hk _ _ _ _ _ Hd Ha). lia.
  - pose proof Ht as (body & E & _). destruct fuel as [|fuel]; [lia|]. exists fuel.
    assert (at_ i (DQUOTE :: body ++ [DQUOTE] ++ rest)) as Ha'
      by (rewrite E in Ha; unfold paired in Ha; cbn [app] in Ha; by rewrite <-app_assoc in Ha).
    destruct (at_cons _ _ _ Ha') as (Hi & Hci & _). split; [rewrite E, length_paired; lia|].
    cbn [scanHeaderEnd]. rewrite Hd, Hci. destruct (Nat.ltb_spec i (length (buf d0))); [|lia]. eval_eqb.
    by rewrite (scanQuoted_text w k i d _ Ht Hd Ha).
Qed.

Lemma scanHeaderEnd_path ws ks : Forall2 key_text ws ks → ws ≠ [] → ∀ fuel i array d rest,
  buf d = buf d0 → at_ i (path_text ws ++ closing array ++ rest) → length (path_text ws) < fuel →
  scanHeaderEnd fuel i array d = (Ok (i + length (path_text ws)), d).
Proof using Hbuf.
  induction 1 as [|w k ws ks Hk H IH]; [done|]. intros _ fuel i array d rest Hd Ha Hf. destruct H as [|w2 k2 ws ks Hk2 H].
  - cbn [join] in *.
    destruct (scanHeaderEnd_key w k fuel i array d (closing array ++ rest) Hk Hd Ha ltac:(by destruct array) Hf) as (f' & Hf' & ->).
    destruct f' as [|f']; [lia|]. destruct (at_app _ _ _ Ha) as [Ha' _]. cbn [scanHeaderEnd]. rewrite Hd.
    destruct array; cbn [closing app] in Ha'; destruct (at_cons _ _ _ Ha') as (Hi & -> & Ha2 & _);
      (destruct (Nat.ltb_spec (i + length w) (length (buf d0))); [|lia]); eval_eqb; [|done].
    destruct (at_cons _ _ _ Ha2) as (Hi2 & -> & _). by destruct (Nat.ltb_spec (i + length w + 1) (length (buf d0))); [|lia].
  - rewrite path_text_cons in *. rewrite <-app_assoc in Ha. cbn [app] in Ha. rewrite length_app in Hf. cbn [length] in Hf.
    destruct (scanHeaderEnd_key w k fuel i array d _ Hk Hd Ha ltac:(done) ltac:(lia)) as (f' & Hf' & ->).
    destruct f' as [|f']; [lia|]. destruct (at_app _ _ _ Ha) as [Ha' _].
    destruct (at_cons _ _ _ Ha') as (Hi & Hci & Ha2 & _). cbn [scanHeaderEnd]. rewrite Hd, Hci.
    destruct (Nat.ltb_spec (i + length w) (length (buf d0))); [|lia]. eval_eqb.
    rewrite (IH ltac:(done) f' (i + length w + 1) array d rest Hd Ha2) by lia.
    rewrite length_app. cbn [length]. do 2 f_equal. lia.
Qed.

Lemma find_stop_key (w k rest : bytes) :
  Forall (λ c, bareKeyClass c = true) w → match rest with [] => True | c :: _ => bareKeyClass c = false end →
  find_stop (λ b, negb (bareKeyClass b)) (w ++ rest) = length w.
Proof using Type.
  intros Hw Hr. rewrite find_stop_app, (proj2 (find_stop_all _ w)), decide_True by
    (done || (eapply Forall_impl; [exact Hw|]; intros c Hc; cbv beta; by rewrite Hc)).
  destruct rest as [|c rest]; [simpl; lia|]. cbn [find_stop]. rewrite Hr. simpl. lia.
Qed.

(** One key of the header: the rest is checked from its end. *)
Lemma validateHeaderKey_key w k fuel i end_ d t rest :
  key_text w k → buf d = buf d0 → at_ i (w ++ t ++ rest) → end_ = i + length w + length t →
  match t with [] => head rest ≠ Some DQUOTE | c :: _ => c = DOT end →
  validateHeaderKey (S fuel) i end_ true d = validateHeaderKey fuel (i + length w) end_ false d.
Proof using Hbuf.
  intros Hk Hd Ha -> Ht. pose proof (at_bytes _ _ Ha) as Hby.
  assert (at_ i ((w ++ t) ++ rest)) as Ha1 by (by rewrite <-app_assoc).
  destruct (at_app _ _ _ Ha1) as [_ Hsl]. rewrite length_app, Nat.add_assoc in Hsl.
  destruct (key_text_ends w k Hk) as (c & u & Ew & Hc & _).
  assert (at_ i (c :: u ++ t ++ rest)) as Ha2 by (by rewrite Ew in Ha). destruct (at_cons _ _ _ Ha2) as (Hi & Hci & _).
  cbn [validateHeaderKey]. rewrite Hd, Hsl. cbv zeta.
  assert (find_stop (λ c, negb (isBlank c)) (w ++ t) = 0) as ->.
  { rewrite Ew. cbn [app find_stop]. apply key_byte_space in Hc as [_ ->]. done. }
  rewrite Nat.add_0_r, Hci, Hsl. assert (0 < length w) by (rewrite Ew; simpl; lia).
  destruct (Nat.leb_spec (i + length w + length t) i); [lia|]. cbn [negb].
  destruct Hk as [(-> & Hne & Hk)|Htx].
  - assert (bareKeyClass c = true) as Hb by (rewrite Ew in Hk; by apply Forall_cons in Hk as [? _]).
    apply bareKeyClass_plain in Hb as (_ & _ & -> & _).
    rewrite ScanBareKey_ok by (apply Forall_app in Hby as [? ?%Forall_app]; apply Forall_app; tauto).
    rewrite (find_stop_key k k t Hk) by (by destruct t; [|subst]). by destruct (length k =? 0) eqn:E; [apply Nat.eqb_eq in E; lia|].
  - pose proof Htx as (body & E & _). assert (c = DQUOTE) as -> by (rewrite E in Ew; unfold paired in Ew; cbn [app] in Ew; congruence).
    eval_eqb. rewrite (scanQuoted_text w k i d _ Htx Hd Ha) by (destruct t; [done|subst; done]).
    by destruct (Nat.ltb_spec (i + length w + length t) (i + length w)); [lia|].
Qed.

Lemma validateHeaderKey_path ws ks : Forall2 key_text ws ks → ws ≠ [] → ∀ fuel i d rest,
  buf d = buf d0 → at_ i (path_text ws ++ rest) → head rest ≠ Some DQUOTE → 2 * length ws ≤ fuel →
  validateHeaderKey fuel i (i + length (path_text ws)) true d = (Ok tt, d).
Proof using Hbuf.
  induction 1 as [|w k ws ks Hk H IH]; [done|]. intros _ fuel i d rest Hd Ha Hr Hf. cbn [length] in Hf.
  destruct fuel as [|[|fuel]]; [lia|lia|]. destruct H as [|w2 k2 ws ks Hk2 H].
  - cbn [join] in *. rewrite (validateHeaderKey_key w k _ i _ d [] rest) by (done || (simpl; lia)).
    cbn [validateHeaderKey]. rewrite slice_nil. cbn [find_stop]. rewrite Nat.add_0_r.
    by destruct (Nat.leb_spec (i + length w) (i + length w)); [|lia].
  - rewrite path_text_cons in *. rewrite <-app_assoc in Ha.
    rewrite (validateHeaderKey_key w k _ i _ d (DOT :: path_text (w2 :: ws)) rest) by (done || (rewrite length_app; simpl; lia)).
    destruct (at_app _ _ _ Ha) as [Ha1 _]. destruct (at_cons _ _ _ Ha1) as (Hi & Hci & Ha2 & _).
    change (at_ (i + length w + 1) (path_text (w2 :: ws) ++ rest)) in Ha2.
    assert (at_ (i + length w) ((DOT :: path_text (w2 :: ws)) ++ rest)) as Ha3 by exact Ha1.
    destruct (at_app _ _ _ Ha3) as [_ Hsl]. rewrite length_app.
    replace (i + (length w + length (DOT :: path_text (w2 :: ws)))) with (i + length w + length (DOT :: path_text (w2 :: ws))) by lia.
    cbn [validateHeaderKey]. rewrite Hd, Hsl. cbn [find_stop]. change (negb (isBlank DOT)) with true. cbv iota zeta.
    rewrite Nat.add_0_r, Hci. cbn [length].
    destruct (Nat.leb_spec (i + length w + S (length (path_text (w2 :: ws)))) (i + length w)); [lia|]. eval_eqb.
    replace (i + length w + S (length (path_text (w2 :: ws)))) with (i + length w + 1 + length (path_text (w2 :: ws))) by lia.
    apply (IH ltac:(done) fuel _ d rest Hd Ha2 Hr). cbn [length] in *. lia.
Qed.

Lemma scanHeader_text array ws ks o sc rest :
  Forall2 key_text ws ks → ws ≠ [] → at_ o (header_text array ws ++ rest) →
  (Z.of_nat (length (path_text ws)) ≤ MaxKeyLength (limits d0))%Z →
  scanHeader (headerKind array) array (length (opening array)) (conf o lineStart [] sc) =
    (Ok (RawToken (headerKind array) (header_text array ws) o), conf (o + length (header_text array ws)) (after []) [] noScalar).
Proof using Hbuf.
  intros H Hne Ha Hmax. destruct (at_app _ _ _ Ha) as [Hend Hsl]. pose proof (at_length _ _ Hend) as Hlen.
  assert (at_ o (opening array ++ path_text ws ++ closing array ++ rest)) as Ha1
    by (unfold header_text in Ha; by rewrite <-!app_assoc in Ha).
  destruct (at_app _ _ _ Ha1) as [Ha2 _].
  assert (length (closing array) = length (opening array) ∧ 0 < length (opening array)) as [Hoc Ho0] by (destruct array; simpl; lia).
  assert (length (header_text array ws) = 2 * length (opening array) + length (path_text ws)) as Hhl
    by (unfold header_text; rewrite !length_app; lia).
  pose proof (path_text_length ws ks H) as Hpl.
  unfold scanHeader. unfold get, mbind, M_bind at 1. cbv beta iota zeta.
  change (off (conf o lineStart [] sc)) with o. change (buf (conf o lineStart [] sc)) with (buf d0).
  change (limits (conf o lineStart [] sc)) with (limits d0). set (d := conf o lineStart [] sc).
  rewrite (M_bind_ok _ _ _ _ _ (scanHeaderEnd_path ws ks H Hne (S (length (buf d0) - o)) _ array d rest eq_refl Ha2 ltac:(lia))).
  rewrite (M_bind_ok _ _ _ _ _ (validateHeaderKey_path ws ks H Hne (S (length (buf d0) - o)) _ d _ eq_refl Ha2
    ltac:(by destruct array) ltac:(lia))).
  replace (o + length (opening array) + length (path_text ws) + length (opening array)) with (o + length (header_text array ws)) by lia.
  rewrite Hsl. unfold M_bind at 1. unfold makeToken. change (set_tokScalar noScalar d) with (conf o lineStart [] noScalar).
  change (trackTokenPositions (conf o lineStart [] noScalar)) with false. cbv iota zeta.
  unfold M_bind at 1, modify at 1. rewrite advance_conf by (unfold header_text; by destruct array).
  replace (MaxKeyLength (limits d0) <b Z.of_nat (o + length (header_text array ws) - o - 2 * length (opening array))) with false by lia.
  done.
Qed.

(** A header at the start of a line. *)
Lemma header_token array ws ks o sc rest :
  Forall2 key_text ws ks → ws ≠ [] → at_ o (header_text array ws ++ rest) →
  (Z.of_nat (length (path_text ws)) ≤ MaxKeyLength (limits d0))%Z →
  readTokenAt (conf o lineStart [] sc) =
    (Ok (Some (RawToken (headerKind array) (header_text array ws) o)), conf (o + length (header_text array ws)) (after []) [] noScalar).
Proof using Hbuf.
  intros H Hne Ha Hmax. pose proof (scanHeader_text array ws ks o sc rest H Hne Ha Hmax) as Hsc.
  destruct (path_text_ends ws ks Hne H) as (c & t & Ec & Hc & _).
  assert (∃ u, header_text array ws ++ rest = LBRACK :: (if array then LBRACK else c) :: u) as [u Eu].
  { unfold header_text. rewrite Ec. destruct array; cbn [opening app]; eauto. }
  rewrite Eu in Ha. destruct (at_cons _ _ _ Ha) as (Ho & Hci & Ha2 & _).
  unfold readTokenAt. run_m. change (buf (conf o lineStart [] sc)) with (buf d0). change (off (conf o lineStart [] sc)) with o.
  destruct (Nat.leb_spec (length (buf d0)) o); [lia|].
  change (needLineEnd (conf o lineStart [] sc)) with false. change (atLineStart (conf o lineStart [] sc)) with true.
  change (expectingValue (conf o lineStart [] sc)) with false. rewrite Hci. eval_eqb.
  assert (matchPrefix (conf o lineStart [] sc) [LBRACK; LBRACK] = array) as ->.
  { unfold matchPrefix. change (buf (conf o lineStart [] sc)) with (buf d0). change (off (conf o lineStart [] sc)) with o.
    destruct (at_cons _ _ _ Ha2) as (Ho2 & _). cbn [length Nat.eqb].
    destruct (Nat.ltb_spec (length (buf d0)) (o + 2)); [lia|]. destruct Ha as [-> _]. cbn [has_prefix]. eval_eqb.
    destruct array; [done|]. unfold key_byte, bareKeyClass in Hc. by replace (c =b LBRACK) with false by lia. }
  unfold some_token, mbind, M_bind at 1. destruct array.
  - unfold scanArrayTableHeader. cbn [opening length headerKind] in Hsc. rewrite Hsc. done.
  - unfold scanTableHeader. cbn [opening length headerKind] in Hsc. unfold M_bind. rewrite Hsc. done.
Qed.

(** ** Lines *)

(** Between two statements: after some line feeds, or at the start. *)
Lemma skip_to_line n o m sc w :
  m = lineStart ∨ m = after [] ∧ 0 < n → at_ o (repeat LF n ++ w) → solid w →
  skipSpaces (conf o m [] sc) = conf (o + n) lineStart [] sc.
Proof using Hbuf.
  intros Hm Ha Hs. pose proof (at_length _ _ Ha) as Hl. rewrite length_app, repeat_length in Hl. unfold skipSpaces.
  change (buf (conf o m [] sc)) with (buf d0). change (off (conf o m [] sc)) with o.
  rewrite (skip_lines n _ _ _ _ _ w) by (done || lia || (destruct Hm as [->|[-> _]]; done)).
  destruct Hm as [->|[-> Hn]]; [by destruct n|]. destruct n; [lia|done].
Qed.

Lemma readToken_line n o m sc c w tok d :
  m = lineStart ∨ m = after [] ∧ 0 < n → at_ o (repeat LF n ++ c :: w) → solid (c :: w) →
  readTokenAt (conf (o + n) lineStart [] sc) = (Ok (Some tok), d) →
  readToken (conf o m [] sc) = (Ok tok, d).
Proof using Hbuf.
  intros Hm Ha Hs Hd. pose proof (at_length _ _ Ha) as Hl. rewrite length_app, repeat_length in Hl. cbn [length] in Hl.
  assert (o < length (buf d0)) as Ho by lia.
  by rewrite (readToken_step _ _ _ _ _ _ Ho (skip_to_line n o m sc _ Hm Ha Hs)), Hd.
Qed.

Lemma readToken_eof n o m sc :
  m = lineStart ∨ m = after [] → at_ o (repeat LF n) → ∃ d, readToken (conf o m [] sc) = (Err EOF, d).
Proof using Hbuf.
  intros Hm Ha. pose proof (at_length _ _ Ha) as Hl. rewrite repeat_length in Hl.
  assert (∀ o' m', m_expecting m' = false → endOfInput (conf o' m' [] sc) = (Err EOF, conf o' m' [] sc)) as He.
  { intros o' m' H. unfold endOfInput. run_m. change (expectingValue (conf o' m' [] sc)) with (m_expecting m'). by rewrite H. }
  assert (m_expecting m = false) as Hme by (by destruct Hm as [->| ->]).
  destruct n as [|n].
  - exists (conf o m [] sc). unfold readToken. change (err (conf o m [] sc)) with (@None error). cbv iota.
    rewrite readToken_loop_S. unfold readTokenStep. run_m. change (buf (conf o m [] sc)) with (buf d0).
    change (off (conf o m [] sc)) with o. destruct (Nat.leb_spec (length (buf d0)) o); [|lia]. by rewrite He.
  - exists (conf (o + S n) lineStart [] sc). assert (o < length (buf d0)) as Ho by lia.
    assert (m = lineStart ∨ m = after [] ∧ 0 < S n) as Hm' by (destruct Hm; [by left|right; split; [done|lia]]).
    assert (at_ o (repeat LF (S n) ++ [])) as Ha' by (by rewrite app_nil_r).
    rewrite (readToken_step _ _ _ _ _ _ Ho (skip_to_line (S n) o m sc [] Hm' Ha' I)).
    unfold readTokenAt. run_m. change (buf (conf ?o' ?m' [] sc)) with (buf d0). change (off (conf ?o' ?m' [] sc)) with o'.
    destruct (Nat.leb_spec (length (buf d0)) (o + S n)); [|lia]. by rewrite He.
Qed.
End read.
