(* ===== verification/TomlParse.v ===== *)
(** Parsing forward: the data a document spells, the texts of values, and that
    [parseNextValue] builds in the store the value its text spells. *)
From S2P Require Import Prelude GoUtf8 Scan TomlBase Datetime TomlString TomlNumber TomlKey Decoder TomlTree TomlSkip TomlDocument TomlRead.

(** ** Data *)

(** A TOML value; the entries of a table in some order. *)
Inductive tval :=
| TString (s : bytes)
| TInt (z : Z)
| TFloat (bits : Z)
| TBool (b : bool)
| TDatetime (dt : datetime)
| TArray (l : list tval)
| TTable (kvs : list (bytes * tval)).

Section tval_ind.
Context (P : tval → Prop) (HS : ∀ s, P (TString s)) (HI : ∀ z, P (TInt z)) (HF : ∀ b, P (TFloat b))
  (HB : ∀ b, P (TBool b)) (HD : ∀ dt, P (TDatetime dt)) (HA : ∀ l, Forall P l → P (TArray l))
  (HT : ∀ kvs, Forall (λ kv, P kv.2) kvs → P (TTable kvs)).

Fixpoint tval_nested_ind (t : tval) : P t :=
  match t with
  | TString s => HS s
  | TInt z => HI z
  | TFloat b => HF b
  | TBool b => HB b
  | TDatetime dt => HD dt
  | TArray l => HA l ((fix go l : Forall P l :=
      match l with [] => Forall_nil_2 _ | t :: l => Forall_cons_2 _ _ _ (tval_nested_ind t) (go l) end) l)
  | TTable kvs => HT kvs ((fix go kvs : Forall (λ kv, P kv.2) kvs :=
      match kvs with [] => Forall_nil_2 _ | kv :: kvs => Forall_cons_2 _ _ _ (tval_nested_ind kv.2) (go kvs) end) kvs)
  end.
End tval_ind.

(** The value of the document model for data without parts. *)
Definition leaf (t : tval) : option val :=
  match t with
  | TString s => Some (VString s)
  | TInt z => Some (VInt z)
  | TFloat b => Some (VFloat b)
  | TBool b => Some (VBool b)
  | TDatetime dt => Some (VDatetime dt)
  | _ => None
  end.

Definition nul_free (k : bytes) : bool := forallb (λ c, c ≠b 0) k.

(** Every table has distinct names without NUL bytes. *)
Fixpoint keys_ok (t : tval) : bool :=
  match t with
  | TArray l => forallb keys_ok l
  | TTable kvs => bool_decide (NoDup kvs.*1) && forallb nul_free kvs.*1 && forallb (λ kv, keys_ok kv.2) kvs
  | _ => true
  end.

(** [v] is the data [t], in maps of the store not below [lo]. *)
Inductive Rep (st : store) (lo : nat) : tval → val → Prop :=
| Rep_leaf t v : leaf t = Some v → Rep st lo t v
| Rep_array l l' : Forall2 (Rep st lo) l l' → Rep st lo (TArray l) (VArray l')
| Rep_table kvs id :
    lo ≤ id < length st → dom (table st id) = list_to_set (C := gset bytes) kvs.*1 →
    (∀ k t, (k, t) ∈ kvs → ∃ v, table st id !! k = Some v ∧ Rep st lo t v) →
    Rep st lo (TTable kvs) (VTable id).

(** The maps below [n] are as they were. *)
Definition keeps (n : nat) (st st' : store) : Prop :=
  length st ≤ length st' ∧ ∀ id, id < n → table st' id = table st id.

Lemma keeps_refl n st : keeps n st st.
Proof. done. Qed.

Lemma keeps_trans n st st' st'' : keeps n st st' → keeps n st' st'' → keeps n st st''.
Proof. intros [L1 H1] [L2 H2]. split; [lia|]. intros id Hid. rewrite H2, H1; done. Qed.

Lemma keeps_weaken n n' st st' : n' ≤ n → keeps n st st' → keeps n' st st'.
Proof. intros Hn [L H]. split; [done|]. intros id Hid. apply H. lia. Qed.

(** Data survives where the maps it is in do. *)
Lemma Rep_frame st st' lo lo' t : ∀ v, lo' ≤ lo →
  length st ≤ length st' → (∀ id, lo ≤ id < length st → table st' id = table st id) → Rep st lo t v → Rep st' lo' t v.
Proof.
  induction t as [s|z|b|b|dt|l IH|kvs IH] using tval_nested_ind; intros v Hlo Hle Ht Hr;
    inversion Hr as [? ? Hl|? l' Hf|? id Hid Hd He]; subst; try (by apply Rep_leaf); try done.
  - apply Rep_array. clear Hr. induction Hf as [|t v l l' Ht' Hf IHf]; [done|]. apply Forall_cons in IH as [IH1 IH2].
    constructor; [by apply IH1|by apply IHf].
  - rewrite <-(Ht id Hid) in Hd. apply Rep_table; [lia|done|]. intros k t Hk. destruct (He k t Hk) as (v & Hv & Hr').
    exists v. rewrite (Ht id Hid). split; [done|]. rewrite Forall_forall in IH. by apply (IH (k, t) Hk).
Qed.

Lemma Rep_keeps st st' lo t v : keeps (length st) st st' → Rep st lo t v → Rep st' lo t v.
Proof. intros [L H]. apply Rep_frame; [done|done|]. intros id Hid. apply H. lia. Qed.

(** ** Paths as map keys *)

Lemma nul_free_not_elem k : nul_free k = true → 0%Z ∉ k.
Proof. unfold nul_free. rewrite forallb_Forall, Forall_forall. intros H Hin. by specialize (H _ Hin). Qed.

Lemma split_nul (a b : bytes) u v : 0%Z ∉ a → 0%Z ∉ b → a ++ 0%Z :: u = b ++ 0%Z :: v → a = b ∧ u = v.
Proof.
  revert b. induction a as [|x a IH]; intros [|y b] Ha Hb H; cbn [app] in H; simplify_eq; [done|set_solver|set_solver|].
  destruct (IH b) as [-> ->]; [set_solver|set_solver|done|done].
Qed.

Lemma encodedKeyPath_cons p q path : encodedKeyPath (p :: q :: path) = p ++ 0%Z :: encodedKeyPath (q :: path).
Proof. unfold encodedKeyPath. destruct path; done. Qed.

Lemma encodedKeyPath_inj p q :
  p ≠ [] → q ≠ [] → Forall (λ k, nul_free k = true) p → Forall (λ k, nul_free k = true) q →
  encodedKeyPath p = encodedKeyPath q → p = q.
Proof.
  intros Hp0 Hq0 Hp. revert q Hq0. induction Hp as [|a p Ha Hp IH]; intros q Hq0 Hq E; [done|].
  destruct Hq as [|b q Hb Hq]; [done|]. apply nul_free_not_elem in Ha, Hb.
  destruct p as [|a2 p], q as [|b2 q].
  - cbn in E. by subst.
  - rewrite encodedKeyPath_cons in E. cbn [encodedKeyPath] in E. subst a. set_solver.
  - rewrite encodedKeyPath_cons in E. cbn [encodedKeyPath] in E. subst b. set_solver.
  - rewrite !encodedKeyPath_cons in E. apply split_nul in E as [-> E]; [|done|done]. f_equal. by apply IH.
Qed.

(** ** Marks of inline tables *)

(** The marks below a path. *)
Definition marks_under (path : list bytes) (k : bytes) : Prop :=
  ∃ q, Forall (λ k, nul_free k = true) q ∧ k = encodedKeyPath (path ++ q).

Lemma keys_ok_table kvs k t : keys_ok (TTable kvs) = true → (k, t) ∈ kvs → nul_free k = true ∧ keys_ok t = true.
Proof.
  cbn [keys_ok]. rewrite !andb_true_iff, !forallb_Forall, !Forall_forall. intros [[_ H1] H2] Hin.
  split; [apply H1, list_elem_of_fmap; by exists (k, t)|by apply (H2 (k, t))].
Qed.

Lemma markClosed_at st epochs lo fuel : ∀ closed path v t κ,
  Rep st lo t v → keys_ok t = true →
  markClosedValuePaths fuel st epochs closed path v !! κ = closed !! κ ∨ marks_under path κ.
Proof.
  induction fuel as [|fuel IH]; intros closed path v t κ Hr Hk; [by left|]. cbn [markClosedValuePaths].
  set (children := λ id closed, foldl (λ closed '(childKey, child),
    markClosedValuePaths fuel st epochs closed (path ++ [childKey]) child) closed (map_to_list (table st id))).
  assert (∀ kvs id closed, Rep st lo (TTable kvs) (VTable id) → keys_ok (TTable kvs) = true →
    children id closed !! κ = closed !! κ ∨ marks_under path κ) as Hch.
  { clear closed v t Hr Hk. intros kvs id closed Hr Hk. inversion Hr as [? ? Hl| |? id' Hid Hd He]; subst; [done|]. unfold children.
    assert (∀ k w, (k, w) ∈ map_to_list (table st id) → nul_free k = true ∧ ∃ t, Rep st lo t w ∧ keys_ok t = true) as Hw.
    { intros k w Hw%elem_of_map_to_list. assert (k ∈ kvs.*1) as Hin.
      { apply (elem_of_list_to_set (C := gset bytes)). rewrite <-Hd. apply elem_of_dom. eauto. }
      apply list_elem_of_fmap in Hin as ([k' t] & -> & Hin). cbn in *. destruct (keys_ok_table _ _ _ Hk Hin) as [Hn Ht].
      split; [done|]. exists t. destruct (He _ _ Hin) as (w' & Hw' & Hr'). split; [congruence|done]. }
    revert closed Hw. generalize (map_to_list (table st id)). intros m. induction m as [|[k w] m IHm]; intros closed Hw; [by left|].
    cbn [foldl]. destruct (Hw k w ltac:(set_solver)) as (Hn & t & Hrt & Hkt).
    destruct (IH closed (path ++ [k]) w t κ Hrt Hkt) as [Hs|(q & Hq & ->)].
    - rewrite <-Hs. apply IHm. set_solver.
    - right. exists (k :: q). split; [by constructor|]. by rewrite <-app_assoc. }
  assert (∀ closed : gmap bytes bytes, <[encodedKeyPath path := declarationContext path epochs]> closed !! κ = closed !! κ ∨ marks_under path κ) as Hmark.
  { intros c. rewrite lookup_insert. case_decide as E; [|by left]. right. exists []. split; [done|]. by rewrite app_nil_r. }
  destruct v as [| | | | |l|id]; try (by left).
  - inversion Hr as [t' ? Hl|ls ? Hf|]; subst; [by destruct t|]. cbn [keys_ok] in Hk. rewrite forallb_Forall in Hk.
    assert (∀ closed : gmap bytes bytes, foldl (λ closed child, match child with VTable id => children id closed | _ => closed end) closed l !! κ =
      closed !! κ ∨ marks_under path κ) as Hl.
    { clear Hr Hmark closed. induction Hf as [|t w ls l Ht Hf IHf]; intros closed; [by left|]. apply Forall_cons in Hk as [Hk1 Hk2].
      cbn [foldl]. set (c1 := match w with VTable id => children id closed | _ => closed end).
      destruct (IHf Hk2 c1) as [->|]; [|by right]. unfold c1. destruct w; try (by left).
      inversion Ht; subst; [by destruct t|]. by eapply Hch. }
    destruct (Hl (<[encodedKeyPath path := declarationContext path epochs]> closed)) as [Hs|]; [|by right].
    destruct (Hmark closed) as [Hm|]; [left; exact (eq_trans Hs Hm)|by right].
  - inversion Hr; subst; [by destruct t|].
    destruct (Hch _ _ (<[encodedKeyPath path := declarationContext path epochs]> closed) Hr Hk) as [Hs|]; [|by right].
    destruct (Hmark closed) as [Hm|]; [left; exact (eq_trans Hs Hm)|by right].
Qed.

(** ** The texts of values *)

(** A bare value and what parsing its token gives. *)
Definition bare_value {K : ScanKernels} (w : bytes) (v : val) : Prop :=
  bare_text w ∧ is_ok (parseDateTimeValue (w ++ [SP])) = false ∧
  ∃ kind sc, classifyBareValue w = (kind, sc, ""%string) ∧
    kind ∈ [TokenKindValueInteger; TokenKindValueFloat; TokenKindValueBool; TokenKindValueDatetime] ∧
    ∀ d o st, tokScalar d = sc → parseScalarToken (RawToken kind w o) d st = (Ok v, d, st).

Definition comma : bytes := [COMMA; SP].
Definition equals : bytes := [SP; EQUALS; SP].

(** The items after the first, each with its separator. *)
Definition tail_text (ws : list bytes) : bytes := concat ((λ w, comma ++ w) <$> ws).

Lemma join_tail w ws : join comma (w :: ws) = w ++ tail_text ws.
Proof.
  revert w. induction ws as [|w' ws IH]; intros w; [by rewrite app_nil_r|].
  change (join comma (w :: w' :: ws)) with (w ++ comma ++ join comma (w' :: ws)). by rewrite IH.
Qed.

Definition entry_text (e : bytes * bytes) : bytes := e.1 ++ equals ++ e.2.
Definition array_text (ws : list bytes) : bytes := LBRACK :: join comma ws ++ [RBRACK].
Definition table_text (es : list (bytes * bytes)) : bytes := LBRACE :: SP :: join comma (entry_text <$> es) ++ [SP; RBRACE].

(** [value_text L n w t]: inside [n] arrays the bytes [w] spell the data [t], and
    the limits [L] of the decoder allow it. *)
Inductive value_text {K : ScanKernels} (L : Limits) : nat → bytes → tval → Prop :=
| vt_string n w s : basic_text w s → (Z.of_nat (length w) ≤ MaxStringLength L)%Z → value_text L n w (TString s)
| vt_bare n w t v : leaf t = Some v → bare_value w v → value_text L n w t
| vt_array n ws ts :
    (Z.of_nat (S n) ≤ MaxNestedDepth L)%Z → Forall2 (value_text L (S n)) ws ts →
    value_text L n (array_text ws) (TArray ts)
| vt_table n es kvs :
    Forall2 (λ e kv, key_text e.1 kv.1 ∧ (Z.of_nat (length e.1) ≤ MaxKeyLength L)%Z ∧ value_text L n e.2 kv.2) es kvs →
    value_text L n (table_text es) (TTable kvs).

Lemma value_text_first {K : ScanKernels} L n w t : value_text L n w t → ∃ c u, w = c :: u ∧ solid (c :: u).
Proof.
  intros [? ? ? (body & -> & _) _|? ? ? ? _ ([Hb Hh] & _)|? ws ? _ _|? es ? _].
  - by exists DQUOTE, (body ++ [DQUOTE]).
  - destruct w0 as [|c u]; [done|]. exists c, u. split; [done|]. apply Forall_cons in Hb as [Hb _].
    unfold bareValueDelimiter in Hb. unfold solid. lia.
  - unfold array_text. eexists _, _. by split.
  - unfold table_text. eexists _, _. by split.
Qed.

Lemma value_text_length {K : ScanKernels} L n w t : value_text L n w t → 0 < length w.
Proof. intros (c & u & -> & _)%value_text_first. simpl. lia. Qed.

Lemma length_tail_text w ws : length (tail_text (w :: ws)) = 2 + length w + length (tail_text ws).
Proof. unfold tail_text. cbn [fmap list_fmap concat]. rewrite length_app. unfold comma. simpl. lia. Qed.

(** What ends a value where these texts have one. *)
Lemma value_end_tail ws u rest :
  value_end (u ++ rest) → value_end (tail_text ws ++ u ++ rest).
Proof. intros H. destruct ws as [|w ws]; [done|]. unfold tail_text. cbn [fmap list_fmap concat]. cbn. by left. Qed.

Lemma value_end_quote rest : value_end rest → head rest ≠ Some DQUOTE.
Proof. destruct rest as [|c t]; [done|]. cbn. intros H [= ->]. destruct H as [?|[?|[?|[? _]]]]; done. Qed.

(** ** Effects *)

Lemma D_bind_ok {A B} (c : D A) (f : A → D B) d st a d' st' : c d st = (Ok a, d', st') → D_bind A B f c d st = f a d' st'.
Proof. intros H. unfold D_bind. by rewrite H. Qed.

Lemma reading_ok {A} (m : M A) d st a d' : m d = (Ok a, d') → reading m d st = (Ok a, d', st).
Proof. intros H. unfold reading. by rewrite H. Qed.

Lemma D_bind_reading {A B} (m : M A) (f : A → D B) d d' st : m d = m d' → D_bind A B f (reading m) d st = D_bind A B f (reading m) d' st.
Proof. intros H. unfold D_bind, reading. by rewrite H. Qed.

(** The entries of a table have been added. *)
Definition added (m : nat) (kvs : list (bytes * tval)) (st st' : store) : Prop :=
  length st ≤ length st' ∧ (∀ id, id < length st → id ≠ m → table st' id = table st id) ∧
  dom (table st' m) = dom (table st m) ∪ list_to_set (C := gset bytes) kvs.*1 ∧
  (∀ k v, table st m !! k = Some v → table st' m !! k = Some v) ∧
  (∀ k t, (k, t) ∈ kvs → ∃ v, table st' m !! k = Some v ∧ Rep st' (length st) t v).

Lemma added_nil m st : added m [] st st.
Proof. split_and!; [done|done|set_solver|done|set_solver]. Qed.

Lemma added_cons m k t v kvs st st1 st2 :
  m < length st → length st ≤ length st1 → (∀ id, id < length st → id ≠ m → table st1 id = table st id) →
  table st1 m = <[k := v]> (table st m) → table st m !! k = None → Rep st1 (length st) t v →
  added m kvs st1 st2 → added m ((k, t) :: kvs) st st2.
Proof.
  intros Hm Hl Hs Ht Hf Hr (Hl2 & Hs2 & Hd & Hkeep & He). split_and!.
  - lia.
  - intros id Hid Hne. rewrite Hs2 by (done || lia). by apply Hs.
  - rewrite Hd, Ht, dom_insert_L. cbn. set_solver.
  - intros k' v' Hk'. apply Hkeep. rewrite Ht. rewrite lookup_insert_ne; [done|congruence].
  - intros k' t' [[= -> ->]|Hin]%elem_of_cons.
    + exists v. split; [apply Hkeep; rewrite Ht; by rewrite lookup_insert_eq|].
      eapply (Rep_frame st1 _ (length st)); [done|lia| |exact Hr]. intros id Hid. apply Hs2; lia.
    + destruct (He k' t' Hin) as (v' & Hv' & Hr'). exists v'. split; [done|]. by eapply (Rep_frame st2 _ (length st1)).
Qed.

Lemma added_app m kvs1 kvs2 st st1 st2 :
  m < length st → added m kvs1 st st1 → added m kvs2 st1 st2 → added m (kvs1 ++ kvs2) st st2.
Proof.
  intros Hm (Hl1 & Hs1 & Hd1 & Hk1 & He1) (Hl2 & Hs2 & Hd2 & Hk2 & He2). split_and!.
  - lia.
  - intros id Hid Hne. rewrite Hs2 by (done || lia). by apply Hs1.
  - rewrite Hd2, Hd1, fmap_app, list_to_set_app_L. set_solver.
  - intros k v Hk. by apply Hk2, Hk1.
  - intros k t [Hin|Hin]%elem_of_app.
    + destruct (He1 k t Hin) as (v & Hv & Hr). exists v. split; [by apply Hk2|].
      eapply (Rep_frame st1 _ (length st)); [done|lia| |exact Hr]. intros id Hid. apply Hs2; lia.
    + destruct (He2 k t Hin) as (v & Hv & Hr). exists v. split; [done|]. by eapply (Rep_frame st2 _ (length st1)).
Qed.

Section values.
Context {K : ScanKernels} (d0 : Decoder) (Hbuf : Forall is_byte (buf d0)).
Abbreviation conf := (conf d0).
Abbreviation at_ := (at_ d0).
Abbreviation value_text := (value_text (limits d0)).

(** The value at an offset is read and built. *)
Definition parses (t : tval) : Prop := ∀ n w, value_text n w t → keys_ok t = true → ∀ o vn cs sc rest st fuel,
  at_ o (w ++ rest) → value_end rest → count (Z.eqb containerArray) cs = n → 2 * length w ≤ fuel →
  ∃ tok d1 v st' sc',
    dispatch (conf o (wantValue vn) cs sc) = (Ok (Some tok), d1) ∧ isComment tok = false ∧ rt_Kind tok ≠ TokenKindArrayEnd ∧
    parseRawValueToken fuel tok d1 st = (Ok v, conf (o + length w) (after cs) cs sc', st') ∧
    Rep st' (length st) t v ∧ keeps (length st) st st'.

Lemma parses_leaf t v : leaf t = Some v → parses t.
Proof using Hbuf.
  intros Hl n w Hw _ o vn cs sc rest st fuel Ha He _ Hf. pose proof (value_text_length _ _ _ _ Hw) as Hlen.
  assert (∃ kind sc', dispatch (conf o (wantValue vn) cs sc) = (Ok (Some (RawToken kind w o)), conf (o + length w) (after cs) cs sc') ∧
    kind ∈ [TokenKindValueString; TokenKindValueInteger; TokenKindValueFloat; TokenKindValueBool; TokenKindValueDatetime] ∧
    parseScalarToken (RawToken kind w o) (conf (o + length w) (after cs) cs sc') st = (Ok v, conf (o + length w) (after cs) cs sc', st))
    as (kind & sc' & Hd & Hk & Hp).
  { inversion Hw as [? ? s Ht Hmax|? ? ? v' Hl' (Hb & Hsp & kind & sc' & Hc & Hk & Hp)| |]; subst; [..|done|done].
    - exists TokenKindValueString, noScalar. split; [by eapply string_token; eauto using value_end_quote|]. split; [set_solver|].
      unfold parseScalarToken. cbn [rt_Kind rt_Bytes]. injection Hl as <-. rewrite (parseStringValue_complete w s); [done| |by apply basic_text_value].
      apply (at_bytes d0 Hbuf) in Ha. by apply Forall_app in Ha as [? _].
    - exists kind, sc'. assert (v' = v) as -> by congruence. split; [|split; [set_solver|by apply Hp]].
      eapply bare_token; [done|exact Ha|by apply bare_end; [|by eapply at_bytes| |]|done]. }
  exists (RawToken kind w o), (conf (o + length w) (after cs) cs sc'), v, st, sc'.
  assert (parseRawValueToken fuel (RawToken kind w o) = parseScalarToken (RawToken kind w o)) as Hraw.
  { destruct fuel as [|fuel]; [lia|]. cbn [parseRawValueToken rt_Kind]. set_unfold. repeat (destruct Hk as [->|Hk]; [done|]). done. }
  rewrite Hraw. split_and!; [done| |  |done|by apply Rep_leaf|done].
  - unfold isComment. cbn [rt_Kind]. apply bool_decide_eq_false. set_unfold. intros ->. naive_solver.
  - cbn [rt_Kind]. set_unfold. intros ->. naive_solver.
Qed.

(** *** Arrays *)

Definition inA (cs : list Z) : list Z := containerArray :: cs.
Definition inT (cs : list Z) : list Z := containerInline :: cs.

Lemma parseArrayValue_S fuel values d st :
  parseArrayValue (S fuel) values d st =
    D_bind _ _ (λ tok,
      if isComment tok then parseArrayValue fuel values
      else if bool_decide (rt_Kind tok = TokenKindArrayEnd) then mret values
      else D_bind _ _ (λ v, parseArrayValue fuel (values ++ [v])) (parseRawValueToken fuel tok)) (reading readToken) d st.
Proof using Type. done. Qed.

Lemma array_close o m cs sc rest values st fuel :
  at_ o (RBRACK :: rest) → m_lineEnd m = false → m_lineStart m = false →
  parseArrayValue (S fuel) values (conf o m (inA cs) sc) st = (Ok values, conf (o + 1) (after cs) cs noScalar, st).
Proof using Hbuf.
  intros Ha He Hl. rewrite parseArrayValue_S. erewrite D_bind_ok; [|apply reading_ok].
  2: { eapply (readToken_blanks d0 Hbuf [] o m); [done|exact Ha|done|done|congruence|]. rewrite Nat.add_0_r.
       by apply (array_end d0 o m cs sc rest). }
  done.
Qed.

(** One item and what follows it. *)
Lemma array_item t n w b o m cs sc rest st fuel values :
  parses t → value_text n w t → keys_ok t = true → Forall (λ c, isBlank c = true) b →
  m = wantValue false → at_ o (b ++ w ++ rest) → value_end rest → count (Z.eqb containerArray) (inA cs) = n → 2 * length w ≤ fuel →
  ∃ v st' sc',
    (∀ k, D_bind _ _ (λ tok,
      if isComment tok then parseArrayValue fuel values
      else if bool_decide (rt_Kind tok = TokenKindArrayEnd) then mret values
      else D_bind _ _ k (parseRawValueToken fuel tok)) (reading readToken) (conf o m (inA cs) sc) st =
     k v (conf (o + length b + length w) (after (inA cs)) (inA cs) sc') st') ∧
    Rep st' (length st) t v ∧ keeps (length st) st st'.
Proof using Hbuf.
  intros Hp Hw Hk Hb -> Ha He Hn Hf. destruct (at_app _ _ _ _ Ha) as [Ha' _].
  destruct (Hp n w Hw Hk _ false (inA cs) sc rest st fuel Ha' He Hn Hf) as (tok & d1 & v & st' & sc' & Hd & Hc & Hne & Hr & Hrep & Hkeep).
  exists v, st', sc'. split; [|done]. intros k. destruct (value_text_first _ _ _ _ Hw) as (c & u & E & Hs).
  erewrite D_bind_ok; [|apply reading_ok].
  2: { eapply (readToken_blanks d0 Hbuf b o (wantValue false)); [done|rewrite E in Ha; exact Ha|done|done|done|exact Hd]. }
  rewrite Hc, bool_decide_false by done. by rewrite (D_bind_ok _ _ _ _ _ _ _ Hr).
Qed.

Lemma array_rest ts : Forall parses ts → ∀ n ws o cs sc rest st fuel values,
  Forall2 (value_text n) ws ts → forallb keys_ok ts = true → at_ o (tail_text ws ++ RBRACK :: rest) →
  count (Z.eqb containerArray) (inA cs) = n → 2 * length (tail_text ws) + 1 ≤ fuel →
  ∃ vs st' sc', parseArrayValue fuel values (conf o (after (inA cs)) (inA cs) sc) st =
      (Ok (values ++ vs), conf (o + length (tail_text ws) + 1) (after cs) cs sc', st') ∧
    Forall2 (Rep st' (length st)) ts vs ∧ keeps (length st) st st'.
Proof using Hbuf.
  induction 1 as [|t ts Hp Hps IH]; intros n ws o cs sc rest st fuel values Hws Hk Ha Hn Hf;
    inversion Hws as [|w ? ws' ? Hw Hws']; subst; (destruct fuel as [|fuel]; [lia|]).
  - exists [], st, noScalar. rewrite (array_close o _ cs sc rest) by done. rewrite app_nil_r. cbn [tail_text fmap list_fmap concat length].
    rewrite Nat.add_0_r. done.
  - cbn [forallb] in Hk. apply andb_true_iff in Hk as [Hk1 Hk2]. rewrite length_tail_text in Hf.
    assert (at_ o (COMMA :: [SP] ++ w ++ tail_text ws' ++ RBRACK :: rest)) as Ha1.
    { unfold tail_text in Ha. cbn [fmap list_fmap concat] in Ha. rewrite <-!app_assoc in Ha. exact Ha. }
    destruct (at_cons _ _ _ _ Ha1) as (_ & _ & Ha2 & _).
    destruct (array_item t _ w [SP] (o + 1) (wantValue false) cs sc (tail_text ws' ++ RBRACK :: rest) st fuel values
      Hp Hw Hk1 ltac:(by constructor) eq_refl Ha2) as (v & st1 & sc1 & Hit & Hr1 & Hk1').
    { apply (value_end_tail ws' [RBRACK] rest). cbn. by right; left. }
    { done. }
    { lia. }
    assert (at_ (o + 1 + 1 + length w) (tail_text ws' ++ RBRACK :: rest)) as Ha3.
    { destruct (at_app _ _ _ _ Ha2) as [Ha4 _]. by destruct (at_app _ _ _ _ Ha4). }
    destruct (IH _ ws' _ cs sc1 rest st1 fuel (values ++ [v]) Hws' Hk2 Ha3 eq_refl ltac:(lia)) as (vs & st2 & sc2 & Hrun & Hr2 & Hk2').
    exists (v :: vs), st2, sc2. split_and!.
    + rewrite parseArrayValue_S, (D_bind_reading _ _ _ _ _ (readToken_comma d0 Hbuf o (after (inA cs)) (inA cs) sc _ Ha1 eq_refl eq_refl eq_refl)).
      cbn [inArray inA after m_noNewline]. change (containerArray =b containerArray) with true.
      change (Mode true false false false false) with (wantValue false). rewrite Hit.
      change (length [SP]) with 1. rewrite Hrun, <-app_assoc, length_tail_text. cbn [app]. do 3 f_equal. lia.
    + constructor; [|eapply Forall2_impl; [exact Hr2|]; intros t' v' Hr'; eapply Rep_frame; [..|exact Hr']; [apply Hk1'|done|done]].
      eapply Rep_frame; [| |  |exact Hr1]; [done|apply Hk2'|]. intros id Hid. apply Hk2'. lia.
    + eapply keeps_trans; [done|]. eapply keeps_weaken; [|done]. apply Hk1'.
Qed.

Lemma array_items ts n ws o cs sc rest st fuel :
  Forall parses ts → Forall2 (value_text n) ws ts → forallb keys_ok ts = true → at_ o (join comma ws ++ RBRACK :: rest) →
  count (Z.eqb containerArray) (inA cs) = n → 2 * length (join comma ws) + 2 ≤ fuel →
  ∃ vs st' sc', parseArrayValue fuel [] (conf o (wantValue false) (inA cs) sc) st =
      (Ok vs, conf (o + length (join comma ws) + 1) (after cs) cs sc', st') ∧
    Forall2 (Rep st' (length st)) ts vs ∧ keeps (length st) st st'.
Proof using Hbuf.
  intros Hps Hws Hk Ha Hn Hf. destruct fuel as [|fuel]; [lia|]. destruct Hws as [|w t ws ts Hw Hws].
  - exists [], st, noScalar. rewrite (array_close o _ cs sc rest) by done. cbn [join length]. by rewrite Nat.add_0_r.
  - apply Forall_cons in Hps as [Hp Hps]. cbn [forallb] in Hk. apply andb_true_iff in Hk as [Hk1 Hk2].
    rewrite join_tail in *. rewrite <-app_assoc in Ha. rewrite length_app in Hf.
    destruct (array_item t n w [] o (wantValue false) cs sc (tail_text ws ++ RBRACK :: rest) st fuel []
      Hp Hw Hk1 ltac:(done) eq_refl Ha) as (v & st1 & sc1 & Hit & Hr1 & Hk1').
    { apply (value_end_tail ws [RBRACK] rest). cbn. by right; left. }
    { done. }
    { lia. }
    destruct (at_app _ _ _ _ Ha) as [Ha2 _]. cbn [length] in Hit. rewrite Nat.add_0_r in Hit.
    destruct (array_rest ts Hps n ws _ cs sc1 rest st1 fuel [v] Hws Hk2 Ha2 Hn ltac:(lia)) as (vs & st2 & sc2 & Hrun & Hr2 & Hk2').
    exists (v :: vs), st2, sc2. split_and!.
    + rewrite parseArrayValue_S, Hit. cbn [app]. rewrite Hrun, length_app. cbn [app]. do 3 f_equal. lia.
    + constructor; [|eapply Forall2_impl; [exact Hr2|]; intros t' v' Hr'; eapply Rep_frame; [..|exact Hr']; [apply Hk1'|done|done]].
      eapply Rep_frame; [| |  |exact Hr1]; [done|apply Hk2'|]. intros id Hid. apply Hk2'. lia.
    + eapply keeps_trans; [done|]. eapply keeps_weaken; [|done]. apply Hk1'.
Qed.

Lemma parses_array ts : Forall parses ts → parses (TArray ts).
Proof using Hbuf.
  intros Hps n w Hw Hk o vn cs sc rest st fuel Ha He Hn Hf.
  inversion Hw as [|? ? ? ? Hl|? ws ? Hdepth Hws|]; subst; [done|]. cbn [keys_ok] in Hk.
  unfold array_text in *. cbn [app] in Ha. rewrite <-app_assoc in Ha. cbn [app] in Ha.
  destruct (at_cons _ _ _ _ Ha) as (_ & _ & Ha1 & _). cbn [length] in Hf. rewrite length_app in Hf. cbn [length] in Hf.
  destruct fuel as [|fuel]; [lia|].
  destruct (array_items ts _ ws (o + 1) cs noScalar rest st fuel Hps Hws Hk Ha1 eq_refl ltac:(lia)) as (vs & st1 & sc1 & Hrun & Hr & Hk').
  exists (RawToken TokenKindArrayStart [LBRACK] o), (conf (o + 1) (wantValue false) (inA cs) noScalar), (VArray vs), st1, sc1.
  split_and!; [by apply (array_start d0 o vn cs sc _ Ha)|done|done| |by apply Rep_array|done].
  cbn [parseRawValueToken rt_Kind]. unfold mbind. rewrite (D_bind_ok _ _ _ _ _ _ _ Hrun).
  unfold mret, D_ret. cbn [length]. rewrite length_app. cbn [length]. do 3 f_equal. lia.
Qed.

(** *** Inline tables *)

Lemma parseInlineTableValue_S fuel m closed d st :
  parseInlineTableValue (S fuel) m closed d st =
    D_bind _ _ (λ tok,
      if isComment tok then parseInlineTableValue fuel m closed
      else
        match rt_Kind tok with
        | TokenKindInlineTableEnd => mret tt
        | TokenKindKey =>
            key ← checked (parseDottedKey (rt_Bytes tok));
            if closedInlinePrefix key closed ∅ then raising (λ d, semanticSyntaxErrorRaw (buf d) tok "cannot extend inline table")
            else
              v ← parseNextValue fuel;
              d ← reading get;
              _ ← building (assignUniqueRaw (buf d) tok m key v);
              closedInlineTables ← markClosedPaths closed key v ∅;
              parseInlineTableValue fuel m closedInlineTables
        | _ => raising (λ d, decoderSyntaxErrorForRawToken d tok "expected inline table key")
        end) (reading readToken) d st.
Proof using Type. done. Qed.

(** A value after the blank that follows an equals sign. *)
Lemma parseNextValue_text t n w b o vn cs sc rest st fuel :
  parses t → value_text n w t → keys_ok t = true → Forall (λ c, isBlank c = true) b →
  at_ o (b ++ w ++ rest) → value_end rest → count (Z.eqb containerArray) cs = n → 2 * length w + 1 ≤ fuel →
  ∃ v st' sc', parseNextValue fuel (conf o (wantValue vn) cs sc) st =
      (Ok v, conf (o + length b + length w) (after cs) cs sc', st') ∧ Rep st' (length st) t v ∧ keeps (length st) st st'.
Proof using Hbuf.
  intros Hp Hw Hk Hb Ha He Hn Hf. destruct fuel as [|fuel]; [lia|]. destruct (at_app _ _ _ _ Ha) as [Ha' _].
  destruct (Hp n w Hw Hk _ vn cs sc rest st fuel Ha' He Hn ltac:(lia)) as (tok & d1 & v & st' & sc' & Hd & Hc & _ & Hr & Hrep & Hkeep).
  exists v, st', sc'. split; [|done]. destruct (value_text_first _ _ _ _ Hw) as (c & u & E & Hs).
  cbn [parseNextValue]. unfold mbind. erewrite D_bind_ok; [|apply reading_ok].
  2: { eapply (readToken_blanks d0 Hbuf b o (wantValue vn)); [done|rewrite E in Ha; exact Ha|done|done|done|exact Hd]. }
  by rewrite Hc.
Qed.

(** The marks of the entries already read do not close a new key. *)
Lemma closed_new_key (closed : gmap bytes bytes) (m : gmap bytes val) k epochs :
  (∀ κ, is_Some (closed !! κ) → ∃ k', is_Some (m !! k') ∧ nul_free k' = true ∧ marks_under [k'] κ) →
  nul_free k = true → m !! k = None → closedInlinePrefix [k] closed epochs = false.
Proof using Type.
  intros Hc Hk Hm. unfold closedInlinePrefix. cbn [length seq existsb take]. rewrite orb_false_r. unfold has_context.
  cbn [encodedKeyPath]. destruct (closed !! k) as [c|] eqn:E; [|done].
  destruct (Hc k ltac:(eauto)) as (k' & [v Hv] & Hk' & q & Hq & Eq).
  assert ([k] = [k'] ++ q) as Hx; [|by simplify_list_eq].
  apply encodedKeyPath_inj; [done|done|by constructor|by constructor|exact Eq].
Qed.

(** One entry. *)
Lemma inline_entry (t : tval) (n : nat) (e : bytes * bytes) (k b : bytes) (o : nat) (m' : mode) (cs : list Z) (sc : tokenScalar) (rest : bytes) (st : store) (fuel m : nat) (closed : gmap bytes bytes) :
  parses t → value_text n e.2 t → keys_ok t = true → key_text e.1 k → (Z.of_nat (length e.1) ≤ MaxKeyLength (limits d0))%Z →
  nul_free k = true → Forall (λ c, isBlank c = true) b → m' = wantKey →
  at_ o (b ++ entry_text e ++ rest) → value_end rest → count (Z.eqb containerArray) (inT cs) = n → 2 * length e.2 + 1 ≤ fuel →
  m < length st → table st m !! k = None →
  (∀ κ, is_Some (closed !! κ) → ∃ k', is_Some (table st m !! k') ∧ nul_free k' = true ∧ marks_under [k'] κ) →
  ∃ v st' sc' closed',
    parseInlineTableValue (S fuel) m closed (conf o m' (inT cs) sc) st =
      parseInlineTableValue fuel m closed' (conf (o + length b + length (entry_text e)) (after (inT cs)) (inT cs) sc') st' ∧
    length st ≤ length st' ∧ (∀ id, id < length st → id ≠ m → table st' id = table st id) ∧
    table st' m = <[k := v]> (table st m) ∧ Rep st' (length st) t v ∧
    (∀ κ, is_Some (closed' !! κ) → ∃ k', is_Some (table st' m !! k') ∧ nul_free k' = true ∧ marks_under [k'] κ).
Proof using Hbuf.
  intros Hp Hw Hk Hkt Hmax Hnul Hb -> Ha He Hn Hf Hm Hfree Hcl. unfold entry_text, equals in *.
  rewrite <-!app_assoc in Ha. cbn [app] in Ha. destruct (at_app _ _ _ _ Ha) as [Ha1 _].
  assert (Forall is_byte e.1) as Hby by (apply (at_bytes d0 Hbuf) in Ha1; by apply Forall_app in Ha1 as [? _]).
  assert (at_ (o + length b + length e.1 + 2) ([SP] ++ e.2 ++ rest)) as Ha2.
  { assert (at_ (o + length b) ((e.1 ++ [SP; EQUALS]) ++ [SP] ++ e.2 ++ rest)) as Ha3 by (by rewrite <-app_assoc).
    destruct (at_app _ _ _ _ Ha3) as [Ha4 _]. rewrite length_app, Nat.add_assoc in Ha4. exact Ha4. }
  destruct (parseNextValue_text t n e.2 [SP] _ true (inT cs) noScalar rest st fuel Hp Hw Hk ltac:(by constructor) Ha2 He Hn Hf)
    as (v & st1 & sc1 & Hv & Hr & [Hlen Hkeep]).
  set (closed' := markClosedValuePaths (length (set_entry m k v st1) + 2) (set_entry m k v st1) ∅ closed [k] v).
  exists v, (set_entry m k v st1), sc1, closed'.
  assert (∀ id, table (set_entry m k v st1) id = if decide (m = id) then <[k := v]> (table st1 m) else table st1 id) as Htab
    by (intros id; apply table_set_entry; lia).
  assert (Rep (set_entry m k v st1) (length st) t v) as Hr'.
  { eapply (Rep_frame st1 _ (length st)); [done| | |exact Hr]; [by rewrite length_set_entry|]. intros id Hid. rewrite Htab. by rewrite decide_False by lia. }
  split_and!.
  - rewrite parseInlineTableValue_S. erewrite D_bind_ok; [|apply reading_ok].
    2: { destruct (key_first e.1 k Hkt) as (c & u & E & Hs & N1 & _).
         eapply (readToken_blanks d0 Hbuf b o wantKey); [done|rewrite E in Ha; exact Ha|exact Hs|done|done|].
         by apply (key_token d0 Hbuf e.1 k (o + length b) wantKey (inT cs) sc ([SP] ++ e.2 ++ rest)). }
    unfold isComment. cbn [rt_Kind rt_Bytes]. rewrite bool_decide_false by done. cbv iota. unfold mbind.
    erewrite D_bind_ok; [|unfold checked; by rewrite (key_text_parse e.1 k Hby Hkt)].
    rewrite (closed_new_key closed (table st m) k ∅ Hcl Hnul Hfree). rewrite (D_bind_ok _ _ _ _ _ _ _ Hv).
    erewrite D_bind_ok; [|by apply reading_ok].
    erewrite D_bind_ok; [|unfold building; cbn [assignUniqueRaw]; rewrite Hkeep, Hfree by done; reflexivity].
    erewrite D_bind_ok; [|reflexivity]. f_equal. rewrite !length_app. cbn [length]. f_equal. lia.
  - by rewrite length_set_entry.
  - intros id Hid Hne. rewrite Htab, decide_False by done. by apply Hkeep.
  - rewrite Htab, decide_True by done. by rewrite Hkeep.
  - done.
  - intros κ Hκ. rewrite Htab, decide_True, Hkeep by done.
    destruct (markClosed_at _ ∅ _ (length (set_entry m k v st1) + 2) closed [k] v t κ Hr' Hk) as [Hκ'|Hu].
    + unfold closed' in Hκ. rewrite Hκ' in Hκ. destruct (Hcl κ Hκ) as (k' & Hk' & Hrest). exists k'. split; [|done]. rewrite lookup_insert. case_decide; [eauto|done].
    + exists k. split; [rewrite lookup_insert_eq; eauto|done].
Qed.

Lemma inline_close b o m' cs sc rest st fuel m closed :
  Forall (λ c, isBlank c = true) b → at_ o (b ++ RBRACE :: rest) → m_lineEnd m' = false → m_lineStart m' = false →
  parseInlineTableValue (S fuel) m closed (conf o m' (inT cs) sc) st = (Ok tt, conf (o + length b + 1) (after cs) cs noScalar, st).
Proof using Hbuf.
  intros Hb Ha He Hl. rewrite parseInlineTableValue_S. erewrite D_bind_ok; [|apply reading_ok].
  2: { eapply (readToken_blanks d0 Hbuf b o m'); [done|exact Ha|done|done|congruence|].
       destruct (at_app _ _ _ _ Ha) as [Ha' _]. by apply (inline_end d0 _ m' cs sc rest). }
  done.
Qed.

(** Texts of the entries of a table. *)
Definition entries_text (n : nat) : list (bytes * bytes) → list (bytes * tval) → Prop :=
  Forall2 (λ e kv, key_text e.1 kv.1 ∧ (Z.of_nat (length e.1) ≤ MaxKeyLength (limits d0))%Z ∧ value_text n e.2 kv.2).

Lemma inline_rest kvs : Forall (λ kv, parses kv.2) kvs → ∀ n es o cs sc rest (st : store) fuel m (closed : gmap bytes bytes),
  entries_text n es kvs → keys_ok (TTable kvs) = true →
  at_ o (tail_text (entry_text <$> es) ++ SP :: RBRACE :: rest) →
  count (Z.eqb containerArray) (inT cs) = n → 2 * length (tail_text (entry_text <$> es)) + 1 ≤ fuel → m < length st →
  (∀ k, k ∈ kvs.*1 → table st m !! k = None) →
  (∀ κ, is_Some (closed !! κ) → ∃ k', is_Some (table st m !! k') ∧ nul_free k' = true ∧ marks_under [k'] κ) →
  ∃ st' sc', parseInlineTableValue fuel m closed (conf o (after (inT cs)) (inT cs) sc) st =
      (Ok tt, conf (o + length (tail_text (entry_text <$> es)) + 2) (after cs) cs sc', st') ∧ added m kvs st st'.
Proof using Hbuf.
  induction 1 as [|[k t] kvs Hp Hps IH]; intros n es o cs sc rest st fuel m closed Hes Hk Ha Hn Hf Hm Hfree Hcl;
    inversion Hes as [|e ? es' ? (Hkt & Hmax & Hw) Hes']; subst; cbn [fst snd] in *; (destruct fuel as [|fuel]; [lia|]).
  - exists st, noScalar. split; [|apply added_nil]. rewrite (inline_close [SP] o _ cs sc rest) by (done || by constructor).
    cbn. do 3 f_equal. lia.
  - pose proof Hk as Hk'. cbn [keys_ok fmap list_fmap forallb] in Hk'. rewrite !andb_true_iff, bool_decide_eq_true in Hk'.
    destruct Hk' as [[[Hnd1 Hnd2]%NoDup_cons [Hn1 Hn2]] [Hk1 Hk2]]. cbn [fst snd] in *.
    cbn [fmap list_fmap] in *. rewrite length_tail_text in Hf. fold (fmap (M := list) entry_text es') in *.
    assert (at_ o (COMMA :: [SP] ++ entry_text e ++ tail_text (entry_text <$> es') ++ SP :: RBRACE :: rest)) as Ha1.
    { unfold tail_text in Ha. cbn [fmap list_fmap concat] in Ha. rewrite <-!app_assoc in Ha. exact Ha. }
    destruct (at_cons _ _ _ _ Ha1) as (_ & _ & Ha2 & _).
    assert (length e.2 ≤ length (entry_text e)) as Hle by (unfold entry_text; rewrite !length_app; lia).
    destruct (inline_entry t _ e k [SP] (o + 1) wantKey cs sc (tail_text (entry_text <$> es') ++ SP :: RBRACE :: rest) st fuel m closed
      Hp Hw Hk1 Hkt Hmax Hn1 ltac:(by constructor) eq_refl Ha2) as (v & st1 & sc1 & closed1 & Hit & Hl1 & Hs1 & Ht1 & Hr1 & Hcl1);
      [|done|lia|done|by apply Hfree; left|done|].
    { apply (value_end_tail _ [SP; RBRACE] rest). cbn. by right; right; right. }
    assert (at_ (o + 1 + 1 + length (entry_text e)) (tail_text (entry_text <$> es') ++ SP :: RBRACE :: rest)) as Ha3.
    { destruct (at_app _ _ _ _ Ha2) as [Ha4 _]. by destruct (at_app _ _ _ _ Ha4). }
    destruct (IH _ es' (o + 1 + 1 + length (entry_text e)) cs sc1 rest st1 fuel m closed1 Hes') as (st2 & sc2 & Hrun & Hadd); [|exact Ha3|done|lia|lia| |done|].
    { cbn [keys_ok]. by rewrite Hn2, Hk2, bool_decide_true by done. }
    { intros k' Hk'. rewrite Ht1, lookup_insert_ne by set_solver. apply Hfree. by right. }
    exists st2, sc2. split; [|by eapply added_cons; eauto; apply Hfree; left].
    rewrite parseInlineTableValue_S, (D_bind_reading _ _ _ _ _ (readToken_comma d0 Hbuf o (after (inT cs)) (inT cs) sc _ Ha1 eq_refl eq_refl eq_refl)).
    cbn [inArray inT after m_noNewline]. change (containerInline =b containerArray) with false.
    change (Mode false false false false false) with wantKey. rewrite <-parseInlineTableValue_S.
    change (length [SP]) with 1 in Hit. rewrite Hit, Hrun, length_tail_text. do 3 f_equal. lia.
Qed.

Lemma parses_table kvs : Forall (λ kv, parses kv.2) kvs → parses (TTable kvs).
Proof using Hbuf.
  intros Hps n w Hw Hk o vn cs sc rest st fuel Ha He Hn Hf.
  inversion Hw as [|? ? ? ? Hl| |? es ? Hes]; subst; [done|].
  unfold table_text in *. cbn [app] in Ha. rewrite <-app_assoc in Ha. cbn [app] in Ha.
  destruct (at_cons _ _ _ _ Ha) as (_ & _ & Ha1 & _). cbn [length] in Hf. rewrite length_app in Hf. cbn [length] in Hf.
  destruct fuel as [|[|fuel]]; [lia|lia|].
  set (m := length st). set (st0 := st ++ [∅]). assert (length st0 = S m) as Hst0 by (unfold st0; rewrite length_app; simpl; lia).
  assert (∀ id, table st0 id = table st id) as Hnew by (intros id; apply (table_new st)).
  assert (table st0 m = ∅) as Hempty by (rewrite Hnew; by apply table_ge).
  assert (∃ st' sc', parseInlineTableValue (S fuel) m ∅ (conf (o + 1) wantKey (inT cs) noScalar) st0 =
    (Ok tt, conf (o + S (S (length (join comma (entry_text <$> es) ++ [SP; RBRACE])))) (after cs) cs sc', st') ∧ added m kvs st0 st')
    as (st' & sc' & Hrun & (Hl & Hs & Hd & _ & Hent)).
  { destruct Hes as [|e [k t] es kvs (Hkt & Hmax & Hv) Hes].
    - exists st0, noScalar. split; [|apply added_nil]. rewrite (inline_close [SP; SP] (o + 1) _ cs _ rest) by (done || by repeat constructor).
      cbn. do 3 f_equal. lia.
    - pose proof Hk as Hk'. cbn [keys_ok fmap list_fmap forallb] in Hk'. rewrite !andb_true_iff, bool_decide_eq_true in Hk'.
      destruct Hk' as [[[Hnd1 Hnd2]%NoDup_cons [Hn1 Hn2]] [Hk1 Hk2]]. cbn [fst snd] in *.
      apply Forall_cons in Hps as [Hp Hps]. cbn [fmap list_fmap] in *. fold (fmap (M := list) entry_text es) in *.
      rewrite join_tail in *. rewrite <-app_assoc in Ha1. rewrite !length_app in *.
      assert (at_ (o + 1) ([SP] ++ entry_text e ++ tail_text (entry_text <$> es) ++ SP :: RBRACE :: rest)) as Ha2 by exact Ha1.
      assert (length e.2 ≤ length (entry_text e)) as Hle by (unfold entry_text; rewrite !length_app; lia).
      destruct (inline_entry t _ e k [SP] (o + 1) wantKey cs noScalar (tail_text (entry_text <$> es) ++ SP :: RBRACE :: rest) st0 fuel m ∅
        Hp Hv Hk1 Hkt Hmax Hn1 ltac:(by constructor) eq_refl Ha2) as (v & st1 & sc1 & closed1 & Hit & Hl1 & Hs1 & Ht1 & Hr1 & Hcl1);
        [|done|lia|lia|by rewrite Hempty|intros κ [? ?]; set_solver|].
      { apply (value_end_tail _ [SP; RBRACE] rest). cbn. by right; right; right. }
      assert (at_ (o + 1 + 1 + length (entry_text e)) (tail_text (entry_text <$> es) ++ SP :: RBRACE :: rest)) as Ha3.
      { destruct (at_app _ _ _ _ Ha2) as [Ha4 _]. by destruct (at_app _ _ _ _ Ha4). }
      destruct (inline_rest kvs Hps _ es (o + 1 + 1 + length (entry_text e)) cs sc1 rest st1 fuel m closed1 Hes) as (st2 & sc2 & Hrun & Hadd); [|exact Ha3|done|lia|lia| |done|].
      { cbn [keys_ok]. by rewrite Hn2, Hk2, bool_decide_true by done. }
      { intros k' Hk'. rewrite Ht1, lookup_insert_ne, Hempty by set_solver. apply lookup_empty. }
      exists st2, sc2. split; [|eapply (added_cons m k t v kvs st0 st1 st2); eauto; [lia|by rewrite Hempty]].
      change (length [SP]) with 1 in Hit. rewrite Hit, Hrun. cbn [length]. do 3 f_equal. lia. }
  exists (RawToken TokenKindInlineTableStart [LBRACE] o), (conf (o + 1) wantKey (inT cs) noScalar), (VTable m), st', sc'.
  split_and!; [by apply (inline_start d0 o vn cs sc _ Ha)|done|done| | |].
  - cbn [parseRawValueToken rt_Kind]. unfold mbind. erewrite D_bind_ok; [|reflexivity].
    fold st0 m. rewrite (D_bind_ok _ _ _ _ _ _ _ Hrun). done.
  - apply Rep_table; [lia| |].
    + rewrite Hd, Hempty. set_solver.
    + intros k t Hin. destruct (Hent k t Hin) as (v & Hv & Hr). exists v. split; [done|].
      eapply (Rep_frame st' _ (length st0)); [lia|done|done|done].
  - split; [lia|]. intros id Hid. rewrite Hs by lia. apply Hnew.
Qed.

Lemma parses_all t : parses t.
Proof using Hbuf.
  induction t using tval_nested_ind; try (by eapply parses_leaf); [by apply parses_array|by apply parses_table].
Qed.

(** Whatever data a text spells, [parseNextValue] builds it in new maps. *)
Lemma parseNextValue_reads t n w b o vn cs sc rest st fuel :
  value_text n w t → keys_ok t = true → Forall (λ c, isBlank c = true) b →
  at_ o (b ++ w ++ rest) → value_end rest → count (Z.eqb containerArray) cs = n → 2 * length w + 1 ≤ fuel →
  ∃ v st' sc', parseNextValue fuel (conf o (wantValue vn) cs sc) st =
      (Ok v, conf (o + length b + length w) (after cs) cs sc', st') ∧ Rep st' (length st) t v ∧ keeps (length st) st st'.
Proof using Hbuf. intros. eapply parseNextValue_text; eauto using parses_all. Qed.
End values.
