(* ===== verification/TomlParseDoc.v ===== *)
(** Parsing forward, documents: the text of a document laid out as lines and
    blocks under headers, and that [parseDocument] builds the data it spells. *)
From S2P Require Import Prelude GoUtf8 Scan TomlBase Datetime TomlString TomlNumber TomlKey Decoder TomlTree TomlSkip TomlDocument TomlRead TomlParse.

(** ** The text of a document *)

Definition line_text (e : bytes * bytes) : bytes := entry_text e ++ [LF].

(** A header on a line of its own, after an empty line. *)
Definition header_line (array : bool) (ws : list bytes) : bytes := LF :: header_text array ws ++ [LF].

(** [doc_text L ws ks body kvs]: under the header of the path [ks], written [ws],
    the bytes [body] spell the table [kvs], first the entries with a line of
    their own.  An array of tables has empty elements here. *)
Inductive doc_text {K : ScanKernels} (L : Limits) : list bytes → list bytes → bytes → list (bytes * tval) → Prop :=
| doc_intro ws ks lines lkvs blocks bkvs :
    Forall2 (λ e kv, key_text e.1 kv.1 ∧ (Z.of_nat (length e.1) ≤ MaxKeyLength L)%Z ∧ value_text L 0 e.2 kv.2) lines lkvs →
    Forall2 (block_text L ws ks) blocks bkvs →
    doc_text L ws ks (concat (line_text <$> lines) ++ concat blocks) (lkvs ++ bkvs)
with block_text {K : ScanKernels} (L : Limits) : list bytes → list bytes → bytes → bytes * tval → Prop :=
| block_table ws ks w k body kvs :
    key_text w k → (Z.of_nat (length (join [DOT] (ws ++ [w]))) ≤ MaxKeyLength L)%Z →
    doc_text L (ws ++ [w]) (ks ++ [k]) body kvs →
    block_text L ws ks (header_line false (ws ++ [w]) ++ body) (k, TTable kvs)
| block_array ws ks w k n :
    key_text w k → (Z.of_nat (length (join [DOT] (ws ++ [w]))) ≤ MaxKeyLength L)%Z → 0 < n →
    block_text L ws ks (concat (repeat (header_line true (ws ++ [w])) n)) (k, TArray (repeat (TTable []) n)).

(** ** Bookkeeping *)

(** Nothing is recorded under this map key. *)
Definition unmarked (p : parser) (κ : bytes) : Prop :=
  declaredTables p !! κ = None ∧ κ ∉ arrayTables p ∧ closedInlineTables p !! κ = None.

(** Below the path [ks], nothing is recorded for the names [names]; no table on
    the way is closed. *)
Record clean (p : parser) (ks names : list bytes) : Prop := {
  cl_below : ∀ k q, k ∈ names → Forall (λ k, nul_free k = true) q → unmarked p (encodedKeyPath (ks ++ k :: q));
  cl_above : ∀ i, 0 < i ≤ length ks → closedInlineTables p !! encodedKeyPath (take i ks) = None;
  cl_dotted : dottedKeyTables p = ∅;
}.

Definition same_marks (p p' : parser) (κ : bytes) : Prop :=
  declaredTables p' !! κ = declaredTables p !! κ ∧ (κ ∈ arrayTables p' ↔ κ ∈ arrayTables p) ∧
  closedInlineTables p' !! κ = closedInlineTables p !! κ.

(** [p'] differs from [p] in its records at most below the names [names] of [ks]. *)
Definition marks_only (ks names : list bytes) (p p' : parser) : Prop :=
  dottedKeyTables p = ∅ → dottedKeyTables p' = ∅ ∧
  ∀ κ, (∀ k q, k ∈ names → Forall (λ k, nul_free k = true) q → κ ≠ encodedKeyPath (ks ++ k :: q)) → same_marks p p' κ.

Lemma marks_only_refl ks p : marks_only ks [] p p.
Proof. by split. Qed.

Lemma marks_only_trans ks n1 n2 p1 p2 p3 : marks_only ks n1 p1 p2 → marks_only ks n2 p2 p3 → marks_only ks (n1 ++ n2) p1 p3.
Proof.
  intros H1 H2 Hd. destruct (H1 Hd) as [Hd2 H1']. destruct (H2 Hd2) as [Hd3 H2']. split; [done|]. intros κ Hκ.
  destruct (H1' κ) as (E1 & E2 & E3); [intros; apply Hκ; [by apply elem_of_app; left|done]|].
  destruct (H2' κ) as (F1 & F2 & F3); [intros; apply Hκ; [by apply elem_of_app; right|done]|].
  unfold same_marks. rewrite F1, F2, F3. done.
Qed.

(** What is recorded deeper counts as recorded under the name it is below. *)
Lemma marks_only_deeper ks k names p p' :
  Forall (λ k, nul_free k = true) names → marks_only (ks ++ [k]) names p p' → marks_only ks [k] p p'.
Proof.
  intros Hn H Hd. destruct (H Hd) as [Hd' H']. split; [done|]. intros κ Hκ. apply H'. intros k' q Hin Hq ->.
  apply (Hκ k (k' :: q)); [by left|constructor; [|done]|by rewrite <-app_assoc]. rewrite Forall_forall in Hn. by apply Hn.
Qed.

Lemma path_inj ks k q k' q' :
  Forall (λ k, nul_free k = true) (ks ++ k :: q) → Forall (λ k, nul_free k = true) (ks ++ k' :: q') →
  encodedKeyPath (ks ++ k :: q) = encodedKeyPath (ks ++ k' :: q') → k = k' ∧ q = q'.
Proof.
  intros H1 H2 E. apply encodedKeyPath_inj in E; [|by destruct ks..|done|done]. by simplify_list_eq.
Qed.

Lemma clean_after ks n1 n2 p p' :
  Forall (λ k, nul_free k = true) (ks ++ n1 ++ n2) → NoDup (n1 ++ n2) →
  clean p ks (n1 ++ n2) → marks_only ks n1 p p' → clean p' ks n2.
Proof.
  intros [Hks Hns]%Forall_app Hnd [Hb Ha Hd] Hm. destruct (Hm Hd) as [Hd' Hm']. apply NoDup_app in Hnd as (_ & Hdis & _).
  rewrite Forall_forall in Hns. split; [| |done].
  - intros k q Hk Hq. destruct (Hb k q ltac:(set_solver) Hq) as (E1 & E2 & E3).
    destruct (Hm' (encodedKeyPath (ks ++ k :: q))) as (F1 & F2 & F3).
    + intros k' q' Hk' Hq' E. apply path_inj in E as [-> _].
      * by apply (Hdis k').
      * apply Forall_app; split; [done|]. constructor; [apply Hns; set_solver|done].
      * apply Forall_app; split; [done|]. constructor; [apply Hns; set_solver|done].
    + unfold unmarked. rewrite F1, F3, F2. done.
  - intros i Hi. destruct (Hm' (encodedKeyPath (take i ks))) as (_ & _ & ->); [|by apply Ha].
    intros k' q' Hk' Hq' E. apply encodedKeyPath_inj in E.
    + apply (f_equal length) in E. rewrite length_take, length_app in E. simpl in E. lia.
    + destruct ks, i; simpl in *; (done || lia).
    + by destruct ks.
    + by apply Forall_take.
    + apply Forall_app; split; [done|]. constructor; [apply Hns; set_solver|done].
Qed.

(** No prefix of the path of a new name is closed. *)
Lemma clean_open p ks names k epochs :
  clean p ks names → k ∈ names → closedInlinePrefix (ks ++ [k]) (closedInlineTables p) epochs = false.
Proof.
  intros [Hb Ha _] Hk. unfold closedInlinePrefix. apply not_true_iff_false. rewrite existsb_exists. intros (i & Hi%in_seq & Hc).
  rewrite length_app in Hi. simpl in Hi. unfold has_context in Hc. destruct (decide (i ≤ length ks)) as [Hle|Hgt].
  - rewrite take_app_le in Hc by done. by rewrite Ha in Hc by lia.
  - rewrite take_ge in Hc by (rewrite length_app; simpl; lia). by destruct (Hb k [] Hk ltac:(done)) as (_ & _ & E); rewrite E in Hc.
Qed.

(** ** The tables on the way *)

Fixpoint chain (st : store) (cur : nat) (path : list bytes) (id : nat) : Prop :=
  match path with
  | [] => cur = id
  | p :: path => ∃ next, table st cur !! p = Some (VTable next) ∧ cur < next ∧ chain st next path id
  end.

Lemma chain_le st path : ∀ cur id, chain st cur path id → cur ≤ id.
Proof. induction path as [|p path IH]; intros cur id; cbn; [lia|]. intros (n & _ & Hlt & H%IH). lia. Qed.

Lemma chain_frame st st' path : ∀ cur id,
  (∀ j, j < id → table st' j = table st j) → chain st cur path id → chain st' cur path id.
Proof.
  induction path as [|p path IH]; intros cur id Hs; cbn; [done|]. intros (n & Ht & Hlt & H). exists n.
  pose proof (chain_le _ _ _ _ H). rewrite Hs by lia. auto.
Qed.

Lemma chain_app st path : ∀ cur id p next,
  chain st cur path id → table st id !! p = Some (VTable next) → id < next → chain st cur (path ++ [p]) next.
Proof.
  induction path as [|q path IH]; intros cur id p next; cbn.
  - intros -> Ht Hlt. exists next. auto.
  - intros (n & Hn & Hlt & H) Ht Hid. exists n. split_and!; [done|done|]. by eapply IH.
Qed.

Section trees.
Context {K : ScanKernels} (data : bytes) (tok : rawToken).

Lemma ensureTableRaw_chain path : ∀ cur st id k,
  chain st cur path id → table st id !! k = None →
  ensureTableRaw data tok (path ++ [k]) cur st =
    (Ok (length st), set_entry id k (VTable (length st)) (newDocumentMap st).2).
Proof using Type.
  induction path as [|p path IH]; intros cur st id k; cbn [chain app ensureTableRaw].
  - intros -> ->. done.
  - intros (n & -> & _ & H) Hk. by apply IH.
Qed.

Lemma ensureTableRaw_reach path : ∀ cur st id, chain st cur path id → ensureTableRaw data tok path cur st = (Ok id, st).
Proof using Type.
  induction path as [|p path IH]; intros cur st id; cbn [chain ensureTableRaw]; [by intros ->|].
  intros (n & -> & _ & H). by apply IH.
Qed.

(** Both ways the code appends to an array of tables. *)
Lemma appendArrayTable_chain ks k st id :
  chain st 0 ks id →
  (if length (ks ++ [k]) =? 1 then appendArrayTableKeyRaw data tok 0 ((ks ++ [k]) !!! 0) st
   else appendArrayTableRaw data tok 0 (ks ++ [k]) st) = appendArrayTableKeyRaw data tok id k st.
Proof using Type.
  intros Hc. rewrite length_app. cbn [length]. destruct ks as [|p ks].
  - cbn in Hc. by subst.
  - destruct (Nat.eqb_spec (length (p :: ks) + 1) 1) as [E|]; [simpl in E; lia|]. unfold appendArrayTableRaw.
    cbn [app]. rewrite app_comm_cons, length_app, last_snoc. cbn [length].
    replace (S (length ks) + 1 - 1) with (length (p :: ks)) by (simpl; lia). rewrite take_app_length.
    by rewrite (ensureTableRaw_reach _ _ _ _ Hc).
Qed.
End trees.

(** ** Statements *)

Section statements.
Context {K : ScanKernels} (ToLower : bytes → bytes) (d0 : Decoder) (Hbuf : Forall is_byte (buf d0)).
Abbreviation conf := (conf d0).
Abbreviation at_ := (at_ d0).
Abbreviation data := (buf d0).
Abbreviation statements := (parseStatements ToLower (buf d0) None).

(** At the start of a line with [w] left. *)
Definition ready (o : nat) (m : mode) (w : bytes) : Prop :=
  m = lineStart ∧ at_ o w ∨ m = after [] ∧ at_ o (LF :: w).

Lemma ready_lines o m i w : ready o m (repeat LF i ++ w) →
  ∃ n, at_ o (repeat LF n ++ w) ∧ (m = lineStart ∨ m = after [] ∧ 0 < n).
Proof using Type.
  clear ToLower. intros [[-> Ha]|[-> Ha]]; [exists i; auto|]. exists (S i). split; [exact Ha|]. right. split; [done|lia].
Qed.

(** After [n] statements the loop is in another state. *)
Definition runs (n : nat) (p : parser) (d : Decoder) (st : store) (p' : parser) (d' : Decoder) (st' : store) : Prop :=
  ∀ fuel, statements (n + fuel) p d st = statements fuel p' d' st'.

Lemma runs_refl p d st : runs 0 p d st p d st.
Proof using Type. done. Qed.

Lemma runs_trans n1 n2 p1 d1 st1 p2 d2 st2 p3 d3 st3 :
  runs n1 p1 d1 st1 p2 d2 st2 → runs n2 p2 d2 st2 p3 d3 st3 → runs (n1 + n2) p1 d1 st1 p3 d3 st3.
Proof using Type. intros H1 H2 fuel. by rewrite <-Nat.add_assoc, H1, H2. Qed.

Lemma runs_one p d st tok d1 p' d2 st' :
  readToken d = (Ok tok, d1) → parseStatement ToLower data None tok p d1 st = (Ok p', d2, st') → runs 1 p d st p' d2 st'.
Proof using Type.
  intros Ht Hp fuel. cbn [Nat.add parseStatements]. rewrite Ht. unfold mbind. by rewrite (D_bind_ok _ _ _ _ _ _ _ Hp).
Qed.

(** In the table [id] at [ks], as the parser holds it. *)
Definition inside (p : parser) (ks : list bytes) (id : nat) : Prop :=
  current p = Some id ∧ currentPath p = ks ∧ currentFilter p = None ∧ dottedKeyTables p = ∅.

(** A line [key = value]. *)
Lemma line_runs e k t o m sc w p st ks id :
  key_text e.1 k → (Z.of_nat (length e.1) ≤ MaxKeyLength (limits d0))%Z → value_text (limits d0) 0 e.2 t →
  keys_ok t = true → Forall (λ k, nul_free k = true) (ks ++ [k]) →
  ready o m (line_text e ++ w) → inside p ks id → id < length st → table st id !! k = None →
  ∃ p' o' sc' st' v,
    runs 1 p (conf o m [] sc) st p' (conf o' (after []) [] sc') st' ∧ ready o' (after []) w ∧ inside p' ks id ∧
    marks_only ks [k] p p' ∧ length st ≤ length st' ∧ (∀ j, j < length st → j ≠ id → table st' j = table st j) ∧
    table st' id = <[k := v]> (table st id) ∧ Rep st' (length st) t v.
Proof using Hbuf.
  intros Hkt Hmax Hv Hk Hnul Hready (Hc & Hp & Hf & Hd) Hid Hfree.
  destruct (ready_lines o m 0 (line_text e ++ w) Hready) as (n & Ha & Hm).
  unfold line_text, entry_text, equals in Ha. rewrite <-!app_assoc in Ha. cbn [app] in Ha.
  destruct (at_app _ _ _ _ Ha) as [Ha1 _]. rewrite repeat_length in Ha1.
  assert (Forall is_byte e.1) as Hby by (apply (at_bytes d0 Hbuf) in Ha1; by apply Forall_app in Ha1 as [? _]).
  set (o1 := o + n + length e.1 + 2).
  assert (at_ o1 ([SP] ++ e.2 ++ LF :: w)) as Ha2.
  { assert (at_ (o + n) ((e.1 ++ [SP; EQUALS]) ++ [SP] ++ e.2 ++ LF :: w)) as Ha3 by (by rewrite <-app_assoc).
    destruct (at_app _ _ _ _ Ha3) as [Ha4 _]. rewrite length_app, Nat.add_assoc in Ha4. exact Ha4. }
  pose proof (at_length _ _ _ Ha2) as Hlen. rewrite !length_app in Hlen.
  destruct (parseNextValue_reads d0 Hbuf t 0 e.2 [SP] o1 true [] noScalar (LF :: w) st (valueFuel (conf o1 (wantValue true) [] noScalar))
    Hv Hk ltac:(by constructor) Ha2 ltac:(cbn; tauto) eq_refl) as (v & st1 & sc1 & Hpv & Hr & [Hl Hkeep]).
  { unfold valueFuel. change (buf (conf o1 ?m' [] noScalar)) with (buf d0). change (off (conf o1 ?m' [] noScalar)) with o1. lia. }
  set (st' := set_entry id k v st1). set (path := ks ++ [k]).
  set (closed := markClosedValuePaths (length st' + 2) st' (arrayTableEpochs p) (closedInlineTables p) path v).
  assert (∀ j, table st' j = if decide (id = j) then <[k := v]> (table st1 id) else table st1 j) as Htab
    by (intros j; apply table_set_entry; lia).
  assert (Rep st' (length st) t v) as Hr'.
  { eapply (Rep_frame st1 _ (length st)); [done| | |exact Hr]; [unfold st'; by rewrite length_set_entry|].
    intros j Hj. rewrite Htab. by rewrite decide_False by lia. }
  exists (set_marks ∅ closed p), (o1 + 1 + length e.2), sc1, st', v. split_and!.
  - eapply (runs_one p _ st (RawToken TokenKindKey e.1 (o + n))).
    + destruct (key_first e.1 k Hkt) as (c & u & E & Hs & N1 & _).
      eapply (readToken_line d0 Hbuf n o m sc); [done|rewrite E in Ha; exact Ha|exact Hs|].
      assert (at_ (o + n) (c :: u ++ SP :: EQUALS :: SP :: e.2 ++ LF :: w)) as Hx by (rewrite E in Ha1; exact Ha1).
      rewrite (readTokenAt_dispatch d0 _ _ _ _ _ _ Hx) by (done || (intros _; lia)).
      by apply (key_token d0 Hbuf e.1 k (o + n) lineStart [] sc ([SP] ++ e.2 ++ LF :: w)).
    + cbn [parseStatement rt_Kind]. unfold parseKey. rewrite Hc, Hf. cbn [lookup rt_Bytes]. unfold mbind.
      erewrite D_bind_ok; [|unfold checked; rewrite (keyPath_parseDottedKey e.1 Hby), (key_text_parse e.1 k Hby Hkt); reflexivity].
      cbn [length Nat.ltb Nat.leb]. erewrite D_bind_ok; [|by apply reading_ok]. rewrite (D_bind_ok _ _ _ _ _ _ _ Hpv).
      erewrite D_bind_ok; [|unfold building; cbn [assignUniqueRaw]; rewrite Hkeep, Hfree by done; reflexivity].
      erewrite D_bind_ok; [|reflexivity]. rewrite Hp, Hd. unfold markDottedKeyTables. rewrite length_app. cbn [length].
      rewrite Nat.sub_diag. done.
  - right. split; [done|]. destruct (at_app _ _ _ _ Ha2) as [Ha3 _]. by destruct (at_app _ _ _ _ Ha3) as [Ha4 _].
  - done.
  - intros _. split; [done|]. intros κ Hκ. split; [done|]. split; [done|]. cbn [set_marks closedInlineTables].
    destruct (markClosed_at st' (arrayTableEpochs p) _ (length st' + 2) (closedInlineTables p) path v t κ Hr' Hk) as [E|(q & Hq & E)]; [done|].
    exfalso. apply (Hκ k q); [by left|done|]. rewrite E. unfold path. by rewrite <-app_assoc.
  - unfold st'. by rewrite length_set_entry.
  - intros j Hj Hne. rewrite Htab, decide_False by done. by apply Hkeep.
  - rewrite Htab, decide_True, Hkeep by done. done.
  - done.
Qed.

Lemma added_one id k t v st st' :
  id < length st → length st ≤ length st' → (∀ j, j < length st → j ≠ id → table st' j = table st j) →
  table st' id = <[k := v]> (table st id) → table st id !! k = None → Rep st' (length st) t v → added id [(k, t)] st st'.
Proof using Type. intros. eapply added_cons; eauto. apply added_nil. Qed.

Lemma lines_runs lines lkvs : Forall2 (λ e kv, key_text e.1 kv.1 ∧ (Z.of_nat (length e.1) ≤ MaxKeyLength (limits d0))%Z ∧
    value_text (limits d0) 0 e.2 kv.2) lines lkvs → ∀ o m sc w p st ks id,
  keys_ok (TTable lkvs) = true → Forall (λ k, nul_free k = true) ks →
  ready o m (concat (line_text <$> lines) ++ w) → inside p ks id → id < length st → (∀ k, k ∈ lkvs.*1 → table st id !! k = None) →
  ∃ n p' o' m' sc' st', runs n p (conf o m [] sc) st p' (conf o' m' [] sc') st' ∧ n ≤ length (concat (line_text <$> lines)) ∧
    ready o' m' w ∧ inside p' ks id ∧ marks_only ks lkvs.*1 p p' ∧ added id lkvs st st'.
Proof using Hbuf.
  induction 1 as [|e [k t] lines lkvs (Hkt & Hmax & Hv) Hls IH]; intros o m sc w p st ks id Hk Hks Hready Hin Hid Hfree.
  - exists 0, p, o, m, sc, st. do 4 (split; [done || apply runs_refl|]). split; [apply marks_only_refl|apply added_nil].
  - pose proof Hk as Hk'. cbn [keys_ok fmap list_fmap forallb] in Hk'. rewrite !andb_true_iff, bool_decide_eq_true in Hk'.
    destruct Hk' as [[[Hnd1 Hnd2]%NoDup_cons [Hn1 Hn2]] [Hk1 Hk2]]. cbn [fst snd] in *.
    cbn [fmap list_fmap concat] in *. rewrite <-app_assoc in Hready.
    destruct (line_runs e k t o m sc _ p st ks id Hkt Hmax Hv Hk1 ltac:(apply Forall_app; split; [done|by constructor]) Hready Hin Hid
      ltac:(apply Hfree; by left)) as (p1 & o1 & sc1 & st1 & v & Hrun1 & Hready1 & Hin1 & Hm1 & Hl1 & Hs1 & Ht1 & Hr1).
    destruct (IH o1 (after []) sc1 w p1 st1 ks id) as (n & p2 & o2 & m2 & sc2 & st2 & Hrun2 & Hn & Hready2 & Hin2 & Hm2 & Hadd2);
      [|done|done|done|lia| |].
    { cbn [keys_ok]. by rewrite Hn2, Hk2, bool_decide_true by done. }
    { intros k' Hk'. rewrite Ht1, lookup_insert_ne by set_solver. apply Hfree. by right. }
    exists (1 + n), p2, o2, m2, sc2, st2. split; [by eapply runs_trans|].
    split; [rewrite length_app; unfold line_text at 1; rewrite length_app; cbn [length]; lia|]. split; [done|]. split; [done|].
    split; [exact (marks_only_trans ks [k] lkvs.*1 p p1 p2 Hm1 Hm2)|]. eapply added_cons; eauto. apply Hfree. by left.
Qed.

(** A header of a table. *)
Lemma header_runs ws ks w k o m sc rest p st id :
  Forall2 key_text ws ks → key_text w k → (Z.of_nat (length (join [DOT] (ws ++ [w]))) ≤ MaxKeyLength (limits d0))%Z →
  ready o m (header_line false (ws ++ [w]) ++ rest) → clean p ks [k] →
  chain st 0 ks id → table st id !! k = None →
  ∃ p' o' sc',
    runs 1 p (conf o m [] sc) st p' (conf o' (after []) [] sc')
      (set_entry id k (VTable (length st)) (newDocumentMap st).2) ∧
    ready o' (after []) rest ∧ inside p' (ks ++ [k]) (length st) ∧
    p' = declare (encodedKeyPath (ks ++ [k])) (declarationContext (ks ++ [k]) (arrayTableEpochs p)) (enter_table (Some (length st, ks ++ [k], None)) p).
Proof using Hbuf.
  intros Hws Hkt Hmax Hready Hclean Hchain Hfree.
  assert (Forall2 key_text (ws ++ [w]) (ks ++ [k])) as Hpath by (apply Forall2_app; [done|by constructor]).
  assert (ws ++ [w] ≠ []) as Hne by (by destruct ws).
  destruct (ready_lines o m 1 (header_text false (ws ++ [w]) ++ LF :: rest)) as (n & Ha & Hm).
  { unfold header_line in Hready. cbn [app] in Hready. by rewrite <-app_assoc in Hready. }
  destruct (at_app _ _ _ _ Ha) as [Ha1 _]. rewrite repeat_length in Ha1. destruct (at_app _ _ _ _ Ha1) as [Ha2 _].
  assert (Forall is_byte (path_text (ws ++ [w]))) as Hby.
  { apply (at_bytes d0 Hbuf) in Ha1. unfold header_text in Ha1. cbn [opening] in Ha1. rewrite <-!app_assoc in Ha1.
    apply Forall_app in Ha1 as [_ Ha1]. by apply Forall_app in Ha1 as [? _]. }
  eexists _, (o + n + length (header_text false (ws ++ [w]))), noScalar. split_and!; [|right; by split| |reflexivity].
  - eapply (runs_one p _ st (RawToken (headerKind false) (header_text false (ws ++ [w])) (o + n))).
    + eapply (readToken_line d0 Hbuf n o m sc LBRACK (path_text (ws ++ [w]) ++ [RBRACK] ++ LF :: rest)); [done| |done|].
      { unfold header_text in Ha. cbn [opening closing] in Ha. rewrite <-!app_assoc in Ha. exact Ha. }
      by apply (header_token d0 Hbuf false (ws ++ [w]) (ks ++ [k]) (o + n) sc (LF :: rest)).
    + cbn [parseStatement rt_Kind headerKind]. unfold parseTableHeader. cbn [rt_Bytes].
      rewrite (trimHeaderKey_text false _ _ Hne Hpath). unfold mbind.
      erewrite D_bind_ok; [|unfold checked; rewrite (path_text_parse _ _ Hne Hpath Hby); reflexivity].
      destruct (cl_below _ _ _ Hclean k [] ltac:(by left) ltac:(done)) as (E1 & E2 & E3).
      rewrite bool_decide_false by done. rewrite (cl_dotted _ _ _ Hclean). unfold has_context at 1. rewrite lookup_empty.
      rewrite (clean_open p ks [k] k _ Hclean) by (by left). unfold has_context. rewrite E1. cbn [lookupPath].
      erewrite D_bind_ok; [|unfold building; rewrite (ensureTableRaw_chain (buf d0) _ ks 0 st id k Hchain Hfree); reflexivity].
      done.
  - by destruct Hclean.
Qed.

(** What the header of an array of tables needs, before and between its elements. *)
Definition array_open (p : parser) (ks : list bytes) (k : bytes) : Prop :=
  declaredTables p !! encodedKeyPath (ks ++ [k]) = None ∧
  (∀ epochs, closedInlinePrefix (ks ++ [k]) (closedInlineTables p) epochs = false) ∧ dottedKeyTables p = ∅.

Lemma clean_array_open p ks names k : clean p ks names → k ∈ names → array_open p ks k.
Proof using Type.
  clear ToLower Hbuf. intros Hc Hk. destruct (cl_below _ _ _ Hc k [] Hk ltac:(done)) as (E1 & _). split_and!; [done| |by destruct Hc].
  intros epochs. by eapply clean_open.
Qed.

(** The array under [k] so far; an empty one has no entry. *)
Definition array_so_far (m : gmap bytes val) (k : bytes) (arr : list val) : Prop :=
  m !! k = match arr with [] => None | _ => Some (VArray arr) end.

Lemma array_header_runs ws ks w k o m sc rest p st id arr :
  Forall2 key_text ws ks → key_text w k → (Z.of_nat (length (join [DOT] (ws ++ [w]))) ≤ MaxKeyLength (limits d0))%Z →
  ready o m (header_line true (ws ++ [w]) ++ rest) → array_open p ks k → chain st 0 ks id → array_so_far (table st id) k arr →
  ∃ p' o' sc',
    runs 1 p (conf o m [] sc) st p' (conf o' (after []) [] sc')
      (set_entry id k (VArray (arr ++ [VTable (length st)])) (newDocumentMap st).2) ∧
    ready o' (after []) rest ∧ array_open p' ks k ∧ marks_only ks [k] p p'.
Proof using Hbuf.
  intros Hws Hkt Hmax Hready (E1 & E2 & E3) Hchain Harr.
  assert (Forall2 key_text (ws ++ [w]) (ks ++ [k])) as Hpath by (apply Forall2_app; [done|by constructor]).
  assert (ws ++ [w] ≠ []) as Hne by (by destruct ws).
  destruct (ready_lines o m 1 (header_text true (ws ++ [w]) ++ LF :: rest)) as (n & Ha & Hm).
  { unfold header_line in Hready. cbn [app] in Hready. by rewrite <-app_assoc in Hready. }
  destruct (at_app _ _ _ _ Ha) as [Ha1 _]. rewrite repeat_length in Ha1. destruct (at_app _ _ _ _ Ha1) as [Ha2 _].
  assert (Forall is_byte (path_text (ws ++ [w]))) as Hby.
  { apply (at_bytes d0 Hbuf) in Ha1. unfold header_text in Ha1. cbn [opening] in Ha1. rewrite <-!app_assoc in Ha1.
    apply Forall_app in Ha1 as [_ Ha1]. by apply Forall_app in Ha1 as [? _]. }
  eexists (enter_table (Some (length st, ks ++ [k], None)) (declare_array (encodedKeyPath (ks ++ [k])) p)),
    (o + n + length (header_text true (ws ++ [w]))), noScalar. split; [|split; [right; by split|split; [exact (conj E1 (conj E2 E3))|]]].
  - eapply (runs_one p _ st (RawToken (headerKind true) (header_text true (ws ++ [w])) (o + n))).
    + eapply (readToken_line d0 Hbuf n o m sc LBRACK (LBRACK :: path_text (ws ++ [w]) ++ [RBRACK; RBRACK] ++ LF :: rest)); [done| |done|].
      { unfold header_text in Ha. cbn [opening closing] in Ha. rewrite <-!app_assoc in Ha. exact Ha. }
      by apply (header_token d0 Hbuf true (ws ++ [w]) (ks ++ [k]) (o + n) sc (LF :: rest)).
    + cbn [parseStatement rt_Kind headerKind]. unfold parseArrayTableHeader. cbn [rt_Bytes].
      rewrite (trimHeaderKey_text true _ _ Hne Hpath). unfold mbind.
      erewrite D_bind_ok; [|unfold checked; rewrite (path_text_parse _ _ Hne Hpath Hby); reflexivity].
      rewrite E1, E3. unfold has_context at 1. rewrite lookup_empty, E2. cbn [lookupPath].
      erewrite D_bind_ok; [reflexivity|]. unfold building.
      assert (∀ st, (if length (ks ++ [k]) =? 1 then appendArrayTableKeyRaw data (RawToken TokenKindArrayTableHeader (header_text true (ws ++ [w])) (o + n)) 0 ((ks ++ [k]) !!! 0)
        else appendArrayTableRaw data (RawToken TokenKindArrayTableHeader (header_text true (ws ++ [w])) (o + n)) 0 (ks ++ [k])) st =
        if length (ks ++ [k]) =? 1 then appendArrayTableKeyRaw data (RawToken TokenKindArrayTableHeader (header_text true (ws ++ [w])) (o + n)) 0 ((ks ++ [k]) !!! 0) st
        else appendArrayTableRaw data (RawToken TokenKindArrayTableHeader (header_text true (ws ++ [w])) (o + n)) 0 (ks ++ [k]) st) as ->
        by (intros; by destruct (_ =? _)).
      rewrite (appendArrayTable_chain _ _ ks k st id Hchain). unfold appendArrayTableKeyRaw.
      destruct (newDocumentMap st) as [t st1] eqn:En. assert (t = length st ∧ table st1 id = table st id) as [-> Ht].
      { pose proof (table_new st id) as Ht. unfold newDocumentMap in *. injection En as <- <-. done. }
      rewrite Ht, Harr. destruct arr; done.
  - intros _. split; [done|]. intros κ Hκ. split; [done|]. split; [|done]. cbn [enter_table declare_array arrayTables].
    rewrite elem_of_union, elem_of_singleton. split; [|tauto]. intros [->|]; [|done]. exfalso.
    by apply (Hκ k []); [left| |].
Qed.

Lemma arrays_run n ws ks w k id : ∀ o m sc rest p st arr,
  Forall2 key_text ws ks → key_text w k → (Z.of_nat (length (join [DOT] (ws ++ [w]))) ≤ MaxKeyLength (limits d0))%Z →
  ready o m (concat (repeat (header_line true (ws ++ [w])) n) ++ rest) → array_open p ks k →
  chain st 0 ks id → id < length st → array_so_far (table st id) k arr →
  ∃ p' o' m' sc' st' arr', runs n p (conf o m [] sc) st p' (conf o' m' [] sc') st' ∧ ready o' m' rest ∧
    marks_only ks [k] p p' ∧ length st ≤ length st' ∧ (∀ j, j < length st → j ≠ id → table st' j = table st j) ∧
    table st' id = (if n =? 0 then table st id else <[k := VArray (arr ++ arr')]> (table st id)) ∧
    length arr' = n ∧ Forall (Rep st' (length st) (TTable [])) arr'.
Proof using Hbuf.
  induction n as [|n IH]; intros o m sc rest p st arr Hws Hkt Hmax Hready Hop Hchain Hid Harr.
  - exists p, o, m, sc, st, []. do 2 (split; [done || apply runs_refl|]). split; [by intros ?; split|]. done.
  - cbn [repeat concat] in Hready. rewrite <-app_assoc in Hready.
    destruct (array_header_runs ws ks w k o m sc _ p st id arr Hws Hkt Hmax Hready Hop Hchain Harr)
      as (p1 & o1 & sc1 & Hrun1 & Hready1 & Hop1 & Hm1).
    set (st1 := set_entry id k (VArray (arr ++ [VTable (length st)])) (newDocumentMap st).2) in *.
    assert (length st1 = S (length st)) as Hl1 by (unfold st1; rewrite length_set_entry; simpl; rewrite length_app; simpl; lia).
    assert (∀ j, table st1 j = if decide (id = j) then <[k := VArray (arr ++ [VTable (length st)])]> (table st id) else table st j) as Ht1.
    { intros j. unfold st1. rewrite table_set_entry by (simpl; rewrite length_app; lia). by rewrite !table_new. }
    destruct (IH o1 (after []) sc1 rest p1 st1 (arr ++ [VTable (length st)]) Hws Hkt Hmax Hready1 Hop1)
      as (p2 & o2 & m2 & sc2 & st2 & arr2 & Hrun2 & Hready2 & Hm2 & Hl2 & Hs2 & Ht2 & Hn2 & Hr2).
    { eapply chain_frame; [|done]. intros j Hj. rewrite Ht1. by rewrite decide_False by lia. }
    { lia. }
    { unfold array_so_far. rewrite Ht1, decide_True, lookup_insert_eq by done. by destruct arr. }
    exists p2, o2, m2, sc2, st2, (VTable (length st) :: arr2). split_and!.
    + exact (runs_trans 1 n _ _ _ _ _ _ _ _ _ Hrun1 Hrun2).
    + done.
    + intros Hd. destruct (Hm1 Hd) as [Hd1 Hs1]. destruct (Hm2 Hd1) as [Hd2 Hs2']. split; [done|]. intros κ Hκ.
      destruct (Hs1 κ Hκ) as (F1 & F2 & F3). destruct (Hs2' κ Hκ) as (G1 & G2 & G3). unfold same_marks. by rewrite G1, G2, G3.
    + lia.
    + intros j Hj Hne. rewrite Hs2 by (done || lia). rewrite Ht1. by rewrite decide_False by done.
    + rewrite Ht2, Ht1, decide_True by done. destruct (n =? 0) eqn:En.
      * destruct n; [|done]. destruct arr2; [done|done].
      * cbn [Nat.eqb]. by rewrite insert_insert_eq, <-app_assoc.
    + simpl. lia.
    + constructor; [|eapply Forall_impl; [exact Hr2|]; intros v Hv; eapply (Rep_frame st2 _ (length st1)); [lia|done|done|done]].
      apply Rep_table; [lia| |intros ? ? []%not_elem_of_nil].
      rewrite Hs2 by lia. rewrite Ht1, decide_False, table_ge by lia. done.
Qed.

(** *** Blocks and documents *)

(** The body of a table is read and its entries are added to it. *)
Definition doc_runs (kvs : list (bytes * tval)) : Prop := ∀ ws ks body o m sc w p st id,
  doc_text (limits d0) ws ks body kvs → keys_ok (TTable kvs) = true → Forall2 key_text ws ks →
  Forall (λ k, nul_free k = true) ks → ready o m (body ++ w) → inside p ks id → clean p ks kvs.*1 →
  chain st 0 ks id → id < length st → table st id = ∅ →
  ∃ n p' o' m' sc' st', runs n p (conf o m [] sc) st p' (conf o' m' [] sc') st' ∧ n ≤ length body ∧ ready o' m' w ∧
    marks_only ks kvs.*1 p p' ∧ added id kvs st st'.

Lemma length_header_line array ws : 1 ≤ length (header_line array ws).
Proof using Type. clear. unfold header_line. simpl. lia. Qed.

Lemma block_runs ws ks block k t o m sc w p st id :
  match t with TTable kvs => doc_runs kvs | _ => True end →
  block_text (limits d0) ws ks block (k, t) → keys_ok t = true → nul_free k = true → Forall2 key_text ws ks →
  Forall (λ k, nul_free k = true) ks → ready o m (block ++ w) → clean p ks [k] → chain st 0 ks id → id < length st →
  table st id !! k = None →
  ∃ n p' o' m' sc' st', runs n p (conf o m [] sc) st p' (conf o' m' [] sc') st' ∧ n ≤ length block ∧ ready o' m' w ∧
    marks_only ks [k] p p' ∧ added id [(k, t)] st st'.
Proof using Hbuf.
  intros Hdoc Hb Hk Hnk Hws Hks Hready Hclean Hchain Hid Hfree.
  inversion Hb as [? ? wk ? body kvs Hkt Hmax Hbody|? ? wk ? n Hkt Hmax Hn]; subst.
  - rewrite <-app_assoc in Hready.
    destruct (header_runs ws ks wk k o m sc _ p st id Hws Hkt Hmax Hready Hclean Hchain Hfree) as (p1 & o1 & sc1 & Hrun1 & Hready1 & Hin1 & Hp1).
    set (st1 := set_entry id k (VTable (length st)) (newDocumentMap st).2) in *.
    assert (length st1 = S (length st)) as Hl1 by (unfold st1; rewrite length_set_entry; simpl; rewrite length_app; simpl; lia).
    assert (∀ j, table st1 j = if decide (id = j) then <[k := VTable (length st)]> (table st id) else table st j) as Ht1.
    { intros j. unfold st1. rewrite table_set_entry by (simpl; rewrite length_app; lia). by rewrite !table_new. }
    pose proof Hk as Hk'. cbn [keys_ok] in Hk'. rewrite !andb_true_iff, forallb_Forall in Hk'. destruct Hk' as [[_ Hnames] _].
    assert (∀ κ, same_marks p p1 κ ∨ κ = encodedKeyPath (ks ++ [k])) as Hsame.
    { intros κ. destruct (decide (κ = encodedKeyPath (ks ++ [k]))) as [|Hne]; [by right|left]. subst p1.
      unfold same_marks. cbn [declare enter_table declaredTables arrayTables closedInlineTables]. by rewrite lookup_insert_ne. }
    assert (∀ k' q, Forall (λ k, nul_free k = true) (k' :: q) → encodedKeyPath ((ks ++ [k]) ++ k' :: q) ≠ encodedKeyPath (ks ++ [k])) as Hdeep.
    { intros k' q Hq E. apply encodedKeyPath_inj in E.
      - apply (f_equal length) in E. rewrite !length_app in E. simpl in E. lia.
      - by destruct ks.
      - by destruct ks.
      - apply Forall_app; split; [|done]. apply Forall_app; split; [done|by constructor].
      - apply Forall_app; split; [done|by constructor]. }
    destruct (Hdoc (ws ++ [wk]) (ks ++ [k]) body o1 (after []) sc1 w p1 st1 (length st) Hbody Hk)
      as (n & p2 & o2 & m2 & sc2 & st2 & Hrun2 & Hn & Hready2 & Hm2 & Hadd); [| |done|done| | |lia| |].
    { apply Forall2_app; [done|by constructor]. }
    { apply Forall_app; split; [done|by constructor]. }
    { destruct Hclean as [Hcb Hca Hcd]. split.
      - intros k' q Hin Hq. assert (Forall (λ k, nul_free k = true) (k' :: q)) as Hq'.
        { constructor; [|done]. rewrite Forall_forall in Hnames. by apply Hnames. }
        destruct (Hcb k (k' :: q) ltac:(by left) Hq') as (F1 & F2 & F3).
        destruct (Hsame (encodedKeyPath ((ks ++ [k]) ++ k' :: q))) as [(G1 & G2 & G3)|E]; [|by apply Hdeep in E].
        unfold unmarked. rewrite G1, G2, G3, <-app_assoc. done.
      - intros i Hi. subst p1. cbn [declare enter_table closedInlineTables]. rewrite length_app in Hi. simpl in Hi.
        destruct (decide (i ≤ length ks)); [rewrite take_app_le by done; apply Hca; lia|].
        rewrite take_ge by (rewrite length_app; simpl; lia). by destruct (Hcb k [] ltac:(by left) ltac:(done)) as (_ & _ & ?).
      - by subst p1. }
    { eapply (chain_app _ _ _ id); [|by rewrite Ht1, decide_True, lookup_insert_eq by done|done].
      eapply chain_frame; [|done]. intros j Hj. rewrite Ht1. by rewrite decide_False by lia. }
    { rewrite Ht1, decide_False by lia. by apply table_ge. }
    destruct Hadd as (Hl2 & Hs2 & Hd2 & _ & He2).
    exists (1 + n), p2, o2, m2, sc2, st2. split; [by eapply runs_trans|].
    split; [rewrite length_app; pose proof (length_header_line false (ws ++ [wk])); lia|]. split; [done|]. split.
    + apply (marks_only_deeper ks k kvs.*1) in Hm2; [|done]. intros Hd. destruct Hm2 as [Hd2' Hs2']; [by subst p1|].
      split; [done|]. intros κ Hκ. destruct (Hs2' κ Hκ) as (G1 & G2 & G3).
      destruct (Hsame κ) as [(F1 & F2 & F3)|E]; [unfold same_marks; by rewrite G1, G2, G3|].
      exfalso. by apply (Hκ k []); [left| |].
    + apply (added_one id k _ (VTable (length st))); [done|lia| | |done|].
      * intros j Hj Hne. rewrite Hs2 by lia. rewrite Ht1. by rewrite decide_False by done.
      * rewrite Hs2 by lia. by rewrite Ht1, decide_True by done.
      * apply Rep_table; [lia| |].
        -- rewrite Hd2, Ht1, decide_False, table_ge by lia. set_solver.
        -- intros k' t' Hin. destruct (He2 k' t' Hin) as (v & Hv & Hr). exists v. split; [done|].
           eapply (Rep_frame st2 _ (length st1)); [lia|done|done|done].
  - destruct (arrays_run n ws ks wk k id o m sc w p st [] Hws Hkt Hmax Hready (clean_array_open _ _ _ k Hclean ltac:(by left)) Hchain Hid Hfree)
      as (p1 & o1 & m1 & sc1 & st1 & arr & Hrun & Hready1 & Hm1 & Hl1 & Hs1 & Ht1 & Hlen & Hr).
    exists n, p1, o1, m1, sc1, st1. split; [done|]. split.
    { clear -Hn. pose proof (length_header_line true (ws ++ [wk])) as Hh. induction n as [|n IH]; [simpl; lia|].
      cbn [repeat concat]. rewrite length_app. destruct n; [simpl; lia|]. specialize (IH ltac:(lia)). lia. }
    split; [done|]. split; [done|]. destruct (n =? 0) eqn:En; [apply Nat.eqb_eq in En; lia|].
    apply (added_one id k _ (VArray arr)); [done|done|done|done|done|]. apply Rep_array. rewrite <-Hlen. clear -Hr.
    induction Hr as [|v arr Hv Hr IH]; [constructor|]. by constructor.
Qed.

Lemma clean_subset p ks names names' : names' ⊆ names → clean p ks names → clean p ks names'.
Proof using Type. clear. intros Hs [H1 H2 H3]. split; [|done|done]. intros k q Hk. apply H1. by apply Hs. Qed.

Lemma blocks_run ws ks blocks bkvs : Forall2 (block_text (limits d0) ws ks) blocks bkvs →
  Forall (λ kv, match kv.2 with TTable kvs => doc_runs kvs | _ => True end) bkvs → ∀ o m sc w p st id,
  keys_ok (TTable bkvs) = true → Forall2 key_text ws ks → Forall (λ k, nul_free k = true) ks →
  ready o m (concat blocks ++ w) → clean p ks bkvs.*1 → chain st 0 ks id → id < length st →
  (∀ k, k ∈ bkvs.*1 → table st id !! k = None) →
  ∃ n p' o' m' sc' st', runs n p (conf o m [] sc) st p' (conf o' m' [] sc') st' ∧ n ≤ length (concat blocks) ∧ ready o' m' w ∧
    marks_only ks bkvs.*1 p p' ∧ added id bkvs st st'.
Proof using Hbuf.
  induction 1 as [|block [k t] blocks bkvs Hb Hbs IH]; intros Hdocs o m sc w p st id Hk Hws Hks Hready Hclean Hchain Hid Hfree.
  - exists 0, p, o, m, sc, st. do 3 (split; [done || apply runs_refl|]). split; [apply marks_only_refl|apply added_nil].
  - apply Forall_cons in Hdocs as [Hdoc Hdocs]. pose proof Hk as Hk'. cbn [keys_ok fmap list_fmap forallb] in Hk'.
    rewrite !andb_true_iff, bool_decide_eq_true in Hk'. destruct Hk' as [[Hnd [Hn1 Hn2]] [Hk1 Hk2]]. cbn [fst snd] in *.
    pose proof Hnd as [Hnd1 Hnd2]%NoDup_cons. cbn [fmap list_fmap] in *. fold (fmap (M := list) (@fst bytes tval) bkvs) in *.
    cbn [concat] in *. rewrite <-app_assoc in Hready.
    destruct (block_runs ws ks block k t o m sc _ p st id Hdoc Hb Hk1 Hn1 Hws Hks Hready) as (n1 & p1 & o1 & m1 & sc1 & st1 & Hrun1 & Hl1 & Hready1 & Hm1 & Hadd1).
    { eapply clean_subset; [|done]. set_solver. }
    { done. }
    { done. }
    { apply Hfree. by left. }
    pose proof Hadd1 as (Hlen1 & Hs1 & Hd1 & _).
    destruct (IH Hdocs o1 m1 sc1 w p1 st1 id) as (n2 & p2 & o2 & m2 & sc2 & st2 & Hrun2 & Hl2 & Hready2 & Hm2 & Hadd2); [|done|done|done| | |lia| |].
    { cbn [keys_ok]. by rewrite Hn2, Hk2, bool_decide_true by done. }
    { apply (clean_after ks [k] bkvs.*1 p p1); [|done|done|done]. apply Forall_app; split; [done|]. constructor; [done|].
      by apply forallb_Forall. }
    { eapply chain_frame; [|done]. intros j Hj. apply Hs1; lia. }
    { intros k' Hk'. apply not_elem_of_dom. rewrite Hd1, not_elem_of_union. split.
      - apply not_elem_of_dom. apply Hfree. by right.
      - cbn. set_solver. }
    exists (n1 + n2), p2, o2, m2, sc2, st2. split; [by eapply runs_trans|]. split; [rewrite length_app; lia|]. split; [done|].
    split; [exact (marks_only_trans ks [k] bkvs.*1 p p1 p2 Hm1 Hm2)|]. exact (added_app id [(k, t)] bkvs st st1 st2 Hid Hadd1 Hadd2).
Qed.

Lemma keys_ok_app kvs1 kvs2 : keys_ok (TTable (kvs1 ++ kvs2)) = true →
  keys_ok (TTable kvs1) = true ∧ keys_ok (TTable kvs2) = true ∧ NoDup (kvs1.*1 ++ kvs2.*1) ∧
  Forall (λ k, nul_free k = true) (kvs1.*1 ++ kvs2.*1).
Proof using Type.
  clear. cbn [keys_ok]. rewrite fmap_app, !forallb_app, !andb_true_iff, !bool_decide_eq_true, !forallb_Forall, NoDup_app, !Forall_app. tauto.
Qed.

Lemma doc_runs_all t : match t with TTable kvs => doc_runs kvs | _ => True end.
Proof using Hbuf.
  induction t as [| | | | | |kvs IH] using tval_nested_ind; try done.
  intros ws ks body o m sc w p st id Hdoc Hk Hws Hks Hready Hin Hclean Hchain Hid Hempty.
  inversion Hdoc as [? ? lines lkvs blocks bkvs Hls Hbs]; subst. apply Forall_app in IH as [_ IHb].
  destruct (keys_ok_app _ _ Hk) as (Hk1 & Hk2 & Hnd & Hnul). rewrite fmap_app in *. rewrite <-app_assoc in Hready.
  destruct (lines_runs lines lkvs Hls o m sc _ p st ks id Hk1 Hks Hready Hin Hid) as (n1 & p1 & o1 & m1 & sc1 & st1 & Hrun1 & Hl1 & Hready1 & Hin1 & Hm1 & Hadd1).
  { intros k _. by rewrite Hempty. }
  pose proof Hadd1 as (Hlen1 & Hs1 & Hd1 & _).
  destruct (blocks_run ws ks blocks bkvs Hbs IHb o1 m1 sc1 w p1 st1 id Hk2 Hws Hks Hready1) as (n2 & p2 & o2 & m2 & sc2 & st2 & Hrun2 & Hl2 & Hready2 & Hm2 & Hadd2).
  { apply (clean_after ks lkvs.*1 bkvs.*1 p p1); [|done|done|done]. by apply Forall_app. }
  { eapply chain_frame; [|done]. intros j Hj. apply Hs1; lia. }
  { lia. }
  { intros k Hk'. apply not_elem_of_dom. rewrite Hd1, Hempty, dom_empty_L, not_elem_of_union. split; [set_solver|].
    apply NoDup_app in Hnd as (_ & Hdis & _). rewrite elem_of_list_to_set. intros Hx. by apply (Hdis k). }
  exists (n1 + n2), p2, o2, m2, sc2, st2. split; [by eapply runs_trans|]. split; [rewrite length_app; lia|]. split; [done|].
  split; [by eapply marks_only_trans|by eapply added_app].
Qed.

(** A document that ends at the end of the source. *)
Lemma parseStatements_doc kvs body o sc :
  doc_text (limits d0) [] [] body kvs → keys_ok (TTable kvs) = true → at_ o body →
  ∃ d' st', statements (S (length data)) (newParser None) (conf o lineStart [] sc) [∅] = (Ok tt, d', st') ∧
    Rep st' 0 (TTable kvs) (VTable 0).
Proof using Hbuf.
  intros Hdoc Hk Ha. pose proof (at_length _ _ _ Ha) as Hlen.
  destruct (doc_runs_all (TTable kvs) [] [] body o lineStart sc [] (newParser None) [∅] 0 Hdoc Hk)
    as (n & p' & o' & m' & sc' & st' & Hrun & Hn & Hready & _ & (Hl & Hs & Hd & _ & He)); try done.
  { left. by rewrite app_nil_r. }
  { simpl. lia. }
  assert (∃ d, readToken (conf o' m' [] sc') = (Err EOF, d)) as [d' Heof].
  { destruct (ready_lines o' m' 0 [] Hready) as (i & Hi & Hm). rewrite app_nil_r in Hi.
    apply (readToken_eof d0 Hbuf i o' m' sc'); [|done]. destruct Hm as [?|[? _]]; auto. }
  exists d', st'. split.
  - replace (S (length data)) with (n + S (length data - n)) by lia. rewrite Hrun. cbn [parseStatements]. by rewrite Heof.
  - cbn [length] in *. apply Rep_table; [lia| |].
    + rewrite Hd. change (table [∅] 0) with (∅ : gmap bytes val). set_solver.
    + intros k t Hin. destruct (He k t Hin) as (v & Hv & Hr). exists v. split; [done|]. eapply (Rep_frame st' _ 1); [lia|done|done|done].
Qed.
End statements.

(** ** The whole document *)

Lemma valid_utf8_bytes s : valid_utf8 s → Forall is_byte s.
Proof.
  intros (rs & _ & ->). unfold encoded. induction rs as [|r rs IH]; [constructor|]. cbn [fmap list_fmap concat].
  apply Forall_app. split; [apply EncodeRune_bytes|done].
Qed.

Lemma ValidateUTF8_valid {K : ScanKernels} s : valid_utf8 s → ValidateUTF8 s = length s.
Proof.
  intros Hv. pose proof (valid_utf8_bytes s Hv) as Hb. destruct (ValidateUTF8_ok s Hb) as (Hle & (ts & Hts & Ht) & Hbad).
  destruct (decide (ValidateUTF8 s = length s)) as [|Hne]; [done|]. specialize (Hbad Hne). exfalso.
  destruct Hv as (rs & Hrs & Es). rewrite <-(take_drop (ValidateUTF8 s) s), Ht in Es. symmetry in Es.
  destruct (encoded_suffix rs ts _ Hrs Hts Es) as (us & Hus & Ed).
  apply (DecodeRune_valid (drop (ValidateUTF8 s) s) RuneError 1); [by exists us| |done|done].
  intros E. apply (f_equal length) in E. rewrite length_drop in E. simpl in E. lia.
Qed.

(** The limits the options leave. *)
Definition limitsOf (opts : list Option) : Limits := limits (apply_options opts (emptyDecoder [])).

Lemma limits_apply opts : ∀ d d', limits d = limits d' → limits (apply_options opts d) = limits (apply_options opts d').
Proof.
  unfold apply_options. induction opts as [|opt opts IH]; intros d d' H; [done|]. cbn [foldl]. apply IH.
  destruct opt; cbn [apply_option]; [cbn; by rewrite H|done..].
Qed.

(** A decoder to which only options have been applied. *)
Definition untouched (data : bytes) (d : Decoder) : Prop :=
  d = MkDecoder data 0 0 1 1 None false false false false false true (limits d) 0 0 [] (localAsUTC d) (copyStrings d) 0 0 noScalar (trackTokenPositions d).

Lemma untouched_apply data opts : ∀ d, untouched data d → untouched data (apply_options opts d).
Proof.
  unfold apply_options. induction opts as [|opt opts IH]; intros d H; [done|]. cbn [foldl]. apply IH.
  unfold untouched in *. rewrite H. by destruct opt.
Qed.

Section document.
Context {K : ScanKernels} (ToLower : bytes → bytes).

(** The document a text spells is what [parseDocument] returns. *)
Lemma parseDocument_reads opts body kvs :
  valid_utf8 body → (Z.of_nat (length body) ≤ MaxDocumentSize (limitsOf opts))%Z → head body ≠ Some 0xEF%Z →
  doc_text (limitsOf opts) [] [] body kvs → keys_ok (TTable kvs) = true →
  ∃ st, parseDocument ToLower body opts None = Ok (0, st) ∧ Rep st 0 (TTable kvs) (VTable 0).
Proof using Type.
  intros Hu Hsize Hbom Hdoc Hk. unfold parseDocument.
  assert (decoderOptionsWithoutTokenPositions opts = opts ++ [withoutTokenPositions]) as -> by (by destruct opts).
  set (d := apply_options (opts ++ [withoutTokenPositions]) (emptyDecoder body)).
  assert (untouched body d ∧ trackTokenPositions d = false ∧ limits d = limitsOf opts) as (Hd & Ht & Hl).
  { unfold d. split; [by apply untouched_apply|]. unfold apply_options. rewrite foldl_app. cbn [foldl apply_option]. split; [done|].
    by apply (limits_apply opts). }
  assert (NewDecoderBytes body (opts ++ [withoutTokenPositions]) = conf d 0 lineStart [] noScalar) as ->.
  { unfold NewDecoderBytes. fold d. unfold openDocument. assert (buf d = body ∧ off d = 0) as [-> Ho] by (by rewrite Hd).
    rewrite Hl. replace (MaxDocumentSize (limitsOf opts) <b Z.of_nat (length body)) with false by lia. rewrite andb_false_r.
    rewrite (ValidateUTF8_valid body Hu), Nat.eqb_refl. cbn [negb].
    assert (skipBOM d = d) as ->.
    { unfold skipBOM. assert (buf d = body) as -> by (by rewrite Hd). rewrite Ho, drop_0.
      destruct body as [|c body]; [done|]. cbn in Hbom. cbn [has_prefix].
      replace (c =b 0xEF) with false; [by rewrite andb_false_r|]. symmetry. apply Z.eqb_neq. congruence. }
    rewrite Ho. unfold conf. rewrite Hd at 1. rewrite Ht. rewrite Hd. done. }
  assert (buf d = body) as Hb by (by rewrite Hd).
  destruct (parseStatements_doc ToLower d ltac:(rewrite Hb; by apply valid_utf8_bytes) kvs body 0 noScalar) as (d' & st' & Hrun & Hr).
  { by rewrite Hl. }
  { done. }
  { unfold at_. rewrite Hb. split; [done|lia]. }
  rewrite Hb in Hrun. cbn [newDocumentMap length app]. rewrite Hrun. by exists st'.
Qed.
End document.
