(* ===== verification/TomlText.v ===== *)
(** The texts the encoder writes for strings, keys, numbers and date-times, and
    that each is the text of the value it stands for (marshal.go against the
    grammar of the decoder). *)
From S2P Require Import Prelude GoUtf8 GoStrconv GoStrings GoQuote Scan TomlBase Datetime TomlString TomlNumber GoFloat TomlKey Decoder TomlTree TomlSkip TomlDocument TomlMarshal TomlRead TomlParse.

(** ** Quoted strings *)

Lemma EncodeRune_first r b u : EncodeRune r = b :: u → (b < 0x80)%Z → ValidRune r = true → r = b ∧ u = [].
Proof.
  intros E Hb Hv. assert (0 ≤ b)%Z by (pose proof (EncodeRune_bytes r) as H; rewrite E in H; apply Forall_cons in H as [H _]; unfold is_byte in H; lia).
  assert (EncodeRune r = [b]) as E1 by (apply EncodeRune_ascii_elem; [rewrite E; left|lia]).
  rewrite E in E1. injection E1 as ->. split; [|done].
  unfold EncodeRune in E. repeat case_match; congruence.
Qed.

Lemma lowerhex_value n : (0 ≤ n < 16)%Z → hexDigitValue (lowerhex n) = Some n.
Proof.
  intros H. unfold lowerhex, hexDigitValue. case_match; repeat case_match; try bool_lia; f_equal; lia.
Qed.

Lemma hexDigits_value n r : ∀ v, (0 ≤ r)%Z →
  foldl (λ v c, v * 16 + default 0 (hexDigitValue c))%Z v (hexDigits n r) = (v * 16 ^ Z.of_nat n + r mod 16 ^ Z.of_nat n)%Z ∧
  Forall (λ c, is_Some (hexDigitValue c)) (hexDigits n r) ∧ length (hexDigits n r) = n.
Proof.
  induction n as [|n IH]; intros v Hr.
  { cbn. split; [rewrite Z.mod_1_r; lia|]. split; [constructor|done]. }
  cbn [hexDigits foldl length]. set (x := Z.land _ 0xF).
  assert (x = (r / 16 ^ Z.of_nat n) mod 16)%Z as Ex.
  { unfold x. change 0xF%Z with (Z.ones 4). rewrite Z.land_ones, Z.shiftr_div_pow2 by lia. f_equal. f_equal.
    rewrite Z.pow_mul_r by lia. done. }
  assert (0 ≤ x < 16)%Z by (rewrite Ex; apply Z.mod_pos_bound; lia).
  rewrite lowerhex_value by done. change (default 0%Z (Some x)) with x. destruct (IH (v * 16 + x)%Z Hr) as (-> & Hf & Hl).
  split; [|split; [constructor; [rewrite lowerhex_value by done; eauto|done]|by rewrite Hl]].
  rewrite Nat2Z.inj_succ, Z.pow_succ_r by lia. rewrite (Z.mul_comm 16). rewrite Z.rem_mul_r by lia. rewrite Ex. nia.
Qed.

(** The runes [strconv.Quote] writes as the decoder reads them: all but BEL and
    VT, for which it uses escapes TOML does not have. *)
Definition toml_rune (r : Z) : Prop := ValidRune r = true ∧ r ≠ 7%Z ∧ r ≠ 11%Z.

(** What one rune is written as. *)
Lemma rune_unicode_escape e n r : unicodeEscapeDigits e = Some n → ValidRune r = true → (r < 16 ^ Z.of_nat n)%Z →
  unicode_escape e (hexDigits n r) r.
Proof.
  intros He Hv Hr. pose proof (ValidRune_range r Hv). destruct (hexDigits_value n r 0 ltac:(lia)) as (Hval & Hd & Hl).
  unfold unicode_escape. rewrite Hl, Hval. split; [done|]. split; [done|]. split; [|done]. rewrite Z.mod_small; lia.
Qed.

Lemma scan_body_app s t : scan_body s → scan_body t → scan_body (s ++ t).
Proof.
  induction 1 as [|c s Hc _ IH|e s _ IH]; intros Ht; [done|apply sb_char|apply sb_escape]; auto.
Qed.

Lemma scan_body_plain s : Forall (λ c, basicStringStrictStop c = false) s → scan_body s.
Proof. induction 1; by constructor. Qed.

Lemma hex_not_stop n r : Forall (λ c, basicStringStrictStop c = false) (hexDigits n r).
Proof.
  induction n as [|n IH]; constructor; [|done]. set (x := Z.land _ _).
  assert (0 ≤ x < 16)%Z by (unfold x; change 0xF%Z with (Z.ones 4); rewrite Z.land_ones by lia; apply Z.mod_pos_bound; lia).
  unfold lowerhex, basicStringStrictStop. case_match; bool_lia.
Qed.

(** A character of valid UTF-8 that is not a control, a quote or a backslash
    stands for itself. *)
Lemma rune_plain r : ValidRune r = true → (0x20 ≤ r)%Z → r ≠ DEL → r ≠ DQUOTE → r ≠ BSLASH →
  Forall (λ c, basicStringStrictStop c = false ∧ c ≠ BSLASH ∧ plain false c) (EncodeRune r).
Proof.
  intros Hv H1 H2 H3 H4. apply Forall_forall. intros c Hc.
  pose proof (EncodeRune_bytes r) as Hb. rewrite Forall_forall in Hb. specialize (Hb c Hc). unfold is_byte in Hb.
  assert (0x80 ≤ c ∨ c = r)%Z as Hcr.
  { destruct (decide (c < 0x80)%Z) as [Hlt|]; [right|left; lia].
    pose proof (EncodeRune_ascii_elem r c Hc ltac:(lia)) as E. by apply EncodeRune_first in E as [-> _]. }
  unfold basicStringStrictStop, plain, prohibitedStringControl. repeat split; [bool_lia|lia|]. repeat case_match; bool_lia.
Qed.

Section quote_text.
Context (isPrintTable : Z → bool).
Abbreviation Quote := (Quote isPrintTable).
Abbreviation appendQuotedN := (appendQuotedN isPrintTable).
Abbreviation appendEscapedRune := (appendEscapedRune isPrintTable).
Abbreviation writeQuotedString := (writeQuotedString isPrintTable).

(** The loop over a valid text is the runes one by one. *)
Lemma appendQuotedN_encoded rs : scalars rs → ∀ fuel, length rs ≤ fuel →
  appendQuotedN fuel (encoded rs) = concat (appendEscapedRune <$> rs).
Proof using Type.
  induction 1 as [|r rs Hr Hrs IH]; intros fuel Hf; [by destruct fuel|].
  destruct fuel as [|fuel]; [simpl in Hf; lia|]. destruct (encoded_step r rs Hr) as (HD & Hd & _).
  destruct (EncodeRune r) as [|b u] eqn:Er; [pose proof (EncodeRune_length r) as H; rewrite Er in H; simpl in H; lia|].
  assert (encoded (r :: rs) = b :: u ++ encoded rs) as E by (rewrite encoded_cons, Er; done).
  cbn [GoQuote.appendQuotedN]. rewrite E in HD, Hd |- *.
  assert ((if b <b 0x80 then (b, 1) else DecodeRune (b :: u ++ encoded rs)) = (r, length (EncodeRune r))) as ->.
  { case_match eqn:Hb; [|by rewrite HD, Er]. apply EncodeRune_first in Er as Er'; [|lia|done]. destruct Er' as [-> ->]. by rewrite Er. }
  replace ((length (EncodeRune r) =? 1) && (r =b RuneError)) with false.
  2:{ symmetry. destruct (Z.eqb_spec r RuneError) as [->|]; [done|by rewrite andb_false_r]. }
  rewrite Er, Hd. cbn [fmap list_fmap concat]. f_equal. apply IH. simpl in Hf. lia.
Qed.

Lemma Quote_encoded rs : scalars rs → Quote (encoded rs) = paired DQUOTE (concat (appendEscapedRune <$> rs)).
Proof using Type. intros H. unfold GoQuote.Quote. by rewrite appendQuotedN_encoded by (done || apply encoded_length). Qed.


(** One rune in front of a body. *)
Lemma rune_body r body s : toml_rune r → scan_body body → basic_body false body s →
  scan_body (appendEscapedRune r ++ body) ∧ basic_body false (appendEscapedRune r ++ body) (EncodeRune r ++ s).
Proof using Type.
  intros (Hv & H7 & H11) Hb Hs. pose proof (ValidRune_range r Hv) as Hr.
  assert (∀ e, simpleEscape e = Some r → (r < 0x80)%Z →
    scan_body ([BSLASH; e] ++ body) ∧ basic_body false ([BSLASH; e] ++ body) (EncodeRune r ++ s)) as Hsimple.
  { intros e He Hlow. split; [by constructor|]. assert (EncodeRune r = [r]) as -> by (unfold EncodeRune; by rewrite in_range_true by lia).
    by apply basic_escape. }
  assert (∀ e n, unicodeEscapeDigits e = Some n → (r < 16 ^ Z.of_nat n)%Z →
    scan_body (([BSLASH; e] ++ hexDigits n r) ++ body) ∧ basic_body false (([BSLASH; e] ++ hexDigits n r) ++ body) (EncodeRune r ++ s)) as Hunicode.
  { intros e n He Hlt. rewrite <-app_assoc. split.
    - apply sb_escape, scan_body_app; [apply scan_body_plain, hex_not_stop|done].
    - apply (basic_unicode false e (hexDigits n r) r body s); [by apply rune_unicode_escape|done]. }
  unfold GoQuote.appendEscapedRune. rewrite Hv.
  destruct (Z.eqb_spec r DQUOTE) as [->|H1]; [by apply Hsimple|]. destruct (Z.eqb_spec r BSLASH) as [->|H2]; [by apply Hsimple|]. cbn [orb].
  destruct (IsPrint isPrintTable r) eqn:Hp.
  { assert (Forall (λ c, basicStringStrictStop c = false ∧ c ≠ BSLASH ∧ plain false c) (EncodeRune r)) as Hf.
    { assert (0x20 ≤ r ∧ r ≠ DEL)%Z as [? ?].
      { revert Hp. clear. unfold IsPrint. repeat case_match; intros; bool_lia. }
      by apply rune_plain. }
    split.
    - apply scan_body_app; [|done]. apply scan_body_plain. eapply Forall_impl; [exact Hf|]. by intros c (? & _).
    - clear Hsimple Hunicode. induction Hf as [|c t (_ & Hc & Hpl) _ IH]; [done|]. apply basic_plain; [done|done|exact IH]. }
  destruct (Z.eqb_spec r 7); [done|]. destruct (Z.eqb_spec r BS) as [->|]; [by apply Hsimple|].
  destruct (Z.eqb_spec r FF) as [->|]; [by apply Hsimple|]. destruct (Z.eqb_spec r LF) as [->|]; [by apply Hsimple|].
  destruct (Z.eqb_spec r CR) as [->|]; [by apply Hsimple|]. destruct (Z.eqb_spec r TAB) as [->|]; [by apply Hsimple|].
  destruct (Z.eqb_spec r 11); [done|].
  destruct ((r <b SP) || (r =b DEL)) eqn:Hctl; [apply Hunicode; [done|]; simpl; bool_lia|].
  destruct (r <b 0x10000) eqn:Hlow; apply Hunicode; try done; simpl; lia.
Qed.

(** [strconv.Quote] of such runes is a basic string of TOML. *)
Lemma Quote_text rs : Forall toml_rune rs → basic_text (Quote (encoded rs)) (encoded rs).
Proof using Type.
  intros Hrs. rewrite Quote_encoded by (eapply Forall_impl; [exact Hrs|]; by intros r (? & _)).
  exists (concat (appendEscapedRune <$> rs)). split; [done|].
  induction Hrs as [|r rs Hr _ [IH1 IH2]]; [by repeat constructor|].
  rewrite encoded_cons. cbn [fmap list_fmap concat]. by apply rune_body.
Qed.

(** ** The ASCII path of the encoder *)

Definition escape_ascii (c : Z) : bytes := if (c =b DQUOTE) || (c =b BSLASH) then [BSLASH; c] else [c].

Lemma appendQuotedN_ascii s : Forall (λ c, 0x20 ≤ c < 0x7f)%Z s → ∀ fuel, length s ≤ fuel →
  appendQuotedN fuel s = concat (escape_ascii <$> s).
Proof using Type.
  induction 1 as [|c s Hc _ IH]; intros [|fuel] Hf; [done..|simpl in Hf; lia|]. cbn [GoQuote.appendQuotedN].
  replace (c <b 0x80) with true by lia. replace ((1 =? 1) && (c =b RuneError)) with false by (unfold RuneError; lia).
  cbn [drop fmap list_fmap concat]. rewrite IH by (simpl in Hf; lia). f_equal.
  unfold GoQuote.appendEscapedRune, escape_ascii. case_match; [done|].
  replace (IsPrint isPrintTable c) with true.
  - unfold EncodeRune. by rewrite in_range_true by lia.
  - unfold IsPrint. replace (c ≤b 0xFF) with true by lia. by replace ((0x20 ≤b c) && (c <b 0x7F)) with true by lia.
Qed.
End quote_text.

(** What the search for the first byte to escape finds. *)
Lemma asciiQuoteEscape_spec s : ∀ i first, asciiQuoteEscape_loop i s first ≠ quoteFallback → first ≠ quoteFallback →
  Forall (λ c, 0x20 ≤ c < 0x7f)%Z s ∧
  match first with
  | noEscape =>
      match asciiQuoteEscape_loop i s first with
      | escapeAt j => i ≤ j < i + length s ∧ Forall (λ c, escape_ascii c = [c]) (take (j - i) s)
      | _ => Forall (λ c, escape_ascii c = [c]) s
      end
  | _ => asciiQuoteEscape_loop i s first = first
  end.
Proof.
  induction s as [|c s IH]; intros i first H Hf; cbn [asciiQuoteEscape_loop] in *; [by destruct first|].
  destruct ((c <b 0x20) || (0x7f ≤b c)) eqn:Hr; [done|].
  destruct ((c =b DQUOTE) || (c =b BSLASH)) eqn:Hq.
  - destruct (IH _ _ H) as [Hs Hl]; [by destruct first|]. split; [constructor; [bool_lia|done]|].
    destruct first; [|done|done]. rewrite Hl. rewrite Nat.sub_diag. cbn [length]. split; [lia|constructor].
  - destruct (IH _ _ H Hf) as [Hs Hl]. split; [constructor; [bool_lia|done]|]. destruct first; [|done|done].
    assert (escape_ascii c = [c]) as Hc by (unfold escape_ascii; by rewrite Hq).
    destruct (asciiQuoteEscape_loop (S i) s noEscape) as [| |j]; [by constructor|done|]. destruct Hl as [Hj Hl].
    cbn [length]. split; [lia|]. replace (j - i) with (S (j - S i)) by lia. cbn [take]. by constructor.
Qed.

Lemma quotedASCII_loop_spec s : ∀ fuel start i, start ≤ i → fuel = length s - i →
  quotedASCII_loop fuel s start i = slice s start i ++ concat (escape_ascii <$> drop i s).
Proof.
  induction fuel as [|fuel IH]; intros start i Hi Hf; cbn [quotedASCII_loop].
  { rewrite (drop_ge s i) by lia. cbn [fmap list_fmap concat]. rewrite app_nil_r. unfold slice. rewrite take_ge; [done|].
    rewrite length_drop. lia. }
  replace (i <? length s) with true by (symmetry; apply Nat.ltb_lt; lia).
  assert (drop i s = s !!! i :: drop (i + 1) s) as Hd.
  { rewrite (drop_S s (s !!! i) i) by (apply list_lookup_lookup_total_lt; lia). by rewrite Nat.add_1_r. }
  rewrite Hd. set (c := s !!! i) in *. cbn [fmap list_fmap concat]. unfold escape_ascii at 1.
  destruct ((c =b DQUOTE) || (c =b BSLASH)).
  - rewrite IH by lia. unfold slice at 2. rewrite Nat.sub_diag. done.
  - rewrite IH by lia. rewrite app_assoc. f_equal.
    rewrite <-(slice_app s start i (i + 1)) by lia. f_equal. unfold slice. rewrite Hd. replace (i + 1 - i) with 1 by lia. done.
Qed.

Lemma concat_escape_plain s : Forall (λ c, escape_ascii c = [c]) s → concat (escape_ascii <$> s) = s.
Proof. induction 1 as [|c s Hc _ IH]; [done|]. cbn [fmap list_fmap concat]. by rewrite Hc, IH. Qed.

Lemma writeQuotedString_quote isPrintTable s : writeQuotedString isPrintTable s = Quote isPrintTable s.
Proof.
  unfold writeQuotedString, asciiQuoteEscapeIndex. destruct (asciiQuoteEscape_loop 0 s noEscape) as [| |j] eqn:E; [|done|].
  - destruct (asciiQuoteEscape_spec s 0 noEscape) as [Hs Hp]; [by rewrite E|done|]. rewrite E in Hp.
    unfold Quote. by rewrite appendQuotedN_ascii, concat_escape_plain.
  - destruct (asciiQuoteEscape_spec s 0 noEscape) as [Hs Hp]; [by rewrite E|done|]. rewrite E in Hp. destruct Hp as [Hj Hp].
    rewrite Nat.sub_0_r in Hp. unfold Quote, writeQuotedASCIIString. rewrite appendQuotedN_ascii by done.
    rewrite quotedASCII_loop_spec by lia. f_equal. f_equal. trans (concat (escape_ascii <$> take j s ++ drop j s)); [|by rewrite take_drop].
    rewrite fmap_app, concat_app, (concat_escape_plain (take j s)) by done. unfold slice. by rewrite Nat.sub_0_r.
Qed.

(** The encoder quotes a string exactly as [strconv.Quote] does: scanning
    for the first byte to escape and copying the runs between escapes changes
    nothing. *)
Theorem writeQuotedString_Quote isPrintTable s : writeQuotedString isPrintTable s = Quote isPrintTable s.
Proof. apply writeQuotedString_quote. Qed.

(** ** Texts that are valid UTF-8 *)

Lemma valid_utf8_all_ascii s : Forall (λ c, 0 ≤ c < 0x80)%Z s → valid_utf8 s.
Proof.
  induction 1 as [|c s Hc _ IH]; [by exists []|]. apply (valid_utf8_app [c]); [by apply valid_utf8_ascii|done].
Qed.

(** A string that can be written and read back: valid UTF-8 without BEL and VT. *)
Definition toml_text (s : bytes) : bool :=
  forallb (λ c, (0 ≤b c) && (c <b 256) && (c ≠b 7) && (c ≠b 11)) s && ValidString s.

Lemma toml_text_runes s : toml_text s = true → ∃ rs, Forall toml_rune rs ∧ s = encoded rs.
Proof.
  unfold toml_text. intros [Hf Hv]%andb_true_iff. rewrite forallb_forall in Hf.
  assert (Forall is_byte s) as Hb.
  { apply Forall_forall. intros c Hc. apply list_elem_of_In, Hf in Hc. unfold is_byte. bool_lia. }
  apply ValidString_iff in Hv as (rs & Hrs & ->); [|done]. exists rs. split; [|done].
  apply Forall_forall. intros r Hr. rewrite Forall_forall in Hrs. split; [by apply Hrs|].
  assert (∀ c, r = c → (0 ≤ c < 0x80)%Z → c ∈ encoded rs) as Hin.
  { intros c -> Hc. unfold encoded. apply list_elem_of_In, in_concat. exists (EncodeRune c). split.
    - apply list_elem_of_In, list_elem_of_fmap. eauto.
    - unfold EncodeRune. rewrite in_range_true by lia. by left. }
  split; intros ->; specialize (Hin _ eq_refl ltac:(lia)); apply list_elem_of_In, Hf in Hin; bool_lia.
Qed.

Section key_text.
Context (isPrintTable : Z → bool).
Abbreviation Quote := (Quote isPrintTable).
Abbreviation formatKey := (formatKey isPrintTable).

Lemma lowerhex_ascii n r : Forall (λ c, 0 ≤ c < 0x80)%Z (hexDigits n r).
Proof using Type.
  clear. induction n as [|n IH]; constructor; [|done]. set (x := Z.land _ _).
  assert (0 ≤ x < 16)%Z by (unfold x; change 0xF%Z with (Z.ones 4); rewrite Z.land_ones by lia; apply Z.mod_pos_bound; lia).
  unfold lowerhex. case_match; bool_lia.
Qed.

Lemma Quote_utf8 s : valid_utf8 s → valid_utf8 (Quote s).
Proof using Type.
  intros (rs & Hrs & ->). rewrite Quote_encoded by done. unfold paired.
  apply valid_utf8_app; [by apply valid_utf8_ascii|]. apply valid_utf8_app; [|by apply valid_utf8_ascii].
  induction Hrs as [|r rs Hr _ IH]; [by exists []|]. cbn [fmap list_fmap concat]. apply valid_utf8_app; [|done]. clear IH.
  unfold appendEscapedRune. rewrite Hr. repeat case_match; try (by apply valid_utf8_rune);
    apply valid_utf8_all_ascii; repeat first [apply Forall_app_2 | apply lowerhex_ascii | constructor]; try bool_lia.
Qed.

(** A key is written as it is when every rune may stand in a bare key, and
    quoted otherwise; either way it is a key of the grammar. *)
Lemma formatKey_text k : toml_text k = true → key_text (formatKey k) k ∧ valid_utf8 (formatKey k).
Proof using Type.
  intros (rs & Hrs & ->)%toml_text_runes. assert (scalars rs) as Hv by (eapply Forall_impl; [exact Hrs|]; by intros r (? & _)).
  assert (key_text (Quote (encoded rs)) (encoded rs) ∧ valid_utf8 (Quote (encoded rs))) as Hq.
  { split; [right; by apply Quote_text|]. apply Quote_utf8. by exists rs. }
  unfold TomlMarshal.formatKey. destruct (bytes_eqb (encoded rs) []) eqn:Hne; [done|].
  rewrite runes_encoded by done. destruct (forallb isBareKeyRune rs) eqn:Hbare; [|done].
  split; [|by exists rs]. left. split; [done|]. split; [by apply bool_decide_eq_false in Hne|].
  rewrite forallb_forall in Hbare. clear Hq Hne. induction Hv as [|r rs Hr Hv IH]; [constructor|].
  rewrite encoded_cons. apply Forall_app. split; [|apply IH; [by apply Forall_cons in Hrs as [_ ?]|intros x Hx; apply Hbare; by right]].
  specialize (Hbare r (or_introl eq_refl)). unfold isBareKeyRune, isDigit in Hbare.
  assert (EncodeRune r = [r]) as -> by (unfold EncodeRune; rewrite in_range_true; [done|bool_lia]).
  repeat constructor. unfold bareKeyClass. bool_lia.
Qed.
End key_text.

(** ** Date-times are not followed by a blank *)

Definition clock_char (c : Z) : Prop := isDigit c = true ∨ c = COLON ∨ c = DOT.

Lemma digits_clock w n : Forall clock_char (digits w n).
Proof. eapply Forall_impl; [apply digits_isDigit|]. by left. Qed.

Lemma clock_text_chars lt : Forall clock_char (clock_text lt).
Proof.
  assert (Forall clock_char [COLON] ∧ Forall clock_char [DOT]) as [Hc Hd] by (split; repeat constructor; auto).
  unfold clock_text. repeat case_match; rewrite ?Forall_app; repeat split; try apply digits_clock; try done; constructor.
Qed.

Lemma clock_char_blank s : Forall clock_char s → SP ∉ s.
Proof. intros Hs Hin. rewrite Forall_forall in Hs. by destruct (Hs _ Hin) as [|[|]]. Qed.

Lemma last_blank (w : bytes) n : n ≤ length w → SP ∈ drop n (w ++ [SP]).
Proof. intros H. rewrite drop_app_le by done. apply elem_of_app. right. by left. Qed.

(** The guard of an early error return has not fired. *)
Ltac pass_guard E :=
  match type of E with (if ?c then _ else _) = _ => let H := fresh "Hguard" in destruct c eqn:H; [discriminate E|] end.

(** No date-time ends in a blank, so a date is not joined with what follows a
    value. *)
Lemma parseDateTimeValue_blank w : is_ok (parseDateTimeValue (w ++ [SP])) = false.
Proof.
  assert (∀ o, take (length (w ++ [SP])) (drop o (w ++ [SP])) = drop o (w ++ [SP])) as Hall.
  { intros o. apply take_ge. rewrite length_drop. lia. }
  unfold parseDateTimeValue. destruct (dateTimeShape (w ++ [SP])); [done| | | |].
  - destruct (parseOffsetDateTime (w ++ [SP])) as [t|] eqn:E; [|done]. exfalso. unfold parseOffsetDateTime in E.
    apply rbind_ok in E as ([d ts] & Hd & E). pass_guard E. apply rbind_ok in E as ([lt n] & Hc & E).
    pass_guard E. apply rbind_ok in E as (loc & Hz & _). set (o := ts + 1 + n) in *.
    assert (o ≤ length w) as Ho by (rewrite length_app in *; simpl in *; bool_lia).
    pose proof (last_blank w o Ho) as Hin. unfold parseZone in Hz. apply rbind_ok in Hz as ([[[s h] m]|] & Hf & _).
    + apply parseZoneFields_text in Hf as [Hz _]. rewrite Hz in Hin. unfold zone_text in Hin.
      apply elem_of_cons in Hin as [Hin|Hin]; [by repeat case_match|].
      revert Hin. apply clock_char_blank. apply (Forall_app_2 _ (digits 2 h)); [apply digits_clock|]. apply (Forall_app_2 _ [COLON]); [|apply digits_clock]. constructor; [by right; left|constructor].
    + destruct (drop o (w ++ [SP])) as [|x [|y t']]; [by apply not_elem_of_nil in Hin|by apply list_elem_of_singleton in Hin as <-|].
      unfold parseZoneFields in Hf. cbn [length Nat.eqb andb] in Hf. pass_guard Hf.
      apply rbind_ok in Hf as (? & _ & Hf). apply rbind_ok in Hf as (? & _ & Hf). by pass_guard Hf.
  - destruct (parseLocalDateTime (w ++ [SP])) as [dt|] eqn:E; [|done]. exfalso. unfold parseLocalDateTime in E.
    apply rbind_ok in E as ([d ts] & Hd & E). pass_guard E. apply rbind_ok in E as ([lt n] & Hc & E).
    pass_guard E. apply parseTimePrefix_inv in Hc as (Hn & _ & Ht).
    assert (1 ≤ n) as Hn1. { destruct n; [|lia]. by destruct (lt_Hour lt). }
    rewrite take_ge in Ht by (rewrite length_drop in *; bool_lia).
    apply (clock_char_blank _ (clock_text_chars lt)). rewrite <-Ht. apply last_blank. rewrite length_app in *. simpl in *. bool_lia.
  - destruct (parseLocalDate (w ++ [SP])) as [dt|] eqn:E; [|done]. exfalso. unfold parseLocalDate in E.
    apply rbind_ok in E as ([d n] & Hd & E). pass_guard E. apply parseDatePrefix_inv in Hd as (-> & _ & _ & Ht).
    rewrite take_ge in Ht by bool_lia. assert (SP ∈ date_text d) as Hin by (rewrite <-Ht; apply elem_of_app; right; by left).
    unfold date_text in Hin. rewrite !elem_of_app in Hin.
    destruct Hin as [Hin|[Hin|[Hin|[Hin|Hin]]]]; try (by apply list_elem_of_singleton in Hin); revert Hin; apply clock_char_blank, digits_clock.
  - destruct (parseLocalTime (w ++ [SP])) as [lt|] eqn:E; [|done]. exfalso. unfold parseLocalTime in E.
    apply rbind_ok in E as ([lt' n] & Hc & E). pass_guard E. apply parseTimePrefix_inv in Hc as (_ & _ & Ht).
    rewrite take_ge in Ht by bool_lia. apply (clock_char_blank _ (clock_text_chars lt')). rewrite <-Ht. apply elem_of_app. right. by left.
Qed.

(** ** Booleans, integers and the special floats *)

Definition bare_chars (w : bytes) : Prop :=
  Forall (λ c, bareValueDelimiter c = false ∧ c ≠ DQUOTE ∧ c ≠ SQUOTE ∧ c ≠ LBRACK ∧ c ≠ LBRACE ∧ 0 ≤ c < 0x80)%Z w.

(** The characters of a literal. *)
Ltac bare_chars := repeat (apply Forall_cons_2; [by repeat split|]); apply Forall_nil_2.

Lemma bare_chars_text w : bare_chars w → w ≠ [] → bare_text w.
Proof.
  intros Hw Hne. split; [eapply Forall_impl; [exact Hw|]; by intros c (? & _)|].
  destruct w as [|c w]; [done|]. apply Forall_cons in Hw as [(_ & ? & ? & ? & ? & _) _]. done.
Qed.

Lemma bare_chars_utf8 w : bare_chars w → valid_utf8 w.
Proof. intros Hw. apply valid_utf8_all_ascii. eapply Forall_impl; [exact Hw|]. by intros c (_ & _ & _ & _ & _ & ?). Qed.

Section bare_values.
Context {K : ScanKernels}.

Lemma bool_value b : bare_value (FormatBool b) (VBool b) ∧ bare_chars (FormatBool b).
Proof using Type.
  assert (bare_chars (FormatBool b)) as Hc by (destruct b; bare_chars).
  split; [|done]. split; [apply bare_chars_text; [done|by destruct b]|]. split; [apply parseDateTimeValue_blank|].
  exists TokenKindValueBool, noScalar. split; [by destruct b|]. split; [set_solver|]. intros d o st _. by destruct b.
Qed.
End bare_values.

Lemma digits_literal s : Forall (λ b, isDigit b = true) s → ∀ v, digits_value v s = Some (foldl (literal_step 10) v s).
Proof.
  induction 1 as [|c s Hc _ IH]; intros v; [done|]. cbn [digits_value foldl]. rewrite Hc, IH. do 2 f_equal.
  unfold literal_step, numericDigitValue. unfold isDigit in Hc. replace (c =b UNDERSCORE) with false by lia. by rewrite Hc.
Qed.

Lemma udigits_digits s : s ≠ [] → Forall (λ b, isDigit b = true) s → udigits isDigit s.
Proof.
  intros Hne Hs. induction Hs as [|c s Hc Hs IH]; [done|]. destruct s as [|d s]; [by apply ud_one|]. apply ud_digit; [done|]. by apply IH.
Qed.

Lemma Itoa_integer z : toml_integer (Itoa z) z.
Proof.
  assert (∀ n, 0 ≤ n → udigits isDigit (utoa n) ∧ (head (utoa n) = Some c0 → utoa n = [c0]) ∧ literal_value 10 (utoa n) = n)%Z as Hu.
  { intros n Hn. destruct (utoa_shape n Hn) as (k & -> & Hlt & Hk). split.
    - apply udigits_digits; [|apply digits_isDigit]. intros E. apply (f_equal length) in E. by rewrite digits_length in E.
    - split.
      + rewrite digits_first. cbn [head]. intros [= E]. destruct Hk as [->|Hk]; [cbn in E |- *; f_equal; lia|]. exfalso.
        assert (1 ≤ n / 10 ^ Z.of_nat k < 10)%Z; [|rewrite Z.mod_small in E; lia].
        rewrite Nat2Z.inj_succ, Z.pow_succ_r in Hlt by lia. split; [apply Z.div_le_lower_bound; lia|apply Z.div_lt_upper_bound; lia].
      + pose proof (digits_literal (digits (S k) n) (digits_isDigit _ _) 0%Z) as H. rewrite digits_value_digits in H by lia.
        apply (inj Some) in H. rewrite literal_value_step, <-H. lia. }
  unfold Itoa. case_match.
  - destruct (Hu (- z)%Z ltac:(lia)) as (H1 & H2 & H3). pose proof (int_decimal [MINUS] (-1) (utoa (- z))) as H'.
    rewrite H3 in H'. replace (-1 * - z)%Z with z in H' by lia. apply H'; [|done..]. by right; right.
  - destruct (Hu z ltac:(lia)) as (H1 & H2 & H3). pose proof (int_decimal [] 1 (utoa z)) as H'.
    rewrite H3 in H'. replace (1 * z)%Z with z in H' by lia. apply H'; [|done..]. by left.
Qed.

Lemma digit_bare c : isDigit c = true → bareValueDelimiter c = false ∧ c ≠ DQUOTE ∧ c ≠ SQUOTE ∧ c ≠ LBRACK ∧ c ≠ LBRACE ∧ (0 ≤ c < 0x80)%Z.
Proof. unfold isDigit, bareValueDelimiter. lia. Qed.

Lemma digits_bare s : Forall (λ b, isDigit b = true) s → bare_chars s.
Proof. intros H. eapply Forall_impl; [exact H|]. intros c. apply digit_bare. Qed.

Lemma Itoa_chars z : bare_chars (Itoa z) ∧ Itoa z ≠ [].
Proof.
  assert (∀ n, 0 ≤ n → bare_chars (utoa n) ∧ utoa n ≠ [])%Z as Hu.
  { intros n Hn. destruct (utoa_shape n Hn) as (k & -> & _). split; [apply digits_bare, digits_isDigit|].
    intros E. apply (f_equal length) in E. by rewrite digits_length in E. }
  unfold Itoa. case_match; [|apply Hu; lia]. split; [|done]. constructor; [by repeat split|]. apply Hu. lia.
Qed.

Section scalar_values.
Context {K : ScanKernels}.

Lemma int_value z : in_int64 z = true → bare_value (Itoa z) (VInt z).
Proof using Type.
  intros Hz. split; [apply bare_chars_text; apply Itoa_chars|]. split; [apply parseDateTimeValue_blank|].
  pose proof (classifyBareValue_value _ _ (Itoa_integer z)) as Hc. rewrite Hz in Hc.
  eexists _, _. split; [exact Hc|]. split; [set_solver|]. intros d o st Hsc. unfold parseScalarToken, rawTokenIntegerValue. cbn [rt_Kind rt_Bytes].
  rewrite Hsc. unfold scalarIntegerValue. cbn. by rewrite int64_w64.
Qed.

(** A text classified as a float with the given bits. *)
Lemma float_token w bits : bare_chars w → w ≠ [] →
  classifyBareValue w = (TokenKindValueFloat, TokenScalar bits tokenScalarFloat, ""%string) → bare_value w (VFloat bits).
Proof using Type.
  intros Hw Hne Hc. split; [by apply bare_chars_text|]. split; [apply parseDateTimeValue_blank|].
  eexists _, _. split; [exact Hc|]. split; [set_solver|]. intros d o st Hsc. unfold parseScalarToken, rawTokenFloatValue. cbn [rt_Kind rt_Bytes].
  by rewrite Hsc.
Qed.

(** A text the date-time parser accepts. *)
Lemma datetime_token w dt kind : bare_chars w → w ≠ [] → parseDateTimeValue w = Ok (dt, kind) → bare_value w (VDatetime dt).
Proof using Type.
  intros Hw Hne Hp. split; [by apply bare_chars_text|]. split; [apply parseDateTimeValue_blank|].
  exists TokenKindValueDatetime, noScalar. split; [|split; [set_solver|]].
  - unfold classifyBareValue, looksLikeDatetime. rewrite Hp. assert (hasDateTimeShape w = true) as ->; [|done].
    unfold hasDateTimeShape. unfold parseDateTimeValue, dateTimeShape in Hp. destruct (hasDateShape w); [done|]. by destruct (hasTimeShape w).
  - intros d o st _. unfold parseScalarToken. cbn [rt_Kind rt_Bytes]. by rewrite Hp.
Qed.
End scalar_values.

(** ** Date-times *)

(** What can be written and read back: real dates and clocks, a fraction within
    its precision, and an offset of whole minutes named as the decoder names it. *)
Definition date_ok (d : LocalDate) : bool := is_ok (validateDate (ld_Year d) (ld_Month d) (ld_Day d)).

Definition clock_ok (lt : LocalTime) : bool :=
  is_ok (validateLocalClock (lt_Hour lt) (lt_Minute lt) (lt_Second lt) (lt_Nanosecond lt) (lt_nanoDigits lt)) &&
  ((lt_Nanosecond lt mod 10 ^ (9 - lt_nanoDigits lt))%Z =b 0) &&
  (lt_hasSecond lt || ((lt_Second lt =b 0) && (lt_nanoDigits lt =b 0))).

Definition location_ok (loc : Location) : bool :=
  match loc with
  | UTC => true
  | FixedZone name offset =>
      (offset ≠b 0) && ((offset mod 60)%Z =b 0) && (-86400 <b offset) && (offset <b 86400) && bytes_eqb name (formatZone offset)
  end.

Definition time_ok (t : Time) : bool :=
  date_ok (MkLocalDate (t_Year t) (t_Month t) (t_Day t)) &&
  is_ok (validateLocalClock (t_Hour t) (t_Minute t) (t_Second t) (t_Nanosecond t) 9) && location_ok (t_Location t).

Definition datetime_ok (dt : datetime) : bool :=
  match dt with
  | DTime t => time_ok t
  | DLocalDateTime dt => date_ok (date_of dt) && clock_ok (clock_of dt)
  | DLocalDate d => date_ok d
  | DLocalTime lt => clock_ok lt
  end.

(** What the encoder writes for one. *)
Definition datetime_text (dt : datetime) : bytes :=
  match dt with
  | DTime t => formatRFC3339Nano t
  | DLocalDateTime dt => text_or_empty (LocalDateTime_MarshalText dt)
  | DLocalDate d => text_or_empty (LocalDate_MarshalText d)
  | DLocalTime lt => text_or_empty (LocalTime_MarshalText lt)
  end.

Lemma is_ok_unit (r : res unit) : is_ok r = true → r = Ok tt.
Proof. by destruct r as [[]|]. Qed.

Lemma date_ok_valid d : date_ok d = true → valid_date d.
Proof. intros H%is_ok_unit%validateDate_ok. by destruct d. Qed.

Lemma clock_ok_valid lt : clock_ok lt = true → valid_clock lt.
Proof.
  unfold clock_ok, valid_clock. intros H. apply andb_prop in H as [H H3]. apply andb_prop in H as [H1%is_ok_unit%validateLocalClock_ok H2].
  destruct H1 as (? & ? & ? & ? & ? & ?). split; [done|]. split; [done|]. split; [done|]. split; [done|]. split; [done|]. split; [lia|].
  intros E. rewrite E in H3. bool_lia.
Qed.

(** The fields of a printed date are digits where the shape test looks. *)
Lemma digits_4 n : ∃ a b c d, digits 4 n = [a; b; c; d] ∧ isDigit a = true ∧ isDigit b = true ∧ isDigit c = true ∧ isDigit d = true.
Proof.
  pose proof (digits_isDigit 4 n) as H. pose proof (digits_length 4 n) as Hl. destruct (digits 4 n) as [|a [|b [|c [|d [|]]]]]; try done.
  repeat (apply Forall_cons in H as [? H]). eauto 10.
Qed.

Lemma digits_2 n : ∃ a b, digits 2 n = [a; b] ∧ isDigit a = true ∧ isDigit b = true.
Proof.
  pose proof (digits_isDigit 2 n) as H. pose proof (digits_length 2 n) as Hl. destruct (digits 2 n) as [|a [|b [|]]]; try done.
  repeat (apply Forall_cons in H as [? H]). eauto 10.
Qed.

Lemma date_text_shape d rest : hasDateShape (date_text d ++ rest) = true ∧ length (date_text d) = 10.
Proof.
  unfold date_text. destruct (digits_4 (ld_Year d)) as (y1 & y2 & y3 & y4 & -> & ? & ? & ? & ?).
  destruct (digits_2 (ld_Month d)) as (m1 & m2 & -> & ? & ?). destruct (digits_2 (ld_Day d)) as (d1 & d2 & -> & ? & ?).
  split; [|done]. unfold hasDateShape. cbn -[isDigit]. by rewrite !andb_true_iff.
Qed.

Lemma clock_text_shape lt rest :
  hasDateShape (clock_text lt ++ rest) = false ∧ hasTimeShape (clock_text lt ++ rest) = true ∧ 5 ≤ length (clock_text lt).
Proof.
  unfold clock_text. destruct (digits_2 (lt_Hour lt)) as (h1 & h2 & -> & ? & ?). destruct (digits_2 (lt_Minute lt)) as (m1 & m2 & -> & ? & ?).
  set (tail := if lt_hasSecond lt then _ else _). split; [|split].
  - unfold hasDateShape. cbn -[isDigit app]. case_match; [done|]. cbn [lookup_total list_lookup_total app]. 
    change (isDigit COLON) with false. by rewrite !andb_false_r.
  - unfold hasTimeShape. cbn -[isDigit]. by rewrite !andb_true_iff.
  - cbn [app length]. lia.
Qed.

(** Trimming zeros keeps the value of the fraction. *)
Lemma trimZeros_digits w : ∀ n, (0 ≤ n)%Z → ∃ k, k ≤ w ∧ trimZeros (digits w n) = digits k (n / 10 ^ Z.of_nat (w - k)) ∧
  (n mod 10 ^ Z.of_nat (w - k) = 0)%Z.
Proof.
  induction w as [|w IH]; intros n Hn.
  - exists 0. split; [done|]. split; [done|]. by rewrite Z.mod_1_r.
  - cbn [digits]. rewrite trimZeros_snoc. destruct (Z.eqb_spec (c0 + n mod 10) c0) as [E|E].
    + destruct (IH (n / 10)%Z ltac:(apply Z.div_pos; lia)) as (k & Hk & -> & Hm). exists k. split; [lia|].
      replace (S w - k) with (S (w - k)) by lia. rewrite Nat2Z.inj_succ, Z.pow_succ_r by lia. split.
      * by rewrite Z.div_div by lia.
      * rewrite Z.rem_mul_r by lia. rewrite Hm. lia.
    + exists (S w). split; [done|]. rewrite Nat.sub_diag, Z.pow_0_r, Z.div_1_r. split; [done|]. by rewrite Z.mod_1_r.
Qed.

(** The clock [time.Time.Format] writes: seconds always, the fraction as short
    as it can be. *)
Lemma formatNano_clock h m s n : clock_in_range (MkLocalTime h m s n true 9) → ∃ lt,
  valid_clock lt ∧ lt_Hour lt = h ∧ lt_Minute lt = m ∧ lt_Second lt = s ∧ lt_Nanosecond lt = n ∧
  zero_padded 2 h ++ [COLON] ++ zero_padded 2 m ++ [COLON] ++ zero_padded 2 s ++ formatNano n = clock_text lt.
Proof.
  unfold clock_in_range, time_Second. cbn. intros (? & ? & ? & ? & _).
  destruct (trimZeros_digits 9 n ltac:(lia)) as (k & Hk & Ht & Hm).
  exists (MkLocalTime h m s n true (Z.of_nat k)). unfold valid_clock, time_Second, clock_text.
  cbn [lt_Hour lt_Minute lt_Second lt_Nanosecond lt_nanoDigits lt_hasSecond].
  replace (Z.of_nat (9 - k)) with (9 - Z.of_nat k)%Z in * by lia.
  split; [split_and!; try lia; done|]. split; [done|]. split; [done|]. split; [done|]. split; [done|].
  rewrite !(zero_padded_digits 1) by (simpl; lia). do 5 f_equal. unfold formatNano. rewrite Ht. destruct k as [|k]; [done|].
  replace (0 <b Z.of_nat (S k)) with true by lia. rewrite Nat2Z.id.
  destruct (digits (S k) _) as [|c ds] eqn:E; [|done]. apply (f_equal length) in E. by rewrite digits_length in E.
Qed.

Lemma formatZone_text offset :
  offset ≠ 0%Z → (offset mod 60 = 0)%Z → (-86400 < offset < 86400)%Z → ∃ sign h m,
  formatZone offset = zone_text sign h m ∧ (0 ≤ h ≤ 23)%Z ∧ (0 ≤ m ≤ 59)%Z ∧
  offset = (let s := h * 3600 + m * 60 in if sign : bool then - s else s)%Z.
Proof.
  intros H0 Hmod Hr. assert (∃ q, offset = 60 * q)%Z as [q ->] by (exists (offset / 60)%Z; Z.div_mod_to_equations; lia).
  unfold formatZone. replace (60 * q =b 0) with false by lia. rewrite (Z.mul_comm 60), Z.quot_mul by lia.
  exists (q <b 0), (Z.abs q / 60)%Z, (Z.abs q mod 60)%Z. unfold zone_text.
  assert (0 ≤ Z.abs q / 60 ≤ 23 ∧ 0 ≤ Z.abs q mod 60 ≤ 59)%Z as [? ?] by (Z.div_mod_to_equations; lia).
  split; [|split; [done|]; split; [done|]].
  - rewrite <-!(zero_padded_digits 1) by (simpl; lia). destruct (q <b 0) eqn:Hq.
    + by replace (Z.abs q) with (- q)%Z by lia.
    + by replace (Z.abs q) with q by lia.
  - cbn zeta. case_match; Z.div_mod_to_equations; lia.
Qed.

Lemma parseZone_zone sign h m : (0 ≤ h ≤ 23)%Z → (0 ≤ m ≤ 59)%Z →
  parseZone (zone_text sign h m) = Ok (FixedZone (zone_text sign h m) (let s := h * 3600 + m * 60 in if sign : bool then - s else s)%Z).
Proof.
  intros Hh Hm. unfold parseZone, parseZoneFields. change (length (zone_text sign h m)) with 6. cbn [Nat.eqb negb orb andb].
  change (zone_text sign h m !!! 0) with (if sign then MINUS else PLUS). change (zone_text sign h m !!! 3) with COLON.
  change (slice (zone_text sign h m) 1 3) with (digits 2 h). change (slice (zone_text sign h m) 4 6) with (digits 2 m).
  rewrite !parseFixedDigits_digits by (simpl; lia). cbn [or_else rbind].
  replace ((23 <b h) || (59 <b m)) with false by lia. by destruct sign.
Qed.

(** An offset or nothing after the clock decides the kind. *)
Lemma dateTimeShape_date d lt zone : 
  dateTimeShape (date_text d ++ [cT] ++ clock_text lt ++ zone) =
  if existsb (λ b, (b =b cZ) || (b =b cz) || (b =b PLUS) || (b =b MINUS)) zone then dateTimeKindOffset else dateTimeKindLocalDateTime.
Proof.
  unfold dateTimeShape. destruct (date_text_shape d ([cT] ++ clock_text lt ++ zone)) as [-> Hl]. unfold dateShape.
  assert (length (date_text d ++ [cT] ++ clock_text lt ++ zone) = 11 + length (clock_text lt ++ zone)) as -> by (rewrite length_app, Hl; done).
  cbn [Nat.eqb Nat.add Nat.ltb Nat.leb]. change ((date_text d ++ [cT] ++ clock_text lt ++ zone) !!! 10) with cT.
  change (true && isDateTimeSeparator cT) with true. cbv iota.
  change (drop 11 _) with (clock_text lt ++ zone). unfold hasDateTimeOffsetSuffix.
  destruct (clock_text_shape lt []) as (_ & _ & Hc). rewrite drop_app_le by done. rewrite existsb_app.
  replace (existsb _ (drop 5 (clock_text lt))) with false; [done|]. symmetry. apply not_true_iff_false. rewrite existsb_exists.
  intros (c & Hin & Hx). pose proof (Forall_drop _ 5 _ (clock_text_chars lt)) as Hf. rewrite Forall_forall in Hf.
  apply list_elem_of_In, Hf in Hin. unfold clock_char, isDigit in Hin. lia.
Qed.

Lemma parse_time_text t : time_ok t = true → ∃ lt zone, valid_clock lt ∧ Forall (λ c, clock_char c ∨ c = cZ ∨ c = PLUS ∨ c = MINUS) zone ∧
  formatRFC3339Nano t = date_text (MkLocalDate (t_Year t) (t_Month t) (t_Day t)) ++ [cT] ++ clock_text lt ++ zone ∧
  parseDateTimeValue (formatRFC3339Nano t) = Ok (DTime t, dateTimeKindOffset).
Proof.
  unfold time_ok. intros H. apply andb_prop in H as [H Hloc]. apply andb_prop in H as [Hd%date_ok_valid Hc%is_ok_unit%validateLocalClock_ok].
  destruct (formatNano_clock (t_Hour t) (t_Minute t) (t_Second t) (t_Nanosecond t)) as (lt & Hv & Eh & Em & Es & En & Ht).
  { unfold clock_in_range. cbn. tauto. }
  set (zone := formatZone (zoneOffset (t_Location t))).
  assert (formatRFC3339Nano t = date_text (MkLocalDate (t_Year t) (t_Month t) (t_Day t)) ++ [cT] ++ clock_text lt ++ zone) as Etext.
  { unfold formatRFC3339Nano. rewrite <-Ht. pose proof (appendDate_text [] _ _ _ Hd) as Ed. cbn [app] in Ed. rewrite <-Ed.
    unfold appendDate, appendPaddedInt. cbn [Nat.eqb]. repeat (progress (rewrite <-?app_assoc; cbn [app])). done. }
  assert (parseZone zone = Ok (t_Location t) ∧ clock_end zone ∧ Forall (λ c, clock_char c ∨ c = cZ ∨ c = PLUS ∨ c = MINUS) zone ∧
    existsb (λ b, (b =b cZ) || (b =b cz) || (b =b PLUS) || (b =b MINUS)) zone = true) as (Hz & He & Hzc & Hk).
  { unfold zone. destruct (t_Location t) as [|name off]; cbn [zoneOffset].
    { split; [done|]. split; [done|]. split; [|done]. constructor; [by right; left|constructor]. }
    cbn [location_ok] in Hloc. rewrite !andb_true_iff in Hloc. destruct Hloc as ((((H0 & H1) & H2) & H3) & Hname%bool_decide_eq_true).
    destruct (formatZone_text off) as (sign & h & m & Ez & Hh & Hm & Eo); [lia..|]. rewrite Hname, Ez. split.
    { rewrite parseZone_zone by done. by rewrite <-Eo. }
    unfold zone_text. split; [by destruct sign|]. split; [|by destruct sign]. constructor; [destruct sign; tauto|].
    eapply Forall_impl; [apply (Forall_app_2 clock_char (digits 2 h)); [apply digits_clock|]; apply (Forall_cons_2 _ COLON);
      [by right; left|apply digits_clock]|]. by left. }
  exists lt, zone. split; [done|]. split; [done|]. split; [done|]. rewrite Etext. unfold parseDateTimeValue. rewrite dateTimeShape_date, Hk.
  unfold parseOffsetDateTime. rewrite parseDatePrefix_text by done. cbn [rbind].
  change ((date_text _ ++ [cT] ++ clock_text lt ++ zone) !! 10) with (Some cT). cbv iota beta.
  change (negb (isDateTimeSeparator cT)) with false. cbv iota.
  change (drop (10 + 1) _) with (clock_text lt ++ zone). rewrite parseTimePrefix_text by done. cbn [rbind].
  destruct (clock_text_shape lt []) as (_ & _ & Hc5). destruct (date_text_shape (MkLocalDate (t_Year t) (t_Month t) (t_Day t)) []) as [_ Hl10].
  assert (drop (10 + 1 + length (clock_text lt)) (date_text (MkLocalDate (t_Year t) (t_Month t) (t_Day t)) ++ [cT] ++ clock_text lt ++ zone) = zone) as ->.
  { rewrite <-(drop_drop _ _ (10 + 1)). change (drop (10 + 1) _) with (clock_text lt ++ zone). apply drop_app_length. }
  rewrite (proj2 (Nat.leb_gt _ _)).
  2:{ rewrite !length_app, Hl10. cbn [length]. destruct zone; [done|]. cbn [length]. lia. }
  rewrite Hz. cbn [rbind ld_Year ld_Month ld_Day]. rewrite Eh, Em, Es, En. by destruct t.
Qed.

Lemma parse_local_text d lt : valid_date d → valid_clock lt →
  parseDateTimeValue (date_text d ++ [cT] ++ clock_text lt) =
  Ok (DLocalDateTime (MkLocalDateTime (ld_Year d) (ld_Month d) (ld_Day d) (lt_Hour lt) (lt_Minute lt) (lt_Second lt) (lt_Nanosecond lt) (lt_hasSecond lt) (lt_nanoDigits lt)),
      dateTimeKindLocalDateTime).
Proof.
  intros Hd Hc. unfold parseDateTimeValue. pose proof (dateTimeShape_date d lt []) as Hs. rewrite app_nil_r in Hs. rewrite Hs. cbn [existsb].
  unfold parseLocalDateTime. rewrite parseDatePrefix_text by done. cbn [rbind].
  change ((date_text _ ++ [cT] ++ clock_text lt) !! 10) with (Some cT). cbv iota beta.
  change (negb (isDateTimeSeparator cT)) with false. cbv iota.
  change (drop (10 + 1) _) with (clock_text lt). rewrite parseTimePrefix_clock by done. cbn [rbind].
  rewrite !length_app. destruct (date_text_shape d []) as [_ ->]. cbn [length]. by rewrite Nat.add_assoc, Nat.eqb_refl.
Qed.

Lemma date_text_chars d : bare_chars (date_text d).
Proof.
  assert (bare_chars [MINUS]) by bare_chars. unfold date_text.
  apply Forall_app_2; [apply digits_bare, digits_isDigit|]. apply Forall_app_2; [done|].
  apply (Forall_app_2 _ (digits 2 _)); [apply digits_bare, digits_isDigit|]. apply Forall_app_2; [done|]. apply digits_bare, digits_isDigit.
Qed.

Lemma clock_char_bare c : clock_char c ∨ c = cZ ∨ c = PLUS ∨ c = MINUS →
  bareValueDelimiter c = false ∧ c ≠ DQUOTE ∧ c ≠ SQUOTE ∧ c ≠ LBRACK ∧ c ≠ LBRACE ∧ (0 ≤ c < 0x80)%Z.
Proof. intros [[H|[->| ->]]|[->|[->| ->]]]; [by apply digit_bare|done..]. Qed.

Lemma clock_bare lt : bare_chars (clock_text lt).
Proof. eapply Forall_impl; [apply clock_text_chars|]. intros c Hc. apply clock_char_bare. by left. Qed.

(** Every date-time that can be represented is written as text that reads back
    as itself. *)
Lemma datetime_parse dt : datetime_ok dt = true → bare_chars (datetime_text dt) ∧ datetime_text dt ≠ [] ∧
  ∃ kind, parseDateTimeValue (datetime_text dt) = Ok (dt, kind).
Proof.
  destruct (LocalDate_LocalTime_roundtrip []) as (_ & _ & Hdate & Hclock).
  assert (∀ d rest, date_text d ++ rest ≠ []) as Hne.
  { intros d rest E. apply (f_equal length) in E. rewrite length_app in E. destruct (date_text_shape d []) as [_ Hl]. rewrite Hl in E. done. }
  destruct dt as [t|dt|d|lt]; cbn [datetime_ok datetime_text].
  - intros Ht. destruct (parse_time_text t Ht) as (lt & zone & Hv & Hz & Et & Hp). rewrite Hp. split.
    + rewrite Et. apply Forall_app_2; [apply date_text_chars|]. apply (Forall_app_2 _ [cT]); [by bare_chars|].
      apply Forall_app_2; [apply clock_bare|]. eapply Forall_impl; [exact Hz|]. apply clock_char_bare.
    + rewrite Et. split; [apply Hne|by eexists].
  - intros [Hd%date_ok_valid Hc%clock_ok_valid]%andb_prop. rewrite LocalDateTime_MarshalText_ok by done. cbn [text_or_empty]. split.
    + apply Forall_app_2; [apply date_text_chars|]. apply (Forall_app_2 _ [cT]); [by bare_chars|]. apply clock_bare.
    + split; [apply Hne|]. rewrite parse_local_text by done. eexists. by destruct dt.
  - intros Hd%date_ok_valid. destruct (Hdate d Hd) as [Hp ->]. cbn [text_or_empty]. split; [apply date_text_chars|].
    rewrite <-(app_nil_r (date_text d)). split; [apply Hne|]. exists dateTimeKindLocalDate. unfold parseDateTimeValue, dateTimeShape.
    destruct (date_text_shape d []) as [-> Hl]. rewrite app_nil_r. unfold dateShape. rewrite Hl. cbn [Nat.eqb]. by rewrite Hp.
  - intros Hc%clock_ok_valid. destruct (Hclock lt Hc) as [Hp ->]. cbn [text_or_empty]. split; [apply clock_bare|].
    destruct (clock_text_shape lt []) as (H1 & H2 & H5). rewrite app_nil_r in H1, H2. split; [intros E; rewrite E in H5; simpl in H5; lia|].
    exists dateTimeKindLocalTime. unfold parseDateTimeValue, dateTimeShape. by rewrite H1, H2, Hp.
Qed.

(** ** Floats *)

(** The text of a finite float after its sign. *)
Definition unsigned (ip fp : bytes) (o : option (bool * bytes)) : bytes := ip ++ pointed fp ++ exponent o.

Lemma layout_unsigned neg ip fp o : layout neg ip fp o = (if neg then [MINUS] else []) ++ unsigned ip fp o.
Proof. done. Qed.

Definition float_char (c : Z) : Prop := isDigit c = true ∨ c = MINUS ∨ c = PLUS ∨ c = DOT ∨ c = ce.

Lemma unsigned_chars ip fp o : layout_ok ip fp o → Forall float_char (unsigned ip fp o).
Proof.
  intros (_ & Hip & _ & Hfp & Ho). assert (∀ ds, all_digits ds → Forall float_char ds) as Hd.
  { intros ds H. eapply Forall_impl; [exact H|]. by left. }
  unfold unsigned. apply Forall_app_2; [by apply Hd|]. apply Forall_app_2.
  - destruct fp as [|c fp]; [constructor|]. constructor; [unfold float_char; tauto|by apply Hd].
  - destruct o as [[s ds]|]; [|constructor]. destruct Ho as [_ Ho]. constructor; [unfold float_char; tauto|].
    constructor; [destruct s; unfold float_char; tauto|by apply Hd].
Qed.

Lemma layout_chars neg ip fp o : layout_ok ip fp o → Forall float_char (layout neg ip fp o).
Proof.
  intros H. rewrite layout_unsigned. apply Forall_app_2; [|by apply unsigned_chars].
  destruct neg; [|constructor]. constructor; [unfold float_char; tauto|constructor].
Qed.

Lemma float_char_bare c : float_char c → bareValueDelimiter c = false ∧ c ≠ DQUOTE ∧ c ≠ SQUOTE ∧ c ≠ LBRACK ∧ c ≠ LBRACE ∧ (0 ≤ c < 0x80)%Z.
Proof. intros [H|[->|[->|[->| ->]]]]; [by apply digit_bare|done..]. Qed.

Lemma unsigned_first ip fp o : layout_ok ip fp o → ∃ d n, unsigned ip fp o = d :: n ∧ isDigit d = true.
Proof.
  intros (Hne & Hip & _). destruct ip as [|d ip]; [done|]. apply Forall_cons in Hip as [Hd _]. by exists d, (ip ++ pointed fp ++ exponent o).
Qed.

(** A float is not an integer, a date or one of the words. *)
Lemma layout_not_integer neg ip fp o v : layout_ok ip fp o → fp ≠ [] ∨ o ≠ None → ¬ toml_integer (layout neg ip fp o) v.
Proof.
  intros Hok Hfo (sign & z & d & n & Hs & E & Hd & Hn)%toml_integer_shape.
  destruct Hok as (Hne & Hip & _). destruct ip as [|x ip]; [done|]. apply Forall_cons in Hip as [Hx Hip].
  assert (n = ip ++ pointed fp ++ exponent o) as ->.
  { unfold layout in E. unfold isDigit in Hd, Hx. 
    destruct neg, Hs as [[-> _]|[[-> _]|[-> _]]]; cbn [app] in E; simplify_eq; try done; exfalso; lia. }
  apply Forall_app in Hn as [_ Hn]. apply Forall_app in Hn as [Hn1 Hn2]. destruct fp as [|c fp].
  - destruct Hfo as [|Hfo]; [done|]. destruct o as [[s ds]|]; [|done]. cbn [exponent] in Hn2.
    apply Forall_cons in Hn2 as [_ Hn2]. apply Forall_cons in Hn2 as [[Hk Hm] _]. destruct s; [by apply Hm|discriminate Hk].
  - cbn [pointed] in Hn1. apply Forall_cons in Hn1 as [[Hk _] _]. discriminate Hk.
Qed.

Lemma layout_lookup_minus ip fp o i : layout_ok ip fp o → unsigned ip fp o !! S i = Some MINUS → unsigned ip fp o !! i = Some ce.
Proof.
  intros (_ & Hip & _ & Hfp & Ho) H. assert (∀ ds j, all_digits ds → ds !! j = Some MINUS → False) as Hno.
  { intros ds j Hd Hl. by apply (Forall_lookup_1 _ _ _ _ Hd) in Hl. }
  assert (∀ j, pointed fp !! j = Some MINUS → False) as Hp.
  { intros j Hj. destruct fp as [|c fp]; [done|]. destruct j as [|j]; [done|]. by apply (Hno (c :: fp) j). }
  unfold unsigned in *. rewrite app_assoc in *. set (a := ip ++ pointed fp) in *.
  assert (∀ j, a !! j = Some MINUS → False) as Ha.
  { intros j Hj. apply lookup_app_Some in Hj as [Hj|[_ Hj]]; [by apply (Hno ip j)|exact (Hp _ Hj)]. }
  apply lookup_app_Some in H as [H|[Hge H]]; [by destruct (Ha _ H)|].
  destruct o as [[s ds]|]; [|done]. destruct Ho as [_ Ho]. cbn [exponent] in *.
  destruct (S i - length a) as [|[|j]] eqn:Ej.
  - done.
  - rewrite lookup_app_r by lia. by replace (i - length a) with 0 by lia.
  - cbn in H. by destruct (Hno ds j Ho).
Qed.

Lemma layout_not_datetime neg ip fp o : layout_ok ip fp o → looksLikeDatetime (layout neg ip fp o) = false.
Proof.
  intros Hok. unfold looksLikeDatetime. replace (hasDateTimeShape (layout neg ip fp o)) with false; [done|]. symmetry.
  assert (COLON ∉ layout neg ip fp o) as Hcolon.
  { intros Hin. pose proof (layout_chars neg ip fp o Hok) as Hf. rewrite Forall_forall in Hf. by destruct (Hf _ Hin) as [|[|[|[|]]]]. }
  apply orb_false_iff. split.
  - unfold hasDateShape. case_match eqn:El; [done|]. apply Nat.ltb_ge in El. destruct neg; [done|].
    change (layout false ip fp o) with (unsigned ip fp o) in *.
    destruct (Z.eqb_spec (unsigned ip fp o !!! 4) MINUS) as [E4|]; [|by rewrite !andb_false_r].
    assert (unsigned ip fp o !! 3 = Some ce) as E3 by (apply layout_lookup_minus; [done|]; rewrite <-E4; apply lookup_total_lt; lia).
    apply list_lookup_total_correct in E3. rewrite E3. change (isDigit ce) with false. by rewrite !andb_false_r.
  - unfold hasTimeShape. case_match eqn:El; [done|]. apply Nat.ltb_ge in El.
    destruct (Z.eqb_spec (layout neg ip fp o !!! 2) COLON) as [E2|]; [|by rewrite !andb_false_r]. exfalso. apply Hcolon.
    rewrite <-E2. apply list_elem_of_lookup_2 with 2. apply lookup_total_lt. lia.
Qed.

Lemma float_char_cases c : float_char c → (c =b UNDERSCORE) = false ∧ (cA ≤b c) && (c ≤b cZ) = false ∧ (SP <b c) = true ∧ c ≠ EQUALS.
Proof. unfold float_char, isDigit. intros. repeat split; lia. Qed.

Lemma float_no_underscore n : Forall float_char n → n ≠ [] → hasValidNumberUnderscoresBytes n = true.
Proof.
  intros Hn Hne. unfold hasValidNumberUnderscoresBytes, edge_underscore.
  assert (∀ i, i < length n → (n !!! i =b UNDERSCORE) = false) as Hi.
  { intros i Hi. assert (n !! i = Some (n !!! i)) as E by (by apply lookup_total_lt).
    apply (Forall_lookup_1 _ _ _ _ Hn) in E. by apply float_char_cases in E as (-> & _). }
  assert (0 < length n) by (destruct n; [done|simpl; lia]). rewrite (Hi 0), (Hi (length n - 1)) by lia.
  replace (length n =? 0) with false by (symmetry; apply Nat.eqb_neq; lia). cbn [orb].
  assert (∀ s raw i b, Forall float_char s → numberUnderscores_loop raw i s b = true) as Hl.
  { clear. induction s as [|c s IH]; intros raw i b Hs; [done|]. apply Forall_cons in Hs as [Hc Hs]. cbn [numberUnderscores_loop].
    apply float_char_cases in Hc as (-> & _). cbn [negb]. by apply IH. }
  by apply Hl.
Qed.

Lemma floatCandidate_digits n ds rest a b : all_digits ds → ∀ i,
  floatCandidate_loop n i (ds ++ rest) a b = floatCandidate_loop n (i + length ds) rest a b.
Proof.
  induction 1 as [|c ds Hc _ IH]; intros i; [by rewrite Nat.add_0_r|]. cbn [app floatCandidate_loop length].
  rewrite Hc, orb_true_r. unfold isDigit in Hc. replace (c =b DOT) with false by lia. replace ((c =b ce) || (c =b cE)) with false by lia.
  replace ((c =b PLUS) || (c =b MINUS)) with false by lia. rewrite IH. f_equal. lia.
Qed.

Lemma floatCandidate_unsigned ip fp o : layout_ok ip fp o →
  floatCandidate_loop (unsigned ip fp o) 0 (unsigned ip fp o) false false =
  Some (match o with Some _ => true | None => false end, match fp with [] => false | _ => true end).
Proof.
  intros (Hne & Hip & _ & Hfp & Ho). set (n := unsigned ip fp o) at 1. unfold unsigned. rewrite floatCandidate_digits by done. cbn [Nat.add].
  assert (0 < length ip) as Hlen by (destruct ip; [done|simpl; lia]).
  assert (∀ i x, i = length (ip ++ pointed fp) → floatCandidate_loop n i (exponent o) false x = Some (match o with Some _ => true | None => false end, x)) as Hexp.
  { intros i x Hi. destruct o as [[s ds]|]; [|done]. destruct Ho as [_ Hds]. cbn [exponent floatCandidate_loop].
    change (ce =b DOT) with false. change ((ce =b ce) || (ce =b cE)) with true. cbv iota.
    assert (n !!! (i + 1 - 1) = ce) as Hprev.
    { apply list_lookup_total_correct. unfold n, unsigned. rewrite app_assoc, lookup_app_r by lia. replace (i + 1 - 1 - length (ip ++ pointed fp)) with 0 by lia. done. }
    rewrite Hprev. replace (i + 1 =? 0) with false by (symmetry; apply Nat.eqb_neq; lia). 
    assert (floatCandidate_loop n (i + 1 + 1) ds true x = Some (true, x)) as Hlast.
    { rewrite <-(app_nil_r ds). by rewrite floatCandidate_digits. }
    by destruct s. }
  destruct fp as [|c fp]; cbn [pointed].
  { apply Hexp. by rewrite app_nil_r. }
  change ((DOT :: c :: fp) ++ exponent o) with (DOT :: (c :: fp) ++ exponent o). cbn [floatCandidate_loop]. change (DOT =b DOT) with true. cbv iota.
  assert (n !!! (length ip + 1) = c ∧ length ip + 1 < length n) as [-> Hlt].
  { split.
    - apply list_lookup_total_correct. unfold n, unsigned. rewrite lookup_app_r by lia. replace (length ip + 1 - length ip) with 1 by lia. done.
    - unfold n, unsigned. rewrite !length_app. cbn [pointed length]. lia. }
  apply Forall_cons in Hfp as [Hc Hfp]. unfold isDigit in Hc.
  replace ((length ip =? 0) || false || (length n <=? length ip + 1) || (c <b c0) || (c9 <b c)) with false.
  2:{ symmetry. rewrite (proj2 (Nat.eqb_neq _ _)), (proj2 (Nat.leb_gt _ _)) by lia. cbn [orb]. lia. }
  rewrite (floatCandidate_digits _ (c :: fp)) by (constructor; [done|done]). apply Hexp. rewrite length_app. cbn [pointed length]. lia.
Qed.

Lemma layout_candidate neg ip fp o : layout_ok ip fp o → fp ≠ [] ∨ o ≠ None → isFloatCandidateBytes (layout neg ip fp o) = true.
Proof.
  intros Hok Hfo. destruct (unsigned_first ip fp o Hok) as (d & n & En & Hd). unfold isFloatCandidateBytes.
  assert (trimSignBytes (layout neg ip fp o) = unsigned ip fp o) as ->.
  { rewrite layout_unsigned, En. destruct neg; [done|]. cbn [app trimSignBytes]. unfold isDigit in Hd. by replace ((d =b PLUS) || (d =b MINUS)) with false by lia. }
  assert (length (layout neg ip fp o) ≠ 0 ∧ length (unsigned ip fp o) ≠ 0) as [Hl1 Hl2].
  { rewrite layout_unsigned, length_app, En. cbn [length]. lia. }
  rewrite (proj2 (Nat.eqb_neq _ _) Hl1), (proj2 (Nat.eqb_neq _ _) Hl2).
  replace ((1 <? length (unsigned ip fp o)) && (unsigned ip fp o !!! 0 =b c0) && (isDigit (unsigned ip fp o !!! 1) || (unsigned ip fp o !!! 1 =b UNDERSCORE))) with false.
  2:{ symmetry. apply not_true_iff_false. rewrite !andb_true_iff. intros [[Hlen H0] H1]. destruct Hok as (Hne & Hip & Hz & Hfp & Ho).
      destruct ip as [|x ip]; [done|]. cbn in H0. apply Z.eqb_eq in H0 as ->. specialize (Hz eq_refl). injection Hz as ->.
      unfold unsigned in H1. cbn [app] in H1. destruct fp; [destruct o as [[]|]; [|by destruct Hfo]|]; done. }
  rewrite floatCandidate_unsigned by done.
  replace (negb match fp with [] => false | _ => true end && negb match o with Some _ => true | None => false end) with false.
  - apply float_no_underscore; [by apply unsigned_chars|by rewrite En].
  - symmetry. destruct fp; [|done]. destruct o; [done|]. by destruct Hfo.
Qed.

Lemma layout_parse neg ip fp o : layout_ok ip fp o → parseFloatLiteral (layout neg ip fp o) = ParseFloat (layout neg ip fp o).
Proof.
  intros Hok. unfold parseFloatLiteral, appendNormalizedNumeric.
  replace (existsb (needs_normalizing true) (layout neg ip fp o)) with false; [done|]. symmetry. apply not_true_iff_false.
  rewrite existsb_exists. intros (c & Hin & Hc). pose proof (layout_chars neg ip fp o Hok) as Hf. rewrite Forall_forall in Hf.
  apply list_elem_of_In, Hf, float_char_cases in Hin as (H1 & H2 & _). unfold needs_normalizing in Hc. cbn [andb] in Hc. by rewrite H1, H2 in Hc.
Qed.

Lemma layout_not_other neg ip fp o : layout_ok ip fp o →
  contains_any (layout neg ip fp o) (str "= ") = false ∧
  bytes_eqb (layout neg ip fp o) trueLiteral || bytes_eqb (layout neg ip fp o) falseLiteral = false ∧ isSpecialFloatBytes (layout neg ip fp o) = false.
Proof.
  intros Hok. destruct (unsigned_first ip fp o Hok) as (d & n & En & Hd).
  assert (∀ i s t, s !! i ≠ t !! i → bytes_eqb s t = false) as Hne.
  { intros i s t Ht. apply bool_decide_eq_false. by intros <-. }
  split.
  - apply contains_any_false. intros c Hin Hc. pose proof (layout_chars neg ip fp o Hok) as Hf. rewrite Forall_forall in Hf.
    apply Hf, float_char_cases in Hin as (_ & _ & Hsp & He). change (str "= ") with [EQUALS; SP] in Hc. rewrite !elem_of_cons in Hc. destruct Hc as [->|[->|Hc]]; [done|done|by apply not_elem_of_nil in Hc].
  - rewrite layout_unsigned, En. unfold isDigit in Hd. unfold isSpecialFloatBytes. split.
    + destruct neg; cbn [app]; by rewrite !(Hne 0) by (cbn; congruence || (intros [= ?]; lia)).
    + destruct neg; cbn [app]; rewrite ?(Hne 0 _ infLiteral), ?(Hne 0 _ nanLiteral) by (cbn; congruence || (intros [= ?]; lia));
      rewrite ?(Hne 0 _ posInfLiteral), ?(Hne 0 _ posNanLiteral) by (cbn; congruence || (intros [= ?]; lia)).
      * by rewrite !(Hne 1) by (cbn; congruence || (intros [= ?]; lia)).
      * by rewrite !(Hne 0) by (cbn; congruence || (intros [= ?]; lia)).
Qed.

(** The floats that can be written and read back: the two infinities, the two
    NaNs the decoder makes, and every finite float whose shortest digits are
    found. *)
Definition float_ok (bits : Z) : bool :=
  (bits =b bitsInf) || (bits =b Z.lor bitsInf signBit) || (bits =b bitsNaN) || (bits =b Z.lor bitsNaN signBit) ||
  ((0 ≤b bits) && (bits <b 2 ^ 64) && negb (isNaNBits bits) &&
   match shortest bits 64 with
   | Some d => (-1000 <b dec_dp d - 1)%Z && (dec_dp d - 1 <b 1000)%Z
   | None => false
   end).

Lemma float_value {K : ScanKernels} bits : float_ok bits = true → bare_value (writeFloat bits 64) (VFloat bits) ∧ bare_chars (writeFloat bits 64).
Proof.
  assert (∀ w b, bare_chars w → w ≠ [] → classifyBareValue w = (TokenKindValueFloat, TokenScalar b tokenScalarFloat, ""%string) →
    writeFloat b 64 = w → bare_value (writeFloat b 64) (VFloat b) ∧ bare_chars (writeFloat b 64)) as Hw.
  { intros w b Hc Hne Hcl ->. split; [by apply float_token|done]. }
  unfold float_ok. destruct (Z.eqb_spec bits bitsInf) as [->|H1]; [intros _; apply (Hw (str "inf")); [by bare_chars|done..]|].
  destruct (Z.eqb_spec bits (Z.lor bitsInf signBit)) as [->|H2]; [intros _; apply (Hw (str "-inf")); [by bare_chars|done..]|].
  destruct (Z.eqb_spec bits bitsNaN) as [->|_]; [intros _; apply (Hw (str "nan")); [by bare_chars|done..]|].
  destruct (Z.eqb_spec bits (Z.lor bitsNaN signBit)) as [->|_]; [intros _; apply (Hw (str "-nan")); [by bare_chars|done..]|].
  cbn [orb]. rewrite !andb_true_iff. intros [[[Hb0 Hb1] Hn%negb_true_iff] Hs]. destruct (shortest bits 64) as [d|] eqn:Hd; [|done].
  destruct (floatText_layout bits d) as (ip & fp & o & Et & Hok & Hfo & Hp); [lia|done|done|done|lia|].
  apply (Hw (floatText bits 64)).
  - rewrite Et. eapply Forall_impl; [by apply layout_chars|]. apply float_char_bare.
  - rewrite Et. destruct (unsigned_first ip fp o Hok) as (x & n & En & _). rewrite layout_unsigned, En. by destruct (isNegative bits).
  - unfold classifyBareValue. rewrite Et in *. rewrite layout_not_datetime by done. destruct (layout_not_other (isNegative bits) ip fp o Hok) as (-> & -> & ->).
    destruct (isIntCandidateBytes (layout (isNegative bits) ip fp o)) eqn:Hi.
    { exfalso. destruct (isIntCandidate_sound _ Hi) as [v Hv]; [|by eapply layout_not_integer].
      unfold hasCapitalNumericPrefixBytes. pose proof (unsigned_chars ip fp o Hok) as Hf.
      destruct (unsigned_first ip fp o Hok) as (x & n & En & Hx).
      assert (trimSignBytes (layout (isNegative bits) ip fp o) = x :: n) as ->.
      { rewrite layout_unsigned, En. destruct (isNegative bits); [done|]. cbn [app trimSignBytes]. unfold isDigit in Hx. by replace ((x =b PLUS) || (x =b MINUS)) with false by lia. }
      rewrite En in Hf. apply Forall_cons in Hf as [_ Hf]. destruct n as [|y n]; [done|]. apply Forall_cons in Hf as [Hy _].
      apply float_char_cases in Hy as (_ & Hy & _). cbn [lookup_total list_lookup_total]. lia. }
    rewrite layout_candidate, layout_parse, Hp by done. done.
  - unfold writeFloat. rewrite (proj2 (Z.eqb_neq _ _) H1), (proj2 (Z.eqb_neq _ _) H2), Hn. done.
Qed.

Lemma datetime_value {K : ScanKernels} dt : datetime_ok dt = true →
  bare_value (datetime_text dt) (VDatetime dt) ∧ bare_chars (datetime_text dt).
Proof. intros H. destruct (datetime_parse dt H) as (Hc & Hne & kind & Hp). split; [by eapply datetime_token|done]. Qed.
