(* ===== verification/TomlMarshalSpec.v ===== *)
(** Encoding against the decoder: the data a Go value of the type
    [map[string]any] holds is the data [parseDocument] builds from the bytes
    [Marshal] writes for it. *)
From stdpp Require Import sorting.
From S2P Require Import Prelude GoUtf8 GoStrconv GoStrings GoQuote Scan TomlBase Datetime TomlString TomlNumber GoFloat TomlKey Decoder TomlTree TomlSkip TomlDocument TomlMarshal TomlRead TomlParse TomlParseDoc TomlText.

(** ** The data of a Go value *)

Definition isInterface (v : gval) : bool := match v with GInterface _ _ => true | _ => false end.

(** A type without methods the encoder would ask. *)
Definition plainType (m : meta) : bool := negb (named m) && match text m with None => true | Some _ => false end.

Fixpoint dataOf (v : gval) : option tval :=
  match v with
  | GInterface _ (Some x) => if isInterface x then None else dataOf x
  | GString m s => if plainType m then Some (TString s) else None
  | GBool m b => if plainType m then Some (TBool b) else None
  | GInt m z | GUint m z => if plainType m then Some (TInt z) else None
  | GFloat m bitSize bits => if plainType m && (bitSize =b 64) then Some (TFloat bits) else None
  | GTime t => Some (TDatetime (DTime t))
  | GLocalDateTime dt => Some (TDatetime (DLocalDateTime dt))
  | GLocalDate d => Some (TDatetime (DLocalDate d))
  | GLocalTime lt => Some (TDatetime (DLocalTime lt))
  | GSlice m _ items => if plainType m && isAnySlice m then TArray <$> mapM dataOf items else None
  | GMap m _ _ entries =>
      if plainType m && isAnyMap m then TTable <$> mapM (λ e, pair e.1 <$> dataOf e.2) entries else None
  | _ => None
  end.

(** Every string, number and date in it can be written and read back. *)
Fixpoint writable (t : tval) : bool :=
  match t with
  | TString s => toml_text s
  | TInt z => in_int64 z
  | TFloat bits => float_ok bits
  | TBool _ => true
  | TDatetime dt => datetime_ok dt
  | TArray l => forallb writable l
  | TTable kvs => forallb (λ kv, toml_text kv.1 && writable kv.2) kvs
  end.

(** How deep arrays are nested. *)
Fixpoint depth (t : tval) : nat :=
  match t with
  | TArray l => S (max_list (depth <$> l))
  | TTable kvs => max_list ((λ kv, depth kv.2) <$> kvs)
  | _ => 0
  end.

(** Equal up to the order of the entries of tables. *)
Inductive same : tval → tval → Prop :=
| same_leaf t v : leaf t = Some v → same t t
| same_array l l' : Forall2 same l l' → same (TArray l) (TArray l')
| same_table kvs kvs0 kvs' : kvs ≡ₚ kvs0 → Forall2 (λ a b, a.1 = b.1 ∧ same a.2 b.2) kvs0 kvs' → same (TTable kvs) (TTable kvs').

Abbreviation same_entry := (λ a b : bytes * tval, a.1 = b.1 ∧ same a.2 b.2).

Lemma same_entry_keys kvs kvs' : Forall2 same_entry kvs kvs' → kvs.*1 = kvs'.*1.
Proof. induction 1 as [|a b ?? [E _] _ IH]; [done|]. cbn. by rewrite E, IH. Qed.

(** The order of the entries is not part of what a store represents. *)
Lemma Rep_same st lo t : ∀ t' v, same t t' → Rep st lo t' v → Rep st lo t v.
Proof.
  induction t as [s|z|b|b|dt|l IH|kvs IH] using tval_nested_ind; intros t' v Hs Hr;
    try (inversion Hs; subst; done).
  - inversion Hs as [?? Hl|l1 l' Hl|]; subst; [done|]. inversion Hr as [?? Hlf|? vs Hvs|]; subst; [done|]. apply Rep_array.
    clear Hs Hr. revert vs Hvs. induction Hl as [|t1 t2 l l' Ht _ IHl]; intros vs Hvs; inversion Hvs; subst; [constructor|].
    apply Forall_cons in IH as [IH1 IH]. constructor; [by eapply IH1|by apply IHl].
  - inversion Hs as [?? Hl| |k1 kvs0 kvs' Hp Hf]; subst; [done|]. inversion Hr as [?? Hlf| |? id Hid Hdom Hget]; subst; [done|].
    apply Rep_table; [done| |].
    + rewrite Hdom, <-(same_entry_keys _ _ Hf). apply list_to_set_perm_L. by rewrite Hp.
    + intros k t Hin. assert ((k, t) ∈ kvs0) as Hin0 by (by rewrite <-Hp). apply list_elem_of_lookup_1 in Hin0 as [i Hi].
      destruct (Forall2_lookup_l _ _ _ _ _ Hf Hi) as ([k' t'] & Hi' & [E Ht]). cbn in E, Ht. subst k'.
      destruct (Hget k t') as (v & Hv & Hrv); [by eapply list_elem_of_lookup_2|]. exists v. split; [done|].
      rewrite Forall_forall in IH. by apply (IH (k, t) Hin t').
Qed.

Lemma keys_ok_same t : ∀ t', same t t' → keys_ok t = true → keys_ok t' = true.
Proof.
  induction t as [s|z|b|b|dt|l IH|kvs IH] using tval_nested_ind; intros t' Hs Hk;
    try (inversion Hs; subst; done).
  - inversion Hs as [?? Hl|l1 l' Hl|]; subst; [done|]. cbn [keys_ok] in *. rewrite !forallb_forall in *. intros x Hx.
    apply list_elem_of_In, list_elem_of_lookup_1 in Hx as [i Hi]. destruct (Forall2_lookup_r _ _ _ _ _ Hl Hi) as (y & Hy & Hxy).
    apply list_elem_of_lookup_2 in Hy. rewrite Forall_forall in IH. apply (IH y); [done|done|]. apply Hk. by apply list_elem_of_In.
  - inversion Hs as [?? Hl| |k1 kvs0 kvs' Hp Hf]; subst; [done|]. cbn [keys_ok] in *. rewrite !andb_true_iff in *.
    destruct Hk as [[Hn Hu] Hv]. pose proof (same_entry_keys _ _ Hf) as Hkeys. rewrite <-Hkeys. split; [split|].
    + rewrite bool_decide_eq_true in *. by rewrite <-Hp.
    + rewrite forallb_forall in *. intros x Hx. apply Hu. apply list_elem_of_In. rewrite Hp. by apply list_elem_of_In.
    + rewrite forallb_forall in *. intros x Hx. apply list_elem_of_In, list_elem_of_lookup_1 in Hx as [i Hi].
      destruct (Forall2_lookup_r _ _ _ _ _ Hf Hi) as (y & Hy & [_ Hxy]). apply list_elem_of_lookup_2 in Hy. rewrite <-Hp in Hy.
      rewrite Forall_forall in IH. apply (IH y Hy); [done|]. apply Hv. by apply list_elem_of_In.
Qed.

(** ** What a slot holds *)

Lemma dataOf_dynamic v t : dataOf v = Some t → ∃ x, dynamic v = Some x ∧ isInterface x = false ∧ dataOf x = Some t.
Proof.
  destruct v as [| | | | | | | | | | | | | |m [x|]|]; cbn [dataOf dynamic]; try (by eauto); try done.
  destruct (isInterface x) eqn:E; [done|]. eauto.
Qed.

Lemma mapM_entries entries kvs : mapM (λ e : bytes * gval, pair e.1 <$> dataOf e.2) entries = Some kvs →
  Forall2 (λ e kv, e.1 = kv.1 ∧ dataOf e.2 = Some kv.2) entries kvs.
Proof.
  intros H%mapM_Some_1. eapply Forall2_impl; [exact H|]. intros [k x] [k' t] E. cbn in *. destruct (dataOf x); cbn in E; [by injection E as -> ->|done].
Qed.

(** A table is held by a [map[string]any], an array by a [[]any]. *)
Lemma dataOf_table x kvs : isInterface x = false → dataOf x = Some (TTable kvs) → ∃ m sk isNil entries,
  x = GMap m sk isNil entries ∧ plainType m = true ∧ isAnyMap m = true ∧ Forall2 (λ e kv, e.1 = kv.1 ∧ dataOf e.2 = Some kv.2) entries kvs.
Proof.
  intros Hi. destruct x as [| | | | | | | | |m isNil items| |m sk isNil entries| | | |]; cbn [dataOf]; try (by repeat case_match); intros H.
  - case_match; [|done]. by destruct (mapM dataOf items).
  - destruct (plainType m && isAnyMap m) eqn:E; [|done]. apply andb_prop in E as [Hp Ha].
    destruct (mapM _ entries) as [kvs'|] eqn:Em; [|done]. cbn in H. injection H as ->. exists m, sk, isNil, entries.
    split; [done|]. split; [done|]. split; [done|]. by apply mapM_entries.
Qed.

Lemma dataOf_array x ts : isInterface x = false → dataOf x = Some (TArray ts) → ∃ m isNil items,
  x = GSlice m isNil items ∧ plainType m = true ∧ isAnySlice m = true ∧ Forall2 (λ e t, dataOf e = Some t) items ts.
Proof.
  intros Hi. destruct x as [| | | | | | | | |m isNil items| |m sk isNil entries| | | |]; cbn [dataOf]; try (by repeat case_match); intros H.
  - destruct (plainType m && isAnySlice m) eqn:E; [|done]. apply andb_prop in E as [Hp Ha].
    destruct (mapM dataOf items) as [ts'|] eqn:Em; [|done]. cbn in H. injection H as ->. exists m, isNil, items.
    split; [done|]. split; [done|]. split; [done|]. by apply mapM_Some_1.
  - case_match; [|done]. by destruct (mapM _ entries).
Qed.

(** ** Writers that do not fail *)

Lemma wseq_emit a b : wseq (emit a) (emit b) = emit (a ++ b).
Proof. done. Qed.

Lemma wconcat_emit ws : wconcat (emit <$> ws) = emit (concat ws).
Proof. induction ws as [|w ws IH]; [done|]. unfold wconcat in *. cbn [fmap list_fmap foldr concat]. by rewrite IH. Qed.

Lemma wjoin_emit sep ws : wjoin sep (emit <$> ws) = emit (join sep ws).
Proof.
  induction ws as [|w ws IH]; [done|]. destruct ws as [|w' ws]; [done|].
  change (wjoin sep (emit <$> w :: w' :: ws)) with (wseq (emit w) (wseq (emit sep) (wjoin sep (emit <$> w' :: ws)))).
  by rewrite IH.
Qed.

Lemma sortByKey_perm {A} (l : list (bytes * A)) : sortByKey l ≡ₚ l.
Proof. apply merge_sort_Permutation. Qed.

Lemma Forall2_perm {A B} (R : A → B → Prop) l l' k : l ≡ₚ l' → Forall2 R l k → ∃ k', k ≡ₚ k' ∧ Forall2 R l' k'.
Proof. intros Hp Hf. destruct (Permutation_Forall2 Hp Hf) as (k' & ? & ?). eauto. Qed.

Lemma Forall2_elem {A B} (R R' : A → B → Prop) l k : Forall2 R l k → (∀ a b, b ∈ k → R a b → R' a b) → Forall2 R' l k.
Proof.
  induction 1 as [|a b l k H _ IH]; intros HR; constructor; [by apply HR; [left|]|]. apply IH. intros x y Hy. apply HR. by right.
Qed.

(** What is joined is not longer than the whole. *)
Lemma length_join_elem sep (ws : list bytes) w : w ∈ ws → length w ≤ length (join sep ws).
Proof.
  induction ws as [|x ws IH]; [by intros ?%not_elem_of_nil|]. intros [->|Hin]%elem_of_cons; destruct ws as [|y ws].
  - done.
  - change (join sep (x :: y :: ws)) with (x ++ sep ++ join sep (y :: ws)). rewrite length_app. lia.
  - by apply not_elem_of_nil in Hin.
  - change (join sep (x :: y :: ws)) with (x ++ sep ++ join sep (y :: ws)). rewrite !length_app. specialize (IH Hin). lia.
Qed.

Lemma length_concat_elem (ws : list bytes) w : w ∈ ws → length w ≤ length (concat ws).
Proof.
  induction ws as [|x ws IH]; [by intros ?%not_elem_of_nil|]. cbn [concat]. rewrite length_app. intros [->|Hin]%elem_of_cons; [lia|].
  specialize (IH Hin). lia.
Qed.

Lemma valid_utf8_join sep (ws : list bytes) : valid_utf8 sep → Forall valid_utf8 ws → valid_utf8 (join sep ws).
Proof.
  intros Hs Hw. induction Hw as [|w ws Hw Hws IH]; [by exists []|]. destruct ws as [|y ws]; [done|].
  change (join sep (w :: y :: ws)) with (w ++ sep ++ join sep (y :: ws)). by repeat apply valid_utf8_app.
Qed.

Lemma valid_utf8_concat (ws : list bytes) : Forall valid_utf8 ws → valid_utf8 (concat ws).
Proof. induction 1 as [|w ws Hw _ IH]; [by exists []|]. cbn [concat]. by apply valid_utf8_app. Qed.

Lemma max_list_elem n l : n ∈ l → n ≤ max_list l.
Proof. apply max_list_elem_of_le. Qed.

(** ** Values *)

Section values.
Context {K : ScanKernels} (isPrintTable : Z → bool) (L : Limits).
Abbreviation writeAnyValue := (writeAnyValue isPrintTable).
Abbreviation formatKey := (formatKey isPrintTable).
Abbreviation writeEntry := (writeEntry isPrintTable).

(** Strings and keys have limits of their own. *)
Definition fits (w : bytes) : Prop :=
  (Z.of_nat (length w) ≤ MaxStringLength L ∧ Z.of_nat (length w) ≤ MaxKeyLength L)%Z.

Lemma fits_le w w' : length w ≤ length w' → fits w' → fits w.
Proof using Type. unfold fits. lia. Qed.

(** Something was written that spells the data, in some order of its entries. *)
Definition written (n : nat) (out : W) (t : tval) : Prop :=
  ∃ w t', out = emit w ∧ same t t' ∧ valid_utf8 w ∧ (fits w → value_text L n w t').

Lemma writeAnyValue_dynamic v x : dynamic v = Some x → writeAnyValue v = writeAnyValue x.
Proof using Type. destruct v; cbn [dynamic]; intros H; try (by injection H as <-). by rewrite H. Qed.

Lemma written_leaf n w t v : leaf t = Some v → bare_value w v → bare_chars w → written n (emit w) t.
Proof using Type.
  intros Hl Hb Hc. exists w, t. split; [done|]. split; [by eapply same_leaf|]. split; [by apply bare_chars_utf8|].
  intros _. by eapply vt_bare.
Qed.

Lemma written_string n s : toml_text s = true → written n (emit (writeQuotedString isPrintTable s)) (TString s).
Proof using Type.
  intros Hs. rewrite writeQuotedString_quote. destruct (toml_text_runes s Hs) as (rs & Hrs & ->).
  exists (Quote isPrintTable (encoded rs)), (TString (encoded rs)). split; [done|]. split; [by eapply same_leaf|]. split.
  - apply Quote_utf8. exists rs. split; [|done]. eapply Forall_impl; [exact Hrs|]. by intros r (? & _).
  - intros [Hf _]. apply vt_string; [by apply Quote_text|done].
Qed.

Lemma written_array n outs ts : Forall2 (written (S n)) outs ts → (Z.of_nat (S n) ≤ MaxNestedDepth L)%Z →
  written n (emit (str "[") ;;; wjoin (str ", ") outs ;;; emit (str "]")) (TArray ts).
Proof using Type.
  intros H Hn.
  assert (∃ ws ts', outs = emit <$> ws ∧ Forall2 same ts ts' ∧ Forall valid_utf8 ws ∧
    (Forall fits ws → Forall2 (value_text L (S n)) ws ts')) as (ws & ts' & -> & Hs & Hu & Hv).
  { induction H as [|out t outs ts (w & t' & -> & Hs & Hu & Hv) _ (ws & ts' & -> & Hss & Hus & Hvs)]; [by exists [], []; repeat constructor|].
    exists (w :: ws), (t' :: ts'). split; [done|]. split; [by constructor|]. split; [by constructor|].
    intros [Hf Hfs]%Forall_cons. constructor; auto. }
  rewrite wjoin_emit, !wseq_emit. exists (array_text ws), (TArray ts'). split; [done|]. split; [by apply same_array|]. split.
  - unfold array_text. apply (valid_utf8_app [LBRACK]); [by apply valid_utf8_ascii|].
    apply valid_utf8_app; [|by apply valid_utf8_ascii]. apply valid_utf8_join; [|done]. apply valid_utf8_all_ascii. by repeat constructor.
  - intros Hf. apply vt_array; [done|]. apply Hv, Forall_forall. intros w Hw. eapply fits_le; [|exact Hf].
    unfold array_text. cbn [length]. rewrite length_app. pose proof (length_join_elem comma ws w Hw). lia.
Qed.

(** The entries of an inline table, each name with what is written for its value. *)
Lemma written_entries n ps kvs : Forall2 (λ p kv, p.1 = kv.1 ∧ toml_text p.1 = true ∧ written n p.2 kv.2) ps kvs →
  ∃ es kvs', (λ e : bytes * W, writeEntry e.1 e.2) <$> ps = emit <$> (entry_text <$> es) ∧ Forall2 same_entry kvs kvs' ∧
    Forall valid_utf8 (entry_text <$> es) ∧
    (Forall fits (entry_text <$> es) →
     Forall2 (λ e kv, key_text e.1 kv.1 ∧ (Z.of_nat (length e.1) ≤ MaxKeyLength L)%Z ∧ value_text L n e.2 kv.2) es kvs').
Proof using Type.
  induction 1 as [|[k out] [k' t] ps kvs (E & Hk & w & t' & Eo & Hs & Hu & Hv) _ (es & kvs' & Ees & Hss & Hus & Hvs)]; [by exists [], []; repeat constructor|].
  cbn in E, Hk, Eo, Hs. subst k' out. destruct (formatKey_text isPrintTable k Hk) as [Hkt Hku].
  exists ((formatKey k, w) :: es), ((k, t') :: kvs'). cbn [fmap list_fmap]. rewrite Ees.
  split; [done|]. split; [by constructor|]. split.
  - constructor; [|done]. unfold entry_text. cbn [fst snd]. apply valid_utf8_app; [done|]. apply valid_utf8_app; [|done].
    apply valid_utf8_all_ascii. by repeat constructor.
  - intros [Hf Hfs]%Forall_cons. constructor; [|by apply Hvs]. cbn [fst snd]. unfold entry_text in Hf. cbn [fst snd] in Hf.
    assert (fits (formatKey k) ∧ fits w) as [[_ H1] H2] by (split; (eapply fits_le; [|exact Hf]); rewrite !length_app; lia).
    split; [done|]. split; [done|]. by apply Hv.
Qed.

Lemma written_table n (ps : list (bytes * W)) kvs kvs0 : kvs ≡ₚ kvs0 →
  Forall2 (λ p kv, p.1 = kv.1 ∧ toml_text p.1 = true ∧ written n p.2 kv.2) ps kvs0 →
  written n (inlineTable isPrintTable ps) (TTable kvs).
Proof using Type.
  intros Hp (es & kvs' & Ees & Hs & Hu & Hv)%written_entries. unfold inlineTable. rewrite Ees, wjoin_emit, !wseq_emit.
  exists (table_text es), (TTable kvs'). split; [done|]. split; [by eapply same_table|]. split.
  - unfold table_text. apply (valid_utf8_app [LBRACE; SP]); [apply valid_utf8_all_ascii; by repeat constructor|].
    apply valid_utf8_app; [|apply valid_utf8_all_ascii; by repeat constructor].
    apply valid_utf8_join; [|done]. apply valid_utf8_all_ascii. by repeat constructor.
  - intros Hf. apply vt_table. apply Hv, Forall_forall. intros w Hw. eapply fits_le; [|exact Hf].
    unfold table_text. cbn [length]. rewrite length_app. pose proof (length_join_elem comma _ w Hw). lia.
Qed.

Definition writes (t : tval) : Prop := ∀ v n,
  dataOf v = Some t → writable t = true → (Z.of_nat (n + depth t) ≤ MaxNestedDepth L)%Z → written n (writeAnyValue v) t.

(** A value without parts, by the case of the type switch that writes it. *)
Lemma writes_leaf t v : leaf t = Some v → writes t.
Proof using Type.
  intros Hl x n (y & Hdyn & Hi & Hy)%dataOf_dynamic Hw _. rewrite (writeAnyValue_dynamic _ _ Hdyn). clear Hdyn x.
  assert (∀ m, plainType m = true → named m = false) as Hplain by (by intros m [H%negb_true_iff _]%andb_prop).
  destruct y as [m s|m b|m z|m z|m bs bits|tm|dt|d|lt|m nl items|m items|m sk nl es|m fs|m tg|m o|m a b]; cbn [dataOf] in Hy;
    try done; cbn [TomlMarshal.writeAnyValue].
  - destruct (plainType m) eqn:E; [|done]. rewrite (Hplain m E). injection Hy as <-. by apply written_string.
  - destruct (plainType m) eqn:E; [|done]. rewrite (Hplain m E). injection Hy as <-. destruct (bool_value b). eapply written_leaf; [reflexivity|done..].
  - destruct (plainType m) eqn:E; [|done]. rewrite (Hplain m E). injection Hy as <-. eapply written_leaf; [reflexivity|by apply int_value|apply Itoa_chars].
  - destruct (plainType m) eqn:E; [|done]. rewrite (Hplain m E). injection Hy as <-. eapply written_leaf; [reflexivity|by apply int_value|apply Itoa_chars].
  - destruct (plainType m) eqn:E; [|done]. rewrite (Hplain m E). destruct (Z.eqb_spec bs 64) as [->|]; [|done]. injection Hy as <-.
    destruct (float_value bits Hw). eapply written_leaf; [reflexivity|done..].
  - injection Hy as <-. destruct (datetime_value (DTime tm) Hw). eapply written_leaf; [reflexivity|done..].
  - injection Hy as <-. destruct (datetime_value (DLocalDateTime dt) Hw). eapply written_leaf; [reflexivity|done..].
  - injection Hy as <-. destruct (datetime_value (DLocalDate d) Hw). eapply written_leaf; [reflexivity|done..].
  - injection Hy as <-. destruct (datetime_value (DLocalTime lt) Hw). eapply written_leaf; [reflexivity|done..].
  - case_match; [|done]. destruct (mapM dataOf items); [|done]. cbn in Hy. by injection Hy as <-.
  - case_match; [|done]. destruct (mapM _ es); [|done]. cbn in Hy. by injection Hy as <-.
Qed.

Lemma writes_array ts : Forall writes ts → writes (TArray ts).
Proof using Type.
  intros IH x n (y & Hdyn & Hi & Hy)%dataOf_dynamic Hw Hdepth. rewrite (writeAnyValue_dynamic _ _ Hdyn). clear Hdyn x.
  destruct (dataOf_array y ts Hi Hy) as (m & nl & items & -> & Hp & Ha & Hitems). cbn [TomlMarshal.writeAnyValue]. rewrite Ha.
  cbn [depth writable] in *. apply written_array; [|lia].
  rewrite forallb_forall in Hw. rewrite Forall_forall in IH. apply Forall2_fmap_l. eapply Forall2_elem; [exact Hitems|].
  intros x t Ht Hx. apply IH; [done|done|apply Hw; by apply list_elem_of_In|].
  pose proof (max_list_elem (depth t) (depth <$> ts) ltac:(by apply list_elem_of_fmap_2)). lia.
Qed.

(** The entries of a table, each with what is computed for its value, in the
    order of their names. *)
Lemma sorted_entries {A} (R : bytes * A → bytes * tval → Prop) (f : bytes * gval → bytes * A) entries kvs :
  Forall2 (λ e kv, R (f e) kv) entries kvs → ∃ kvs0, kvs ≡ₚ kvs0 ∧ Forall2 R (sortByKey (f <$> entries)) kvs0.
Proof using Type.
  intros H. apply (Forall2_perm R (f <$> entries)); [symmetry; apply sortByKey_perm|]. by apply Forall2_fmap_l.
Qed.

Lemma writes_table kvs : Forall (λ kv, writes kv.2) kvs → writes (TTable kvs).
Proof using Type.
  intros IH x n (y & Hdyn & Hi & Hy)%dataOf_dynamic Hw Hdepth. rewrite (writeAnyValue_dynamic _ _ Hdyn). clear Hdyn x.
  destruct (dataOf_table y kvs Hi Hy) as (m & sk & nl & entries & -> & Hp & Ha & Hentries). cbn [TomlMarshal.writeAnyValue]. rewrite Ha.
  cbn [depth writable] in *. rewrite forallb_forall in Hw. rewrite Forall_forall in IH.
  destruct (sorted_entries (λ p kv, p.1 = kv.1 ∧ toml_text p.1 = true ∧ written n p.2 kv.2) (λ e, (e.1, writeAnyValue e.2)) entries kvs)
    as (kvs0 & Hp0 & Hf); [|by eapply written_table].
  eapply Forall2_elem; [exact Hentries|]. intros [k x] [k' t] Hkv [E Hx]. cbn in E, Hx |- *. subst k'.
  pose proof (Hw (k, t) ltac:(by apply list_elem_of_In)) as [Hk Ht]%andb_prop. split; [done|]. split; [done|].
  apply (IH (k, t) Hkv); [done|done|]. cbn [snd].
  pose proof (max_list_elem (depth t) ((λ kv, depth kv.2) <$> kvs) ltac:(by apply (list_elem_of_fmap_2 (λ kv : bytes * tval, depth kv.2) kvs (k, t)))). lia.
Qed.

Lemma writes_all t : writes t.
Proof using Type.
  induction t using tval_nested_ind; try (by eapply writes_leaf); [by apply writes_array|by apply writes_table].
Qed.
End values.

(** ** What is written as a table *)

(** The search for a table below a value never finds one: an empty map and every
    value that is no container end it, and a container only passes on what its
    parts say. *)
Lemma no_tableLike_descendant : ∀ v, hasNonEmptyTableLikeDescendantAny v = false.
Proof.
  fix IH 1. intros [m s|m b|m z|m z|m bs bits|tm|dt|d|lt|m nl items|m items|m sk nl es|m fs|m tg|m [x|]|m a b]; try reflexivity; cbn [hasNonEmptyTableLikeDescendantAny].
  - destruct (isAnySlice m); [|reflexivity]. induction items as [|x items IHi]; [reflexivity|]. cbn [existsb]. rewrite (IH x), IHi; reflexivity.
  - destruct (isAnyMap m); [|reflexivity]. destruct (length es =? 0); [reflexivity|].
    induction es as [|[k x] es IHe]; [reflexivity|]. cbn [existsb snd]. rewrite (IH x), IHe; reflexivity.
  - apply IH.
Qed.

Lemma no_tableLike_value entries : containsNonEmptyTableLikeValueAny entries = false.
Proof. unfold containsNonEmptyTableLikeValueAny. induction entries as [|[k x] entries IH]; [done|]. cbn [existsb snd]. by rewrite no_tableLike_descendant, IH. Qed.

Definition empty_table (t : tval) : bool := match t with TTable [] => true | _ => false end.

(** Only arrays of empty tables are written under headers. *)
Definition table_array (t : tval) : bool := match t with TArray (t :: l) => forallb empty_table (t :: l) | _ => false end.
Definition table_like (t : tval) : bool := match t with TTable _ => true | _ => table_array t end.

Lemma anyMapEntries_data v t : dataOf v = Some t →
  match t with
  | TTable kvs => ∃ entries, anyMapEntries v = Some entries ∧ Forall2 (λ e kv, e.1 = kv.1 ∧ dataOf e.2 = Some kv.2) entries kvs
  | _ => anyMapEntries v = None
  end.
Proof.
  intros (x & Hdyn & Hi & Hx)%dataOf_dynamic. unfold anyMapEntries. rewrite Hdyn. destruct t as [| | | | |ts|kvs].
  all: try (destruct x; try done; cbn [dataOf] in Hx; repeat case_match; try done; destruct (mapM _ _); done).
  destruct (dataOf_table x kvs Hi Hx) as (m & sk & nl & entries & -> & Hp & Ha & Hf). rewrite Ha. eauto.
Qed.

Lemma anySliceItems_data v t : dataOf v = Some t →
  match t with
  | TArray ts => ∃ items, anySliceItems v = Some items ∧ Forall2 (λ e t, dataOf e = Some t) items ts
  | _ => anySliceItems v = None
  end.
Proof.
  intros (x & Hdyn & Hi & Hx)%dataOf_dynamic. unfold anySliceItems. rewrite Hdyn. destruct t as [| | | | |ts|kvs].
  all: try (destruct x; try done; cbn [dataOf] in Hx; repeat case_match; try done; destruct (mapM _ _); done).
  destruct (dataOf_array x ts Hi Hx) as (m & nl & items & -> & Hp & Ha & Hf). rewrite Ha. eauto.
Qed.

Lemma arrayOfTables_data items ts : Forall2 (λ e t, dataOf e = Some t) items ts → ∀ allEmpty,
  arrayOfTables_loop items allEmpty false = match items with [] => allEmpty | _ => allEmpty && forallb empty_table ts end.
Proof.
  induction 1 as [|x t items ts Hx Hf IH]; intros allEmpty; [by cbn; rewrite orb_false_r|]. cbn [arrayOfTables_loop forallb].
  pose proof (anyMapEntries_data x t Hx) as Hm. destruct t as [| | | | | |kvs]; try (by rewrite Hm, andb_false_r).
  destruct Hm as (entries & -> & Hkv). rewrite no_tableLike_value. cbn [orb].
  assert (∀ b, arrayOfTables_loop items b false = b && forallb empty_table ts) as IH'.
  { intros b. rewrite IH. destruct Hf; [by rewrite andb_true_r|done]. }
  destruct Hkv as [|e kv entries kvs _ _]; cbn [length Nat.eqb empty_table andb]; rewrite IH'; [done|by rewrite andb_false_r].
Qed.

Lemma isArrayOfTablesAny_data v t : dataOf v = Some t → isArrayOfTablesAny v = table_array t.
Proof.
  intros Hv. pose proof (anySliceItems_data v t Hv) as Hs. unfold isArrayOfTablesAny.
  destruct t as [| | | | |ts|kvs]; try (by rewrite Hs). destruct Hs as (items & -> & Hf).
  destruct Hf as [|x t items ts Hx Hf]; [done|]. cbn [length Nat.eqb]. by rewrite (arrayOfTables_data (x :: items) (t :: ts)) by (by constructor).
Qed.

Lemma isTableLikeAny_data v t : dataOf v = Some t → isTableLikeAny v = table_like t.
Proof.
  intros (x & Hdyn & Hi & Hx)%dataOf_dynamic. unfold isTableLikeAny. rewrite Hdyn.
  pose proof (anyMapEntries_data x t Hx) as Hm. pose proof (anySliceItems_data x t Hx) as Hs. pose proof (isArrayOfTablesAny_data x t Hx) as Ha.
  assert (∀ m, plainType m = true → named m = false ∧ text m = None) as Hplain.
  { intros m [H1%negb_true_iff H2]%andb_prop. by destruct (text m). }
  destruct t as [s0|z0|f0|b0|dt0|ts|kvs].
  6:{ destruct Hs as (items & Hs & _). rewrite Hm, Hs, Ha. destruct (dataOf_array x ts Hi Hx) as (m & nl & its & -> & Hp & _).
      unfold isTextMarshaler. cbn [metaOf]. by destruct (Hplain m Hp) as [_ ->]. }
  6:{ destruct Hm as (entries & Hm & _). rewrite Hm. destruct (dataOf_table x kvs Hi Hx) as (m & sk & nl & es & -> & Hp & _).
      unfold isTextMarshaler. cbn [metaOf]. by destruct (Hplain m Hp) as [_ ->]. }
  all: rewrite Hm, Hs; destruct x as [m s|m b|m z|m z|m bs bits|tm|dt|d|lt|m nl items|m items|m sk nl es|m fs|m tg|m o|m a b]; cbn [dataOf] in Hx; try done;
    try (destruct (plainType m) eqn:E; [|done]; destruct (Hplain m E) as [Hn Ht]; unfold isTextMarshaler, isTableLike, isScalarSpecial; cbn; by rewrite Ht, ?Hn).
  all: case_match; try done; destruct (mapM _ _); done.
Qed.

(** ** Documents *)

Section documents.
Context {K : ScanKernels} (isPrintTable : Z → bool) (L : Limits).
Abbreviation formatKey := (formatKey isPrintTable).
Abbreviation encodeAnyDocument := (encodeAnyDocument isPrintTable).
Abbreviation encodeAnyItems := (encodeAnyItems isPrintTable).
Abbreviation writeKeyValueAny := (writeKeyValueAny isPrintTable).
Abbreviation tableHeader := (tableHeader isPrintTable).

(** The names of the path and how they are written. *)
Abbreviation written_path path := (formatKey <$> path : list bytes).

(** A line or a block of the document. *)
Definition line_written (out : W) (k : bytes) (t : tval) : Prop :=
  ∃ w t', out = emit (line_text (formatKey k, w)) ∧ same t t' ∧ valid_utf8 (line_text (formatKey k, w)) ∧ (fits L w → value_text L 0 w t').

Definition block_written (path : list bytes) (out : W) (k : bytes) (t : tval) : Prop :=
  ∃ b t', out = emit b ∧ same t t' ∧ valid_utf8 b ∧ (fits L b → block_text L (written_path path) path b (k, t')).

Definition entry_written (path : list bytes) (p : bytes * (bool * W * W)) (kv : bytes * tval) : Prop :=
  p.1 = kv.1 ∧ toml_text p.1 = true ∧
  let '(isTable, line, table) := p.2 in if isTable : bool then block_written path table kv.1 kv.2 else line_written line kv.1 kv.2.

Definition document_written (path : list bytes) (out : W) (kvs : list (bytes * tval)) : Prop :=
  ∃ body kvs', out = emit body ∧ same (TTable kvs) (TTable kvs') ∧ valid_utf8 body ∧ (fits L body → doc_text L (written_path path) path body kvs').

(** The two passes put the lines before the blocks. *)
Lemma passes_written path ps kvs : Forall2 (entry_written path) ps kvs → ∃ lines lkvs blocks bkvs kvs',
  (λ e : bytes * (bool * W * W), let '(isTable, line, _) := e.2 in if isTable then emit [] else line) <$> ps = emit <$> lines ∧
  (λ e : bytes * (bool * W * W), let '(isTable, _, table) := e.2 in if isTable then table else emit []) <$> ps = emit <$> blocks ∧
  Forall valid_utf8 lines ∧ Forall valid_utf8 blocks ∧ Forall2 same_entry kvs kvs' ∧ kvs' ≡ₚ lkvs ++ bkvs ∧
  (Forall (fits L) lines → Forall (fits L) blocks → ∃ es bs,
    concat lines = concat (line_text <$> es) ∧ concat blocks = concat bs ∧
    Forall2 (λ e kv, key_text e.1 kv.1 ∧ (Z.of_nat (length e.1) ≤ MaxKeyLength L)%Z ∧ value_text L 0 e.2 kv.2) es lkvs ∧
    Forall2 (block_text L (written_path path) path) bs bkvs).
Proof using Type.
  induction 1 as [|[k [[isTable line] table]] [k' t] ps kvs (E & Hk & Hw) _ (lines & lkvs & blocks & bkvs & kvs' & E1 & E2 & Hu1 & Hu2 & Hs & Hp & Hv)].
  { exists [], [], [], [], []. repeat split; try done; try constructor. intros _ _. exists [], []. repeat split; constructor. }
  cbn in E, Hk, Hw. subst k'. cbn [fmap list_fmap snd]. rewrite E1, E2. destruct isTable.
  - destruct Hw as (b & t' & -> & Hst & Hub & Hb). exists ([] :: lines), lkvs, (b :: blocks), ((k, t') :: bkvs), ((k, t') :: kvs').
    split; [done|]. split; [done|]. split; [constructor; [by exists []|done]|]. split; [by constructor|]. split; [by constructor|].
    split; [by rewrite Hp, Permutation_middle|]. intros [_ Hl]%Forall_cons [Hfb Hfs]%Forall_cons.
    destruct (Hv Hl Hfs) as (es & bs & E3 & E4 & H1 & H2). exists es, (b :: bs). cbn [concat app]. rewrite E3, E4. repeat split; try done. constructor; auto.
  - destruct Hw as (w & t' & -> & Hst & Hul & Hl'). destruct (formatKey_text isPrintTable k Hk) as [Hkt _].
    exists (line_text (formatKey k, w) :: lines), ((k, t') :: lkvs), ([] :: blocks), bkvs, ((k, t') :: kvs').
    split; [done|]. split; [done|]. split; [by constructor|]. split; [constructor; [by exists []|done]|]. split; [by constructor|].
    split; [by rewrite Hp|]. intros [Hfl Hfs]%Forall_cons [_ Hb]%Forall_cons.
    destruct (Hv Hfs Hb) as (es & bs & E3 & E4 & H1 & H2). exists ((formatKey k, w) :: es), bs. cbn [fmap list_fmap concat app]. rewrite E3, E4.
    split; [done|]. split; [done|]. split; [|done]. constructor; [|done]. cbn [fst snd]. unfold line_text, entry_text in Hfl. cbn [fst snd] in Hfl.
    assert (fits L (formatKey k) ∧ fits L w) as [[_ ?] ?] by (split; (eapply fits_le; [|exact Hfl]); rewrite !length_app; lia).
    repeat split; auto.
Qed.

Lemma documentOf_written path ps kvs kvs0 : kvs ≡ₚ kvs0 → Forall2 (entry_written path) ps kvs0 → document_written path (documentOf ps) kvs.
Proof using Type.
  intros Hkvs (lines & lkvs & blocks & bkvs & kvs' & E1 & E2 & Hu1 & Hu2 & Hs & Hp & Hv)%passes_written.
  unfold documentOf. rewrite E1, E2, !wconcat_emit, wseq_emit. exists (concat lines ++ concat blocks), (lkvs ++ bkvs).
  split; [done|]. split; [|split].
  - apply Forall2_flip in Hs. destruct (Permutation_Forall2 Hp Hs) as (kvs1 & Hp1 & Hf1). eapply same_table; [by etrans|]. by apply Forall2_flip.
  - apply valid_utf8_app; by apply valid_utf8_concat.
  - intros Hf. destruct Hv as (es & bs & -> & -> & H1 & H2).
    + apply Forall_forall. intros w Hw. eapply fits_le; [|exact Hf]. rewrite length_app. pose proof (length_concat_elem lines w Hw). lia.
    + apply Forall_forall. intros w Hw. eapply fits_le; [|exact Hf]. rewrite length_app. pose proof (length_concat_elem blocks w Hw). lia.
    + by apply doc_intro.
Qed.

Lemma line_of_value key v t : toml_text key = true → dataOf v = Some t → writable t = true → (Z.of_nat (depth t) ≤ MaxNestedDepth L)%Z →
  line_written (writeKeyValueAny key v) key t.
Proof using Type.
  intros Hk Hv Hw Hd. destruct (writes_all isPrintTable L t v 0 Hv Hw Hd) as (w & t' & Ew & Hs & Hu & Hval).
  destruct (formatKey_text isPrintTable key Hk) as [_ Hku]. unfold TomlMarshal.writeKeyValueAny. rewrite Ew, !wseq_emit.
  exists w, t'. assert (formatKey key ++ str " = " ++ w ++ [LF] = line_text (formatKey key, w)) as E.
  { unfold line_text, entry_text. cbn [fst snd]. by rewrite <-!app_assoc. }
  rewrite E. split; [done|]. split; [done|]. split; [|done]. rewrite <-E. apply valid_utf8_app; [done|]. apply valid_utf8_app.
  - apply valid_utf8_all_ascii. by repeat constructor.
  - apply valid_utf8_app; [done|]. by apply valid_utf8_ascii.
Qed.

Lemma tableHeader_line path array : tableHeader path array = emit (header_line array (written_path path)).
Proof using Type. unfold TomlMarshal.tableHeader, writeHeader, header_line, header_text. by destruct array; cbn; rewrite <-?app_assoc. Qed.

(** Every name of the path can be written. *)
Abbreviation path_ok path := (Forall (λ k, toml_text k = true) path).

Lemma header_line_utf8 path array : path_ok path → valid_utf8 (header_line array (written_path path)).
Proof using Type.
  intros Hp. unfold header_line, header_text. apply (valid_utf8_app [LF]); [by apply valid_utf8_ascii|].
  assert (∀ b, valid_utf8 (opening b) ∧ valid_utf8 (closing b)) as Hb by (intros []; split; apply valid_utf8_all_ascii; by repeat constructor).
  rewrite <-app_assoc. apply valid_utf8_app; [apply Hb|]. rewrite <-app_assoc. apply valid_utf8_app; [|apply valid_utf8_app; [apply Hb|by apply valid_utf8_ascii]].
  apply valid_utf8_join; [by apply valid_utf8_ascii|]. apply Forall_fmap. eapply Forall_impl; [exact Hp|]. intros k Hk. by apply formatKey_text.
Qed.

Lemma header_fits path array w : fits L w → length (header_line array (written_path path)) ≤ length w →
  (Z.of_nat (length (join [DOT] (written_path path))) ≤ MaxKeyLength L)%Z.
Proof using Type. intros [_ Hf] Hl. unfold header_line, header_text in Hl. cbn [length] in Hl. rewrite !length_app in Hl. lia. Qed.

Definition encodes (t : tval) : Prop := ∀ v path kvs, t = TTable kvs → dataOf v = Some t → writable t = true →
  (Z.of_nat (depth t) ≤ MaxNestedDepth L)%Z → path_ok path → document_written path (encodeAnyDocument v path) kvs.

Lemma encodeAnyDocument_dynamic v x path : dynamic v = Some x → encodeAnyDocument v path = encodeAnyDocument x path.
Proof using Type. destruct v; cbn [dynamic]; intros H; try (by injection H as <-). by rewrite H. Qed.

Lemma encodeAnyItems_dynamic v x path : dynamic v = Some x → encodeAnyItems v path = encodeAnyItems x path.
Proof using Type. destruct v; cbn [dynamic]; intros H; try (by injection H as <-). by rewrite H. Qed.

(** A table under its header. *)
Lemma block_of_table path key v kvs : encodes (TTable kvs) → toml_text key = true → path_ok path → dataOf v = Some (TTable kvs) →
  writable (TTable kvs) = true → (Z.of_nat (depth (TTable kvs)) ≤ MaxNestedDepth L)%Z →
  block_written path (tableHeader (appendPath path key) false ;;; encodeAnyDocument v (appendPath path key)) key (TTable kvs).
Proof using Type.
  intros He Hk Hp Hv Hw Hd. assert (path_ok (appendPath path key)) as Hp' by (apply Forall_app; split; [done|by constructor]).
  destruct (He v (appendPath path key) kvs eq_refl Hv Hw Hd Hp') as (body & kvs' & -> & Hs & Hu & Hdoc).
  rewrite tableHeader_line, wseq_emit. exists (header_line false (written_path (appendPath path key)) ++ body), (TTable kvs').
  split; [done|]. split; [done|]. split; [apply valid_utf8_app; [by apply header_line_utf8|done]|]. intros Hf.
  destruct (formatKey_text isPrintTable key Hk) as [Hkt _].
  assert (written_path (appendPath path key) = written_path path ++ [formatKey key]) as Epath by (unfold appendPath; by rewrite fmap_app).
  pose proof (header_fits (appendPath path key) false _ Hf ltac:(rewrite length_app; lia)) as Hlen. rewrite Epath in *.
  apply block_table; [done|done|]. apply Hdoc. eapply fits_le; [|exact Hf]. rewrite length_app. lia.
Qed.

Lemma empty_tables ts : forallb empty_table ts = true → ts = repeat (TTable []) (length ts).
Proof using Type.
  induction ts as [|t ts IH]; [done|]. cbn [forallb length repeat]. intros [Ht Hts]%andb_prop.
  destruct t as [| | | | | |[|]]; try done. by rewrite <-IH.
Qed.

(** An array of empty tables, each a header. *)
Lemma block_of_array path key v ts : toml_text key = true → path_ok path → dataOf v = Some (TArray ts) → table_array (TArray ts) = true →
  block_written path (encodeAnyItems v (appendPath path key)) key (TArray ts).
Proof using Type.
  intros Hk Hp (x & Hdyn & Hi & Hx)%dataOf_dynamic Ha. assert (path_ok (appendPath path key)) as Hp' by (apply Forall_app; split; [done|by constructor]).
  rewrite (encodeAnyItems_dynamic _ _ _ Hdyn). destruct (dataOf_array x ts Hi Hx) as (m & nl & items & -> & _ & _ & Hitems).
  assert (forallb empty_table ts = true ∧ 0 < length ts) as [He Hlen] by (destruct ts; [done|split; [done|simpl; lia]]).
  cbn [TomlMarshal.encodeAnyItems]. set (h := header_line true (written_path (appendPath path key))).
  assert ((λ item, tableHeader (appendPath path key) true ;;; encodeAnyDocument item (appendPath path key)) <$> items = emit <$> repeat h (length ts)) as ->.
  { clear Hdyn Hi Hx Ha Hlen. induction Hitems as [|item t items ts Hit _ IH]; [done|]. cbn [forallb] in He. apply andb_prop in He as [Ht He].
    cbn [fmap list_fmap length repeat]. f_equal; [|by apply IH]. destruct t as [| | | | | |[|]]; try done.
    destruct (dataOf_dynamic item _ Hit) as (y & Hy & Hyi & Hyd). rewrite (encodeAnyDocument_dynamic _ _ _ Hy).
    destruct (dataOf_table y [] Hyi Hyd) as (m' & sk & nl' & es & -> & _ & Hany & Hes). apply Forall2_nil_inv_r in Hes as ->.
    cbn [TomlMarshal.encodeAnyDocument]. rewrite Hany, tableHeader_line. change (documentOf _) with (emit []). rewrite wseq_emit. by rewrite app_nil_r. }
  rewrite wconcat_emit. exists (concat (repeat h (length ts))), (TArray ts). split; [done|]. split.
  { apply same_array. rewrite (empty_tables ts He). clear. induction (length ts) as [|n IH]; constructor; [|done]. by eapply same_table. }
  split.
  - apply valid_utf8_concat. apply Forall_forall. intros w Hw. apply list_elem_of_In, repeat_spec in Hw as ->. by apply header_line_utf8.
  - intros Hf. rewrite (empty_tables ts He), repeat_length. destruct (formatKey_text isPrintTable key Hk) as [Hkt _].
    assert (written_path (appendPath path key) = written_path path ++ [formatKey key]) as Epath by (unfold appendPath; by rewrite fmap_app).
    assert (length h ≤ length (concat (repeat h (length ts)))) as Hh.
    { apply length_concat_elem. destruct (length ts); [lia|]. by left. }
    pose proof (header_fits (appendPath path key) true _ Hf Hh) as Hl. unfold h. rewrite Epath in *. by apply block_array.
Qed.

Lemma encodes_all t : encodes t.
Proof using Type.
  induction t as [| | | | | |kvs IH] using tval_nested_ind; intros v path kvs' E; try done. injection E as <-.
  intros (x & Hdyn & Hi & Hx)%dataOf_dynamic Hw Hd Hp. rewrite (encodeAnyDocument_dynamic _ _ _ Hdyn).
  destruct (dataOf_table x kvs Hi Hx) as (m & sk & nl & entries & -> & _ & Hany & Hentries). cbn [TomlMarshal.encodeAnyDocument]. rewrite Hany.
  cbn [writable depth] in Hw, Hd. rewrite forallb_forall in Hw. rewrite Forall_forall in IH.
  edestruct (sorted_entries (entry_written path)) as (kvs0 & Hp0 & Hf); [|by eapply documentOf_written].
  eapply Forall2_elem; [exact Hentries|]. intros [k y] [k' t] Hkv [E Hy]. cbn in E, Hy. subst k'. cbn [fst snd].
  pose proof (Hw (k, t) ltac:(by apply list_elem_of_In)) as [Hk Ht]%andb_prop. cbn [fst snd] in Hk, Ht.
  assert (Z.of_nat (depth t) ≤ MaxNestedDepth L)%Z as Hdt.
  { pose proof (max_list_elem (depth t) ((λ kv, depth kv.2) <$> kvs) ltac:(by apply (list_elem_of_fmap_2 (λ kv : bytes * tval, depth kv.2) kvs (k, t)))). lia. }
  split; [done|]. split; [done|]. cbn [fst snd]. rewrite (isTableLikeAny_data y t Hy), (isArrayOfTablesAny_data y t Hy).
  destruct t as [| | | | |ts|kvs']; cbn [table_like table_array]; try (by apply line_of_value).
  - destruct (table_array (TArray ts)) eqn:Ha; cbn [table_array] in Ha; rewrite Ha; [by apply block_of_array|by apply line_of_value].
  - apply block_of_table; try done. by apply (IH (k, TTable kvs')).
Qed.
End documents.

(** ** The round trip *)

Lemma marshal_any isPrintTable v kvs : dataOf v = Some (TTable kvs) →
  marshalToBuffer isPrintTable None v = encodeAnyDocument isPrintTable v [].
Proof. intros Hv. unfold marshalToBuffer. by destruct (anyMapEntries_data v _ Hv) as (entries & -> & _). Qed.

(** A document does not start with a byte order mark. *)
Lemma doc_text_head {K : ScanKernels} L ws ks body kvs : doc_text L ws ks body kvs → head body ≠ Some 0xEF%Z.
Proof.
  intros [ws' ks' lines lkvs blocks bkvs Hl Hb]. destruct Hl as [|e kv lines lkvs [Hk _] _].
  - cbn [fmap list_fmap concat app]. destruct Hb as [|b kv blocks bkvs Hb _]; [done|]. destruct Hb as [|? ? ? ? n ? ? Hn]; [done|]. by destruct n; [lia|].
  - destruct (key_text_ends _ _ Hk) as (c & t & Ec & Hc & _). cbn [fmap list_fmap concat]. unfold line_text, entry_text. rewrite Ec. cbn [app head].
    intros [= ->]. by destruct Hc.
Qed.

(** The text stays within the limits of the decoder. *)
Definition within (L : Limits) (body : bytes) : Prop := (Z.of_nat (length body) ≤ MaxDocumentSize L)%Z ∧ fits L body.


Definition anyType : meta := Meta (str "interface {}") false None.
Definition slot (v : gval) : gval := GInterface anyType (Some v).
Definition anyMap (entries : list (bytes * gval)) : gval :=
  GMap (Meta (str "map[string]interface {}") false None) true false (prod_map id slot <$> entries).
Definition anySlice (items : list gval) : gval := GSlice (Meta (str "[]interface {}") false None) false (slot <$> items).

(** A configuration with a table, an inline table in an array, an array of
    tables and a key that needs quotes. *)
Definition sample_config : gval :=
  anyMap [(str "title", GString (predeclared "string") (str "say " ++ [DQUOTE; 0xC3; 0xA9; DQUOTE; LF]%Z));
          (str "owner", anyMap [(str "dob", GLocalDate (MkLocalDate 1979 5 27)); (str "a b", GFloat (predeclared "float64") 64 0x3FF0000000000000)]);
          (str "ports", anySlice [GInt (predeclared "int") 8000; anyMap [(str "x", GBool (predeclared "bool") true)]]);
          (str "jobs", anySlice [anyMap []; anyMap []]);
          (str "at", GTime (time_Date 1979 5 27 0 32 0 999000000 (FixedZone (str "-07:00") (-25200))))].

Definition sample_data : tval := default (TTable []) (dataOf sample_config).
Definition sample_text : bytes := match Marshal (λ _, true) sample_config with Ok b => b | Err _ => [] end.

