(* ===== verification/TomlMarshalEq.v ===== *)
(** Encodings that agree: the type switch and reflection on values, maps with
    the same data, and the two ways to order the fields of a struct. *)
From stdpp Require Import sorting.
From S2P Require Import Prelude GoUtf8 GoStrconv GoStrings GoQuote Scan TomlBase Datetime TomlString TomlNumber GoFloat TomlKey Decoder TomlTree TomlSkip TomlDocument TomlMarshal TomlRead TomlParse TomlParseDoc TomlText TomlMarshalSpec.

(** ** Sorting by name *)

#[export] Instance keyLe_total {A} : Total (keyLe (A := A)).
Proof. intros x y. apply bytes_leb_total. Qed.

#[export] Instance keyLe_trans {A} : Transitive (keyLe (A := A)).
Proof. intros x y z. apply bytes_leb_trans. Qed.

Lemma keys_determine {A} (l : list (bytes * A)) x y : NoDup l.*1 → x ∈ l → y ∈ l → x.1 = y.1 → x = y.
Proof.
  intros Hn Hx Hy E. apply list_elem_of_lookup_1 in Hx as [i Hi], Hy as [j Hj].
  assert (i = j) as ->; [|congruence]. eapply (NoDup_lookup l.*1 i j x.1); [done|by rewrite list_lookup_fmap, Hi|by rewrite list_lookup_fmap, Hj, E].
Qed.

(** With distinct names there is one sorted order. *)
Lemma sorted_unique {A} (l k : list (bytes * A)) : NoDup l.*1 → StronglySorted keyLe k → k ≡ₚ l → sortByKey l = k.
Proof.
  intros Hn Hk Hp. eapply (StronglySorted_unique_strong keyLe).
  - intros x y Hx Hy H1 H2. eapply (keys_determine l); [done|by rewrite <-(sortByKey_perm l)|by rewrite <-Hp|]. by apply bytes_leb_antisym.
  - apply StronglySorted_merge_sort; apply _.
  - done.
  - rewrite sortByKey_perm. by symmetry.
Qed.

Lemma sortByKey_sorted {A} (l : list (bytes * A)) : StronglySorted keyLe (sortByKey l).
Proof. apply StronglySorted_merge_sort; apply _. Qed.

Lemma sortByKey_reorder {A} (l k : list (bytes * A)) : NoDup l.*1 → l ≡ₚ k → sortByKey l = sortByKey k.
Proof. intros Hn Hp. apply sorted_unique; [done|apply sortByKey_sorted|]. by rewrite sortByKey_perm. Qed.

(** Changing what goes with the names does not change their order. *)
Lemma StronglySorted_fmap {A B} (f : bytes * A → bytes * B) l : (∀ x, (f x).1 = x.1) → StronglySorted keyLe l → StronglySorted keyLe (f <$> l).
Proof.
  intros Hf. induction 1 as [|x l _ IH Hx]; cbn; constructor; [done|]. apply Forall_fmap. eapply Forall_impl; [exact Hx|].
  intros y. unfold keyLe. cbn. by rewrite !Hf.
Qed.

Lemma fmap_keys {A B} (f : bytes * A → bytes * B) l : (∀ x, (f x).1 = x.1) → (f <$> l).*1 = l.*1.
Proof. intros Hf. rewrite <-list_fmap_compose. apply list_fmap_ext. intros i x _. apply Hf. Qed.

Lemma sortByKey_fmap {A B} (f : bytes * A → bytes * B) l : (∀ x, (f x).1 = x.1) → NoDup l.*1 → sortByKey (f <$> l) = f <$> sortByKey l.
Proof.
  intros Hf Hn. apply sorted_unique.
  - by rewrite fmap_keys.
  - apply StronglySorted_fmap; [done|apply sortByKey_sorted].
  - by rewrite sortByKey_perm.
Qed.

(** ** The fields of a struct *)

Lemma StronglySorted_omap {A B} (f : bytes * A → option (bytes * B)) l :
  (∀ x y, f x = Some y → y.1 = x.1) → StronglySorted keyLe l → StronglySorted keyLe (omap f l).
Proof.
  intros Hf. induction 1 as [|x l _ IH Hx]; cbn; [constructor|]. destruct (f x) as [y|] eqn:E; [|done]. constructor; [done|].
  apply Forall_forall. intros z (w & Hw & Ez)%list_elem_of_omap. rewrite Forall_forall in Hx. specialize (Hx w Hw). unfold keyLe in *.
  by rewrite (Hf _ _ E), (Hf _ _ Ez).
Qed.

Lemma findMarshalEntry_None {A} (entries : list (bytes * A)) name : name ∉ entries.*1 → findMarshalEntry entries name = None.
Proof.
  induction entries as [|e entries IH]; [done|]. cbn [fmap list_fmap]. intros [H1 H2]%not_elem_of_cons. cbn [findMarshalEntry].
  replace (bytes_eqb e.1 name) with false by (symmetry; apply bool_decide_eq_false; congruence). by rewrite IH.
Qed.

(** Without a name that occurs twice nothing is replaced. *)
Lemma merge_distinct {A} (l : list (bytes * A)) : ∀ entries, NoDup (entries ++ l).*1 → foldl addMarshalEntry entries l = entries ++ l.
Proof.
  induction l as [|e l IH]; intros entries Hn; [by rewrite app_nil_r|]. cbn [foldl].
  assert (addMarshalEntry entries e = entries ++ [e]) as ->.
  { unfold addMarshalEntry. rewrite findMarshalEntry_None; [done|]. rewrite fmap_app in Hn. apply NoDup_app in Hn as (_ & Hn & _).
    intros Hin. apply (Hn e.1 Hin). by left. }
  rewrite IH; [by rewrite <-app_assoc|]. by rewrite <-app_assoc.
Qed.

Lemma duplicated_NoDup names : duplicated names = false → NoDup names.
Proof.
  induction names as [|n names IH]; [constructor|]. cbn [duplicated]. intros [H1 H2]%orb_false_iff. constructor; [|by apply IH].
  intros Hin. apply not_true_iff_false in H1. apply H1. apply existsb_exists. exists n. split; [by apply list_elem_of_In|]. by apply bool_decide_eq_true.
Qed.

Lemma NoDup_omap_keys {A B} (f : bytes * A → option (bytes * B)) l : (∀ x y, f x = Some y → y.1 = x.1) → NoDup l.*1 → NoDup (omap f l).*1.
Proof.
  intros Hf. induction l as [|x l IH]; cbn; [constructor|]. intros [H1 H2]%NoDup_cons. destruct (f x) as [y|] eqn:E; [|by apply IH].
  cbn. constructor; [|by apply IH]. intros (z & Ez & (w & Hw & Hz)%list_elem_of_omap)%list_elem_of_fmap. apply H1.
  rewrite (Hf _ _ E) in Ez. rewrite (Hf _ _ Hz) in Ez. rewrite Ez. by apply list_elem_of_fmap_2.
Qed.

(** For a struct whose names are distinct, walking the field order computed
    once for the type gives exactly the entries that collecting, merging and
    sorting them for each value gives. *)
Theorem structEntries_fast {A} structName sfs info (fields : list (StructField * (gval * A))) :
  build structName sfs = Ok info → HasDuplicateNames info = false →
  structEntries info fields = structMarshalEntries info fields.
Proof.
  unfold build. intros H Hdup. apply rbind_ok in H as (fs & _ & H). injection H as <-. cbn [HasDuplicateNames] in Hdup.
  unfold structEntries, structMarshalEntries. cbn [HasDuplicateNames MarshalFields Fields]. rewrite Hdup.
  set (named_field := λ f : Field, (Name f, f)). set (g := λ p : bytes * Field, marshalFieldValue fields p.2).
  assert (∀ l : list Field, omap (marshalFieldValue fields) l = omap g (named_field <$> l)) as Hg.
  { induction l as [|f l IH]; [done|]. cbn. by rewrite IH. }
  set (l := named_field <$> fs). assert (l.*1 = Name <$> fs) as Hl by (unfold l; by rewrite <-list_fmap_compose).
  assert (Forall (λ p, p.1 = Name p.2) l) as Hlf by (unfold l; apply Forall_fmap, Forall_true; done).
  set (h := λ p : bytes * Field, prod_map (λ _, p.1) id <$> g p).
  assert (∀ x y, h x = Some y → y.1 = x.1) as Hh. { intros x y. unfold h. destruct (g x); [|done]. intros Hy. cbn in Hy. by injection Hy as <-. }
  assert (∀ k : list (bytes * Field), Forall (λ p, p.1 = Name p.2) k → omap g k = omap h k) as Hgh.
  { induction 1 as [|p k Hp _ IH]; [done|]. cbn. rewrite IH. unfold h. destruct (g p) as [[n y]|] eqn:E; [|done]. cbn.
    unfold g, marshalFieldValue in E. repeat case_match; try done. injection E as <- <-. by rewrite Hp. }
  assert (Hn : NoDup l.*1) by (rewrite Hl; by apply duplicated_NoDup).
  assert (omap (marshalFieldValue fields) (snd <$> sortByKey l) = omap h (sortByKey l)) as ->.
  { rewrite <-Hgh by (rewrite sortByKey_perm; done). generalize (sortByKey l). induction l0 as [|p k IH]; [done|]. cbn. by rewrite IH. }
  rewrite Hg. fold l. rewrite Hgh by done. rewrite (merge_distinct _ []) by (by apply NoDup_omap_keys). cbn [app]. symmetry. apply sorted_unique.
  - by apply NoDup_omap_keys.
  - apply StronglySorted_omap; [done|apply sortByKey_sorted].
  - by rewrite sortByKey_perm.
Qed.

Definition sample_fields : list (StructField * (gval * nat)) :=
  [(MkStructField (str "Zed") true false (Some (str "zed,omitzero")), (GInt (predeclared "int") 0, 0));
   (MkStructField (str "Name") true false None, (GString (predeclared "string") (str "n"), 1));
   (MkStructField (str "Host") true false (Some (str "host")), (GString (predeclared "string") (str "h"), 2))].

Definition sample_info : TypeInfo :=
  match build (str "T") (fst <$> sample_fields) with Ok info => info | Err _ => MkTypeInfo [] [] true end.

Lemma structEntries_fast_witness :
  structEntries sample_info sample_fields = structMarshalEntries sample_info sample_fields ∧
  (structMarshalEntries sample_info sample_fields).*1 = [str "Name"; str "host"].
Proof.
  split; [|vm_compute; reflexivity]. exact (structEntries_fast (str "T") (fst <$> sample_fields) sample_info sample_fields eq_refl eq_refl).
Defined.

(** ** The type switch and reflection *)

Section agree.
Context (isPrintTable : Z → bool).
Abbreviation writeValue := (writeValue isPrintTable).
Abbreviation writeAnyValue := (writeAnyValue isPrintTable).

Lemma writeValue_dynamic v x : dynamic v = Some x → writeValue v = writeValue x.
Proof using Type. destruct v; cbn [dynamic]; intros H; try (by injection H as <-). by rewrite H. Qed.

Lemma plainType_facts m : plainType m = true → named m = false ∧ text m = None.
Proof using Type. intros [H1%negb_true_iff H2]%andb_prop. by destruct (text m). Qed.

(** The bytes of a value without parts depend on its data alone. *)
Definition leafText (t : tval) : bytes :=
  match t with
  | TString s => writeQuotedString isPrintTable s
  | TInt z => Itoa z
  | TFloat bits => writeFloat bits 64
  | TBool b => FormatBool b
  | TDatetime dt => datetime_text dt
  | _ => []
  end.

Lemma write_leaf v t l : dataOf v = Some t → leaf t = Some l → writeAnyValue v = emit (leafText t) ∧ writeValue v = emit (leafText t).
Proof using Type.
  intros (y & Hdyn & Hi & Hy)%dataOf_dynamic Hl. rewrite (writeAnyValue_dynamic isPrintTable _ _ Hdyn), (writeValue_dynamic _ _ Hdyn). clear Hdyn v.
  destruct y as [m s|m b|m z|m z|m bs bits|tm|dt|d|lt|m nl items|m items|m sk nl es|m fs|m tg|m o|m a b]; cbn [dataOf] in Hy;
    try done; cbn [TomlMarshal.writeAnyValue TomlMarshal.writeValue TomlMarshal.writeSpecialValue metaOf];
    try (injection Hy as <-; done).
  1-4: destruct (plainType m) eqn:E; [|done]; destruct (plainType_facts m E) as [Hn Ht]; rewrite ?Hn, ?Ht; injection Hy as <-; done.
  - destruct (plainType m) eqn:E; [|done]; destruct (plainType_facts m E) as [Hn Ht]; rewrite ?Hn, ?Ht. destruct (Z.eqb_spec bs 64) as [->|]; [|done]. by injection Hy as <-.
  - case_match; [|done]. destruct (mapM dataOf items); [|done]. cbn in Hy. by injection Hy as <-.
  - case_match; [|done]. destruct (mapM _ es); [|done]. cbn in Hy. by injection Hy as <-.
Qed.

Lemma isAnyMap_strings m : isAnyMap m = true → named m = false.
Proof using Type. unfold isAnyMap. by intros [H%negb_true_iff _]%andb_prop. Qed.

(** Keys of such a map are strings. *)
Fixpoint string_maps (v : gval) : bool :=
  match v with
  | GMap _ stringKeys _ entries => stringKeys && forallb (λ e, string_maps e.2) entries
  | GSlice _ _ items => forallb string_maps items
  | GInterface _ (Some x) => string_maps x
  | _ => true
  end.

Lemma string_maps_dynamic v x : dynamic v = Some x → string_maps v = string_maps x.
Proof using Type. destruct v; cbn [dynamic]; intros H; try (by injection H as <-). by rewrite H. Qed.

Lemma agree_all t : ∀ v, dataOf v = Some t → string_maps v = true → writeAnyValue v = writeValue v.
Proof using Type.
  induction t as [s|z|b|b|dt|ts IH|kvs IH] using tval_nested_ind; intros v Hv Hm;
    try (by destruct (write_leaf v _ _ Hv eq_refl) as [-> ->]).
  all: destruct (dataOf_dynamic _ _ Hv) as (y & Hdyn & Hi & Hy).
  all: rewrite (writeAnyValue_dynamic isPrintTable _ _ Hdyn), (writeValue_dynamic _ _ Hdyn); rewrite (string_maps_dynamic _ _ Hdyn) in Hm; clear Hdyn Hv v.
  - destruct (dataOf_array y ts Hi Hy) as (m & nl & items & -> & Hp & Ha & Hitems). destruct (plainType_facts m Hp) as [Hn Ht].
    cbn [TomlMarshal.writeAnyValue TomlMarshal.writeValue TomlMarshal.writeSpecialValue metaOf string_maps] in *. rewrite Ha, Hn.
    f_equal. f_equal. f_equal. rewrite forallb_forall in Hm. rewrite Forall_forall in IH. apply list_fmap_ext. intros i x Hx.
    destruct (Forall2_lookup_l _ _ _ _ _ Hitems Hx) as (t & Ht' & Hxt). apply (IH t); [by eapply list_elem_of_lookup_2|done|].
    apply Hm, list_elem_of_In. by eapply list_elem_of_lookup_2.
  - destruct (dataOf_table y kvs Hi Hy) as (m & sk & nl & entries & -> & Hp & Ha & Hentries). destruct (plainType_facts m Hp) as [Hn Ht].
    cbn [TomlMarshal.writeAnyValue TomlMarshal.writeValue TomlMarshal.writeSpecialValue metaOf string_maps] in *. rewrite Ha, Hn.
    apply andb_prop in Hm as [-> Hm]. f_equal. f_equal. rewrite forallb_forall in Hm. rewrite Forall_forall in IH. apply list_fmap_ext. intros i [k x] Hx.
    destruct (Forall2_lookup_l _ _ _ _ _ Hentries Hx) as ([k' t] & Ht' & [E Hxt]). cbn in E, Hxt |- *. subst k'. f_equal.
    apply (IH (k, t)); [by eapply list_elem_of_lookup_2|done|]. apply (Hm (k, x)), list_elem_of_In. by eapply list_elem_of_lookup_2.
Qed.
End agree.

(** The type switch that spares [map[string]any] and [[]any] the cost of
    reflection writes the same bytes as reflection does, for values of every
    kind and depth. *)
Theorem writeAnyValue_reflection isPrintTable v t :
  dataOf v = Some t → string_maps v = true → writeAnyValue isPrintTable v = writeValue isPrintTable v.
Proof. apply agree_all. Qed.

Lemma writeAnyValue_reflection_witness :
  writeAnyValue (λ _, true) sample_config = writeValue (λ _, true) sample_config.
Proof. exact (writeAnyValue_reflection (λ _, true) sample_config sample_data eq_refl eq_refl). Defined.

(** ** Values with the same data *)

Abbreviation holds := (λ (e : bytes * gval) (kv : bytes * tval), e.1 = kv.1 ∧ dataOf e.2 = Some kv.2).

Lemma holds_keys entries kvs : Forall2 holds entries kvs → entries.*1 = kvs.*1.
Proof. induction 1 as [|e kv ?? [E _] _ IH]; [done|]. cbn. by rewrite E, IH. Qed.

(** Whatever is computed from the name and the data of each entry comes in the
    same order from both maps. *)
Lemma sorted_same {A} (f : bytes * gval → bytes * A) entries entries' kvs kvs0 kvs' :
  (∀ e, (f e).1 = e.1) → Forall2 holds entries kvs → Forall2 holds entries' kvs' → kvs ≡ₚ kvs0 → Forall2 same_entry kvs0 kvs' → NoDup kvs.*1 →
  (∀ k x x' t t', (k, t) ∈ kvs → dataOf x = Some t → dataOf x' = Some t' → same t t' → f (k, x) = f (k, x')) →
  sortByKey (f <$> entries) = sortByKey (f <$> entries').
Proof.
  intros Hf He He' Hp Hs Hn Hx. apply Forall2_flip in He. destruct (Permutation_Forall2 Hp He) as (entries0 & Hp0 & He0).
  assert (f <$> entries0 = f <$> entries') as E.
  { assert (∀ kv, kv ∈ kvs0 → kv ∈ kvs) as Hin by (intros kv H; by rewrite Hp). clear Hp Hn He Hp0. apply Forall2_flip in He0. revert entries' He' entries0 He0 Hin.
    induction Hs as [|[k t] [k' t'] kvs0 kvs' [E Ht] _ IH]; intros entries' He' entries0 He0 Hin.
    - apply Forall2_nil_inv_r in He', He0. by subst.
    - apply Forall2_cons_inv_r in He' as ([k1 x'] & l' & [E1 Hx'] & Hl' & ->). apply Forall2_cons_inv_r in He0 as ([k2 x] & l & [E2 Hxt] & Hl & ->).
      cbn in E, E1, E2, Ht, Hx', Hxt. subst k' k1 k2. cbn [fmap list_fmap]. f_equal.
      + eapply Hx; [apply Hin; left|done|done|done].
      + apply IH; [done|done|]. intros kv Hkv. apply Hin. by right. }
  rewrite <-E. apply sortByKey_reorder; [|by rewrite Hp0].
  rewrite fmap_keys by done. apply Forall2_flip in He. by rewrite (holds_keys _ _ He).
Qed.

Section same_data.
Context (isPrintTable : Z → bool).
Abbreviation writeAnyValue := (writeAnyValue isPrintTable).
Abbreviation encodeAnyDocument := (encodeAnyDocument isPrintTable).
Abbreviation encodeAnyItems := (encodeAnyItems isPrintTable).

Lemma keys_ok_parts kvs : keys_ok (TTable kvs) = true → NoDup kvs.*1 ∧ ∀ k t, (k, t) ∈ kvs → keys_ok t = true.
Proof using Type.
  intros H. split.
  - cbn [keys_ok] in H. rewrite !andb_true_iff in H. destruct H as [[H%bool_decide_eq_true _] _]. done.
  - intros k t Hin. by apply (keys_ok_table kvs k t).
Qed.

Lemma same_values t : ∀ v v' t', dataOf v = Some t → dataOf v' = Some t' → same t t' → keys_ok t = true → writeAnyValue v = writeAnyValue v'.
Proof using Type.
  induction t as [s|z|b|b|dt|ts IH|kvs IH] using tval_nested_ind; intros v v' t' Hv Hv' Hs Hk;
    try (inversion Hs; subst; destruct (write_leaf isPrintTable v _ _ Hv eq_refl) as [-> _]; by destruct (write_leaf isPrintTable v' _ _ Hv' eq_refl) as [-> _]).
  all: destruct (dataOf_dynamic _ _ Hv) as (y & Hdyn & Hi & Hy), (dataOf_dynamic _ _ Hv') as (y' & Hdyn' & Hi' & Hy').
  all: rewrite (writeAnyValue_dynamic isPrintTable _ _ Hdyn), (writeAnyValue_dynamic isPrintTable _ _ Hdyn'); clear Hdyn Hdyn' Hv Hv' v v'.
  - inversion Hs as [?? Hl|l1 ts' Hts|]; subst; [done|].
    destruct (dataOf_array y ts Hi Hy) as (m & nl & items & -> & Hp & Ha & Hitems), (dataOf_array y' ts' Hi' Hy') as (m' & nl' & items' & -> & Hp' & Ha' & Hitems').
    cbn [TomlMarshal.writeAnyValue]. rewrite Ha, Ha'. f_equal. f_equal. f_equal. cbn [keys_ok] in Hk. rewrite forallb_forall in Hk.
    clear Hs Hi Hi' Hy Hy'. revert items items' Hitems Hitems'. induction Hts as [|t1 t2 ts ts' Ht _ IHts]; intros items items' Hit Hit'.
    + apply Forall2_nil_inv_r in Hit, Hit'. by subst.
    + apply Forall2_cons_inv_r in Hit as (x & l & Hx & Hl & ->), Hit' as (x' & l' & Hx' & Hl' & ->). cbn [fmap list_fmap].
      apply Forall_cons in IH as [IH1 IH]. f_equal; [eapply IH1; [done..|apply Hk; by left]|]. apply IHts; [done|intros z Hz; apply Hk; by right|done|done].
  - inversion Hs as [?? Hl| |k1 kvs0 kvs' Hp Hkvs]; subst; [done|].
    destruct (dataOf_table y kvs Hi Hy) as (m & sk & nl & entries & -> & _ & Ha & He), (dataOf_table y' kvs' Hi' Hy') as (m' & sk' & nl' & entries' & -> & _ & Ha' & He').
    cbn [TomlMarshal.writeAnyValue]. rewrite Ha, Ha'. destruct (keys_ok_parts kvs Hk) as [Hn Hks]. f_equal.
    eapply sorted_same; [done|exact He|exact He'|exact Hp|exact Hkvs|done|]. intros k x x' t t' Hkt Hx Hx' Ht. cbn. f_equal.
    rewrite Forall_forall in IH. eapply (IH (k, t) Hkt); [done..|]. by eapply Hks.
Qed.

Lemma empty_table_same t t' : same t t' → empty_table t = empty_table t'.
Proof using Type.
  intros [t1 v Hl|l l' _|kvs kvs0 kvs' Hp Hf]; [done|done|]. cbn [empty_table]. destruct Hf as [|a b kvs0 kvs' _ _].
  - apply Permutation_nil_r in Hp. by subst.
  - destruct kvs; [by apply Permutation_nil_l in Hp|done].
Qed.

Lemma table_array_same t t' : same t t' → table_array t = table_array t'.
Proof using Type.
  intros [t1 v Hl|l l' Hf|kvs kvs0 kvs' _ _]; [done| |done]. unfold table_array. destruct Hf as [|a b l l' Hab Hf]; [done|].
  cbn [forallb]. rewrite (empty_table_same _ _ Hab). f_equal. induction Hf as [|x y l l' Hxy _ IH]; [done|]. cbn [forallb]. by rewrite (empty_table_same _ _ Hxy), IH.
Qed.

Lemma table_like_same t t' : same t t' → table_like t = table_like t'.
Proof using Type. intros Hs. pose proof (table_array_same _ _ Hs) as H. by destruct Hs. Qed.

(** What the two passes over the entries look at. *)
Definition pick (p : bytes * (bool * W * W)) : bytes * (bool * W * W) :=
  (p.1, let '(isTable, line, table) := p.2 in (isTable, if isTable then emit [] else line, if isTable : bool then table else emit [])).

Lemma documentOf_pick ps : documentOf (pick <$> ps) = documentOf ps.
Proof using Type.
  unfold documentOf. rewrite <-!list_fmap_compose. f_equal; f_equal; apply list_fmap_ext; intros i [k [[[] ?] ?]] _; done.
Qed.

Lemma documentOf_sorted_pick l : NoDup l.*1 → documentOf (sortByKey l) = documentOf (sortByKey (pick <$> l)).
Proof using Type. intros Hn. rewrite sortByKey_fmap by done. by rewrite documentOf_pick. Qed.

(** Arrays of tables hold nothing but their length. *)
Lemma same_items v v' ts ts' path : dataOf v = Some (TArray ts) → dataOf v' = Some (TArray ts') → Forall2 same ts ts' → forallb empty_table ts = true →
  encodeAnyItems v path = encodeAnyItems v' path.
Proof using Type.
  assert (∀ v ts, dataOf v = Some (TArray ts) → forallb empty_table ts = true →
    encodeAnyItems v path = wconcat (repeat (tableHeader isPrintTable path true ;;; emit []) (length ts))) as H.
  { clear. intros v ts (y & Hdyn & Hi & Hy)%dataOf_dynamic He. rewrite (encodeAnyItems_dynamic isPrintTable _ _ _ Hdyn).
    destruct (dataOf_array y ts Hi Hy) as (m & nl & items & -> & _ & _ & Hit). cbn [TomlMarshal.encodeAnyItems]. f_equal. clear Hdyn Hi Hy.
    induction Hit as [|x t items ts Hx _ IH]; [done|]. cbn [forallb] in He. apply andb_prop in He as [Ht He]. cbn [fmap list_fmap length repeat].
    f_equal; [|by apply IH]. destruct t as [| | | | | |[|]]; try done. destruct (dataOf_dynamic x _ Hx) as (z & Hz & Hzi & Hzd).
    rewrite (encodeAnyDocument_dynamic isPrintTable _ _ _ Hz). destruct (dataOf_table z [] Hzi Hzd) as (m' & sk & nl' & es & -> & _ & Hany & Hes).
    apply Forall2_nil_inv_r in Hes as ->. cbn [TomlMarshal.encodeAnyDocument]. by rewrite Hany. }
  intros Hv Hv' Hs He. assert (forallb empty_table ts' = true) as He'.
  { revert He. clear Hv Hv'. induction Hs as [|a b l l' Hab _ IH]; [done|]. cbn [forallb]. rewrite (empty_table_same _ _ Hab). intros [-> Hl]%andb_prop. by apply IH. }
  rewrite (H v ts), (H v' ts') by done. by rewrite (Forall2_length _ _ _ Hs).
Qed.

Lemma same_documents t : ∀ v v' t' path, (∃ kvs, t = TTable kvs) → dataOf v = Some t → dataOf v' = Some t' → same t t' → keys_ok t = true →
  encodeAnyDocument v path = encodeAnyDocument v' path.
Proof using Type.
  induction t as [s|z|b|b|dt|ts IH|kvs IH] using tval_nested_ind; intros v v' t' path [kvs1 E] Hv Hv' Hs Hk; try done. clear E kvs1.
  destruct (dataOf_dynamic _ _ Hv) as (y & Hdyn & Hi & Hy), (dataOf_dynamic _ _ Hv') as (y' & Hdyn' & Hi' & Hy').
  rewrite (encodeAnyDocument_dynamic isPrintTable _ _ _ Hdyn), (encodeAnyDocument_dynamic isPrintTable _ _ _ Hdyn'); clear Hdyn Hdyn' Hv Hv' v v'.
  pose proof (keys_ok_same _ _ Hs Hk) as Hk'. inversion Hs as [?? Hl| |k1 kvs0 kvs' Hp Hkvs]; subst; [done|].
  destruct (dataOf_table y kvs Hi Hy) as (m & sk & nl & entries & -> & _ & Ha & He), (dataOf_table y' kvs' Hi' Hy') as (m' & sk' & nl' & entries' & -> & _ & Ha' & He').
  cbn [TomlMarshal.encodeAnyDocument]. rewrite Ha, Ha'. destruct (keys_ok_parts kvs Hk) as [Hn Hks], (keys_ok_parts kvs' Hk') as [Hn' _].
  rewrite <-(holds_keys _ _ He) in Hn. rewrite <-(holds_keys _ _ He') in Hn'. rewrite (documentOf_sorted_pick (_ <$> entries)), (documentOf_sorted_pick (_ <$> entries')) by (by rewrite fmap_keys).
  rewrite (holds_keys _ _ He) in Hn. f_equal.
  rewrite <-!list_fmap_compose. match goal with |- sortByKey (?f <$> _) = _ => eapply (sorted_same f) end; [done|exact He|exact He'|exact Hp|exact Hkvs|done|]. intros k x x' t t' Hkt Hx Hx' Ht. unfold compose, pick. cbn [fst snd].
  rewrite (isTableLikeAny_data x t Hx), (isTableLikeAny_data x' t' Hx'), (isArrayOfTablesAny_data x t Hx), (isArrayOfTablesAny_data x' t' Hx').
  rewrite (table_like_same _ _ Ht), (table_array_same _ _ Ht). f_equal. f_equal; [f_equal|].
  - destruct (table_like t'); [done|]. unfold writeKeyValueAny. by rewrite (same_values t x x' t' Hx Hx' Ht (Hks _ _ Hkt)).
  - destruct (table_like t') eqn:Htl; [|done]. destruct (table_array t') eqn:Hta.
    + rewrite <-(table_array_same _ _ Ht) in Hta. destruct Ht as [|ts ts' Hts|]; [by destruct t|destruct ts; [done|by eapply same_items]|done].
    + f_equal. rewrite Forall_forall in IH. eapply (IH (k, t) Hkt); [|done..|by eapply Hks]. 
      rewrite <-(table_like_same _ _ Ht) in Htl. rewrite <-(table_array_same _ _ Ht) in Hta. destruct t; try done; [exact (match eq_true_false_abs _ Htl Hta with end)|eauto].
Qed.
End same_data.

(** Maps that hold the same data are written as the same bytes, whatever
    the order in which they are iterated at any depth and whatever integer types
    hold their numbers. *)
Theorem marshal_same_data isPrintTable v v' kvs kvs' :
  dataOf v = Some (TTable kvs) → dataOf v' = Some (TTable kvs') → same (TTable kvs) (TTable kvs') → keys_ok (TTable kvs) = true →
  Marshal isPrintTable v = Marshal isPrintTable v'.
Proof.
  intros Hv Hv' Hs Hk. unfold Marshal, marshalWithOptions. rewrite (marshal_any _ _ _ Hv), (marshal_any _ _ _ Hv').
  by rewrite (same_documents isPrintTable (TTable kvs) v v' (TTable kvs') [] ltac:(eauto) Hv Hv' Hs Hk).
Qed.

(** Two iterations of one map, with an [int] and a [uint8]. *)
Definition swapped_config (first : bool) : gval :=
  let a := (str "a", GInt (predeclared "int") 7) in let b := (str "b", anyMap [(str "c", GUint (predeclared "uint8") 1)]) in
  anyMap (if first then [a; b] else [b; (str "a", GUint (predeclared "uint8") 7)]).

Lemma marshal_same_data_witness :
  Marshal (λ _, true) (swapped_config true) = Marshal (λ _, true) (swapped_config false) ∧
  Marshal (λ _, true) (swapped_config true) = Ok (str "a = 7" ++ [LF; LF] ++ str "[b]" ++ [LF] ++ str "c = 1" ++ [LF]).
Proof.
  split; [|vm_compute; reflexivity].
  set (a := (str "a", TInt 7)). set (b := (str "b", TTable [(str "c", TInt 1)])).
  apply (marshal_same_data (λ _, true) (swapped_config true) (swapped_config false) [a; b] [b; a]).
  - vm_compute. reflexivity.
  - vm_compute. reflexivity.
  - assert (same (TTable [(str "c", TInt 1)]) (TTable [(str "c", TInt 1)])) as Hb.
    { eapply same_table; [done|]. repeat constructor. by eapply same_leaf. }
    eapply (same_table _ [b; a]); [apply Permutation_swap|]. constructor; [by split|]. constructor; [|constructor]. split; [done|]. by eapply same_leaf.
  - vm_compute. reflexivity.
Defined.

(** ** What does not read back *)

(** [strconv.Quote] escapes a bell as [\a], which is not an escape of TOML. *)
Lemma bell_not_read_back :
  match Marshal (λ _, true) (anyMap [(str "k", GString (predeclared "string") [7%Z])]) with
  | Ok body => is_ok (parseDocument (K := swar_kernels) (λ s, s) body [] None)
  | Err _ => true
  end = false.
Proof. vm_compute. reflexivity. Qed.

(** A pointer to a time in a [map[string]any] is written as a string, by
    reflection as a date-time. *)
Lemma time_pointer_differs :
  let t := time_Date 2024 1 2 3 4 5 0 UTC in
  let p := GPointer (Meta (str "*time.Time") false (Some (Ok (formatRFC3339Nano t)))) (Some (GTime t)) in
  writeAnyValue (λ _, true) p = emit ([DQUOTE] ++ str "2024-01-02T03:04:05Z" ++ [DQUOTE]) ∧
  writeValue (λ _, true) p = emit (str "2024-01-02T03:04:05Z").
Proof. vm_compute. split; reflexivity. Qed.
