(* ===== verification/TomlEdit.v ===== *)
(** Editing of a TOML source text (document.go): the entries of a document with
    the byte spans of their values and lines, the edits recorded on it, and the
    text with the edits applied. *)
From stdpp Require Import sorting.
From S2P Require Import Prelude GoUtf8 GoStrings GoQuote Scan TomlBase TomlString TomlKey Decoder TomlTree TomlDocument TomlMarshal.

(** ** Data *)

Inductive documentValueKind :=
| documentKindInvalid
| documentKindString
| documentKindInteger
| documentKindFloat
| documentKindBool
| documentKindDatetime
| documentKindArray
| documentKindInlineTable.

#[export] Instance documentValueKind_eq_dec : EqDecision documentValueKind.
Proof. solve_decision. Defined.

(** A value a document holds: one a caller gave, or one parsed from the text with
    the maps it refers to. *)
Inductive docValue := Given (v : gval) | Parsed (v : val) (maps : store).

(** [value] is [None] while [valueSet] is not set. *)
Record documentEntry := MkEntry {
  pathKey : bytes;
  value : option docValue;
  valueRaw : bytes;
  valueSpan : nat * nat;
  lineSpan : nat * nat;
  kind : documentValueKind;
}.

Record documentInsertion := MkInsertion {
  ins_afterPath : bytes;
  ins_pathKey : bytes;
  ins_path : list bytes;
  ins_value : gval;
}.

Record Document := MkDocument {
  raw : bytes;
  entries : list documentEntry;
  byPath : gmap bytes nat;
  replacements : gmap bytes bytes;
  deletions : gset bytes;
  insertions : list documentInsertion;
  pending : gmap bytes gval;
}.

(** What the methods that change a document return instead of an error: the
    document after the call.  A call that fails leaves it as it was. *)
Inductive docError :=
| NilDocument
| PathError (e : error)
| FormatError (e : marshalError)
| AnchorNotFound (path : bytes)
| AnchorDeleted (path : bytes)
| PathNotFound (path : bytes).

Record documentOp := MkOp { op_start : nat; op_end : nat; op_text : bytes; op_order : nat }.

(** ** Interned paths *)

Record documentPathInterner := MkInterner {
  segments : gmap bytes bytes;
  keys : gmap bytes bytes;
  joins : gmap (bytes * bytes) bytes;
}.

Definition noInterner : documentPathInterner := MkInterner ∅ ∅ ∅.

Definition internSegmentString (s : bytes) (i : documentPathInterner) : bytes * documentPathInterner :=
  match segments i !! s with
  | Some existing => (existing, i)
  | None => (s, MkInterner (<[s := s]> (segments i)) (keys i) (joins i))
  end.

Definition internSegment (raw : bytes) (i : documentPathInterner) : bytes * documentPathInterner :=
  match segments i !! raw with
  | Some s => (s, i)
  | None => let s := raw in (s, MkInterner (<[s := s]> (segments i)) (keys i) (joins i))
  end.

Definition internPathKey (s : bytes) (i : documentPathInterner) : bytes * documentPathInterner :=
  match keys i !! s with
  | Some existing => (existing, i)
  | None => (s, MkInterner (segments i) (<[s := s]> (keys i)) (joins i))
  end.

Definition NUL : Z := 0.

Definition joinPathKeys (parent child : bytes) (i : documentPathInterner) : bytes * documentPathInterner :=
  if bytes_eqb parent [] then internPathKey child i
  else if bytes_eqb child [] then internPathKey parent i
  else
    match joins i !! (parent, child) with
    | Some key => (key, i)
    | None =>
        let '(key, i) := internPathKey (parent ++ [NUL] ++ child) i in
        (key, MkInterner (segments i) (keys i) (<[(parent, child) := key]> (joins i)))
    end.

Definition joinDocumentPath (parts : list bytes) : bytes := join [NUL] parts.

Section edit.
Context {K : ScanKernels}.

(** ** Parsing *)

(** The loop over the segments of a key; [b] is the builder. *)
Fixpoint parseDottedPathKey_loop (fuel origLen : nat) (raw b : bytes) (i : documentPathInterner)
    : res bytes * documentPathInterner :=
  match fuel with
  | 0 => (Err OutOfFuel, i)
  | S fuel =>
      if length raw =? 0 then (Ok b, i)
      else
        let raw := trimBlanks raw in
        if length raw =? 0 then (Ok b, i)
        else
          let quoted := (raw !!! 0 =b SQUOTE) || (raw !!! 0 =b DQUOTE) in
          match parseKeySegment origLen raw with
          | Err e => (Err e, i)
          | Ok (part, raw) =>
              let '(part, i) := if quoted then internSegmentString part i else internSegment part i in
              let b := (if 0 <? length b then b ++ [NUL] else b) ++ part in
              let raw := trimBlanks raw in
              if length raw =? 0 then (Ok b, i)
              else if raw !!! 0 ≠b DOT then
                (Err (dottedKeyError origLen "unexpected token in dotted key"), i)
              else
                let raw := drop 1 raw in
                if length (trimBlanks raw) =? 0 then (Err (dottedKeyError origLen "empty key segment"), i)
                else parseDottedPathKey_loop fuel origLen raw b i
          end
  end.

Definition parseDottedPathKey (raw : bytes) (i : documentPathInterner) : res bytes * documentPathInterner :=
  let origLen := length raw in
  let raw := bytesTrimSpace raw in
  if isSimpleBareKey raw then
    let '(s, i) := internSegment raw i in
    let '(s, i) := internPathKey s i in (Ok s, i)
  else
    match parseDottedPathKey_loop (S (length raw)) origLen raw [] i with
    | (Err e, i) => (Err e, i)
    | (Ok b, i) =>
        if length b =? 0 then (Err (dottedKeyError origLen "empty key"), i)
        else let '(s, i) := internPathKey b i in (Ok s, i)
    end.

Definition parseHeaderPathKey (raw : bytes) (array : bool) (i : documentPathInterner) : res bytes * documentPathInterner :=
  parseDottedPathKey (trimHeaderKey raw array) i.

Definition documentKindFromToken (k : TokenKind) : documentValueKind :=
  match k with
  | TokenKindValueString => documentKindString
  | TokenKindValueInteger => documentKindInteger
  | TokenKindValueFloat => documentKindFloat
  | TokenKindValueBool => documentKindBool
  | TokenKindValueDatetime => documentKindDatetime
  | TokenKindArrayStart => documentKindArray
  | TokenKindInlineTableStart => documentKindInlineTable
  | _ => documentKindInvalid
  end.

(** What a token does to the two depths. *)
Definition arrayDepthStep (k : TokenKind) (arrayDepth : Z) : Z :=
  match k with
  | TokenKindArrayStart => arrayDepth + 1
  | TokenKindArrayEnd => arrayDepth - 1
  | _ => arrayDepth
  end.

Definition inlineDepthStep (k : TokenKind) (inlineDepth : Z) : Z :=
  match k with
  | TokenKindInlineTableStart => inlineDepth + 1
  | TokenKindInlineTableEnd => inlineDepth - 1
  | _ => inlineDepth
  end.

(** The tokens of a container: the end of its last one. *)
Fixpoint readContainer (fuel : nat) (arrayDepth inlineDepth : Z) (end_ : nat) : M nat := λ d,
  match fuel with
  | 0 => (Err OutOfFuel, d)
  | S fuel =>
      if (0 <b arrayDepth) || (0 <b inlineDepth) then
        match ReadToken d with
        | (Err e, d) => (Err e, d)
        | (Ok next, d) =>
            readContainer fuel (arrayDepthStep (tok_Kind next) arrayDepth) (inlineDepthStep (tok_Kind next) inlineDepth)
              (tokenSpan next).2 d
        end
      else (Ok end_, d)
  end.

Definition isContainerStart (k : TokenKind) : bool :=
  bool_decide (k = TokenKindArrayStart) || bool_decide (k = TokenKindInlineTableStart).

(** The span and the kind of the next value; its text is [data[start:end]]. *)
Fixpoint readValue (fuel : nat) : M (nat * nat * documentValueKind) := λ d,
  match fuel with
  | 0 => (Err OutOfFuel, d)
  | S fuel =>
      match ReadToken d with
      | (Err e, d) => (Err e, d)
      | (Ok tok, d) =>
          if bool_decide (tok_Kind tok = TokenKindComment) then readValue fuel d
          else
            let '(start, end_) := tokenSpan tok in
            if isContainerStart (tok_Kind tok) then
              let wantArray := bool_decide (tok_Kind tok = TokenKindArrayStart) in
              let '(arrayDepth, inlineDepth) := if wantArray then (1, 0)%Z else (0, 1)%Z in
              match readContainer (S (length (buf d) - off d)) arrayDepth inlineDepth end_ d with
              | (Err e, d) => (Err e, d)
              | (Ok end_, d) => (Ok (start, end_, if wantArray then documentKindArray else documentKindInlineTable), d)
              end
            else (Ok (start, end_, documentKindFromToken (tok_Kind tok)), d)
      end
  end.

(** The two loops of [lineSpan], back over the reversed bytes before the key and
    forward from the end of the value. *)
Definition isNewline (c : Z) : bool := (c =b LF) || (c =b CR).

Definition lineSpanOf (data : bytes) (start end_ : nat) : nat * nat :=
  let lineStart := start - find_stop isNewline (rev (take start data)) in
  let stop := end_ + find_stop isNewline (drop end_ data) in
  let lineEnd :=
    if stop <? length data then
      if data !!! stop =b LF then stop + 1
      else if (stop + 1 <? length data) && (data !!! (stop + 1) =b LF) then stop + 2
      else stop + 1
    else stop in
  (lineStart, lineEnd).

(** The variables of the loop of [ParseDocument]. *)
Record parsing := MkParsing {
  ps_interner : documentPathInterner;
  ps_entries : list documentEntry;
  ps_byPath : gmap bytes nat;
  ps_current : bytes;
}.

Definition set_interner (i : documentPathInterner) (p : parsing) : parsing :=
  MkParsing i (ps_entries p) (ps_byPath p) (ps_current p).

Definition enterHeader (tok : Token) (array : bool) (p : parsing) : res parsing :=
  match parseHeaderPathKey (tok_Bytes tok) array (ps_interner p) with
  | (Err e, _) => Err e
  | (Ok path, i) => Ok (MkParsing i (ps_entries p) (ps_byPath p) path)
  end.

(** The entry of a key token. *)
Definition addEntry (data : bytes) (tok : Token) (keyPathKey : bytes) (v : nat * nat * documentValueKind) (p : parsing) : parsing :=
  let '(start, end_, kind) := v in
  let '(path, i) := joinPathKeys (ps_current p) keyPathKey (ps_interner p) in
  let entry := MkEntry path None (slice data start end_) (start, end_)
                 (lineSpanOf data (tokenSpan tok).1 end_) kind in
  MkParsing i (ps_entries p ++ [entry]) (<[path := length (ps_entries p)]> (ps_byPath p)) (ps_current p).

Definition documentStatement (data : bytes) (tok : Token) (p : parsing) (d : Decoder) : res parsing * Decoder :=
  match tok_Kind tok with
  | TokenKindComment => (Ok p, d)
  | TokenKindTableHeader => (enterHeader tok false p, d)
  | TokenKindArrayTableHeader => (enterHeader tok true p, d)
  | TokenKindKey =>
      match parseDottedPathKey (tok_Bytes tok) (ps_interner p) with
      | (Err e, _) => (Err e, d)
      | (Ok keyPathKey, i) =>
          match readValue (S (length (buf d) - off d)) d with
          | (Err e, d) => (Err e, d)
          | (Ok v, d) => (Ok (addEntry data tok keyPathKey v (set_interner i p)), d)
          end
      end
  | _ =>
      if bytes_eqb (ps_current p) [] then
        (Err (syntaxErrorAtOffset data (tok_Offset tok) "unexpected token" (tokenSpan tok)), d)
      else (Ok p, d)
  end.

Fixpoint documentStatements (fuel : nat) (data : bytes) (p : parsing) (d : Decoder) : res parsing :=
  match fuel with
  | 0 => Err OutOfFuel
  | S fuel =>
      match ReadToken d with
      | (Err e, _) => if bool_decide (e = EOF) then Ok p else Err e
      | (Ok tok, d) =>
          match documentStatement data tok p d with
          | (Err e, _) => Err e
          | (Ok p, d) => documentStatements fuel data p d
          end
      end
  end.

(** The input is copied, so that the document does not share it. *)
Definition ParseDocument (data : bytes) : res Document :=
  let dec := NewDecoderBytes data [withoutTokenPositions] in
  let! p := documentStatements (S (length data)) data (MkParsing noInterner [] ∅ []) dec in
  Ok (MkDocument data (ps_entries p) (ps_byPath p) ∅ ∅ [] ∅).

(** ** Formatting *)

Section format.
(** [strconv.IsPrint] beyond Latin-1. *)
Context (isPrintTable : Z → bool).

Definition formatDocumentValue (v : gval) : result marshalError bytes :=
  match writeValue isPrintTable v with
  | (out, None) => Ok out
  | (_, Some e) => Err e
  end.

Definition formatDocumentKeyValue (path : list bytes) (v : gval) : result marshalError bytes :=
  let! valueBytes := formatDocumentValue v in
  Ok (join [DOT] (formatKey isPrintTable <$> path) ++ str " = " ++ valueBytes ++ [LF]).

Definition formatStringLike (existing s : bytes) : bytes :=
  let trimmed := TrimSpace existing in
  let n := length trimmed in
  if (2 <=? n) && (trimmed !!! 0 =b SQUOTE) && (trimmed !!! (n - 1) =b SQUOTE) && negb (contains_any s [SQUOTE; LF; CR])
  then [SQUOTE] ++ s ++ [SQUOTE]
  else Quote isPrintTable s.

(** The predeclared types of the type switch, then the kind of the dynamic value;
    a nil value has none. *)
Definition documentKindForGoValue (v : gval) : documentValueKind :=
  match dynamic v with
  | None => documentKindInvalid
  | Some v =>
      match v with
      | GString m _ => if named m then documentKindInvalid else documentKindString
      | GBool m _ => if named m then documentKindInvalid else documentKindBool
      | GFloat m _ _ => if named m then documentKindInvalid else documentKindFloat
      | GTime _ | GLocalDateTime _ | GLocalDate _ | GLocalTime _ => documentKindDatetime
      | GInt _ _ | GUint _ _ => documentKindInteger
      | GSlice _ _ _ | GArray _ _ => documentKindArray
      | GMap _ _ _ _ | GStruct _ _ => documentKindInlineTable
      | _ => documentKindInvalid
      end
  end.

Definition entryForPathKey (d : Document) (key : bytes) : option (nat * documentEntry) :=
  match byPath d !! key with
  | None => None
  | Some idx => match entries d !! idx with Some e => Some (idx, e) | None => None end
  end.

(** [value.(string)]. *)
Definition asString (v : gval) : option bytes :=
  match dynamic v with
  | Some (GString m s) => if named m then None else Some s
  | _ => None
  end.

Definition formatValueForPath (d : Document) (key : bytes) (v : gval) : result marshalError bytes :=
  match entryForPathKey d key with
  | None => formatDocumentValue v
  | Some (_, entry) =>
      if bool_decide (kind entry = documentKindForGoValue v) then
        match kind entry with
        | documentKindString =>
            match asString v with
            | Some s => Ok (formatStringLike (valueRaw entry) s)
            | None => formatDocumentValue v
            end
        | _ => formatDocumentValue v
        end
      else formatDocumentValue v
  end.

(** ** The methods *)

Definition parseDocumentPath (path : bytes) : res (list bytes) := parseDottedKey path.

(** The value of a text on its own, behind a key. *)
Definition parseRawDocumentValue (raw : bytes) : res (val * store) :=
  let buf := str "x = " ++ raw in
  let dec := NewDecoderBytes buf [withoutTokenPositions] in
  match ReadToken dec with
  | (Err e, _) => Err e
  | (Ok tok, dec) =>
      if bool_decide (tok_Kind tok = TokenKindKey) then
        match parseNextValue (valueFuel dec) dec [] with
        | (Ok v, _, st) => Ok (v, st)
        | (Err e, _, _) => Err e
        end
      else Err (syntaxErrorAtOffset buf (tok_Offset tok) "expected key" (0, length buf))
  end.

Definition Document_Raw (d : option Document) : bytes := match d with None => [] | Some d => raw d end.

Definition setEntryValue (idx : nat) (v : docValue) (es : list documentEntry) : list documentEntry :=
  alter (λ e, MkEntry (pathKey e) (Some v) (valueRaw e) (valueSpan e) (lineSpan e) (kind e)) idx es.

Definition with_entries (es : list documentEntry) (d : Document) : Document :=
  MkDocument (raw d) es (byPath d) (replacements d) (deletions d) (insertions d) (pending d).

(** A parsed value is kept in its entry. *)
Definition Document_Get (d : option Document) (path : bytes) : option docValue * option Document :=
  match d with
  | None => (None, None)
  | Some d =>
      match parseDocumentPath path with
      | Err _ => (None, Some d)
      | Ok parts =>
          match entryForPathKey d (joinDocumentPath parts) with
          | None => (Given <$> pending d !! joinDocumentPath parts, Some d)
          | Some (idx, entry) =>
              if bool_decide (pathKey entry ∈ deletions d) then (None, Some d)
              else
                match value entry with
                | Some v => (Some v, Some d)
                | None =>
                    match parseRawDocumentValue (valueRaw entry) with
                    | Err _ => (None, Some d)
                    | Ok (v, maps) =>
                        let v := Parsed v maps in
                        (Some v, Some (with_entries (setEntryValue idx v (entries d)) d))
                    end
                end
          end
      end
  end.

Definition rerr {E E' A} (f : E → E') (r : result E A) : result E' A :=
  match r with Ok a => Ok a | Err e => Err (f e) end.

Definition addInsertion (afterPath key : bytes) (parts : list bytes) (v : gval) (d : Document) : Document :=
  MkDocument (raw d) (entries d) (byPath d) (replacements d) (deletions d)
    (insertions d ++ [MkInsertion afterPath key parts v]) (<[key := v]> (pending d)).

Definition Document_Set (d : option Document) (path : bytes) (v : gval) : result docError Document :=
  match d with
  | None => Err NilDocument
  | Some d =>
      let! parts := rerr PathError (parseDocumentPath path) in
      let key := joinDocumentPath parts in
      let! repl := rerr FormatError (formatValueForPath d key v) in
      match entryForPathKey d key with
      | Some (idx, _) =>
          Ok (MkDocument (raw d) (setEntryValue idx (Given v) (entries d)) (byPath d)
                (<[key := repl]> (replacements d)) (deletions d ∖ {[key]}) (insertions d) (delete key (pending d)))
      | None => Ok (addInsertion [] key parts v d)
      end
  end.

Definition Document_InsertAfter (d : option Document) (afterPath path : bytes) (v : gval) : result docError Document :=
  match d with
  | None => Err NilDocument
  | Some d =>
      let! afterParts := rerr PathError (parseDocumentPath afterPath) in
      let afterKey := joinDocumentPath afterParts in
      if byPath d !! afterKey is Some _ then
        if bool_decide (afterKey ∈ deletions d) then Err (AnchorDeleted afterPath)
        else
          let! parts := rerr PathError (parseDocumentPath path) in
          Ok (addInsertion afterKey (joinDocumentPath parts) parts v d)
      else Err (AnchorNotFound afterPath)
  end.

Definition Document_Delete (d : option Document) (path : bytes) : result docError Document :=
  match d with
  | None => Err NilDocument
  | Some d =>
      let! parts := rerr PathError (parseDocumentPath path) in
      let key := joinDocumentPath parts in
      match byPath d !! key with
      | None =>
          if pending d !! key is Some _ then
            Ok (MkDocument (raw d) (entries d) (byPath d) (replacements d) (deletions d) (insertions d) (delete key (pending d)))
          else Err (PathNotFound path)
      | Some _ =>
          Ok (MkDocument (raw d) (entries d) (byPath d) (delete key (replacements d)) ({[key]} ∪ deletions d)
                (insertions d) (pending d))
      end
  end.

(** ** The text *)

(** The edit of an entry: its line is deleted or its value replaced. *)
Definition entryEdit (d : Document) (e : documentEntry) : option (nat * nat * bytes) :=
  if bool_decide (pathKey e ∈ deletions d) then Some (lineSpan e, [])
  else (λ repl, (valueSpan e, repl)) <$> replacements d !! pathKey e.

Definition endsWithLF (s : bytes) : bool := match last s with Some c => c =b LF | None => false end.

(** The edit of an insertion: at the end of the text or behind a line. *)
Definition insertionEdit (d : Document) (ins : documentInsertion) : option (nat * nat * bytes) :=
  match pending d !! ins_pathKey ins with
  | None => None
  | Some v =>
      match formatDocumentKeyValue (ins_path ins) v with
      | Err _ => None
      | Ok text =>
          if bytes_eqb (ins_afterPath ins) [] then
            let prefix := if (0 <? length (raw d)) && negb (endsWithLF (raw d)) then [LF] else [] in
            Some (length (raw d), length (raw d), prefix ++ text)
          else
            match entryForPathKey d (ins_afterPath ins) with
            | None => None
            | Some (_, entry) => Some ((lineSpan entry).2, (lineSpan entry).2, text)
            end
      end
  end.

(** [order] counts the operations. *)
Definition documentOps (d : Document) : list documentOp :=
  imap (λ order e, MkOp e.1.1 e.1.2 e.2 order)
    (omap (entryEdit d) (entries d) ++ omap (insertionEdit d) (insertions d)).

Definition opLe (x y : documentOp) : Prop :=
  op_start x < op_start y ∨
  op_start x = op_start y ∧ (op_end x < op_end y ∨ op_end x = op_end y ∧ op_order x ≤ op_order y).

#[export] Instance opLe_dec x y : Decision (opLe x y).
Proof. unfold opLe. apply _. Defined.

(** The loop over the operations: the text written behind [cursor]. *)
Fixpoint applyOps (data : bytes) (cursor : nat) (ops : list documentOp) : bytes :=
  match ops with
  | [] => drop cursor data
  | op :: ops =>
      if (op_start op <? cursor) || (op_end op <? op_start op) || (length data <? op_end op) then applyOps data cursor ops
      else slice data cursor (op_start op) ++ op_text op ++ applyOps data (op_end op) ops
  end.

Definition Document_Bytes (d : option Document) : bytes :=
  match d with
  | None => []
  | Some d =>
      if (size (replacements d) =? 0) && (size (deletions d) =? 0) && (length (insertions d) =? 0) then raw d
      else applyOps (raw d) 0 (merge_sort opLe (documentOps d))
  end.
End format.
End edit.
