(* ===== verification/TomlEditPaths.v ===== *)
(** The paths of document.go: the one-pass path key of [ParseDocument] against the
    segments [parseDottedKey] finds, and the interner, which cannot be observed. *)
From S2P Require Import Prelude GoUtf8 Scan TomlBase TomlString TomlKey Decoder TomlTree TomlDocument TomlMarshal TomlEdit.

(** ** The interner *)

(** Every string is interned as itself. *)
Record interner_ok (i : documentPathInterner) : Prop := {
  in_segments : map_Forall (λ k v, k = v) (segments i);
  in_keys : map_Forall (λ k v, k = v) (keys i);
  in_joins : map_Forall (λ pc v, v = pc.1 ++ [NUL] ++ pc.2) (joins i);
}.

Lemma noInterner_ok : interner_ok noInterner.
Proof. split; apply map_Forall_empty. Qed.

(** An interning function returns its argument and keeps the tables. *)
Definition transparent (f : documentPathInterner → bytes * documentPathInterner) (s : bytes) : Prop :=
  ∀ i, interner_ok i → (f i).1 = s ∧ interner_ok (f i).2.

Lemma internSegmentString_ok s : transparent (internSegmentString s) s.
Proof.
  intros i [H1 H2 H3]. unfold internSegmentString. destruct (segments i !! s) as [v|] eqn:E; simpl.
  - by apply H1 in E as ->.
  - split; [done|]. split; try done. by apply map_Forall_insert_2.
Qed.

Lemma internSegment_ok s : transparent (internSegment s) s.
Proof. exact (internSegmentString_ok s). Qed.

Lemma internPathKey_ok s : transparent (internPathKey s) s.
Proof.
  intros i [H1 H2 H3]. unfold internPathKey. destruct (keys i !! s) as [v|] eqn:E; simpl.
  - by apply H2 in E as ->.
  - split; [done|]. split; try done. by apply map_Forall_insert_2.
Qed.

(** What [joinPathKeys] joins. *)
Definition joinKeys (parent child : bytes) : bytes :=
  if bytes_eqb parent [] then child else if bytes_eqb child [] then parent else parent ++ [NUL] ++ child.

Lemma joinPathKeys_ok parent child : transparent (joinPathKeys parent child) (joinKeys parent child).
Proof.
  intros i Hi. unfold joinPathKeys, joinKeys.
  destruct (bytes_eqb parent []); [by apply internPathKey_ok|].
  destruct (bytes_eqb child []); [by apply internPathKey_ok|].
  destruct (joins i !! (parent, child)) as [key|] eqn:E.
  - by apply (in_joins _ Hi) in E as ->.
  - pose proof (internPathKey_ok (parent ++ [NUL] ++ child) i Hi) as [Hk [H1 H2 H3]].
    destruct (internPathKey _ i) as [key i']. simpl in *. subst key. split; [done|]. split; try done.
    by apply map_Forall_insert_2.
Qed.

(** ** The builder of a path key *)

(** No separator is written while nothing is: the empty segments a path starts
    with leave no trace. *)
Fixpoint withoutLeadingEmpty (ps : list bytes) : list bytes :=
  match ps with [] :: ps => withoutLeadingEmpty ps | _ => ps end.

Definition pathText (ps : list bytes) : bytes := join [NUL] (withoutLeadingEmpty ps).

Lemma join_snoc sep ps p : ps ≠ [] → join sep (ps ++ [p]) = join sep ps ++ sep ++ p.
Proof.
  induction ps as [|q ps IH]; [done|]. intros _. destruct ps as [|r ps]; [done|].
  change (q ++ sep ++ join sep ((r :: ps) ++ [p]) = (q ++ sep ++ join sep (r :: ps)) ++ sep ++ p).
  rewrite IH by done. by rewrite <-!app_assoc.
Qed.

Lemma withoutLeadingEmpty_cases ps :
  withoutLeadingEmpty ps = [] ∧ Forall (λ p, p = []) ps ∨ ∃ c q qs, withoutLeadingEmpty ps = (c :: q) :: qs.
Proof.
  induction ps as [|[|c q] ps [[H1 H2]|(c' & q' & qs & H)]]; simpl; [by left|left|right|right|right]; eauto.
Qed.

Lemma withoutLeadingEmpty_snoc ps p : withoutLeadingEmpty (ps ++ [p]) =
  match withoutLeadingEmpty ps with [] => withoutLeadingEmpty [p] | qs => qs ++ [p] end.
Proof. induction ps as [|[|c q] ps IH]; simpl; [by destruct p|exact IH|done]. Qed.

Lemma pathText_snoc ps p :
  pathText (ps ++ [p]) = (if 0 <? length (pathText ps) then pathText ps ++ [NUL] else pathText ps) ++ p.
Proof.
  unfold pathText. rewrite withoutLeadingEmpty_snoc.
  destruct (withoutLeadingEmpty_cases ps) as [[-> _]|(c & q & qs & ->)].
  - simpl. by destruct p.
  - rewrite join_snoc by done. replace (0 <? length (join [NUL] ((c :: q) :: qs))) with true by (by destruct qs).
    by rewrite <-app_assoc.
Qed.

Section paths.
Context {K : ScanKernels}.

Lemma parseDottedPathKey_loop_eq fuel origLen : ∀ raw ps i, interner_ok i →
  let r := parseDottedPathKey_loop fuel origLen raw (pathText ps) i in
  r.1 = rmap pathText (parseDottedKey_loop fuel origLen raw ps) ∧ interner_ok r.2.
Proof using Type.
  induction fuel as [|fuel IH]; intros raw ps i Hi; [done|].
  cbn [parseDottedPathKey_loop parseDottedKey_loop]. do 2 (case_match; [done|]).
  destruct (parseKeySegment origLen (trimBlanks raw)) as [[part rest]|e]; [|done]. cbn [rbind].
  match goal with |- context [if ?q then internSegmentString part i else internSegment part i] =>
    assert (∃ i', (if q then internSegmentString part i else internSegment part i) = (part, i') ∧ interner_ok i') as (i' & -> & Hi')
  end.
  { pose proof (internSegmentString_ok part i Hi) as [E1 E2]. unfold internSegment. fold (internSegmentString part i).
    destruct (internSegmentString part i) as [s j]. simpl in *. subst. exists j. by destruct (_ || _). }
  cbv beta iota zeta. rewrite <-pathText_snoc.
  repeat (case_match; [done|]). by apply IH.
Qed.

Lemma parseDottedKey_bare raw : isSimpleBareKey (bytesTrimSpace raw) = true → Forall is_byte raw →
  parseDottedKey raw = Ok [bytesTrimSpace raw].
Proof using Type.
  intros Hs Hb. apply parseDottedKey_ok; [done|].
  pose proof (keyPath_parseDottedKey (bytesTrimSpace raw) (bytesTrimSpace_bytes raw Hb)) as Hk.
  unfold keyPath in Hk. rewrite Hs in Hk. symmetry in Hk.
  apply parseDottedKey_ok in Hk; [|by apply bytesTrimSpace_bytes].
  rewrite bytesTrimSpace_bare in Hk; [done|]. unfold isSimpleBareKey in Hs.
  destruct (_ =? 0); [done|]. by apply forallb_Forall in Hs.
Qed.

Lemma parseDottedPathKey_eq raw i : Forall is_byte raw → interner_ok i →
  (parseDottedPathKey raw i).1 =
    match parseDottedKey raw with
    | Ok ps => if bytes_eqb (pathText ps) [] then Err (dottedKeyError (length raw) "empty key") else Ok (pathText ps)
    | Err e => Err e
    end ∧
  interner_ok (parseDottedPathKey raw i).2.
Proof using Type.
  intros Hb Hi. unfold parseDottedPathKey. destruct (isSimpleBareKey (bytesTrimSpace raw)) eqn:Hs.
  - rewrite parseDottedKey_bare by done.
    destruct (internSegment_ok (bytesTrimSpace raw) i Hi) as [E1 H1].
    destruct (internSegment _ i) as [s j]. simpl in E1, H1. subst s.
    destruct (internPathKey_ok (bytesTrimSpace raw) j H1) as [E2 H2].
    destruct (internPathKey _ j) as [s' j']. simpl in E2, H2. subst s'. simpl. split; [|done].
    by destruct (bytesTrimSpace raw).
  - destruct (parseDottedPathKey_loop_eq (S (length (bytesTrimSpace raw))) (length raw) (bytesTrimSpace raw) [] i Hi) as [E H].
    change (pathText []) with (@nil Z) in E, H. unfold parseDottedKey.
    destruct (parseDottedPathKey_loop _ _ _ _ i) as [[b|e] j]; cbn [fst snd] in E, H;
      destruct (parseDottedKey_loop _ _ _ _) as [ps|e']; unfold rmap, rbind in E; try done.
    cbn [rbind]. injection E as ->.
    destruct ps as [|p ps]; [done|]. cbn [length Nat.eqb].
    destruct (pathText (p :: ps)) as [|c t] eqn:Et; [done|]. cbn [length Nat.eqb].
    destruct (internPathKey_ok (c :: t) j H) as [E2 H2]. destruct (internPathKey _ j). simpl in E2, H2 |- *. by subst.
Qed.

Lemma pathText_join p ps : p ≠ [] → pathText (p :: ps) = joinDocumentPath (p :: ps).
Proof using Type. by destruct p. Qed.

(** The path key [ParseDocument] builds in one pass is, for every key, the
    segments [parseDottedKey] finds joined by NUL bytes, without the empty segments
    the key starts with; a key of empty segments only is an error and other errors
    are the same.  So for a key that does not start with an empty segment it is the
    key that [Get], [Set] and [Delete] look up.  The interner is not observable. *)
Theorem parseDottedPathKey_exact raw i :
  Forall is_byte raw → interner_ok i →
  (parseDottedPathKey raw i).1 =
    match parseDottedKey raw with
    | Ok ps => if bytes_eqb (pathText ps) [] then Err (dottedKeyError (length raw) "empty key") else Ok (pathText ps)
    | Err e => Err e
    end ∧
  (∀ p ps, parseDocumentPath raw = Ok (p :: ps) → p ≠ [] →
     (parseDottedPathKey raw i).1 = Ok (joinDocumentPath (p :: ps))) ∧
  (parseDottedPathKey raw i).1 = (parseDottedPathKey raw noInterner).1 ∧
  interner_ok (parseDottedPathKey raw i).2.
Proof using Type.
  intros Hb Hi. destruct (parseDottedPathKey_eq raw i Hb Hi) as [E H].
  destruct (parseDottedPathKey_eq raw noInterner Hb noInterner_ok) as [E0 _].
  split_and!; [done| |congruence|done]. intros p ps Hp Hne. unfold parseDocumentPath in Hp.
  rewrite E, Hp, pathText_join by done. by destruct p, ps.
Qed.
End paths.

(** A key with an empty first segment: [ParseDocument] files it under the rest of
    its path, where [Get] does not look for it, and rejects the empty key. *)
Example leading_empty_segment :
  (parseDottedPathKey (K := swar_kernels) (str "''.a") noInterner).1 = Ok (str "a") ∧
  parseDottedKey (K := swar_kernels) (str "''.a") = Ok [[]; str "a"] ∧
  is_ok (parseDottedPathKey (K := swar_kernels) (str "''") noInterner).1 = false ∧
  parseDottedKey (K := swar_kernels) (str "''") = Ok [[]].
Proof. by vm_compute. Qed.

Lemma parseDottedPathKey_exact_witness :
  parseDocumentPath (K := swar_kernels) (str "a . 'b.c'") = Ok [str "a"; str "b.c"] ∧
  (parseDottedPathKey (K := swar_kernels) (str "a . 'b.c'") noInterner).1 = Ok (joinDocumentPath [str "a"; str "b.c"]).
Proof.
  split; [by vm_compute|].
  assert (Forall is_byte (str "a . 'b.c'")) as Hb by (by apply (bool_decide_unpack _)).
  destruct (parseDottedPathKey_exact (K := swar_kernels) (str "a . 'b.c'") noInterner Hb noInterner_ok) as (_ & H & _).
  apply H; by vm_compute.
Defined.
