(* ===== verification/TomlEditSpans.v ===== *)
(** What [ParseDocument] records: the spans of values and lines, in the order of
    the text, and the index of the paths. *)
From S2P Require Import Prelude GoUtf8 Scan TomlBase TomlString TomlNumber TomlKey Decoder DecoderSpec TomlTree TomlDocument TomlMarshal TomlEdit TomlEditPaths.

(** ** Lines *)

Definition newline_at (data : bytes) (i : nat) : Prop := ∃ c, data !! i = Some c ∧ isNewline c = true.

(** A byte that ends a line somewhere in [data[i:j]]. *)
Definition newline_in (data : bytes) (i j : nat) : Prop := ∃ k, i ≤ k < j ∧ newline_at data k.

Lemma newline_in_mono data i j i' j' : newline_in data i j → i' ≤ i → j ≤ j' → newline_in data i' j'.
Proof. intros (k & ? & ?) ? ?. exists k. split; [lia|done]. Qed.

Lemma lineStart_spec data start : start ≤ length data →
  let ls := start - find_stop isNewline (rev (take start data)) in
  ls ≤ start ∧ (∀ k, ls ≤ k < start → ¬ newline_at data k) ∧ (ls = 0 ∨ newline_at data (ls - 1)).
Proof.
  intros Hs ls. set (s := rev (take start data)) in *.
  assert (length s = start) as Hlen by (unfold s; rewrite length_rev, length_take; lia).
  assert (∀ k, k < start → s !! k = data !! (start - 1 - k)) as Hlk.
  { intros k Hk. unfold s. rewrite rev_alt. change (rev_append (take start data) []) with (reverse (take start data)).
    rewrite reverse_lookup by (rewrite length_take; lia).
    rewrite length_take, Nat.min_l by lia. rewrite lookup_take_lt by lia. f_equal. lia. }
  pose proof (find_stop_le isNewline s). split; [lia|]. split.
  - intros k Hk (c & Hc & Hn). assert (s !! (start - 1 - k) = Some c) as Hsk.
    { rewrite Hlk by lia. rewrite <-Hc. f_equal. lia. }
    rewrite (find_stop_lt _ _ _ _ Hsk) in Hn by lia. done.
  - destruct (decide (find_stop isNewline s = start)); [left; lia|right].
    destruct (lookup_lt_is_Some_2 s (find_stop isNewline s)) as [c Hc]; [lia|].
    exists c. split; [|by apply find_stop_lookup in Hc]. rewrite <-Hc, Hlk by lia. f_equal. lia.
Qed.

Lemma lineEnd_spec data end_ : end_ ≤ length data →
  let le := (lineSpanOf data 0 end_).2 in
  end_ ≤ le ≤ length data ∧ (le = length data ∨ newline_at data (le - 1) ∧ end_ < le) ∧
  (∀ k, end_ ≤ k → newline_at data k → le ≤ k + 1 ∨ le = k + 2 ∧ data !! (k + 1) = Some LF).
Proof.
  intros He. unfold lineSpanOf. cbn [snd].
  set (n := find_stop isNewline (drop end_ data)).
  pose proof (find_stop_le isNewline (drop end_ data)) as Hn. fold n in Hn. rewrite length_drop in Hn.
  assert (∀ k, end_ ≤ k → newline_at data k → end_ + n ≤ k) as Hfirst.
  { intros k Hk (c & Hc & Hnl). destruct (decide (end_ + n ≤ k)); [done|exfalso].
    assert (drop end_ data !! (k - end_) = Some c) as Hd by (rewrite lookup_drop, <-Hc; f_equal; lia).
    rewrite (find_stop_lt _ _ _ _ Hd) in Hnl by lia. done. }
  destruct (end_ + n <? length data) eqn:Hlt.
  2:{ split; [lia|]. split; [left; lia|]. intros k Hk Hnl. pose proof (Hfirst k Hk Hnl). lia. }
  destruct (lookup_lt_is_Some_2 data (end_ + n)) as [c Hc]; [lia|].
  assert (isNewline c = true) as Hnl.
  { apply (find_stop_lookup _ (drop end_ data)). by rewrite lookup_drop. }
  rewrite (list_lookup_total_correct _ _ _ Hc).
  destruct (Z.eqb_spec c LF) as [->|Hne].
  { split; [lia|]. replace (end_ + n + 1 - 1) with (end_ + n) by lia. split; [right; split; [by exists LF|lia]|].
    intros k Hk Hk2. pose proof (Hfirst k Hk Hk2). lia. }
  destruct ((end_ + n + 1 <? length data) && (data !!! (end_ + n + 1) =b LF)) eqn:Hcr.
  - apply andb_prop in Hcr as [Hlt2 Hlf%Z.eqb_eq]. apply Nat.ltb_lt in Hlt2.
    assert (data !! (end_ + n + 1) = Some LF) as Hl by (rewrite <-Hlf; by apply lookup_total_lt).
    split; [lia|]. split.
    + right. split; [|lia]. replace (end_ + n + 2 - 1) with (end_ + n + 1) by lia. by exists LF.
    + intros k Hk Hk2. pose proof (Hfirst k Hk Hk2).
      destruct (decide (k = end_ + n)) as [->|]; [by right|left; lia].
  - split; [lia|]. replace (end_ + n + 1 - 1) with (end_ + n) by lia. split; [right; split; [by exists c|lia]|].
    intros k Hk Hk2. pose proof (Hfirst k Hk Hk2). lia.
Qed.

(** Two entries with the end of a line between them are on lines of their own. *)
Lemma lines_apart data s e s' e' : e ≤ s' → s' ≤ length data → newline_in data e s' → ¬ newline_at data s' →
  (lineSpanOf data s e).2 ≤ (lineSpanOf data s' e').1.
Proof.
  intros Hes Hs' (k & Hk & Hnl) Hnot. destruct (lineStart_spec data s' Hs') as (Hls & Hno & _).
  change ((lineSpanOf data s e).2) with ((lineSpanOf data 0 e).2).
  destruct (lineEnd_spec data e) as (_ & _ & Hle); [lia|]. unfold lineSpanOf at 2. cbn [fst].
  set (ls := s' - _) in *.
  assert (k < ls) by (destruct (decide (k < ls)); [done|exfalso; apply (Hno k); [lia|done]]).
  destruct (Hle k) as [|[-> Hlf]]; [lia|done|lia|].
  assert (newline_at data (k + 1)) as Hnl1 by (by exists LF).
  assert (k + 1 ≠ s') by (intros <-; done).
  destruct (decide (k + 1 < ls)); [lia|]. exfalso. apply (Hno (k + 1)); [lia|done].
Qed.

(** ** Where a line ends in the token stream *)

(** Run a scanner: [H] says it returned a token. *)
Ltac scanner H := unfold mbind, M_bind, get, modify, mret, M_ret, makeToken, fail_sticky, syntaxError in H;
  repeat (case_match; simplify_eq/=); try done.

Section line_ends.
Context {K : ScanKernels}.

Lemma advanceBytes_flags b d : flags (advanceBytes b d) = flags d.
Proof using Type. unfold advanceBytes, advancePosition. by repeat case_match. Qed.

(** [needLineEnd] is cleared by the end of a line only. *)
Lemma skip_line_end fuel : ∀ d, wf d → length (buf d) - off d < fuel →
  needLineEnd (skipSpaces_loop fuel d) = needLineEnd d ∨
  newline_in (buf d) (off d) (off (skipSpaces_loop fuel d)).
Proof using Type.
  induction fuel as [|fuel IH]; intros d Hwf Hfuel; [lia|]. cbn [skipSpaces_loop].
  destruct (off d <? length (buf d)) eqn:Hlt; [|by left]. apply Nat.ltb_lt in Hlt.
  set (rem := drop (off d) (buf d)).
  assert (∀ n (f : Decoder → Decoder), 0 < n → off d + n ≤ length (buf d) →
    (∀ d, config (f d) = config d ∧ pos (f d) = pos d) →
    let d1 := f (advanceBytes (take n rem) d) in
    wf d1 ∧ buf d1 = buf d ∧ off d1 = off d + n ∧ length (buf d1) - off d1 < fuel ∧ off d1 ≤ off (skipSpaces_loop fuel d1))
    as Hadv.
  { intros n f Hn0 Hn Hf.
    assert (take n rem = slice (buf d) (off d) (off d + n)) as -> by (unfold slice, rem; f_equal; lia).
    destruct (advanceBytes_spec d (off d + n) Hwf ltac:(lia)) as (Hw & Hc & Ho).
    set (d0 := advanceBytes _ d) in *. clearbody d0. destruct (Hf d0) as [Fc Fp].
    assert (off (f d0) = off d + n) as Hof by (injection Fp; congruence).
    assert (wf (f d0)) as Hwf1 by exact (wf_ext _ _ Fc Fp Hw).
    assert (buf (f d0) = buf d) as Hb by (rewrite (config_buf _ _ Fc); by apply config_buf).
    cbv zeta. split_and!; [done|done|done|rewrite Hb, Hof; lia|].
    destruct (skipSpaces_loop_spec fuel (f d0) Hwf1) as [Hsk _]; [rewrite Hb, Hof; lia|apply (sk_off _ _ Hsk)]. }
  rewrite SkipWhitespace_ok by apply Forall_drop, Hwf. fold rem. set (n := find_stop _ rem).
  assert (n ≤ length rem) as Hn by apply find_stop_le. unfold rem in Hn. rewrite length_drop in Hn.
  destruct (0 <? n) eqn:Hn0.
  { apply Nat.ltb_lt in Hn0.
    destruct (Hadv n (λ d', if atLineStart d then set_atLineStart true d' else d') Hn0 ltac:(lia)) as (Hw & Hb & Ho & Hf & Hm);
      [by intros d0; destruct (atLineStart d)|].
    set (d1 := if atLineStart d then _ else _) in *.
    assert (needLineEnd d1 = needLineEnd d) as <-.
    { pose proof (advanceBytes_flags (take n rem) d) as Hfl. injection Hfl as _ _ _ E _ _.
      subst d1. cbv beta. by destruct (atLineStart d). }
    destruct (IH d1 Hw Hf) as [->|Hnl]; [by left|right]. rewrite Hb, Ho in Hnl.
    eapply newline_in_mono; [done|lia|lia]. }
  destruct (has_prefix rem [CR; LF]) eqn:Hcr.
  { destruct (valueNoNewline d); [by left|right].
    assert (∃ t, rem = CR :: LF :: t) as [t Ht].
    { destruct rem as [|a [|b t]]; simpl in Hcr; try done; [by rewrite andb_false_r in Hcr|]. exists t. repeat f_equal; lia. }
    assert (length rem = length (buf d) - off d) as Hl by (unfold rem; by rewrite length_drop). rewrite Ht in Hl. simpl in Hl.
    destruct (Hadv 2 (λ d', set_needLineEnd false (set_atLineStart true d')) ltac:(lia) ltac:(lia)) as (_ & _ & Ho & _ & Hm); [done|].
    exists (off d). split; [lia|]. exists CR. split; [|done]. rewrite <-(Nat.add_0_r (off d)), <-lookup_drop. fold rem. by rewrite Ht. }
  destruct (has_prefix rem [LF]) eqn:Hlf; [|by left].
  destruct (valueNoNewline d); [by left|right].
  assert (∃ t, rem = LF :: t) as [t Ht].
  { destruct rem as [|a t]; simpl in Hlf; [done|]. exists t. f_equal. lia. }
  destruct (Hadv 1 (λ d', set_needLineEnd false (set_atLineStart true d')) ltac:(lia) ltac:(lia)) as (_ & _ & Ho & _ & Hm); [done|].
  exists (off d). split; [lia|]. exists LF. split; [|done]. rewrite <-(Nat.add_0_r (off d)), <-lookup_drop. fold rem. by rewrite Ht.
Qed.

Lemma comment_keeps d tok d' : scanComment d = (Ok tok, d') → rt_Kind tok = TokenKindComment ∧ flags d' = flags d.
Proof using Type.
  unfold scanComment, mbind, M_bind, get, modify, mret, M_ret, makeToken.
  assert ((scanCommentEnd (off d) d).2 = d ∨ is_ok (scanCommentEnd (off d) d).1 = false) as Hsc.
  { unfold scanCommentEnd, syntaxError. repeat case_match; simpl; auto. }
  destruct (scanCommentEnd (off d) d) as [[e|e] d1]; simpl in Hsc; [|done]. destruct Hsc as [->|]; [|done].
  repeat case_match; intros [= <- <-]; simplify_eq; rewrite advanceBytes_flags; done.
Qed.

Lemma readTokenAt_line_end d r d' : needLineEnd d = true → readTokenAt d = (Ok r, d') →
  match r with
  | Some tok => rt_Kind tok = TokenKindComment ∧ needLineEnd d' = true
  | None => d' = d
  end.
Proof using Type.
  intros Hn Hr. unfold readTokenAt in Hr. unfold mbind at 1, M_bind at 1, get in Hr. cbv zeta in Hr. rewrite Hn in Hr.
  destruct (_ <=? _).
  { unfold endOfInput, mbind, M_bind, get, syntaxError, fail in Hr. by repeat case_match. }
  destruct (_ =b HASH).
  { unfold some_token, mbind, M_bind, mret, M_ret in Hr. destruct (scanComment d) as [[t|] d1] eqn:Ec; [|done].
    injection Hr as <- <-. apply comment_keeps in Ec as [? [= _ _ _ E _ _]]. split; [done|congruence]. }
  destruct (_ || _); [by injection Hr as <- <-|]. unfold syntaxError in Hr. by repeat case_match.
Qed.

(** Where a line has to end, only a comment comes before the end of the line. *)
Lemma readToken_line_end d tok d' :
  wf d → flags_ok d → err d = None → needLineEnd d = true → readToken d = (Ok tok, d') →
  newline_in (buf d) (off d) (rt_Offset tok) ∨ rt_Kind tok = TokenKindComment ∧ needLineEnd d' = true.
Proof using Type.
  intros Hwf Hfl He Hn Hr. unfold readToken in Hr. rewrite He in Hr.
  destruct (skipSpaces_spec d Hwf) as [Hsk Hdone].
  pose proof (skip_line_end (S (length (buf d) - off d)) d Hwf ltac:(lia)) as Hline. fold (skipSpaces d) in Hline.
  set (d1 := skipSpaces d) in *.
  pose proof (sk_wf _ _ Hsk) as Hwf1. pose proof (skipped_flags_ok _ _ Hsk Hfl) as Hfl1.
  pose proof (sk_off _ _ Hsk) as Ho1. pose proof (config_buf _ _ (sk_config _ _ Hsk)) as Hb1.
  assert (readToken_loop (S (S (length (buf d) - off d))) d1 = (Ok tok, d')) as Hr1.
  { rewrite <-Hr. cbn [readToken_loop]. rewrite !readTokenStep_at by done. fold d1. by rewrite (skipSpaces_done d1). }
  destruct (needLineEnd d1) eqn:Hn1.
  - right. clear Hr Hline. revert Hr1. generalize (S (length (buf d) - off d)) as fu. intros fu Hr1.
    cbn [readToken_loop] in Hr1. rewrite readTokenStep_at, skipSpaces_done in Hr1 by done.
    pose proof (readTokenAt_spec d1 Hwf1 Hfl1 Hdone) as Hit.
    destruct (readTokenAt d1) as [[[t|]|e] d2] eqn:Er; [| |done].
    + injection Hr1 as -> ->. by apply readTokenAt_line_end in Er.
    + apply readTokenAt_line_end in Er as ->; [|done]. exfalso. destruct Hit as [[[_ Ho2] _ _ _ _ _]|[_ Hst]]; [lia|].
      by rewrite stuck_loop in Hr1.
  - destruct Hline as [?|Hnl]; [congruence|left].
    pose proof (readToken_loop_spec (S (S (length (buf d) - off d))) d1 Hwf1 Hfl1 (eq_trans (sk_err _ _ Hsk) He)) as Hl.
    rewrite Hr1 in Hl. destruct Hl as (_ & _ & _ & d2 & _ & Ho2 & _ & Hat); [rewrite Hb1; lia|].
    rewrite (at_offset _ _ _ Hat). eapply newline_in_mono; [done|lia|lia].
Qed.

(** The tokens a value ends with. *)
Definition ends_value (k : TokenKind) : bool :=
  match k with
  | TokenKindValueString | TokenKindValueInteger | TokenKindValueFloat | TokenKindValueBool | TokenKindValueDatetime
  | TokenKindArrayEnd | TokenKindInlineTableEnd => true
  | _ => false
  end.

(** A value outside containers has to be followed by the end of its line; a key
    does not start with a line end and its value has to follow on its line. *)
Definition scanned (tok : rawToken) (d' : Decoder) : Prop :=
  (ends_value (rt_Kind tok) = true → needLineEnd d' = (length (containerStack d') =? 0)) ∧
  (rt_Kind tok = TokenKindKey → isNewline (rt_Bytes tok !!! 0) = false ∧ valueNoNewline d' = true).

Definition scans_ok (m : M rawToken) : Prop := ∀ d tok d', m d = (Ok tok, d') → scanned tok d'.

Lemma scanArrayEnd_line : scans_ok scanArrayEnd.
Proof using Type. intros d tok d' H. unfold scanArrayEnd in H. split; intros Hk; scanner H. Qed.

Lemma scanInlineTableEnd_line : scans_ok scanInlineTableEnd.
Proof using Type. intros d tok d' H. unfold scanInlineTableEnd in H. split; intros Hk; scanner H. Qed.

Lemma scanArrayStart_line : scans_ok scanArrayStart.
Proof using Type. intros d tok d' H. unfold scanArrayStart in H. split; intros Hk; scanner H. Qed.

Lemma scanInlineTableStart_line : scans_ok scanInlineTableStart.
Proof using Type. intros d tok d' H. unfold scanInlineTableStart in H. split; intros Hk; scanner H. Qed.

Lemma scanComment_line : scans_ok scanComment.
Proof using Type. intros d tok d' H. apply comment_keeps in H as [Hc _]. unfold scanned. by rewrite Hc. Qed.

Lemma scanHeader_line kind array k : ends_value kind = false → kind ≠ TokenKindKey → scans_ok (scanHeader kind array k).
Proof using Type.
  intros Hkind Hkey d tok d' H. unfold scanHeader in H. split; intros Hk; scanner H; congruence.
Qed.

Lemma scanKeyToken_line : scans_ok scanKeyToken.
Proof using Type.
  intros d tok d' H. unfold scanKeyToken in H. unfold mbind at 1, M_bind at 1, get in H. cbv zeta in H.
  unfold mbind at 1, M_bind at 1 in H.
  destruct (scanKeyEnd (S (length (buf d) - off d)) (off d) d) as [[i|e] d1] eqn:Ei; [|done].
  destruct (i =? off d) eqn:Eo; [unfold syntaxError in H; by case_match|].
  assert (off d < length (buf d) → isNewline (buf d !!! off d) = false) as Hnl.
  { intros Hlt. cbn [scanKeyEnd] in Ei. rewrite (proj2 (Nat.ltb_lt _ _) Hlt) in Ei. unfold isNewline.
    destruct (_ =b EQUALS); [injection Ei as <- <-; lia|].
    destruct (_ || _) eqn:E3 in Ei; [injection Ei as <- <-; lia|]. lia. }
  destruct (bytesTrimRightSpaces_spec (slice (buf d) (off d) i)) as (b & Hs & _).
  set (key := bytesTrimRightSpaces _) in *. clearbody key.
  assert (isNewline (key !!! 0) = false) as Hkey.
  { destruct key as [|c key]; [done|]. assert (slice (buf d) (off d) i !! 0 = Some c) as Hc by (by rewrite Hs).
    unfold slice in Hc. pose proof (lookup_lt_Some _ _ _ Hc) as Hl. rewrite length_take, length_drop in Hl.
    rewrite lookup_take_lt, lookup_drop, Nat.add_0_r in Hc by lia. apply list_lookup_total_correct in Hc.
    rewrite Hc in Hnl. apply Hnl. lia. }
  split; intros Hk; scanner H.
Qed.

Lemma scanValueToken_line : scans_ok scanValueToken.
Proof using Type.
  intros d tok d' H. unfold scanValueToken in H. unfold mbind at 1, M_bind at 1, get in H. cbv zeta in H.
  destruct (_ || _).
  { assert (∀ r d1, scanString (off d) d = (Ok r, d1) → r.2 = TokenKindValueString) as Hstr.
    { intros r d1. unfold scanString. unfold mbind, M_bind, mret, M_ret, get. repeat (case_match; simplify_eq/=; try done).
      all: by intros; simplify_eq/=. }
    unfold mbind at 1, M_bind at 1 in H. destruct (scanString (off d) d) as [[[end_ kind]|e] d1]; [|done].
    pose proof (Hstr _ _ eq_refl) as Hkind. simpl in Hkind. subst kind. split; intros Hk; scanner H. }
  destruct (_ =b _); [by eapply scanArrayStart_line|]. destruct (_ =b _); [by eapply scanInlineTableStart_line|].
  destruct (_ =b _); [by eapply scanArrayEnd_line|]. destruct (_ =b _); [by eapply scanInlineTableEnd_line|].
  destruct (_ =b _); [by eapply scanComment_line|].
  assert (∀ chunk, (classifyBareValue chunk).1.1 ≠ TokenKindKey) as Hcl.
  { intros chunk. unfold classifyBareValue. by repeat case_match. }
  split; intros Hk; scanner H.
  all: match goal with E : classifyBareValue ?c = _ |- _ => exfalso; apply (Hcl c); by rewrite E end.
Qed.

Definition scanned_opt (r : option rawToken) (d' : Decoder) : Prop := match r with Some tok => scanned tok d' | None => True end.

Lemma some_token_line m d r d' : scans_ok m → some_token m d = (Ok r, d') → scanned_opt r d'.
Proof using Type.
  intros Hm. unfold some_token, mbind, M_bind, mret, M_ret. destruct (m d) as [[tok|e] d1] eqn:E; [|done].
  intros [= <- <-]. by eapply Hm.
Qed.

Lemma readTokenAt_scanned d r d' : readTokenAt d = (Ok r, d') → scanned_opt r d'.
Proof using Type.
  assert (∀ msg o, syntaxError (A := option rawToken) msg o d ≠ (Ok r, d')) as Hse.
  { intros msg o. unfold syntaxError. by case_match. }
  assert (dispatch d = (Ok r, d') → scanned_opt r d') as Hdisp.
  { unfold dispatch. unfold mbind at 1, M_bind at 1, get. cbv zeta.
    destruct (_ =b LBRACK).
    { destruct (_ && _); [intros ?; exfalso; by eapply Hse|apply some_token_line, scanArrayStart_line]. }
    destruct (_ =b LBRACE).
    { destruct (_ && _); [intros ?; exfalso; by eapply Hse|apply some_token_line, scanInlineTableStart_line]. }
    destruct (_ =b RBRACK); [apply some_token_line, scanArrayEnd_line|].
    destruct (_ =b RBRACE); [apply some_token_line, scanInlineTableEnd_line|].
    destruct (_ =b HASH); [apply some_token_line, scanComment_line|].
    destruct (_ =b EQUALS); [intros ?; exfalso; by eapply Hse|].
    destruct (_ =b COMMA).
    { destruct (negb _); [intros ?; exfalso; by eapply Hse|].
      unfold mbind, M_bind, modify, mret, M_ret. by intros [= <- _]. }
    destruct (expectingValue d).
    { destruct (_ && _); [intros ?; exfalso; by eapply Hse|apply some_token_line, scanValueToken_line]. }
    destruct (_ && _); [intros ?; exfalso; by eapply Hse|apply some_token_line, scanKeyToken_line]. }
  unfold readTokenAt. unfold mbind at 1, M_bind at 1, get. cbv zeta.
  destruct (_ <=? _).
  { unfold endOfInput, mbind, M_bind, get, fail. destruct (expectingValue d); [intros ?; exfalso; by eapply Hse|done]. }
  destruct (needLineEnd d).
  { destruct (_ =b _); [eapply some_token_line, scanComment_line|].
    destruct (_ || _); [by intros [= <- _]|]. intros ?; exfalso; by eapply Hse. }
  destruct (_ && _); [by apply some_token_line, scanHeader_line|].
  destruct (_ && _); [by apply some_token_line, scanHeader_line|done].
Qed.

Lemma readToken_scanned : scans_ok readToken.
Proof using Type.
  intros d tok d' Hr. unfold readToken in Hr. destruct (err d); [done|].
  revert Hr. generalize (S (S (length (buf d) - off d))) as fuel. intros fuel. revert d.
  induction fuel as [|fuel IH]; intros d; [done|]. cbn [readToken_loop].
  destruct (readTokenStep d) as [[[t|]|e] d1] eqn:Es; [|by apply IH|done]. intros [= -> ->].
  unfold readTokenStep, mbind, M_bind, get, modify in Es.
  destruct (_ <=? _).
  - unfold endOfInput, mbind, M_bind, get, fail, syntaxError in Es. by repeat case_match.
  - exact (readTokenAt_scanned _ _ _ Es).
Qed.
End line_ends.
