(* ===== verification/TomlEditParse.v ===== *)
(** What [ParseDocument] records: the spans of values and lines, in the order of
    the text, and the index of the paths; it returns. *)
From S2P Require Import Prelude GoUtf8 Scan TomlBase TomlString TomlNumber TomlKey Decoder DecoderSpec TomlTree TomlDocument TomlMarshal TomlEdit TomlEditPaths TomlEditSpans.

Section values.
Context {K : ScanKernels}.

(** ** The token after a key *)

Definition value_kind (k : TokenKind) : bool := ends_value k || isContainerStart k.

(** Comments keep the flags; every other scanner of values returns a token of a
    value. *)
Definition value_token (d : Decoder) (tok : rawToken) (d' : Decoder) : Prop :=
  value_kind (rt_Kind tok) = true ∨
  rt_Kind tok = TokenKindComment ∧ valueNoNewline d' = valueNoNewline d.

Definition scans_value (m : M rawToken) : Prop := ∀ d tok d', m d = (Ok tok, d') → value_token d tok d'.

Lemma scanArray_value : scans_value scanArrayStart ∧ scans_value scanArrayEnd.
Proof using Type. split; intros d tok d' H; left; unfold scanArrayStart, scanArrayEnd in H; scanner H. Qed.

Lemma scanInlineTable_value : scans_value scanInlineTableStart ∧ scans_value scanInlineTableEnd.
Proof using Type. split; intros d tok d' H; left; unfold scanInlineTableStart, scanInlineTableEnd in H; scanner H. Qed.

Lemma scanComment_value : scans_value scanComment.
Proof using Type. intros d tok d' [? [= _ E _ _ _ _]]%comment_keeps. by right. Qed.

Lemma scanValueToken_value : scans_value scanValueToken.
Proof using Type.
  intros d tok d' H. unfold scanValueToken in H. unfold mbind at 1, M_bind at 1, get in H. cbv zeta in H.
  destruct (_ || _).
  { left. assert (∀ r d1, scanString (off d) d = (Ok r, d1) → r.2 = TokenKindValueString) as Hstr.
    { intros r d1. unfold scanString. unfold mbind, M_bind, mret, M_ret, get. repeat (case_match; simplify_eq/=; try done).
      all: by intros; simplify_eq/=. }
    unfold mbind at 1, M_bind at 1 in H. destruct (scanString (off d) d) as [[[end_ kind]|e] d1]; [|done].
    pose proof (Hstr _ _ eq_refl) as Hkind. simpl in Hkind. subst kind. scanner H. }
  destruct (_ =b _); [by apply (proj1 scanArray_value)|]. destruct (_ =b _); [by apply (proj1 scanInlineTable_value)|].
  destruct (_ =b _); [by apply (proj2 scanArray_value)|]. destruct (_ =b _); [by apply (proj2 scanInlineTable_value)|].
  destruct (_ =b _); [by apply scanComment_value|].
  left. assert (∀ chunk, (classifyBareValue chunk).2 = ""%string → value_kind (classifyBareValue chunk).1.1 = true) as Hcl.
  { intros chunk. unfold classifyBareValue. by repeat case_match. }
  scanner H. match goal with E : classifyBareValue ?c = (?k, _, ?m) |- _ => specialize (Hcl c); rewrite E in Hcl; apply Hcl end.
  simpl. apply String.eqb_eq. by apply negb_false_iff.
Qed.

(** After a key and its blanks there is a value or a comment. *)
Lemma readToken_value d tok d' : wf d → flags_ok d → err d = None → valueNoNewline d = true →
  readToken d = (Ok tok, d') → value_token d tok d'.
Proof using Type.
  intros Hwf Hfl He Hv Hr. unfold readToken in Hr. rewrite He in Hr. cbn [readToken_loop] in Hr.
  rewrite readTokenStep_at in Hr by done. destruct (skipSpaces_spec d Hwf) as [Hsk Hdone].
  set (d1 := skipSpaces d) in *. destruct (sk_flags _ _ Hsk) as (E1 & E2 & E3 & E4 & E5).
  destruct (fl_value _ Hfl Hv) as (Hev & Hns & Hnl). rewrite Hev in E1. rewrite Hns in E3.
  assert (needLineEnd d1 = false) as Hnl1 by (destruct (needLineEnd d1); [|done]; rewrite E5 in Hnl; done).
  assert (∀ r d2, readTokenAt d1 = (Ok r, d2) → ∃ m t, scans_value m ∧ r = Some t ∧ m d1 = (Ok t, d2)) as Hat.
  { intros r d2. assert (∀ m, scans_value m → some_token m d1 = (Ok r, d2) → ∃ m t, scans_value m ∧ r = Some t ∧ m d1 = (Ok t, d2)) as Hsome.
    { intros m Hm. unfold some_token, mbind, M_bind, mret, M_ret. destruct (m d1) as [[t|?] ?] eqn:Em; [|done].
      intros [= <- <-]. by exists m, t. }
    assert (∀ msg o, syntaxError (A := option rawToken) msg o d1 ≠ (Ok r, d2)) as Hse.
    { intros msg o. unfold syntaxError. by destruct (computeLineCol d1 o). }
    unfold readTokenAt. unfold mbind at 1, M_bind at 1, get. cbv zeta. rewrite Hnl1, E1, andb_false_r. cbn [andb].
    destruct (_ <=? _).
    { unfold endOfInput, mbind, M_bind, get. rewrite E1. intros ?; exfalso; by eapply Hse. }
    unfold dispatch. unfold mbind at 1, M_bind at 1, get. cbv zeta. rewrite E1, E3, andb_false_r. cbn [negb andb].
    destruct (_ =b _); [apply Hsome, (proj1 scanArray_value)|]. destruct (_ =b _); [apply Hsome, (proj1 scanInlineTable_value)|].
    destruct (_ =b _); [apply Hsome, (proj2 scanArray_value)|]. destruct (_ =b _); [apply Hsome, (proj2 scanInlineTable_value)|].
    destruct (_ =b _); [apply Hsome, scanComment_value|].
    destruct (_ =b _); [intros ?; exfalso; by eapply Hse|]. destruct (_ =b _); [intros ?; exfalso; by eapply Hse|].
    apply Hsome, scanValueToken_value. }
  destruct (readTokenAt d1) as [[[t|]|e] d2]; [| |done].
  - injection Hr as -> ->. destruct (Hat _ _ eq_refl) as (m & t & Hm & [= <-] & Hmt).
    destruct (Hm _ _ _ Hmt) as [?|[? ?]]; [by left|right]. split; [done|congruence].
  - by destruct (Hat _ _ eq_refl) as (? & ? & _ & [=] & _).
Qed.

(** ** One token *)

(** What reading a token tells about the text and the flags. *)
Record reads (data : bytes) (d : Decoder) (tok : Token) (d' : Decoder) : Prop := {
  rd_inv : inv data d';
  rd_bytes : tok_Bytes tok = slice data (tok_Offset tok) (tok_Offset tok + length (tok_Bytes tok));
  rd_nonempty : 0 < length (tok_Bytes tok);
  rd_span : tokenSpan tok = (tok_Offset tok, tok_Offset tok + length (tok_Bytes tok));
  rd_off : off d ≤ tok_Offset tok ∧ tok_Offset tok + length (tok_Bytes tok) ≤ off d' ≤ length data;
  rd_newline : needLineEnd d = true →
    newline_in data (off d) (tok_Offset tok) ∨ tok_Kind tok = TokenKindComment ∧ needLineEnd d' = true;
  rd_value : valueNoNewline d = true →
    value_kind (tok_Kind tok) = true ∨ tok_Kind tok = TokenKindComment ∧ valueNoNewline d' = true;
  rd_ends : ends_value (tok_Kind tok) = true → needLineEnd d' = (length (containerStack d') =? 0);
  rd_key : tok_Kind tok = TokenKindKey → ¬ newline_at data (tok_Offset tok) ∧ valueNoNewline d' = true;
}.

Lemma ReadToken_reads data d tok d' : inv data d → ReadToken d = (Ok tok, d') → reads data d tok d'.
Proof using Type.
  intros Hi Hr. pose proof (inv_ReadToken_slices _ _ _ _ Hi Hr) as (Hb & Hne & Ho1 & Ho2 & Ho3 & _).
  pose proof (inv_ReadToken _ _ _ _ Hi Hr) as Hi'.
  assert (0 < length (tok_Bytes tok)) as Hlen by (destruct (tok_Bytes tok); simpl; [done|lia]).
  rewrite ReadToken_eq in Hr. destruct (readToken d) as [[rt|e] d1] eqn:Hrt; [|done].
  destruct (inv_readToken _ _ _ _ Hi Hrt) as (_ & He & _ & _). destruct Hi as (Hbuf & Hwf & Hfl & _).
  specialize (Hfl He). pose proof (readToken_scanned _ _ _ Hrt) as [Hends Hkey].
  pose proof (readToken_line_end d rt d1 Hwf Hfl He) as Hline.
  pose proof (readToken_value d rt d1 Hwf Hfl He) as Hval.
  injection Hr as <- <-. simpl in *. split; simpl; try done.
  - unfold tokenSpan, spanForToken. simpl. destruct (_ <=? _) eqn:E; [|done]. apply Nat.leb_le in E. lia.
  - intros Hn. rewrite <-Hbuf. by apply Hline.
  - intros Hv. destruct (Hval Hv Hrt) as [?|[? E]]; [by left|right]. by rewrite E.
  - intros Hk. destruct (Hkey Hk) as [Hnl Hv]. split; [|done]. intros (c & Hc & Hcn).
    assert (rt_Bytes rt !!! 0 = c) as E; [|congruence]. apply list_lookup_total_correct. rewrite Hb, lookup_slice by lia.
    by rewrite Nat.add_0_r.
Qed.

(** ** Values *)

(** A value that was read lies between two offsets; when it leaves no container
    open, the end of its line has to follow. *)
Definition value_read (data : bytes) (d : Decoder) (start end_ : nat) (d' : Decoder) : Prop :=
  inv data d' ∧ off d ≤ start < end_ ∧ end_ ≤ off d' ≤ length data ∧
  (containerStack d' = [] → needLineEnd d' = true).

Lemma stack_line d : needLineEnd d = (length (containerStack d) =? 0) → containerStack d = [] → needLineEnd d = true.
Proof using Type. by intros -> ->. Qed.

Lemma readContainer_spec data fuel : ∀ d a i end_ e d', inv data d → end_ ≤ off d →
  readContainer fuel a i end_ d = (Ok e, d') →
  inv data d' ∧ end_ ≤ e ≤ off d' ∧ off d ≤ off d' ∧
  if (0 <b a) || (0 <b i) then containerStack d' = [] → needLineEnd d' = true else d' = d.
Proof using Type.
  induction fuel as [|fuel IH]; intros d a i end_ e d' Hi He Hr; [done|]. cbn [readContainer] in Hr.
  destruct ((0 <b a) || (0 <b i)) eqn:Hdepth.
  2:{ injection Hr as <- <-. split_and!; [done|lia|lia|lia|done]. }
  destruct (ReadToken d) as [[tok|e1] d1] eqn:Ht; [|done].
  destruct (ReadToken_reads _ _ _ _ Hi Ht) as [Hi1 _ Hlen Hsp Ho _ _ Hends _]. rewrite Hsp in Hr. simpl in Hr.
  apply IH in Hr as (Hi' & He' & Ho' & Hrest); [|done|lia]. split_and!; [done|lia|lia|lia|].
  destruct ((0 <b arrayDepthStep _ _) || _) eqn:Hmore; [done|]. subst d'. apply stack_line, Hends.
  destruct (tok_Kind tok); simpl in *; (done || lia).
Qed.

Lemma readValue_spec data fuel : ∀ d start end_ k d', inv data d → valueNoNewline d = true →
  readValue fuel d = (Ok (start, end_, k), d') → value_read data d start end_ d'.
Proof using Type.
  induction fuel as [|fuel IH]; intros d start end_ k d' Hi Hv Hr; [done|]. cbn [readValue] in Hr.
  destruct (ReadToken d) as [[tok|e1] d1] eqn:Ht; [|done].
  destruct (ReadToken_reads _ _ _ _ Hi Ht) as [Hi1 _ Hlen Hsp Ho _ Hval Hends _].
  case_bool_decide as Hc.
  { destruct (Hval Hv) as [Hk|[_ Hv1]]; [by rewrite Hc in Hk|].
    destruct (IH _ _ _ _ _ Hi1 Hv1 Hr) as (? & ? & ? & ?). split_and!; (done || lia). }
  rewrite Hsp in Hr. destruct (isContainerStart (tok_Kind tok)) eqn:Hst.
  - cbv zeta in Hr. destruct (if bool_decide (tok_Kind tok = TokenKindArrayStart) then (1, 0)%Z else (0, 1)%Z) as [a i] eqn:Hai.
    assert ((0 <b a) || (0 <b i) = true) as Hd by (case_bool_decide; by simplify_eq).
    destruct (readContainer _ a i _ d1) as [[e|e] d2] eqn:Hrc; [|done]. injection Hr as <- <- _ <-.
    apply (readContainer_spec data) in Hrc as (Hi2 & He & Ho2 & Hn); [|done|lia]. rewrite Hd in Hn.
    assert (off d2 ≤ length data) by (destruct Hi2 as (<- & Hw & _); apply Hw). split_and!; (done || lia).
  - injection Hr as <- <- _ <-. split_and!; [done|lia|lia|lia|lia|]. apply stack_line, Hends.
    destruct (Hval Hv) as [Hk|[? _]]; [|done]. unfold value_kind in Hk. by rewrite Hst, orb_false_r in Hk.
Qed.
End values.
