(* ===== verification/TomlEditEntries.v ===== *)
(** The entries of a parsed document: their spans lie in the text in order, the
    index finds the last entry of a path, and parsing returns. *)
From S2P Require Import Prelude GoUtf8 Scan TomlBase TomlString TomlNumber TomlKey Decoder DecoderSpec TomlTree TomlDocument TomlMarshal TomlEdit TomlEditPaths TomlEditSpans TomlEditParse.

(** ** Spans *)

(** The entry of a key that starts at or behind [lo]. *)
Record entry_at (data : bytes) (lo : nat) (e : documentEntry) : Prop := {
  ea_value : (valueSpan e).1 < (valueSpan e).2 ≤ length data;
  ea_raw : valueRaw e = slice data (valueSpan e).1 (valueSpan e).2;
  ea_line : ∃ ks, lo ≤ ks < (valueSpan e).1 ∧ ¬ newline_at data ks ∧ lineSpan e = lineSpanOf data ks (valueSpan e).2;
  ea_path : pathKey e ≠ [];
}.

(** Entries one behind the other, between two offsets. *)
Inductive spans (data : bytes) : nat → list documentEntry → nat → Prop :=
| spans_nil lo hi : lo ≤ hi → spans data lo [] hi
| spans_cons lo e es hi : entry_at data lo e → spans data (valueSpan e).2 es hi → spans data lo (e :: es) hi.

Lemma spans_mono data lo es hi hi' : spans data lo es hi → hi ≤ hi' → spans data lo es hi'.
Proof. induction 1; intros; constructor; auto; lia. Qed.

Lemma entry_at_mono data lo lo' e : entry_at data lo e → lo' ≤ lo → entry_at data lo' e.
Proof. intros [? ? (ks & ? & ? & ?) ?] ?. split; try done. exists ks. split_and!; (done || lia). Qed.

Lemma spans_snoc data lo es hi e hi' :
  spans data lo es hi → entry_at data hi e → (valueSpan e).2 ≤ hi' → spans data lo (es ++ [e]) hi'.
Proof.
  induction 1 as [lo hi Hlo|lo e' es hi He' Hes IH]; intros He Hhi; simpl.
  - constructor; [by eapply entry_at_mono|by constructor].
  - constructor; auto.
Qed.

Lemma spans_lookup data lo es hi i e : spans data lo es hi → es !! i = Some e → entry_at data lo e.
Proof.
  intros Hs. revert i. induction Hs as [|lo e' es hi He' Hes IH]; intros i Hi; [done|].
  destruct i as [|i]; [by injection Hi as <-|]. eapply entry_at_mono; [by eapply IH|].
  destruct He' as [? _ (ks & ? & _) _]. lia.
Qed.

Lemma spans_ordered data lo es hi i j e e' : spans data lo es hi → es !! i = Some e → es !! j = Some e' → i < j →
  (valueSpan e).2 < (valueSpan e').1.
Proof.
  intros Hs. revert i j. induction Hs as [|lo e0 es hi He0 Hes IH]; intros i j Hi Hj Hij; [done|].
  destruct j as [|j]; [lia|]. destruct i as [|i]; [|by apply (IH i j); (done || lia)].
  injection Hi as ->. simpl in Hj. destruct (spans_lookup _ _ _ _ _ _ Hes Hj) as [_ _ (ks & ? & _) _]. lia.
Qed.

(** ** Lines *)

(** The lines of entries that follow each other do not overlap. *)
Definition lines_ordered (es : list documentEntry) : Prop := ∀ i e e',
  es !! i = Some e → es !! S i = Some e' → (lineSpan e).2 ≤ (lineSpan e').1.

Lemma lines_ordered_snoc es e' : lines_ordered es →
  (∀ e, last es = Some e → (lineSpan e).2 ≤ (lineSpan e').1) → lines_ordered (es ++ [e']).
Proof.
  intros Hl He i a b Ha Hb. apply lookup_app_Some in Hb as [Hb|[Hlen Hb]].
  - apply lookup_app_Some in Ha as [Ha|[Hlen _]]; [by eapply Hl|]. apply lookup_lt_Some in Hb. lia.
  - destruct (S i - length es) as [|n] eqn:En; [|done]. injection Hb as <-. apply He.
    apply lookup_app_Some in Ha as [Ha|[Hlen' _]]; [|lia]. rewrite last_lookup, <-Ha. f_equal. lia.
Qed.

(** ** The index *)

(** [m] maps every path to its last entry. *)
Definition indexes (es : list documentEntry) (m : gmap bytes nat) : Prop := ∀ k i,
  m !! k = Some i ↔ (∃ e, es !! i = Some e ∧ pathKey e = k) ∧ (∀ j e, i < j → es !! j = Some e → pathKey e ≠ k).

Lemma indexes_snoc es m e : indexes es m → indexes (es ++ [e]) (<[pathKey e := length es]> m).
Proof.
  intros H k i. destruct (decide (pathKey e = k)) as [<-|Hne].
  - rewrite lookup_insert_eq. split.
    + intros [= <-]. split; [exists e; by rewrite lookup_app_r, Nat.sub_diag by done|].
      intros j e' Hj Hj'. apply lookup_lt_Some in Hj'. rewrite length_app in Hj'. simpl in Hj'. lia.
    + intros [(e' & He' & Hp) Hlast]. f_equal. pose proof (lookup_lt_Some _ _ _ He') as Hlt. rewrite length_app in Hlt. simpl in Hlt.
      destruct (decide (i = length es)); [done|]. exfalso. apply (Hlast (length es) e); [lia| |done].
      by rewrite lookup_app_r, Nat.sub_diag by done.
  - rewrite lookup_insert_ne by done. rewrite (H k i). split.
    + intros [(e' & He' & Hp) Hlast]. split; [exists e'; by rewrite (lookup_app_l_Some _ _ _ _ He')|].
      intros j e2 Hj [Hj2|[_ Hj2]]%lookup_app_Some; [by eapply Hlast|].
      destruct (j - length es); [by injection Hj2 as <-|done].
    + intros [(e' & [He'|[_ He']]%lookup_app_Some & Hp) Hlast].
      * split; [by exists e'|]. intros j e2 Hj Hj2. apply (Hlast j e2); [done|]. by apply lookup_app_l_Some.
      * destruct (i - length es); [by injection He' as <-|done].
Qed.

Section document.
Context {K : ScanKernels} (data : bytes).

(** ** One statement *)

Record parsed (p : parsing) (d : Decoder) : Prop := {
  pd_inv : inv data d;
  pd_interner : interner_ok (ps_interner p);
  pd_spans : spans data 0 (ps_entries p) (off d);
  pd_index : indexes (ps_entries p) (ps_byPath p);
}.

Lemma reads_bytes d tok d' : Forall is_byte data → reads data d tok d' → Forall is_byte (tok_Bytes tok).
Proof using Type. intros Hd Hr. rewrite (rd_bytes _ _ _ _ Hr). unfold slice. by apply Forall_take, Forall_drop. Qed.

Lemma parsed_move p d d' : parsed p d → inv data d' → off d ≤ off d' → parsed p d'.
Proof using Type. intros [? ? ? ?] ? ?. split; try done. by eapply spans_mono. Qed.

Lemma parsed_entry p d d' tok key v i :
  parsed p d → reads data d tok d' → tok_Kind tok = TokenKindKey → key ≠ [] → interner_ok i →
  ∀ d2, value_read data d' v.1.1 v.1.2 d2 →
  parsed (addEntry data tok key v (set_interner i p)) d2 ∧
  ∃ e, ps_entries (addEntry data tok key v (set_interner i p)) = ps_entries p ++ [e] ∧
    valueSpan e = v.1 ∧ lineSpan e = lineSpanOf data (tok_Offset tok) v.1.2 ∧ entry_at data (off d) e.
Proof using Type.
  intros [Hi Hin Hsp Hix] Hr Hk Hne Hi' d2 (Hi2 & Hse & Heo & _). destruct v as [[vs ve] k]. cbn [fst snd] in *.
  unfold addEntry. destruct (joinPathKeys_ok (ps_current p) key i Hi') as [Hj Hij].
  cbn [set_interner ps_current ps_interner ps_entries ps_byPath].
  destruct (joinPathKeys (ps_current p) key i) as [path i2]. simpl in Hj, Hij. subst path.
  pose proof (rd_off _ _ _ _ Hr) as Ho. pose proof (rd_nonempty _ _ _ _ Hr) as Hl.
  destruct (rd_key _ _ _ _ Hr Hk) as [Hnl _]. rewrite (rd_span _ _ _ _ Hr). cbn [fst].
  set (e := MkEntry _ _ _ _ _ _).
  assert (entry_at data (off d) e) as He.
  { split; simpl; [lia|done|exists (tok_Offset tok); split_and!; (done || lia)|].
    unfold joinKeys, bytes_eqb. repeat case_bool_decide; [done|done|by destruct (ps_current p)]. }
  split; [|by exists e]. split; simpl; try done.
  - eapply spans_snoc; [done|done|simpl; lia].
  - by apply (indexes_snoc _ _ e).
Qed.

(** What the loop keeps about lines: the entry added last is followed by the end of
    its line, or has to be. *)
Definition line_over (p : parsing) (d : Decoder) : Prop :=
  lines_ordered (ps_entries p) ∧
  ∀ e, last (ps_entries p) = Some e → needLineEnd d = true ∨ newline_in data (valueSpan e).2 (off d).

Lemma line_over_next p d tok d' e :
  parsed p d → line_over p d → reads data d tok d' → last (ps_entries p) = Some e →
  newline_in data (valueSpan e).2 (tok_Offset tok) ∨ tok_Kind tok = TokenKindComment ∧ needLineEnd d' = true.
Proof using Type.
  intros Hp [_ Hl] Hr He. pose proof (rd_off _ _ _ _ Hr) as Ho.
  destruct (Hl e He) as [Hn|Hn]; [|left; eapply newline_in_mono; [done|lia|lia]].
  destruct (rd_newline _ _ _ _ Hr Hn) as [Hnl|?]; [left|by right]. eapply newline_in_mono; [done| |lia].
  rewrite last_lookup in He. pose proof (pd_spans _ _ Hp) as Hs. revert He. clear -Hs. intros He.
  induction Hs as [|lo e0 es hi He0 Hes IH]; [done|]. destruct es as [|e1 es].
  - injection He as <-. by inversion Hes.
  - by apply IH.
Qed.

Lemma line_over_skip p d tok d' :
  parsed p d → line_over p d → reads data d tok d' → line_over p d'.
Proof using Type.
  intros Hp Hl Hr. split; [apply Hl|]. intros e He. pose proof (rd_off _ _ _ _ Hr) as Ho.
  destruct (line_over_next _ _ _ _ _ Hp Hl Hr He) as [?|[_ ?]]; [right|by left].
  eapply newline_in_mono; [done|lia|lia].
Qed.

(** A statement: the entries stay in order, and their lines do when a value leaves
    no container open. *)
Lemma documentStatement_spec p d tok d' p' d2 :
  Forall is_byte data → parsed p d → reads data d tok d' → documentStatement data tok p d' = (Ok p', d2) →
  parsed p' d2 ∧ off d' ≤ off d2 ∧
  (line_over p d → (tok_Kind tok = TokenKindKey → containerStack d2 = []) → line_over p' d2).
Proof using Type.
  intros Hd Hp Hr Hs. pose proof (rd_off _ _ _ _ Hr) as Ho. pose proof (rd_inv _ _ _ _ Hr) as Hi'.
  assert (parsed p d') as Hp' by (apply (parsed_move p d); [done|done|lia]).
  assert (∀ array, parsed p d' → enterHeader tok array p = Ok p' → parsed p' d' ∧ ps_entries p' = ps_entries p) as Hhead.
  { intros array [H1 H2 H3 H4] He. unfold enterHeader, parseHeaderPathKey in He.
    destruct (parseDottedPathKey_eq (trimHeaderKey (tok_Bytes tok) array) (ps_interner p)) as [_ Hi]; [|done|].
    { eapply trimHeaderKey_bytes, reads_bytes; eauto. }
    destruct (parseDottedPathKey _ _) as [[path|?] i]; [|done]. injection He as <-. split; [|done]. by split. }
  assert (ps_entries p' = ps_entries p → d2 = d' → line_over p d → line_over p' d2) as Hsame.
  { intros E -> Hl. destruct (line_over_skip p d tok d' Hp Hl Hr) as [H1 H2]. split; by rewrite E. }
  unfold documentStatement in Hs.
  destruct (tok_Kind tok) eqn:Hk; try (case_match; [done|injection Hs as <- <-; split_and!; [done|done|intros; by apply Hsame]]).
  - injection Hs as Hs <-. apply Hhead in Hs as [? ?]; [|done]. split_and!; [done|done|intros; by apply Hsame].
  - injection Hs as Hs <-. apply Hhead in Hs as [? ?]; [|done]. split_and!; [done|done|intros; by apply Hsame].
  - destruct (parseDottedPathKey_eq (tok_Bytes tok) (ps_interner p)) as [Ekey Hik]; [by eapply reads_bytes|apply Hp|].
    destruct (parseDottedPathKey _ _) as [[key|?] i]; [|done]. simpl in Ekey, Hik.
    assert (key ≠ []) as Hne.
    { destruct (parseDottedKey (tok_Bytes tok)); [|done]. unfold bytes_eqb in Ekey. case_bool_decide; [done|by injection Ekey as ->]. }
    destruct (rd_key _ _ _ _ Hr Hk) as [Hnk Hv].
    destruct (readValue _ d') as [[[[vs ve] k]|?] d3] eqn:Hrv; [|done].
    remember (addEntry data tok key (vs, ve, k) (set_interner i p)) as p2 eqn:Ep2. injection Hs as <- <-.
    pose proof (readValue_spec data _ _ _ _ _ _ Hi' Hv Hrv) as Hread.
    destruct (parsed_entry p d d' tok key (vs, ve, k) i Hp Hr Hk Hne Hik d3 Hread) as [Hpe (e & Ee & Esp & Eln & Hea)].
    rewrite <-Ep2 in Hpe, Ee.
    destruct Hread as (Hi3 & Hse & Heo & Hneed). split_and!; [done|lia|]. intros Hl Hcl. unfold line_over. rewrite Ee. split.
    + apply lines_ordered_snoc; [apply Hl|]. intros e0 He0. rewrite Eln. cbn [fst snd].
      destruct (line_over_next _ _ _ _ _ Hp Hl Hr He0) as [Hnl|[? _]]; [|congruence].
      destruct Hnl as (kk & Hkk & Hnn). rewrite last_lookup in He0.
      destruct (spans_lookup _ _ _ _ _ _ (pd_spans _ _ Hp) He0) as [Hv0 _ (ks & Hks & _ & ->) _].
      apply lines_apart; [lia|lia|by exists kk|done].
    + intros e0. rewrite last_snoc. intros [= <-]. left. auto.
  - injection Hs as <- <-. split_and!; [done|done|intros; by apply Hsame].
Qed.

(** ** Documents *)

(** Every value of a key statement leaves the decoder outside containers, as it
    does unless a stray bracket or brace came before. *)
Fixpoint values_closed (fuel : nat) (p : parsing) (d : Decoder) : bool :=
  match fuel with
  | 0 => false
  | S fuel =>
      match ReadToken d with
      | (Err _, _) => true
      | (Ok tok, d) =>
          match documentStatement data tok p d with
          | (Err _, _) => true
          | (Ok p, d) =>
              (negb (bool_decide (tok_Kind tok = TokenKindKey)) || bool_decide (containerStack d = [])) &&
              values_closed fuel p d
          end
      end
  end.

Lemma documentStatements_spec fuel : ∀ p d p',
  Forall is_byte data → parsed p d → documentStatements fuel data p d = Ok p' →
  ∃ d', parsed p' d' ∧ (line_over p d → values_closed fuel p d = true → line_over p' d').
Proof using Type.
  induction fuel as [|fuel IH]; intros p d p' Hd Hp Hs; [done|]. cbn [documentStatements values_closed] in *.
  destruct (ReadToken d) as [[tok|e] d1] eqn:Ht.
  - pose proof (ReadToken_reads _ _ _ _ (pd_inv _ _ Hp) Ht) as Hr.
    destruct (documentStatement data tok p d1) as [[p1|e] d2] eqn:Hst; [|done].
    destruct (documentStatement_spec _ _ _ _ _ _ Hd Hp Hr Hst) as (Hp1 & _ & Hl1).
    destruct (IH _ _ _ Hd Hp1 Hs) as (d' & Hp' & Hl'). exists d'. split; [done|].
    intros Hl [Hc Hv]%andb_prop. apply Hl'; [|done]. apply Hl1; [done|]. intros Hk.
    rewrite bool_decide_eq_true_2 in Hc by done. simpl in Hc. by apply bool_decide_eq_true in Hc.
  - case_bool_decide; [|done]. injection Hs as <-. exists d. by split.
Qed.

(** ** Termination *)

Section returns.
Context (Hcr : no_lone_CR data) (Hd : Forall is_byte data).

Lemma inv_buf d : inv data d → buf d = data.
Proof using Type. by intros (? & _). Qed.

Lemma readContainer_returns fuel : ∀ d a i end_, inv data d → length data - off d < fuel →
  (readContainer fuel a i end_ d).1 ≠ Err OutOfFuel.
Proof using Hcr.
  induction fuel as [|fuel IH]; intros d a i end_ Hi Hf; [lia|]. cbn [readContainer]. destruct (_ || _); [|done].
  pose proof (inv_ReadToken_returns data d Hi Hcr) as Hret.
  destruct (ReadToken d) as [[tok|e] d1] eqn:Ht; cbn [fst] in Hret |- *; [|congruence].
  destruct (ReadToken_reads _ _ _ _ Hi Ht) as [Hi1 _ Hl _ Ho _ _ _ _]. apply IH; [done|lia].
Qed.

Lemma readValue_returns fuel : ∀ d, inv data d → length data - off d < fuel → (readValue fuel d).1 ≠ Err OutOfFuel.
Proof using Hcr.
  induction fuel as [|fuel IH]; intros d Hi Hf; [lia|]. cbn [readValue].
  pose proof (inv_ReadToken_returns data d Hi Hcr) as Hret.
  destruct (ReadToken d) as [[tok|e] d1] eqn:Ht; cbn [fst] in Hret |- *; [|congruence].
  destruct (ReadToken_reads _ _ _ _ Hi Ht) as [Hi1 _ Hl Hsp Ho _ _ _ _].
  case_bool_decide; [apply IH; [done|lia]|]. rewrite Hsp. destruct (isContainerStart _); [|done]. cbv zeta.
  destruct (if bool_decide (tok_Kind tok = TokenKindArrayStart) then (1, 0)%Z else (0, 1)%Z) as [a i].
  pose proof (readContainer_returns (S (length (buf d1) - off d1)) d1 a i (tok_Offset tok + length (tok_Bytes tok)) Hi1) as Hc.
  rewrite (inv_buf _ Hi1) in Hc |- *. destruct (readContainer _ a i _ d1) as [[e|e] d2]; cbn [fst] in Hc |- *; [done|].
  intros [= ->]. apply Hc; [lia|done].
Qed.

Lemma parseDottedPathKey_returns raw i : Forall is_byte raw → interner_ok i → (parseDottedPathKey raw i).1 ≠ Err OutOfFuel.
Proof using Type.
  intros Hb Hi. destruct (parseDottedPathKey_eq raw i Hb Hi) as [-> _]. pose proof (parseDottedKey_no_fuel raw Hb).
  destruct (parseDottedKey raw); [by case_match|congruence].
Qed.

Lemma documentStatement_returns p d tok d' :
  parsed p d → reads data d tok d' → (documentStatement data tok p d').1 ≠ Err OutOfFuel.
Proof using Hcr Hd.
  intros Hp Hr. pose proof (reads_bytes _ _ _ Hd Hr) as Hb. pose proof (rd_inv _ _ _ _ Hr) as Hi.
  assert (∀ array, enterHeader tok array p ≠ Err OutOfFuel) as Hh.
  { intros array. unfold enterHeader, parseHeaderPathKey.
    pose proof (parseDottedPathKey_returns (trimHeaderKey (tok_Bytes tok) array) (ps_interner p)) as Hn.
    destruct (parseDottedPathKey _ _) as [[path|e] i]; [done|]. simpl in Hn. intros [= ->]. apply Hn; [by apply trimHeaderKey_bytes|apply Hp|done]. }
  unfold documentStatement. destruct (tok_Kind tok); cbn [fst]; try by apply Hh; try done.
  all: try (destruct (bytes_eqb _ _); [cbn [fst]; unfold syntaxErrorAtOffset; destruct (lineColForOffset _ _); by destruct (_ && _)|done]).
  - pose proof (parseDottedPathKey_returns (tok_Bytes tok) (ps_interner p) Hb (pd_interner _ _ Hp)) as Hn.
    destruct (parseDottedPathKey _ _) as [[path|e] i]; cbn [fst] in Hn |- *; [|congruence].
    pose proof (readValue_returns (S (length (buf d') - off d')) d' Hi) as Hv. rewrite (inv_buf _ Hi) in Hv |- *.
    destruct (readValue _ d') as [[v|e] d2]; cbn [fst] in Hv |- *; [done|]. intros [= ->]. apply Hv; [lia|done].
  - done.
Qed.

Lemma documentStatements_returns fuel : ∀ p d,
  parsed p d → length data - off d < fuel → documentStatements fuel data p d ≠ Err OutOfFuel.
Proof using Hcr Hd.
  induction fuel as [|fuel IH]; intros p d Hp Hf; [lia|]. cbn [documentStatements].
  pose proof (inv_ReadToken_returns data d (pd_inv _ _ Hp) Hcr) as Hret.
  destruct (ReadToken d) as [[tok|e] d1] eqn:Ht; simpl in Hret; [|case_bool_decide; congruence].
  pose proof (ReadToken_reads _ _ _ _ (pd_inv _ _ Hp) Ht) as Hr.
  pose proof (documentStatement_returns _ _ _ _ Hp Hr) as Hs.
  destruct (documentStatement data tok p d1) as [[p1|e] d2] eqn:Hst; simpl in Hs; [|congruence].
  destruct (documentStatement_spec _ _ _ _ _ _ Hd Hp Hr Hst) as (Hp1 & Ho & _).
  pose proof (rd_nonempty _ _ _ _ Hr). pose proof (rd_off _ _ _ _ Hr). apply IH; [done|lia].
Qed.
End returns.

(** ** Parsed documents *)

Record document_ok (d : Document) : Prop := {
  do_bytes : Forall is_byte (raw d);
  do_spans : spans (raw d) 0 (entries d) (length (raw d));
  do_index : indexes (entries d) (byPath d);
}.

Definition emptyParsing : parsing := MkParsing noInterner [] ∅ [].

Definition closed_document : bool := values_closed (S (length data)) emptyParsing (NewDecoderBytes data [withoutTokenPositions]).

Lemma emptyParsing_parsed : Forall is_byte data → parsed emptyParsing (NewDecoderBytes data [withoutTokenPositions]).
Proof using Type.
  intros Hd. split; [by apply NewDecoderBytes_inv|apply noInterner_ok|constructor; lia|].
  intros k i. simpl. rewrite lookup_empty. split; [done|]. by intros [(e & He & _) _].
Qed.

Lemma ParseDocument_ok doc : Forall is_byte data → ParseDocument data = Ok doc →
  document_ok doc ∧ raw doc = data ∧ replacements doc = ∅ ∧ deletions doc = ∅ ∧ insertions doc = [] ∧ pending doc = ∅ ∧
  (closed_document = true → lines_ordered (entries doc)).
Proof using Type.
  intros Hd (p & Hp & [= <-])%rbind_ok.
  apply documentStatements_spec in Hp as (d' & [Hi Hin Hsp Hix] & Hl); [|done|by apply emptyParsing_parsed].
  assert (off d' ≤ length data) by (destruct Hi as (<- & Hw & _); apply Hw).
  split_and!; [split; try done; by eapply spans_mono|done..|]. intros Hc. apply Hl; [|done].
  split; [by intros i e e' He|done].
Qed.
End document.
