(* ===== verification/TomlEditLayout.v ===== *)
(** The text of an edited document: [Document_Bytes] sorts its operations and
    splices them into the source; this is the source with every line in its place,
    edited lines rewritten and inserted lines behind their anchors. *)
From stdpp Require Import sorting.
From S2P Require Import Prelude GoUtf8 Scan TomlBase TomlKey Decoder DecoderSpec TomlTree TomlDocument TomlMarshal TomlEdit TomlEditPaths TomlEditSpans TomlEditParse TomlEditEntries.

(** ** The order of operations *)

#[export] Instance opLe_trans : Transitive opLe.
Proof. intros x y z. unfold opLe. lia. Qed.

#[export] Instance opLe_total : Total opLe.
Proof. intros x y. unfold opLe. lia. Qed.

Lemma StronglySorted_filter {A} (R : relation A) (P : A → Prop) `{∀ x, Decision (P x)} l :
  StronglySorted R l → StronglySorted R (filter P l).
Proof.
  induction 1 as [|x l Hl IH Hx]; [constructor|]. rewrite filter_cons. case_decide; [|done]. constructor; [done|].
  rewrite Forall_forall in *. intros y [_ Hy]%list_elem_of_filter. auto.
Qed.

Lemma filter_ext_Forall {A} (P Q : A → Prop) `{∀ x, Decision (P x), ∀ x, Decision (Q x)} l :
  Forall (λ x, P x ↔ Q x) l → filter P l = filter Q l.
Proof. induction 1 as [|x l Hx Hl IH]; [done|]. rewrite !filter_cons, IH. repeat case_decide; tauto. Qed.

Lemma filter_all {A} (P : A → Prop) `{∀ x, Decision (P x)} l : Forall P l → filter P l = l.
Proof. induction 1 as [|x l Hx Hl IH]; [done|]. rewrite filter_cons, IH. by case_decide. Qed.

Lemma filter_split {A} (P Q R : A → Prop) `{∀ x, Decision (P x), ∀ x, Decision (Q x), ∀ x, Decision (R x)} l :
  Forall (λ x, (P x ↔ Q x ∨ R x) ∧ ¬ (Q x ∧ R x)) l → filter P l ≡ₚ filter Q l ++ filter R l.
Proof.
  induction 1 as [|x l [Hx Hn] Hl IH]; [done|]. rewrite !filter_cons.
  repeat case_decide; try tauto.
  - simpl. by rewrite IH.
  - rewrite IH. apply Permutation_middle.
Qed.

(** ** Numbered operations *)

Abbreviation edit := (nat * nat * bytes)%type.

Definition opOf (e : edit) (n : nat) : documentOp := MkOp e.1.1 e.1.2 e.2 n.
Definition numbered (n : nat) (l : list edit) : list documentOp := imap (λ i e, opOf e (n + i)) l.

Lemma numbered_cons n e l : numbered n (e :: l) = opOf e n :: numbered (S n) l.
Proof.
  unfold numbered. rewrite imap_cons. f_equal; [by rewrite Nat.add_0_r|]. apply imap_ext. intros i x _.
  simpl. f_equal. lia.
Qed.

Lemma numbered_app n l1 l2 : numbered n (l1 ++ l2) = numbered n l1 ++ numbered (n + length l1) l2.
Proof.
  revert n. induction l1 as [|e l1 IH]; intros n; cbn [app length]; [by rewrite Nat.add_0_r|].
  rewrite !numbered_cons, IH, Nat.add_succ_r. done.
Qed.

Lemma numbered_elem n l x : x ∈ numbered n l → ∃ i e, l !! i = Some e ∧ x = opOf e (n + i).
Proof.
  intros [i Hi]%list_elem_of_lookup. unfold numbered in Hi. rewrite list_lookup_imap in Hi.
  apply fmap_Some in Hi as (e & He & ->). by exists i, e.
Qed.

Lemma numbered_inj n l x y : x ∈ numbered n l → y ∈ numbered n l → op_order x = op_order y → x = y.
Proof.
  intros (i & e & He & ->)%numbered_elem (j & e' & He' & ->)%numbered_elem E. simpl in E.
  assert (i = j) as -> by lia. congruence.
Qed.

Lemma numbered_sorted n l : StronglySorted (λ x y, op_order x ≤ op_order y) (numbered n l).
Proof.
  revert n. induction l as [|e l IH]; intros n; [constructor|]. rewrite numbered_cons. constructor; [apply IH|].
  apply Forall_forall. intros x (i & e' & _ & ->)%numbered_elem. simpl. lia.
Qed.

(** ** Where the operations go *)

(** Lines one behind the other, each with its value, from [c] on. *)
Inductive lines_from (len : nat) : nat → list documentEntry → Prop :=
| lf_nil c : c ≤ len → lines_from len c []
| lf_cons c e es : c ≤ (lineSpan e).1 ≤ (valueSpan e).1 → (valueSpan e).1 < (valueSpan e).2 ≤ (lineSpan e).2 →
    lines_from len (lineSpan e).2 es → lines_from len c (e :: es).

Lemma lines_from_le len c es : lines_from len c es → c ≤ len.
Proof. induction 1; lia. Qed.

Lemma lines_from_end len c es e : lines_from len c es → e ∈ es → c < (lineSpan e).2 ≤ len.
Proof.
  induction 1 as [|c e' es H1 H2 Hes IH]; intros He; [by apply elem_of_nil in He|].
  pose proof (lines_from_le _ _ _ Hes). apply elem_of_cons in He as [->|He]; [lia|]. specialize (IH He). lia.
Qed.

Section plan.
Context (d : Document) (ins : list documentOp).
Context (Hins : Forall (λ op, op_end op = op_start op) ins).

Abbreviation len := (length (raw d)).

Definition opsAt (p : nat) : list documentOp := filter (λ op, op_start op = p) ins.

(** The operations in the order of the text: behind each line what is inserted
    there, then the edit of the next line. *)
Fixpoint planned (c n : nat) (es : list documentEntry) : list documentOp :=
  opsAt c ++
  match es with
  | [] => if c <? len then opsAt len else []
  | e :: es =>
      match entryEdit d e with
      | Some x => opOf x n :: planned (lineSpan e).2 (S n) es
      | None => planned (lineSpan e).2 n es
      end
  end.

(** Every insertion from [c] on is behind a line or at the end. *)
Definition placed (c : nat) (es : list documentEntry) : Prop := ∀ op, op ∈ ins → c < op_start op →
  op_start op = len ∨ ∃ e, e ∈ es ∧ op_start op = (lineSpan e).2.

Lemma placed_cons c e es : lines_from len c (e :: es) → placed c (e :: es) →
  placed (lineSpan e).2 es ∧ ∀ op, op ∈ ins → c < op_start op → (lineSpan e).2 ≤ op_start op.
Proof using Type.
  intros Hl Hp. inversion Hl as [|? ? ? H1 H2 H3]; subst. pose proof (lines_from_le _ _ _ H3) as Hle. split.
  - intros op Hop Hc. destruct (Hp op Hop ltac:(lia)) as [?|(e' & He' & E)]; [by left|right].
    apply elem_of_cons in He' as [->|He']; [lia|by exists e'].
  - intros op Hop Hc. destruct (Hp op Hop Hc) as [?|(e' & He' & E)]; [lia|].
    apply elem_of_cons in He' as [->|He']; [lia|]. pose proof (lines_from_end _ _ _ _ H3 He'). lia.
Qed.

Lemma planned_perm es : ∀ c n, lines_from len c es → placed c es → Forall (λ op, op_start op ≤ len) ins →
  planned c n es ≡ₚ filter (λ op, c ≤ op_start op) ins ++ numbered n (omap (entryEdit d) es).
Proof using Type.
  induction es as [|e es IH]; intros c n Hl Hp Hb; cbn [planned].
  - simpl. rewrite app_nil_r. destruct (Nat.ltb_spec c len) as [Hc|Hc].
    + symmetry. apply filter_split. apply Forall_forall. intros op Hop. rewrite Forall_forall in Hb. specialize (Hb op Hop).
      destruct (decide (c < op_start op)) as [Hlt|]; [|lia]. destruct (Hp op Hop Hlt) as [|(e & He & _)]; [lia|by apply elem_of_nil in He].
    + rewrite app_nil_r. unfold opsAt. erewrite filter_ext_Forall; [done|]. eapply Forall_impl; [exact Hb|]. simpl.
      pose proof (lines_from_le _ _ _ Hl). lia.
  - destruct (placed_cons _ _ _ Hl Hp) as [Hp' Hbehind]. inversion Hl as [|? ? ? H1 H2 H3]; subst.
    assert (filter (λ op, c ≤ op_start op) ins ≡ₚ opsAt c ++ filter (λ op, (lineSpan e).2 ≤ op_start op) ins) as ->.
    { apply filter_split, Forall_forall. intros op Hop. pose proof (Hbehind op Hop). lia. }
    rewrite <-app_assoc. apply Permutation_app_head. cbn [omap list_omap]. destruct (entryEdit d e) as [x|].
    + rewrite numbered_cons, (IH _ (S n)) by done. apply Permutation_middle.
    + by apply IH.
Qed.

(** An edit stays within its line. *)
Lemma entryEdit_span e x : entryEdit d e = Some x →
  (lineSpan e).1 ≤ (valueSpan e).1 → (valueSpan e).1 < (valueSpan e).2 ≤ (lineSpan e).2 →
  (lineSpan e).1 ≤ x.1.1 < x.1.2 ∧ x.1.2 ≤ (lineSpan e).2.
Proof using Type.
  unfold entryEdit. intros Hx H1 H2. case_bool_decide; [injection Hx as <-; simpl; lia|].
  apply fmap_Some in Hx as (r & _ & ->). simpl. lia.
Qed.

Lemma opsAt_elem p op : op ∈ opsAt p → op ∈ ins ∧ op_start op = p.
Proof using Type. unfold opsAt. by intros [? ?]%list_elem_of_filter. Qed.

Lemma planned_start es : ∀ c n x, lines_from len c es → x ∈ planned c n es → c ≤ op_start x.
Proof using Type.
  induction es as [|e es IH]; intros c n x Hl Hx; cbn [planned] in Hx; apply elem_of_app in Hx as [Hx|Hx].
  - apply opsAt_elem in Hx as [_ ->]. done.
  - pose proof (lines_from_le _ _ _ Hl). destruct (_ <? _); [|by apply elem_of_nil in Hx]. apply opsAt_elem in Hx as [_ ->]. done.
  - apply opsAt_elem in Hx as [_ ->]. done.
  - inversion Hl as [|? ? ? H1 H2 H3]; subst. destruct (entryEdit d e) as [y|] eqn:Ey.
    + apply entryEdit_span in Ey; [|lia|lia]. apply elem_of_cons in Hx as [->|Hx]; [simpl; lia|]. apply IH in Hx; [lia|done].
    + apply IH in Hx; [lia|done].
Qed.

Lemma opsAt_sorted p : StronglySorted (λ x y, op_order x ≤ op_order y) ins → StronglySorted opLe (opsAt p).
Proof using Hins.
  intros Hs. assert (∀ x y, x ∈ opsAt p → y ∈ opsAt p → op_order x ≤ op_order y → opLe x y) as Hle.
  { intros x y [Hx Ex]%opsAt_elem [Hy Ey]%opsAt_elem. rewrite Forall_forall in Hins. pose proof (Hins x Hx). pose proof (Hins y Hy).
    unfold opLe. lia. }
  pose proof (StronglySorted_filter _ (λ op, op_start op = p) _ Hs) as Hf. fold (opsAt p) in Hf.
  induction Hf as [|x l Hl IH Hx]; constructor.
  - apply IH. intros y z Hy Hz. apply Hle; by right.
  - rewrite Forall_forall in *. intros y Hy. apply Hle; [left|by right|by apply Hx].
Qed.

Lemma planned_sorted es : ∀ c n, lines_from len c es → StronglySorted (λ x y, op_order x ≤ op_order y) ins →
  StronglySorted opLe (planned c n es).
Proof using Hins.
  induction es as [|e es IH]; intros c n Hl Hs; cbn [planned]; apply StronglySorted_app_2.
  - intros x y Hx Hy. apply opsAt_elem in Hx as [_ Hx]. destruct (Nat.ltb_spec c len); [|by apply elem_of_nil in Hy].
    apply opsAt_elem in Hy as [_ Hy]. left. lia.
  - by apply opsAt_sorted.
  - destruct (_ <? _); [by apply opsAt_sorted|constructor].
  - intros x y [Hxi Hx]%opsAt_elem Hy. inversion Hl as [|? ? ? H1 H2 H3]; subst. rewrite Forall_forall in Hins. specialize (Hins x Hxi).
    destruct (entryEdit d e) as [z|] eqn:Ez.
    + apply entryEdit_span in Ez; [|lia|lia]. apply elem_of_cons in Hy as [->|Hy]; [unfold opLe; simpl; lia|].
      apply planned_start in Hy; [left; lia|done].
    + apply planned_start in Hy; [left; lia|done].
  - by apply opsAt_sorted.
  - inversion Hl as [|? ? ? H1 H2 H3]; subst. destruct (entryEdit d e) as [z|] eqn:Ez; [|by apply IH].
    apply entryEdit_span in Ez; [|lia|lia]. constructor; [by apply IH|]. apply Forall_forall. intros y Hy.
    apply planned_start in Hy; [left; simpl; lia|done].
Qed.
End plan.

(** ** Splicing *)

Section splice.
Context (data : bytes).

Lemma applyOps_skip ops : ∀ c c', c ≤ c' ≤ length data → Forall (λ op, c' ≤ op_start op) ops →
  applyOps data c ops = slice data c c' ++ applyOps data c' ops.
Proof using Type.
  induction ops as [|op ops IH]; intros c c' Hc Hops; cbn [applyOps].
  - rewrite <-!slice_drop. by rewrite slice_app by lia.
  - apply Forall_cons in Hops as [Hop Hops].
    rewrite (proj2 (Nat.ltb_ge (op_start op) c)), (proj2 (Nat.ltb_ge (op_start op) c')) by lia. cbn [orb].
    destruct (_ || _) eqn:E; [by apply IH|]. rewrite <-(slice_app data c c') by lia. by rewrite <-app_assoc.
Qed.

Lemma applyOps_at ops rest c : c ≤ length data → Forall (λ op, op_start op = c ∧ op_end op = c) ops →
  applyOps data c (ops ++ rest) = concat (op_text <$> ops) ++ applyOps data c rest.
Proof using Type.
  intros Hc. induction 1 as [|op ops [Hs He] Hops IH]; [done|]. cbn [app applyOps].
  rewrite Hs, He, Nat.ltb_irrefl, (proj2 (Nat.ltb_ge _ _) Hc), slice_nil, IH. cbn. by rewrite app_assoc.
Qed.
End splice.

Section layout.
Context (isPrintTable : Z → bool) (d : Document).

Abbreviation len := (length (raw d)).

(** The text of the lines inserted at [p], in the order they were inserted. *)
Definition insertedAt (p : nat) : bytes :=
  concat (omap (λ i, match insertionEdit isPrintTable d i with
                     | Some (s, _, text) => if s =? p then Some text else None
                     | None => None
                     end) (insertions d)).

(** The line of an entry: gone, with another value, or as it was. *)
Definition lineText (e : documentEntry) : bytes :=
  if bool_decide (pathKey e ∈ deletions d) then []
  else
    match replacements d !! pathKey e with
    | Some repl => slice (raw d) (lineSpan e).1 (valueSpan e).1 ++ repl ++ slice (raw d) (valueSpan e).2 (lineSpan e).2
    | None => slice (raw d) (lineSpan e).1 (lineSpan e).2
    end.

(** The text from [c] on: what is inserted at [c], the source up to the next line
    of an entry, that line, and so on. *)
Fixpoint layout (c : nat) (es : list documentEntry) : bytes :=
  insertedAt c ++
  match es with
  | [] => drop c (raw d) ++ (if c <? len then insertedAt len else [])
  | e :: es => slice (raw d) c (lineSpan e).1 ++ lineText e ++ layout (lineSpan e).2 es
  end.

(** The operations of the insertions. *)
Definition insertionOps : list documentOp :=
  numbered (length (omap (entryEdit d) (entries d))) (omap (insertionEdit isPrintTable d) (insertions d)).

Lemma documentOps_numbered : documentOps isPrintTable d = numbered 0 (omap (entryEdit d) (entries d)) ++ insertionOps.
Proof using Type.
  unfold insertionOps. rewrite <-(Nat.add_0_l (length (omap _ (entries d)))), <-numbered_app. done.
Qed.

Lemma insertedAt_ops p : insertedAt p = concat (op_text <$> opsAt insertionOps p).
Proof using Type.
  unfold insertedAt, insertionOps, opsAt. generalize (length (omap (entryEdit d) (entries d))) as n.
  induction (insertions d) as [|i il IH]; intros n; [done|]. cbn [omap list_omap].
  destruct (insertionEdit isPrintTable d i) as [[[s e] t]|]; [|apply IH].
  rewrite numbered_cons, filter_cons. destruct (Nat.eqb_spec s p).
  - rewrite decide_True by done. cbn. f_equal. apply IH.
  - rewrite decide_False by done. apply IH.
Qed.

Lemma insertionEdit_place i s e t : insertionEdit isPrintTable d i = Some (s, e, t) →
  e = s ∧ (s = len ∨ ∃ en, en ∈ entries d ∧ s = (lineSpan en).2).
Proof using Type.
  unfold insertionEdit, entryForPathKey. intros H. repeat (case_match; simplify_eq/=; try done); [by auto|].
  split; [done|right]. eexists. split; [by eapply list_elem_of_lookup_2|done].
Qed.

Lemma insertionOps_elem op : op ∈ insertionOps →
  op_end op = op_start op ∧ (op_start op = len ∨ ∃ e, e ∈ entries d ∧ op_start op = (lineSpan e).2).
Proof using Type.
  intros (k & [[s e] t] & Hk & ->)%numbered_elem. simpl.
  apply list_elem_of_lookup_2, list_elem_of_omap in Hk as (i & _ & Hi).
  by apply insertionEdit_place in Hi.
Qed.

Lemma insertionOps_empty : Forall (λ op, op_end op = op_start op) insertionOps.
Proof using Type. apply Forall_forall. intros op Hop. by apply insertionOps_elem. Qed.

Lemma opsAt_empty p : Forall (λ op, op_start op = p ∧ op_end op = p) (opsAt insertionOps p).
Proof using Type.
  apply Forall_forall. intros op [Hop Hs]%opsAt_elem. split; [done|]. apply insertionOps_elem in Hop as [-> _]. done.
Qed.

Lemma applyOps_planned es : ∀ c n, lines_from len c es →
  applyOps (raw d) c (planned d insertionOps c n es) = layout c es.
Proof using Type.
  induction es as [|e es IH]; intros c n Hl; cbn [planned layout]; pose proof (lines_from_le _ _ _ Hl) as Hc;
    rewrite applyOps_at, <-insertedAt_ops by (done || apply opsAt_empty); f_equal.
  - destruct (Nat.ltb_spec c len); [|by rewrite app_nil_r].
    rewrite (applyOps_skip _ _ c len); [|lia|].
    + rewrite <-(app_nil_r (opsAt _ _)), applyOps_at, <-insertedAt_ops by (done || apply opsAt_empty). cbn [applyOps].
      by rewrite slice_drop, drop_all, app_nil_r.
    + eapply Forall_impl; [apply opsAt_empty|]. simpl. intros op [-> _]. done.
  - inversion Hl as [|? ? ? H1 H2 H3]; subst. pose proof (lines_from_le _ _ _ H3) as Hle.
    assert (∀ n', Forall (λ op, (lineSpan e).2 ≤ op_start op) (planned d insertionOps (lineSpan e).2 n' es)) as Hst.
    { intros n'. apply Forall_forall. intros op Hop. by eapply planned_start. }
    unfold lineText, entryEdit. case_bool_decide.
    { cbn [opOf fst snd applyOps op_start op_end op_text].
      rewrite (proj2 (Nat.ltb_ge _ c)), (proj2 (Nat.ltb_ge _ (lineSpan e).1)), (proj2 (Nat.ltb_ge len _)) by lia.
      cbn. by rewrite IH. }
    destruct (replacements d !! pathKey e) as [repl|]; cbn [fmap option_fmap option_map].
    + cbn [opOf fst snd applyOps op_start op_end op_text].
      rewrite (proj2 (Nat.ltb_ge _ c)), (proj2 (Nat.ltb_ge _ (valueSpan e).1)), (proj2 (Nat.ltb_ge len _)) by lia.
      cbn [orb]. rewrite (applyOps_skip _ _ _ (lineSpan e).2) by (done || lia). rewrite IH by done.
      rewrite <-(slice_app _ c (lineSpan e).1) by lia. by rewrite <-!app_assoc.
    + rewrite (applyOps_skip _ _ c (lineSpan e).2) by (done || lia). rewrite IH by done.
      rewrite <-(slice_app _ c (lineSpan e).1) by lia. by rewrite <-!app_assoc.
Qed.

Lemma sorted_ops : lines_from len 0 (entries d) →
  merge_sort opLe (documentOps isPrintTable d) = planned d insertionOps 0 0 (entries d).
Proof using Type.
  intros Hl.
  assert (placed d insertionOps 0 (entries d)) as Hp by (intros op Hop _; by apply insertionOps_elem).
  assert (Forall (λ op, op_start op ≤ len) insertionOps) as Hb.
  { apply Forall_forall. intros op Hop. apply insertionOps_elem in Hop as [_ [->|(e & He & ->)]]; [done|].
    pose proof (lines_from_end _ _ _ _ Hl He). lia. }
  assert (planned d insertionOps 0 0 (entries d) ≡ₚ documentOps isPrintTable d) as Hperm.
  { rewrite planned_perm by done. rewrite documentOps_numbered, Permutation_app_comm. apply Permutation_app_head.
    rewrite filter_all; [done|]. apply Forall_forall. lia. }
  symmetry. apply (StronglySorted_unique_strong opLe).
  - intros x y Hx Hy Hxy Hyx. rewrite Hperm in Hx. rewrite merge_sort_Permutation in Hy.
    rewrite documentOps_numbered in Hx, Hy. unfold insertionOps in Hx, Hy.
    rewrite <-(Nat.add_0_l (length _)), <-numbered_app in Hx, Hy. apply (numbered_inj _ _ _ _ Hx Hy).
    unfold opLe in Hxy, Hyx. lia.
  - apply planned_sorted; [apply insertionOps_empty|done|apply numbered_sorted].
  - by apply StronglySorted_merge_sort; apply _.
  - by rewrite merge_sort_Permutation.
Qed.

(** [Document_Bytes] is the layout; an untouched document is its source. *)
Lemma Document_Bytes_eq : Document_Bytes isPrintTable (Some d) = applyOps (raw d) 0 (merge_sort opLe (documentOps isPrintTable d)).
Proof using Type.
  unfold Document_Bytes. destruct (_ && _) eqn:E; [|done].
  apply andb_prop in E as [[E1 E2]%andb_prop E3]. apply Nat.eqb_eq in E1, E2, E3.
  apply map_size_empty_inv in E1. apply size_empty_inv in E2. apply nil_length_inv in E3.
  assert (documentOps isPrintTable d = []) as ->; [|by cbn; rewrite drop_0].
  unfold documentOps. rewrite E3. assert (omap (entryEdit d) (entries d) = []) as ->; [|done].
  induction (entries d) as [|e es IH]; [done|]. cbn. unfold entryEdit at 1. rewrite E1, lookup_empty, bool_decide_eq_false_2; [done|set_solver].
Qed.
End layout.

(** ** The text of an edited document, entry by entry *)

Section laid.
Context (isPrintTable : Z → bool) (d : Document).

Abbreviation len := (length (raw d)).

(** An insertion goes behind the last entry of its anchor's path, or, without an anchor
    or with the empty key as its anchor, to the end of the
    text, where it starts a new line. *)
Definition at_end (i : documentInsertion) : bool := bool_decide (ins_afterPath i = []).
Definition anchored (e : documentEntry) (later : list documentEntry) (i : documentInsertion) : bool :=
  bool_decide (ins_afterPath i ≠ [] ∧ pathKey e = ins_afterPath i ∧ Forall (λ e', pathKey e' ≠ ins_afterPath i) later).

Definition newLine : bytes := if bool_decide (raw d = [] ∨ last (raw d) = Some LF) then [] else [LF].

(** Its line: the path and the value bound to it, if the value has a text. *)
Definition insertedLine (i : documentInsertion) : option bytes :=
  match pending d !! ins_pathKey i with
  | None => None
  | Some v =>
      match formatDocumentKeyValue isPrintTable (ins_path i) v with
      | Ok text => Some ((if at_end i then newLine else []) ++ text)
      | Err _ => None
      end
  end.

(** The lines of the insertions that [P] selects, in the order of the calls. *)
Definition inserted (P : documentInsertion → bool) : bytes :=
  concat (omap (λ i, if P i then insertedLine i else None) (insertions d)).

(** The text from [c] on: the source up to the line of the next entry, that line, the
    lines inserted behind it, and so on; at the end what is inserted there.  Behind a
    line that reaches the end of the text both come in the order of the calls. *)
Fixpoint laid (c : nat) (es : list documentEntry) : bytes :=
  match es with
  | [] => drop c (raw d) ++ inserted at_end
  | e :: es =>
      slice (raw d) c (lineSpan e).1 ++ lineText d e ++
      (if (lineSpan e).2 =? len then inserted (λ i, anchored e es i || at_end i)
       else inserted (anchored e es) ++ laid (lineSpan e).2 es)
  end.

Context (Hix : indexes (entries d) (byPath d)).

(** The place of an insertion, by the index. *)
Lemma insertionEdit_line i :
  insertionEdit isPrintTable d i =
  if at_end i then (λ t, (len, len, t)) <$> insertedLine i
  else match entryForPathKey d (ins_afterPath i) with
       | Some (_, e) => (λ t, ((lineSpan e).2, (lineSpan e).2, t)) <$> insertedLine i
       | None => None
       end.
Proof using Type.
  unfold insertionEdit, insertedLine, at_end, bytes_eqb.
  destruct (pending d !! ins_pathKey i) as [v|];
    [|destruct (bool_decide (ins_afterPath i = [])), (entryForPathKey d (ins_afterPath i)) as [[? ?]|]; done].
  destruct (formatDocumentKeyValue isPrintTable (ins_path i) v) as [t|];
    [|destruct (bool_decide (ins_afterPath i = [])), (entryForPathKey d (ins_afterPath i)) as [[? ?]|]; done].
  repeat case_bool_decide; try done.
  cbn. do 3 f_equal.
  unfold newLine, endsWithLF. destruct (raw d) as [|b l] eqn:E; [by rewrite bool_decide_eq_true_2 by (by left)|].
  cbn [length Nat.ltb Nat.leb andb]. destruct (last (b :: l)) as [c|] eqn:El; [|by destruct l].
  destruct (Z.eqb_spec c LF) as [->|Hc]; cbn; [by rewrite bool_decide_eq_true_2 by (by right)|].
  rewrite bool_decide_eq_false_2; [done|]. intros [?|?]; congruence.
Qed.

(** The entry of an anchor is the last one with its path. *)
Lemma anchor_last pre e es :
  entries d = pre ++ e :: es → Forall (λ e', pathKey e' ≠ pathKey e) es → entryForPathKey d (pathKey e) = Some (length pre, e).
Proof using Hix.
  intros E Hl. assert (entries d !! length pre = Some e) as He by (rewrite E; by apply list_lookup_middle).
  assert (byPath d !! pathKey e = Some (length pre)) as Hb.
  { apply Hix. split; [by exists e|]. intros j e' Hj He'. rewrite E, cons_middle, app_assoc in He'.
    rewrite lookup_app_r in He' by (rewrite length_app; simpl; lia).
    rewrite Forall_forall in Hl. apply Hl. by eapply list_elem_of_lookup_2. }
  unfold entryForPathKey. by rewrite Hb, He.
Qed.

Lemma anchor_inv k idx e :
  entryForPathKey d k = Some (idx, e) →
  entries d !! idx = Some e ∧ pathKey e = k ∧ Forall (λ e', pathKey e' ≠ k) (drop (S idx) (entries d)).
Proof using Hix.
  unfold entryForPathKey. destruct (byPath d !! k) as [i|] eqn:Hb; [|done]. destruct (entries d !! i) as [e0|] eqn:He; [|done].
  intros [= <- <-]. apply Hix in Hb as [(e1 & He1 & Hk) Hl]. split_and!; [done|congruence|].
  apply Forall_forall. intros e' (j & Hj)%list_elem_of_lookup_1. rewrite lookup_drop in Hj. apply (Hl (S i + j)); [lia|done].
Qed.

Lemma lines_from_app pre es c : lines_from len c (pre ++ es) → ∀ e, e ∈ pre → ∀ e', e' ∈ es → (lineSpan e).2 < (lineSpan e').2.
Proof using Type.
  revert c. induction pre as [|x pre IH]; intros c Hl e He e' He'; [by apply not_elem_of_nil in He|].
  inversion Hl as [|? ? ? H1 H2 H3]; subst. apply elem_of_cons in He as [->|He]; [|by eapply IH].
  apply (lines_from_end _ _ _ _ H3). by apply elem_of_app; right.
Qed.

(** Two entries that end at the same place are the same. *)
Lemma same_end pre e es idx e' :
  lines_from len 0 (entries d) → entries d = pre ++ e :: es → entries d !! idx = Some e' → (lineSpan e').2 = (lineSpan e).2 →
  idx = length pre.
Proof using Type.
  intros Hl E Hi Hs. rewrite E in Hl, Hi. destruct (lt_eq_lt_dec idx (length pre)) as [[Hlt|]|Hgt]; [|done|].
  - rewrite lookup_app_l in Hi by done. apply list_elem_of_lookup_2 in Hi.
    pose proof (lines_from_app _ _ _ Hl e' Hi e ltac:(constructor)). lia.
  - rewrite cons_middle, app_assoc in Hl, Hi. rewrite lookup_app_r in Hi by (rewrite length_app; simpl; lia).
    apply list_elem_of_lookup_2 in Hi.
    pose proof (lines_from_app _ _ _ Hl e ltac:(apply elem_of_app; right; constructor) e' Hi). lia.
Qed.

(** An insertion that is not for the end is placed behind [e] exactly when it is anchored there. *)
Lemma placed_behind pre e es i :
  lines_from len 0 (entries d) → entries d = pre ++ e :: es → at_end i = false →
  match entryForPathKey d (ins_afterPath i) with
  | Some (_, e') => ((lineSpan e').2 =? (lineSpan e).2)
  | None => false
  end = anchored e es i.
Proof using Hix.
  intros Hl E Ha. unfold at_end in Ha. apply bool_decide_eq_false in Ha. unfold anchored.
  destruct (entryForPathKey d (ins_afterPath i)) as [[idx e']|] eqn:Hf.
  - destruct (anchor_inv _ _ _ Hf) as (Hi & Hk & Hlast). case_bool_decide as Hb.
    + destruct Hb as (_ & Hke & Hes). rewrite <-Hke in Hf, Hes. rewrite (anchor_last pre e es) in Hf by done.
      injection Hf as _ <-. apply Nat.eqb_refl.
    + apply Nat.eqb_neq. intros Hs. apply Hb. pose proof (same_end pre e es idx e' Hl E Hi Hs) as ->.
      rewrite E in Hi, Hlast. rewrite list_lookup_middle in Hi by done. injection Hi as <-. split_and!; [done|done|].
      by rewrite cons_middle, app_assoc, drop_app_length' in Hlast by (rewrite length_app; simpl; lia).
  - symmetry. apply bool_decide_eq_false_2. intros (_ & Hke & Hes). rewrite <-Hke in Hf, Hes.
    by rewrite (anchor_last pre e es) in Hf.
Qed.

Lemma insertedAt_ext p P :
  (∀ i, (if at_end i then len =? p
         else match entryForPathKey d (ins_afterPath i) with Some (_, e) => (lineSpan e).2 =? p | None => false end) = P i) →
  insertedAt isPrintTable d p = inserted P.
Proof using Type.
  intros HP. unfold insertedAt, inserted. f_equal. apply list_omap_ext, Forall_Forall2_diag, Forall_true. intros i.
  rewrite insertionEdit_line, <-HP. destruct (at_end i).
  - destruct (insertedLine i); cbn; by destruct (len =? p).
  - destruct (entryForPathKey d (ins_afterPath i)) as [[idx e]|]; [|done].
    destruct (insertedLine i); cbn; by destruct ((lineSpan e).2 =? p).
Qed.

Lemma inserted_ext P Q : (∀ i, P i = Q i) → inserted P = inserted Q.
Proof using Type.
  intros HPQ. unfold inserted. f_equal. apply list_omap_ext, Forall_Forall2_diag, Forall_true. intros i. by rewrite HPQ.
Qed.

Lemma inserted_none P : (∀ i, P i = false) → inserted P = [].
Proof using Type.
  intros HP. unfold inserted. induction (insertions d) as [|i l IH]; [done|]. cbn [omap list_omap]. rewrite HP. exact IH.
Qed.

Lemma anchored_not_end e es i : anchored e es i = true → at_end i = false.
Proof using Type. unfold anchored, at_end. rewrite bool_decide_eq_true, bool_decide_eq_false. tauto. Qed.

(** A place where no line ends. *)
Lemma insertedAt_elsewhere p : Forall (λ e, (lineSpan e).2 ≠ p) (entries d) →
  insertedAt isPrintTable d p = if len =? p then inserted at_end else [].
Proof using Hix.
  intros Hp. rewrite (insertedAt_ext p (λ i, at_end i && (len =? p))).
  - destruct (len =? p); [apply inserted_ext|apply inserted_none]; intros i; by rewrite ?andb_true_r, ?andb_false_r.
  - intros i. destruct (at_end i); [done|]. destruct (entryForPathKey d (ins_afterPath i)) as [[idx e]|] eqn:Hf; [|done].
    apply anchor_inv in Hf as (Hi & _). rewrite Forall_forall in Hp. apply Nat.eqb_neq, Hp. by eapply list_elem_of_lookup_2.
Qed.

Lemma insertedAt_behind pre e es : lines_from len 0 (entries d) → entries d = pre ++ e :: es →
  insertedAt isPrintTable d (lineSpan e).2 =
  if (lineSpan e).2 =? len then inserted (λ i, anchored e es i || at_end i) else inserted (anchored e es).
Proof using Hix.
  intros Hl E. rewrite (insertedAt_ext (lineSpan e).2 (λ i, if at_end i then len =? (lineSpan e).2 else anchored e es i)).
  - rewrite (Nat.eqb_sym (lineSpan e).2). destruct (len =? (lineSpan e).2); apply inserted_ext; intros i;
      pose proof (anchored_not_end e es i) as H; destruct (at_end i), (anchored e es i); done || (specialize (H eq_refl); done).
  - intros i. destruct (at_end i) eqn:Ha; [done|]. by apply (placed_behind pre).
Qed.

Lemma laid_behind es : ∀ pre e, lines_from len 0 (entries d) → entries d = pre ++ e :: es →
  layout isPrintTable d (lineSpan e).2 es =
  (if (lineSpan e).2 =? len then inserted (λ i, anchored e es i || at_end i)
   else inserted (anchored e es) ++ laid (lineSpan e).2 es).
Proof using Hix.
  induction es as [|e' es IH]; intros pre e Hl E; cbn [layout]; rewrite (insertedAt_behind pre e _ Hl E).
  - destruct (Nat.eqb_spec (lineSpan e).2 len) as [->|Hne]; [by rewrite Nat.ltb_irrefl, drop_all, !app_nil_r|].
    assert (e ∈ entries d) as Hin by (rewrite E; apply elem_of_app; right; constructor).
    pose proof (lines_from_end _ _ _ _ Hl Hin) as Hend. rewrite (proj2 (Nat.ltb_lt _ _)) by lia.
    rewrite (insertedAt_elsewhere len), Nat.eqb_refl; [done|]. apply Forall_forall. intros x Hx. rewrite E in Hx, Hl.
    apply elem_of_app in Hx as [Hx|Hx%list_elem_of_singleton]; [|by subst x].
    pose proof (lines_from_app _ _ _ Hl x Hx e ltac:(constructor)). lia.
  - assert (e' ∈ entries d) as Hin by (rewrite E; apply elem_of_app; right; apply elem_of_cons; right; constructor).
    pose proof (lines_from_end _ _ _ _ Hl Hin) as Hend.
    assert ((lineSpan e).2 < (lineSpan e').2) as Hlt.
    { rewrite E, cons_middle, app_assoc in Hl. apply (lines_from_app _ _ _ Hl); [apply elem_of_app; right; constructor|constructor]. }
    rewrite (proj2 (Nat.eqb_neq _ _)) by lia. f_equal. cbn [laid]. do 2 f_equal.
    apply (IH (pre ++ [e])); [done|]. by rewrite <-app_assoc.
Qed.

Lemma layout_laid : lines_from len 0 (entries d) → layout isPrintTable d 0 (entries d) = laid 0 (entries d).
Proof using Hix.
  intros Hl. assert (Forall (λ e, (lineSpan e).2 ≠ 0) (entries d)) as H0.
  { apply Forall_forall. intros e He. pose proof (lines_from_end _ _ _ _ Hl He). lia. }
  pose proof (insertedAt_elsewhere 0 H0) as Hz. pose proof (insertedAt_elsewhere len) as He.
  pose proof laid_behind as Hb. clear Hix. destruct (entries d) as [|e es] eqn:E.
  - cbn [layout laid]. rewrite Hz. destruct (Nat.eqb_spec len 0) as [E0|E0].
    + rewrite E0, Nat.ltb_irrefl, app_nil_r. apply nil_length_inv in E0. rewrite E0. by rewrite app_nil_r.
    + rewrite (proj2 (Nat.ltb_lt _ _)) by lia. rewrite He by constructor.
      by rewrite Nat.eqb_refl.
  - cbn [layout laid]. rewrite Hz. assert (len ≠ 0) as Hne.
    { pose proof (lines_from_end _ _ _ e Hl ltac:(constructor)). lia. }
    rewrite (proj2 (Nat.eqb_neq _ _) Hne). cbn [app]. do 2 f_equal. by apply (Hb es []).
Qed.
End laid.
