(* ===== verification/TomlEditSpec.v ===== *)
(** What the methods of a document promise: they implement a map from paths to
    values, and the text of the document is its source with the edits in place. *)
From stdpp Require Import sorting.
From S2P Require Import Prelude GoUtf8 GoStrconv GoStrings GoQuote Swar Scan TomlBase TomlString TomlKey Decoder DecoderSpec TomlTree TomlDocument TomlMarshal TomlEdit TomlEditPaths TomlEditSpans TomlEditParse TomlEditEntries TomlEditLayout.

(** ** Lines of a document *)

Lemma entry_line data lo e : entry_at data lo e →
  (lineSpan e).1 < (valueSpan e).1 < (valueSpan e).2 ∧ (valueSpan e).2 ≤ (lineSpan e).2 ≤ length data ∧
  ((lineSpan e).1 = 0 ∨ newline_at data ((lineSpan e).1 - 1)) ∧
  ((lineSpan e).2 = length data ∨ newline_at data ((lineSpan e).2 - 1)).
Proof.
  intros [Hv _ (ks & Hks & _ & Hl) _]. destruct (valueSpan e) as [vs ve]. cbn [fst snd] in *. rewrite Hl.
  destruct (lineStart_spec data ks ltac:(lia)) as (H1 & _ & H2).
  destruct (lineEnd_spec data ve ltac:(lia)) as (H3 & H4 & _). unfold lineSpanOf in *. cbn [fst snd] in *.
  split_and!; [lia|lia|lia|lia|done|tauto].
Qed.

Lemma lines_from_spans data lo es hi c : spans data lo es hi → lines_ordered es → c ≤ length data →
  (∀ e, es !! 0 = Some e → c ≤ (lineSpan e).1) → lines_from (length data) c es.
Proof.
  intros Hs. revert c. induction Hs as [|lo e es hi He Hes IH]; intros c Hl Hc H0; [by constructor|].
  pose proof (entry_line _ _ _ He) as Hline. specialize (H0 e eq_refl). constructor; [lia|lia|].
  apply IH; [by intros i a b Ha Hb; eapply (Hl (S i))|lia|]. intros e' He'. by apply (Hl 0).
Qed.

Lemma lines_from_start len c es i e : lines_from len c es → es !! i = Some e → c ≤ (lineSpan e).1.
Proof.
  intros Hl. revert i. induction Hl as [|c e' es H1 H2 Hes IH]; intros i Hi; [done|].
  destruct i as [|i]; [injection Hi as <-; lia|]. specialize (IH i Hi). lia.
Qed.

Lemma lines_from_ordered len c es i j e e' : lines_from len c es → es !! i = Some e → es !! j = Some e' → i < j →
  (lineSpan e).2 ≤ (lineSpan e').1.
Proof.
  intros Hl. revert i j. induction Hl as [|c a es H1 H2 Hes IH]; intros i j Hi Hj Hij; [done|].
  destruct j as [|j]; [lia|]. destruct i as [|i]; [|apply (IH i j); (done || lia)].
  injection Hi as ->. by eapply lines_from_start.
Qed.

(** One element of a list is kept. *)
Lemma omap_single {A B} (f : A → option B) l i x y : l !! i = Some x → f x = Some y →
  (∀ j z, l !! j = Some z → j ≠ i → f z = None) → omap f l = [y].
Proof.
  revert i. induction l as [|a l IH]; intros i Hi Hf Hn; [done|]. destruct i as [|i].
  - injection Hi as ->. cbn. rewrite Hf. f_equal. clear IH. assert (∀ j z, l !! j = Some z → f z = None) as Hl.
    { intros j z Hz. by apply (Hn (S j)). }
    clear Hn. induction l as [|b l IH]; [done|]. cbn. rewrite (Hl 0 b eq_refl). apply IH. intros j z. apply (Hl (S j)).
  - cbn. rewrite (Hn 0 a) by done. apply (IH i); [done|done|]. intros j z Hz Hj. apply (Hn (S j)); [done|congruence].
Qed.

(** ** Calls *)

Inductive call :=
| CallGet (path : bytes)
| CallSet (path : bytes) (v : gval)
| CallInsertAfter (afterPath path : bytes) (v : gval)
| CallDelete (path : bytes).

Section spec.
Context {K : ScanKernels} (isPrintTable : Z → bool).

(** The value a call returns, if any, and the document after it. *)
Definition run (c : call) (d : Document) : result docError (option docValue * Document) :=
  match c with
  | CallGet path => let '(v, d') := Document_Get (Some d) path in Ok (v, match d' with Some d' => d' | None => d end)
  | CallSet path v => rmap (pair None) (Document_Set isPrintTable (Some d) path v)
  | CallInsertAfter afterPath path v => rmap (pair None) (Document_InsertAfter (Some d) afterPath path v)
  | CallDelete path => rmap (pair None) (Document_Delete (Some d) path)
  end.

(** The documents over [data]: parsed, then edited by calls. *)
Inductive edited (data : bytes) : Document → Prop :=
| edited_parsed d : ParseDocument data = Ok d → edited data d
| edited_call d c v d' : edited data d → run c d = Ok (v, d') → edited data d'.

(** ** The abstract document *)

(** The paths of the source, those of them that are deleted, and what is bound. *)
Record adoc := ADoc { a_text : gset bytes; a_gone : gset bytes; a_bind : bytes → option docValue }.

Definition a_same (a b : adoc) : Prop :=
  a_text a = a_text b ∧ a_gone a = a_gone b ∧ ∀ k, a_bind a k = a_bind b k.

Definition bind (k : bytes) (v : option docValue) (m : bytes → option docValue) : bytes → option docValue :=
  λ k', if decide (k' = k) then v else m k'.

Definition pathOf (path : bytes) : result docError bytes :=
  rmap joinDocumentPath (rerr PathError (parseDocumentPath path)).

Definition spec (c : call) (a : adoc) : result docError (option docValue * adoc) :=
  match c with
  | CallGet path => Ok (match pathOf path with Ok k => a_bind a k | Err _ => None end, a)
  | CallSet path v =>
      let! k := pathOf path in
      let! _ := rerr FormatError (formatDocumentValue isPrintTable v) in
      Ok (None, ADoc (a_text a) (a_gone a ∖ {[k]}) (bind k (Some (Given v)) (a_bind a)))
  | CallInsertAfter afterPath path v =>
      let! after := pathOf afterPath in
      if negb (bool_decide (after ∈ a_text a)) then Err (AnchorNotFound afterPath)
      else if bool_decide (after ∈ a_gone a) then Err (AnchorDeleted afterPath)
      else
        let! k := pathOf path in
        Ok (None, if bool_decide (k ∈ a_text a) then a else ADoc (a_text a) (a_gone a) (bind k (Some (Given v)) (a_bind a)))
  | CallDelete path =>
      let! k := pathOf path in
      if bool_decide (k ∈ a_text a) then Ok (None, ADoc (a_text a) ({[k]} ∪ a_gone a) (bind k None (a_bind a)))
      else if a_bind a k is Some _ then Ok (None, ADoc (a_text a) (a_gone a) (bind k None (a_bind a)))
      else Err (PathNotFound path)
  end.

(** What [Get] would return for a path key. *)
Definition entryValue (e : documentEntry) : option docValue :=
  match value e with
  | Some v => Some v
  | None => match parseRawDocumentValue (valueRaw e) with Ok (v, maps) => Some (Parsed v maps) | Err _ => None end
  end.

Definition view (d : Document) (k : bytes) : option docValue :=
  match entryForPathKey d k with
  | None => Given <$> pending d !! k
  | Some (_, e) => if bool_decide (k ∈ deletions d) then None else entryValue e
  end.

Definition abs (d : Document) : adoc := ADoc (dom (byPath d)) (deletions d) (view d).

(** ** The invariant *)

Record doc_inv (data : bytes) (d : Document) : Prop := {
  di_ok : document_ok d;
  di_raw : raw d = data;
  di_lines : closed_document data = true → lines_ordered (entries d);
  di_deleted : deletions d ⊆ dom (byPath d);
  di_replaced : dom (replacements d) ⊆ dom (byPath d);
  di_once : dom (replacements d) ## deletions d;
  di_anchors : Forall (λ i, ins_afterPath i = [] ∨ ins_afterPath i ∈ dom (byPath d)) (insertions d);
  di_pending : dom (pending d) ⊆ list_to_set (ins_pathKey <$> insertions d);
}.

(** Entries that differ in their cached values only. *)
Definition same_spans (e e' : documentEntry) : Prop :=
  pathKey e = pathKey e' ∧ valueRaw e = valueRaw e' ∧ valueSpan e = valueSpan e' ∧ lineSpan e = lineSpan e' ∧ kind e = kind e'.

Lemma setEntryValue_lookup idx v es i e : setEntryValue idx v es !! i = Some e →
  ∃ e0, es !! i = Some e0 ∧ same_spans e0 e ∧ value e = if decide (i = idx) then Some v else value e0.
Proof using Type.
  unfold setEntryValue. rewrite list_lookup_alter. case_decide as E.
  - subst i. intros (e0 & He0 & ->)%fmap_Some. exists e0. by rewrite decide_True.
  - intros He. exists e. rewrite decide_False by congruence. by split_and!.
Qed.

Lemma setEntryValue_same idx v es : Forall2 same_spans es (setEntryValue idx v es).
Proof using Type.
  apply Forall2_same_length_lookup_2; [unfold setEntryValue; by rewrite length_alter|].
  intros i e e' He (e0 & He0 & Hs & _)%setEntryValue_lookup. by simplify_eq.
Qed.

Lemma spans_same data lo es es' hi : Forall2 same_spans es es' → spans data lo es hi → spans data lo es' hi.
Proof using Type.
  intros Hs H. revert es' Hs. induction H as [|lo e es hi [H1 H2 H3 H4] Hes IH]; intros es' Hs.
  - apply Forall2_nil_inv_l in Hs as ->. by constructor.
  - apply Forall2_cons_inv_l in Hs as (e' & es1 & (E1 & E2 & E3 & E4 & E5) & Hs & ->).
    constructor; [split; rewrite <-?E1, <-?E2, <-?E3, <-?E4; done|rewrite <-E3; by apply IH].
Qed.

Lemma indexes_same es es' m : Forall2 same_spans es es' → indexes es m → indexes es' m.
Proof using Type.
  intros Hs H k i. rewrite (H k i). clear H. split.
  - intros [(e & He & Hk) Hlast]. destruct (Forall2_lookup_l _ _ _ _ _ Hs He) as (e' & He' & E & _).
    split; [exists e'; split; [done|congruence]|]. intros j a Hj Ha.
    destruct (Forall2_lookup_r _ _ _ _ _ Hs Ha) as (b & Hb & Eb & _). rewrite <-Eb. by apply (Hlast j b).
  - intros [(e & He & Hk) Hlast]. destruct (Forall2_lookup_r _ _ _ _ _ Hs He) as (e' & He' & E & _).
    split; [exists e'; split; [done|congruence]|]. intros j a Hj Ha.
    destruct (Forall2_lookup_l _ _ _ _ _ Hs Ha) as (b & Hb & Eb & _). rewrite Eb. by apply (Hlast j b).
Qed.

Lemma lines_same es es' : Forall2 same_spans es es' → lines_ordered es → lines_ordered es'.
Proof using Type.
  intros Hs H i a b Ha Hb.
  destruct (Forall2_lookup_r _ _ _ _ _ Hs Ha) as (a0 & Ha0 & _ & _ & _ & Ea & _).
  destruct (Forall2_lookup_r _ _ _ _ _ Hs Hb) as (b0 & Hb0 & _ & _ & _ & Eb & _). rewrite <-Ea, <-Eb. by eapply H.
Qed.

(** A document keeps its source, its index and, up to cached values, its entries. *)
Record keeps (d d' : Document) : Prop := {
  kp_raw : raw d' = raw d;
  kp_index : byPath d' = byPath d;
  kp_entries : Forall2 same_spans (entries d) (entries d');
}.

Lemma keeps_ok data d d' : keeps d d' → doc_inv data d →
  document_ok d' ∧ raw d' = data ∧ (closed_document data = true → lines_ordered (entries d')).
Proof using Type.
  intros [Er Ei Es] [[Hb Hs Hx] Hraw Hl _ _ _ _ _]. split_and!.
  - split; rewrite ?Er, ?Ei; [done|by eapply spans_same|by eapply indexes_same].
  - congruence.
  - intros Hc. eapply lines_same; eauto.
Qed.

Lemma same_spans_refl es : Forall2 same_spans es es.
Proof using Type. induction es; constructor; by try split_and!. Qed.

(** A path key of the index is that of its entry, the last one with it. *)
Lemma entryForPathKey_Some d k idx e : document_ok d → entryForPathKey d k = Some (idx, e) →
  byPath d !! k = Some idx ∧ entries d !! idx = Some e ∧ pathKey e = k.
Proof using Type.
  intros Hok. unfold entryForPathKey. destruct (byPath d !! k) as [i|] eqn:Hi; [|done].
  destruct (entries d !! i) as [e0|] eqn:He; [|done]. intros [= <- <-]. split_and!; [done|done|].
  apply (do_index _ Hok) in Hi as [(e1 & He1 & Hk) _]. congruence.
Qed.

Lemma entryForPathKey_None d k : document_ok d → entryForPathKey d k = None ↔ k ∉ dom (byPath d).
Proof using Type.
  intros Hok. rewrite not_elem_of_dom. unfold entryForPathKey. destruct (byPath d !! k) as [i|] eqn:Hi; [|done].
  pose proof Hi as [(e1 & He1 & _) _]%(do_index _ Hok). by rewrite He1.
Qed.

(** The entry of a path after the value of entry [idx] has been set. *)
Definition cached (v : docValue) (e : documentEntry) : documentEntry :=
  MkEntry (pathKey e) (Some v) (valueRaw e) (valueSpan e) (lineSpan e) (kind e).

Lemma entryForPathKey_set d d' idx v k : byPath d' = byPath d → entries d' = setEntryValue idx v (entries d) →
  entryForPathKey d' k = (λ p, (p.1, if decide (p.1 = idx) then cached v p.2 else p.2)) <$> entryForPathKey d k.
Proof using Type.
  intros Ei Ee. unfold entryForPathKey. rewrite Ei, Ee. destruct (byPath d !! k) as [i|]; [|done].
  unfold setEntryValue. rewrite list_lookup_alter. case_decide as E.
  - subst i. destruct (entries d !! idx); [|done]. simpl. by rewrite decide_True.
  - destruct (entries d !! i); [|done]. simpl. rewrite decide_False by congruence. done.
Qed.

(** ** The calls implement their specification *)

(** The result of a call and what it should be. *)
Definition agrees (r : result docError (option docValue * Document)) (s : result docError (option docValue * adoc)) : Prop :=
  match r, s with
  | Ok (v, d), Ok (v', a) => v = v' ∧ a_same (abs d) a
  | Err e, Err e' => e = e'
  | _, _ => False
  end.

Lemma a_same_refl a : a_same a a.
Proof using Type. by split_and!. Qed.

Section calls.
Context (data : bytes) (d : Document) (Hd : doc_inv data d).

Lemma get_ok path : agrees (run (CallGet path) d) (spec (CallGet path) (abs d)) ∧
  ∀ v d', run (CallGet path) d = Ok (v, d') → doc_inv data d' ∧
    replacements d' = replacements d ∧ deletions d' = deletions d ∧ insertions d' = insertions d ∧ pending d' = pending d ∧ keeps d d'.
Proof using Hd.
  pose proof (di_ok _ _ Hd) as Hok.
  assert (keeps d d) as Hkeep by (split; [done|done|apply same_spans_refl]).
  cbn [run spec]. unfold Document_Get, pathOf.
  destruct (parseDocumentPath path) as [parts|e]; cbn [rerr rmap rbind]; [|by split; [split; [done|apply a_same_refl]|intros ? ? [= <- <-]]].
  change (a_bind (abs d) (joinDocumentPath parts)) with (view d (joinDocumentPath parts)). unfold view.
  destruct (entryForPathKey d (joinDocumentPath parts)) as [[idx entry]|] eqn:He.
  2:{ split; [split; [done|apply a_same_refl]|by intros ? ? [= <- <-]]. }
  destruct (entryForPathKey_Some _ _ _ _ Hok He) as (Hidx & Hent & Hpk). rewrite Hpk.
  case_bool_decide as Hdel; [split; [split; [done|apply a_same_refl]|by intros ? ? [= <- <-]]|]. unfold entryValue.
  destruct (value entry) as [v|] eqn:Hv; [split; [split; [done|apply a_same_refl]|by intros ? ? [= <- <-]]|].
  destruct (parseRawDocumentValue (valueRaw entry)) as [[v maps]|e] eqn:Hp; [|split; [split; [done|apply a_same_refl]|by intros ? ? [= <- <-]]].
  set (d' := with_entries _ d).
  assert (keeps d d') as Hk by (split; [done|done|apply setEntryValue_same]).
  split.
  - split; [done|]. split_and!; [done|done|]. intros k. cbn [abs a_bind]. unfold view.
    rewrite (entryForPathKey_set d d' idx (Parsed v maps)) by done. change (deletions d') with (deletions d).
    destruct (entryForPathKey d k) as [[i e]|] eqn:Hk2; [|done]. cbn [fmap option_fmap option_map fst snd].
    case_bool_decide; [done|]. case_decide; [|done]. subst i.
    destruct (entryForPathKey_Some _ _ _ _ Hok Hk2) as (_ & He2 & _). assert (e = entry) as -> by congruence.
    unfold entryValue. rewrite Hv, Hp. done.
  - intros ? ? [= <- <-]. destruct (keeps_ok _ _ _ Hk Hd) as (? & ? & ?). destruct Hd. by split_and!.
Qed.

(** A value that replaces another fails to format exactly when it does by itself. *)
Lemma formatValueForPath_err k v :
  match formatValueForPath isPrintTable d k v with
  | Ok _ => is_ok (formatDocumentValue isPrintTable v) = true
  | Err e => formatDocumentValue isPrintTable v = Err e
  end.
Proof using Type.
  unfold formatValueForPath.
  assert (match formatDocumentValue isPrintTable v with
          | Ok _ => is_ok (formatDocumentValue isPrintTable v) = true
          | Err e => formatDocumentValue isPrintTable v = Err e
          end) as Hself by (by destruct (formatDocumentValue isPrintTable v)).
  assert (∀ s, asString v = Some s → is_ok (formatDocumentValue isPrintTable v) = true) as Hstr.
  { intros s. unfold asString, formatDocumentValue, dynamic.
    destruct v as [m x| | | | | | | | | | | | | |m [[]|]|]; try done; cbn [writeValue writeSpecialValue metaOf];
      match goal with |- context [named ?m] => by destruct (named m) end. }
  destruct (entryForPathKey d k) as [[idx entry]|]; [|done]. case_bool_decide; [|done].
  destruct (kind entry); try done. destruct (asString v) as [s|] eqn:Hs; [|done]. by eapply Hstr.
Qed.

Lemma addInsertion_inv after key parts v : after = [] ∨ after ∈ dom (byPath d) → doc_inv data (addInsertion after key parts v d).
Proof using Hd.
  intros Ha. set (d' := addInsertion after key parts v d).
  assert (keeps d d') as Hk by (split; [done|done|apply same_spans_refl]).
  destruct (keeps_ok _ _ _ Hk Hd) as (? & ? & ?). destruct Hd. split; try done; simpl.
  - apply Forall_app. split; [done|]. constructor; [exact Ha|constructor].
  - rewrite fmap_app, list_to_set_app_L, dom_insert. set_solver.
Qed.

(** An insertion binds its path, unless the source has it. *)
Lemma addInsertion_view after key parts v k : view (addInsertion after key parts v d) k =
  if bool_decide (key ∈ dom (byPath d)) then view d k else bind key (Some (Given v)) (view d) k.
Proof using Hd.
  pose proof (di_ok _ _ Hd) as Hok. set (d' := addInsertion after key parts v d).
  assert (view d' k = match entryForPathKey d k with
    | None => Given <$> <[key := v]> (pending d) !! k
    | Some (_, e) => if bool_decide (k ∈ deletions d) then None else entryValue e end) as -> by done.
  unfold bind, view. destruct (bool_decide_reflect (key ∈ dom (byPath d))) as [Hin|Hin].
  - destruct (entryForPathKey d k) as [[i e]|] eqn:He; [done|]. apply entryForPathKey_None in He; [|done].
    rewrite lookup_insert_ne; [done|]. by intros ->.
  - apply entryForPathKey_None in Hin; [|done]. case_decide as E.
    + subst k. by rewrite Hin, lookup_insert_eq.
    + by rewrite lookup_insert_ne.
Qed.

Lemma set_ok path v : agrees (run (CallSet path v) d) (spec (CallSet path v) (abs d)) ∧
  ∀ r d', run (CallSet path v) d = Ok (r, d') → doc_inv data d'.
Proof using Hd.
  pose proof (di_ok _ _ Hd) as Hok. cbn [run spec]. unfold Document_Set, pathOf.
  destruct (parseDocumentPath path) as [parts|e]; cbn [rerr rmap rbind]; [|done].
  set (key := joinDocumentPath parts). pose proof (formatValueForPath_err key v) as Hf.
  destruct (formatValueForPath isPrintTable d key v) as [repl|e]; cbn [rerr rbind].
  2:{ rewrite Hf. by split. }
  destruct (formatDocumentValue isPrintTable v) as [b|]; [|done]. cbn [rerr rbind].
  destruct (entryForPathKey d key) as [[idx entry]|] eqn:He; cbn [rmap rbind].
  - destruct (entryForPathKey_Some _ _ _ _ Hok He) as (Hidx & Hent & Hpk).
    assert (key ∈ dom (byPath d)) as Hdom by (by eapply elem_of_dom_2).
    set (d' := MkDocument _ _ _ _ _ _ _).
    assert (keeps d d') as Hk by (split; [done|done|apply setEntryValue_same]). split.
    + split; [done|]. split_and!; [done|done|]. intros k. cbn [abs a_bind]. unfold view, bind.
      rewrite (entryForPathKey_set d d' idx (Given v)) by done.
      change (deletions d') with (deletions d ∖ {[key]}). change (pending d') with (delete key (pending d)).
      destruct (decide (k = key)) as [->|Hne].
      * rewrite He. cbn. rewrite decide_True by done. rewrite bool_decide_eq_false_2 by set_solver. done.
      * destruct (entryForPathKey d k) as [[i e]|] eqn:Hk2; cbn [fmap option_fmap option_map fst snd].
        -- destruct (entryForPathKey_Some _ _ _ _ Hok Hk2) as (_ & He2 & Hp2).
           rewrite decide_False by (intros ->; congruence).
           replace (bool_decide (k ∈ deletions d ∖ {[key]})) with (bool_decide (k ∈ deletions d)); [done|].
           apply bool_decide_ext. set_solver.
        -- by rewrite lookup_delete_ne by done.
    + intros ? ? [= <- <-]. destruct (keeps_ok _ _ _ Hk Hd) as (? & ? & ?). destruct Hd. split; try done; simpl.
      * set_solver.
      * rewrite dom_insert. set_solver.
      * rewrite dom_insert. set_solver.
      * rewrite dom_delete. set_solver.
  - apply entryForPathKey_None in He as Hnone; [|done]. split.
    + split; [done|]. split_and!; [done|cbn; pose proof (di_deleted _ _ Hd); set_solver|].
      intros k. cbn [abs a_bind]. by rewrite addInsertion_view, bool_decide_eq_false_2.
    + intros ? ? [= <- <-]. apply addInsertion_inv. by left.
Qed.

Lemma insertAfter_ok afterPath path v : agrees (run (CallInsertAfter afterPath path v) d) (spec (CallInsertAfter afterPath path v) (abs d)) ∧
  ∀ r d', run (CallInsertAfter afterPath path v) d = Ok (r, d') → doc_inv data d'.
Proof using Hd.
  cbn [run spec]. unfold Document_InsertAfter, pathOf.
  destruct (parseDocumentPath afterPath) as [aparts|e]; cbn [rerr rmap rbind]; [|done].
  set (after := joinDocumentPath aparts). cbn [abs a_text a_gone].
  destruct (byPath d !! after) as [i|] eqn:Ha.
  2:{ apply not_elem_of_dom in Ha. by rewrite (bool_decide_eq_false_2 _ Ha). }
  apply elem_of_dom_2 in Ha. rewrite (bool_decide_eq_true_2 _ Ha). cbn [negb].
  case_bool_decide as Hdel; [done|].
  destruct (parseDocumentPath path) as [parts|e]; cbn [rerr rmap rbind]; [|done]. split.
  - split; [done|]. split_and!; [by case_bool_decide|by case_bool_decide|]. intros k. cbn [abs a_bind].
    rewrite addInsertion_view. by destruct (bool_decide (_ ∈ dom (byPath d))).
  - intros ? ? [= <- <-]. apply addInsertion_inv. by right.
Qed.

Lemma delete_ok path : agrees (run (CallDelete path) d) (spec (CallDelete path) (abs d)) ∧
  ∀ r d', run (CallDelete path) d = Ok (r, d') → doc_inv data d'.
Proof using Hd.
  pose proof (di_ok _ _ Hd) as Hok. cbn [run spec]. unfold Document_Delete, pathOf.
  destruct (parseDocumentPath path) as [parts|e]; cbn [rerr rmap rbind]; [|done].
  set (key := joinDocumentPath parts). cbn [abs a_text a_gone a_bind].
  destruct (byPath d !! key) as [i|] eqn:Ha; [apply elem_of_dom_2 in Ha as Hdom|apply not_elem_of_dom in Ha as Hdom].
  - rewrite (bool_decide_eq_true_2 _ Hdom). cbn [rmap rbind]. set (d' := MkDocument _ _ _ _ _ _ _).
    assert (keeps d d') as Hk by (split; [done|done|apply same_spans_refl]). split.
    + split; [done|]. split_and!; [done|done|]. intros k. cbn [abs a_bind]. unfold bind.
      assert (view d' k = match entryForPathKey d k with
        | None => Given <$> pending d !! k
        | Some (_, e) => if bool_decide (k ∈ {[key]} ∪ deletions d) then None else entryValue e end) as -> by done.
      unfold view. case_decide as E.
      * subst k. destruct (entryForPathKey d key) as [[i' e]|] eqn:He; [by rewrite bool_decide_eq_true_2 by set_solver|].
        by apply entryForPathKey_None in He.
      * destruct (entryForPathKey d k) as [[i' e]|]; [|done].
        replace (bool_decide (k ∈ {[key]} ∪ deletions d)) with (bool_decide (k ∈ deletions d)); [done|].
        apply bool_decide_ext. set_solver.
    + intros ? ? [= <- <-]. destruct (keeps_ok _ _ _ Hk Hd) as (? & ? & ?). destruct Hd. split; try done; simpl.
      * set_solver.
      * rewrite dom_delete. set_solver.
      * rewrite dom_delete. set_solver.
  - rewrite (bool_decide_eq_false_2 _ Hdom). apply entryForPathKey_None in Hdom; [|done].
    unfold view at 1. rewrite Hdom. destruct (pending d !! key) as [v|] eqn:Hpd; cbn [fmap option_fmap option_map rmap rbind]; [|done].
    set (d' := MkDocument _ _ _ _ _ _ _).
    assert (keeps d d') as Hk by (split; [done|done|apply same_spans_refl]). split.
    + split; [done|]. split_and!; [done|done|]. intros k. cbn [abs a_bind]. unfold bind.
      assert (view d' k = match entryForPathKey d k with
        | None => Given <$> delete key (pending d) !! k
        | Some (_, e) => if bool_decide (k ∈ deletions d) then None else entryValue e end) as -> by done.
      unfold view. case_decide as E; [subst k; by rewrite Hdom, lookup_delete_eq|by rewrite lookup_delete_ne].
    + intros ? ? [= <- <-]. destruct (keeps_ok _ _ _ Hk Hd) as (? & ? & ?). destruct Hd. split; try done; simpl.
      rewrite dom_delete. set_solver.
Qed.
End calls.

Lemma edited_inv data d : Forall is_byte data → edited data d → doc_inv data d.
Proof using Type.
  intros Hb. induction 1 as [d Hp|d c v d' _ IH Hr].
  - destruct (ParseDocument_ok data d Hb Hp) as (Hok & Hraw & Hr & Hdel & Hi & Hpd & Hl).
    split; rewrite ?Hr, ?Hdel, ?Hi, ?Hpd, ?dom_empty_L; (done || set_solver).
  - destruct c.
    + destruct (get_ok data d IH path) as [_ H]. by destruct (H _ _ Hr).
    + exact (proj2 (set_ok data d IH path v0) _ _ Hr).
    + exact (proj2 (insertAfter_ok data d IH afterPath path v0) _ _ Hr).
    + exact (proj2 (delete_ok data d IH path) _ _ Hr).
Qed.

Lemma edited_lines data d : doc_inv data d → closed_document data = true → lines_from (length (raw d)) 0 (entries d).
Proof using Type. intros Hd Hc. eapply lines_from_spans; [apply (di_ok _ _ Hd)|by apply Hd|lia|intros; lia]. Qed.

(** ** Properties *)

(** C4: the methods of a document implement a map from paths to values over the
    paths of the source: after any sequence of calls, [Get] returns what is bound,
    [Set] binds, [Delete] unbinds, [InsertAfter] binds a path the source does not
    have, and each fails exactly when the specification does, with its error.
    Neither caching a parsed value nor the three tables of edits can be observed. *)
Theorem document_refines data d c :
  Forall is_byte data → edited data d →
  agrees (run c d) (spec c (abs d)).
Proof using Type.
  intros Hb Hd%edited_inv; [|done]. destruct c; [by eapply get_ok|by eapply set_ok|by eapply insertAfter_ok|by eapply delete_ok].
Qed.

(** What a call that succeeds adds to the edits: a new value for an entry, whose line
    is then no longer deleted, an insertion for the end of the text or behind the entry
    of the anchor, the deletion of an entry or of an insertion. *)
Definition noted (c : call) (d d' : Document) : Prop :=
  match c with
  | CallGet _ => replacements d' = replacements d ∧ deletions d' = deletions d ∧ insertions d' = insertions d ∧ pending d' = pending d
  | CallSet path v =>
      ∃ parts, parseDocumentPath path = Ok parts ∧
      let k := joinDocumentPath parts in
      (k ∈ dom (byPath d) →
        (∃ repl, formatValueForPath isPrintTable d k v = Ok repl ∧ replacements d' = <[k := repl]> (replacements d)) ∧
        deletions d' = deletions d ∖ {[k]} ∧ insertions d' = insertions d) ∧
      (k ∉ dom (byPath d) →
        replacements d' = replacements d ∧ deletions d' = deletions d ∧
        insertions d' = insertions d ++ [MkInsertion [] k parts v] ∧ pending d' !! k = Some v)
  | CallInsertAfter afterPath path v =>
      ∃ after parts, pathOf afterPath = Ok after ∧ parseDocumentPath path = Ok parts ∧
      let k := joinDocumentPath parts in
      replacements d' = replacements d ∧ deletions d' = deletions d ∧
      insertions d' = insertions d ++ [MkInsertion after k parts v] ∧ pending d' !! k = Some v
  | CallDelete path =>
      ∃ k, pathOf path = Ok k ∧ insertions d' = insertions d ∧
      (k ∈ dom (byPath d) → replacements d' = delete k (replacements d) ∧ deletions d' = {[k]} ∪ deletions d) ∧
      (k ∉ dom (byPath d) → replacements d' = replacements d ∧ deletions d' = deletions d ∧ pending d' !! k = None)
  end.

Lemma run_noted data d c v d' : doc_inv data d → run c d = Ok (v, d') → noted c d d'.
Proof using Type.
  intros Hd. pose proof (di_ok _ _ Hd) as Hok.
  destruct c as [path|path x|afterPath path x|path]; cbn [run noted]; unfold pathOf.
  - unfold Document_Get. destruct (parseDocumentPath path); [|by intros [= <- <-]].
    destruct (entryForPathKey d _) as [[idx e]|]; [|by intros [= <- <-]]. case_bool_decide; [by intros [= <- <-]|].
    destruct (value e); [by intros [= <- <-]|]. by destruct (parseRawDocumentValue _) as [[? ?]|]; intros [= <- <-].
  - unfold Document_Set. destruct (parseDocumentPath path) as [parts|]; cbn [rerr rbind]; [|done].
    destruct (formatValueForPath isPrintTable d _ x) as [repl|] eqn:Hf; cbn [rerr rbind]; [|done]. intros Hr. exists parts.
    split; [done|]. destruct (entryForPathKey d _) as [[idx e]|] eqn:He; injection Hr as <- <-.
    + apply entryForPathKey_Some in He as (Hin%elem_of_dom_2 & _); [|done]. split; [|done]. intros _. split; [by exists repl|done].
    + apply entryForPathKey_None in He; [|done]. split; [done|]. intros _. split_and!; [done..|]. apply lookup_insert_eq.
  - unfold Document_InsertAfter. destruct (parseDocumentPath afterPath) as [aparts|]; cbn [rerr rmap rbind]; [|done].
    destruct (byPath d !! _); [|done]. case_bool_decide; [done|].
    destruct (parseDocumentPath path) as [parts|]; cbn [rerr rmap rbind]; [|done]. intros [= <- <-].
    eexists _, parts. split_and!; [done..|]. apply lookup_insert_eq.
  - unfold Document_Delete. destruct (parseDocumentPath path) as [parts|]; cbn [rerr rmap rbind]; [|done]. intros Hr.
    exists (joinDocumentPath parts). split; [done|]. destruct (byPath d !! _) eqn:Hb.
    + injection Hr as <- <-. apply elem_of_dom_2 in Hb. by split_and!.
    + apply not_elem_of_dom in Hb. destruct (pending d !! _); [|done]. injection Hr as <- <-. split_and!; [done..|].
      intros _. split_and!; [done..|]. apply lookup_delete_eq.
Qed.


(** A single edit of a parsed document is minimal, whatever the document:
    setting a path that one entry has replaces the bytes of its value and no others,
    deleting it removes its line and nothing else. *)
Theorem single_edit data d path key i e :
  Forall is_byte data → ParseDocument data = Ok d → pathOf path = Ok key →
  entries d !! i = Some e → pathKey e = key →
  (∀ j e', entries d !! j = Some e' → pathKey e' = key → j = i) →
  (∀ v d', Document_Set isPrintTable (Some d) path v = Ok d' →
    ∃ repl, formatValueForPath isPrintTable d key v = Ok repl ∧
      Document_Bytes isPrintTable (Some d') = take (valueSpan e).1 data ++ repl ++ drop (valueSpan e).2 data) ∧
  (∃ d', Document_Delete (Some d) path = Ok d' ∧
      Document_Bytes isPrintTable (Some d') = take (lineSpan e).1 data ++ drop (lineSpan e).2 data).
Proof using Type.
  intros Hb Hp Hkey He Hk Huniq. destruct (ParseDocument_ok data d Hb Hp) as (Hok & Hraw & Hr & Hdel & Hi & Hpd & _).
  pose proof (do_spans _ Hok) as Hs. rewrite Hraw in Hs.
  pose proof (entry_line _ _ _ (spans_lookup _ _ _ _ _ _ Hs He)) as Hline.
  assert (byPath d !! key = Some i) as Hix.
  { apply (do_index _ Hok). split; [by exists e|]. intros j e' Hj He' Hk'. apply Huniq in He'; [lia|done]. }
  assert (entryForPathKey d key = Some (i, e)) as Hent by (unfold entryForPathKey; by rewrite Hix, He).
  assert (∀ d' s t text, raw d' = data → insertions d' = [] → omap (entryEdit d') (entries d') = [(s, t, text)] → s < t ≤ length data →
    Document_Bytes isPrintTable (Some d') = take s data ++ text ++ drop t data) as Hone.
  { intros d' s t text E1 E2 E3 Hst. rewrite Document_Bytes_eq. unfold documentOps. rewrite E1, E2, E3.
    change (merge_sort opLe _) with [MkOp s t text 0]. cbn [applyOps op_start op_end op_text].
    rewrite (proj2 (Nat.ltb_ge s 0)), (proj2 (Nat.ltb_ge t s)), (proj2 (Nat.ltb_ge (length data) t)) by lia.
    cbn [orb]. by rewrite slice_take. }
  unfold Document_Set, Document_Delete. unfold pathOf in Hkey.
  destruct (parseDocumentPath path) as [parts|]; [|done]. cbn [rerr rbind rmap] in *. injection Hkey as ->. split.
  - intros v d' Hset. destruct (formatValueForPath isPrintTable d key v) as [repl|]; [|done]. cbn [rerr rbind] in Hset.
    rewrite Hent in Hset. injection Hset as <-. exists repl. split; [done|]. apply Hone; [done|done| |lia].
    cbn [entries]. apply (omap_single _ _ i (cached (Given v) e)).
    + unfold setEntryValue. rewrite list_lookup_alter_eq, He. done.
    + unfold entryEdit. cbn. rewrite Hdel, Hr, Hk, lookup_insert_eq. rewrite bool_decide_eq_false_2 by set_solver.
      cbn. by destruct (valueSpan e).
    + intros j z (z0 & Hz0 & (E & _) & _)%setEntryValue_lookup Hj. unfold entryEdit. cbn. rewrite Hdel, Hr.
      rewrite bool_decide_eq_false_2 by set_solver. rewrite lookup_insert_ne, lookup_empty; [done|].
      intros Hz. apply Hj. apply (Huniq _ z0); [done|congruence].
  - rewrite Hix. eexists. split; [done|]. rewrite <-(app_nil_l (drop _ _)). apply Hone; [done|done| |lia].
    cbn [entries]. apply (omap_single _ _ i e); [done| |].
    + unfold entryEdit. cbn. rewrite Hk. rewrite bool_decide_eq_true_2 by set_solver. by destruct (lineSpan e).
    + intros j z Hz Hj. unfold entryEdit. cbn. rewrite Hdel, Hr, delete_empty, lookup_empty.
      rewrite bool_decide_eq_false_2; [done|]. intros Hin. apply Hj, (Huniq _ z); [done|]. set_solver.
Qed.
End spec.

(** C6: what [ParseDocument] records of a source.  The text of a value is the
    source at its span; a line contains its value and runs from the start of a line
    to the end of one; values come in the order of the source and do not overlap, and
    neither do lines when the values leave no container open; the index maps a path
    to its last entry.  A source without lone carriage returns is always parsed to an
    end. *)
Theorem ParseDocument_spans {K : ScanKernels} data :
  Forall is_byte data →
  (∀ d, ParseDocument data = Ok d →
    raw d = data ∧
    (∀ i e, entries d !! i = Some e →
      valueRaw e = slice data (valueSpan e).1 (valueSpan e).2 ∧
      (lineSpan e).1 < (valueSpan e).1 < (valueSpan e).2 ∧ (valueSpan e).2 ≤ (lineSpan e).2 ≤ length data ∧
      ((lineSpan e).1 = 0 ∨ newline_at data ((lineSpan e).1 - 1)) ∧
      ((lineSpan e).2 = length data ∨ newline_at data ((lineSpan e).2 - 1))) ∧
    (∀ i j e e', entries d !! i = Some e → entries d !! j = Some e' → i < j →
      (valueSpan e).2 < (valueSpan e').1 ∧
      (closed_document data = true → (lineSpan e).2 ≤ (lineSpan e').1)) ∧
    (∀ k i, byPath d !! k = Some i ↔
      (∃ e, entries d !! i = Some e ∧ pathKey e = k) ∧ (∀ j e, i < j → entries d !! j = Some e → pathKey e ≠ k))) ∧
  (no_lone_CR data → ParseDocument data ≠ Err OutOfFuel).
Proof.
  intros Hb. split.
  - intros d Hp. destruct (ParseDocument_ok data d Hb Hp) as (Hok & Hraw & _ & _ & _ & _ & Hl).
    pose proof (do_spans _ Hok) as Hs. rewrite Hraw in Hs. split_and!; [done| | |apply Hok].
    + intros i e He. pose proof (spans_lookup _ _ _ _ _ _ Hs He) as Hat. split; [apply Hat|by eapply entry_line].
    + intros i j e e' He He' Hij. split; [by eapply spans_ordered|]. intros Hc.
      eapply (lines_from_ordered (length data) 0); [|done|done|done].
      eapply lines_from_spans; [done|by apply Hl|lia|intros; lia].
  - intros Hcr. unfold ParseDocument.
    pose proof (documentStatements_returns data Hcr Hb (S (length data)) _ _ (emptyParsing_parsed data Hb)) as Hn.
    unfold emptyParsing in Hn. destruct (documentStatements _ _ _ _); simpl; [done|]. intros [= ->]. apply Hn; [lia|done].
Qed.


(** ** Witnesses *)

Definition lines (l : list bytes) : bytes := concat ((λ s, s ++ [LF]) <$> l).

Definition sample_source : bytes :=
  Eval vm_compute in lines [str "# settings"; str "name = 'old' # keep"; str "[server]"; str "port = 80"; str "host.name = 'a'"].

Definition someInt (z : Z) : gval := GInt (predeclared "int") z.
Definition someString (s : bytes) : gval := GString (predeclared "string") s.

(** Calls one after the other; one that fails changes nothing. *)
Definition runs (cs : list call) (d : Document) : Document :=
  foldl (λ d c, match run (K := swar_kernels) (λ _, true) c d with Ok (_, d') => d' | Err _ => d end) d cs.

Definition no_document : Document := MkDocument [] [] ∅ ∅ ∅ [] ∅.
Definition parse (data : bytes) : Document :=
  match ParseDocument (K := swar_kernels) data with Ok d => d | Err _ => no_document end.

Definition sample_calls : list call :=
  [CallSet (str "name") (someString (str "new")); CallDelete (str "server.port");
   CallInsertAfter (str "name") (str "size") (someInt 3); CallGet (str "server.host.name")].

Lemma runs_edited data cs d : edited (K := swar_kernels) (λ _, true) data d → edited (K := swar_kernels) (λ _, true) data (runs cs d).
Proof.
  revert d. induction cs as [|c cs IH]; intros d Hd; [done|]. apply IH.
  destruct (run (λ _, true) c d) as [[v d']|] eqn:E; [by eapply edited_call|done].
Qed.

Lemma sample_edited : edited (K := swar_kernels) (λ _, true) sample_source (runs sample_calls (parse sample_source)).
Proof. apply runs_edited, edited_parsed. by vm_compute. Qed.

Lemma sample_source_bytes : Forall is_byte sample_source.
Proof. by apply (bool_decide_unpack _). Qed.

Lemma document_refines_witness :
  agrees (K := swar_kernels)
    (run (K := swar_kernels) (λ _, true) (CallDelete (str "server.port")) (parse sample_source))
    (spec (K := swar_kernels) (λ _, true) (CallDelete (str "server.port")) (abs (K := swar_kernels) (parse sample_source))).
Proof.
  apply (document_refines (K := swar_kernels) (λ _, true) sample_source); [by apply sample_source_bytes|].
  apply edited_parsed. by vm_compute.
Defined.


Lemma ParseDocument_spans_witness : ParseDocument (K := swar_kernels) sample_source ≠ Err OutOfFuel.
Proof.
  apply (ParseDocument_spans (K := swar_kernels) sample_source); [by apply sample_source_bytes|].
  intros i Hi. exfalso. assert (CR ∈ sample_source) as Hin by (by eapply list_elem_of_lookup_2).
  revert Hin. by apply (bool_decide_unpack _).
Defined.

Definition sample_entry : documentEntry := default (MkEntry [] None [] (0, 0) (0, 0) documentKindInvalid) (entries (parse sample_source) !! 1).

Lemma single_edit_witness : ∃ d',
  Document_Delete (K := swar_kernels) (Some (parse sample_source)) (str "server.port") = Ok d' ∧
  Document_Bytes (λ _, true) (Some d') = take (lineSpan sample_entry).1 sample_source ++ drop (lineSpan sample_entry).2 sample_source.
Proof.
  destruct (single_edit (K := swar_kernels) (λ _, true) sample_source (parse sample_source) (str "server.port")
    (joinDocumentPath [str "server"; str "port"]) 1 sample_entry) as [_ H]; [by apply sample_source_bytes|by vm_compute..| |exact H].
  intros j e' Hj. vm_compute in Hj. destruct j as [|[|[|j]]]; [|done| |done]; injection Hj as <-; by vm_compute.
Defined.

(** ** What edits can do to a document *)

Definition editedText (d : Document) : bytes := Document_Bytes (λ _, true) (Some d).
Definition getAt (d : Document) (path : string) : option docValue := (Document_Get (K := swar_kernels) (Some d) (str path)).1.

(** A new path is written at the end of the text, where it belongs to the last
    table: read back, it is another path. *)
Example set_under_table :
  let d := runs [CallSet (str "b") (someInt 2)] (parse (lines [str "[t]"; str "a = 1"])) in
  getAt d "b" = Some (Given (someInt 2)) ∧ getAt (parse (editedText d)) "b" = None ∧ getAt (parse (editedText d)) "t.b" = Some (Parsed (VInt 2) []).
Proof. by vm_compute. Qed.

(** A line inserted behind a last line without a line end is glued to it. *)
Example insert_behind_last_line :
  editedText (runs [CallInsertAfter (str "a") (str "b") (someInt 2)] (parse (str "a = 1"))) = str "a = 1b = 2" ++ [LF].
Proof. by vm_compute. Qed.

(** Setting a new path twice writes it twice, with the second value. *)
Example set_new_twice :
  editedText (runs [CallSet (str "b") (someInt 2); CallSet (str "b") (someInt 3)] (parse (lines [str "a = 1"]))) =
    lines [str "a = 1"; str "b = 3"; str "b = 3"].
Proof. by vm_compute. Qed.

(** [InsertAfter] accepts a value that has no text, and the text leaves it out. *)
Example insert_without_text :
  let v := GOther (Meta (str "chan int") false None) true false in
  let d := runs [CallInsertAfter (str "a") (str "b") v] (parse (lines [str "a = 1"])) in
  getAt d "b" = Some (Given v) ∧ editedText d = lines [str "a = 1"].
Proof. by vm_compute. Qed.

(** Under a header stray brackets and braces are ignored, so the entries of a
    misplaced inline table are entries of the table, and deleting one of them
    deletes the line with all of them. *)
Example stray_brace :
  let d := parse (lines [str "[t]"; str "{ a = 1, b = 2 }"]) in
  closed_document (K := swar_kernels) (raw d) = false ∧ is_ok (parseDocument (K := swar_kernels) id (raw d) [] None) = true ∧ getAt d "t.b" = Some (Parsed (VInt 2) []) ∧
  editedText (runs [CallDelete (str "t.a")] d) = lines [str "[t]"].
Proof. by vm_compute. Qed.
