(* ===== verification/LlmUtil.v ===== *)
(** Utilities the clients of pkg/llm share: the bounded line buffer (stderr.go,
    linebuffer.go) and the retry loop (retry.go). *)
From Stdlib Require Import QArith.
From S2P Require Import Prelude.

Module LlmUtil.
Local Open Scope nat_scope.

(** ** stderr.go and linebuffer.go *)

(** [copy(lines, lines[1:])] moves every line one place to the front and leaves the
    last one; [lines[maxLines-1] = line] overwrites that place. *)
Definition AppendBoundedLine (lines : list bytes) (line : bytes) (maxLines : Z) : list bytes :=
  if (maxLines ≤b 0) then take 0 lines
  else if (Z.of_nat (length lines) <b maxLines) then lines ++ [line]
  else <[Z.to_nat (maxLines - 1) := line]> (drop 1 lines ++ drop (length lines - 1) lines).

Definition Tail (lines : list bytes) (limit : Z) : bytes :=
  let limit := Z.min (Z.max limit 0) (Z.of_nat (length lines)) in
  join [LF] (drop (length lines - Z.to_nat limit) lines).

Record LineBuffer := MkLineBuffer { blines : list bytes; bmax : Z }.

Definition NewLineBuffer (maxLines : Z) : LineBuffer := MkLineBuffer [] maxLines.

Definition Append (b : LineBuffer) (line : bytes) : LineBuffer :=
  MkLineBuffer (AppendBoundedLine (blines b) line (bmax b)) (bmax b).

Definition LineBuffer_Tail (b : LineBuffer) (n : Z) : bytes := Tail (blines b) n.

Definition Lines (b : LineBuffer) : list bytes := blines b.

(** The last [n] elements. *)
Definition lastn {A} (n : nat) (l : list A) : list A := drop (length l - n) l.

Lemma AppendBoundedLine_lastn n lines line :
  AppendBoundedLine (lastn n lines) line (Z.of_nat n) = lastn n (lines ++ [line]).
Proof.
  unfold AppendBoundedLine, lastn. rewrite length_drop, length_app. cbn [length].
  destruct (Z.leb_spec (Z.of_nat n) 0).
  { rewrite !drop_ge by (rewrite ?length_app; simpl; lia). by rewrite take_0. }
  destruct (Z.ltb_spec (Z.of_nat (length lines - (length lines - n))) (Z.of_nat n)) as [Hlt|Hge].
  - replace (length lines - n) with 0 by lia. replace (length lines + 1 - n) with 0 by lia. done.
  - replace (Z.to_nat (Z.of_nat n - 1)) with (length (drop 1 (drop (length lines - n) lines)) + 0)
      by (rewrite !length_drop; lia).
    rewrite insert_app_r, drop_app_le by lia. rewrite !drop_drop. f_equal.
    + f_equal. lia.
    + destruct (drop (length lines - n + (length lines - (length lines - n) - 1)) lines) as [|x l] eqn:E.
      { apply (f_equal length) in E. rewrite length_drop in E. simpl in E. lia. }
      apply (f_equal length) in E. rewrite length_drop in E. simpl in E. destruct l; [done|simpl in E; lia].
Qed.

(** A line buffer keeps exactly the last lines: after any appends it holds the
    last [maxLines] of them in order (none when the bound is not positive), and its
    tail joins the last of those. *)
Theorem lineBuffer_last (maxLines limit : Z) ls :
  let b := foldl Append (NewLineBuffer maxLines) ls in
  Lines b = lastn (Z.to_nat maxLines) ls ∧
  LineBuffer_Tail b limit = join [LF] (lastn (Z.to_nat limit) (lastn (Z.to_nat maxLines) ls)).
Proof.
  intros b. assert (Lines b = lastn (Z.to_nat maxLines) ls ∧ bmax b = maxLines) as [Hl Hm].
  { subst b. induction ls as [|l ls [IH Hm]] using rev_ind; [done|]. rewrite foldl_app. cbn [foldl].
    set (b := foldl Append (NewLineBuffer maxLines) ls) in *. unfold Append, Lines in *. cbn [blines bmax].
    rewrite Hm, IH. split; [|done]. rewrite <-AppendBoundedLine_lastn.
    destruct (Z.le_gt_cases maxLines 0); [|by rewrite Z2Nat.id by lia].
    unfold AppendBoundedLine.
    by destruct (Z.leb_spec maxLines 0), (Z.leb_spec (Z.of_nat (Z.to_nat maxLines)) 0); try lia. }
  split; [done|]. unfold LineBuffer_Tail. fold (Lines b). rewrite Hl.
  generalize (lastn (Z.to_nat maxLines) ls). intros L. unfold Tail, lastn. do 2 f_equal. lia.
Qed.

(** ** retry.go *)

(** The jitter ratio is a rational: it is only compared. *)
(** A [float64]: a number, an infinity or NaN, which compares false with everything. *)
Inductive ratio := Finite (q : Q) | Infinite (negative : bool) | NaN.

Definition ratio_gt (x : ratio) (q : Q) : bool :=
  match x with Finite p => negb (Qle_bool p q) | Infinite negative => negb negative | NaN => false end.
Definition ratio_lt (x : ratio) (q : Q) : bool :=
  match x with Finite p => negb (Qle_bool q p) | Infinite negative => negative | NaN => false end.
Definition ratio_eq (x : ratio) (q : Q) : bool := match x with Finite p => Qeq_bool p q | _ => false end.

Record RetryConfig := MkRetryConfig { MaxAttempts : Z; InitialDelay : Z; MaxDelay : Z; JitterRatio : ratio }.

Definition WithDefaults (cfg : RetryConfig) : RetryConfig :=
  MkRetryConfig
    (if MaxAttempts cfg =b 0 then 3 else MaxAttempts cfg)%Z
    (if InitialDelay cfg =b 0 then 250 * 1000000 else InitialDelay cfg)%Z
    (if MaxDelay cfg =b 0 then 2 * 1000000000 else MaxDelay cfg)%Z
    (if ratio_eq (JitterRatio cfg) 0 then Finite (1 # 5) else if ratio_lt (JitterRatio cfg) 0 then Finite 0 else JitterRatio cfg).

Inductive retryError {E : Type} := JitterOutOfRange (r : ratio) | TooFewAttempts | OpError (e : E) | ContextError.
Arguments retryError : clear implicits.

Definition Validate {E} (cfg : RetryConfig) : result (retryError E) unit :=
  if ratio_gt (JitterRatio cfg) 1 then Err (JitterOutOfRange (JitterRatio cfg))
  else if (MaxAttempts cfg <b 1) then Err TooFewAttempts
  else Ok tt.

Definition int64 (n : Z) : Z := ((n + 2 ^ 63) mod 2 ^ 64 - 2 ^ 63)%Z.

Section retry.
Context {E T : Type} (cfg : RetryConfig).
(** The [n]-th call of the operation, which errors are worth a retry, whether the
    context is done during the [n]-th sleep, and the jittered duration of the [n]-th
    sleep: float arithmetic on a random number. *)
Context (op : nat → result E T) (retryable : E → bool) (cancelled : nat → bool) (jittered : nat → Z → Z).

(** The sleep before retry [n] and the next delay. *)
Definition SleepDelay (n : nat) (delay : Z) : Z * result (retryError E) Z :=
  let delay := if (MaxDelay cfg <b delay) then MaxDelay cfg else delay in
  let sleepFor := if ratio_gt (JitterRatio cfg) 0 then jittered n delay else delay in
  let sleepFor := Z.min (Z.max 0 sleepFor) (MaxDelay cfg) in
  if (0 <b sleepFor) && cancelled n then (sleepFor, Err ContextError)
  else
    let delay := int64 (delay * 2) in
    (sleepFor, Ok (if (MaxDelay cfg <b delay) then MaxDelay cfg else delay)).

(** The loop from call [attempt], [remaining] calls being allowed after it: the sleeps
    and the result. *)
Fixpoint retryLoop (remaining attempt : nat) (delay : Z) : list Z * result (retryError E) T :=
  match op attempt with
  | Ok result => ([], Ok result)
  | Err e =>
      match remaining with
      | O => ([], Err (OpError e))
      | S remaining =>
          if negb (retryable e) then ([], Err (OpError e))
          else
            let '(slept, r) := SleepDelay attempt delay in
            match r with
            | Err e => ([slept], Err e)
            | Ok delay => let '(ss, r) := retryLoop remaining (S attempt) delay in (slept :: ss, r)
            end
      end
  end.
End retry.

Definition RetryOn {E T} (cfg : RetryConfig) (op : nat → result E T) (retryable : E → bool) (cancelled : nat → bool)
    (jittered : nat → Z → Z) : list Z * result (retryError E) T :=
  let cfg := WithDefaults cfg in
  match Validate cfg with
  | Err e => ([], Err e)
  | Ok _ => retryLoop cfg op retryable cancelled jittered (Z.to_nat (MaxAttempts cfg - 1)) 1 (InitialDelay cfg)
  end.

Lemma int64_id n : (- 2 ^ 63 ≤ n < 2 ^ 63)%Z → int64 n = n.
Proof. intros. unfold int64. rewrite Z.mod_small by lia. lia. Qed.

(** The delay before the jitter, [n] retries after one of [d]. *)
Definition backoff (cfg : RetryConfig) (d : Z) (n : nat) : Z := Z.min (MaxDelay cfg) (d * 2 ^ Z.of_nat n).

Lemma backoff_step cfg d n :
  (0 < MaxDelay cfg)%Z → (0 ≤ d)%Z → backoff cfg (backoff cfg d 1) n = backoff cfg d (S n).
Proof.
  intros Hm Hd. unfold backoff. change (2 ^ Z.of_nat 1)%Z with 2%Z. rewrite Nat2Z.inj_succ, Z.pow_succ_r by lia.
  assert (1 ≤ 2 ^ Z.of_nat n)%Z as Hp by (pose proof (Z.pow_pos_nonneg 2 (Z.of_nat n)); lia).
  destruct (Z.le_gt_cases (MaxDelay cfg) (d * 2)).
  - rewrite (Z.min_l (MaxDelay cfg) (d * 2)) by lia. nia.
  - rewrite (Z.min_r (MaxDelay cfg) (d * 2)) by lia. f_equal. lia.
Qed.

Section retry_spec.
Context {E T : Type} (cfg : RetryConfig) (op : nat → result E T) (retryable : E → bool).
Context (cancelled : nat → bool) (jittered : nat → Z → Z).
Context (Hmax : (0 < MaxDelay cfg < 2 ^ 62)%Z).

Lemma SleepDelay_backoff n d :
  (0 ≤ d)%Z →
  ∃ slept r, SleepDelay (E := E) cfg cancelled jittered n d = (slept, r) ∧ (0 ≤ slept ≤ MaxDelay cfg)%Z ∧
    (ratio_gt (JitterRatio cfg) 0 = false → slept = backoff cfg d 0) ∧
    (r = Ok (backoff cfg d 1) ∨ (r = Err ContextError ∧ cancelled n = true)).
Proof.
  intros Hd. unfold SleepDelay, backoff. set (d1 := if (MaxDelay cfg <b d) then MaxDelay cfg else d).
  assert (d1 = Z.min (MaxDelay cfg) d) as Hd1 by (subst d1; destruct (Z.ltb_spec (MaxDelay cfg) d); lia).
  assert (∀ x, 0 ≤ Z.min (Z.max 0 x) (MaxDelay cfg) ≤ MaxDelay cfg)%Z as Hclamp by lia.
  set (sl := Z.min (Z.max 0 _) (MaxDelay cfg)). assert (0 ≤ sl ≤ MaxDelay cfg)%Z as Hsl by apply Hclamp.
  assert (ratio_gt (JitterRatio cfg) 0 = false → sl = Z.min (MaxDelay cfg) (d * 2 ^ Z.of_nat 0)) as Hb.
  { intros Hj. subst sl. rewrite Hj. lia. }
  clearbody sl d1. destruct ((0 <b sl) && cancelled n) eqn:Ec.
  - eexists _, _. split_and!; [done|lia|lia|done|]. right. split; [done|]. by apply andb_prop in Ec as [_ ?].
  - eexists _, _. split_and!; [done|lia|lia|done|]. left. f_equal. rewrite int64_id by lia.
    change (2 ^ Z.of_nat 1)%Z with 2%Z.
    destruct (Z.ltb_spec (MaxDelay cfg) (d1 * 2)); lia.
Qed.

(** The outcome of a loop whose last call was the one at [n]. *)
Definition outcome (last : bool) (n : nat) (r : result (retryError E) T) : Prop :=
  match op n with
  | Ok x => r = Ok x
  | Err e => r = Err (OpError e) ∧ (last = true ∨ retryable e = false) ∨
             r = Err ContextError ∧ cancelled n = true ∧ retryable e = true
  end.

Lemma retryLoop_spec remaining attempt d :
  (0 ≤ d)%Z →
  let '(sleeps, r) := retryLoop cfg op retryable cancelled jittered remaining attempt d in
  Forall (λ s, (0 ≤ s ≤ MaxDelay cfg)%Z) sleeps ∧
  (ratio_gt (JitterRatio cfg) 0 = false → ∀ n s, sleeps !! n = Some s → s = backoff cfg d n) ∧
  ∃ k, k ≤ remaining ∧ (∀ n, n < k → ∃ e, op (attempt + n) = Err e ∧ retryable e = true) ∧
    outcome (k =? remaining) (attempt + k) r.
Proof.
  revert attempt d. induction remaining as [|remaining IH]; intros attempt d Hd; cbn [retryLoop].
  { destruct (op attempt) eqn:Ho; (split_and!; [done|done|]); exists 0; rewrite Nat.add_0_r; unfold outcome; rewrite Ho;
      (split_and!; [lia|lia|auto]). }
  destruct (op attempt) as [x|e] eqn:Ho.
  { split_and!; [done|done|]. exists 0. rewrite Nat.add_0_r. unfold outcome. rewrite Ho. split_and!; [lia|lia|done]. }
  destruct (retryable e) eqn:Hr; cbn [negb].
  2:{ split_and!; [done|done|]. exists 0. rewrite Nat.add_0_r. unfold outcome. rewrite Ho. split_and!; [lia|lia|auto]. }
  destruct (SleepDelay_backoff attempt d Hd) as (slept & r & -> & Hs & Hj & [-> | [-> Hc]]).
  - assert (0 ≤ backoff cfg d 1)%Z as Hb by (unfold backoff; lia). specialize (IH (S attempt) (backoff cfg d 1) Hb).
    destruct (retryLoop cfg op retryable cancelled jittered remaining (S attempt) (backoff cfg d 1)) as [ss r].
    destruct IH as (Hss & Hsj & k & Hk & Hg & Hout). split_and!.
    + by constructor.
    + intros Hq [|n] s; [intros [= <-]; auto|]. intros H. rewrite <-backoff_step by (done || lia). by apply Hsj.
    + exists (S k). rewrite Nat.add_succ_r. split_and!; [lia| |exact Hout].
      intros [|n] Hn; [rewrite Nat.add_0_r; by exists e|]. rewrite Nat.add_succ_r. apply (Hg n). lia.
  - split_and!; [by apply Forall_singleton|intros Hq [|n] s; [intros [= <-]; auto|done]|].
    exists 0. rewrite Nat.add_0_r. unfold outcome. rewrite Ho. split_and!; [lia|lia|auto].
Qed.
End retry_spec.

(** C37: for a configuration that passes [Validate], with an initial delay that is
    not negative and a [MaxDelay] above 0 and below 2^62 nanoseconds, the retry loop calls
    the operation until it succeeds, fails for good, is cancelled or has been called
    [MaxAttempts] times, and returns what the last call gave; every sleep is within
    [MaxDelay], and without jitter (a ratio that is not above 0, NaN included) the sleeps
    double from the initial delay up to it, without overflow. *)
Theorem retryOn_backoff {E T} (cfg : RetryConfig) (op : nat → result E T) retryable cancelled jittered sleeps r :
  (0 < MaxDelay (WithDefaults cfg) < 2 ^ 62)%Z → (0 ≤ InitialDelay (WithDefaults cfg))%Z →
  Validate (E := E) (WithDefaults cfg) = Ok tt →
  RetryOn cfg op retryable cancelled jittered = (sleeps, r) →
  Forall (λ s, (0 ≤ s ≤ MaxDelay (WithDefaults cfg))%Z) sleeps ∧
  (ratio_gt (JitterRatio (WithDefaults cfg)) 0 = false →
     ∀ n s, sleeps !! n = Some s → s = backoff (WithDefaults cfg) (InitialDelay (WithDefaults cfg)) n) ∧
  ∃ k, (Z.of_nat k ≤ MaxAttempts (WithDefaults cfg))%Z ∧ 0 < k ∧
    (∀ n, 0 < n < k → ∃ e, op n = Err e ∧ retryable e = true) ∧
    outcome op retryable cancelled (Z.of_nat k =b MaxAttempts (WithDefaults cfg)) k r.
Proof.
  intros Hmax Hd Hv. unfold RetryOn. rewrite Hv. intros H.
  assert (1 ≤ MaxAttempts (WithDefaults cfg))%Z as Ha.
  { unfold Validate in Hv. destruct (ratio_gt _ _); [done|]. destruct (Z.ltb_spec (MaxAttempts (WithDefaults cfg)) 1); [done|lia]. }
  pose proof (retryLoop_spec (WithDefaults cfg) op retryable cancelled jittered Hmax
    (Z.to_nat (MaxAttempts (WithDefaults cfg) - 1)) 1 (InitialDelay (WithDefaults cfg)) Hd) as Hs.
  rewrite H in Hs. destruct Hs as (Hs & Hj & k & Hk & Hg & Ho). split_and!; [done|done|].
  exists (S k). split_and!; [lia|lia| |].
  - intros n Hn. destruct n as [|n]; [lia|]. apply (Hg n). lia.
  - replace (Z.of_nat (S k) =b MaxAttempts (WithDefaults cfg)) with (k =? Z.to_nat (MaxAttempts (WithDefaults cfg) - 1))
      by (destruct (Nat.eqb_spec k (Z.to_nat (MaxAttempts (WithDefaults cfg) - 1))); lia).
    exact Ho.
Qed.

Lemma retryOn_backoff_witness :
  ∃ sleeps r, RetryOn (MkRetryConfig 4 3 10 (Finite (-1 # 1))) (λ n, if n =? 4 then Ok n else Err n) (λ _, true) (λ _, false) (λ _ d, d) = (sleeps, r) ∧
    sleeps = [3; 6; 10]%Z ∧ r = Ok 4 ∧ Forall (λ s, (0 ≤ s ≤ 10)%Z) sleeps.
Proof.
  eexists _, _. split_and!; [vm_compute; reflexivity|reflexivity|reflexivity|].
  apply (retryOn_backoff (MkRetryConfig 4 3 10 (Finite (-1 # 1))) (λ n, if n =? 4 then Ok n else Err n) (λ _, true) (λ _, false) (λ _ d, d) _ (Ok 4));
    [vm_compute; split; reflexivity|vm_compute; discriminate|reflexivity|vm_compute; reflexivity].
Defined.

(** With a larger bound the doubling wraps around and the back-off is lost: after a
    delay of 2^62 nanoseconds the next one is negative. *)
Theorem doubling_overflows :
  SleepDelay (E := unit) (MkRetryConfig 3 1 (2 ^ 63 - 1) (Finite 0)) (λ _, false) (λ _ d, d) 1 (2 ^ 62) = ((2 ^ 62)%Z, Ok (- 2 ^ 63)%Z).
Proof. vm_compute. reflexivity. Qed.
End LlmUtil.
