(* ===== verification/NotifyQueue.v ===== *)
(** The notification queue of [pkg/llm] (notifyqueue.go): a slice with a head
    index behind a mutex and a one-slot wakeup channel.  The queue refines a
    FIFO list; the channel protocol, as a step relation over any number of
    producers and consumers, never loses a wakeup. *)
From S2P Require Import Prelude.

Module NotifyQueue.
Section queue.
Context {T E : Type} (zero : T).

(** ** State *)

(** [notify] is the buffered slot of the wakeup channel; [qerr] the [err] field. *)
Record queue := Queue {
  items : list T;
  head : nat;
  notify : bool;
  closed : bool;
  qerr : option E;
}.

Definition NewNotifyQueue : queue := Queue [] 0 false false None.

Definition set_items (l : list T) (h : nat) (q : queue) : queue :=
  Queue l h (notify q) (closed q) (qerr q).

(** [copy(q.items, q.items[q.head:])], the vacated slots zeroed, then truncated. *)
Definition compactLocked (q : queue) : queue :=
  let n := length (items q) in
  let copied := drop (head q) (items q) ++ drop (n - head q) (items q) in
  let zeroed := take (n - head q) copied ++ replicate (head q) zero in
  set_items (take (n - head q) zeroed) 0 q.

Definition signal (q : queue) : queue :=
  Queue (items q) (head q) true (closed q) (qerr q).

(** ** The critical sections, without the signal that follows them *)

(** The new state and whether the item was accepted. *)
Definition Push (item : T) (q : queue) : queue * bool :=
  if closed q then (q, false)
  else (set_items (items q ++ [item]) (head q) q, true).

Definition PushBounded (item : T) (capacity : nat) (gap : nat → option T) (q : queue) : queue * bool :=
  if closed q then (q, false)
  else
    let q := if 0 <? head q then compactLocked q else q in
    let q :=
      if capacity <=? length (items q) then
        let keep := capacity - 2 in
        let dropped := length (items q) - keep in
        let tail := drop (length (items q) - keep) (items q) in
        let next := match gap dropped with Some marker => [marker] | None => [] end in
        set_items (next ++ tail) (head q) q
      else q in
    (set_items (items q ++ [item]) (head q) q, true).

Definition Close (err : option E) (q : queue) : queue * bool :=
  if closed q then (q, false)
  else (Queue (items q) (head q) (notify q) true err, true).

(** What one turn of the loop of [Next] does under the lock: deliver an item,
    with the wakeup to be armed again or not; report the end; or wait. *)
Inductive outcome :=
| Delivered (item : T) (rearm : bool)
| Finished (err : option E)
| Wait.

(** The slice after an item has been taken out. *)
Definition recycle (q : queue) : queue :=
  if head q =? length (items q) then set_items [] 0 q
  else if (1024 <? head q) && (length (items q) <=? head q * 2) then compactLocked q
  else q.

Definition Next (q : queue) : queue * outcome :=
  if head q <? length (items q) then
    match items q !! head q with
    | Some item =>
        let q := recycle (set_items (<[head q := zero]> (items q)) (head q + 1) q) in
        (q, Delivered item ((head q <? length (items q)) || closed q))
    | None => (q, Wait)
    end
  else if closed q then (q, Finished (qerr q))
  else (q, Wait).

(** ** The contract: a list and whether, and how, it was closed *)

Definition abs (q : queue) : list T * option (option E) :=
  (drop (head q) (items q), if closed q then Some (qerr q) else None).

Definition spec : Type := list T * option (option E).

Definition spec_push (x : T) (s : spec) : spec * bool :=
  match s.2 with
  | Some _ => (s, false)
  | None => ((s.1 ++ [x], None), true)
  end.

(** The oldest entries give way to one marker, the newest is always kept. *)
Definition spec_push_bounded (x : T) (capacity : nat) (gap : nat → option T) (s : spec) : spec * bool :=
  match s.2 with
  | Some _ => (s, false)
  | None =>
      let l := s.1 in
      if capacity <=? length l then
        let dropped := length l - (capacity - 2) in
        ((option_list (gap dropped) ++ drop dropped l ++ [x], None), true)
      else ((l ++ [x], None), true)
  end.

Definition spec_close (err : option E) (s : spec) : spec * bool :=
  match s.2 with
  | Some _ => (s, false)
  | None => ((s.1, Some err), true)
  end.

(** Everything queued is delivered before the close is reported. *)
Definition spec_next (s : spec) : spec * outcome :=
  match s.1 with
  | x :: l => ((l, s.2), Delivered x (negb (length l =? 0) || match s.2 with Some _ => true | None => false end))
  | [] => (s, match s.2 with Some err => Finished err | None => Wait end)
  end.

(** ** The queue refines its contract *)

Definition wf (q : queue) : Prop := head q ≤ length (items q).

Lemma compactLocked_spec q :
  wf q → compactLocked q = set_items (drop (head q) (items q)) 0 q.
Proof using Type.
  intros Hwf. unfold compactLocked, wf in *. f_equal.
  rewrite take_app_le by (rewrite length_take, length_app, !length_drop; lia).
  rewrite take_take, Nat.min_id, take_app_le by (rewrite length_drop; lia).
  apply take_ge. rewrite length_drop. lia.
Qed.

Lemma Push_refines x q :
  wf q → wf (Push x q).1 ∧ (abs (Push x q).1, (Push x q).2) = spec_push x (abs q).
Proof using Type.
  intros Hwf. unfold Push, spec_push, abs, wf in *. destruct (closed q) eqn:Ec; simpl; rewrite ?Ec.
  - done.
  - rewrite length_app, drop_app_le by done. split; [simpl; lia|done].
Qed.

Lemma PushBounded_refines x cap gap q :
  wf q →
  wf (PushBounded x cap gap q).1 ∧
  (abs (PushBounded x cap gap q).1, (PushBounded x cap gap q).2) = spec_push_bounded x cap gap (abs q).
Proof using Type.
  intros Hwf. unfold PushBounded, spec_push_bounded, abs.
  destruct (closed q) eqn:Ec; simpl; [by rewrite Ec|].
  assert (∃ n, (if 0 <? head q then compactLocked q else q) =
    Queue (drop (head q) (items q)) 0 n false (qerr q)) as [n ->].
  { exists (notify q). destruct (0 <? head q) eqn:Eh.
    - rewrite compactLocked_spec by done. unfold set_items. by rewrite Ec.
    - assert (head q = 0) as Hz by lia. rewrite Hz, drop_0. destruct q; simpl in *. by subst. }
  simpl. destruct (cap <=? length (drop (head q) (items q))) eqn:El; simpl; rewrite !drop_0; (split; [unfold wf; simpl; lia|]).
  - by destruct (gap _); simpl; rewrite <-?app_assoc.
  - done.
Qed.

Lemma Close_refines err q :
  wf q → wf (Close err q).1 ∧ (abs (Close err q).1, (Close err q).2) = spec_close err (abs q).
Proof using Type.
  intros Hwf. unfold Close, spec_close, abs. destruct (closed q) eqn:Ec; simpl; by rewrite ?Ec.
Qed.

Lemma recycle_spec q :
  wf q → wf (recycle q) ∧ abs (recycle q) = abs q ∧
    (head (recycle q) <? length (items (recycle q))) = negb (length (abs q).1 =? 0) ∧
    closed (recycle q) = closed q.
Proof using Type.
  intros Hwf. unfold recycle, abs, wf in *. cbn [fst]; rewrite length_drop.
  destruct (head q =? length (items q)) eqn:E1.
  { rewrite (drop_ge (items q)) by lia. simpl. split_and!; [lia|done|lia|done]. }
  destruct (_ && _).
  - rewrite compactLocked_spec by done. simpl. rewrite drop_0, length_drop. split_and!; [lia|done|lia|done].
  - split_and!; [done|done|lia|done].
Qed.

Lemma Next_refines q :
  wf q → wf (Next q).1 ∧ (abs (Next q).1, (Next q).2) = spec_next (abs q).
Proof using Type.
  intros Hwf. unfold Next. destruct (head q <? length (items q)) eqn:Eh.
  2:{ assert (drop (head q) (items q) = []) as Hd by (apply drop_ge; lia).
      unfold spec_next, abs. destruct (closed q) eqn:Ec; simpl; by rewrite Hd, Ec. }
  destruct (items q !! head q) as [x|] eqn:Ex.
  2:{ apply lookup_ge_None in Ex. lia. }
  set (q1 := set_items (<[head q := zero]> (items q)) (head q + 1) q).
  assert (wf q1) as Hwf1 by (subst q1; unfold wf; simpl; rewrite length_insert; lia).
  assert (abs q = (x :: (abs q1).1, (abs q1).2)) as Habs.
  { subst q1. unfold abs. simpl. rewrite (drop_S _ _ _ Ex), drop_insert_lt by lia.
    by rewrite Nat.add_1_r. }
  assert (closed q1 = match (abs q1).2 with Some _ => true | None => false end) as Hc
    by (unfold abs; by destruct (closed q1)).
  rewrite Habs. clearbody q1. destruct (recycle_spec q1 Hwf1) as (Hw & Ha & Hl & Hcl).
  cbv zeta. cbn [fst snd]. split; [done|]. rewrite Ha, Hl, Hcl, Hc. by destruct (abs q1).
Qed.

(** Every operation of the queue, compaction and slot recycling included,
    refines the contract of a closable FIFO list with bounded pushes. *)
Theorem queue_refines q :
  wf q →
  (∀ x, wf (Push x q).1 ∧ (abs (Push x q).1, (Push x q).2) = spec_push x (abs q)) ∧
  (∀ x cap gap, wf (PushBounded x cap gap q).1 ∧
     (abs (PushBounded x cap gap q).1, (PushBounded x cap gap q).2) = spec_push_bounded x cap gap (abs q)) ∧
  (∀ err, wf (Close err q).1 ∧ (abs (Close err q).1, (Close err q).2) = spec_close err (abs q)) ∧
  (wf (Next q).1 ∧ (abs (Next q).1, (Next q).2) = spec_next (abs q)).
Proof using Type.
  intros Hwf. split_and!; intros; (apply Push_refines || apply PushBounded_refines ||
    apply Close_refines || apply Next_refines); done.
Qed.

(** a bounded push keeps the queue within its capacity (at least 2) and
    always keeps the new item, as the last one. *)
Theorem PushBounded_bound x cap gap q :
  wf q → 2 ≤ cap → closed q = false → length (abs q).1 ≤ cap →
  let q' := (PushBounded x cap gap q).1 in
  length (abs q').1 ≤ cap ∧ last (abs q').1 = Some x ∧ (PushBounded x cap gap q).2 = true.
Proof using Type.
  intros Hwf Hcap Hcl Hlen. cbv zeta.
  destruct (PushBounded_refines x cap gap q Hwf) as [_ Hr]. unfold spec_push_bounded in Hr.
  assert ((abs q).2 = None) as Hopen by (unfold abs; by rewrite Hcl). rewrite Hopen in Hr.
  destruct (cap <=? length (abs q).1) eqn:El;
    pose proof (f_equal (λ p, p.1.1) Hr) as Ha; pose proof (f_equal snd Hr) as Hok;
    cbn [fst snd] in Ha, Hok; rewrite Ha, Hok.
  - rewrite app_assoc, length_app, length_app, length_drop, last_snoc. cbn [length].
    split_and!; [|done|done]. destruct (gap _); simpl; lia.
  - rewrite length_app, last_snoc. cbn [length]. split_and!; [lia|done|done].
Qed.

(** ** The wakeup protocol *)

(** Threads by what they do next: [signals] have left a critical section and
    will signal, [checking] consumers will take the lock, [waiting] consumers
    block on the channel. *)
Record world := World { state : queue; signals : nat; checking : nat; waiting : nat }.

Inductive event := EPush (x : T) | EBounded | EClose | EDeliver (x : T) | EFinish | EInternal.

(** [next_step rearm w q]: back from the critical section of [Next]. *)
Definition leave (w : world) (q : queue) (sig : bool) (check wait : nat) : world :=
  World q (signals w + (if sig then 1 else 0)) check wait.

Inductive step : world → event → world → Prop :=
| step_push w x q b :
    Push x (state w) = (q, b) →
    step w (if b then EPush x else EInternal) (leave w q b (checking w) (waiting w))
| step_bounded w x cap gap q b :
    PushBounded x cap gap (state w) = (q, b) →
    step w (if b then EBounded else EInternal) (leave w q b (checking w) (waiting w))
| step_close w err q b :
    Close err (state w) = (q, b) →
    step w (if b then EClose else EInternal) (leave w q b (checking w) (waiting w))
| step_signal q s c n :
    step (World q (S s) c n) EInternal (World (signal q) s c n)
| step_call w :
    step w EInternal (World (state w) (signals w) (S (checking w)) (waiting w))
| step_deliver q s c n q' x rearm :
    Next q = (q', Delivered x rearm) →
    step (World q s (S c) n) (EDeliver x) (World q' (s + if rearm then 1 else 0) c n)
| step_finish q s c n q' err :
    Next q = (q', Finished err) →
    step (World q s (S c) n) EFinish (World q' (S s) c n)
| step_wait q s c n q' :
    Next q = (q', Wait) →
    step (World q s (S c) n) EInternal (World q' s c (S n))
| step_wake q s c n :
    notify q = true →
    step (World q s c (S n)) EInternal
      (World (Queue (items q) (head q) false (closed q) (qerr q)) s (S c) n)
| step_cancel q s c n :
    step (World q s c (S n)) EInternal (World q s c n).

Inductive run : world → list event → world → Prop :=
| run_nil w : run w [] w
| run_snoc w tr w' e w'' : run w tr w' → step w' e w'' → run w (tr ++ [e]) w''.

Definition start : world := World NewNotifyQueue 0 0 0.

(** There is something to see: an item, or the close. *)
Definition news (q : queue) : Prop := (abs q).1 ≠ [] ∨ closed q = true.

Definition awake (w : world) : Prop :=
  notify (state w) = true ∨ 0 < signals w ∨ 0 < checking w.

Lemma Next_cases q q' o :
  wf q → Next q = (q', o) →
  match o with
  | Delivered x rearm => wf q' ∧ (abs q).1 = x :: (abs q').1 ∧ closed q' = closed q ∧
      (news q' → rearm = true)
  | Finished _ => q' = q
  | Wait => q' = q ∧ ¬ news q
  end.
Proof using Type.
  intros Hwf HN. pose proof (Next_refines q Hwf) as [Hw Hr]. rewrite HN in Hw, Hr. simpl in Hw, Hr.
  unfold spec_next in Hr. destruct (abs q).1 as [|x l] eqn:Ea.
  - assert (q' = q) as ->.
    { unfold Next in HN. unfold abs in Ea. simpl in Ea.
      destruct (head q <? length (items q)) eqn:Eh.
      - apply (f_equal length) in Ea. rewrite length_drop in Ea. simpl in Ea. lia.
      - destruct (closed q); by injection HN. }
    pose proof (f_equal snd Hr) as Ho. cbn [fst snd] in Ho. subst o.
    unfold abs. simpl. destruct (closed q) eqn:Ec; [done|].
    split; [done|]. intros [H|H]; congruence.
  - pose proof (f_equal (λ p, p.1.1) Hr) as Ha. pose proof (f_equal (λ p, p.1.2) Hr) as Hb.
    pose proof (f_equal snd Hr) as Ho. cbn [fst snd] in Ha, Hb, Ho. subst o.
    assert (closed q' = closed q) as Hcl.
    { unfold abs in Hb. simpl in Hb. by destruct (closed q), (closed q'). }
    rewrite Ha. split_and!; [done|done|done|]. unfold news. rewrite Ha, Hcl. unfold abs. simpl.
    intros [H|H]; [by destruct l|]. rewrite H. apply orb_true_r.
Qed.

Definition inv (w : world) : Prop := wf (state w) ∧ (news (state w) → awake w).

Lemma abs_signal q : abs (signal q) = abs q.
Proof using Type. done. Qed.

Lemma rejected_same w q (b : bool) :
  (b = false → q = state w) → wf q → inv w → inv (leave w q b (checking w) (waiting w)).
Proof using Type.
  intros Hq Hwf [_ Hinv]. split; [done|]. simpl. destruct b.
  - intros _. right. left. simpl. lia.
  - rewrite Hq by done. intros Hn. destruct (Hinv Hn) as [H|[H|H]].
    + by left.
    + right. left. simpl. lia.
    + right. by right.
Qed.

Lemma step_inv w e w' : inv w → step w e w' → inv w'.
Proof using Type.
  intros Hinv Hst. pose proof Hinv as [Hwf Haw].
  destruct Hst as [w x q b Hp|w x cap gap q b Hp|w err q b Hp|q s c n|w|q s c n q' x rearm HN
                   |q s c n q' err HN|q s c n q' HN|q s c n Hnt|q s c n]; simpl in Hwf.
  - apply rejected_same; [|by destruct (Push_refines x (state w) Hwf) as [H _]; rewrite Hp in H|done].
    intros ->. unfold Push in Hp. by case_match; simplify_eq.
  - apply rejected_same; [|by destruct (PushBounded_refines x cap gap (state w) Hwf) as [H _]; rewrite Hp in H|done].
    intros ->. unfold PushBounded in Hp. by case_match; simplify_eq.
  - apply rejected_same; [|by destruct (Close_refines err (state w) Hwf) as [H _]; rewrite Hp in H|done].
    intros ->. unfold Close in Hp. by case_match; simplify_eq.
  - split; [done|]. intros _. by left.
  - split; [done|]. intros _. right. right. simpl. lia.
  - destruct (Next_cases _ _ _ Hwf HN) as (Hw & _ & _ & Hre). split; [done|]. intros Hn.
    rewrite (Hre Hn). right. left. simpl. lia.
  - split; [by rewrite (Next_cases _ _ _ Hwf HN)|]. intros _. right. left. simpl. lia.
  - destruct (Next_cases _ _ _ Hwf HN) as [-> Hno]. by split.
  - split; [done|]. intros _. right. right. simpl. lia.
  - by split.
Qed.

Lemma run_inv tr w : run start tr w → inv w.
Proof using Type.
  intros H. remember start as w0 eqn:E0. induction H as [w|w tr w' e w'' _ IH Hst]; subst.
  - split; [unfold wf; simpl; lia|]. intros [?|?]; done.
  - eapply step_inv; [by apply IH|done].
Qed.

(** C38: no wakeup is ever lost: whenever an item is queued or the queue is
    closed, the channel is full, or some thread is about to fill it or to look
    at the queue, for any number of producers and consumers and any
    interleaving, cancelled waits included. *)
Theorem no_lost_wakeup tr w :
  run start tr w → (abs (state w)).1 ≠ [] ∨ closed (state w) = true → awake w.
Proof using Type. intros [_ H]%run_inv. exact H. Qed.

Definition pushed (tr : list event) : list T :=
  omap (λ e, match e with EPush x => Some x | _ => None end) tr.
Definition delivered (tr : list event) : list T :=
  omap (λ e, match e with EDeliver x => Some x | _ => None end) tr.

Definition unbounded (tr : list event) : Prop :=
  Forall (λ e, match e with EBounded => False | _ => True end) tr.

Lemma step_fifo w e w' :
  wf (state w) → step w e w' → match e with EBounded => False | _ => True end →
  (abs (state w)).1 ++ pushed [e] = delivered [e] ++ (abs (state w')).1.
Proof using Type.
  intros Hwf Hst He.
  destruct Hst as [w x q b Hp|w x cap gap q b Hp|w err q b Hp|q s c n|w|q s c n q' x rearm HN
                   |q s c n q' err HN|q s c n q' HN|q s c n Hnt|q s c n]; simpl in Hwf |- *;
    rewrite ?app_nil_r; try done.
  - unfold Push in Hp. destruct (closed (state w)); injection Hp as <- <-; simpl; [by rewrite app_nil_r|].
    unfold wf in Hwf. by rewrite drop_app_le.
  - unfold PushBounded in Hp. destruct (closed (state w)); injection Hp as <- <-; [|done].
    simpl. by rewrite app_nil_r.
  - unfold Close in Hp. destruct (closed (state w)); injection Hp as <- <-; simpl; by rewrite app_nil_r.
  - by destruct (Next_cases _ _ _ Hwf HN) as (_ & Ha & _).
  - by rewrite (Next_cases _ _ _ Hwf HN).
  - by destruct (Next_cases _ _ _ Hwf HN) as [-> _].
Qed.

(** With unbounded pushes, every accepted item is delivered exactly once and
    in the order of acceptance: at any moment the accepted items are those
    delivered followed by those still queued. *)
Theorem fifo_delivery tr w :
  run start tr w → unbounded tr → pushed tr = delivered tr ++ (abs (state w)).1.
Proof using Type.
  intros H. remember start as w0 eqn:E0. induction H as [w|w tr w' e w'' Hrun IH Hst]; subst; [done|].
  intros [Htr [He _]%Forall_cons]%Forall_app.
  destruct (run_inv _ _ Hrun) as [Hwf _]. pose proof (step_fifo _ _ _ Hwf Hst He) as Hf.
  unfold pushed, delivered in *. rewrite !omap_app, IH by done. rewrite <-!app_assoc. by rewrite Hf.
Qed.
End queue.

(** ** Witnesses *)

Definition sample : queue (T := nat) (E := unit) := Queue [0; 7; 8; 9] 1 false false None.

Lemma queue_refines_witness :
  (abs (Next 0 sample).1, (Next 0 sample).2) = (([8; 9], None), Delivered 7 true).
Proof. rewrite (proj2 (proj2 (proj2 (proj2 (queue_refines 0 sample ltac:(vm_compute; lia)))))). reflexivity. Defined.

Lemma PushBounded_bound_witness :
  length (abs (PushBounded 0 5 3 (λ n, Some (100 + n)) sample).1).1 ≤ 3.
Proof.
  exact (proj1 (PushBounded_bound 0 5 3 (λ n, Some (100 + n)) sample
    ltac:(vm_compute; lia) ltac:(lia) eq_refl ltac:(vm_compute; lia))).
Defined.

(** A consumer waits, an item is pushed and the signal is still to come. *)
Definition sample_trace : list (event (T := nat)) := [EInternal; EInternal; EPush 5].
Definition sample_world : world (T := nat) (E := unit) :=
  World (Queue [5] 0 false false None) 1 0 1.

Lemma sample_run : run 0 start sample_trace sample_world.
Proof.
  refine (run_snoc 0 _ [EInternal; EInternal] (World NewNotifyQueue 0 0 1) (EPush 5) _ _ _).
  - refine (run_snoc 0 _ [EInternal] (World NewNotifyQueue 0 1 0) EInternal _ _ _).
    + refine (run_snoc 0 _ [] start EInternal _ (run_nil 0 _) _). exact (step_call 0 start).
    + exact (step_wait 0 NewNotifyQueue 0 0 0 NewNotifyQueue eq_refl).
  - exact (step_push 0 (World NewNotifyQueue 0 0 1) 5 (Queue [5] 0 false false None) true eq_refl).
Defined.

Lemma no_lost_wakeup_witness : awake sample_world.
Proof. apply (no_lost_wakeup 0 sample_trace sample_world sample_run). left. done. Defined.

Lemma fifo_delivery_witness : pushed sample_trace = delivered sample_trace ++ [5].
Proof. apply (fifo_delivery 0 sample_trace sample_world sample_run). by repeat constructor. Defined.
End NotifyQueue.
