(* ===== verification/CodexRing.v ===== *)
(** The bounded notification ring and queue of [pkg/llm/codex]
    (notification_ring.go, notification_queue.go): a circular buffer refining a
    bounded FIFO list, and the queue that evicts the oldest entry, counts what
    it evicts and reports it once. *)
From S2P Require Import Prelude.

Module Ring.
Section ring.
Context {T : Type} (zero : T).

(** [len] is the [length] field. *)
Record ring := MkRing { values : list T; head : nat; tail : nat; len : nat }.

Definition newNotificationRing (capacity : nat) : ring := MkRing (replicate capacity zero) 0 0 0.

Definition cap (r : ring) : nat := length (values r).

(** [i++; if i == len(r.values) { i = 0 }]. *)
Definition bump (r : ring) (i : nat) : nat := if i + 1 =? cap r then 0 else i + 1.

Definition store (r : ring) (x : T) : ring :=
  MkRing (<[tail r := x]> (values r)) (head r) (bump r (tail r)) (len r + 1).

Definition push (x : T) (r : ring) : ring * bool :=
  if (cap r =? 0) || (cap r <=? len r) then (r, false) else (store r x, true).

(** [copy(dst[at:], src)] and the number of elements copied. *)
Definition copy (dst : list T) (at_ : nat) (src : list T) : list T * nat :=
  let n := Nat.min (length dst - at_) (length src) in
  (take at_ dst ++ take n src ++ drop (at_ + n) dst, n).

Definition appendAll (xs : list T) (r : ring) : ring * bool :=
  if cap r - len r <? length xs then (r, false)
  else if length xs =? 0 then (r, true)
  else
    let '(vs, copied) := copy (values r) (tail r) xs in
    let vs := if copied <? length xs then (copy vs 0 (drop copied xs)).1 else vs in
    (MkRing vs (head r) ((tail r + length xs) mod cap r) (len r + length xs), true).

(** The eviction of the oldest entry. *)
Definition evict (r : ring) : ring :=
  MkRing (<[head r := zero]> (values r)) (bump r (head r)) (tail r) (len r - 1).

Definition pushDisplacing (x : T) (r : ring) : ring * bool :=
  if cap r =? 0 then (r, false)
  else if cap r <=? len r then (store (evict r) x, true)
  else (store r x, false).

Definition pop (r : ring) : ring * option T :=
  if len r =? 0 then (r, None)
  else
    let x := nth (head r) (values r) zero in
    let r := evict r in
    (if len r =? 0 then MkRing (values r) 0 0 (len r) else r, Some x).

(** ** The list a ring stands for *)

Definition abs (r : ring) : list T :=
  (λ i, nth ((head r + i) mod cap r) (values r) zero) <$> seq 0 (len r).

Record wf (r : ring) : Prop := {
  wf_len : len r ≤ cap r;
  wf_head : cap r ≠ 0 → head r < cap r;
  wf_tail : cap r ≠ 0 → tail r = (head r + len r) mod cap r;
}.

Lemma wrap a n : a < 2 * n → a mod n = if a <? n then a else a - n.
Proof using Type.
  intros H. destruct (a <? n) eqn:E; [by apply Nat.mod_small; lia|].
  replace a with (a - n + 1 * n) at 1 by lia. rewrite Nat.Div0.mod_add. apply Nat.mod_small. lia.
Qed.

Lemma abs_length r : length (abs r) = len r.
Proof using Type. unfold abs. by rewrite length_fmap, length_seq. Qed.

Lemma nth_insert (vs : list T) i j x :
  i < length vs → nth j (<[i := x]> vs) zero = if i =? j then x else nth j vs zero.
Proof using Type.
  intros Hi. rewrite !nth_lookup. destruct (Nat.eqb_spec i j) as [->|Hne].
  - by rewrite list_lookup_insert_eq by done.
  - by rewrite list_lookup_insert_ne.
Qed.

Lemma bump_mod r i : i < cap r → bump r i = (i + 1) mod cap r.
Proof using Type. intros Hi. unfold bump. rewrite wrap by lia. repeat case_match; lia. Qed.

Lemma bump_wrap r a : a < 2 * cap r → bump r (a mod cap r) = (a + 1) mod cap r.
Proof using Type.
  intros Ha. rewrite bump_mod by (apply Nat.mod_upper_bound; lia).
  by rewrite Nat.Div0.add_mod_idemp_l.
Qed.

Lemma store_spec r x :
  wf r → len r < cap r → wf (store r x) ∧ abs (store r x) = abs r ++ [x].
Proof using Type.
  intros [Hl Hh Ht] Hlt. specialize (Hh ltac:(lia)). specialize (Ht ltac:(lia)).
  assert (tail r < cap r) as Htl by (rewrite Ht; apply Nat.mod_upper_bound; lia).
  assert (cap (store r x) = cap r) as Hc by (unfold cap, store; simpl; apply length_insert). split.
  - split; rewrite ?Hc; simpl; [lia|done|]. intros _. rewrite Ht, bump_wrap by lia. f_equal. lia.
  - unfold abs. rewrite Hc. simpl len. rewrite seq_app, fmap_app. simpl. f_equal.
    + apply list_fmap_ext. intros i j Hij. apply lookup_seq in Hij as [-> Hi]. simpl.
      rewrite nth_insert by done. destruct (Nat.eqb_spec (tail r) ((head r + i) mod cap r)) as [Heq|]; [|done].
      exfalso. rewrite Ht, !wrap in Heq by lia. repeat case_match; lia.
    + rewrite nth_insert by done. by rewrite <-Ht, Nat.eqb_refl.
Qed.

Lemma evict_spec r :
  wf r → 0 < len r →
  wf (evict r) ∧ abs r = nth (head r) (values r) zero :: abs (evict r).
Proof using Type.
  intros [Hl Hh Ht] Hlt. specialize (Hh ltac:(lia)). specialize (Ht ltac:(lia)).
  assert (cap (evict r) = cap r) as Hc by (unfold cap, evict; simpl; apply length_insert). split.
  - split; rewrite ?Hc; simpl; [lia|intros _|intros _].
    + rewrite bump_mod by done. apply Nat.mod_upper_bound. lia.
    + rewrite Ht, bump_mod, Nat.Div0.add_mod_idemp_l by done. f_equal. lia.
  - unfold abs. rewrite Hc. destruct (len r) as [|n] eqn:En; [lia|]. simpl len. rewrite En.
    replace (S n - 1) with n by lia. cbn [seq fmap list_fmap]. f_equal.
    + rewrite Nat.add_0_r, Nat.mod_small by done. done.
    + rewrite <-seq_shift. rewrite <-(list_fmap_compose S). apply list_fmap_ext.
      intros i j Hij. apply lookup_seq in Hij as [-> Hi]. simpl.
      rewrite nth_insert by done. rewrite bump_mod, Nat.Div0.add_mod_idemp_l by done.
      replace (head r + 1 + i) with (head r + S i) by lia.
      destruct (Nat.eqb_spec (head r) ((head r + S i) mod cap r)) as [Heq|]; [|done].
      exfalso. rewrite wrap in Heq by lia. case_match; lia.
Qed.

Lemma pop_spec r :
  wf r →
  wf (pop r).1 ∧
  match abs r with
  | [] => pop r = (r, None)
  | x :: l => (pop r).2 = Some x ∧ abs (pop r).1 = l
  end.
Proof using Type.
  intros Hwf. unfold pop. destruct (len r =? 0) eqn:E0.
  - split; [done|]. assert (abs r = []) as -> by (apply length_zero_iff_nil; rewrite abs_length; lia). done.
  - destruct (evict_spec r Hwf ltac:(lia)) as [Hw ->]. cbn [fst snd].
    destruct (len (evict r) =? 0) eqn:E1; [|done]. split; [|split; [done|]].
    + destruct Hw as [H1 H2 H3]. split; unfold cap in *; simpl in *; [lia|lia|].
      intros Hc. replace (len r - 1) with 0 by lia. by rewrite Nat.Div0.mod_0_l.
    + transitivity (@nil T); [|symmetry]; apply length_zero_iff_nil; rewrite abs_length; simpl in *; lia.
Qed.

Lemma push_spec x r :
  wf r →
  wf (push x r).1 ∧
  (if (0 <? cap r) && (len r <? cap r) then (push x r).2 = true ∧ abs (push x r).1 = abs r ++ [x]
   else push x r = (r, false)).
Proof using Type.
  intros Hwf. unfold push. destruct ((cap r =? 0) || (cap r <=? len r)) eqn:E.
  - split; [done|]. by destruct (_ && _) eqn:E2; [lia|].
  - destruct (store_spec r x Hwf ltac:(lia)) as [Hw Ha]. split; [done|].
    by destruct (_ && _) eqn:E2; [|lia].
Qed.

Lemma pushDisplacing_spec x r :
  wf r → 0 < cap r →
  wf (pushDisplacing x r).1 ∧
  (if len r =? cap r then (pushDisplacing x r).2 = true ∧ abs (pushDisplacing x r).1 = drop 1 (abs r) ++ [x]
   else (pushDisplacing x r).2 = false ∧ abs (pushDisplacing x r).1 = abs r ++ [x]).
Proof using Type.
  intros Hwf Hc. pose proof (wf_len _ Hwf). unfold pushDisplacing.
  destruct (cap r =? 0) eqn:E0; [lia|]. destruct (cap r <=? len r) eqn:E1.
  - destruct (evict_spec r Hwf ltac:(lia)) as [Hw Ha].
    assert (cap (evict r) = cap r) as Hce by (unfold cap, evict; simpl; apply length_insert).
    destruct (store_spec (evict r) x Hw) as [Hws Has]; [rewrite Hce; simpl; lia|].
    split; [done|]. destruct (len r =? cap r) eqn:E2; [|lia]. split; [done|].
    cbn [fst]. rewrite Has, Ha. simpl. by rewrite drop_0.
  - destruct (store_spec r x Hwf ltac:(lia)) as [Hws Has]. split; [done|].
    by destruct (len r =? cap r) eqn:E2; [lia|].
Qed.

(** What the two copies of [appendAll] write. *)
Lemma copy_nth dst at_ src j :
  at_ ≤ length dst →
  nth j (copy dst at_ src).1 zero =
    if (at_ <=? j) && (j <? at_ + Nat.min (length dst - at_) (length src)) then nth (j - at_) src zero
    else nth j dst zero.
Proof using Type.
  intros Ha. unfold copy. simpl. set (n := Nat.min _ _).
  rewrite !nth_lookup. destruct (decide (j < at_)) as [Hj|Hj].
  { rewrite lookup_app_l by (rewrite length_take; lia). rewrite lookup_take_lt by done.
    destruct (_ && _) eqn:E; [lia|done]. }
  rewrite lookup_app_r, length_take by (rewrite length_take; lia).
  replace (j - Nat.min at_ (length dst)) with (j - at_) by lia.
  destruct (decide (j < at_ + n)) as [Hn|Hn].
  - rewrite lookup_app_l by (rewrite length_take; lia). rewrite lookup_take_lt by lia.
    destruct (_ && _) eqn:E; [done|lia].
  - rewrite lookup_app_r, length_take by (rewrite length_take; lia). rewrite lookup_drop.
    destruct (_ && _) eqn:E; [lia|]. do 2 f_equal. lia.
Qed.

Lemma length_copy dst at_ src : at_ ≤ length dst → length (copy dst at_ src).1 = length dst.
Proof using Type. intros. unfold copy. simpl. rewrite !length_app, !length_take, length_drop. lia. Qed.

Definition appended (xs vs : list T) (t : nat) : list T :=
  let '(vs', copied) := copy vs t xs in
  if copied <? length xs then (copy vs' 0 (drop copied xs)).1 else vs'.

Lemma nth_drop (l : list T) k j : nth j (drop k l) zero = nth (k + j) l zero.
Proof using Type. by rewrite !nth_lookup, lookup_drop. Qed.

Lemma appended_nth xs vs t m :
  t < length vs → length xs ≤ length vs → m < length vs →
  nth ((t + m) mod length vs) (appended xs vs t) zero =
    if m <? length xs then nth m xs zero else nth ((t + m) mod length vs) vs zero.
Proof using Type.
  intros Ht Hx Hm. unfold appended. destruct (copy vs t xs) as [vs' copied] eqn:Ec.
  assert (copied = Nat.min (length vs - t) (length xs)) as -> by (by injection Ec).
  assert (vs' = (copy vs t xs).1) as -> by (by rewrite Ec). clear Ec. rewrite wrap by lia.
  set (j := if t + m <? length vs then _ else _).
  assert (t + m < length vs ∧ j = t + m ∨ length vs ≤ t + m ∧ j = t + m - length vs) as Hj
    by (subst j; case_match; lia). clearbody j.
  destruct (_ <? length xs) eqn:Ek.
  - rewrite copy_nth by (rewrite length_copy; lia). rewrite length_copy, length_drop, copy_nth by lia.
    rewrite nth_drop. repeat case_match; try (f_equal; lia); exfalso; lia.
  - rewrite copy_nth by lia. repeat case_match; try (f_equal; lia); exfalso; lia.
Qed.

Lemma length_appended xs vs t : t ≤ length vs → length (appended xs vs t) = length vs.
Proof using Type.
  intros Ht. unfold appended. destruct (copy vs t xs) as [vs' copied] eqn:Ec.
  assert (length vs' = length vs) as Hl by (by rewrite <-(length_copy vs t xs), Ec).
  case_match; [rewrite length_copy; lia|done].
Qed.

Lemma appendAll_eq xs r :
  appendAll xs r =
    if cap r - len r <? length xs then (r, false)
    else if length xs =? 0 then (r, true)
    else (MkRing (appended xs (values r) (tail r)) (head r) ((tail r + length xs) mod cap r)
            (len r + length xs), true).
Proof using Type.
  unfold appendAll, appended. destruct (cap r - len r <? length xs); [done|]. destruct (length xs =? 0); [done|].
  by destruct (copy (values r) (tail r) xs).
Qed.

Lemma appendAll_spec xs r :
  wf r →
  wf (appendAll xs r).1 ∧
  (if len r + length xs <=? cap r then (appendAll xs r).2 = true ∧ abs (appendAll xs r).1 = abs r ++ xs
   else appendAll xs r = (r, false)).
Proof using Type.
  intros Hwf. pose proof Hwf as [Hl Hh Ht]. rewrite appendAll_eq.
  destruct (cap r - len r <? length xs) eqn:E1.
  { split; [done|]. by destruct (_ <=? _) eqn:E; [lia|]. }
  destruct (_ <=? _) eqn:E; [|lia]. destruct (length xs =? 0) eqn:E2.
  { split; [done|]. destruct xs; [|done]. by rewrite app_nil_r. }
  specialize (Hh ltac:(lia)). specialize (Ht ltac:(lia)).
  assert (tail r < cap r) as Htl by (rewrite Ht; apply Nat.mod_upper_bound; lia).
  assert (cap (MkRing (appended xs (values r) (tail r)) (head r) ((tail r + length xs) mod cap r)
    (len r + length xs)) = cap r) as Hc by (unfold cap in *; simpl; apply length_appended; lia).
  cbn [fst snd]. split.
  - split; rewrite ?Hc; simpl; [lia|done|]. intros _. rewrite Ht, Nat.Div0.add_mod_idemp_l. f_equal. lia.
  - split; [done|]. unfold abs. rewrite Hc. simpl. rewrite seq_app, fmap_app. f_equal.
    + apply list_fmap_ext. intros i j Hij. apply lookup_seq in Hij as [-> Hi]. simpl.
      assert ((head r + i) mod cap r = (tail r + (cap r - len r + i)) mod cap r) as Heq.
      { rewrite Ht, Nat.Div0.add_mod_idemp_l. replace (head r + len r + (cap r - len r + i)) with (head r + i + 1 * cap r) by lia.
        by rewrite Nat.Div0.mod_add. }
      rewrite Heq. unfold cap in *. rewrite appended_nth by lia.
      destruct (length (values r) - len r + i <? length xs) eqn:E3; [lia|done].
    + apply list_eq. intros i. rewrite list_lookup_fmap. destruct (decide (i < length xs)) as [Hi|Hi].
      * rewrite lookup_seq_lt by done. simpl.
        replace ((head r + (len r + i)) mod cap r) with ((tail r + i) mod cap r)
          by (rewrite Ht, Nat.Div0.add_mod_idemp_l; f_equal; lia).
        unfold cap in *. rewrite appended_nth by lia. destruct (i <? length xs) eqn:E3; [|lia].
        rewrite nth_lookup. destruct (xs !! i) eqn:Ex; [done|]. apply lookup_ge_None in Ex. lia.
      * rewrite lookup_seq_ge by lia. simpl. symmetry. apply lookup_ge_None. lia.
Qed.

Lemma newNotificationRing_spec c : wf (newNotificationRing c) ∧ abs (newNotificationRing c) = [].
Proof using Type.
  split; [|done]. unfold newNotificationRing. split; unfold cap; simpl; rewrite length_replicate; [lia|lia|].
  intros. by rewrite Nat.Div0.mod_0_l.
Qed.

(** The ring, with its wrapping indices, two-piece copy and displacing push,
    refines a FIFO list bounded by its capacity; a refused operation leaves it
    unchanged. *)
Theorem ring_refines r :
  wf r →
  (∀ x, wf (push x r).1 ∧
     (if (0 <? cap r) && (len r <? cap r) then (push x r).2 = true ∧ abs (push x r).1 = abs r ++ [x]
      else push x r = (r, false))) ∧
  (∀ xs, wf (appendAll xs r).1 ∧
     (if len r + length xs <=? cap r then (appendAll xs r).2 = true ∧ abs (appendAll xs r).1 = abs r ++ xs
      else appendAll xs r = (r, false))) ∧
  (∀ x, 0 < cap r → wf (pushDisplacing x r).1 ∧
     (if len r =? cap r
      then (pushDisplacing x r).2 = true ∧ abs (pushDisplacing x r).1 = drop 1 (abs r) ++ [x]
      else (pushDisplacing x r).2 = false ∧ abs (pushDisplacing x r).1 = abs r ++ [x])) ∧
  (wf (pop r).1 ∧
     match abs r with
     | [] => pop r = (r, None)
     | x :: l => (pop r).2 = Some x ∧ abs (pop r).1 = l
     end).
Proof using Type.
  intros Hwf. split_and!; intros; (apply push_spec || apply appendAll_spec ||
    apply pushDisplacing_spec || apply pop_spec); done.
Qed.
End ring.

Definition sample : ring (T := nat) := MkRing [3; 0; 1; 2] 2 1 3.

Lemma ring_refines_witness :
  abs 0 sample = [1; 2; 3] ∧ abs 0 (appendAll [4] sample).1 = [1; 2; 3; 4] ∧
  (if 4 <=? 4 then (appendAll [4] sample).2 = true ∧ abs 0 (appendAll [4] sample).1 = abs 0 sample ++ [4]
   else appendAll [4] sample = (sample, false)).
Proof.
  split_and!; [reflexivity|reflexivity|].
  refine (proj2 (proj1 (proj2 (ring_refines 0 sample _)) [4])).
  split; vm_compute; [lia|lia|done].
Defined.
End Ring.
