(* ===== verification/CodexRouter.v ===== *)
(** The notification queues and the turn router of [pkg/llm/codex]
    (notification_queue.go, router.go): queues are shared objects in a store,
    the router maps turn, login and process identifiers to them and keeps what
    arrives before a consumer registers. *)
From S2P Require Import Prelude CodexRing.

Module Router.
Import Ring.

(** Errors of the two files; [Caller] is an error value passed to [close]. *)
Inductive error :=
| NotificationDroppedError (TurnID : bytes) (Dropped : nat)
| LoginNotificationDroppedError (LoginID : bytes) (Dropped : nat)
| ProcessNotificationDroppedError (ProcessHandle : bytes) (Dropped : nat)
| TransportClosedError (Message : string)
| Errorf (format : string) (arg : bytes)
| Caller (n : nat).

Section codex.
Context {T : Type} (zero : T).

(** ** notification_queue.go *)

Definition notificationQueueCapacity : nat := 128.

(** [notify] is the one-slot channel; [dropError] closes over the scope. *)
Record nqueue := NQueue {
  notifies : ring (T := T);
  notify : bool;
  err : option error;
  dropped : nat;
  dropError : nat → error;
}.

Definition newQueue (dropError : nat → error) : nqueue :=
  NQueue (newNotificationRing zero notificationQueueCapacity) false None 0 dropError.

Definition newTurnNotificationQueue (turnID : bytes) : nqueue := newQueue (NotificationDroppedError turnID).
Definition newLoginNotificationQueue (loginID : bytes) : nqueue := newQueue (LoginNotificationDroppedError loginID).
Definition newProcessNotificationQueue (h : bytes) : nqueue := newQueue (ProcessNotificationDroppedError h).

Definition qpush (x : T) (q : nqueue) : nqueue :=
  match err q with
  | Some _ => q
  | None =>
      let '(r, displaced) := pushDisplacing zero x (notifies q) in
      NQueue r true (err q) (if displaced then dropped q + 1 else dropped q) (dropError q)
  end.

Definition qpop (q : nqueue) : nqueue * option T :=
  let '(r, x) := pop zero (notifies q) in
  (NQueue r (notify q) (err q) (dropped q) (dropError q), x).

(** One turn of the loop of [next] under the lock; [None] goes on to wait. *)
Definition qnext (q : nqueue) : nqueue * option (result error T) :=
  if 0 <? dropped q then
    (NQueue (notifies q) (notify q) (err q) 0 (dropError q), Some (Err (dropError q (dropped q))))
  else
    match qpop q with
    | (q, Some x) => (q, Some (Ok x))
    | (q, None) => (q, Err <$> err q)
    end.

Definition qclose (e : option error) (q : nqueue) : nqueue :=
  match err q with
  | Some _ => q
  | None => NQueue (notifies q) true e (dropped q) (dropError q)
  end.

(** ** What a queue promises *)

Definition items (q : nqueue) : list T := abs zero (notifies q).

Definition qwf (q : nqueue) : Prop := wf (notifies q) ∧ cap (notifies q) = notificationQueueCapacity.

(** Newest kept, oldest evicted and counted. *)
Definition bounded_push (x : T) (s : list T * nat) : list T * nat :=
  if length s.1 =? notificationQueueCapacity then (drop 1 s.1 ++ [x], s.2 + 1) else (s.1 ++ [x], s.2).

Lemma pushDisplacing_cap x (r : ring (T := T)) : cap (pushDisplacing zero x r).1 = cap r.
Proof using Type.
  unfold pushDisplacing, store, evict, cap. repeat case_match; simpl; rewrite ?length_insert; done.
Qed.

Lemma pop_cap (r : ring (T := T)) : cap (pop zero r).1 = cap r.
Proof using Type. unfold pop, evict, cap. repeat case_match; simpl; rewrite ?length_insert; done. Qed.

Lemma appendAll_cap xs (r : ring (T := T)) : wf r → cap r ≠ 0 → cap (appendAll xs r).1 = cap r.
Proof using Type.
  intros [_ _ Ht] Hc. rewrite appendAll_eq. repeat case_match; try done. simpl.
  unfold cap in *. simpl. apply length_appended. rewrite Ht by done.
  apply Nat.lt_le_incl, Nat.mod_upper_bound. done.
Qed.

Lemma newQueue_spec f : qwf (newQueue f) ∧ items (newQueue f) = [].
Proof using Type.
  destruct (newNotificationRing_spec zero notificationQueueCapacity) as [Hw Ha].
  split; [|done]. by split.
Qed.

Lemma qpush_spec x q :
  qwf q →
  qwf (qpush x q) ∧ err (qpush x q) = err q ∧ dropError (qpush x q) = dropError q ∧
  (items (qpush x q), dropped (qpush x q)) =
    match err q with
    | Some _ => (items q, dropped q)
    | None => bounded_push x (items q, dropped q)
    end.
Proof using Type.
  intros [Hw Hc]. unfold qpush. destruct (err q) eqn:He; [done|].
  pose proof (pushDisplacing_cap x (notifies q)) as Hcap.
  destruct (pushDisplacing_spec zero x (notifies q) Hw) as [Hw' Hs]; [rewrite Hc; unfold notificationQueueCapacity; lia|].
  destruct (pushDisplacing zero x (notifies q)) as [r b]. simpl in *.
  split_and!; [split; [done|by rewrite <-Hc]|done|done|].
  unfold bounded_push, items. simpl. rewrite abs_length, <-Hc.
  destruct (len (notifies q) =? cap (notifies q)); destruct Hs as [-> ->]; done.
Qed.

Lemma qnext_spec q :
  qwf q →
  qwf (qnext q).1 ∧
  match (qnext q).2 with
  | Some (Ok x) => dropped q = 0 ∧ items q = x :: items (qnext q).1 ∧ dropped (qnext q).1 = 0
  | Some (Err e) =>
      (0 < dropped q ∧ e = dropError q (dropped q) ∧ dropped (qnext q).1 = 0 ∧ items (qnext q).1 = items q) ∨
      (dropped q = 0 ∧ items q = [] ∧ err q = Some e)
  | None => dropped q = 0 ∧ items q = [] ∧ err q = None ∧ (qnext q).1 = q
  end.
Proof using Type.
  intros [Hw Hc]. unfold qnext, qpop. destruct (0 <? dropped q) eqn:Ed.
  { simpl. split; [done|]. left. split_and!; [lia|done..]. }
  pose proof (pop_cap (notifies q)) as Hcap. destruct (pop_spec zero (notifies q) Hw) as [Hw' Hs].
  destruct (pop zero (notifies q)) as [r o] eqn:Ep. simpl in *.
  assert (qwf (NQueue r (notify q) (err q) (dropped q) (dropError q))) as Hq by (split; [done|by rewrite <-Hc]).
  fold (items q) in Hs. destruct (items q) as [|x l] eqn:Ei.
  - injection Hs as -> ->. split; [done|]. simpl. destruct (err q) eqn:Ee; simpl; [right|]; split_and!; try (done || lia).
    rewrite <-Ee. by destruct q.
  - destruct Hs as [-> Hl]. split; [done|]. simpl. unfold items. simpl. rewrite Hl. split_and!; (done || lia).
Qed.

(** ** router.go *)

Definition pushPendingNotification (pending : list T) (notif : T) : list T * bool :=
  if length pending <? notificationQueueCapacity then (pending ++ [notif], false)
  else (<[length pending - 1 := notif]> (drop 1 pending ++ drop (length pending - 1) pending), true).

(** [global] says whether the channel field is non-nil; queues are shared
    objects, named by their index in [heap]. *)
Record router := MkRouter {
  global : bool;
  queues : gmap bytes nat;
  pending : gmap bytes (list T);
  pendingDropped : gmap bytes nat;
  loginQueues : gmap bytes nat;
  pendingLogin : gmap bytes (list T);
  pendingLoginDropped : gmap bytes nat;
  processQueues : gmap bytes nat;
  closed : bool;
  rerr : option error;
}.

Record state := St { rt : router; heap : list nqueue; chan : list T; chanClosed : bool }.

Definition newTurnNotificationRouter : state :=
  St (MkRouter true ∅ ∅ ∅ ∅ ∅ ∅ ∅ false None) [] [] false.

Definition set_turns (q : gmap bytes nat) (p : gmap bytes (list T)) (d : gmap bytes nat) (r : router) : router :=
  MkRouter (global r) q p d (loginQueues r) (pendingLogin r) (pendingLoginDropped r) (processQueues r) (closed r) (rerr r).

Definition set_logins (q : gmap bytes nat) (p : gmap bytes (list T)) (d : gmap bytes nat) (r : router) : router :=
  MkRouter (global r) (queues r) (pending r) (pendingDropped r) q p d (processQueues r) (closed r) (rerr r).

Definition set_processes (q : gmap bytes nat) (r : router) : router :=
  MkRouter (global r) (queues r) (pending r) (pendingDropped r) (loginQueues r) (pendingLogin r)
    (pendingLoginDropped r) q (closed r) (rerr r).

Definition with_rt (f : router → router) (st : state) : state := St (f (rt st)) (heap st) (chan st) (chanClosed st).

Definition set_heap (h : list nqueue) (st : state) : state := St (rt st) h (chan st) (chanClosed st).

Definition set_chan (c : list T) (st : state) : state := St (rt st) (heap st) c (chanClosed st).

(** A fresh queue in which the pending notifications and their drop count are
    migrated; [None] on overflow. *)
Definition migrate (pend : option (list T)) (drops : option nat) (q : nqueue) : option nqueue :=
  match appendAll (default [] pend) (notifies q) with
  | (_, false) => None
  | (r, true) =>
      let d := default 0 drops in
      Some (NQueue r (notify q || (0 <? d)) (err q) (if 0 <? d then d else dropped q) (dropError q))
  end.

(** [if len(pending) > 0 { ... delete(m, k) }] and the same for the counter. *)
Definition taken {A} (nonzero : A → bool) (k : bytes) (m : gmap bytes A) : gmap bytes A :=
  match m !! k with Some v => if nonzero v then delete k m else m | None => m end.

Definition nonempty (l : list T) : bool := 0 <? length l.
Definition positive (n : nat) : bool := 0 <? n.

Definition register (turnID : bytes) (st : state) : state * (option nat * option error) :=
  let r := rt st in
  if decide (turnID = []) then (st, (None, Some (Errorf "turn notification router: empty turn id" [])))
  else if closed r then (st, (None, rerr r))
  else if queues r !! turnID is Some _ then (st, (None, Some (Errorf "turn consumer already active for %s" turnID)))
  else
    match migrate (pending r !! turnID) (pendingDropped r !! turnID) (newTurnNotificationQueue turnID) with
    | None => (st, (None, Some (Errorf "turn notification router: pending queue overflow for %s" turnID)))
    | Some q =>
        let id := length (heap st) in
        (set_heap (heap st ++ [q])
           (with_rt (set_turns (<[turnID := id]> (queues r)) (taken nonempty turnID (pending r))
                       (taken positive turnID (pendingDropped r))) st), (Some id, None))
    end.

Definition registerLogin (loginID : bytes) (st : state) : state * (option nat * option error) :=
  let r := rt st in
  if decide (loginID = []) then (st, (None, Some (Errorf "login notification router: empty login id" [])))
  else if closed r then (st, (None, rerr r))
  else if loginQueues r !! loginID is Some _ then (st, (None, Some (Errorf "login consumer already active for %s" loginID)))
  else
    match migrate (pendingLogin r !! loginID) (pendingLoginDropped r !! loginID) (newLoginNotificationQueue loginID) with
    | None => (st, (None, Some (Errorf "login notification router: pending queue overflow for %s" loginID)))
    | Some q =>
        let id := length (heap st) in
        (set_heap (heap st ++ [q])
           (with_rt (set_logins (<[loginID := id]> (loginQueues r)) (taken nonempty loginID (pendingLogin r))
                       (taken positive loginID (pendingLoginDropped r))) st), (Some id, None))
    end.

Definition processNotificationRouterClosedError (e : option error) : error :=
  default (TransportClosedError "process notification router closed") e.

Definition registerProcess (processHandle : bytes) (st : state) : state * option error :=
  let r := rt st in
  if decide (processHandle = []) then (st, Some (Errorf "process notification router: empty process handle" []))
  else if closed r then (st, Some (processNotificationRouterClosedError (rerr r)))
  else if processQueues r !! processHandle is Some _ then
    (st, Some (Errorf "process consumer already active for %s" processHandle))
  else
    (set_heap (heap st ++ [newProcessNotificationQueue processHandle])
       (with_rt (set_processes (<[processHandle := length (heap st)]> (processQueues r))) st), None).

Definition unregister (turnID : bytes) (st : state) : state :=
  if decide (turnID = []) then st
  else with_rt (λ r, set_turns (delete turnID (queues r)) (pending r) (pendingDropped r) r) st.

Definition unregisterLogin (loginID : bytes) (st : state) : state :=
  if decide (loginID = []) then st
  else with_rt (λ r, set_logins (delete loginID (loginQueues r)) (pendingLogin r) (pendingLoginDropped r) r) st.

(** [queue.close] on the shared object. *)
Definition close_at (e : option error) (h : list nqueue) (id : nat) : list nqueue := alter (qclose e) id h.

Definition unregisterProcess (processHandle : bytes) (st : state) : state :=
  if decide (processHandle = []) then st
  else
    let queue := processQueues (rt st) !! processHandle in
    let st := with_rt (λ r, set_processes (delete processHandle (processQueues r)) r) st in
    match queue with
    | Some id => set_heap (close_at (Some (Errorf "process consumer closed for %s" processHandle)) (heap st) id) st
    | None => st
    end.

Definition clearPending (turnID : bytes) (st : state) : state :=
  if decide (turnID = []) then st
  else with_rt (λ r, set_turns (queues r) (delete turnID (pending r)) (pendingDropped r) r) st.

Definition clearLoginPending (loginID : bytes) (st : state) : state :=
  if decide (loginID = []) then st
  else with_rt (λ r, set_logins (loginQueues r) (delete loginID (pendingLogin r))
                       (delete loginID (pendingLoginDropped r)) r) st.

(** The non-blocking sends and the receive of [select] on the global channel. *)
Definition try_send (x : T) (c : list T) : option (list T) :=
  if length c <? notificationQueueCapacity then Some (c ++ [x]) else None.

Definition try_recv (c : list T) : list T := drop 1 c.

(** [nextGlobal] callers, which do not hold the lock while they receive, may take
    [fst k] elements between the first two selects and [snd k] before the third. *)
Definition routeGlobalLocked (k : nat * nat) (notif : T) (c : list T) : list T :=
  match try_send notif c with
  | Some c => c
  | None =>
      let c := try_recv (drop k.1 c) in
      let c := drop k.2 c in
      default c (try_send notif c)
  end.

Definition push_at (x : T) (id : nat) (st : state) : state := set_heap (alter (qpush x) id (heap st)) st.

(** The rest of [route], when no process consumer took the notification. *)
Definition routeTurn (k : nat * nat) (notif : T) (turnID : bytes) (st : state) : state * option error :=
  let r := rt st in
  if decide (turnID = []) then (set_chan (routeGlobalLocked k notif (chan st)) st, None)
  else
    match queues r !! turnID with
    | Some id => (push_at notif id st, None)
    | None =>
        let '(p, d) := pushPendingNotification (default [] (pending r !! turnID)) notif in
        (with_rt (set_turns (queues r) (<[turnID := p]> (pending r))
           (if d then <[turnID := default 0 (pendingDropped r !! turnID) + 1]> (pendingDropped r)
            else pendingDropped r)) st, None)
    end.

Definition routeLogin (k : nat * nat) (notif : T) (loginID : bytes) (st : state) : state * option error :=
  let r := rt st in
  if closed r then (st, rerr r)
  else if decide (loginID = []) then (set_chan (routeGlobalLocked k notif (chan st)) st, None)
  else
    match loginQueues r !! loginID with
    | Some id => (push_at notif id st, None)
    | None =>
        let '(p, d) := pushPendingNotification (default [] (pendingLogin r !! loginID)) notif in
        (with_rt (set_logins (loginQueues r) (<[loginID := p]> (pendingLogin r))
           (if d then <[loginID := default 0 (pendingLoginDropped r !! loginID) + 1]> (pendingLoginDropped r)
            else pendingLoginDropped r)) st, None)
    end.

Definition values_of (m : gmap bytes nat) : list nat := (map_to_list m).*2.

Definition close (e : option error) (st : state) : state :=
  let r := rt st in
  if closed r then st
  else
    let h := foldl (close_at e) (heap st) (values_of (queues r)) in
    let h := foldl (close_at e) h (values_of (loginQueues r)) in
    let h := foldl (close_at (Some (processNotificationRouterClosedError e))) h (values_of (processQueues r)) in
    St (MkRouter false ∅ ∅ ∅ ∅ ∅ ∅ ∅ true e) h (chan st) (global r || chanClosed st).

Definition closedErr (e : error) (st : state) : error := default e (rerr (rt st)).

(** [queue.next] on the shared object, one turn of its loop; [None] waits. *)
Definition next_at (id : nat) (st : state) : state * option (T * option error) :=
  match heap st !! id with
  | None => (st, None)
  | Some q =>
      let '(q, o) := qnext q in
      (set_heap (<[id := q]> (heap st)) st,
       (λ r, match r with Ok x => (x, None) | Err e => (zero, Some e) end) <$> o)
  end.

Definition next (turnID : bytes) (st : state) : state * option (T * option error) :=
  if closed (rt st) then (st, Some (zero, rerr (rt st)))
  else match queues (rt st) !! turnID with
       | None => (st, Some (zero, Some (Errorf "turn consumer is not active for %s" turnID)))
       | Some id => next_at id st
       end.

Definition nextLogin (loginID : bytes) (st : state) : state * option (T * option error) :=
  if closed (rt st) then (st, Some (zero, rerr (rt st)))
  else match loginQueues (rt st) !! loginID with
       | None => (st, Some (zero, Some (Errorf "login consumer is not active for %s" loginID)))
       | Some id => next_at id st
       end.

Definition nextProcess (processHandle : bytes) (st : state) : state * option (T * option error) :=
  if closed (rt st) then (st, Some (zero, Some (processNotificationRouterClosedError (rerr (rt st)))))
  else match processQueues (rt st) !! processHandle with
       | None => (st, Some (zero, Some (Errorf "process consumer is not active for %s" processHandle)))
       | Some id => next_at id st
       end.

Definition streamClosed : error := TransportClosedError "app-server notification stream closed".

(** The receive of [nextGlobal], which may come after the router was closed. *)
Definition recvGlobal (st : state) : state * option (T * option error) :=
  match chan st with
  | x :: c => (set_chan c st, Some (x, None))
  | [] => (st, if chanClosed st then Some (zero, Some (closedErr streamClosed st)) else None)
  end.

Definition nextGlobal (st : state) : state * option (T * option error) :=
  if closed (rt st) then (st, Some (zero, Some (default streamClosed (rerr (rt st))))) else recvGlobal st.

(** ** The abstract router: one mailbox per scope *)

Inductive scope := Turn (turnID : bytes) | Login (loginID : bytes) | Process (processHandle : bytes).

#[local] Instance scope_eq_dec : EqDecision scope.
Proof using Type. solve_decision. Defined.

Definition scope_id (s : scope) : bytes := match s with Turn i | Login i | Process i => i end.

Definition scope_dropError (s : scope) : nat → error :=
  match s with
  | Turn i => NotificationDroppedError i
  | Login i => LoginNotificationDroppedError i
  | Process i => ProcessNotificationDroppedError i
  end.

(** A mailbox is the notifications kept and the number dropped since the last
    report; it is [active] when a consumer is registered. *)
Record spec := Spec {
  mail : scope → list T * nat;
  active : scope → bool;
  glob : list T;
  sclosed : option (option error);
}.

Definition upd {A} (s : scope) (v : A) (f : scope → A) : scope → A := λ s', if decide (s = s') then v else f s'.

Inductive op :=
| Route (notif : T) (k : nat * nat)
| Register (s : scope)
| Unregister (s : scope)
| ClearPending (turnID : bytes)
| ClearLoginPending (loginID : bytes)
| Next (s : scope)
| NextGlobal
| RecvGlobal
| Close (e : option error).

(** What the caller sees: an error (or nil), a received notification with its
    error, or a consumer that has to wait. *)
Inductive response := Done (e : option error) | Received (r : T * option error) | Waiting.

Definition received (o : option (T * option error)) : response :=
  match o with Some r => Received r | None => Waiting end.

Definition scope_closed (s : scope) (e : option error) : option error :=
  if s is Process _ then Some (processNotificationRouterClosedError e) else e.

Definition empty_id (s : scope) : error :=
  Errorf match s with
         | Turn _ => "turn notification router: empty turn id"
         | Login _ => "login notification router: empty login id"
         | Process _ => "process notification router: empty process handle"
         end [].

Definition already_active (s : scope) : error :=
  Errorf match s with
         | Turn _ => "turn consumer already active for %s"
         | Login _ => "login consumer already active for %s"
         | Process _ => "process consumer already active for %s"
         end (scope_id s).

Definition not_active (s : scope) : error :=
  Errorf match s with
         | Turn _ => "turn consumer is not active for %s"
         | Login _ => "login consumer is not active for %s"
         | Process _ => "process consumer is not active for %s"
         end (scope_id s).

Definition srecv (sp : spec) : spec * response :=
  match glob sp with
  | x :: g => (Spec (mail sp) (active sp) g (sclosed sp), Received (x, None))
  | [] => (sp, match sclosed sp with
               | Some e => Received (zero, Some (default streamClosed e))
               | None => Waiting
               end)
  end.

(** The global channel keeps the newest [notificationQueueCapacity] entries. *)
Definition global_push (k : nat * nat) (x : T) (g : list T) : list T :=
  if length g <? notificationQueueCapacity then g ++ [x] else drop (k.1 + (1 + k.2)) g ++ [x].


(** ** Representation *)

Definition qid (r : router) (s : scope) : option nat :=
  match s with
  | Turn i => queues r !! i
  | Login i => loginQueues r !! i
  | Process i => processQueues r !! i
  end.

Definition pend (r : router) (s : scope) : list T * nat :=
  match s with
  | Turn i => (default [] (pending r !! i), default 0 (pendingDropped r !! i))
  | Login i => (default [] (pendingLogin r !! i), default 0 (pendingLoginDropped r !! i))
  | Process _ => ([], 0)
  end.

Record repr (st : state) (sp : spec) : Prop := {
  r_heap : Forall qwf (heap st);
  r_queue : ∀ s i, qid (rt st) s = Some i →
    pend (rt st) s = ([], 0) ∧
    ∃ q, heap st !! i = Some q ∧ err q = None ∧ dropError q = scope_dropError s ∧ mail sp s = (items q, dropped q);
  r_inj : ∀ s s' i, qid (rt st) s = Some i → qid (rt st) s' = Some i → s = s';
  r_mail : ∀ s, qid (rt st) s = None → mail sp s = pend (rt st) s;
  r_pend : ∀ s, length (pend (rt st) s).1 ≤ notificationQueueCapacity;
  r_active : ∀ s, active sp s = bool_decide (is_Some (qid (rt st) s));
  r_empty : ∀ s, scope_id s = [] → qid (rt st) s = None ∧ pend (rt st) s = ([], 0);
  r_closed : sclosed sp = if closed (rt st) then Some (rerr (rt st)) else None;
  r_dead : closed (rt st) = true → ∀ s, qid (rt st) s = None ∧ pend (rt st) s = ([], 0);
  r_err : closed (rt st) = false → rerr (rt st) = None;
  r_glob : glob sp = chan st ∧ length (chan st) ≤ notificationQueueCapacity;
  r_chan : global (rt st) = negb (closed (rt st)) ∧ chanClosed st = closed (rt st);
}.

(** Abstract states are compared scope by scope. *)
#[local] Instance spec_equiv : Equiv spec := λ sp sp',
  (∀ s, mail sp s = mail sp' s) ∧ (∀ s, active sp s = active sp' s) ∧ glob sp = glob sp' ∧ sclosed sp = sclosed sp'.

#[local] Instance repr_proper st : Proper ((≡) ==> impl) (repr st).
Proof using Type.
  intros sp sp' (Hm & Ha & Hg & Hc) []. split; rewrite <-?Hg, <-?Hc; try done.
  - intros s i Hi. destruct (r_queue0 s i Hi) as (? & q & ? & ? & ? & ?). split; [done|]. exists q. by rewrite <-Hm.
  - intros s Hs. rewrite <-Hm. auto.
  - intros s. by rewrite <-Ha.
Qed.

(** Two routers with the same queues and pending entries represent the same. *)
Lemma repr_ext st sp r' :
  repr st sp → (∀ s, qid r' s = qid (rt st) s) → (∀ s, pend r' s = pend (rt st) s) →
  closed r' = closed (rt st) → rerr r' = rerr (rt st) → global r' = global (rt st) →
  repr (with_rt (λ _, r') st) sp.
Proof using Type.
  intros [] Hq Hp Hc He Hg. split; simpl; rewrite ?Hc, ?He, ?Hg; try done; intros s; rewrite ?Hq, ?Hp; auto.
  - intros s' i. rewrite !Hq. eauto.
  - intros s'. rewrite Hq, Hp. auto.
Qed.

Lemma upd_eq {A} s (v : A) f : upd s v f s = v.
Proof using Type. unfold upd. by rewrite decide_True. Qed.

Lemma upd_ne {A} s s' (v : A) f : s ≠ s' → upd s v f s' = f s'.
Proof using Type. intros. unfold upd. by rewrite decide_False. Qed.

Lemma pushPending_spec l x d :
  length l ≤ notificationQueueCapacity →
  let '(p, b) := pushPendingNotification l x in
  (p, if b then d + 1 else d) = bounded_push x (l, d) ∧ length p ≤ notificationQueueCapacity.
Proof using Type.
  intros Hl. unfold pushPendingNotification, bounded_push. cbn [fst snd].
  destruct (length l <? notificationQueueCapacity) eqn:E1, (length l =? notificationQueueCapacity) eqn:E2; try lia.
  - split; [done|]. rewrite length_app. simpl. lia.
  - assert (0 < length l) as H0 by (unfold notificationQueueCapacity in *; lia).
    assert (length (drop 1 l) = length l - 1) as Hd by apply length_drop.
    destruct (drop (length l - 1) l) as [|y [|z m]] eqn:Ed.
    1,3: apply (f_equal length) in Ed; rewrite length_drop in Ed; simpl in Ed; lia.
    split; [|rewrite length_insert, length_app, Hd; simpl; lia]. f_equal.
    rewrite insert_app_r_alt by lia. by rewrite Hd, Nat.sub_diag.
Qed.

Lemma routeGlobal_spec k x c :
  length c ≤ notificationQueueCapacity →
  routeGlobalLocked k x c = global_push k x c ∧ length (global_push k x c) ≤ notificationQueueCapacity.
Proof using Type.
  intros Hc. unfold routeGlobalLocked, global_push, try_send, try_recv.
  destruct (length c <? notificationQueueCapacity) eqn:E.
  - split; [done|]. rewrite length_app. simpl. lia.
  - rewrite !drop_drop. rewrite length_drop, length_app, length_drop. unfold notificationQueueCapacity in *.
    replace (_ <? 128) with true by (symmetry; apply Nat.ltb_lt; lia). split; [done|simpl; lia].
Qed.

Lemma list_alter_to_insert {A} (f : A → A) (l : list A) i x : l !! i = Some x → alter f i l = <[i := f x]> l.
Proof using Type.
  revert i. induction l as [|y l IH]; intros [|i] H; simplify_eq/=; [done|]. by rewrite IH.
Qed.

(** *** A registered queue is replaced in place *)
Lemma repr_set_queue st sp s i q q' :
  repr st sp → qid (rt st) s = Some i → heap st !! i = Some q →
  qwf q' → err q' = None → dropError q' = dropError q →
  repr (set_heap (<[i := q']> (heap st)) st)
       (Spec (upd s (items q', dropped q') (mail sp)) (active sp) (glob sp) (sclosed sp)).
Proof using Type.
  intros [] Hs Hi Hw He Hd. split; simpl; try done.
  - by apply Forall_insert.
  - intros s' i' Hs'. destruct (r_queue0 s' i' Hs') as (Hp & q0 & Hq0 & He0 & Hd0 & Hm). split; [done|].
    destruct (decide (s = s')) as [<-|Hne].
    + assert (i' = i) as -> by congruence. exists q'. rewrite list_lookup_insert_eq by by eapply lookup_lt_Some.
      rewrite upd_eq. split_and!; congruence.
    + exists q0. rewrite list_lookup_insert_ne by (intros <-; eauto). by rewrite upd_ne.
  - intros s' Hs'. rewrite upd_ne; [auto|congruence].
Qed.

Lemma repr_push_at st sp s i x :
  repr st sp → qid (rt st) s = Some i →
  repr (push_at x i st) (Spec (upd s (bounded_push x (mail sp s)) (mail sp)) (active sp) (glob sp) (sclosed sp)).
Proof using Type.
  intros Hr Hs. destruct (r_queue _ _ Hr s i Hs) as (_ & q & Hq & He & Hd & ->).
  assert (qwf q) as Hw by (eapply Forall_lookup_1; [apply Hr|done]).
  destruct (qpush_spec x q Hw) as (Hw' & He' & Hd' & Hs'). rewrite He in Hs', He'.
  unfold push_at. rewrite (list_alter_to_insert _ _ _ q) by done.
  rewrite <-Hs'. by eapply repr_set_queue.
Qed.

(** *** The pending entry of an unregistered scope is replaced *)
Lemma repr_pend st sp r' s v :
  repr st sp → qid (rt st) s = None → length v.1 ≤ notificationQueueCapacity →
  (scope_id s = [] ∨ closed (rt st) = true → v = ([], 0)) →
  (∀ s', qid r' s' = qid (rt st) s') → (∀ s', pend r' s' = upd s v (pend (rt st)) s') →
  closed r' = closed (rt st) → rerr r' = rerr (rt st) → global r' = global (rt st) →
  repr (with_rt (λ _, r') st) (Spec (upd s v (mail sp)) (active sp) (glob sp) (sclosed sp)).
Proof using Type.
  intros [] Hs Hv Hv0 Hq Hp Hc He Hg. split; simpl; try done; try setoid_rewrite Hq; rewrite ?Hc, ?He, ?Hg; try done.
  - intros s' i Hs'. rewrite Hp, !upd_ne by congruence. auto.
  - intros s' Hs'. rewrite Hp. unfold upd. case_decide; auto.
  - intros s'. rewrite Hp. unfold upd. case_decide; auto.
  - intros s'. by rewrite Hq.
  - intros s' Hs'. rewrite Hp. destruct (r_empty0 s' Hs'). unfold upd. case_decide; subst; auto.
  - intros Hcl s'. rewrite Hp. destruct (r_dead0 Hcl s'). unfold upd. case_decide; subst; auto.
Qed.

(** *** Registration moves a pending entry into a fresh queue *)
Lemma migrate_spec p d f :
  length (default [] p) ≤ notificationQueueCapacity →
  ∃ q, migrate p d (newQueue f) = Some q ∧ qwf q ∧ err q = None ∧ dropError q = f ∧
       (items q, dropped q) = (default [] p, default 0 d).
Proof using Type.
  intros Hp. unfold migrate. destruct (newQueue_spec f) as [[Hw Hc] Hi].
  pose proof (appendAll_cap (default [] p) (notifies (newQueue f)) Hw) as Hac.
  destruct (appendAll_spec zero (default [] p) (notifies (newQueue f)) Hw) as [Hw' Hs].
  destruct (_ <=? _) eqn:E; [|rewrite Hc in E; simpl in E; unfold notificationQueueCapacity in *; lia].
  destruct (appendAll (default [] p) (notifies (newQueue f))) as [r b]. destruct Hs as [Hb Ha].
  cbn [fst snd] in *. subst b. eexists. split; [done|]. split_and!; [|done|done|].
  - split; [done|]. cbn [notifies]. rewrite Hac; [done|]. rewrite Hc. done.
  - unfold items in *. cbn [notifies dropped]. rewrite Ha, Hi. cbn [app dropped newQueue].
    destruct (0 <? default 0 d) eqn:E2; [done|]. f_equal. lia.
Qed.

Lemma repr_register st sp r' s q :
  repr st sp → closed (rt st) = false → qid (rt st) s = None → scope_id s ≠ [] →
  qwf q → err q = None → dropError q = scope_dropError s → (items q, dropped q) = pend (rt st) s →
  (∀ s', qid r' s' = upd s (Some (length (heap st))) (qid (rt st)) s') →
  (∀ s', pend r' s' = upd s ([], 0) (pend (rt st)) s') →
  closed r' = closed (rt st) → rerr r' = rerr (rt st) → global r' = global (rt st) →
  repr (set_heap (heap st ++ [q]) (with_rt (λ _, r') st)) (Spec (mail sp) (upd s true (active sp)) (glob sp) (sclosed sp)).
Proof using Type.
  intros [] Ho Hs Hid Hw He Hd Hm Hq Hp Hc He' Hg.
  assert (∀ s' i, qid (rt st) s' = Some i → i < length (heap st)) as Hlt
    by (intros s' i Hi; destruct (r_queue0 s' i Hi) as (_ & q0 & Hq0 & _); by eapply lookup_lt_Some).
  split; simpl; rewrite ?Hc, ?He', ?Hg; try done.
  - apply Forall_app. by rewrite Forall_singleton.
  - intros s' i. rewrite Hq, Hp. destruct (decide (s = s')) as [<-|Hne].
    + rewrite !upd_eq. intros [= <-]. split; [done|]. exists q. rewrite lookup_app_r, Nat.sub_diag by done.
      split_and!; try done. rewrite Hm. auto.
    + rewrite !upd_ne by done. intros Hi. destruct (r_queue0 s' i Hi) as (? & q0 & Hq0 & ?). split; [done|].
      exists q0. by rewrite lookup_app_l by by eapply lookup_lt_Some.
  - intros s1 s2 i. rewrite !Hq. unfold upd. repeat case_decide; intros; simplify_eq; eauto.
    all: exfalso; match goal with H : qid _ _ = Some (length _) |- _ => apply Hlt in H; lia end.
  - intros s'. rewrite Hq, Hp. unfold upd. case_decide; [done|]. auto.
  - intros s'. rewrite Hp. unfold upd. case_decide; [|done]. simpl. unfold notificationQueueCapacity. lia.
  - intros s'. rewrite Hq. unfold upd. case_decide; [|done]. by rewrite bool_decide_eq_true_2.
  - intros s' Hs'. rewrite Hq, Hp, !upd_ne by congruence. auto.
  - congruence.
Qed.

(** *** Unregistration *)
Lemma repr_unregister st sp r' s :
  repr st sp →
  (∀ s', qid r' s' = upd s None (qid (rt st)) s') → (∀ s', pend r' s' = pend (rt st) s') →
  closed r' = closed (rt st) → rerr r' = rerr (rt st) → global r' = global (rt st) →
  repr (with_rt (λ _, r') st)
    (Spec (if active sp s then upd s ([], 0) (mail sp) else mail sp) (upd s false (active sp)) (glob sp) (sclosed sp)).
Proof using Type.
  intros [] Hq Hp Hc He Hg. split; simpl; rewrite ?Hc, ?He, ?Hg; try done.
  - intros s' i. rewrite Hq, Hp. unfold upd. case_decide; [done|]. intros Hi.
    destruct (active sp s); cbv beta; rewrite ?decide_False by done; auto.
  - intros s1 s2 i. rewrite !Hq. unfold upd. repeat case_decide; (discriminate || eauto).
  - intros s'. rewrite Hq, Hp, r_active0. unfold upd. case_decide as Hss.
    + intros _. subst s'. destruct (qid (rt st) s) as [i|] eqn:Hi.
      * rewrite bool_decide_eq_true_2 by done. destruct (r_queue0 s i Hi) as [-> _]. by rewrite decide_True.
      * rewrite bool_decide_eq_false_2 by (by intros []). auto.
    + intros Hn. destruct (bool_decide _); rewrite ?decide_False by done; auto.
  - intros s'. by rewrite Hp.
  - intros s'. rewrite Hq. unfold upd. case_decide; [|done]. symmetry. apply bool_decide_eq_false_2. by intros [].
  - intros s' Hs'. rewrite Hq, Hp. unfold upd. destruct (r_empty0 s' Hs') as [-> ->]. by case_decide.
  - intros Hcl s'. rewrite Hq, Hp. unfold upd. destruct (r_dead0 Hcl s') as [-> ->]. by case_decide.
Qed.

Lemma Forall_close_at e h i : Forall qwf h → Forall qwf (close_at e h i).
Proof using Type.
  intros Hh. apply Forall_alter; [done|]. intros q Hq Hw. unfold qclose. by destruct (err q).
Qed.

Lemma Forall_close_all e l h : Forall qwf h → Forall qwf (foldl (close_at e) h l).
Proof using Type. revert h. induction l as [|i l IH]; intros h Hh; simpl; [done|]. by apply IH, Forall_close_at. Qed.

(** A queue that no scope maps to may be closed. *)
Lemma repr_close_at st sp e i :
  repr st sp → (∀ s, qid (rt st) s ≠ Some i) → repr (set_heap (close_at e (heap st) i) st) sp.
Proof using Type.
  intros [] Hi. split; simpl; try done.
  - by apply Forall_close_at.
  - intros s j Hj. destruct (r_queue0 s j Hj) as (Hp & q & Hq & ?). split; [done|]. exists q.
    unfold close_at. rewrite list_lookup_alter_ne; [done|]. intros ->. by eapply Hi.
Qed.

Lemma repr_close st sp e :
  repr st sp → closed (rt st) = false →
  repr (close e st) (Spec (λ _, ([], 0)) (λ _, false) (glob sp) (Some e)).
Proof using Type.
  intros [] Ho. unfold close. rewrite Ho. destruct r_glob0, r_chan0 as [-> ->].
  assert (∀ s, qid (MkRouter false ∅ ∅ ∅ ∅ ∅ ∅ ∅ true e) s = None) as Hq by (intros []; apply lookup_empty).
  assert (∀ s, pend (MkRouter false ∅ ∅ ∅ ∅ ∅ ∅ ∅ true e) s = ([], 0)) as Hp
    by (intros []; simpl; rewrite ?lookup_empty; done).
  split; simpl rt in *; simpl heap; simpl mail; simpl active; intros; rewrite ?Hq, ?Hp in *; try done.
  - by repeat apply Forall_close_all.
  - simpl. unfold notificationQueueCapacity. lia.
  - by rewrite Ho.
Qed.

Lemma repr_new : repr newTurnNotificationRouter (Spec (λ _, ([], 0)) (λ _, false) [] None).
Proof using Type.
  assert (∀ s, qid (rt newTurnNotificationRouter) s = None) as Hq by (intros []; apply lookup_empty).
  assert (∀ s, pend (rt newTurnNotificationRouter) s = ([], 0)) as Hp
    by (intros []; simpl; rewrite ?lookup_empty; done).
  split; intros; rewrite ?Hq, ?Hp in *; simpl; try done. all: try (split; [done|]); unfold notificationQueueCapacity; lia.
Qed.


(** *** Operations on one scope *)

#[local] Ltac view :=
  intros [?|?|?]; simpl; unfold upd; rewrite ?lookup_insert, ?lookup_delete; repeat case_decide; simplify_eq; done.

Lemma taken_default {A} (nz : A → bool) (z : A) (k k' : bytes) (m : gmap bytes A) :
  (∀ v, nz v = false → v = z) →
  default z (taken nz k m !! k') = if decide (k = k') then z else default z (m !! k').
Proof using Type.
  intros Hz. unfold taken. destruct (m !! k) as [v|] eqn:Ek; [destruct (nz v) eqn:Ev|].
  - rewrite lookup_delete. by case_decide.
  - case_decide; [subst; rewrite Ek; simpl; auto|done].
  - case_decide; [by subst; rewrite Ek|done].
Qed.

Lemma nonempty_false l : nonempty l = false → l = [].
Proof using Type. destruct l; done. Qed.

Lemma positive_false n : positive n = false → n = 0.
Proof using Type. unfold positive. lia. Qed.

Lemma active_qid st sp s : repr st sp → active sp s = if qid (rt st) s is Some _ then true else false.
Proof using Type.
  intros Hr. rewrite (r_active _ _ Hr). destruct (qid (rt st) s); [by apply bool_decide_eq_true_2|].
  apply bool_decide_eq_false_2. by intros [].
Qed.

Lemma upd_same {A} s s' (f : scope → A) v : f s = v → upd s v f s' = f s'.
Proof using Type. intros <-. unfold upd. case_decide; congruence. Qed.

Definition sregister (s : scope) (sp : spec) : spec * response :=
  if decide (scope_id s = []) then (sp, Done (Some (empty_id s)))
  else match sclosed sp with
       | Some e => (sp, Done (scope_closed s e))
       | None =>
           if active sp s then (sp, Done (Some (already_active s)))
           else (Spec (mail sp) (upd s true (active sp)) (glob sp) None, Done None)
       end.

Definition do_register (s : scope) (st : state) : state * response :=
  match s with
  | Turn i => let '(st, (_, e)) := register i st in (st, Done e)
  | Login i => let '(st, (_, e)) := registerLogin i st in (st, Done e)
  | Process i => let '(st, e) := registerProcess i st in (st, Done e)
  end.

Lemma register_refines s st sp :
  repr st sp →
  repr (do_register s st).1 (sregister s sp).1 ∧ (do_register s st).2 = (sregister s sp).2.
Proof using Type.
  intros Hr. unfold sregister. rewrite (active_qid _ _ s Hr), (r_closed _ _ Hr).
  assert (closed (rt st) = false → sclosed sp = None) as Ho by (intros Hc; by rewrite (r_closed _ _ Hr), Hc).
  pose proof (r_pend _ _ Hr s) as Hb.
  destruct (qid (rt st) s) as [id|] eqn:Hq; destruct s as [i|i|i]; simpl in *;
    unfold register, registerLogin, registerProcess; rewrite Hq;
    (case_decide as Hi; [done|]); (destruct (closed (rt st)) eqn:Hc; [done|]);
    specialize (Ho eq_refl); try done.
  - destruct (migrate_spec (pending (rt st) !! i) (pendingDropped (rt st) !! i) (NotificationDroppedError i) Hb)
      as (q & Hmig &  Hw & He & Hd & Hm).
    unfold newTurnNotificationQueue, newLoginNotificationQueue. rewrite Hmig.
    split; [|done]. simpl. rewrite <-Ho. apply repr_register with (q := q) (s := Turn i); try done; [view|].
    intros [j|j|j]; simpl; unfold upd; rewrite ?taken_default by auto using nonempty_false, positive_false;
      repeat case_decide; simplify_eq; done.
  - destruct (migrate_spec (pendingLogin (rt st) !! i) (pendingLoginDropped (rt st) !! i)
      (LoginNotificationDroppedError i) Hb) as (q & Hmig & Hw & He & Hd & Hm).
    unfold newTurnNotificationQueue, newLoginNotificationQueue. rewrite Hmig.
    split; [|done]. simpl. rewrite <-Ho. apply repr_register with (q := q) (s := Login i); try done; [view|].
    intros [j|j|j]; simpl; unfold upd; rewrite ?taken_default by auto using nonempty_false, positive_false;
      repeat case_decide; simplify_eq; done.
  - destruct (newQueue_spec (ProcessNotificationDroppedError i)) as [Hw Hm].
    split; [|done]. simpl. rewrite <-Ho. apply repr_register with (s := Process i); try done; view.
Qed.

Definition sunregister (s : scope) (sp : spec) : spec :=
  Spec (if active sp s then upd s ([], 0) (mail sp) else mail sp) (upd s false (active sp)) (glob sp) (sclosed sp).

Definition do_unregister (s : scope) (st : state) : state :=
  match s with Turn i => unregister i st | Login i => unregisterLogin i st | Process i => unregisterProcess i st end.

Lemma sunregister_inactive s sp : active sp s = false → sp ≡ sunregister s sp.
Proof using Type. intros Ha. unfold sunregister. rewrite Ha. split_and!; try done. simpl. intros. by rewrite upd_same. Qed.

Lemma unregister_refines s st sp : repr st sp → repr (do_unregister s st) (sunregister s sp).
Proof using Type.
  intros Hr.
  assert (scope_id s = [] → repr st (sunregister s sp)) as H0.
  { intros Hs. rewrite <-sunregister_inactive; [done|]. rewrite (active_qid st) by done.
    by destruct (r_empty _ _ Hr s Hs) as [-> _]. }
  destruct s as [i|i|i]; simpl; unfold unregister, unregisterLogin, unregisterProcess; (case_decide as Hi; [by apply H0|]).
  1,2: apply repr_unregister; (done || view).
  assert (repr (with_rt (λ r, set_processes (delete i (processQueues r)) r) st) (sunregister (Process i) sp)) as Hu
    by (apply repr_unregister; (done || view)).
  destruct (processQueues (rt st) !! i) as [id|] eqn:Hq; [|done]. apply repr_close_at; [done|].
  intros s Hs. assert (s ≠ Process i) as Hne.
  { intros ->. simpl in Hs. by rewrite lookup_delete_eq in Hs. }
  apply Hne, (r_inj _ _ Hr _ _ id); [|done]. destruct s as [j|j|j]; try done. simpl in *.
  rewrite lookup_delete_ne in Hs; [done|congruence].
Qed.

Lemma clear_refines i st sp :
  repr st sp →
  repr (clearPending i st)
    (Spec (if active sp (Turn i) then mail sp else upd (Turn i) ([], (mail sp (Turn i)).2) (mail sp))
       (active sp) (glob sp) (sclosed sp)).
Proof using Type.
  intros Hr. rewrite (active_qid st) by done. unfold clearPending. destruct (qid (rt st) (Turn i)) as [id|] eqn:Hq.
  - assert (sp ≡ Spec (mail sp) (active sp) (glob sp) (sclosed sp)) as <- by done. case_decide; [done|].
    destruct (r_queue _ _ Hr _ _ Hq) as [Hp _]. simpl in Hp. injection Hp as Hp _.
    apply repr_ext; try done. intros [j|j|j]; try done. simpl. rewrite lookup_delete.
    case_decide; [|done]. subst. by rewrite Hp.
  - rewrite (r_mail _ _ Hr _ Hq). case_decide as Hi.
    + subst. destruct (r_empty _ _ Hr (Turn []) eq_refl) as [_ Hp]. rewrite Hp. apply (repr_proper st sp); [|done].
      split_and!; try done. intros s. simpl. rewrite upd_same; [done|]. by rewrite (r_mail _ _ Hr).
    + apply repr_pend; try done; [simpl; lia| |view].
      intros [?|Hc]; [done|]. destruct (r_dead _ _ Hr Hc (Turn i)) as [_ ->]. done.
Qed.

Lemma clearLogin_refines i st sp :
  repr st sp →
  repr (clearLoginPending i st)
    (Spec (if active sp (Login i) then mail sp else upd (Login i) ([], 0) (mail sp))
       (active sp) (glob sp) (sclosed sp)).
Proof using Type.
  intros Hr. rewrite (active_qid st) by done. unfold clearLoginPending. destruct (qid (rt st) (Login i)) as [id|] eqn:Hq.
  - assert (sp ≡ Spec (mail sp) (active sp) (glob sp) (sclosed sp)) as <- by done. case_decide; [done|].
    destruct (r_queue _ _ Hr _ _ Hq) as [Hp _]. simpl in Hp. injection Hp as Hp Hp'.
    apply repr_ext; try done. intros [j|j|j]; try done. simpl. rewrite !lookup_delete.
    case_decide; [|done]. subst. by rewrite Hp, Hp'.
  - case_decide as Hi.
    + subst. destruct (r_empty _ _ Hr (Login []) eq_refl) as [_ Hp]. apply (repr_proper st sp); [|done].
      split_and!; try done. intros s. simpl. rewrite upd_same; [done|]. by rewrite (r_mail _ _ Hr).
    + apply repr_pend; try done; [simpl; lia|view].
Qed.

Definition do_next (s : scope) (st : state) : state * response :=
  match s with
  | Turn i => let '(st, r) := next i st in (st, received r)
  | Login i => let '(st, r) := nextLogin i st in (st, received r)
  | Process i => let '(st, r) := nextProcess i st in (st, received r)
  end.

Definition snext (s : scope) (sp : spec) : spec * response :=
  match sclosed sp with
  | Some e => (sp, Received (zero, scope_closed s e))
  | None =>
      if active sp s then
        match mail sp s with
        | (l, S d) => (Spec (upd s (l, 0) (mail sp)) (active sp) (glob sp) None,
                       Received (zero, Some (scope_dropError s (S d))))
        | (x :: l, 0) => (Spec (upd s (l, 0) (mail sp)) (active sp) (glob sp) None, Received (x, None))
        | ([], 0) => (sp, Waiting)
        end
      else (sp, Received (zero, Some (not_active s)))
  end.

Lemma next_at_refines s i st sp :
  repr st sp → qid (rt st) s = Some i → sclosed sp = None →
  repr (next_at i st).1 (snext s sp).1 ∧ received (next_at i st).2 = (snext s sp).2.
Proof using Type.
  intros Hr Hs Ho. unfold snext. rewrite Ho, (active_qid st), Hs by done.
  destruct (r_queue _ _ Hr s i Hs) as (_ & q & Hq & He & Hd & Hm). unfold next_at. rewrite Hq, Hm.
  assert (qwf q) as Hw by (eapply Forall_lookup_1; [apply Hr|done]).
  pose proof (qnext_spec q Hw) as [Hw' Hn].
  assert (err (qnext q).1 = None ∧ dropError (qnext q).1 = dropError q) as [He' Hd'].
  { unfold qnext, qpop. repeat case_match; simplify_eq/=; done. }
  destruct (qnext q) as [q' o]. simpl in *. pose proof (repr_set_queue st sp s i q q' Hr Hs Hq Hw' He' Hd') as Hr'.
  rewrite Ho in Hr'. destruct o as [[x|e]|].
  - destruct Hn as (H0 & Hi & H0'). rewrite H0' in Hr'. rewrite H0, Hi. simpl. done.
  - destruct Hn as [(H1 & -> & H0 & Hi)|(_ & _ & Hn)]; [|congruence]. rewrite H0, Hi in Hr'.
    destruct (dropped q) as [|d] eqn:Ed; [lia|]. simpl. rewrite Hd, <-Ed in *. destruct (items q); done.
  - destruct Hn as (H0 & Hi & _ & ->). rewrite H0, Hi. simpl. split; [|done].
    rewrite list_insert_id by done. by destruct st.
Qed.

Lemma next_refines s st sp :
  repr st sp → repr (do_next s st).1 (snext s sp).1 ∧ (do_next s st).2 = (snext s sp).2.
Proof using Type.
  intros Hr. pose proof (r_closed _ _ Hr) as Hc. pose proof (active_qid _ _ s Hr) as Ha.
  destruct (closed (rt st)) eqn:Ho.
  { unfold snext. rewrite Hc. destruct s; simpl; unfold next, nextLogin, nextProcess; rewrite Ho; done. }
  destruct (qid (rt st) s) as [i|] eqn:Hq.
  - destruct (next_at_refines s i st sp Hr Hq Hc) as [H1 H2].
    destruct s; simpl in *; unfold next, nextLogin, nextProcess; rewrite Ho, Hq; by destruct (next_at i st).
  - unfold snext. rewrite Hc, Ha. destruct s; simpl in *; unfold next, nextLogin, nextProcess; by rewrite Ho, Hq.
Qed.

Lemma recv_refines st sp :
  repr st sp → repr (recvGlobal st).1 (srecv sp).1 ∧ received (recvGlobal st).2 = (srecv sp).2.
Proof using Type.
  intros Hr. pose proof (r_closed _ _ Hr) as Hc. destruct (r_glob _ _ Hr) as [Hg Hl]. destruct (r_chan _ _ Hr) as [_ Hcc].
  unfold recvGlobal, srecv. rewrite Hg, Hc, Hcc. destruct (chan st) as [|x c] eqn:Ec.
  - split; [done|]. simpl. destruct (closed (rt st)); done.
  - split; [|done]. destruct Hr. split; try done. simpl in *. rewrite Ec in *. simpl in Hl. split; [done|lia].
Qed.

Lemma set_global_refines x k st sp :
  repr st sp →
  repr (set_chan (routeGlobalLocked k x (chan st)) st) (Spec (mail sp) (active sp) (global_push k x (glob sp)) (sclosed sp)).
Proof using Type.
  intros Hr. destruct (r_glob _ _ Hr) as [Hg Hl]. destruct (routeGlobal_spec k x _ Hl) as [Hp Hl'].
  destruct Hr. split; try done. simpl. by rewrite Hp, Hg.
Qed.

(** Delivery to a login scope, queued or pending, or to the global channel. *)
Lemma routeLogin_refines k x i st sp :
  repr st sp → closed (rt st) = false →
  repr (routeLogin k x i st).1
    (match i with
     | [] => Spec (mail sp) (active sp) (global_push k x (glob sp)) (sclosed sp)
     | _ => Spec (upd (Login i) (bounded_push x (mail sp (Login i))) (mail sp)) (active sp) (glob sp) (sclosed sp)
     end) ∧ (routeLogin k x i st).2 = None.
Proof using Type.
  intros Hr Ho. unfold routeLogin. rewrite Ho. case_decide as Hi.
  { subst. split; [by apply set_global_refines|done]. }
  destruct i as [|b i]; [done|]. set (l := b :: i) in *.
  destruct (loginQueues (rt st) !! l) as [id|] eqn:Hq; [by split; [apply repr_push_at|]|].
  rewrite (r_mail _ _ Hr (Login l)) by done.
  pose proof (pushPending_spec _ x (default 0 (pendingLoginDropped (rt st) !! l)) (r_pend _ _ Hr (Login l))) as Hp.
  simpl in Hp. destruct (pushPendingNotification _ x) as [p d]. destruct Hp as [Hv Hl]. simpl pend. rewrite <-Hv.
  split; [|done]. apply repr_pend; try done; [intros [?|?]; simpl in *; congruence|].
  intros [j|j|j]; try done. simpl. unfold upd. rewrite lookup_insert. destruct d; rewrite ?lookup_insert;
    repeat case_decide; simplify_eq; done.
Qed.

(** Delivery to a turn scope, queued or pending, or to the global channel. *)
Lemma routeTurn_refines k x i st sp :
  repr st sp → closed (rt st) = false →
  repr (routeTurn k x i st).1
    (match i with
     | [] => Spec (mail sp) (active sp) (global_push k x (glob sp)) (sclosed sp)
     | _ => Spec (upd (Turn i) (bounded_push x (mail sp (Turn i))) (mail sp)) (active sp) (glob sp) (sclosed sp)
     end) ∧ (routeTurn k x i st).2 = None.
Proof using Type.
  intros Hr Ho. unfold routeTurn. case_decide as Hi.
  { subst. split; [by apply set_global_refines|done]. }
  destruct i as [|b i]; [done|]. set (l := b :: i) in *.
  destruct (queues (rt st) !! l) as [id|] eqn:Hq; [by split; [apply repr_push_at|]|].
  rewrite (r_mail _ _ Hr (Turn l)) by done.
  pose proof (pushPending_spec _ x (default 0 (pendingDropped (rt st) !! l)) (r_pend _ _ Hr (Turn l))) as Hp.
  simpl in Hp. destruct (pushPendingNotification _ x) as [p d]. destruct Hp as [Hv Hl]. simpl pend. rewrite <-Hv.
  split; [|done]. apply repr_pend; try done; [intros [?|?]; simpl in *; congruence|].
  intros [j|j|j]; try done. simpl. unfold upd. rewrite lookup_insert. destruct d; rewrite ?lookup_insert;
    repeat case_decide; simplify_eq; done.
Qed.

(** *** Closing *)

Lemma qclose_idem e q : qclose (Some e) (qclose (Some e) q) = qclose (Some e) q.
Proof using Type. unfold qclose. destruct (err q) eqn:E; simpl; by rewrite ?E. Qed.

Lemma close_all_lookup e l h i :
  foldl (close_at (Some e)) h l !! i = if decide (i ∈ l) then qclose (Some e) <$> h !! i else h !! i.
Proof using Type.
  revert h. induction l as [|j l IH]; intros h; [done|]. simpl. rewrite IH. unfold close_at.
  destruct (decide (i = j)) as [->|Hne].
  - rewrite list_lookup_alter_eq, (decide_True (P := j ∈ j :: l)) by set_solver.
    case_decide; [|done]. destruct (h !! j); simpl; [by rewrite qclose_idem|done].
  - rewrite list_lookup_alter_ne by done. by rewrite (decide_ext (i ∈ l) (i ∈ j :: l)) by set_solver.
Qed.

Lemma close_lookup e st s i :
  closed (rt st) = false → qid (rt st) s = Some i →
  heap (close (Some e) st) !! i = qclose (Some e) <$> heap st !! i.
Proof using Type.
  intros Ho Hs. unfold close. rewrite Ho. cbn [heap processNotificationRouterClosedError default].
  change (default _ (Some e)) with e. rewrite <-!foldl_app, close_all_lookup, decide_True; [done|].
  rewrite !elem_of_app. unfold values_of. rewrite !list_elem_of_fmap. setoid_rewrite elem_of_map_to_list'.
  destruct s as [k|k|k]; simpl in Hs; [left|right; left|right; right]; by exists (k, i).
Qed.

(** *** Accounts of a mailbox *)

Definition registered (st : state) (s : scope) : bool := if qid (rt st) s is Some _ then true else false.

(** What is kept for a scope, and the drops not yet reported. *)
Definition mailbox (st : state) (s : scope) : list T * nat :=
  match qid (rt st) s with
  | Some i => match heap st !! i with Some q => (items q, dropped q) | None => ([], 0) end
  | None => pend (rt st) s
  end.

Definition drop_count (e : error) : nat :=
  match e with
  | NotificationDroppedError _ n | LoginNotificationDroppedError _ n | ProcessNotificationDroppedError _ n => n
  | _ => 0
  end.

Definition accounts (acc : list T * list T * nat) (m : list T * nat) : Prop :=
  let '(routed, got, reported) := acc in
  (got ++ m.1) `sublist_of` routed ∧ length routed = length got + reported + length m.1 + m.2.

Lemma bounded_push_accounts x routed got reported m :
  accounts (routed, got, reported) m → accounts (routed ++ [x], got, reported) (bounded_push x m).
Proof using Type.
  destruct m as [l d]. unfold accounts, bounded_push. cbn [fst snd]. intros [Hs Hl].
  destruct (length l =? notificationQueueCapacity) eqn:E; cbn [fst snd].
  - unfold notificationQueueCapacity in *. rewrite !length_app, length_drop. cbn [length]. split; [|lia].
    rewrite app_assoc. apply sublist_app; [|done]. etrans; [|done]. apply sublist_app; [done|]. apply sublist_drop.
  - rewrite !length_app. cbn [length]. split; [|lia]. rewrite app_assoc. by apply sublist_app.
Qed.

Lemma mailbox_repr st sp s : repr st sp → mailbox st s = mail sp s.
Proof using Type.
  intros Hr. unfold mailbox. destruct (qid (rt st) s) as [i|] eqn:Hq; [|by rewrite (r_mail _ _ Hr)].
  destruct (r_queue _ _ Hr s i Hq) as (_ & q & -> & _ & _ & ->). done.
Qed.

Lemma srecv_mail sp : mail (srecv sp).1 = mail sp ∧ sclosed (srecv sp).1 = sclosed sp.
Proof using Type. unfold srecv. by destruct (glob sp). Qed.

(** ** Routing *)

(** Code that reads the parameters of a notification (notification_scan.go). *)
Context (notificationLoginID : T → option bytes) (notificationProcessHandle notificationTurnID : T → bytes).

Definition route (k : nat * nat) (notif : T) (st : state) : state * option error :=
  match notificationLoginID notif with
  | Some loginID => routeLogin k notif loginID st
  | None =>
      let processHandle := notificationProcessHandle notif in
      let turnID := notificationTurnID notif in
      let r := rt st in
      if closed r then (st, rerr r)
      else
        match (if decide (processHandle = []) then None else processQueues r !! processHandle) with
        | Some id => (push_at notif id st, None)
        | None => routeTurn k notif turnID st
        end
  end.

(** Where a notification goes, given the registered scopes; [None] is the global channel. *)
Definition dest (act : scope → bool) (x : T) : option scope :=
  match notificationLoginID x with
  | Some [] => None
  | Some l => Some (Login l)
  | None =>
      if negb (bool_decide (notificationProcessHandle x = [])) && act (Process (notificationProcessHandle x))
      then Some (Process (notificationProcessHandle x))
      else if decide (notificationTurnID x = []) then None else Some (Turn (notificationTurnID x))
  end.

Definition step (o : op) (st : state) : state * response :=
  match o with
  | Route x k => let '(st, e) := route k x st in (st, Done e)
  | Register s => do_register s st
  | Unregister s => (do_unregister s st, Done None)
  | ClearPending i => (clearPending i st, Done None)
  | ClearLoginPending i => (clearLoginPending i st, Done None)
  | Next s => do_next s st
  | NextGlobal => let '(st, r) := nextGlobal st in (st, received r)
  | RecvGlobal => let '(st, r) := recvGlobal st in (st, received r)
  | Close e => (close e st, Done None)
  end.

Definition sstep (o : op) (sp : spec) : spec * response :=
  match o with
  | Route x k =>
      match sclosed sp, dest (active sp) x with
      | Some e, _ => (sp, Done e)
      | None, Some s => (Spec (upd s (bounded_push x (mail sp s)) (mail sp)) (active sp) (glob sp) None, Done None)
      | None, None => (Spec (mail sp) (active sp) (global_push k x (glob sp)) None, Done None)
      end
  | Register s => sregister s sp
  | Unregister s => (sunregister s sp, Done None)
  | ClearPending i =>
      (Spec (if active sp (Turn i) then mail sp else upd (Turn i) ([], (mail sp (Turn i)).2) (mail sp))
         (active sp) (glob sp) (sclosed sp), Done None)
  | ClearLoginPending i =>
      (Spec (if active sp (Login i) then mail sp else upd (Login i) ([], 0) (mail sp))
         (active sp) (glob sp) (sclosed sp), Done None)
  | Next s => snext s sp
  | NextGlobal =>
      match sclosed sp with
      | Some e => (sp, Received (zero, Some (default streamClosed e)))
      | None => srecv sp
      end
  | RecvGlobal => srecv sp
  | Close e =>
      match sclosed sp with
      | Some _ => (sp, Done None)
      | None => (Spec (λ _, ([], 0)) (λ _, false) (glob sp) (Some e), Done None)
      end
  end.

Lemma route_refines x k st sp :
  repr st sp → repr (route k x st).1 (sstep (Route x k) sp).1 ∧ Done (route k x st).2 = (sstep (Route x k) sp).2.
Proof using Type.
  intros Hr. pose proof (r_closed _ _ Hr) as Hc. simpl. rewrite Hc. unfold route.
  destruct (closed (rt st)) eqn:Ho.
  { destruct (notificationLoginID x) as [l|]; [|done]. unfold routeLogin. by rewrite Ho. }
  unfold dest. destruct (notificationLoginID x) as [l|].
  - destruct (routeLogin_refines k x l st sp Hr Ho) as [H1 ->]. rewrite Hc in H1. by destruct l.
  - rewrite (active_qid st) by done. simpl qid.
    destruct (routeTurn_refines k x (notificationTurnID x) st sp Hr Ho) as [H1 H2]. rewrite Hc in H1.
    destruct (decide (notificationProcessHandle x = [])) as [->|Hh].
    + rewrite H2. simpl. by destruct (notificationTurnID x).
    + rewrite bool_decide_eq_false_2 by done.
      destruct (processQueues (rt st) !! notificationProcessHandle x) as [id|] eqn:Hq; simpl.
      * split; [|done]. rewrite <-Hc. by apply repr_push_at.
      * rewrite H2. by destruct (notificationTurnID x).
Qed.

Lemma step_refines o st sp :
  repr st sp → repr (step o st).1 (sstep o sp).1 ∧ (step o st).2 = (sstep o sp).2.
Proof using Type.
  intros Hr. destruct o as [x k|s|s|i|i|s| | |e]; simpl step.
  - pose proof (route_refines x k st sp Hr) as H. by destruct (route k x st).
  - by apply register_refines.
  - split; [by apply unregister_refines|done].
  - split; [by apply clear_refines|done].
  - split; [by apply clearLogin_refines|done].
  - by apply next_refines.
  - simpl. rewrite (r_closed _ _ Hr). unfold nextGlobal. destruct (closed (rt st)); [done|].
    pose proof (recv_refines st sp Hr). by destruct (recvGlobal st).
  - simpl. pose proof (recv_refines st sp Hr). by destruct (recvGlobal st).
  - simpl. rewrite (r_closed _ _ Hr). destruct (closed (rt st)) eqn:Ho.
    + unfold close. by rewrite Ho.
    + split; [by apply repr_close|done].
Qed.

(** ** Traces *)

Fixpoint run (os : list op) (st : state) : state * list response :=
  match os with
  | [] => (st, [])
  | o :: os => let '(st, r) := step o st in let '(st, rs) := run os st in (st, r :: rs)
  end.

Fixpoint srun (os : list op) (sp : spec) : spec * list response :=
  match os with
  | [] => (sp, [])
  | o :: os => let '(sp, r) := sstep o sp in let '(sp, rs) := srun os sp in (sp, r :: rs)
  end.

Lemma run_refines os st sp :
  repr st sp → repr (run os st).1 (srun os sp).1 ∧ (run os st).2 = (srun os sp).2.
Proof using Type.
  revert st sp. induction os as [|o os IH]; intros st sp Hr; [done|]. simpl.
  destruct (step_refines o st sp Hr) as [Hr' He]. destruct (step o st) as [st' r], (sstep o sp) as [sp' r']. simpl in *.
  destruct (IH _ _ Hr') as [Hr'' He']. destruct (run os st'), (srun os sp'). simpl in *. by subst.
Qed.

Lemma srun_app os os' sp :
  (srun (os ++ os') sp).1 = (srun os' (srun os sp).1).1.
Proof using Type.
  revert sp. induction os as [|o os IH]; intros sp; [done|]. simpl. destruct (sstep o sp) as [sp' r].
  specialize (IH sp'). destruct (srun os sp'), (srun (os ++ os') sp'). done.
Qed.

(** C7: the router implements one bounded mailbox per turn, login and process and
    a bounded global stream: over every sequence of operations, on every branch
    and error, each answer is the one of the abstract router, whatever is received
    from the global channel while a notification is being routed. *)
Theorem router_refines os :
  (run os newTurnNotificationRouter).2 = (srun os (Spec (λ _, ([], 0)) (λ _, false) [] None)).2.
Proof using Type. apply run_refines, repr_new. Qed.

Definition routes (xs : list (T * (nat * nat))) : list op := (λ '(x, k), Route x k) <$> xs.

Lemma register_route_commute s x k sp :
  sclosed sp = None → (∀ h, s ≠ Process h) → scope_id s ≠ [] → active sp s = false →
  let sp' := (sstep (Route x k) sp).1 in
  sclosed sp' = None ∧ active sp' s = false ∧
  (sstep (Route x k) (sstep (Register s) sp).1).1 = (sstep (Register s) sp').1.
Proof using Type.
  intros Ho Hs Hid Ha. simpl. unfold sregister. rewrite Ho, Ha, decide_False by done. simpl.
  assert (dest (upd s true (active sp)) x = dest (active sp) x) as Hdest.
  { unfold dest. destruct (notificationLoginID x); [done|]. simpl. rewrite upd_ne by done. done. }
  rewrite Hdest. destruct (dest (active sp) x); simpl; rewrite Ha, decide_False by done; done.
Qed.

Lemma register_routes_commute s xs sp :
  sclosed sp = None → (∀ h, s ≠ Process h) → scope_id s ≠ [] → active sp s = false →
  (srun (routes xs) (sstep (Register s) sp).1).1 = (sstep (Register s) (srun (routes xs) sp).1).1.
Proof using Type.
  revert sp. induction xs as [|[x k] xs IH]; intros sp Ho Hs Hid Ha; [done|].
  destruct (register_route_commute s x k sp Ho Hs Hid Ha) as (Ho' & Ha' & Hcom).
  cbn [routes fmap list_fmap srun]. fold (routes xs). revert Ho' Ha' Hcom.
  destruct (sstep (Route x k) sp) as [sp1 r1].
  destruct (sstep (Route x k) (sstep (Register s) sp).1) as [sp2 r2]. cbn [fst]. intros Ho' Ha' ->.
  specialize (IH sp1 Ho' Hs Hid Ha').
  destruct (srun (routes xs) sp1), (srun (routes xs) (sstep (Register s) sp1).1). done.
Qed.

(** C28: registering late is transparent: a turn or login consumer that registers
    after notifications for it (and for others) have been routed gets, from every
    later sequence of operations, exactly the answers of one that registered
    before them. *)
Theorem late_registration_transparent st sp s xs os :
  repr st sp → closed (rt st) = false → (∀ h, s ≠ Process h) → scope_id s ≠ [] → active sp s = false →
  (run os (run (routes xs ++ [Register s]) st).1).2 = (run os (run (Register s :: routes xs) st).1).2.
Proof using Type.
  intros Hr Ho Hs Hid Ha.
  assert (sclosed sp = None) as Hc by (by rewrite (r_closed _ _ Hr), Ho).
  rewrite (proj2 (run_refines os _ _ (proj1 (run_refines (routes xs ++ [Register s]) st sp Hr)))).
  rewrite (proj2 (run_refines os _ _ (proj1 (run_refines (Register s :: routes xs) st sp Hr)))).
  do 2 f_equal. rewrite srun_app. pose proof (register_routes_commute s xs sp Hc Hs Hid Ha) as Hcom.
  cbn [srun]. destruct (sstep (Register s) sp) as [sp1 r1], (sstep (Register s) (srun (routes xs) sp).1) as [sp2 r2].
  cbn [fst] in *. by destruct (srun (routes xs) sp1).
Qed.

(** ** Accounting *)

(** Operations that discard nothing of the scope. *)
Definition keeps (s : scope) (o : op) : bool :=
  match o with
  | Close _ => false
  | Unregister s' => bool_decide (s ≠ s')
  | ClearPending i => bool_decide (s ≠ Turn i)
  | ClearLoginPending i => bool_decide (s ≠ Login i)
  | _ => true
  end.

(** Notifications routed to the scope, received by its consumer, and the drops
    reported to it. *)
Definition observe (s : scope) (o : op) (act : scope → bool) (r : response)
    (acc : list T * list T * nat) : list T * list T * nat :=
  let '(routed, got, reported) := acc in
  match o, r with
  | Route x _, _ => if decide (dest act x = Some s) then (routed ++ [x], got, reported) else acc
  | Next s', Received (x, None) => if decide (s' = s) then (routed, got ++ [x], reported) else acc
  | Next s', Received (_, Some e) => if decide (s' = s) then (routed, got, reported + drop_count e) else acc
  | _, _ => acc
  end.

Fixpoint history (s : scope) (os : list op) (st : state) (acc : list T * list T * nat) : list T * list T * nat :=
  match os with
  | [] => acc
  | o :: os => let '(st', r) := step o st in history s os st' (observe s o (registered st) r acc)
  end.

Lemma dest_registered st sp x : repr st sp → dest (registered st) x = dest (active sp) x.
Proof using Type.
  intros Hr. unfold dest, registered. destruct (notificationLoginID x); [done|]. by rewrite (active_qid st sp).
Qed.

Lemma step_accounts s o sp acc :
  sclosed sp = None → keeps s o = true → accounts acc (mail sp s) →
  sclosed (sstep o sp).1 = None ∧
  accounts (observe s o (active sp) (sstep o sp).2 acc) (mail (sstep o sp).1 s).
Proof using Type.
  intros Ho Hk Hacc. destruct acc as [[routed got] reported].
  destruct o as [x k|s'|s'|i|i|s'| | |e]; try done; cbn [sstep].
  - rewrite Ho. destruct (dest (active sp) x) as [d|] eqn:Hd; split; try done; simpl; rewrite Hd.
    + case_decide; simplify_eq; [rewrite upd_eq; by apply bounded_push_accounts|]. rewrite upd_ne; congruence.
    + by case_decide.
  - unfold sregister. rewrite Ho. repeat case_match; done.
  - apply bool_decide_eq_true_1 in Hk. split; [done|]. simpl. destruct (active sp s'); [rewrite upd_ne by done|]; done.
  - apply bool_decide_eq_true_1 in Hk. split; [done|]. simpl. destruct (active sp (Turn i)); [|rewrite upd_ne by done]; done.
  - apply bool_decide_eq_true_1 in Hk. split; [done|]. simpl. destruct (active sp (Login i)); [|rewrite upd_ne by done]; done.
  - unfold snext. rewrite Ho. destruct (active sp s'); [|split; [done|]; simpl; case_decide; [rewrite Nat.add_0_r|]; done].
    destruct (mail sp s') as [l d] eqn:Em. destruct d as [|d], l as [|x l]; try done; simpl.
    all: split; [done|]; case_decide as Hs; [subst; rewrite upd_eq; rewrite Em in Hacc|by rewrite upd_ne].
    all: unfold accounts in *; simpl in *; destruct Hacc as [H1 H2].
    + split; [by rewrite <-app_assoc|]. rewrite length_app. simpl. lia.
    + split; [done|]. destruct s; simpl; lia.
    + split; [done|]. destruct s; simpl; lia.
  - rewrite Ho. destruct (srecv_mail sp) as [-> ->]. split; [done|]. simpl. by destruct (srecv sp).2 as [|[? []]|].
  - destruct (srecv_mail sp) as [-> ->]. split; [done|]. simpl. by destruct (srecv sp).2 as [|[? []]|].
Qed.

Lemma history_accounts s os st sp acc :
  repr st sp → sclosed sp = None → forallb (keeps s) os = true → accounts acc (mailbox st s) →
  accounts (history s os st acc) (mailbox (run os st).1 s).
Proof using Type.
  revert st sp acc. induction os as [|o os IH]; intros st sp acc Hr Ho Hk Hacc; [done|]. simpl in *.
  apply andb_true_iff in Hk as [Hk Hks]. rewrite (mailbox_repr _ _ _ Hr) in Hacc.
  destruct (step_accounts s o sp acc Ho Hk Hacc) as [Ho' Hacc']. destruct (step_refines o st sp Hr) as [Hr' He].
  assert (observe s o (registered st) (sstep o sp).2 acc = observe s o (active sp) (sstep o sp).2 acc) as Hobs.
  { destruct acc as [[? ?] ?], o; try done. simpl. by rewrite (dest_registered st sp). }
  rewrite <-Hobs, <-He in Hacc'. clear Hobs He.
  destruct (step o st) as [st' r]. simpl in *. rewrite <-(mailbox_repr _ _ _ Hr') in Hacc'.
  specialize (IH _ _ _ Hr' Ho' Hks Hacc'). by destruct (run os st').
Qed.

(** C29: nothing is lost silently while a scope is kept.  Over any sequence of operations
    that does not close the router, unregister the scope or clear what is pending for it,
    its consumer receives a subsequence, in order, of what was routed to the scope, and
    what was routed is accounted for exactly by what it received, the drops reported to
    it, what is still kept and the drops still to be reported. *)
Theorem delivery_accounting s os :
  forallb (keeps s) os = true →
  let '(routed, got, reported) := history s os newTurnNotificationRouter ([], [], 0) in
  let '(kept, unreported) := mailbox (run os newTurnNotificationRouter).1 s in
  (got ++ kept) `sublist_of` routed ∧
  length routed = length got + reported + length kept + unreported.
Proof using Type.
  intros Hk. pose proof (history_accounts s os _ _ ([], [], 0) repr_new eq_refl Hk) as H.
  rewrite (mailbox_repr _ _ s repr_new) in H. specialize (H (conj (sublist_nil_l []) eq_refl)).
  destruct (history _ _ _ _) as [[? ?] ?]. by destruct (mailbox _ _).
Qed.

(** A closed router stays closed with its error and touches no queue any more. *)
Lemma closed_step o st sp :
  repr st sp → closed (rt st) = true →
  heap (step o st).1 = heap st ∧ closed (rt (step o st).1) = true ∧ rerr (rt (step o st).1) = rerr (rt st).
Proof using Type.
  intros Hr Hc. destruct o as [x k|s|s|i|i|s| | |e]; simpl.
  - unfold route, routeLogin. rewrite Hc. destruct (notificationLoginID x); done.
  - destruct s as [i|i|i]; simpl; unfold register, registerLogin, registerProcess; rewrite Hc; by case_decide.
  - pose proof (proj1 (r_dead _ _ Hr Hc s)) as Hq.
    destruct s as [i|i|i]; simpl in *; unfold unregister, unregisterLogin, unregisterProcess; case_decide; try done. by rewrite Hq.
  - unfold clearPending. by case_decide.
  - unfold clearLoginPending. by case_decide.
  - destruct s as [i|i|i]; simpl; unfold next, nextLogin, nextProcess; by rewrite Hc.
  - unfold nextGlobal. by rewrite Hc.
  - unfold recvGlobal. by destruct (chan st).
  - unfold close. by rewrite Hc.
Qed.

Lemma closed_run os st sp :
  repr st sp → closed (rt st) = true →
  heap (run os st).1 = heap st ∧ closed (rt (run os st).1) = true ∧ rerr (rt (run os st).1) = rerr (rt st).
Proof using Type.
  revert st sp. induction os as [|o os IH]; intros st sp Hr Hc; [done|]. simpl.
  destruct (closed_step o st sp Hr Hc) as (E1 & E2 & E3). destruct (step_refines o st sp Hr) as [Hr' _].
  destruct (step o st) as [st1 r1]. simpl in *. destruct (IH _ _ Hr' E2) as (F1 & F2 & F3). destruct (run os st1). simpl in *.
  split_and!; congruence.
Qed.

(** C30: closing with an error releases every consumer, now and after any later
    operations: a call of [next], [nextLogin], [nextProcess] or [nextGlobal] returns that
    error at once, whatever the queues still hold, and registrations are refused with
    it; a consumer that was already inside [queue.next] of a registered queue when the
    router was closed is woken and returns from its next look at the queue, with the
    drops to report, with the first notification left or else with the error; and a
    receive from the global channel returns what is left there and then the error. *)
Theorem close_releases e os os' s :
  let st := (run os newTurnNotificationRouter).1 in
  closed (rt st) = false →
  let st' := (run os' (close (Some e) st)).1 in
  (do_next s st').2 = Received (zero, Some e) ∧
  (nextGlobal st').2 = Some (zero, Some e) ∧
  (recvGlobal st').2 = Some (match chan st' with x :: _ => (x, None) | [] => (zero, Some e) end) ∧
  (scope_id s ≠ [] → (do_register s st').2 = Done (Some e)) ∧
  ∀ i, qid (rt st) s = Some i →
    (notify <$> heap st' !! i) = Some true ∧
    (next_at i st').2 = Some (match mailbox st s with
                               | (_, S d) => (zero, Some (scope_dropError s (S d)))
                               | (x :: _, 0) => (x, None)
                               | ([], 0) => (zero, Some e)
                               end).
Proof using Type.
  intros st Ho st'. destruct (run_refines os _ _ repr_new) as [Hr _]. fold st in Hr.
  destruct (step_refines (Close (Some e)) st _ Hr) as [Hr1 _]. cbn [step fst] in Hr1.
  assert (closed (rt (close (Some e) st)) = true ∧ rerr (rt (close (Some e) st)) = Some e) as [Hc1 He1]
    by (unfold close; by rewrite Ho).
  destruct (closed_run os' _ _ Hr1 Hc1) as (Hh & Hc & He). fold st' in Hh, Hc, He. rewrite He1 in He.
  destruct (run_refines os' _ _ Hr1) as [Hr2 _]. fold st' in Hr2. destruct (r_chan _ _ Hr2) as [_ Hcc].
  split_and!.
  - destruct s as [i|i|i]; simpl; unfold next, nextLogin, nextProcess; by rewrite Hc, He.
  - unfold nextGlobal. by rewrite Hc, He.
  - unfold recvGlobal, closedErr. destruct (chan st'); [|done]. by rewrite Hcc, Hc, He.
  - intros Hid. destruct s as [i|i|i]; simpl in *; unfold register, registerLogin, registerProcess;
      rewrite decide_False by done; by rewrite Hc, He.
  - intros i Hs. destruct (r_queue _ _ Hr s i Hs) as (_ & q & Hq & Hqe & Hd & Hm).
    assert (qwf q) as Hw by (eapply Forall_lookup_1; [apply Hr|done]).
    rewrite Hh. pose proof (close_lookup e st s i Ho Hs) as Hl. rewrite Hq in Hl. cbn in Hl. rewrite Hl.
    unfold next_at. rewrite Hh, Hl, (mailbox_repr _ _ _ Hr), Hm.
    set (q1 := qclose (Some e) q) in *.
    assert (q1 = NQueue (notifies q) true (Some e) (dropped q) (dropError q)) as Eq1 by (unfold q1, qclose; by rewrite Hqe).
    assert (qwf q1) as Hw1 by (by rewrite Eq1). split; [by rewrite Eq1|].
    destruct (qnext_spec q1 Hw1) as [_ Hn]. destruct (qnext q1) as [q2 o]. cbn [fst snd] in *.
    rewrite Eq1 in Hn. unfold items in *. cbn in Hn.
    destruct o as [[x|e']|]; cbn.
    + destruct Hn as (H0 & Hi & _). rewrite H0, Hi. done.
    + destruct Hn as [(H1 & -> & _)|(H0 & Hi & Hn)].
      * destruct (dropped q) as [|d]; [lia|]. rewrite <-Hd. by destruct (abs zero (notifies q)).
      * rewrite H0, Hi. by injection Hn as <-.
    + destruct Hn as (_ & _ & Hn & _). done.
Qed.
End codex.

(** ** Instances: notifications are numbers, the tens digit is the turn *)

Definition turn_of (n : nat) : bytes := if n / 10 =? 0 then [] else [Z.of_nat (n / 10)].

#[local] Abbreviation run_ := (run 0 (λ _, None) (λ _, []) turn_of).
#[local] Abbreviation turn1 := (Turn [1%Z]).

Definition route_n (n : nat) : op := Route n (0, 0).

(** One hundred and thirty notifications for turn 1, one for turn 2 and a global one. *)
Definition traffic : list (nat * (nat * nat)) :=
  ((λ n, (10 + n mod 10, (0, 0))) <$> seq 0 130) ++ [(20, (0, 0)); (3, (0, 0))].

Lemma late_registration_witness :
  let os := [Next turn1; Next turn1; Register (Turn [2%Z]); Next (Turn [2%Z]); NextGlobal; Next turn1] in
  (run_ os (run_ (routes traffic ++ [Register turn1]) newTurnNotificationRouter).1).2 =
  (run_ os (run_ (Register turn1 :: routes traffic) newTurnNotificationRouter).1).2 ∧
  (run_ os (run_ (routes traffic ++ [Register turn1]) newTurnNotificationRouter).1).2 =
  [Received (0, Some (NotificationDroppedError [1%Z] 2)); Received (12, None); Done None; Received (20, None);
   Received (3, None); Received (13, None)].
Proof.
  split; [|vm_compute; reflexivity].
  eapply (late_registration_transparent 0 (λ _, None) (λ _, []) turn_of newTurnNotificationRouter
    (Spec (λ _, ([], 0)) (λ _, false) [] None) turn1 traffic);
    [apply repr_new|reflexivity|discriminate|discriminate|reflexivity].
Defined.

Lemma delivery_accounting_witness :
  let os := Register turn1 :: (route_n <$> seq 10 9) ++ [Next turn1; Next turn1; route_n 5; route_n 11] in
  forallb (keeps turn1) os = true ∧
  history 0 (λ _, None) (λ _, []) turn_of turn1 os newTurnNotificationRouter ([], [], 0) =
    (seq 10 9 ++ [11], [10; 11], 0) ∧
  let '(routed, got, reported) := history 0 (λ _, None) (λ _, []) turn_of turn1 os newTurnNotificationRouter ([], [], 0) in
  let '(kept, unreported) := mailbox 0 (run_ os newTurnNotificationRouter).1 turn1 in
  (got ++ kept) `sublist_of` routed ∧ length routed = length got + reported + length kept + unreported.
Proof.
  split; [reflexivity|]. split; [vm_compute; reflexivity|].
  apply (delivery_accounting 0 (λ _, None) (λ _, []) turn_of turn1). reflexivity.
Defined.

Definition one_turn : state := (run_ [Register turn1; route_n 10; route_n 11] newTurnNotificationRouter).1.

Lemma close_releases_witness :
  let st' := (run_ [route_n 12] (close (Some (Caller 7)) one_turn)).1 in
  (do_next 0 turn1 st').2 = Received (0, Some (Caller 7)) ∧ (next_at 0 0 st').2 = Some (10, None).
Proof.
  destruct (close_releases 0 (λ _, None) (λ _, []) turn_of (Caller 7) [Register turn1; route_n 10; route_n 11] [route_n 12] turn1)
    as (Hn & _ & _ & _ & Hq); [vm_compute; reflexivity|].
  split; [exact Hn|]. destruct (Hq 0) as [_ Ha]; [vm_compute; reflexivity|]. exact Ha.
Defined.

(** [close(nil)] marks the router closed but leaves a registered queue open: its
    consumer, woken once, waits again, and a caller of [next] gets no error. *)
Theorem close_nil_strands :
  let st := close None (run_ [Register turn1] newTurnNotificationRouter).1 in
  closed (rt st) = true ∧ option_map (λ q, (qnext 0 q).2) (heap st !! 0) = Some None ∧
  (next 0 [1%Z] st).2 = Some (0, None).
Proof. vm_compute. done. Qed.

(** [clearPending] forgets the notifications but not their drop count, so the
    next registration of that turn reports drops of the cleared ones;
    [clearLoginPending] forgets both. *)
Theorem clearPending_keeps_drops :
  let flood := routes ((λ n, (10 + n mod 10, (0, 0))) <$> seq 0 129) in
  (run_ (flood ++ [ClearPending [1%Z]; Register turn1; Next turn1]) newTurnNotificationRouter).2
    = replicate 131 (Done None) ++ [Received (0, Some (NotificationDroppedError [1%Z] 1))].
Proof. vm_compute. reflexivity. Qed.
End Router.
