(* ===== verification/CodexScan.v ===== *)
(** The scanner of notification parameters of [pkg/llm/codex]
    (notification_scan.go): a single pass over the JSON text that finds the turn
    or login identifier the router dispatches on, with [json.Unmarshal] as the
    fall-back.  A [notificationJSONScanner] is its unread suffix [data[pos:]]:
    the source never moves [pos] backwards and reads nothing before it. *)
From S2P Require Import Prelude.

Module Scanner.

(** What a scanning method does: it returns [true] with the cursor moved, it
    returns [false] (after which every caller returns [false] too), or the model
    has run out of fuel. *)
Inductive scan (A : Type) : Type :=
| Accept (a : A)
| Reject
| OutOfFuel.
Arguments Accept {A} a.
Arguments Reject {A}.
Arguments OutOfFuel {A}.

Definition sbind {A B} (c : scan A) (k : A → scan B) : scan B :=
  match c with
  | Accept a => k a
  | Reject => Reject
  | OutOfFuel => OutOfFuel
  end.

(** [if !c { return false }; k]. *)
Notation "'scan!' x ':=' c 'in' k" := (sbind c (λ x, k))
  (at level 10, x pattern, c at level 100, k at level 200,
   format "'[v' 'scan!'  x  ':='  c  'in' '/' k ']'") : go_scope.

Definition of_option {A} (o : option A) : scan A :=
  match o with Some a => Accept a | None => Reject end.

(** ** Lexical level *)

Definition isSpace (c : Z) : bool := (c =b SP) || (c =b LF) || (c =b CR) || (c =b TAB).

Fixpoint skipSpace (s : bytes) : bytes :=
  match s with
  | [] => []
  | c :: s' => if isSpace c then skipSpace s' else s
  end.

Definition consumeByte (c : Z) (s : bytes) : option bytes :=
  match s with
  | [] => None
  | b :: s' => if b =b c then Some s' else None
  end.

Fixpoint consumeLiteral (literal s : bytes) : option bytes :=
  match literal, s with
  | [], _ => Some s
  | _ :: _, [] => None
  | c :: literal', b :: s' => if b =b c then consumeLiteral literal' s' else None
  end.

Definition bytesEqualString (value want : bytes) : bool := bytes_eqb value want.

Definition isDigitOneToNine (c : Z) : bool := (c1 ≤b c) && (c ≤b c9).

Definition isHexDigit (c : Z) : bool :=
  ((c0 ≤b c) && (c ≤b c9)) || ((ca ≤b c) && (c ≤b cf)) || ((cA ≤b c) && (c ≤b cF)).

(** ["", \, /, b, f, n, r, t] after a backslash. *)
Definition isEscape (c : Z) : bool :=
  existsb (Z.eqb c) [DQUOTE; BSLASH; SLASH; cb; cf; cn; cr; ct].

(** The loop of [readString]: the raw bytes up to the closing quote, whether an
    escape was seen, and the rest. *)
Fixpoint readStringBody (s : bytes) : option (bytes * bool * bytes) :=
  match s with
  | [] => None
  | c :: s' =>
      if c =b DQUOTE then Some ([], false, s')
      else if c =b BSLASH then
        match s' with
        | [] => None
        | e :: s'' =>
            if isEscape e then
              match readStringBody s'' with
              | Some (raw, _, r) => Some (c :: e :: raw, true, r)
              | None => None
              end
            else if e =b cu then
              match s'' with
              | h1 :: h2 :: h3 :: h4 :: t =>
                  if isHexDigit h1 && isHexDigit h2 && isHexDigit h3 && isHexDigit h4 then
                    match readStringBody t with
                    | Some (raw, _, r) => Some (c :: e :: h1 :: h2 :: h3 :: h4 :: raw, true, r)
                    | None => None
                    end
                  else None
              | _ => None
              end
            else None
        end
      else if c <b 32 then None
      else
        match readStringBody s' with
        | Some (raw, escaped, r) => Some (c :: raw, escaped, r)
        | None => None
        end
  end.

Definition readString (s : bytes) : option (bytes * bool * bytes) :=
  match consumeByte DQUOTE s with
  | Some s => readStringBody s
  | None => None
  end.

Definition readSimpleString (s : bytes) : option (bytes * bytes) :=
  match readString s with
  | Some (value, false, r) => Some (value, r)
  | _ => None
  end.

(** [for s.pos < len(s.data) && isDigit(s.data[s.pos]) { s.pos++ }]. *)
Fixpoint skipDigits (s : bytes) : bytes :=
  match s with
  | [] => []
  | c :: s' => if isDigit c then skipDigits s' else s
  end.

(** [if s.pos >= len(s.data) || !isDigit(s.data[s.pos]) { return false }] and the
    loop that follows it. *)
Definition skipDigits1 (s : bytes) : option bytes :=
  match s with
  | [] => None
  | c :: s' => if isDigit c then Some (skipDigits s') else None
  end.

Definition skipFraction (s : bytes) : option bytes :=
  match consumeByte DOT s with
  | Some s => skipDigits1 s
  | None => Some s
  end.

Definition skipSign (s : bytes) : bytes :=
  match s with
  | c :: s' => if (c =b PLUS) || (c =b MINUS) then s' else s
  | [] => s
  end.

Definition skipExponent (s : bytes) : option bytes :=
  match s with
  | c :: s' => if (c =b ce) || (c =b cE) then skipDigits1 (skipSign s') else Some s
  | [] => Some s
  end.

Definition skipNumber (start : bytes) : option bytes :=
  match default start (consumeByte MINUS start) with
  | [] => None
  | c :: s' =>
      match (if c =b c0 then Some s' else if isDigitOneToNine c then Some (skipDigits s') else None) with
      | None => None
      | Some s =>
          match skipFraction s with
          | None => None
          | Some s =>
              match skipExponent s with
              | None => None
              | Some s => if length s <? length start then Some s else None
              end
          end
      end
  end.

(** ** Values *)

(** The loop over the members of an object that [skipObject], [readTurnObject]
    and the two scan functions all run after the opening brace.  They differ in
    the keys they accept ([escaped] or not) and in what they do with the value:
    [value key st s] reads it with the loop's variables [st]. *)
Fixpoint objectLoop {A} (keyOK : bool → bool) (value : bytes → A → bytes → scan (A * bytes))
    (fuel : nat) (st : A) (s : bytes) : scan (A * bytes) :=
  match fuel with
  | 0 => OutOfFuel
  | S fuel =>
      let s := skipSpace s in
      match consumeByte RBRACE s with
      | Some s => Accept (st, s)
      | None =>
          scan! (key, escaped, s) := of_option (readString s) in
          if negb (keyOK escaped) then Reject
          else
            scan! s := of_option (consumeByte COLON (skipSpace s)) in
            scan! (st, s) := value key st s in
            let s := skipSpace s in
            match consumeByte RBRACE s with
            | Some s => Accept (st, s)
            | None =>
                scan! s := of_option (consumeByte COMMA s) in
                objectLoop keyOK value fuel st s
            end
      end
  end.

Fixpoint arrayLoop (value : bytes → scan bytes) (fuel : nat) (s : bytes) : scan bytes :=
  match fuel with
  | 0 => OutOfFuel
  | S fuel =>
      let s := skipSpace s in
      match consumeByte RBRACK s with
      | Some s => Accept s
      | None =>
          scan! s := value s in
          let s := skipSpace s in
          match consumeByte RBRACK s with
          | Some s => Accept s
          | None =>
              scan! s := of_option (consumeByte COMMA s) in
              arrayLoop value fuel s
          end
      end
  end.

(** [skipObject] and [skipArray], over the [skipValue] they call. *)
Definition skipObject (skipValue : bytes → scan bytes) (s : bytes) : scan bytes :=
  scan! s := of_option (consumeByte LBRACE s) in
  scan! (_, s) := objectLoop (λ _, true) (λ _ (u : unit) s, scan! s := skipValue s in Accept (u, s))
                    (S (length s)) tt s in
  Accept s.

Definition skipArray (skipValue : bytes → scan bytes) (s : bytes) : scan bytes :=
  scan! s := of_option (consumeByte LBRACK s) in
  arrayLoop skipValue (S (length s)) s.

(** The fuel bounds the nesting. *)
Fixpoint skipValueN (fuel : nat) (s : bytes) : scan bytes :=
  match fuel with
  | 0 => OutOfFuel
  | S fuel =>
      let s := skipSpace s in
      match s with
      | [] => Reject
      | c :: _ =>
          if c =b DQUOTE then scan! (_, _, s) := of_option (readString s) in Accept s
          else if c =b LBRACE then skipObject (skipValueN fuel) s
          else if c =b LBRACK then skipArray (skipValueN fuel) s
          else if c =b ct then of_option (consumeLiteral (str "true") s)
          else if c =b cf then of_option (consumeLiteral (str "false") s)
          else if c =b cn then of_option (consumeLiteral (str "null") s)
          else of_option (skipNumber s)
      end
  end.

Definition skipValue (s : bytes) : scan bytes := skipValueN (S (length s)) s.

(** ** The two identifiers *)

Record scannedTurn := ScannedTurn { id : bytes; turnID : bytes; turnID2 : bytes }.

Definition noTurn : scannedTurn := ScannedTurn [] [] [].

Definition unescaped (escaped : bool) : bool := negb escaped.

Definition readTurnObject (s : bytes) : scan (scannedTurn * bytes) :=
  let s := skipSpace s in
  match consumeLiteral (str "null") s with
  | Some s => Accept (noTurn, s)
  | None =>
      scan! s := of_option (consumeByte LBRACE s) in
      objectLoop unescaped
        (λ key turn s,
          if bytesEqualString key (str "id") then
            scan! (value, s) := of_option (readSimpleString s) in
            Accept (ScannedTurn value (turnID turn) (turnID2 turn), s)
          else if bytesEqualString key (str "turnId") then
            scan! (value, s) := of_option (readSimpleString s) in
            Accept (ScannedTurn (id turn) value (turnID2 turn), s)
          else if bytesEqualString key (str "turn_id") then
            scan! (value, s) := of_option (readSimpleString s) in
            Accept (ScannedTurn (id turn) (turnID turn) value, s)
          else
            scan! s := skipValue s in Accept (turn, s))
        (S (length s)) noTurn s
  end.

(** The variables of [scanNotificationTurnID]. *)
Record turnVars := TurnVars { vTurnID : bytes; vTurnID2 : bytes; vTurn : scannedTurn }.

(** The frame both scan functions share: leading space, [null] or an opening
    brace, the member loop, trailing space, end of input. *)
Definition scanDocument {A} (value : bytes → A → bytes → scan (A * bytes)) (init : A) (result : A → bytes)
    (params : bytes) : scan bytes :=
  let s := skipSpace params in
  match consumeLiteral (str "null") s with
  | Some s => match skipSpace s with [] => Accept [] | _ => Reject end
  | None =>
      scan! s := of_option (consumeByte LBRACE s) in
      scan! (st, s) := objectLoop unescaped value (S (length s)) init s in
      match skipSpace s with [] => Accept (result st) | _ => Reject end
  end.

(** The [switch] of the loop of [scanNotificationTurnID]. *)
Definition turnMember (key : bytes) (v : turnVars) (s : bytes) : scan (turnVars * bytes) :=
  if bytesEqualString key (str "turnId") then
    scan! (value, s) := of_option (readSimpleString s) in
    Accept (TurnVars value (vTurnID2 v) (vTurn v), s)
  else if bytesEqualString key (str "turn_id") then
    scan! (value, s) := of_option (readSimpleString s) in
    Accept (TurnVars (vTurnID v) value (vTurn v), s)
  else if bytesEqualString key (str "turn") then
    scan! (value, s) := readTurnObject s in
    Accept (TurnVars (vTurnID v) (vTurnID2 v) value, s)
  else
    scan! s := skipValue s in Accept (v, s).

(** The identifiers in the order the function prefers them. *)
Definition pickTurnID (v : turnVars) : bytes :=
  if decide (vTurnID v ≠ []) then vTurnID v
  else if decide (vTurnID2 v ≠ []) then vTurnID2 v
  else if decide (turnID (vTurn v) ≠ []) then turnID (vTurn v)
  else if decide (turnID2 (vTurn v) ≠ []) then turnID2 (vTurn v)
  else id (vTurn v).

Definition scanNotificationTurnID (params : bytes) : scan bytes :=
  scanDocument turnMember (TurnVars [] [] noTurn) pickTurnID params.

Definition loginMember (key : bytes) (loginID : bytes) (s : bytes) : scan (bytes * bytes) :=
  if bytesEqualString key (str "loginId") then
    scan! (value, s) := of_option (readSimpleString s) in
    Accept (value, s)
  else
    scan! s := skipValue s in Accept (loginID, s).

Definition scanNotificationLoginID (params : bytes) : scan bytes :=
  scanDocument loginMember [] (λ loginID, loginID) params.

(** ** The identifiers of a notification *)

Record Notification := MkNotification { Method : bytes; Params : bytes }.

Definition NotificationMethodAccountLoginCompleted : bytes := str "account/login/completed".
Definition NotificationMethodProcessExited : bytes := str "process/exited".
Definition NotificationMethodProcessOutputDelta : bytes := str "process/outputDelta".

(** The anonymous structs given to [json.Unmarshal]; [Turn] is a pointer. *)
Record turnEnvelope := TurnEnvelope { TurnID : bytes; TurnID2 : bytes; Turn : option scannedTurn }.

Section unmarshal.
(** [json.Unmarshal] into each of the three structs, [None] when it fails. *)
Context (unmarshalTurn : bytes → option turnEnvelope) (unmarshalLogin unmarshalProcess : bytes → option bytes).

Definition decodeNotificationTurnID (notif : Notification) : bytes :=
  match unmarshalTurn (Params notif) with
  | None => []
  | Some envelope =>
      if decide (TurnID envelope ≠ []) then TurnID envelope
      else if decide (TurnID2 envelope ≠ []) then TurnID2 envelope
      else
        match Turn envelope with
        | Some turn =>
            if decide (turnID turn ≠ []) then turnID turn
            else if decide (turnID2 turn ≠ []) then turnID2 turn
            else id turn
        | None => []
        end
  end.

Definition notificationTurnID (notif : Notification) : bytes :=
  match scanNotificationTurnID (Params notif) with
  | Accept turnID => turnID
  | _ => decodeNotificationTurnID notif
  end.

Definition decodeNotificationLoginID (notif : Notification) : bytes :=
  default [] (unmarshalLogin (Params notif)).

Definition notificationLoginID (notif : Notification) : option bytes :=
  if bytes_eqb (Method notif) NotificationMethodAccountLoginCompleted then
    match scanNotificationLoginID (Params notif) with
    | Accept loginID => Some loginID
    | _ => Some (decodeNotificationLoginID notif)
    end
  else None.

Definition notificationProcessHandle (notif : Notification) : bytes :=
  if bytes_eqb (Method notif) NotificationMethodProcessExited
     || bytes_eqb (Method notif) NotificationMethodProcessOutputDelta then
    default [] (unmarshalProcess (Params notif))
  else [].
End unmarshal.
End Scanner.
