(* ===== verification/CodexScanSpec.v ===== *)
(** What the notification scanner accepts and what it returns: a JSON grammar
    with its concrete syntax trees, and the scan functions against it. *)
From S2P Require Import Prelude CodexRing CodexRouter CodexScan.

Module ScanSpec.
Import Scanner.

(** ** The grammar *)

(** The characters of RFC 8259: ws, DIGIT, digit1-9, HEXDIG and what may follow a
    backslash. *)
Definition space (c : Z) : bool := (c =b 0x20) || (c =b 0x0A) || (c =b 0x0D) || (c =b 0x09).
Definition digit (c : Z) : bool := (0x30 ≤b c) && (c ≤b 0x39).
Definition digit19 (c : Z) : bool := (0x31 ≤b c) && (c ≤b 0x39).
Definition hexdig (c : Z) : bool := digit c || ((0x41 ≤b c) && (c ≤b 0x46)) || ((0x61 ≤b c) && (c ≤b 0x66)).
Definition escape_letter (c : Z) : bool := existsb (Z.eqb c) [0x22; 0x5C; 0x2F; 0x62; 0x66; 0x6E; 0x72; 0x74]%Z.

Lemma isSpace_space c : isSpace c = space c.
Proof. unfold isSpace, space. lia. Qed.
Lemma isDigit_digit c : isDigit c = digit c.
Proof. unfold isDigit, digit. lia. Qed.
Lemma isDigitOneToNine_digit19 c : isDigitOneToNine c = digit19 c.
Proof. unfold isDigitOneToNine, digit19. lia. Qed.
Lemma isHexDigit_hexdig c : isHexDigit c = hexdig c.
Proof. unfold isHexDigit, hexdig, digit. lia. Qed.
Lemma isEscape_letter c : isEscape c = escape_letter c.
Proof. reflexivity. Qed.

#[local] Ltac tables := rewrite ?isSpace_space, ?isDigit_digit, ?isDigitOneToNine_digit19, ?isHexDigit_hexdig, ?isEscape_letter in *.

Definition Space (ws : bytes) : Prop := Forall (λ c, space c = true) ws.

Definition Digits (ds : bytes) : Prop := Forall (λ c, digit c = true) ds.

Inductive IntPart : bytes → Prop :=
| Int_zero : IntPart [c0]
| Int_digits d ds : digit19 d = true → Digits ds → IntPart (d :: ds).

Inductive Fraction : bytes → Prop :=
| Frac_none : Fraction []
| Frac_digits d ds : Digits (d :: ds) → Fraction (DOT :: d :: ds).

Inductive Exponent : bytes → Prop :=
| Exp_none : Exponent []
| Exp_digits e sg d ds :
    e = ce ∨ e = cE → sg = [] ∨ sg = [PLUS] ∨ sg = [MINUS] → Digits (d :: ds) → Exponent (e :: sg ++ d :: ds).

Inductive Number : bytes → Prop :=
| Num sg i f e : sg = [] ∨ sg = [MINUS] → IntPart i → Fraction f → Exponent e → Number (sg ++ i ++ f ++ e).

(** The characters of a string literal. *)
Inductive Chars : bytes → Prop :=
| Ch_nil : Chars []
| Ch_plain c s : (32 ≤ c)%Z → c ≠ DQUOTE → c ≠ BSLASH → Chars s → Chars (c :: s)
| Ch_escape e s : escape_letter e = true → Chars s → Chars (BSLASH :: e :: s)
| Ch_unicode h1 h2 h3 h4 s :
    hexdig h1 = true → hexdig h2 = true → hexdig h3 = true → hexdig h4 = true →
    Chars s → Chars (BSLASH :: cu :: h1 :: h2 :: h3 :: h4 :: s).

(** Concrete syntax: numbers and strings are their text; a member has its raw
    key, the white space between the colon and the value, and the value. *)
Inductive json :=
| JNull
| JTrue
| JFalse
| JNum (text : bytes)
| JStr (raw : bytes)
| JArr (elems : list json)
| JObj (members : list (bytes * bytes * json)).

Section grammar.
Context (lax : bool) (V : json → bytes → Prop).

Inductive Element : json → bytes → Prop :=
| El ws j w ws' : Space ws → V j w → Space ws' → Element j (ws ++ w ++ ws').

(** A trailing comma is a further comma before an empty rest; RFC 8259 has none. *)
Inductive Elements : list json → bytes → Prop :=
| Els_nil ws : Space ws → Elements [] ws
| Els_one j w : Element j w → Elements [j] w
| Els_cons j w js t : Element j w → lax = true ∨ js ≠ [] → Elements js t → Elements (j :: js) (w ++ COMMA :: t).

Inductive Member : bytes * bytes * json → bytes → Prop :=
| Mem ws raw ws1 pad j w ws2 :
    Space ws → Chars raw → Space ws1 → Space pad → V j w → Space ws2 →
    Member (raw, pad, j) (ws ++ DQUOTE :: raw ++ DQUOTE :: ws1 ++ COLON :: pad ++ w ++ ws2).

Inductive Members : list (bytes * bytes * json) → bytes → Prop :=
| Ms_nil ws : Space ws → Members [] ws
| Ms_one m w : Member m w → Members [m] w
| Ms_cons m w ms t : Member m w → lax = true ∨ ms ≠ [] → Members ms t → Members (m :: ms) (w ++ COMMA :: t).
End grammar.

(** [Value false] is JSON; [Value true] also has trailing commas. *)
Inductive Value (lax : bool) : json → bytes → Prop :=
| V_null : Value lax JNull (str "null")
| V_true : Value lax JTrue (str "true")
| V_false : Value lax JFalse (str "false")
| V_num w : Number w → Value lax (JNum w) w
| V_str raw : Chars raw → Value lax (JStr raw) (DQUOTE :: raw ++ [DQUOTE])
| V_arr js w : Elements lax (Value lax) js w → Value lax (JArr js) (LBRACK :: w ++ [RBRACK])
| V_obj ms w : Members lax (Value lax) ms w → Value lax (JObj ms) (LBRACE :: w ++ [RBRACE]).

Definition Document (lax : bool) (j : json) (text : bytes) : Prop := Element (Value lax) j text.

(** ** Lexical lemmas *)

(** A rest a number cannot run into. *)
Definition stops (r : bytes) : Prop :=
  match r with
  | [] => True
  | c :: _ => digit c = false ∧ c ≠ DOT ∧ c ≠ ce ∧ c ≠ cE
  end.

(** A rest that does not begin with white space. *)
Definition tight (r : bytes) : Prop := match r with [] => True | c :: _ => space c = false end.

Lemma skipSpace_split s : ∃ ws, Space ws ∧ s = ws ++ skipSpace s ∧ tight (skipSpace s).
Proof.
  induction s as [|c s IH]; simpl; [by exists []; repeat split; constructor|].
  tables. destruct (space c) eqn:E.
  - destruct IH as (ws & Hw & Hs & Ht). exists (c :: ws). split_and!; [by constructor|simpl; congruence|done].
  - exists []. split_and!; [constructor|done|done].
Qed.

Lemma skipSpace_app ws r : Space ws → tight r → skipSpace (ws ++ r) = r.
Proof.
  induction 1 as [|c ws Hc _ IH]; intros Hr; simpl; [|tables; rewrite Hc; by apply IH].
  destruct r as [|c r]; [done|]. simpl in *. tables. by rewrite Hr.
Qed.

Lemma skipSpace_len s : length (skipSpace s) ≤ length s.
Proof. induction s as [|c s IH]; simpl; [done|]. destruct (isSpace c); simpl; lia. Qed.

Lemma consumeByte_Some c s r : consumeByte c s = Some r ↔ s = c :: r.
Proof.
  destruct s as [|b s]; simpl; [done|]. destruct (Z.eqb_spec b c) as [->|]; [naive_solver|].
  split; [done|]. by intros [= ]; subst.
Qed.

Lemma consumeByte_hd c r : consumeByte c (c :: r) = Some r.
Proof. by apply consumeByte_Some. Qed.

Lemma consumeByte_ne c b r : b ≠ c → consumeByte c (b :: r) = None.
Proof. intros H. simpl. by destruct (Z.eqb_spec b c). Qed.

Lemma consumeLiteral_Some l s r : consumeLiteral l s = Some r ↔ s = l ++ r.
Proof.
  revert s. induction l as [|c l IH]; intros s; simpl; [naive_solver|].
  destruct s as [|b s]; [done|]. destruct (Z.eqb_spec b c) as [->|]; [|naive_solver].
  rewrite IH. naive_solver.
Qed.

Definition escaped_in (raw : bytes) : bool := existsb (Z.eqb BSLASH) raw.

Lemma hex_plain h : hexdig h = true → (BSLASH =b h) = false.
Proof. unfold hexdig, digit. lia. Qed.

Lemma readStringBody_sound s raw esc r :
  readStringBody s = Some (raw, esc, r) → s = raw ++ DQUOTE :: r ∧ Chars raw ∧ esc = escaped_in raw.
Proof.
  remember (length s) as n eqn:Hn. revert s raw esc r Hn.
  induction n as [n IH] using lt_wf_ind. intros s raw esc r Hn H. destruct s as [|c s]; [done|]. simpl in H, Hn.
  destruct (Z.eqb_spec c DQUOTE) as [->|Hq]; [simplify_eq; by repeat constructor|].
  destruct (Z.eqb_spec c BSLASH) as [->|Hb].
  - destruct s as [|e s]; [done|]. simpl in Hn. tables. destruct (escape_letter e) eqn:He.
    + destruct (readStringBody s) as [[[raw' esc'] r']|] eqn:Hr; [|done]. simplify_eq.
      destruct (IH (length s) ltac:(lia) s raw' esc' r eq_refl Hr) as (-> & ? & ->).
      split_and!; [done|by constructor|done].
    + destruct (Z.eqb_spec e cu) as [->|]; [|done].
      destruct s as [|h1 [|h2 [|h3 [|h4 s]]]]; try done. destruct (_ && _) eqn:Hh; [|done].
      destruct (readStringBody s) as [[[raw' esc'] r']|] eqn:Hr; [|done]. simplify_eq. simpl in *.
      destruct (IH (length s) ltac:(lia) s raw' esc' r eq_refl Hr) as (-> & ? & ->).
      tables. apply andb_prop in Hh as [[[? ?]%andb_prop ?]%andb_prop ?].
      split_and!; [done|by constructor|done].
  - destruct (Z.ltb_spec c 32); [done|].
    destruct (readStringBody s) as [[[raw' esc'] r']|] eqn:Hr; [|done]. simplify_eq.
    destruct (IH (length s) ltac:(lia) s raw' esc r eq_refl Hr) as (-> & ? & ->).
    split_and!; [done|by constructor|]. unfold escaped_in. simpl. by destruct (Z.eqb_spec BSLASH c).
Qed.

Lemma readStringBody_complete raw r :
  Chars raw → readStringBody (raw ++ DQUOTE :: r) = Some (raw, escaped_in raw, r).
Proof.
  induction 1 as [|c s Hc Hq Hb _ IH|e s He _ IH|h1 h2 h3 h4 s H1 H2 H3 H4 _ IH]; simpl.
  - done.
  - rewrite (proj2 (Z.eqb_neq _ _) Hq), (proj2 (Z.eqb_neq _ _) Hb), (proj2 (Z.ltb_ge _ _) Hc), IH.
    unfold escaped_in. simpl. by rewrite (proj2 (Z.eqb_neq BSLASH c)).
  - tables. rewrite He, IH. done.
  - tables. rewrite H1, H2, H3, H4. simpl. by rewrite IH.
Qed.

Lemma readString_Some s raw esc r :
  readString s = Some (raw, esc, r) ↔ s = DQUOTE :: raw ++ DQUOTE :: r ∧ Chars raw ∧ esc = escaped_in raw.
Proof.
  unfold readString. split.
  - destruct (consumeByte DQUOTE s) as [s'|] eqn:E; [|done]. apply consumeByte_Some in E as ->.
    intros (-> & ? & ->)%readStringBody_sound. done.
  - intros (-> & Hc & ->). rewrite consumeByte_hd. by apply readStringBody_complete.
Qed.

Lemma readSimpleString_Some s v r :
  readSimpleString s = Some (v, r) ↔ s = DQUOTE :: v ++ DQUOTE :: r ∧ Chars v ∧ escaped_in v = false.
Proof.
  unfold readSimpleString. split.
  - destruct (readString s) as [[[raw [|]] r']|] eqn:E; try done. intros [= -> ->].
    apply readString_Some in E as (-> & ? & ?). done.
  - intros (-> & Hc & He). rewrite (proj2 (readString_Some _ v false r)) by done. done.
Qed.

(** *** Numbers *)

Lemma skipDigits_split s : ∃ ds, Digits ds ∧ s = ds ++ skipDigits s.
Proof.
  induction s as [|c s IH]; simpl; [by exists []; split; [constructor|]|].
  tables. destruct (digit c) eqn:E; [|by exists []; split; [constructor|]].
  destruct IH as (ds & Hd & Hs). exists (c :: ds). split; [by constructor|simpl; congruence].
Qed.

Definition no_digit (r : bytes) : Prop := match r with [] => True | c :: _ => digit c = false end.

Lemma skipDigits_app ds r : Digits ds → no_digit r → skipDigits (ds ++ r) = r.
Proof.
  induction 1 as [|c ds Hc _ IH]; intros Hr; simpl; [|tables; rewrite Hc; by apply IH].
  destruct r as [|c r]; [done|]. simpl in *. tables. by rewrite Hr.
Qed.

Lemma skipDigits1_sound s r : skipDigits1 s = Some r → ∃ d ds, Digits (d :: ds) ∧ s = d :: ds ++ r.
Proof.
  destruct s as [|c s]; simpl; [done|]. tables. destruct (digit c) eqn:E; [|done]. intros [= <-].
  destruct (skipDigits_split s) as (ds & Hd & Hs). exists c, ds. split; [by constructor|congruence].
Qed.

Lemma skipDigits1_complete d ds r : Digits (d :: ds) → no_digit r → skipDigits1 (d :: ds ++ r) = Some r.
Proof. intros [H Hd]%Forall_cons Hr. simpl. tables. rewrite H. by rewrite skipDigits_app. Qed.

Lemma skipFraction_sound s r : skipFraction s = Some r → ∃ f, Fraction f ∧ s = f ++ r.
Proof.
  unfold skipFraction. destruct (consumeByte DOT s) as [s'|] eqn:E.
  - apply consumeByte_Some in E as ->. intros (d & ds & Hd & ->)%skipDigits1_sound.
    exists (DOT :: d :: ds). split; [by constructor|done].
  - intros [= ->]. exists []. split; [constructor|done].
Qed.

Lemma skipExponent_sound s r : skipExponent s = Some r → ∃ e, Exponent e ∧ s = e ++ r.
Proof.
  unfold skipExponent. destruct s as [|c s]; [intros [= <-]; exists []; split; [constructor|done]|].
  destruct (_ || _) eqn:E; [|intros [= <-]; exists []; split; [constructor|done]].
  intros (d & ds & Hd & Hs)%skipDigits1_sound.
  assert (c = ce ∨ c = cE) as Hc by lia. clear E.
  assert (∃ sg, (sg = [] ∨ sg = [PLUS] ∨ sg = [MINUS]) ∧ s = sg ++ skipSign s) as (sg & Hsg & Hs').
  { destruct s as [|b s]; simpl; [by exists []; auto|].
    destruct (_ || _) eqn:Hb; [|by exists []; auto]. exists [b].
    split; [|done]. assert (b = PLUS ∨ b = MINUS) as [-> | ->] by lia; [by right; left|by right; right]. }
  exists (c :: sg ++ d :: ds). split; [by apply Exp_digits|]. rewrite Hs' at 1. rewrite Hs. simpl.
  by rewrite <-app_assoc.
Qed.

Lemma skipNumber_sound s r : skipNumber s = Some r → ∃ w, Number w ∧ s = w ++ r.
Proof.
  unfold skipNumber.
  assert (∃ sg, (sg = [] ∨ sg = [MINUS]) ∧ s = sg ++ default s (consumeByte MINUS s)) as (sg & Hsg & Hs).
  { destruct (consumeByte MINUS s) eqn:E; [|by exists []; auto]. apply consumeByte_Some in E. exists [MINUS]. auto. }
  destruct (default s (consumeByte MINUS s)) as [|c t]; [done|]. intros H.
  assert (∃ i u, IntPart i ∧ c :: t = i ++ u ∧
    match skipFraction u with
    | None => None
    | Some v => match skipExponent v with
                | None => None | Some x => if length x <? length s then Some x else None end
    end = Some r) as (i & u & Hi & Ht & H').
  { destruct (Z.eqb_spec c c0) as [->|].
    - exists [c0], t. split_and!; [constructor|done|done].
    - tables. destruct (digit19 c) eqn:E; [|done]. destruct (skipDigits_split t) as (ds & Hd & Heq).
      exists (c :: ds), (skipDigits t). split_and!; [by constructor|simpl; congruence|done]. }
  destruct (skipFraction u) as [v|] eqn:Hf; [|done]. destruct (skipExponent v) as [x|] eqn:He; [|done].
  destruct (_ <? _); [|done]. injection H' as ->.
  apply skipFraction_sound in Hf as (f & Hf & ->). apply skipExponent_sound in He as (e & He & ->).
  exists (sg ++ i ++ f ++ e). split; [by constructor|]. rewrite Hs, Ht. by rewrite <-!app_assoc.
Qed.

(** What follows the fraction, respectively the integer part. *)
Lemma Exponent_stops e r : Exponent e → stops r → no_digit (e ++ r).
Proof. intros [|x sg d ds Hx _ _] Hr; simpl; [destruct r; naive_solver|]. by destruct Hx as [-> | ->]. Qed.

Lemma skipExponent_complete e r : Exponent e → stops r → skipExponent (e ++ r) = Some r.
Proof.
  intros [|x sg d ds Hx Hsg Hd] Hr; simpl.
  - destruct r as [|c r]; simpl; [done|]. simpl in Hr. destruct Hr as (_ & _ & ? & ?).
    destruct (Z.eqb_spec c ce), (Z.eqb_spec c cE); done.
  - assert (((x =b ce) || (x =b cE)) = true) as -> by (destruct Hx as [-> | ->]; done).
    assert (skipSign ((sg ++ d :: ds) ++ r) = d :: ds ++ r) as ->.
    { rewrite <-app_assoc. destruct Hsg as [-> | [-> | ->]]; simpl; try done.
      apply Forall_cons_1 in Hd as [Hd _]. unfold digit in Hd. destruct (_ || _) eqn:E; [lia|done]. }
    apply skipDigits1_complete; [done|]. destruct r; simpl in *; tauto.
Qed.

Lemma skipFraction_complete f e r :
  Fraction f → Exponent e → stops r → skipFraction (f ++ e ++ r) = Some (e ++ r).
Proof.
  intros [|d ds Hd] He Hr; unfold skipFraction; cbn [app].
  - destruct (consumeByte DOT (e ++ r)) eqn:E; [|done]. apply consumeByte_Some in E.
    destruct He as [|x sg d ds [-> | ->] _ _]; simplify_eq/=. destruct Hr as (_ & ? & _). done.
  - rewrite consumeByte_hd. apply skipDigits1_complete; [done|by apply Exponent_stops].
Qed.

Lemma IntPart_pos i : IntPart i → 0 < length i.
Proof. intros []; simpl; lia. Qed.

Lemma skipNumber_complete w r : Number w → stops r → skipNumber (w ++ r) = Some r.
Proof.
  intros [sg i f e Hsg Hi Hf He] Hr. unfold skipNumber.
  assert (default ((sg ++ i ++ f ++ e) ++ r) (consumeByte MINUS ((sg ++ i ++ f ++ e) ++ r)) = i ++ f ++ e ++ r) as ->.
  { destruct Hsg as [-> | ->]; cbn [app]; [|rewrite consumeByte_hd; cbn [default]; by rewrite <-!app_assoc].
    rewrite <-!app_assoc. destruct Hi as [|d ds Hd _]; [done|]. cbn [app].
    rewrite consumeByte_ne; [done|]. unfold digit19 in Hd. lia. }
  assert (length r < length ((sg ++ i ++ f ++ e) ++ r)) as Hlen.
  { rewrite !length_app. pose proof (IntPart_pos i Hi). lia. }
  assert (no_digit (f ++ e ++ r)) as Hnd.
  { destruct Hf; [by apply (Exponent_stops e r)|reflexivity]. }
  destruct Hi as [|d ds Hd Hds]; cbn [app].
  - rewrite Z.eqb_refl, skipFraction_complete, skipExponent_complete by done.
    rewrite (proj2 (Nat.ltb_lt _ _)); [done|exact Hlen].
  - assert ((d =b c0) = false) as -> by (unfold digit19 in Hd; lia).
    tables. rewrite Hd, skipDigits_app, skipFraction_complete, skipExponent_complete by done.
    rewrite (proj2 (Nat.ltb_lt _ _)); [done|exact Hlen].
Qed.

(** ** Loops *)

Lemma sbind_Accept {A B} (c : scan A) (k : A → scan B) b :
  sbind c k = Accept b ↔ ∃ a, c = Accept a ∧ k a = Accept b.
Proof. destruct c; simpl; naive_solver. Qed.

Lemma sbind_total {A B} (c : scan A) (k : A → scan B) :
  c ≠ OutOfFuel → (∀ a, c = Accept a → k a ≠ OutOfFuel) → sbind c k ≠ OutOfFuel.
Proof. destruct c; simpl; naive_solver. Qed.

Lemma of_option_Accept {A} (o : option A) a : of_option o = Accept a ↔ o = Some a.
Proof. destruct o; simpl; naive_solver. Qed.

Lemma of_option_total {A} (o : option A) : of_option o ≠ OutOfFuel.
Proof. by destruct o. Qed.

#[local] Hint Resolve of_option_total : core.

(** A reader of member values agrees with [step], which says what a member does
    to the loop's variables, on inputs of at most [N] bytes. *)
Record handles {A} (N : nat) (value : bytes → A → bytes → scan (A * bytes))
    (step : bytes → bytes → json → A → option A) : Prop := {
  h_sound k st s st' r : length s ≤ N → value k st s = Accept (st', r) →
    ∃ pad w j, s = pad ++ w ++ r ∧ Space pad ∧ Value true j w ∧ step k pad j st = Some st';
  h_complete k st pad w j r st' : length (pad ++ w ++ r) ≤ N → Space pad → Value true j w → stops r →
    step k pad j st = Some st' → value k st (pad ++ w ++ r) = Accept (st', r);
  h_total k st s : length s ≤ N → value k st s ≠ OutOfFuel;
}.

(** The members in order. *)
Fixpoint steps {A} (step : bytes → bytes → json → A → option A) (ms : list (bytes * bytes * json)) (st : A) : option A :=
  match ms with
  | [] => Some st
  | (k, pad, j) :: ms => step k pad j st ≫= steps step ms
  end.

Definition keys_ok (keyOK : bool → bool) (ms : list (bytes * bytes * json)) : Prop :=
  Forall (λ m, keyOK (escaped_in m.1.1) = true) ms.

Lemma Space_stops ws c r : Space ws → stops (c :: r) → stops (ws ++ c :: r).
Proof.
  intros [|b ws' Hb _] Hc; [done|]. simpl. unfold space in Hb. unfold digit. split_and!; lia.
Qed.

(** Lengths of the texts the grammar builds. *)
Ltac len_lia := simpl; repeat (rewrite !length_app; simpl); lia.

Section objectLoop.
Context {A : Type} (N : nat) (keyOK : bool → bool) (value : bytes → A → bytes → scan (A * bytes)).
Context (step : bytes → bytes → json → A → option A) (Hv : handles N value step).

(** One member, up to the delimiter after it. *)
Lemma objectLoop_member fuel st raw pad j w u d st' :
  Member (Value true) (raw, pad, j) w → keyOK (escaped_in raw) = true → step raw pad j st = Some st' →
  d = RBRACE ∨ d = COMMA → length (w ++ d :: u) ≤ N →
  objectLoop keyOK value (S fuel) st (w ++ d :: u) =
    if d =b RBRACE then Accept (st', u) else objectLoop keyOK value fuel st' u.
Proof using Hv.
  intros Hm Hk Hs Hd HN. inversion Hm as [ws raw' ws1 pad' j' w' ws2 Hws Hraw Hws1 Hpad Hval Hws2]; subst. clear Hm.
  cbn [objectLoop]. rewrite <-app_assoc. rewrite skipSpace_app by done.
  cbn [app]. rewrite consumeByte_ne by done.
  rewrite <-app_assoc. cbn [app].
  rewrite (proj2 (readString_Some _ raw _ _)) by done. cbn [of_option sbind]. rewrite Hk. cbn [negb].
  rewrite <-app_assoc. cbn [app]. rewrite skipSpace_app by done. rewrite consumeByte_hd. cbn [of_option sbind].
  rewrite <-!app_assoc.
  assert (tight (d :: u)) as Ht by (by destruct Hd as [-> | ->]).
  assert (stops (d :: u)) as Hst by (by destruct Hd as [-> | ->]).
  rewrite (h_complete _ _ _ Hv raw st pad w' j _ st'); [|..|by apply Space_stops|done]; [|idtac..|done|done].
  - cbn [sbind]. rewrite skipSpace_app by done. by destruct Hd as [-> | ->].
  - revert HN. len_lia.
Qed.

Lemma objectLoop_complete fuel st ms w r st' :
  Members true (Value true) ms w → keys_ok keyOK ms → steps step ms st = Some st' →
  length (w ++ RBRACE :: r) ≤ N → length w < fuel →
  objectLoop keyOK value fuel st (w ++ RBRACE :: r) = Accept (st', r).
Proof using Hv.
  intros Hm. revert fuel st. induction Hm as [ws Hws|m w Hm|m w ms t Hm _ _ IH]; intros fuel st Hk Hs HN Hf.
  - destruct fuel as [|fuel]; [lia|]. cbn [objectLoop]. rewrite skipSpace_app by done.
    rewrite consumeByte_hd. by simplify_eq/=.
  - destruct fuel as [|fuel]; [lia|]. destruct m as [[raw pad] j]. apply Forall_cons in Hk as [Hk _].
    simpl in Hs. destruct (step raw pad j st) as [st1|] eqn:E; [|done]. injection Hs as ->.
    rewrite (objectLoop_member _ _ raw pad j _ _ _ st') by auto. done.
  - destruct fuel as [|fuel]; [lia|]. destruct m as [[raw pad] j]. apply Forall_cons in Hk as [Hk Hks].
    simpl in Hs. destruct (step raw pad j st) as [st1|] eqn:E; [|done]. simpl in Hs.
    rewrite <-app_assoc in HN |- *. cbn [app] in HN |- *.
    rewrite (objectLoop_member _ _ raw pad j _ _ _ st1) by auto. cbn.
    rewrite length_app in Hf. rewrite length_app in HN. simpl in Hf, HN.
    apply IH; [done|done|lia|lia].
Qed.

Lemma objectLoop_sound fuel st s st' r :
  length s ≤ N → objectLoop keyOK value fuel st s = Accept (st', r) →
  ∃ ms w, s = w ++ RBRACE :: r ∧ Members true (Value true) ms w ∧ keys_ok keyOK ms ∧ steps step ms st = Some st'.
Proof using Hv.
  revert st s. induction fuel as [|fuel IH]; intros st s HN; [done|]. cbn [objectLoop].
  destruct (skipSpace_split s) as (ws & Hws & Hs & _). remember (skipSpace s) as s1 eqn:E1. clear E1.
  destruct (consumeByte RBRACE s1) as [s2|] eqn:E2.
  { intros [= -> ->]. apply consumeByte_Some in E2 as ->. exists [], ws.
    split_and!; [done|by constructor|constructor|done]. }
  intros ([[raw esc] s3] & (-> & Hraw & ->)%of_option_Accept%readString_Some & H)%sbind_Accept.
  destruct (keyOK (escaped_in raw)) eqn:Hk; [|done]. cbn [negb] in H.
  apply sbind_Accept in H as (s4 & Hc%of_option_Accept%consumeByte_Some & H).
  destruct (skipSpace_split s3) as (ws1 & Hws1 & Hs3 & _). rewrite Hc in Hs3. subst s3 s. clear Hc.
  apply sbind_Accept in H as ([st1 s5] & H1 & H).
  assert (length s4 ≤ N) as HN4.
  { revert HN. len_lia. }
  destruct (h_sound _ _ _ Hv _ _ _ _ _ HN4 H1) as (pad & w & j & -> & Hpad & Hval & Hstep).
  destruct (skipSpace_split s5) as (ws2 & Hws2 & Hs5 & _). remember (skipSpace s5) as s6 eqn:E6. clear E6.
  assert (Member (Value true) (raw, pad, j) (ws ++ DQUOTE :: raw ++ DQUOTE :: ws1 ++ COLON :: pad ++ w ++ ws2))
    as Hm by (by constructor).
  destruct (consumeByte RBRACE s6) as [s7|] eqn:E7.
  - apply consumeByte_Some in E7 as ->. injection H as -> ->. subst s5.
    eexists [(raw, pad, j)], _. split_and!; [|by apply Ms_one, Hm|by repeat constructor|simpl; by rewrite Hstep].
    repeat (rewrite <-?app_assoc; cbn [app]). done.
  - apply sbind_Accept in H as (s7 & ->%of_option_Accept%consumeByte_Some & H). subst s5.
    assert (length s7 ≤ N) as HN7 by (revert HN4; len_lia).
    destruct (IH _ _ HN7 H) as (ms & t & -> & Hms & Hks & Hss).
    eexists ((raw, pad, j) :: ms), _.
    split_and!; [|by apply Ms_cons; [apply Hm|left|]|by constructor|simpl; by rewrite Hstep].
    repeat (rewrite <-?app_assoc; cbn [app]). done.
Qed.

Lemma objectLoop_total fuel st s : length s ≤ N → length s < fuel → objectLoop keyOK value fuel st s ≠ OutOfFuel.
Proof using Hv.
  revert st s. induction fuel as [|fuel IH]; intros st s HN Hf; [lia|]. cbn [objectLoop].
  pose proof (skipSpace_len s) as Hl. remember (skipSpace s) as s1 eqn:E1. clear E1.
  destruct (consumeByte RBRACE s1); [done|]. apply sbind_total; [done|].
  intros [[raw esc] s3] (-> & _ & _)%of_option_Accept%readString_Some. simpl in Hl. rewrite length_app in Hl. simpl in Hl.
  destruct (negb _); [done|]. apply sbind_total; [done|].
  intros s4 Hc%of_option_Accept%consumeByte_Some. pose proof (skipSpace_len s3) as Hl3. rewrite Hc in Hl3. simpl in Hl3.
  assert (length s4 ≤ N) as HN4 by lia.
  apply sbind_total; [by apply (h_total _ _ _ Hv)|]. intros [st1 s5] H1.
  destruct (h_sound _ _ _ Hv _ _ _ _ _ HN4 H1) as (pad & w & j & Hs4 & _).
  apply (f_equal length) in Hs4. rewrite !length_app in Hs4. pose proof (skipSpace_len s5) as Hl5.
  destruct (consumeByte RBRACE (skipSpace s5)); [done|]. apply sbind_total; [done|].
  intros s7 Hc7%of_option_Accept%consumeByte_Some. rewrite Hc7 in Hl5. simpl in Hl5. apply IH; lia.
Qed.
End objectLoop.

(** The same for a reader of array elements. *)
Record reads (N : nat) (value : bytes → scan bytes) : Prop := {
  r_sound s r : length s ≤ N → value s = Accept r → ∃ pad w j, s = pad ++ w ++ r ∧ Space pad ∧ Value true j w;
  r_complete pad w j r : length (pad ++ w ++ r) ≤ N → Space pad → Value true j w → stops r →
    value (pad ++ w ++ r) = Accept r;
  r_total s : length s ≤ N → value s ≠ OutOfFuel;
}.

Lemma Value_head lax j w : Value lax j w → ∃ c t, w = c :: t ∧ space c = false ∧ c ≠ RBRACK.
Proof.
  intros [| | |w' [sg i f e Hsg Hi _ _]|raw|js t|ms t]; try (eexists _, _; split_and!; [reflexivity|done|done]).
  destruct Hsg as [-> | ->]; [|by eexists _, _; split_and!].
  destruct Hi as [|d ds Hd _]; cbn [app]; eexists _, _; (split_and!; [reflexivity|..]); try done;
    unfold digit19 in Hd; unfold space; lia.
Qed.

Lemma Value_tight lax j w r : Value lax j w → tight (w ++ r).
Proof. by intros (c & t & -> & H & _)%Value_head. Qed.

Section arrayLoop.
Context (N : nat) (value : bytes → scan bytes) (Hv : reads N value).

Lemma arrayLoop_element fuel j w u d :
  Element (Value true) j w → d = RBRACK ∨ d = COMMA → length (w ++ d :: u) ≤ N →
  arrayLoop value (S fuel) (w ++ d :: u) = if d =b RBRACK then Accept u else arrayLoop value fuel u.
Proof using Hv.
  intros [ws j' w' ws2 Hws Hval Hws2] Hd HN. cbn [arrayLoop]. rewrite <-!app_assoc in HN |- *.
  rewrite skipSpace_app by (done || by eapply Value_tight).
  destruct (Value_head _ _ _ Hval) as (c & t & Hw & _ & Hc).
  assert (consumeByte RBRACK (w' ++ ws2 ++ d :: u) = None) as -> by (rewrite Hw; by apply consumeByte_ne).
  assert (tight (d :: u)) as Ht by (by destruct Hd as [-> | ->]).
  assert (stops (d :: u)) as Hst by (by destruct Hd as [-> | ->]).
  assert (value (w' ++ ws2 ++ d :: u) = Accept (ws2 ++ d :: u)) as ->.
  { apply (r_complete _ _ Hv [] w' j'); [revert HN; len_lia|constructor|done|by apply Space_stops]. }
  cbn [sbind]. rewrite skipSpace_app by done. by destruct Hd as [-> | ->].
Qed.

Lemma arrayLoop_complete fuel js w r :
  Elements true (Value true) js w → length (w ++ RBRACK :: r) ≤ N → length w < fuel →
  arrayLoop value fuel (w ++ RBRACK :: r) = Accept r.
Proof using Hv.
  intros Hm. revert fuel. induction Hm as [ws Hws|j w Hm|j w js t Hm _ _ IH]; intros fuel HN Hf;
    (destruct fuel as [|fuel]; [lia|]).
  - cbn [arrayLoop]. rewrite skipSpace_app by done. by rewrite consumeByte_hd.
  - by rewrite (arrayLoop_element _ j) by auto.
  - rewrite <-app_assoc in HN |- *. cbn [app] in HN |- *. rewrite (arrayLoop_element _ j) by auto.
    apply IH; [revert HN|revert Hf]; len_lia.
Qed.

Lemma arrayLoop_sound fuel s r :
  length s ≤ N → arrayLoop value fuel s = Accept r →
  ∃ js w, s = w ++ RBRACK :: r ∧ Elements true (Value true) js w.
Proof using Hv.
  revert s. induction fuel as [|fuel IH]; intros s HN; [done|]. cbn [arrayLoop].
  destruct (skipSpace_split s) as (ws & Hws & Hs & _). remember (skipSpace s) as s1 eqn:E1. clear E1.
  destruct (consumeByte RBRACK s1) as [s2|] eqn:E2.
  { intros [= ->]. apply consumeByte_Some in E2 as ->. exists [], ws. split; [done|by constructor]. }
  assert (length s1 ≤ N) as HN1 by (rewrite Hs in HN; revert HN; len_lia).
  intros (s5 & (pad & w & j & -> & Hpad & Hval)%(r_sound _ _ Hv) & H)%sbind_Accept; [|done].
  destruct (skipSpace_split s5) as (ws2 & Hws2 & Hs5 & _). remember (skipSpace s5) as s6 eqn:E6. clear E6.
  assert (Element (Value true) j ((ws ++ pad) ++ w ++ ws2)) as Hm by (constructor; [by apply Forall_app_2|done..]).
  destruct (consumeByte RBRACK s6) as [s7|] eqn:E7.
  - apply consumeByte_Some in E7 as ->. injection H as ->. subst.
    eexists [j], _. split; [|by apply Els_one, Hm]. by rewrite <-!app_assoc.
  - apply sbind_Accept in H as (s7 & ->%of_option_Accept%consumeByte_Some & H). subst.
    assert (length s7 ≤ N) as HN7 by (revert HN; len_lia).
    destruct (IH _ HN7 H) as (js & t & -> & Hjs).
    eexists (j :: js), _. split; [|by apply Els_cons; [apply Hm|left|]].
    repeat (rewrite <-?app_assoc; cbn [app]). done.
Qed.

Lemma arrayLoop_total fuel s : length s ≤ N → length s < fuel → arrayLoop value fuel s ≠ OutOfFuel.
Proof using Hv.
  revert s. induction fuel as [|fuel IH]; intros s HN Hf; [lia|]. cbn [arrayLoop].
  pose proof (skipSpace_len s) as Hl. remember (skipSpace s) as s1 eqn:E1. clear E1.
  destruct (consumeByte RBRACK s1); [done|]. assert (length s1 ≤ N) as HN1 by lia.
  apply sbind_total; [by apply (r_total _ _ Hv)|]. intros s5 H1.
  destruct (r_sound _ _ Hv _ _ HN1 H1) as (pad & w & j & Hs4 & _).
  apply (f_equal length) in Hs4. rewrite !length_app in Hs4. pose proof (skipSpace_len s5) as Hl5.
  destruct (consumeByte RBRACK (skipSpace s5)); [done|]. apply sbind_total; [done|].
  intros s7 Hc7%of_option_Accept%consumeByte_Some. rewrite Hc7 in Hl5. simpl in Hl5. apply IH; lia.
Qed.
End arrayLoop.

(** ** [skipValue] *)

Definition unchanged {A} (_ _ : bytes) (_ : json) (st : A) : option A := Some st.

Lemma skip_handles {A} N value :
  reads N value → handles N (λ _ (st : A) s, scan! s := value s in Accept (st, s)) unchanged.
Proof.
  intros Hv. split.
  - intros k st s st' r HN (s' & H & [= -> ->])%sbind_Accept.
    destruct (r_sound _ _ Hv _ _ HN H) as (pad & w & j & ? & ? & ?). by exists pad, w, j.
  - intros k st pad w j r st' HN Hp Hj Hr [= ->]. by rewrite (r_complete _ _ Hv pad w j).
  - intros k st s HN. apply sbind_total; [by apply (r_total _ _ Hv)|done].
Qed.

Lemma steps_unchanged {A} ms (st : A) : steps unchanged ms st = Some st.
Proof. by induction ms as [|[[k pad] j] ms IH]. Qed.

Lemma skipObject_sound N value s r :
  reads N value → length s ≤ S N → skipObject value s = Accept r → ∃ w j, s = w ++ r ∧ Value true j w.
Proof.
  intros Hv HN. unfold skipObject.
  intros (s1 & ->%of_option_Accept%consumeByte_Some & ([u s2] & H & [= ->])%sbind_Accept)%sbind_Accept.
  simpl in HN. eapply objectLoop_sound in H as (ms & w & -> & Hm & _); [|by apply (skip_handles N)|lia].
  exists (LBRACE :: w ++ [RBRACE]), (JObj ms). split; [simpl; by rewrite <-app_assoc|by constructor].
Qed.

Lemma skipArray_sound N value s r :
  reads N value → length s ≤ S N → skipArray value s = Accept r → ∃ w j, s = w ++ r ∧ Value true j w.
Proof.
  intros Hv HN. unfold skipArray. intros (s1 & ->%of_option_Accept%consumeByte_Some & H)%sbind_Accept.
  simpl in HN. eapply arrayLoop_sound in H as (js & w & -> & Hm); [|done|lia].
  exists (LBRACK :: w ++ [RBRACK]), (JArr js). split; [simpl; by rewrite <-app_assoc|by constructor].
Qed.

Lemma skipObject_complete N value ms w r :
  reads N value → length (LBRACE :: w ++ RBRACE :: r) ≤ S N → Members true (Value true) ms w →
  skipObject value (LBRACE :: w ++ RBRACE :: r) = Accept r.
Proof.
  intros Hv HN Hm. unfold skipObject. rewrite consumeByte_hd. cbn [of_option sbind].
  erewrite (objectLoop_complete N); [done|by apply skip_handles|done|by apply Forall_true|apply steps_unchanged|..];
    revert HN; len_lia.
Qed.

Lemma skipArray_complete N value js w r :
  reads N value → length (LBRACK :: w ++ RBRACK :: r) ≤ S N → Elements true (Value true) js w →
  skipArray value (LBRACK :: w ++ RBRACK :: r) = Accept r.
Proof.
  intros Hv HN Hm. unfold skipArray. rewrite consumeByte_hd. cbn [of_option sbind].
  eapply (arrayLoop_complete N); [done..| |]; revert HN; len_lia.
Qed.

(** The dispatch of [skipValue] on the first byte, over the [skipValue] of the
    nested values. *)
Definition dispatch (inner : bytes → scan bytes) (s : bytes) : scan bytes :=
  match s with
  | [] => Reject
  | c :: _ =>
      if c =b DQUOTE then scan! (_, _, s) := of_option (readString s) in Accept s
      else if c =b LBRACE then skipObject inner s
      else if c =b LBRACK then skipArray inner s
      else if c =b ct then of_option (consumeLiteral (str "true") s)
      else if c =b cf then of_option (consumeLiteral (str "false") s)
      else if c =b cn then of_option (consumeLiteral (str "null") s)
      else of_option (skipNumber s)
  end.

Lemma dispatch_sound N inner s r :
  reads N inner → length s ≤ S N → dispatch inner s = Accept r → ∃ w j, s = w ++ r ∧ Value true j w.
Proof.
  intros Hv HN. unfold dispatch. destruct s as [|c s]; [done|].
  destruct (c =b DQUOTE).
  { intros ([[raw esc] s'] & (-> & Hc & _)%of_option_Accept%readString_Some & [= ->])%sbind_Accept.
    exists (DQUOTE :: raw ++ [DQUOTE]), (JStr raw). split; [simpl; by rewrite <-app_assoc|by constructor]. }
  destruct (c =b LBRACE); [by apply (skipObject_sound N)|]. destruct (c =b LBRACK); [by apply (skipArray_sound N)|].
  destruct (c =b ct); [|destruct (c =b cf); [|destruct (c =b cn)]]; intros H%of_option_Accept;
    try (apply consumeLiteral_Some in H as ->).
  - eexists _, JTrue. split; [reflexivity|constructor].
  - eexists _, JFalse. split; [reflexivity|constructor].
  - eexists _, JNull. split; [reflexivity|constructor].
  - apply skipNumber_sound in H as (w & Hw & Hs). exists w, (JNum w). split; [done|by constructor].
Qed.

Lemma dispatch_number inner w r : Number w → dispatch inner (w ++ r) = of_option (skipNumber (w ++ r)).
Proof.
  intros [sg i f e Hsg Hi _ _]. assert (∃ c t, (sg ++ i ++ f ++ e) ++ r = c :: t ∧ (c = MINUS ∨ digit c = true)) as (c & t & -> & Hc).
  { destruct Hsg as [-> | ->]; [|by eexists _, _; split; [reflexivity|left]].
    destruct Hi as [|d ds Hd _]; eexists _, _; (split; [reflexivity|right]); [done|].
    unfold digit19 in Hd. unfold digit. lia. }
  unfold dispatch. unfold digit in Hc.
  repeat match goal with |- context [c =b ?x] => destruct (Z.eqb_spec c x); [lia|] end. done.
Qed.

Lemma dispatch_complete N inner j w r :
  reads N inner → length (w ++ r) ≤ S N → Value true j w → stops r → dispatch inner (w ++ r) = Accept r.
Proof.
  intros Hv HN Hj Hr. destruct Hj as [| | |w Hw|raw Hc|js w Hw|ms w Hw]; try reflexivity.
  - rewrite dispatch_number by done. by rewrite skipNumber_complete.
  - cbn [app]. rewrite <-app_assoc. cbn [app]. unfold dispatch. rewrite Z.eqb_refl.
    by rewrite (proj2 (readString_Some _ raw (escaped_in raw) r)).
  - cbn [app] in HN |- *. rewrite <-app_assoc in HN |- *. by eapply (skipArray_complete N).
  - cbn [app] in HN |- *. rewrite <-app_assoc in HN |- *. by eapply (skipObject_complete N).
Qed.

Lemma dispatch_total N inner s : reads N inner → length s ≤ S N → dispatch inner s ≠ OutOfFuel.
Proof.
  intros Hv HN. unfold dispatch, skipObject, skipArray. destruct s as [|c s]; [done|].
  repeat (case_match; [try done|try done]).
  - apply sbind_total; [done|]. by intros [[? ?] ?] _.
  - apply sbind_total; [done|]. intros s1 Hs%of_option_Accept%consumeByte_Some.
    injection Hs as -> ->. simpl in HN.
    apply sbind_total; [|by intros [? ?] _].
    eapply objectLoop_total; [by apply (skip_handles N)|lia|lia].
  - apply sbind_total; [done|]. intros s1 Hs%of_option_Accept%consumeByte_Some.
    injection Hs as -> ->. simpl in HN.
    eapply arrayLoop_total; [done|lia|lia].
Qed.

Lemma skipValueN_reads N : reads N (skipValueN (S N)).
Proof.
  induction N as [|N IH].
  - split.
    + intros [|? ?] r HN; [done|simpl in HN; lia].
    + intros pad w j r HN _ (c & t & -> & _)%Value_head _. revert HN. len_lia.
    + intros [|? ?] HN; [done|simpl in HN; lia].
  - assert (∀ s, skipValueN (S (S N)) s = dispatch (skipValueN (S N)) (skipSpace s)) as Heq by reflexivity. split.
    + intros s r HN. rewrite Heq. destruct (skipSpace_split s) as (ws & Hws & Hs & _). intros H.
      eapply dispatch_sound in H as (w & j & Hs' & Hj); [|done|pose proof (skipSpace_len s); lia].
      exists ws, w, j. by rewrite <-Hs'.
    + intros pad w j r HN Hp Hj Hr. rewrite Heq, skipSpace_app by (done || by eapply Value_tight).
      eapply dispatch_complete; [done| |done|done]. revert HN. len_lia.
    + intros s HN. rewrite Heq. eapply dispatch_total; [done|]. pose proof (skipSpace_len s). lia.
Qed.

Lemma skipValue_reads N : reads N skipValue.
Proof.
  unfold skipValue. split.
  - intros s r _. by apply (r_sound _ _ (skipValueN_reads (length s))).
  - intros pad w j r _. by apply (r_complete _ _ (skipValueN_reads (length (pad ++ w ++ r)))).
  - intros s _. by apply (r_total _ _ (skipValueN_reads (length s))).
Qed.

(** ** The identifiers *)

(** A reader of one kind of value agrees with [g], which says what it makes of it. *)
Record reads_as {V} (N : nat) (rd : bytes → scan (V * bytes)) (g : bytes → json → option V) : Prop := {
  ra_sound s v r : length s ≤ N → rd s = Accept (v, r) →
    ∃ pad w j, s = pad ++ w ++ r ∧ Space pad ∧ Value true j w ∧ g pad j = Some v;
  ra_complete pad w j r v : length (pad ++ w ++ r) ≤ N → Space pad → Value true j w → stops r →
    g pad j = Some v → rd (pad ++ w ++ r) = Accept (v, r);
  ra_total s : length s ≤ N → rd s ≠ OutOfFuel;
}.

Definition case_step {A V} (name : bytes) (g : bytes → json → option V) (upd : A → V → A)
    (step : bytes → bytes → json → A → option A) (k pad : bytes) (j : json) (st : A) : option A :=
  if bytesEqualString k name then upd st <$> g pad j else step k pad j st.

(** One case of the [switch] on the key. *)
Lemma handles_case {A V} N name rd (g : bytes → json → option V) (upd : A → V → A) value step :
  reads_as N rd g → handles N value step →
  handles N (λ k st s, if bytesEqualString k name then scan! (v, s) := rd s in Accept (upd st v, s) else value k st s)
    (case_step name g upd step).
Proof.
  intros Hr Hv. unfold case_step. split.
  - intros k st s st' r HN. destruct (bytesEqualString k name); [|by apply (h_sound _ _ _ Hv)].
    intros ([v s'] & H & [= <- ->])%sbind_Accept.
    destruct (ra_sound _ _ _ Hr _ _ _ HN H) as (pad & w & j & ? & ? & ? & Hg).
    exists pad, w, j. by rewrite Hg.
  - intros k st pad w j r st' HN Hp Hj Hst. destruct (bytesEqualString k name); [|by apply (h_complete _ _ _ Hv)].
    destruct (g pad j) as [v|] eqn:Hg; [|done]. intros [= <-].
    by rewrite (ra_complete _ _ _ Hr pad w j r v).
  - intros k st s HN. destruct (bytesEqualString k name); [|by apply (h_total _ _ _ Hv)].
    apply sbind_total; [by apply (ra_total _ _ _ Hr)|by intros [? ?] _].
Qed.

(** An identifier: a string without escapes right after the colon. *)
Definition simple (pad : bytes) (j : json) : option bytes :=
  match pad, j with
  | [], JStr raw => if escaped_in raw then None else Some raw
  | _, _ => None
  end.

Lemma readSimpleString_reads N : reads_as N (λ s, of_option (readSimpleString s)) simple.
Proof.
  split.
  - intros s v r _ (-> & Hc & He)%of_option_Accept%readSimpleString_Some.
    exists [], (DQUOTE :: v ++ [DQUOTE]), (JStr v). cbn [app]. rewrite <-app_assoc.
    split_and!; [done|constructor|by constructor|]. simpl. by rewrite He.
  - intros pad w j r v _ _ Hj _. destruct pad as [|? ?], j as [| | | |raw| |]; try done. simpl.
    destruct (escaped_in raw) eqn:He; [done|]. intros [= <-]. inversion Hj as [| | | |raw' Hc| |]; subst.
    by rewrite (proj2 (readSimpleString_Some _ raw r)) by (split; [cbn [app]; by rewrite <-app_assoc|done]).
  - done.
Qed.

Definition plain_keys (ms : list (bytes * bytes * json)) : bool := forallb (λ m, negb (escaped_in m.1.1)) ms.

Lemma plain_keys_ok ms : plain_keys ms = true ↔ keys_ok unescaped ms.
Proof. apply forallb_Forall. Qed.

(** What [readTurnObject] makes of the value of [turn]. *)
Definition turnObjectStep : bytes → bytes → json → scannedTurn → option scannedTurn :=
  case_step (str "id") simple (λ t v, ScannedTurn v (turnID t) (turnID2 t))
    (case_step (str "turnId") simple (λ t v, ScannedTurn (id t) v (turnID2 t))
      (case_step (str "turn_id") simple (λ t v, ScannedTurn (id t) (turnID t) v) unchanged)).

Definition objectOf {A} (step : bytes → bytes → json → A → option A) (init : A) (ms : list (bytes * bytes * json)) : option A :=
  if plain_keys ms then steps step ms init else None.

Definition turnOf (_ : bytes) (j : json) : option scannedTurn :=
  match j with
  | JNull => Some noTurn
  | JObj ms => objectOf turnObjectStep noTurn ms
  | _ => None
  end.

Lemma obj_no_null w r : consumeLiteral (str "null") (LBRACE :: w ++ r) = None.
Proof. done. Qed.

Lemma turnObject_handles N value' :
  reads N value' →
  handles N
    (λ key turn s,
      if bytesEqualString key (str "id") then
        scan! (value, s) := of_option (readSimpleString s) in
        Accept (ScannedTurn value (turnID turn) (turnID2 turn), s)
      else if bytesEqualString key (str "turnId") then
        scan! (value, s) := of_option (readSimpleString s) in
        Accept (ScannedTurn (id turn) value (turnID2 turn), s)
      else if bytesEqualString key (str "turn_id") then
        scan! (value, s) := of_option (readSimpleString s) in
        Accept (ScannedTurn (id turn) (turnID turn) value, s)
      else
        scan! s := value' s in Accept (turn, s))
    turnObjectStep.
Proof.
  intros Hv.
  apply (handles_case N (str "id") (λ s, of_option (readSimpleString s))); [apply readSimpleString_reads|].
  apply (handles_case N (str "turnId") (λ s, of_option (readSimpleString s))); [apply readSimpleString_reads|].
  apply (handles_case N (str "turn_id") (λ s, of_option (readSimpleString s))); [apply readSimpleString_reads|].
  by apply skip_handles.
Qed.

Lemma readTurnObject_reads N : reads_as N readTurnObject turnOf.
Proof.
  pose proof (turnObject_handles N skipValue (skipValue_reads N)) as Ht. unfold readTurnObject. split.
  - intros s v r HN. destruct (skipSpace_split s) as (ws & Hws & Hs & _). remember (skipSpace s) as s1 eqn:E1. clear E1.
    destruct (consumeLiteral (str "null") s1) as [s2|] eqn:E2.
    { intros [= <- ->]. apply consumeLiteral_Some in E2 as ->.
      exists ws, (str "null"), JNull. split_and!; [done..|constructor|done]. }
    intros (s2 & ->%of_option_Accept%consumeByte_Some & H)%sbind_Accept. subst s.
    eapply objectLoop_sound in H as (ms & w & -> & Hm & Hk%plain_keys_ok & Hst); [|apply Ht|revert HN; len_lia].
    exists ws, (LBRACE :: w ++ [RBRACE]), (JObj ms). cbn [app]. rewrite <-app_assoc.
    split_and!; [done..|by constructor|]. simpl. unfold objectOf. by rewrite Hk.
  - intros pad w j r v HN Hp Hj Hr Hv. rewrite skipSpace_app by (done || by eapply Value_tight).
    destruct j as [| | | | | |ms]; try done.
    { inversion Hj; subst. simpl in Hv. by injection Hv as <-. }
    inversion Hj as [| | | | | |ms' w' Hm]; subst. cbn [app]. rewrite <-app_assoc. cbn [app].
    rewrite obj_no_null, consumeByte_hd. cbn [of_option sbind]. simpl in Hv. unfold objectOf in Hv.
    destruct (plain_keys ms) eqn:Hk; [|done]. apply plain_keys_ok in Hk.
    eapply objectLoop_complete; [apply Ht|done|done|done|revert HN; len_lia|len_lia].
  - intros s HN. pose proof (skipSpace_len s) as Hl. destruct (consumeLiteral _ _); [done|].
    apply sbind_total; [done|]. intros s1 Hs%of_option_Accept%consumeByte_Some. rewrite Hs in Hl. simpl in Hl.
    eapply objectLoop_total; [apply Ht|lia|lia].
Qed.

(** What the loops make of the members of the document. *)
Definition turnStep : bytes → bytes → json → turnVars → option turnVars :=
  case_step (str "turnId") simple (λ v x, TurnVars x (vTurnID2 v) (vTurn v))
    (case_step (str "turn_id") simple (λ v x, TurnVars (vTurnID v) x (vTurn v))
      (case_step (str "turn") turnOf (λ v x, TurnVars (vTurnID v) (vTurnID2 v) x) unchanged)).

Definition loginStep : bytes → bytes → json → bytes → option bytes :=
  case_step (str "loginId") simple (λ _ x, x) unchanged.

Lemma turnMember_handles N : handles N turnMember turnStep.
Proof.
  apply (handles_case N (str "turnId") (λ s, of_option (readSimpleString s))); [apply readSimpleString_reads|].
  apply (handles_case N (str "turn_id") (λ s, of_option (readSimpleString s))); [apply readSimpleString_reads|].
  apply (handles_case N (str "turn") readTurnObject); [apply readTurnObject_reads|].
  apply skip_handles, skipValue_reads.
Qed.

Lemma loginMember_handles N : handles N loginMember loginStep.
Proof.
  apply (handles_case N (str "loginId") (λ s, of_option (readSimpleString s))); [apply readSimpleString_reads|].
  apply skip_handles, skipValue_reads.
Qed.

Definition documentOf {A} (step : bytes → bytes → json → A → option A) (init : A) (result : A → bytes) (j : json) : option bytes :=
  match j with
  | JNull => Some []
  | JObj ms => result <$> objectOf step init ms
  | _ => None
  end.

Section scanDocument.
Context {A : Type} (value : bytes → A → bytes → scan (A * bytes)) (step : bytes → bytes → json → A → option A).
Context (Hv : ∀ N, handles N value step) (init : A) (result : A → bytes).

Lemma scanDocument_sound p x :
  scanDocument value init result p = Accept x → ∃ j, Document true j p ∧ documentOf step init result j = Some x.
Proof using Hv.
  unfold scanDocument. destruct (skipSpace_split p) as (ws & Hws & Hs & _). remember (skipSpace p) as s eqn:E. clear E.
  assert (∀ t, skipSpace t = [] → Space t) as Hend.
  { intros t Ht. destruct (skipSpace_split t) as (ws' & H & Ht' & _). rewrite Ht, app_nil_r in Ht'. by subst. }
  destruct (consumeLiteral (str "null") s) as [t|] eqn:El.
  - apply consumeLiteral_Some in El as ->. destruct (skipSpace t) eqn:Et; [|done]. intros [= <-].
    exists JNull. split; [subst p; constructor; [done|constructor|by apply Hend]|done].
  - intros (t & ->%of_option_Accept%consumeByte_Some & ([st r] & H & H')%sbind_Accept)%sbind_Accept.
    eapply objectLoop_sound in H as (ms & w & -> & Hm & Hk%plain_keys_ok & Hst); [|apply (Hv (length t))|done].
    destruct (skipSpace r) eqn:Er; [|done]. injection H' as <-. exists (JObj ms). split.
    + subst p. replace (LBRACE :: w ++ RBRACE :: r) with ((LBRACE :: w ++ [RBRACE]) ++ r)
        by (cbn [app]; by rewrite <-app_assoc).
      constructor; [done|by constructor|by apply Hend].
    + simpl. unfold objectOf. by rewrite Hk, Hst.
Qed.

Lemma scanDocument_complete p j x :
  Document true j p → documentOf step init result j = Some x → scanDocument value init result p = Accept x.
Proof using Hv.
  intros [ws j' w ws' Hws Hj Hws'] Hx. unfold scanDocument. rewrite skipSpace_app by (done || by eapply Value_tight).
  assert (skipSpace ws' = []) as Hend by (by rewrite <-(app_nil_r ws'), skipSpace_app).
  destruct j' as [| | | | | |ms]; try done.
  - inversion Hj; subst. rewrite (proj2 (consumeLiteral_Some _ _ ws')) by done. rewrite Hend. by injection Hx as <-.
  - inversion Hj as [| | | | | |ms' w' Hm]; subst. cbn [app]. rewrite <-app_assoc. cbn [app].
    rewrite obj_no_null, consumeByte_hd. cbn [of_option sbind]. simpl in Hx. unfold objectOf in Hx.
    destruct (plain_keys ms) eqn:Hk; [|done]. apply plain_keys_ok in Hk.
    destruct (steps step ms init) as [st|] eqn:Hst; [|done]. injection Hx as <-.
    erewrite objectLoop_complete; [|apply (Hv (length (w' ++ RBRACE :: ws')))|done|done|done|done|len_lia].
    cbn [sbind]. by rewrite Hend.
Qed.

Lemma scanDocument_total p : scanDocument value init result p ≠ OutOfFuel.
Proof using Hv.
  unfold scanDocument. destruct (consumeLiteral _ _); [by case_match|].
  apply sbind_total; [done|]. intros s _. apply sbind_total; [|intros [? ?] _; by case_match].
  eapply objectLoop_total; [apply (Hv (length s))|lia|lia].
Qed.
End scanDocument.

(** ** A text has one syntax tree *)

(** [V] is unambiguous on texts of fewer than [N] bytes, whatever follows them. *)
Definition unambiguous (N : nat) (V : json → bytes → Prop) : Prop :=
  ∀ j w r j' w' r', length w < N → V j w → V j' w' → stops r → stops r' → w ++ r = w' ++ r' → j = j' ∧ r = r'.

Lemma Space_strip ws r ws' r' : Space ws → Space ws' → tight r → tight r' → ws ++ r = ws' ++ r' → r = r'.
Proof. intros ? ? ? ? H%(f_equal skipSpace). by rewrite !skipSpace_app in H. Qed.

Lemma Chars_strip raw r raw' r' :
  Chars raw → Chars raw' → raw ++ DQUOTE :: r = raw' ++ DQUOTE :: r' → raw = raw' ∧ r = r'.
Proof. intros Hc Hc' H%(f_equal readStringBody). rewrite !readStringBody_complete in H by done. by injection H. Qed.

Lemma delimiter_ok d u : d = RBRACE ∨ d = RBRACK ∨ d = COMMA → tight (d :: u) ∧ stops (d :: u).
Proof. by intros [-> | [-> | ->]]. Qed.

Section unambiguous.
Context (N : nat) (HV : unambiguous N (Value true)).

Lemma Element_strip j w d u j' w' d' u' :
  Element (Value true) j w → Element (Value true) j' w' → length w < N →
  d = RBRACE ∨ d = RBRACK ∨ d = COMMA → d' = RBRACE ∨ d' = RBRACK ∨ d' = COMMA →
  w ++ d :: u = w' ++ d' :: u' → j = j' ∧ d = d' ∧ u = u'.
Proof using HV.
  intros [ws ? v ws2 Hws Hj Hws2] [ws' ? v' ws2' Hws' Hj' Hws2'] HN Hd Hd'.
  destruct (delimiter_ok d u Hd) as [Ht Hs], (delimiter_ok d' u' Hd') as [Ht' Hs']. rewrite <-!app_assoc. intros H.
  apply Space_strip in H; [|done|done|by eapply Value_tight..].
  assert (length v < N) as HNv by (revert HN; len_lia).
  destruct (HV _ _ _ _ _ _ HNv Hj Hj' (Space_stops _ _ _ Hws2 Hs) (Space_stops _ _ _ Hws2' Hs') H) as [-> H'].
  apply Space_strip in H'; [|done..]. by injection H' as -> ->.
Qed.

Lemma Elements_strip js w u js' w' u' :
  Elements true (Value true) js w → Elements true (Value true) js' w' → length w < N →
  w ++ RBRACK :: u = w' ++ RBRACK :: u' → js = js' ∧ u = u'.
Proof using HV.
  assert (∀ ws j w d u u', Space ws → Element (Value true) j w → ws ++ RBRACK :: u' ≠ w ++ d :: u) as Hne.
  { intros ws j v d t t' Hws [ws' j' v' ws2 Hws' Hj Hws2] H. rewrite <-!app_assoc in H.
    apply Space_strip in H; [|done|done|done|by eapply Value_tight].
    destruct (Value_head _ _ _ Hj) as (c & x & -> & _ & Hc). by injection H as <- _. }
  intros Hm. revert js' w' u'. induction Hm as [ws Hws|j w Hm|j w js t Hm _ _ IH]; intros js' w' u' Hm' HN;
    destruct Hm' as [ws' Hws'|j' w' Hm'|j' w' js' t' Hm' _ Hms'];
    rewrite <-?app_assoc; cbn [app]; intros H; try by (exfalso; eapply Hne; eauto).
  - apply Space_strip in H; [|done..]. by injection H as ->.
  - eapply Element_strip in H as (-> & _ & ->); [done|done|done|lia|auto..].
  - eapply Element_strip in H as (_ & H & _); [done|done|done|lia|auto..].
  - eapply Element_strip in H as (_ & H & _); [done|done|done|revert HN; len_lia|auto..].
  - eapply Element_strip in H as (-> & _ & H); [|done|done|revert HN; len_lia|auto..].
    destruct (IH _ _ _ Hms' ltac:(revert HN; len_lia) H) as [-> ->]. done.
Qed.

Lemma Member_strip m w d u m' w' d' u' :
  Member (Value true) m w → Member (Value true) m' w' → length w < N →
  d = RBRACE ∨ d = RBRACK ∨ d = COMMA → d' = RBRACE ∨ d' = RBRACK ∨ d' = COMMA →
  w ++ d :: u = w' ++ d' :: u' → m = m' ∧ d = d' ∧ u = u'.
Proof using HV.
  intros [ws raw ws1 pad j v ws2 Hws Hr Hws1 Hp Hj Hws2] [ws' raw' ws1' pad' j' v' ws2' Hws' Hr' Hws1' Hp' Hj' Hws2'] HN Hd Hd'.
  destruct (delimiter_ok d u Hd) as [Ht Hs], (delimiter_ok d' u' Hd') as [Ht' Hs'].
  repeat (rewrite <-?app_assoc; cbn [app]). intros H.
  apply Space_strip in H; [|done..]. injection H as H. apply Chars_strip in H as [-> H]; [|done..].
  apply Space_strip in H; [|done..]. injection H as H.
  assert (v ++ ws2 ++ d :: u = v' ++ ws2' ++ d' :: u') as H' by (eapply Space_strip in H; [done|done|done|by eapply Value_tight..]).
  assert (pad = pad') as ->.
  { apply (f_equal (λ s, length s)) in H' as Hl. rewrite H' in H. by apply app_inv_tail in H. }
  assert (length v < N) as HNv by (revert HN; len_lia).
  destruct (HV _ _ _ _ _ _ HNv Hj Hj' (Space_stops _ _ _ Hws2 Hs) (Space_stops _ _ _ Hws2' Hs') H') as [-> H2].
  apply Space_strip in H2; [|done..]. by injection H2 as -> ->.
Qed.

Lemma Members_strip ms w u ms' w' u' :
  Members true (Value true) ms w → Members true (Value true) ms' w' → length w < N →
  w ++ RBRACE :: u = w' ++ RBRACE :: u' → ms = ms' ∧ u = u'.
Proof using HV.
  assert (∀ ws m w d u u', Space ws → Member (Value true) m w → ws ++ RBRACE :: u' ≠ w ++ d :: u) as Hne.
  { intros ws m v d t t' Hws [ws' raw ws1 pad j v' ws2 Hws' Hr Hws1 Hp Hj Hws2] H. rewrite <-!app_assoc in H.
    by apply Space_strip in H. }
  intros Hm. revert ms' w' u'. induction Hm as [ws Hws|m w Hm|m w ms t Hm _ _ IH]; intros ms' w' u' Hm' HN;
    destruct Hm' as [ws' Hws'|m' w' Hm'|m' w' ms' t' Hm' _ Hms'];
    rewrite <-?app_assoc; cbn [app]; intros H; try by (exfalso; eapply Hne; eauto).
  - apply Space_strip in H; [|done..]. by injection H as ->.
  - eapply Member_strip in H as (-> & _ & ->); [done|done|done|lia|auto..].
  - eapply Member_strip in H as (_ & H & _); [done|done|done|lia|auto..].
  - eapply Member_strip in H as (_ & H & _); [done|done|done|revert HN; len_lia|auto..].
  - eapply Member_strip in H as (-> & _ & H); [|done|done|revert HN; len_lia|auto..].
    destruct (IH _ _ _ Hms' ltac:(revert HN; len_lia) H) as [-> ->]. done.
Qed.
End unambiguous.

Lemma Number_no_value w r j' w' r' :
  Number w → Value true j' w' → w ++ r = w' ++ r' → ∃ w'', j' = JNum w''.
Proof.
  intros [sg i f e Hsg Hi _ _] Hj H. assert (∃ c t, (sg ++ i ++ f ++ e) ++ r = c :: t ∧ (c = MINUS ∨ digit c = true)) as (c & t & Heq & Hc).
  { destruct Hsg as [-> | ->]; [|by eexists _, _; split; [reflexivity|left]].
    destruct Hi as [|d ds Hd _]; eexists _, _; (split; [reflexivity|right]); [done|].
    unfold digit19 in Hd. unfold digit. lia. }
  rewrite Heq in H. destruct Hj; [..|by eauto| | |]; simpl in H; injection H as -> _; destruct Hc; done.
Qed.

Lemma Value_unambiguous N : unambiguous N (Value true).
Proof.
  induction N as [|N IH]; intros j w r j' w' r' HN Hj Hj' Hr Hr' H; [lia|].
  pose proof Hj as Hj0. destruct Hj as [| | |w Hw|raw Hc|js w Hw|ms w Hw].
  4:{ destruct (Number_no_value _ _ _ _ _ Hw Hj' H) as [w'' ->]. inversion Hj' as [| | |? Hw'| | |]; subst.
      pose proof (f_equal skipNumber H) as Hs. rewrite !skipNumber_complete in Hs by done. injection Hs as ->.
      by apply app_inv_tail in H as ->. }
  all: destruct Hj' as [| | |w' Hw'|raw' Hc'|js' w' Hw'|ms' w' Hw'];
    try (destruct (Number_no_value _ _ _ _ _ Hw' Hj0 (eq_sym H)); done);
    cbn [app] in H; try (discriminate H).
  1-3: by apply app_inv_head in H as ->.
  - injection H as H. rewrite <-!app_assoc in H. by apply Chars_strip in H as [-> ->].
  - injection H as H. rewrite <-!app_assoc in H. eapply Elements_strip in H as [-> ->]; [done|apply IH|done|done|].
    revert HN. len_lia.
  - injection H as H. rewrite <-!app_assoc in H. eapply Members_strip in H as [-> ->]; [done|apply IH|done|done|].
    revert HN. len_lia.
Qed.

Lemma Document_unambiguous j j' p : Document true j p → Document true j' p → j = j'.
Proof.
  intros [ws j1 w ws1 Hws Hj Hws1] H'. remember (ws ++ w ++ ws1) as q eqn:Hp.
  destruct H' as [ws' j2 w' ws1' Hws' Hj' Hws1'].
  assert (∀ x, Space x → stops x) as Hst.
  { intros [|c x] Hx; [done|]. apply Forall_cons in Hx as [Hc _].
    simpl. unfold space in Hc. unfold digit. split_and!; lia. }
  apply Space_strip in Hp; [|done|done|by eapply Value_tight..].
  by destruct (Value_unambiguous (S (length w')) _ _ _ _ _ _ (Nat.lt_succ_diag_r _) Hj' Hj (Hst _ Hws1') (Hst _ Hws1) Hp).
Qed.

(** ** The scan functions *)

Definition turnIDOf : json → option bytes := documentOf turnStep (TurnVars [] [] noTurn) pickTurnID.

Definition loginIDOf : json → option bytes := documentOf loginStep [] (λ x, x).

Lemma scanTurn_iff p x :
  scanNotificationTurnID p = Accept x ↔ ∃ j, Document true j p ∧ turnIDOf j = Some x.
Proof.
  split; [apply scanDocument_sound, turnMember_handles|]. intros (j & Hj & Hx).
  by eapply scanDocument_complete; [apply turnMember_handles|..].
Qed.

Lemma scanLogin_iff p x :
  scanNotificationLoginID p = Accept x ↔ ∃ j, Document true j p ∧ loginIDOf j = Some x.
Proof.
  split; [apply scanDocument_sound, loginMember_handles|]. intros (j & Hj & Hx).
  by eapply scanDocument_complete; [apply loginMember_handles|..].
Qed.

(** ** The identifiers of a document, apart from the loops

    The keys of an object are read as they are written, so none may have an escape; a
    field that is looked for must be a string without escapes right behind its colon. *)
Abbreviation members := (list (bytes * bytes * json)).

Definition written_plainly (ms : members) : Prop := ∀ m, m ∈ ms → BSLASH ∉ m.1.1.

Definition plain_field (m : bytes * bytes * json) : Prop := m.1.2 = [] ∧ ∃ raw, m.2 = JStr raw ∧ BSLASH ∉ raw.

Definition plain_fields (fields : list bytes) (ms : members) : Prop := ∀ m, m ∈ ms → m.1.1 ∈ fields → plain_field m.

(** The last member of a name counts, and a field that is absent is empty. *)
Definition the_last (name : bytes) (ms : members) : option json := snd <$> last (filter (λ m, m.1.1 = name) ms).
Definition text_of (name : bytes) (ms : members) : bytes := match the_last name ms with Some (JStr raw) => raw | _ => [] end.
Definition object_of (name : bytes) (ms : members) : members := match the_last name ms with Some (JObj tm) => tm | _ => [] end.

Definition plain_turn (j : json) : Prop :=
  match j with
  | JNull => True
  | JObj tm => written_plainly tm ∧ plain_fields [str "id"; str "turnId"; str "turn_id"] tm
  | _ => False
  end.

Definition first_nonempty (l : list bytes) : bytes := default [] (head (filter (λ x, x ≠ []) l)).

(** [x] is the turn of the document: the first that is not empty of its [turnId] and
    [turn_id], and the [turnId], [turn_id] and [id] of its [turn]. *)
Definition turn_document (j : json) (x : bytes) : Prop :=
  match j with
  | JNull => x = []
  | JObj ms =>
      written_plainly ms ∧ plain_fields [str "turnId"; str "turn_id"] ms ∧
      (∀ m, m ∈ ms → m.1.1 = str "turn" → plain_turn m.2) ∧
      let tm := object_of (str "turn") ms in
      x = first_nonempty [text_of (str "turnId") ms; text_of (str "turn_id") ms;
                          text_of (str "turnId") tm; text_of (str "turn_id") tm; text_of (str "id") tm]
  | _ => False
  end.

Definition login_document (j : json) (x : bytes) : Prop :=
  match j with
  | JNull => x = []
  | JObj ms => written_plainly ms ∧ plain_fields [str "loginId"] ms ∧ x = text_of (str "loginId") ms
  | _ => False
  end.

Lemma escaped_in_false raw : escaped_in raw = false ↔ BSLASH ∉ raw.
Proof.
  unfold escaped_in. induction raw as [|c raw IH]; cbn; [split; [intros _; apply not_elem_of_nil|done]|].
  rewrite orb_false_iff, Z.eqb_neq, IH, not_elem_of_cons. done.
Qed.

Lemma plain_keys_iff ms : plain_keys ms = true ↔ written_plainly ms.
Proof.
  unfold plain_keys, written_plainly. rewrite forallb_Forall, Forall_forall. apply forall_proper. intros m.
  rewrite negb_true_iff, escaped_in_false. done.
Qed.

Lemma simple_Some m v : simple m.1.2 m.2 = Some v ↔ plain_field m ∧ m.2 = JStr v.
Proof.
  destruct m as [[k pad] j]. unfold plain_field, simple. cbn. destruct pad as [|c pad]; [|split; [done|naive_solver]].
  destruct j as [| | | |raw| |]; try (split; [done|naive_solver]). destruct (escaped_in raw) eqn:E.
  - split; [done|]. intros [(_ & raw' & [= <-] & Hr) _]. apply escaped_in_false in Hr. congruence.
  - apply escaped_in_false in E. split; [intros [= <-]; naive_solver|]. by intros [_ [= ->]].
Qed.

Lemma steps_snoc {A} (step : bytes → bytes → json → A → option A) ms m st :
  steps step (ms ++ [m]) st = steps step ms st ≫= step m.1.1 m.1.2 m.2.
Proof.
  revert st. induction ms as [|[[k pad] j] ms IH]; intros st.
  - destruct m as [[k pad] j]. cbn. by destruct (step k pad j st).
  - cbn. destruct (step k pad j st); [apply IH|done].
Qed.

Lemma the_last_snoc name ms m :
  the_last name (ms ++ [m]) = if decide (m.1.1 = name) then Some m.2 else the_last name ms.
Proof.
  unfold the_last. rewrite filter_app, filter_cons, filter_nil. case_decide; [by rewrite last_snoc|by rewrite app_nil_r].
Qed.

Lemma text_of_snoc name ms m :
  text_of name (ms ++ [m]) = if decide (m.1.1 = name) then (match m.2 with JStr raw => raw | _ => [] end) else text_of name ms.
Proof. unfold text_of. rewrite the_last_snoc. by case_decide. Qed.

Lemma object_of_snoc name ms m :
  object_of name (ms ++ [m]) = if decide (m.1.1 = name) then (match m.2 with JObj tm => tm | _ => [] end) else object_of name ms.
Proof. unfold object_of. rewrite the_last_snoc. by case_decide. Qed.

Lemma plain_fields_snoc fields ms m :
  plain_fields fields (ms ++ [m]) ↔ plain_fields fields ms ∧ (m.1.1 ∈ fields → plain_field m).
Proof.
  unfold plain_fields. setoid_rewrite elem_of_app. setoid_rewrite list_elem_of_singleton. naive_solver.
Qed.

Lemma bytesEqualString_iff k name : bytesEqualString k name = bool_decide (k = name).
Proof. reflexivity. Qed.

(** A member's effect on a field. *)
Definition set_field (name : bytes) (m : bytes * bytes * json) (old : bytes) : bytes :=
  if decide (m.1.1 = name) then (match m.2 with JStr raw => raw | _ => [] end) else old.

Lemma case_hit {A V} name (g : bytes → json → option V) (upd : A → V → A) step m st :
  m.1.1 = name → case_step name g upd step m.1.1 m.1.2 m.2 st = upd st <$> g m.1.2 m.2.
Proof. intros E. unfold case_step. by rewrite bytesEqualString_iff, bool_decide_true. Qed.

Lemma case_miss {A V} name (g : bytes → json → option V) (upd : A → V → A) step m st :
  m.1.1 ≠ name → case_step name g upd step m.1.1 m.1.2 m.2 st = step m.1.1 m.1.2 m.2 st.
Proof. intros E. unfold case_step. by rewrite bytesEqualString_iff, bool_decide_false. Qed.

(** A string field that is hit. *)
Lemma field_hit {A} name (upd : A → bytes → A) step m st st' :
  m.1.1 = name →
  case_step name simple upd step m.1.1 m.1.2 m.2 st = Some st' ↔
  plain_field m ∧ st' = upd st (match m.2 with JStr raw => raw | _ => [] end).
Proof.
  intros E. rewrite case_hit, fmap_Some by done. setoid_rewrite simple_Some. split.
  - intros (v & [Hp Hj] & ->). by rewrite Hj.
  - intros [Hp ->]. pose proof Hp as (_ & raw & Hj & _). exists raw. by rewrite Hj.
Qed.

Lemma turnObjectStep_iff m t t' :
  turnObjectStep m.1.1 m.1.2 m.2 t = Some t' ↔
  (m.1.1 ∈ [str "id"; str "turnId"; str "turn_id"] → plain_field m) ∧
  t' = ScannedTurn (set_field (str "id") m (id t)) (set_field (str "turnId") m (turnID t)) (set_field (str "turn_id") m (turnID2 t)).
Proof.
  unfold turnObjectStep, set_field. rewrite !elem_of_cons, elem_of_nil.
  destruct (decide (m.1.1 = str "id")) as [E1|E1]; [rewrite field_hit by done|rewrite case_miss by done].
  { rewrite !(decide_False (P := m.1.1 = _)) by (rewrite E1; done). naive_solver. }
  destruct (decide (m.1.1 = str "turnId")) as [E2|E2]; [rewrite field_hit by done|rewrite case_miss by done].
  { rewrite !(decide_False (P := m.1.1 = _)) by (rewrite E2; done). naive_solver. }
  destruct (decide (m.1.1 = str "turn_id")) as [E3|E3]; [rewrite field_hit by done; naive_solver|rewrite case_miss by done].
  unfold unchanged. destruct t. naive_solver.
Qed.

Definition scanned (tm : members) : scannedTurn := ScannedTurn (text_of (str "id") tm) (text_of (str "turnId") tm) (text_of (str "turn_id") tm).

Lemma turnObject_steps ms t :
  steps turnObjectStep ms noTurn = Some t ↔ plain_fields [str "id"; str "turnId"; str "turn_id"] ms ∧ t = scanned ms.
Proof.
  revert t. induction ms as [|m ms IH] using rev_ind; intros t.
  - split; [intros [= <-]; split; [by intros m ?%not_elem_of_nil|done]|by intros [_ ->]].
  - rewrite steps_snoc, bind_Some, plain_fields_snoc. unfold scanned. rewrite !text_of_snoc. setoid_rewrite turnObjectStep_iff. split.
    + intros (t0 & [Hp ->]%IH & Hm & ->). done.
    + intros [[Hp Hm] ->]. exists (scanned ms). split; [by apply IH|done].
Qed.

Lemma turnOf_iff pad j t :
  turnOf pad j = Some t ↔ plain_turn j ∧ t = scanned (match j with JObj tm => tm | _ => [] end).
Proof.
  destruct j as [| | | | | |tm]; cbn; try naive_solver. unfold objectOf. rewrite <-plain_keys_iff.
  destruct (plain_keys tm); [rewrite turnObject_steps; naive_solver|naive_solver].
Qed.

Lemma turnStep_iff m v v' :
  turnStep m.1.1 m.1.2 m.2 v = Some v' ↔
  (m.1.1 ∈ [str "turnId"; str "turn_id"] → plain_field m) ∧ (m.1.1 = str "turn" → plain_turn m.2) ∧
  v' = TurnVars (set_field (str "turnId") m (vTurnID v)) (set_field (str "turn_id") m (vTurnID2 v))
         (if decide (m.1.1 = str "turn") then scanned (match m.2 with JObj tm => tm | _ => [] end) else vTurn v).
Proof.
  unfold turnStep, set_field. rewrite !elem_of_cons, elem_of_nil.
  destruct (decide (m.1.1 = str "turnId")) as [E1|E1]; [rewrite field_hit by done|rewrite case_miss by done].
  { rewrite !(decide_False (P := m.1.1 = _)) by (rewrite E1; done). rewrite E1. naive_solver. }
  destruct (decide (m.1.1 = str "turn_id")) as [E2|E2]; [rewrite field_hit by done|rewrite case_miss by done].
  { rewrite !(decide_False (P := m.1.1 = _)) by (rewrite E2; done). rewrite E2. naive_solver. }
  destruct (decide (m.1.1 = str "turn")) as [E3|E3]; [rewrite case_hit by done|rewrite case_miss by done].
  - rewrite fmap_Some. setoid_rewrite turnOf_iff. naive_solver.
  - unfold unchanged. destruct v. naive_solver.
Qed.

Lemma turn_steps ms v :
  steps turnStep ms (TurnVars [] [] noTurn) = Some v ↔
  plain_fields [str "turnId"; str "turn_id"] ms ∧ (∀ m, m ∈ ms → m.1.1 = str "turn" → plain_turn m.2) ∧
  v = TurnVars (text_of (str "turnId") ms) (text_of (str "turn_id") ms) (scanned (object_of (str "turn") ms)).
Proof.
  revert v. induction ms as [|m ms IH] using rev_ind; intros v.
  - split; [intros [= <-]; split_and!; [by intros m ?%not_elem_of_nil..|done]|by intros (_ & _ & ->)].
  - rewrite steps_snoc, bind_Some, plain_fields_snoc, object_of_snoc. rewrite !text_of_snoc. setoid_rewrite turnStep_iff.
    setoid_rewrite elem_of_app. setoid_rewrite list_elem_of_singleton. split.
    + intros (v0 & (Hp & Ht & ->)%IH & Hm & Hmt & ->). split_and!; [done|done|naive_solver|]. by destruct (decide (m.1.1 = str "turn")).
    + intros ([Hp Hm] & Ht & ->). eexists. split; [apply IH; split_and!; [done|naive_solver|reflexivity]|].
      split_and!; [done|naive_solver|]. by destruct (decide (m.1.1 = str "turn")).
Qed.

Lemma pick_first v :
  pickTurnID v = first_nonempty [vTurnID v; vTurnID2 v; turnID (vTurn v); turnID2 (vTurn v); id (vTurn v)].
Proof.
  unfold pickTurnID, first_nonempty. rewrite !filter_cons, filter_nil. repeat case_decide; cbn; try done.
Qed.

Lemma turnIDOf_iff j x : turnIDOf j = Some x ↔ turn_document j x.
Proof.
  unfold turnIDOf, documentOf, turn_document. destruct j as [| | | | | |ms]; try naive_solver. cbv zeta.
  unfold objectOf. rewrite <-plain_keys_iff. destruct (plain_keys ms); [|naive_solver].
  rewrite fmap_Some. setoid_rewrite turn_steps. setoid_rewrite pick_first. naive_solver.
Qed.

Lemma login_steps ms x :
  steps loginStep ms [] = Some x ↔ plain_fields [str "loginId"] ms ∧ x = text_of (str "loginId") ms.
Proof.
  revert x. induction ms as [|m ms IH] using rev_ind; intros x.
  - split; [intros [= <-]; split; [by intros m ?%not_elem_of_nil|done]|by intros [_ ->]].
  - rewrite steps_snoc, bind_Some, plain_fields_snoc, text_of_snoc, list_elem_of_singleton. unfold loginStep.
    destruct (decide (m.1.1 = str "loginId")) as [E|E].
    + setoid_rewrite field_hit; [|done]. split.
      * intros (x0 & [Hp ->]%IH & Hm & ->). done.
      * intros [[Hp Hm] ->]. eexists. split; [by apply IH|]. naive_solver.
    + setoid_rewrite case_miss; [|done]. unfold unchanged. split.
      * intros (x0 & [Hp ->]%IH & [= <-]). done.
      * intros [[Hp Hm] ->]. eexists. split; [by apply IH|done].
Qed.

Lemma loginIDOf_iff j x : loginIDOf j = Some x ↔ login_document j x.
Proof.
  unfold loginIDOf, documentOf, login_document. destruct j as [| | | | | |ms]; try naive_solver.
  unfold objectOf. rewrite <-plain_keys_iff. destruct (plain_keys ms); [|naive_solver].
  rewrite fmap_Some. setoid_rewrite login_steps. naive_solver.
Qed.

(** C9: the two scan functions always return, and they accept exactly the texts of a
    JSON document (trailing commas allowed) that is null or an object, with no escape in
    its keys, whose identifier fields are strings without escapes right behind their
    colons and whose [turn] is null or such an object; the result is the first of
    [turnId], [turn_id] and the [turnId], [turn_id] and [id] of [turn] that is not empty
    (respectively [loginId]), the last of several members of a name counting. *)
Theorem scanNotification_exact p :
  scanNotificationTurnID p ≠ OutOfFuel ∧ scanNotificationLoginID p ≠ OutOfFuel ∧
  (∀ x, scanNotificationTurnID p = Accept x ↔ ∃ j, Document true j p ∧ turn_document j x) ∧
  (∀ x, scanNotificationLoginID p = Accept x ↔ ∃ j, Document true j p ∧ login_document j x).
Proof.
  split_and!.
  - eapply scanDocument_total, turnMember_handles.
  - eapply scanDocument_total, loginMember_handles.
  - intros x. rewrite scanTurn_iff. by setoid_rewrite turnIDOf_iff.
  - intros x. rewrite scanLogin_iff. by setoid_rewrite loginIDOf_iff.
Qed.

(** ** The fast path against [json.Unmarshal] *)

(** The texts of JSON are among the texts with trailing commas. *)
Lemma Members_lax (V V' : json → bytes → Prop) ms w :
  (∀ j w, V j w → V' j w) → Members false V ms w → Members true V' ms w.
Proof.
  intros HV. induction 1 as [ws Hws|m w []|m w ms t [] _ _ IH]; [by constructor|..].
  - apply Ms_one. constructor; auto.
  - apply Ms_cons; [constructor; auto|by left|done].
Defined.

Lemma Elements_lax (V V' : json → bytes → Prop) js w :
  (∀ j w, V j w → V' j w) → Elements false V js w → Elements true V' js w.
Proof.
  intros HV. induction 1 as [ws Hws|j w []|j w js t [] _ _ IH]; [by constructor|..].
  - apply Els_one. constructor; auto.
  - apply Els_cons; [constructor; auto|by left|done].
Defined.

Lemma Value_lax : ∀ j w, Value false j w → Value true j w.
Proof.
  fix IH 3. intros j w [| | |w' Hw|raw Hc|js w' Hw|ms w' Hw]; constructor; try assumption.
  - exact (Elements_lax _ _ _ _ IH Hw).
  - exact (Members_lax _ _ _ _ IH Hw).
Qed.

Lemma Document_lax j p : Document false j p → Document true j p.
Proof. intros []. constructor; [done|by apply Value_lax|done]. Qed.

Section unmarshal.
(** The value of the text of a string literal. *)
Context (unquote : bytes → bytes).

Fixpoint member (name : bytes) (ms : list (bytes * bytes * json)) : option (bytes * json) :=
  match ms with
  | [] => None
  | (k, pad, j) :: ms => if decide (unquote k = name) then Some (pad, j) else member name ms
  end.

Definition names (ms : list (bytes * bytes * json)) : list bytes := (λ m, unquote m.1.1) <$> ms.

(** A [string] field of the target: absent or [null] leaves it empty. *)
Definition stringField (name : bytes) (ms : list (bytes * bytes * json)) : option bytes :=
  match member name ms with
  | None | Some (_, JNull) => Some []
  | Some (_, JStr raw) => Some (unquote raw)
  | Some _ => None
  end.

Definition turnField (ms : list (bytes * bytes * json)) : option (option scannedTurn) :=
  match member (str "turn") ms with
  | None | Some (_, JNull) => Some None
  | Some (_, JObj ms) =>
      i ← stringField (str "id") ms; t ← stringField (str "turnId") ms; t2 ← stringField (str "turn_id") ms;
      Some (Some (ScannedTurn i t t2))
  | Some _ => None
  end.

(** The structs of the two decode functions filled from a document whose objects
    have no duplicate names. *)
Definition turnEnvelopeOf (j : json) : option turnEnvelope :=
  match j with
  | JNull => Some (TurnEnvelope [] [] None)
  | JObj ms =>
      t ← stringField (str "turnId") ms; t2 ← stringField (str "turn_id") ms; turn ← turnField ms;
      Some (TurnEnvelope t t2 turn)
  | _ => None
  end.

Definition loginEnvelopeOf (j : json) : option bytes :=
  match j with
  | JNull => Some []
  | JObj ms => stringField (str "loginId") ms
  | _ => None
  end.

Definition unique_names (j : json) : Prop :=
  match j with
  | JObj ms =>
      NoDup (names ms) ∧
      match member (str "turn") ms with Some (_, JObj ms') => NoDup (names ms') | _ => True end
  | _ => True
  end.

Context (unquote_plain : ∀ raw, escaped_in raw = false → unquote raw = raw).

(** A loop variable that only the member [name] writes. *)
Lemma steps_field {A V} step (get : A → V) name (g : bytes → json → option V) :
  (∀ k pad j st st', step k pad j st = Some st' →
     if decide (k = name) then g pad j = Some (get st') else get st' = get st) →
  ∀ ms st st', plain_keys ms = true → NoDup (names ms) → steps step ms st = Some st' →
  match member name ms with
  | Some (pad, j) => g pad j = Some (get st')
  | None => get st' = get st
  end.
Proof using unquote_plain.
  intros Hstep ms. induction ms as [|[[k pad] j] ms IH]; intros st st' Hk Hn Hs; [by injection Hs as ->|].
  cbn in Hs. destruct (step k pad j st) as [st1|] eqn:E; [|done]. cbn in Hs.
  apply andb_prop in Hk as [Hk%negb_true_iff Hks]. cbn in Hk. cbn in Hn. apply NoDup_cons in Hn as [Hnin Hn].
  pose proof (Hstep _ _ _ _ _ E) as Hg. pose proof (IH _ _ Hks Hn Hs) as Hms. cbn [member].
  rewrite (unquote_plain k) in Hnin |- * by done. destruct (decide (k = name)) as [->|].
  - assert (member name ms = None) as Hm.
    { clear -Hnin. induction ms as [|[[k pad] j] ms IH]; [done|]. cbn in Hnin |- *.
      apply not_elem_of_cons in Hnin as [? ?]. rewrite decide_False by done. by apply IH. }
    rewrite Hm in Hms. by rewrite Hms.
  - destruct (member name ms) as [[pad' j']|]; [done|congruence].
Qed.

Lemma case_step_upd {A V W} name name' (g : bytes → json → option V) (g' : bytes → json → option W)
    (upd : A → V → A) (get : A → W) step :
  (∀ st v, get (upd st v) = get st) → name ≠ name' →
  (∀ k pad j st st', step k pad j st = Some st' →
     if decide (k = name') then g' pad j = Some (get st') else get st' = get st) →
  ∀ k pad j st st', case_step name g upd step k pad j st = Some st' →
     if decide (k = name') then g' pad j = Some (get st') else get st' = get st.
Proof using Type.
  intros Hget Hne Hs k pad j st st'. unfold case_step, bytesEqualString, bytes_eqb.
  case_bool_decide as E; [|apply Hs]. subst k. rewrite decide_False by done.
  destruct (g pad j) as [v|]; [|done]. intros [= <-]. apply Hget.
Qed.

Lemma case_step_set {A V} name (g : bytes → json → option V) (upd : A → V → A) (get : A → V) step :
  (∀ st v, get (upd st v) = v) →
  (∀ k pad j st st', step k pad j st = Some st' → get st' = get st) →
  ∀ k pad j st st', case_step name g upd step k pad j st = Some st' →
     if decide (k = name) then g pad j = Some (get st') else get st' = get st.
Proof using Type.
  intros Hget Hs k pad j st st'. unfold case_step, bytesEqualString, bytes_eqb.
  case_bool_decide as E; [|rewrite decide_False by done; apply Hs]. subst k. rewrite decide_True by done.
  destruct (g pad j) as [v|]; [|done]. intros [= <-]. by rewrite Hget.
Qed.

Lemma case_step_keep {A V W} name (g : bytes → json → option V) (upd : A → V → A) (get : A → W) step :
  (∀ st v, get (upd st v) = get st) →
  (∀ k pad j st st', step k pad j st = Some st' → get st' = get st) →
  ∀ k pad j st st', case_step name g upd step k pad j st = Some st' → get st' = get st.
Proof using Type.
  intros Hget Hs k pad j st st'. unfold case_step. destruct (bytesEqualString k name); [|apply Hs].
  destruct (g pad j) as [v|]; [|done]. intros [= <-]. apply Hget.
Qed.

Lemma unchanged_keep {A V} (get : A → V) k pad j st st' : unchanged k pad j st = Some st' → get st' = get st.
Proof using Type. by intros [= ->]. Qed.

(** The loop variable of a string member is the field of the struct. *)
Lemma simple_field {A} step (get : A → bytes) name ms st st' :
  (∀ k pad j st st', step k pad j st = Some st' →
     if decide (k = name) then simple pad j = Some (get st') else get st' = get st) →
  get st = [] → NoDup (names ms) → objectOf step st ms = Some st' → stringField name ms = Some (get st').
Proof using unquote_plain.
  intros Hs Hst Hn. unfold objectOf. destruct (plain_keys ms) eqn:Hk; [|done]. intros H.
  pose proof (steps_field step get name simple Hs ms st st' Hk Hn H) as Hf. unfold stringField.
  destruct (member name ms) as [[[|? ?] j]|]; [|done|congruence].
  destruct j as [| | | |raw| |]; try done. simpl in Hf. destruct (escaped_in raw) eqn:He; [done|].
  injection Hf as <-. by rewrite unquote_plain.
Qed.

Ltac case_steps :=
  repeat first
    [ apply case_step_set; [done|]
    | apply case_step_upd; [done|done|]
    | apply case_step_keep; [done|]
    | apply unchanged_keep ].

Lemma turnObject_fields ms t :
  NoDup (names ms) → objectOf turnObjectStep noTurn ms = Some t →
  stringField (str "id") ms = Some (id t) ∧ stringField (str "turnId") ms = Some (turnID t) ∧
  stringField (str "turn_id") ms = Some (turnID2 t).
Proof using unquote_plain.
  intros Hn Ht. split_and!.
  - apply (simple_field turnObjectStep id _ ms noTurn); [unfold turnObjectStep; case_steps|done..].
  - apply (simple_field turnObjectStep turnID _ ms noTurn); [unfold turnObjectStep; case_steps|done..].
  - apply (simple_field turnObjectStep turnID2 _ ms noTurn); [unfold turnObjectStep; case_steps|done..].
Qed.

(** The pointer to the turn: the variable [turn] of the scan is what it points to,
    or the zero value. *)
Lemma turn_field ms v :
  unique_names (JObj ms) → objectOf turnStep (TurnVars [] [] noTurn) ms = Some v →
  ∃ o, turnField ms = Some o ∧ vTurn v = default noTurn o.
Proof using unquote_plain.
  intros [Hn Hn'] H. unfold objectOf in H. destruct (plain_keys ms) eqn:Hk; [|done].
  assert (match member (str "turn") ms with Some (pad, j) => turnOf pad j = Some (vTurn v) | None => vTurn v = noTurn end) as Hf.
  { refine (steps_field turnStep vTurn (str "turn") turnOf _ ms _ v Hk Hn H). unfold turnStep. case_steps. }
  unfold turnField. destruct (member (str "turn") ms) as [[pad j]|]; [|by exists None].
  destruct j as [| | | | | |ms']; try done; simpl in Hf.
  - injection Hf as <-. by exists None.
  - destruct (turnObject_fields ms' (vTurn v) Hn' Hf) as (-> & -> & ->). eexists. split; [done|]. by destruct (vTurn v).
Qed.

Lemma turnEnvelope_fields j x :
  unique_names j → turnIDOf j = Some x →
  ∃ e, turnEnvelopeOf j = Some e ∧
    x = pickTurnID (TurnVars (TurnID e) (TurnID2 e) (default noTurn (Turn e))).
Proof using unquote_plain.
  intros Hn. destruct j as [| | | | | |ms]; try done.
  { intros [= <-]. by eexists. }
  unfold turnIDOf. simpl. destruct (objectOf _ _ _) as [v|] eqn:H; [|done]. intros [= <-].
  destruct (turn_field ms v Hn H) as (o & -> & Ho). destruct Hn as [Hn _].
  assert (stringField (str "turnId") ms = Some (vTurnID v)) as ->.
  { apply (simple_field turnStep vTurnID _ ms (TurnVars [] [] noTurn)); [unfold turnStep; case_steps|done..]. }
  assert (stringField (str "turn_id") ms = Some (vTurnID2 v)) as ->.
  { apply (simple_field turnStep vTurnID2 _ ms (TurnVars [] [] noTurn)); [unfold turnStep; case_steps|done..]. }
  eexists. split; [reflexivity|]. cbn. rewrite <-Ho. by destruct v.
Qed.

Lemma loginEnvelope_field j x : unique_names j → loginIDOf j = Some x → loginEnvelopeOf j = Some x.
Proof using unquote_plain.
  intros Hn. destruct j as [| | | | | |ms]; try done.
  unfold loginIDOf. simpl. destruct (objectOf _ _ _) as [v|] eqn:H; [|done]. intros [= <-]. destruct Hn as [Hn _].
  eapply (simple_field loginStep (λ x, x)); [|done|done|exact H]. unfold loginStep. case_steps.
Qed.
End unmarshal.

(** C10: the fast path never changes an answer: on a JSON document whose objects
    have no duplicate names, when [json.Unmarshal] fills the structs from the
    members of the document, the identifiers the router dispatches on are the
    ones decoding would have given. *)
Theorem fast_path_agrees unmarshalTurn unmarshalLogin unquote notif j :
  (∀ raw, escaped_in raw = false → unquote raw = raw) →
  Document false j (Params notif) → unique_names unquote j →
  unmarshalTurn (Params notif) = turnEnvelopeOf unquote j →
  unmarshalLogin (Params notif) = loginEnvelopeOf unquote j →
  notificationTurnID unmarshalTurn notif = decodeNotificationTurnID unmarshalTurn notif ∧
  notificationLoginID unmarshalLogin notif =
    if bytes_eqb (Method notif) NotificationMethodAccountLoginCompleted
    then Some (decodeNotificationLoginID unmarshalLogin notif) else None.
Proof.
  intros Hq Hd%Document_lax Hu HT HL. unfold notificationTurnID, notificationLoginID. split.
  - destruct (scanNotificationTurnID (Params notif)) as [x| |] eqn:E; try done.
    apply scanTurn_iff in E as (j' & Hd' & Hx). rewrite (Document_unambiguous _ _ _ Hd' Hd) in Hx.
    destruct (turnEnvelope_fields unquote Hq j x Hu Hx) as (e & He & ->).
    unfold decodeNotificationTurnID, pickTurnID. rewrite HT, He. cbn. repeat case_decide; try done.
    all: destruct (Turn e); cbn in *; repeat case_decide; done.
  - destruct (bytes_eqb _ _); [|done].
    destruct (scanNotificationLoginID (Params notif)) as [x| |] eqn:E; try done.
    apply scanLogin_iff in E as (j' & Hd' & Hx). rewrite (Document_unambiguous _ _ _ Hd' Hd) in Hx.
    unfold decodeNotificationLoginID. by rewrite HL, (loginEnvelope_field unquote Hq j x Hu Hx).
Qed.

(** ** The router over scanned notifications *)

Section routing.
Context (unmarshalTurn : bytes → option turnEnvelope) (unmarshalLogin unmarshalProcess : bytes → option bytes).

Definition noNotification : Notification := MkNotification [] [].

(** [route] of router.go with the identifiers of notification_scan.go. *)
Definition routeNotification (k : nat * nat) (notif : Notification) (st : Router.state) : Router.state * option Router.error :=
  Router.route noNotification (notificationLoginID unmarshalLogin) (notificationProcessHandle unmarshalProcess)
    (notificationTurnID unmarshalTurn) k notif st.

Definition runRouter (os : list Router.op) : Router.state :=
  (Router.run noNotification (notificationLoginID unmarshalLogin) (notificationProcessHandle unmarshalProcess)
    (notificationTurnID unmarshalTurn) os Router.newTurnNotificationRouter).1.

(** A notification that names a turn reaches that turn: routed by an open
    router in any reachable state, it is pushed to the bounded mailbox of the
    turn its JSON parameters name, whether the consumer has registered or not,
    and no other mailbox changes. *)
Theorem routed_to_its_turn os k notif j id :
  Document true j (Params notif) → turnIDOf j = Some id → id ≠ [] →
  Method notif ∉ [NotificationMethodAccountLoginCompleted; NotificationMethodProcessExited; NotificationMethodProcessOutputDelta] →
  Router.closed (Router.rt (runRouter os)) = false →
  Router.mailbox noNotification (routeNotification k notif (runRouter os)).1 (Router.Turn id) =
    Router.bounded_push notif (Router.mailbox noNotification (runRouter os) (Router.Turn id)) ∧
  ∀ s, s ≠ Router.Turn id →
    Router.mailbox noNotification (routeNotification k notif (runRouter os)).1 s =
    Router.mailbox noNotification (runRouter os) s.
Proof.
  intros Hd Hx Hid Hm Ho.
  destruct (Router.run_refines noNotification (notificationLoginID unmarshalLogin)
    (notificationProcessHandle unmarshalProcess) (notificationTurnID unmarshalTurn) os _ _
    (Router.repr_new noNotification)) as [Hr _]. fold (runRouter os) in Hr.
  revert Hr. generalize ((Router.srun noNotification (notificationLoginID unmarshalLogin)
    (notificationProcessHandle unmarshalProcess) (notificationTurnID unmarshalTurn) os
    (Router.Spec (λ _, ([], 0)) (λ _, false) [] None)).1). intros sp Hr.
  destruct (Router.route_refines noNotification (notificationLoginID unmarshalLogin)
    (notificationProcessHandle unmarshalProcess) (notificationTurnID unmarshalTurn) notif k _ _ Hr) as [Hr' _].
  unfold routeNotification. setoid_rewrite (Router.mailbox_repr noNotification _ _ _ Hr').
  setoid_rewrite (Router.mailbox_repr noNotification _ _ _ Hr).
  pose proof (Router.r_closed _ _ _ Hr) as Hc. rewrite Ho in Hc. cbn. rewrite Hc.
  rewrite !not_elem_of_cons in Hm. destruct Hm as (H1 & H2 & H3 & _).
  assert (Router.dest (notificationLoginID unmarshalLogin) (notificationProcessHandle unmarshalProcess)
    (notificationTurnID unmarshalTurn) (Router.active sp) notif = Some (Router.Turn id)) as ->.
  { unfold Router.dest, notificationLoginID, notificationProcessHandle, notificationTurnID, bytes_eqb.
    rewrite (bool_decide_eq_false_2 _ H1), (bool_decide_eq_false_2 _ H2), (bool_decide_eq_false_2 _ H3).
    cbn [orb]. rewrite bool_decide_eq_true_2 by done. cbn [negb andb].
    rewrite (proj2 (scanTurn_iff _ id)) by eauto. by rewrite decide_False. }
  cbn. split; [by rewrite Router.upd_eq|]. intros s Hs. by rewrite Router.upd_ne.
Qed.
End routing.

(** ** Concrete documents *)

Definition quoted (s : string) : bytes := DQUOTE :: str s ++ [DQUOTE].

(** [{"turn":{"id":"t1"},"n": 1}] *)
Definition turnText : bytes :=
  str "{" ++ quoted "turn" ++ str ":{" ++ quoted "id" ++ str ":" ++ quoted "t1" ++ str "}," ++ quoted "n" ++ str ": 1}".

Definition turnDoc : json :=
  JObj [(str "turn", [], JObj [(str "id", [], JStr (str "t1"))]); (str "n", [SP], JNum (str "1"))].

Lemma plain_chars s : forallb (λ c, (32 ≤b c) && negb (c =b DQUOTE) && negb (c =b BSLASH)) s = true → Chars s.
Proof. induction s as [|c s IH]; [constructor|]. cbn [forallb]. intros [H ?]%andb_prop. constructor; [lia..|auto]. Qed.

Lemma turnText_document : Document false turnDoc turnText.
Proof.
  assert (Value false (JObj [(str "id", [], JStr (str "t1"))]) (str "{" ++ quoted "id" ++ str ":" ++ quoted "t1" ++ str "}")) as Ht.
  { refine (V_obj _ _ (quoted "id" ++ str ":" ++ quoted "t1") _). apply Ms_one.
    refine (Mem _ [] (str "id") [] [] _ (quoted "t1") [] _ _ _ _ _ _);
      [constructor|by apply plain_chars|constructor|constructor|constructor; by apply plain_chars|constructor]. }
  refine (El _ [] _ turnText [] _ _ _); [constructor| |constructor].
  refine (V_obj _ _ (quoted "turn" ++ str ":{" ++ quoted "id" ++ str ":" ++ quoted "t1" ++ str "}," ++ quoted "n" ++ str ": 1") _).
  refine (Ms_cons _ _ _ (quoted "turn" ++ str ":{" ++ quoted "id" ++ str ":" ++ quoted "t1" ++ str "}") _ (quoted "n" ++ str ": 1") _ _ _).
  - refine (Mem _ [] (str "turn") [] [] _ _ [] _ _ _ _ Ht _);
      [constructor|by apply plain_chars|constructor|constructor|constructor].
  - by right.
  - apply Ms_one. refine (Mem _ [] (str "n") [] [SP] _ (str "1") [] _ _ _ _ _ _);
      [constructor|by apply plain_chars|constructor|by repeat constructor| |constructor].
    constructor. refine (Num [] (str "1") [] [] _ _ _ _); [by left|apply (Int_digits c1 []); [reflexivity|constructor]|constructor|constructor].
Qed.

Definition turnNotification : Notification := MkNotification (str "item/started") turnText.

(** The scan of the same text by evaluation. *)
Example scan_turnText : scanNotificationTurnID turnText = Accept (str "t1").
Proof. vm_compute. reflexivity. Qed.

(** A text that is no JSON is still scanned: the comma before the closing brace. *)
Example scan_trailing_comma :
  scanNotificationTurnID (str "{" ++ quoted "turnId" ++ str ":" ++ quoted "t1" ++ str ",}") = Accept (str "t1").
Proof. vm_compute. reflexivity. Qed.

Lemma fast_path_agrees_witness :
  notificationTurnID (λ _, turnEnvelopeOf (λ raw, raw) turnDoc) turnNotification =
    decodeNotificationTurnID (λ _, turnEnvelopeOf (λ raw, raw) turnDoc) turnNotification ∧
  decodeNotificationTurnID (λ _, turnEnvelopeOf (λ raw, raw) turnDoc) turnNotification = str "t1".
Proof.
  split; [|vm_compute; reflexivity].
  apply (fast_path_agrees _ (λ _, loginEnvelopeOf (λ raw, raw) turnDoc) (λ raw, raw) turnNotification turnDoc);
    [done|apply turnText_document| |reflexivity|reflexivity].
  split; [apply (bool_decide_eq_true_1 _); vm_compute; reflexivity|apply (bool_decide_eq_true_1 _); vm_compute; reflexivity].
Defined.

Lemma routed_to_its_turn_witness :
  let st := runRouter (λ _, None) (λ _, None) (λ _, None) [Router.Register (Router.Turn (str "t1"))] in
  let st' := (routeNotification (λ _, None) (λ _, None) (λ _, None) (0, 0) turnNotification st).1 in
  Router.mailbox noNotification st' (Router.Turn (str "t1")) =
    Router.bounded_push turnNotification (Router.mailbox noNotification st (Router.Turn (str "t1"))) ∧
  Router.bounded_push turnNotification (Router.mailbox noNotification st (Router.Turn (str "t1"))) = ([turnNotification], 0).
Proof.
  split; [|vm_compute; reflexivity].
  apply (routed_to_its_turn (λ _, None) (λ _, None) (λ _, None) [Router.Register (Router.Turn (str "t1"))]
    (0, 0) turnNotification turnDoc (str "t1")).
  - apply Document_lax, turnText_document.
  - vm_compute. reflexivity.
  - discriminate.
  - apply (bool_decide_eq_true_1 _). vm_compute. reflexivity.
  - vm_compute. reflexivity.
Defined.
End ScanSpec.
