(* ===== verification/CodexErrors.v ===== *)
(** The errors of pkg/llm/codex (errors.go) and the retry of overloaded requests
    (retry.go): which error a JSON-RPC error body becomes, what can be found in a
    chain of wrapped errors, and which errors are retried.

    [strings.ToLower], [strings.EqualFold] and [json.Unmarshal] are parameters. *)
From S2P Require Import Prelude GoStrings LlmUtil.

Module CodexErrors.
Import LlmUtil.

(** [JSONRPCError]; its message is the one of the embedded [AppServerError]. *)
Record JSONRPCError := RPCError { Message : bytes; Code : Z; Data : bytes; Kind : bytes }.

(** The errors of a chain.  A wrapper type always carries its [JSONRPCError]; of a
    [TurnError] the message and the JSON text of its [CodexErrorInfo], if it has one;
    [EWrap] is [fmt.Errorf] with the verb for an error, [EOther] an error that wraps
    nothing. *)
Inductive error :=
| EJSONRPC (e : JSONRPCError)
| AppServerRPCError (e : JSONRPCError)
| ParseError (e : JSONRPCError)
| InvalidRequestError (e : JSONRPCError)
| MethodNotFoundError (e : JSONRPCError)
| InvalidParamsError (e : JSONRPCError)
| InternalRPCError (e : JSONRPCError)
| ServerBusyError (e : JSONRPCError)
| RetryLimitExceededError (e : JSONRPCError)
| TurnFailedError (TurnID Status : bytes) (Err : option (bytes * option bytes))
| EWrap (msg : bytes) (e : error)
| EOther (msg : bytes).

(** What [json.Unmarshal] makes of a text for a variable of type any.  It never makes
    a [jsontext.Value], so the last case of [containsOverloadMarker] is not reached. *)
Inductive value :=
| VNull
| VBool (b : bool)
| VNumber (text : bytes)
| VString (s : bytes)
| VArray (l : list value)
| VObject (m : list (bytes * value)).

Fixpoint Contains (s substr : bytes) : bool :=
  bool_decide (is_Some (CutPrefix s substr)) || match s with [] => false | _ :: s => Contains s substr end.

Section errors.
Context (ToLower : bytes → bytes) (EqualFold : bytes → bytes → bool) (unmarshal : bytes → option value).

Definition containsRetryLimitText (message : bytes) : bool :=
  let lowered := ToLower message in
  Contains lowered (str "retry limit") || Contains lowered (str "too many failed attempts").

Fixpoint containsOverloadMarker (v : value) : bool :=
  match v with
  | VString s => EqualFold s (str "server_overloaded") || EqualFold s (str "serverOverloaded")
  | VObject m => existsb (λ '(_, child), containsOverloadMarker child) m
  | VArray l => existsb containsOverloadMarker l
  | _ => false
  end.

Definition isServerOverloaded (data : bytes) : bool :=
  if (length data =? 0) || bytes_eqb data (str "null") then false
  else match unmarshal data with None => false | Some v => containsOverloadMarker v end.

Definition mapJSONRPCError (code : Z) (message data : bytes) : error :=
  let overloaded := isServerOverloaded data in
  let retryLimit := containsRetryLimitText message in
  let make := RPCError message code data in
  if code =b -32700 then ParseError (make (str "parse_error"))
  else if code =b -32600 then InvalidRequestError (make (str "invalid_request"))
  else if code =b -32601 then MethodNotFoundError (make (str "method_not_found"))
  else if code =b -32602 then InvalidParamsError (make (str "invalid_params"))
  else if code =b -32603 then InternalRPCError (make (str "internal_error"))
  else if (-32099 ≤b code) && (code ≤b -32000) then
    if retryLimit then RetryLimitExceededError (make (str "retry_limit_exceeded"))
    else if overloaded then ServerBusyError (make (str "server_busy"))
    else AppServerRPCError (make (str "app_server_rpc"))
  else EJSONRPC (make (if retryLimit then str "retry_limit_exceeded" else str "jsonrpc")).

(** The [Unwrap] methods. *)
Definition Unwrap (e : error) : option error :=
  match e with
  | EJSONRPC r => Some (EOther (Message r))
  | AppServerRPCError r => Some (EJSONRPC r)
  | ParseError r | InvalidRequestError r | MethodNotFoundError r | InvalidParamsError r
  | InternalRPCError r | ServerBusyError r => Some (AppServerRPCError r)
  | RetryLimitExceededError r => Some (ServerBusyError r)
  | TurnFailedError _ _ (Some (message, Some info)) => Some (mapJSONRPCError (-32000) message info)
  | TurnFailedError _ _ _ | EOther _ => None
  | EWrap _ e => Some e
  end.

(** The accessor [JSONRPCError()] of the wrapper types. *)
Definition carried (e : error) : option JSONRPCError :=
  match e with
  | ParseError r | InvalidRequestError r | MethodNotFoundError r | InvalidParamsError r
  | InternalRPCError r | ServerBusyError r | RetryLimitExceededError r => Some r
  | _ => None
  end.

Fixpoint asJSONRPCError_loop (n : nat) (err : option error) : option JSONRPCError :=
  match n, err with
  | O, _ | _, None => None
  | S n, Some (EJSONRPC r) => Some r
  | S n, Some e => match carried e with Some r => Some r | None => asJSONRPCError_loop n (Unwrap e) end
  end.

Definition asJSONRPCError (err : option error) : option JSONRPCError := asJSONRPCError_loop 32 err.

(** The chain [errors.AsType] walks.  What is below a failed turn is at most four
    errors long. *)
Fixpoint below (n : nat) (e : error) : list error :=
  match n with O => [] | S n => e :: match Unwrap e with Some e => below n e | None => [] end end.

Fixpoint chain (e : error) : list error :=
  e :: match e with
       | EWrap _ e => chain e
       | e => match Unwrap e with Some e => below 5 e | None => [] end
       end.

Definition isRetryLimit (e : error) : bool := match e with RetryLimitExceededError _ => true | _ => false end.

Definition kindIs (k : bytes) (r : option JSONRPCError) : bool :=
  match r with Some r => bytes_eqb (Kind r) k | None => false end.

Definition IsRetryLimitExceeded (err : option error) : bool :=
  match err with Some e => existsb isRetryLimit (chain e) | None => false end ||
  kindIs (str "retry_limit_exceeded") (asJSONRPCError err).

Definition IsRetryableError (err : option error) : bool :=
  match asJSONRPCError err with
  | None => false
  | Some r => bytes_eqb (Kind r) (str "server_busy") || bytes_eqb (Kind r) (str "retry_limit_exceeded") || isServerOverloaded (Data r)
  end.

(** [RetryOnOverload]; the marker interface that [isRetryableOp] looks for first is
    only implemented in tests. *)
Definition RetryOnOverload {T} (cfg : RetryConfig) (op : nat → result error T) (cancelled : nat → bool) (jittered : nat → Z → Z)
  : list Z * result (retryError error) T :=
  RetryOn cfg op (λ e, IsRetryableError (Some e)) cancelled jittered.

(** ** Chains *)

(** An error that is neither a failed turn nor a wrapped error. *)
Definition plain (e : error) : bool := match e with TurnFailedError _ _ _ | EWrap _ _ => false | _ => true end.

Lemma map_plain code message data : plain (mapJSONRPCError code message data) = true.
Proof using Type. unfold mapJSONRPCError. repeat case_match; done. Qed.

(** The list is the chain of [Unwrap]. *)
Lemma chain_unwrap e : chain e = e :: match Unwrap e with Some e => chain e | None => [] end.
Proof using Type.
  destruct e as [r|r|r|r|r|r|r|r|r|t s [[m [i|]]|]|m e|m]; try reflexivity.
  cbn [chain Unwrap]. f_equal. f_equal. unfold mapJSONRPCError. repeat case_match; reflexivity.
Qed.

(** [n] times [fmt.Errorf]. *)
Fixpoint wrapped (msgs : list bytes) (e : error) : error :=
  match msgs with [] => e | m :: msgs => EWrap m (wrapped msgs e) end.

Lemma as_wrapped msgs n e :
  asJSONRPCError_loop (length msgs + n) (Some (wrapped msgs e)) = asJSONRPCError_loop n (Some e).
Proof using Type. induction msgs as [|m msgs IH]; [done|]. exact IH. Qed.

Lemma chain_wrapped msgs e : existsb isRetryLimit (chain (wrapped msgs e)) = existsb isRetryLimit (chain e).
Proof using Type. induction msgs as [|m msgs IH]; [done|]. exact IH. Qed.

(** The codes of the JSON-RPC specification, which are classified by the code alone. *)
Definition reserved (code : Z) : bool :=
  existsb (Z.eqb code) [-32700; -32600; -32601; -32602; -32603]%Z.

(** The error of a body: its fields, and what its kind and its type say. *)
Lemma map_classified code message data n :
  let e := mapJSONRPCError code message data in
  let limit := containsRetryLimitText message && negb (reserved code) in
  ∃ kind, asJSONRPCError_loop (S (S n)) (Some e) = Some (RPCError message code data kind) ∧
    existsb isRetryLimit (chain e) || bytes_eqb kind (str "retry_limit_exceeded") = limit ∧
    bytes_eqb kind (str "server_busy") || bytes_eqb kind (str "retry_limit_exceeded") || isServerOverloaded data =
      limit || isServerOverloaded data.
Proof using Type.
  unfold mapJSONRPCError, reserved. cbn [existsb].
  destruct (code =b -32700) eqn:E1; [|destruct (code =b -32600) eqn:E2; [|destruct (code =b -32601) eqn:E3;
    [|destruct (code =b -32602) eqn:E4; [|destruct (code =b -32603) eqn:E5]]]];
    [eexists; (split; [reflexivity|]); rewrite !andb_false_r; split; reflexivity..|].
  destruct (containsRetryLimitText message), (isServerOverloaded data) eqn:Ho, ((-32099 ≤b code) && (code ≤b -32000));
    eexists; (split; [reflexivity|]); split; reflexivity.
Qed.

(** C14: whatever error body the server sends, the error a request returns carries its
    code, message and data, and can be found under up to thirty wrappings; it counts as
    an exhausted retry limit exactly when the message says so and the code is not one
    of the five reserved ones, and it is retried exactly then or when the data name an
    overloaded server; a failed turn is classified by its error the same way. *)
Theorem rpc_errors_classified code message data msgs :
  length msgs ≤ 30 →
  let e := Some (wrapped msgs (mapJSONRPCError code message data)) in
  let limit := containsRetryLimitText message && negb (reserved code) in
  (∃ kind, asJSONRPCError e = Some (RPCError message code data kind)) ∧
  IsRetryLimitExceeded e = limit ∧
  IsRetryableError e = limit || isServerOverloaded data ∧
  ∀ turn status, let t := Some (wrapped (drop 1 msgs) (TurnFailedError turn status (Some (message, Some data)))) in
    IsRetryLimitExceeded t = containsRetryLimitText message ∧
    IsRetryableError t = containsRetryLimitText message || isServerOverloaded data.
Proof using Type.
  intros Hn e limit.
  assert (∃ n, 32 = length msgs + S (S n)) as [n En] by (exists (30 - length msgs); lia).
  assert (∃ n, 32 = length (drop 1 msgs) + S (S (S n))) as [n' En'] by (exists (29 - length (drop 1 msgs)); rewrite length_drop; lia).
  unfold IsRetryLimitExceeded, IsRetryableError, asJSONRPCError, e. split_and!.
  1-3: rewrite En, as_wrapped, ?chain_wrapped; destruct (map_classified code message data n) as (kind & -> & H1 & H2); eauto.
  intros turn status. rewrite En', as_wrapped, chain_wrapped, chain_unwrap.
  change (asJSONRPCError_loop (S (S (S n'))) (Some (TurnFailedError turn status (Some (message, Some data)))))
    with (asJSONRPCError_loop (S (S n')) (Some (mapJSONRPCError (-32000) message data))).
  destruct (map_classified (-32000) message data n') as (kind & -> & H1 & H2).
  change (reserved (-32000)) with false in *. rewrite andb_true_r in *. done.
Qed.
End errors.

(** A server that is overloaded is asked again, and one that gives up is not told apart
    from it. *)
Lemma rpc_errors_classified_witness :
  let e := Some (wrapped [str "turn"] (mapJSONRPCError (λ s, s) bytes_eqb (λ s, Some (VString s)) (-32001) (str "busy") (str "server_overloaded"))) in
  IsRetryableError (λ s, s) bytes_eqb (λ s, Some (VString s)) e = true.
Proof.
  intros e. destruct (rpc_errors_classified (λ s, s) bytes_eqb (λ s, Some (VString s)) (-32001) (str "busy") (str "server_overloaded") [str "turn"])
    as (_ & _ & H & _); [cbn; lia|].
  etransitivity; [exact H|]. vm_compute. reflexivity.
Defined.
End CodexErrors.
