(* ===== verification/CodexClient.v ===== *)
(** The JSON-RPC client of pkg/llm/codex (jsonrpc_helpers.go and the parts of
    client.go that drive it): callers of [RequestRaw], the read loop, which also
    answers requests of the server and routes notifications, consumers of the router,
    and [Close] are threads of a step relation.

    A step is a critical section, a channel operation or a message written under the
    write lock.  Channels have capacity one and sends on them block; what the server,
    the transport, contexts and the approval handler do is part of the event.  Decoding
    of JSON is a parameter, as are the identifiers the router finds in a notification. *)
From S2P Require Import Prelude GoStrings GoUtf8 GoStrconv LlmUtil CodexRing CodexRouter CodexScan CodexErrors.

Module CodexClient.
Import Scanner.

(** [Notification{}]. *)
Definition zeroNotification : Notification := MkNotification [] [].

Record rpcErrorBody := ErrorBody { eCode : Z; eMessage : bytes; eData : bytes }.
Record rpcMessage := Msg { ID : bytes; MMethod : bytes; MParams : bytes; Result : bytes; Error : option rpcErrorBody }.

(** [TransportError] is an error of the transport itself; [AppServerError] is the one
    for a line that is no JSON-RPC message. *)
Inductive clientError :=
| ContextError
| EncodeError (msg : bytes)
| TransportClosedError (msg : bytes)
| TransportError (n : nat)
| AppServerError (line : bytes)
| RouterError (e : Router.error)
| ResponseError (e : CodexErrors.error).

Inductive responseWait :=
| Answer (msg : rpcMessage)
| Failed (err : clientError).

(** How [requestRaw] ends: with an error of its own, or with what its channel gave. *)
Inductive sendResult :=
| GaveUp (err : clientError)
| Received (got : responseWait).

(** A caller of [requestRaw]; its thread is also its channel. *)
Inductive sender_pc :=
| SRegister
| SWrite
| SWait
| SUnregister (err : clientError)
| SDone (r : sendResult).

Record sender := Sender { s_n : Z; s_id : bytes; s_method : bytes; s_params : bytes; s_pc : sender_pc }.

(** The read loop: between messages, at the send of [deliverResponse], in the approval
    handler, about to write its reply, about to call [failPending], at its sends, at
    the deferred close of the router, returned. *)
Inductive reader_pc :=
| RIdle
| RDeliver (ch : nat) (got : responseWait)
| RApprove (msg : rpcMessage)
| RReply (id : bytes) (r : result bytes bytes)
| RErr (err : clientError)
| RFail (chans : list nat) (err : clientError)
| RDone.

(** [Close]: not called, past the close of the router, at the sends of [failPending],
    past the clearing of the transport. *)
Inductive closer_pc :=
| CIdle
| CFailing
| CFail (chans : list nat)
| CDone.

(** What is written: requests, notifications and replies to the server. *)
Inductive wire :=
| WRequest (t : nat) (id method params : bytes)
| WNotify (method : bytes) (params : option bytes)
| WReply (id : bytes) (r : result bytes bytes).

(** The client with its threads.  [chans] has the channels that are full, [transport]
    says whether the field is set, [answers] is what the consumers of the router got. *)
Record client := Client {
  responses : gmap bytes nat;
  chans : gmap nat responseWait;
  requestSeq : Z;
  transport : bool;
  router : Router.state (T := Notification);
  senders : gmap nat sender;
  reader : reader_pc;
  closer : closer_pc;
  written : list wire;
  answers : list (Router.response (T := Notification));
}.

(** A started client. *)
Definition newClient : client := Client ∅ ∅ 0 true Router.newTurnNotificationRouter ∅ RIdle CIdle [] [].

Definition setResponses m s := Client m (chans s) (requestSeq s) (transport s) (router s) (senders s) (reader s) (closer s) (written s) (answers s).
Definition setChans c s := Client (responses s) c (requestSeq s) (transport s) (router s) (senders s) (reader s) (closer s) (written s) (answers s).
Definition setSeq n s := Client (responses s) (chans s) n (transport s) (router s) (senders s) (reader s) (closer s) (written s) (answers s).
Definition clearTransport s := Client (responses s) (chans s) (requestSeq s) false (router s) (senders s) (reader s) (closer s) (written s) (answers s).
Definition setRouter r s := Client (responses s) (chans s) (requestSeq s) (transport s) r (senders s) (reader s) (closer s) (written s) (answers s).
Definition setSender t x s := Client (responses s) (chans s) (requestSeq s) (transport s) (router s) (<[t := x]> (senders s)) (reader s) (closer s) (written s) (answers s).
Definition setReader r s := Client (responses s) (chans s) (requestSeq s) (transport s) (router s) (senders s) r (closer s) (written s) (answers s).
Definition setCloser c s := Client (responses s) (chans s) (requestSeq s) (transport s) (router s) (senders s) (reader s) c (written s) (answers s).
Definition emit w s := Client (responses s) (chans s) (requestSeq s) (transport s) (router s) (senders s) (reader s) (closer s) (written s ++ [w]) (answers s).
Definition told a s := Client (responses s) (chans s) (requestSeq s) (transport s) (router s) (senders s) (reader s) (closer s) (written s) (answers s ++ [a]).

Definition goSender (t : nat) (x : sender) (pc : sender_pc) (s : client) : client :=
  setSender t (Sender (s_n x) (s_id x) (s_method x) (s_params x) pc) s.

(** [ch <- got] on a channel of capacity one; [None] while it is full. *)
Definition send (ch : nat) (got : responseWait) (s : client) : option client :=
  match chans s !! ch with None => Some (setChans (<[ch := got]> (chans s)) s) | Some _ => None end.

(** ** jsonrpc_helpers.go *)

(** [requestSeq.Add(1)] at 64 bits. *)
Definition nextSeq (n : Z) : Z := ((n + 1) mod 2 ^ 64)%Z.
Definition nextRequestID (n : Z) : bytes := str "go-sdk-" ++ utoa n.

Definition paramsOrEmpty (params : option bytes) : bytes := default (str "{}") params.

(** [requestRaw] up to its registration; [done] says that the context is done. *)
Definition beginRequest (t : nat) (method : bytes) (params : option bytes) (done : bool) (s : client) : client :=
  if done then setSender t (Sender 0 [] method [] (SDone (GaveUp ContextError))) s
  else let n := nextSeq (requestSeq s) in
       setSender t (Sender n (nextRequestID n) method (paramsOrEmpty params) SRegister) (setSeq n s).

Definition registerResponse (id : bytes) (t : nat) (s : client) : client := setResponses (<[id := t]> (responses s)) s.
Definition unregisterResponse (id : bytes) (s : client) : client := setResponses (delete id (responses s)) s.

(** The critical section; the read loop goes on to the send. *)
Definition deliverResponse (msg : rpcMessage) (s : client) : client :=
  match responses s !! ID msg with
  | None => unregisterResponse (ID msg) s
  | Some ch => setReader (RDeliver ch (Answer msg)) (unregisterResponse (ID msg) s)
  end.

(** The values of the table that [failPending] takes, in the order of its loop. *)
Definition values (m : gmap bytes nat) : list nat := (map_to_list m).*2.
Definition takePending (s : client) : client := setResponses ∅ s.

(** ** client.go *)

Definition notRunning : clientError := TransportClosedError (str "app-server is not running").
Definition appServerClosed : bytes := str "app-server closed".

(** What encoding and the transport do with a message. *)
Inductive writeOutcome :=
| CannotEncode (msg : bytes)
| Written
| WriteFails (n : nat).

Definition writeMessage (w : wire) (o : writeOutcome) (s : client) : client * option clientError :=
  match o with
  | CannotEncode msg => (s, Some (EncodeError msg))
  | Written => if transport s then (emit w s, None) else (s, Some notRunning)
  | WriteFails n => (s, Some (if transport s then TransportError n else notRunning))
  end.

(** What the transport reads: a line, the end of the stream (with the tail of stderr),
    or an error. *)
Inductive readOutcome :=
| Line (line : bytes)
| EOF (stderrTail : bytes)
| ReadFails (n : nat).

Definition defaultApprovalHandler (method : bytes) : result bytes bytes :=
  if bytes_eqb method (str "item/commandExecution/requestApproval") || bytes_eqb method (str "item/fileChange/requestApproval")
  then Ok ([LBRACE; DQUOTE] ++ str "decision" ++ [DQUOTE; COLON; DQUOTE] ++ str "accept" ++ [DQUOTE; RBRACE])
  else Ok (str "{}").

Section client.
Context (decode : bytes → option rpcMessage).
Context (loginID : Notification → option bytes) (processHandle turnID : Notification → bytes).
Context (ToLower : bytes → bytes) (EqualFold : bytes → bytes → bool) (unmarshal : bytes → option CodexErrors.value).

(** What [requestRaw] returns. *)
Definition answerOf (r : sendResult) : result clientError bytes :=
  match r with
  | GaveUp e | Received (Failed e) => Err e
  | Received (Answer msg) =>
      match Error msg with
      | Some b => Err (ResponseError (CodexErrors.mapJSONRPCError ToLower EqualFold unmarshal (eCode b) (eMessage b) (eData b)))
      | None => Ok (Result msg)
      end
  end.

Definition readMessage (o : readOutcome) : result clientError rpcMessage :=
  match o with
  | ReadFails n => Err (TransportError n)
  | EOF tail => Err (TransportClosedError (str "app-server closed stdout. stderr_tail=" ++ tail))
  | Line line => match decode line with Some msg => Ok msg | None => Err (AppServerError line) end
  end.

Definition routeNotification (k : nat * nat) (n : Notification) (s : client) : client * option Router.error :=
  let '(r, e) := Router.route zeroNotification loginID processHandle turnID k n (router s) in (setRouter r s, e).

(** One message of the read loop, up to the handler or the send it leads to.  The
    routing of a notification may interleave with receivers of the global stream as
    [k] says. *)
Definition readLoop (o : readOutcome) (k : nat * nat) (s : client) : client :=
  match readMessage o with
  | Err e => setReader (RErr e) s
  | Ok msg =>
      if negb (bytes_eqb (MMethod msg) []) && negb (bytes_eqb (ID msg) []) then setReader (RApprove msg) s
      else if negb (bytes_eqb (MMethod msg) []) then
        let '(s, e) := routeNotification k (MkNotification (MMethod msg) (MParams msg)) s in
        match e with Some e => setReader (RErr (RouterError e)) s | None => s end
      else deliverResponse msg s
  end.

Inductive event :=
| ESend (t : nat) (method : bytes) (params : option bytes) (done : bool)
| ERegister (t : nat)
| EWrite (t : nat) (o : writeOutcome)
| EReceive (t : nat)
| EDone (t : nat)
| EUnregister (t : nat)
| ENotify (method : bytes) (params : option bytes) (o : writeOutcome)
| ERead (o : readOutcome) (k : nat * nat)
| EApproved (r : result bytes bytes)
| EReply (o : writeOutcome)
| EFailPending (order : list nat)
| EReaderSend
| EReaderReturn
| EClose
| ECloserFail (order : list nat)
| ECloserSend
| EClear
| EConsume (o : Router.op (T := Notification)).

Definition sender_step (t : nat) (e : event) (x : sender) (s : client) : option client :=
  match e, s_pc x with
  | ERegister _, SRegister => Some (goSender t x SWrite (registerResponse (s_id x) t s))
  | EWrite _ o, SWrite =>
      let '(s, err) := writeMessage (WRequest t (s_id x) (s_method x) (s_params x)) o s in
      Some (goSender t x (match err with Some err => SUnregister err | None => SWait end) s)
  | EReceive _, SWait =>
      match chans s !! t with
      | Some got => Some (goSender t x (SDone (Received got)) (setChans (delete t (chans s)) s))
      | None => None
      end
  | EDone _, SWait => Some (goSender t x (SUnregister ContextError) s)
  | EUnregister _, SUnregister err => Some (goSender t x (SDone (GaveUp err)) (unregisterResponse (s_id x) s))
  | _, _ => None
  end.

Definition reader_step (e : event) (s : client) : option client :=
  match e, reader s with
  | ERead o k, RIdle => Some (readLoop o k s)
  | EApproved r, RApprove msg => Some (setReader (RReply (ID msg) r) s)
  | EReply o, RReply id r =>
      let '(s, err) := writeMessage (WReply id r) o s in
      Some (setReader (match err with Some err => RErr err | None => RIdle end) s)
  | EFailPending order, RErr err =>
      if decide (order ≡ₚ values (responses s)) then Some (setReader (RFail order err) (takePending s)) else None
  | EReaderSend, RDeliver ch got => setReader RIdle <$> send ch got s
  | EReaderSend, RFail (ch :: l) err => setReader (RFail l err) <$> send ch (Failed err) s
  | EReaderReturn, RFail [] _ => Some (setReader RDone (setRouter (Router.close (Some Router.streamClosed) (router s)) s))
  | _, _ => None
  end.

Definition closer_step (e : event) (s : client) : option client :=
  match e, closer s with
  | EClose, CIdle =>
      Some (if transport s
            then setCloser CFailing (setRouter (Router.close (Some (Router.TransportClosedError "app-server closed")) (router s)) s)
            else setCloser CDone s)
  | ECloserFail order, CFailing =>
      if decide (order ≡ₚ values (responses s)) then Some (setCloser (CFail order) (takePending s)) else None
  | ECloserSend, CFail (ch :: l) => setCloser (CFail l) <$> send ch (Failed (TransportClosedError appServerClosed)) s
  | EClear, CFail [] => Some (setCloser CDone (clearTransport s))
  | _, _ => None
  end.

(** The operations of the router that consumers call. *)
Definition consumes (o : Router.op (T := Notification)) : bool :=
  match o with Router.Route _ _ | Router.Close _ => false | _ => true end.

Definition step (s : client) (e : event) : option client :=
  match e with
  | ESend t method params done => match senders s !! t with None => Some (beginRequest t method params done s) | Some _ => None end
  | ERegister t | EWrite t _ | EReceive t | EDone t | EUnregister t =>
      match senders s !! t with Some x => sender_step t e x s | None => None end
  | ENotify method params o => Some (writeMessage (WNotify method params) o s).1
  | ERead _ _ | EApproved _ | EReply _ | EFailPending _ | EReaderSend | EReaderReturn => reader_step e s
  | EClose | ECloserFail _ | ECloserSend | EClear => closer_step e s
  | EConsume o =>
      if consumes o then
        let '(r, a) := Router.step zeroNotification loginID processHandle turnID o (router s) in
        Some (told a (setRouter r s))
      else None
  end.

Fixpoint run (s : client) (tr : list event) : option client :=
  match tr with
  | [] => Some s
  | e :: tr => match step s e with Some s => run s tr | None => None end
  end.
End client.
End CodexClient.
