(* ===== verification/CodexClientSpec.v ===== *)
(** What the JSON-RPC client of pkg/llm/codex guarantees in every interleaving: each
    request owns one token, in the response table, in the hands of a thread about to
    send, or in its channel; so no send blocks, no registered request is forgotten, and
    answers reach the request they belong to.  Notifications pass through the router of
    CodexRouter in the order in which they are read. *)
From S2P Require Import Prelude GoStrings GoUtf8 GoStrconv LlmUtil CodexRing CodexRouter CodexScan CodexErrors CodexClient.

Module CodexClientSpec.
Import Scanner CodexClient.

(** Case analysis on everything a step depends on. *)
Ltac crack_step H :=
  unfold step, sender_step, reader_step, closer_step, beginRequest, readLoop, deliverResponse, writeMessage, routeNotification, send in H;
  repeat (case_hyp H; try discriminate H; cbn in H); try injection H as <-.

(** ** Tokens *)

Definition readerSends (r : reader_pc) : list nat :=
  match r with RDeliver ch _ => [ch] | RFail l _ => l | _ => [] end.
Definition closerSends (c : closer_pc) : list nat := match c with CFail l => l | _ => [] end.
Definition full (m : gmap nat responseWait) : list nat := (map_to_list m).*1.

Definition tokens (s : client) : list nat :=
  values (responses s) ++ readerSends (reader s) ++ closerSends (closer s) ++ full (chans s).

Lemma values_insert m id t : m !! id = None → values (<[id := t]> m) ≡ₚ t :: values m.
Proof. intros H. unfold values. by rewrite map_to_list_insert. Qed.

Lemma values_delete m id t : m !! id = Some t → values m ≡ₚ t :: values (delete id m).
Proof. intros H. unfold values. by rewrite <-(map_to_list_delete m id t H). Qed.

Lemma full_insert m t w : m !! t = None → full (<[t := w]> m) ≡ₚ t :: full m.
Proof. intros H. unfold full. by rewrite map_to_list_insert. Qed.

Lemma full_delete m t w : m !! t = Some w → full m ≡ₚ t :: full (delete t m).
Proof. intros H. unfold full. by rewrite <-(map_to_list_delete m t w H). Qed.

Lemma elem_values m t : t ∈ values m ↔ ∃ id, m !! id = Some t.
Proof.
  unfold values. rewrite list_elem_of_fmap. split.
  - intros ([id u] & -> & H%elem_of_map_to_list). by exists id.
  - intros [id H]. exists (id, t). split; [done|]. by apply elem_of_map_to_list.
Qed.

Lemma elem_full m t : t ∈ full m ↔ is_Some (m !! t).
Proof.
  unfold full. rewrite list_elem_of_fmap. split.
  - intros ([u w] & -> & H%elem_of_map_to_list). by exists w.
  - intros [w H]. exists (t, w). split; [done|]. by apply elem_of_map_to_list.
Qed.

Lemma nextRequestID_inj n n' : (0 ≤ n)%Z → (0 ≤ n')%Z → nextRequestID n = nextRequestID n' → n = n'.
Proof. intros Hn Hn' E. apply app_inv_head in E. by apply utoa_inj. Qed.

(** Program points at which a request has registered and has not received. *)
Definition registered (pc : sender_pc) : bool :=
  match pc with SWrite | SWait | SUnregister _ | SDone (GaveUp _) => true | _ => false end.
Definition waiting (pc : sender_pc) : bool := match pc with SWrite | SWait => true | _ => false end.
Definition listed (pc : sender_pc) : bool := match pc with SWrite | SWait | SUnregister _ => true | _ => false end.

Lemma waiting_listed pc : waiting pc = true → listed pc = true.
Proof. by destruct pc. Qed.
Lemma listed_registered pc : listed pc = true → registered pc = true.
Proof. by destruct pc as [| | | |[]]. Qed.

Record tokens_inv (s : client) : Prop := {
  ti_once : NoDup (tokens s);
  ti_table id t : responses s !! id = Some t → ∃ x, senders s !! t = Some x ∧ s_id x = id ∧ listed (s_pc x) = true;
  ti_owner t : t ∈ tokens s → ∃ x, senders s !! t = Some x ∧ registered (s_pc x) = true;
  ti_waiting t x : senders s !! t = Some x → waiting (s_pc x) = true → t ∈ tokens s;
}.

(** A step of the other threads moves tokens. *)
Lemma tokens_move s s' :
  tokens_inv s → senders s' = senders s → responses s' ⊆ responses s → tokens s' ≡ₚ tokens s → tokens_inv s'.
Proof.
  intros [Ho Ht Hw Hx] Es Hr Hp. split; rewrite ?Es.
  - by rewrite Hp.
  - intros id t H. apply Ht. by eapply lookup_weaken.
  - intros t. rewrite Hp. apply Hw.
  - intros t x. rewrite Hp. apply Hx.
Qed.

(** A step of a request that keeps the tokens. *)
Lemma tokens_pc s t x x' s' :
  tokens_inv s → senders s !! t = Some x → senders s' = <[t := x']> (senders s) →
  responses s' = responses s → tokens s' = tokens s → s_id x' = s_id x →
  (listed (s_pc x) = true → listed (s_pc x') = true) → (registered (s_pc x) = true → registered (s_pc x') = true) →
  (waiting (s_pc x') = true → waiting (s_pc x) = true) → tokens_inv s'.
Proof.
  intros [Ho Ht Hw Hx] Hs Es Er Et Eid Hl Hr Hwt.
  assert (∀ u y, senders s !! u = Some y → ∃ y', senders s' !! u = Some y' ∧ s_id y' = s_id y ∧
    (listed (s_pc y) = true → listed (s_pc y') = true) ∧ (registered (s_pc y) = true → registered (s_pc y') = true)) as Hk.
  { intros u y Hu. rewrite Es. destruct (decide (t = u)) as [<-|Hn]; [|rewrite lookup_insert_ne by done; eauto].
    rewrite lookup_insert_eq. rewrite Hs in Hu. injection Hu as <-. eauto 10. }
  split.
  - by rewrite Et.
  - intros id u. rewrite Er. intros (y & Hy & <- & Hly)%Ht. destruct (Hk u y Hy) as (y' & ? & ? & ? & ?). eauto.
  - intros u. rewrite Et. intros (y & Hy & Hly)%Hw. destruct (Hk u y Hy) as (y' & ? & ? & ? & ?). eauto.
  - intros u y. rewrite Es, Et. destruct (decide (t = u)) as [<-|Hn].
    + rewrite lookup_insert_eq. intros [= <-] Hy. eapply Hx; [exact Hs|auto].
    + rewrite lookup_insert_ne by done. apply Hx.
Qed.

Section spec.
Context (decode : bytes → option rpcMessage).
Context (loginID : Notification → option bytes) (processHandle turnID : Notification → bytes).

Abbreviation step := (step decode loginID processHandle turnID).
Abbreviation run := (run decode loginID processHandle turnID).

Lemma client_run_app s tr tr' : run s (tr ++ tr') = match run s tr with Some s' => run s' tr' | None => None end.
Proof using Type. revert s. induction tr as [|e tr IH]; intros s; cbn; [done|]. destruct (step s e); [apply IH|done]. Qed.

(** Rule induction over the events of a run, with the events so far. *)
Lemma client_invariant (P : list event → client → Prop) tr s :
  P [] newClient → (∀ tr s e s', P tr s → step s e = Some s' → P (tr ++ [e]) s') → run newClient tr = Some s → P tr s.
Proof using Type.
  intros H0 Hs. revert s. induction tr as [|e tr IH] using rev_ind; intros s; [by intros [= <-]|].
  rewrite client_run_app. destruct (run newClient tr) as [s1|] eqn:E; [|done]. cbn.
  destruct (step s1 e) as [s2|] eqn:E2; [|done]. intros [= <-]. eapply Hs; [by apply IH|done].
Qed.

(** What every step keeps holds along a run. *)
Lemma client_keeps (P : client → Prop) tr s s' :
  (∀ s e s', P s → step s e = Some s' → P s') → P s → run s tr = Some s' → P s'.
Proof using Type.
  intros Hs. revert s. induction tr as [|e tr IH]; intros s H; cbn; [by intros [= <-]|].
  destruct (step s e) as [s1|] eqn:E; [|done]. apply IH. by eapply Hs.
Qed.

(** ** Numbers *)

Definition numbered (e : event) : nat := match e with ESend _ _ _ false => 1 | _ => 0 end.
Definition sends (tr : list event) : nat := sum_list (numbered <$> tr).

Lemma sends_app tr e : sends (tr ++ [e]) = sends tr + numbered e.
Proof using Type. unfold sends. induction tr as [|e' tr IH]; cbn; lia. Qed.

(** Refused before it took a number, or numbered. *)
Definition numbering (n : nat) (x : sender) : Prop :=
  s_n x = 0%Z ∧ s_id x = [] ∧ s_pc x = SDone (GaveUp ContextError) ∨ (0 < s_n x ≤ Z.of_nat n)%Z ∧ s_id x = nextRequestID (s_n x).

Record numbers_inv (n : nat) (s : client) : Prop := {
  ni_seq : requestSeq s = Z.of_nat n;
  ni_number t x : senders s !! t = Some x → numbering n x;
  ni_distinct t t' x x' : senders s !! t = Some x → senders s !! t' = Some x' → (0 < s_n x)%Z → s_n x = s_n x' → t = t';
}.

(** A step of a request, or of another thread. *)
Lemma step_senders s e s' :
  step s e = Some s' →
  (senders s' = senders s ∧ requestSeq s' = requestSeq s ∧ numbered e = 0) ∨
  (∃ t x pc, senders s !! t = Some x ∧ requestSeq s' = requestSeq s ∧ numbered e = 0 ∧ (∀ r, s_pc x ≠ SDone r) ∧
    senders s' = <[t := Sender (s_n x) (s_id x) (s_method x) (s_params x) pc]> (senders s)) ∨
  (∃ t method params done, e = ESend t method params done ∧ senders s !! t = None ∧ s' = beginRequest t method params done s).
Proof using Type.
  intros Hs. destruct e as [t m p d|t|t o|t|t|t|m p o|o k|r|o|l| | | |l| | |o].
  { right. right. unfold step, CodexClient.step in Hs. destruct (senders s !! t) eqn:E; [done|]. injection Hs as <-. eauto 10. }
  1-5: right; left; cbn in Hs; destruct (senders s !! t) as [x|] eqn:Hx; [|done]; exists t, x;
    crack_step Hs; eexists; (split; [done|]); cbn; (split; [done|]); (split; [done|]); (split; [congruence|done]).
  all: left; unfold CodexClient.step in Hs; crack_step Hs; done.
Qed.

Lemma numbering_mono n x : numbering n x → numbering (S n) x.
Proof using Type. intros [?|[? ?]]; [by left|right]. split; [lia|done]. Qed.

Lemma client_numbers_step n s e s' :
  (Z.of_nat (n + numbered e) < 2 ^ 64)%Z → numbers_inv n s → step s e = Some s' → numbers_inv (n + numbered e) s'.
Proof using Type.
  intros Hlt [Hq Hn Hd] Hs.
  destruct (step_senders s e s' Hs) as [(Es & Eq & ->)|[(t & x & pc & Hx & Eq & -> & Hpc & Es)|(t & m & p & d & -> & Hf & ->)]].
  - rewrite Nat.add_0_r. split; rewrite ?Es, ?Eq; done.
  - rewrite Nat.add_0_r. split; rewrite ?Eq; [done| |].
    + intros u y. rewrite Es. destruct (decide (t = u)) as [<-|Hne]; [|rewrite lookup_insert_ne by done; apply Hn].
      rewrite lookup_insert_eq. intros [= <-]. destruct (Hn t x Hx) as [(_ & _ & E)|Hk]; [by destruct (Hpc _ E)|by right].
    + intros u u' y y' Hu Hu'. rewrite Es in Hu, Hu'. revert Hu Hu'.
      destruct (decide (t = u)) as [<-|H1], (decide (t = u')) as [<-|H2]; rewrite ?lookup_insert_eq, ?lookup_insert_ne by done;
        intros Hu Hu'; simplify_eq/=; eauto.
  - unfold beginRequest. destruct d; cbn [numbered] in *.
    + rewrite Nat.add_0_r. split; cbn; [done| |].
      * intros u y. destruct (decide (t = u)) as [<-|Hne]; [rewrite lookup_insert_eq|rewrite lookup_insert_ne by done; apply Hn].
        intros [= <-]. by left.
      * intros u u' y y'. destruct (decide (t = u)) as [<-|H1], (decide (t = u')) as [<-|H2];
          rewrite ?lookup_insert_eq, ?lookup_insert_ne by done; intros; simplify_eq/=; eauto; lia.
    + assert (nextSeq (requestSeq s) = Z.of_nat (n + 1)) as E by (unfold nextSeq; rewrite Hq, Z.mod_small; lia).
      rewrite E. rewrite Nat.add_1_r in *. split; cbn; [done| |].
      * intros u y. destruct (decide (t = u)) as [<-|Hne];
          [rewrite lookup_insert_eq|rewrite lookup_insert_ne by done; intros Hy; by apply numbering_mono, (Hn u)].
        intros [= <-]. right. cbn. split; [lia|done].
      * intros u u' y y'. destruct (decide (t = u)) as [<-|H1], (decide (t = u')) as [<-|H2];
          rewrite ?lookup_insert_eq, ?lookup_insert_ne by done; intros Hu Hu'; simplify_eq/=; eauto; intros Hp Heq; exfalso.
        -- destruct (Hn _ _ Hu') as [[]|[]]; lia.
        -- destruct (Hn _ _ Hu) as [[]|[]]; lia.
Qed.

(** Requests that have a number are told apart by their identifiers. *)
Lemma client_numbers_ids n s t t' x x' :
  numbers_inv n s → senders s !! t = Some x → senders s !! t' = Some x' →
  s_pc x ≠ SDone (GaveUp ContextError) → s_id x = s_id x' → t = t'.
Proof using Type.
  intros [_ Hn Hd] Hx Hx' Hp E. destruct (Hn _ _ Hx) as [(_ & _ & H)|[H1 H2]]; [done|].
  destruct (Hn _ _ Hx') as [(_ & H & _)|[H3 H4]]; [by rewrite E, H in H2|].
  eapply Hd; [done|done|lia|]. apply nextRequestID_inj; [lia|lia|congruence].
Qed.

(** ** Every step keeps the tokens *)

Lemma tokens_register n s t x :
  tokens_inv s → numbers_inv n s → senders s !! t = Some x → s_pc x = SRegister →
  tokens_inv (goSender t x SWrite (registerResponse (s_id x) t s)).
Proof using Type.
  intros [Ho Ht Hw Hx] Hn Hs Hpc.
  assert (responses s !! s_id x = None) as Hf.
  { destruct (responses s !! s_id x) as [u|] eqn:E; [|done]. destruct (Ht _ _ E) as (y & Hy & Ey & Hl).
    assert (t = u) as <-; [|rewrite Hs in Hy; injection Hy as <-; by rewrite Hpc in Hl].
    eapply client_numbers_ids; [exact Hn|exact Hs|exact Hy|by rewrite Hpc|done]. }
  assert (t ∉ tokens s) as Hni.
  { intros (y & Hy & Hr)%Hw. rewrite Hs in Hy. injection Hy as <-. by rewrite Hpc in Hr. }
  assert (tokens (goSender t x SWrite (registerResponse (s_id x) t s)) ≡ₚ t :: tokens s) as Hp.
  { unfold tokens. cbn. by rewrite values_insert. }
  split.
  - rewrite Hp. by constructor.
  - intros id u. cbn. intros [[-> ->]|[Hne H]]%lookup_insert_Some; [rewrite lookup_insert_eq; eauto|].
    destruct (Ht _ _ H) as (y & Hy & E & Hl). destruct (decide (t = u)) as [<-|Hn']; [|rewrite lookup_insert_ne by done; eauto].
    rewrite Hs in Hy. injection Hy as <-. by rewrite Hpc in Hl.
  - intros u. rewrite Hp. cbn. intros [->|Hu]%elem_of_cons; [rewrite lookup_insert_eq; eauto|].
    rewrite lookup_insert_ne by (intros ->; done). by apply Hw.
  - intros u y. rewrite Hp. cbn. destruct (decide (t = u)) as [<-|Hn']; [intros _ _; by left|].
    rewrite lookup_insert_ne by done. intros H1 H2. right. by eapply Hx.
Qed.

Lemma tokens_receive s t x got :
  tokens_inv s → senders s !! t = Some x → s_pc x = SWait → chans s !! t = Some got →
  tokens_inv (goSender t x (SDone (Received got)) (setChans (delete t (chans s)) s)).
Proof using Type.
  intros [Ho Ht Hw Hx] Hs Hpc Hg.
  assert (tokens s ≡ₚ t :: tokens (goSender t x (SDone (Received got)) (setChans (delete t (chans s)) s))) as Hp.
  { unfold tokens. cbn. rewrite full_delete by done. solve_Permutation. }
  pose proof Ho as Ho'. rewrite Hp in Ho'. apply NoDup_cons in Ho' as [Hni Hnd]. split.
  - done.
  - intros id u. cbn. intros H. assert (t ≠ u) as Hne.
    { intros ->. apply Hni. unfold tokens. apply elem_of_app. left. cbn. apply elem_values. eauto. }
    rewrite lookup_insert_ne by done. by apply Ht.
  - intros u Hu. assert (t ≠ u) as Hne by congruence. cbn. rewrite lookup_insert_ne by done. apply Hw. rewrite Hp. by right.
  - intros u y. cbn. destruct (decide (t = u)) as [<-|Hne]; [rewrite lookup_insert_eq; by intros [= <-]|].
    rewrite lookup_insert_ne by done. intros H1 H2. pose proof (Hx _ _ H1 H2) as Hin. rewrite Hp in Hin.
    by apply elem_of_cons in Hin as [->|Hin].
Qed.

Lemma tokens_unregister n s t x err :
  tokens_inv s → numbers_inv n s → senders s !! t = Some x → s_pc x = SUnregister err →
  tokens_inv (goSender t x (SDone (GaveUp err)) (unregisterResponse (s_id x) s)).
Proof using Type.
  intros [Ho Ht Hw Hx] Hn Hs Hpc.
  assert (∀ u, responses s !! s_id x = Some u → u = t) as Hown.
  { intros u E. destruct (Ht _ _ E) as (y & Hy & Ey & Hl). symmetry.
    eapply client_numbers_ids; [exact Hn|exact Hs|exact Hy|by rewrite Hpc|done]. }
  set (s' := goSender _ _ _ _).
  assert (tokens s ≡ₚ tokens s' ∨ tokens s ≡ₚ t :: tokens s') as Hp.
  { unfold tokens, s'. cbn. destruct (responses s !! s_id x) as [u|] eqn:E; [right|left].
    - rewrite (Hown u eq_refl) in E. by rewrite (values_delete _ _ _ E).
    - by rewrite delete_id. }
  assert (∀ u, u ∈ tokens s' → u ∈ tokens s) as Hsub by (intros u Hu; destruct Hp as [Hp|Hp]; rewrite Hp; [done|by right]).
  split.
  - destruct Hp as [Hp|Hp]; rewrite Hp in Ho; [done|by apply NoDup_cons in Ho as [_ Ho]].
  - intros id u. cbn. intros [Hne H]%lookup_delete_Some. destruct (Ht _ _ H) as (y & Hy & E & Hl).
    assert (t ≠ u) as Hne' by (intros ->; congruence). rewrite lookup_insert_ne by done. eauto.
  - intros u Hu. destruct (Hw u (Hsub u Hu)) as (y & Hy & Hr). cbn.
    destruct (decide (t = u)) as [<-|Hne]; [rewrite lookup_insert_eq; eauto|rewrite lookup_insert_ne by done; eauto].
  - intros u y. cbn. destruct (decide (t = u)) as [<-|Hne]; [rewrite lookup_insert_eq; by intros [= <-]|].
    rewrite lookup_insert_ne by done. intros H1 H2. pose proof (Hx _ _ H1 H2) as Hin.
    destruct Hp as [Hp|Hp]; rewrite Hp in Hin; [done|]. by apply elem_of_cons in Hin as [->|Hin].
Qed.

(** A thread that is about to send does so. *)
Lemma tokens_send s ch got s' l :
  tokens_inv s → send ch got s = Some s' →
  ∀ s'', senders s'' = senders s → responses s'' = responses s → chans s'' = chans s' →
  (readerSends (reader s) ++ closerSends (closer s) ≡ₚ ch :: l) → (readerSends (reader s'') ++ closerSends (closer s'') ≡ₚ l) →
  tokens_inv s''.
Proof using Type.
  intros Hi Hs s'' Es Er Ec Hl Hl'. unfold send in Hs. destruct (chans s !! ch) eqn:E; [done|]. injection Hs as <-.
  eapply tokens_move; [exact Hi|done|by rewrite Er|]. unfold tokens. rewrite Er, Ec. cbn. rewrite full_insert by done.
  rewrite (app_assoc (readerSends (reader s''))), Hl', (app_assoc (readerSends (reader s))), Hl. solve_Permutation.
Qed.

Lemma tokens_begin s t m p d : tokens_inv s → senders s !! t = None → tokens_inv (beginRequest t m p d s).
Proof using Type.
  intros [Ho Ht Hw Hx] Hf.
  assert (∀ x, waiting (s_pc x) = false → tokens_inv (setSender t x s)) as Hnew.
  { intros x Ew. split; cbn.
    - done.
    - intros id u H. destruct (Ht _ _ H) as (y & Hy & ?). rewrite lookup_insert_ne by (intros ->; congruence). eauto.
    - intros u H. destruct (Hw _ H) as (y & Hy & ?). rewrite lookup_insert_ne by (intros ->; congruence). eauto.
    - intros u y. destruct (decide (t = u)) as [<-|Hne]; [rewrite lookup_insert_eq; intros [= <-]; congruence|].
      rewrite lookup_insert_ne by done. apply Hx. }
  unfold beginRequest. destruct d; [by apply Hnew|].
  by eapply tokens_move; [exact (Hnew (Sender (nextSeq (requestSeq s)) (nextRequestID (nextSeq (requestSeq s))) m (paramsOrEmpty p) SRegister) eq_refl)|..].
Qed.

Lemma tokens_read s o k : tokens_inv s → reader s = RIdle → tokens_inv (readLoop decode loginID processHandle turnID o k s).
Proof using Type.
  intros Hi Er. unfold readLoop, deliverResponse, routeNotification.
  destruct (readMessage decode o) as [msg|err]; [|eapply tokens_move; [exact Hi|done..|]; unfold tokens; cbn; by rewrite Er].
  destruct (negb _ && _); [eapply tokens_move; [exact Hi|done..|]; unfold tokens; cbn; by rewrite Er|]. destruct (negb _).
  { destruct (Router.route _ _ _ _ _ _ _) as [st [e|]]; cbn; (eapply tokens_move; [exact Hi|done..|]; unfold tokens; cbn; by rewrite ?Er). }
  destruct (responses s !! ID msg) as [ch|] eqn:Ech; cbn.
  - eapply tokens_move; [exact Hi|done|apply delete_subseteq|]. unfold tokens. cbn. rewrite Er, (values_delete _ _ _ Ech). solve_Permutation.
  - unfold unregisterResponse. rewrite delete_id by done. by eapply tokens_move.
Qed.

Lemma tokens_step n s e s' : tokens_inv s → numbers_inv n s → step s e = Some s' → tokens_inv s'.
Proof using Type.
  intros Hi Hn Hs. destruct e as [t m p d|t|t o|t|t|t|m p o|o k|r|o|l| | | |l| | |o].
  - cbn in Hs. destruct (senders s !! t) eqn:Hf; [done|]. injection Hs as <-. by apply tokens_begin.
  - cbn in Hs. destruct (senders s !! t) as [x|] eqn:Hx; [|done]. crack_step Hs. by eapply tokens_register.
  - cbn in Hs. destruct (senders s !! t) as [x|] eqn:Hx; [|done]. crack_step Hs;
      (eapply tokens_pc; [exact Hi|exact Hx|reflexivity|done|done|done|..]; cbn; rewrite E; done).
  - cbn in Hs. destruct (senders s !! t) as [x|] eqn:Hx; [|done]. crack_step Hs. by eapply tokens_receive.
  - cbn in Hs. destruct (senders s !! t) as [x|] eqn:Hx; [|done]. crack_step Hs.
    eapply tokens_pc; [exact Hi|exact Hx|reflexivity|done|done|done|..]; cbn; rewrite E; done.
  - cbn in Hs. destruct (senders s !! t) as [x|] eqn:Hx; [|done]. crack_step Hs. by eapply tokens_unregister.
  - injection Hs as <-. unfold writeMessage. destruct o; try destruct (transport s); cbn; try done; by eapply tokens_move.
  - cbn in Hs. unfold reader_step in Hs. destruct (reader s) eqn:Er; try discriminate Hs. injection Hs as <-. by apply tokens_read.
  - crack_step Hs. eapply tokens_move; [exact Hi|done..|]. unfold tokens. cbn. by rewrite E.
  - crack_step Hs; (eapply tokens_move; [exact Hi|done..|]; unfold tokens; cbn; by rewrite E).
  - crack_step Hs. eapply tokens_move; [exact Hi|done|apply map_empty_subseteq|]. unfold tokens. cbn. rewrite E, p.
    unfold values at 1. rewrite map_to_list_empty. cbn. solve_Permutation.
  - (* EReaderSend *) cbn in Hs. destruct (reader s) as [|ch got| | | |[|ch l] err|] eqn:Er; try discriminate Hs;
      apply fmap_Some in Hs as (s1 & Hs1 & ->);
      (eapply (tokens_send s ch); [exact Hi|exact Hs1|unfold send in Hs1; destruct (chans s !! ch); [done|]; injection Hs1 as <-; done..| |]);
      cbn; rewrite ?Er; cbn; try reflexivity; unfold send in Hs1; destruct (chans s !! ch); try done; by injection Hs1 as <-.
  - crack_step Hs. eapply tokens_move; [exact Hi|done..|]. unfold tokens. cbn. by rewrite E.
  - crack_step Hs; (eapply tokens_move; [exact Hi|done..|]; unfold tokens; cbn; by rewrite E).
  - crack_step Hs. eapply tokens_move; [exact Hi|done|apply map_empty_subseteq|]. unfold tokens. cbn. rewrite E, p.
    unfold values at 1. rewrite map_to_list_empty. cbn. solve_Permutation.
  - (* ECloserSend *) cbn in Hs. destruct (closer s) as [| |[|ch l]|] eqn:Er; try discriminate Hs.
    apply fmap_Some in Hs as (s1 & Hs1 & ->).
    eapply (tokens_send s ch); [exact Hi|exact Hs1|unfold send in Hs1; destruct (chans s !! ch); [done|]; injection Hs1 as <-; done..| |].
    + rewrite Er. cbn. by rewrite <-Permutation_middle.
    + unfold send in Hs1. destruct (chans s !! ch); [done|]. by injection Hs1 as <-.
  - crack_step Hs. eapply tokens_move; [exact Hi|done..|]. unfold tokens. cbn. by rewrite E.
  - crack_step Hs. by eapply tokens_move.
Qed.

Lemma client_reachable tr s : (Z.of_nat (sends tr) < 2 ^ 64)%Z → run newClient tr = Some s → numbers_inv (sends tr) s ∧ tokens_inv s.
Proof using Type.
  intros Hlt Hr. revert Hlt. refine (client_invariant (λ tr s, (Z.of_nat (sends tr) < 2 ^ 64)%Z → numbers_inv (sends tr) s ∧ tokens_inv s) tr s _ _ Hr).
  - intros _. split; [split; [done|by intros ? ? ?|by intros ? ? ? ? ?]|]. split; [constructor|..]; cbn; try by intros ? ? ?.
    intros t H. by apply elem_of_nil in H.
  - intros tr0 s0 e s1 IH Hs. rewrite sends_app. intros Hlt. destruct IH as [Hn Ht]; [lia|]. split; [by eapply client_numbers_step|by eapply tokens_step].
Qed.

(** ** Where results come from *)

(** A response with the identifier was read after the request had registered. *)
Definition answered (tr : list event) (t : nat) (id : bytes) (msg : rpcMessage) : Prop :=
  ∃ tr1 o k tr2, tr = tr1 ++ ERead o k :: tr2 ∧ ERegister t ∈ tr1 ∧
    readMessage decode o = Ok msg ∧ MMethod msg = [] ∧ ID msg = id.

(** The read loop failed to read, to route or to reply, or the client was closed. *)
Definition broken (tr : list event) (err : clientError) : Prop :=
  (∃ o k, ERead o k ∈ tr ∧ (readMessage decode o = Err err ∨ ∃ e, err = RouterError e)) ∨
  (∃ w o s s', EReply o ∈ tr ∧ writeMessage w o s = (s', Some err)) ∨
  (EClose ∈ tr ∧ err = TransportClosedError appServerClosed).

Definition origin (tr : list event) (t : nat) (id : bytes) (got : responseWait) : Prop :=
  match got with Answer msg => answered tr t id msg | Failed err => broken tr err end.

Lemma broken_mono tr e err : broken tr err → broken (tr ++ [e]) err.
Proof using Type.
  intros [(o & k & Hin & H)|[(w & o & s & s' & Hin & H)|[Hin H]]];
    [left; exists o, k|right; left; exists w, o, s, s'|right; right]; (split; [apply elem_of_app; by left|done]).
Qed.

Lemma origin_snoc tr e t id got : origin tr t id got → origin (tr ++ [e]) t id got.
Proof using Type.
  destruct got as [msg|err]; [|apply broken_mono]. intros (tr1 & o & k & tr2 & -> & H). exists tr1, o, k, (tr2 ++ [e]).
  split; [by rewrite <-app_assoc|done].
Qed.

Record origins_inv (tr : list event) (s : client) : Prop := {
  oi_listed t x : senders s !! t = Some x → listed (s_pc x) = true → ERegister t ∈ tr;
  oi_chan t x got : senders s !! t = Some x → chans s !! t = Some got → origin tr t (s_id x) got;
  oi_result t x got : senders s !! t = Some x → s_pc x = SDone (Received got) → origin tr t (s_id x) got;
  oi_deliver ch x got : senders s !! ch = Some x → reader s = RDeliver ch got → origin tr ch (s_id x) got;
  oi_reader err : (reader s = RErr err ∨ ∃ l, reader s = RFail l err) → broken tr err;
  oi_closer : closer s ≠ CIdle → EClose ∈ tr;
}.

(** Other threads: what is new in the channels and at the reader has its origin. *)
Lemma origins_frame tr e s s' :
  origins_inv tr s → senders s' = senders s →
  (∀ t x got, senders s !! t = Some x → chans s' !! t = Some got → chans s !! t = Some got ∨ origin (tr ++ [e]) t (s_id x) got) →
  (∀ ch x got, senders s !! ch = Some x → reader s' = RDeliver ch got → reader s = RDeliver ch got ∨ origin (tr ++ [e]) ch (s_id x) got) →
  (∀ err, (reader s' = RErr err ∨ ∃ l, reader s' = RFail l err) → (reader s = RErr err ∨ ∃ l, reader s = RFail l err) ∨ broken (tr ++ [e]) err) →
  (closer s' ≠ CIdle → closer s ≠ CIdle ∨ EClose ∈ tr ++ [e]) → origins_inv (tr ++ [e]) s'.
Proof using Type.
  intros [Hl Hc Hr Hd He Hcl] Es Hc' Hd' He' Hcl'. split; rewrite ?Es.
  - intros t x Hx Hp. apply elem_of_app. left. by eapply Hl.
  - intros t x got Hx Hg. destruct (Hc' _ _ _ Hx Hg) as [H|H]; [by eapply origin_snoc, Hc|done].
  - intros t x got Hx Hp. by eapply origin_snoc, Hr.
  - intros ch x got Hx Hp. destruct (Hd' _ _ _ Hx Hp) as [H|H]; [by eapply origin_snoc, Hd|done].
  - intros err [H|H]%He'; [by apply broken_mono, He|done].
  - intros [H|H]%Hcl'; [|done]. apply elem_of_app. left. auto.
Qed.

(** A request moves on. *)
Lemma origins_pc tr e s t x pc s' :
  origins_inv tr s → senders s !! t = Some x →
  senders s' = <[t := Sender (s_n x) (s_id x) (s_method x) (s_params x) pc]> (senders s) →
  chans s' ⊆ chans s → reader s' = reader s → closer s' = closer s →
  (listed pc = true → listed (s_pc x) = true ∨ e = ERegister t) → (∀ got, pc = SDone (Received got) → chans s !! t = Some got) →
  origins_inv (tr ++ [e]) s'.
Proof using Type.
  intros [Hl Hc Hr Hd He Hcl] Hx Es Ec Er Ecl Hpc Hgot.
  assert (∀ u y', senders s' !! u = Some y' → ∃ y, senders s !! u = Some y ∧ s_id y' = s_id y ∧ (s_pc y' = s_pc y ∨ u = t ∧ y = x ∧ s_pc y' = pc)) as Hback.
  { intros u y'. rewrite Es. destruct (decide (t = u)) as [<-|Hn]; [rewrite lookup_insert_eq|rewrite lookup_insert_ne by done; eauto].
    intros [= <-]. eauto 10. }
  split; rewrite ?Er, ?Ecl.
  - intros u y' Hy Hp. apply elem_of_app. destruct (Hback u y' Hy) as (y & Hy' & _ & [E|(-> & -> & E)]); rewrite E in Hp; [left; by eapply Hl|].
    destruct (Hpc Hp) as [H| ->]; [left; by eapply Hl|right; by left].
  - intros u y' got Hy Hg. destruct (Hback u y' Hy) as (y & Hy' & -> & _). eapply origin_snoc, Hc; [done|by eapply lookup_weaken].
  - intros u y' got Hy Hp. destruct (Hback u y' Hy) as (y & Hy' & -> & [E|(-> & -> & E)]); rewrite E in Hp; apply origin_snoc;
      [by eapply Hr|eapply Hc; [done|by apply Hgot]].
  - intros u y' got Hy Hp. destruct (Hback u y' Hy) as (y & Hy' & -> & _). by eapply origin_snoc, Hd.
  - intros err H. by apply broken_mono, He.
  - intros H. apply elem_of_app. left. auto.
Qed.

Lemma origins_begin tr e s t m p d :
  origins_inv tr s → tokens_inv s → senders s !! t = None → origins_inv (tr ++ [e]) (beginRequest t m p d s).
Proof using Type.
  intros Hi Ht Hf.
  assert (∀ x, listed (s_pc x) = false → (∀ got, s_pc x ≠ SDone (Received got)) → origins_inv (tr ++ [e]) (setSender t x s)) as Hnew.
  { intros x Hl Hg.
    assert (origins_inv (tr ++ [e]) s) as [H1 H2 H3 H4 H5 H6] by (eapply origins_frame; [exact Hi|done|..]; eauto).
    assert (∀ l, l ⊆+ tokens s → t ∉ l) as Hn.
    { intros l Hl' Hin. eapply elem_of_submseteq in Hin; [|done]. destruct (ti_owner _ Ht _ Hin) as (y & Hy & _). congruence. }
    split; cbn; [| | | |exact H5|exact H6]; intros u y; destruct (decide (t = u)) as [<-|Hne];
      rewrite ?lookup_insert_eq, ?lookup_insert_ne by done; eauto.
    - intros [= <-]. congruence.
    - intros got _ Hc. destruct (Hn (full (chans s))); [unfold tokens; solve_submseteq|]. apply elem_full. eauto.
    - intros got [= <-] E. by destruct (Hg _ E).
    - intros got _ Er. destruct (Hn [t]); [unfold tokens; rewrite Er; cbn; solve_submseteq|by left]. }
  unfold beginRequest. destruct d; [by apply Hnew|].
  destruct (Hnew (Sender (nextSeq (requestSeq s)) (nextRequestID (nextSeq (requestSeq s))) m (paramsOrEmpty p) SRegister)) as [H1 H2 H3 H4 H5 H6];
    [done|done|]. by split.
Qed.

Lemma origins_read tr s o k :
  origins_inv tr s → tokens_inv s → reader s = RIdle →
  origins_inv (tr ++ [ERead o k]) (readLoop decode loginID processHandle turnID o k s).
Proof using Type.
  intros Hi Ht Er. assert (ERead o k ∈ tr ++ [ERead o k]) as Hin by (apply elem_of_app; right; by left).
  unfold readLoop, deliverResponse, routeNotification. destruct (readMessage decode o) as [msg|err0] eqn:Em; cycle 1.
  { eapply origins_frame; [exact Hi|done|cbn; eauto..]; [done|]. intros err [[= <-]|[l [=]]]. right. left. eauto. }
  destruct (negb (bytes_eqb (MMethod msg) [])) eqn:Emm; cbn [andb].
  { destruct (negb (bytes_eqb (ID msg) [])); [eapply origins_frame; [exact Hi|done|cbn; eauto..]; [done|by intros err [[=]|[l [=]]]]|].
    destruct (Router.route _ _ _ _ _ _ _) as [st [e|]]; cbn; (eapply origins_frame; [exact Hi|done|cbn; eauto..]).
    - done.
    - intros err [[= <-]|[l [=]]]. right. left. eauto 10. }
  apply negb_false_iff, bytes_eqb_eq in Emm. destruct (responses s !! ID msg) as [ch|] eqn:Ech; cbn.
  - destruct (ti_table _ Ht _ _ Ech) as (x & Hx & Eid & Hl). eapply origins_frame; [exact Hi|done|cbn; eauto..].
    + intros ch' x' got Hx' [= <- <-]. right. rewrite Hx in Hx'. injection Hx' as <-. exists tr, o, k, [].
      split_and!; [done|by eapply (oi_listed _ _ Hi)|done|done|done].
    + by intros err [[=]|[l [=]]].
  - eapply origins_frame; [exact Hi|done|cbn; eauto..].
Qed.

(** A send puts the error of its thread, or the response, into the channel. *)
Lemma origins_send tr e s ch got s1 s' :
  origins_inv tr s → send ch got s = Some s1 → (∀ x, senders s !! ch = Some x → origin tr ch (s_id x) got) →
  senders s' = senders s1 → chans s' = chans s1 →
  (∀ ch' got', reader s' = RDeliver ch' got' → reader s = RDeliver ch' got') →
  (∀ err, (reader s' = RErr err ∨ ∃ l, reader s' = RFail l err) → (reader s = RErr err ∨ ∃ l, reader s = RFail l err)) →
  (closer s' ≠ CIdle → closer s ≠ CIdle) → origins_inv (tr ++ [e]) s'.
Proof using Type.
  intros Hi Hs Ho Es Ec Hd He Hcl. unfold send in Hs. destruct (chans s !! ch) eqn:E; [done|]. injection Hs as <-. cbn in *.
  eapply origins_frame; [exact Hi|done|..]; eauto.
  rewrite Ec. intros t x g Hx [[-> ->]|[_ H]]%lookup_insert_Some; [right; by apply origin_snoc, Ho|by left].
Qed.

Lemma origins_step tr s e s' : origins_inv tr s → tokens_inv s → step s e = Some s' → origins_inv (tr ++ [e]) s'.
Proof using Type.
  intros Hi Ht Hs. destruct e as [t m p d|t|t o|t|t|t|m p o|o k|r|o|l| | | |l| | |o].
  - cbn in Hs. destruct (senders s !! t) eqn:Hf; [done|]. injection Hs as <-. by apply origins_begin.
  - cbn in Hs. destruct (senders s !! t) as [x|] eqn:Hx; [|done]. crack_step Hs.
    eapply origins_pc; [exact Hi|exact Hx|reflexivity|done|done|done|auto|done].
  - cbn in Hs. destruct (senders s !! t) as [x|] eqn:Hx; [|done]. crack_step Hs;
      (eapply origins_pc; [exact Hi|exact Hx|reflexivity|done|done|done|rewrite E; auto|done]).
  - cbn in Hs. destruct (senders s !! t) as [x|] eqn:Hx; [|done]. crack_step Hs.
    eapply origins_pc; [exact Hi|exact Hx|reflexivity|apply delete_subseteq|done|done|done|by intros got [= <-]].
  - cbn in Hs. destruct (senders s !! t) as [x|] eqn:Hx; [|done]. crack_step Hs.
    eapply origins_pc; [exact Hi|exact Hx|reflexivity|done|done|done|rewrite E; auto|done].
  - cbn in Hs. destruct (senders s !! t) as [x|] eqn:Hx; [|done]. crack_step Hs.
    eapply origins_pc; [exact Hi|exact Hx|reflexivity|done|done|done|done|done].
  - injection Hs as <-. unfold writeMessage. destruct o; try destruct (transport s); cbn; (eapply origins_frame; [exact Hi|done|cbn; eauto..]).
  - cbn in Hs. unfold reader_step in Hs. destruct (reader s) eqn:Er; try discriminate Hs. injection Hs as <-. by apply origins_read.
  - crack_step Hs. eapply origins_frame; [exact Hi|done|cbn; eauto..]; [done|by intros err [[=]|[l [=]]]].
  - unfold CodexClient.step, reader_step in Hs. destruct (reader s) as [| | |id r| | |] eqn:Er; try discriminate Hs.
    assert (∃ s1 err, writeMessage (WReply id r) o s = (s1, err)) as (s1 & err & Ew) by (destruct (writeMessage _ _ _); eauto).
    rewrite Ew in Hs. injection Hs as <-.
    assert (senders s1 = senders s ∧ chans s1 = chans s ∧ closer s1 = closer s) as (E1 & E2 & E3)
      by (unfold writeMessage in Ew; destruct o; try destruct (transport s); by injection Ew as <- _).
    eapply origins_frame; [exact Hi|done|cbn; rewrite ?E2, ?E3; eauto..]; [by destruct err|].
    destruct err as [err|]; [|by intros err0 [[=]|[l [=]]]]. intros err' [[= <-]|[l [=]]]. right. right. left.
    eexists _, _, _, _. split; [apply elem_of_app; right; by left|exact Ew].
  - crack_step Hs. eapply origins_frame; [exact Hi|done|cbn; eauto..]; [done|]. intros err' [[=]|[l' [= _ <-]]]. left. by left.
  - cbn in Hs. destruct (reader s) as [|ch got| | | |[|ch l] err|] eqn:Er; try discriminate Hs; apply fmap_Some in Hs as (s1 & Hs1 & ->).
    + eapply (origins_send tr _ s ch got); [exact Hi|exact Hs1|intros x Hx; by eapply (oi_deliver _ _ Hi)|done|done|done|by intros err0 [[=]|[l [=]]]|].
      cbn. unfold send in Hs1. destruct (chans s !! ch); [done|]. by injection Hs1 as <-.
    + eapply (origins_send tr _ s ch (Failed err)); [exact Hi|exact Hs1|intros x Hx; cbn; apply (oi_reader _ _ Hi); eauto|done|done|done| |].
      * cbn. intros err' [[=]|[l' [= _ <-]]]. right. eauto.
      * cbn. unfold send in Hs1. destruct (chans s !! ch); [done|]. by injection Hs1 as <-.
  - crack_step Hs. eapply origins_frame; [exact Hi|done|cbn; eauto..]; [done|by intros err0 [[=]|[l [=]]]].
  - crack_step Hs; (eapply origins_frame; [exact Hi|done|cbn; eauto..]; intros _; right; apply elem_of_app; right; by left).
  - crack_step Hs. eapply origins_frame; [exact Hi|done|cbn; eauto..]. intros _. left. congruence.
  - cbn in Hs. destruct (closer s) as [| |[|ch l]|] eqn:Er; try discriminate Hs. apply fmap_Some in Hs as (s1 & Hs1 & ->).
    assert (reader s1 = reader s) as E by (unfold send in Hs1; destruct (chans s !! ch); [done|]; by injection Hs1 as <-).
    eapply (origins_send tr _ s ch); [exact Hi|exact Hs1| |done|done|cbn; rewrite E; eauto..|congruence].
    intros x Hx. cbn. right. right. split; [|done]. apply (oi_closer _ _ Hi). congruence.
  - crack_step Hs. eapply origins_frame; [exact Hi|done|cbn; eauto..]. intros _. left. congruence.
  - crack_step Hs. eapply origins_frame; [exact Hi|done|cbn; eauto..].
Qed.

Lemma client_origins tr s : (Z.of_nat (sends tr) < 2 ^ 64)%Z → run newClient tr = Some s → origins_inv tr s.
Proof using Type.
  induction tr as [|e tr IH] using rev_ind in s |- *; intros Hlt.
  - intros [= <-]. split; cbn; try (by intros ? ? ?); try done. by intros err [[=]|[l [=]]].
  - rewrite sends_app in Hlt. rewrite client_run_app. destruct (run newClient tr) as [s1|] eqn:E; [|done]. cbn.
    destruct (step s1 e) as [s2|] eqn:E2; [|done]. intros [= <-].
    eapply origins_step; [apply IH; [lia|done]|eapply client_reachable; [|exact E]; lia|done].
Qed.

(** ** Requests that were taken out of the table *)

(** Registered once, and not in the table any more. *)
Definition taken (s : client) (t : nat) : Prop :=
  (t ∉ values (responses s)) ∧ ∃ x, senders s !! t = Some x ∧ s_pc x ≠ SRegister.

Lemma step_registered s e s' t x :
  step s e = Some s' → senders s !! t = Some x → s_pc x ≠ SRegister → ∃ x', senders s' !! t = Some x' ∧ s_pc x' ≠ SRegister.
Proof using Type.
  intros Hs Hx Hp.
  assert (∀ u pc y, senders s !! u = Some y → pc ≠ SRegister → ∃ x', senders (goSender u y pc s) !! t = Some x' ∧ s_pc x' ≠ SRegister) as Hg.
  { intros u pc y Hu Hpc. cbn. destruct (decide (u = t)) as [->|Hn]; [rewrite lookup_insert_eq|rewrite lookup_insert_ne by done]; eauto. }
  destruct e as [t' m p d|t'|t' o|t'|t'|t'|m p o|o k|r|o|l| | | |l| | |o].
  { cbn in Hs. destruct (senders s !! t') eqn:Hf; [done|]. injection Hs as <-. exists x. split; [|done].
    unfold beginRequest. destruct d; cbn; rewrite lookup_insert_ne by (intros ->; congruence); done. }
  1-5: cbn in Hs; destruct (senders s !! t') as [y|] eqn:Hy; [|done]; crack_step Hs; eapply (Hg t'); done.
  all: exists x; split; [|done]; unfold CodexClient.step in Hs; crack_step Hs; done.
Qed.

(** What a step adds to the table and to the lists of the threads that send. *)
Lemma step_lists s e s' t :
  step s e = Some s' → taken s t →
  (t ∉ values (responses s')) ∧ (t ∉ closerSends (closer s) → t ∉ closerSends (closer s')) ∧
  (t ∉ readerSends (reader s) → t ∉ readerSends (reader s')).
Proof using Type.
  intros Hs [Hv (x & Hx & Hp)]. rewrite elem_values in *.
  assert (∀ ch, responses s !! ch ≠ Some t) as Hne by (intros id E; apply Hv; eauto).
  assert (∀ (m : gmap bytes nat), m ⊆ responses s → ¬ ∃ id, m !! id = Some t) as Hsub.
  { intros m Hm [id H]. apply Hv. exists id. by eapply lookup_weaken. }
  destruct e as [t' m p d|t'|t' o|t'|t'|t'|m p o|o k|r|o|l| | | |l| | |o].
  { cbn in Hs. destruct (senders s !! t') eqn:Hf; [done|]. injection Hs as <-. unfold beginRequest. by destruct d. }
  { cbn in Hs. destruct (senders s !! t') as [y|] eqn:Hy; [|done]. crack_step Hs. cbn. split_and!; [|done|done].
    intros [id H]. apply lookup_insert_Some in H as [[_ ->]|[_ H]]; [congruence|eauto]. }
  1-4: cbn in Hs; destruct (senders s !! t') as [y|] eqn:Hy; [|done]; crack_step Hs; cbn; split_and!; try done; apply Hsub, delete_subseteq.
  all: unfold CodexClient.step in Hs; crack_step Hs; cbn;
    repeat match goal with E : reader _ = _ |- _ => rewrite E | E : closer _ = _ |- _ => rewrite E end; cbn; split_and!;
    try done; try (by apply Hsub, map_empty_subseteq); try (by apply Hsub, delete_subseteq);
    try (intros _; match goal with p : _ ≡ₚ values _ |- _ => rewrite p; by rewrite elem_values end);
    try (rewrite ?not_elem_of_cons; tauto).
  - rewrite list_elem_of_singleton. intros _ ->. eauto.
Qed.

Lemma taken_step s e s' t : step s e = Some s' → taken s t → taken s' t.
Proof using Type.
  intros Hs Ht. split; [by eapply step_lists|]. destruct Ht as [_ (x & Hx & Hp)]. by eapply step_registered.
Qed.

Lemma sends_prefix tr tr' : sends tr ≤ sends (tr ++ tr').
Proof using Type. unfold sends. induction tr as [|e tr IH]; cbn; lia. Qed.

(** ** Properties *)

(** A request that returns what its channel gave returns the response with its own
    identifier, read after it had registered, or an error of the connection that did
    occur; and up to 2^64 requests no two of them share an identifier. *)
Theorem answers_match tr s t x got :
  run newClient tr = Some s → (Z.of_nat (sends tr) < 2 ^ 64)%Z →
  senders s !! t = Some x → s_pc x = SDone (Received got) →
  origin tr t (s_id x) got ∧ ∀ t' x', senders s !! t' = Some x' → s_id x' = s_id x → t' = t.
Proof using Type.
  intros Hr Hlt Hx Hp. destruct (client_reachable _ _ Hlt Hr) as [Hn _]. split.
  - by eapply (oi_result _ _ (client_origins _ _ Hlt Hr)).
  - intros t' x' Hx' E. symmetry. eapply client_numbers_ids; [exact Hn|exact Hx|exact Hx'|congruence|done].
Qed.

(** C11: channels have room for one value and sends on them block, but no send of the
    read loop or of [Close] ever finds its channel full; and a request between its
    registration and its return is in the table, in the list of a thread that is about
    to send to it, or has its result: it is never forgotten. *)
Theorem sends_never_block tr s :
  run newClient tr = Some s → (Z.of_nat (sends tr) < 2 ^ 64)%Z →
  (∀ ch got, reader s = RDeliver ch got → is_Some (step s EReaderSend)) ∧
  (∀ ch l err, reader s = RFail (ch :: l) err → is_Some (step s EReaderSend)) ∧
  (∀ ch l, closer s = CFail (ch :: l) → is_Some (step s ECloserSend)) ∧
  (∀ t x, senders s !! t = Some x → waiting (s_pc x) = true →
    responses s !! s_id x = Some t ∨ t ∈ readerSends (reader s) ∨ t ∈ closerSends (closer s) ∨ is_Some (chans s !! t)).
Proof using Type.
  intros Hr Hlt. destruct (client_reachable _ _ Hlt Hr) as [_ [Ho Ht Hw Hx]]. unfold tokens in Ho.
  assert (∀ ch, ch ∈ readerSends (reader s) ++ closerSends (closer s) → chans s !! ch = None) as Hroom.
  { intros ch Hin. apply eq_None_not_Some. rewrite <-elem_full. intros Hf. rewrite (app_assoc (readerSends _)) in Ho.
    apply NoDup_app in Ho as (_ & _ & Ho). apply NoDup_app in Ho as (_ & Ho & _). by apply (Ho ch). }
  split_and!.
  - intros ch got E. cbn. rewrite E. unfold send. rewrite Hroom by (rewrite E; apply elem_of_app; left; by left). eauto.
  - intros ch l err E. cbn. rewrite E. unfold send. rewrite Hroom by (rewrite E; apply elem_of_app; left; by left). eauto.
  - intros ch l E. cbn. rewrite E. unfold send. rewrite Hroom by (rewrite E; apply elem_of_app; right; by left). eauto.
  - intros t x Hs Hwt. specialize (Hx t x Hs Hwt). unfold tokens in Hx. rewrite !elem_of_app, elem_full, elem_values in Hx.
    destruct Hx as [[id H]|?]; [left|tauto]. destruct (Ht _ _ H) as (y & Hy & <- & _). congruence.
Qed.

(** C12: when the read loop has ended, or [Close] has passed [failPending], every
    request that was in the table by then has returned, gives up on its own, or finds
    a result in its channel. *)
Theorem disconnect_releases tr1 e tr2 s1 s id t x :
  run newClient tr1 = Some s1 → responses s1 !! id = Some t →
  run newClient (tr1 ++ e :: tr2) = Some s → (Z.of_nat (sends (tr1 ++ e :: tr2)) < 2 ^ 64)%Z →
  (∃ order, e = EFailPending order ∧ reader s = RDone) ∨ (∃ order, e = ECloserFail order ∧ closer s = CDone) →
  senders s !! t = Some x → waiting (s_pc x) = true → is_Some (chans s !! t).
Proof using Type.
  intros H1 Hid Hr Hlt Hend Hx Hw. destruct (client_reachable _ _ Hlt Hr) as [_ Hi]. pose proof (ti_waiting _ Hi _ _ Hx Hw) as Hin.
  rewrite client_run_app, H1 in Hr. cbn in Hr. destruct (step s1 e) as [s2|] eqn:Hs; [|done].
  assert (Z.of_nat (sends (tr1 ++ [e])) < 2 ^ 64)%Z as Hlt2.
  { pose proof (sends_prefix (tr1 ++ [e]) tr2) as Hle. rewrite <-app_assoc in Hle. cbn [app] in Hle. lia. }
  assert (run newClient (tr1 ++ [e]) = Some s2) as H2 by (rewrite client_run_app, H1; cbn; by rewrite Hs).
  destruct (client_reachable _ _ Hlt2 H2) as [_ [Ho2 Ht2 Hw2 _]]. assert (t ∈ values (responses s1)) as Hv by (apply elem_values; eauto).
  assert (∀ P : client → list nat, (∀ u e v, step u e = Some v → taken u t → t ∉ P u → t ∉ P v) → t ∉ P s2 → taken s2 t → taken s t ∧ t ∉ P s) as Hkeep.
  { intros P HP HP2 Ht. refine (client_keeps (λ u, taken u t ∧ t ∉ P u) tr2 s2 s _ _ Hr); [|done].
    intros u e' v [Hu Hu'] Hst. split; [by eapply taken_step|by eapply HP]. }
  assert (∀ l, l ≡ₚ values (responses s1) → l ⊆+ tokens s2 → ∃ y, senders s2 !! t = Some y ∧ s_pc y ≠ SRegister) as Hreg.
  { intros l Hl Hsub. destruct (Hw2 t) as (y & Hy & Hyr); [eapply elem_of_submseteq; [|done]; by rewrite Hl|].
    exists y. split; [done|]. by intros E; rewrite E in Hyr. }
  unfold tokens in Hin, Ho2. rewrite !elem_of_app, elem_full in Hin.
  destruct Hend as [(order & -> & Hd)|(order & -> & Hd)]; cbn in Hs; rewrite Hd in Hin; cbn in Hin.
  - destruct (reader s1); try discriminate Hs. case_decide as Hp; [|done]. injection Hs as <-. cbn in *.
    destruct (Hkeep (λ u, closerSends (closer u))) as [[Hn _] Hc].
    + intros u e' v Hst Hu. by eapply step_lists.
    + cbn. apply NoDup_app in Ho2 as (_ & _ & Ho2). apply NoDup_app in Ho2 as (_ & Ho2 & _). intros Hc.
      apply (Ho2 t); [by rewrite Hp|apply elem_of_app; by left].
    + split; [unfold values; cbn; rewrite map_to_list_empty; by apply not_elem_of_nil|]. apply (Hreg order Hp). unfold tokens. cbn. solve_submseteq.
    + rewrite elem_of_nil in Hin. tauto.
  - destruct (closer s1); try discriminate Hs. case_decide as Hp; [|done]. injection Hs as <-. cbn in *.
    destruct (Hkeep (λ u, readerSends (reader u))) as [[Hn _] Hc].
    + intros u e' v Hst Hu. by eapply step_lists.
    + cbn. apply NoDup_app in Ho2 as (_ & _ & Ho2). apply NoDup_app in Ho2 as (_ & Ho2 & _). intros Hc.
      apply (Ho2 t); [done|]. apply elem_of_app. left. by rewrite Hp.
    + split; [unfold values; cbn; rewrite map_to_list_empty; by apply not_elem_of_nil|]. apply (Hreg order Hp). unfold tokens. cbn. solve_submseteq.
    + rewrite elem_of_nil in Hin. tauto.
Qed.

(** ** Notifications *)

(** What an event is for the router: a notification that was read, a call of a
    consumer, or a close. *)
Definition routerOp (e : event) : option (Router.op (T := Notification)) :=
  match e with
  | ERead o k =>
      match readMessage decode o with
      | Ok msg => if negb (bytes_eqb (MMethod msg) []) && bytes_eqb (ID msg) []
                  then Some (Router.Route (MkNotification (MMethod msg) (MParams msg)) k) else None
      | Err _ => None
      end
  | EReaderReturn => Some (Router.Close (Some Router.streamClosed))
  | EClose => Some (Router.Close (Some (Router.TransportClosedError "app-server closed")))
  | EConsume o => Some o
  | _ => None
  end.

Definition routerOps (tr : list event) : list Router.op := omap routerOp tr.

(** The answers to the calls of consumers among the answers to all operations. *)
Fixpoint consumed (os : list (Router.op (T := Notification))) (rs : list (Router.response (T := Notification))) : list Router.response :=
  match os, rs with
  | o :: os, r :: rs => if consumes o then r :: consumed os rs else consumed os rs
  | _, _ => []
  end.

Abbreviation rstep := (Router.step zeroNotification loginID processHandle turnID).
Abbreviation rrun := (Router.run zeroNotification loginID processHandle turnID).

Lemma router_run_snoc os o st :
  rrun (os ++ [o]) st = ((rstep o (rrun os st).1).1, (rrun os st).2 ++ [(rstep o (rrun os st).1).2]).
Proof using Type.
  revert st. induction os as [|o' os IH]; intros st; cbn; [by destruct (rstep o st)|].
  destruct (rstep o' st) as [st' r]. rewrite IH. by destruct (rrun os st').
Qed.

Lemma router_run_length os st : length (rrun os st).2 = length os.
Proof using Type.
  revert st. induction os as [|o os IH]; intros st; cbn; [done|]. destruct (rstep o st) as [st' r]. specialize (IH st').
  destruct (rrun os st'). cbn in *. lia.
Qed.

Lemma consumed_snoc os o rs r :
  length rs = length os → consumed (os ++ [o]) (rs ++ [r]) = consumed os rs ++ (if consumes o then [r] else []).
Proof using Type.
  revert rs. induction os as [|o' os IH]; intros [|r' rs] Hl; try discriminate Hl; cbn; [by destruct (consumes o)|].
  injection Hl as Hl. rewrite IH by done. by destruct (consumes o').
Qed.

(** A step acts on the router as its operation does. *)
Lemma step_router s e s' :
  step s e = Some s' → (closer s = CIdle → transport s = true) →
  match routerOp e with
  | Some o => router s' = (rstep o (router s)).1 ∧ answers s' = answers s ++ (if consumes o then [(rstep o (router s)).2] else [])
  | None => router s' = router s ∧ answers s' = answers s
  end ∧ (closer s' = CIdle → transport s' = true).
Proof using Type.
  intros Hs Ht. destruct e as [t m p d|t|t o|t|t|t|m p o|o k|r|o|l| | | |l| | |o].
  1: cbn in Hs; destruct (senders s !! t); [done|]; injection Hs as <-; unfold beginRequest; by destruct d.
  1-5: cbn in Hs; destruct (senders s !! t) as [x|] eqn:Hx; [|done]; crack_step Hs; cbn; (split; [done|intros Hc; specialize (Ht Hc); congruence]).
  1: injection Hs as <-; cbn; unfold writeMessage; destruct o; try destruct (transport s) eqn:E; cbn; rewrite ?E; done.
  1: { cbn in Hs. unfold reader_step in Hs. destruct (reader s); try discriminate Hs. injection Hs as <-.
    cbn. unfold readLoop, deliverResponse, routeNotification. destruct (readMessage decode o) as [msg|err]; [|done].
    destruct (bytes_eqb (MMethod msg) []), (bytes_eqb (ID msg) []); cbn; try (destruct (responses s !! ID msg); done).
    destruct (Router.route _ _ _ _ _ _ _) as [st [e|]]; cbn; rewrite app_nil_r; done. }
  all: unfold CodexClient.step in Hs; crack_step Hs; cbn; rewrite ?app_nil_r; try done.
  all: try (by specialize (Ht eq_refl)).
  1-2: split; [done|intros Hc; specialize (Ht Hc); congruence].
  split; [|done]. destruct (consumes o); [|done]. by rewrite E0.
Qed.

(** C13: what the consumers of a client get, in every interleaving with requests, replies
    and [Close], is what the abstract router of bounded mailboxes answers to their calls
    and to the notifications in the order in which the read loop read them. *)
Theorem notifications_delivered tr s :
  run newClient tr = Some s →
  router s = (rrun (routerOps tr) Router.newTurnNotificationRouter).1 ∧
  answers s = consumed (routerOps tr)
    (Router.srun zeroNotification loginID processHandle turnID (routerOps tr) (Router.Spec (λ _, ([], 0)) (λ _, false) [] None)).2.
Proof using Type.
  intros Hr. destruct (Router.run_refines zeroNotification loginID processHandle turnID (routerOps tr) _ _ (Router.repr_new zeroNotification)) as [_ <-].
  enough ((router s = (rrun (routerOps tr) Router.newTurnNotificationRouter).1 ∧
    answers s = consumed (routerOps tr) (rrun (routerOps tr) Router.newTurnNotificationRouter).2) ∧ (closer s = CIdle → transport s = true)) by tauto.
  refine (client_invariant (λ tr s, (router s = (rrun (routerOps tr) _).1 ∧ answers s = consumed (routerOps tr) (rrun (routerOps tr) _).2) ∧
    (closer s = CIdle → transport s = true)) tr s _ _ Hr); [done|].
  intros tr0 s0 e s1 [[IHr IHa] Ht] Hs. destruct (step_router s0 e s1 Hs Ht) as [Hst Ht']. split; [|done].
  unfold routerOps. rewrite omap_app. cbn. fold (routerOps tr0). destruct (routerOp e) as [o|]; cbn.
  - rewrite router_run_snoc. cbn. rewrite consumed_snoc, <-IHr, <-IHa by apply router_run_length. done.
  - rewrite app_nil_r. destruct Hst as [-> ->]. done.
Qed.

(** A request that waits after the read loop has ended, with nobody left to tell it. *)
Definition stranded (s : client) (t : nat) : Prop :=
  reader s = RDone ∧ closer s = CIdle ∧ chans s !! t = None ∧ ∃ x, senders s !! t = Some x ∧ s_pc x = SWait.

Lemma stranded_step s e s' t : step s e = Some s' → e ≠ EClose → e ≠ EDone t → stranded s t → stranded s' t.
Proof using Type.
  intros Hs He Hd (Hr & Hc & Hch & x & Hx & Hp).
  destruct e as [t' m p d|t'|t' o|t'|t'|t'|m p o|o k|r|o|l| | | |l| | |o].
  { cbn in Hs. destruct (senders s !! t') eqn:Hf; [done|]. injection Hs as <-. unfold beginRequest.
    destruct d; split_and!; try done; exists x; (split; [|done]); cbn; by rewrite lookup_insert_ne by (intros ->; congruence). }
  1-5: assert (t' ≠ t ∨ t' = t) as [Hne| ->] by lia; cbn in Hs;
    [destruct (senders s !! t') as [y|] eqn:Hy; [|done]; crack_step Hs; (split_and!; [done|done|cbn; rewrite ?lookup_delete_ne by done; done|]);
       exists x; (split; [|done]); cbn; by rewrite lookup_insert_ne
    |rewrite Hx in Hs; cbn in Hs; unfold sender_step in Hs; rewrite Hp in Hs; try discriminate Hs; try congruence; by rewrite ?Hch in Hs].
  all: unfold CodexClient.step, reader_step, closer_step in Hs; rewrite ?Hr, ?Hc in Hs; crack_step Hs; try done; split_and!; eauto.
Qed.
End spec.

(** ** Runs *)

(** Lines whose first byte tells a response from a notification and whose rest is the
    identifier or the method. *)
Definition demo (line : bytes) : option rpcMessage :=
  match line with
  | 1%Z :: id => Some (Msg id [] [] (str "ok") None)
  | 2%Z :: method => Some (Msg [] method [] [] None)
  | _ => None
  end.

Definition stateOf (tr : list event) : client := default newClient (run demo (λ _, None) (λ _, []) (λ n, Method n) newClient tr).

Definition request1 : list event := [ESend 0 (str "thread/start") None false; ERegister 0; EWrite 0 Written].
Definition response1 : list event := request1 ++ [ERead (Line (1%Z :: str "go-sdk-1")) (0, 0); EReaderSend; EReceive 0].

Lemma answers_match_witness :
  let x := Sender 1 (str "go-sdk-1") (str "thread/start") (str "{}") (SDone (Received (Answer (Msg (str "go-sdk-1") [] [] (str "ok") None)))) in
  senders (stateOf response1) !! 0 = Some x ∧ answered demo response1 0 (str "go-sdk-1") (Msg (str "go-sdk-1") [] [] (str "ok") None).
Proof.
  intros x. split; [vm_compute; reflexivity|].
  refine (proj1 (answers_match demo (λ _, None) (λ _, []) (λ n, Method n) response1 (stateOf response1) 0 x (Answer (Msg (str "go-sdk-1") [] [] (str "ok") None)) _ _ _ _));
    vm_compute; reflexivity.
Defined.

Definition response1' : list event := request1 ++ [ERead (Line (1%Z :: str "go-sdk-1")) (0, 0)].

Lemma sends_never_block_witness :
  is_Some (CodexClient.step demo (λ _, None) (λ _, []) (λ n, Method n) (stateOf response1') EReaderSend).
Proof.
  destruct (sends_never_block demo (λ _, None) (λ _, []) (λ n, Method n) response1' (stateOf response1')) as [H _]; [vm_compute; reflexivity..|].
  apply (H 0 (Answer (Msg (str "go-sdk-1") [] [] (str "ok") None))). vm_compute. reflexivity.
Defined.

(** The stream ends while a request waits. *)
Definition eof : event := ERead (EOF []) (0, 0).
Definition told1 : list event := [EReaderSend; EReaderReturn].

Lemma disconnect_releases_witness : is_Some (chans (stateOf ((request1 ++ [eof]) ++ EFailPending [0] :: told1)) !! 0).
Proof.
  apply (disconnect_releases demo (λ _, None) (λ _, []) (λ n, Method n) (request1 ++ [eof]) (EFailPending [0]) told1 (stateOf (request1 ++ [eof])) _
    (str "go-sdk-1") 0 (Sender 1 (str "go-sdk-1") (str "thread/start") (str "{}") SWait)); try (vm_compute; reflexivity).
  left. exists [0]. split; [reflexivity|]. vm_compute. reflexivity.
Defined.

(** A consumer that registers after its notification was read. *)
Definition turn1 : list event :=
  [ERead (Line (2%Z :: str "t")) (0, 0); EConsume (Router.Register (Router.Turn (str "t"))); EConsume (Router.Next (Router.Turn (str "t")))].

Lemma notifications_delivered_witness :
  answers (stateOf turn1) = [Router.Done None; Router.Received (MkNotification (str "t") [], None)].
Proof.
  destruct (notifications_delivered demo (λ _, None) (λ _, []) (λ n, Method n) turn1 (stateOf turn1)) as [_ ->]; vm_compute; reflexivity.
Defined.

(** The read loop ends on a line that is no message and leaves the transport in place: a
    request made after that is written, and waits until its context is done or [Close]
    is called, whatever else happens. *)
Definition lost : list event := [ERead (Line []) (0, 0); EFailPending []; EReaderReturn] ++ request1.

Theorem late_request_waits tr' s' :
  CodexClient.run demo (λ _, None) (λ _, []) (λ n, Method n) (stateOf lost) tr' = Some s' → EClose ∉ tr' → EDone 0 ∉ tr' → stranded s' 0.
Proof.
  assert (stranded (stateOf lost) 0) as Hi by (split_and!; [vm_compute; reflexivity..|eexists; split; [vm_compute; reflexivity|done]]).
  revert Hi. generalize (stateOf lost). induction tr' as [|e tr' IH]; intros s Hi; cbn; [by intros [= <-]|].
  destruct (CodexClient.step _ _ _ _ s e) as [s1|] eqn:E; [|done]. intros Hr [Hc1 Hc2]%not_elem_of_cons [Hd1 Hd2]%not_elem_of_cons.
  eapply IH; [|done..]. by eapply stranded_step.
Qed.
End CodexClientSpec.
