(* ===== verification/CodexRun.v ===== *)
(** What a turn comes to (run.go and the waiting loops of client.go of
    pkg/llm/codex), and the time limits of [Close].

    The loops read what [nextTurnNotification] answers, call after call; [None] is a
    loop that waits for its next answer.  The typed decoders of notifications and the
    types they decode are parameters: a decoder fails, says that the notification is
    another one, or gives the turn it is about and its content. *)
From S2P Require Import Prelude GoUtf8 GoStrconv CodexScan.

Module CodexRun.
Import Scanner.

(** [decodedThreadItem]. *)
Record decodedThreadItem := Item { Type_ : bytes; Text : bytes; Phase : bytes }.

Definition agentMessage (item : decodedThreadItem) : bool :=
  if bytes_eqb (Type_ item) (str "agentMessage") || bytes_eqb (Type_ item) (str "agent_message") then true
  else negb (bytes_eqb (Text item) []) && bytes_eqb (Type_ item) [].

Definition isFinal (item : decodedThreadItem) : bool :=
  bytes_eqb (Phase item) (str "final_answer") || bytes_eqb (Phase item) (str "finalAnswer").

Definition TurnStatusFailed : bytes := str "failed".

Section run.
Context {E ThreadItem ThreadTokenUsage TurnError : Type}.

(** The fields of [Turn] that are used. *)
Record Turn := MkTurn { TurnID : bytes; Status : bytes; Error : TurnError }.

Record RunResult := Result { FinalResponse : bytes; Items : list ThreadItem; Usage : option ThreadTokenUsage; RTurn : Turn }.

(** An error of the client or of a decoder, or [TurnFailedError]. *)
Inductive error :=
| Failure (e : E)
| TurnFailedError (turnID status : bytes) (err : TurnError).

Context (ItemCompleted : Notification → result E (option (bytes * ThreadItem))).
Context (ThreadTokenUsageUpdated : Notification → result E (option (bytes * ThreadTokenUsage))).
Context (TurnCompleted : Notification → result E (option Turn)).
Context (decodeThreadItem : ThreadItem → option decodedThreadItem).

(** The loop over the items from the last to the first; [unknown] is the text of the
    first message without a phase it met. *)
Fixpoint finalAssistantResponse_loop (items : list ThreadItem) (unknown : option bytes) : bytes :=
  match items with
  | [] => default [] unknown
  | raw :: items =>
      match decodeThreadItem raw with
      | None => finalAssistantResponse_loop items unknown
      | Some item =>
          if negb (agentMessage item) then finalAssistantResponse_loop items unknown
          else if isFinal item then Text item
          else finalAssistantResponse_loop items
                 (match unknown with None => if bytes_eqb (Phase item) [] then Some (Text item) else None | Some t => Some t end)
      end
  end.

Definition finalAssistantResponse (items : list ThreadItem) : bytes := finalAssistantResponse_loop (reverse items) None.

Definition finish (turnID : bytes) (items : list ThreadItem) (usage : option ThreadTokenUsage) (t : Turn) : result error RunResult :=
  if bytes_eqb (Status t) TurnStatusFailed then Err (TurnFailedError turnID (Status t) (Error t))
  else Ok (Result (finalAssistantResponse items) items usage t).

(** [v, ok, err := decode(notif)] and the test that it is about this turn. *)
Definition about {A} (turnID : bytes) (r : option (bytes * A)) : option A :=
  match r with Some (id, a) => if bytes_eqb id turnID then Some a else None | None => None end.

Fixpoint collectRunResult_loop (turnID : bytes) (answers : list (result E Notification)) (items : list ThreadItem)
    (usage : option ThreadTokenUsage) : option (result error RunResult) :=
  match answers with
  | [] => None
  | Err e :: _ => Some (Err (Failure e))
  | Ok notif :: answers =>
      match ItemCompleted notif with
      | Err e => Some (Err (Failure e))
      | Ok r =>
          match about turnID r with
          | Some item => collectRunResult_loop turnID answers (items ++ [item]) usage
          | None =>
              match ThreadTokenUsageUpdated notif with
              | Err e => Some (Err (Failure e))
              | Ok r =>
                  match about turnID r with
                  | Some snapshot => collectRunResult_loop turnID answers items (Some snapshot)
                  | None =>
                      match TurnCompleted notif with
                      | Err e => Some (Err (Failure e))
                      | Ok (Some t) => if bytes_eqb (TurnID t) turnID then Some (finish turnID items usage t)
                                       else collectRunResult_loop turnID answers items usage
                      | Ok None => collectRunResult_loop turnID answers items usage
                      end
                  end
              end
          end
      end
  end.

Definition collectRunResult (turnID : bytes) (answers : list (result E Notification)) : option (result error RunResult) :=
  collectRunResult_loop turnID answers [] None.

(** The loop of [WaitForTurnCompleted], between the registration of its consumer and
    the clearing of what is pending. *)
Fixpoint waitForTurnCompleted (turnID : bytes) (answers : list (result E Notification)) : option (result E Turn) :=
  match answers with
  | [] => None
  | Err e :: _ => Some (Err e)
  | Ok notif :: answers =>
      match TurnCompleted notif with
      | Err e => Some (Err e)
      | Ok (Some t) => if bytes_eqb (TurnID t) turnID then Some (Ok t) else waitForTurnCompleted turnID answers
      | Ok None => waitForTurnCompleted turnID answers
      end
  end.

(** ** What the loops compute *)

(** A notification as the loop takes it: an error of the first decoder that is asked
    and fails, an item, a usage, the end of the turn, or something else. *)
Inductive seen :=
| Broken (e : E)
| AnItem (i : ThreadItem)
| AUsage (u : ThreadTokenUsage)
| Completed (t : Turn)
| Other.

Definition look (turnID : bytes) (notif : Notification) : seen :=
  match ItemCompleted notif, ThreadTokenUsageUpdated notif, TurnCompleted notif with
  | Err e, _, _ => Broken e
  | Ok i, u, t =>
      match about turnID i, u, t with
      | Some i, _, _ => AnItem i
      | None, Err e, _ => Broken e
      | None, Ok u, t =>
          match about turnID u, t with
          | Some u, _ => AUsage u
          | None, Err e => Broken e
          | None, Ok (Some t) => if bytes_eqb (TurnID t) turnID then Completed t else Other
          | None, Ok None => Other
          end
      end
  end.

Definition ongoing (s : seen) : bool := match s with Broken _ | Completed _ => false | _ => true end.
Definition itemOf (s : seen) : option ThreadItem := match s with AnItem i => Some i | _ => None end.
Definition usageOf (s : seen) : option ThreadTokenUsage := match s with AUsage u => Some u | _ => None end.

(** The agent messages of the items that satisfy a test. *)
Definition messages (p : decodedThreadItem → bool) (items : list ThreadItem) : list bytes :=
  omap (λ raw, match decodeThreadItem raw with Some i => if agentMessage i && p i then Some (Text i) else None | None => None end) items.

Lemma messages_snoc p items raw :
  messages p (items ++ [raw]) = messages p items ++ messages p [raw].
Proof using Type. unfold messages. by rewrite omap_app. Qed.

Lemma finalAssistantResponse_loop_spec items unknown :
  finalAssistantResponse_loop (reverse items) unknown =
    match last (messages isFinal items) with
    | Some t => t
    | None => match unknown with Some t => t | None => default [] (last (messages (λ i, bytes_eqb (Phase i) []) items)) end
    end.
Proof using Type.
  revert unknown. induction items as [|raw items IH] using rev_ind; intros unknown; [by destruct unknown|].
  rewrite reverse_snoc, !messages_snoc. cbn [finalAssistantResponse_loop]. unfold messages at 2 4. cbn [omap list_omap].
  destruct (decodeThreadItem raw) as [i|]; [|rewrite !app_nil_r; apply IH].
  destruct (agentMessage i); cbn [negb andb]; [|rewrite !app_nil_r; apply IH].
  destruct (isFinal i) eqn:Ef; cbn.
  - by rewrite last_snoc.
  - rewrite app_nil_r, IH. destruct (last (messages isFinal items)); [done|]. destruct unknown; [done|].
    destruct (bytes_eqb (Phase i) []); [by rewrite last_snoc|by rewrite app_nil_r].
Qed.

(** One turn of the loop. *)
Lemma collect_step turnID n rest items usage :
  collectRunResult_loop turnID (Ok n :: rest) items usage =
    match look turnID n with
    | Broken e => Some (Err (Failure e))
    | AnItem i => collectRunResult_loop turnID rest (items ++ [i]) usage
    | AUsage u => collectRunResult_loop turnID rest items (Some u)
    | Completed t => Some (finish turnID items usage t)
    | Other => collectRunResult_loop turnID rest items usage
    end.
Proof using Type. unfold look. cbn [collectRunResult_loop]. repeat case_match; simplify_eq; done. Qed.

Lemma collect_ongoing turnID ns rest items usage :
  Forall (λ n, ongoing (look turnID n) = true) ns →
  collectRunResult_loop turnID ((Ok <$> ns) ++ rest) items usage =
    collectRunResult_loop turnID rest (items ++ omap (λ n, itemOf (look turnID n)) ns)
      (from_option Some usage (last (omap (λ n, usageOf (look turnID n)) ns))).
Proof using Type.
  intros Hn. revert items usage. induction Hn as [|n ns Hn _ IH]; intros items usage; [by rewrite app_nil_r|].
  cbn [fmap list_fmap app]. rewrite collect_step. cbn [omap list_omap].
  destruct (look turnID n); try discriminate Hn; rewrite IH; cbn [itemOf usageOf]; rewrite <-?app_assoc; try done.
  f_equal. destruct (omap (λ n, usageOf (look turnID n)) ns) as [|v l]; [done|]. cbn [last]. by destruct (last (v :: l)) eqn:El; [|by apply last_None in El].
Qed.

(** C15: running a turn returns when its end arrives: with the items completed for this
    turn in order, its last usage, and as final response the last agent message marked
    as the final answer or else the last one without a phase; a failed turn is its
    error; the first failure before the end is returned; and until then it waits. *)
Theorem run_result turnID ns n rest :
  Forall (λ n, ongoing (look turnID n) = true) ns →
  let items := omap (λ n, itemOf (look turnID n)) ns in
  let usage := last (omap (λ n, usageOf (look turnID n)) ns) in
  collectRunResult turnID (Ok <$> ns) = None ∧
  (∀ e, collectRunResult turnID ((Ok <$> ns) ++ Err e :: rest) = Some (Err (Failure e))) ∧
  (∀ e, look turnID n = Broken e → collectRunResult turnID ((Ok <$> ns) ++ Ok n :: rest) = Some (Err (Failure e))) ∧
  ∀ t, look turnID n = Completed t →
    collectRunResult turnID ((Ok <$> ns) ++ Ok n :: rest) =
      Some (if decide (Status t = TurnStatusFailed) then Err (TurnFailedError turnID (Status t) (Error t))
            else Ok (Result (match last (messages isFinal items) with
                             | Some text => text
                             | None => default [] (last (messages (λ i, bytes_eqb (Phase i) []) items))
                             end) items usage t)).
Proof using Type.
  intros Hn items usage. unfold collectRunResult. split_and!.
  - rewrite <-(app_nil_r (Ok <$> ns)). by rewrite collect_ongoing.
  - intros e. by rewrite collect_ongoing.
  - intros e He. by rewrite collect_ongoing, collect_step, He by done.
  - intros t Ht. rewrite collect_ongoing, collect_step, Ht by done. fold items usage. cbn [app].
    unfold finish, finalAssistantResponse, bytes_eqb at 1. rewrite finalAssistantResponse_loop_spec.
    f_equal. destruct (decide (Status t = TurnStatusFailed)) as [E1|E1];
      [rewrite bool_decide_eq_true_2 by done|rewrite bool_decide_eq_false_2 by done]; [done|]. by destruct usage.
Qed.
End run.

(** A turn with two messages, the last of them final. *)
Lemma run_result_witness :
  collectRunResult (E := nat) (TurnError := nat) (λ n, Ok (if bytes_eqb (Method n) (str "item") then Some (str "t", Params n) else None))
    (λ _, Ok (None : option (bytes * nat))) (λ n, Ok (Some (MkTurn (Params n) (Method n) 0))) (λ i, Some (Item (str "agentMessage") i (str "final_answer")))
    (str "t") [Ok (MkNotification (str "item") (str "a")); Ok (MkNotification (str "item") (str "b")); Ok (MkNotification (str "completed") (str "t"))] =
  Some (Ok (Result (str "b") [str "a"; str "b"] None (MkTurn (str "t") (str "completed") 0))).
Proof.
  destruct (run_result (E := nat) (TurnError := nat) (λ n, Ok (if bytes_eqb (Method n) (str "item") then Some (str "t", Params n) else None))
    (λ _, Ok (None : option (bytes * nat))) (λ n, Ok (Some (MkTurn (Params n) (Method n) 0))) (λ i, Some (Item (str "agentMessage") i (str "final_answer")))
    (str "t") [MkNotification (str "item") (str "a"); MkNotification (str "item") (str "b")] (MkNotification (str "completed") (str "t")) [])
    as (_ & _ & _ & H); [repeat constructor|].
  etransitivity; [exact (H (MkTurn (str "t") (str "completed") 0) eq_refl)|]. vm_compute. reflexivity.
Defined.

(** ** The time limits of [Close] *)

(** Durations in nanoseconds. *)
Definition Millisecond : Z := 10 ^ 6.
Definition Second : Z := 10 ^ 9.

Record clientCloseBudget := Budget { transport : Z; process : Z; killReap : Z; read : Z; stderr : Z }.

Definition defaultClientCloseBudget : clientCloseBudget :=
  Budget (10 * Second) (2 * Second) (250 * Millisecond) (500 * Millisecond) (500 * Millisecond).

Definition withDefaults (b : clientCloseBudget) : clientCloseBudget :=
  let d := defaultClientCloseBudget in
  let process' := if process b ≤b 0 then process d else process b in
  Budget (if transport b ≤b 0 then transport d else transport b) process'
    (if (killReap b ≤b 0) || (process' ≤b killReap b) then killReap d else killReap b)
    (if read b ≤b 0 then read d else read b) (if stderr b ≤b 0 then stderr d else stderr b).

Record clientCloseDeadlines := Deadlines { dTransport : Z; dInterrupt : Z; dProcess : Z; dRead : Z; dStderr : Z }.

Definition deadlines (b : clientCloseBudget) (start : Z) : clientCloseDeadlines :=
  let transport' := (start + transport b)%Z in
  let process' := (transport' + process b)%Z in
  let read' := (process' + read b)%Z in
  Deadlines transport' (process' - killReap b) process' read' (read' + stderr b).

(** The steps of [Close] get their time one after the other: transport, interrupt,
    kill, read loop and stderr, all after the start; the time to reap a killed process
    is always part of the budget of the process, unless that budget is set below the
    quarter of a second that stands in for it. *)
Theorem close_deadlines b start :
  let d := deadlines (withDefaults b) start in
  (start < dTransport d < dProcess d ∧ dInterrupt d < dProcess d < dRead d ∧ dRead d < dStderr d)%Z ∧
  (dTransport d < dInterrupt d ↔ 0 < killReap b < process (withDefaults b) ∨ 250 * Millisecond < process (withDefaults b))%Z.
Proof.
  unfold deadlines, withDefaults, defaultClientCloseBudget, Second, Millisecond.
  cbn [transport process killReap read stderr dTransport dInterrupt dProcess dRead dStderr].
  change (10 ^ 9)%Z with 1000000000%Z. change (10 ^ 6)%Z with 1000000%Z.
  destruct (Z.leb_spec (transport b) 0), (Z.leb_spec (process b) 0), (Z.leb_spec (read b) 0), (Z.leb_spec (stderr b) 0),
    (Z.leb_spec (killReap b) 0); cbn [orb];
    repeat match goal with |- context [(?x ≤b ?y)] => destruct (Z.leb_spec x y) end; lia.
Qed.

(** A budget of a tenth of a second leaves no time to react to the interrupt: its limit
    is over before the transport's. *)
Example short_process_budget :
  let d := deadlines (withDefaults (Budget 0 (100 * Millisecond) 0 0 0)) 0 in (dInterrupt d < dTransport d)%Z.
Proof. vm_compute. reflexivity. Qed.
End CodexRun.
