(* ===== verification/Tmux.v ===== *)
(** The tmux control-mode protocol of pkg/tmux, without the subprocess: output
    values (output.go), command lines (commandline.go, the command builders of
    flow.go), the line parser (protocol.go) and the notifications
    (notification.go). *)
From S2P Require Import Prelude GoUtf8 GoStrconv GoStrings.

Module Tmux.
Local Open Scope Z_scope.

(** Errors: [fmt.Errorf] with its format and its operands, and [ProtocolError]. *)
Inductive operand := OBytes (s : bytes) | OInt (n : Z).

Inductive error :=
| Errorf (format : string) (args : list operand)
| Wrapf (format : string) (args : list operand) (wrapped : error)
| NumErr (e : NumError)
| ErrUnexpectedEOF
| ProtocolError (Line : bytes) (Err : error).

Definition lift_num {A} (f : NumError → error) (r : result NumError A) : result error A :=
  match r with Ok a => Ok a | Err e => Err (f e) end.

(** ** output.go *)

Definition isOctal (c : Z) : bool := negb ((c <b c0) || (c7 <b c)).

(** [decodeOutputValuePartial]: what was decoded and the error, at byte [i]. *)
Definition octal_error (i : nat) (d1 d2 d3 : Z) : option error :=
  let bad j d := Some (Errorf "tmux: invalid octal digit %q at byte %d" [OInt d; OInt (Z.of_nat (i + j))]) in
  if negb (isOctal d1) then bad 1%nat d1
  else if negb (isOctal d2) then bad 2%nat d2
  else if negb (isOctal d3) then bad 3%nat d3
  else if (255 <b ((d1 - c0) * 8 + (d2 - c0)) * 8 + (d3 - c0))
  then Some (Errorf "tmux: octal escape at byte %d is out of range" [OInt (Z.of_nat i)])
  else None.

Fixpoint decodeAt (i : nat) (value : bytes) : bytes * option error :=
  match value with
  | [] => ([], None)
  | b :: rest =>
      if negb (b =b BSLASH) then let '(out, e) := decodeAt (i + 1) rest in (b :: out, e)
      else
        match rest with
        | d1 :: d2 :: d3 :: rest =>
            match octal_error i d1 d2 d3 with
            | Some e => ([], Some e)
            | None =>
                let '(out, e) := decodeAt (i + 4) rest in
                (((d1 - c0) * 8 + (d2 - c0)) * 8 + (d3 - c0) :: out, e)
            end
        | _ => ([], Some (Errorf "tmux: incomplete octal escape at byte %d" [OInt (Z.of_nat i)]))
        end
  end.

Definition decodeOutputValuePartial (value : bytes) : bytes * option error := decodeAt 0 value.

Definition DecodeOutputValue (value : bytes) : result error bytes :=
  match decodeOutputValuePartial value with
  | (_, Some e) => Err e
  | (out, None) => Ok out
  end.

Definition decodeOutputText (value : bytes) : result error bytes :=
  let! out := DecodeOutputValue value in
  if ValidString out then Ok out else Err (Errorf "tmux: decoded output is not valid UTF-8" []).

Definition decodeOutputTextLossy (value : bytes) : bytes :=
  ToValidUTF8 (decodeOutputValuePartial value).1 (EncodeRune RuneError).

(** ** commandline.go *)

Record Arg := MkArg { value : bytes; raw : bool }.

Definition StringArg (v : bytes) : Arg := MkArg v false.
Definition RawArg (v : bytes) : Arg := MkArg v true.

Record CommandLine := NewCommandLine { Command : bytes; Args : list Arg }.

Definition validateCommandToken (command : bytes) : result error unit :=
  if bytes_eqb command [] then Err (Errorf "tmux: command must not be empty" [])
  else if negb (ValidString command) then Err (Errorf "tmux: command %q must be valid UTF-8" [OBytes command])
  else if negb (bytes_eqb (TrimSpace command) command) || contains_any command [SP; TAB; CR; LF] then
    Err (Errorf "tmux: command %q must be a plain token" [OBytes command])
  else Ok tt.

Definition validateArgument (v : bytes) : result error unit :=
  if negb (ValidString v) then Err (Errorf "tmux: argument must be valid UTF-8" [])
  else if contains_any v [CR; LF] then Err (Errorf "tmux: argument %q contains a newline" [OBytes v])
  else Ok tt.

Definition isBareRune (r : Z) : bool :=
  in_range ca r cz || in_range cA r cZ || in_range c0 r c9 ||
  existsb (Z.eqb r) [UNDERSCORE; AT; PERCENT; PLUS; EQUALS; COLON; COMMA; DOT; SLASH; MINUS].

Definition isBareArg (v : bytes) : bool := forallb isBareRune (runes v).

(** A backslash before a backslash, a double quote or a dollar; [b.WriteRune(r)]. *)
Definition quoteRune (r : Z) : bytes :=
  (if existsb (Z.eqb r) [BSLASH; DQUOTE; DOLLAR] then [BSLASH] else []) ++ EncodeRune r.

Definition quoteArg (v : bytes) : bytes :=
  if bytes_eqb v [] then [SQUOTE; SQUOTE]
  else if isBareArg v then v
  else if negb (contains_byte v SQUOTE) then [SQUOTE] ++ v ++ [SQUOTE]
  else [DQUOTE] ++ concat (quoteRune <$> runes v) ++ [DQUOTE].

Definition renderArg (arg : Arg) : result error bytes :=
  let! _ := validateArgument (value arg) in
  if raw arg then
    if blank (value arg) then Err (Errorf "tmux: raw argument must not be empty" []) else Ok (value arg)
  else Ok (quoteArg (value arg)).

(** The loop of [CommandLine.String] over the arguments from index [i]. *)
Fixpoint renderArgs (i : nat) (args : list Arg) : result error bytes :=
  match args with
  | [] => Ok []
  | arg :: args =>
      match renderArg arg with
      | Err e => Err (Wrapf "argument %d: %w" [OInt (Z.of_nat i)] e)
      | Ok rendered => let! rest := renderArgs (i + 1) args in Ok (SP :: rendered ++ rest)
      end
  end.

Definition CommandLine_String (l : CommandLine) : result error bytes :=
  let! _ := validateCommandToken (Command l) in
  let! rest := renderArgs 0 (Args l) in
  Ok (Command l ++ rest).

Definition validateRawLine (line : bytes) : result error unit :=
  if blank line then Err (Errorf "tmux: command line must not be empty" [])
  else if negb (ValidString line) then Err (Errorf "tmux: command line must be valid UTF-8" [])
  else if contains_any line [CR; LF] then Err (Errorf "tmux: command line contains a newline" [])
  else Ok tt.

(** ** flow.go: identifiers and the command line each operation executes *)

(** [validatePaneID], [validateWindowID] and [validateSessionID] differ in the
    prefix byte and the messages. *)
Definition validateID (prefix : Z) (noPrefix noDigits : string) (v : bytes) : result error unit :=
  match v with
  | c :: _ :: _ =>
      if negb (c =b prefix) then Err (Errorf noPrefix [OBytes v])
      else if forallb (λ r, negb ((r <b c0) || (c9 <b r))) (runes (drop 1 v)) then Ok tt
      else Err (Errorf noDigits [OBytes v])
  | _ => Err (Errorf noPrefix [OBytes v])
  end.

Definition validatePaneID : bytes → result error unit :=
  validateID PERCENT "tmux: pane ID %q must have %% prefix" "tmux: pane ID %q must contain decimal digits after %%".
Definition validateWindowID : bytes → result error unit :=
  validateID AT "tmux: window ID %q must have @ prefix" "tmux: window ID %q must contain decimal digits after @".
Definition validateSessionID : bytes → result error unit :=
  validateID DOLLAR "tmux: session ID %q must have $ prefix" "tmux: session ID %q must contain decimal digits after $".

Definition validateRefreshFragment (v : bytes) (name : string) : result error unit :=
  if blank v then Err (Errorf "tmux: %s must not be empty" [OBytes (str name)])
  else if contains_any v [CR; LF] then Err (Errorf "tmux: %s must not contain a newline" [OBytes (str name)])
  else Ok tt.

Definition validateSubscriptionName (name : bytes) : result error unit :=
  let! _ := validateRefreshFragment name "subscription name" in
  if contains_byte name COLON then Err (Errorf "tmux: subscription name %q must not contain colon" [OBytes name])
  else Ok tt.

Definition RefreshClient : bytes := str "refresh-client".

Definition RefreshClientSize (width height : Z) : result error CommandLine :=
  if (width ≤b 0) || (height ≤b 0) then Err (Errorf "tmux: client size must be positive" [])
  else Ok (NewCommandLine RefreshClient [RawArg (str "-C"); StringArg (Itoa width ++ str "x" ++ Itoa height)]).

Fixpoint validateFlags (flags : list bytes) : result error unit :=
  match flags with
  | [] => Ok tt
  | flag :: flags => let! _ := validateRefreshFragment flag "client flag" in validateFlags flags
  end.

Definition SetClientFlags (flags : list bytes) : result error CommandLine :=
  if (length flags =? 0)%nat then Err (Errorf "tmux: at least one client flag is required" [])
  else
    let! _ := validateFlags flags in
    Ok (NewCommandLine RefreshClient [RawArg (str "-f"); StringArg (join [COMMA] flags)]).

Definition Second : Z := 1000000000.
Definition Millisecond : Z := 1000000.

Definition SetPauseAfter (d : Z) : result error CommandLine :=
  if (d ≤b 0) then Err (Errorf "tmux: pause-after duration must be positive" [])
  else if negb (Z.rem d Second =b 0) then
    Err (Errorf "tmux: pause-after duration %s must be a whole number of seconds" [OInt d])
  else SetClientFlags [str "pause-after=" ++ Itoa (Z.quot d Second)].

Definition paneFlow (pane : bytes) (state : bytes) : result error CommandLine :=
  let! _ := validatePaneID pane in
  Ok (NewCommandLine RefreshClient [RawArg (str "-A"); StringArg (pane ++ [COLON] ++ state)]).

Definition PausePane (pane : bytes) := paneFlow pane (str "pause").
Definition ContinuePane (pane : bytes) := paneFlow pane (str "continue").
Definition DisablePaneOutput (pane : bytes) := paneFlow pane (str "off").
Definition EnablePaneOutput (pane : bytes) := paneFlow pane (str "on").

Definition SubscribeFormat (name target format : bytes) : result error CommandLine :=
  let! _ := validateSubscriptionName name in
  if contains_any target [CR; LF; COLON] then
    Err (Errorf "tmux: subscription target %q must not contain newline or colon" [OBytes target])
  else if contains_any format [CR; LF] then
    Err (Errorf "tmux: subscription format must not contain a newline" [])
  else Ok (NewCommandLine RefreshClient [RawArg (str "-B"); StringArg (name ++ [COLON] ++ target ++ [COLON] ++ format)]).

Definition UnsubscribeFormat (name : bytes) : result error CommandLine :=
  let! _ := validateSubscriptionName name in
  Ok (NewCommandLine RefreshClient [RawArg (str "-B"); StringArg name]).

(** ** notification.go *)

Record Notification := MkNotification { Kind : bytes; Raw : bytes; NArgs : list bytes }.

Definition ParseNotification (line : bytes) : result error Notification :=
  if negb (has_prefix line [PERCENT]) then Err (ProtocolError line (Errorf "notification must start with %%" []))
  else
    let '(kind, rest, _) := Cut line SP in
    if bytes_eqb kind [PERCENT] then Err (ProtocolError line (Errorf "notification kind is empty" []))
    else Ok (MkNotification kind line (if bytes_eqb rest [] then [] else Fields rest)).

(** The typed views return the value, whether the kind matched, and the error:
    [None] when the kind is another one. *)
Record OutputNotification := MkOutput { OPane : bytes; OValue : bytes }.

Definition Output (n : Notification) : option (result error OutputNotification) :=
  if negb (bytes_eqb (Kind n) (str "%output")) then None
  else Some
    (let '(_, rest, ok) := Cut (Raw n) SP in
     if negb ok then Err (Errorf "%%output missing pane id" [])
     else
       let rest := TrimLeftByte SP rest in
       let '(pane, v, _) := Cut rest SP in
       let! _ := validatePaneID pane in
       Ok (MkOutput pane v)).

(** The loop of [splitFieldsBeforeValue]; each turn shortens [s]. *)
Fixpoint splitFieldsN (fuel : nat) (fields : list bytes) (s : bytes) : option (result error (list bytes * bytes)) :=
  match fuel with
  | O => None
  | S fuel =>
      if bytes_eqb s [] then Some (Err (Errorf "missing : value separator" []))
      else if bytes_eqb s [COLON] then Some (Ok (fields, []))
      else
        match CutPrefix s [COLON; SP] with
        | Some after => Some (Ok (fields, after))
        | None =>
            let '(field, rest, ok) := Cut s SP in
            if negb ok then Some (Err (Errorf "missing : value separator" []))
            else if bytes_eqb field [COLON] then Some (Ok (fields, rest))
            else splitFieldsN fuel (fields ++ [field]) (TrimLeftByte SP rest)
        end
  end.

Definition splitFieldsBeforeValue (s : bytes) : option (result error (list bytes * bytes)) :=
  if bytes_eqb s [] then Some (Err (Errorf "missing fields" []))
  else splitFieldsN (S (length s)) [] s.

Definition maxAgeMillis : Z := MaxInt64 / Millisecond.

(** [time.Duration(ageMillis) * time.Millisecond] in 64 bits. *)
Definition wrap64 (n : Z) : Z := (n + 2 ^ 63) mod 2 ^ 64 - 2 ^ 63.

Record ExtendedOutputNotification := MkExtended {
  EPane : bytes; EAge : Z; EExtensionFields : list bytes; EValue : bytes }.

Definition ExtendedOutput (n : Notification) : option (result error ExtendedOutputNotification) :=
  if negb (bytes_eqb (Kind n) (str "%extended-output")) then None
  else
    let '(_, rest, ok) := Cut (Raw n) SP in
    if negb ok then Some (Err (Errorf "%%extended-output missing fields" []))
    else
      split ← splitFieldsBeforeValue rest;
      Some
        (let! (fields, v) := split in
         match fields with
         | pane :: age :: ext =>
             let! _ := validatePaneID pane in
             match ParseInt age with
             | Err _ => Err (Errorf "invalid %%extended-output age %q" [OBytes age])
             | Ok ageMillis =>
                 if (ageMillis <b 0) then Err (Errorf "invalid %%extended-output age %q" [OBytes age])
                 else if (maxAgeMillis <b ageMillis) then
                   Err (Errorf "%%extended-output age %d ms overflows time.Duration" [OInt ageMillis])
                 else Ok (MkExtended pane (wrap64 (ageMillis * Millisecond)) ext v)
             end
         | _ => Err (Errorf "%%extended-output requires pane id and age" [])
         end).

Record SubscriptionChangedNotification := MkSubscription {
  SName : bytes; SSession : bytes; SWindow : bytes; SWindowIndex : bytes; SPane : bytes;
  SExtensionFields : list bytes; SValue : bytes }.

Definition SubscriptionChanged (n : Notification) : option (result error SubscriptionChangedNotification) :=
  if negb (bytes_eqb (Kind n) (str "%subscription-changed")) then None
  else
    let '(_, rest, ok) := Cut (Raw n) SP in
    if negb ok then Some (Err (Errorf "%%subscription-changed missing fields" []))
    else
      split ← splitFieldsBeforeValue rest;
      Some
        (let! (fields, v) := split in
         match fields with
         | name :: session :: window :: index :: pane :: ext =>
             let! _ := validateSessionID session in
             let! _ := validateWindowID window in
             let! _ := validatePaneID pane in
             Ok (MkSubscription name session window index pane ext v)
         | _ => Err (Errorf "%%subscription-changed requires at least five fields before value" [])
         end).

Definition Exit (n : Notification) : option bytes :=
  if negb (bytes_eqb (Kind n) (str "%exit")) then None
  else let '(_, reason, _) := Cut (Raw n) SP in Some reason.

Definition Message (n : Notification) : option bytes :=
  if negb (bytes_eqb (Kind n) (str "%message")) then None
  else let '(_, msg, _) := Cut (Raw n) SP in Some msg.

Definition paneNotification (n : Notification) (kind : bytes) : option (result error bytes) :=
  if negb (bytes_eqb (Kind n) kind) then None
  else Some
    match NArgs n with
    | [pane] => let! _ := validatePaneID pane in Ok pane
    | _ => Err (Errorf "%s requires one pane id" [OBytes kind])
    end.

Definition Pause (n : Notification) := paneNotification n (str "%pause").
Definition Continue (n : Notification) := paneNotification n (str "%continue").

(** ** protocol.go *)

(** [Time] is in seconds from the epoch, as [time.Unix(seconds, 0)]. *)
Record BlockMarker := MkMarker { Time : Z; MCommand : Z; Flags : Z }.

Record Response := MkResponse { Begin : BlockMarker; End_ : BlockMarker; Lines : list bytes; RError : bool }.

Inductive protocolMessage :=
| MessageNone
| MessageResponse (r : Response)
| MessageNotification (n : Notification).

Record responseBuilder := MkBuilder { begin : BlockMarker; lines : list bytes }.

(** [protocolParser] is its only field, [active]. *)
Definition protocolParser : Type := option responseBuilder.

Definition parseMarker (line prefix : bytes) : result error BlockMarker :=
  match Fields line with
  | [f0; f1; f2; f3] =>
      if negb (bytes_eqb f0 prefix) then Err (Errorf "malformed %s marker" [OBytes prefix])
      else
        let! seconds := lift_num (λ e, Wrapf "invalid marker time %q: %w" [OBytes f1] (NumErr e)) (ParseInt f1) in
        let! command := lift_num (λ e, Wrapf "invalid marker command %q: %w" [OBytes f2] (NumErr e)) (ParseInt f2) in
        let! flags := lift_num (λ e, Wrapf "invalid marker flags %q: %w" [OBytes f3] (NumErr e)) (ParseInt f3) in
        Ok (MkMarker seconds command flags)
  | _ => Err (Errorf "malformed %s marker" [OBytes prefix])
  end.

(** [None] when the line is no [%begin]. *)
Definition parseBegin (line : bytes) : result error (option BlockMarker) :=
  match Fields line with
  | f0 :: _ =>
      if negb (bytes_eqb f0 (str "%begin")) then Ok None
      else let! m := parseMarker line (str "%begin") in Ok (Some m)
  | [] => Ok None
  end.

(** The marker and whether it is [%error]. *)
Definition parseTerminator (line : bytes) : option (bool * BlockMarker) :=
  let fields := Fields line in
  let marker (prefix : bytes) (e : bool) :=
    if negb (length fields =? 4)%nat then None
    else match parseMarker line prefix with Ok m => Some (e, m) | Err _ => None end in
  match fields with
  | [] => None
  | f0 :: _ =>
      if bytes_eqb f0 (str "%end") then marker (str "%end") false
      else if bytes_eqb f0 (str "%error") then marker (str "%error") true
      else None
  end.

Definition sameMarkerIdentity (a b : BlockMarker) : bool :=
  (MCommand a =b MCommand b) && (Time a =b Time b).

Definition normalizeControlLine (line : bytes) : option bytes :=
  if bytes_eqb line [] then None else Some line.

Definition feed (line : bytes) (p : protocolParser) : protocolParser * result error protocolMessage :=
  match normalizeControlLine line with
  | None => (p, Ok MessageNone)
  | Some line =>
      match p with
      | Some a =>
          let appended := (Some (MkBuilder (begin a) (lines a ++ [line])), Ok MessageNone) in
          match parseTerminator line with
          | Some (isError, marker) =>
              if sameMarkerIdentity (begin a) marker then
                (None, Ok (MessageResponse (MkResponse (begin a) marker (lines a) isError)))
              else appended
          | None => appended
          end
      | None =>
          match parseBegin line with
          | Err e => (p, Err (ProtocolError line e))
          | Ok (Some marker) => (Some (MkBuilder marker []), Ok MessageNone)
          | Ok None =>
              if has_prefix line [PERCENT] then
                match ParseNotification line with
                | Err e => (p, Err e)
                | Ok n => (p, Ok (MessageNotification n))
                end
              else (p, Err (ProtocolError line (Errorf "unexpected non-control line outside response block" [])))
          end
      end
  end.

Definition eof (p : protocolParser) : option error :=
  match p with
  | None => None
  | Some a => Some (ProtocolError [] (Wrapf "%w after %%begin for command %d" [OInt (MCommand (begin a))] ErrUnexpectedEOF))
  end.
End Tmux.
