(* ===== verification/TmuxSpec.v ===== *)
(** What the tmux protocol layer guarantees: exact decoding of output values,
    command lines that read back as their arguments, and the transcripts the line
    parser accepts. *)
From S2P Require Import Prelude GoUtf8 GoStrconv GoStrings Tmux.

Module TmuxSpec.
Import Tmux.
Local Open Scope Z_scope.

(** ** Output values *)

Definition octalValue (d1 d2 d3 : Z) : Z := ((d1 - c0) * 8 + (d2 - c0)) * 8 + (d3 - c0).

(** [v] stands for the bytes [out]: plain bytes and three-digit octal escapes. *)
Inductive Encodes : bytes → bytes → Prop :=
| Enc_nil : Encodes [] []
| Enc_plain b v out : b ≠ BSLASH → Encodes v out → Encodes (b :: v) (b :: out)
| Enc_octal d1 d2 d3 v out :
    isOctal d1 = true → isOctal d2 = true → isOctal d3 = true → octalValue d1 d2 d3 ≤ 255 →
    Encodes v out → Encodes (BSLASH :: d1 :: d2 :: d3 :: v) (octalValue d1 d2 d3 :: out).

(** The first thing that is no escape, at offset [i], and its error. *)
Inductive BadEscape (i : nat) : bytes → error → Prop :=
| Bad_short t : (length t < 3)%nat →
    BadEscape i (BSLASH :: t) (Errorf "tmux: incomplete octal escape at byte %d" [OInt (Z.of_nat i)])
| Bad_digit ds d t :
    Forall (λ c, isOctal c = true) ds → isOctal d = false → (length ds < 3 ≤ length (ds ++ d :: t))%nat →
    BadEscape i (BSLASH :: ds ++ d :: t)
      (Errorf "tmux: invalid octal digit %q at byte %d" [OInt d; OInt (Z.of_nat (i + S (length ds)))])
| Bad_range d1 d2 d3 t :
    isOctal d1 = true → isOctal d2 = true → isOctal d3 = true → 255 < octalValue d1 d2 d3 →
    BadEscape i (BSLASH :: d1 :: d2 :: d3 :: t)
      (Errorf "tmux: octal escape at byte %d is out of range" [OInt (Z.of_nat i)]).

Lemma octal_error_None i d1 d2 d3 :
  octal_error i d1 d2 d3 = None ↔
  isOctal d1 = true ∧ isOctal d2 = true ∧ isOctal d3 = true ∧ octalValue d1 d2 d3 ≤ 255.
Proof.
  unfold octal_error, octalValue. destruct (isOctal d1), (isOctal d2), (isOctal d3); simpl; try naive_solver.
  destruct (Z.ltb_spec 255 (((d1 - c0) * 8 + (d2 - c0)) * 8 + (d3 - c0))); naive_solver lia.
Qed.

Lemma octal_error_Some i d1 d2 d3 t e :
  octal_error i d1 d2 d3 = Some e → BadEscape i (BSLASH :: d1 :: d2 :: d3 :: t) e.
Proof.
  unfold octal_error.
  destruct (isOctal d1) eqn:H1; simpl;
    [|intros [= <-]; apply (Bad_digit i [] d1 (d2 :: d3 :: t)); [done|done|simpl; lia]].
  destruct (isOctal d2) eqn:H2; simpl;
    [|intros [= <-]; apply (Bad_digit i [d1] d2 (d3 :: t)); [by repeat constructor|done|simpl; lia]].
  destruct (isOctal d3) eqn:H3; simpl;
    [|intros [= <-]; apply (Bad_digit i [d1; d2] d3 t); [by repeat constructor|done|simpl; lia]].
  destruct (Z.ltb_spec 255 (((d1 - c0) * 8 + (d2 - c0)) * 8 + (d3 - c0))); [|done].
  intros [= <-]. by apply Bad_range.
Qed.

Lemma decodeAt_sound i v out o :
  decodeAt i v = (out, o) →
  match o with
  | None => Encodes v out
  | Some e => ∃ p t, v = p ++ t ∧ Encodes p out ∧ BadEscape (i + length p) t e
  end.
Proof.
  remember (length v) as n eqn:Hn. revert i v out o Hn. induction n as [n IH] using lt_wf_ind.
  intros i v out o Hn H. destruct v as [|b v]; [injection H as <- <-; constructor|].
  simpl in Hn, H. destruct (Z.eqb_spec b BSLASH) as [->|Hb]; simpl in H.
  - destruct v as [|d1 [|d2 [|d3 v]]];
      [injection H as <- <-; eexists [], _; rewrite Nat.add_0_r;
       (split_and!; [reflexivity|constructor|apply Bad_short; simpl; lia])..|].
    destruct (octal_error i d1 d2 d3) as [e|] eqn:He.
    + injection H as <- <-. exists [], (BSLASH :: d1 :: d2 :: d3 :: v). rewrite Nat.add_0_r.
      split_and!; [done|constructor|by apply octal_error_Some].
    + apply octal_error_None in He as (H1 & H2 & H3 & Hv).
      destruct (decodeAt (i + 4) v) as [out' o'] eqn:E. injection H as <- <-.
      specialize (IH (length v) ltac:(simpl in Hn; lia) _ _ _ _ eq_refl E).
      destruct o' as [e|]; [|by constructor]. destruct IH as (p & t & -> & Hp & Ht).
      exists (BSLASH :: d1 :: d2 :: d3 :: p), t. split_and!; [done|by constructor|].
      simpl. by replace (i + S (S (S (S (length p)))))%nat with (i + 4 + length p)%nat by lia.
  - destruct (decodeAt (i + 1) v) as [out' o'] eqn:E. injection H as <- <-.
    specialize (IH (length v) ltac:(lia) _ _ _ _ eq_refl E).
    destruct o' as [e|]; [|by constructor]. destruct IH as (p & t & -> & Hp & Ht).
    exists (b :: p), t. split_and!; [done|by constructor|].
    simpl. by replace (i + S (length p))%nat with (i + 1 + length p)%nat by lia.
Qed.

Lemma octal_bslash : isOctal BSLASH = false.
Proof. done. Qed.

Lemma decodeAt_prefix i p out t :
  Encodes p out → decodeAt i (p ++ t) = (out ++ (decodeAt (i + length p) t).1, (decodeAt (i + length p) t).2).
Proof.
  intros Hp. revert i. induction Hp as [|b v out Hb _ IH|d1 d2 d3 v out H1 H2 H3 Hv _ IH]; intros i; simpl.
  - rewrite Nat.add_0_r. by destruct (decodeAt i t).
  - destruct (Z.eqb_spec b BSLASH); [done|]. simpl. rewrite IH.
    by replace (i + 1 + length v)%nat with (i + S (length v))%nat by lia.
  - rewrite (proj2 (octal_error_None i d1 d2 d3)) by done. rewrite IH.
    by replace (i + 4 + length v)%nat with (i + S (S (S (S (length v)))))%nat by lia.
Qed.

Lemma decodeAt_bad i t e : BadEscape i t e → decodeAt i t = ([], Some e).
Proof.
  intros [t' Hl|ds d t' Hds Hd Hl|d1 d2 d3 t' H1 H2 H3 Hv]; simpl.
  - destruct t' as [|? [|? [|? ?]]]; simpl in Hl; try lia; done.
  - rewrite length_app in Hl. simpl in Hl.
    destruct ds as [|a [|b [|c ds]]]; simpl in Hl; try lia; rewrite ?Forall_cons in Hds; destruct_and?; simpl.
    + destruct t' as [|? [|? ?]]; simpl in *; try lia. unfold octal_error. by rewrite Hd.
    + destruct t' as [|? ?]; simpl in *; try lia. unfold octal_error. rewrite Hd.
      by match goal with H : isOctal a = true |- _ => rewrite H end.
    + unfold octal_error. rewrite Hd.
      match goal with H : isOctal a = true |- _ => rewrite H end.
      by match goal with H : isOctal b = true |- _ => rewrite H end.
  - unfold octal_error. rewrite H1, H2, H3. simpl. unfold octalValue in Hv. by rewrite (proj2 (Z.ltb_lt _ _) Hv).
Qed.

(** An output value decodes exactly when it is made of plain bytes and octal
    escapes of a byte, to the bytes it stands for; otherwise the error names the
    first place that is no escape, and what stands before it has been decoded. *)
Theorem decodeOutputValue_exact v :
  (∀ out, DecodeOutputValue v = Ok out ↔ Encodes v out) ∧
  (∀ out e, decodeOutputValuePartial v = (out, Some e) ↔
     ∃ p t, v = p ++ t ∧ Encodes p out ∧ BadEscape (length p) t e).
Proof.
  unfold DecodeOutputValue, decodeOutputValuePartial. split.
  - intros out. split.
    + destruct (decodeAt 0 v) as [out' [e|]] eqn:E; [done|]. intros [= ->]. apply (decodeAt_sound _ _ _ _ E).
    + intros H. pose proof (decodeAt_prefix 0 v out [] H) as E. rewrite app_nil_r in E. rewrite E. simpl. by rewrite app_nil_r.
  - intros out e. split; [intros E; apply (decodeAt_sound _ _ _ _ E)|].
    intros (p & t & -> & Hp & Ht). rewrite (decodeAt_prefix 0 p out t Hp), Nat.add_0_l, (decodeAt_bad _ t e Ht). simpl. by rewrite app_nil_r.
Qed.

(** An encoder that writes the bytes of [must], and backslashes, in octal. *)
Definition octal (b : Z) : bytes := [BSLASH; c0 + b / 64; c0 + b / 8 mod 8; c0 + b mod 8].

Definition encodeOutput (must : Z → bool) (out : bytes) : bytes :=
  concat ((λ b, if must b || (b =b BSLASH) then octal b else [b]) <$> out).

Lemma encodeOutput_encodes must out : Forall is_byte out → Encodes (encodeOutput must out) out.
Proof.
  unfold encodeOutput. induction 1 as [|b out Hb _ IH]; [constructor|]. cbn [fmap list_fmap concat].
  destruct (must b || (b =b BSLASH)) eqn:E.
  - unfold is_byte in Hb. simpl. assert (octalValue (c0 + b / 64) (c0 + b / 8 mod 8) (c0 + b mod 8) = b) as Hv.
    { unfold octalValue. div_mod_lia. }
    rewrite <-Hv at 4. constructor; [unfold isOctal; div_mod_lia..|lia|done].
  - simpl. constructor; [|done]. apply orb_false_elim in E as [_ ?%Z.eqb_neq]. done.
Qed.

Lemma toValidN_valid rep fuel invalid s :
  Forall is_byte s → valid_utf8 rep → valid_utf8 (toValidN rep fuel invalid s).
Proof.
  intros Hs Hrep. revert invalid s Hs. induction fuel as [|fuel IH]; intros invalid s Hs; [by exists []|].
  destruct s as [|b s]; [by exists []|]. cbn [toValidN]. destruct (DecodeRune (b :: s)) as [r n] eqn:HD.
  assert (Forall is_byte (drop n (b :: s))) as Hd by (by apply Forall_drop).
  destruct ((r =b RuneError) && (n =? 1)%nat) eqn:He.
  - apply valid_utf8_app; [|by apply IH]. by destruct invalid; [exists []|].
  - destruct (DecodeRune_inv _ _ _ Hs HD) as (Hr & Heq & Hn); [done|intros [-> ->]; simpl in He; lia|].
    apply valid_utf8_app; [|by apply IH]. rewrite Heq, Hn, take_app_length.
    exists [r]. split; [by repeat constructor|]. by rewrite encoded_cons, app_nil_r.
Qed.

Lemma toValidN_id rep fuel rs : scalars rs → (length rs ≤ fuel)%nat → toValidN rep fuel false (encoded rs) = encoded rs.
Proof.
  intros Hrs. revert fuel. induction Hrs as [|r rs Hr Hrs IH]; intros fuel Hf; [by destruct fuel|].
  destruct fuel as [|fuel]; [simpl in Hf; lia|]. destruct (encoded_step r rs Hr) as (HD & Hd & Ht).
  destruct (EncodeRune_cons r (encoded rs)) as (b & u & Hbu). rewrite <-encoded_cons in Hbu.
  cbn [toValidN]. rewrite Hbu. rewrite <-Hbu, HD, Hd, Ht.
  destruct (_ && _) eqn:He.
  - apply andb_prop in He as [He1%Z.eqb_eq He2%Nat.eqb_eq]. exfalso.
    apply (DecodeRune_valid (encoded (r :: rs)) r (length (EncodeRune r))); [|by rewrite Hbu|done|done].
    exists (r :: rs). split; [by constructor|done].
  - rewrite IH by (simpl in Hf; lia). done.
Qed.

(** Whatever bytes tmux chooses to escape, decoding gives the bytes of the pane
    back; the text view refuses exactly what is not UTF-8, and the lossy one is
    UTF-8 in any case and the text itself when the bytes are UTF-8. *)
Theorem decodeOutput_roundtrip must out :
  Forall is_byte out →
  let v := encodeOutput must out in
  DecodeOutputValue v = Ok out ∧
  (decodeOutputText v = Ok out ↔ valid_utf8 out) ∧
  valid_utf8 (decodeOutputTextLossy v) ∧
  (valid_utf8 out → decodeOutputTextLossy v = out).
Proof.
  intros Hb v. assert (Encodes v out) as Hv by (by apply encodeOutput_encodes). clearbody v.
  pose proof (decodeAt_prefix 0 v out [] Hv) as E. rewrite app_nil_r in E. simpl in E. rewrite app_nil_r in E.
  unfold decodeOutputText, decodeOutputTextLossy, DecodeOutputValue, decodeOutputValuePartial. rewrite E. cbn [fst rbind].
  split_and!; [done| | |].
  - rewrite <-ValidString_iff by done. by destruct (ValidString out).
  - apply toValidN_valid; [done|]. exists [RuneError]. split; [by repeat constructor|by vm_compute].
  - intros (rs & Hrs & ->). unfold ToValidUTF8. apply toValidN_id; [done|apply encoded_length].
Qed.

Lemma decodeOutput_roundtrip_witness :
  decodeOutputTextLossy (encodeOutput (λ b, b <b 32) (str "a\b" ++ [10; 27])) = str "a\b" ++ [10; 27].
Proof.
  apply (decodeOutput_roundtrip (λ b, b <b 32) (str "a\b" ++ [10; 27])); [by repeat constructor|].
  apply ValidString_iff; [by repeat constructor|]. vm_compute. reflexivity.
Defined.

(** ** Command lines *)

Abbreviation SEMICOLON := 59%Z.
Abbreviation TILDE := 126%Z.

(** tmux is not part of the repository; its reader of words is a parameter with the
    rules of tmux(1), under COMMAND PARSING AND EXECUTION, that rendering relies on.
    Outside quotes the characters below are special, and words such as %if are
    directives; single quotes take everything literally; in double quotes a backslash
    escapes a backslash, a quote or a dollar sign, an unescaped dollar sign expands a
    variable and a leading tilde a home directory, and anything else is literal. *)
Definition special (c : Z) : bool :=
  existsb (Z.eqb c) [SP; TAB; CR; LF; SEMICOLON; HASH; SQUOTE; DQUOTE; BSLASH; DOLLAR; TILDE; LBRACE; RBRACE].

Definition plain_byte (c : Z) : bool := in_range 33 c 126 && negb (special c).

Definition directives : list bytes := Eval vm_compute in [str "%if"; str "%elif"; str "%else"; str "%endif"; str "%hidden"].

Inductive piece := Literal (c : Z) | Escaped (c : Z).

Definition escapable (c : Z) : bool := existsb (Z.eqb c) [BSLASH; DQUOTE; DOLLAR].
Definition pieceOk (p : piece) : bool :=
  match p with Literal c => negb (escapable c) && negb (c =b 0) | Escaped c => escapable c end.
Definition pieceText (p : piece) : bytes := match p with Literal c => [c] | Escaped c => [BSLASH; c] end.
Definition pieceValue (p : piece) : Z := match p with Literal c | Escaped c => c end.

(** What can follow a word. *)
Definition ends_word (r : bytes) : Prop := r = [] ∨ ∃ r', r = SP :: r'.

Class TmuxReader (readWord : bytes → option (bytes * bytes)) : Prop := {
  read_plain w r : w ≠ [] → Forall (λ c, plain_byte c = true) w → (w ∉ directives) → ends_word r →
    readWord (w ++ r) = Some (w, r);
  read_single w r : (SQUOTE ∉ w) → (0 ∉ w) → ends_word r → readWord (SQUOTE :: w ++ SQUOTE :: r) = Some (w, r);
  read_double ps r : Forall (λ p, pieceOk p = true) ps → head ps ≠ Some (Literal TILDE) → ends_word r →
    readWord (DQUOTE :: concat (pieceText <$> ps) ++ DQUOTE :: r) = Some (pieceValue <$> ps, r);
}.

(** Words separated by a space. *)
Fixpoint readWords (readWord : bytes → option (bytes * bytes)) (fuel : nat) (s : bytes) : option (list bytes) :=
  match fuel with
  | O => None
  | S fuel =>
      '(w, r) ← readWord s;
      match r with
      | [] => Some [w]
      | c :: r => if c =b SP then ws ← readWords readWord fuel r; Some (w :: ws) else None
      end
  end.

Definition readCommandLine (readWord : bytes → option (bytes * bytes)) (s : bytes) : option (list bytes) :=
  readWords readWord (S (length s)) s.

(** A reader with these rules, which refuses what it does not know. *)
Fixpoint samplePlain (s : bytes) : bytes * bytes :=
  match s with
  | c :: s' => if plain_byte c then let '(w, r) := samplePlain s' in (c :: w, r) else ([], s)
  | [] => ([], [])
  end.

Fixpoint sampleSingle (s : bytes) : option (bytes * bytes) :=
  match s with
  | [] => None
  | c :: s' => if c =b SQUOTE then Some ([], s') else '(w, r) ← sampleSingle s'; Some (c :: w, r)
  end.

Fixpoint sampleDouble (s : bytes) : option (bytes * bytes) :=
  match s with
  | [] => None
  | c :: s' =>
      if c =b DQUOTE then Some ([], s')
      else if c =b DOLLAR then None
      else if c =b BSLASH then
        match s' with
        | d :: s'' => if escapable d then '(w, r) ← sampleDouble s''; Some (d :: w, r) else None
        | [] => None
        end
      else '(w, r) ← sampleDouble s'; Some (c :: w, r)
  end.

Definition sampleWord (s : bytes) : option (bytes * bytes) :=
  match s with
  | [] => None
  | c :: s' =>
      if c =b SQUOTE then sampleSingle s'
      else if c =b DQUOTE then match s' with d :: _ => if d =b TILDE then None else sampleDouble s' | [] => None end
      else let '(w, r) := samplePlain s in if decide (w = [] ∨ w ∈ directives) then None else Some (w, r)
  end.

Lemma samplePlain_app w r : Forall (λ c, plain_byte c = true) w → ends_word r → samplePlain (w ++ r) = (w, r).
Proof.
  intros Hw Hr. induction Hw as [|c w Hc _ IH]; simpl.
  - by destruct Hr as [-> | (r' & ->)].
  - by rewrite Hc, IH.
Qed.

Lemma sampleSingle_app w r : SQUOTE ∉ w → sampleSingle (w ++ SQUOTE :: r) = Some (w, r).
Proof.
  induction w as [|c w IH]; intros Hw; simpl; [done|]. apply not_elem_of_cons in Hw as [Hc Hw].
  destruct (Z.eqb_spec c SQUOTE); [done|]. by rewrite IH.
Qed.

Lemma sampleDouble_app ps r :
  Forall (λ p, pieceOk p = true) ps →
  sampleDouble (concat (pieceText <$> ps) ++ DQUOTE :: r) = Some (pieceValue <$> ps, r).
Proof.
  induction 1 as [|p ps Hp _ IH]; [done|]. cbn [fmap list_fmap concat]. rewrite <-app_assoc.
  destruct p as [c|c]; cbn [pieceOk pieceText pieceValue app] in *; cbn [sampleDouble].
  - unfold escapable in Hp. cbn [existsb] in Hp.
    destruct (Z.eqb_spec c DQUOTE); [lia|]. destruct (Z.eqb_spec c DOLLAR); [lia|].
    destruct (Z.eqb_spec c BSLASH); [lia|]. by rewrite IH.
  - change (BSLASH =b DQUOTE) with false. change (BSLASH =b DOLLAR) with false. change (BSLASH =b BSLASH) with true.
    cbv iota. by rewrite Hp, IH.
Qed.

#[export] Instance sampleWord_reader : TmuxReader sampleWord.
Proof.
  split.
  - intros w r Hw Hp Hd Hr. pose proof (samplePlain_app w r Hp Hr) as H. destruct w as [|c w]; [done|].
    apply Forall_cons in Hp as [Hc _]. unfold sampleWord. cbn [app] in *.
    assert ((c =b SQUOTE) = false ∧ (c =b DQUOTE) = false) as [-> ->]
      by (unfold plain_byte, special, in_range in Hc; cbn [existsb] in Hc; lia).
    rewrite H, decide_False; [done|]. by intros [?|?].
  - intros w r Hw _ _. cbn. by apply sampleSingle_app.
  - intros ps r Hp Ht _. cbn [sampleWord]. change (DQUOTE =b SQUOTE) with false. change (DQUOTE =b DQUOTE) with true. cbv iota.
    pose proof (sampleDouble_app ps r Hp) as H. destruct ps as [|p ps]; [done|].
    destruct p as [c|c]; cbn [fmap list_fmap concat pieceText app] in *; rewrite H; [|done].
    destruct (Z.eqb_spec c TILDE) as [->|]; [|done]. by contradict Ht.
Qed.

Lemma bare_ascii r : isBareRune r = true → 0 ≤ r < 0x80.
Proof. unfold isBareRune, in_range. cbn [existsb]. lia. Qed.

Lemma bare_encoded rs : Forall (λ r, isBareRune r = true) rs → encoded rs = rs.
Proof.
  induction 1 as [|r rs Hr _ IH]; [done|]. rewrite encoded_cons, IH. apply bare_ascii in Hr.
  unfold EncodeRune. by rewrite in_range_true by lia.
Qed.

Lemma bare_plain c : isBareRune c = true → plain_byte c = true.
Proof. unfold isBareRune, plain_byte, special, in_range. cbn [existsb]. lia. Qed.

(** The double-quoted text of a rune. *)
Definition runePieces (r : Z) : list piece := if escapable r then [Escaped r] else Literal <$> EncodeRune r.

Lemma runePieces_text r : concat (pieceText <$> runePieces r) = quoteRune r.
Proof.
  unfold runePieces, quoteRune. fold (escapable r). destruct (escapable r) eqn:E.
  - unfold escapable in E. cbn [existsb] in E. unfold EncodeRune. by rewrite in_range_true by lia.
  - cbn [app]. induction (EncodeRune r) as [|b bs IH]; [done|]. cbn in *. by rewrite IH.
Qed.

Lemma runePieces_value r : pieceValue <$> runePieces r = EncodeRune r.
Proof.
  unfold runePieces. destruct (escapable r) eqn:E.
  - unfold escapable in E. cbn [existsb] in E. unfold EncodeRune. by rewrite in_range_true by lia.
  - rewrite <-list_fmap_compose. by apply list_fmap_id.
Qed.

Lemma runePieces_ok r : ValidRune r = true → r ≠ 0 → Forall (λ p, pieceOk p = true) (runePieces r).
Proof.
  intros Hr Hz. unfold runePieces. destruct (escapable r) eqn:E; [by repeat constructor|].
  apply Forall_fmap. destruct (EncodeRune_shape r Hr) as [(a & Ha & Hlt)|(a & bs & He & Ha & _ & _ & Hbs)].
  - assert (a = r) as ->.
    { pose proof (DecodeRune_EncodeRune r [] Hr) as HD. rewrite Ha in HD. simpl in HD.
      by destruct (first_info a) as [[[|[|[|[|]]]] [? ?]]|]; simplify_eq. }
    rewrite Ha. constructor; [|done]. cbn [compose pieceOk]. rewrite E. cbn [negb andb]. by destruct (Z.eqb_spec r 0).
  - rewrite He. constructor; [cbn; unfold escapable; cbn [existsb]; lia|].
    eapply Forall_impl; [exact Hbs|]. intros b [Hb _]. cbn. unfold escapable. cbn [existsb]. lia.
Qed.

Lemma encoded_no_zero rs : 0 ∉ encoded rs → Forall (λ r, r ≠ 0) rs.
Proof.
  induction rs as [|r rs IH]; [done|]. rewrite encoded_cons, not_elem_of_app. intros [Hr Hrs]. constructor; [|auto].
  intros ->. by apply Hr, list_elem_of_singleton.
Qed.

(** What tmux takes literally: no directive, and not a tilde in front of a text with a
    single quote, which is put into double quotes. *)
Definition literal_argument (v : bytes) : Prop :=
  (0 ∉ v) ∧ (v ∉ directives) ∧ (head v = Some TILDE → SQUOTE ∉ v).

Section reader.
Context (readWord : bytes → option (bytes * bytes)) `{!TmuxReader readWord}.

(** An argument, quoted, reads back as itself whatever follows it. *)
Lemma quoteArg_reads v r :
  valid_utf8 v → literal_argument v → ends_word r → readWord (quoteArg v ++ r) = Some (v, r).
Proof.
  intros (rs & Hrs & ->) (Hz & Hd & Ht) Hr. unfold quoteArg. destruct (bytes_eqb (encoded rs) []) eqn:E0.
  { apply bytes_eqb_eq in E0. rewrite E0. apply (read_single [] r); [apply not_elem_of_nil..|done]. }
  unfold isBareArg. rewrite runes_encoded by done. destruct (forallb isBareRune rs) eqn:Eb.
  - apply forallb_Forall in Eb. rewrite bare_encoded in * by done. apply read_plain; [|by eapply Forall_impl; [|apply bare_plain]|done|done].
    intros ->. done.
  - destruct (contains_byte (encoded rs) SQUOTE) eqn:Eq; cbn [negb].
    + cbn [app]. rewrite <-app_assoc. cbn [app].
      assert (concat (quoteRune <$> rs) = concat (pieceText <$> concat (runePieces <$> rs)) ∧
              encoded rs = pieceValue <$> concat (runePieces <$> rs)) as [Htext Hvalue].
      { clear. split; induction rs as [|x rs IH]; [done| |done|].
        - cbn [fmap list_fmap concat]. by rewrite fmap_app, concat_app, runePieces_text, IH.
        - cbn [fmap list_fmap concat]. by rewrite encoded_cons, fmap_app, runePieces_value, IH. }
      rewrite Htext, Hvalue. apply read_double; [| |done].
      * apply Forall_concat, Forall_fmap, Forall_forall. intros x Hx. apply runePieces_ok.
        -- rewrite Forall_forall in Hrs. auto.
        -- apply encoded_no_zero in Hz. rewrite Forall_forall in Hz. auto.
      * intros Hh. rewrite <-contains_byte_elem, Eq in Ht. apply Ht; [|done]. rewrite Hvalue.
        destruct (concat (runePieces <$> rs)); [done|]. by injection Hh as ->.
    + cbn [app]. rewrite <-app_assoc. cbn [app]. apply read_single; [|done|done].
      by rewrite <-contains_byte_elem, Eq.
Qed.
End reader.

(** What the arguments of a line must be. *)
Definition plain_argument (v : bytes) : Prop := valid_utf8 v ∧ CR ∉ v ∧ LF ∉ v.

Lemma validateArgument_ok v : Forall is_byte v → (validateArgument v = Ok tt) ↔ plain_argument v.
Proof.
  intros Hv. unfold validateArgument, plain_argument. rewrite <-ValidString_iff by done.
  destruct (ValidString v); simpl; [|naive_solver].
  destruct (contains_any v [CR; LF]) eqn:E.
  - apply contains_any_elem in E as (c & Hc & Hin). set_solver.
  - rewrite contains_any_false in E. split; [|done]. intros _. split_and!; [done|..]; intros H%E; set_solver.
Qed.

Definition renderedArgs (vs : list bytes) : bytes := concat ((λ v, SP :: quoteArg v) <$> vs).

Lemma renderArgs_strings i vs :
  Forall (Forall is_byte) vs →
  (∃ rest, renderArgs i (StringArg <$> vs) = Ok rest) ↔ Forall plain_argument vs.
Proof.
  intros Hb. revert i. induction Hb as [|v vs Hv _ IH]; intros i; simpl; [naive_solver|].
  rewrite Forall_cons, <-(IH (i + 1)%nat), <-validateArgument_ok by done.
  unfold renderArg. simpl. destruct (validateArgument v) as [[]|e]; simpl; [|naive_solver].
  destruct (renderArgs (i + 1) _) as [rest|e]; simpl.
  - split; intros _; [split; [done|by exists rest]|eexists; reflexivity].
  - split; [by intros [? ?]|by intros [_ [? ?]]].
Qed.

Lemma renderArgs_rendered i vs rest : renderArgs i (StringArg <$> vs) = Ok rest → rest = renderedArgs vs.
Proof.
  revert i rest. induction vs as [|v vs IH]; intros i rest; simpl; [by intros [= <-]|].
  unfold renderArg. simpl. destruct (validateArgument v) as [[]|e]; simpl; [|done].
  destruct (renderArgs (i + 1) _) as [rest'|] eqn:E; simpl; [|done].
  intros [= <-]. by rewrite (IH _ _ E).
Qed.

Lemma renderedArgs_ends vs : ends_word (renderedArgs vs).
Proof. destruct vs as [|v vs]; [by left|]. right. by eexists. Qed.

Lemma renderedArgs_length vs : (length vs ≤ length (renderedArgs vs))%nat.
Proof.
  induction vs as [|v vs IH]; [simpl; lia|].
  change (renderedArgs (v :: vs)) with (SP :: quoteArg v ++ renderedArgs vs). cbn [length]. rewrite length_app. lia.
Qed.

Lemma readWords_rendered readWord `{!TmuxReader readWord} fuel w text vs :
  (∀ r, ends_word r → readWord (text ++ r) = Some (w, r)) →
  Forall valid_utf8 vs → Forall literal_argument vs → (length vs < fuel)%nat →
  readWords readWord fuel (text ++ renderedArgs vs) = Some (w :: vs).
Proof.
  intros Hw Hvs. revert fuel w text Hw. induction Hvs as [|v vs Hv _ IH]; intros fuel w text Hw Hl Hf;
    (destruct fuel as [|fuel]; [simpl in Hf; lia|]); cbn [readWords]; rewrite Hw by apply renderedArgs_ends.
  - done.
  - change (renderedArgs (v :: vs)) with (SP :: quoteArg v ++ renderedArgs vs). cbn [mbind option_bind].
    apply Forall_cons in Hl as [Hv' Hl]. rewrite Z.eqb_refl, (IH fuel v (quoteArg v)); [done| |done|simpl in Hf; lia].
    intros r Hr. by apply quoteArg_reads.
Qed.

Lemma bare_no_space b : isBareRune b = true → IsSpace b = false.
Proof. unfold isBareRune, IsSpace, in_range. cbn [existsb]. lia. Qed.

Lemma DecodeLastRune_bare c b : isBareRune b = true → DecodeLastRune (c ++ [b]) = (b, 1%nat).
Proof.
  intros Hb%bare_ascii. unfold DecodeLastRune. rewrite lookup_app_back by done. cbn.
  by rewrite (proj2 (Z.ltb_lt _ _)) by lia.
Qed.

Lemma validateCommandToken_bare c :
  c ≠ [] → Forall (λ b, isBareRune b = true) c → validateCommandToken c = Ok tt.
Proof.
  intros Hne Hc. unfold validateCommandToken.
  assert (bytes_eqb c [] = false) as ->.
  { destruct (bytes_eqb c []) eqn:E; [|done]. by apply bytes_eqb_eq in E. }
  assert (scalars c) as Hsc.
  { eapply Forall_impl; [exact Hc|]. intros r Hr%bare_ascii. unfold ValidRune. lia. }
  assert (ValidString c = true) as ->.
  { apply ValidString_iff; [eapply Forall_impl; [exact Hc|]; intros r Hr%bare_ascii; unfold is_byte; lia|].
    exists c. split; [done|]. by rewrite bare_encoded. }
  assert (TrimSpace c = c) as ->.
  { unfold TrimSpace. assert (trimLeftSpaceN (length c) c = c) as ->.
    { destruct c as [|b c]; [done|]. apply Forall_cons in Hc as [Hb _]. cbn [trimLeftSpaceN length].
      pose proof (bare_ascii b Hb). assert (DecodeRune (b :: c) = (b, 1%nat)) as ->.
      { pose proof (DecodeRune_EncodeRune b c) as HD. unfold EncodeRune in HD. rewrite in_range_true in HD by lia.
        apply HD. unfold ValidRune. lia. }
      by rewrite (bare_no_space b Hb). }
    destruct (exists_last Hne) as (c' & b & ->). apply Forall_app in Hc as [_ [Hb _]%Forall_cons].
    rewrite length_app, Nat.add_1_r. cbn [trimRightSpaceN]. rewrite DecodeLastRune_bare by done.
    rewrite (bare_no_space b Hb). by destruct c'. }
  rewrite (proj2 (bytes_eqb_eq c c) eq_refl). cbn [negb orb].
  assert (contains_any c [SP; TAB; CR; LF] = false) as ->; [|done].
  apply contains_any_false. intros b Hb Hin. rewrite Forall_forall in Hc. specialize (Hc b Hb).
  revert Hin. rewrite !elem_of_cons. intros [-> | [-> | [-> | [-> | []%elem_of_nil]]]]; done.
Qed.

(** The names of tmux commands: lower-case letters and hyphens. *)
Definition command_name (c : bytes) : bool :=
  negb (bytes_eqb c []) && forallb (λ b, in_range ca b cz || (b =b MINUS)) c.

Lemma command_name_bare c : command_name c = true → c ≠ [] ∧ Forall (λ b, isBareRune b = true) c ∧ (c ∉ directives).
Proof.
  unfold command_name. rewrite andb_true_iff, forallb_Forall. intros [Hn Hc].
  assert (c ≠ []) as Hne by (by intros ->). split_and!; [done| |].
  - eapply Forall_impl; [exact Hc|]. unfold isBareRune. cbn [existsb]. lia.
  - destruct c as [|b c]; [done|]. apply Forall_cons in Hc as [Hb _].
    assert (b ≠ PERCENT) as Hp by (intros ->; done).
    unfold directives. rewrite !not_elem_of_cons. split_and!; [intros [= -> _]; by apply Hp..|apply not_elem_of_nil].
Qed.



(** A text with a single quote goes into double quotes, where tmux expands a
    leading tilde, which the code does not escape. *)
Example tilde_not_escaped : quoteArg (str "~'s") = [DQUOTE] ++ str "~'s" ++ [DQUOTE].
Proof. vm_compute. reflexivity. Qed.

(** What a rendered argument is made of: UTF-8 without line ends. *)
Lemma quoteRune_plain r : ValidRune r = true → r ≠ CR → r ≠ LF → plain_argument (quoteRune r).
Proof.
  intros Hr Hcr Hlf. assert (valid_utf8 (EncodeRune r)) as Hv.
  { exists [r]. split; [by repeat constructor|]. by rewrite encoded_cons, app_nil_r. }
  assert (∀ c, c ∈ EncodeRune r → 0 ≤ c < 0x80 → c = r) as Hc.
  { intros c Hin Hlt. pose proof (EncodeRune_ascii_elem r c Hin Hlt) as He.
    pose proof (DecodeRune_EncodeRune r [] Hr) as HD. rewrite app_nil_r, He in HD. simpl in HD.
    by destruct (first_info c) as [[[|[|[|[|]]]] [? ?]]|]; simplify_eq. }
  assert (CR ∉ EncodeRune r ∧ LF ∉ EncodeRune r) as [H1 H2] by (split; intros H; apply Hc in H; lia).
  unfold quoteRune. destruct (existsb _ _); cbn [app]; [|done].
  split_and!; [|set_solver..]. apply (valid_utf8_app [BSLASH]); [by apply valid_utf8_ascii|done].
Qed.

Lemma plain_argument_app s t : plain_argument s → plain_argument t → plain_argument (s ++ t).
Proof. intros (? & ? & ?) (? & ? & ?). split_and!; [by apply valid_utf8_app|set_solver..]. Qed.

Lemma plain_argument_ascii c : 0 ≤ c < 0x80 → c ≠ CR → c ≠ LF → plain_argument [c].
Proof. intros. split_and!; [by apply valid_utf8_ascii|set_solver..]. Qed.

Lemma quoted_plain rs :
  scalars rs → CR ∉ encoded rs → LF ∉ encoded rs → plain_argument (concat (quoteRune <$> rs)).
Proof.
  induction 1 as [|r rs Hr Hrs IH]; intros H1 H2; [split_and!; [by exists []|set_solver..]|].
  rewrite encoded_cons in H1, H2. cbn [fmap list_fmap concat].
  apply plain_argument_app; [|apply IH; set_solver]. apply quoteRune_plain; [done|..].
  - intros ->. apply H1. apply elem_of_app. left. vm_compute. apply elem_of_cons. by left.
  - intros ->. apply H2. apply elem_of_app. left. vm_compute. apply elem_of_cons. by left.
Qed.

Lemma quoteArg_plain v : plain_argument v → plain_argument (quoteArg v).
Proof.
  intros Hv. pose proof Hv as ((rs & Hrs & ->) & H1 & H2). unfold quoteArg.
  assert (∀ q, q = SQUOTE ∨ q = DQUOTE → plain_argument [q]) as Hq.
  { intros q [-> | ->]; by apply plain_argument_ascii. }
  destruct (bytes_eqb _ _); [apply (plain_argument_app [SQUOTE]); auto|].
  destruct (isBareArg _); [done|]. rewrite runes_encoded by done.
  destruct (negb _); repeat apply plain_argument_app; auto using quoted_plain.
Qed.

Lemma renderArgs_plain i args rest :
  Forall (λ a, Forall is_byte (value a)) args → renderArgs i args = Ok rest → plain_argument rest.
Proof.
  intros Ha. revert i rest. induction Ha as [|a args Hb _ IH]; intros i rest; cbn [renderArgs].
  { intros [= <-]. split_and!; [by exists []|set_solver..]. }
  destruct (renderArg a) as [rendered|e] eqn:E; [|done].
  intros (rest' & Hrest & [= <-])%rbind_ok. apply (plain_argument_app [SP]); [by apply plain_argument_ascii|].
  apply plain_argument_app; [|by eapply IH].
  unfold renderArg in E. apply rbind_ok in E as ([] & Hv%validateArgument_ok & E); [|done].
  destruct (raw a); [destruct (blank _); [done|]|]; injection E as <-; [done|by apply quoteArg_plain].
Qed.

(** every rendered line is one that can be sent: it is not blank, is UTF-8 and
    has no line end, so that it stays one command of the protocol. *)
Theorem rendered_line_accepted l line :
  Forall is_byte (Command l) → Forall (λ a, Forall is_byte (value a)) (Args l) →
  CommandLine_String l = Ok line → validateRawLine line = Ok tt.
Proof.
  intros Hc Ha. unfold CommandLine_String. intros ([] & Hv & (rest & Hrest & [= <-])%rbind_ok)%rbind_ok.
  apply renderArgs_plain in Hrest as ((rr & Hrr & ->) & Hcr & Hlf); [|done].
  unfold validateCommandToken in Hv. destruct (bytes_eqb (Command l) []) eqn:E0; [done|].
  destruct (ValidString (Command l)) eqn:Es; [|done]. apply ValidString_iff in Es as (rc & Hrc & Heq); [|done].
  destruct (bytes_eqb (TrimSpace (Command l)) (Command l)) eqn:Et; [|done]. cbn [negb orb] in Hv.
  destruct (contains_any (Command l) _) eqn:En; [done|]. apply bytes_eqb_eq in Et. rewrite contains_any_false in En.
  assert (scalars (rc ++ rr)) as Hsc by (by apply Forall_app_2).
  unfold validateRawLine. rewrite Heq, <-encoded_app in *.
  assert (blank (encoded (rc ++ rr)) = false) as ->.
  { destruct (blank (encoded (rc ++ rr))) eqn:Eb; [|done]. apply blank_encoded in Eb as [Eb _]%Forall_app; [|done].
    apply blank_encoded in Eb; [|done]. unfold blank in Eb. rewrite Et in Eb. congruence. }
  assert (ValidString (encoded (rc ++ rr)) = true) as ->.
  { apply ValidString_iff; [apply scalar_bytes|]. by exists (rc ++ rr). }
  assert (contains_any (encoded (rc ++ rr)) [CR; LF] = false) as ->; [|done].
  apply contains_any_false. intros c Hin Hc'. rewrite encoded_app in Hin.
  apply elem_of_app in Hin as [Hin|Hin]; [apply (En c Hin); set_solver|set_solver].
Qed.

Lemma rendered_line_accepted_witness :
  validateRawLine (str "refresh-client -A %3:pause") = Ok tt.
Proof.
  apply (rendered_line_accepted (NewCommandLine RefreshClient [RawArg (str "-A"); StringArg (str "%3:pause")]));
    [by repeat constructor|by repeat constructor|vm_compute; reflexivity].
Defined.

(** ** The line parser *)

(** The messages of a run of lines; it stops at the first error, as the read loop
    of the client does. *)
Definition message (m : protocolMessage) : list protocolMessage :=
  match m with MessageNone => [] | _ => [m] end.

Fixpoint feedAll (ls : list bytes) (p : protocolParser) : result error (protocolParser * list protocolMessage) :=
  match ls with
  | [] => Ok (p, [])
  | line :: ls =>
      match feed line p with
      | (_, Err e) => Err e
      | (p, Ok m) => let! (p, ms) := feedAll ls p in Ok (p, message m ++ ms)
      end
  end.

(** The line that ends the block opened by [m]. *)
Definition closes (m : BlockMarker) (line : bytes) : option (bool * BlockMarker) :=
  match parseTerminator line with
  | Some (isError, m') => if sameMarkerIdentity m m' then Some (isError, m') else None
  | None => None
  end.

Definition body_line (m : BlockMarker) (line : bytes) : Prop := closes m line = None.

Definition kept (body : list bytes) : list bytes := filter (λ l, l ≠ []) body.

(** A transcript: notifications and response blocks in any order, a block possibly
    still open at the end. *)
Inductive Transcript : list bytes → protocolParser → list protocolMessage → Prop :=
| T_end : Transcript [] None []
| T_blank ls p ms : Transcript ls p ms → Transcript ([] :: ls) p ms
| T_notification line n ls p ms :
    line ≠ [] → parseBegin line = Ok None → ParseNotification line = Ok n →
    Transcript ls p ms → Transcript (line :: ls) p (MessageNotification n :: ms)
| T_block b m body e isError m' ls p ms :
    parseBegin b = Ok (Some m) → Forall (body_line m) body → closes m e = Some (isError, m') →
    Transcript ls p ms →
    Transcript (b :: body ++ e :: ls) p (MessageResponse (MkResponse m m' (kept body) isError) :: ms)
| T_open b m body :
    parseBegin b = Ok (Some m) → Forall (body_line m) body → Transcript (b :: body) (Some (MkBuilder m (kept body))) [].

Lemma parseBegin_nonempty b m : parseBegin b = Ok (Some m) → bytes_eqb b [] = false.
Proof. intros H. destruct (bytes_eqb b []) eqn:E; [|done]. apply bytes_eqb_eq in E as ->. done. Qed.

Lemma closes_nonempty m e x : closes m e = Some x → bytes_eqb e [] = false.
Proof. intros H. destruct (bytes_eqb e []) eqn:E; [|done]. apply bytes_eqb_eq in E as ->. done. Qed.

(** [feed] inside a block. *)
Lemma feed_active line m acc :
  feed line (Some (MkBuilder m acc)) =
    match closes m line with
    | Some (isError, m') => (None, Ok (MessageResponse (MkResponse m m' acc isError)))
    | None => (Some (MkBuilder m (acc ++ kept [line])), Ok MessageNone)
    end.
Proof.
  unfold feed, normalizeControlLine, kept. destruct (bytes_eqb line []) eqn:E.
  { apply bytes_eqb_eq in E as ->. cbn. by rewrite app_nil_r. }
  assert (filter (λ l : bytes, l ≠ []) [line] = [line]) as ->.
  { rewrite filter_cons_True, filter_nil; [done|]. intros ->. done. }
  unfold closes. cbn [begin lines]. destruct (parseTerminator line) as [[isError m']|]; [|done].
  by destruct (sameMarkerIdentity m m').
Qed.

Lemma feedAll_body ls body m acc :
  Forall (body_line m) body →
  feedAll (body ++ ls) (Some (MkBuilder m acc)) = feedAll ls (Some (MkBuilder m (acc ++ kept body))).
Proof.
  intros Hb. revert acc. induction Hb as [|l body Hl _ IH]; intros acc; cbn [app].
  { by rewrite app_nil_r. }
  cbn [feedAll]. rewrite feed_active, Hl, IH. rewrite <-app_assoc. unfold kept.
  change (l :: body) with ([l] ++ body). rewrite filter_app. by destruct (feedAll ls _) as [[? ?]|].
Qed.

Lemma feedAll_block ls m acc :
  (∃ body, ls = body ∧ Forall (body_line m) body ∧ feedAll ls (Some (MkBuilder m acc)) = Ok (Some (MkBuilder m (acc ++ kept body)), [])) ∨
  (∃ body e isError m' rest, ls = body ++ e :: rest ∧ Forall (body_line m) body ∧ closes m e = Some (isError, m') ∧
     feedAll ls (Some (MkBuilder m acc)) =
       let! (p, ms) := feedAll rest None in
       Ok (p, MessageResponse (MkResponse m m' (acc ++ kept body) isError) :: ms)).
Proof.
  assert (Forall (body_line m) ls ∨ ∃ body e isError m' rest, ls = body ++ e :: rest ∧ Forall (body_line m) body ∧ closes m e = Some (isError, m'))
    as [Hb|(body & e & isError & m' & rest & -> & Hb & He)].
  { induction ls as [|l ls IH]; [by left|]. destruct (closes m l) as [[isError m']|] eqn:Hl.
    - right. exists [], l, isError, m', ls. done.
    - destruct IH as [Hls|(body & e & isError & m' & rest & -> & Hb & He)]; [left; by constructor|].
      right. exists (l :: body), e, isError, m', rest. split_and!; [done|by constructor|done]. }
  - left. exists ls. split_and!; [done|done|]. rewrite <-(app_nil_r ls) at 1. by rewrite feedAll_body.
  - right. exists body, e, isError, m', rest. split_and!; [done..|].
    rewrite feedAll_body by done. cbn [feedAll]. by rewrite feed_active, He.
Qed.

(** C35: the line parser implements the guarded-block protocol: a run of lines is
    accepted exactly when it is a transcript, every response has its own markers
    and the non-empty lines between them, whatever those lines look like, and the
    parser is inside a block exactly when the last one is still open. *)
Theorem parser_transcripts ls p ms : feedAll ls None = Ok (p, ms) ↔ Transcript ls p ms.
Proof.
  split.
  - remember (length ls) as n eqn:Hn. revert ls p ms Hn. induction n as [n IH] using lt_wf_ind.
    intros ls p ms Hn H. destruct ls as [|line ls]; [injection H as <- <-; constructor|].
    cbn [feedAll] in H. cbn [length] in Hn. unfold feed, normalizeControlLine in H.
    destruct (bytes_eqb line []) eqn:E.
    { apply bytes_eqb_eq in E as ->. apply rbind_ok in H as ([p' ms'] & H & [= -> ->]).
      apply T_blank. by apply (IH (length ls)); [lia| |]. }
    assert (line ≠ []) as Hne by (intros ->; done).
    destruct (parseBegin line) as [[m|]|e] eqn:Eb; [| |done].
    + apply rbind_ok in H as ([p' ms'] & H & [= -> ->]). cbn [app].
      destruct (feedAll_block ls m []) as [(body & -> & Hb & Hf)|(body & e & isError & m' & rest & -> & Hb & He & Hf)];
        rewrite Hf in H.
      * injection H as <- <-. by apply T_open.
      * apply rbind_ok in H as ([p2 ms2] & H & [= -> <-]). apply T_block; [done..|].
        apply (IH (length rest)); [|done|done]. rewrite Hn, length_app. simpl. lia.
    + destruct (has_prefix line [PERCENT]); [|done]. destruct (ParseNotification line) as [nt|e] eqn:En; [|done].
      apply rbind_ok in H as ([p' ms'] & H & [= -> <-]). apply T_notification; [done..|].
      by apply (IH (length ls)); [lia| |].
  - induction 1 as [|ls p ms _ IH|line nt ls p ms Hne Hb Hn _ IH|b m body e isError m' ls p ms Hb Hbody He _ IH|b m body Hb Hbody].
    + done.
    + cbn [feedAll]. change (feed [] None) with (None : protocolParser, Ok (E := error) MessageNone). cbv iota beta. by rewrite IH.
    + cbn [feedAll]. unfold feed, normalizeControlLine.
      destruct (bytes_eqb line []) eqn:E; [by apply bytes_eqb_eq in E|]. rewrite Hb.
      assert (has_prefix line [PERCENT] = true) as ->.
      { unfold ParseNotification in Hn. by destruct (has_prefix line [PERCENT]). }
      by rewrite Hn, IH.
    + cbn [feedAll]. unfold feed, normalizeControlLine. rewrite (parseBegin_nonempty b m Hb), Hb.
      rewrite feedAll_body by done. cbn [feedAll]. rewrite feed_active, He, IH. done.
    + cbn [feedAll]. unfold feed, normalizeControlLine. rewrite (parseBegin_nonempty b m Hb), Hb.
      rewrite <-(app_nil_r body) at 1. rewrite feedAll_body by done. done.
Qed.

(** A block whose output looks like another block's end, and an empty line. *)
Example transcript_sample :
  feedAll [str "%begin 10 7 1"; str "%end 10 8 1"; []; str "%output %1 x"; str "%error 10 7 1"; str "%pause %1"] None =
  Ok (None,
    [MessageResponse (MkResponse (MkMarker 10 7 1) (MkMarker 10 7 1) [str "%end 10 8 1"; str "%output %1 x"] true);
     MessageNotification (MkNotification (str "%pause") (str "%pause %1") [str "%1"])]).
Proof. vm_compute. reflexivity. Qed.

(** ** Notifications *)

Lemma TrimLeftByte_length c s : (length (TrimLeftByte c s) ≤ length s)%nat.
Proof. induction s as [|b s IH]; simpl; [done|]. destruct (b =b c); simpl; lia. Qed.

Lemma find_index_lt {A} (q : A → bool) s i : find_index q s = Some i → (i < length s)%nat.
Proof.
  revert i. induction s as [|b s IH]; intros i; simpl; [done|]. destruct (q b); [intros [= <-]; lia|].
  destruct (find_index q s) as [j|]; [|done]. intros [= <-]. specialize (IH j eq_refl). lia.
Qed.

Lemma Cut_length s c a b : Cut s c = (a, b, true) → (length b < length s)%nat.
Proof.
  unfold Cut, IndexByte. destruct (find_index (Z.eqb c) s) as [i|] eqn:E; [|done]. intros [= <- <-].
  apply find_index_lt in E. rewrite length_drop. lia.
Qed.

Lemma splitFieldsN_total fuel fields s : (length s < fuel)%nat → splitFieldsN fuel fields s ≠ None.
Proof.
  revert fields s. induction fuel as [|fuel IH]; intros fields s Hf; [lia|]. cbn [splitFieldsN].
  destruct (bytes_eqb s []); [done|]. destruct (bytes_eqb s [COLON]); [done|].
  destruct (CutPrefix s [COLON; SP]); [done|]. destruct (Cut s SP) as [[field rest] [|]] eqn:E; cbn [negb]; [|done].
  destruct (bytes_eqb field [COLON]); [done|]. apply IH.
  apply Cut_length in E. pose proof (TrimLeftByte_length SP rest). lia.
Qed.

Lemma wrap64_id n : - 2 ^ 63 ≤ n < 2 ^ 63 → wrap64 n = n.
Proof. intros. unfold wrap64. rewrite Z.mod_small by lia. lia. Qed.

(** the age of buffered output never overflows: [ExtendedOutput] always
    returns, and the age it accepts is the non-negative number of milliseconds of
    the field, in nanoseconds, without wrapping around. *)
Theorem extendedOutput_age n :
  Kind n = str "%extended-output" →
  ∃ r, ExtendedOutput n = Some r ∧
    ∀ o, r = Ok o →
      ∃ millis age, ParseInt age = Ok millis ∧ EAge o = millis * Millisecond ∧ 0 ≤ EAge o ≤ MaxInt64.
Proof.
  intros Hk. unfold ExtendedOutput. rewrite (proj2 (bytes_eqb_eq _ _) Hk). cbn [negb].
  destruct (Cut (Raw n) SP) as [[k rest] [|]]; cbn [negb]; [|by eexists].
  unfold splitFieldsBeforeValue. destruct (bytes_eqb rest []); [by eexists|].
  destruct (splitFieldsN (S (length rest)) [] rest) as [split|] eqn:Es; [|by apply splitFieldsN_total in Es; [|lia]].
  eexists. split; [reflexivity|]. intros o ([fields v] & -> & H)%rbind_ok.
  destruct fields as [|pane [|age ext]]; try done. apply rbind_ok in H as ([] & _ & H).
  destruct (ParseInt age) as [millis|] eqn:Ep; [|done]. destruct (Z.ltb_spec millis 0); [done|].
  destruct (Z.ltb_spec maxAgeMillis millis); [done|]. injection H as <-. exists millis, age. cbn [EAge].
  unfold maxAgeMillis, MaxInt64, Millisecond in *.
  rewrite wrap64_id by div_mod_lia. split_and!; [done..|lia|div_mod_lia].
Qed.

Lemma extendedOutput_age_witness :
  ∃ r, ExtendedOutput (MkNotification (str "%extended-output") (str "%extended-output %1 9223372036854 : x") []) = Some r ∧
    ∀ o, r = Ok o →
      ∃ millis age, ParseInt age = Ok millis ∧ EAge o = millis * Millisecond ∧ 0 ≤ EAge o ≤ MaxInt64.
Proof. apply (extendedOutput_age (MkNotification _ _ _)). reflexivity. Defined.
End TmuxSpec.
