(* ===== verification/TmuxClient.v ===== *)
(** The tmux client of pkg/tmux (client.go): callers of [ExecRaw], the read loop
    and [Close] run concurrently and share the pending slot, the write lock and the
    closed flag.  Each rule of [step] is one critical section or one channel
    operation of a thread; tmux is the environment that answers the lines it gets in
    order, each with as many response blocks as the line has commands. *)
From stdpp Require Import functions.
From S2P Require Import Prelude GoUtf8 GoStrings Tmux.

Module Client.

(** ** State *)

Inductive errorKind := ErrClosed | ErrContext | ErrWrite | ErrPending | ErrAborted.

(** What is sent on [pendingCommand.ch]: the response to the line of command [j]
    (a [CommandError] carries it too), or the error of [failPending]. *)
Inductive responseResult := Response (j : nat) | Failed (e : errorKind).

(** Program points of [ExecRaw], after the validation of its line. *)
Inductive execPoint :=
| EIdle                             (* not called *)
| ELock                             (* c.writeMu.Lock() *)
| ECheck                            (* c.closedError() *)
| ERegister                         (* c.registerPending(pending) *)
| EWrite                            (* c.transport.WriteLine(ctx, line) *)
| EWait                             (* select on pending.ch and ctx.Done() *)
| EClear                            (* cancelled: c.clearPending(pending) *)
| EMark                             (* c.abort: c.markClosed(ErrClosed) *)
| EFail                             (* c.abort: c.failPending(ErrClosed) *)
| EFailSend (i : nat)               (* pending.ch <- responseResult{err: err} *)
| EUnlock (r : responseResult)      (* the deferred c.writeMu.Unlock() *)
| EDone (r : responseResult).       (* returned *)

Inductive readPoint :=
| RRead                             (* tr.ReadLine and parser.feed *)
| RTake (j : nat)                   (* deliverResponse: the section on pendingMu *)
| RSend (i j : nat)                 (* pending.ch <- result *)
| RMark (e : errorKind)             (* c.abort: c.markClosed(err) *)
| RFail (e : errorKind)             (* c.abort: c.failPending(err) *)
| RFailSend (i : nat) (e : errorKind)
| RDone.

Inductive closePoint :=
| CIdle
| CMark (alreadyClosed : bool)      (* c.markClosed(ErrClosed) *)
| CFail (alreadyClosed : bool)      (* c.failPending(ErrClosed) *)
| CFailSend (i : nat) (alreadyClosed : bool)
| CDetach (alreadyClosed : bool)    (* detach-client under c.writeMu.TryLock() *)
| CDone.

Record state := St {
  closed : option errorKind;        (* closed and closeErr *)
  pending : option nat;             (* the pointer, as the id of the command *)
  writeMu : option nat;
  chan : nat → list responseResult; (* pending.ch of each command, capacity one *)
  execs : nat → execPoint;
  reader : readPoint;
  closer : closePoint;
  unanswered : list (option nat);   (* lines tmux has yet to answer; None is detach-client *)
}.

Definition set_closed (v : option errorKind) (st : state) : state :=
  St v (pending st) (writeMu st) (chan st) (execs st) (reader st) (closer st) (unanswered st).
Definition set_pending (v : option nat) (st : state) : state :=
  St (closed st) v (writeMu st) (chan st) (execs st) (reader st) (closer st) (unanswered st).
Definition set_writeMu (v : option nat) (st : state) : state :=
  St (closed st) (pending st) v (chan st) (execs st) (reader st) (closer st) (unanswered st).
Definition set_chan (i : nat) (v : list responseResult) (st : state) : state :=
  St (closed st) (pending st) (writeMu st) (<[i := v]> (chan st)) (execs st) (reader st) (closer st) (unanswered st).
Definition set_exec (i : nat) (v : execPoint) (st : state) : state :=
  St (closed st) (pending st) (writeMu st) (chan st) (<[i := v]> (execs st)) (reader st) (closer st) (unanswered st).
Definition set_reader (v : readPoint) (st : state) : state :=
  St (closed st) (pending st) (writeMu st) (chan st) (execs st) v (closer st) (unanswered st).
Definition set_closer (v : closePoint) (st : state) : state :=
  St (closed st) (pending st) (writeMu st) (chan st) (execs st) (reader st) v (unanswered st).
Definition set_unanswered (v : list (option nat)) (st : state) : state :=
  St (closed st) (pending st) (writeMu st) (chan st) (execs st) (reader st) (closer st) v.

(** The client after the handshake of [New]. *)
Definition opened : state := St None None None (λ _, []) (λ _, EIdle) RRead CIdle [].

(** ** Critical sections *)

Definition markClosed (e : errorKind) (st : state) : state :=
  match closed st with Some _ => st | None => set_closed (Some e) st end.

Definition closedError (st : state) : option errorKind := closed st.

(** Returns whether the command was registered. *)
Definition registerPending (i : nat) (st : state) : state * bool :=
  match pending st with Some _ => (st, false) | None => (set_pending (Some i) st, true) end.

Definition clearPending (i : nat) (st : state) : state :=
  if decide (pending st = Some i) then set_pending None st else st.

(** The sections of [deliverResponse] and [failPending] on [pendingMu]. *)
Definition takePending (st : state) : state * option nat := (set_pending None st, pending st).

(** A send on a channel of capacity one, which blocks while it is full. *)
Definition send (i : nat) (r : responseResult) (st : state) : option state :=
  match chan st i with [] => Some (set_chan i [r] st) | _ => None end.

(** ** Steps *)

(** tmux answers the line of command [i] with [blocks i] response blocks, and [partial i]
    is what it answers when the write of that line reports an error. *)
Section tmux.
Context (blocks partial : nat → nat).

Inductive step : state → state → Prop :=
(* ExecRaw *)
| S_call i st : execs st i = EIdle → step st (set_exec i ELock st)
| S_lock i st : execs st i = ELock → writeMu st = None → step st (set_exec i ECheck (set_writeMu (Some i) st))
| S_closed i e st : execs st i = ECheck → closedError st = Some e → step st (set_exec i (EUnlock (Failed e)) st)
| S_open i st : execs st i = ECheck → closedError st = None → step st (set_exec i ERegister st)
| S_context i st : execs st i = ERegister → step st (set_exec i (EUnlock (Failed ErrContext)) st)
| S_register i st st' : execs st i = ERegister → registerPending i st = (st', true) → step st (set_exec i EWrite st')
| S_busy i st st' :
    execs st i = ERegister → registerPending i st = (st', false) → step st (set_exec i (EUnlock (Failed ErrPending)) st')
| S_write i st : execs st i = EWrite → step st (set_exec i EWait (set_unanswered (unanswered st ++ replicate (blocks i) (Some i)) st))
| S_write_error i st :
    execs st i = EWrite →
    step st (set_exec i (EUnlock (Failed ErrWrite))
      (clearPending i (set_unanswered (unanswered st ++ replicate (partial i) (Some i)) st)))
| S_receive i r st : execs st i = EWait → chan st i = [r] → step st (set_exec i (EUnlock r) (set_chan i [] st))
| S_cancel i st : execs st i = EWait → step st (set_exec i EClear st)
| S_clear i st : execs st i = EClear → step st (set_exec i EMark (clearPending i st))
| S_mark i st : execs st i = EMark → step st (set_exec i EFail (markClosed ErrClosed st))
| S_fail i st :
    execs st i = EFail →
    step st (set_exec i (match (takePending st).2 with Some k => EFailSend k | None => EUnlock (Failed ErrContext) end)
               (takePending st).1)
| S_fail_send i k st st' :
    execs st i = EFailSend k → send k (Failed ErrClosed) st = Some st' → step st (set_exec i (EUnlock (Failed ErrContext)) st')
| S_unlock i r st : execs st i = EUnlock r → step st (set_exec i (EDone r) (set_writeMu None st))
(* readLoop *)
| R_response j us st :
    reader st = RRead → unanswered st = Some j :: us → step st (set_reader (RTake j) (set_unanswered us st))
| R_detached us st : reader st = RRead → unanswered st = None :: us → step st (set_unanswered us st)
| R_take j st :
    reader st = RTake j →
    step st (set_reader (match (takePending st).2 with Some i => RSend i j | None => RRead end) (takePending st).1)
| R_send i j st st' : reader st = RSend i j → send i (Response j) st = Some st' → step st (set_reader RRead st')
| R_abort e st : reader st = RRead → step st (set_reader (RMark e) st)
| R_mark e st : reader st = RMark e → step st (set_reader (RFail e) (markClosed e st))
| R_fail e st :
    reader st = RFail e →
    step st (set_reader (match (takePending st).2 with Some i => RFailSend i e | None => RDone end) (takePending st).1)
| R_fail_send i e st st' : reader st = RFailSend i e → send i (Failed e) st = Some st' → step st (set_reader RDone st')
(* Close *)
| C_call st : closer st = CIdle → step st (set_closer (CMark (bool_decide (closedError st ≠ None))) st)
| C_mark b st : closer st = CMark b → step st (set_closer (CFail b) (markClosed ErrClosed st))
| C_fail b st :
    closer st = CFail b →
    step st (set_closer (match (takePending st).2 with Some i => CFailSend i b | None => CDetach b end) (takePending st).1)
| C_fail_send i b st st' :
    closer st = CFailSend i b → send i (Failed ErrClosed) st = Some st' → step st (set_closer (CDetach b) st')
| C_detach st :
    closer st = CDetach false → writeMu st = None → step st (set_closer CDone (set_unanswered (unanswered st ++ [None]) st))
| C_skip b st : closer st = CDetach b → step st (set_closer CDone st).

Inductive reachable : state → Prop :=
| Re_init : reachable opened
| Re_step st st' : reachable st → step st st' → reachable st'.
End tmux.

(** ** Invariant *)

(** Lines written and not yet matched with the pending slot, the oldest first. *)
Definition inflight (st : state) : list (option nat) :=
  match reader st with RTake j => [Some j] | _ => [] end ++ unanswered st.

Definition reader_sends (st : state) (i : nat) : Prop :=
  match reader st with RSend k _ | RFailSend k _ => k = i | _ => False end.

Definition closer_sends (st : state) (i : nat) : Prop :=
  match closer st with CFailSend k _ => k = i | _ => False end.

(** From the registration on, a channel may be written to. *)
Definition registered (pc : execPoint) : Prop :=
  match pc with EIdle | ELock | ECheck | ERegister => False | _ => True end.

Definition written (pc : execPoint) : Prop :=
  match pc with EIdle | ELock | ECheck | ERegister | EWrite => False | _ => True end.

(** The points between the write and the end of the wait or of the abort. *)
Definition waiting (pc : execPoint) : Prop :=
  match pc with EWait | EClear | EMark | EFail => True | _ => False end.

Definition own (r : responseResult) (i : nat) : Prop :=
  match r with Response j => j = i | Failed _ => True end.

Definition exec_inv (st : state) (i : nat) (pc : execPoint) : Prop :=
  match pc with
  | EIdle | ELock => writeMu st ≠ Some i
  | ECheck => writeMu st = Some i ∧ (closed st = None → inflight st = [])
  | ERegister | EWrite => writeMu st = Some i ∧ inflight st = []
  | EWait | EClear => writeMu st = Some i ∧ (inflight st = [] ∨ inflight st = [Some i])
  | EMark => writeMu st = Some i ∧ pending st ≠ Some i ∧ (inflight st = [] ∨ inflight st = [Some i])
  | EFail => writeMu st = Some i ∧ pending st ≠ Some i ∧ (inflight st = [] ∨ inflight st = [Some i]) ∧ closed st ≠ None
  | EFailSend _ => False
  | EUnlock r => writeMu st = Some i ∧ (closed st = None → inflight st = []) ∧ own r i
  | EDone r => writeMu st ≠ Some i ∧ own r i
  end.

Definition reader_inv (st : state) : Prop :=
  match reader st with
  | RSend i j => j = i ∧ written (execs st i) ∧ (waiting (execs st i) → inflight st = [])
  | RFail _ => closed st ≠ None
  | RFailSend i _ => closed st ≠ None
  | _ => True
  end ∧ ∀ i, reader_sends st i → chan st i = [] ∧ pending st ≠ Some i ∧ ¬ closer_sends st i ∧ registered (execs st i).

Definition closer_inv (st : state) : Prop :=
  match closer st with CIdle | CMark _ => True | _ => closed st ≠ None end ∧
  ∀ i, closer_sends st i → chan st i = [] ∧ pending st ≠ Some i ∧ registered (execs st i).

Definition chan_inv (st : state) (i : nat) (c : list responseResult) : Prop :=
  match c with
  | [] => True
  | [Response j] => j = i ∧ written (execs st i) ∧ (waiting (execs st i) → inflight st = [])
  | [Failed _] => registered (execs st i) ∧ closed st ≠ None
  | _ => False
  end.

Definition pending_inv (st : state) : Prop :=
  ∀ i, pending st = Some i →
    (execs st i = EWrite ∨ execs st i = EWait ∨ execs st i = EClear) ∧ chan st i = [] .

Record inv (st : state) : Prop := {
  i_exec i : exec_inv st i (execs st i);
  i_reader : reader_inv st;
  i_closer : closer_inv st;
  i_chan i : chan_inv st i (chan st i);
  i_pending : pending_inv st;
  i_free : writeMu st = None → closed st = None → inflight st = [];
}.

Lemma inv_opened : inv opened.
Proof. split; try done. Qed.

(** Case analysis on whether an updated thread or channel is the one looked at. *)
Ltac at_thread i k :=
  destruct (decide (i = k)) as [<-|?];
  [rewrite ?fn_lookup_insert in *|rewrite ?(fn_lookup_insert_ne _ i k) in * by done].

(** *** Updates of one part of the state *)

Lemma written_registered pc : written pc → registered pc.
Proof. by destruct pc. Qed.

(** A caller of [ExecRaw] moves on, possibly taking or giving back the lock or
    writing a line. *)
Lemma inv_update st i pc w us :
  let st' := set_exec i pc (set_writeMu w (set_unanswered us st)) in
  inv st →
  (∀ k, k ≠ i → exec_inv st' k (execs st k)) → exec_inv st' i pc →
  (registered (execs st i) → registered pc) → (written (execs st i) → written pc) →
  (∀ k, written (execs st k) → waiting (execs st' k) → (waiting (execs st k) → inflight st = []) → inflight st' = []) →
  (pending st = Some i → pc = EWrite ∨ pc = EWait ∨ pc = EClear) →
  (w = None → closed st = None → inflight st' = []) →
  inv st'.
Proof.
  intros st' [He Hr Hc Hch Hp Hf] Hoth Hpc Hreg Hwr Hwait Hpend Hfree.
  assert (∀ k, registered (execs st k) → registered (execs st' k)) as Hreg'.
  { intros k. cbn. at_thread i k; auto. }
  assert (∀ k, written (execs st k) → written (execs st' k)) as Hwr'.
  { intros k. cbn. at_thread i k; auto. }
  split.
  - intros k. cbn. at_thread i k; [exact Hpc|by apply Hoth].
  - destruct Hr as [Hr Hs]. split.
    + change (reader st') with (reader st). destruct (reader st) as [|j|k j| | |k e|]; try done.
      destruct Hr as (-> & Hw & Hin). split_and!; [done|auto|]. intros H. by apply (Hwait k).
    + intros k Hk. destruct (Hs k Hk) as (? & ? & ? & ?). split_and!; auto.
  - destruct Hc as [Hc Hs]. split; [done|]. intros k Hk. destruct (Hs k Hk) as (? & ? & ?). split_and!; auto.
  - intros k. specialize (Hch k). change (chan st' k) with (chan st k). destruct (chan st k) as [|[j|e] [|]]; try done.
    + destruct Hch as (-> & Hw & Hin). split_and!; [done|auto|]. intros H. by apply (Hwait k).
    + destruct Hch as [? ?]. split; auto.
  - intros k Hk. destruct (Hp k Hk) as [Hk1 Hk2]. split; [|done]. cbn. at_thread i k; auto.
  - exact Hfree.
Qed.

Lemma inv_exec st i pc :
  inv st → exec_inv st i pc →
  (registered (execs st i) → registered pc) → (written (execs st i) → written pc) →
  (waiting pc → waiting (execs st i)) →
  (pending st = Some i → pc = EWrite ∨ pc = EWait ∨ pc = EClear) →
  inv (set_exec i pc st).
Proof.
  intros Hi Hpc Hreg Hwr Hwait Hpend. destruct st as [cl pd wm ch ex rd cp us].
  apply (inv_update (St cl pd wm ch ex rd cp us) i pc wm us); try done.
  - intros k _. apply (i_exec _ Hi).
  - intros k _ Hk Hin. apply Hin. cbn in *. at_thread i k; auto.
  - apply (i_free _ Hi).
Qed.

Lemma inv_pending_None st : inv st → inv (set_pending None st).
Proof.
  intros [He Hr Hc Hch Hp Hf]. split; cbn.
  - intros k. specialize (He k). unfold exec_inv in *. cbn. destruct (execs st k); try done; naive_solver.
  - destruct Hr as [Hr Hs]. split; [done|]. intros k Hk. destruct (Hs k Hk) as (? & ? & ? & ?). done.
  - destruct Hc as [Hc Hs]. split; [done|]. intros k Hk. destruct (Hs k Hk) as (? & ? & ?). done.
  - done.
  - done.
  - done.
Qed.

Lemma inv_clearPending st i : inv st → inv (clearPending i st).
Proof. intros. unfold clearPending. case_decide; [by apply inv_pending_None|done]. Qed.

Lemma inv_closed st e : inv st → inv (set_closed (Some e) st).
Proof.
  intros [He Hr Hc Hch Hp Hf]. split; cbn.
  - intros k. specialize (He k). unfold exec_inv in *. cbn. destruct (execs st k); destruct_and?; split_and?; done.
  - destruct Hr as [Hr Hs]. split; [|done]. unfold inflight in *. cbn. destruct (reader st); done.
  - destruct Hc as [Hc Hs]. split; [|done]. cbn. destruct (closer st); done.
  - intros k. specialize (Hch k). unfold chan_inv in *. cbn. destruct (chan st k) as [|[j|x] [|]]; try done. naive_solver.
  - done.
  - done.
Qed.

Lemma inv_markClosed st e : inv st → inv (markClosed e st).
Proof. intros. unfold markClosed. destruct (closed st); [done|by apply inv_closed]. Qed.

Lemma markClosed_closed e st : closed (markClosed e st) ≠ None.
Proof. unfold markClosed. by destruct (closed st) eqn:E; [rewrite E|]. Qed.

(** Lines leave the flight in order. *)
Definition shorter (l l' : list (option nat)) : Prop := l' = l ∨ l' = drop 1 l.

Lemma shorter_nil l l' : shorter l l' → l = [] → l' = [].
Proof. intros [-> | ->] ->; done. Qed.

Lemma shorter_one l l' x : shorter l l' → l = [] ∨ l = [x] → l' = [] ∨ l' = [x].
Proof. intros [-> | ->] [-> | ->]; auto. Qed.

Lemma inv_reader st rd us :
  inv st → let st' := set_reader rd (set_unanswered us st) in
  shorter (inflight st) (inflight st') → reader_inv st' → inv st'.
Proof.
  intros [He Hr Hc Hch Hp Hf] st' Hsh Hr'. split; [| done | done | | done |].
  - intros k. specialize (He k). unfold exec_inv in *.
    destruct (execs st k) eqn:Ek; cbn [st' set_reader set_unanswered execs]; rewrite Ek; cbn; destruct_and?;
      split_and?; eauto using shorter_nil, shorter_one.
  - intros k. specialize (Hch k). unfold chan_inv in *. cbn. destruct (chan st k) as [|[j|x] [|]]; try done.
    destruct Hch as (? & ? & Hin). split_and!; [done..|]. intros Hwt. by eapply shorter_nil; [|apply Hin].
  - intros Hw Hcl. eapply shorter_nil; [done|]. by apply Hf.
Qed.

Lemma inv_closer st c :
  inv st → closer_inv (set_closer c st) → (∀ i, reader_sends st i → ¬ closer_sends (set_closer c st) i) →
  inv (set_closer c st).
Proof.
  intros [He Hr Hc Hch Hp Hf] Hc' Hno. split; try done.
  destruct Hr as [Hr Hs]. split; [done|]. intros k Hk. destruct (Hs k Hk) as (? & ? & ? & ?). split_and!; [done|done|by apply Hno|done].
Qed.

(** A result arrives on a channel nobody else is about to write to, or leaves it. *)
Lemma inv_chan st i r :
  inv st → chan_inv st i [r] → pending st ≠ Some i → ¬ reader_sends st i → ¬ closer_sends st i →
  inv (set_chan i [r] st).
Proof.
  intros [He Hr Hc Hch Hp Hf] Hnew Hpd Hrs Hcs. split; try done.
  - destruct Hr as [Hr Hs]. split; [done|]. intros k Hk. destruct (Hs k Hk) as (? & ? & ? & ?).
    split_and!; [|done..]. cbn. by at_thread i k.
  - destruct Hc as [Hc Hs]. split; [done|]. intros k Hk. destruct (Hs k Hk) as (? & ? & ?).
    split_and!; [|done..]. cbn. by at_thread i k.
  - intros k. cbn. at_thread i k; [done|apply Hch].
  - intros k Hk. destruct (Hp k Hk) as [? ?]. split; [done|]. cbn in *. by at_thread i k.
Qed.

Lemma inv_receive st i : inv st → inv (set_chan i [] st).
Proof.
  intros [He Hr Hc Hch Hp Hf]. split; try done.
  - destruct Hr as [Hr Hs]. split; [done|]. intros k Hk. destruct (Hs k Hk) as (? & ? & ? & ?).
    split_and!; [|done..]. cbn. by at_thread i k.
  - destruct Hc as [Hc Hs]. split; [done|]. intros k Hk. destruct (Hs k Hk) as (? & ? & ?).
    split_and!; [|done..]. cbn. by at_thread i k.
  - intros k. cbn. at_thread i k; [done|apply Hch].
  - intros k Hk. destruct (Hp k Hk) as [? ?]. split; [done|]. cbn in *. by at_thread i k.
Qed.

(** Only the holder of the lock is between [ECheck] and [EUnlock]. *)
Lemma not_holder st k :
  inv st → writeMu st ≠ Some k →
  match execs st k with EIdle | ELock | EDone _ => True | _ => False end.
Proof. intros Hi Hk. pose proof (i_exec _ Hi k) as He. unfold exec_inv in He. destruct (execs st k); tauto. Qed.

Lemma inv_register st i :
  inv st → execs st i = ERegister → pending st = None → inv (set_exec i EWrite (set_pending (Some i) st)).
Proof.
  intros Hi Hpc Hpd. destruct Hi as [He Hr Hc Hch Hp Hf].
  assert (¬ reader_sends st i ∧ ¬ closer_sends st i ∧ chan st i = []) as (Hrs & Hcs & Hci).
  { destruct Hr as [_ Hs], Hc as [_ Hs']. specialize (Hch i). split_and!.
    - intros H. destruct (Hs i H) as (_ & _ & _ & H'). by rewrite Hpc in H'.
    - intros H. destruct (Hs' i H) as (_ & _ & H'). by rewrite Hpc in H'.
    - unfold chan_inv in Hch. rewrite Hpc in Hch. destruct (chan st i) as [|[j|e] [|]]; naive_solver. }
  pose proof (He i) as Hei. rewrite Hpc in Hei. destruct Hei as [Hw Hin].
  assert (∀ k, k ≠ i → match execs st k with EIdle | ELock | EDone _ => True | _ => False end) as Hoth.
  { intros k Hk. apply not_holder; [done|]. rewrite Hw. congruence. }
  split.
  - intros k. cbn. at_thread i k; [done|]. specialize (He k). specialize (Hoth k ltac:(done)).
    unfold exec_inv in *. by destruct (execs st k).
  - destruct Hr as [Hr Hs]. split.
    + change (reader (set_exec i EWrite (set_pending (Some i) st))) with (reader st).
      destruct (reader st) as [|j|k j| | |k e|] eqn:E; try done. cbn.
      destruct (decide (i = k)) as [<-|]; [|by rewrite fn_lookup_insert_ne].
      destruct Hrs. unfold reader_sends. by rewrite E.
    + intros k Hk. destruct (Hs k Hk) as (? & ? & ? & ?). cbn. destruct (decide (i = k)) as [<-|]; [done|].
      rewrite fn_lookup_insert_ne by done. split_and!; [done|congruence|done|done].
  - destruct Hc as [Hc Hs]. split; [done|]. intros k Hk. destruct (Hs k Hk) as (? & ? & ?). cbn.
    destruct (decide (i = k)) as [<-|]; [done|]. rewrite fn_lookup_insert_ne by done. split_and!; [done|congruence|done].
  - intros k. cbn. destruct (decide (i = k)) as [<-|]; [by rewrite Hci|]. specialize (Hch k).
    unfold chan_inv in *. cbn. by rewrite fn_lookup_insert_ne.
  - intros k [= <-]. cbn. rewrite fn_lookup_insert. auto.
  - cbn. by rewrite Hw.
Qed.

Lemma set_unanswered_same st : set_unanswered (unanswered st) st = st.
Proof. by destruct st. Qed.

(** The reader changes only its point, to one that takes nothing off the flight. *)
Lemma inv_reader_point st rd :
  inv st → inflight (set_reader rd st) = inflight st → reader_inv (set_reader rd st) → inv (set_reader rd st).
Proof.
  intros Hi Hin Hr. pose proof (inv_reader st rd (unanswered st) Hi) as H. rewrite set_unanswered_same in H.
  apply H; [left; exact Hin|done].
Qed.

(** Who is at a point before the registration is sent nothing. *)
Lemma unregistered_quiet st i : inv st → ¬ registered (execs st i) → pending st ≠ Some i.
Proof. intros Hi Hn H. destruct (i_pending _ Hi i H) as [[E|[E|E]] _]; rewrite E in Hn; by apply Hn. Qed.

Lemma send_Some st i r st' : send i r st = Some st' → chan st i = [] ∧ st' = set_chan i [r] st.
Proof. unfold send. destruct (chan st i); [|done]. by intros [= <-]. Qed.

(** The callers of [ExecRaw]. *)
Ltac exec_at Hi i Hpc :=
  let He := fresh "He" in
  pose proof (i_exec _ Hi i) as He; rewrite Hpc in He; cbn in He.

Lemma inv_lock st i :
  inv st → execs st i = ELock → writeMu st = None → inv (set_exec i ECheck (set_writeMu (Some i) st)).
Proof.
  intros Hi Hpc Hw. pose proof (inv_update st i ECheck (Some i) (unanswered st)) as H.
  rewrite set_unanswered_same in H. apply H; try done; clear H.
  - intros k Hk. pose proof (i_exec _ Hi k) as He. pose proof (not_holder st k Hi ltac:(by rewrite Hw)) as Hn.
    unfold exec_inv in *. destruct (execs st k); try done; cbn; [congruence|congruence|]. destruct He. split; [congruence|done].
  - split; [done|]. intros Hc. apply (i_free _ Hi Hw Hc).
  - by rewrite Hpc.
  - by rewrite Hpc.
  - intros k _ Hk Hin. exfalso. cbn in Hk. at_thread i k; [done|].
    pose proof (not_holder st k Hi ltac:(by rewrite Hw)) as Hn. by destruct (execs st k).
  - intros Hp. exfalso. apply (unregistered_quiet st i Hi); [rewrite Hpc; by intros []|done].
Qed.

Lemma inv_unlock st i r :
  inv st → execs st i = EUnlock r → inv (set_exec i (EDone r) (set_writeMu None st)).
Proof.
  intros Hi Hpc. exec_at Hi i Hpc. destruct He as (Hw & Hcl & Hown).
  pose proof (inv_update st i (EDone r) None (unanswered st)) as H.
  rewrite set_unanswered_same in H. apply H; try done; clear H.
  - intros k Hk. pose proof (i_exec _ Hi k) as He. pose proof (not_holder st k Hi ltac:(rewrite Hw; congruence)) as Hn.
    unfold exec_inv in *. destruct (execs st k); try done; cbn. by destruct He.
  - intros k _ Hk _. exfalso. cbn in Hk. at_thread i k; [done|].
    pose proof (not_holder st k Hi ltac:(rewrite Hw; congruence)) as Hn. by destruct (execs st k).
  - intros Hp. destruct (i_pending _ Hi i Hp) as [[E|[E|E]] _]; rewrite Hpc in E; done.
Qed.

Lemma inv_write st i :
  inv st → execs st i = EWrite → inv (set_exec i EWait (set_unanswered (unanswered st ++ [Some i]) st)).
Proof.
  intros Hi Hpc. exec_at Hi i Hpc. destruct He as (Hw & Hin).
  assert (∀ k, k ≠ i → match execs st k with EIdle | ELock | EDone _ => True | _ => False end) as Hoth.
  { intros k Hk. apply not_holder; [done|]. rewrite Hw. congruence. }
  assert (set_writeMu (writeMu st) (set_unanswered (unanswered st ++ [Some i]) st) = set_unanswered (unanswered st ++ [Some i]) st)
    as Heq by (by destruct st).
  pose proof (inv_update st i EWait (writeMu st) (unanswered st ++ [Some i])) as H. rewrite Heq in H.
  apply H; try done; clear H.
  - intros k Hk. pose proof (i_exec _ Hi k) as He. specialize (Hoth k Hk). unfold exec_inv in *. by destruct (execs st k).
  - split; [done|]. right. unfold inflight in *. cbn. by apply app_nil in Hin as [-> ->].
  - intros k Hwr Hk _. exfalso. cbn in Hk. at_thread i k; [by rewrite Hpc in Hwr|].
    specialize (Hoth k ltac:(done)). by destruct (execs st k).
  - auto.
  - by rewrite Hw.
Qed.

Lemma inv_detach st :
  inv st → writeMu st = None → closed st ≠ None → inv (set_unanswered (unanswered st ++ [None]) st).
Proof.
  intros Hi Hw Hcl. assert (∀ k, match execs st k with EIdle | ELock | EDone _ => True | _ => False end) as Hoth.
  { intros k. apply not_holder; [done|]. by rewrite Hw. }
  destruct Hi as [He Hr Hc Hch Hp Hf]. split; try done.
  - intros k. specialize (He k). specialize (Hoth k). unfold exec_inv in *.
    change (execs (set_unanswered (unanswered st ++ [None]) st) k) with (execs st k). by destruct (execs st k).
  - destruct Hr as [Hr Hs]. split; [|done]. change (reader (set_unanswered (unanswered st ++ [None]) st)) with (reader st).
    destruct (reader st) as [|j|k j| | |k e|]; try done. destruct Hr as (? & ? & ?). split_and!; [done..|].
    cbn. intros Hk. specialize (Hoth k). by destruct (execs st k).
  - intros k. specialize (Hch k). unfold chan_inv in *. cbn. destruct (chan st k) as [|[j|e] [|]]; try done.
    destruct Hch as (? & ? & ?). split_and!; [done..|]. intros Hk. specialize (Hoth k). by destruct (execs st k).
Qed.

(** Moves that leave the shared state alone. *)
Lemma inv_exec_after st i pc pc0 :
  inv st → execs st i = pc0 → exec_inv st i pc → (registered pc0 → registered pc) → (written pc0 → written pc) →
  (waiting pc → waiting pc0) → (pending st = Some i → pc = EWrite ∨ pc = EWait ∨ pc = EClear) →
  inv (set_exec i pc st).
Proof. intros Hi <- ? ? ? ? ?. by apply inv_exec. Qed.

(** The reader takes the pending command for the response to [j]: it is [j]. *)
Lemma inv_take st j :
  inv st → reader st = RTake j →
  inv (set_reader (match pending st with Some i => RSend i j | None => RRead end) (set_pending None st)).
Proof.
  intros Hi Hrd. assert (inv (set_pending None st)) as Hi' by (by apply inv_pending_None).
  pose proof (inv_reader (set_pending None st) (match pending st with Some i => RSend i j | None => RRead end) (unanswered st) Hi') as H.
  change (unanswered st) with (unanswered (set_pending None st)) in H. rewrite set_unanswered_same in H.
  assert (inflight st = Some j :: unanswered st) as Hin by (unfold inflight; by rewrite Hrd).
  apply H; clear H.
  { right. unfold inflight. cbn. rewrite Hrd. by destruct (pending st). }
  unfold reader_inv, reader_sends. cbn. destruct (pending st) as [i|] eqn:Hp; [|done].
  destruct (i_pending _ Hi i Hp) as [Hpc Hch]. pose proof (i_exec _ Hi i) as He.
  assert (j = i ∧ unanswered st = [] ∧ (execs st i = EWait ∨ execs st i = EClear)) as (-> & Hun & Hpc').
  { destruct Hpc as [E|[E|E]]; rewrite E in He; cbn in He; destruct He as [_ He]; rewrite Hin in He.
    - done.
    - destruct He as [|He]; [done|]. injection He as -> ->. auto.
    - destruct He as [|He]; [done|]. injection He as -> ->. auto. }
  split.
  - split_and!; [done|by destruct Hpc' as [-> | ->]|]. intros _. unfold inflight. cbn. done.
  - intros k <-. split_and!; [done|done| |by destruct Hpc' as [-> | ->]].
    intros Hcs. destruct (i_closer _ Hi) as [_ Hs]. by destruct (Hs i Hcs) as (_ & ? & _).
Qed.

(** [failPending] by the reader and by [Close]. *)
Lemma inv_reader_fail st e :
  inv st → reader st = RFail e →
  inv (set_reader (match pending st with Some i => RFailSend i e | None => RDone end) (set_pending None st)).
Proof.
  intros Hi Hrd. apply inv_reader_point; [by apply inv_pending_None|unfold inflight; cbn; rewrite Hrd; by destruct (pending st)|].
  destruct (i_reader _ Hi) as [Hcl _]. rewrite Hrd in Hcl. unfold reader_inv, reader_sends. cbn.
  destruct (pending st) as [i|] eqn:Hp; [|done]. split; [done|]. intros k <-.
  destruct (i_pending _ Hi i Hp) as [Hpc Hch]. split_and!; [done|done| |by destruct Hpc as [-> | [-> | ->]]].
  intros Hcs. destruct (i_closer _ Hi) as [_ Hs]. by destruct (Hs i Hcs) as (_ & ? & _).
Qed.

Lemma inv_closer_fail st b :
  inv st → closer st = CFail b →
  inv (set_closer (match pending st with Some i => CFailSend i b | None => CDetach b end) (set_pending None st)).
Proof.
  intros Hi Hcp. destruct (i_closer _ Hi) as [Hcl _]. rewrite Hcp in Hcl.
  apply inv_closer; [by apply inv_pending_None|..]; unfold closer_inv, closer_sends; cbn.
  - destruct (pending st) as [i|] eqn:Hp; [|done]. split; [done|]. intros k <-.
    destruct (i_pending _ Hi i Hp) as [Hpc Hch]. split_and!; [done|done|by destruct Hpc as [-> | [-> | ->]]].
  - intros k Hrs. destruct (pending st) as [i|] eqn:Hp; [|tauto]. intros ->.
    destruct (i_reader _ Hi) as [_ Hs]. by destruct (Hs k Hrs) as (_ & ? & _).
Qed.

(** The steps of [ExecRaw], of the read loop and of [Close]. *)
Lemma exec_step_inv st i :
  inv st →
  (execs st i = EIdle → inv (set_exec i ELock st)) ∧
  (∀ e, execs st i = ECheck → closed st = Some e → inv (set_exec i (EUnlock (Failed e)) st)) ∧
  (execs st i = ECheck → closed st = None → inv (set_exec i ERegister st)) ∧
  (∀ e, execs st i = ERegister → inv (set_exec i (EUnlock (Failed e)) st)) ∧
  (execs st i = EWrite → inv (set_exec i (EUnlock (Failed ErrWrite)) (clearPending i st))) ∧
  (∀ r, execs st i = EWait → chan st i = [r] → inv (set_exec i (EUnlock r) (set_chan i [] st))) ∧
  (execs st i = EWait → inv (set_exec i EClear st)) ∧
  (execs st i = EClear → inv (set_exec i EMark (clearPending i st))) ∧
  (execs st i = EMark → inv (set_exec i EFail (markClosed ErrClosed st))).
Proof.
  intros Hi.
  assert (pending (clearPending i st) ≠ Some i) as Hcp.
  { unfold clearPending. case_decide; [done|done]. }
  split_and!.
  - intros Hpc. exec_at Hi i Hpc. apply (inv_exec_after _ i _ EIdle); [done|exact Hpc|done..|].
    intros H. destruct (unregistered_quiet st i Hi); [rewrite Hpc; by intros []|done].
  - intros e Hpc Hc. exec_at Hi i Hpc. destruct He as [Hw _]. apply (inv_exec_after _ i _ ECheck); [done|exact Hpc|..]; try done.
    + split_and!; [done| |done]. by rewrite Hc.
    + intros H. destruct (unregistered_quiet st i Hi); [rewrite Hpc; by intros []|done].
  - intros Hpc Hc. exec_at Hi i Hpc. destruct He as [Hw Hin]. apply (inv_exec_after _ i _ ECheck); [done|exact Hpc|..]; try done.
    + split; [done|by apply Hin].
    + intros H. destruct (unregistered_quiet st i Hi); [rewrite Hpc; by intros []|done].
  - intros e Hpc. exec_at Hi i Hpc. destruct He as [Hw Hin]. apply (inv_exec_after _ i _ ERegister); [done|exact Hpc|..]; try done.
    intros H. destruct (unregistered_quiet st i Hi); [rewrite Hpc; by intros []|done].
  - intros Hpc. exec_at Hi i Hpc. destruct He as [Hw Hin]. assert (inv (clearPending i st)) as Hi' by (by apply inv_clearPending).
    apply (inv_exec_after _ i _ EWrite); try done.
    + unfold clearPending. case_decide; exact Hpc.
    + unfold clearPending. case_decide; done.
  - intros r Hpc Hch. exec_at Hi i Hpc. destruct He as [Hw Hin]. pose proof (i_chan _ Hi i) as Hci. rewrite Hch in Hci.
    apply (inv_exec_after _ i _ EWait); [by apply inv_receive|exact Hpc|..]; try done.
    + destruct r as [j|e]; cbn in Hci.
      * destruct Hci as (-> & _ & Hfl). split_and!; [done| |done]. intros _. apply Hfl. by rewrite Hpc.
      * destruct Hci as [_ Hcl]. split_and!; [done| |done]. intros H. by destruct Hcl.
    + intros H. destruct (i_pending _ Hi i H) as [_ H']. by rewrite H' in Hch.
  - intros Hpc. exec_at Hi i Hpc. apply (inv_exec_after _ i _ EWait); [done|exact Hpc|done..|auto].
  - intros Hpc. exec_at Hi i Hpc. destruct He as [Hw Hin]. assert (inv (clearPending i st)) as Hi' by (by apply inv_clearPending).
    apply (inv_exec_after _ i _ EClear); try done.
    + unfold clearPending. case_decide; exact Hpc.
    + split_and!; [unfold clearPending; by case_decide|done|unfold clearPending; by case_decide].
  - intros Hpc. exec_at Hi i Hpc. destruct He as (Hw & Hp & Hin).
    assert (inv (markClosed ErrClosed st)) as Hi' by (by apply inv_markClosed).
    apply (inv_exec_after _ i _ EMark); try done.
    + unfold markClosed. destruct (closed st); exact Hpc.
    + split_and!; [..|apply markClosed_closed]; unfold markClosed; by destruct (closed st).
    + intros H. unfold markClosed in H. by destruct (closed st).
Qed.

Lemma unanswered_same st : set_unanswered (unanswered st) st = st.
Proof. by destruct st. Qed.

(** Every line written is one command, and a write that fails has not reached tmux. *)
Section single.
Context (blocks partial : nat → nat).
Hypothesis single_command : ∀ i, blocks i = 1.
Hypothesis failed_unread : ∀ i, partial i = 0.

Lemma client_step_inv st st' : inv st → step blocks partial st st' → inv st'.
Proof using single_command failed_unread.
  intros Hi Hs.
  destruct Hs as [i st Hpc|i st Hpc Hw|i e st Hpc Hcl|i st Hpc Hcl|i st Hpc|i st st' Hpc Hreg|i st st' Hpc Hreg
    |i st Hpc|i st Hpc|i r st Hpc Hch|i st Hpc|i st Hpc|i st Hpc|i st Hpc|i k st st' Hpc Hsend|i r st Hpc
    |j us st Hrd Hun|us st Hrd Hun|j st Hrd|i j st st' Hrd Hsend|e st Hrd|e st Hrd|e st Hrd|i e st st' Hrd Hsend
    |st Hcp|b st Hcp|b st Hcp|i b st st' Hcp Hsend|st Hcp Hw|b st Hcp];
    rewrite ?single_command, ?failed_unread; cbn [replicate]; rewrite ?app_nil_r, ?unanswered_same;
    try (destruct (exec_step_inv st i Hi) as (H1 & H2 & H3 & H4 & H5 & H6 & H7 & H8 & H9); eauto; fail).
  - by apply inv_lock.
  - unfold registerPending in Hreg. destruct (pending st) eqn:Hp; [done|]. injection Hreg as <-. by apply inv_register.
  - unfold registerPending in Hreg. destruct (pending st) eqn:Hp; [|done]. injection Hreg as <-.
    by apply (exec_step_inv st i Hi).
  - by apply inv_write.
  - exec_at Hi i Hpc. destruct He as (Hw & Hp & Hin & Hcl). cbn [takePending fst snd].
    destruct (pending st) as [k|] eqn:Hk.
    + exfalso. destruct (i_pending _ Hi k Hk) as [Hkpc _]. assert (k ≠ i) as Hne by congruence.
      pose proof (not_holder st k Hi ltac:(rewrite Hw; congruence)) as Hn.
      by destruct Hkpc as [E|[E|E]]; rewrite E in Hn.
    + eapply inv_exec_after; [by apply inv_pending_None|exact Hpc|..]; try done.
  - exec_at Hi i Hpc. done.
  - by apply inv_unlock.
  - apply inv_reader; [done| |split; [done|done]]. left. unfold inflight. cbn. by rewrite Hrd, Hun.
  - pose proof (inv_reader st RRead us Hi) as H. cbn in H.
    assert (set_reader RRead (set_unanswered us st) = set_unanswered us st) as Heq.
    { destruct st. cbn in *. by subst. }
    cbv zeta in H. rewrite Heq in H. apply H; [|unfold reader_inv, reader_sends; cbn; by rewrite Hrd].
    right. unfold inflight. cbn. by rewrite Hrd, Hun.
  - by apply inv_take.
  - apply send_Some in Hsend as [Hc ->]. destruct (i_reader _ Hi) as [Hr Hs]. rewrite Hrd in Hr.
    destruct Hr as (-> & Hwr & Hin). destruct (Hs i ltac:(unfold reader_sends; by rewrite Hrd)) as (_ & Hp & Hnc & _).
    assert (inv (set_reader RRead st)) as Hi'.
    { apply inv_reader_point; [done|unfold inflight; cbn; by rewrite Hrd|done]. }
    apply (inv_chan _ i (Response i) Hi'); try done; [|by intros []]. split_and!; [done|done|]. intros Hwt. specialize (Hin Hwt).
    unfold inflight in *. cbn. by rewrite Hrd in Hin.
  - apply inv_reader_point; [done|unfold inflight; cbn; by rewrite Hrd|done].
  - apply inv_reader_point; [by apply inv_markClosed| |split; [apply markClosed_closed|done]].
    unfold inflight, markClosed. cbn. destruct (closed st); cbn; by rewrite Hrd.
  - by apply inv_reader_fail.
  - apply send_Some in Hsend as [Hc ->]. destruct (i_reader _ Hi) as [Hr Hs]. rewrite Hrd in Hr.
    destruct (Hs i ltac:(unfold reader_sends; by rewrite Hrd)) as (_ & Hp & Hnc & Hreg).
    assert (inv (set_reader RDone st)) as Hi'.
    { apply inv_reader_point; [done|unfold inflight; cbn; by rewrite Hrd|done]. }
    apply (inv_chan _ i (Failed e) Hi'); try done. by intros [].
  - apply inv_closer; [done|done|]. intros i _ [].
  - apply inv_closer; [by apply inv_markClosed|split; [apply markClosed_closed|intros ? []]|]. intros i _ [].
  - by apply inv_closer_fail.
  - apply send_Some in Hsend as [Hc ->]. destruct (i_closer _ Hi) as [Hcl Hs]. rewrite Hcp in Hcl.
    destruct (Hs i ltac:(unfold closer_sends; by rewrite Hcp)) as (_ & Hp & Hreg).
    assert (inv (set_closer (CDetach b) st)) as Hi'.
    { apply inv_closer; [done|by split|]. intros k _ []. }
    apply (inv_chan _ i (Failed ErrClosed) Hi'); try done; [|by intros []]. cbn. intros Hrs. destruct (i_reader _ Hi) as [_ Hr].
    destruct (Hr i Hrs) as (_ & _ & Hn & _). apply Hn. unfold closer_sends. by rewrite Hcp.
  - destruct (i_closer _ Hi) as [Hcl _]. rewrite Hcp in Hcl.
    apply (inv_closer (set_unanswered (unanswered st ++ [None]) st) CDone); [by apply inv_detach|by split|]. intros k _ [].
  - destruct (i_closer _ Hi) as [Hcl _]. rewrite Hcp in Hcl. apply inv_closer; [done|by split|]. intros k _ [].
Qed.

Lemma client_reachable_inv st : reachable blocks partial st → inv st.
Proof using single_command failed_unread. induction 1 as [|st st' _ IH Hs]; [apply inv_opened|by apply client_step_inv in Hs]. Qed.

End single.

(** ** What the client guarantees *)

(** The points at which a caller holds the write lock. *)
Definition inside (pc : execPoint) : Prop :=
  match pc with EIdle | ELock | EDone _ => False | _ => True end.

Lemma inside_lock st i : inv st → inside (execs st i) → writeMu st = Some i.
Proof.
  intros Hi H. pose proof (i_exec _ Hi i) as He. unfold exec_inv in He. destruct (execs st i); cbn in H; tauto.
Qed.

(** C8: responses are never misattributed, as long as every line sent is one command,
    which tmux answers with one response block, and a write that fails has not reached
    tmux: in every interleaving of callers, the read loop and [Close], with
    cancellations, write errors and aborts at any point, a command that returns a
    response returns the response to its own line; at most one command is between the
    lock and the return; only it can be pending; and no delivery to a command's channel
    ever blocks. *)
Theorem responses_matched blocks partial st :
  (∀ i, blocks i = 1) → (∀ i, partial i = 0) → reachable blocks partial st →
  (∀ i j, execs st i = EDone (Response j) → j = i) ∧
  (∀ i k, inside (execs st i) → inside (execs st k) → i = k) ∧
  (∀ i, pending st = Some i → inside (execs st i)) ∧
  (∀ i, reader_sends st i ∨ closer_sends st i → ∀ r, is_Some (send i r st)).
Proof.
  intros Hb Hf Hi%client_reachable_inv; [|done|done]. split_and!.
  - intros i j E. pose proof (i_exec _ Hi i) as He. rewrite E in He. by destruct He as [_ ?].
  - intros i k H1 H2. pose proof (inside_lock st i Hi H1). pose proof (inside_lock st k Hi H2). congruence.
  - intros i Hp. by destruct (i_pending _ Hi i Hp) as [[-> | [-> | ->]] _].
  - intros i Hs r. unfold send. assert (chan st i = []) as ->; [|done].
    destruct Hs as [Hs|Hs]; [destruct (i_reader _ Hi) as [_ H]|destruct (i_closer _ Hi) as [_ H]]; by destruct (H i Hs) as [? _].
Qed.

(** Traces, with the states kept as records. *)
Ltac trace H c :=
  let H' := fresh in
  match type of H with reachable ?b ?p ?st => pose proof (Re_step b p st _ H ltac:(eapply c; reflexivity)) as H' end;
  clear H; rename H' into H;
  cbv beta iota delta [set_closed set_pending set_writeMu set_chan set_exec set_reader set_closer set_unanswered takePending markClosed replicate
       closed pending writeMu chan execs reader closer unanswered opened fst snd app] in H.

Definition points (l : list execPoint) : nat → execPoint := foldl (λ f pc, <[0 := pc]> f) (λ _, EIdle) l.

Definition answered : state :=
  St None None None (<[0 := []]> (<[0 := [Response 0]]> (λ _, [])))
    (points [ELock; ECheck; ERegister; EWrite; EWait; EUnlock (Response 0); EDone (Response 0)]) RRead CIdle [].

Local Abbreviation one := (λ _ : nat, 1).
Local Abbreviation none := (λ _ : nat, 0).

Lemma answered_reachable : reachable one none answered.
Proof.
  pose proof (Re_init one none) as H. trace H (S_call one none 0). trace H (S_lock one none 0). trace H (S_open one none 0). trace H (S_register one none 0).
  trace H (S_write one none 0). trace H (R_response one none 0). trace H (R_take one none 0). trace H (R_send one none 0 0). trace H (S_receive one none 0).
  trace H (S_unlock one none 0). exact H.
Qed.

Lemma responses_matched_witness : execs answered 0 = EDone (Response 0) ∧ 0 = 0.
Proof.
  split; [reflexivity|]. exact (proj1 (responses_matched one none answered (λ _, eq_refl) (λ _, eq_refl) answered_reachable) 0 0 eq_refl).
Defined.

(** A line with two commands is answered by two blocks, and the second of them is
    returned to the next caller. *)
Definition misattributed : state :=
  St None None None
    (<[1 := []]> (<[1 := [Response 0]]> (<[0 := []]> (<[0 := [Response 0]]> (λ _, [])))))
    (foldl (λ f pc, <[1 := pc]> f) (points [ELock; ECheck; ERegister; EWrite; EWait; EUnlock (Response 0); EDone (Response 0)])
       [ELock; ECheck; ERegister; EWrite; EWait; EUnlock (Response 0); EDone (Response 0)]) RRead CIdle [Some 1].

Local Abbreviation sequence := (λ i : nat, if decide (i = 0) then 2 else 1).

Theorem sequence_misattributed :
  reachable sequence none misattributed ∧ execs misattributed 1 = EDone (Response 0).
Proof.
  split; [|reflexivity]. pose proof (Re_init sequence none) as H.
  trace H (S_call sequence none 0). trace H (S_lock sequence none 0). trace H (S_open sequence none 0).
  trace H (S_register sequence none 0). trace H (S_write sequence none 0).
  trace H (R_response sequence none 0). trace H (R_take sequence none 0). trace H (R_send sequence none 0 0).
  trace H (S_receive sequence none 0). trace H (S_unlock sequence none 0).
  trace H (S_call sequence none 1). trace H (S_lock sequence none 1). trace H (S_open sequence none 1).
  trace H (S_register sequence none 1). trace H (S_write sequence none 1).
  trace H (R_response sequence none 0). trace H (R_take sequence none 0). trace H (R_send sequence none 1 0).
  trace H (S_receive sequence none 1). trace H (S_unlock sequence none 1). exact H.
Qed.

(** The read loop ends between the check of the flag and the registration: nobody
    is left to answer the command or to fail it. *)
Definition stranded : state :=
  St (Some ErrAborted) (Some 0) (Some 0) (λ _, []) (points [ELock; ECheck; ERegister; EWrite; EWait]) RDone CIdle [Some 0].

(** A caller can be left waiting on a closed client: every later step of the client
    other than its own cancellation or a call of [Close] leaves it waiting. *)
Theorem exec_stranded :
  reachable one none stranded ∧ closed stranded = Some ErrAborted ∧ reader stranded = RDone ∧
  execs stranded 0 = EWait ∧ chan stranded 0 = [] ∧
  ∀ st, step one none stranded st → execs st 0 = EClear ∨ closer st ≠ CIdle ∨
    (execs st 0 = EWait ∧ chan st 0 = [] ∧ reader st = RDone).
Proof.
  split_and!; try reflexivity.
  - pose proof (Re_init one none) as H. trace H (S_call one none 0). trace H (S_lock one none 0). trace H (S_open one none 0). trace H (R_abort one none ErrAborted).
    trace H (R_mark one none ErrAborted). trace H (R_fail one none ErrAborted). trace H (S_register one none 0). trace H (S_write one none 0). exact H.
  - intros st Hs. assert (∀ i, execs stranded (S i) = EIdle) as Hidle by done.
    assert (execs stranded 0 = EWait) as H0 by done.
    inversion Hs as [i ? Hpc|i ? Hpc Hw|i e ? Hpc|i ? Hpc|i ? Hpc|i ? ? Hpc|i ? ? Hpc|i ? Hpc|i ? Hpc|i r ? Hpc Hch|i ? Hpc
      |i ? Hpc|i ? Hpc|i ? Hpc|i k ? ? Hpc|i r ? Hpc|j us ? Hrd|us ? Hrd|j ? Hrd|i j ? ? Hrd|e ? Hrd|e ? Hrd|e ? Hrd|i e ? ? Hrd
      |? Hcp|b ? Hcp|b ? Hcp|i b ? ? Hcp|? Hcp|b ? Hcp]; subst; try done; try (destruct i as [|i]; [by rewrite H0 in Hpc|]);
      try (rewrite Hidle in Hpc; done).
    + right. right. split_and!; [|reflexivity|reflexivity]. cbn. by rewrite fn_lookup_insert_ne.
    + destruct i as [|i]; [by left|]. by rewrite Hidle in Hpc.
    + by right; left.
Qed.

(** ** Notifications and diagnostics *)

(** [deliverEvent] on the buffered channel of [EventBuffer] elements: [k] elements
    are received by consumers between the first select and the second.  [None] is a
    send that blocks; the counter is the one of [DroppedNotifications]. *)
Definition deliverEvent {A} (EventBuffer k : nat) (n : A) (s : list A * nat) : option (list A * nat) :=
  let '(c, droppedNotifications) := s in
  if length c <? EventBuffer then Some (c ++ [n], droppedNotifications)
  else
    let '(c, d) := match drop k c with [] => ([], droppedNotifications) | _ :: c => (c, droppedNotifications + 1) end in
    if length c <? EventBuffer then Some (c ++ [n], d) else None.

(** [copy(lines, lines[len(lines)-limit:])] and [lines[:limit]]. *)
Definition appendStderrLine (limit : nat) (lines : list bytes) (line : bytes) : list bytes :=
  if limit =? 0 then lines
  else
    let lines := lines ++ [line] in
    if limit <? length lines then take limit (drop (length lines - limit) lines ++ drop limit lines) else lines.

(** The last [limit] lines. *)
Definition tail_lines (limit : nat) (lines : list bytes) : list bytes := drop (length lines - limit) lines.

Lemma appendStderrLine_tail limit lines line :
  appendStderrLine limit (tail_lines limit lines) line = tail_lines limit (lines ++ [line]).
Proof.
  unfold appendStderrLine, tail_lines. destruct (Nat.eqb_spec limit 0) as [->|Hl].
  { by rewrite !Nat.sub_0_r, !drop_all. }
  rewrite !length_app, length_drop. cbn [length].
  destruct (limit <? length lines - (length lines - limit) + 1) eqn:E.
  - apply Nat.ltb_lt in E. rewrite take_app_le by (rewrite length_drop, length_app, length_drop; simpl; lia).
    rewrite take_ge by (rewrite length_drop, length_app, length_drop; simpl; lia).
    rewrite !drop_app_le by (rewrite ?length_drop; lia). rewrite drop_drop. do 2 f_equal. lia.
  - apply Nat.ltb_ge in E. rewrite drop_app_le by lia. do 2 f_equal. lia.
Qed.

(** With an event buffer, notifications never stall the read loop and the tail
    of the diagnostics is exact: whatever consumers receive meanwhile, a
    notification is delivered without blocking, as the last of at most
    [EventBuffer] elements, at most the oldest one being dropped and then counted;
    and the stderr tail is always the last lines, at most [StderrLineLimit]. *)
Theorem events_bounded {A} EventBuffer k (n : A) c d limit lines :
  0 < EventBuffer → length c ≤ EventBuffer →
  (∃ c' d', deliverEvent EventBuffer k n (c, d) = Some (c' ++ [n], d') ∧ length (c' ++ [n]) ≤ EventBuffer ∧
     (c' = c ∧ d' = d ∨ (∃ x, drop k c = x :: c' ∧ d' = d + 1) ∨ (drop k c = [] ∧ c' = [] ∧ d' = d))) ∧
  foldl (appendStderrLine limit) [] lines = tail_lines limit lines.
Proof.
  intros HB Hc. split.
  - unfold deliverEvent. destruct (length c <? EventBuffer) eqn:E.
    + apply Nat.ltb_lt in E. exists c, d. split_and!; [done|rewrite length_app; simpl; lia|auto].
    + assert (length (drop k c) ≤ EventBuffer) as Hd by (rewrite length_drop; lia).
      destruct (drop k c) as [|x c'] eqn:Ed; simpl in Hd.
      * cbn [length]. rewrite (proj2 (Nat.ltb_lt 0 EventBuffer)) by lia. exists [], d. split_and!; [done|simpl; lia|auto].
      * rewrite (proj2 (Nat.ltb_lt (length c') EventBuffer)) by lia. exists c', (d + 1).
        split_and!; [done|rewrite length_app; simpl; lia|]. right. left. by exists x.
  - induction lines as [|l lines IH] using rev_ind; [done|].
    rewrite foldl_app. cbn [foldl]. rewrite IH. apply appendStderrLine_tail.
Qed.

Lemma events_bounded_witness :
  foldl (appendStderrLine 2) [] [[1%Z]; [2%Z]; [3%Z]] = [[2%Z]; [3%Z]] ∧
  ∃ c' d', deliverEvent 2 1 9 ([7; 8], 0) = Some (c' ++ [9], d') ∧ length (c' ++ [9]) ≤ 2.
Proof.
  destruct (events_bounded 2 1 9 [7; 8] 0 2 [[1%Z]; [2%Z]; [3%Z]]) as [(c' & d' & H1 & H2 & _) H3]; [lia|simpl; lia|].
  split; [exact H3|]. by exists c', d'.
Defined.

(** ** options.go *)

Record Options := MkOptions {
  Path : bytes; SocketName : bytes; SocketPath : bytes; ConfigFile : bytes; Dir : bytes; Env : list bytes;
  SessionName : bytes; CreateSession : bool; InitialCommand : list bytes;
  EventBuffer : Z; StderrLineLimit : Z; ShutdownTimeout : Z }.

Definition validate (o : Options) : result Tmux.error unit :=
  let bad format := Err (Tmux.Errorf format []) in
  if negb (bytes_eqb (SocketName o) []) && negb (bytes_eqb (SocketPath o) [])
  then bad "tmux: SocketName and SocketPath are mutually exclusive"%string
  else if (EventBuffer o ≤b 0) then bad "tmux: EventBuffer must be > 0"%string
  else if (StderrLineLimit o <b 0) then bad "tmux: StderrLineLimit must be >= 0"%string
  else if (ShutdownTimeout o ≤b 0) then bad "tmux: ShutdownTimeout must be > 0"%string
  else if existsb (λ e, bytes_eqb e [] || negb (contains_byte e EQUALS)) (Env o)
  then bad "tmux: Env entry %q must be KEY=VALUE"%string
  else if (length (InitialCommand o) =? 0) && bytes_eqb (SessionName o) []
  then bad "tmux: InitialCommand or SessionName is required to avoid implicit default-server attach"%string
  else if (0 <? length (InitialCommand o)) && negb (bytes_eqb (SessionName o) [])
  then bad "tmux: InitialCommand and SessionName are mutually exclusive"%string
  else if existsb (λ a, contains_any a [CR; LF]) (InitialCommand o)
  then bad "tmux: InitialCommand argument %q contains a newline"%string
  else if contains_any (SessionName o) [CR; LF] then bad "tmux: SessionName contains a newline"%string
  else Ok tt.

Definition launchArgs (o : Options) : list bytes :=
  (if bytes_eqb (SocketName o) [] then [] else [str "-L"; SocketName o]) ++
  (if bytes_eqb (SocketPath o) [] then [] else [str "-S"; SocketPath o]) ++
  (if bytes_eqb (ConfigFile o) [] then [] else [str "-f"; ConfigFile o]) ++
  [str "-C"] ++
  (if 0 <? length (InitialCommand o) then InitialCommand o
   else if CreateSession o then [str "new-session"; str "-A"; str "-s"; SessionName o]
   else [str "attach-session"; str "-t"; SessionName o]).

Definition initialCommandLine (o : Options) : bytes :=
  if 0 <? length (InitialCommand o) then join [SP] (InitialCommand o)
  else if CreateSession o then str "new-session -A -s " ++ SessionName o
  else str "attach-session -t " ++ SessionName o.

(** Validated options name what to start: the arguments after [-C] are the initial
    command or end in a session name, and the client's channel has room. *)
Lemma validate_launch o :
  validate o = Ok tt →
  (0 < EventBuffer o)%Z ∧
  ∃ flags command, launchArgs o = flags ++ str "-C" :: command ∧
    (command = InitialCommand o ∧ command ≠ [] ∨ last command = Some (SessionName o) ∧ SessionName o ≠ []).
Proof.
  unfold validate, launchArgs. intros H. cbv zeta in H.
  repeat match type of H with (if ?c then Err _ else _) = _ => destruct c eqn:?; [discriminate H|] end.
  split; [lia|]. match goal with |- context [?A ++ ?B ++ ?C ++ [_] ++ ?D] => exists (A ++ B ++ C), D end.
  split; [by rewrite <-!app_assoc|].
  destruct (InitialCommand o) as [|a l] eqn:Ei; cbn [length Nat.ltb Nat.leb] in *.
  - right. assert (SessionName o ≠ []) as Hs.
    { intros Hs. match goal with E : (_ =? 0) && bytes_eqb (SessionName o) [] = false |- _ => rewrite Hs in E; done end. }
    by destruct (CreateSession o).
  - by left.
Qed.
End Client.
