(* ===== verification/OpencodeSse.v ===== *)
(** The server-sent-event scanner of pkg/llm/opencode (events.go) and what it
    computes: the records of the stream, as a splitting of its lines at the empty
    ones. *)
From S2P Require Import Prelude GoStrings.

Module Sse.

(** How reading the body ends, and what the scanner reports. *)
Inductive ioError := EOF | ReadError (code : Z).
Inductive scanError := Io (e : ioError) | LineTooLong.

#[export] Instance ioError_eq_dec : EqDecision ioError.
Proof. solve_decision. Defined.

(** A [sseScanner] is what its reader has still to give: the bytes, and the error
    after the last one. *)
Record sseScanner := MkScanner { unread : bytes; ends : ioError }.

Record sseFrame := MkFrame { event : bytes; id : bytes; data : bytes }.

Definition maxSSELineLength : Z := 16777216.

Definition tooLong (line : bytes) : bool := (maxSSELineLength <b Z.of_nat (length line)).

(** [bufio.Reader.ReadString]: through the delimiter, or all that is left with the error. *)
Definition ReadString (delim : Z) (s : sseScanner) : bytes * option ioError * sseScanner :=
  match IndexByte (unread s) delim with
  | Some i => (take (S i) (unread s), None, MkScanner (drop (S i) (unread s)) (ends s))
  | None => (unread s, Some (ends s), MkScanner [] (ends s))
  end.

(** [strings.TrimSuffix] of one byte. *)
Definition TrimSuffix (s : bytes) (c : Z) : bytes :=
  match last s with
  | Some b => if b =b c then take (length s - 1) s else s
  | None => s
  end.

Definition readLine (s : sseScanner) : result scanError bytes * sseScanner :=
  let '(line, err, s) := ReadString LF s in
  if tooLong line then (Err LineTooLong, s)
  else
    match err with
    | Some e =>
        if bool_decide (e = EOF) && bool_decide (line ≠ []) then (Ok (TrimSuffix line CR), s)
        else (Err (Io e), s)
    | None => (Ok (TrimSuffix (TrimSuffix line LF) CR), s)
    end.

Definition dataField : bytes := Eval vm_compute in str "data".
Definition eventField : bytes := Eval vm_compute in str "event".
Definition idField : bytes := Eval vm_compute in str "id".

(** [field, value, cut := strings.Cut(line, ":")], the value without one leading blank. *)
Definition splitField (line : bytes) : bytes * bytes :=
  let '(field, value, cut) := Cut line COLON in
  (field, if cut then default value (CutPrefix value [SP]) else value).

(** The variables of [next]: the frame being filled, its data lines, [haveData]. *)
Record partialFrame := MkPartial { pEvent : bytes; pId : bytes; pData : list bytes; haveData : bool }.

Definition noFrame : partialFrame := MkPartial [] [] [] false.

Definition finish (p : partialFrame) : sseFrame := MkFrame (pEvent p) (pId p) (join [LF] (pData p)).

(** A line that is not empty. *)
Definition addLine (p : partialFrame) (line : bytes) : partialFrame :=
  if has_prefix line [COLON] then p
  else
    let '(field, value) := splitField line in
    if bytes_eqb field dataField then MkPartial (pEvent p) (pId p) (pData p ++ [value]) true
    else if bytes_eqb field eventField then MkPartial value (pId p) (pData p) (haveData p)
    else if bytes_eqb field idField then MkPartial (pEvent p) value (pData p) (haveData p)
    else p.

(** The loop of [next]; [None] when the fuel runs out. *)
Fixpoint nextN (fuel : nat) (p : partialFrame) (s : sseScanner) : option (result scanError sseFrame * sseScanner) :=
  match fuel with
  | O => None
  | S fuel =>
      let '(r, s) := readLine s in
      match r with
      | Err e =>
          match e with
          | Io EOF => if haveData p then Some (Ok (finish p), s) else Some (Err e, s)
          | _ => Some (Err e, s)
          end
      | Ok [] => if haveData p then Some (Ok (finish p), s) else nextN fuel (MkPartial [] [] (pData p) false) s
      | Ok line => nextN fuel (addLine p line) s
      end
  end.

Definition next (s : sseScanner) : option (result scanError sseFrame * sseScanner) :=
  nextN (S (length (unread s))) noFrame s.

(** Every frame up to the first error, the way the bus calls [next]. *)
Fixpoint framesN (fuel : nat) (s : sseScanner) : option (list sseFrame * scanError) :=
  match fuel with
  | O => None
  | S fuel =>
      match next s with
      | None => None
      | Some (Err e, _) => Some ([], e)
      | Some (Ok f, s) =>
          match framesN fuel s with
          | Some (fs, e) => Some (f :: fs, e)
          | None => None
          end
      end
  end.

Definition frames (s : sseScanner) : option (list sseFrame * scanError) := framesN (S (length (unread s))) s.

(** ** The stream, declaratively *)

(** The lines of a text with their terminators, the last one possibly without. *)
Fixpoint rawLines (s : bytes) : list bytes :=
  match s with
  | [] => []
  | c :: s =>
      if c =b LF then [c] :: rawLines s
      else
        match rawLines s with
        | l :: ls => (c :: l) :: ls
        | [] => [[c]]
        end
  end.

Definition lineText (raw : bytes) : bytes := TrimSuffix (TrimSuffix raw LF) CR.

(** The lines before the first that is too long, and whether there is one. *)
Definition readable (s : bytes) : list bytes := take (find_stop tooLong (rawLines s)) (rawLines s).
Definition hasLong (s : bytes) : bool := existsb tooLong (rawLines s).

(** Records end at empty lines; the second component is the record left open. *)
Fixpoint records (ls : list bytes) : list (list bytes) * list bytes :=
  match ls with
  | [] => ([], [])
  | l :: ls =>
      let '(rs, rest) := records ls in
      match l with
      | [] => ([] :: rs, rest)
      | _ => match rs with r :: rs => ((l :: r) :: rs, rest) | [] => ([], l :: rest) end
      end
  end.

(** The values of a field in a record, in order. *)
Definition fieldValues (name : bytes) (record : list bytes) : list bytes :=
  omap (λ l, if has_prefix l [COLON] then None
             else let '(f, v) := splitField l in if bytes_eqb f name then Some v else None) record.

(** The frame of a record that has data: the last event and id, all the data. *)
Definition frameOf (record : list bytes) : option sseFrame :=
  match fieldValues dataField record with
  | [] => None
  | ds => Some (MkFrame (default [] (last (fieldValues eventField record)))
                        (default [] (last (fieldValues idField record))) (join [LF] ds))
  end.

(** A line cut off by a read error is lost, one cut off by the end of the stream is not. *)
Definition arrived (s : sseScanner) : list bytes :=
  if bool_decide (ends s = EOF) then readable (unread s)
  else filter (λ l, last l = Some LF) (readable (unread s)).

(** What the stream holds: its frames and how it ends. *)
Definition streamFrames (s : sseScanner) : list sseFrame * scanError :=
  let '(rs, rest) := records (lineText <$> arrived s) in
  if hasLong (unread s) then (omap frameOf rs, LineTooLong)
  else (omap frameOf rs ++ (if bool_decide (ends s = EOF) then option_list (frameOf rest) else []), Io (ends s)).

(** The text of a frame of data lines, as a server writes it. *)
Definition encodeFrame (payload : list bytes) : bytes :=
  concat ((λ l, dataField ++ [COLON; SP] ++ l ++ [LF]) <$> payload) ++ [LF].

(** ** Reading lines *)

(** [reads s ts e]: successive calls of [readLine] give the lines [ts] and then [e]. *)
Inductive reads : sseScanner → list bytes → scanError → Prop :=
| reads_end s s' e :
    readLine s = (Err e, s') → (e = Io EOF → s' = MkScanner [] EOF) → reads s [] e
| reads_line s s' t ts e :
    readLine s = (Ok t, s') → length (unread s') < length (unread s) → reads s' ts e → reads s (t :: ts) e.

Lemma rawLines_cons c s :
  rawLines (c :: s) =
    if c =b LF then [c] :: rawLines s
    else match rawLines s with l :: ls => (c :: l) :: ls | [] => [[c]] end.
Proof. done. Qed.

(** The first raw line: what comes before the first line feed, with it. *)
Lemma rawLines_first s :
  rawLines s =
    match IndexByte s LF with
    | Some i => take (S i) s :: rawLines (drop (S i) s)
    | None => match s with [] => [] | _ => [s] end
    end.
Proof.
  unfold IndexByte. induction s as [|c s IH]; [done|]. rewrite rawLines_cons. cbn [find_index].
  rewrite (Z.eqb_sym LF c). destruct (c =b LF); [done|]. rewrite IH.
  destruct (find_index (Z.eqb LF) s) as [i|]; [done|]. by destruct s.
Qed.

Lemma last_app_snoc (l : bytes) c : last (l ++ [c]) = Some c.
Proof. by rewrite last_snoc. Qed.

Lemma find_index_Some {A} (q : A → bool) (s : list A) i :
  find_index q s = Some i → ∃ c, q c = true ∧ take (S i) s = take i s ++ [c] ∧ i < length s.
Proof.
  revert i. induction s as [|b s IH]; intros i; cbn [find_index]; [done|].
  destruct (q b) eqn:Eq; [intros [= <-]; exists b; by simpl; split_and!; try lia|].
  destruct (find_index q s) as [j|]; [|done]. intros [= <-]. destruct (IH j eq_refl) as (c & ? & Ht & ?).
  exists c. change (S <$> Some j) with (Some (S j)). split_and!; [done| |simpl; lia].
  change (take (S (S j)) (b :: s)) with (b :: take (S j) s). by rewrite Ht.
Qed.

Lemma find_index_None {A} (q : A → bool) (s : list A) : find_index q s = None → Forall (λ c, q c = false) s.
Proof.
  induction s as [|b s IH]; cbn [find_index]; [constructor|].
  destruct (q b) eqn:Eq; [done|]. destruct (find_index q s); [done|]. intros _. constructor; auto.
Qed.

Lemma TrimSuffix_other s c : last s ≠ Some c → TrimSuffix s c = s.
Proof.
  intros H. unfold TrimSuffix. destruct (last s) as [b|]; [|done].
  destruct (Z.eqb_spec b c); [by subst|done].
Qed.

Lemma TrimSuffix_snoc s c : TrimSuffix (s ++ [c]) c = s.
Proof.
  unfold TrimSuffix. rewrite last_snoc, Z.eqb_refl, length_app. cbn [length].
  rewrite Nat.add_sub. by apply take_app_length.
Qed.

Lemma last_In_ne (s : bytes) c : Forall (λ b, (c =b b) = false) s → last s ≠ Some c.
Proof.
  intros H E. apply last_Some_elem_of in E. rewrite Forall_forall in H. apply H in E.
  by rewrite Z.eqb_refl in E.
Qed.

Lemma arrived_first s :
  arrived s =
    match rawLines (unread s) with
    | [] => []
    | l :: _ =>
        if tooLong l then []
        else match IndexByte (unread s) LF with
             | Some i => l :: arrived (MkScanner (drop (S i) (unread s)) (ends s))
             | None => if bool_decide (ends s = EOF) then [l] else []
             end
    end.
Proof.
  unfold arrived, readable. destruct s as [s e]; cbn [unread ends]. rewrite (rawLines_first s).
  destruct (IndexByte s LF) as [i|] eqn:Ei.
  - cbn [find_stop]. destruct (tooLong (take (S i) s)); [by destruct (bool_decide _)|].
    cbn [take]. destruct (find_index_Some _ _ _ Ei) as (c & Hc%Z.eqb_eq & Ht & _).
    destruct (bool_decide (e = EOF)); [done|]. rewrite filter_cons.
    rewrite decide_True; [done|]. rewrite Ht, last_snoc. by subst c.
  - destruct s as [|c s]; [by destruct (bool_decide _)|]. cbn [find_stop].
    destruct (tooLong (c :: s)); [by destruct (bool_decide _)|]. cbn [find_stop take].
    destruct (bool_decide (e = EOF)); [done|]. rewrite filter_cons, filter_nil.
    rewrite decide_False; [done|]. by apply last_In_ne, find_index_None.
Qed.

Lemma reads_arrived s :
  reads s (lineText <$> arrived s) (if hasLong (unread s) then LineTooLong else Io (ends s)).
Proof.
  remember (length (unread s)) as n eqn:Hn. revert s Hn.
  induction (lt_wf n) as [n _ IH]. intros s ->. rewrite (arrived_first s). unfold hasLong.
  rewrite (rawLines_first (unread s)).
  destruct (IndexByte (unread s) LF) as [i|] eqn:Ei.
  - destruct (find_index_Some _ _ _ Ei) as (c & Hc%Z.eqb_eq & Ht & Hl). subst c. cbn [existsb].
    destruct (tooLong (take (S i) (unread s))) eqn:El.
    + econstructor; [unfold readLine, ReadString; by rewrite Ei, El|done].
    + cbn [orb fmap list_fmap]. econstructor.
      * unfold readLine, ReadString. rewrite Ei, El. unfold lineText. done.
      * cbn [unread]. rewrite length_drop. lia.
      * assert (length (drop (S i) (unread s)) < length (unread s)) as Hlt by (rewrite length_drop; lia).
        apply (IH _ Hlt (MkScanner (drop (S i) (unread s)) (ends s)) eq_refl).
  - destruct (unread s) as [|c l] eqn:Eu.
    + apply (reads_end _ (MkScanner [] (ends s))); [|by intros [= ->]].
      unfold readLine, ReadString. rewrite Eu. cbn [IndexByte find_index]. cbn. by destruct (bool_decide (ends s = EOF)).
    + rewrite <-Eu in *. cbn [existsb].
      destruct (tooLong (unread s)) eqn:El.
      { econstructor; [unfold readLine, ReadString; by rewrite Ei, El|done]. }
      cbn [orb]. destruct (bool_decide (ends s = EOF)) eqn:Ee.
      * apply bool_decide_eq_true in Ee. cbn [fmap list_fmap]. econstructor.
        -- unfold readLine, ReadString. rewrite Ei, El, Ee. cbn [bool_decide]. rewrite bool_decide_true by done.
           rewrite bool_decide_true by (by rewrite Eu). cbn [andb]. unfold lineText.
           rewrite (TrimSuffix_other _ LF); [done|]. by apply last_In_ne, find_index_None.
        -- cbn [unread]. rewrite Eu. simpl. lia.
        -- rewrite Ee. by apply (reads_end _ (MkScanner [] EOF)).
      * cbn [fmap list_fmap]. eapply (reads_end _ (MkScanner [] (ends s))).
        -- unfold readLine, ReadString. by rewrite Ei, El, Ee.
        -- intros [= E]. by rewrite E in Ee.
Qed.

(** ** Frames of a list of lines *)

(** The frames of the lines still to come, [p] being the record under way. *)
Fixpoint emit (p : partialFrame) (ts : list bytes) (e : scanError) : list sseFrame :=
  match ts with
  | [] => match e with Io EOF => if haveData p then [finish p] else [] | _ => [] end
  | [] :: ts => (if haveData p then [finish p] else []) ++ emit noFrame ts e
  | l :: ts => emit (addLine p l) ts e
  end.

Definition fresh (p : partialFrame) : Prop := haveData p = false → pData p = [].

Lemma fresh_noFrame : fresh noFrame.
Proof. by intros _. Qed.

Lemma fresh_addLine p l : fresh p → fresh (addLine p l).
Proof.
  unfold fresh, addLine. intros Hp. destruct (has_prefix l [COLON]); [done|].
  destruct (splitField l) as [f v]. repeat destruct (bytes_eqb _ _); done.
Qed.

Lemma nextN_emit fuel p s ts e :
  reads s ts e → fresh p → length (unread s) < fuel →
  ∃ r s', nextN fuel p s = Some (r, s') ∧
    match r with
    | Err e' => e' = e ∧ emit p ts e = []
    | Ok f => ∃ ts', emit p ts e = f :: emit noFrame ts' e ∧ reads s' ts' e ∧ length (unread s') ≤ length (unread s) ∧
              (haveData p = false → length (unread s') < length (unread s))
    end.
Proof.
  intros H. revert fuel p. induction H as [s s' e Hr He|s s' t ts e Hr Hl Hrd IH]; intros fuel p Hp Hf;
    (destruct fuel as [|fuel]; [lia|]); cbn [nextN emit]; rewrite Hr.
  - destruct e as [[]|]; [destruct (haveData p) eqn:Eh|..]; try by (eexists _, _; split; [done|]).
    eexists _, _. split; [done|]. exists []. rewrite (He eq_refl). split_and!; [done| |simpl; lia|done].
    by apply (reads_end _ (MkScanner [] EOF)).
  - destruct t as [|c t]; [destruct (haveData p) eqn:Eh|].
    + eexists _, _. split; [done|]. exists ts. split_and!; [done|done|lia|lia].
    + rewrite (Hp Eh). destruct (IH fuel noFrame) as (r & s2 & Hn & Hr2); [apply fresh_noFrame|lia|].
      exists r, s2. split; [done|]. destruct r as [f|e']; [|done].
      destruct Hr2 as (ts' & ? & ? & ? & ?). exists ts'. split_and!; [done|done|lia|lia].
    + destruct (IH fuel (addLine p (c :: t))) as (r & s2 & Hn & Hr2); [by apply fresh_addLine|lia|].
      exists r, s2. split; [done|]. destruct r as [f|e']; [|done].
      destruct Hr2 as (ts' & ? & ? & ? & ?). exists ts'. split_and!; [done|done|lia|lia].
Qed.

Lemma framesN_emit fuel s ts e :
  reads s ts e → length (unread s) < fuel → framesN fuel s = Some (emit noFrame ts e, e).
Proof.
  revert s ts. induction fuel as [|fuel IH]; intros s ts H Hf; [lia|]. cbn [framesN]. unfold next.
  destruct (nextN_emit (S (length (unread s))) noFrame s ts e H fresh_noFrame ltac:(lia)) as (r & s' & -> & Hr).
  destruct r as [f|e']; [|by destruct Hr as [-> ->]].
  destruct Hr as (ts' & -> & Hr & _ & Hl). rewrite (IH s' ts'); [done|done|]. specialize (Hl eq_refl). lia.
Qed.

(** A record read on top of [p]. *)
Definition closeRecord (p : partialFrame) (record : list bytes) : option sseFrame :=
  let p := foldl addLine p record in if haveData p then Some (finish p) else None.

Lemma emit_records p ts e :
  emit p ts e =
    let last r := match e with Io EOF => option_list (closeRecord p r) | _ => [] end in
    let '(rs, rest) := records ts in
    match rs with
    | r :: rs => option_list (closeRecord p r) ++ omap (closeRecord noFrame) rs ++
                 match e with Io EOF => option_list (closeRecord noFrame rest) | _ => [] end
    | [] => last rest
    end.
Proof.
  revert p. induction ts as [|[|c t] ts IH]; intros p; cbn [emit records].
  - unfold closeRecord. cbn [foldl]. destruct e as [[]|]; try done. by destruct (haveData p).
  - rewrite (IH noFrame). destruct (records ts) as [[|r rs] rest]; cbv zeta beta iota;
      (replace (closeRecord p []) with (if haveData p then Some (finish p) else None) by done).
    + by destruct (haveData p).
    + destruct (haveData p); cbn [omap list_omap option_list app]; by destruct (closeRecord noFrame r).
  - rewrite (IH (addLine p (c :: t))). by destruct (records ts) as [[|r rs] rest].
Qed.

Lemma last_cons_default {A} (d x : A) l : default d (last (x :: l)) = default x (last l).
Proof. rewrite last_cons. by destruct (last l). Qed.

Lemma foldl_addLine record p :
  foldl addLine p record =
    MkPartial (default (pEvent p) (last (fieldValues eventField record)))
      (default (pId p) (last (fieldValues idField record)))
      (pData p ++ fieldValues dataField record)
      (haveData p || negb (bool_decide (fieldValues dataField record = []))).
Proof.
  revert p. induction record as [|l record IH]; intros p.
  - unfold fieldValues. cbn. rewrite app_nil_r, orb_false_r. by destruct p.
  - cbn [foldl]. rewrite IH. unfold fieldValues. cbn [omap list_omap]. unfold addLine.
    destruct (has_prefix l [COLON]); [done|]. destruct (splitField l) as [f v].
    destruct (bytes_eqb f dataField) eqn:E1; [|destruct (bytes_eqb f eventField) eqn:E2;
      [|destruct (bytes_eqb f idField) eqn:E3]]; cbn [pEvent pId pData haveData]; try done.
    + apply bytes_eqb_eq in E1. subst f.
      change (bytes_eqb dataField eventField) with false. change (bytes_eqb dataField idField) with false. cbv iota.
      rewrite <-app_assoc. cbn [app]. f_equal. cbn [orb]. symmetry.
      apply orb_true_intro. right. apply negb_true_iff. by apply bool_decide_eq_false.
    + apply bytes_eqb_eq in E2. subst f. change (bytes_eqb eventField idField) with false. cbv iota.
      by rewrite last_cons_default.
    + by rewrite last_cons_default.
Qed.

Lemma closeRecord_frameOf record : closeRecord noFrame record = frameOf record.
Proof.
  unfold closeRecord, frameOf. rewrite foldl_addLine. cbn [haveData noFrame orb pEvent pId pData app].
  destruct (fieldValues dataField record) as [|d ds] eqn:Ed; [done|]. rewrite bool_decide_false by done. done.
Qed.

(** The frames a reader gets, against the records of the lines. *)
Lemma frames_records s : frames s = Some (streamFrames s).
Proof.
  unfold frames. rewrite (framesN_emit _ _ _ _ (reads_arrived s)) by lia. f_equal.
  rewrite emit_records. unfold streamFrames. cbv zeta.
  destruct (records (lineText <$> arrived s)) as [rs rest].
  assert (∀ l : list (list bytes), omap (closeRecord noFrame) l = omap frameOf l) as Ho.
  { intros l. induction l as [|r l IH]; [done|]. cbn. by rewrite closeRecord_frameOf, IH. }
  destruct rs as [|r rs]; rewrite ?Ho, ?closeRecord_frameOf; cbn [omap list_omap];
    destruct (hasLong (unread s)); cbn [app]; try done.
  - destruct (ends s); [by rewrite bool_decide_true by done|done].
  - rewrite app_nil_r. by destruct (frameOf r).
  - destruct (ends s); [rewrite bool_decide_true by done|rewrite bool_decide_false by done];
      by destruct (frameOf r).
Qed.

(** The scanner always returns, and calling it until it fails gives exactly the
    records of the stream: the lines (ended by a line feed, with or without a carriage
    return) grouped at the empty ones, a record without a data field left out, one with
    data carrying its last event and id and its data lines joined.  The record left open
    counts when the stream ends and is lost when reading it fails; a line beyond the
    limit stops the stream. *)
Theorem sse_frames_exact s : frames s = Some (streamFrames s).
Proof. exact (frames_records s). Qed.

(** ** Round trip *)

(** A data line a server can send: no line end inside, no carriage return at its end,
    within the limit. *)
Definition sendable (l : bytes) : Prop :=
  Forall (λ c, c ≠ LF) l ∧ last l ≠ Some CR ∧ (Z.of_nat (length l) + 7 ≤ maxSSELineLength)%Z.

Lemma rawLines_line l s : Forall (λ c, c ≠ LF) l → rawLines (l ++ LF :: s) = (l ++ [LF]) :: rawLines s.
Proof.
  induction 1 as [|c l Hc _ IH]; [done|]. cbn [app]. rewrite rawLines_cons.
  destruct (Z.eqb_spec c LF); [done|]. by rewrite IH.
Qed.

Definition dataLine (l : bytes) : bytes := dataField ++ [COLON; SP] ++ l.

Lemma dataLine_ok l : sendable l →
  Forall (λ c, c ≠ LF) (dataLine l) ∧ tooLong (dataLine l ++ [LF]) = false ∧ lineText (dataLine l ++ [LF]) = dataLine l ∧
  dataLine l ≠ [] ∧ has_prefix (dataLine l) [COLON] = false ∧ splitField (dataLine l) = (dataField, l).
Proof.
  intros (Hlf & Hcr & Hlen). split_and!; [| | |done|done|done].
  - unfold dataLine, dataField. cbn [app]. repeat constructor; try done.
  - unfold tooLong. apply Z.ltb_ge. rewrite length_app. unfold dataLine, dataField. cbn [length app]. lia.
  - unfold lineText. rewrite TrimSuffix_snoc. apply TrimSuffix_other. unfold dataLine.
    destruct (last l) as [b|] eqn:El.
    + apply last_Some in El as [l' ->]. rewrite !app_assoc, last_snoc. congruence.
    + apply last_None in El. subst l. done.
Qed.

Lemma rawLines_encode payload s : Forall sendable payload →
  rawLines (encodeFrame payload ++ s) = ((λ l, dataLine l ++ [LF]) <$> payload) ++ [LF] :: rawLines s.
Proof.
  induction 1 as [|l payload Hl _ IH]; [done|].
  replace (encodeFrame (l :: payload) ++ s) with (dataLine l ++ LF :: (encodeFrame payload ++ s))
    by (unfold encodeFrame, dataLine; cbn [fmap list_fmap concat]; by rewrite <-!app_assoc).
  rewrite rawLines_line by (by apply dataLine_ok). by rewrite IH.
Qed.

Lemma records_encode payload ts : Forall sendable payload →
  records ((dataLine <$> payload) ++ [] :: ts) = (let '(rs, rest) := records ts in ((dataLine <$> payload) :: rs, rest)).
Proof.
  induction 1 as [|l payload Hl _ IH]; [done|]. cbn [fmap list_fmap app records]. rewrite IH.
  destruct (records ts) as [rs rest]. destruct (dataLine l) eqn:E; [|done].
  by destruct (dataLine_ok l Hl) as (_ & _ & _ & ? & _).
Qed.

Lemma fieldValues_encode payload : Forall sendable payload →
  fieldValues dataField (dataLine <$> payload) = payload ∧
  fieldValues eventField (dataLine <$> payload) = [] ∧ fieldValues idField (dataLine <$> payload) = [].
Proof.
  unfold fieldValues. induction 1 as [|l payload Hl _ (IH1 & IH2 & IH3)]; [done|]. cbn [fmap list_fmap omap list_omap].
  destruct (dataLine_ok l Hl) as (_ & _ & _ & _ & -> & ->). cbv beta iota.
  rewrite IH1, IH2, IH3. done.
Qed.

(** [arrived] on the lines themselves. *)
Definition arrivedLines (e : ioError) (ls : list bytes) : list bytes :=
  if bool_decide (e = EOF) then take (find_stop tooLong ls) ls
  else filter (λ l, last l = Some LF) (take (find_stop tooLong ls) ls).

Lemma arrivedLines_cons e l ls :
  tooLong (l ++ [LF]) = false → arrivedLines e ((l ++ [LF]) :: ls) = (l ++ [LF]) :: arrivedLines e ls.
Proof.
  intros H. unfold arrivedLines. cbn [find_stop]. rewrite H. cbn [take].
  destruct (bool_decide (e = EOF)); [done|]. rewrite filter_cons, decide_True; [done|]. apply last_snoc.
Qed.

Lemma arrived_encode payload s e : Forall sendable payload →
  lineText <$> arrived (MkScanner (encodeFrame payload ++ s) e) =
    (dataLine <$> payload) ++ [] :: (lineText <$> arrived (MkScanner s e)) ∧
  hasLong (encodeFrame payload ++ s) = hasLong s.
Proof.
  intros H. unfold hasLong. change (arrived (MkScanner ?b e)) with (arrivedLines e (rawLines b)).
  rewrite rawLines_encode by done. induction H as [|l payload Hl _ [IH1 IH2]].
  - cbn [fmap list_fmap app existsb]. by rewrite (arrivedLines_cons e []) by done.
  - cbn [fmap list_fmap app existsb]. destruct (dataLine_ok l Hl) as (_ & Ht & Hx & _).
    rewrite arrivedLines_cons by done. cbn [fmap list_fmap]. rewrite IH1, IH2, Ht, Hx. done.
Qed.

(** Whatever payloads a server sends, each as its data lines and an empty line, the
    scanner gives back in order, before what the rest of the stream holds. *)
Theorem sse_roundtrip payloads s e :
  Forall (λ p, p ≠ [] ∧ Forall sendable p) payloads →
  frames (MkScanner (concat (encodeFrame <$> payloads) ++ s) e) =
    Some (((λ p, MkFrame [] [] (join [LF] p)) <$> payloads) ++ (streamFrames (MkScanner s e)).1, (streamFrames (MkScanner s e)).2).
Proof.
  intros H. rewrite frames_records. f_equal.
  induction H as [|p payloads [Hne Hp] _ IH]; [by destruct (streamFrames _)|].
  cbn [fmap list_fmap concat app]. rewrite <-app_assoc.
  set (rest := concat (encodeFrame <$> payloads) ++ s) in *.
  destruct (arrived_encode p rest e Hp) as [Ha Hl]. destruct (fieldValues_encode p Hp) as (Hd & He & Hi).
  assert (frameOf (dataLine <$> p) = Some (MkFrame [] [] (join [LF] p))) as Hf.
  { unfold frameOf. rewrite Hd, He, Hi. by destruct p. }
  unfold streamFrames in IH at 1 |- * at 1. cbn [unread ends] in *. rewrite Ha, Hl, records_encode by done.
  destruct (records (lineText <$> arrived (MkScanner rest e))) as [rs tl]. cbn [omap list_omap]. rewrite Hf.
  destruct (hasLong rest); injection IH as <- <-; done.
Qed.

Definition samplePayload : list (list bytes) := Eval vm_compute in [[str "{}"]; [str "a"; str "b:c"]].

Lemma sse_roundtrip_witness :
  frames (MkScanner (concat (encodeFrame <$> samplePayload) ++ []) EOF) =
    Some ([MkFrame [] [] (str "{}"); MkFrame [] [] (str "a" ++ [LF] ++ str "b:c")], Io EOF).
Proof.
  rewrite (sse_roundtrip samplePayload [] EOF); [by vm_compute|].
  repeat constructor; try done.
Defined.

(** A stream with comments, CRLF ends, a record without data and an open record. *)
Lemma sse_sample :
  frames (MkScanner (str ": hi" ++ [CR; LF; CR; LF] ++ str "event: x" ++ [LF; LF] ++ str "id:7" ++ [LF] ++ str "data:a" ++ [LF; LF] ++ str "data") EOF)
  = Some ([MkFrame [] (str "7") (str "a"); MkFrame [] [] []], Io EOF).
Proof. by vm_compute. Qed.
End Sse.
