(* ===== verification/OpencodeBus.v ===== *)
(** The event bus of pkg/llm/opencode (event_routing.go, permissions.go): one
    goroutine reads the event stream and fans events out to the queues of the
    registered consumers; callers dial, subscribe, unsubscribe and close concurrently.
    Each rule of [step] is one critical section on the bus lock, one queue operation or
    one channel operation. *)
From stdpp Require Import functions.
From S2P Require Import Prelude NotifyQueue LlmUtil OpencodeSse.

Module Bus.
Import Sse.

(** ** Events *)

Record Event := MkEvent { ID : bytes; Type_ : bytes; Properties : bytes }.

#[export] Instance Event_eq_dec : EqDecision Event.
Proof. solve_decision. Defined.

Definition EventTypeServerConnected : bytes := Eval vm_compute in str "server.connected".
Definition EventTypeSessionError : bytes := Eval vm_compute in str "session.error".
Definition EventTypePermissionAsked : bytes := Eval vm_compute in str "permission.asked".
Definition EventTypePermissionV2Asked : bytes := Eval vm_compute in str "permission.v2.asked".
Definition EventTypeGap : bytes := Eval vm_compute in str "wrapper.events.gap".

Definition zeroEvent : Event := MkEvent [] [] [].
Definition gapEvent : Event := MkEvent [] EventTypeGap [].

(** ** Errors *)

Inductive streamError :=
| DialError
| StreamRead (e : scanError)
| ExpectedServerConnected (got : bytes)
| ClosedDuringHandshake
| BusClosed.

(** The messages of [TransportClosedError]. *)
Inductive busError :=
| DialTimedOut
| DialCanceled
| DialFailed (e : streamError)
| ReconnectExhausted (attempts : Z) (e : streamError)
| ClosedDuringBackoff
| ClientClosed
| ConsumerUnsubscribed
| ConsumerClosed
| EventBusClosed.

(** ** Consumers *)

Abbreviation equeue := (@NotifyQueue.queue Event busError).

Definition eventQueueCapacity : nat := 128.

Definition newBusConsumer : equeue := NotifyQueue.NewNotifyQueue.

(** [bc.push], the wakeup included. *)
Definition push (ev : Event) (q : equeue) : equeue :=
  let '(q, accepted) := NotifyQueue.PushBounded zeroEvent ev eventQueueCapacity (λ _, Some gapEvent) q in
  if accepted then NotifyQueue.signal q else q.

Definition closeConsumer (e : busError) (q : equeue) : equeue :=
  let '(q, accepted) := NotifyQueue.Close (Some e) q in
  if accepted then NotifyQueue.signal q else q.

(** One turn of [bc.next]: the queue, and the event, the error or a wait. *)
Inductive received := Got (ev : Event) | Ended (e : busError) | Waiting.

Definition next (q : equeue) : equeue * received :=
  let '(q, o) := NotifyQueue.Next zeroEvent q in
  match o with
  | NotifyQueue.Delivered ev rearm => (if rearm then NotifyQueue.signal q else q, Got ev)
  | NotifyQueue.Finished (Some e) => (q, Ended e)
  | NotifyQueue.Finished None => (q, Ended ConsumerClosed)
  | NotifyQueue.Wait => (q, Waiting)
  end.

(** ** State *)

(** The goroutine of the bus, with the scanner of the open stream. *)
Inductive runPoint :=
| RIdle                                     (* not started *)
| RCheck                                    (* b.isClosed() at the head of the loop *)
| RDial                                     (* dialEvents *)
| RSetBody (b : nat) (s : sseScanner)       (* b.setBody(body) *)
| RStream (handshaken : bool) (s : sseScanner)
| RPush (ev : Event) (l : list nat) (s : sseScanner)
| RStreamed (handshaken : bool) (e : streamError)
| RBackoff                                  (* retry.SleepDelay *)
| RClose (e : busError)                     (* b.close(err) *)
| RSweep                                    (* inside that call *)
| RReturn                                   (* the deferred close(b.done) *)
| RDone.

Inductive dialPoint :=
| DIdle
| DCheck                                    (* the fast path *)
| DWait                                     (* select *)
| DFail (cause : busError)                  (* b.failDial(cause) *)
| DSweep                                    (* inside closeInternal *)
| DWaitDone                                 (* <-b.done *)
| DReturned (e : option busError).

(** Who runs the part of [closeInternal] after the critical section. *)
Inductive sweeper := ByRun | ByDial (i : nat) | ByClient.

Inductive sweepPoint :=
| NotClosing
| Cancelling (who : sweeper) (b : option nat) (l : list nat)   (* b.cancel(err); body.Close() *)
| Sweeping (who : sweeper) (l : list nat)                      (* consumer.close(err) *)
| Swept.

Record Counters := MkCounters { sseReconnects : nat; gapNotifications : nat; unattributedSessionErrors : nat }.

(** A reply to a permission request: through the v2 endpoint or not, of which session
    and request, approved or rejected. *)
Record permissionReply := MkReply { v2 : bool; replySession : bytes; replyID : bytes; approved : bool }.

(** What happens on the bus, for the history. *)
Inductive logEntry :=
| LSubscribed (c : nat) (sessionID : bytes)
| LUnsubscribed (c : nat)
| LRead (ev : Event)                        (* an event behind the handshake *)
| LReconnected                              (* the handshake of a later connection *)
| LClosed (e : busError).

(** [log], [taken] and [tries] are history: what has happened, the events each consumer
    has received, and the dials since the last established connection. *)
Record state := St {
  connected : bool;
  consumers : gmap nat bytes;
  nextID : nat;
  body : option nat;
  closed : bool;
  err : option busError;
  ctxDone : bool;
  doneCh : bool;
  sweep : sweepPoint;
  unsubs : list nat;
  queues : gmap nat equeue;
  firstConnection : bool;
  attempt : Z;
  delay : Z;
  runner : runPoint;
  dials : nat → dialPoint;
  bodies : nat;
  closedBodies : list nat;
  counters : Counters;
  replies : list permissionReply;
  log : list logEntry;
  taken : nat → list Event;
  tries : Z;
}.

Definition set_connected (v : bool) (st : state) : state :=
  St v (consumers st) (nextID st) (body st) (closed st) (err st) (ctxDone st) (doneCh st) (sweep st)
    (unsubs st) (queues st) (firstConnection st) (attempt st) (delay st) (runner st) (dials st) (bodies st)
    (closedBodies st) (counters st) (replies st) (log st) (taken st) (tries st).
Definition set_consumers (v : gmap nat bytes) (st : state) : state :=
  St (connected st) v (nextID st) (body st) (closed st) (err st) (ctxDone st) (doneCh st) (sweep st)
    (unsubs st) (queues st) (firstConnection st) (attempt st) (delay st) (runner st) (dials st) (bodies st)
    (closedBodies st) (counters st) (replies st) (log st) (taken st) (tries st).
Definition set_nextID (v : nat) (st : state) : state :=
  St (connected st) (consumers st) v (body st) (closed st) (err st) (ctxDone st) (doneCh st) (sweep st)
    (unsubs st) (queues st) (firstConnection st) (attempt st) (delay st) (runner st) (dials st) (bodies st)
    (closedBodies st) (counters st) (replies st) (log st) (taken st) (tries st).
Definition set_body (v : option nat) (st : state) : state :=
  St (connected st) (consumers st) (nextID st) v (closed st) (err st) (ctxDone st) (doneCh st) (sweep st)
    (unsubs st) (queues st) (firstConnection st) (attempt st) (delay st) (runner st) (dials st) (bodies st)
    (closedBodies st) (counters st) (replies st) (log st) (taken st) (tries st).
Definition set_closed (v : bool) (st : state) : state :=
  St (connected st) (consumers st) (nextID st) (body st) v (err st) (ctxDone st) (doneCh st) (sweep st)
    (unsubs st) (queues st) (firstConnection st) (attempt st) (delay st) (runner st) (dials st) (bodies st)
    (closedBodies st) (counters st) (replies st) (log st) (taken st) (tries st).
Definition set_err (v : option busError) (st : state) : state :=
  St (connected st) (consumers st) (nextID st) (body st) (closed st) v (ctxDone st) (doneCh st) (sweep st)
    (unsubs st) (queues st) (firstConnection st) (attempt st) (delay st) (runner st) (dials st) (bodies st)
    (closedBodies st) (counters st) (replies st) (log st) (taken st) (tries st).
Definition set_ctxDone (v : bool) (st : state) : state :=
  St (connected st) (consumers st) (nextID st) (body st) (closed st) (err st) v (doneCh st) (sweep st)
    (unsubs st) (queues st) (firstConnection st) (attempt st) (delay st) (runner st) (dials st) (bodies st)
    (closedBodies st) (counters st) (replies st) (log st) (taken st) (tries st).
Definition set_doneCh (v : bool) (st : state) : state :=
  St (connected st) (consumers st) (nextID st) (body st) (closed st) (err st) (ctxDone st) v (sweep st)
    (unsubs st) (queues st) (firstConnection st) (attempt st) (delay st) (runner st) (dials st) (bodies st)
    (closedBodies st) (counters st) (replies st) (log st) (taken st) (tries st).
Definition set_sweep (v : sweepPoint) (st : state) : state :=
  St (connected st) (consumers st) (nextID st) (body st) (closed st) (err st) (ctxDone st) (doneCh st) v
    (unsubs st) (queues st) (firstConnection st) (attempt st) (delay st) (runner st) (dials st) (bodies st)
    (closedBodies st) (counters st) (replies st) (log st) (taken st) (tries st).
Definition set_unsubs (v : list nat) (st : state) : state :=
  St (connected st) (consumers st) (nextID st) (body st) (closed st) (err st) (ctxDone st) (doneCh st)
    (sweep st) v (queues st) (firstConnection st) (attempt st) (delay st) (runner st) (dials st) (bodies st)
    (closedBodies st) (counters st) (replies st) (log st) (taken st) (tries st).
Definition set_queues (v : gmap nat equeue) (st : state) : state :=
  St (connected st) (consumers st) (nextID st) (body st) (closed st) (err st) (ctxDone st) (doneCh st)
    (sweep st) (unsubs st) v (firstConnection st) (attempt st) (delay st) (runner st) (dials st) (bodies st)
    (closedBodies st) (counters st) (replies st) (log st) (taken st) (tries st).
Definition set_firstConnection (v : bool) (st : state) : state :=
  St (connected st) (consumers st) (nextID st) (body st) (closed st) (err st) (ctxDone st) (doneCh st)
    (sweep st) (unsubs st) (queues st) v (attempt st) (delay st) (runner st) (dials st) (bodies st)
    (closedBodies st) (counters st) (replies st) (log st) (taken st) (tries st).
Definition set_attempt (v : Z) (st : state) : state :=
  St (connected st) (consumers st) (nextID st) (body st) (closed st) (err st) (ctxDone st) (doneCh st)
    (sweep st) (unsubs st) (queues st) (firstConnection st) v (delay st) (runner st) (dials st) (bodies st)
    (closedBodies st) (counters st) (replies st) (log st) (taken st) (tries st).
Definition set_delay (v : Z) (st : state) : state :=
  St (connected st) (consumers st) (nextID st) (body st) (closed st) (err st) (ctxDone st) (doneCh st)
    (sweep st) (unsubs st) (queues st) (firstConnection st) (attempt st) v (runner st) (dials st) (bodies st)
    (closedBodies st) (counters st) (replies st) (log st) (taken st) (tries st).
Definition set_runner (v : runPoint) (st : state) : state :=
  St (connected st) (consumers st) (nextID st) (body st) (closed st) (err st) (ctxDone st) (doneCh st)
    (sweep st) (unsubs st) (queues st) (firstConnection st) (attempt st) (delay st) v (dials st) (bodies st)
    (closedBodies st) (counters st) (replies st) (log st) (taken st) (tries st).
Definition set_dials (v : nat → dialPoint) (st : state) : state :=
  St (connected st) (consumers st) (nextID st) (body st) (closed st) (err st) (ctxDone st) (doneCh st)
    (sweep st) (unsubs st) (queues st) (firstConnection st) (attempt st) (delay st) (runner st) v (bodies st)
    (closedBodies st) (counters st) (replies st) (log st) (taken st) (tries st).
Definition set_bodies (v : nat) (st : state) : state :=
  St (connected st) (consumers st) (nextID st) (body st) (closed st) (err st) (ctxDone st) (doneCh st)
    (sweep st) (unsubs st) (queues st) (firstConnection st) (attempt st) (delay st) (runner st) (dials st) v
    (closedBodies st) (counters st) (replies st) (log st) (taken st) (tries st).
Definition set_closedBodies (v : list nat) (st : state) : state :=
  St (connected st) (consumers st) (nextID st) (body st) (closed st) (err st) (ctxDone st) (doneCh st)
    (sweep st) (unsubs st) (queues st) (firstConnection st) (attempt st) (delay st) (runner st) (dials st)
    (bodies st) v (counters st) (replies st) (log st) (taken st) (tries st).
Definition set_counters (v : Counters) (st : state) : state :=
  St (connected st) (consumers st) (nextID st) (body st) (closed st) (err st) (ctxDone st) (doneCh st)
    (sweep st) (unsubs st) (queues st) (firstConnection st) (attempt st) (delay st) (runner st) (dials st)
    (bodies st) (closedBodies st) v (replies st) (log st) (taken st) (tries st).
Definition set_replies (v : list permissionReply) (st : state) : state :=
  St (connected st) (consumers st) (nextID st) (body st) (closed st) (err st) (ctxDone st) (doneCh st)
    (sweep st) (unsubs st) (queues st) (firstConnection st) (attempt st) (delay st) (runner st) (dials st)
    (bodies st) (closedBodies st) (counters st) v (log st) (taken st) (tries st).
Definition set_log (v : list logEntry) (st : state) : state :=
  St (connected st) (consumers st) (nextID st) (body st) (closed st) (err st) (ctxDone st) (doneCh st)
    (sweep st) (unsubs st) (queues st) (firstConnection st) (attempt st) (delay st) (runner st) (dials st)
    (bodies st) (closedBodies st) (counters st) (replies st) v (taken st) (tries st).
Definition set_taken (v : nat → list Event) (st : state) : state :=
  St (connected st) (consumers st) (nextID st) (body st) (closed st) (err st) (ctxDone st) (doneCh st)
    (sweep st) (unsubs st) (queues st) (firstConnection st) (attempt st) (delay st) (runner st) (dials st)
    (bodies st) (closedBodies st) (counters st) (replies st) (log st) v (tries st).
Definition set_tries (v : Z) (st : state) : state :=
  St (connected st) (consumers st) (nextID st) (body st) (closed st) (err st) (ctxDone st) (doneCh st)
    (sweep st) (unsubs st) (queues st) (firstConnection st) (attempt st) (delay st) (runner st) (dials st)
    (bodies st) (closedBodies st) (counters st) (replies st) (log st) (taken st) v.

Definition newEventBus : state :=
  St false ∅ 0 None false None false false NotClosing [] ∅ true 0 0 RIdle (λ _, DIdle) 0 [] (MkCounters 0 0 0) []
    [] (λ _, []) 0.

Definition record (x : logEntry) (st : state) : state := set_log (log st ++ [x]) st.

Section bus.
(** [json.Unmarshal] of a frame, of the session of a payload and of a permission
    request (its id and session), whether permissions are granted, the retry policy. *)
Context (unmarshalEvent : bytes → option Event) (unmarshalSessionID : bytes → option bytes)
  (unmarshalPermission : bytes → option (bytes * bytes)) (PermissionAuto : bool) (cfg : LlmUtil.RetryConfig).

Definition SessionID (ev : Event) : bytes :=
  match Properties ev with
  | [] => []
  | props => default [] (unmarshalSessionID props)
  end.

Definition PermissionAsked (ev : Event) : option (bytes * bytes) :=
  if bytes_eqb (Type_ ev) EventTypePermissionAsked || bytes_eqb (Type_ ev) EventTypePermissionV2Asked
  then unmarshalPermission (Properties ev) else None.

(** [accepted] is what [goWork] reports: the reply is sent unless the client closes. *)
Definition respondPermission (accepted : bool) (ev : Event) (st : state) : state :=
  match PermissionAsked ev with
  | Some (id, session) =>
      if bytes_eqb id [] || negb accepted then st
      else set_replies (replies st ++ [MkReply (bytes_eqb (Type_ ev) EventTypePermissionV2Asked) session id PermissionAuto]) st
  | None => st
  end.

(** ** Critical sections *)

Definition closedErr (st : state) : busError := default EventBusClosed (err st).

Definition subscribe (sessionID : bytes) (st : state) : result busError nat * state :=
  if closed st then (Err (closedErr st), st)
  else
    let c := nextID st + 1 in
    (Ok c, record (LSubscribed c sessionID)
      (set_queues (<[c := newBusConsumer]> (queues st)) (set_consumers (<[c := sessionID]> (consumers st)) (set_nextID c st)))).

Definition unsubscribe (c : nat) (st : state) : state :=
  record (LUnsubscribed c) (set_unsubs (c :: unsubs st) (set_consumers (delete c (consumers st)) st)).

(** [order] is the order in which Go iterates over the map of consumers. *)
Definition isOrder (order : list nat) (st : state) : Prop := order ≡ₚ (map_to_list (consumers st)).*1.

Definition closeInternal (e : busError) (onlyIfUnconnected : bool) (who : sweeper) (order : list nat) (st : state) : bool * state :=
  if closed st then (true, st)
  else if onlyIfUnconnected && connected st then (false, st)
  else (true, record (LClosed e)
    (set_sweep (Cancelling who (body st) order) (set_consumers ∅ (set_body None (set_err (Some e) (set_closed true st)))))).

Definition setBody (b : nat) (st : state) : bool * state :=
  if closed st then (false, set_closedBodies (b :: closedBodies st) st)
  else (true, set_body (Some b) st).

Definition broadcastGap (order : list nat) (st : state) : list nat * state :=
  let k := counters st in
  (order, set_counters (MkCounters (sseReconnects k) (gapNotifications k + length order) (unattributedSessionErrors k)) st).

(** The consumers a gap is to be pushed to, or the error. *)
Definition handshake (ev : Event) (order : list nat) (st : state) : result streamError (list nat) * state :=
  if negb (bytes_eqb (Type_ ev) EventTypeServerConnected) then (Err (ExpectedServerConnected (Type_ ev)), st)
  else if negb (firstConnection st) then
    let k := counters st in
    let '(l, st) := broadcastGap order (set_counters (MkCounters (sseReconnects k + 1) (gapNotifications k) (unattributedSessionErrors k)) st) in
    (Ok l, st)
  else if closed st then (Err ClosedDuringHandshake, st)
  else (Ok [], set_connected true (set_firstConnection false st)).

(** The consumers the event is to be pushed to. *)
Definition route (accepted : bool) (ev : Event) (order : list nat) (st : state) : list nat * state :=
  let sid := SessionID ev in
  if bytes_eqb (Type_ ev) EventTypeSessionError && bytes_eqb sid [] then
    let k := counters st in
    ([], set_counters (MkCounters (sseReconnects k) (gapNotifications k) (unattributedSessionErrors k + 1)) st)
  else
    let st := if bytes_eqb (Type_ ev) EventTypePermissionAsked || bytes_eqb (Type_ ev) EventTypePermissionV2Asked
              then respondPermission accepted ev st else st in
    if bytes_eqb sid [] then ([], st)
    else (filter (λ c, consumers st !! c = Some sid) order, st).

(** A frame of the stream; the history has what was read, not what the bus makes of it. *)
Definition onFrame (accepted : bool) (order : list nat) (handshaken : bool) (f : sseFrame) (s : sseScanner) (st : state) : state :=
  match unmarshalEvent (data f) with
  | None => set_runner (RStream handshaken s) st
  | Some ev =>
      if bytes_eqb (Type_ ev) [] then set_runner (RStream handshaken s) st
      else if negb handshaken then
        match handshake ev order st with
        | (Err e, st) => set_runner (RStreamed false e) st
        | (Ok l, st') => set_runner (RPush gapEvent l s) (if firstConnection st then st' else record LReconnected st')
        end
      else
        let '(l, st) := route accepted ev order (record (LRead ev) st) in set_runner (RPush ev l s) st
  end.

Definition retry : LlmUtil.RetryConfig := LlmUtil.WithDefaults cfg.

(** The part of the loop of [run] after [streamOnce]. *)
Definition afterStream (handshaken : bool) (e : streamError) (st : state) : state :=
  let st := if handshaken then set_tries 0 (set_attempt 0 (set_delay (LlmUtil.InitialDelay retry) st)) else st in
  if closed st || ctxDone st then set_runner RReturn st
  else if firstConnection st then set_runner (RClose (DialFailed e)) st
  else
    let st := set_attempt (attempt st + 1) st in
    if (LlmUtil.MaxAttempts retry ≤b attempt st) then set_runner (RClose (ReconnectExhausted (attempt st) e)) st
    else set_runner RBackoff st.

Definition set_queue (c : nat) (f : equeue → equeue) (st : state) : state := set_queues (alter f c (queues st)) st.
Definition set_dial (i : nat) (p : dialPoint) (st : state) : state := set_dials (<[i := p]> (dials st)) st.

(** What the thread that closes does when it has closed every consumer. *)
Definition swept (who : sweeper) (st : state) : state :=
  match who with
  | ByRun => set_runner RReturn st
  | ByDial i => set_dial i DWaitDone st
  | ByClient => st
  end.

(** ** Steps *)

Inductive step : state → state → Prop :=
(* callers *)
| S_subscribe sid st c st' : subscribe sid st = (Ok c, st') → step st st'
| S_unsubscribe c st : is_Some (queues st !! c) → step st (unsubscribe c st)
| S_unsubscribed c l1 l2 st :
    unsubs st = l1 ++ c :: l2 → step st (set_unsubs (l1 ++ l2) (set_queue c (closeConsumer ConsumerUnsubscribed) st))
| S_next c q q' ev st :
    queues st !! c = Some q → next q = (q', Got ev) →
    step st (set_taken (<[c := taken st c ++ [ev]]> (taken st)) (set_queue c (λ _, q') st))
| S_lifetime st : step st (set_ctxDone true st)
| S_close order st : isOrder order st → step st (closeInternal ClientClosed false ByClient order st).2
(* closeInternal after its critical section *)
| S_cancel who b l st :
    sweep st = Cancelling who b l →
    step st (set_sweep (Sweeping who l) (set_closedBodies (option_list b ++ closedBodies st) (set_ctxDone true st)))
| S_sweep who c l st :
    sweep st = Sweeping who (c :: l) →
    step st (set_sweep (Sweeping who l) (set_queue c (closeConsumer (closedErr st)) st))
| S_swept who st : sweep st = Sweeping who [] → step st (swept who (set_sweep Swept st))
(* dial *)
| D_start i st :
    dials st i = DIdle →
    step st (set_dial i DCheck
      (match runner st with RIdle => set_runner RCheck (set_delay (LlmUtil.InitialDelay retry) st) | _ => st end))
| D_fast i st : dials st i = DCheck → connected st = true → step st (set_dial i (DReturned None) st)
| D_slow i st : dials st i = DCheck → connected st = false → step st (set_dial i DWait st)
| D_connected i st : dials st i = DWait → connected st = true → step st (set_dial i (DReturned None) st)
| D_done i st : dials st i = DWait → doneCh st = true → step st (set_dial i (DReturned (Some (closedErr st))) st)
| D_timeout i st : dials st i = DWait → step st (set_dial i (DFail DialTimedOut) st)
| D_canceled i st : dials st i = DWait → step st (set_dial i (DFail DialCanceled) st)
| D_fail i cause order st b st' :
    dials st i = DFail cause → isOrder order st → closeInternal cause true (ByDial i) order st = (b, st') →
    step st (set_dial i (if b then (if closed st then DWaitDone else DSweep) else DReturned None) st')
| D_closed i st : dials st i = DWaitDone → doneCh st = true → step st (set_dial i (DReturned (Some (closedErr st))) st)
(* run *)
| R_check st : runner st = RCheck → step st (set_runner (if closed st then RReturn else RDial) st)
| R_dial_error st : runner st = RDial → step st (set_runner (RStreamed false DialError) (set_tries (tries st + 1) st))
| R_dial s st :
    runner st = RDial → step st (set_runner (RSetBody (bodies st) s) (set_bodies (bodies st + 1) (set_tries (tries st + 1) st)))
| R_body b s st ok st' :
    runner st = RSetBody b s → setBody b st = (ok, st') →
    step st (set_runner (if ok then RStream false s else RStreamed false BusClosed) st')
| R_failed hs s st e s' :
    runner st = RStream hs s → Sse.next s = Some (Err e, s') → step st (set_runner (RStreamed hs (StreamRead e)) st)
| R_interrupted hs s st :
    runner st = RStream hs s → ctxDone st = true → step st (set_runner (RStreamed hs (StreamRead (Io (ReadError 0)))) st)
| R_frame hs s st f s' order accepted :
    runner st = RStream hs s → Sse.next s = Some (Ok f, s') → isOrder order st →
    step st (onFrame accepted order hs f s' st)
| R_push ev c l s st :
    runner st = RPush ev (c :: l) s → step st (set_runner (RPush ev l s) (set_queue c (push ev) st))
| R_pushed ev s st : runner st = RPush ev [] s → step st (set_runner (RStream true s) st)
| R_streamed hs e st : runner st = RStreamed hs e → step st (afterStream hs e st)
| R_slept jittered slept d st :
    runner st = RBackoff → LlmUtil.SleepDelay (E := unit) retry (λ _, false) jittered 0 (delay st) = (slept, Ok d) →
    step st (set_runner RCheck (set_delay d st))
| R_interrupted_sleep jittered slept e st :
    runner st = RBackoff → ctxDone st = true →
    LlmUtil.SleepDelay (E := unit) retry (λ _, true) jittered 0 (delay st) = (slept, Err e) →
    step st (set_runner (RClose ClosedDuringBackoff) st)
| R_close e order st :
    runner st = RClose e → isOrder order st →
    step st (set_runner (if closed st then RReturn else RSweep) (closeInternal e false ByRun order st).2)
| R_return st : runner st = RReturn → step st (set_runner RDone (set_doneCh true st)).

Inductive reachable : state → Prop :=
| Re_init : reachable newEventBus
| Re_step st st' : reachable st → step st st' → reachable st'.
End bus.
End Bus.
