(* ===== verification/OpencodeBusSpec.v ===== *)
(** What the event bus guarantees in every interleaving: a consumer gets the events of
    its session in order with every loss marked, dialing and the handshake exclude each
    other, reconnects are bounded and closing releases every consumer. *)
From stdpp Require Import functions.
From S2P Require Import Prelude NotifyQueue LlmUtil OpencodeSse OpencodeBus.

Module BusSpec.
Import Sse Bus.

(** ** Losing events with a marker *)

(** [Gapped l m]: [m] is [l] with non-empty runs of events replaced by the gap event. *)
Inductive Gapped : list Event → list Event → Prop :=
| Gapped_nil : Gapped [] []
| Gapped_keep ev l m : Gapped l m → Gapped (ev :: l) (ev :: m)
| Gapped_lost dropped l m : dropped ≠ [] → Gapped l m → Gapped (dropped ++ l) (gapEvent :: m).

Lemma Gapped_app l1 m1 l2 m2 : Gapped l1 m1 → Gapped l2 m2 → Gapped (l1 ++ l2) (m1 ++ m2).
Proof.
  induction 1 as [|ev l m _ IH|d l m Hd _ IH]; intros H2; [done|by constructor; apply IH|].
  rewrite <-app_assoc. by constructor; [|apply IH].
Qed.

Lemma Gapped_refl l : Gapped l l.
Proof. induction l; by constructor. Qed.

Lemma Gapped_split l m1 m2 :
  Gapped l (m1 ++ m2) → ∃ l1 l2, l = l1 ++ l2 ∧ Gapped l1 m1 ∧ Gapped l2 m2.
Proof.
  revert l. induction m1 as [|x m1 IH]; intros l H; [by exists [], l; split_and!; [|constructor|]|].
  inversion H as [|? l' ? H'|d l' ? Hd H']; subst; destruct (IH _ H') as (l1 & l2 & -> & H1 & H2).
  - exists (x :: l1), l2. split_and!; [done|by constructor|done].
  - exists (d ++ l1), l2. split_and!; [by rewrite app_assoc|by constructor|done].
Qed.

Lemma Gapped_ne l m : Gapped l m → m ≠ [] → l ≠ [].
Proof. destruct 1 as [| |d l m Hd H]; [done|done|]. intros _. by destruct d. Qed.

(** Dropping from the middle and leaving a marker keeps the relation. *)
Lemma Gapped_drop l m1 m2 m3 :
  m2 ≠ [] → Gapped l (m1 ++ m2 ++ m3) → Gapped l (m1 ++ gapEvent :: m3).
Proof.
  intros Hne H. apply Gapped_split in H as (l1 & l23 & -> & H1 & H).
  apply Gapped_split in H as (l2 & l3 & -> & H2 & H3).
  apply Gapped_app; [done|]. constructor; [by eapply Gapped_ne|done].
Qed.

(** ** Queues *)

Definition queued (q : equeue) : list Event := (NotifyQueue.abs q).1.

Definition sound (q : equeue) : Prop := NotifyQueue.wf q ∧ length (queued q) ≤ eventQueueCapacity.

Lemma signal_same (q : equeue) :
  queued (NotifyQueue.signal q) = queued q ∧ NotifyQueue.closed (NotifyQueue.signal q) = NotifyQueue.closed q ∧
  (sound q → sound (NotifyQueue.signal q)).
Proof. done. Qed.

(** A push to an open queue keeps the newest event and loses older ones only behind a
    marker; one to a closed queue does nothing. *)
Lemma bus_push_spec ev q l t :
  sound q → sound (push ev q) ∧ NotifyQueue.closed (push ev q) = NotifyQueue.closed q ∧
  (NotifyQueue.closed q = true → queued (push ev q) = queued q) ∧
  (NotifyQueue.closed q = false → Gapped l (t ++ queued q ++ [ev]) → Gapped l (t ++ queued (push ev q))).
Proof.
  intros [Hwf Hlen]. unfold push.
  destruct (NotifyQueue.PushBounded_refines zeroEvent ev eventQueueCapacity (λ _, Some gapEvent) q Hwf) as [Hwf' Hr].
  destruct (NotifyQueue.PushBounded zeroEvent ev eventQueueCapacity (λ _, Some gapEvent) q) as [q' acc]. cbn [fst snd] in *.
  unfold NotifyQueue.spec_push_bounded in Hr. unfold sound, queued in *.
  destruct (NotifyQueue.closed q) eqn:Ec.
  - replace ((NotifyQueue.abs q).2) with (Some (NotifyQueue.qerr q)) in Hr by (unfold NotifyQueue.abs; by rewrite Ec).
    pose proof (f_equal fst Hr) as Ha. pose proof (f_equal snd Hr) as Hacc. cbn [fst snd] in Ha, Hacc. subst acc.
    rewrite Ha. split_and!; [done|done| |done|done].
    unfold NotifyQueue.abs in Ha. rewrite Ec in Ha. by destruct (NotifyQueue.closed q').
  - replace ((NotifyQueue.abs q).2) with (@None (option busError)) in Hr by (unfold NotifyQueue.abs; by rewrite Ec).
    assert ((NotifyQueue.abs q').2 = None ∧ acc = true) as [Hn ->].
    { destruct (eventQueueCapacity <=? _); split;
        [apply (f_equal (λ x, x.1.2) Hr)|apply (f_equal snd Hr)|apply (f_equal (λ x, x.1.2) Hr)|apply (f_equal snd Hr)]. }
    assert (NotifyQueue.closed q' = false) as Hc by (unfold NotifyQueue.abs in Hn; by destruct (NotifyQueue.closed q')).
    change (NotifyQueue.abs (NotifyQueue.signal q')) with (NotifyQueue.abs q').
    change (NotifyQueue.closed (NotifyQueue.signal q')) with (NotifyQueue.closed q').
    change (NotifyQueue.wf (NotifyQueue.signal q')) with (NotifyQueue.wf q').
    destruct (eventQueueCapacity <=? length (NotifyQueue.abs q).1) eqn:El;
      apply (f_equal (λ x, x.1.1)) in Hr; cbn [fst snd] in Hr; rewrite Hr.
    + assert (length (NotifyQueue.abs q).1 = eventQueueCapacity) as Hl by (unfold eventQueueCapacity in *; bool_lia).
      rewrite Hl. unfold eventQueueCapacity in *. change (option_list (Some gapEvent)) with [gapEvent]. rewrite !length_app, length_drop, Hl. cbn [length].
      split_and!; [done|lia|done|done|]. intros _ HG.
      apply (Gapped_drop _ t (take (128 - (128 - 2)) (NotifyQueue.abs q).1)).
      * intros Hnil. apply (f_equal length) in Hnil. rewrite length_take, Hl in Hnil. done.
      * by rewrite (app_assoc (take _ _)), take_drop.
    + rewrite length_app. cbn [length]. unfold eventQueueCapacity in *. split_and!; [done|bool_lia|done|done|done].
Qed.

Lemma close_spec e q :
  sound q → sound (closeConsumer e q) ∧ NotifyQueue.closed (closeConsumer e q) = true ∧ queued (closeConsumer e q) = queued q.
Proof.
  intros [Hwf Hlen]. unfold closeConsumer, NotifyQueue.Close. destruct (NotifyQueue.closed q) eqn:Ec; [done|]. done.
Qed.

Lemma next_spec q q' ev :
  sound q → next q = (q', Got ev) →
  sound q' ∧ NotifyQueue.closed q' = NotifyQueue.closed q ∧ queued q = ev :: queued q'.
Proof.
  intros [Hwf Hlen]. unfold next. destruct (NotifyQueue.Next_refines zeroEvent q Hwf) as [Hwf' Hr].
  destruct (NotifyQueue.Next zeroEvent q) as [q1 o]. cbn [fst snd] in *. unfold NotifyQueue.spec_next in Hr.
  intros Hn. destruct o as [x rearm|[x|]|]; [|done..]. injection Hn as <- ->.
  unfold sound, queued in *. destruct (NotifyQueue.abs q) as [l o] eqn:Ea. cbn [fst snd] in *.
  destruct l as [|y l]; [by destruct o|]. pose proof (f_equal fst Hr) as Ha1. pose proof (f_equal snd Hr) as Ho.
  cbn [fst snd] in Ha1, Ho. injection Ho as -> _. simpl in Hlen. clear Hr. rename Ha1 into Hr.
  assert (NotifyQueue.closed q1 = NotifyQueue.closed q) as Hc.
  { unfold NotifyQueue.abs in Ea, Hr. by destruct (NotifyQueue.closed q), (NotifyQueue.closed q1); simplify_eq. }
  destruct rearm;
    (change (NotifyQueue.abs (NotifyQueue.signal q1)) with (NotifyQueue.abs q1) || idtac); rewrite Hr; cbn [fst];
    split_and!; try done; lia.
Qed.

(** How the queue was closed, if it was. *)
Definition fate (q : equeue) : option (option busError) := (NotifyQueue.abs q).2.

Lemma fate_push ev q : fate (push ev q) = fate q.
Proof.
  unfold push, NotifyQueue.PushBounded. destruct (NotifyQueue.closed q) eqn:Ec; [done|]. cbv zeta.
  set (q1 := if 0 <? NotifyQueue.head q then NotifyQueue.compactLocked zeroEvent q else q).
  assert (NotifyQueue.closed q1 = false) as Ec1 by (subst q1; by destruct (0 <? NotifyQueue.head q)). clearbody q1.
  unfold fate, NotifyQueue.abs. rewrite Ec. destruct (eventQueueCapacity <=? _); cbn [NotifyQueue.closed NotifyQueue.set_items NotifyQueue.signal];
    by rewrite Ec1.
Qed.

Lemma fate_close e q : fate (closeConsumer e q) = Some (default (Some e) (fate q)).
Proof. unfold closeConsumer, NotifyQueue.Close, fate. destruct (NotifyQueue.closed q) eqn:Ec; cbn; by rewrite ?Ec. Qed.

Lemma next_cases q :
  sound q →
  match queued q with
  | ev :: l => ∃ q', next q = (q', Got ev) ∧ sound q' ∧ queued q' = l ∧ fate q' = fate q
  | [] => (next q).2 = match fate q with
                        | Some (Some e) => Ended e | Some None => Ended ConsumerClosed | None => Waiting end
  end.
Proof.
  intros [Hwf Hlen]. unfold next, sound, queued, fate in *. destruct (NotifyQueue.Next_refines zeroEvent q Hwf) as [Hwf' Hr].
  destruct (NotifyQueue.Next zeroEvent q) as [q1 o]. cbn [fst snd] in *. unfold NotifyQueue.spec_next in Hr.
  destruct (NotifyQueue.abs q) as [[|ev l] f]; cbn [fst snd] in *.
  - apply (f_equal snd) in Hr. cbn [snd] in Hr. subst o. by destruct f as [[]|].
  - pose proof (f_equal fst Hr) as Ha. apply (f_equal snd) in Hr. cbn [fst snd] in *. subst o. eexists. split; [done|].
    assert (NotifyQueue.abs (NotifyQueue.signal q1) = NotifyQueue.abs q1) as Hs by done.
    assert (NotifyQueue.wf (NotifyQueue.signal q1) ↔ NotifyQueue.wf q1) as Hw by done.
    case_match; rewrite ?Hs, ?Hw, Ha; cbn [fst snd length] in *; split_and!; try done; lia.
Qed.

Lemma next_fate q q' ev : sound q → next q = (q', Got ev) → fate q' = fate q.
Proof.
  intros Hs Hn. pose proof (next_cases q Hs) as Hc. destruct (queued q).
  - rewrite Hn in Hc. destruct (fate q) as [[]|]; discriminate Hc.
  - destruct Hc as (q1 & Hq & _ & _ & <-). rewrite Hn in Hq. by injection Hq as ->.
Qed.

(** ** What a consumer is to get *)

Section spec.
Context (unmarshalEvent : bytes → option Event) (unmarshalSessionID : bytes → option bytes)
  (unmarshalPermission : bytes → option (bytes * bytes)) (PermissionAuto : bool) (cfg : LlmUtil.RetryConfig).

(** The session a consumer is registered for, as the history goes on. *)
Definition session (c : nat) (s : option bytes) (x : logEntry) : option bytes :=
  match x with
  | LSubscribed c' sid => if decide (c' = c) then Some sid else s
  | LUnsubscribed c' => if decide (c' = c) then None else s
  | LClosed _ => None
  | LRead _ | LReconnected => s
  end.

(** What an entry of the history means for a consumer of that session: an event read is
    for the consumers of its session, a reconnect is a gap for all of them. *)
Definition meant (s : option bytes) (x : logEntry) : list Event :=
  match s, x with
  | Some sid, LRead ev => if decide (sid ≠ [] ∧ SessionID unmarshalSessionID ev = sid) then [ev] else []
  | Some _, LReconnected => [gapEvent]
  | _, _ => []
  end.

Fixpoint addressedFrom (c : nat) (s : option bytes) (l : list logEntry) : list Event :=
  match l with
  | [] => []
  | x :: l => meant s x ++ addressedFrom c (session c s x) l
  end.

Definition sessionIn (c : nat) (l : list logEntry) : option bytes := foldl (session c) None l.
Definition addressed (c : nat) (l : list logEntry) : list Event := addressedFrom c None l.

Lemma sessionIn_snoc c l x : sessionIn c (l ++ [x]) = session c (sessionIn c l) x.
Proof using Type. unfold sessionIn. by rewrite foldl_app. Qed.

Lemma addressed_snoc c l x : addressed c (l ++ [x]) = addressed c l ++ meant (sessionIn c l) x.
Proof using Type.
  unfold addressed, sessionIn. generalize (@None bytes) as s.
  induction l as [|y l IH]; intros s; cbn [app addressedFrom foldl]; [by rewrite app_nil_r|]. by rewrite IH, app_assoc.
Qed.

(** Entries that mean nothing to any consumer. *)
Definition quiet (x : logEntry) : bool := match x with LRead _ | LReconnected => false | _ => true end.

Lemma addressed_quiet c l x : quiet x = true → addressed c (l ++ [x]) = addressed c l.
Proof using Type. intros Hx. rewrite addressed_snoc. by destruct (sessionIn c l), x; rewrite ?app_nil_r. Qed.

#[local] Arguments sessionIn : simpl never.
#[local] Arguments addressed : simpl never.

(** The ways a consumer comes to its end, in the order they happened. *)
Inductive ending := ByUnsubscribe | ByClose (e : busError).

Definition endingOf (c : nat) (x : logEntry) : option ending :=
  match x with
  | LUnsubscribed c' => if decide (c' = c) then Some ByUnsubscribe else None
  | LClosed e => Some (ByClose e)
  | _ => None
  end.

Definition endings (c : nat) (l : list logEntry) : list ending := omap (endingOf c) l.

#[local] Arguments endings : simpl never.
#[local] Arguments fate : simpl never.

Definition terminalError (r : ending) : busError := match r with ByUnsubscribe => ConsumerUnsubscribed | ByClose e => e end.

(** A consumer that reads on: what it gets, and what stops it within [fuel] turns. *)
Fixpoint drain (fuel : nat) (q : equeue) : list Event * received :=
  match fuel with
  | 0 => ([], Waiting)
  | S fuel =>
      match next q with
      | (q, Got ev) => let '(l, r) := drain fuel q in (ev :: l, r)
      | (_, r) => ([], r)
      end
  end.

(** A closed queue is emptied and then reports how it was closed. *)
Lemma drain_closed q e : sound q → fate q = Some (Some e) → drain (S (length (queued q))) q = (queued q, Ended e).
Proof using Type.
  remember (queued q) as l eqn:El. revert q El. induction l as [|ev l IH]; intros q El Hs Hf;
    pose proof (next_cases q Hs) as Hc; rewrite <-El, Hf in Hc.
  - cbn. destruct (next q) as [q' r]. cbn in Hc. by subst r.
  - destruct Hc as (q' & Hn & Hs' & Hq & Hf'). cbn [length]. remember (S (length l)) as n eqn:En.
    cbn [drain]. subst n. rewrite Hn, (IH q'); [done|done|done|congruence].
Qed.

(** ** The invariant *)

Definition pushing (p : runPoint) : list nat := match p with RPush _ l _ => l | _ => [] end.

(** The event being pushed, for the consumers that are still to get it. *)
Definition inflight (p : runPoint) (c : nat) : list Event :=
  match p with RPush ev l _ => if decide (c ∈ l) then [ev] else [] | _ => [] end.

Definition toClose (s : sweepPoint) : list nat :=
  match s with Cancelling _ _ l | Sweeping _ l => l | _ => [] end.

Definition closingBy (s : sweepPoint) : option sweeper :=
  match s with Cancelling who _ _ | Sweeping who _ => Some who | _ => None end.

(** What has been delivered or is queued for a consumer, against what was addressed to it. *)
Definition delivery (sent taken : list Event) (q : equeue) (fly : list Event) : Prop :=
  sound q ∧ (NotifyQueue.closed q = false → Gapped sent (taken ++ queued q ++ fly)) ∧
  ∃ n, Gapped (take n sent) (taken ++ queued q).

Record wfb (st : state) : Prop := {
  wb_dom c : is_Some (queues st !! c) → c ≤ nextID st;
  wb_reg c sid : consumers st !! c = Some sid → ∃ q, queues st !! c = Some q ∧ NotifyQueue.closed q = false;
  wb_unsub c : c ∈ unsubs st → consumers st !! c = None ∧ is_Some (queues st !! c);
  wb_sweep c : c ∈ toClose (sweep st) → is_Some (queues st !! c);
  wb_closed : closed st = true → consumers st = ∅;
  wb_open : closed st = false → sweep st = NotClosing;
  wb_release c q : queues st !! c = Some q →
    NotifyQueue.closed q = true ∨ is_Some (consumers st !! c) ∨ c ∈ unsubs st ∨ c ∈ toClose (sweep st);
  wb_push : NoDup (pushing (runner st)) ∧ ∀ c, c ∈ pushing (runner st) → is_Some (queues st !! c);
  wb_run : closingBy (sweep st) = Some ByRun → runner st = RSweep;
  wb_log c : sessionIn c (log st) = consumers st !! c;
  wb_new c : queues st !! c = None → addressed c (log st) = [] ∧ taken st c = [];
  wb_del c q : queues st !! c = Some q → delivery (addressed c (log st)) (taken st c) q (inflight (runner st) c);
}.

Definition core (st : state) :=
  (consumers st, nextID st, closed st, sweep st, unsubs st, queues st, log st, taken st).

Lemma pushing_inflight p c : pushing p = [] → inflight p c = [].
Proof. destruct p; try done. cbn. intros ->. by rewrite decide_False by apply not_elem_of_nil. Qed.

(** Rules that leave the consumers, their queues and the events in flight alone. *)
Lemma wfb_frame st st' :
  wfb st → core st' = core st →
  (runner st' = runner st ∨
   pushing (runner st) = [] ∧ pushing (runner st') = [] ∧ (closingBy (sweep st) = Some ByRun → runner st' = RSweep)) →
  wfb st'.
Proof.
  intros [] Hc Hr. unfold core in Hc. injection Hc as E1 E2 E3 E4 E5 E6 E7 E8.
  assert (∀ c, inflight (runner st') c = inflight (runner st) c) as Hi.
  { intros c. destruct Hr as [->|(H1 & H2 & _)]; [done|]. by rewrite !pushing_inflight. }
  split; rewrite ?E1, ?E2, ?E3, ?E4, ?E5, ?E6, ?E7, ?E8; try done.
  - destruct Hr as [->|(_ & -> & _)]; [done|]. split; [constructor|]. intros c Hin. by apply not_elem_of_nil in Hin.
  - intros Hby. destruct Hr as [->|(_ & _ & H)]; auto.
  - intros c q Hq. rewrite Hi. auto.
Qed.

(** ** The delivery of one consumer *)

Lemma delivery_new sent taken fly :
  sent = [] → taken = [] → fly = [] → delivery sent taken newBusConsumer fly.
Proof.
  intros -> -> ->. split; [|split].
  - split; [unfold NotifyQueue.wf|unfold eventQueueCapacity]; cbn; lia.
  - intros _. constructor.
  - exists 0. constructor.
Qed.

Lemma delivery_address sent taken q fly ev :
  delivery sent taken q [] → fly = [ev] → delivery (sent ++ [ev]) taken q fly.
Proof.
  intros (Hs & Ho & n & Hn) ->. split_and!; [done| |].
  - intros Hc. rewrite !app_assoc. apply Gapped_app; [|apply Gapped_refl].
    specialize (Ho Hc). by rewrite app_nil_r in Ho.
  - exists (n `min` length sent). rewrite take_app_le by lia.
    destruct (decide (n ≤ length sent)); [by rewrite Nat.min_l by lia|].
    rewrite Nat.min_r by lia. by rewrite take_ge in Hn |- * by lia.
Qed.

Lemma delivery_push sent taken q ev :
  delivery sent taken q [ev] → delivery sent taken (push ev q) [].
Proof.
  intros (Hs & Ho & n & Hn). destruct (bus_push_spec ev q sent taken Hs) as (Hs' & Hc & Hcl & Hop).
  destruct (NotifyQueue.closed q) eqn:E.
  - split_and!; [done|by rewrite Hc|]. exists n. by rewrite (Hcl eq_refl).
  - split_and!; [done| |].
    + intros _. rewrite app_nil_r. auto.
    + exists (length sent). rewrite take_ge by lia. auto.
Qed.

Lemma delivery_close sent taken q fly e : delivery sent taken q fly → delivery sent taken (closeConsumer e q) fly.
Proof.
  intros (Hs & Ho & n & Hn). destruct (close_spec e q Hs) as (Hs' & Hc & Hq). split_and!; [done|by rewrite Hc|].
  exists n. by rewrite Hq.
Qed.

Lemma delivery_next sent taken q q' ev fly :
  delivery sent taken q fly → next q = (q', Got ev) → delivery sent (taken ++ [ev]) q' fly.
Proof.
  intros (Hs & Ho & n & Hn) Hnx. destruct (next_spec q q' ev Hs Hnx) as (Hs' & Hc & Hq). split_and!; [done| |].
  - rewrite Hc. intros Hcl. specialize (Ho Hcl). rewrite Hq in Ho. by rewrite <-!app_assoc.
  - exists n. rewrite Hq in Hn. by rewrite <-app_assoc.
Qed.

(** ** Preservation *)

Lemma wfb_init : wfb newEventBus.
Proof.
  split; cbn; try done; try (intros; set_solver).
  - intros c [? H]. by rewrite lookup_empty in H.
  - split; [constructor|]. intros c H. by apply not_elem_of_nil in H.
Qed.

Lemma fresh_queue st : wfb st → queues st !! (nextID st + 1) = None.
Proof using Type.
  intros Hwf. apply eq_None_not_Some. intros H%(wb_dom st Hwf). rewrite Nat.add_1_r in H. by apply Nat.nle_succ_diag_l in H.
Qed.

Lemma wfb_subscribe sid st c st' : wfb st → subscribe sid st = (Ok c, st') → wfb st'.
Proof.
  intros Hwf H. pose proof (fresh_queue st Hwf) as Hc. destruct Hwf. unfold subscribe in H. destruct (closed st) eqn:Ec; [done|].
  injection H as <- <-. set (c := nextID st + 1) in *.
  assert (∀ c', is_Some (queues st !! c') → is_Some (<[c:=newBusConsumer]> (queues st) !! c')) as Hmono.
  { intros c' ?. destruct (decide (c = c')) as [<-|]; [rewrite lookup_insert_eq|rewrite lookup_insert_ne by done]; eauto. }
  split; cbn; try done.
  - intros c' [q Hq]. destruct (decide (c = c')) as [<-|]; [done|]. rewrite lookup_insert_ne in Hq by done.
    assert (c' ≤ nextID st) by eauto. lia.
  - intros c' sid' Hreg. destruct (decide (c = c')) as [<-|]; [rewrite lookup_insert_eq; by eexists|].
    rewrite lookup_insert_ne in Hreg by done. rewrite lookup_insert_ne by done. eauto.
  - intros c' Hu. destruct (wb_unsub0 c' Hu) as [Hn Hs]. split; [|auto]. rewrite lookup_insert_ne; [done|].
    intros <-. rewrite Hc in Hs. by destruct Hs.
  - intros c' Hin. auto.
  - by rewrite Ec.
  - auto.
  - intros c' q Hq. destruct (decide (c = c')) as [<-|]; [right; left; rewrite lookup_insert_eq; eauto|].
    rewrite lookup_insert_ne in Hq by done. rewrite lookup_insert_ne by done. auto.
  - destruct wb_push0. split; auto.
  - intros c'. rewrite sessionIn_snoc. cbn [session]. destruct (decide (c = c')) as [<-|];
      [by rewrite lookup_insert_eq|by rewrite lookup_insert_ne].
  - intros c' Hn. rewrite addressed_quiet by done. destruct (decide (c = c')) as [<-|]; [by rewrite lookup_insert_eq in Hn|].
    rewrite lookup_insert_ne in Hn by done. auto.
  - intros c' q Hq. rewrite addressed_quiet by done. destruct (decide (c = c')) as [<-|]; [|rewrite lookup_insert_ne in Hq by done; auto].
    rewrite lookup_insert_eq in Hq. injection Hq as <-. destruct (wb_new0 c Hc) as [-> ->].
    apply delivery_new; [done|done|]. destruct wb_push0 as [_ Hp]. destruct (runner st) as [| | | | |ev l s| | | | | |]; try done. cbn.
    rewrite decide_False; [done|]. intros Hin. destruct (Hp c Hin) as [q Hq]. by rewrite Hc in Hq.
Qed.

Lemma wfb_unsubscribe c st : wfb st → is_Some (queues st !! c) → wfb (unsubscribe c st).
Proof.
  intros [] Hs. unfold unsubscribe. split; cbn; try done.
  - intros c' sid H. apply lookup_delete_Some in H as [_ H]. eauto.
  - intros c' H. apply elem_of_cons in H as [->|H]; [by rewrite lookup_delete_eq|].
    destruct (wb_unsub0 c' H). split; [|done]. apply lookup_delete_None. auto.
  - intros H. by rewrite wb_closed0, delete_empty.
  - intros c' q H. destruct (decide (c = c')) as [<-|]; [right; right; left; constructor|].
    rewrite lookup_delete_ne by done. destruct (wb_release0 c' q H) as [|[|[|]]]; auto. right; right; left. by constructor.
  - intros c'. rewrite sessionIn_snoc. cbn [session].
    destruct (decide (c = c')) as [<-|]; [by rewrite lookup_delete_eq|by rewrite lookup_delete_ne].
  - intros c' H. rewrite addressed_quiet by done. auto.
  - intros c' q H. rewrite addressed_quiet by done. auto.
Qed.

(** One queue changes, keeping its delivery; if it closes, it is not registered. *)
Lemma wfb_queue c f st runner' :
  wfb st →
  (∀ q, queues st !! c = Some q → delivery (addressed c (log st)) (taken st c) (f q) (inflight runner' c) ∧
     (NotifyQueue.closed (f q) = NotifyQueue.closed q ∨ NotifyQueue.closed (f q) = true ∧ consumers st !! c = None)) →
  (∀ c', c' ≠ c → inflight runner' c' = inflight (runner st) c') →
  (NoDup (pushing runner') ∧ ∀ c', c' ∈ pushing runner' → is_Some (queues st !! c')) →
  (runner st = RSweep → runner' = RSweep) →
  wfb (set_runner runner' (set_queue c f st)).
Proof.
  intros [] Hf Hi Hp Hrs. unfold set_queue. split; cbn; try done.
  - intros c' [q H]. destruct (decide (c = c')) as [<-|].
    + rewrite lookup_alter_eq in H. apply fmap_Some in H as (q0 & H & _). eauto.
    + rewrite lookup_alter_ne in H by done. eauto.
  - intros c' sid H. destruct (wb_reg0 c' sid H) as (q & Hq & Hc). destruct (decide (c = c')) as [<-|].
    + rewrite lookup_alter_eq, Hq. cbn. eexists; split; [done|]. destruct (Hf q Hq) as [_ [->|[_ Hn]]]; [done|]. by rewrite Hn in H.
    + rewrite lookup_alter_ne by done. eauto.
  - intros c' H. destruct (wb_unsub0 c' H). by rewrite lookup_alter_is_Some.
  - intros c' H. rewrite lookup_alter_is_Some. auto.
  - intros c' q H. destruct (decide (c = c')) as [<-|]; [|rewrite lookup_alter_ne in H by done; auto].
    rewrite lookup_alter_eq in H. apply fmap_Some in H as (q0 & H & ->).
    destruct (Hf q0 H) as [_ [->|[-> _]]]; auto.
  - destruct Hp. split; [done|]. intros. rewrite lookup_alter_is_Some. auto.
  - auto.
  - intros c' H. apply lookup_alter_None in H. auto.
  - intros c' q H. destruct (decide (c = c')) as [<-|].
    + rewrite lookup_alter_eq in H. apply fmap_Some in H as (q0 & H & ->). by destruct (Hf q0 H).
    + rewrite lookup_alter_ne in H by done. rewrite Hi by done. auto.
Qed.
(** [closeInternal] takes the consumers over. *)
Lemma wfb_close st st' who b order e :
  wfb st → closed st = false → isOrder order st →
  consumers st' = ∅ → nextID st' = nextID st → closed st' = true → sweep st' = Cancelling who b order →
  unsubs st' = unsubs st → queues st' = queues st → log st' = log st ++ [LClosed e] → taken st' = taken st →
  (who = ByRun → runner st' = RSweep) →
  (runner st' = runner st ∨ pushing (runner st) = [] ∧ pushing (runner st') = []) →
  wfb st'.
Proof.
  intros [] Hcl Ho E1 E2 E3 E4 E5 E6 E7 E8 Hw Hr.
  assert (∀ c, inflight (runner st') c = inflight (runner st) c) as Hi.
  { intros c. destruct Hr as [->|(H1 & H2)]; [done|]. by rewrite !pushing_inflight. }
  assert (∀ c, c ∈ order ↔ is_Some (consumers st !! c)) as Hin.
  { intros c. unfold isOrder in Ho. rewrite Ho, list_elem_of_fmap. split.
    - intros ([k v] & -> & H). apply elem_of_map_to_list in H. eauto.
    - intros [v H]. exists (c, v). split; [done|]. by apply elem_of_map_to_list. }
  split; rewrite ?E1, ?E2, ?E3, ?E4, ?E5, ?E6, ?E7, ?E8; cbn [toClose closingBy]; try done.
  - intros c Hc. split; [done|]. by apply wb_unsub0.
  - intros c Hc. apply Hin in Hc as [sid Hc]. destruct (wb_reg0 c sid Hc) as (q & ? & _). eauto.
  - intros c q Hq. rewrite Hin. destruct (wb_release0 c q Hq) as [|[|[|Hs]]]; auto.
    rewrite wb_open0 in Hs by done. by apply not_elem_of_nil in Hs.
  - destruct Hr as [->|(_ & ->)]; [done|]. split; [constructor|]. intros c Hc. by apply not_elem_of_nil in Hc.
  - intros [= ->]. auto.
  - intros c. by rewrite sessionIn_snoc, lookup_empty.
  - intros c H. rewrite addressed_quiet by done. auto.
  - intros c q Hq. rewrite Hi, addressed_quiet by done. auto.
Qed.

(** What is read from the stream goes to the consumers it is meant for. *)
Lemma wfb_address st x ev l s :
  wfb st → runner st ≠ RSweep → pushing (runner st) = [] → NoDup l → (∀ c, c ∈ l → is_Some (consumers st !! c)) →
  quiet x = false → (∀ c, meant (consumers st !! c) x = if decide (c ∈ l) then [ev] else []) →
  wfb (set_runner (RPush ev l s) (record x st)).
Proof using Type.
  intros [] Hns Hp Hnd Hl Hx Hm.
  assert (∀ c, addressed c (log st ++ [x]) = addressed c (log st) ++ (if decide (c ∈ l) then [ev] else [])) as Ha.
  { intros c. by rewrite addressed_snoc, wb_log0, Hm. }
  split; cbn; try done.
  - split; [done|]. intros c Hc. destruct (Hl c Hc) as [sid Hs]. destruct (wb_reg0 c sid Hs) as (q & ? & _). eauto.
  - intros Hby. by apply wb_run0 in Hby.
  - intros c. rewrite sessionIn_snoc, <-wb_log0. by destruct x.
  - intros c Hq. rewrite Ha, decide_False; [rewrite app_nil_r; auto|]. intros Hc. destruct (Hl c Hc) as [sid Hs].
    destruct (wb_reg0 c sid Hs) as (q & Hq' & _). by rewrite Hq in Hq'.
  - intros c q Hq. specialize (wb_del0 c q Hq). rewrite pushing_inflight in wb_del0 by done. rewrite Ha.
    destruct (decide (c ∈ l)); [by apply delivery_address|by rewrite app_nil_r].
Qed.

Lemma order_registered order st c : isOrder order st → c ∈ order → is_Some (consumers st !! c).
Proof.
  intros Ho. unfold isOrder in Ho. rewrite Ho, list_elem_of_fmap. intros ([k v] & -> & H).
  apply elem_of_map_to_list in H. eauto.
Qed.

Lemma registered_order order st c sid : isOrder order st → consumers st !! c = Some sid → c ∈ order.
Proof.
  intros Ho H. unfold isOrder in Ho. rewrite Ho, list_elem_of_fmap. exists (c, sid). split; [done|]. by apply elem_of_map_to_list.
Qed.

Lemma order_NoDup order st : isOrder order st → NoDup order.
Proof. intros Ho. unfold isOrder in Ho. rewrite Ho. apply NoDup_fst_map_to_list. Qed.

(** The consumers that remain to be closed get closed one by one. *)
Lemma wfb_closeOne st st' c e :
  wfb st → consumers st !! c = None →
  consumers st' = consumers st → nextID st' = nextID st → closed st' = closed st → runner st' = runner st →
  queues st' = alter (closeConsumer e) c (queues st) → log st' = log st → taken st' = taken st →
  closingBy (sweep st') = closingBy (sweep st) → (closed st = false → sweep st' = sweep st) →
  (∀ c', c' ∈ unsubs st' → c' ∈ unsubs st) → (∀ c', c' ∈ toClose (sweep st') → c' ∈ toClose (sweep st)) →
  (∀ c', c' ≠ c → c' ∈ unsubs st ∨ c' ∈ toClose (sweep st) → c' ∈ unsubs st' ∨ c' ∈ toClose (sweep st')) →
  wfb st'.
Proof.
  intros Hwf Hc E1 E2 E3 E4 E5 E6 E7 E8 Ho Hu Hs Hk.
  assert (wfb (set_runner (runner st) (set_queue c (closeConsumer e) st))) as [].
  { apply wfb_queue; [done| |done|apply Hwf|done]. intros q Hq. destruct (wb_del st Hwf c q Hq) as (Hsd & Hrest).
    split; [by apply delivery_close|]. right. split; [|done]. by apply close_spec. }
  unfold set_queue in *. cbn in *.
  split; rewrite ?E1, ?E2, ?E3, ?E4, ?E5, ?E6, ?E7, ?E8; try done; auto.
  - intros H. rewrite Ho by done. auto.
  - intros c' q Hq. destruct (decide (c' = c)) as [->|Hne].
    + left. rewrite lookup_alter_eq in Hq. apply fmap_Some in Hq as (q0 & Hq & ->). apply close_spec, (wb_del st Hwf c q0 Hq).
    + destruct (wb_release0 c' q Hq) as [|[|Hx]]; auto.
Qed.

Lemma closing_closed st : wfb st → sweep st ≠ NotClosing → closed st = true ∧ consumers st = ∅.
Proof.
  intros [] Hs. destruct (closed st) eqn:Ec; [by split; [|apply wb_closed0]|]. by rewrite wb_open0 in Hs.
Qed.

Lemma wfb_sweptRun st who :
  wfb st → sweep st = Sweeping who [] → closed st = true →
  wfb (set_sweep Swept (set_runner (match who with ByRun => RReturn | _ => runner st end) st)).
Proof.
  intros Hwf H Hc. assert (who = ByRun → runner st = RSweep) as Hr.
  { intros ->. apply (wb_run st Hwf). by rewrite H. }
  assert (∀ c, inflight (match who with ByRun => RReturn | _ => runner st end) c = inflight (runner st) c) as Hi.
  { intros c. destruct who; [by rewrite Hr|done|done]. }
  destruct Hwf. split; cbn; rewrite ?H in *; cbn in *; try done.
  - by rewrite Hc.
  - destruct who; [|done|done]. split; [constructor|]. intros c Hx. by apply not_elem_of_nil in Hx.
  - intros c q Hq. rewrite Hi. auto.
Qed.

(** ** Steps *)

Local Abbreviation step := (Bus.step unmarshalEvent unmarshalSessionID unmarshalPermission PermissionAuto cfg).
Local Abbreviation reachable := (Bus.reachable unmarshalEvent unmarshalSessionID unmarshalPermission PermissionAuto cfg).
Local Abbreviation onFrame := (Bus.onFrame unmarshalEvent unmarshalSessionID unmarshalPermission PermissionAuto).
Local Abbreviation route := (Bus.route unmarshalSessionID unmarshalPermission PermissionAuto).

(** A frame of the stream, case by case. *)
Lemma onFrame_cases accepted order hs f s st :
  let st' := onFrame accepted order hs f s st in
  st' = set_runner (RStream hs s) st ∨
  (hs = false ∧ ∃ e, st' = set_runner (RStreamed false e) st) ∨
  (hs = false ∧ firstConnection st = false ∧
   ∃ k, st' = set_runner (RPush gapEvent order s) (record LReconnected (set_counters k st))) ∨
  (hs = false ∧ firstConnection st = true ∧ closed st = false ∧
   st' = set_runner (RPush gapEvent [] s) (set_connected true (set_firstConnection false st))) ∨
  (hs = true ∧ ∃ ev k r l, st' = set_runner (RPush ev l s) (record (LRead ev) (set_counters k (set_replies r st))) ∧
   (NoDup order → NoDup l) ∧
   let sid := SessionID unmarshalSessionID ev in ∀ c, c ∈ l ↔ c ∈ order ∧ sid ≠ [] ∧ consumers st !! c = Some sid).
Proof using Type.
  cbv zeta. unfold Bus.onFrame. destruct (unmarshalEvent (data f)) as [ev|]; [|by left].
  destruct (bytes_eqb (Type_ ev) []); [by left|]. destruct hs; cbn [negb].
  - do 4 right. split; [done|]. unfold Bus.route. cbv zeta. destruct (_ && _) eqn:Eu.
    + eexists ev, (MkCounters _ _ _), (replies st), []. split; [by destruct st|]. split; [constructor|].
      apply andb_true_iff in Eu as [_ Eu%bytes_eqb_eq]. intros c. split; [by intros ?%not_elem_of_nil|naive_solver].
    + assert (∃ r, (if bytes_eqb (Type_ ev) EventTypePermissionAsked || bytes_eqb (Type_ ev) EventTypePermissionV2Asked
        then respondPermission unmarshalPermission PermissionAuto accepted ev (record (LRead ev) st)
        else record (LRead ev) st) = set_replies r (record (LRead ev) st)) as [r ->].
      { unfold respondPermission.
        destruct (_ || _); [|by exists (replies st); destruct st].
        destruct (PermissionAsked _ _) as [[? ?]|]; [|by exists (replies st); destruct st].
        destruct (_ || _); [by exists (replies st); destruct st|by eexists]. }
      exists ev, (counters st), r. destruct (bytes_eqb (SessionID unmarshalSessionID ev) []) eqn:Es.
      * apply bytes_eqb_eq in Es. exists []. split; [by destruct st|]. split; [constructor|].
        intros c. split; [by intros ?%not_elem_of_nil|naive_solver].
      * assert (SessionID unmarshalSessionID ev ≠ []) by (intros Hs%bytes_eqb_eq; congruence). eexists. split; [by destruct st|]. split; [apply NoDup_filter|].
        intros c. rewrite list_elem_of_filter. cbn. naive_solver.
  - unfold handshake. destruct (negb (bytes_eqb _ _)); [right; left; split; [done|by eexists]|].
    destruct (firstConnection st) eqn:Ef; cbn [negb].
    + destruct (closed st) eqn:Ec; [right; left; split; [done|by eexists]|]. right; right; right; left. done.
    + right; right; left. split_and!; [done|done|]. unfold broadcastGap. by eexists.
Qed.


(** The goroutine of the bus moves and no consumer is concerned. *)
Ltac moves Hwf H :=
  eapply wfb_frame; [exact Hwf|done|right; rewrite H; split_and!; [done|done|
    let Hby := fresh in intros Hby; apply (wb_run _ Hwf) in Hby; congruence]].
Ltac stays Hwf := eapply wfb_frame; [exact Hwf|done|by left].

Lemma wfb_afterStream hs e st : wfb st → runner st = RStreamed hs e → wfb (afterStream cfg hs e st).
Proof using Type.
  intros Hwf Hr. unfold afterStream. cbv zeta. destruct hs; repeat case_match; moves Hwf Hr.
Qed.

Lemma wfb_onFrame accepted order hs f s s0 st :
  wfb st → runner st = RStream hs s0 → isOrder order st → wfb (onFrame accepted order hs f s st).
Proof using Type.
  intros Hwf Hr Ho.
  assert (runner st ≠ RSweep) as Hns by (by rewrite Hr). assert (pushing (runner st) = []) as Hp by (by rewrite Hr).
  destruct (onFrame_cases accepted order hs f s st) as
    [->|[(_ & e & ->)|[(_ & _ & k & ->)|[(_ & _ & _ & ->)|(_ & ev & k & r & l & -> & Hnd & Hl)]]]].
  - moves Hwf Hr.
  - moves Hwf Hr.
  - apply wfb_address; [stays Hwf|done|done|by eapply order_NoDup| |done|].
    + intros c Hc. cbn. by eapply order_registered.
    + intros c. cbn. destruct (consumers st !! c) as [sid|] eqn:Ec; cbn [meant].
      * by rewrite decide_True by (by eapply registered_order).
      * rewrite decide_False; [done|]. intros Hc. apply (order_registered order st) in Hc as [sid Hc]; [congruence|done].
  - moves Hwf Hr.
  - apply wfb_address; [stays Hwf|done|done|by eapply Hnd, order_NoDup| |done|].
    + intros c (_ & _ & Hc)%Hl. cbn. eauto.
    + intros c. cbn. destruct (consumers st !! c) as [sid|] eqn:Ec; cbn [meant].
      * apply decide_ext. rewrite Hl, Ec. split; [|naive_solver]. intros [Hne <-].
        split_and!; [by eapply registered_order|done|done].
      * rewrite decide_False; [done|]. intros (_ & _ & Hc)%Hl. congruence.
Qed.

Lemma wfb_push st ev c l s :
  wfb st → runner st = RPush ev (c :: l) s → wfb (set_runner (RPush ev l s) (set_queue c (push ev) st)).
Proof using Type.
  intros Hwf Hr. destruct (wb_push st Hwf) as [Hnd Hin]. rewrite Hr in Hnd, Hin. cbn [pushing] in *.
  apply NoDup_cons in Hnd as [Hc Hnd]. apply wfb_queue; [done| | | |by rewrite Hr].
  - intros q Hq. pose proof (wb_del st Hwf c q Hq) as Hd. rewrite Hr in Hd. cbn [inflight] in *.
    rewrite decide_True in Hd by constructor. rewrite decide_False by done.
    split; [by apply delivery_push|]. left. apply (bus_push_spec ev q [] []), Hd.
  - intros c' Hne. rewrite Hr. cbn [inflight]. apply decide_ext. rewrite elem_of_cons. naive_solver.
  - split; [done|]. intros c' Hc'. apply Hin. by constructor.
Qed.

Lemma wfb_next st c q q' ev :
  wfb st → queues st !! c = Some q → next q = (q', Got ev) →
  wfb (set_taken (<[c := taken st c ++ [ev]]> (taken st)) (set_queue c (λ _, q') st)).
Proof using Type.
  intros Hwf Hq Hn. pose proof (wb_del st Hwf c q Hq) as Hd. destruct (next_spec q q' ev) as (_ & Hc & _); [apply Hd|done|].
  unfold set_queue. destruct Hwf. split; cbn; try done.
  - intros c' H. apply wb_dom0. by rewrite lookup_alter_is_Some in H.
  - intros c' sid H. destruct (wb_reg0 c' sid H) as (q0 & Hq0 & Hc0). destruct (decide (c = c')) as [<-|].
    + rewrite lookup_alter_eq, Hq0. cbn. exists q'. split; [done|]. rewrite Hc. congruence.
    + rewrite lookup_alter_ne by done. eauto.
  - intros c' H. destruct (wb_unsub0 c' H). by rewrite lookup_alter_is_Some.
  - intros c' H. rewrite lookup_alter_is_Some. auto.
  - intros c' q0 H. destruct (decide (c = c')) as [<-|]; [|rewrite lookup_alter_ne in H by done; auto].
    rewrite lookup_alter_eq, Hq in H. injection H as <-. rewrite Hc. auto.
  - destruct wb_push0. split; [done|]. intros. rewrite lookup_alter_is_Some. auto.
  - intros c' H. apply lookup_alter_None in H. rewrite fn_lookup_insert_ne; [auto|]. congruence.
  - intros c' q0 H. destruct (decide (c = c')) as [<-|].
    + rewrite lookup_alter_eq, Hq in H. injection H as <-. rewrite fn_lookup_insert. by apply (delivery_next _ _ q).
    + rewrite lookup_alter_ne in H by done. rewrite fn_lookup_insert_ne by done. auto.
Qed.

Lemma wfb_step st st' : wfb st → step st st' → wfb st'.
Proof using Type.
  intros Hwf Hs. destruct Hs as [sid st c st' H|c st H|c l1 l2 st H|c q q' ev st H1 H2|st|order st H|who b l st H|who c l st H
    |who st H|i st H|i st H1 H2|i st H1 H2|i st H1 H2|i st H1 H2|i st H|i st H|i cause order st b st' H1 H2 H3|i st H1 H2
    |st H|st H|s st H|b s st ok st' H1 H2|hs s st e s' H1 H2|hs s st H1 H2|hs s st f s' order accepted H1 H2 H3
    |ev c l s st H|ev s st H|hs e st H|jit slept d st H1 H2|jit slept e st H1 H2 H3|e order st H1 H2|st H].
  - by eapply wfb_subscribe.
  - by apply wfb_unsubscribe.
  - destruct (wb_unsub st Hwf c) as [Hn _]; [rewrite H; set_solver|].
    eapply (wfb_closeOne st _ c); try done; cbn; intros c'; rewrite H; set_solver.
  - by eapply wfb_next.
  - stays Hwf.
  - unfold closeInternal. destruct (closed st) eqn:Ec; [done|]. cbn [andb snd]. eapply wfb_close; try done. by left.
  - destruct (closing_closed st Hwf ltac:(by rewrite H)) as [Hc _].
    destruct Hwf. split; cbn; rewrite ?H in *; cbn in *; try done. by rewrite Hc.
  - destruct (closing_closed st Hwf ltac:(by rewrite H)) as [Hc He].
    eapply (wfb_closeOne st _ c); try done; cbn; rewrite ?H, ?Hc, ?He; try done.
    + intros c'. by constructor.
    + intros c' Hne. cbn. rewrite elem_of_cons. naive_solver.
  - destruct (closing_closed st Hwf ltac:(by rewrite H)) as [Hc He].
    assert (wfb (set_sweep Swept (set_runner (match who with ByRun => RReturn | _ => runner st end) st))) as Hw.
    { apply (wfb_sweptRun st who); [done|done|done]. }
    destruct who; cbn [swept]; stays Hw.
  - destruct (runner st) eqn:E; try by (eapply wfb_frame; [exact Hwf|done|left; by cbn]). moves Hwf E.
  - stays Hwf.
  - stays Hwf.
  - stays Hwf.
  - stays Hwf.
  - stays Hwf.
  - stays Hwf.
  - unfold closeInternal in H3. destruct (closed st) eqn:Ec; [injection H3 as <- <-; stays Hwf|].
    destruct (connected st); cbn [andb] in H3; injection H3 as <- <-; [stays Hwf|].
    eapply wfb_close; try done. by left.
  - stays Hwf.
  - destruct (closed st); moves Hwf H.
  - moves Hwf H.
  - moves Hwf H.
  - unfold setBody in H2. destruct (closed st); injection H2 as <- <-; moves Hwf H1.
  - moves Hwf H1.
  - moves Hwf H1.
  - by eapply wfb_onFrame.
  - by apply wfb_push.
  - moves Hwf H.
  - by apply wfb_afterStream.
  - moves Hwf H1.
  - moves Hwf H1.
  - unfold closeInternal. destruct (closed st) eqn:Ec; [moves Hwf H1|]. cbn [andb snd].
    eapply wfb_close; try done. right. by rewrite H1.
  - moves Hwf H.
Qed.

Lemma reachable_wfb st : reachable st → wfb st.
Proof using Type. induction 1 as [|st st' _ IH Hs]; [apply wfb_init|by eapply wfb_step]. Qed.

(** ** How consumers end *)

Lemma endings_snoc c l x : endings c (l ++ [x]) = endings c l ++ option_list (endingOf c x).
Proof using Type. unfold endings. rewrite omap_app. cbn. by destruct (endingOf c x). Qed.

Lemma endings_close c l e : ByClose e ∈ endings c l ↔ LClosed e ∈ l.
Proof using Type.
  unfold endings. rewrite list_elem_of_omap. split.
  - intros (x & Hx & He). destruct x as [| c' | | |e']; cbn in He; try done; [by case_decide|]. by injection He as <-.
  - intros H. by exists (LClosed e).
Qed.

Lemma closed_snoc e l x : x ≠ LClosed e → LClosed e ∈ l ++ [x] ↔ LClosed e ∈ l.
Proof using Type. intros Hx. rewrite elem_of_app, list_elem_of_singleton. split; [intros [?|?]; congruence|by left]. Qed.

(** A closed queue of [c] has the error of an ending of [c]: of the unsubscription when
    that came first. *)
Definition ended (c : nat) (l : list logEntry) (f : option (option busError)) : Prop :=
  ∀ o, f = Some o → ∃ r, o = Some (terminalError r) ∧ r ∈ endings c l ∧
    (head (endings c l) = Some ByUnsubscribe → r = ByUnsubscribe).

Record wfe (st : state) : Prop := {
  we_reg c : is_Some (consumers st !! c) → endings c (log st) = [];
  we_new c : queues st !! c = None → closed st = false → endings c (log st) = [];
  we_unsub c : c ∈ unsubs st → ByUnsubscribe ∈ endings c (log st);
  we_sweep c : c ∈ toClose (sweep st) → ∃ e, err st = Some e ∧ head (endings c (log st)) = Some (ByClose e);
  we_cause e : LClosed e ∈ log st → err st = Some e;
  we_closed : closed st = true → ∃ e, LClosed e ∈ log st;
  we_open : closed st = false → ∀ e, LClosed e ∉ log st;
  we_fate c q : queues st !! c = Some q → ended c (log st) (fate q);
}.

Definition silent (x : logEntry) : bool := match x with LUnsubscribed _ | LClosed _ => false | _ => true end.

Lemma ended_snoc c l x f : ended c l f → ended c (l ++ [x]) f.
Proof using Type.
  intros He o Ho. destruct (He o Ho) as (r & Hr & Hin & Hh). exists r. rewrite endings_snoc. split_and!; [done|set_solver|].
  destruct (endings c l); [by apply not_elem_of_nil in Hin|done].
Qed.

(** Rules that end no consumer. *)
Lemma wfe_frame st st' :
  wfe st → consumers st' = consumers st → closed st' = closed st → unsubs st' = unsubs st → err st' = err st →
  (∀ c, c ∈ toClose (sweep st') → c ∈ toClose (sweep st)) →
  (log st' = log st ∨ ∃ x, silent x = true ∧ log st' = log st ++ [x]) →
  (∀ c, fate <$> queues st' !! c = fate <$> queues st !! c) → wfe st'.
Proof using Type.
  intros [] E1 E2 E3 E4 Hs Hl Hq.
  assert (∀ c, endings c (log st') = endings c (log st)) as He.
  { intros c. destruct Hl as [->|(x & Hx & ->)]; [done|]. rewrite endings_snoc. by destruct x; rewrite ?app_nil_r. }
  assert (∀ e, LClosed e ∈ log st' ↔ LClosed e ∈ log st) as Hc.
  { intros e. by rewrite <-(endings_close 0), He, endings_close. }
  split; rewrite ?E1, ?E2, ?E3, ?E4; try (intros c; rewrite He; by auto).
  - intros c Hn. rewrite He. apply we_new0. specialize (Hq c). rewrite Hn in Hq. by destruct (queues st !! c).
  - intros e. rewrite Hc. auto.
  - intros H. destruct (we_closed0 H) as [e ?]. exists e. by rewrite Hc.
  - intros H e. rewrite Hc. auto.
  - intros c q H. specialize (Hq c). rewrite H in Hq. destruct (queues st !! c) as [q0|] eqn:E; [|done].
    injection Hq as ->. unfold ended. rewrite He. by apply we_fate0.
Qed.

Lemma wfe_unsubscribe c st : wfb st → wfe st → is_Some (queues st !! c) → wfe (unsubscribe c st).
Proof using Type.
  intros Hwf [] Hs.
  assert (∀ c', c' ≠ c → endings c' (log st ++ [LUnsubscribed c]) = endings c' (log st)) as He.
  { intros c' Hne. rewrite endings_snoc. cbn. by rewrite decide_False, app_nil_r by congruence. }
  assert (∀ e, LClosed e ∈ log st ++ [LUnsubscribed c] ↔ LClosed e ∈ log st) as Hc by (intros; by apply closed_snoc).
  split; cbn.
  - intros c' [sid H]. apply lookup_delete_Some in H as [Hne H]. rewrite He by done. eauto.
  - intros c' Hn Hcl. rewrite He; [auto|]. intros ->. rewrite Hn in Hs. by destruct Hs.
  - intros c' [->|H]%elem_of_cons; rewrite endings_snoc, elem_of_app; [right; cbn; rewrite decide_True by done; constructor|auto].
  - intros c' H. destruct (we_sweep0 c' H) as (e & ? & Hh). exists e. split; [done|]. rewrite endings_snoc.
    by destruct (endings c' (log st)).
  - intros e. rewrite Hc. auto.
  - intros H. destruct (we_closed0 H) as [e ?]. exists e. by rewrite Hc.
  - intros H e. rewrite Hc. auto.
  - intros c' q H. apply ended_snoc. auto.
Qed.

(** A queue is closed for a reason the history gives. *)
Lemma wfe_closeOne st st' c r :
  wfe st → r ∈ endings c (log st) → (head (endings c (log st)) = Some ByUnsubscribe → r = ByUnsubscribe) →
  consumers st' = consumers st → closed st' = closed st → err st' = err st → log st' = log st →
  queues st' = alter (closeConsumer (terminalError r)) c (queues st) →
  (∀ c', c' ∈ unsubs st' → c' ∈ unsubs st) → (∀ c', c' ∈ toClose (sweep st') → c' ∈ toClose (sweep st)) →
  wfe st'.
Proof using Type.
  intros [] Hr Hh E1 E2 E3 E4 E5 Hu Hs. split; rewrite ?E1, ?E2, ?E3, ?E4, ?E5; auto.
  - intros c' H. apply lookup_alter_None in H. auto.
  - intros c' q H. destruct (decide (c = c')) as [<-|]; [|rewrite lookup_alter_ne in H by done; auto].
    rewrite lookup_alter_eq in H. apply fmap_Some in H as (q0 & H & ->). rewrite fate_close. intros o [= <-].
    destruct (fate q0) eqn:Ef; cbn; [by apply (we_fate0 c q0 H)|]. by exists r.
Qed.

Lemma wfe_close st st' e who b order :
  wfb st → wfe st → closed st = false → isOrder order st →
  consumers st' = ∅ → closed st' = true → sweep st' = Cancelling who b order → unsubs st' = unsubs st →
  err st' = Some e → queues st' = queues st → log st' = log st ++ [LClosed e] → wfe st'.
Proof using Type.
  intros Hwf [] Hc Ho E1 E2 E3 E4 E5 E6 E7.
  split; rewrite ?E1, ?E2, ?E3, ?E4, ?E5, ?E6, ?E7; cbn [toClose]; try done.
  - intros c [sid H]. by rewrite lookup_empty in H.
  - intros c H. rewrite endings_snoc, elem_of_app. auto.
  - intros c H. exists e. split; [done|]. rewrite endings_snoc.
    by rewrite (we_reg0 c) by (by eapply order_registered).
  - intros e'. rewrite elem_of_app, list_elem_of_singleton. intros [H|[= ->]]; [by apply we_open0 in H|done].
  - intros _. exists e. set_solver.
  - intros c q H. apply ended_snoc. auto.
Qed.

Lemma wfe_subscribe sid st c st' : wfb st → wfe st → subscribe sid st = (Ok c, st') → wfe st'.
Proof using Type.
  intros Hwf [] H. unfold subscribe in H. destruct (closed st) eqn:Ec; [done|]. injection H as <- <-. set (c := nextID st + 1) in *.
  pose proof (fresh_queue st Hwf : queues st !! c = None) as Hc.
  assert (∀ c', endings c' (log st ++ [LSubscribed c sid]) = endings c' (log st)) as He.
  { intros c'. rewrite endings_snoc. apply app_nil_r. }
  assert (∀ e, LClosed e ∈ log st ++ [LSubscribed c sid] ↔ LClosed e ∈ log st) as Hl by (intros; by apply closed_snoc).
  split; cbn; try (intros c'; rewrite He; by auto).
  - intros c' [sid' H]. rewrite He. destruct (decide (c = c')) as [<-|]; [by auto|].
    rewrite lookup_insert_ne in H by done. eauto.
  - intros c' H _. rewrite He. apply lookup_insert_None in H as [H _]. auto.
  - intros e. rewrite Hl. auto.
  - by rewrite Ec.
  - intros _ e. rewrite Hl. auto.
  - intros c' q H. apply ended_snoc. destruct (decide (c = c')) as [<-|];
      [rewrite lookup_insert_eq in H; by injection H as <-|rewrite lookup_insert_ne in H by done; auto].
Qed.

Ltac same He := apply (wfe_frame _ _ He); try done; try (by left).

Lemma wfe_queue c (f : equeue → equeue) st :
  (∀ q, queues st !! c = Some q → fate (f q) = fate q) → ∀ c', fate <$> alter f c (queues st) !! c' = fate <$> queues st !! c'.
Proof using Type.
  intros Hf c'. destruct (decide (c = c')) as [<-|]; [|by rewrite lookup_alter_ne].
  rewrite lookup_alter_eq. destruct (queues st !! c) as [q|] eqn:E; [|done]. cbn. by rewrite Hf.
Qed.

Lemma wfe_onFrame accepted order hs f s st : wfe st → wfe (onFrame accepted order hs f s st).
Proof using Type.
  intros He. destruct (onFrame_cases accepted order hs f s st) as
    [->|[(_ & e & ->)|[(_ & _ & k & ->)|[(_ & _ & _ & ->)|(_ & ev & k & r & l & -> & _ & _)]]]]; same He;
    right; eexists; (split; [|reflexivity]); done.
Qed.

Lemma wfe_step st st' : wfb st → wfe st → step st st' → wfe st'.
Proof using Type.
  intros Hwf He Hs. destruct Hs as [sid st c st' H|c st H|c l1 l2 st H|c q q' ev st H1 H2|st|order st H|who b l st H|who c l st H
    |who st H|i st H|i st H1 H2|i st H1 H2|i st H1 H2|i st H1 H2|i st H|i st H|i cause order st b st' H1 H2 H3|i st H1 H2
    |st H|st H|s st H|b s st ok st' H1 H2|hs s st e s' H1 H2|hs s st H1 H2|hs s st f s' order accepted H1 H2 H3
    |ev c l s st H|ev s st H|hs e st H|jit slept d st H1 H2|jit slept e st H1 H2 H3|e order st H1 H2|st H].
  all: try (by same He).
  - by eapply wfe_subscribe.
  - by apply wfe_unsubscribe.
  - eapply (wfe_closeOne st _ c ByUnsubscribe); try done; [apply (we_unsub st He); rewrite H; set_solver|cbn; rewrite H; set_solver].
  - same He. apply wfe_queue. intros q0 Hq. rewrite H1 in Hq. injection Hq as <-.
    apply (next_fate q q' ev); [apply (wb_del st Hwf c q H1)|done].
  - unfold closeInternal. destruct (closed st) eqn:Ec; [done|]. cbn [andb snd]. by eapply wfe_close.
  - same He. cbn. by rewrite H.
  - destruct (we_sweep st He c) as (e & Herr & Hh); [rewrite H; constructor|].
    eapply (wfe_closeOne st _ c (ByClose e)); try done; cbn.
    + by apply list_elem_of_lookup_2 with 0; rewrite <-head_lookup.
    + by rewrite Hh.
    + unfold closedErr. by rewrite Herr.
    + rewrite H. intros c'. by constructor.
  - destruct who; cbn [swept]; same He; cbn; by intros c ?%not_elem_of_nil.
  - destruct (runner st); same He.
  - unfold closeInternal in H3. destruct (closed st) eqn:Ec; [injection H3 as <- <-; same He|].
    destruct (connected st); cbn [andb] in H3; injection H3 as <- <-; [same He|]. by eapply wfe_close.
  - unfold setBody in H2. destruct (closed st); injection H2 as <- <-; same He.
  - by apply wfe_onFrame.
  - same He. apply wfe_queue. intros. apply fate_push.
  - unfold afterStream. cbv zeta. destruct hs; repeat case_match; same He.
  - unfold closeInternal. destruct (closed st) eqn:Ec; [same He|]. cbn [andb snd]. by eapply wfe_close.
Qed.

Lemma reachable_wfe st : reachable st → wfe st.
Proof using Type.
  induction 1 as [|st st' Hr IH Hs]; [|by eapply wfe_step; [apply reachable_wfb| |]].
  split; cbn; try done; try (intros; set_solver).
Qed.

(** ** Dialing, the handshake and reconnects *)

#[local] Arguments retry : simpl never.

Local Abbreviation M := (LlmUtil.MaxAttempts (retry cfg)).

Definition isDialCause (e : busError) : bool := match e with DialTimedOut | DialCanceled => true | _ => false end.

(** The attempts of an outage, by the point the goroutine has reached. *)
Definition budget (st : state) : Prop :=
  match runner st with
  | RIdle => firstConnection st = true ∧ tries st = 0%Z
  | RCheck | RDial | RBackoff =>
      if firstConnection st then tries st = 0%Z else (1 ≤ attempt st < M ∧ 0 ≤ tries st ≤ attempt st - 1)%Z
  | RSetBody _ _ | RStream false _ | RStreamed false _ =>
      if firstConnection st then (0 ≤ tries st ≤ 1)%Z else (1 ≤ attempt st < M ∧ 0 ≤ tries st ≤ attempt st)%Z
  | RStream true _ | RPush _ _ _ | RStreamed true _ => firstConnection st = false ∧ (0 ≤ tries st ≤ Z.max 1 (M - 1))%Z
  | RClose e => isDialCause e = false ∧ (0 ≤ tries st ≤ Z.max 1 (M - 1))%Z ∧
      match e with ReconnectExhausted n _ => n = Z.max 1 M | _ => True end
  | RSweep | RReturn | RDone => (0 ≤ tries st ≤ Z.max 1 (M - 1))%Z
  end.

Record ctl (st : state) : Prop := {
  ct_first : connected st = negb (firstConnection st);
  ct_open : closed st = false → err st = None;
  ct_dialErr e : err st = Some e → isDialCause e = true → connected st = false;
  ct_exhausted n e : err st = Some (ReconnectExhausted n e) → n = Z.max 1 M;
  ct_nil i : dials st i = DReturned None → connected st = true;
  ct_fail i cause : dials st i = DFail cause → isDialCause cause = true;
  ct_error i e : dials st i = DReturned (Some e) → doneCh st = true;
  ct_done : doneCh st = true ∨ runner st = RReturn → closed st = true ∨ ctxDone st = true;
  ct_closing : closed st = false → closingBy (sweep st) = None;
  ct_budget : budget st;
}.

(** What the invariant reads of the state, apart from the goroutine. *)
Definition ctlCore (st : state) :=
  (connected st, firstConnection st, closed st, err st, dials st, doneCh st, sweep st).

(** A rule that does not touch the flags and the dials. *)
Lemma ctl_frame st st' :
  ctl st → ctlCore st' = ctlCore st → (ctxDone st = true → ctxDone st' = true) → budget st' →
  (runner st' = RReturn → closed st = true ∨ ctxDone st' = true) → ctl st'.
Proof using Type.
  intros [] Hc Hx Hb Hr. unfold ctlCore in Hc. injection Hc as E1 E2 E3 E4 E5 E6 E7.
  split; rewrite ?E1, ?E2, ?E3, ?E4, ?E5, ?E6, ?E7; try done.
  intros [H|H]; [|by auto]. destruct ct_done0; auto.
Qed.

(** A dial moves: what it may become depends on what is known. *)
Lemma ctl_dial st i p :
  ctl st → (p = DReturned None → connected st = true) → (∀ c, p = DFail c → isDialCause c = true) →
  (∀ e, p = DReturned (Some e) → doneCh st = true) → ctl (set_dial i p st).
Proof using Type.
  intros [] H1 H2 H3.
  assert (∀ j q, (<[i := p]> (dials st)) j = q → p = q ∨ dials st j = q) as Hd.
  { intros j q <-. destruct (decide (i = j)) as [<-|]; [left; by rewrite fn_lookup_insert|right; by rewrite fn_lookup_insert_ne]. }
  unfold set_dial. split; cbn; try done.
  - intros j [H|H]%Hd; eauto.
  - intros j c [H|H]%Hd; eauto.
  - intros j e [H|H]%Hd; eauto.
Qed.

(** [closeInternal] by someone who may close. *)
Lemma ctl_close st e only who order r :
  ctl st → closed st = false → only && connected st = false →
  (isDialCause e = true → only = true) → (∀ n x, e = ReconnectExhausted n x → n = Z.max 1 M) →
  r ≠ RReturn ∨ r = runner st → budget (set_runner r st) →
  ctl (set_runner r (closeInternal e only who order st).2).
Proof using Type.
  intros [] Hc Ho Hd Hx Hr Hb. unfold closeInternal. rewrite Hc, Ho. split; cbn; try done.
  - intros e' [= <-] He. rewrite (Hd He) in Ho. exact Ho.
  - intros n x [= ->]. eauto.
  - intros _. by left.
Qed.

Lemma ctl_afterStream hs e st : ctl st → runner st = RStreamed hs e → ctl (afterStream cfg hs e st).
Proof using Type.
  intros Hc Hr. pose proof (ct_budget st Hc) as Hb. unfold budget in Hb. rewrite Hr in Hb. unfold afterStream. cbv zeta.
  assert (∀ b : bool, closed st || ctxDone st = b → if b then closed st = true ∨ ctxDone st = true else closed st = false) as Hx.
  { intros b <-. destruct (closed st); cbn; [by left|]. destruct (ctxDone st); auto. }
  destruct hs.
  - destruct Hb as [Hf Hb]. cbn. rewrite Hf. destruct (closed st || ctxDone st) eqn:Ex; specialize (Hx _ eq_refl).
    + apply (ctl_frame st); [done|done|done|unfold budget; cbn; lia|]. by intros _.
    + destruct (Z.leb_spec M (0 + 1)); apply (ctl_frame st); try done; unfold budget; cbn; rewrite ?Hf; split_and?; try done; lia.
  - cbn. destruct (closed st || ctxDone st) eqn:Ex; specialize (Hx _ eq_refl).
    + apply (ctl_frame st); [done|done|done| |by intros _]. unfold budget; cbn. destruct (firstConnection st); lia.
    + destruct (firstConnection st) eqn:Ef.
      * apply (ctl_frame st); try done. unfold budget; cbn. split_and?; try done; lia.
      * destruct (Z.leb_spec M (attempt st + 1)); apply (ctl_frame st); try done; unfold budget; cbn; rewrite ?Ef; split_and?; try done; lia.
Qed.

(** The goroutine moves: the new point is within the budget. *)
Ltac runs Hc := apply (ctl_frame _ _ Hc); [reflexivity|done| |done].
Ltac budgets Hc H :=
  let Hb := fresh "Hb" in
  pose proof (ct_budget _ Hc) as Hb; unfold budget in Hb; rewrite H in Hb; unfold budget; cbn in *.

Ltac idles Hc := apply (ctl_frame _ _ Hc); [reflexivity|done|exact (ct_budget _ Hc)|let Hx := fresh in intros Hx; exact (ct_done _ Hc (or_intror Hx))].

(** Only the fields the invariant reads matter. *)
Lemma ctl_ext st st' :
  ctl st → (ctlCore st', ctxDone st', runner st', attempt st', tries st') = (ctlCore st, ctxDone st, runner st, attempt st, tries st) →
  ctl st'.
Proof using Type.
  intros Hc E. injection E as E1 E2 E3 E4 E5 E6 E7 E8 E9 E10 E11. destruct Hc. unfold budget in *.
  split; unfold budget; rewrite ?E1, ?E2, ?E3, ?E4, ?E5, ?E6, ?E7, ?E8, ?E9, ?E10, ?E11; done.
Qed.

Lemma ctl_onFrame accepted order hs f s s0 st :
  ctl st → runner st = RStream hs s0 → ctl (onFrame accepted order hs f s st).
Proof using Type.
  intros Hc Hr. destruct (onFrame_cases accepted order hs f s st) as
    [->|[(-> & e & ->)|[(-> & Hf & k & ->)|[(-> & Hf & Hcl & ->)|(-> & ev & k & r & l & -> & _ & _)]]]].
  - runs Hc. budgets Hc Hr. by destruct hs.
  - runs Hc. by budgets Hc Hr.
  - runs Hc. budgets Hc Hr. rewrite Hf in *. split; [done|lia].
  - budgets Hc Hr. rewrite Hf in Hb. destruct Hc. split; cbn; try done.
    + intros e He. by rewrite ct_open0 in He.
    + intros [H|H]; [by auto|done].
    + split; [done|lia].
  - runs Hc. by budgets Hc Hr.
Qed.

Lemma ctl_step st st' : wfb st → ctl st → step st st' → ctl st'.
Proof using Type.
  intros Hwf Hc Hs. destruct Hs as [sid st c st' H|c st H|c l1 l2 st H|c q q' ev st H1 H2|st|order st H|who b l st H|who c l st H
    |who st H|i st H|i st H1 H2|i st H1 H2|i st H1 H2|i st H1 H2|i st H|i st H|i cause order st b st' H1 H2 H3|i st H1 H2
    |st H|st H|s st H|b s st ok st' H1 H2|hs s st e s' H1 H2|hs s st H1 H2|hs s st f s' order accepted H1 H2 H3
    |ev c l s st H|ev s st H|hs e st H|jit slept d st H1 H2|jit slept e st H1 H2 H3|e order st H1 H2|st H].
  - unfold subscribe in H. destruct (closed st); [done|]. injection H as _ <-.
    idles Hc.
  - idles Hc.
  - idles Hc.
  - idles Hc.
  - apply (ctl_frame _ _ Hc); [reflexivity|done|exact (ct_budget _ Hc)|]. by right.
  - unfold closeInternal. destruct (closed st) eqn:Ec; [done|]. cbn [andb snd].
    pose proof (ctl_close st ClientClosed false ByClient order (runner st) Hc Ec) as Hx.
    unfold closeInternal in Hx. rewrite Ec in Hx. cbn [andb snd] in Hx.
    apply (ctl_ext _ _ (Hx eq_refl ltac:(done) ltac:(done) ltac:(by right) (ct_budget st Hc))). done.
  - destruct (closing_closed st Hwf ltac:(by rewrite H)) as [Hcl _].
    destruct Hc. split; cbn; try done; [intros _; by left|by rewrite Hcl].
  - destruct (closing_closed st Hwf ltac:(by rewrite H)) as [Hcl _]. destruct Hc. split; cbn; try done. by rewrite Hcl.
  - destruct (closing_closed st Hwf ltac:(by rewrite H)) as [Hcl _].
    assert (ctl (set_sweep Swept st)) as Hc' by (destruct Hc; split; cbn; try done; by rewrite Hcl).
    destruct who; cbn [swept]; [|by apply ctl_dial|done].
    pose proof (wb_run st Hwf ltac:(by rewrite H)) as Hr. apply (ctl_frame _ _ Hc'); [done|done| |].
    + by budgets Hc Hr.
    + intros _. by left.
  - apply ctl_dial; try done. destruct (runner st) eqn:E; try exact Hc. runs Hc. budgets Hc E. by destruct Hb as [-> ->].
  - by apply ctl_dial.
  - by apply ctl_dial.
  - by apply ctl_dial.
  - by apply ctl_dial.
  - apply ctl_dial; [done|done| |done]. by intros c [= <-].
  - apply ctl_dial; [done|done| |done]. by intros c [= <-].
  - pose proof (ct_fail st Hc i cause H1) as Hd. unfold closeInternal in H3.
    destruct (closed st) eqn:Ec; [injection H3 as <- <-; by apply ctl_dial|].
    destruct (connected st) eqn:Ecn; cbn [andb] in H3; injection H3 as <- <-; [by apply ctl_dial|].
    apply ctl_dial; try done.
    pose proof (ctl_close st cause true (ByDial i) order (runner st) Hc Ec) as Hx.
    unfold closeInternal in Hx. rewrite Ec, Ecn in Hx. cbn [andb snd] in Hx.
    apply (ctl_ext _ _ (Hx eq_refl ltac:(done) ltac:(by intros ?? ->) ltac:(by right) (ct_budget st Hc))). done.
  - by apply ctl_dial.
  - destruct (closed st) eqn:Ec.
    + apply (ctl_frame st); [done|done|done| |by left]. budgets Hc H. destruct (firstConnection st); lia.
    + runs Hc. by budgets Hc H.
  - runs Hc. budgets Hc H. destruct (firstConnection st); lia.
  - runs Hc. budgets Hc H. destruct (firstConnection st); lia.
  - unfold setBody in H2. destruct (closed st) eqn:Ec; injection H2 as <- <-; runs Hc; by budgets Hc H1.
  - runs Hc. budgets Hc H1. by destruct hs.
  - runs Hc. budgets Hc H1. by destruct hs.
  - by eapply ctl_onFrame.
  - runs Hc. by budgets Hc H.
  - runs Hc. by budgets Hc H.
  - by apply ctl_afterStream.
  - runs Hc. by budgets Hc H1.
  - runs Hc. budgets Hc H1. split_and!; [done|..|done]; destruct (firstConnection st); lia.
  - budgets Hc H1. destruct (closed st) eqn:Ec.
    + unfold closeInternal. rewrite Ec. apply (ctl_frame _ _ Hc); [reflexivity|done|unfold budget; cbn; apply Hb|]. intros _. by left.
    + apply ctl_close; try done.
      * by destruct Hb as [-> _].
      * intros n x ->. by destruct Hb as (_ & _ & Hb).
      * by left.
      * unfold budget; cbn. apply Hb.
  - destruct (ct_done st Hc (or_intror H)) as [Hd|Hd]; budgets Hc H; destruct Hc; (split; cbn; try done; intros _; first [by left|by right]).
Qed.

Lemma reachable_ctl st : reachable st → ctl st.
Proof using Type.
  induction 1 as [|st st' Hr IH Hs].
  - split; try done. by intros [|].
  - eapply ctl_step; [by apply reachable_wfb|done|done].
Qed.

(** ** Theorems *)

(** C31: in every interleaving, what a consumer has received and has queued is what the
    history of the bus holds for it: the events read from the stream whose session is the
    one it registered for, while it was registered, and a gap event for each reconnect,
    in order, with every run of lost events replaced by a gap event.  While the consumer is
    registered nothing is missing at the end but what is being pushed, after that it has
    a prefix.  A queue never holds more than its capacity. *)
Theorem bus_delivery st c q :
  reachable st → queues st !! c = Some q →
  length (queued q) ≤ eventQueueCapacity ∧
  (is_Some (consumers st !! c) →
   Gapped (addressed c (log st)) (taken st c ++ queued q ++ inflight (runner st) c)) ∧
  ∃ n, Gapped (take n (addressed c (log st))) (taken st c ++ queued q).
Proof using Type.
  intros Hr%reachable_wfb Hq. destruct (wb_del st Hr c q Hq) as ([_ Hl] & Ho & Hn).
  split_and!; [done| |done]. intros [sid Hs]. destruct (wb_reg st Hr c sid Hs) as (q' & Hq' & Hc').
  apply Ho. congruence.
Qed.

(** C32: a dial that succeeds leaves an established bus, an established bus is never torn
    down by a dial that times out or is canceled, a dial that fails leaves a bus whose
    goroutine has ended; the first connection is tried once, and in an outage the bus
    dials at most [MaxAttempts - 1] times and reports exactly the attempts configured. *)
Theorem bus_dial_safe st :
  reachable st →
  (∀ i, dials st i = DReturned None → connected st = true) ∧
  (connected st = true → err st ≠ Some DialTimedOut ∧ err st ≠ Some DialCanceled) ∧
  (∀ i e, dials st i = DReturned (Some e) → doneCh st = true ∧ (closed st = true ∨ ctxDone st = true)) ∧
  (tries st ≤ Z.max 1 (M - 1))%Z ∧
  (∀ n e, err st = Some (ReconnectExhausted n e) → n = Z.max 1 M).
Proof using Type.
  intros Hc%reachable_ctl. split_and!.
  - apply Hc.
  - intros Hcn. split; intros He; pose proof (ct_dialErr st Hc _ He eq_refl); congruence.
  - intros i e Hd%(ct_error st Hc). split; [done|]. apply (ct_done st Hc). by left.
  - pose proof (ct_budget st Hc) as Hb. unfold budget in Hb. repeat case_match; lia.
  - apply Hc.
Qed.

(** C33: once the bus is closed with an error, the closing thread has returned and no
    [unsubscribe] is under way, a consumer that reads on gets exactly the events its queue
    still holds and then an error, without waiting: the error the bus was closed with if
    the consumer never unsubscribed, the error of its unsubscription if that came before
    the close, one of the two if they raced.  No new consumer is accepted: it gets the
    error the bus was closed with. *)
Theorem bus_close_releases st :
  reachable st → closed st = true → sweep st = Swept → unsubs st = [] →
  ∃ e, LClosed e ∈ log st ∧ (∀ sid, subscribe sid st = (Err e, st)) ∧
  ∀ c q, queues st !! c = Some q → ∃ e',
    drain (S (length (queued q))) q = (queued q, Ended e') ∧
    (LUnsubscribed c ∉ log st → e' = e) ∧
    (head (endings c (log st)) = Some ByUnsubscribe → e' = ConsumerUnsubscribed) ∧
    (e' = e ∨ e' = ConsumerUnsubscribed).
Proof using Type.
  intros Hr Hc Hs Hu. pose proof (reachable_wfe st Hr) as He. apply reachable_wfb in Hr.
  destruct (we_closed st He Hc) as [e Hin]. pose proof (we_cause st He e Hin) as Herr. exists e.
  split_and!; [done|intros sid; unfold subscribe, closedErr; by rewrite Hc, Herr|]. intros c q Hq.
  assert (∃ o, fate q = Some o) as [o Ho].
  { assert (NotifyQueue.closed q = true) as Hcl; [|unfold fate, NotifyQueue.abs; rewrite Hcl; by eexists].
    destruct (wb_release st Hr c q Hq) as [|[[sid Hx]|[Hx|Hx]]]; [done|..].
    - by rewrite (wb_closed st Hr Hc), lookup_empty in Hx.
    - rewrite Hu in Hx. by apply not_elem_of_nil in Hx.
    - rewrite Hs in Hx. by apply not_elem_of_nil in Hx. }
  destruct (we_fate st He c q Hq o Ho) as (r & -> & Hrin & Hh). exists (terminalError r).
  assert (∀ e', r = ByClose e' → e' = e) as Hbc.
  { intros e' ->. apply endings_close, (we_cause st He) in Hrin. congruence. }
  split_and!; [apply drain_closed; [apply (wb_del st Hr c q Hq)|done]| |by intros ->%Hh|].
  - intros Hn. destruct r as [|e']; [|cbn; auto]. unfold endings in Hrin. apply list_elem_of_omap in Hrin as (x & Hx & Hxe).
    destruct x; cbn in Hxe; try done. case_decide; by subst.
  - destruct r as [|e']; [by right|left; cbn; auto].
Qed.
End spec.

(** ** Runs *)

(** The decoders of the sample runs: a frame [c] is the handshake, [e] an event of the
    session [s]. *)
Definition sampleDecode (d : bytes) : option Event :=
  if bytes_eqb d (str "c") then Some (MkEvent [] EventTypeServerConnected [])
  else if bytes_eqb d (str "e") then Some (MkEvent (str "1") (str "message.updated") (str "s"))
  else None.
Definition sampleConfig : LlmUtil.RetryConfig := LlmUtil.MkRetryConfig 0 0 0 (LlmUtil.Finite (QArith_base.Qmake 0 1)).

Local Abbreviation sstep := (step sampleDecode Some (λ _, None) false sampleConfig).
Local Abbreviation sreachable := (reachable sampleDecode Some (λ _, None) false sampleConfig).

Definition sampleStream : sseScanner := Eval vm_compute in MkScanner (str "data:c" ++ [LF; LF] ++ str "data:e" ++ [LF; LF]) EOF.
Definition afterConnected : sseScanner := Eval vm_compute in MkScanner (str "data:e" ++ [LF; LF]) EOF.
Definition afterEvent : sseScanner := MkScanner [] EOF.
Definition sampleEvent : Event := Eval vm_compute in MkEvent (str "1") (str "message.updated") (str "s").

(** Dialed, connected, one consumer for [s] ... *)
Definition run1 : state := set_dial 0 DCheck (set_runner RCheck (set_delay 250000000 newEventBus)).
Definition run2 : state := set_runner RDial run1.
Definition run3 : state := set_runner (RSetBody 0 sampleStream) (set_bodies 1 (set_tries 1 run2)).
Definition run4 : state := set_runner (RStream false sampleStream) (set_body (Some 0) run3).
Definition run5 : state := set_runner (RPush gapEvent [] afterConnected) (set_connected true (set_firstConnection false run4)).
Definition run6 : state := set_runner (RStream true afterConnected) run5.
Definition run7 : state :=
  record (LSubscribed 1 (str "s"))
    (set_queues (<[1 := newBusConsumer]> (queues run6)) (set_consumers (<[1 := str "s"]> (consumers run6)) (set_nextID 1 run6))).
(** ... which gets the event ... *)
Definition run8 : state := set_runner (RPush sampleEvent [1] afterEvent) (record (LRead sampleEvent) run7).
Definition run9 : state := set_runner (RPush sampleEvent [] afterEvent) (set_queue 1 (push sampleEvent) run8).
(** ... and the client closes. *)
Definition run10 : state := (closeInternal ClientClosed false ByClient [1] run9).2.
Definition run11 : state := set_sweep (Sweeping ByClient [1]) (set_closedBodies [0] (set_ctxDone true run10)).
Definition run12 : state := set_sweep (Sweeping ByClient []) (set_queue 1 (closeConsumer ClientClosed) run11).
Definition run13 : state := set_sweep Swept run12.

Lemma run5_step : sstep run4 run5.
Proof.
  refine (R_frame _ _ _ _ _ false sampleStream run4 (MkFrame [] [] (str "c")) afterConnected [] true eq_refl _ _);
    [by vm_compute|exact (Permutation_refl [])].
Qed.

Lemma run8_step : sstep run7 run8.
Proof.
  assert (onFrame sampleDecode Some (λ _, None) false true [1] true (MkFrame [] [] (str "e")) afterEvent run7 = run8) as <-.
  { unfold onFrame. change (sampleDecode (data (MkFrame [] [] (str "e")))) with (Some sampleEvent). cbv iota.
    unfold route. replace (bytes_eqb (Type_ sampleEvent) []) with false by done. cbn [negb].
    replace (bytes_eqb (Type_ sampleEvent) EventTypeSessionError && bytes_eqb (SessionID Some sampleEvent) []) with false by done.
    replace (bytes_eqb (SessionID Some sampleEvent) []) with false by done.
    replace (bytes_eqb (Type_ sampleEvent) EventTypePermissionAsked || bytes_eqb (Type_ sampleEvent) EventTypePermissionV2Asked)
      with false by done. cbv zeta iota. done. }
  refine (R_frame _ _ _ _ _ true afterConnected run7 (MkFrame [] [] (str "e")) afterEvent [1] true eq_refl _ _); [by vm_compute|].
  exact (Permutation_refl [1]).
Qed.

Lemma run9_reachable : sreachable run9.
Proof.
  eapply Re_step; [eapply Re_step; [eapply Re_step; [eapply Re_step; [eapply Re_step; [eapply Re_step; [eapply Re_step;
    [eapply Re_step; [eapply Re_step; [apply Re_init|]|]|]|]|]|]|]|]|].
  - exact (D_start _ _ _ _ sampleConfig 0 newEventBus eq_refl).
  - exact (R_check _ _ _ _ _ run1 eq_refl).
  - exact (R_dial _ _ _ _ _ sampleStream run2 eq_refl).
  - exact (R_body _ _ _ _ _ 0 sampleStream run3 true _ eq_refl eq_refl).
  - exact run5_step.
  - exact (R_pushed _ _ _ _ _ gapEvent afterConnected run5 eq_refl).
  - exact (S_subscribe _ _ _ _ _ (str "s") run6 1 run7 eq_refl).
  - exact run8_step.
  - exact (R_push _ _ _ _ _ sampleEvent 1 [] afterEvent run8 eq_refl).
Qed.

Lemma run13_reachable : sreachable run13.
Proof.
  eapply Re_step; [eapply Re_step; [eapply Re_step; [eapply Re_step; [apply run9_reachable|]|]|]|].
  - exact (S_close _ _ _ _ _ [1] run9 (Permutation_refl [1])).
  - exact (S_cancel _ _ _ _ _ ByClient (Some 0) [1] run10 eq_refl).
  - exact (S_sweep _ _ _ _ _ ByClient 1 [] run11 eq_refl).
  - exact (S_swept _ _ _ _ _ ByClient run12 eq_refl).
Qed.

Lemma bus_delivery_witness :
  addressed Some 1 (log run9) = [sampleEvent] ∧
  Gapped (addressed Some 1 (log run9)) (taken run9 1 ++ [sampleEvent] ++ inflight (runner run9) 1).
Proof.
  assert (queues run9 !! 1 = Some (push sampleEvent newBusConsumer)) as Hq by done.
  destruct (bus_delivery sampleDecode Some (λ _, None) false sampleConfig run9 1 _ run9_reachable Hq) as (_ & H & _).
  split; [vm_compute; reflexivity|]. exact (H (mk_is_Some _ (str "s") eq_refl)).
Defined.

Lemma bus_dial_safe_witness : connected run9 = true ∧ (err run9 = Some DialTimedOut ∨ err run9 = Some DialCanceled → False).
Proof.
  destruct (bus_dial_safe sampleDecode Some (λ _, None) false sampleConfig run9 run9_reachable) as (_ & Hc & _).
  split; [reflexivity|]. destruct (Hc eq_refl) as [H1 H2]. intros [H|H]; [exact (H1 H)|exact (H2 H)].
Defined.

Lemma bus_close_releases_witness : ∃ q, queues run13 !! 1 = Some q ∧ drain 2 q = ([sampleEvent], Ended ClientClosed).
Proof.
  destruct (bus_close_releases sampleDecode Some (λ _, None) false sampleConfig run13 run13_reachable eq_refl eq_refl eq_refl)
    as (e & He & _ & H).
  assert (e = ClientClosed) as ->.
  { change (log run13) with [LSubscribed 1 (str "s"); LRead sampleEvent; LClosed ClientClosed] in He.
    apply elem_of_cons in He as [?|He]; [discriminate|]. apply elem_of_cons in He as [?|He]; [discriminate|].
    apply list_elem_of_singleton in He. by injection He. }
  eexists. split; [reflexivity|]. destruct (H 1 _ eq_refl) as (e' & Hd & Hn & _).
  rewrite Hn in Hd; [exact Hd|].
  change (log run13) with [LSubscribed 1 (str "s"); LRead sampleEvent; LClosed ClientClosed]. clear. rewrite !not_elem_of_cons. split_and!; [discriminate..|apply not_elem_of_nil].
Defined.

(** The stream fails after the handshake, the bus reconnects and the client closes. *)
Definition leak1 : state := set_runner (RStream true afterEvent) run9.
Definition leak2 : state := set_runner (RStreamed true (StreamRead (Io EOF))) leak1.
Definition leak3 : state := set_runner RBackoff (set_attempt 1 (set_tries 0 (set_attempt 0 (set_delay 250000000 leak2)))).
Definition leak4 : state := set_runner RCheck (set_delay 500000000 leak3).
Definition leak5 : state := set_runner RDial leak4.
Definition leak6 : state := set_runner (RSetBody 1 afterEvent) (set_bodies 2 (set_tries 1 leak5)).
Definition leak7 : state := set_runner (RStream false afterEvent) (set_body (Some 1) leak6).
Definition leak8 : state :=
  record (LClosed ClientClosed)
    (set_sweep (Cancelling ByClient (Some 1) [1]) (set_consumers ∅ (set_body None (set_err (Some ClientClosed) (set_closed true leak7))))).
Definition leak9 : state := set_sweep (Sweeping ByClient [1]) (set_closedBodies [1] (set_ctxDone true leak8)).
Definition leak10 : state := set_sweep (Sweeping ByClient []) (set_queue 1 (closeConsumer ClientClosed) leak9).
Definition leak11 : state := set_sweep Swept leak10.
Definition leak12 : state := set_runner (RStreamed false (StreamRead (Io (ReadError 0)))) leak11.
Definition leak13 : state := set_runner RReturn leak12.
Definition leak14 : state := set_runner RDone (set_doneCh true leak13).

Lemma leak7_reachable : sreachable leak7.
Proof.
  eapply Re_step; [eapply Re_step; [eapply Re_step; [eapply Re_step; [eapply Re_step; [eapply Re_step; [eapply Re_step;
    [apply run9_reachable|]|]|]|]|]|]|].
  - exact (R_pushed _ _ _ _ _ sampleEvent afterEvent run9 eq_refl).
  - exact (R_failed _ _ _ _ _ true afterEvent leak1 (Io EOF) afterEvent eq_refl eq_refl).
  - exact (R_streamed _ _ _ _ sampleConfig true _ leak2 eq_refl).
  - exact (R_slept _ _ _ _ sampleConfig (λ _ d, d) 250000000 500000000 leak3 eq_refl eq_refl).
  - exact (R_check _ _ _ _ _ leak4 eq_refl).
  - exact (R_dial _ _ _ _ _ afterEvent leak5 eq_refl).
  - exact (R_body _ _ _ _ _ 1 afterEvent leak6 true _ eq_refl eq_refl).
Qed.

(** The goroutine has ended, two bodies were opened and the first was never closed. *)
Theorem body_leaked : sreachable leak14 ∧ doneCh leak14 = true ∧ sweep leak14 = Swept ∧ bodies leak14 = 2 ∧ closedBodies leak14 = [1].
Proof.
  split; [|done].
  eapply Re_step; [eapply Re_step; [eapply Re_step; [eapply Re_step; [eapply Re_step; [eapply Re_step; [eapply Re_step;
    [apply leak7_reachable|]|]|]|]|]|]|].
  - exact (S_close _ _ _ _ _ [1] leak7 (Permutation_refl [1])).
  - exact (S_cancel _ _ _ _ _ ByClient (Some 1) [1] leak8 eq_refl).
  - exact (S_sweep _ _ _ _ _ ByClient 1 [] leak9 eq_refl).
  - exact (S_swept _ _ _ _ _ ByClient leak10 eq_refl).
  - exact (R_interrupted _ _ _ _ _ false afterEvent leak11 eq_refl eq_refl).
  - exact (R_streamed _ _ _ _ sampleConfig false _ leak12 eq_refl).
  - exact (R_return _ _ _ _ _ leak13 eq_refl).
Qed.
End BusSpec.
