(* ===== verification/ClaudeSession.v ===== *)
(** The in-memory session store of pkg/llm/claude (session_store.go).

    The store hands out pointers to sessions and takes pointers and slices from its
    callers, so sessions and the backing arrays of their message slices live in a
    heap that the store and its callers share.  The operations take the lock one at
    a time; between them a caller may write to whatever it has a reference to.  The
    store is proved to be the map of sessions a caller expects, with copies that
    neither side can change behind the other's back, the bytes behind [Raw] excepted:
    copies share them. *)
From stdpp Require Import sorting.
From S2P Require Import Prelude GoUtf8 GoStrconv GoStrings GoQuote.

Module SessionStore.

(** The interface [Message], with the one method the store calls. *)
Class Message (M : Type) := messageID : M → bytes.

(** A slice: its backing array, length and capacity; all of them here start at the
    array's first element.  [None] is a nil slice. *)
Record Slice := MkSlice { arr : nat; slen : nat; scap : nat }.

(** [Raw] is a slice of bytes, which a copy of a session shares. *)
Record Session := MkSession { ID : bytes; ParentID : bytes; Messages : option Slice; Raw : option Slice }.

Definition zeroSession : Session := MkSession [] [] None None.

(** [ErrSessionNotFound id] is the error that wraps [ErrSessionNotFound] with the
    identifier; [NilMessage] is the panic of a method call on a nil message. *)
Inductive error :=
| ErrSessionNotFound (id : bytes)
| CLIConnectionError (Message : string)
| ErrForkID
| NilMessage.

#[export] Instance Slice_eq : EqDecision Slice.
Proof. solve_decision. Defined.
#[export] Instance Session_eq : EqDecision Session.
Proof. solve_decision. Defined.
#[export] Instance error_eq : EqDecision error.
Proof. solve_decision. Defined.

Definition length_of (s : option Slice) : nat := from_option slen 0 s.
Definition cap_of (s : option Slice) : nat := from_option scap 0 s.

(** [s[:n]] and [s[:0:0]]. *)
Definition reslice (n : nat) (s : option Slice) : option Slice := (λ s, MkSlice (arr s) n (scap s)) <$> s.
Definition emptied (s : option Slice) : option Slice := (λ s, MkSlice (arr s) 0 0) <$> s.

(** [fmt.Sprintf("%x", buf)] of the random bytes; [None] when they cannot be read. *)
Definition newSessionID (rand : option bytes) : option bytes := (λ buf, buf ≫= hexDigits 2) <$> rand.

Section store.
Context {M : Type} `{Message M} (growslice : nat → nat → nat).

(** ** The heap *)

(** Elements of a message slice are interface values, [None] the nil one. *)
Record heap := Heap {
  cells : gmap nat Session;
  arrays : gmap nat (list (option M));
  fresh : nat;
  raws : gmap nat bytes;            (* the arrays behind Raw *)
}.

Definition deref (h : heap) (p : nat) : Session := default zeroSession (cells h !! p).
Definition array (h : heap) (a : nat) : list (option M) := default [] (arrays h !! a).

Definition elems (h : heap) (s : option Slice) : list (option M) :=
  match s with Some s => take (slen s) (array h (arr s)) | None => [] end.

Definition setCell (p : nat) (s : Session) (h : heap) : heap := Heap (<[p := s]> (cells h)) (arrays h) (fresh h) (raws h).
Definition setArray (a : nat) (l : list (option M)) (h : heap) : heap := Heap (cells h) (<[a := l]> (arrays h)) (fresh h) (raws h).

Definition newCell (s : Session) (h : heap) : heap * nat :=
  (Heap (<[fresh h := s]> (cells h)) (arrays h) (S (fresh h)) (raws h), fresh h).
Definition newArray (l : list (option M)) (h : heap) : heap * nat :=
  (Heap (cells h) (<[fresh h := l]> (arrays h)) (S (fresh h)) (raws h), fresh h).

(** The bytes behind a slice of [Raw], their allocation and an assignment to one. *)
Definition rawBytes (h : heap) (s : option Slice) : bytes :=
  match s with Some s => take (slen s) (default [] (raws h !! arr s)) | None => [] end.
Definition newRaw (l : bytes) (h : heap) : heap :=
  Heap (cells h) (arrays h) (S (fresh h)) (<[fresh h := l]> (raws h)).
Definition setRaw (a i : nat) (b : Z) (h : heap) : heap :=
  Heap (cells h) (arrays h) (fresh h) (alter <[i := b]> a (raws h)).

(** [append(s, xs...)]: in place when the capacity allows it, else in a new array
    of the capacity [growslice] chooses, at least the length needed. *)
Definition append (s : option Slice) (xs : list (option M)) (h : heap) : heap * option Slice :=
  let n := length_of s + length xs in
  if n <=? cap_of s then
    match s with
    | None => (h, None)
    | Some s =>
        let l := array h (arr s) in
        (setArray (arr s) (take (slen s) l ++ xs ++ drop n l) h, Some (MkSlice (arr s) n (scap s)))
    end
  else
    let c := Nat.max n (growslice (cap_of s) n) in
    let '(h, a) := newArray (elems h s ++ xs ++ replicate (c - n) None) h in
    (h, Some (MkSlice a n c)).

(** [slices.Clone(s)] is [append(s[:0:0], s...)]. *)
Definition slices_Clone (s : option Slice) (h : heap) : heap * option Slice := append (emptied s) (elems h s) h.

(** ** The store *)

Record store := Store { hp : heap; sessions : gmap bytes nat }.

Definition NewInMemorySessionStore (h : heap) : store := Store h ∅.

Definition shallowCopySession (p : nat) (h : heap) : heap * nat :=
  let cp := deref h p in
  let '(h, ms) := match Messages cp with Some _ => slices_Clone (Messages cp) h | None => (h, None) end in
  newCell (MkSession (ID cp) (ParentID cp) ms (Raw cp)) h.

Definition Load (id : bytes) (s : store) : store * result error nat :=
  match sessions s !! id with
  | None => (s, Err (ErrSessionNotFound id))
  | Some p => let '(h, cp) := shallowCopySession p (hp s) in (Store h (sessions s), Ok cp)
  end.

Definition Save (sess : option nat) (s : store) : store * result error unit :=
  match sess with
  | None => (s, Err (CLIConnectionError "save session must not be nil"))
  | Some p =>
      if bytes_eqb (ID (deref (hp s) p)) [] then (s, Err (CLIConnectionError "save session ID must not be empty"))
      else
        let '(h, cp) := shallowCopySession p (hp s) in
        (Store h (<[ID (deref h cp) := cp]> (sessions s)), Ok ())
  end.

Definition Append (id : bytes) (messages : option Slice) (s : store) : store * result error unit :=
  match sessions s !! id with
  | None => (s, Err (ErrSessionNotFound id))
  | Some p =>
      let sess := deref (hp s) p in
      let '(h, ms) := append (Messages sess) (elems (hp s) messages) (hp s) in
      (Store (setCell p (MkSession (ID sess) (ParentID sess) ms (Raw sess)) h) (sessions s), Ok ())
  end.

(** The identifiers come in the order the iteration over the map takes. *)
Definition List_ (order : list bytes) : list bytes := sortStrings order.

Definition Delete (id : bytes) (s : store) : store * result error unit :=
  match sessions s !! id with
  | None => (s, Err (ErrSessionNotFound id))
  | Some _ => (Store (hp s) (delete id (sessions s)), Ok ())
  end.

Definition extractMessageID (m : option M) : result error bytes :=
  match m with Some m => Ok (messageID m) | None => Err NilMessage end.

(** The loop of [Fork]: one more than the index of the first match, or 0. *)
Fixpoint cutoff_loop (fromMessageID : bytes) (i : nat) (ms : list (option M)) : result error nat :=
  match ms with
  | [] => Ok 0
  | m :: ms =>
      let! x := extractMessageID m in
      if bytes_eqb x fromMessageID then Ok (i + 1) else cutoff_loop fromMessageID (i + 1) ms
  end.

Definition cutoff (fromMessageID : bytes) (ms : list (option M)) : result error nat :=
  if bytes_eqb fromMessageID [] then Ok (length ms) else cutoff_loop fromMessageID 0 ms.

Definition Fork (sessionID fromMessageID : bytes) (rand : option bytes) (s : store) : store * result error nat :=
  match sessions s !! sessionID with
  | None => (s, Err (ErrSessionNotFound sessionID))
  | Some p =>
      let src := deref (hp s) p in
      match cutoff fromMessageID (elems (hp s) (Messages src)) with
      | Err e => (s, Err e)
      | Ok n =>
          match newSessionID rand with
          | None => (s, Err ErrForkID)
          | Some newID =>
              let '(h, ms) := slices_Clone (reslice n (Messages src)) (hp s) in
              let '(h, forked) := newCell (MkSession newID sessionID ms None) h in
              let '(h, cp) := shallowCopySession forked h in
              (Store h (<[newID := forked]> (sessions s)), Ok cp)
          end
      end
  end.

Definition summaryText (id parent : bytes) (n : nat) : bytes :=
  if bytes_eqb parent [] then str "session " ++ id ++ str ": " ++ Itoa (Z.of_nat n) ++ str " messages"
  else str "session " ++ id ++ str ": " ++ Itoa (Z.of_nat n) ++ str " messages (forked from " ++ parent ++ str ")".

Definition Summary (id : bytes) (s : store) : result error bytes :=
  match sessions s !! id with
  | None => Err (ErrSessionNotFound id)
  | Some p =>
      let sess := deref (hp s) p in
      Ok (summaryText (ID sess) (ParentID sess) (length_of (Messages sess)))
  end.

(** ** Callers *)

(** What a caller can do: call the store, make sessions and slices, and write to
    those it made or was given. *)
Inductive call :=
| CLoad (id : bytes)
| CSave (p : option nat)
| CAppend (id : bytes) (s : option Slice)
| CList (order : list bytes)
| CDelete (id : bytes)
| CFork (sessionID fromMessageID : bytes) (rand : option bytes)
| CSummary (id : bytes)
| CNew (s : Session)
| CMake (l : list (option M))
| CAssign (p : nat) (s : Session)
| CWrite (s : Slice) (i : nat) (m : option M)
| CMakeRaw (l : bytes)
| CWriteRaw (s : Slice) (i : nat) (b : Z).

Inductive reply :=
| RSession (p : nat)
| RDone
| RIDs (ids : list bytes)
| RText (t : bytes)
| RErr (e : error).

(** The heap and the store with the cells and arrays the callers may write to. *)
Record world := World { st : store; ownC : gset nat; ownA : gset nat }.

Definition init : world := World (NewInMemorySessionStore (Heap ∅ ∅ 0 ∅)) ∅ ∅.

(** The array a slice gives access to; none when it has no capacity. *)
Definition footprint (s : option Slice) : gset nat :=
  match s with
  | Some s => if scap s =? 0 then ∅ else {[arr s]}
  | None => ∅
  end.

(** A slice lies within its array. *)
Definition good (h : heap) (s : option Slice) : Prop :=
  match s with
  | Some s =>
      match arrays h !! arr s with Some l => slen s ≤ scap s ∧ scap s ≤ length l | None => False end
  | None => True
  end.

#[export] Instance good_dec h s : Decision (good h s).
Proof. destruct s as [s|]; simpl; [destruct (arrays h !! arr s)|]; apply _. Defined.

(** A caller's slices: what it has access to is its own. *)
Definition mine (w : world) (s : option Slice) : Prop := good (hp (st w)) s ∧ footprint s ⊆ ownA w.

#[export] Instance mine_dec w s : Decision (mine w s).
Proof. apply _. Defined.

(** The caller gets hold of the session [p] and of its messages. *)
Definition grant (w : world) (s : store) (p : nat) : world :=
  World s ({[p]} ∪ ownC w) (footprint (Messages (deref (hp s) p)) ∪ ownA w).

Definition answer {A} (ok : A → reply) (r : result error A) : reply :=
  match r with Ok a => ok a | Err e => RErr e end.

Definition given (w : world) (s : store) (r : result error nat) : world * reply :=
  match r with
  | Ok p => (grant w s p, RSession p)
  | Err e => (World s (ownC w) (ownA w), RErr e)
  end.

(** The calls a caller can make: with references of its own.  The order of the loop
    of [List] is one of the keys of the map, and [rand.Reader] fills the 8 bytes. *)
Definition may (w : world) (c : call) : bool :=
  match c with
  | CSave (Some p) => bool_decide (p ∈ ownC w)
  | CAppend _ s => bool_decide (mine w s)
  | CList order => bool_decide (order ≡ₚ (map_to_list (sessions (st w))).*1)
  | CNew sess => bool_decide (mine w (Messages sess))
  | CAssign p sess => bool_decide (p ∈ ownC w) && bool_decide (mine w (Messages sess))
  | CWrite sl i _ => bool_decide (mine w (Some sl)) && (i <? slen sl)
  | CWriteRaw sl i _ => i <? length (rawBytes (hp (st w)) (Some sl))
  | CFork _ _ (Some buf) => length buf =? 8
  | _ => true
  end.

Definition perform (w : world) (c : call) : world * reply :=
  let s := st w in
  let upd s := World s (ownC w) (ownA w) in
  match c with
  | CLoad id => let '(s, r) := Load id s in given w s r
  | CSave p => let '(s, r) := Save p s in (upd s, answer (λ _, RDone) r)
  | CAppend id ms => let '(s, r) := Append id ms s in (upd s, answer (λ _, RDone) r)
  | CList order => (w, RIDs (List_ order))
  | CDelete id => let '(s, r) := Delete id s in (upd s, answer (λ _, RDone) r)
  | CFork sid from rand => let '(s, r) := Fork sid from rand s in given w s r
  | CSummary id => (w, answer RText (Summary id s))
  | CNew sess => let '(h, p) := newCell sess (hp s) in (grant w (Store h (sessions s)) p, RSession p)
  | CMake l => let '(h, a) := newArray l (hp s) in (World (Store h (sessions s)) (ownC w) ({[a]} ∪ ownA w), RDone)
  | CAssign p sess => (upd (Store (setCell p sess (hp s)) (sessions s)), RDone)
  | CWrite sl i m =>
      (upd (Store (setArray (arr sl) (<[i := m]> (array (hp s) (arr sl))) (hp s)) (sessions s)), RDone)
  | CMakeRaw l => (upd (Store (newRaw l (hp s)) (sessions s)), RDone)
  | CWriteRaw sl i b => (upd (Store (setRaw (arr sl) i b (hp s)) (sessions s)), RDone)
  end.

Definition exec (w : world) (c : call) : option (world * reply) :=
  if may w c then Some (perform w c) else None.

Inductive reachable : world → Prop :=
| reach_init : reachable init
| reach_step w c w' r : reachable w → exec w c = Some (w', r) → reachable w'.

(** ** The map of sessions a caller expects *)

(** Values of sessions; [Raw] is a reference to bytes shared with the callers. *)

Record asession := ASess { aID : bytes; aParentID : bytes; aMessages : list (option M); aRaw : option Slice }.

Definition value (h : heap) (p : nat) : asession :=
  let s := deref h p in ASess (ID s) (ParentID s) (elems h (Messages s)) (Raw s).

Definition abs (w : world) : gmap bytes asession := value (hp (st w)) <$> sessions (st w).

(** The messages up to and including the first one with the identifier, if any. *)
Fixpoint upto (from : bytes) (ms : list (option M)) : result error (option (list (option M))) :=
  match ms with
  | [] => Ok None
  | None :: _ => Err NilMessage
  | Some m :: ms =>
      if decide (messageID m = from) then Ok (Some [Some m])
      else rmap (fmap (cons (Some m))) (upto from ms)
  end.

Definition branch (from : bytes) (ms : list (option M)) : result error (list (option M)) :=
  if decide (from = []) then Ok ms else rmap (default []) (upto from ms).

Inductive acall :=
| ALoad (id : bytes)
| ASave (s : option asession)
| AAppend (id : bytes) (ms : list (option M))
| AList
| ADelete (id : bytes)
| AFork (sessionID fromMessageID : bytes) (rand : option bytes)
| ASummary (id : bytes).

Inductive areply :=
| ASession (s : asession)
| ADone
| AIDs (ids : list bytes)
| AText (t : bytes)
| AErr (e : error).

Definition afork (m : gmap bytes asession) (sid from : bytes) (rand : option bytes) (src : asession) : gmap bytes asession * areply :=
  match branch from (aMessages src) with
  | Err e => (m, AErr e)
  | Ok ms =>
      match newSessionID rand with
      | None => (m, AErr ErrForkID)
      | Some newID => let s := ASess newID sid ms None in (<[newID := s]> m, ASession s)
      end
  end.

Definition aexec (m : gmap bytes asession) (c : acall) : gmap bytes asession * areply :=
  let found id k := match m !! id with Some s => k s | None => (m, AErr (ErrSessionNotFound id)) end in
  match c with
  | ALoad id => found id (λ s, (m, ASession s))
  | ASave None => (m, AErr (CLIConnectionError "save session must not be nil"))
  | ASave (Some s) =>
      if decide (aID s = []) then (m, AErr (CLIConnectionError "save session ID must not be empty"))
      else (<[aID s := s]> m, ADone)
  | AAppend id ms => found id (λ s, (<[id := ASess (aID s) (aParentID s) (aMessages s ++ ms) (aRaw s)]> m, ADone))
  | AList => (m, AIDs (sortStrings (elements (dom m))))
  | ADelete id => found id (λ _, (delete id m, ADone))
  | AFork sid from rand => found sid (afork m sid from rand)
  | ASummary id => found id (λ s, (m, AText (summaryText (aID s) (aParentID s) (length (aMessages s)))))
  end.

(** What a call asks of the map, with the values its references have, and what a
    reply says.  The other calls only write to the caller's own memory. *)
Definition acall_of (w : world) (c : call) : option acall :=
  match c with
  | CLoad id => Some (ALoad id)
  | CSave p => Some (ASave (value (hp (st w)) <$> p))
  | CAppend id s => Some (AAppend id (elems (hp (st w)) s))
  | CList _ => Some AList
  | CDelete id => Some (ADelete id)
  | CFork sid from rand => Some (AFork sid from rand)
  | CSummary id => Some (ASummary id)
  | CNew _ | CMake _ | CAssign _ _ | CWrite _ _ _ | CMakeRaw _ | CWriteRaw _ _ _ => None
  end.

Definition areply_of (w : world) (r : reply) : areply :=
  match r with
  | RSession p => ASession (value (hp (st w)) p)
  | RDone => ADone
  | RIDs ids => AIDs ids
  | RText t => AText t
  | RErr e => AErr e
  end.
End store.

Section frames.
Context {M : Type}.
Implicit Types (h : @heap M).

(** ** Frames *)

Record bounded (h : @heap M) : Prop := {
  bounded_cells p s : cells h !! p = Some s → p < fresh h;
  bounded_arrays a l : arrays h !! a = Some l → a < fresh h;
}.

(** From [h] to [h'] only the cells [C] and the arrays [A] of [h] are written, and
    arrays keep their length. *)
Record frame (C A : gset nat) (h h' : @heap M) : Prop := {
  frame_fresh : fresh h ≤ fresh h';
  frame_cells p : p < fresh h → p ∉ C → cells h' !! p = cells h !! p;
  frame_arrays a : a < fresh h → a ∉ A → arrays h' !! a = arrays h !! a;
  frame_length a l : arrays h !! a = Some l → ∃ l', arrays h' !! a = Some l' ∧ length l' = length l;
}.

Lemma frame_refl C A h : frame C A h h.
Proof. split; eauto. Qed.

Lemma frame_trans C A C' A' h h' h'' :
  bounded h → frame C A h h' → frame C' A' h' h'' →
  (∀ p, p ∈ C' → p ∈ C ∨ fresh h ≤ p) → (∀ a, a ∈ A' → a ∈ A ∨ fresh h ≤ a) → frame C A h h''.
Proof.
  intros Hb [f1 c1 a1 l1] [f2 c2 a2 l2] HC HA. split.
  - lia.
  - intros p Hp Hn. rewrite c2; [by apply c1|lia|]. intros Hp'. destruct (HC p Hp'); [done|lia].
  - intros a Ha Hn. rewrite a2; [by apply a1|lia|]. intros Ha'. destruct (HA a Ha'); [done|lia].
  - intros a l Ha. destruct (l1 a l Ha) as (l' & H1 & E1). destruct (l2 a l' H1) as (l'' & H2 & E2).
    exists l''. split; [done|congruence].
Qed.

Lemma frame_weaken C A h h' : frame ∅ ∅ h h' → frame C A h h'.
Proof. intros [f c a l]. split; try done; intros ? ? _; [apply c|apply a]; set_solver. Qed.

Lemma frame_none_trans h h' h'' : bounded h → frame ∅ ∅ h h' → frame ∅ ∅ h' h'' → frame ∅ ∅ h h''.
Proof. intros Hb H1 H2. eapply frame_trans; [done|exact H1|exact H2|set_solver|set_solver]. Qed.

Lemma good_frame C A h h' s : frame C A h h' → good h s → good h' s.
Proof.
  intros [_ _ _ Hl]. destruct s as [s|]; [|done]. unfold good. destruct (arrays h !! arr s) as [l|] eqn:E; [|done].
  destruct (Hl _ _ E) as (l' & -> & ->). done.
Qed.

Lemma good_fresh h s a : bounded h → good h s → a ∈ footprint s → a < fresh h.
Proof.
  intros [_ Hb] Hg Ha. destruct s as [s|]; [|set_solver]. unfold good, footprint in *.
  destruct (arrays h !! arr s) as [l|] eqn:E; [|done]. case_match; [set_solver|].
  apply elem_of_singleton in Ha as ->. by eapply Hb.
Qed.

Lemma elems_frame C A h h' s : bounded h → frame C A h h' → good h s → footprint s ## A → elems h' s = elems h s.
Proof.
  intros Hb [_ _ Ha _] Hg Hd. destruct s as [s|]; [|done]. pose proof (good_fresh h (Some s) (arr s) Hb Hg) as Hf.
  unfold good in Hg. destruct (arrays h !! arr s) as [l|] eqn:E; [|done].
  unfold footprint in *. destruct (scap s =? 0) eqn:Ec.
  - assert (slen s = 0) as E0 by bool_lia. unfold elems. by rewrite E0, !take_0.
  - unfold elems, array. rewrite Ha, E; [done| |set_solver]. apply Hf. set_solver.
Qed.

Lemma length_elems h s : good h s → length (elems h s) = length_of s.
Proof.
  destruct s as [s|]; [|done]. unfold good, elems, array. destruct (arrays h !! arr s) as [l|]; [|done].
  intros [H1 H2]. simpl. rewrite length_take. lia.
Qed.

Lemma good_reslice h s n : good h s → n ≤ length_of s → good h (reslice n s).
Proof.
  destruct s as [s|]; [|done]. unfold good. simpl. destruct (arrays h !! arr s) as [l|]; [|done]. lia.
Qed.

Lemma elems_reslice h s n : n ≤ length_of s → elems h (reslice n s) = take n (elems h s).
Proof.
  destruct s as [s|]; simpl; [|by rewrite take_nil]. intros Hn. rewrite take_take. by rewrite Nat.min_l.
Qed.

(** ** What each heap operation writes *)

Lemma newCell_spec (s : Session) h :
  bounded h →
  let '(h', p) := newCell s h in
  bounded h' ∧ frame ∅ ∅ h h' ∧ cells h' !! p = Some s ∧ p = fresh h ∧ fresh h' = S p ∧ arrays h' = arrays h.
Proof.
  intros [Hc Ha]. cbn. split_and!; try done; [split|split|]; cbn.
  - intros p s'. destruct (decide (p = fresh h)) as [->|Hp]; [lia|]. rewrite lookup_insert_ne by done. intros E%Hc. lia.
  - intros a l E%Ha. lia.
  - lia.
  - intros p Hp _. rewrite lookup_insert_ne by lia. done.
  - done.
  - eauto.
  - by rewrite lookup_insert_eq.
Qed.

Lemma newArray_spec l h :
  bounded h →
  let '(h', a) := newArray l h in
  bounded h' ∧ frame ∅ ∅ h h' ∧ arrays h' !! a = Some l ∧ a = fresh h ∧ fresh h' = S a ∧ cells h' = cells h.
Proof.
  intros [Hc Ha]. cbn. split_and!; try done; [split|split|]; cbn.
  - intros p s' E%Hc. lia.
  - intros a l'. destruct (decide (a = fresh h)) as [->|Hp]; [lia|]. rewrite lookup_insert_ne by done. intros E%Ha. lia.
  - lia.
  - done.
  - intros a Hp _. rewrite lookup_insert_ne by lia. done.
  - intros a l' E. exists l'. split; [|done]. rewrite lookup_insert_ne; [done|]. apply Ha in E. lia.
  - by rewrite lookup_insert_eq.
Qed.

(** Writing an array without changing its length. *)
Lemma setArray_frame a l l' h :
  bounded h → arrays h !! a = Some l → length l' = length l →
  bounded (setArray a l' h) ∧ frame ∅ {[a]} h (setArray a l' h).
Proof.
  intros [Hc Ha] E El. split; split; cbn; try done.
  - intros b k. destruct (decide (b = a)) as [->|Hb]; [intros _; by eapply Ha|]. rewrite lookup_insert_ne by done. apply Ha.
  - intros b _ Hb. rewrite lookup_insert_ne by set_solver. done.
  - intros b k Ek. destruct (decide (b = a)) as [->|Hb].
    + rewrite lookup_insert_eq. exists l'. split; [done|congruence].
    + rewrite lookup_insert_ne by done. eauto.
Qed.

Lemma append_spec growslice s xs h :
  bounded h → good h s →
  let '(h', s') := append growslice s xs h in
  bounded h' ∧ frame ∅ (footprint s) h h' ∧ cells h' = cells h ∧ good h' s' ∧ elems h' s' = elems h s ++ xs ∧
  (∀ a, a ∈ footprint s' → a ∈ footprint s ∨ fresh h ≤ a).
Proof.
  intros Hb Hg. unfold append. set (n := length_of s + length xs). destruct (n <=? cap_of s) eqn:En.
  - apply Nat.leb_le in En. destruct s as [s|]; cbn in *.
    2:{ destruct xs; cbn in *; [|lia]. split_and!; try done; apply frame_refl. }
    unfold good in Hg. unfold array. destruct (arrays h !! arr s) as [l|] eqn:E; [|done]. cbn.
    clear n. set (l' := take (slen s) l ++ xs ++ drop (slen s + length xs) l).
    assert (length l' = length l) as El by (unfold l'; rewrite !length_app, length_take, length_drop; lia).
    destruct (setArray_frame (arr s) l l' h Hb E El) as [Hb' Hf]. split_and!; try done.
    + destruct (scap s =? 0) eqn:Ec; [|done]. apply Nat.eqb_eq in Ec.
      assert (l' = l) as ->.
      { unfold l'. destruct xs as [|x xs]; [|cbn in En; lia]. cbn. rewrite Nat.add_0_r. apply take_drop. }
      destruct h as [c ar f rw]. unfold setArray. cbn in *. rewrite (insert_id ar (arr s) l E). apply frame_refl.
    + unfold good. cbn. rewrite lookup_insert_eq, El. lia.
    + rewrite lookup_insert_eq. cbn. unfold l'. rewrite app_assoc, take_app_le, take_ge; [done| |]; rewrite length_app, length_take; lia.
    + intros a. left. done.
  - apply Nat.leb_gt in En. set (c := Nat.max n _). set (l := _ ++ _ ++ _).
    pose proof (newArray_spec l h Hb) as Hn. destruct (newArray l h) as [h' a]. destruct Hn as (Hb' & Hf & E & -> & Ef & Ec).
    pose proof (length_elems h s Hg) as Hl. split_and!; try done.
    + by apply frame_weaken.
    + unfold good. cbn. rewrite E. unfold l. rewrite !length_app, length_replicate. lia.
    + unfold elems at 1, array. cbn. rewrite E. cbn. unfold l, n. rewrite app_assoc, take_app_le, take_ge; [done| |]; rewrite length_app; lia.
    + intros b. cbn. case_match; set_solver by lia.
Qed.

Lemma clone_spec growslice s h :
  bounded h → good h s →
  let '(h', s') := slices_Clone growslice s h in
  bounded h' ∧ frame ∅ ∅ h h' ∧ cells h' = cells h ∧ good h' s' ∧ elems h' s' = elems h s ∧
  (∀ a, a ∈ footprint s' → fresh h ≤ a).
Proof.
  intros Hb Hg. unfold slices_Clone. pose proof (append_spec growslice (emptied s) (elems h s) h Hb) as Ha.
  destruct (append _ _ _ _) as [h' s']. destruct Ha as (Hb' & Hf & Hc & Hg' & He & Ha).
  { destruct s as [s|]; [|done]. unfold good in *. cbn. destruct (arrays h !! arr s); [lia|done]. }
  assert (footprint (emptied s) = ∅) as Hfe by by destruct s.
  rewrite Hfe in *. split_and!; try done.
  - rewrite He. by destruct s.
  - intros a H'. destruct (Ha a H'); [set_solver|done].
Qed.

(** A shallow copy is a new cell with a new array: the same value, shared with
    nobody. *)
Lemma shallowCopySession_spec growslice p s h :
  bounded h → cells h !! p = Some s → good h (Messages s) →
  let '(h', p') := shallowCopySession growslice p h in
  bounded h' ∧ frame ∅ ∅ h h' ∧ fresh h ≤ p' ∧
  ∃ ms, cells h' !! p' = Some (MkSession (ID s) (ParentID s) ms (Raw s)) ∧ good h' ms ∧
    elems h' ms = elems h (Messages s) ∧ (∀ a, a ∈ footprint ms → fresh h ≤ a).
Proof.
  intros Hb Hp Hg. unfold shallowCopySession, deref. rewrite Hp. cbn [default].
  assert (∀ o, match o with Some _ => slices_Clone growslice o h | None => (h, None) end = slices_Clone growslice o h) as -> by by intros [].
  pose proof (clone_spec growslice (Messages s) h Hb Hg) as Hr.
  destruct (slices_Clone _ _ _) as [h1 ms]. destruct Hr as (Hb1 & Hf1 & _ & Hg1 & He1 & Ha1).
  set (s' := MkSession _ _ _ _). pose proof (newCell_spec s' h1 Hb1) as Hn.
  destruct (newCell s' h1) as [h2 p']. destruct Hn as (Hb2 & Hf2 & Hc2 & -> & _ & _).
  split_and!; [done|by eapply frame_none_trans|apply Hf1|]. exists ms. split_and!; try done.
  - by eapply good_frame.
  - rewrite <-He1. eapply elems_frame; [done|exact Hf2|done|set_solver].
Qed.

(** ** The invariant *)

(** Sessions of the store have their key as identifier, no caller owns their cells
    or arrays, and no two share an array; callers' references lie in what they
    own. *)
Record wf (w : world (M := M)) : Prop := {
  wf_bounded : bounded (hp (st w));
  wf_entry id p : sessions (st w) !! id = Some p →
    ∃ s, cells (hp (st w)) !! p = Some s ∧ ID s = id ∧ id ≠ [] ∧ p ∉ ownC w ∧
      good (hp (st w)) (Messages s) ∧ footprint (Messages s) ## ownA w;
  wf_sep id id' p p' : sessions (st w) !! id = Some p → sessions (st w) !! id' = Some p' → id ≠ id' →
    footprint (Messages (deref (hp (st w)) p)) ## footprint (Messages (deref (hp (st w)) p'));
  wf_own p : p ∈ ownC w → ∃ s, cells (hp (st w)) !! p = Some s ∧ mine w (Messages s);
  wf_ownA a : a ∈ ownA w → is_Some (arrays (hp (st w)) !! a);
}.

Lemma value_frame C A h h' p s :
  bounded h → frame C A h h' → cells h !! p = Some s → good h (Messages s) →
  p ∉ C → footprint (Messages s) ## A → value h' p = value h p.
Proof.
  intros Hb Hf Hp Hg HC HA. unfold value, deref. rewrite (frame_cells _ _ _ _ Hf), Hp; [|by eapply bounded_cells|done].
  cbn. f_equal. by eapply elems_frame.
Qed.

(** Callers' cells and arrays may be written, and new ones appear: the store does
    not notice. *)
Lemma wf_frame C A w h' :
  wf w → bounded h' → frame C A (hp (st w)) h' → C ⊆ ownC w → A ⊆ ownA w →
  (∀ p, p ∈ C → ∃ s, cells h' !! p = Some s ∧ good h' (Messages s) ∧ footprint (Messages s) ⊆ ownA w) →
  let w' := World (Store h' (sessions (st w))) (ownC w) (ownA w) in wf w' ∧ abs w' = abs w.
Proof.
  intros [Hb He Hs Ho HoA] Hb' Hf HC HA HCs w'.
  assert (∀ p s, cells (hp (st w)) !! p = Some s → p ∉ C → cells h' !! p = Some s) as Hcell.
  { intros p s Hp Hn. rewrite (frame_cells _ _ _ _ Hf); [done|by eapply bounded_cells|done]. }
  split; [split|]; cbn.
  - done.
  - intros id p (s & Hp & E & Hn & HpC & Hg & Hd)%He. exists s. split_and!; try done; [apply Hcell; set_solver|by eapply good_frame].
  - intros id id' p p' H1 H2 Hne. pose proof (Hs id id' p p' H1 H2 Hne) as Hd.
    destruct (He _ _ H1) as (s1 & P1 & _ & _ & N1 & _). destruct (He _ _ H2) as (s2 & P2 & _ & _ & N2 & _).
    unfold deref in *. rewrite P1, P2 in Hd. rewrite (Hcell p s1), (Hcell p' s2); [done|done|set_solver|done|set_solver].
  - intros p Hp. unfold mine. cbn. destruct (decide (p ∈ C)) as [Hc|Hc]; [by apply HCs|].
    destruct (Ho p Hp) as (s & P & Hg & Hi). exists s. split_and!; [by apply Hcell|by eapply good_frame|done].
  - intros a Ha. destruct (HoA a Ha) as [l Hl]. destruct (frame_length _ _ _ _ Hf a l Hl) as (l' & -> & _). done.
  - apply map_fmap_ext. intros id p Hp. cbn. destruct (He _ _ Hp) as (s & P & _ & _ & Hn & Hg & Hd).
    eapply value_frame; [done|exact Hf|done|done|set_solver|set_solver].
Qed.

(** A session nobody else refers to becomes an entry of the store. *)
Lemma wf_insert w p s :
  wf w → cells (hp (st w)) !! p = Some s → ID s ≠ [] → p ∉ ownC w → good (hp (st w)) (Messages s) →
  footprint (Messages s) ## ownA w →
  (∀ id' p', sessions (st w) !! id' = Some p' → footprint (Messages s) ## footprint (Messages (deref (hp (st w)) p'))) →
  let w' := World (Store (hp (st w)) (<[ID s := p]> (sessions (st w)))) (ownC w) (ownA w) in
  wf w' ∧ abs w' = <[ID s := value (hp (st w)) p]> (abs w).
Proof.
  intros [Hb He Hs Ho HoA] Hp Hid Hn Hg Hd Hsep w'. split; [split|]; cbn; try done.
  - intros id q. destruct (decide (id = ID s)) as [->|Hne].
    + rewrite lookup_insert_eq. intros [= <-]. exists s. done.
    + rewrite lookup_insert_ne by done. apply He.
  - assert (footprint (Messages (deref (hp (st w)) p)) = footprint (Messages s)) as Hfp by (unfold deref; by rewrite Hp).
    intros id id' q q'. destruct (decide (id = ID s)) as [->|H1], (decide (id' = ID s)) as [->|H2];
      rewrite ?lookup_insert_eq, ?lookup_insert_ne by done; intros E1 E2 Hne; try done.
    + injection E1 as <-. rewrite Hfp. by eapply Hsep.
    + injection E2 as <-. rewrite Hfp. symmetry. by eapply Hsep.
    + by eapply Hs.
  - unfold abs. cbn. by rewrite fmap_insert.
Qed.

(** A caller gets hold of a session the store does not refer to. *)
Lemma wf_grant w p s :
  wf w → cells (hp (st w)) !! p = Some s → good (hp (st w)) (Messages s) →
  (∀ id' p', sessions (st w) !! id' = Some p' →
    p' ≠ p ∧ footprint (Messages s) ## footprint (Messages (deref (hp (st w)) p'))) →
  wf (grant w (st w) p) ∧ abs (grant w (st w) p) = abs w.
Proof.
  intros [Hb He Hs Ho HoA] Hp Hg Hsep. split; [split|]; cbn; try done; unfold deref; rewrite ?Hp; cbn.
  - intros id q Hq. destruct (He id q Hq) as (s' & P & ? & ? & ? & ? & ?). destruct (Hsep _ _ Hq) as [Hne Hd].
    unfold deref in Hd. rewrite P in Hd. cbn in Hd. exists s'. split_and!; try done; set_solver.
  - intros q Hq. destruct (decide (q = p)) as [->|Hne].
    + exists s. split; [done|]. split; [done|]. cbn. unfold deref. rewrite Hp. cbn. set_solver.
    + destruct (Ho q) as (s' & P & Hm & Hi); [set_solver|]. exists s'. split; [done|]. split; [done|]. cbn. set_solver.
  - intros a. rewrite elem_of_union. intros [Ha|Ha]; [|by apply HoA]. destruct (Messages s) as [sl|]; [|set_solver].
    unfold footprint, good in *. case_match; [set_solver|]. apply elem_of_singleton in Ha as ->.
    destruct (arrays _ !! _); done.
Qed.
End frames.

Section refinement.
Context {M : Type} `{Message M} (growslice : nat → nat → nat).
Implicit Types (w : world (M := M)).

(** ** Each call as the map of sessions sees it *)

Definition simulates w (c : call) w' (r : reply) : Prop :=
  wf w' ∧
  match acall_of w c with
  | Some a => aexec (abs w) a = (abs w', areply_of w' r) ∧
      (∀ p, p ∈ ownC w → value (hp (st w')) p = value (hp (st w)) p)
  | None => abs w' = abs w
  end.

Lemma abs_lookup w id : abs w !! id = value (hp (st w)) <$> sessions (st w) !! id.
Proof. apply lookup_fmap. Qed.

Lemma own_values C A w h' p :
  wf w → frame C A (hp (st w)) h' → C ## ownC w → A ## ownA w → p ∈ ownC w → value h' p = value (hp (st w)) p.
Proof.
  intros Hw Hf HC HA Hp. destruct (wf_own w Hw p Hp) as (s & P & Hg & Hi).
  eapply value_frame; [by apply wf_bounded|exact Hf|done|done|set_solver|set_solver].
Qed.

Lemma wf_none w h' :
  wf w → bounded h' → frame ∅ ∅ (hp (st w)) h' →
  let w' := World (Store h' (sessions (st w))) (ownC w) (ownA w) in wf w' ∧ abs w' = abs w.
Proof. intros Hw Hb Hf. eapply wf_frame; [done|done|exact Hf|set_solver..]. Qed.

(** Entries of the store lie below what is allocated next. *)
Lemma entry_fresh w id p :
  wf w → sessions (st w) !! id = Some p →
  p < fresh (hp (st w)) ∧ (∀ a, a ∈ footprint (Messages (deref (hp (st w)) p)) → a < fresh (hp (st w))).
Proof.
  intros Hw Hp. destruct (wf_entry w Hw id p Hp) as (s & P & _ & _ & _ & Hg & _).
  split; [eapply bounded_cells; [by apply wf_bounded|done]|]. unfold deref. rewrite P.
  intros a. apply good_fresh; [by apply wf_bounded|done].
Qed.

Lemma own_fresh w : wf w → (∀ p, p ∈ ownC w → p < fresh (hp (st w))) ∧ (∀ a, a ∈ ownA w → a < fresh (hp (st w))).
Proof.
  intros Hw. split.
  - intros p (s & P & _)%(wf_own w Hw). eapply bounded_cells; [by apply wf_bounded|done].
  - intros a [l Hl]%(wf_ownA w Hw). eapply bounded_arrays; [by apply wf_bounded|done].
Qed.

Lemma frame_deref C A h h' p : bounded h → frame C A h h' → is_Some (cells h !! p) → p ∉ C → deref h' p = deref (M := M) h p.
Proof. intros Hb Hf [s Hs] Hn. unfold deref. rewrite (frame_cells _ _ _ _ Hf); [done|by eapply bounded_cells|done]. Qed.

Lemma entry_deref C A w h' id p :
  wf w → frame C A (hp (st w)) h' → sessions (st w) !! id = Some p → p ∉ C → deref h' p = deref (hp (st w)) p.
Proof.
  intros Hw Hf Hp HC. destruct (wf_entry w Hw id p Hp) as (s & P & _).
  eapply frame_deref; [by apply wf_bounded|exact Hf|by rewrite P|done].
Qed.

(** A call that leaves everything as it is. *)
Lemma idle_simulates w c a r :
  wf w → acall_of w c = Some a → aexec (abs w) a = (abs w, areply_of w r) →
  simulates w c (World (st w) (ownC w) (ownA w)) r.
Proof. intros Hw Ea Ee. destruct w. unfold simulates. rewrite Ea. by cbn in *. Qed.

Lemma missing_simulates w c a id :
  wf w → acall_of w c = Some a → sessions (st w) !! id = None →
  (abs w !! id = None → aexec (abs w) a = (abs w, AErr (ErrSessionNotFound id))) →
  simulates w c (World (st w) (ownC w) (ownA w)) (RErr (ErrSessionNotFound id)).
Proof. intros Hw Ea Hn He. apply (idle_simulates w c a); [done|done|]. apply He. by rewrite abs_lookup, Hn. Qed.

Lemma Load_simulates w id :
  wf w → let '(w', r) := perform growslice w (CLoad id) in simulates w (CLoad id) w' r.
Proof.
  intros Hw. cbn. unfold Load. destruct (sessions (st w) !! id) as [p|] eqn:Hp.
  2:{ apply (missing_simulates w _ (ALoad id)); [done|done|done|]. cbn. by intros ->. }
  destruct (wf_entry w Hw id p Hp) as (s & P & Eid & Hne & HnC & Hg & Hd).
  pose proof (shallowCopySession_spec growslice p s (hp (st w)) (wf_bounded w Hw) P Hg) as Hc.
  destruct (shallowCopySession _ _ _) as [h' p']. destruct Hc as (Hb' & Hf & Hp' & ms & P' & Hg' & He & Ha).
  destruct (wf_none w h' Hw Hb' Hf) as [Hw1 Ea1]. set (w1 := World _ _ _) in Hw1, Ea1.
  destruct (wf_grant w1 p' _ Hw1 P' Hg') as [Hw2 Ea2].
  { intros id' q Hq. destruct (entry_fresh w id' q Hw Hq) as [Hlt Hfp]. split; [lia|].
    cbn. rewrite (entry_deref _ _ w h' id' q Hw Hf Hq) by set_solver.
    intros a H1 H2. apply Ha in H1. apply Hfp in H2. lia. }
  cbn [given]. split; [exact Hw2|]. cbn [acall_of aexec]. split.
  - rewrite abs_lookup, Hp. cbn. f_equal; [by rewrite <-Ea1, <-Ea2|].
    unfold value, deref. rewrite P, P'. cbn. by rewrite He.
  - intros q Hq. eapply own_values; [done|exact Hf|set_solver|set_solver|done].
Qed.

Lemma Save_simulates w sess :
  wf w → may w (CSave sess) = true →
  let '(w', r) := perform growslice w (CSave sess) in simulates w (CSave sess) w' r.
Proof.
  intros Hw Hm. cbn. unfold Save. destruct sess as [p|].
  2:{ by apply (idle_simulates w _ (ASave None)). }
  cbn in Hm. apply bool_decide_eq_true in Hm. unfold bytes_eqb. case_bool_decide as Hid.
  { apply (idle_simulates w _ (ASave (Some (value (hp (st w)) p)))); [done|done|]. cbn. by rewrite decide_True. }
  destruct (wf_own w Hw p Hm) as (s & P & Hg & Hi).
  pose proof (shallowCopySession_spec growslice p s (hp (st w)) (wf_bounded w Hw) P Hg) as Hc.
  destruct (shallowCopySession _ _ _) as [h' p']. destruct Hc as (Hb' & Hf & Hp' & ms & P' & Hg' & He & Ha).
  destruct (wf_none w h' Hw Hb' Hf) as [Hw1 Ea1]. set (w1 := World _ _ _) in Hw1, Ea1.
  destruct (own_fresh w Hw) as [HoC HoA].
  assert (ID (deref (hp (st w)) p) = ID s) as Eid by (unfold deref; by rewrite P).
  destruct (wf_insert w1 p' _ Hw1 P') as [Hw2 Ea2]; cbn; try done.
  { by rewrite <-Eid. }
  { intros Hp1. apply HoC in Hp1. lia. }
  { intros a H1 H2. apply Ha in H1. apply HoA in H2. lia. }
  { intros id' q Hq. destruct (entry_fresh w id' q Hw Hq) as [Hlt Hfp].
    rewrite (entry_deref _ _ w h' id' q Hw Hf Hq) by set_solver.
    intros a H1 H2. apply Ha in H1. apply Hfp in H2. lia. }
  assert (deref h' p' = MkSession (ID s) (ParentID s) ms (Raw s)) as Ed by (unfold deref; by rewrite P').
  assert (value h' p' = value (hp (st w)) p) as Ev.
  { unfold value. rewrite Ed. unfold deref. rewrite P. cbn. by rewrite He. }
  rewrite Ed. split; [exact Hw2|]. cbn. rewrite decide_False by done. split.
  - f_equal. symmetry. etrans; [exact Ea2|]. rewrite Ea1, Eid. cbn [ID]. f_equal. exact Ev.
  - intros q Hq. eapply own_values; [done|exact Hf|set_solver|set_solver|done].
Qed.

Lemma setCell_frame p s0 s h :
  bounded h → cells h !! p = Some s0 → bounded (setCell (M := M) p s h) ∧ frame {[p]} ∅ h (setCell p s h).
Proof.
  intros [Hc Ha] E. split; split; cbn; try done; eauto.
  - intros q t. destruct (decide (q = p)) as [->|Hq]; [intros _; by eapply Hc|]. rewrite lookup_insert_ne by done. apply Hc.
  - intros q _ Hq. rewrite lookup_insert_ne by set_solver. done.
Qed.

(** [Append] writes one entry and the array behind it. *)
Lemma wf_entry_write w id p s ms h' :
  wf w → sessions (st w) !! id = Some p → cells (hp (st w)) !! p = Some s → bounded h' →
  frame {[p]} (footprint (Messages s)) (hp (st w)) h' →
  cells h' !! p = Some (MkSession (ID s) (ParentID s) ms (Raw s)) → good h' ms →
  (∀ a, a ∈ footprint ms → a ∈ footprint (Messages s) ∨ fresh (hp (st w)) ≤ a) →
  let w' := World (Store h' (sessions (st w))) (ownC w) (ownA w) in
  wf w' ∧ abs w' = <[id := ASess (ID s) (ParentID s) (elems h' ms) (Raw s)]> (abs w).
Proof.
  intros Hw Hp P Hb' Hf P' Hg' Ha w'. destruct (own_fresh w Hw) as [HoC HoA].
  destruct (wf_entry w Hw id p Hp) as (s0 & P0 & Eid & Hne & HnC & Hg & Hd). rewrite P in P0. injection P0 as <-.
  assert (∀ id' q, sessions (st w) !! id' = Some q → id' ≠ id → q ≠ p) as Hinj.
  { intros id' q Hq Hn ->. destruct (wf_entry w Hw id' p Hq) as (s1 & P1 & E1 & _). congruence. }
  assert (∀ id' q, sessions (st w) !! id' = Some q → id' ≠ id → footprint ms ## footprint (Messages (deref (hp (st w)) q))) as Hsep.
  { intros id' q Hq Hn a H1 H2. destruct (entry_fresh w id' q Hw Hq) as [_ Hfp]. destruct (Ha a H1) as [H3|H3]; [|apply Hfp in H2; lia].
    pose proof (wf_sep w Hw id id' p q Hp Hq (not_eq_sym Hn)) as Hs. unfold deref at 1 in Hs. rewrite P in Hs. by eapply Hs. }
  split; [split|].
  - done.
  - cbn. intros id' q Hq. destruct (decide (id' = id)) as [->|Hn].
    + rewrite Hp in Hq. injection Hq as <-. eexists. split_and!; try done. cbn.
      intros a H1 H2. destruct (Ha a H1) as [H3|H3]; [by eapply Hd|]. apply HoA in H2. lia.
    + destruct (wf_entry w Hw id' q Hq) as (s1 & P1 & ? & ? & ? & ? & ?). exists s1. split_and!; try done; [|by eapply good_frame].
      rewrite (frame_cells _ _ _ _ Hf), P1; [done|exact (proj1 (entry_fresh w id' q Hw Hq))|]. apply not_elem_of_singleton. by eapply Hinj.
  - cbn. intros id1 id2 q1 q2 H1 H2 Hn.
    assert (deref h' p = MkSession (ID s) (ParentID s) ms (Raw s)) as Ed by (unfold deref; by rewrite P').
    destruct (decide (id1 = id)) as [->|N1], (decide (id2 = id)) as [->|N2]; [done| | |].
    + rewrite Hp in H1. injection H1 as <-. rewrite Ed, (entry_deref _ _ w h' id2 q2 Hw Hf H2) by (apply not_elem_of_singleton; by eapply Hinj).
      by eapply Hsep.
    + rewrite Hp in H2. injection H2 as <-. rewrite Ed, (entry_deref _ _ w h' id1 q1 Hw Hf H1) by (apply not_elem_of_singleton; by eapply Hinj).
      symmetry. by eapply Hsep.
    + rewrite (entry_deref _ _ w h' id1 q1 Hw Hf H1), (entry_deref _ _ w h' id2 q2 Hw Hf H2) by (apply not_elem_of_singleton; by eapply Hinj).
      by eapply (wf_sep w Hw).
  - cbn. intros q Hq. destruct (wf_own w Hw q Hq) as (s1 & P1 & Hg1 & Hi1). exists s1. split_and!.
    + rewrite (frame_cells _ _ _ _ Hf), P1; [done|by apply HoC|set_solver].
    + split; [by eapply good_frame|done].
  - cbn. intros a [l Hl]%(wf_ownA w Hw). destruct (frame_length _ _ _ _ Hf a l Hl) as (l' & -> & _). done.
  - apply map_eq. intros id'. unfold abs. cbn. rewrite lookup_fmap. destruct (decide (id' = id)) as [->|Hn].
    + rewrite lookup_insert_eq, Hp. cbn. unfold value, deref. by rewrite P'.
    + rewrite lookup_insert_ne, lookup_fmap by done. destruct (sessions (st w) !! id') as [q|] eqn:Hq; [|done]. cbn. f_equal.
      destruct (wf_entry w Hw id' q Hq) as (s1 & P1 & _ & _ & _ & Hg1 & _).
      eapply value_frame; [by apply wf_bounded|exact Hf|done|done| |].
      * apply not_elem_of_singleton. by eapply Hinj.
      * pose proof (wf_sep w Hw id' id q p Hq Hp Hn) as Hs. unfold deref in Hs. by rewrite P, P1 in Hs.
Qed.

Lemma Append_simulates w id ms :
  wf w → may w (CAppend id ms) = true →
  let '(w', r) := perform growslice w (CAppend id ms) in simulates w (CAppend id ms) w' r.
Proof.
  intros Hw Hm. cbn in Hm. apply bool_decide_eq_true in Hm as [Hgm Him]. cbn. unfold Append.
  destruct (sessions (st w) !! id) as [p|] eqn:Hp.
  2:{ apply (missing_simulates w _ (AAppend id (elems (hp (st w)) ms))); [done|done|done|]. cbn. by intros ->. }
  destruct (wf_entry w Hw id p Hp) as (s & P & Eid & Hne & HnC & Hg & Hd).
  assert (deref (hp (st w)) p = s) as Ed by (unfold deref; by rewrite P). rewrite !Ed.
  pose proof (append_spec growslice (Messages s) (elems (hp (st w)) ms) (hp (st w)) (wf_bounded w Hw) Hg) as Ha.
  destruct (append _ _ _ _) as [h1 ms1]. destruct Ha as (Hb1 & Hf1 & Ec1 & Hg1 & He1 & Ha1).
  set (s' := MkSession _ _ _ _). destruct (setCell_frame p s s' h1 Hb1) as [Hb2 Hf2]; [by rewrite Ec1|].
  assert (frame {[p]} (footprint (Messages s)) (hp (st w)) (setCell p s' h1)) as Hf.
  { eapply frame_trans; [by apply wf_bounded| |exact Hf2|set_solver|set_solver].
    destruct Hf1 as [f c a l]. split; try done. intros q Hq _. apply c; [done|set_solver]. }
  destruct (wf_entry_write w id p s ms1 (setCell p s' h1)) as [Hw' Ea']; try done.
  { cbn. by rewrite lookup_insert_eq. }
  split; [exact Hw'|]. cbn [acall_of aexec]. split.
  - rewrite abs_lookup, Hp. cbn. f_equal. symmetry. etrans; [exact Ea'|]. f_equal. unfold value. rewrite Ed. cbn. by rewrite <-He1.
  - intros q Hq. eapply own_values; [done|exact Hf|set_solver|set_solver|done].
Qed.

Lemma Delete_simulates w id :
  wf w → let '(w', r) := perform growslice w (CDelete id) in simulates w (CDelete id) w' r.
Proof.
  intros Hw. cbn. unfold Delete. destruct (sessions (st w) !! id) as [p|] eqn:Hp.
  2:{ apply (missing_simulates w _ (ADelete id)); [done|done|done|]. cbn. by intros ->. }
  split; [|cbn [acall_of aexec]; split; [|done]].
  - destruct Hw as [Hb He Hs Ho HoA]. split; cbn; try done.
    + intros id' q [_ Hq]%lookup_delete_Some. by apply He.
    + intros id1 id2 q1 q2 [_ H1]%lookup_delete_Some [_ H2]%lookup_delete_Some. by apply Hs.
  - rewrite abs_lookup, Hp. cbn. f_equal. unfold abs. cbn. by rewrite fmap_delete.
Qed.

Lemma Summary_simulates w id :
  wf w → let '(w', r) := perform growslice w (CSummary id) in simulates w (CSummary id) w' r.
Proof.
  intros Hw. cbn. assert (World (st w) (ownC w) (ownA w) = w) as E by by destruct w.
  rewrite <-E at 2. apply (idle_simulates w _ (ASummary id)); [done|done|]. cbn. unfold Summary. rewrite abs_lookup.
  destruct (sessions (st w) !! id) as [p|] eqn:Hp; [|done]. cbn.
  destruct (wf_entry w Hw id p Hp) as (s & P & _ & _ & _ & Hg & _). unfold deref. rewrite P. cbn. by rewrite length_elems.
Qed.

Lemma List_simulates w order :
  wf w → may w (CList order) = true →
  let '(w', r) := perform growslice w (CList order) in simulates w (CList order) w' r.
Proof.
  intros Hw Hm. cbn in Hm. apply bool_decide_eq_true in Hm. cbn. assert (World (st w) (ownC w) (ownA w) = w) as E by by destruct w.
  rewrite <-E at 2. apply (idle_simulates w _ AList); [done|done|]. cbn. do 2 f_equal. apply sortStrings_perm. rewrite Hm.
  unfold abs. rewrite dom_fmap_L. apply NoDup_Permutation; [apply NoDup_elements|apply NoDup_fst_map_to_list|].
  intros id. rewrite elem_of_elements, elem_of_dom, list_elem_of_fmap. split.
  - intros [p Hp]. exists (id, p). by rewrite elem_of_map_to_list.
  - intros ([id' p] & -> & Hp). apply elem_of_map_to_list in Hp. cbn. by rewrite Hp.
Qed.

(** ** Forks *)

Lemma upto_prefix from (ms : list (option M)) l : upto from ms = Ok (Some l) → l `prefix_of` ms.
Proof.
  revert l. induction ms as [|[m|] ms IH]; intros l; cbn; [done| |done]. case_decide as Hd.
  - intros [= <-]. by exists ms.
  - destruct (upto from ms) as [[l'|]|] eqn:E; cbn; try done. intros [= <-]. apply prefix_cons. by apply IH.
Qed.

Lemma cutoff_loop_upto from i (ms : list (option M)) :
  cutoff_loop from i ms = rmap (from_option (λ l, i + length l) 0) (upto from ms).
Proof.
  revert i. induction ms as [|[m|] ms IH]; intros i; [done| |done]. cbn. unfold bytes_eqb.
  case_bool_decide; case_decide; try done. rewrite IH. destruct (upto from ms) as [[l|]|]; cbn; try done. f_equal. lia.
Qed.

(** The index the loop computes cuts the branch off. *)
Lemma cutoff_branch from (ms : list (option M)) :
  match cutoff from ms with
  | Ok n => n ≤ length ms ∧ branch from ms = Ok (take n ms)
  | Err e => branch from ms = Err e
  end.
Proof.
  unfold cutoff, branch, bytes_eqb. case_bool_decide; case_decide; try done; [by rewrite take_ge|].
  rewrite cutoff_loop_upto. destruct (upto from ms) as [[l|]|] eqn:E; cbn; [|by split; [lia|]|done].
  apply upto_prefix in E as [k ->]. rewrite length_app, take_app_length. split; [lia|done].
Qed.

Lemma newSessionID_length buf : length (buf ≫= hexDigits 2) = 2 * length buf.
Proof. induction buf as [|b buf IH]; [done|]. rewrite bind_cons, length_app, IH. cbn. lia. Qed.

Lemma newSessionID_nonempty buf id : length buf = 8 → newSessionID (Some buf) = Some id → id ≠ [].
Proof. intros Hl [= <-]. destruct buf; [done|]. done. Qed.

(** The two sessions [Fork] makes, one for the store and one for the caller: equal,
    new, and with arrays of their own. *)
Lemma fork_cells newID sid sl (h : heap (M := M)) :
  bounded h → good h sl →
  let '(h1, ms) := slices_Clone growslice sl h in
  let '(h2, pf) := newCell (MkSession newID sid ms None) h1 in
  let '(h3, pc) := shallowCopySession growslice pf h2 in
  bounded h3 ∧ frame ∅ ∅ h h3 ∧ fresh h ≤ pf < pc ∧ good h3 ms ∧ elems h3 ms = elems h sl ∧
  cells h3 !! pf = Some (MkSession newID sid ms None) ∧ (∀ a, a ∈ footprint ms → fresh h ≤ a) ∧
  ∃ ms', cells h3 !! pc = Some (MkSession newID sid ms' None) ∧ good h3 ms' ∧ elems h3 ms' = elems h sl ∧
    footprint ms' ## footprint ms ∧ (∀ a, a ∈ footprint ms' → fresh h ≤ a).
Proof.
  intros Hb Hg. pose proof (clone_spec growslice sl h Hb Hg) as Hc.
  destruct (slices_Clone _ _ _) as [h1 ms]. destruct Hc as (Hb1 & Hf1 & Ec1 & Hg1 & He1 & Ha1).
  set (sf := MkSession newID sid ms None). pose proof (newCell_spec sf h1 Hb1) as Hc.
  destruct (newCell sf h1) as [h2 pf]. destruct Hc as (Hb2 & Hf2 & P2 & Epf & Efr & Ear).
  pose proof (good_frame _ _ _ _ ms Hf2 Hg1) as Hg2. pose proof (frame_fresh _ _ _ _ Hf1) as Hfr1.
  assert (elems h2 ms = elems h sl) as Ee2.
  { rewrite (elems_frame _ _ _ _ ms Hb1 Hf2 Hg1) by set_solver. exact He1. }
  pose proof (shallowCopySession_spec growslice pf sf h2 Hb2 P2 Hg2) as Hc.
  destruct (shallowCopySession _ _ _) as [h3 pc]. destruct Hc as (Hb3 & Hf3 & Hpc & ms' & P3 & Hg3 & He3 & Ha3).
  split_and!; [done| | | | | | |done|exists ms'; split_and!; try done].
  - eapply frame_none_trans; [done|exact Hf1|]. by eapply frame_none_trans.
  - lia.
  - lia.
  - exact (good_frame _ _ _ _ ms Hf3 Hg2).
  - rewrite (elems_frame _ _ _ _ ms Hb2 Hf3 Hg2) by set_solver. done.
  - rewrite (frame_cells _ _ _ _ Hf3); [done|lia|set_solver].
  - cbn in He3. by rewrite He3.
  - intros a H1 H2. apply Ha3 in H1. apply (good_fresh h1) in H2; [lia|done|done].
  - intros a H1%Ha3. lia.
Qed.

Lemma Fork_simulates w sid from rand :
  wf w → may w (CFork sid from rand) = true →
  let '(w', r) := perform growslice w (CFork sid from rand) in simulates w (CFork sid from rand) w' r.
Proof.
  intros Hw Hm. cbn. unfold Fork. destruct (sessions (st w) !! sid) as [p|] eqn:Hp.
  2:{ apply (missing_simulates w _ (AFork sid from rand)); [done|done|done|]. cbn. by intros ->. }
  assert (abs w !! sid = Some (value (hp (st w)) p)) as Hab by by rewrite abs_lookup, Hp.
  destruct (wf_entry w Hw sid p Hp) as (s & P & _ & _ & _ & Hg & _).
  assert (deref (hp (st w)) p = s) as Ed by (unfold deref; by rewrite P).
  assert (∀ m r, afork (abs w) sid from rand (value (hp (st w)) p) = (m, r) → aexec (abs w) (AFork sid from rand) = (m, r)) as Hae
    by (intros m r Hm'; cbn; by rewrite Hab).
  unfold afork in Hae. assert (aMessages (value (hp (st w)) p) = elems (hp (st w)) (Messages s)) as Em by (unfold value; by rewrite Ed).
  rewrite Em in Hae. rewrite !Ed. pose proof (cutoff_branch from (elems (hp (st w)) (Messages s))) as Hcut.
  destruct (cutoff from _) as [n|e].
  2:{ rewrite Hcut in Hae. apply (idle_simulates w _ (AFork sid from rand)); [done|done|]. by apply Hae. }
  destruct Hcut as [Hn Hbr]. rewrite Hbr in Hae. rewrite length_elems in Hn by done.
  destruct (newSessionID rand) as [newID|] eqn:Eid.
  2:{ apply (idle_simulates w _ (AFork sid from rand)); [done|done|]. by apply Hae. }
  assert (newID ≠ []) as Hnew.
  { destruct rand as [buf|]; [|done]. cbn in Hm. apply Nat.eqb_eq in Hm. by eapply newSessionID_nonempty. }
  pose proof (fork_cells newID sid (reslice n (Messages s)) (hp (st w)) (wf_bounded w Hw)) as Hc.
  destruct (slices_Clone _ _ _) as [h1 ms]. destruct (newCell _ h1) as [h2 pf]. destruct (shallowCopySession _ _ _) as [h pc].
  destruct Hc as (Hb & Hf & Hlt & Hgf & Hef & Pf & Haf & ms' & Pc & Hgc & Hec & Hdis & Hac); [by apply good_reslice|].
  rewrite elems_reslice in Hef, Hec by done. destruct (own_fresh w Hw) as [HoC HoA].
  destruct (wf_none w h Hw Hb Hf) as [Hw1 Ea1]. set (w1 := World _ _ _) in Hw1, Ea1.
  assert (∀ id' q, sessions (st w) !! id' = Some q → q < fresh (hp (st w)) ∧
    (∀ a, a ∈ footprint (Messages (deref h q)) → a < fresh (hp (st w)))) as Hold.
  { intros id' q Hq. rewrite (entry_deref _ _ w h id' q Hw Hf Hq) by set_solver. by eapply entry_fresh. }
  destruct (wf_insert w1 pf _ Hw1 Pf) as [Hw2 Ea2]; try done.
  { cbn. intros H1%HoC. lia. }
  { cbn. intros a H1 H2. apply Haf in H1. apply HoA in H2. lia. }
  { cbn. intros id' q Hq a H1 H2. destruct (Hold id' q Hq) as [_ Hl]. apply Haf in H1. apply Hl in H2. lia. }
  set (w2 := World _ _ _) in Hw2, Ea2. destruct (wf_grant w2 pc _ Hw2 Pc Hgc) as [Hw3 Ea3].
  { cbn. intros id' q Hq. destruct (decide (id' = newID)) as [->|Hne].
    - rewrite lookup_insert_eq in Hq. injection Hq as <-. split; [lia|]. unfold deref. by rewrite Pf.
    - rewrite lookup_insert_ne in Hq by done. destruct (Hold id' q Hq) as [Hl Hl']. split; [lia|].
      intros a H1 H2. apply Hac in H1. apply Hl' in H2. lia. }
  split; [exact Hw3|]. cbn [acall_of]. split.
  - apply Hae. f_equal.
    + symmetry. etrans; [exact Ea3|]. etrans; [exact Ea2|]. cbn [ID]. rewrite Ea1. f_equal. unfold value, deref. cbn. rewrite Pf. cbn. by rewrite Hef.
    + cbn. f_equal. unfold value, deref. rewrite Pc. cbn. by rewrite Hec.
  - intros q Hq. eapply own_values; [done|exact Hf|set_solver|set_solver|done].
Qed.

(** ** What callers do with their own memory *)

Lemma New_simulates w sess :
  wf w → may w (CNew sess) = true →
  let '(w', r) := perform growslice w (CNew sess) in simulates w (CNew sess) w' r.
Proof.
  intros Hw Hm. cbn in Hm. apply bool_decide_eq_true in Hm as [Hg Hi]. cbn [perform].
  pose proof (newCell_spec sess (hp (st w)) (wf_bounded w Hw)) as Hc.
  destruct (newCell sess (hp (st w))) as [h p]. destruct Hc as (Hb & Hf & P & -> & _ & _).
  destruct (wf_none w h Hw Hb Hf) as [Hw1 Ea1]. set (w1 := World _ _ _) in Hw1, Ea1.
  destruct (wf_grant w1 _ _ Hw1 P) as [Hw2 Ea2].
  { exact (good_frame _ _ _ _ _ Hf Hg). }
  { cbn. intros id q Hq. pose proof (entry_fresh w id q Hw Hq) as [Hlt _]. split; [lia|].
    rewrite (entry_deref _ _ w h id q Hw Hf Hq) by set_solver.
    destruct (wf_entry w Hw id q Hq) as (s & Q & _ & _ & _ & _ & Hd). unfold deref. rewrite Q. cbn. set_solver. }
  split; [exact Hw2|]. cbn. etrans; [exact Ea2|exact Ea1].
Qed.

Lemma Make_simulates w l :
  wf w → let '(w', r) := perform growslice w (CMake l) in simulates w (CMake l) w' r.
Proof.
  intros Hw. cbn [perform]. pose proof (newArray_spec l (hp (st w)) (wf_bounded w Hw)) as Hc.
  destruct (newArray l (hp (st w))) as [h a]. destruct Hc as (Hb & Hf & E & -> & _ & _).
  destruct (wf_none w h Hw Hb Hf) as [[_ He Hs Ho HoA] Ea1]. split; [split|exact Ea1]; cbn in *.
  - done.
  - intros id p Hp. destruct (He id p Hp) as (s & P & ? & ? & ? & Hg & Hd). exists s. split_and!; try done.
    destruct (wf_entry w Hw id p Hp) as (s' & P' & _). pose proof (entry_fresh w id p Hw Hp) as [_ Hlt].
    assert (deref (hp (st w)) p = s) as Ed.
    { rewrite <-(entry_deref _ _ w h id p Hw Hf Hp) by set_solver. unfold deref. by rewrite P. }
    rewrite Ed in Hlt. intros b Hb1. rewrite elem_of_union, elem_of_singleton. intros [->|Hb2]; [|by eapply Hd]. apply Hlt in Hb1. lia.
  - exact Hs.
  - intros p (s & P & Hg & Hi)%Ho. exists s. split; [done|]. split; [done|]. cbn in *. set_solver.
  - intros b. rewrite elem_of_union, elem_of_singleton. intros [->|Hb']; [by rewrite E|by apply HoA].
Qed.

Lemma Assign_simulates w p sess :
  wf w → may w (CAssign p sess) = true →
  let '(w', r) := perform growslice w (CAssign p sess) in simulates w (CAssign p sess) w' r.
Proof.
  intros Hw Hm. cbn in Hm. apply andb_prop in Hm as [Hp Hm]. apply bool_decide_eq_true in Hp, Hm. destruct Hm as [Hg Hi].
  destruct (wf_own w Hw p Hp) as (s0 & P0 & _). cbn [perform].
  destruct (setCell_frame p s0 sess (hp (st w)) (wf_bounded w Hw) P0) as [Hb Hf].
  apply (wf_frame {[p]} ∅ w _ Hw Hb Hf); [set_solver|set_solver|].
  intros q ->%elem_of_singleton. exists sess. split_and!; [cbn; by rewrite lookup_insert_eq|exact (good_frame _ _ _ _ _ Hf Hg)|done].
Qed.

Lemma Write_simulates w sl i m :
  wf w → may w (CWrite sl i m) = true →
  let '(w', r) := perform growslice w (CWrite sl i m) in simulates w (CWrite sl i m) w' r.
Proof.
  intros Hw Hm. cbn in Hm. apply andb_prop in Hm as [Hm Hlt%Nat.ltb_lt]. apply bool_decide_eq_true in Hm as [Hg Hi]. cbn [perform].
  unfold good in Hg. destruct (arrays (hp (st w)) !! arr sl) as [l|] eqn:E; [|done]. unfold array. rewrite E. cbn [default].
  destruct (setArray_frame (arr sl) l (<[i:=m]> l) (hp (st w)) (wf_bounded w Hw) E) as [Hb Hf]; [apply length_insert|].
  apply (wf_frame ∅ {[arr sl]} w _ Hw Hb Hf); [set_solver| |set_solver]. unfold footprint in Hi.
  destruct (scap sl =? 0) eqn:Ec; [apply Nat.eqb_eq in Ec; lia|set_solver].
Qed.

(** The bytes behind [Raw] are no part of what the map holds. *)
Lemma raw_simulates w n rw c :
  wf w → fresh (hp (st w)) ≤ n → acall_of w c = None →
  simulates w c (World (Store (Heap (cells (hp (st w))) (arrays (hp (st w))) n rw) (sessions (st w))) (ownC w) (ownA w)) RDone.
Proof.
  intros Hw Hn Hc. unfold simulates. rewrite Hc. destruct (wf_bounded w Hw) as [Hbc Hba]. apply wf_none; [done| |].
  - split; cbn; [intros p x E%Hbc|intros a l E%Hba]; lia.
  - split; cbn; [done|done|done|]. intros a l E. by exists l.
Qed.

(** No call of the store writes to those bytes. *)
Lemma append_raws s (xs : list (option M)) h : raws (append growslice s xs h).1 = raws h.
Proof. unfold append. destruct (_ <=? _), s; done. Qed.

Lemma copy_raws p (h : heap (M := M)) : raws (shallowCopySession growslice p h).1 = raws h.
Proof.
  unfold shallowCopySession, slices_Clone. destruct (Messages (deref h p)); [|done].
  pose proof (append_raws (emptied (Some s)) (elems h (Some s)) h) as Ha. by destruct (append _ _ _ _).
Qed.

Lemma call_raws w c a :
  acall_of w c = Some a → raws (hp (st (perform growslice w c).1)) = raws (hp (st w)).
Proof.
  intros Ha. destruct c as [id|p|id ms|order|id|sid from rand|id| | | | | |]; try done; cbn.
  - unfold Load. destruct (sessions (st w) !! id) as [p|]; [|done].
    pose proof (copy_raws p (hp (st w))) as Hr. by destruct (shallowCopySession _ _ _).
  - unfold Save. destruct p as [p|]; [|done]. destruct (bytes_eqb _ _); [done|].
    pose proof (copy_raws p (hp (st w))) as Hr. by destruct (shallowCopySession _ _ _).
  - unfold Append. destruct (sessions (st w) !! id) as [p|]; [|done].
    pose proof (append_raws (Messages (deref (hp (st w)) p)) (elems (hp (st w)) ms) (hp (st w))) as Hr. by destruct (append _ _ _ _).
  - unfold Delete. by destruct (sessions (st w) !! id).
  - unfold Fork. destruct (sessions (st w) !! sid) as [p|]; [|done]. destruct (cutoff _ _) as [n|]; [|done].
    destruct (newSessionID rand) as [newID|]; [|done]. unfold slices_Clone.
    pose proof (append_raws (emptied (reslice n (Messages (deref (hp (st w)) p))))
      (elems (hp (st w)) (reslice n (Messages (deref (hp (st w)) p)))) (hp (st w))) as Hr.
    destruct (append _ _ _ _) as [h ms]. destruct (newCell _ h) as [h1 p1] eqn:E. unfold newCell in E. injection E as <- <-.
    match goal with |- context [shallowCopySession growslice ?x ?y] => pose proof (copy_raws x y) as Hc end.
    destruct (shallowCopySession _ _ _). cbn in *. congruence.
Qed.

Lemma step_simulates w c w' r : wf w → exec growslice w c = Some (w', r) → simulates w c w' r.
Proof.
  intros Hw He. unfold exec in He. destruct (may w c) eqn:Hm; [|done]. injection He as Hp. revert Hp.
  assert (∀ o, perform growslice w c = o → (let '(w1, r1) := o in simulates w c w1 r1) → perform growslice w c = (w', r) → simulates w c w' r) as Hgo
    by (intros [w1 r1] E Hs E'; rewrite E in E'; injection E' as <- <-; exact Hs).
  apply (Hgo _ eq_refl). clear Hgo. destruct c.
  - by apply Load_simulates.
  - by apply Save_simulates.
  - by apply Append_simulates.
  - by apply List_simulates.
  - by apply Delete_simulates.
  - by apply Fork_simulates.
  - by apply Summary_simulates.
  - by apply New_simulates.
  - by apply Make_simulates.
  - by apply Assign_simulates.
  - by apply Write_simulates.
  - apply raw_simulates; [done|apply Nat.le_succ_diag_r|done].
  - by apply raw_simulates.
Qed.

Lemma init_wf : wf (M := M) init.
Proof. split; cbn; try done; set_solver. Qed.

Lemma reachable_wf w : reachable growslice w → wf w.
Proof. induction 1 as [|w c w' r _ IH He]; [apply init_wf|]. by destruct (step_simulates w c w' r IH He). Qed.

(** ** Properties *)

(** C16: whatever callers do to the sessions and slices they hold, before and after
    passing them to the store, the store answers as a map of session values, in which
    [Raw] is a reference to bytes that copies share: each call acts on the map and returns
    what the map holds at that moment; writes of a caller to its own sessions and message
    slices, and to the bytes behind any [Raw], leave the map as it is; and no call of the
    store changes a session that a caller holds or the bytes behind a [Raw]. *)
Theorem store_refines w c w' r :
  reachable growslice w → exec growslice w c = Some (w', r) →
  match acall_of w c with
  | Some a => aexec (abs w) a = (abs w', areply_of w' r) ∧
      (∀ p, p ∈ ownC w → value (hp (st w')) p = value (hp (st w)) p) ∧
      (∀ s, rawBytes (hp (st w')) s = rawBytes (hp (st w)) s)
  | None => abs w' = abs w
  end.
Proof.
  intros Hr He. destruct (step_simulates w c w' r (reachable_wf w Hr) He) as [_ Hs].
  destruct (acall_of w c) as [a|] eqn:Ea; [|done]. destruct Hs as [H1 H2]. split_and!; [done|done|].
  pose proof (call_raws w c a Ea) as Hraw. unfold exec in He. destruct (may w c); [|done]. injection He as He.
  rewrite He in Hraw. cbn in Hraw. intros s. unfold rawBytes. by rewrite Hraw.
Qed.

(** The branch at a message: what comes before it, and the message. *)
Lemma branch_at from pre m (post : list (option M)) :
  from ≠ [] → messageID m = from → Forall (λ o, ∃ m', o = Some m' ∧ messageID m' ≠ from) pre →
  branch from (pre ++ Some m :: post) = Ok (pre ++ [Some m]).
Proof.
  intros Hne Em Hpre. unfold branch. rewrite decide_False by done.
  enough (upto from (pre ++ Some m :: post) = Ok (Some (pre ++ [Some m]))) as -> by done.
  induction Hpre as [|o pre (m' & -> & Hm') _ IH]; cbn; [by rewrite decide_True|]. rewrite decide_False, IH by done. done.
Qed.

(** [Fork] at a message creates one session, under an identifier of sixteen
    hexadecimal digits, with the messages of its parent up to and including the first
    one that carries the identifier; every other session stays as it is, and the
    caller gets the value that is stored. *)
Theorem fork_branches w sid src from pre m post buf w' r :
  reachable growslice w → abs w !! sid = Some src →
  aMessages src = pre ++ Some m :: post → from ≠ [] → messageID m = from →
  Forall (λ o, ∃ m', o = Some m' ∧ messageID m' ≠ from) pre →
  exec growslice w (CFork sid from (Some buf)) = Some (w', r) →
  let newID := buf ≫= hexDigits 2 in
  let forked := ASess newID sid (pre ++ [Some m]) None in
  length newID = 16 ∧ abs w' !! newID = Some forked ∧
  (∀ id, id ≠ newID → abs w' !! id = abs w !! id) ∧
  ∃ p, r = RSession p ∧ value (hp (st w')) p = forked.
Proof.
  intros Hr Hs Hm Hne Em Hpre He newID forked.
  destruct (step_simulates w _ w' r (reachable_wf w Hr) He) as [_ [Ha _]]. cbn in Ha.
  unfold exec, may in He. destruct (length buf =? 8) eqn:Hl; [apply Nat.eqb_eq in Hl|done].
  rewrite Hs in Ha. unfold afork in Ha. rewrite Hm, branch_at in Ha by done. cbn in Ha. fold newID forked in Ha.
  injection Ha as Ea Er. split_and!.
  - unfold newID. by rewrite newSessionID_length, Hl.
  - by rewrite <-Ea, lookup_insert_eq.
  - intros id Hid. by rewrite <-Ea, lookup_insert_ne.
  - destruct r as [p| | | |]; try done. exists p. split; [done|]. change (ASession forked = ASession (value (hp (st w')) p)) in Er. congruence.
Qed.
End refinement.

(** ** Runs *)

#[export] Instance text_message : Message bytes := λ m, m.

(** Calls from the start; [None] when one of them cannot be made. *)
Fixpoint run (w : world (M := bytes)) (cs : list call) : option (world * list reply) :=
  match cs with
  | [] => Some (w, [])
  | c :: cs =>
      match exec (λ _ n, 2 * n) w c with
      | Some (w, r) => match run w cs with Some (w, rs) => Some (w, r :: rs) | None => None end
      | None => None
      end
  end.

Lemma run_reachable cs w w' rs : reachable (λ _ n, 2 * n) w → run w cs = Some (w', rs) → reachable (λ _ n, 2 * n) w'.
Proof.
  revert w rs. induction cs as [|c cs IH]; intros w rs Hr; cbn; [by intros [= <- _]|].
  destruct (exec _ w c) as [[w1 r]|] eqn:E; [|done]. destruct (run w1 cs) as [[w2 rs']|] eqn:E2; [|done].
  intros [= <- _]. eapply IH; [|exact E2]. by eapply reach_step.
Qed.

(** A caller makes two messages and a session [s], saves it, and then writes over
    its first message. *)
Definition setup : list call :=
  let sl := MkSlice 0 2 2 in
  [CMake [Some (str "m1"); Some (str "m2")]; CNew (MkSession (str "s") [] (Some sl) None); CSave (Some 1);
   CWrite sl 0 (Some (str "other"))].

Definition setup_world : world := default init (fst <$> run init setup).

Lemma setup_reachable : reachable (λ _ n, 2 * n) setup_world.
Proof. eapply (run_reachable setup init); [apply reach_init|]. vm_compute. reflexivity. Qed.

(** A caller keeps access to the bytes behind the [Raw] of a session it saved: a write to
    them shows in what the store holds and hands out. *)
Definition raw_calls : list (call (M := bytes)) :=
  let sl := MkSlice 0 2 2 in
  [CMakeRaw (str "{}"); CNew (MkSession (str "s") [] None (Some sl)); CSave (Some 1); CWriteRaw sl 0 91%Z; CLoad (str "s")].

Definition raw_world : world := default init (fst <$> run init raw_calls).

Theorem raw_is_shared :
  reachable (λ _ n, 2 * n) raw_world ∧
  (λ v, rawBytes (hp (st raw_world)) (aRaw v)) <$> abs raw_world !! str "s" = Some (str "[}").
Proof.
  split; [|by vm_compute]. eapply (run_reachable raw_calls init); [apply reach_init|]. vm_compute. reflexivity.
Qed.

Definition buf8 : bytes := [1; 35; 69; 103; 137; 171; 205; 239]%Z.

Lemma store_refines_witness :
  ∃ w r, exec (λ _ n, 2 * n) setup_world (CLoad (str "s")) = Some (w, r) ∧
  areply_of w r = ASession (ASess (str "s") [] [Some (str "m1"); Some (str "m2")] None) ∧
  aexec (abs setup_world) (ALoad (str "s")) = (abs w, areply_of w r).
Proof.
  destruct (exec (λ _ n, 2 * n) setup_world (CLoad (str "s"))) as [[w r]|] eqn:E; [|vm_compute in E; discriminate E].
  exists w, r. pose proof (store_refines _ setup_world (CLoad (str "s")) w r setup_reachable E) as [Ha _].
  split; [reflexivity|]. split; [|exact Ha]. vm_compute in E. injection E as <- <-. reflexivity.
Defined.

Lemma fork_branches_witness :
  ∃ w r, exec (λ _ n, 2 * n) setup_world (CFork (str "s") (str "m1") (Some buf8)) = Some (w, r) ∧
  abs w !! str "0123456789abcdef" = Some (ASess (str "0123456789abcdef") (str "s") [Some (str "m1")] None) ∧
  abs w !! str "s" = abs setup_world !! str "s".
Proof.
  destruct (exec (λ _ n, 2 * n) setup_world (CFork (str "s") (str "m1") (Some buf8))) as [[w r]|] eqn:E; [|vm_compute in E; discriminate E].
  exists w, r. split; [reflexivity|].
  destruct (fork_branches _ setup_world (str "s") (ASess (str "s") [] [Some (str "m1"); Some (str "m2")] None) (str "m1")
    [] (str "m1") [Some (str "m2")] buf8 w r setup_reachable) as (_ & Hf & Ho & _);
    [by vm_compute|reflexivity|discriminate|reflexivity|constructor|exact E|].
  split; [exact Hf|]. apply Ho. vm_compute. discriminate.
Defined.
End SessionStore.
