(* ===== verification/ClaudeControl.v ===== *)
(** The control protocol of pkg/llm/claude (control_protocol.go): requests to the
    CLI, matched with its responses by identifier, and requests of the CLI, each
    handled by a goroutine that can be cancelled.

    The goroutines are threads of a step relation: callers of [sendControlRequest],
    the read loop of client.go that calls [route], one handler per request of the
    CLI, and [Close].  A step is a critical section, a channel operation or a write;
    what the CLI, the transport, the timers and the user's callbacks do is part of
    the event.  Decoding and encoding of JSON are parameters. *)
From S2P Require Import Prelude GoUtf8 GoStrconv GoQuote.

Module Control.

(** [controlResult]: a response, or the message of a [CLIConnectionError]. *)
Inductive controlResult :=
| Response (v : bytes)
| CLIConnectionError (msg : bytes).

(** What [sendControlRequest] returns: a result of the channel, or one of its other
    exits. *)
Inductive sendResult :=
| Received (r : controlResult)
| MarshalFailed
| WriteFailed (e : nat)
| TimedOut (subtype : bytes)
| Cancelled.

(** [controlResponseEnvelope]. *)
Record controlResponseEnvelope := Env { RequestID : bytes; Subtype : bytes; Response_ : bytes; Error : bytes }.

(** A caller of [sendControlRequest]; its thread is also its channel. *)
Inductive sender_pc :=
| SRegister (body : bytes)
| SWrite (body : bytes)
| SWait
| SReap (r : sendResult)
| SDone (r : sendResult).

Record sender := Sender { s_n : Z; s_id : bytes; s_subtype : bytes; s_pc : sender_pc }.

(** A handler goroutine: what it runs, then its deferred calls. *)
Inductive handler_pc :=
| HRun
| HReply (r : controlResult)
| HDelete
| HCancel
| HWait
| HDone.

(** [h_done]: the context of the request is cancelled. *)
Record handler := Handler { h_id : bytes; h_body : bytes; h_done : bool; h_pc : handler_pc }.

(** The read loop: between lines, about to send a result or to call a cancel
    function, failing the pending requests, returned. *)
Inductive reader_pc :=
| RIdle
| RSend (ch : nat) (r : controlResult)
| RCancel (h : nat)
| RFail (chans : list nat) (r : controlResult)
| RDone.

(** [Close]: not called, calling the cancel functions, waiting for the handlers,
    failing the pending requests, past them.  The flag is what [waitInflight] said. *)
Inductive closer_pc :=
| CIdle
| CCancel (hs : list nat)
| CWait
| CFail (drained : bool) (chans : list nat) (r : controlResult)
| CDone (drained : bool).

(** What is written to the CLI: a request, or the response to one of its requests. *)
Inductive wire :=
| WRequest (t : nat) (body : bytes)
| WResponse (h : nat) (id : bytes) (r : controlResult).

(** The protocol with its threads.  [parent]: the context of the session is done;
    [messages]: the lines passed on to the consumer. *)
Record controlProtocol := CP {
  pending : gmap bytes nat;
  chans : gmap nat (option controlResult);
  counter : Z;
  inflight : gmap bytes nat;
  closed : bool;
  handlerWG : Z;
  parent : bool;
  senders : gmap nat sender;
  handlers : list handler;
  reader : reader_pc;
  closer : closer_pc;
  messages : list bytes;
  written : list wire;
}.

Definition newControlProtocol : controlProtocol :=
  CP ∅ ∅ 0 ∅ false 0 false ∅ [] RIdle CIdle [] [].

Definition setPending p s := CP p (chans s) (counter s) (inflight s) (closed s) (handlerWG s) (parent s) (senders s) (handlers s) (reader s) (closer s) (messages s) (written s).
Definition setChans c s := CP (pending s) c (counter s) (inflight s) (closed s) (handlerWG s) (parent s) (senders s) (handlers s) (reader s) (closer s) (messages s) (written s).
Definition setCounter n s := CP (pending s) (chans s) n (inflight s) (closed s) (handlerWG s) (parent s) (senders s) (handlers s) (reader s) (closer s) (messages s) (written s).
Definition setInflight f s := CP (pending s) (chans s) (counter s) f (closed s) (handlerWG s) (parent s) (senders s) (handlers s) (reader s) (closer s) (messages s) (written s).
Definition setClosed s := CP (pending s) (chans s) (counter s) (inflight s) true (handlerWG s) (parent s) (senders s) (handlers s) (reader s) (closer s) (messages s) (written s).
Definition addWG n s := CP (pending s) (chans s) (counter s) (inflight s) (closed s) (handlerWG s + n)%Z (parent s) (senders s) (handlers s) (reader s) (closer s) (messages s) (written s).
Definition setParent s := CP (pending s) (chans s) (counter s) (inflight s) (closed s) (handlerWG s) true (senders s) (handlers s) (reader s) (closer s) (messages s) (written s).
Definition setSender t x s := CP (pending s) (chans s) (counter s) (inflight s) (closed s) (handlerWG s) (parent s) (<[t := x]> (senders s)) (handlers s) (reader s) (closer s) (messages s) (written s).
Definition setHandlers hs s := CP (pending s) (chans s) (counter s) (inflight s) (closed s) (handlerWG s) (parent s) (senders s) hs (reader s) (closer s) (messages s) (written s).
Definition setReader r s := CP (pending s) (chans s) (counter s) (inflight s) (closed s) (handlerWG s) (parent s) (senders s) (handlers s) r (closer s) (messages s) (written s).
Definition setCloser c s := CP (pending s) (chans s) (counter s) (inflight s) (closed s) (handlerWG s) (parent s) (senders s) (handlers s) (reader s) c (messages s) (written s).
Definition pass line s := CP (pending s) (chans s) (counter s) (inflight s) (closed s) (handlerWG s) (parent s) (senders s) (handlers s) (reader s) (closer s) (messages s ++ [line]) (written s).
Definition emit x s := CP (pending s) (chans s) (counter s) (inflight s) (closed s) (handlerWG s) (parent s) (senders s) (handlers s) (reader s) (closer s) (messages s) (written s ++ [x]).

(** [cancel()] of handler [h], and the program point of a thread. *)
Definition cancel (h : nat) (s : controlProtocol) : controlProtocol :=
  setHandlers (alter (λ x, Handler (h_id x) (h_body x) true (h_pc x)) h (handlers s)) s.
Definition goHandler (h : nat) (pc : handler_pc) (s : controlProtocol) : controlProtocol :=
  setHandlers (alter (λ x, Handler (h_id x) (h_body x) (h_done x) pc) h (handlers s)) s.
Definition goSender (t : nat) (x : sender) (pc : sender_pc) (s : controlProtocol) : controlProtocol :=
  setSender t (Sender (s_n x) (s_id x) (s_subtype x) pc) s.

(** [select { case ch <- res: default: }] on a channel of capacity one. *)
Definition trySend (t : nat) (r : controlResult) (s : controlProtocol) : controlProtocol :=
  match chans s !! t with
  | Some None => setChans (<[t := Some r]> (chans s)) s
  | _ => s
  end.

#[export] Instance controlResult_eq : EqDecision controlResult.
Proof. solve_decision. Defined.
#[export] Instance sendResult_eq : EqDecision sendResult.
Proof. solve_decision. Defined.

(** [counter.Add(1)] at 64 bits, and the random suffix, zeros when the read fails. *)
Definition newRequestID (n : Z) (rand : option bytes) : bytes :=
  str "req_" ++ utoa n ++ str "_" ++ match rand with Some b => b ≫= hexDigits 2 | None => str "00000000" end.

Definition nextCounter (n : Z) : Z := ((n + 1) mod 2 ^ 64)%Z.

(** [failPending]'s message; the cause is the text of the read error, if any. *)
Definition disconnected (cause : option bytes) : controlResult :=
  CLIConnectionError ([DQUOTE] ++ str "claude" ++ [DQUOTE] ++ str " disconnected" ++ match cause with Some e => str ": " ++ e | None => [] end).

(** What the sources use of the JSON package: the types, identifiers and bodies it
    finds in a line, [None] for an error, and the text of a request. *)
Class Codec := {
  peekType : bytes → option bytes;
  decodeResponse : bytes → option controlResponseEnvelope;
  decodeRequest : bytes → option (bytes * bytes);
  decodeCancel : bytes → option bytes;
  decodeHead : bytes → option bytes;
  marshalRequest : bytes → bytes → bytes → option bytes;
}.

Section control.
Context `{Codec}.

(** ** The read loop *)

Definition resultOf (env : controlResponseEnvelope) : controlResult :=
  if bytes_eqb (Subtype env) (str "error") then
    CLIConnectionError (if bytes_eqb (Error env) [] then str "unknown error" else Error env)
  else Response (Response_ env).

Definition routeControlResponse (line : bytes) (s : controlProtocol) : controlProtocol :=
  match decodeResponse line with
  | None => s
  | Some env =>
      if bytes_eqb (RequestID env) [] then s
      else match pending s !! RequestID env with
        | None => s
        | Some ch => setReader (RSend ch (resultOf env)) s
        end
  end.

(** The context and the critical section; the goroutine starts at [HRun]. *)
Definition spawnControlRequest (line : bytes) (s : controlProtocol) : controlProtocol :=
  match decodeRequest line with
  | None => s
  | Some (id, body) =>
      if bytes_eqb id [] then s
      else if closed s then s
      else addWG 1 (setHandlers (handlers s ++ [Handler id body false HRun])
        (setInflight (<[id := length (handlers s)]> (inflight s)) s))
  end.

Definition cancelControlRequest (line : bytes) (s : controlProtocol) : controlProtocol :=
  match decodeCancel line with
  | None => s
  | Some id =>
      if bytes_eqb id [] then s
      else match inflight s !! id with
        | None => s
        | Some h => setReader (RCancel h) (setInflight (delete id (inflight s)) s)
        end
  end.

(** [readLoop]'s push of a line it does not consume, which fails when the context is
    done; the loop then returns. *)
Definition push (line : bytes) (s : controlProtocol) : controlProtocol :=
  if parent s then setReader RDone s else pass line s.

(** [route], and the push of what it does not consume. *)
Definition route (line : bytes) (s : controlProtocol) : controlProtocol :=
  match peekType line with
  | None => push line s
  | Some t =>
      if bytes_eqb t (str "control_response") then routeControlResponse line s
      else if bytes_eqb t (str "control_request") then spawnControlRequest line s
      else if bytes_eqb t (str "control_cancel_request") then cancelControlRequest line s
      else if bytes_eqb t (str "transcript_mirror") then s
      else push line s
  end.

(** ** Requests to the CLI *)

(** Up to the registration: the identifier, and the body or a marshalling error. *)
Definition beginRequest (t : nat) (subtype payload : bytes) (rand : option bytes) (s : controlProtocol) : controlProtocol :=
  let n := nextCounter (counter s) in
  let id := newRequestID n rand in
  let pc := match marshalRequest id subtype payload with Some body => SRegister body | None => SDone MarshalFailed end in
  setSender t (Sender n id subtype pc) (setCounter n s).

(** ** Requests of the CLI *)

(** What the callbacks of a request come to: data, an error, or a panic. *)
Inductive outcome :=
| OData (v : bytes)
| OError (msg : bytes)
| OPanic (msg : bytes).

(** [dispatchControlSubtype]: the handlers of the three subtypes, or an error. *)
Definition dispatchControlSubtype (subtype : bytes) (o : outcome) : outcome :=
  if bytes_eqb subtype (str "can_use_tool") || bytes_eqb subtype (str "hook_callback") || bytes_eqb subtype (str "mcp_message") then o
  else OError (str "unsupported control request subtype: " ++ subtype).

Definition replyOf (o : outcome) : controlResult :=
  match o with
  | OData v => Response v
  | OError msg => CLIConnectionError msg
  | OPanic msg => CLIConnectionError (str "handler panic: " ++ msg)
  end.

(** Up to its write: a malformed request is answered at once; what the callback
    came to is answered unless the context is done by then. *)
Definition handleControlRequest (x : handler) (ctxDone : bool) (o : outcome) (malformed : bytes) : handler_pc :=
  match decodeHead (h_body x) with
  | None => HReply (CLIConnectionError (str "malformed control request: " ++ malformed))
  | Some subtype =>
      let o := dispatchControlSubtype subtype o in
      if ctxDone then HDelete else HReply (replyOf o)
  end.

(** ** Steps *)

Inductive event :=
| ESend (t : nat) (subtype payload : bytes) (rand : option bytes)
| ERegister (t : nat)
| EWrite (t : nat) (err : option nat)
| EReceive (t : nat)
| ETimeout (t : nat)
| EDone (t : nat)
| EReap (t : nat)
| ERead (line : bytes)
| ERouteSend
| ERouteCancel
| EReadError (cause : bytes) (order : list nat)
| EReaderFail
| EHandle (h : nat) (o : outcome) (malformed : bytes)
| EReply (h : nat) (ok : bool)
| EHandlerDelete (h : nat)
| EHandlerCancel (h : nat)
| EHandlerDone (h : nat)
| EParent
| EClose (order : list nat)
| ECloserCancel
| ECloserWait (drained : bool) (order : list nat)
| ECloserFail.

(** The values of a map in the order the iteration takes. *)
Definition values (m : gmap bytes nat) : list nat := (map_to_list m).*2.

Definition sender_step (t : nat) (e : event) (x : sender) (s : controlProtocol) : option controlProtocol :=
  match e, s_pc x with
  | ERegister _, SRegister body =>
      Some (goSender t x (SWrite body) (setChans (<[t := None]> (chans s)) (setPending (<[s_id x := t]> (pending s)) s)))
  | EWrite _ None, SWrite body => Some (goSender t x SWait (emit (WRequest t body) s))
  | EWrite _ (Some err), SWrite _ => Some (goSender t x (SReap (WriteFailed err)) s)
  | EReceive _, SWait =>
      match chans s !! t with
      | Some (Some r) => Some (goSender t x (SReap (Received r)) (setChans (<[t := None]> (chans s)) s))
      | _ => None
      end
  | ETimeout _, SWait => Some (goSender t x (SReap (TimedOut (s_subtype x))) s)
  | EDone _, SWait => Some (goSender t x (SReap Cancelled) s)
  | EReap _, SReap r => Some (goSender t x (SDone r) (setPending (delete (s_id x) (pending s)) s))
  | _, _ => None
  end.

Definition handler_step (h : nat) (e : event) (x : handler) (s : controlProtocol) : option controlProtocol :=
  match e, h_pc x with
  | EHandle _ o malformed, HRun => Some (goHandler h (handleControlRequest x (h_done x || parent s) o malformed) s)
  | EReply _ ok, HReply r =>
      Some (goHandler h HDelete (if ok then emit (WResponse h (h_id x) r) s else s))
  | EHandlerDelete _, HDelete => Some (goHandler h HCancel (setInflight (delete (h_id x) (inflight s)) s))
  | EHandlerCancel _, HCancel => Some (goHandler h HWait (cancel h s))
  | EHandlerDone _, HWait => Some (goHandler h HDone (addWG (-1) s))
  | _, _ => None
  end.

Definition reader_step (e : event) (s : controlProtocol) : option controlProtocol :=
  match e, reader s with
  | ERead line, RIdle => Some (route line s)
  | ERouteSend, RSend ch r => Some (setReader RIdle (trySend ch r s))
  | ERouteCancel, RCancel h => Some (setReader RIdle (cancel h s))
  | EReadError cause order, RIdle =>
      if decide (order ≡ₚ values (pending s)) then Some (setReader (RFail order (disconnected (Some cause))) s) else None
  | EReaderFail, RFail [] _ => Some (setReader RDone s)
  | EReaderFail, RFail (ch :: l) r => Some (setReader (RFail l r) (trySend ch r s))
  | _, _ => None
  end.

Definition closer_step (e : event) (s : controlProtocol) : option controlProtocol :=
  match e, closer s with
  | EClose order, CIdle =>
      if decide (order ≡ₚ values (inflight s)) then Some (setCloser (CCancel order) (setClosed s)) else None
  | ECloserCancel, CCancel [] => Some (setCloser CWait s)
  | ECloserCancel, CCancel (h :: l) => Some (setCloser (CCancel l) (cancel h s))
  | ECloserWait drained order, CWait =>
      if decide ((drained = true → handlerWG s = 0%Z) ∧ order ≡ₚ values (pending s))
      then Some (setCloser (CFail drained order (disconnected None)) s) else None
  | ECloserFail, CFail d [] _ => Some (setCloser (CDone d) s)
  | ECloserFail, CFail d (ch :: l) r => Some (setCloser (CFail d l r) (trySend ch r s))
  | _, _ => None
  end.

Definition step (s : controlProtocol) (e : event) : option controlProtocol :=
  match e with
  | ESend t subtype payload rand =>
      match senders s !! t with None => Some (beginRequest t subtype payload rand s) | Some _ => None end
  | ERegister t | EWrite t _ | EReceive t | ETimeout t | EDone t | EReap t =>
      match senders s !! t with Some x => sender_step t e x s | None => None end
  | EHandle h _ _ | EReply h _ | EHandlerDelete h | EHandlerCancel h | EHandlerDone h =>
      match handlers s !! h with Some x => handler_step h e x s | None => None end
  | ERead _ | ERouteSend | ERouteCancel | EReadError _ _ | EReaderFail => reader_step e s
  | EParent => Some (setParent s)
  | EClose _ | ECloserCancel | ECloserWait _ _ | ECloserFail => closer_step e s
  end.

Fixpoint run (s : controlProtocol) (tr : list event) : option controlProtocol :=
  match tr with
  | [] => Some s
  | e :: tr => match step s e with Some s => run s tr | None => None end
  end.

(** ** Runs *)

Lemma run_app s tr tr' : run s (tr ++ tr') = match run s tr with Some s' => run s' tr' | None => None end.
Proof. revert s. induction tr as [|e tr IH]; intros s; cbn; [done|]. destruct (step s e); [apply IH|done]. Qed.

(** Rule induction over the events of a run, with the events so far. *)
Lemma run_invariant (P : list event → controlProtocol → Prop) tr s :
  P [] newControlProtocol → (∀ tr s e s', P tr s → step s e = Some s' → P (tr ++ [e]) s') →
  run newControlProtocol tr = Some s → P tr s.
Proof.
  intros H0 Hs. revert s. induction tr as [|e tr IH] using rev_ind; intros s; [by intros [= <-]|].
  rewrite run_app. destruct (run newControlProtocol tr) as [s1|] eqn:E; [|done]. cbn.
  destruct (step s1 e) as [s2|] eqn:E2; [|done]. intros [= <-]. eapply Hs; [by apply IH|done].
Qed.

End control.
End Control.
