(* ===== verification/ClaudeControlSpec.v ===== *)
(** What the control protocol of pkg/llm/claude guarantees in every interleaving:
    responses reach the request they answer, no request waits for a CLI that is
    gone, and [Close] leaves no handler behind. *)
From S2P Require Import Prelude GoUtf8 GoStrconv GoQuote ClaudeControl.

Module ControlSpec.
Import Control.

(** Case analysis on everything a step depends on. *)
Ltac crack_step H :=
  unfold step, sender_step, handler_step, reader_step, closer_step, beginRequest, route, push, routeControlResponse,
    spawnControlRequest, cancelControlRequest, trySend in H;
  repeat (case_hyp H; try discriminate H); injection H as <-.

Ltac crack H := crack_step H; cbn.

(** ** Identifiers *)

(** The text up to a separator is determined when it has none itself. *)
Lemma separated_inj (c : Z) a a' b b' : Forall (λ x, x ≠ c) a → Forall (λ x, x ≠ c) a' → a ++ c :: b = a' ++ c :: b' → a = a'.
Proof.
  intros Ha. revert a'. induction Ha as [|x a Hx _ IH]; intros [|y a'] Ha' E; cbn in E.
  - done.
  - apply Forall_cons in Ha' as [Hy _]. congruence.
  - congruence.
  - apply Forall_cons in Ha' as [_ Ha']. injection E as -> E. f_equal. by apply IH.
Qed.

Lemma newRequestID_inj n n' r r' : (0 ≤ n)%Z → (0 ≤ n')%Z → newRequestID n r = newRequestID n' r' → n = n'.
Proof.
  intros Hn Hn' E. unfold newRequestID in E. apply app_inv_head in E. apply utoa_inj; [done..|].
  assert (∀ m, (0 ≤ m)%Z → Forall (λ x, x ≠ 95%Z) (utoa m)) as Hd.
  { intros m Hm. destruct (utoa_shape m Hm) as (k & -> & _). eapply Forall_impl; [apply digits_isDigit|].
    cbn. unfold isDigit. lia. }
  by eapply (separated_inj 95); [apply Hd|apply Hd|exact E].
Qed.

Section spec.
Context `{Codec}.

(** ** Requests *)

(** Registered and not yet reaped. *)
Definition active (pc : sender_pc) : bool :=
  match pc with SWrite _ | SWait | SReap _ => true | _ => false end.

(** A response with the identifier was read after the request was registered. *)
Definition answered (tr : list event) (t : nat) (id : bytes) (r : controlResult) : Prop :=
  ∃ tr1 line tr2 env, tr = tr1 ++ ERead line :: tr2 ∧ ERegister t ∈ tr1 ∧
    peekType line = Some (str "control_response") ∧ decodeResponse line = Some env ∧
    RequestID env = id ∧ resultOf env = r.

(** The read loop ended or the client was closed. *)
Definition disconnects (tr : list event) (r : controlResult) : Prop :=
  (∃ cause order, EReadError cause order ∈ tr ∧ r = disconnected (Some cause)) ∨
  (∃ d order, ECloserWait d order ∈ tr ∧ r = disconnected None).

Definition origin (tr : list event) (t : nat) (id : bytes) (r : controlResult) : Prop :=
  answered tr t id r ∨ disconnects tr r.

Lemma answered_mono tr e t id r : answered tr t id r → answered (tr ++ [e]) t id r.
Proof.
  intros (tr1 & line & tr2 & env & -> & ? & ? & ? & ? & ?). exists tr1, line, (tr2 ++ [e]), env.
  split_and!; try done. by rewrite <-app_assoc.
Qed.

Lemma disconnects_mono tr e r : disconnects tr r → disconnects (tr ++ [e]) r.
Proof.
  intros [(c & o & Hin & ->)|(c & o & Hin & ->)]; [left|right]; exists c, o; (split; [|done]); apply elem_of_app; by left.
Qed.

Lemma origin_mono tr e t id r : origin tr t id r → origin (tr ++ [e]) t id r.
Proof. intros [?|?]; [left; by apply answered_mono|right; by apply disconnects_mono]. Qed.

(** Requests keep their number and identifier. *)
Lemma step_sender s e s' t x :
  step s e = Some s' → senders s !! t = Some x →
  ∃ x', senders s' !! t = Some x' ∧ s_n x' = s_n x ∧ s_id x' = s_id x.
Proof.
  intros Hs Hx.
  assert (∀ u y, (u = t → s_n y = s_n x ∧ s_id y = s_id x) →
    ∃ x', <[u := y]> (senders s) !! t = Some x' ∧ s_n x' = s_n x ∧ s_id x' = s_id x) as Hi.
  { intros u y Hy. destruct (decide (u = t)) as [->|Hn]; [rewrite lookup_insert_eq|rewrite lookup_insert_ne by done]; eauto. }
  destruct e; crack Hs; eauto; try (apply Hi; intros ->; cbn; split; congruence).
Qed.

(** Where the results come from, and that what is pending has a thread. *)
Record requests_inv (tr : list event) (s : controlProtocol) : Prop := {
  ri_pending id t : pending s !! id = Some t → ∃ x, senders s !! t = Some x ∧ s_id x = id ∧ active (s_pc x) = true;
  ri_chan t o : chans s !! t = Some o → ERegister t ∈ tr ∧
    ∃ x, senders s !! t = Some x ∧ ∀ r, o = Some r → origin tr t (s_id x) r;
  ri_active t x : senders s !! t = Some x → active (s_pc x) = true → is_Some (chans s !! t);
  ri_result t x r : senders s !! t = Some x → s_pc x = SReap (Received r) ∨ s_pc x = SDone (Received r) → origin tr t (s_id x) r;
  ri_reader ch r : reader s = RSend ch r → ∃ x, senders s !! ch = Some x ∧ origin tr ch (s_id x) r;
  ri_reader_fail l r : reader s = RFail l r → disconnects tr r;
  ri_closer_fail d l r : closer s = CFail d l r → disconnects tr r;
}.

(** A step of the other threads: the requests and their channels stay. *)
Lemma requests_frame tr e s s' :
  requests_inv tr s → pending s' = pending s → chans s' = chans s → senders s' = senders s →
  (∀ ch r, reader s' = RSend ch r → reader s = RSend ch r ∨ ∃ x, senders s !! ch = Some x ∧ origin (tr ++ [e]) ch (s_id x) r) →
  (∀ l r, reader s' = RFail l r → reader s = RFail l r ∨ disconnects (tr ++ [e]) r) →
  (∀ d l r, closer s' = CFail d l r → closer s = CFail d l r ∨ disconnects (tr ++ [e]) r) →
  requests_inv (tr ++ [e]) s'.
Proof.
  intros [Hp Hc Ha Hr Hrd Hrf Hcf] Ep Ec Es Hrd' Hrf' Hcf'. split; rewrite ?Ep, ?Ec, ?Es.
  - done.
  - intros t o Ho. destruct (Hc t o Ho) as (Hin & x & Hx & Ho'). split; [apply elem_of_app; by left|].
    exists x. split; [done|]. intros r Er. by apply origin_mono, Ho'.
  - done.
  - intros t x r Hx Hpc. by apply origin_mono, Hr.
  - intros ch r [Hx|Hx]%Hrd'; [|done]. destruct (Hrd ch r Hx) as (x & ? & ?). exists x. split; [done|]. by apply origin_mono.
  - intros l r [Hx|Hx]%Hrf'; [|done]. apply disconnects_mono. by eapply Hrf.
  - intros d l r [Hx|Hx]%Hcf'; [|done]. apply disconnects_mono. by eapply Hcf.
Qed.

(** A result enters a channel. *)
Lemma requests_send tr s ch r :
  requests_inv tr s → (∀ x, senders s !! ch = Some x → origin tr ch (s_id x) r) → requests_inv tr (trySend ch r s).
Proof.
  intros [Hp Hc Ha Hr Hrd Hrf Hcf] Ho. unfold trySend. destruct (chans s !! ch) as [[?|]|] eqn:E; [by split|..|by split].
  destruct (Hc ch None E) as (Hin & x & Hx & _). split; cbn; try done.
  - intros t o. destruct (decide (t = ch)) as [->|Hn]; [|rewrite lookup_insert_ne by done; apply Hc].
    rewrite lookup_insert_eq. intros [= <-]. split; [done|]. exists x. split; [done|]. intros r' [= <-]. by apply Ho.
  - intros t y Hy Hact. destruct (decide (t = ch)) as [->|Hn]; [by rewrite lookup_insert_eq|]. rewrite lookup_insert_ne by done. eauto.
Qed.

(** A step of one request: its own thread moves, and it may change its own entry of
    [pending] and its own channel. *)
Lemma requests_move tr s t x pc s' :
  requests_inv tr s → senders s !! t = Some x →
  senders s' = <[t := Sender (s_n x) (s_id x) (s_subtype x) pc]> (senders s) →
  reader s' = reader s → closer s' = closer s →
  (∀ id u, pending s' !! id = Some u → pending s !! id = Some u ∧ u ≠ t ∨ u = t ∧ id = s_id x ∧ active pc = true) →
  (∀ u, u ≠ t → chans s' !! u = chans s !! u) →
  (∀ o, chans s' !! t = Some o → o = None ∧ ERegister t ∈ tr ∨ chans s !! t = Some o) →
  (active pc = true → is_Some (chans s' !! t)) →
  (∀ r, pc = SReap (Received r) ∨ pc = SDone (Received r) → origin tr t (s_id x) r) →
  requests_inv tr s'.
Proof.
  intros [Hp Hc Ha Hr Hrd Hrf Hcf] Hx Es Erd Ecl Hp' Hc' Hct Hat Hres. split; rewrite ?Es, ?Erd, ?Ecl; try done.
  - intros id u Hu. destruct (Hp' id u Hu) as [[Hu' Hn]|(-> & -> & Hact)].
    + rewrite lookup_insert_ne by done. by apply Hp.
    + rewrite lookup_insert_eq. eexists. split; [done|]. by split.
  - intros u o Hu. destruct (decide (u = t)) as [->|Hn].
    + rewrite lookup_insert_eq. destruct (Hct o Hu) as [[-> Hin]|Ho]; [split; [done|]; eexists; split; [done|]; by intros r|].
      destruct (Hc t o Ho) as (Hin & y & Hy & Hoy). split; [done|]. eexists. split; [done|]. cbn. rewrite Hx in Hy. by injection Hy as <-.
    + rewrite Hc' in Hu by done. rewrite lookup_insert_ne by done. by apply Hc.
  - intros u y. destruct (decide (u = t)) as [->|Hn].
    + rewrite lookup_insert_eq. intros [= <-]. apply Hat.
    + rewrite lookup_insert_ne, Hc' by done. apply Ha.
  - intros u y r. destruct (decide (u = t)) as [->|Hn].
    + rewrite lookup_insert_eq. intros [= <-]. apply Hres.
    + rewrite lookup_insert_ne by done. apply Hr.
  - intros ch r Hch. destruct (Hrd ch r Hch) as (y & Hy & Ho). destruct (decide (ch = t)) as [->|Hn].
    + rewrite lookup_insert_eq. eexists. split; [done|]. cbn. rewrite Hx in Hy. by injection Hy as <-.
    + rewrite lookup_insert_ne by done. eauto.
Qed.

Lemma requests_mono tr e s : requests_inv tr s → requests_inv (tr ++ [e]) s.
Proof. intros Hi. apply (requests_frame tr e s s Hi); eauto. Qed.

(** Steps that touch neither requests nor channels nor the two failing loops. *)
Lemma requests_other tr e s s' :
  requests_inv tr s → pending s' = pending s → chans s' = chans s → senders s' = senders s →
  (∀ ch r, reader s' = RSend ch r → reader s = RSend ch r) →
  (∀ l r, reader s' = RFail l r → reader s = RFail l r) → (∀ d l r, closer s' = CFail d l r → closer s = CFail d l r) →
  requests_inv (tr ++ [e]) s'.
Proof. intros. eapply requests_frame; eauto. Qed.

Lemma pending_cases tr s t x id u :
  requests_inv tr s → senders s !! t = Some x → pending s !! id = Some u →
  pending s !! id = Some u ∧ u ≠ t ∨ u = t ∧ id = s_id x ∧ active (s_pc x) = true.
Proof.
  intros Hi Hx Hu. destruct (decide (u = t)) as [->|Hn]; [right|by left].
  destruct (ri_pending tr s Hi id t Hu) as (y & Hy & Eid & Hact). rewrite Hx in Hy. by injection Hy as <-.
Qed.

Lemma requests_begin tr s t subtype payload rand :
  requests_inv tr s → senders s !! t = None → requests_inv tr (beginRequest t subtype payload rand s).
Proof.
  intros [Hp Hc Ha Hr Hrd Hrf Hcf] Hn. unfold beginRequest. set (x := Sender _ _ _ _).
  assert (active (s_pc x) = false ∧ ∀ r, s_pc x ≠ SReap (Received r) ∧ s_pc x ≠ SDone (Received r)) as [Hx1 Hx2]
    by (unfold x; cbn; by destruct (marshalRequest _ _ _)).
  assert (∀ u y, senders s !! u = Some y → <[t := x]> (senders s) !! u = Some y) as Hk.
  { intros u y Hy. rewrite lookup_insert_ne; [done|]. intros ->. congruence. }
  split; cbn; try done.
  - intros id u (y & Hy & ?)%Hp. eauto.
  - intros u o (Hin & y & Hy & ?)%Hc. eauto.
  - intros u y. destruct (decide (u = t)) as [->|Hne]; [|rewrite lookup_insert_ne by done; eauto].
    rewrite lookup_insert_eq. intros [= <-]. congruence.
  - intros u y r. destruct (decide (u = t)) as [->|Hne]; [|rewrite lookup_insert_ne by done; eauto].
    rewrite lookup_insert_eq. intros [= <-]. destruct (Hx2 r). tauto.
  - intros ch r (y & Hy & ?)%Hrd. eauto.
Qed.

Lemma requests_sender_step tr s e t x s' :
  requests_inv tr s → senders s !! t = Some x → sender_step t e x s = Some s' →
  (∀ u, e = ERegister u → u = t) → requests_inv (tr ++ [e]) s'.
Proof.
  intros Hi Hx Hs Ht. pose proof (requests_mono tr e s Hi) as Hi'.
  pose proof (λ id u, pending_cases _ s t x id u Hi' Hx) as Hpc.
  pose proof (ri_active _ _ Hi' t x Hx) as Hact.
  unfold sender_step in Hs. destruct e; try discriminate Hs; try destruct err as [err|];
    destruct (s_pc x) eqn:Epc; try discriminate Hs; cbn in Hpc, Hact.
  - injection Hs as <-. eapply (requests_move _ s t x); [done|done|reflexivity|done|done| | | | |]; cbn.
    + intros id u. destruct (decide (id = s_id x)) as [->|Hn].
      * rewrite lookup_insert_eq. intros [= <-]. by right.
      * rewrite lookup_insert_ne by done. intros [?|(_ & ? & ?)]%Hpc; [by left|done].
    + intros u Hu. by rewrite lookup_insert_ne.
    + intros o. rewrite lookup_insert_eq. intros [= <-]. left. split; [done|]. apply elem_of_app. right.
      rewrite (Ht t0 eq_refl). by apply list_elem_of_singleton.
    + by rewrite lookup_insert_eq.
    + intros r [?|?]; done.
  - injection Hs as <-. eapply (requests_move _ s t x); [done|done|reflexivity|done|done| | | | |]; cbn; eauto; intros r [?|?]; done.
  - injection Hs as <-. eapply (requests_move _ s t x); [done|done|reflexivity|done|done| | | | |]; cbn; eauto; intros r [?|?]; done.
  - destruct (chans s !! t) as [[r|]|] eqn:Ech; try discriminate Hs. injection Hs as <-.
    destruct (ri_chan _ _ Hi' t _ Ech) as (Hin & y & Hy & Hor). rewrite Hx in Hy. injection Hy as <-.
    eapply (requests_move _ s t x); [done|done|reflexivity|done|done|cbn; eauto| | | |]; cbn.
    + intros u Hu. by rewrite lookup_insert_ne.
    + intros o. rewrite lookup_insert_eq. intros [= <-]. by left.
    + by rewrite lookup_insert_eq.
    + intros r' [[= <-]|?]; [by apply Hor|done].
  - injection Hs as <-. eapply (requests_move _ s t x); [done|done|reflexivity|done|done| | | | |]; cbn; eauto; intros r [?|?]; done.
  - injection Hs as <-. eapply (requests_move _ s t x); [done|done|reflexivity|done|done| | | | |]; cbn; eauto; intros r [?|?]; done.
  - injection Hs as <-. eapply (requests_move _ s t x); [done|done|reflexivity|done|done| | | | |]; cbn; eauto.
    + intros id u [Hn Hu]%lookup_delete_Some. destruct (Hpc id u Hu) as [?|(_ & ? & _)]; [by left|congruence].
    + intros r' [?|[= ->]]; [done|]. eapply ri_result; [exact Hi'|done|by left].
Qed.

Lemma requests_response tr s line :
  requests_inv tr s → peekType line = Some (str "control_response") → reader s = RIdle →
  requests_inv (tr ++ [ERead line]) (routeControlResponse line s).
Proof.
  intros Hi Ht Er. pose proof (requests_mono tr (ERead line) s Hi) as Hi'. unfold routeControlResponse.
  destruct (decodeResponse line) as [env|] eqn:Ed; [|done]. destruct (bytes_eqb (RequestID env) []); [done|].
  destruct (pending s !! RequestID env) as [ch|] eqn:Ep; [|done].
  eapply requests_frame; [exact Hi|done|done|done| |cbn; congruence|cbn; eauto]. cbn. intros ch' r [= <- <-]. right.
  destruct (ri_pending _ _ Hi _ _ Ep) as (x & Hx & Eid & Hact). exists x. split; [done|]. left.
  destruct (ri_active _ _ Hi _ _ Hx Hact) as [o Ho]. destruct (ri_chan _ _ Hi _ _ Ho) as [Hin _].
  exists tr, line, [], env. by split_and!.
Qed.

Lemma requests_reader_step tr s e s' : requests_inv tr s → reader_step e s = Some s' → requests_inv (tr ++ [e]) s'.
Proof.
  intros Hi Hs. unfold reader_step in Hs. destruct e; try discriminate Hs; destruct (reader s) eqn:Er; try discriminate Hs.
  - injection Hs as <-. pose proof (requests_mono tr (ERead line) s Hi) as Hi'.
    unfold route. destruct (peekType line) as [ty|] eqn:Et; [destruct (bytes_eqb ty (str "control_response")) eqn:Ety|].
    + apply bool_decide_eq_true in Ety as ->. by apply requests_response.
    + unfold push, spawnControlRequest, cancelControlRequest. repeat case_match; try done; eapply requests_other; cbn; try done; congruence.
    + unfold push. case_match; eapply requests_other; cbn; try done; congruence.
  - injection Hs as <-. destruct (ri_reader _ _ Hi ch r Er) as (x & Hx & Ho).
    assert (requests_inv tr (trySend ch r s)) as Hi' by (apply requests_send; [done|intros y Hy; rewrite Hx in Hy; by injection Hy as <-]).
    eapply requests_other; [exact Hi'|done|done|done|done|done|done].
  - injection Hs as <-. eapply requests_other; [exact Hi|done|done|done|done|done|done].
  - case_decide; [|done]. injection Hs as <-. eapply requests_frame; [exact Hi|done|done|done|done| |cbn; eauto]. cbn.
    intros l r [= <- <-]. right. left. exists cause, order. split; [|done]. apply elem_of_app. right. by apply list_elem_of_singleton.
  - pose proof (ri_reader_fail _ _ Hi _ _ Er) as Hd. destruct chans0 as [|ch l]; injection Hs as <-.
    + eapply requests_other; [exact Hi|done|done|done|done|done|done].
    + assert (requests_inv tr (trySend ch r s)) as Hi' by (apply requests_send; [done|intros y Hy; by right]).
      eapply requests_frame; [exact Hi'|done|done|done|done| |cbn; eauto]. cbn.
      intros l' r' [= <- <-]. right. by apply disconnects_mono.
Qed.

Lemma requests_closer_step tr s e s' : requests_inv tr s → closer_step e s = Some s' → requests_inv (tr ++ [e]) s'.
Proof.
  intros Hi Hs. unfold closer_step in Hs. destruct e; try discriminate Hs; destruct (closer s) eqn:Ec; try discriminate Hs.
  - case_decide; [|done]. injection Hs as <-. eapply requests_other; [exact Hi|done|done|done|done|done|done].
  - destruct hs; injection Hs as <-; eapply requests_other; [exact Hi|done|done|done|done|done|done|exact Hi|done|done|done|done|done|done].
  - case_decide; [|done]. injection Hs as <-. eapply requests_frame; [exact Hi|done|done|done|cbn; eauto|cbn; eauto|]. cbn.
    intros d l r [= <- <- <-]. right. right. exists drained, order. split; [|done]. apply elem_of_app. right. by apply list_elem_of_singleton.
  - pose proof (ri_closer_fail _ _ Hi _ _ _ Ec) as Hd. destruct chans0 as [|ch l]; injection Hs as <-.
    + eapply requests_other; [exact Hi|done|done|done|done|done|done].
    + assert (requests_inv tr (trySend ch r s)) as Hi' by (apply requests_send; [done|intros y Hy; by right]).
      eapply requests_frame; [exact Hi'|done|done|done|cbn; eauto|cbn; eauto|]. cbn.
      intros d' l' r' [= <- <- <-]. right. by apply disconnects_mono.
Qed.

Lemma requests_step tr s e s' : requests_inv tr s → step s e = Some s' → requests_inv (tr ++ [e]) s'.
Proof.
  intros Hi Hs. destruct e; cbn in Hs;
    try (destruct (senders s !! t) as [x|] eqn:Hx; try discriminate Hs; eapply requests_sender_step; [done|done|exact Hs|congruence]);
    try (by apply requests_reader_step with (s := s)); try (by apply requests_closer_step with (s := s)).
  - destruct (senders s !! t) eqn:Hx; [done|]. injection Hs as <-. by apply requests_mono, requests_begin.
  - destruct (handlers s !! h) as [x|]; [|done]. crack Hs; eapply requests_other; try exact Hi; done.
  - destruct (handlers s !! h) as [x|]; [|done]. crack Hs; eapply requests_other; try exact Hi; done.
  - destruct (handlers s !! h) as [x|]; [|done]. crack Hs; eapply requests_other; try exact Hi; done.
  - destruct (handlers s !! h) as [x|]; [|done]. crack Hs; eapply requests_other; try exact Hi; done.
  - destruct (handlers s !! h) as [x|]; [|done]. crack Hs; eapply requests_other; try exact Hi; done.
  - injection Hs as <-. eapply requests_other; try exact Hi; done.
Qed.

Lemma requests_init : requests_inv [] newControlProtocol.
Proof. split; cbn; try done. Qed.

Lemma run_requests tr s : run newControlProtocol tr = Some s → requests_inv tr s.
Proof. apply run_invariant; [exact requests_init|]. intros. by eapply requests_step. Qed.

Definition sends (tr : list event) : nat := length (List.filter (λ e, match e with ESend _ _ _ _ => true | _ => false end) tr).

(** Requests have numbers of their own, and those registered are pending. *)
Record numbers_inv (tr : list event) (s : controlProtocol) : Prop := {
  ni_counter : counter s = Z.of_nat (sends tr);
  ni_number t x : senders s !! t = Some x → (1 ≤ s_n x ≤ counter s)%Z ∧ ∃ rand, s_id x = newRequestID (s_n x) rand;
  ni_inj t t' x x' : senders s !! t = Some x → senders s !! t' = Some x' → s_n x = s_n x' → t = t';
  ni_active t x : senders s !! t = Some x → active (s_pc x) = true → pending s !! s_id x = Some t;
}.

Lemma numbers_ids tr s t t' x x' :
  numbers_inv tr s → senders s !! t = Some x → senders s !! t' = Some x' → s_id x = s_id x' → t = t'.
Proof.
  intros Hi Hx Hx' E. destruct (ni_number _ _ Hi _ _ Hx) as (H1 & r & E1). destruct (ni_number _ _ Hi _ _ Hx') as (H2 & r' & E2).
  eapply ni_inj; [exact Hi|done|done|]. rewrite E1, E2 in E. apply newRequestID_inj in E; [done|lia|lia].
Qed.

(** Steps that leave the requests and what is pending. *)
Lemma numbers_frame tr e s s' :
  numbers_inv tr s → sends (tr ++ [e]) = sends tr → counter s' = counter s → senders s' = senders s → pending s' = pending s →
  numbers_inv (tr ++ [e]) s'.
Proof. intros [Hc Hn Hi Ha] Es Ec En Ep. split; rewrite ?Es, ?Ec, ?En, ?Ep; done. Qed.

Lemma numbers_move tr e s t x pc s' :
  numbers_inv tr s → sends (tr ++ [e]) = sends tr → counter s' = counter s → senders s !! t = Some x →
  senders s' = <[t := Sender (s_n x) (s_id x) (s_subtype x) pc]> (senders s) →
  (∀ u y, senders s !! u = Some y → u ≠ t → pending s !! s_id y = Some u → pending s' !! s_id y = Some u) →
  (active pc = true → pending s' !! s_id x = Some t) →
  numbers_inv (tr ++ [e]) s'.
Proof.
  intros [Hc Hn Hi Ha] Es Ec Hx En Hp Hpt.
  assert (∀ u y, senders s' !! u = Some y → ∃ y', senders s !! u = Some y' ∧ s_n y = s_n y' ∧ s_id y = s_id y') as Hold.
  { intros u y. rewrite En. destruct (decide (u = t)) as [->|Hu].
    - rewrite lookup_insert_eq. intros [= <-]. eauto.
    - rewrite lookup_insert_ne by done. eauto. }
  split.
  - by rewrite Ec, Es.
  - intros u y (y' & Hy & -> & ->)%Hold. rewrite Ec. by eapply Hn.
  - intros u u' y y' (z & Hz & -> & _)%Hold (z' & Hz' & -> & _)%Hold. by eapply Hi.
  - intros u y. rewrite En. destruct (decide (u = t)) as [->|Hu].
    + rewrite lookup_insert_eq. intros [= <-]. apply Hpt.
    + rewrite lookup_insert_ne by done. intros Hy Hact. apply Hp; eauto.
Qed.

Lemma numbers_begin tr s t subtype payload rand :
  (Z.of_nat (sends (tr ++ [ESend t subtype payload rand])) < 2 ^ 64)%Z → numbers_inv tr s → senders s !! t = None →
  numbers_inv (tr ++ [ESend t subtype payload rand]) (beginRequest t subtype payload rand s).
Proof.
  intros Hlt [Hc Hn Hi Ha] Hnone. assert (sends (tr ++ [ESend t subtype payload rand]) = S (sends tr)) as Es.
  { unfold sends. rewrite List.filter_app, length_app. cbn. lia. }
  rewrite Es in Hlt. assert (nextCounter (counter s) = counter s + 1)%Z as En by (unfold nextCounter; rewrite Z.mod_small; lia).
  unfold beginRequest. rewrite En. set (x := Sender _ _ _ _).
  assert (active (s_pc x) = false) as Hx by (unfold x; cbn; by destruct (marshalRequest _ _ _)).
  assert (∀ u y, <[t := x]> (senders s) !! u = Some y → u = t ∧ y = x ∨ u ≠ t ∧ senders s !! u = Some y) as Hold.
  { intros u y. destruct (decide (u = t)) as [->|Hu]; [rewrite lookup_insert_eq; intros [= <-]; by left|]. rewrite lookup_insert_ne by done. auto. }
  split; cbn.
  - rewrite Es. lia.
  - intros u y [[-> ->]|[_ Hy]]%Hold; [cbn; split; [lia|by exists rand]|]. destruct (Hn u y Hy) as [? ?]. split; [lia|done].
  - intros u u' y y' [[-> ->]|[_ Hy]]%Hold [[-> ->]|[_ Hy']]%Hold; cbn; try done.
    + destruct (Hn _ _ Hy'). lia.
    + destruct (Hn _ _ Hy). lia.
    + by eapply Hi.
  - intros u y [[-> ->]|[_ Hy]]%Hold; [congruence|]. by apply Ha.
Qed.

Lemma numbers_step tr s e s' :
  (Z.of_nat (sends (tr ++ [e])) < 2 ^ 64)%Z → requests_inv tr s → numbers_inv tr s → step s e = Some s' → numbers_inv (tr ++ [e]) s'.
Proof.
  intros Hlt Hr Hi Hs. destruct (decide (sends (tr ++ [e]) = sends tr)) as [Es|Es].
  2:{ destruct e; try (exfalso; apply Es; unfold sends; rewrite List.filter_app, length_app; cbn; lia).
      cbn in Hs. destruct (senders s !! t) eqn:Hx; [done|]. injection Hs as <-. by apply numbers_begin. }
  destruct e; cbn in Hs; try (unfold sends in Es; rewrite List.filter_app, length_app in Es; cbn in Es; lia);
    try (by crack Hs; eapply numbers_frame);
    (destruct (senders s !! t) as [x|] eqn:Hx; [|done]); unfold sender_step in Hs; try destruct err as [err|];
    destruct (s_pc x) eqn:Epc; try discriminate Hs; try (case_match; try discriminate Hs; case_match; try discriminate Hs); injection Hs as <-;
    try (eapply numbers_move; [exact Hi|done|done|exact Hx|reflexivity|cbn; eauto|]; cbn; intros _; eapply ni_active; [exact Hi|done|by rewrite Epc]).
  - eapply numbers_move; [exact Hi|done|done|exact Hx|reflexivity| |]; cbn; [|by rewrite lookup_insert_eq].
    intros u y Hy Hu Hp. rewrite lookup_insert_ne; [done|]. intros E. apply Hu. symmetry. by eapply numbers_ids.
  - eapply numbers_move; [exact Hi|done|done|exact Hx|reflexivity| |done]; cbn.
    intros u y Hy Hu Hp. rewrite lookup_delete_ne; [done|]. intros E. apply Hu. symmetry. by eapply numbers_ids.
Qed.

Lemma run_numbers tr s : (Z.of_nat (sends tr) < 2 ^ 64)%Z → run newControlProtocol tr = Some s → numbers_inv tr s.
Proof.
  intros Hlt Hr. revert Hlt. cut (requests_inv tr s ∧ ((Z.of_nat (sends tr) < 2 ^ 64)%Z → numbers_inv tr s)); [tauto|]. revert Hr.
  apply (run_invariant (λ tr s, requests_inv tr s ∧ ((Z.of_nat (sends tr) < 2 ^ 64)%Z → numbers_inv tr s))).
  - split; [exact requests_init|]. split; cbn; done.
  - intros tr' s1 e s2 [Hq Hn] Hs. split; [by eapply requests_step|]. intros Hlt. eapply numbers_step; [done|done| |done].
    apply Hn. unfold sends in *. rewrite List.filter_app, length_app in Hlt. lia.
Qed.

(** ** Disconnection *)

(** The request has returned, is about to, or has a result to receive. *)
Definition ready (s : controlProtocol) (t : nat) : Prop :=
  ∃ x, senders s !! t = Some x ∧
  match s_pc x with
  | SRegister _ => False
  | SWrite _ | SWait => ∃ r, chans s !! t = Some (Some r)
  | SReap _ | SDone _ => True
  end.

(** The request has made its channel. *)
Definition registered (s : controlProtocol) (t : nat) : Prop :=
  is_Some (chans s !! t) ∧ ∃ x, senders s !! t = Some x ∧ match s_pc x with SRegister _ => False | _ => True end.

Lemma trySend_ready s ch r t : ready s t → ready (trySend ch r s) t.
Proof.
  intros (x & Hx & Hm). exists x. unfold trySend. destruct (chans s !! ch) as [[?|]|] eqn:E; [done| |done]. split; [done|].
  destruct (s_pc x); try done; destruct Hm as [r' Hr']; cbn; (rewrite lookup_insert_ne; [eauto|]); intros ->; congruence.
Qed.

Lemma trySend_own s r t : registered s t → ready (trySend t r s) t.
Proof.
  intros ([o Ho] & x & Hx & Hm). exists x. unfold trySend. rewrite Ho. destruct o as [r'|]; cbn; (split; [done|]);
    rewrite ?lookup_insert_eq; destruct (s_pc x); eauto.
Qed.

Lemma sender_step_others t u e x s s' :
  sender_step t e x s = Some s' → u ≠ t → senders s' !! u = senders s !! u ∧ chans s' !! u = chans s !! u.
Proof. intros Hs Hu. crack Hs; rewrite ?lookup_insert_ne by done; done. Qed.

(** A thread's own steps, by its program point and that of its next step. *)
Lemma ready_move t x pc s s' :
  senders s !! t = Some x → senders s' = <[t := Sender (s_n x) (s_id x) (s_subtype x) pc]> (senders s) →
  match s_pc x, pc with
  | SWrite _, SWait => chans s' !! t = chans s !! t
  | SRegister _, SRegister _ | _, (SReap _ | SDone _) => True
  | SRegister _, _ => True
  | _, _ => False
  end → ready s t → ready s' t.
Proof.
  intros Hx Es Hpc (y & Hy & Hm). rewrite Hx in Hy. injection Hy as <-. unfold ready. rewrite Es, lookup_insert_eq.
  eexists. split; [reflexivity|]. cbn. destruct (s_pc x), pc; try done; by rewrite Hpc.
Qed.

Lemma sender_step_own t e x s s' : senders s !! t = Some x → sender_step t e x s = Some s' → ready s t → ready s' t.
Proof.
  intros Hx Hs. unfold sender_step in Hs. destruct e; try discriminate Hs; try destruct err as [err|];
    destruct (s_pc x) eqn:Epc; try discriminate Hs; try (destruct (chans s !! t) as [[?|]|]; try discriminate Hs); injection Hs as <-;
    (eapply ready_move; [exact Hx|reflexivity|rewrite Epc; first [exact I|reflexivity]]).
Qed.

Lemma sender_step_registered t e x s s' : senders s !! t = Some x → sender_step t e x s = Some s' → registered s t → registered s' t.
Proof.
  intros Hx Hs [Hc _]. unfold sender_step in Hs. destruct e; try discriminate Hs; try destruct err as [err|];
    destruct (s_pc x) eqn:Epc; try discriminate Hs; try (destruct (chans s !! t) as [[?|]|] eqn:Ech; try discriminate Hs); injection Hs as <-;
    (split; cbn; rewrite ?lookup_insert_eq, ?Ech; [done|]); eexists; (split; [reflexivity|done]).
Qed.

(** Who is ready stays ready, who is registered stays registered. *)
Lemma ready_step s e s' t : step s e = Some s' → ready s t → ready s' t.
Proof.
  intros Hs Hr. assert (∀ u x, senders s !! u = Some x → sender_step u e x s = Some s' → ready s' t) as Hsnd.
  { intros u x Hx Hu. destruct (decide (u = t)) as [->|Hn]; [by eapply sender_step_own|].
    destruct (sender_step_others u t e x s s' Hu) as [E1 E2]; [done|]. unfold ready. rewrite E1, E2. exact Hr. }
  destruct e as [u ? ? ?|u|u err|u|u|u|u|line| | | | |h ? ?|h ?|h|h|h| |o| | |]; cbn in Hs;
    try (destruct (senders s !! u) as [x|] eqn:Hx; [by eapply Hsnd|done]); try (by crack Hs; exact Hr).
  - destruct (senders s !! u) eqn:Hx; [done|]. injection Hs as <-. destruct Hr as (x & Hx' & Hm). exists x. cbn.
    rewrite lookup_insert_ne by congruence. done.
  - destruct (reader s); try discriminate Hs. injection Hs as <-. by apply (trySend_ready s ch r).
  - destruct (reader s) as [| | |[|ch l] r|]; try discriminate Hs; injection Hs as <-; [exact Hr|]. by apply (trySend_ready s ch r).
  - destruct (closer s) as [| | |d [|ch l] r|]; try discriminate Hs; injection Hs as <-; [exact Hr|]. by apply (trySend_ready s ch r).
Qed.

Lemma trySend_registered s ch r t : registered s t → registered (trySend ch r s) t.
Proof.
  intros [[o Ho] Hx]. unfold trySend. destruct (chans s !! ch) as [[?|]|] eqn:E; split; cbn; try done.
  destruct (decide (ch = t)) as [->|Hn]; [by rewrite lookup_insert_eq|by rewrite lookup_insert_ne, Ho].
Qed.

Lemma registered_step s e s' t : step s e = Some s' → registered s t → registered s' t.
Proof.
  intros Hs Hr. assert (∀ u x, senders s !! u = Some x → sender_step u e x s = Some s' → registered s' t) as Hsnd.
  { intros u x Hx Hu. destruct (decide (u = t)) as [->|Hn]; [by eapply sender_step_registered|].
    destruct (sender_step_others u t e x s s' Hu) as [E1 E2]; [done|]. unfold registered. rewrite E1, E2. exact Hr. }
  destruct e as [u ? ? ?|u|u err|u|u|u|u|line| | | | |h ? ?|h ?|h|h|h| |o| | |]; cbn in Hs;
    try (destruct (senders s !! u) as [x|] eqn:Hx; [by eapply Hsnd|done]); try (by crack Hs; exact Hr).
  - destruct (senders s !! u) eqn:Hx; [done|]. injection Hs as <-. destruct Hr as (Hc & x & Hx' & Hm). split; [done|]. exists x. cbn.
    rewrite lookup_insert_ne by congruence. done.
  - destruct (reader s); try discriminate Hs. injection Hs as <-. by apply (trySend_registered s ch r).
  - destruct (reader s) as [| | |[|ch l] r|]; try discriminate Hs; injection Hs as <-; [exact Hr|]. by apply (trySend_registered s ch r).
  - destruct (closer s) as [| | |d [|ch l] r|]; try discriminate Hs; injection Hs as <-; [exact Hr|]. by apply (trySend_registered s ch r).
Qed.

(** On its way through the channels, or past the one of [t]. *)
Definition reader_tells (s : controlProtocol) (t : nat) : Prop :=
  ready s t ∨ registered s t ∧ ∃ l r, reader s = RFail l r ∧ t ∈ l.
Definition closer_tells (s : controlProtocol) (t : nat) : Prop :=
  ready s t ∨ registered s t ∧ ∃ d l r, closer s = CFail d l r ∧ t ∈ l.

(** The failing loops are left only through their channels. *)
Lemma reader_fail_step s e s' l r :
  step s e = Some s' → reader s = RFail l r →
  reader s' = RFail l r ∨ l = [] ∨ ∃ ch l', l = ch :: l' ∧ s' = setReader (RFail l' r) (trySend ch r s).
Proof.
  intros Hs Er. destruct e; cbn in Hs; try (rewrite Er in Hs; try discriminate Hs; destruct l; injection Hs as <-; eauto 6);
    left; crack Hs; done.
Qed.

Lemma closer_fail_step s e s' d l r :
  step s e = Some s' → closer s = CFail d l r →
  closer s' = CFail d l r ∨ l = [] ∨ ∃ ch l', l = ch :: l' ∧ s' = setCloser (CFail d l' r) (trySend ch r s).
Proof.
  intros Hs Er. destruct e; cbn in Hs; try (rewrite Er in Hs; try discriminate Hs; destruct l; injection Hs as <-; eauto 6);
    left; crack Hs; done.
Qed.

Lemma reader_tells_step s e s' t : step s e = Some s' → reader_tells s t → reader_tells s' t.
Proof.
  intros Hs [Hr|(Hreg & l & r & Er & Hin)]; [left; by eapply ready_step|].
  destruct (reader_fail_step s e s' l r Hs Er) as [E|[->|(ch & l' & -> & ->)]]; [|set_solver|].
  - right. split; [by eapply registered_step|]. eauto.
  - apply elem_of_cons in Hin as [->|Hin]; [left; by apply trySend_own|]. right. split; [by apply trySend_registered|]. cbn. eauto.
Qed.

Lemma closer_tells_step s e s' t : step s e = Some s' → closer_tells s t → closer_tells s' t.
Proof.
  intros Hs [Hr|(Hreg & d & l & r & Er & Hin)]; [left; by eapply ready_step|].
  destruct (closer_fail_step s e s' d l r Hs Er) as [E|[->|(ch & l' & -> & ->)]]; [|set_solver|].
  - right. split; [by eapply registered_step|]. eauto.
  - apply elem_of_cons in Hin as [->|Hin]; [left; by apply trySend_own|]. right. split; [by apply trySend_registered|]. cbn. eauto.
Qed.

Lemma run_keeps (P : controlProtocol → Prop) tr s s' :
  (∀ s e s', step s e = Some s' → P s → P s') → P s → run s tr = Some s' → P s'.
Proof. intros Hk. revert s. induction tr as [|e tr IH]; intros s Hp; cbn; [by intros [= <-]|]. destruct (step s e) eqn:E; [eauto|done]. Qed.

Lemma pending_registered tr s id t : requests_inv tr s → pending s !! id = Some t → registered s t.
Proof.
  intros Hi Hp. destruct (ri_pending _ _ Hi _ _ Hp) as (x & Hx & _ & Hact). split; [by eapply ri_active|].
  exists x. split; [done|]. by destruct (s_pc x).
Qed.

Lemma pending_values s id t order : pending s !! id = Some t → order ≡ₚ values (pending s) → t ∈ order.
Proof. intros Hp ->. apply list_elem_of_fmap. exists (id, t). by rewrite elem_of_map_to_list. Qed.

(** ** Handlers *)

Definition live (x : handler) : bool := match h_pc x with HDone => false | _ => true end.

Lemma count_alter {A} (p : A → bool) f i (l : list A) x :
  l !! i = Some x → count p (alter f i l) + (if p x then 1 else 0) = count p l + (if p (f x) then 1 else 0).
Proof.
  revert i. induction l as [|y l IH]; intros [|i] Hx; cbn in *; try done.
  - injection Hx as ->. lia.
  - change (list_alter f i l) with (alter f i l). specialize (IH i Hx). lia.
Qed.

Lemma count_alter_same {A} (p : A → bool) f i (l : list A) : (∀ x, p (f x) = p x) → count p (alter f i l) = count p l.
Proof.
  intros Hf. destruct (l !! i) as [x|] eqn:E.
  - pose proof (count_alter p f i l x E) as Hc. rewrite Hf in Hc. lia.
  - clear Hf. revert i E. induction l as [|y l IH]; intros [|i] E; cbn in *; try done. change (list_alter f i l) with (alter f i l). by rewrite IH.
Qed.

(** The wait group counts the handlers, the barrier is up once [Close] has begun,
    and nobody is left when [Close] has seen the count at zero. *)
Record handlers_inv (s : controlProtocol) : Prop := {
  hi_wg : handlerWG s = Z.of_nat (count live (handlers s));
  hi_closed : closer s ≠ CIdle → closed s = true;
  hi_drained : match closer s with CFail true _ _ | CDone true => count live (handlers s) = 0 | _ => True end;
}.

Lemma handlers_step_inv s h e x s' :
  handlers_inv s → handlers s !! h = Some x → handler_step h e x s = Some s' → handlers_inv s'.
Proof.
  intros [Hw Hc Hd] Hx Hs.
  assert (∀ pc, live (Handler (h_id x) (h_body x) (h_done x) pc) = live x → ∀ s0, handlers s0 = handlers s → handlerWG s0 = handlerWG s →
    closer s0 = closer s → closed s0 = closed s → handlers_inv (goHandler h pc s0)) as Hgo.
  { intros pc Hpc s0 E1 E2 E3 E4. pose proof (count_alter live (λ x, Handler (h_id x) (h_body x) (h_done x) pc) h (handlers s) x Hx) as Hcnt.
    cbn in Hcnt. rewrite Hpc in Hcnt. assert (count live (alter (λ x, Handler (h_id x) (h_body x) (h_done x) pc) h (handlers s)) = count live (handlers s)) as Ec by lia.
    split; cbn; rewrite ?E1, ?E2, ?E3, ?E4, ?Ec; done. }
  assert (s_live : ∀ pc, h_pc x ≠ HDone → pc ≠ HDone → live (Handler (h_id x) (h_body x) (h_done x) pc) = live x).
  { intros pc H1 H2. unfold live. cbn. destruct (h_pc x), pc; done. }
  unfold handler_step in Hs. destruct e; try discriminate Hs; destruct (h_pc x) eqn:Epc; try discriminate Hs; injection Hs as <-.
  - apply Hgo; try done. apply s_live; [done|]. unfold handleControlRequest. repeat case_match; done.
  - apply Hgo; try (by destruct ok). by apply s_live.
  - apply Hgo; try done. by apply s_live.
  - pose proof (count_alter_same live (λ x, Handler (h_id x) (h_body x) true (h_pc x)) h (handlers s) (λ _, eq_refl)) as Ec.
    assert (alter (λ x, Handler (h_id x) (h_body x) true (h_pc x)) h (handlers s) !! h = Some (Handler (h_id x) (h_body x) true (h_pc x))) as Hx'
      by by rewrite list_lookup_alter_eq, Hx.
    pose proof (count_alter live (λ x, Handler (h_id x) (h_body x) (h_done x) HWait) h _ _ Hx') as Hcnt.
    assert (live (Handler (h_id x) (h_body x) true (h_pc x)) = true) as El by (unfold live; cbn; by rewrite Epc).
    rewrite El, Ec in Hcnt. cbn in Hcnt. split; cbn; [lia|done|]. repeat case_match; try done; lia.
  - pose proof (count_alter live (λ x, Handler (h_id x) (h_body x) (h_done x) HDone) h (handlers s) x Hx) as Hcnt.
    assert (live x = true) as El by (unfold live; by rewrite Epc). rewrite El in Hcnt. cbn in Hcnt.
    split; cbn; [lia|done|]. repeat case_match; try done; lia.
Qed.

Lemma handlers_cancel s h : handlers_inv s → handlers_inv (cancel h s).
Proof. intros [Hw Hc Hd]. split; cbn; rewrite ?count_alter_same by done; done. Qed.

Lemma handlers_same s s' :
  handlers_inv s → handlers s' = handlers s → handlerWG s' = handlerWG s → closer s' = closer s → closed s' = closed s → handlers_inv s'.
Proof. intros [Hw Hc Hd] E1 E2 E3 E4. split; rewrite ?E1, ?E2, ?E3, ?E4; done. Qed.

Lemma handlers_spawn s line : handlers_inv s → handlers_inv (spawnControlRequest line s).
Proof.
  intros Hi. unfold spawnControlRequest. destruct (decodeRequest line) as [[id body]|]; [|done]. case_match; [done|].
  destruct (closed s) eqn:Ecl; [done|]. destruct Hi as [Hw Hc Hd].
  assert (closer s = CIdle) as Ec by (destruct (closer s); [done|..]; by rewrite Hc in Ecl).
  split; cbn; rewrite ?count_app, ?Ec; cbn; [lia|done|done].
Qed.

Lemma handlers_route s line : handlers_inv s → handlers_inv (route line s).
Proof.
  intros Hi. unfold route. destruct (peekType line) as [ty|].
  2:{ unfold push. case_match; by apply (handlers_same s). }
  destruct (bytes_eqb ty _); [unfold routeControlResponse; repeat case_match; by apply (handlers_same s)|].
  destruct (bytes_eqb ty _); [by apply handlers_spawn|].
  destruct (bytes_eqb ty _); [unfold cancelControlRequest; repeat case_match; by apply (handlers_same s)|].
  destruct (bytes_eqb ty _); [done|]. unfold push. case_match; by apply (handlers_same s).
Qed.

Lemma handlers_step s e s' : handlers_inv s → step s e = Some s' → handlers_inv s'.
Proof.
  intros Hi Hs.
  destruct e as [u ? ? ?|u|u err|u|u|u|u|line| | | | |h ? ?|h ?|h|h|h| |o| | |]; cbn [step] in Hs;
    try (destruct (handlers s !! h) as [x|] eqn:Hx; [by eapply handlers_step_inv|done]);
    try (by crack Hs; apply (handlers_same s)); cbn in Hs.
  - destruct (reader s); try discriminate Hs. injection Hs as <-. by apply handlers_route.
  - destruct (reader s); try discriminate Hs. injection Hs as <-. by apply (handlers_same (cancel h s)); [apply handlers_cancel|..].
  - destruct (closer s) eqn:Ec; try discriminate Hs. case_decide; [|done]. injection Hs as <-. destruct Hi as [Hw Hc Hd]. by split.
  - destruct (closer s) as [|[|h l]| | |] eqn:Ec; try discriminate Hs; injection Hs as <-.
    + destruct Hi as [Hw Hc Hd]. split; cbn; try done. intros _. apply Hc. by rewrite Ec.
    + destruct (handlers_cancel s h Hi) as [Hw Hc Hd]. split; cbn; try done. intros _. apply Hc. cbn. by rewrite Ec.
  - destruct (closer s) eqn:Ec; try discriminate Hs. case_decide as Hdc; [|done]. injection Hs as <-. destruct Hi as [Hw Hc Hd].
    split; cbn; try done; [intros _; apply Hc; by rewrite Ec|]. destruct drained; [|done]. destruct Hdc as [Hdc _]. specialize (Hdc eq_refl). lia.
  - destruct (closer s) as [| | |d [|ch l] r|] eqn:Ec; try discriminate Hs; injection Hs as <-; destruct Hi as [Hw Hc Hd]; rewrite Ec in *.
    + split; cbn; try done. intros _. by apply Hc.
    + unfold trySend. destruct (chans s !! ch) as [[?|]|]; split; cbn; try done; intros _; by apply Hc.
Qed.

Lemma run_handlers tr s : run newControlProtocol tr = Some s → handlers_inv s.
Proof. apply (run_invariant (λ _, handlers_inv)); [by split|]. intros. by eapply handlers_step. Qed.

(** ** Cancellation *)

(** The identifiers of the requests of the CLI, in the order they are read. *)
Definition requestOf (e : event) : option bytes :=
  match e with
  | ERead line => if bool_decide (peekType line = Some (str "control_request")) then fst <$> decodeRequest line else None
  | _ => None
  end.
Definition requested (tr : list event) : list bytes := omap requestOf tr.

(** The handler has not reached its deferred calls. *)
Definition working (x : handler) : bool := match h_pc x with HRun | HReply _ => true | _ => false end.

(** Cancelled, about to be cancelled, or within reach of [closeInflight]. *)
Definition covered (s : controlProtocol) (h : nat) (x : handler) : Prop :=
  h_done x = true ∨ reader s = RCancel h ∨
  match closer s with CIdle => inflight s !! h_id x = Some h | CCancel l => h ∈ l | _ => False end.

Record cancel_inv (tr : list event) (s : controlProtocol) : Prop := {
  ci_ids : (h_id <$> handlers s) `sublist_of` requested tr;
  ci_covered h x : handlers s !! h = Some x → working x = true → covered s h x;
}.

Lemma requested_snoc tr e : requested (tr ++ [e]) = requested tr ++ match requestOf e with Some id => [id] | None => [] end.
Proof. unfold requested. rewrite omap_app. cbn. by destruct (requestOf e). Qed.

Lemma requested_mono tr e l : l `sublist_of` requested tr → l `sublist_of` requested (tr ++ [e]).
Proof. intros Hl. rewrite requested_snoc. by apply sublist_inserts_r. Qed.

Lemma ids_unique tr s h h' x x' :
  NoDup (requested tr) → cancel_inv tr s → handlers s !! h = Some x → handlers s !! h' = Some x' → h_id x = h_id x' → h = h'.
Proof.
  intros Hnd Hi Hx Hx' E. pose proof (sublist_NoDup _ _ Hnd (ci_ids _ _ Hi)) as Hnd'. rewrite NoDup_alt in Hnd'.
  apply (Hnd' h h' (h_id x)); rewrite list_lookup_fmap; [by rewrite Hx|by rewrite Hx', E].
Qed.

Lemma cancel_same tr e s s' :
  cancel_inv tr s → handlers s' = handlers s → inflight s' = inflight s → closer s' = closer s →
  (∀ h, reader s = RCancel h → reader s' = RCancel h) → cancel_inv (tr ++ [e]) s'.
Proof.
  intros [Hs Hc] E1 E2 E3 E4. split; rewrite E1; [by apply requested_mono|]. intros h x Hx Hw.
  unfold covered. rewrite E2, E3. destruct (Hc h x Hx Hw) as [?|[?|?]]; auto.
Qed.

(** Handlers of [s'] are those of [s], with the changes [f]. *)
Lemma cancel_alter tr s s' h (f : handler → handler) :
  cancel_inv tr s → handlers s' = alter f h (handlers s) → (∀ x, h_id (f x) = h_id x) →
  (∀ x, handlers s !! h = Some x → working (f x) = true → (working x = true → covered s h x) → covered s' h (f x)) →
  (∀ h' x, h' ≠ h → handlers s !! h' = Some x → working x = true → covered s h' x → covered s' h' x) →
  cancel_inv tr s'.
Proof.
  intros [Hs Hc] E Hid Hown Hoth. split; rewrite E.
  - replace (h_id <$> alter f h (handlers s)) with (h_id <$> handlers s); [done|].
    apply list_eq. intros j. rewrite !list_lookup_fmap, list_lookup_alter. case_decide as Hd; [subst j|done].
    destruct (handlers s !! h); cbn; [by rewrite Hid|done].
  - intros h' x'. rewrite list_lookup_alter. case_decide as Hd; [subst h'|eauto].
    destruct (handlers s !! h) as [x|] eqn:Hx; [|done]. intros [= <-] Hw. eapply Hown; eauto.
Qed.

Lemma cancel_mono tr e s : cancel_inv tr s → cancel_inv (tr ++ [e]) s.
Proof. intros [Hs Hc]. split; [by apply requested_mono|done]. Qed.

Lemma cancel_cancel tr s h : cancel_inv tr s → cancel_inv tr (cancel h s).
Proof. intros Hi. eapply cancel_alter; [exact Hi|reflexivity|done|by left|done]. Qed.

Lemma cancel_handler_step tr s h e x s' :
  NoDup (requested tr) → cancel_inv tr s → handlers s !! h = Some x → handler_step h e x s = Some s' → cancel_inv tr s'.
Proof.
  intros Hnd Hi Hx Hs.
  assert (∀ pc s0, handlers s0 = handlers s → inflight s0 = inflight s → closer s0 = closer s → reader s0 = reader s →
    (working x = true ∨ working (Handler (h_id x) (h_body x) (h_done x) pc) = false) → cancel_inv tr (goHandler h pc s0)) as Hgo.
  { intros pc s0 E1 E2 E3 E4 Hw. eapply cancel_alter; [exact Hi|cbn; by rewrite E1|done| |].
    - intros y Hy Hwy Hcov. rewrite Hx in Hy. injection Hy as <-. unfold covered in *. cbn. rewrite E2, E3, E4.
      apply Hcov. destruct Hw as [Hw|Hw]; [done|]. unfold working in *. cbn in *. congruence.
    - intros h' y _ Hy _ Hcov. unfold covered in *. cbn. by rewrite E2, E3, E4. }
  unfold handler_step in Hs. destruct e; try discriminate Hs; destruct (h_pc x) eqn:Epc; try discriminate Hs; injection Hs as <-.
  - apply Hgo; try done. left. unfold working. by rewrite Epc.
  - apply Hgo; try (by destruct ok). by right.
  - eapply cancel_alter; [exact Hi|reflexivity|done|done|]. intros h' y Hn Hy _ Hcov. unfold covered in *. cbn.
    destruct Hcov as [?|[?|Hcov]]; [by left|by right; left|]. right. right. destruct (closer s); try done.
    rewrite lookup_delete_ne; [done|]. intros E. apply Hn. symmetry. by eapply ids_unique.
  - eapply (cancel_alter tr (cancel h s)); [by apply cancel_cancel|reflexivity|done|done|done].
  - apply Hgo; try done. by right.
Qed.

Lemma cancel_spawn tr s line :
  NoDup (requested (tr ++ [ERead line])) → peekType line = Some (str "control_request") →
  handlers_inv s → cancel_inv tr s → cancel_inv (tr ++ [ERead line]) (spawnControlRequest line s).
Proof.
  intros Hnd Ht Hh Hi. pose proof (cancel_mono tr (ERead line) s Hi) as Hi'. unfold spawnControlRequest.
  destruct (decodeRequest line) as [[id body]|] eqn:Ed; [|done]. destruct (bytes_eqb id []); [done|].
  destruct (closed s) eqn:Ecl; [done|].
  assert (requestOf (ERead line) = Some id) as Er by (cbn; by rewrite bool_decide_true, Ed).
  rewrite requested_snoc, Er in Hnd. apply NoDup_app in Hnd as (_ & Hnew & _). destruct Hi as [Hs Hc].
  assert (closer s = CIdle) as Ec by (destruct (closer s) eqn:E; [done|..]; (rewrite (hi_closed _ Hh) in Ecl; [done|by rewrite E])).
  split; cbn.
  - rewrite fmap_app, requested_snoc, Er. by apply sublist_app.
  - intros h x [Hx|[Hlen Hx]]%lookup_app_Some Hw.
    + unfold covered. cbn. rewrite Ec. destruct (Hc h x Hx Hw) as [?|[?|Hcov]]; [by left|by right; left|]. rewrite Ec in Hcov.
      right. right. rewrite lookup_insert_ne; [done|]. intros ->. eapply Hnew; [|by apply list_elem_of_singleton].
      eapply elem_of_sublist; [|exact Hs]. apply list_elem_of_fmap. exists x. split; [done|]. by eapply list_elem_of_lookup_2.
    + apply list_lookup_singleton_Some in Hx as [Hz <-]. right. right. cbn. rewrite Ec.
      replace h with (length (handlers s)) by lia. by rewrite lookup_insert_eq.
Qed.

Lemma cancel_cancelRequest tr s line :
  reader s = RIdle → cancel_inv tr s → cancel_inv (tr ++ [ERead line]) (cancelControlRequest line s).
Proof.
  intros Er Hi. pose proof (cancel_mono tr (ERead line) s Hi) as Hi'. unfold cancelControlRequest.
  destruct (decodeCancel line) as [id|]; [|done]. destruct (bytes_eqb id []); [done|].
  destruct (inflight s !! id) as [h|] eqn:Eh; [|done]. destruct Hi' as [Hs Hc]. split; cbn; [done|].
  intros h' x Hx Hw. unfold covered. cbn. destruct (Hc h' x Hx Hw) as [?|[?|Hcov]]; [by left|congruence|].
  destruct (closer s); try (right; right; done). destruct (decide (h_id x = id)) as [E|Hn].
  - right. left. congruence.
  - right. right. by rewrite lookup_delete_ne.
Qed.

Lemma cancel_step tr s e s' :
  NoDup (requested (tr ++ [e])) → handlers_inv s → cancel_inv tr s → step s e = Some s' → cancel_inv (tr ++ [e]) s'.
Proof.
  intros Hnd Hh Hi Hs. pose proof (cancel_mono tr e s Hi) as Hi'.
  destruct e as [u ? ? ?|u|u err|u|u|u|u|line| | | | |h ? ?|h ?|h|h|h| |o| | |]; cbn [step] in Hs;
    try (destruct (handlers s !! h) as [x|] eqn:Hx; [by eapply cancel_handler_step|done]);
    try (crack Hs; (eapply cancel_same; [exact Hi|done|done|done|cbn; congruence])); cbn in Hs.
  - destruct (reader s) eqn:Er; try discriminate Hs. injection Hs as <-. unfold route.
    assert (∀ s0, handlers s0 = handlers s → inflight s0 = inflight s → closer s0 = closer s → cancel_inv (tr ++ [ERead line]) s0) as Hsame
      by (intros s0 E1 E2 E3; eapply cancel_same; [exact Hi|done|done|done|rewrite Er; done]).
    destruct (peekType line) as [ty|] eqn:Ety; [|unfold push; case_match; by apply Hsame].
    destruct (bytes_eqb ty _); [unfold routeControlResponse; repeat case_match; by apply Hsame|].
    destruct (bytes_eqb ty (str "control_request")) eqn:E; [apply bool_decide_eq_true in E as ->; by apply cancel_spawn|].
    destruct (bytes_eqb ty (str "control_cancel_request")); [by apply cancel_cancelRequest|].
    destruct (bytes_eqb ty (str "transcript_mirror")); [done|]. unfold push. case_match; by apply Hsame.
  - destruct (reader s) eqn:Er; try discriminate Hs. injection Hs as <-. eapply (cancel_alter _ s); [exact Hi'|reflexivity|done|by left|].
    intros h' x Hn Hx _ [?|[?|?]]; [by left|congruence|by right; right].
  - destruct (closer s) eqn:Ec; try discriminate Hs. case_decide as Ho; [|done]. injection Hs as <-. destruct Hi' as [Hsub Hc].
    split; cbn; [done|]. intros h x Hx Hw. unfold covered. cbn. destruct (Hc h x Hx Hw) as [?|[?|Hcov]]; [by left|by right; left|].
    right. right. rewrite Ec in Hcov. rewrite Ho. apply list_elem_of_fmap. exists (h_id x, h). by rewrite elem_of_map_to_list.
  - destruct (closer s) as [|[|h l]| | |] eqn:Ec; try discriminate Hs; injection Hs as <-.
    + destruct Hi' as [Hsub Hc]. split; cbn; [done|]. intros h x Hx Hw. unfold covered. cbn.
      destruct (Hc h x Hx Hw) as [?|[?|Hcov]]; [by left|by right; left|]. rewrite Ec in Hcov. set_solver.
    + eapply (cancel_alter _ s); [exact Hi'|reflexivity|done|by left|].
      intros h' x Hn Hx _ [?|[?|Hcov]]; [by left|by right; left|]. right. right. rewrite Ec in Hcov. cbn. set_solver.
  - destruct (closer s) eqn:Ec; try discriminate Hs. case_decide as Ho; [|done]. injection Hs as <-. destruct Hi' as [Hsub Hc].
    split; cbn; [done|]. intros h x Hx Hw. unfold covered. cbn. destruct (Hc h x Hx Hw) as [?|[?|Hcov]]; [by left|by right; left|]. by rewrite Ec in Hcov.
  - destruct (closer s) as [| | |d [|ch l] r|] eqn:Ec; try discriminate Hs; injection Hs as <-; destruct Hi' as [Hsub Hc];
      unfold trySend; repeat case_match; (split; cbn; [done|]); intros h x Hx Hw; unfold covered; cbn;
      (destruct (Hc h x Hx Hw) as [?|[?|Hcov]]; [by left|by right; left|]); by rewrite Ec in Hcov.
Qed.

Lemma run_cancel tr s : NoDup (requested tr) → run newControlProtocol tr = Some s → cancel_inv tr s.
Proof.
  intros Hnd Hr. revert Hnd. cut (handlers_inv s ∧ (NoDup (requested tr) → cancel_inv tr s)); [tauto|]. revert Hr.
  apply (run_invariant (λ tr s, handlers_inv s ∧ (NoDup (requested tr) → cancel_inv tr s))).
  - split; [by split|]. intros _. split; cbn; [done|]. by intros [].
  - intros tr' s1 e s2 [Hh Hc] Hs. split; [by eapply handlers_step|]. intros Hnd. eapply cancel_step; [done|done| |done].
    apply Hc. rewrite requested_snoc in Hnd. by apply NoDup_app in Hnd as [? _].
Qed.

(** ** Replies *)

Definition responder (w : wire) : option nat := match w with WResponse h _ _ => Some h | WRequest _ _ => None end.
Definition responders (ws : list wire) : list nat := omap responder ws.

Record replies_inv (s : controlProtocol) : Prop := {
  re_once : NoDup (responders (written s));
  re_own h id r : WResponse h id r ∈ written s → ∃ x, handlers s !! h = Some x ∧ h_id x = id ∧ working x = false;
}.

(** Handlers keep their request, their context stays done, and they do not go back. *)
Definition evolves (s s' : controlProtocol) : Prop :=
  ∀ h x, handlers s !! h = Some x → ∃ x', handlers s' !! h = Some x' ∧ h_id x' = h_id x ∧ h_body x' = h_body x ∧
    (h_done x = true → h_done x' = true) ∧ (working x = false → working x' = false).

Lemma evolves_same s s' : handlers s' = handlers s → evolves s s'.
Proof. intros E h x Hx. rewrite E. exists x. by split_and!. Qed.

Lemma evolves_alter s s' h f :
  handlers s' = alter f h (handlers s) →
  (∀ x, handlers s !! h = Some x → h_id (f x) = h_id x ∧ h_body (f x) = h_body x ∧ (h_done x = true → h_done (f x) = true) ∧ (working x = false → working (f x) = false)) →
  evolves s s'.
Proof.
  intros E Hf h' x Hx. rewrite E, list_lookup_alter. case_decide as Hd; [|exists x; by split_and!]. subst h'. rewrite Hx. cbn.
  exists (f x). destruct (Hf x Hx) as (? & ? & ? & ?). by split_and!.
Qed.

Lemma evolves_trans s s' s'' : evolves s s' → evolves s' s'' → evolves s s''.
Proof.
  intros H1 H2 h x Hx. destruct (H1 h x Hx) as (y & Hy & ? & ? & ? & ?). destruct (H2 h y Hy) as (z & Hz & ? & ? & ? & ?).
  exists z. split_and!; [done|congruence|congruence|auto|auto].
Qed.

Lemma handler_step_evolves s h e x s' : handlers s !! h = Some x → handler_step h e x s = Some s' → evolves s s'.
Proof.
  intros Hx Hs. assert (∀ pc s0, handlers s0 = handlers s → (working x = false → working (Handler (h_id x) (h_body x) (h_done x) pc) = false) →
    evolves s (goHandler h pc s0)) as Hgo.
  { intros pc s0 E Hw. eapply (evolves_alter s _ h); [cbn; by rewrite E|]. intros y Hy. rewrite Hx in Hy. injection Hy as <-. by split_and!. }
  unfold handler_step in Hs. destruct e; try discriminate Hs; destruct (h_pc x) eqn:Epc; try discriminate Hs; injection Hs as <-.
  - apply Hgo; [done|]. unfold working. by rewrite Epc.
  - apply Hgo; [by destruct ok|done].
  - by apply Hgo.
  - apply (evolves_trans s (cancel h s)); eapply (evolves_alter _ _ h); [reflexivity|done|reflexivity|done].
  - by apply Hgo.
Qed.

Lemma step_evolves s e s' : step s e = Some s' → evolves s s'.
Proof.
  intros Hs. assert (∀ h s0, handlers s0 = handlers (cancel h s) → evolves s s0) as Hcan
    by (intros h s0 E; eapply (evolves_alter s s0 h); [exact E|done]).
  destruct e as [u ? ? ?|u|u err|u|u|u|u|line| | | | |h ? ?|h ?|h|h|h| |o| | |]; cbn [step] in Hs;
    try (destruct (handlers s !! h) as [x|] eqn:Hx; [by eapply handler_step_evolves|done]);
    try (by crack Hs; first [by apply evolves_same|eapply Hcan; reflexivity]).
  crack Hs; try by apply evolves_same. intros h x Hx. exists x. cbn. rewrite lookup_app_l by (by eapply lookup_lt_Some). by split_and!.
Qed.

(** Only a handler's own write adds a response. *)
Lemma step_written s e s' :
  step s e = Some s' →
  responders (written s') = responders (written s) ∧ (∀ h id r, WResponse h id r ∈ written s' → WResponse h id r ∈ written s) ∨
  ∃ h x r, e = EReply h true ∧ handlers s !! h = Some x ∧ h_pc x = HReply r ∧
    s' = goHandler h HDelete (emit (WResponse h (h_id x) r) s).
Proof.
  intros Hs. assert (∀ s0, written s0 = written s → responders (written s0) = responders (written s) ∧
    (∀ h id r, WResponse h id r ∈ written s0 → WResponse h id r ∈ written s)) as Hsame by (intros s0 ->; done).
  destruct e as [u ? ? ?|u|u err|u|u|u|u|line| | | | |h ? ?|h ok|h|h|h| |o| | |]; cbn [step] in Hs;
    try (by left; crack Hs; apply Hsame).
  - left. crack Hs; [by apply Hsame|]. split.
    + unfold responders. rewrite omap_app. cbn. by rewrite app_nil_r.
    + intros h id r [?|Hin]%elem_of_app; [done|]. by apply list_elem_of_singleton in Hin.
  - destruct (handlers s !! h) as [x|] eqn:Hx; [|done]. cbn in Hs. destruct (h_pc x) eqn:Epc; try discriminate Hs. injection Hs as <-.
    destruct ok; [right; eauto 8|left; by apply Hsame].
Qed.

Lemma replies_step s e s' : replies_inv s → step s e = Some s' → replies_inv s'.
Proof.
  intros [Ho Hw] Hs. pose proof (step_evolves s e s' Hs) as Hev.
  destruct (step_written s e s' Hs) as [[Er Hin]|(h & x & r & -> & Hx & Epc & ->)].
  - split; [by rewrite Er|]. intros h id r (x & Hx & Eid & Hwk)%Hin%Hw. destruct (Hev h x Hx) as (x' & Hx' & E & _ & _ & Hw').
    exists x'. split_and!; [done|congruence|auto].
  - assert (h ∉ responders (written s)) as Hnew.
    { intros (w & Hin & E)%list_elem_of_omap.
      destruct w as [|h' id r']; [done|]. injection E as ->. destruct (Hw _ _ _ Hin) as (y & Hy & _ & Hwk).
      rewrite Hx in Hy. injection Hy as <-. unfold working in Hwk. by rewrite Epc in Hwk. }
    split.
    + cbn. unfold responders. rewrite omap_app. cbn. apply NoDup_app. split_and!; [done| |apply NoDup_singleton].
      intros h' Hh' ->%list_elem_of_singleton. done.
    + cbn. intros h' id r' [Hin|Hin]%elem_of_app.
      * destruct (Hw _ _ _ Hin) as (y & Hy & Eid & Hwk). destruct (Hev h' y Hy) as (y' & Hy' & E & _ & _ & Hw').
        exists y'. split_and!; [done|congruence|auto].
      * apply list_elem_of_singleton in Hin as [= -> -> ->]. eexists. rewrite list_lookup_alter_eq, Hx. split; [done|]. done.
Qed.

Lemma run_replies tr s : run newControlProtocol tr = Some s → replies_inv s.
Proof.
  apply (run_invariant (λ _, replies_inv)); [|intros; by eapply replies_step].
  split; cbn; [constructor|]. intros h id r Hin. by apply elem_of_nil in Hin.
Qed.

(** The context of a running handler with a well-formed request is done. *)
Definition silenced (h : nat) (s : controlProtocol) : Prop :=
  h ∉ responders (written s) ∧ ∃ x, handlers s !! h = Some x ∧
    (working x = true → h_pc x = HRun ∧ h_done x || parent s = true ∧ is_Some (decodeHead (h_body x))).

Definition stopped (s : controlProtocol) (x : handler) : Prop :=
  h_pc x = HRun ∧ h_done x || parent s = true ∧ is_Some (decodeHead (h_body x)).

Lemma handler_step_stopped s h h' e x y s' :
  handlers s !! h = Some x → handlers s !! h' = Some y → handler_step h' e y s = Some s' → stopped s x →
  ∃ x', handlers s' !! h = Some x' ∧ (working x' = true → stopped s' x').
Proof.
  intros Hx Hy Hs (Hpc & Hd & Hdec). destruct (decide (h' = h)) as [->|Hn].
  - rewrite Hx in Hy. injection Hy as <-. unfold handler_step in Hs. rewrite Hpc in Hs. destruct e; try discriminate Hs. injection Hs as <-.
    cbn. rewrite list_lookup_alter_eq, Hx. eexists. split; [reflexivity|]. unfold working, handleControlRequest. cbn.
    destruct Hdec as [ty ->]. by rewrite Hd.
  - exists x. assert (handlers s' !! h = handlers s !! h ∧ parent s' = parent s) as [-> Ep].
    { unfold handler_step in Hs. destruct e; try discriminate Hs; destruct (h_pc y); try discriminate Hs; injection Hs as <-;
        try destruct ok; cbn; by rewrite ?list_lookup_alter_ne. }
    split; [done|]. intros _. unfold stopped. by rewrite Ep.
Qed.

Lemma step_stopped s e s' h x :
  step s e = Some s' → handlers s !! h = Some x → stopped s x →
  ∃ x', handlers s' !! h = Some x' ∧ (working x' = true → stopped s' x').
Proof.
  intros Hs Hx Hst. assert (∀ s0, handlers s0 = handlers s → parent s0 = parent s → 
    ∃ x', handlers s0 !! h = Some x' ∧ (working x' = true → stopped s0 x')) as Hsame.
  { intros s0 E1 E2. exists x. rewrite E1. split; [done|]. intros _. unfold stopped. by rewrite E2. }
  assert (∀ g s0, handlers s0 = handlers (cancel g s) → parent s0 = parent s →
    ∃ x', handlers s0 !! h = Some x' ∧ (working x' = true → stopped s0 x')) as Hcan.
  { intros g s0 E1 E2. unfold stopped in *. rewrite E1, E2. cbn. rewrite list_lookup_alter.
    destruct Hst as (? & ? & ?). case_decide as Hd; [subst g; rewrite Hx; eexists; by split|exists x; by split]. }
  destruct e as [u ? ? ?|u|u err|u|u|u|u|line| | | | |h' ? ?|h' ?|h'|h'|h'| |o| | |]; cbn [step] in Hs;
    try (destruct (handlers s !! h') as [y|] eqn:Hy; [exact (handler_step_stopped s h h' _ x y s' Hx Hy Hs Hst)|done]);
    try (by crack_step Hs; first [by apply Hsame|eapply Hcan; reflexivity]).
  - crack_step Hs; try by apply Hsame. exists x. cbn. rewrite lookup_app_l by (by eapply lookup_lt_Some). done.
  - injection Hs as <-. exists x. split; [done|]. intros _. destruct Hst as (? & ? & ?). unfold stopped. cbn. by rewrite orb_true_r.
Qed.

Lemma silenced_step h s e s' : step s e = Some s' → silenced h s → silenced h s'.
Proof.
  intros Hs (Hnin & x & Hx & Hw).
  assert (∃ x', handlers s' !! h = Some x' ∧ (working x' = true → stopped s' x')) as (x' & Hx' & Hst').
  { destruct (working x) eqn:Ew; [by eapply step_stopped; [| |apply Hw]|].
    destruct (step_evolves s e s' Hs h x Hx) as (x' & Hx' & _ & _ & _ & Hw'). exists x'. split; [done|]. rewrite Hw' by done. done. }
  split; [|eauto]. destruct (step_written s e s' Hs) as [[-> _]|(h' & y & r & -> & Hy & Epc & ->)]; [done|]. cbn.
  unfold responders. rewrite omap_app, elem_of_app. intros [?|E%list_elem_of_singleton]; [done|]. subst h'.
  rewrite Hx in Hy. injection Hy as <-. destruct Hw as [? _]; [unfold working; by rewrite Epc|]. congruence.
Qed.

(** ** Properties *)

(** C17: a control request that returns a result returns what the CLI sent in a
    response with the identifier of this request, read after the request was
    registered, or the error that its connection is gone; and up to 2^64 requests no
    two of them share an identifier. *)
Theorem response_matches tr s t x r :
  run newControlProtocol tr = Some s → (Z.of_nat (sends tr) < 2 ^ 64)%Z →
  senders s !! t = Some x → s_pc x = SDone (Received r) →
  (answered tr t (s_id x) r ∨ disconnects tr r) ∧
  ∀ t' x', senders s !! t' = Some x' → s_id x' = s_id x → t' = t.
Proof.
  intros Hr Hlt Hx Hpc. pose proof (run_requests _ _ Hr) as Hi. pose proof (run_numbers _ _ Hlt Hr) as Hn. split.
  - eapply ri_result; [exact Hi|exact Hx|by right].
  - intros t' x' Hx' E. by eapply numbers_ids.
Qed.

(** The table of pending requests holds exactly the requests between their
    registration and their return, each under its own identifier: every exit of
    [sendControlRequest] takes its entry out and nobody else's. *)
Theorem pending_exact tr s id t :
  run newControlProtocol tr = Some s → (Z.of_nat (sends tr) < 2 ^ 64)%Z →
  pending s !! id = Some t ↔ ∃ x, senders s !! t = Some x ∧ s_id x = id ∧ active (s_pc x) = true.
Proof.
  intros Hr Hlt. pose proof (run_requests _ _ Hr) as Hi. pose proof (run_numbers _ _ Hlt Hr) as Hn. split.
  - by apply (ri_pending _ _ Hi).
  - intros (x & Hx & <- & Hact). by eapply ni_active.
Qed.

(** C18: when the read loop has ended on a read error, or [Close] has passed
    [failPending], no request registered by then is left waiting: it has returned, is
    about to, or has a result in its channel. *)
Theorem fail_fast tr1 e tr2 s1 s id t :
  run newControlProtocol tr1 = Some s1 → pending s1 !! id = Some t →
  run newControlProtocol (tr1 ++ e :: tr2) = Some s →
  (∃ cause order, e = EReadError cause order ∧ reader s = RDone) ∨
  (∃ d order d', e = ECloserWait d order ∧ closer s = CDone d') →
  ready s t.
Proof.
  intros H1 Hp Hr Hend. rewrite run_app, H1 in Hr. cbn in Hr. destruct (step s1 e) as [s2|] eqn:Hs; [|done].
  pose proof (pending_registered _ _ _ _ (run_requests _ _ H1) Hp) as Hreg. pose proof (registered_step _ _ _ _ Hs Hreg) as Hreg2.
  destruct Hend as [(cause & order & -> & Hd)|(d & order & d' & -> & Hd)]; cbn in Hs.
  - destruct (reader s1); try discriminate Hs. case_decide as Ho; [|done]. injection Hs as <-.
    assert (reader_tells s t) as [?|(_ & l & r & E & _)]; [|done|congruence].
    eapply (run_keeps (λ s, reader_tells s t)); [intros; by eapply reader_tells_step| |exact Hr].
    right. split; [done|]. eexists _, _. split; [reflexivity|]. by eapply pending_values.
  - destruct (closer s1); try discriminate Hs. case_decide as Ho; [|done]. injection Hs as <-.
    assert (closer_tells s t) as [?|(_ & d0 & l & r & E & _)]; [|done|congruence].
    eapply (run_keeps (λ s, closer_tells s t)); [intros; by eapply closer_tells_step| |exact Hr].
    right. split; [done|]. eexists _, _, _. split; [reflexivity|]. eapply pending_values; [exact Hp|apply Ho].
Qed.

(** C19: [Close] and the handlers.  Once its barrier is up no request of the CLI gets
    a handler; if [waitInflight] reports that the handlers are drained, every handler
    there ever was has returned; and past [closeInflight] every handler that still runs
    its callback or is about to reply has its context done, or the read loop is at the
    call that cancels it, provided the CLI gives its requests different identifiers. *)
Theorem close_handlers tr s :
  run newControlProtocol tr = Some s →
  (closer s ≠ CIdle → ∀ e s', step s e = Some s' → length (handlers s') = length (handlers s)) ∧
  (match closer s with CFail true _ _ | CDone true => Forall (λ x, h_pc x = HDone) (handlers s) | _ => True end) ∧
  (NoDup (requested tr) → match closer s with CIdle | CCancel _ => False | _ => True end →
    ∀ h x, handlers s !! h = Some x → working x = true → h_done x = true ∨ reader s = RCancel h).
Proof.
  intros Hr. pose proof (run_handlers _ _ Hr) as Hh. split_and!.
  - intros Hc e s' Hs. pose proof (hi_closed _ Hh Hc) as Hcl. crack Hs; rewrite ?length_alter; congruence.
  - pose proof (hi_drained _ Hh) as Hd. assert (count live (handlers s) = 0 → Forall (λ x, h_pc x = HDone) (handlers s)) as Hall.
    { generalize (handlers s). intros l. induction l as [|x l IH]; cbn; [constructor|]. unfold live at 1. intros Hz.
      constructor; [destruct (h_pc x); done || lia|apply IH; lia]. }
    destruct (closer s) as [| | |[]|[]]; auto.
  - intros Hnd Hpast h x Hx Hw. destruct (ci_covered _ _ (run_cancel _ _ Hnd Hr) h x Hx Hw) as [?|[?|Hc]]; [by left|by right|].
    by destruct (closer s).
Qed.

(** C20: requests of the CLI are answered at most once each, every response carries
    the identifier of the request it answers, and a request whose context is done
    while its callback runs is never answered. *)
Theorem replies_at_most_once tr s :
  run newControlProtocol tr = Some s →
  NoDup (responders (written s)) ∧
  (∀ h id r, WResponse h id r ∈ written s → ∃ x, handlers s !! h = Some x ∧ h_id x = id) ∧
  (∀ h x tr' s', handlers s !! h = Some x → h_pc x = HRun → h_done x || parent s = true → is_Some (decodeHead (h_body x)) →
    run s tr' = Some s' → h ∉ responders (written s')).
Proof.
  intros Hr. pose proof (run_replies _ _ Hr) as [Ho Hw]. split_and!; [done| |].
  - intros h id r (x & Hx & E & _)%Hw. eauto.
  - intros h x tr' s' Hx Hpc Hd Hdec Hr'. eapply (run_keeps (silenced h)); [intros; by eapply silenced_step| |exact Hr'].
    split; [|eauto]. intros (w & Hin & E)%list_elem_of_omap. destruct w as [|h' id r]; [done|]. injection E as ->.
    destruct (Hw _ _ _ Hin) as (y & Hy & _ & Hwk). rewrite Hx in Hy. injection Hy as <-. unfold working in Hwk. by rewrite Hpc in Hwk.
Qed.
End spec.

(** ** Runs *)

(** Lines whose first byte is their type and whose rest is an identifier. *)
#[local] Instance demo : Codec := {|
  peekType line := match line with 1%Z :: _ => Some (str "control_response") | 2%Z :: _ => Some (str "control_request")
    | 3%Z :: _ => Some (str "control_cancel_request") | _ => Some (str "assistant") end;
  decodeResponse line := Some (Env (drop 1 line) (str "success") (str "ok") []);
  decodeRequest line := Some (drop 1 line, str "body");
  decodeCancel line := Some (drop 1 line);
  decodeHead _ := Some (str "can_use_tool");
  marshalRequest id _ _ := Some id;
|}.

Definition req1 : bytes := str "req_1_00000000".

(** A request, up to its wait. *)
Definition sent : list event := [ESend 0 (str "interrupt") [] None; ERegister 0; EWrite 0 None].
Definition received : list event := sent ++ [ERead (1%Z :: req1); ERouteSend; EReceive 0; EReap 0].

Definition state_of (tr : list event) : controlProtocol := default newControlProtocol (run newControlProtocol tr).

Lemma response_matches_witness :
  senders (state_of received) !! 0 = Some (Sender 1 req1 (str "interrupt") (SDone (Received (Response (str "ok"))))) ∧
  (answered received 0 req1 (Response (str "ok")) ∨ disconnects received (Response (str "ok"))).
Proof.
  split; [vm_compute; reflexivity|].
  refine (proj1 (response_matches received (state_of received) 0 (Sender 1 req1 (str "interrupt") (SDone (Received (Response (str "ok"))))) _ _ _ _ _));
    vm_compute; reflexivity.
Defined.

(** The request is waiting when the stream ends. *)
Definition ended : list event := [EReaderFail; EReaderFail].

Lemma fail_fast_witness :
  chans (state_of (sent ++ EReadError (str "EOF") [0] :: ended)) !! 0 = Some (Some (disconnected (Some (str "EOF")))) ∧
  ready (state_of (sent ++ EReadError (str "EOF") [0] :: ended)) 0.
Proof.
  split; [vm_compute; reflexivity|].
  apply (fail_fast sent (EReadError (str "EOF") [0]) ended (state_of sent) _ req1); [vm_compute; reflexivity..|].
  left. exists (str "EOF"), [0]. split; [reflexivity|vm_compute; reflexivity].
Defined.

(** [Close] while a handler runs its callback. *)
Definition closing : list event := [ERead (2%Z :: str "a"); EClose [0]; ECloserCancel; ECloserCancel].

Lemma close_handlers_witness :
  ∃ x, handlers (state_of closing) !! 0 = Some x ∧ h_pc x = HRun ∧ (h_done x = true ∨ reader (state_of closing) = RCancel 0).
Proof.
  destruct (close_handlers closing (state_of closing)) as (_ & _ & Hc); [vm_compute; reflexivity|].
  exists (Handler (str "a") (str "body") true HRun). split; [vm_compute; reflexivity|]. split; [reflexivity|].
  assert (requested closing = [str "a"]) as E by (vm_compute; reflexivity). rewrite E in Hc.
  apply (Hc (NoDup_singleton _)); vm_compute; reflexivity.
Defined.

Lemma replies_at_most_once_witness :
  ∃ x, handlers (state_of closing) !! 0 = Some x ∧ h_pc x = HRun ∧
  0 ∉ responders (written (state_of (closing ++ [EHandle 0 (OData []) []; EHandlerDelete 0; EHandlerCancel 0; EHandlerDone 0]))).
Proof.
  destruct (replies_at_most_once closing (state_of closing)) as (_ & _ & Hc); [vm_compute; reflexivity|].
  exists (Handler (str "a") (str "body") true HRun). split; [vm_compute; reflexivity|]. split; [reflexivity|].
  eapply (Hc 0 (Handler (str "a") (str "body") true HRun) [EHandle 0 (OData []) []; EHandlerDelete 0; EHandlerCancel 0; EHandlerDone 0]);
    vm_compute; try reflexivity. by eexists.
Defined.

(** [closeInflight] does not cancel every handler: of two requests with the same
    identifier the first to finish takes the other's entry with it, and [Close] then
    waits for a handler that nobody told. *)
Example duplicate_identifier :
  let s := state_of [ERead (2%Z :: str "a"); ERead (2%Z :: str "a"); EHandle 0 (OData []) []; EReply 0 true; EHandlerDelete 0;
    EClose []; ECloserCancel] in
  closer s = CWait ∧ handlers s !! 1 = Some (Handler (str "a") (str "body") false HRun) ∧ reader s = RIdle.
Proof. vm_compute. done. Qed.

(** The read loop that returns because it cannot pass a line on fails no pending
    request: this one waits for its own timeout. *)
Example push_fails_silently :
  let s := state_of (sent ++ [EParent; ERead (str "line")]) in
  reader s = RDone ∧ chans s !! 0 = Some None ∧ (s_pc <$> senders s !! 0) = Some SWait.
Proof. vm_compute. done. Qed.
End ControlSpec.
