(* ===== verification/ClaudePermissions.v ===== *)
(** Permissions of pkg/llm/claude: permission updates and their wire shape
    (permission_update.go), the hooks and the permission callback evaluated locally
    (hooks.go), and the answers to [can_use_tool] and [hook_callback] requests
    (control_protocol.go).  User callbacks act on a world [W] they share. *)
From S2P Require Import Prelude GoUtf8 GoStrings.

Module Permissions.

(** ** Values of type any *)

(** The dynamic types the sources put into a [map[string]any], or find in one.  Maps
    are lists of entries with different keys. *)
Inductive any :=
| ANil
| AString (s : bytes)
| ABool (b : bool)
| AInt (n : Z)
| ARaw (v : bytes)                              (* jsontext.Value *)
| AStrings (l : list bytes)                     (* []string *)
| ASlice (l : list any)                         (* []any *)
| AMap (m : list (bytes * any))                 (* map[string]any *)
| AMaps (l : list (list (bytes * any))).        (* []map[string]any *)

Abbreviation wire := (list (bytes * any)).

Fixpoint get (m : wire) (k : bytes) : option any :=
  match m with
  | [] => None
  | (k', v) :: m => if bytes_eqb k' k then Some v else get m k
  end.

(** [v, ok := data[k].(T)]. *)
Definition asString (v : option any) : option bytes := match v with Some (AString s) => Some s | _ => None end.
Definition asSlice (v : option any) : option (list any) := match v with Some (ASlice l) => Some l | _ => None end.
Definition asMap (v : any) : option wire := match v with AMap m => Some m | _ => None end.

(** [if s != "" { out[k] = s }]. *)
Definition unlessEmpty (k s : bytes) : wire := if bytes_eqb s [] then [] else [(k, AString s)].

(** ** Permission updates *)

Record PermissionRuleValue := Rule { ToolName : bytes; RuleContent : bytes }.

(** A nil slice is [None]. *)
Record PermissionUpdate := Update {
  Type_ : bytes;
  Rules : option (list PermissionRuleValue);
  Behavior : bytes;
  Mode : bytes;
  Directories : option (list bytes);
  Destination : bytes;
}.

(** The groups of update types. *)
Inductive variant := RulesVariant | ModeVariant | DirectoriesVariant | OtherVariant.

Definition variantOf (t : bytes) : variant :=
  if bytes_eqb t (str "addRules") || bytes_eqb t (str "replaceRules") || bytes_eqb t (str "removeRules") then RulesVariant
  else if bytes_eqb t (str "setMode") then ModeVariant
  else if bytes_eqb t (str "addDirectories") || bytes_eqb t (str "removeDirectories") then DirectoriesVariant
  else OtherVariant.

Definition ruleWire (r : PermissionRuleValue) : wire :=
  [(str "toolName", AString (ToolName r)); (str "ruleContent", AString (RuleContent r))].

Definition ToWire (u : PermissionUpdate) : wire :=
  [(str "type", AString (Type_ u))] ++ unlessEmpty (str "destination") (Destination u) ++
  match variantOf (Type_ u) with
  | RulesVariant =>
      match Rules u with Some rs => [(str "rules", AMaps (ruleWire <$> rs))] | None => [] end ++
      unlessEmpty (str "behavior") (Behavior u)
  | ModeVariant => unlessEmpty (str "mode") (Mode u)
  | DirectoriesVariant => match Directories u with Some ds => [(str "directories", AStrings ds)] | None => [] end
  | OtherVariant => []
  end.

Definition wireToRule (m : wire) : PermissionRuleValue :=
  Rule (default [] (asString (get m (str "toolName")))) (default [] (asString (get m (str "ruleContent")))).

Definition PermissionUpdateFromWire (data : wire) : PermissionUpdate :=
  let field k := default [] (asString (get data k)) in
  Update (field (str "type"))
    (option_map (omap (M := list) (λ v, option_map wireToRule (asMap v))) (asSlice (get data (str "rules"))))
    (field (str "behavior"))
    (field (str "mode"))
    (option_map (omap (M := list) (λ v, asString (Some v))) (asSlice (get data (str "directories"))))
    (field (str "destination")).

(** ** Hooks *)

(** [PermissionDecision] is a string type with these constants. *)
Definition PermissionAsk : bytes := [].
Definition PermissionAllow : bytes := str "allow".
Definition PermissionDeny : bytes := str "deny".

Record HookSpecificOutput := HSO { HookEventName : bytes; Decision_ : bytes; Reason : bytes; ORaw : bytes }.
Record HookDecision := HDecision { Output : HookSpecificOutput; SystemMessage : bytes; AdditionalContext : bytes; DRaw : bytes }.

Definition verdict (p reason : bytes) : HookDecision := HDecision (HSO [] p reason []) [] [] [].
Definition zeroDecision : HookDecision := verdict PermissionAsk [].

Record HookEvent := HEvent {
  Kind : bytes; SessionID : bytes; EToolName : bytes; ToolInput : bytes; EToolResult : bytes; Prompt : bytes; ERaw : bytes;
}.

(** An error of a callback, or the bad pattern of a registration. *)
Inductive error :=
| CallbackError (msg : bytes)
| CLIConnectionError (pattern : bytes)
| PlainError (msg : bytes).

(** [PermissionResult], nil included. *)
Inductive PermissionResult :=
| NoOpinion
| PermissionResultAllow (UpdatedInput : bytes) (UpdatedPermissions : option (list PermissionUpdate))
| PermissionResultDeny (Message : bytes) (Interrupt : bool).

Record ToolPermissionContext := TPContext {
  Suggestions : list PermissionUpdate; ToolUseID : bytes; AgentID : bytes; BlockedPath : bytes;
  DecisionReason : bytes; Title : bytes; DisplayName : bytes; Description : bytes;
}.

Definition zeroContext : ToolPermissionContext := TPContext [] [] [] [] [] [] [] [].

(** [a += "\n" + b], with no separator before the first text. *)
Definition addLine (a b : bytes) : bytes :=
  if bytes_eqb b [] then a else if bytes_eqb a [] then b else a ++ [LF] ++ b.

Definition mergeHookDecision (merged decision : HookDecision) : HookDecision :=
  let o := Output merged in
  let d := Output decision in
  let o' := if decide (Decision_ d = PermissionAsk) then o
            else HSO (HookEventName o) (Decision_ d) (if bytes_eqb (Reason d) [] then Reason o else Reason d) (ORaw o) in
  HDecision o' (addLine (SystemMessage merged) (SystemMessage decision))
    (addLine (AdditionalContext merged) (AdditionalContext decision)) (DRaw merged).

Section hooks.
Context {W : Type} (Match : bytes → bytes → option bool).

Definition Hook : Type := HookEvent → W → W * result error HookDecision.
Definition CanUseTool : Type := bytes → bytes → ToolPermissionContext → W → W * result error PermissionResult.

Record HookRegistration := Reg { RKind : bytes; ToolGlob : bytes; Fn : option Hook }.

(** Whether the registration applies, or its pattern is bad. *)
Definition applies (r : HookRegistration) (e : HookEvent) : result error bool :=
  if negb (bytes_eqb (RKind r) (Kind e)) then Ok false
  else if bytes_eqb (ToolGlob r) [] then Ok true
  else match Match (ToolGlob r) (EToolName e) with
    | None => Err (CLIConnectionError (ToolGlob r))
    | Some ok => Ok ok
    end.

Fixpoint dispatch_loop (merged : HookDecision) (regs : list HookRegistration) (e : HookEvent) (w : W) : W * result error HookDecision :=
  match regs with
  | [] => (w, Ok merged)
  | r :: regs =>
      match applies r e with
      | Err err => (w, Err err)
      | Ok false => dispatch_loop merged regs e w
      | Ok true =>
          match Fn r with
          | None => dispatch_loop merged regs e w
          | Some f =>
              match f e w with
              | (w, Err err) => (w, Err err)
              | (w, Ok d) =>
                  let merged := mergeHookDecision merged d in
                  if decide (Decision_ (Output merged) = PermissionDeny) then (w, Ok merged) else dispatch_loop merged regs e w
              end
          end
      end
  end.

Definition dispatchHooks (regs : list HookRegistration) (e : HookEvent) (w : W) : W * result error HookDecision :=
  dispatch_loop zeroDecision regs e w.

Definition applyCanUseTool (fn : option CanUseTool) (e : HookEvent) (w : W) : W * result error HookDecision :=
  match fn with
  | None => (w, Ok zeroDecision)
  | Some f =>
      if negb (bytes_eqb (Kind e) (str "PreToolUse")) then (w, Ok zeroDecision)
      else
        match f (EToolName e) (ToolInput e) zeroContext w with
        | (w, Err err) => (w, Err err)
        | (w, Ok NoOpinion) => (w, Ok zeroDecision)
        | (w, Ok (PermissionResultAllow _ _)) => (w, Ok (verdict PermissionAllow []))
        | (w, Ok (PermissionResultDeny msg _)) => (w, Ok (verdict PermissionDeny msg))
        end
  end.

Record Options := Opts { Hooks : list HookRegistration; OCanUseTool : option CanUseTool }.

Definition withVerdict (d : HookDecision) (p reason : bytes) : HookDecision :=
  HDecision (HSO (HookEventName (Output d)) p (if bytes_eqb reason [] then Reason (Output d) else reason) (ORaw (Output d)))
    (SystemMessage d) (AdditionalContext d) (DRaw d).

Definition applyPermissions (opts : option Options) (e : HookEvent) (w : W) : W * result error HookDecision :=
  match opts with
  | None => (w, Ok zeroDecision)
  | Some opts =>
      match dispatchHooks (Hooks opts) e w with
      | (w, Err err) => (w, Err err)
      | (w, Ok hookDec) =>
          if decide (Decision_ (Output hookDec) = PermissionDeny) then (w, Ok hookDec)
          else
            match applyCanUseTool (OCanUseTool opts) e w with
            | (w, Err err) => (w, Err err)
            | (w, Ok canUse) =>
                let p := Decision_ (Output canUse) in
                if decide (p = PermissionDeny) then (w, Ok (withVerdict hookDec PermissionDeny (Reason (Output canUse))))
                else if decide (p = PermissionAsk) then (w, Ok hookDec)
                else (w, Ok (withVerdict hookDec p []))
            end
      end
  end.

(** ** Answers to the CLI *)

(** The fields of a [can_use_tool] request. *)
Record CanUseToolRequest := CUTRequest {
  QToolName : bytes; QInput : bytes; QSuggestions : list wire; QContext : ToolPermissionContext;
}.

Definition handleCanUseTool (fn : option CanUseTool) (decode : bytes → result bytes CanUseToolRequest) (reqBody : bytes) (w : W) : W * result error wire :=
  match fn with
  | None => (w, Err (PlainError ([DQUOTE] ++ str "CanUseTool" ++ [DQUOTE] ++ str " callback is not provided")))
  | Some f =>
      match decode reqBody with
      | Err err => (w, Err (PlainError (str "decode " ++ [DQUOTE] ++ str "CanUseTool" ++ [DQUOTE] ++ str " request: " ++ err)))
      | Ok req =>
          let c := QContext req in
          let pctx := TPContext (PermissionUpdateFromWire <$> QSuggestions req) (ToolUseID c) (AgentID c) (BlockedPath c)
            (DecisionReason c) (Title c) (DisplayName c) (Description c) in
          match f (QToolName req) (QInput req) pctx w with
          | (w, Err err) => (w, Err err)
          | (w, Ok r) =>
              let original := if length (QInput req) =? 0 then str "{}" else QInput req in
              (w, Ok match r with
                | NoOpinion => [(str "behavior", AString (str "allow")); (str "updatedInput", ARaw original)]
                | PermissionResultAllow input perms =>
                    [(str "behavior", AString (str "allow")); (str "updatedInput", ARaw (if length input =? 0 then original else input))] ++
                    match perms with Some us => [(str "updatedPermissions", AMaps (ToWire <$> us))] | None => [] end
                | PermissionResultDeny msg interrupt =>
                    [(str "behavior", AString (str "deny")); (str "message", AString msg)] ++
                    (if interrupt then [(str "interrupt", ABool true)] else [])
                end)
          end
      end
  end.

Definition hookDecisionWire (d : HookDecision) : wire :=
  let o := Output d in
  let hso := unlessEmpty (str "hookEventName") (HookEventName o) ++
    (if decide (Decision_ o = PermissionAsk) then [] else [(str "permissionDecision", AString (Decision_ o))]) ++
    unlessEmpty (str "permissionDecisionReason") (Reason o) in
  unlessEmpty (str "systemMessage") (SystemMessage d) ++ unlessEmpty (str "additionalContext") (AdditionalContext d) ++
  (if length hso =? 0 then [] else [(str "hookSpecificOutput", AMap hso)]).
End hooks.

(** ** Round trip *)

(** What a JSON round trip makes of a value: decoded into [any], arrays are [[]any],
    objects [map[string]any]. *)
Fixpoint generic (v : any) : any :=
  match v with
  | AStrings l => ASlice (AString <$> l)
  | ASlice l => ASlice (generic <$> l)
  | AMap m => AMap ((λ '(k, v), (k, generic v)) <$> m)
  | AMaps l => ASlice ((λ m, AMap ((λ '(k, v), (k, generic v)) <$> m)) <$> l)
  | v => v
  end.

(** The fields that belong to the type of the update. *)
Definition pruned (u : PermissionUpdate) : PermissionUpdate :=
  match variantOf (Type_ u) with
  | RulesVariant => Update (Type_ u) (Rules u) (Behavior u) [] None (Destination u)
  | ModeVariant => Update (Type_ u) None [] (Mode u) None (Destination u)
  | DirectoriesVariant => Update (Type_ u) None [] [] (Directories u) (Destination u)
  | OtherVariant => Update (Type_ u) None [] [] None (Destination u)
  end.

Lemma get_app m m' k : get (m ++ m') k = match get m k with Some v => Some v | None => get m' k end.
Proof. induction m as [|[k' v] m IH]; cbn; [done|]. by destruct (bytes_eqb k' k). Qed.

Lemma get_unlessEmpty k k' s : get (unlessEmpty k s) k' = if bytes_eqb k k' then (if bytes_eqb s [] then None else Some (AString s)) else None.
Proof. unfold unlessEmpty. destruct (bytes_eqb s []); cbn [get]; by destruct (bytes_eqb k k'). Qed.

Lemma text_or_zero s : default [] (asString (if bytes_eqb s [] then None else Some (AString s))) = s.
Proof. unfold bytes_eqb. case_bool_decide; by subst. Qed.

Lemma rules_back rs : omap (M := list) (λ v, option_map wireToRule (asMap v)) ((λ m, AMap ((λ '(k, v), (k, generic v)) <$> m)) <$> (ruleWire <$> rs)) = rs.
Proof. induction rs as [|[t c] rs IH]; [done|]. cbn in *. by rewrite IH. Qed.

Lemma directories_back ds : omap (M := list) (λ v, asString (Some v)) (AString <$> ds) = ds.
Proof. induction ds as [|d ds IH]; [done|]. cbn in *. by rewrite IH. Qed.

(** Decide the comparisons of literal keys. *)
Ltac keys :=
  repeat match goal with
  | |- context [bytes_eqb (str ?a) (str ?b)] =>
      let r := eval vm_compute in (bytes_eqb (str a) (str b)) in change (bytes_eqb (str a) (str b)) with r; cbn match
  end.

(** An update that is sent to the CLI and comes back as a suggestion is the same
    update, less the fields that do not belong to its type: encoding it, decoding the
    JSON text into a [map[string]any] and reading the map loses nothing else, nil and
    empty lists included.  [decoded] is the way through the JSON package. *)
Theorem permission_roundtrip (decoded : wire → wire) u :
  (∀ m k, get (decoded m) k = generic <$> get m k) →
  PermissionUpdateFromWire (decoded (ToWire u)) = pruned u ∧ ToWire (pruned u) = ToWire u.
Proof.
  intros Hd. split.
  - assert (∀ x, generic <$> (if bytes_eqb x [] then None else Some (AString x)) = if bytes_eqb x [] then None else Some (AString x)) as Hg
      by (intros x; by destruct (bytes_eqb x [])).
    unfold PermissionUpdateFromWire, pruned. rewrite !Hd. unfold ToWire. destruct u as [ty rs be mo ds de].
    cbn [Type_ Rules Behavior Mode Directories Destination].
    destruct (variantOf ty); [destruct rs as [rs|]| |destruct ds as [ds|]|]; repeat rewrite get_app; repeat rewrite get_unlessEmpty; cbn [get]; keys;
      rewrite ?get_unlessEmpty; keys; destruct (bytes_eqb de []) eqn:Ede; cbn match; rewrite ?Hg; f_equal;
      rewrite ?text_or_zero; try done; try (by unfold bytes_eqb in Ede; case_bool_decide; subst);
      first [exact (f_equal Some (rules_back _))|exact (f_equal Some (directories_back _))].
  - unfold ToWire, pruned. destruct u as [ty rs be mo ds de]. cbn. by destruct (variantOf ty) eqn:E; cbn; rewrite E.
Qed.

Definition rules_update : PermissionUpdate :=
  Update (str "addRules") (Some [Rule (str "Bash") (str "ls *")]) (str "allow") (str "plan") (Some [str "/tmp"]) (str "session").

Lemma permission_roundtrip_witness :
  PermissionUpdateFromWire (map (λ '(k, v), (k, generic v)) (ToWire rules_update)) =
    Update (str "addRules") (Some [Rule (str "Bash") (str "ls *")]) (str "allow") [] None (str "session").
Proof.
  refine (proj1 (permission_roundtrip (map (λ '(k, v), (k, generic v))) rules_update _)).
  intros m k. induction m as [|[k' v] m IH]; [reflexivity|]. cbn. destruct (bytes_eqb k' k); [reflexivity|exact IH].
Defined.

(** Without the JSON text in between the two functions are not inverse: the rules are
    a [[]map[string]any], which the assertion to [[]any] refuses. *)
Example direct_roundtrip_drops_rules :
  PermissionUpdateFromWire (ToWire rules_update) = Update (str "addRules") None (str "allow") [] None (str "session").
Proof. vm_compute. done. Qed.

(** ** Verdicts *)

Section verdicts.
Context {W : Type} (Match : bytes → bytes → option bool).
Implicit Types (regs : list (HookRegistration (W := W))) (e : HookEvent) (w : W).

(** A denial skips what is left of the registrations. *)
Lemma dispatch_app pre post e m w :
  Decision_ (Output m) ≠ PermissionDeny →
  dispatch_loop Match m (pre ++ post) e w =
    match dispatch_loop Match m pre e w with
    | (w', Err err) => (w', Err err)
    | (w', Ok m') => if decide (Decision_ (Output m') = PermissionDeny) then (w', Ok m') else dispatch_loop Match m' post e w'
    end.
Proof.
  revert m w. induction pre as [|r pre IH]; intros m w Hm; cbn [app dispatch_loop]; [by rewrite decide_False|].
  destruct (applies Match r e) as [[]|]; [|by apply IH|done]. destruct (Fn r) as [f|]; [|by apply IH].
  destruct (f e w) as [w1 [d|]]; [|done]. destruct (decide (Decision_ (Output (mergeHookDecision m d)) = PermissionDeny)) as [Hd|Hd].
  - by rewrite decide_True.
  - by apply IH.
Qed.

(** What a non-empty verdict of a hook leaves in the merged decision. *)
Lemma merge_verdict m d : Decision_ (Output d) ≠ PermissionAsk → Decision_ (Output (mergeHookDecision m d)) = Decision_ (Output d).
Proof. intros Hd. unfold mergeHookDecision. cbn. by rewrite decide_False. Qed.

(** Nobody denies: neither does the loop. *)
Lemma dispatch_no_deny regs e : ∀ m w m' w',
  (∀ r f w w' d, r ∈ regs → Fn r = Some f → f e w = (w', Ok d) → Decision_ (Output d) ≠ PermissionDeny) →
  Decision_ (Output m) ≠ PermissionDeny → dispatch_loop Match m regs e w = (w', Ok m') → Decision_ (Output m') ≠ PermissionDeny.
Proof.
  induction regs as [|r regs IH]; intros m w m' w' Hr Hm; cbn; [by intros [= _ <-]|].
  assert (∀ r f w w' d, r ∈ regs → Fn r = Some f → f e w = (w', Ok d) → Decision_ (Output d) ≠ PermissionDeny) as Hr'
    by (intros r0 f w0 w0' d Hin; apply Hr; by apply elem_of_cons; right).
  destruct (applies Match r e) as [[]|]; [|by apply IH|done]. destruct (Fn r) as [f|] eqn:Ef; [|by apply IH].
  destruct (f e w) as [w1 [d|]] eqn:Ed; [|done].
  assert (Decision_ (Output d) ≠ PermissionDeny) as Hd by (eapply Hr; [by apply elem_of_cons; left|done|done]).
  assert (Decision_ (Output (mergeHookDecision m d)) ≠ PermissionDeny) as Hmd.
  { unfold mergeHookDecision. cbn. case_decide; done. }
  rewrite decide_False by done. by apply IH.
Qed.

(** C21: the verdict on a tool call.  A hook that denies, reached without an earlier
    denial or error, ends the evaluation with a denial: the hooks registered after it
    and the permission callback are not called and cannot change the verdict.  Where
    the hooks do not deny, the callback can, whatever they allowed.  And a denial only
    comes from a hook or from the callback. *)
Theorem denial_is_final regs fn e w w1 m :
  dispatchHooks Match regs e w = (w1, Ok m) → Decision_ (Output m) ≠ PermissionDeny →
  (∀ r f post d w2, applies Match r e = Ok true → Fn r = Some f → f e w1 = (w2, Ok d) → Decision_ (Output d) = PermissionDeny →
    ∃ d', Decision_ (Output d') = PermissionDeny ∧ applyPermissions Match (Some (Opts (regs ++ r :: post) fn)) e w = (w2, Ok d')) ∧
  (∀ f msg i w2, fn = Some f → Kind e = str "PreToolUse" →
    f (EToolName e) (ToolInput e) zeroContext w1 = (w2, Ok (PermissionResultDeny msg i)) →
    ∃ d', Decision_ (Output d') = PermissionDeny ∧ applyPermissions Match (Some (Opts regs fn)) e w = (w2, Ok d')) ∧
  (∀ w2 d', (∀ f n i c w w', fn = Some f → ∀ msg b, f n i c w ≠ (w', Ok (PermissionResultDeny msg b))) →
    applyPermissions Match (Some (Opts regs fn)) e w = (w2, Ok d') → Decision_ (Output d') ≠ PermissionDeny).
Proof.
  intros Hregs Hm. unfold applyPermissions. cbn [Hooks OCanUseTool]. split_and!.
  - intros r f post d w2 Ha Hf Hd Hdeny. exists (mergeHookDecision m d).
    assert (Decision_ (Output (mergeHookDecision m d)) = PermissionDeny) as Hmd by (rewrite merge_verdict; [done|by rewrite Hdeny]).
    split; [done|]. unfold dispatchHooks in *. rewrite dispatch_app by done. rewrite Hregs, decide_False by done.
    cbn [dispatch_loop]. rewrite Ha, Hf, Hd, decide_True by done. by rewrite decide_True.
  - intros f msg i w2 -> Hk Hf. rewrite Hregs, decide_False by done. unfold applyCanUseTool. rewrite Hk, Hf.
    eexists. split; [|reflexivity]. done.
  - intros w2 d' Hno. rewrite Hregs, decide_False by done. unfold applyCanUseTool.
    destruct fn as [f|]; [|by intros [= _ <-]]. destruct (negb _); [by intros [= _ <-]|].
    destruct (f _ _ _ w1) as [w3 [[| |msg i]|]] eqn:Ef; [by intros [= _ <-]..| |done].
    destruct (Hno f _ _ _ _ _ eq_refl msg i Ef).
Qed.

(** Hooks that never deny leave no denial. *)
Lemma dispatchHooks_no_deny regs e w w' m :
  (∀ r f w w' d, r ∈ regs → Fn r = Some f → f e w = (w', Ok d) → Decision_ (Output d) ≠ PermissionDeny) →
  dispatchHooks Match regs e w = (w', Ok m) → Decision_ (Output m) ≠ PermissionDeny.
Proof. intros Hr. by apply dispatch_no_deny. Qed.
End verdicts.

(** Hooks that log their name: the first allows with a reason, the second denies. *)
Definition logHook (name verdict_ reason : bytes) : HookRegistration (W := list bytes) :=
  Reg (str "PreToolUse") [] (Some (λ _ w, (w ++ [name], Ok (verdict verdict_ reason)))).

Definition bash : HookEvent := HEvent (str "PreToolUse") [] (str "Bash") [] [] [] [].

Lemma denial_is_final_witness :
  ∃ d', Decision_ (Output d') = PermissionDeny ∧
  applyPermissions (λ _ _, None)
    (Some (Opts ([logHook (str "a") PermissionAllow (str "fine")] ++ logHook (str "b") PermissionDeny [] :: [logHook (str "c") PermissionAllow []])
      (Some (λ _ _ _ w, (w ++ [str "callback"], Ok NoOpinion))))) bash [] = ([str "a"; str "b"], Ok d').
Proof.
  refine (proj1 (denial_is_final (λ _ _, None) [logHook (str "a") PermissionAllow (str "fine")]
    (Some (λ _ _ _ w, (w ++ [str "callback"], Ok NoOpinion))) bash [] [str "a"] (verdict PermissionAllow (str "fine")) _ _)
    (logHook (str "b") PermissionDeny []) _ [logHook (str "c") PermissionAllow []] (verdict PermissionDeny []) [str "a"; str "b"] _ eq_refl _ _).
  - vm_compute. reflexivity.
  - discriminate.
  - reflexivity.
  - reflexivity.
  - reflexivity.
Defined.

(** The reason that reaches the CLI is the last one given, not the one of the
    verdict: here the denial carries the reason of the hook that allowed. *)
Example denial_with_reason_of_allow :
  snd (dispatchHooks (λ _ _, None) [logHook (str "a") PermissionAllow (str "fine"); logHook (str "b") PermissionDeny []] bash []) =
    Ok (verdict PermissionDeny (str "fine")).
Proof. vm_compute. done. Qed.
End Permissions.
