(* ===== verification/ClaudeCallbacks.v ===== *)
(** What pkg/llm/claude sets up for a session and answers from it: the hook callbacks
    registered with the initialize request and their invocation, the in-process MCP
    servers (mcp.go), the timeout of the handshake (control_protocol.go) and the
    environment of the subprocess (client_env.go). *)
From S2P Require Import Prelude GoUtf8 GoStrconv GoStrings GoQuote LlmUtil ClaudePermissions.

Module Callbacks.
Import Permissions.

(** ** Hook callbacks *)

Section callbacks.
Context {W : Type}.

(** The part of [controlProtocol] that initialize fills. *)
Record registry := Registry { hookCallbacks : gmap bytes (Hook (W := W)); nextCallbackID : nat }.

Record matcher := Matcher { pattern : option bytes; hookCallbackIds : list bytes }.

(** [out[event] = append(out[event], m)]. *)
Fixpoint addMatcher (event : bytes) (m : matcher) (out : list (bytes * list matcher)) : list (bytes * list matcher) :=
  match out with
  | [] => [(event, [m])]
  | (k, ms) :: out => if bytes_eqb k event then (k, ms ++ [m]) :: out else (k, ms) :: addMatcher event m out
  end.

Fixpoint matchersOf (out : list (bytes * list matcher)) (event : bytes) : list matcher :=
  match out with
  | [] => []
  | (k, ms) :: out => if bytes_eqb k event then ms else matchersOf out event
  end.

Definition callbackID (n : nat) : bytes := str "hook_" ++ Itoa (Z.of_nat n).

Fixpoint hooksWire_loop (regs : list (HookRegistration (W := W))) (cp : registry) (out : list (bytes * list matcher)) : registry * list (bytes * list matcher) :=
  match regs with
  | [] => (cp, out)
  | reg :: regs =>
      match Fn reg with
      | None => hooksWire_loop regs cp out
      | Some fn =>
          let id := callbackID (nextCallbackID cp) in
          let m := Matcher (if bytes_eqb (ToolGlob reg) [] then None else Some (ToolGlob reg)) [id] in
          hooksWire_loop regs (Registry (<[id := fn]> (hookCallbacks cp)) (S (nextCallbackID cp))) (addMatcher (RKind reg) m out)
      end
  end.

(** [None] is the nil map, sent as null. *)
Definition hooksWire (hooks : list HookRegistration) (cp : registry) : registry * option (list (bytes * list matcher)) :=
  let '(cp, out) := hooksWire_loop hooks cp [] in
  (cp, if length out =? 0 then None else Some out).

Definition handleHookCallback (cp : registry) (decode : bytes → result bytes (bytes * bytes)) (decodeEvent : bytes → result bytes HookEvent)
    (reqBody : bytes) (w : W) : W * result error Permissions.wire :=
  match decode reqBody with
  | Err err => (w, Err (PlainError (str "decode hook_callback request: " ++ err)))
  | Ok (id, input) =>
      match hookCallbacks cp !! id with
      | None => (w, Err (PlainError (str "no hook callback found for ID: " ++ id)))
      | Some hook =>
          match (if 0 <? length input then decodeEvent input else Ok (HEvent [] [] [] [] [] [] [])) with
          | Err err => (w, Err (PlainError (str "decode hook input: " ++ err)))
          | Ok event =>
              match hook event w with
              | (w, Err e) => (w, Err e)
              | (w, Ok d) => (w, Ok (hookDecisionWire d))
              end
          end
      end
  end.

Lemma matchersOf_add event event' m out :
  matchersOf (addMatcher event m out) event' = matchersOf out event' ++ (if bytes_eqb event event' then [m] else []).
Proof.
  induction out as [|[k ms] out IH]; cbn; [by destruct (bytes_eqb event event')|].
  unfold bytes_eqb in *. destruct (decide (k = event)) as [->|Hk].
  - rewrite bool_decide_true by done. cbn. unfold bytes_eqb. case_bool_decide; [done|by rewrite app_nil_r].
  - rewrite bool_decide_false by done. cbn. unfold bytes_eqb. destruct (decide (k = event')) as [->|Hk'].
    + rewrite bool_decide_true, bool_decide_false by done. by rewrite app_nil_r.
    + by rewrite bool_decide_false.
Qed.

Lemma callbackID_inj n n' : callbackID n = callbackID n' → n = n'.
Proof.
  unfold callbackID, Itoa. intros E%app_inv_head. rewrite !(proj2 (Z.ltb_ge _ _)) in E by lia. apply utoa_inj in E; lia.
Qed.

(** Identifiers given out stay with their hook. *)
Lemma hooksWire_loop_keeps regs cp out n :
  n < nextCallbackID cp → hookCallbacks (hooksWire_loop regs cp out).1 !! callbackID n = hookCallbacks cp !! callbackID n.
Proof.
  revert cp out. induction regs as [|r regs IH]; intros cp out Hn; cbn; [done|]. destruct (Fn r) as [f|]; [|by apply IH].
  rewrite IH by (cbn; lia). cbn. rewrite lookup_insert_ne; [done|]. intros E%callbackID_inj. lia.
Qed.

(** A matcher with the hooks behind its identifiers. *)
Definition resolve (cp : registry) (m : matcher) : option bytes * list (option Hook) :=
  (pattern m, (λ id, hookCallbacks cp !! id) <$> hookCallbackIds m).

(** The registrations of an event that have a function, with their patterns. *)
Definition registered (regs : list (HookRegistration (W := W))) (event : bytes) : list (option bytes * list (option Hook)) :=
  omap (λ r, if bytes_eqb (RKind r) event then
      (λ f, (if bytes_eqb (ToolGlob r) [] then None else Some (ToolGlob r), [Some f])) <$> Fn r
    else None) regs.

Lemma hooksWire_loop_spec regs cp out event :
  let '(cp', out') := hooksWire_loop regs cp out in
  resolve cp' <$> matchersOf out' event = (resolve cp' <$> matchersOf out event) ++ registered regs event.
Proof.
  revert cp out. induction regs as [|r regs IH]; intros cp out; cbn; [by rewrite app_nil_r|]. destruct (Fn r) as [f|].
  2:{ destruct (bytes_eqb (RKind r) event); apply IH. }
  set (cp1 := Registry _ _). set (m := Matcher _ _). specialize (IH cp1 (addMatcher (RKind r) m out)).
  pose proof (hooksWire_loop_keeps regs cp1 (addMatcher (RKind r) m out) (nextCallbackID cp)) as Hk.
  destruct (hooksWire_loop regs cp1 _) as [cp' out']. cbn in Hk. rewrite IH, matchersOf_add, fmap_app, <-app_assoc. f_equal.
  destruct (bytes_eqb (RKind r) event); cbn; [|done]. f_equal. unfold resolve, m. cbn. rewrite Hk by lia. by rewrite lookup_insert_eq.
Qed.

(** The hooks of a session.  For every event the initialize request lists, in the
    order of registration, one matcher per hook that has a function, with its pattern
    and one identifier; invoking that identifier finds exactly this hook, and
    identifiers of an earlier initialize still find theirs. *)
Theorem hooks_resolve hooks cp :
  let '(cp', out) := hooksWire hooks cp in
  (∀ event, resolve cp' <$> matchersOf (default [] out) event = registered hooks event) ∧
  (∀ n, n < nextCallbackID cp → hookCallbacks cp' !! callbackID n = hookCallbacks cp !! callbackID n) ∧
  (out = None ↔ ∀ r, r ∈ hooks → Fn r = None).
Proof.
  unfold hooksWire. pose proof (hooksWire_loop_spec hooks cp []) as Hs. pose proof (λ n, hooksWire_loop_keeps hooks cp [] n) as Hk.
  assert (length (hooksWire_loop hooks cp []).2 = 0 ↔ ∀ r, r ∈ hooks → Fn r = None) as Hn.
  { assert (∀ regs cp out, length (hooksWire_loop regs cp out).2 = 0 ↔ out = [] ∧ ∀ r, r ∈ regs → Fn r = None) as Hg.
    { intros regs. induction regs as [|r regs IH]; intros cp0 out; cbn.
      - rewrite length_zero_iff_nil. split; [intros ->; split; [done|]; intros r Hr; by apply elem_of_nil in Hr|tauto].
      - destruct (Fn r) as [f|] eqn:Ef; rewrite IH; setoid_rewrite elem_of_cons.
        + split; [intros [E _]; exfalso; by destruct out as [|[k ms] out]; cbn in E; [|destruct (bytes_eqb k (RKind r))]|].
          intros [_ Hr]. specialize (Hr r (or_introl eq_refl)). congruence.
        + split; intros [-> Hr]; (split; [done|]); intros r' Hin; [destruct Hin as [->|Hin]|]; auto. }
    rewrite Hg. split; [tauto|auto]. }
  destruct (hooksWire_loop hooks cp []) as [cp' out]. cbn in *. split_and!.
  - intros event. rewrite <-Hs. f_equal. destruct out; done.
  - exact Hk.
  - rewrite <-Hn. destruct out; cbn; split; done.
Qed.
End callbacks.

(** ** In-process MCP servers *)

Section mcp.
Context {W Schema Content Annotations : Type}
  (marshalSchema : Schema → result bytes bytes) (marshalContent : Content → result bytes bytes)
  (annotationsAny : Annotations → any) (contentType : Content → bytes) (IsPrint : Z → bool).

(** The verb %q. *)
Definition quoted (s : bytes) : bytes := Quote IsPrint s.

Record ToolResult := MkToolResult { TContent : bytes; RawContent : option (list (option Content)); TIsError : bool }.

(** [mcp.CallToolResult]; a nil entry of its content is [None]. *)
Record CallToolResult := CallResult { CIsError : bool; CContent : list (option Content) }.

Record ToolDefinition := Tool {
  tname : bytes; tdescription : bytes; tschema : option Schema; tannotations : option Annotations;
  mcpHandler : option (bytes → W → W * result bytes CallToolResult);
}.

(** The handler [ToolWithAnnotations] builds: failures are results, not errors. *)
Definition toolHandler {I} (textContent : bytes → Content) (zero : I) (decode : bytes → result bytes I)
    (fn : I → W → W * result bytes ToolResult) (arguments : bytes) (w : W) : W * result bytes CallToolResult :=
  match (if 0 <? length arguments then decode arguments else Ok zero) with
  | Err err => (w, Ok (CallResult true [Some (textContent (str "invalid arguments: " ++ err))]))
  | Ok input =>
      match fn input w with
      | (w, Err err) => (w, Ok (CallResult true [Some (textContent err)]))
      | (w, Ok r) =>
          (w, Ok (CallResult (TIsError r) (match RawContent r with Some c => c | None => [Some (textContent (TContent r))] end)))
      end
  end.

Record inProcessMCPServer := Server { sname : bytes; sversion : bytes; tools : list ToolDefinition }.

Definition serverInfo (s : inProcessMCPServer) : wire :=
  [(str "name", AString (sname s)); (str "version", AString (if bytes_eqb (sversion s) [] then str "1.0.0" else sversion s))].

Fixpoint listTools_loop (defs : list ToolDefinition) (acc : list wire) : result bytes (list wire) :=
  match defs with
  | [] => Ok acc
  | def :: defs =>
      let! schema :=
        match tschema def with
        | None => Ok (AMap [(str "type", AString (str "object"))])
        | Some sc =>
            match marshalSchema sc with
            | Ok raw => Ok (ARaw raw)
            | Err err => Err (str "marshal input schema for MCP tool " ++ quoted (tname def) ++ str ": " ++ err)
            end
        end in
      let entry := [(str "name", AString (tname def)); (str "description", AString (tdescription def)); (str "inputSchema", schema)] ++
        match tannotations def with Some an => [(str "annotations", annotationsAny an)] | None => [] end in
      listTools_loop defs (acc ++ [entry])
  end.

Definition listTools (s : inProcessMCPServer) : result bytes wire :=
  let! l := listTools_loop (tools s) [] in Ok [(str "tools", AMaps l)].

Fixpoint content_loop (items : list (option Content)) (acc : list any) : result bytes (list any) :=
  match items with
  | [] => Ok acc
  | None :: items => content_loop items acc
  | Some item :: items =>
      match marshalContent item with
      | Ok raw => content_loop items (acc ++ [ARaw raw])
      | Err err => Err (str "marshal MCP content " ++ contentType item ++ str ": " ++ err)
      end
  end.

Definition callTool (s : inProcessMCPServer) (name arguments : bytes) (w : W) : W * result bytes wire :=
  match List.find (λ def, bytes_eqb (tname def) name) (tools s) with
  | Some (Tool _ _ _ _ (Some handler)) =>
      match handler arguments w with
      | (w, Err err) => (w, Err err)
      | (w, Ok r) =>
          (w, let! content := content_loop (CContent r) [] in
              Ok ([(str "content", ASlice content)] ++ if CIsError r then [(str "isError", ABool true)] else []))
      end
  | _ => (w, Err (str "tool " ++ quoted name ++ str " not found"))
  end.

Definition jsonrpcID (id : bytes) : any := if length id =? 0 then ANil else ARaw id.

Definition jsonrpcError (id : any) (code : Z) (message : bytes) : wire :=
  [(str "jsonrpc", AString (str "2.0")); (str "id", id); (str "error", AMap [(str "code", AInt code); (str "message", AString message)])].

Definition jsonrpcResult (id : any) (r : wire) : wire :=
  [(str "jsonrpc", AString (str "2.0")); (str "id", id); (str "result", AMap r)].

Definition mcpResponse (jsonrpc : wire) : wire := [(str "mcp_response", AMap jsonrpc)].

Record MCPRequest := MCPReq { ServerName : bytes; MID : bytes; Method : bytes; PName : bytes; PArguments : bytes }.

Definition handleMCPMessage (servers : gmap bytes inProcessMCPServer) (decode : bytes → result bytes MCPRequest) (reqBody : bytes) (w : W) : W * result bytes wire :=
  match decode reqBody with
  | Err err => (w, Err (str "decode mcp_message request: " ++ err))
  | Ok req =>
      if bytes_eqb (ServerName req) [] then (w, Err (str "missing server_name for MCP request"))
      else
        let id := jsonrpcID (MID req) in
        let reply r := match r with Ok r => Ok (mcpResponse (jsonrpcResult id r)) | Err err => Ok (mcpResponse (jsonrpcError id (-32603) err)) end in
        match servers !! ServerName req with
        | None => (w, Ok (mcpResponse (jsonrpcError id (-32601) (str "server " ++ quoted (ServerName req) ++ str " not found"))))
        | Some srv =>
            if bytes_eqb (Method req) (str "initialize") then
              (w, Ok (mcpResponse (jsonrpcResult id [(str "protocolVersion", AString (str "2024-11-05"));
                (str "capabilities", AMap [(str "tools", AMap [])]); (str "serverInfo", AMap (serverInfo srv))])))
            else if bytes_eqb (Method req) (str "tools/list") then (w, reply (listTools srv))
            else if bytes_eqb (Method req) (str "tools/call") then let '(w, r) := callTool srv (PName req) (PArguments req) w in (w, reply r)
            else if bytes_eqb (Method req) (str "notifications/initialized") then
              (w, Ok (mcpResponse [(str "jsonrpc", AString (str "2.0")); (str "result", AMap [])]))
            else (w, Ok (mcpResponse (jsonrpcError id (-32601) (str "method " ++ quoted (Method req) ++ str " not found"))))
        end
  end.

(** A JSON-RPC response: the version, and a result or an error, not both. *)
Definition is_response (r : wire) : Prop :=
  get r (str "jsonrpc") = Some (AString (str "2.0")) ∧
  ((is_Some (get r (str "result")) ∧ get r (str "error") = None) ∨ (get r (str "result") = None ∧ is_Some (get r (str "error")))).

Lemma jsonrpc_shapes id : (∀ r, is_response (jsonrpcResult id r) ∧ get (jsonrpcResult id r) (str "id") = Some id) ∧
  (∀ c m, is_response (jsonrpcError id c m) ∧ get (jsonrpcError id c m) (str "id") = Some id).
Proof.
  split.
  - intros r. split; [|by vm_compute]. split; [by vm_compute|]. left. vm_compute. eauto.
  - intros c m. split; [|by vm_compute]. split; [by vm_compute|]. right. vm_compute. eauto.
Qed.

(** Whatever a tool does, a request that names its server is answered with a JSON-RPC
    response, which carries the identifier of the request unless it is the
    notification. *)
Theorem mcp_always_answers servers decode reqBody req w :
  decode reqBody = Ok req → ServerName req ≠ [] →
  ∃ w' r, handleMCPMessage servers decode reqBody w = (w', Ok (mcpResponse r)) ∧ is_response r ∧
    (Method req ≠ str "notifications/initialized" → get r (str "id") = Some (jsonrpcID (MID req))).
Proof.
  intros Hd Hs. unfold handleMCPMessage. rewrite Hd. unfold bytes_eqb at 1. rewrite bool_decide_false by done.
  destruct (jsonrpc_shapes (jsonrpcID (MID req))) as [Hok Herr].
  assert (∀ (w' : W) r, ∃ (w0 : W) r0, (w', match r with Ok r => Ok (mcpResponse (jsonrpcResult (jsonrpcID (MID req)) r))
      | Err err => Ok (mcpResponse (jsonrpcError (jsonrpcID (MID req)) (-32603) err)) end) = (w0, Ok (E := bytes) (mcpResponse r0)) ∧ is_response r0 ∧
    (Method req ≠ str "notifications/initialized" → get r0 (str "id") = Some (jsonrpcID (MID req)))) as Hreply.
  { intros w' [r|err]; eexists _, _; (split; [reflexivity|]); [destruct (Hok r)|destruct (Herr (-32603)%Z err)]; eauto. }
  destruct (servers !! ServerName req) as [srv|]; [|eexists _, _; (split; [reflexivity|]); edestruct Herr; eauto].
  destruct (bytes_eqb (Method req) (str "initialize")); [eexists _, _; (split; [reflexivity|]); edestruct Hok; eauto|].
  destruct (bytes_eqb (Method req) (str "tools/list")); [apply Hreply|].
  destruct (bytes_eqb (Method req) (str "tools/call")); [destruct (callTool _ _ _ w) as [w' r]; apply Hreply|].
  destruct (bytes_eqb (Method req) (str "notifications/initialized")) eqn:En.
  - apply bool_decide_eq_true in En. eexists _, _. split; [reflexivity|]. split; [|done]. split; [by vm_compute|]. left. vm_compute. eauto.
  - eexists _, _; (split; [reflexivity|]); edestruct Herr; eauto.
Qed.
End mcp.

(** ** Timeouts *)

Definition Millisecond : Z := 1000000.
Definition initializeFloor : Z := 60 * 1000 * Millisecond.

(** [v] is CLAUDE_CODE_STREAM_CLOSE_TIMEOUT; durations are 64-bit nanoseconds. *)
Definition initializeTimeout (v : bytes) : Z :=
  if bytes_eqb v [] then initializeFloor
  else
    match ParseInt v with
    | Err _ => initializeFloor
    | Ok ms =>
        if (ms ≤b 0) then initializeFloor
        else
          let d := LlmUtil.int64 (ms * Millisecond) in
          if (d <b initializeFloor) then initializeFloor else d
    end.

(** [controlRequest]: the time left until the deadline of the context, if longer. *)
Definition controlTimeout (remaining : option Z) : Z :=
  match remaining with
  | Some r => if (initializeFloor <b r) then r else initializeFloor
  | None => initializeFloor
  end.

(** The handshake waits at least a minute, and exactly as long as the variable says
    where that is longer and fits into a duration. *)
Theorem initializeTimeout_bounds v ms :
  (initializeFloor ≤ initializeTimeout v < 2 ^ 63)%Z ∧
  (v ≠ [] → ParseInt v = Ok ms → ms * Millisecond < 2 ^ 63 → initializeTimeout v = Z.max initializeFloor (ms * Millisecond))%Z.
Proof.
  assert (∀ n, - 2 ^ 63 ≤ LlmUtil.int64 n < 2 ^ 63)%Z as Hi.
  { intros n. unfold LlmUtil.int64. pose proof (Z.mod_pos_bound (n + 2 ^ 63) (2 ^ 64)). lia. }
  assert (initializeFloor = 60000000000)%Z as Ef by done. split.
  - unfold initializeTimeout. destruct (bytes_eqb v []); [lia|]. destruct (ParseInt v) as [n|]; [|lia].
    destruct (n ≤b 0) eqn:En; [lia|]. cbn zeta. destruct (LlmUtil.int64 (n * Millisecond) <b initializeFloor) eqn:Ed; [lia|].
    specialize (Hi (n * Millisecond)%Z). lia.
  - intros Hv Hp Hlt. unfold initializeTimeout, bytes_eqb. rewrite bool_decide_false, Hp by done. cbn zeta.
    destruct (ms ≤b 0) eqn:En.
    + unfold Millisecond. lia.
    + rewrite LlmUtil.int64_id by (unfold Millisecond in *; lia). destruct (ms * Millisecond <b initializeFloor) eqn:Ed; lia.
Qed.

(** A value that does not fit wraps around: 292 years of timeout are a minute. *)
Example initializeTimeout_wraps : initializeTimeout (str "9223372036855") = initializeFloor.
Proof. vm_compute. done. Qed.

(** ** The environment of the subprocess *)

Definition sdkEntrypoint : bytes := str "sdk-go".
Definition sdkVersion : bytes := str "0.0.0-dev".

(** The map of the function and the order of its keys. *)
Record environ := Environ { env : gmap bytes bytes; order : list bytes }.

Definition add (k v : bytes) (e : environ) : environ :=
  Environ (<[k := v]> (env e)) (match env e !! k with Some _ => order e | None => order e ++ [k] end).

Definition inherit (kv : bytes) (e : environ) : environ :=
  let '(k, v, ok) := Cut kv EQUALS in
  if negb ok then e else if bytes_eqb k (str "CLAUDECODE") then e else add k v e.

(** [optsEnv] lists the entries of [opts.Env] in the order of iteration; it is empty
    when [opts] is nil. *)
Definition collectEnv (inherited : list bytes) (optsEnv : list (bytes * bytes)) (cwd : bytes) : environ :=
  let e := foldl (λ e kv, inherit kv e) (Environ ∅ []) inherited in
  let e := add (str "CLAUDE_CODE_ENTRYPOINT") sdkEntrypoint e in
  let e := add (str "CLAUDE_AGENT_SDK_VERSION") sdkVersion e in
  let e := if bytes_eqb cwd [] then e else add (str "PWD") cwd e in
  foldl (λ e '(k, v), add k v e) e optsEnv.

Definition buildSubprocessEnv (inherited : list bytes) (optsEnv : list (bytes * bytes)) (cwd : bytes) : list bytes :=
  let e := collectEnv inherited optsEnv cwd in
  (λ k, k ++ [EQUALS] ++ default [] (env e !! k)) <$> order e.

(** Each key of the map is in the order once. *)
Definition env_wf (e : environ) : Prop := NoDup (order e) ∧ ∀ k, k ∈ order e ↔ is_Some (env e !! k).

Lemma add_wf k v e : env_wf e → env_wf (add k v e).
Proof.
  intros [Hn Hk]. unfold add. destruct (env e !! k) as [v'|] eqn:E; split; cbn; try done.
  - intros k'. destruct (decide (k' = k)) as [->|Hne]; [rewrite lookup_insert_eq, Hk, E; split; eauto|by rewrite lookup_insert_ne].
  - apply NoDup_app. split_and!; [done| |apply NoDup_singleton]. intros k' Hin ->%list_elem_of_singleton. apply Hk in Hin. rewrite E in Hin. by destruct Hin.
  - intros k'. rewrite elem_of_app, list_elem_of_singleton. destruct (decide (k' = k)) as [->|Hne].
    + rewrite lookup_insert_eq. split; eauto.
    + rewrite lookup_insert_ne, <-Hk by done. tauto.
Qed.

Lemma inherit_wf kv e : env_wf e → env_wf (inherit kv e).
Proof. intros He. unfold inherit. destruct (Cut kv EQUALS) as [[k v] ok]. repeat case_match; try done. by apply add_wf. Qed.

Lemma collectEnv_wf inherited optsEnv cwd : env_wf (collectEnv inherited optsEnv cwd).
Proof.
  assert (∀ e, env_wf e → env_wf (foldl (λ e kv, inherit kv e) e inherited)) as H1
    by (induction inherited as [|kv l IH]; cbn; [done|]; intros e He; by apply IH, inherit_wf).
  assert (∀ e, env_wf e → env_wf (foldl (λ e '(k, v), add k v e) e optsEnv)) as H2
    by (induction optsEnv as [|[k v] l IH]; cbn; [done|]; intros e He; by apply IH, add_wf).
  assert (env_wf (Environ ∅ [])) as H0.
  { split; cbn; [constructor|]. intros k. rewrite elem_of_nil, lookup_empty. split; [done|]. by intros []. }
  unfold collectEnv. apply H2. destruct (bytes_eqb cwd []); repeat apply add_wf; by apply H1.
Qed.

(** The value an inherited entry gives to [k], and the value of the last that does. *)
Definition givenBy (k kv : bytes) : option bytes :=
  let '(k', v, ok) := Cut kv EQUALS in
  if ok && bool_decide (k' = k) && negb (bool_decide (k' = str "CLAUDECODE")) then Some v else None.
Definition inheritedValue (inherited : list bytes) (k : bytes) : option bytes := last (omap (givenBy k) inherited).

(** The value of [k] in the subprocess: what the options say, then the working
    directory, then the two variables of the SDK, then what is inherited. *)
Definition effective (inherited : list bytes) (optsEnv : list (bytes * bytes)) (cwd k : bytes) : option bytes :=
  match (list_to_map optsEnv : gmap bytes bytes) !! k with
  | Some v => Some v
  | None =>
      if bool_decide (k = str "PWD") && negb (bytes_eqb cwd []) then Some cwd
      else if bool_decide (k = str "CLAUDE_AGENT_SDK_VERSION") then Some sdkVersion
      else if bool_decide (k = str "CLAUDE_CODE_ENTRYPOINT") then Some sdkEntrypoint
      else inheritedValue inherited k
  end.

Lemma inherit_lookup kv e k : env (inherit kv e) !! k = match givenBy k kv with Some v => Some v | None => env e !! k end.
Proof.
  unfold inherit, givenBy, bytes_eqb. generalize (str "CLAUDECODE"). intros cc.
  destruct (Cut kv EQUALS) as [[k' v] []]; [|done]. destruct (decide (k' = cc)) as [Hc|Hc].
  - rewrite !(bool_decide_true (k' = cc)), andb_false_r by done. done.
  - rewrite !(bool_decide_false (k' = cc)), andb_true_r by done. cbn. destruct (decide (k' = k)) as [->|Hk].
    + by rewrite bool_decide_true, lookup_insert_eq.
    + by rewrite bool_decide_false, lookup_insert_ne.
Qed.

Lemma inherited_lookup inherited k e :
  env (foldl (λ e kv, inherit kv e) e inherited) !! k = match inheritedValue inherited k with Some v => Some v | None => env e !! k end.
Proof.
  unfold inheritedValue. induction inherited as [|kv l IH] using rev_ind; [done|].
  rewrite foldl_app, omap_app. cbn [foldl omap list_omap]. rewrite inherit_lookup.
  destruct (givenBy k kv) as [v|]; [by rewrite last_snoc|]. rewrite app_nil_r. exact IH.
Qed.

Lemma optsEnv_lookup optsEnv e k :
  NoDup optsEnv.*1 →
  env (foldl (λ e '(k, v), add k v e) e optsEnv) !! k =
    match (list_to_map optsEnv : gmap bytes bytes) !! k with Some v => Some v | None => env e !! k end.
Proof.
  revert e. induction optsEnv as [|[k' v] l IH]; intros e; cbn; [done|]. intros [Hn Hnd]%NoDup_cons. rewrite IH by done. cbn.
  destruct (decide (k = k')) as [->|Hk].
  - rewrite lookup_insert_eq, (not_elem_of_list_to_map_1 _ _ Hn). by rewrite lookup_insert_eq.
  - by rewrite !lookup_insert_ne.
Qed.

(** The environment of the subprocess lists every key once, with the value the
    options give it, else the working directory for PWD, else the variables of the
    SDK, else the last inherited one; CLAUDECODE is only there when the options name
    it. *)
Theorem environment_exact inherited optsEnv cwd :
  NoDup optsEnv.*1 →
  let e := collectEnv inherited optsEnv cwd in
  buildSubprocessEnv inherited optsEnv cwd = (λ k, k ++ [EQUALS] ++ default [] (effective inherited optsEnv cwd k)) <$> order e ∧
  NoDup (order e) ∧ (∀ k, k ∈ order e ↔ is_Some (effective inherited optsEnv cwd k)).
Proof.
  intros Hnd e. destruct (collectEnv_wf inherited optsEnv cwd) as [Hn Hk].
  assert (∀ k, env e !! k = effective inherited optsEnv cwd k) as Hv.
  { intros k. unfold e, collectEnv, effective. rewrite optsEnv_lookup by done. case_match; [done|].
    destruct (bytes_eqb cwd []); cbn [negb]; rewrite ?andb_false_r, ?andb_true_r; cbn [env add];
      repeat (case_bool_decide; [subst k; repeat (rewrite lookup_insert_eq || rewrite lookup_insert_ne by (vm_compute; discriminate)); done|rewrite lookup_insert_ne by congruence]);
      rewrite inherited_lookup; by destruct (inheritedValue inherited k). }
  split_and!; [|done|].
  - unfold buildSubprocessEnv. apply list_fmap_ext. intros i k _. fold e. by rewrite Hv.
  - intros k. rewrite <-Hv. apply Hk.
Qed.

Lemma environment_exact_witness :
  buildSubprocessEnv [str "A=1"; str "CLAUDECODE=1"; str "A=2"; str "PWD=/"] [(str "CLAUDE_CODE_ENTRYPOINT", str "x")] (str "/w") =
    [str "A=2"; str "PWD=/w"; str "CLAUDE_CODE_ENTRYPOINT=x"; str "CLAUDE_AGENT_SDK_VERSION=0.0.0-dev"] ∧
  NoDup (order (collectEnv [str "A=1"; str "CLAUDECODE=1"; str "A=2"; str "PWD=/"] [(str "CLAUDE_CODE_ENTRYPOINT", str "x")] (str "/w"))).
Proof.
  split; [vm_compute; reflexivity|].
  exact (proj1 (proj2 (environment_exact [str "A=1"; str "CLAUDECODE=1"; str "A=2"; str "PWD=/"]
    [(str "CLAUDE_CODE_ENTRYPOINT", str "x")] (str "/w") (NoDup_singleton _)))).
Defined.
End Callbacks.
